(* ===== verification/_CoqProject ===== *)
-Q . S2P
Prelude.v
Utils.v
CoinLots.v
CoinLotTransfer.v
Crypto.v
LedgerState.v
ValidatorRegistry.v
Quorum.v
Evidence.v
VotePool.v
Encoding.v
Messages.v
Inbound.v
Payloads.v
History.v
Merkle.v
Snapshot.v
Schedule.v
Transactions.v
Mempool.v
Staking.v
Rewards.v
ValidatorSets.v
StateTrees.v
Blocks.v
Finality.v
ConsensusText.v
LightClient.v
