(* ===== verification/Prelude.v ===== *)
(** * Nodo: a verification library for the Nodo blockchain node

    Nodo is a proof-of-stake blockchain node written in C++.  This library models the
    parts of it that decide what money exists, who may sign, which block is final and
    which bytes of the network are believed, and proves the properties that make them
    correct.  Every definition keeps the name of the function it translates; the doc
    comment of each file names its source files.

    ** The parts of the program and where they are modelled

    Money.  [Utils] is [utils/Amount] (checked int64 amounts) and the text checks of
    [SafeScalar].  [CoinLots] is [core/CoinLot] and [core/CoinLotRegistry]: every unit
    of money belongs to a lot with an owner and an origin.  [CoinLotTransfer] is
    [core/CoinLotTransactionValidator]: choosing input lots, building a plan and
    applying it.  [LedgerState] is [core/State] with accounts, nonces, mint records and
    genesis rewards; it calls the two files before it.

    Transactions.  [Transactions] is [core/Transaction] with the policy of each
    transaction type: construction, ids, signing payloads, structure and authorization.
    [Mempool] is the pool of pending transactions: admission, replacement, eviction,
    pruning and the selection of a block.

    Stake and rewards.  [Staking] is [node/StakingRegistry] with stake accounts and
    positions: deposits, activation, unbonding, withdrawal, penalties and key rotation.
    [Rewards] is the emission of an epoch, its distribution to validators, the split of
    fees and the settlement of both on the accounts.  [ValidatorSets] chooses the
    validators of the next epoch within the churn limit and synchronizes their weight.

    Identity.  [Crypto] is hashing, hexadecimal text, keys, addresses and signature
    bundles.  [ValidatorRegistry] is the registry of validators, its lifecycle and the
    history of validator sets.

    Consensus.  [Quorum] has votes, the two-thirds threshold and certificates;
    [Evidence] the proofs of misbehaviour and their pool; [VotePool] the pool of votes,
    the network collector, timeouts and the round manager; [Schedule] who proposes at
    which height and round, and which epoch a height belongs to.  [Finality] is
    [consensus/BlockFinalizer] with the registry of finalized heights, fork choice and
    the median block time.  [ConsensusText] is the text form of votes, certificates,
    finalized records and evidence with their parsers.

    Chain.  [StateTrees] is [core/MerkleTree], [core/SparseMerkleTree] and
    [core/StateRootCalculator]; [Blocks] is [core/LedgerRecord], [core/Block] with its
    text form and [core/Blockchain].  [LightClient] is the verifier of light clients and
    the service of a full node that answers them; it composes [Blocks], [Finality] and
    [ConsensusText].

    Bytes.  [Encoding] is the canonical writer and reader; [Messages], [Payloads] and
    [History] are the codecs built on them; [Inbound] decides which envelopes of a peer
    are accepted; [Merkle] is the domain separated hashing and the Merkle trees of
    protocol v1; [Snapshot] transfers a state snapshot in chunks, each with a proof.

    ** How code is represented

    A C++ call is a [result]: it returns or throws one of the exceptions of [exn].  A
    mutating method is a computation [M S A] of this file: the object is the state, and
    when the method throws the state is what the code left behind, so that a failure
    half way through an update is visible.  An integer is a [Z]; [wrap64], [wrap32] and
    [as_i64] are written where the code relies on or can hit the width, and the checked
    operations are written with their checks.  [std::map] and [std::set] are [gmap] and
    [gset], iterated in key order where the order is observable; strings are Rocq strings of
    8-bit characters and byte vectors lists of integers between 0 and 255.  Structs are
    records, enums are inductive types, and a class with a virtual interface is a record
    or a type class.

    SHA-256 (OpenSSL) is the class [Sha256]; its hypotheses are the laws of
    [Sha256Spec] (a digest has 32 bytes) and, in theorems that speak of forgery, the
    absence of collisions among the finitely many inputs that the theorem names.  The
    signature schemes are records of functions without hypotheses.  The clock, the
    stores behind interfaces and the JSON string literals of the nlohmann library are
    arguments.

    Loops over a container are structural.  The others carry fuel: the allocation loop of
    a transfer needs at most 4 iterations per input lot, recursion over a Merkle tree at
    most 65 levels, and the eviction and selection loops of the mempool one iteration per
    entry, a layer of hashes halves at every step, the splitter of records takes one step
    per character, and a range of headers is counted down; in each case a lemma shows that the fuel is never used up, so the
    theorems speak about results and not only about what happens if there is one.

    ** What the theorems show

    Ledger: every operation refines an abstract ledger of balances and supply, on success
    and on failure, a creation of coins past an int64 of supply excepted (it throws half
    way); transfers move exactly what they declare, conserve every origin, are applied at
    most once, and a transfer that validation accepts is applied unless an id it generates
    is taken.  Transactions: a signature binds the whole transaction, authorization is
    exactly a bundle of the sender's key, the mempool stays consistent and within its
    limits, evicts only for better payers and selects blocks greedily.  Stake: every
    sequence of operations without deposits to rotated-away keys keeps the registry audited
    and conserves stake, and stake cannot leave before evidence about it is too old; such a
    deposit is accepted and breaks the audit.  Rewards: the emission of an epoch is capped
    and paid out in exact shares to everyone with accepted work and a positive score, and
    settlement creates and burns only what it records.  Registry: every operation is all or
    nothing and keeps the audit true (jailing and exits with a timestamp not before the
    registration), and a validator that left never regains weight.  Consensus: two
    certificates of one height and round agree when at most a third of the weight
    equivocates; quorums intersect; enough votes always give a certificate, also through
    the pool; evidence is accepted exactly for conflicting votes of registered keys; the
    proposer schedule never stalls and visits everyone.  Finality: the registry of
    finalized heights always matches the chain, finalization is all or nothing, fork choice
    never gives up a finalized block and the block time is the earliest allowed time or a
    weighted median that a minority cannot move.  Chain: the hash of the tip binds the whole
    history of chains that start with a genesis block, state roots bind the state when
    addresses are free of NUL characters, the sparse tree is the complete tree, and proofs of
    accounts and records are complete and sound.  Light clients: accepted header chains
    agree with each other when at most a third of the weight equivocates, accepted
    transaction proofs show the record, and the answers of a healthy node are accepted.
    Bytes: the codecs are canonical round trips, readers stay inside their buffers,
    replayed envelopes and unsolicited responses are refused, memory kept per peer is
    bounded.  Merkle proofs are complete and sound, and a snapshot is assembled exactly
    when all its chunks arrive and is then the committed one.  Statements about hashes hold
    unless SHA-256 collides on the texts they name.

    Some theorems of kind error state where the code does less than it means to; each is
    a concrete execution.

    ** Modelling notes

    Differences of timestamps in the request guard and the inbound validator are exact
    integers: the code's signed subtraction overflows only for clocks that are centuries
    apart.  [std::lower_bound] is the first element not below the key; it is applied to
    sorted vectors only.  [std::sort] with a strict total order is [merge_sort].
    Allocation failure and I/O errors of streams into memory are not represented.

    ** Not modelled

    Text forms that exist for logs only and some parsers (transactions, ledger snapshots,
    mint records); sockets, files and processes (p2p transport, storage, command line);
    the orchestration of the node (NodeOrchestrator, block production, persistence, the
    codecs of finalized artifacts), which is mostly I/O around the components above; the
    router that executes transactions, treasury and governance; restoring a staking
    registry; archives. *)
From stdpp Require Export base gmap strings list sorting pretty.
From Stdlib Require Export ZArith Lia.

#[global] Open Scope Z_scope.

(** ** C++ exceptions and results *)

(** The standard exceptions the code throws, with their [what()] text.
    [OutOfFuel] is not a C++ exception: it is the value of a loop of the model
    that ran out of fuel, and [UndefinedBehaviour] is an access outside a
    container; every use of them comes with a proof that it does not occur. *)
Inductive exn :=
| invalid_argument (msg : string)
| logic_error (msg : string)
| runtime_error (msg : string)
| overflow_error (msg : string)
| underflow_error (msg : string)
| out_of_range (msg : string)
| length_error (msg : string)
| OutOfFuel
| UndefinedBehaviour.

#[global] Instance exn_eq_dec : EqDecision exn.
Proof. solve_decision. Defined.

(** [std::exception::what]. *)
Definition what (e : exn) : string :=
  match e with
  | invalid_argument m | logic_error m | runtime_error m | overflow_error m
  | underflow_error m | out_of_range m | length_error m => m
  | OutOfFuel | UndefinedBehaviour => ""
  end.

(** The outcome of a C++ call: it returns a value or throws. *)
Inductive result (A : Type) :=
| Ok (a : A)
| Throw (e : exn).
Arguments Ok {A} a.
Arguments Throw {A} e.

#[global] Instance result_eq_dec `{EqDecision A} : EqDecision (result A).
Proof. solve_decision. Defined.
#[global] Instance result_ret : MRet result := λ A x, Ok x.
#[global] Instance result_bind : MBind result := λ A B f r,
  match r with Ok a => f a | Throw e => Throw e end.

#[global] Instance result_fmap : FMap result := λ A B f r,
  match r with Ok a => Ok (f a) | Throw e => Throw e end.

(** [if (b) throw e;] *)
Definition throw_if (b : bool) (e : exn) : result unit :=
  if b then Throw e else Ok tt.

(** Short-circuit conjunction of two predicates that may throw. *)
Definition andR (a b : result bool) : result bool :=
  x ← a; if x : bool then b else Ok false.

(** [for (x : l) if (!p(x)) return false; return true;] *)
Fixpoint all_ofR {A} (p : A → result bool) (l : list A) : result bool :=
  match l with
  | [] => Ok true
  | x :: l => andR (p x) (all_ofR p l)
  end.

(** [for (x : l) acc = f(acc, x);] with a body that may throw. *)
Fixpoint foldR {A B} (f : B → A → result B) (acc : B) (l : list A) : result B :=
  match l with
  | [] => Ok acc
  | x :: l => acc' ← f acc x; foldR f acc' l
  end.

(** ** Methods that mutate their object *)

(** A non-const method on objects of type [S]: the object is left in a state
    also when the method throws, because C++ does not roll back. *)
Definition M (S A : Type) : Type := S → result A * S.

#[global] Instance M_ret S : MRet (M S) := λ A x s, (Ok x, s).
#[global] Instance M_bind S : MBind (M S) := λ A B f m s,
  match m s with
  | (Ok a, s') => f a s'
  | (Throw e, s') => (Throw e, s')
  end.

(** A call that only reads the object. *)
Definition lift {S A} (r : result A) : M S A := λ s, (r, s).
Definition gets {S A} (f : S → A) : M S A := λ s, (Ok (f s), s).
Definition getsR {S A} (f : S → result A) : M S A := λ s, (f s, s).
Definition modify {S} (f : S → S) : M S unit := λ s, (Ok tt, f s).
Definition throw {S A} (e : exn) : M S A := λ s, (Throw e, s).

(** A mutating call on a local object [s0], which is dropped when the call
    throws. *)
Definition on_local {S A} (m : M S A) (s0 : S) : result S :=
  match m s0 with
  | (Ok _, s') => Ok s'
  | (Throw e, _) => Throw e
  end.

(** [for (x : l) f(x);] *)
Fixpoint for_each {S A} (f : A → M S unit) (l : list A) : M S unit :=
  match l with
  | [] => mret tt
  | x :: l => f x ≫= λ _, for_each f l
  end.

(** ** Machine integers *)

Definition u64_max : Z := 18446744073709551615.
Definition u32_max : Z := 4294967295.
Definition i64_max : Z := 9223372036854775807.
Definition i64_min : Z := -9223372036854775808.

Definition u64 (z : Z) : Prop := 0 ≤ z ≤ u64_max.
Definition u32 (z : Z) : Prop := 0 ≤ z ≤ u32_max.
Definition i64 (z : Z) : Prop := i64_min ≤ z ≤ i64_max.

(** Unsigned 64-bit arithmetic wraps. *)
Definition wrap64 (z : Z) : Z := z mod 18446744073709551616.

(** [static_cast<std::int64_t>] of an unsigned 64-bit value, two's complement. *)
Definition as_i64 (z : Z) : Z :=
  if z <=? i64_max then z else z - 18446744073709551616.

(** ** Strings *)

Definition empty_string (s : string) : bool := String.eqb s "".
Definition string_size (s : string) : Z := Z.of_nat (String.length s).

Lemma string_app_assoc (a b c : string) : (a +:+ b) +:+ c = a +:+ (b +:+ c).
Proof. induction a as [|x a IH]; [done|apply (f_equal (String x)), IH]. Qed.

(** [std::to_string] on integers. *)
Definition to_string (z : Z) : string := pretty z.

(** Membership in explicit lists. *)
Ltac elem := rewrite ?elem_of_cons, ?elem_of_app, ?elem_of_cons; tauto.

(** ** Ordered maps *)

(** The key order of a [std::map], which fixes its iteration order. *)
Class KeyOrder (K : Type) := {
  key_le : relation K;
  key_le_dec :: RelDecision key_le;
  key_le_total :: Total key_le;
  key_le_trans :: Transitive key_le;
  key_le_anti :: AntiSymm (=) key_le;
}.

#[global] Instance string_key_order : KeyOrder string :=
  {| key_le := String.le; key_le_trans := @PreOrder_Transitive _ String.le _ |}.

#[global] Instance Z_key_order : KeyOrder Z :=
  {| key_le := Z.le; key_le_trans := Z.le_trans; key_le_anti := Z.le_antisymm |}.

(** The entries of a map in iteration order: [for (const auto& [k, v] : m)]. *)
Definition entry_le {K V} `{KeyOrder K} : relation (K * V) := λ p q, key_le p.1 q.1.

#[global] Instance entry_le_dec {K V} `{KeyOrder K} : RelDecision (@entry_le K V _).
Proof. intros p q. unfold entry_le. apply _. Defined.

Definition entries {K V} `{Countable K, !KeyOrder K} (m : gmap K V) : list (K * V) :=
  merge_sort entry_le (map_to_list m).

Lemma entries_Permutation {K V} `{Countable K, !KeyOrder K} (m : gmap K V) :
  entries m ≡ₚ map_to_list m.
Proof. apply merge_sort_Permutation. Qed.

Lemma elem_of_entries {K V} `{Countable K, !KeyOrder K} (m : gmap K V) k v :
  (k, v) ∈ entries m ↔ m !! k = Some v.
Proof. by rewrite entries_Permutation, elem_of_map_to_list. Qed.

Lemma NoDup_fst_entries {K V} `{Countable K, !KeyOrder K} (m : gmap K V) :
  NoDup (entries m).*1.
Proof. rewrite entries_Permutation. apply NoDup_fst_map_to_list. Qed.

#[global] Instance entry_le_total {K V} `{KeyOrder K} : Total (@entry_le K V _).
Proof. intros p q. apply key_le_total. Qed.
#[global] Instance entry_le_trans {K V} `{KeyOrder K} : Transitive (@entry_le K V _).
Proof. intros p q r. apply key_le_trans. Qed.

Lemma entries_sorted {K V} `{Countable K, !KeyOrder K} (m : gmap K V) :
  StronglySorted entry_le (entries m).
Proof. apply StronglySorted_merge_sort; apply _. Qed.

Lemma StronglySorted_filter {A} (R : relation A) (P : A → Prop) `{∀ x, Decision (P x)} l :
  StronglySorted R l → StronglySorted R (filter P l).
Proof.
  induction 1 as [|x l Hl IH Hx]; [constructor|]. rewrite filter_cons. case_decide; [|done].
  constructor; [done|]. rewrite Forall_forall in *. intros y [_ Hy]%list_elem_of_filter. auto.
Qed.

(** The last element of a filtered iteration has the greatest key. *)
Lemma last_filter_entries {K V} `{Countable K, !KeyOrder K} (m : gmap K V)
    (P : K * V → Prop) `{∀ e, Decision (P e)} k v :
  last (filter P (entries m)) = Some (k, v) ↔
  m !! k = Some v ∧ P (k, v) ∧ ∀ k' v', m !! k' = Some v' → P (k', v') → key_le k' k.
Proof.
  pose proof (StronglySorted_filter entry_le P _ (entries_sorted m)) as Hs. split.
  - intros [l El]%last_Some. rewrite El in Hs. split_and!.
    + apply elem_of_entries. assert ((k, v) ∈ filter P (entries m)) as Hin by (rewrite El; elem).
      by apply list_elem_of_filter in Hin as [_ ?].
    + assert ((k, v) ∈ filter P (entries m)) as Hin by (rewrite El; elem).
      by apply list_elem_of_filter in Hin as [? _].
    + intros k' v' Hk HP. assert ((k', v') ∈ filter P (entries m)) as Hin
        by (apply list_elem_of_filter; split; [done|by apply elem_of_entries]).
      rewrite El in Hin. apply elem_of_app in Hin as [Hin|[= -> _]%list_elem_of_singleton].
      * apply (StronglySorted_app_1_elem_of _ _ _ (k', v') (k, v) Hs Hin). elem.
      * destruct (key_le_total k k); done.
  - intros (Hk & HP & Hmax). assert ((k, v) ∈ filter P (entries m)) as Hin
      by (apply list_elem_of_filter; split; [done|by apply elem_of_entries]).
    destruct (last (filter P (entries m))) as [[k' v']|] eqn:El.
    2: { apply last_None in El. rewrite El in Hin. by apply elem_of_nil in Hin. }
    pose proof El as [l El']%last_Some.
    assert ((k', v') ∈ filter P (entries m)) as Hin' by (rewrite El'; elem).
    apply list_elem_of_filter in Hin' as [HP' Hk'%elem_of_entries].
    assert (k = k') as ->.
    { apply (anti_symm key_le); [|by apply (Hmax k' v')].
      rewrite El' in Hs, Hin. apply elem_of_app in Hin as [Hin|[= -> _]%list_elem_of_singleton].
      - apply (StronglySorted_app_1_elem_of _ _ _ (k, v) (k', v') Hs Hin). elem.
      - destruct (key_le_total k' k'); done. }
    congruence.
Qed.

(** ** Sums over lists and maps *)

Fixpoint sum_by {A} (f : A → Z) (l : list A) : Z :=
  match l with [] => 0 | x :: l => f x + sum_by f l end.

Lemma sum_by_app {A} (f : A → Z) l1 l2 : sum_by f (l1 ++ l2) = sum_by f l1 + sum_by f l2.
Proof. induction l1; simpl; lia. Qed.

#[global] Instance sum_by_Permutation {A} (f : A → Z) : Proper ((≡ₚ) ==> (=)) (sum_by f).
Proof. induction 1; simpl; lia. Qed.

Lemma sum_by_ext {A} (f g : A → Z) l : (∀ x, x ∈ l → f x = g x) → sum_by f l = sum_by g l.
Proof. induction l as [|x l IH]; intros E; simpl; [done|]. rewrite (E x), IH; [done|..]; intros; try apply E; elem. Qed.

Lemma sum_by_mono {A} (f g : A → Z) l : (∀ x, x ∈ l → f x ≤ g x) → sum_by f l ≤ sum_by g l.
Proof.
  induction l as [|x l IH]; intros E; simpl; [done|].
  assert (f x ≤ g x) by (apply E; elem). enough (sum_by f l ≤ sum_by g l) by lia.
  apply IH. intros. apply E. elem.
Qed.

Lemma sum_by_0 {A} (l : list A) : sum_by (λ _, 0) l = 0.
Proof. by induction l. Qed.

Lemma sum_by_nonneg {A} (f : A → Z) l : (∀ x, x ∈ l → 0 ≤ f x) → 0 ≤ sum_by f l.
Proof. intros E. rewrite <- (sum_by_0 l). by apply sum_by_mono. Qed.

Lemma sum_by_elem_le {A} (f : A → Z) l x :
  (∀ y, y ∈ l → 0 ≤ f y) → x ∈ l → f x ≤ sum_by f l.
Proof.
  intros P [l1 [l2 ->]]%list_elem_of_split. rewrite sum_by_app. simpl.
  pose proof (sum_by_nonneg f l1 ltac:(intros; apply P; elem)).
  pose proof (sum_by_nonneg f l2 ltac:(intros; apply P; elem)). lia.
Qed.

Lemma sum_by_fmap {A B} (g : A → B) (f : B → Z) l : sum_by f (g <$> l) = sum_by (f ∘ g) l.
Proof. induction l as [|x l IH]; [done|]. rewrite fmap_cons. simpl. by rewrite IH. Qed.

Lemma sum_by_plus {A} (f g : A → Z) l :
  sum_by (λ x, f x + g x) l = sum_by f l + sum_by g l.
Proof. induction l; simpl; lia. Qed.

(** Sum of [f] over the values of a map. *)
Definition map_sum {K V} `{Countable K} (f : V → Z) (m : gmap K V) : Z :=
  sum_by (f ∘ snd) (map_to_list m).

Section map_sum.
Context {K V : Type} `{Countable K}.
Implicit Types (m : gmap K V) (f : V → Z).

Lemma map_sum_empty f : map_sum f (∅ : gmap K V) = 0.
Proof. unfold map_sum. by rewrite map_to_list_empty. Qed.

Lemma map_sum_insert f m k v :
  m !! k = None → map_sum f (<[k:=v]> m) = f v + map_sum f m.
Proof. intros E. unfold map_sum. by rewrite map_to_list_insert. Qed.

Lemma map_sum_delete f m k v :
  m !! k = Some v → map_sum f m = f v + map_sum f (delete k m).
Proof.
  intros E. rewrite <- (insert_delete_id m k v E) at 1.
  by rewrite map_sum_insert by apply lookup_delete_eq.
Qed.

Lemma map_sum_update f m k v v' :
  m !! k = Some v → map_sum f (<[k:=v']> m) = map_sum f m - f v + f v'.
Proof.
  intros E. rewrite (map_sum_delete f m k v E), <- insert_delete_eq.
  rewrite map_sum_insert by apply lookup_delete_eq. lia.
Qed.

Lemma map_sum_nonneg f m : (∀ v, 0 ≤ f v) → 0 ≤ map_sum f m.
Proof. intros Hf. unfold map_sum. apply sum_by_nonneg. intros x _. apply Hf. Qed.

Lemma map_sum_entries `{!KeyOrder K} f m : sum_by (f ∘ snd) (entries m) = map_sum f m.
Proof. by rewrite entries_Permutation. Qed.
End map_sum.

(** ** Inversion of successful calls *)

Lemma bind_Ok {A B} (f : A → result B) (r : result A) b :
  r ≫= f = Ok b ↔ ∃ a, r = Ok a ∧ f a = Ok b.
Proof.
  destruct r as [a|e]; simpl; split.
  - by exists a.
  - by intros (a' & [= <-] & ?).
  - done.
  - by intros (? & ? & ?).
Qed.

Lemma fmap_Ok {A B} (f : A → B) (r : result A) b :
  f <$> r = Ok b ↔ ∃ a, r = Ok a ∧ f a = b.
Proof.
  destruct r as [a|e]; simpl; split.
  - intros [= <-]. by exists a.
  - by intros (a' & [= <-] & <-).
  - done.
  - by intros (? & ? & ?).
Qed.

Lemma throw_if_Ok b e u : throw_if b e = Ok u ↔ b = false.
Proof. by destruct b, u. Qed.

Lemma andR_true a b : andR a b = Ok true ↔ a = Ok true ∧ b = Ok true.
Proof. destruct a as [[]|]; simpl; intuition congruence. Qed.

Lemma all_ofR_true {A} (p : A → result bool) l :
  all_ofR p l = Ok true ↔ ∀ x, x ∈ l → p x = Ok true.
Proof.
  induction l as [|x l IH]; simpl.
  - split; [|done]. intros _ x Hx. by apply elem_of_nil in Hx.
  - rewrite andR_true, IH. split.
    + intros [Hx Hl] y [->|Hy]%elem_of_cons; auto.
    + intros Hall. split; intros; apply Hall; elem.
Qed.

Lemma foldR_app {A B} (f : B → A → result B) acc l1 l2 :
  foldR f acc (l1 ++ l2) = (acc' ← foldR f acc l1; foldR f acc' l2).
Proof. revert acc. induction l1 as [|x l1 IH]; intros; simpl; [done|]. destruct (f acc x); simpl; auto. Qed.

(** A loop that only adds [g x] to its accumulator when it succeeds computes a sum. *)
Lemma foldR_sum {A} (f : Z → A → result Z) (g : A → Z) acc l s :
  (∀ a x b, f a x = Ok b → b = a + g x) → foldR f acc l = Ok s → s = acc + sum_by g l.
Proof.
  intros Hf. revert acc. induction l as [|x l IH]; intros acc; simpl.
  - intros [= <-]. lia.
  - rewrite bind_Ok. intros (b & Hb & Hl). apply Hf in Hb as ->. apply IH in Hl. lia.
Qed.

Lemma empty_string_true s : empty_string s = true ↔ s = "".
Proof. unfold empty_string. apply String.eqb_eq. Qed.

Lemma empty_string_false s : empty_string s = false ↔ s ≠ "".
Proof. unfold empty_string. apply String.eqb_neq. Qed.

Lemma wrap64_id z : u64 z → wrap64 z = z.
Proof. unfold u64, u64_max, wrap64. intros. apply Z.mod_small. lia. Qed.

(** A wrapping accumulation is the exact sum when the sum fits. *)
Lemma foldl_wrap64 {A} (f : A → Z) acc l :
  0 ≤ acc → (∀ x, x ∈ l → 0 ≤ f x) → acc + sum_by f l ≤ u64_max →
  foldl (λ total x, wrap64 (total + f x)) acc l = acc + sum_by f l.
Proof.
  revert acc. induction l as [|x l IH]; intros acc Ha Hf Hs; simpl in *; [lia|].
  assert (0 ≤ f x) by (apply Hf; elem).
  assert (0 ≤ sum_by f l) by (apply sum_by_nonneg; intros; apply Hf; elem).
  rewrite wrap64_id by (unfold u64; lia). rewrite IH; [lia|lia|intros; apply Hf; elem|lia].
Qed.

(** [inv_ok] opens every hypothesis that says a call returned normally. *)
Ltac inv_ok_step :=
  match goal with
  | H : Ok _ = Ok _ |- _ => injection H as H
  | H : Throw _ = Ok _ |- _ => discriminate H
  | H : Ok _ = Throw _ |- _ => discriminate H
  | H : (_ ≫= _) = Ok _ |- _ =>
      let a := fresh "a" in let E := fresh "E" in
      apply bind_Ok in H as (a & E & H); simpl in H
  | H : _ <$> _ = Ok _ |- _ =>
      let a := fresh "a" in let E := fresh "E" in
      apply fmap_Ok in H as (a & E & H); simpl in H
  | H : throw_if _ _ = Ok _ |- _ => apply throw_if_Ok in H
  | H : andR _ _ = Ok true |- _ => apply andR_true in H as [??]
  | H : (if ?b then Throw _ else _) = Ok _ |- _ => destruct b eqn:?; [discriminate H|]
  | H : (if ?b then _ else Throw _) = Ok _ |- _ => destruct b eqn:?; [|discriminate H]
  | H : negb _ = false |- _ => apply negb_false_iff in H
  | H : negb _ = true |- _ => apply negb_true_iff in H
  | H : _ || _ = false |- _ => apply orb_false_iff in H as [? ?]
  | H : _ && _ = true |- _ => apply andb_true_iff in H as [? ?]
  | H : (_, _) = (_, _) |- _ => injection H as ? ?
  | x : unit |- _ => destruct x
  end.
Ltac inv_ok := repeat inv_ok_step; subst.

Create HintDb nodo discriminated.

(** ** Effects of a method, exceptions included *)

(** [within R m]: every run of [m], whether it returns or throws, leaves the
    object in a state related to the initial one by [R]. *)
Definition within {S A} (R : relation S) (m : M S A) : Prop := ∀ s, R s (m s).2.

Section within.
Context {S : Type} (R : relation S) `{!PreOrder R}.

Lemma within_ret {A} (x : A) : within R (mret x : M S A).
Proof. intros s. by simpl. Qed.

Lemma within_lift {A} (r : result A) : within R (lift r).
Proof. intros s. by simpl. Qed.

Lemma within_getsR {A} (f : S → result A) : within R (getsR f).
Proof. intros s. by simpl. Qed.

Lemma within_gets {A} (f : S → A) : within R (gets f).
Proof. intros s. by simpl. Qed.

Lemma within_bind {A B} (m : M S A) (f : A → M S B) :
  within R m → (∀ a, within R (f a)) → within R (m ≫= f).
Proof.
  intros Hm Hf s. specialize (Hm s). unfold mbind, M_bind.
  destruct (m s) as [[a|e] s']; simpl in *; [|done]. by etrans; [|apply Hf].
Qed.

Lemma within_for_each {A} (f : A → M S unit) l :
  (∀ x, within R (f x)) → within R (for_each f l).
Proof.
  intros Hf. induction l as [|x l IH]; simpl; [apply within_ret|].
  by apply within_bind.
Qed.
End within.

#[export] Hint Resolve within_ret within_lift within_getsR within_gets within_bind
  within_for_each : nodo.

(** The relation [P s → P s'], so that [within (keeps P) m] says that [m]
    preserves the invariant [P]. *)
Definition keeps {S} (P : S → Prop) : relation S := λ s s', P s → P s'.

#[global] Instance keeps_preorder {S} (P : S → Prop) : PreOrder (keeps P).
Proof. split; unfold keeps; [by intros s|intros s1 s2 s3; tauto]. Qed.

(** Both outcomes of a call: [P] of the state after a return, [Q] of the state
    an exception leaves. *)
Definition ends {S A} (out : result A * S) (P Q : S → Prop) : Prop :=
  match out with (Ok _, s') => P s' | (Throw _, s') => Q s' end.

Section ends.
Context {S A B : Type} (P Q : S → Prop).

Lemma ends_bind (m : M S A) (f : A → M S B) s :
  (∀ e s1, m s = (Throw e, s1) → Q s1) → (∀ a s1, m s = (Ok a, s1) → ends (f a s1) P Q) →
  ends ((m ≫= f) s) P Q.
Proof.
  intros HT HO. unfold mbind, M_bind. destruct (m s) as [[a|e] s1]; simpl; [by apply HO|by eapply HT].
Qed.

(** A first call that only reads. *)
Lemma ends_lift (r : result A) (f : A → M S B) s :
  Q s → (∀ a, r = Ok a → ends (f a s) P Q) → ends ((lift r ≫= f) s) P Q.
Proof. intros HQ HO. apply ends_bind; unfold lift; intros ? ? [= ? <-]; auto. Qed.

Lemma ends_getsR (g : S → result A) (f : A → M S B) s :
  Q s → (∀ a, g s = Ok a → ends (f a s) P Q) → ends ((getsR g ≫= f) s) P Q.
Proof. intros HQ HO. apply ends_bind; unfold getsR; intros ? ? [= ? <-]; auto. Qed.

(** A first call that stays within a relation, whatever its outcome. *)
Lemma ends_within (R : relation S) (m : M S A) (f : A → M S B) s :
  within R m → (∀ s1, R s s1 → Q s1) → (∀ a s1, R s s1 → ends (f a s1) P Q) →
  ends ((m ≫= f) s) P Q.
Proof.
  intros Hm HT HO. specialize (Hm s). apply ends_bind; intros ? s1 E; rewrite E in Hm; simpl in Hm; auto.
Qed.
End ends.

(** ** Weakest preconditions of methods *)

(** [wp m Q s]: the outcome of [m] from [s] satisfies [Q], whether it is a value
    or an exception. *)
Definition wp {S A} (m : M S A) (Q : result A → S → Prop) (s : S) : Prop := Q (m s).1 (m s).2.

Section wp.
Context {S A B : Type}.
Implicit Types (s : S).

Lemma wp_bind (m : M S A) (f : A → M S B) Q s :
  wp m (λ res s1, match res with Ok a => wp (f a) Q s1 | Throw e => Q (Throw e) s1 end) s →
  wp (m ≫= f) Q s.
Proof. unfold wp, mbind, M_bind. by destruct (m s) as [[a|e] s1]. Qed.

Lemma wp_ret (a : A) (Q : result A → S → Prop) s : Q (Ok a) s → wp (mret a : M S A) Q s.
Proof. done. Qed.

Lemma wp_lift (r : result A) (Q : result A → S → Prop) s : Q r s → wp (lift r) Q s.
Proof. done. Qed.

Lemma wp_gets (f : S → A) (Q : result A → S → Prop) s : Q (Ok (f s)) s → wp (gets f) Q s.
Proof. done. Qed.

Lemma wp_getsR (f : S → result A) (Q : result A → S → Prop) s : Q (f s) s → wp (getsR f) Q s.
Proof. done. Qed.

Lemma wp_modify (f : S → S) (Q : result unit → S → Prop) s : Q (Ok tt) (f s) → wp (modify f) Q s.
Proof. done. Qed.

Lemma wp_mono (m : M S A) (Q Q' : result A → S → Prop) s :
  wp m Q s → (∀ r s', Q r s' → Q' r s') → wp m Q' s.
Proof. unfold wp. auto. Qed.
End wp.

(** [wp_step] computes one step of a [wp] goal; conditions of the code become
    case distinctions with their equations. *)
Ltac wp_step :=
  match goal with
  | |- wp (_ ≫= _) _ _ => apply wp_bind
  | |- wp (mret _) _ _ => apply wp_ret
  | |- wp (lift _) _ _ => apply wp_lift
  | |- wp (gets _) _ _ => apply wp_gets
  | |- wp (getsR _) _ _ => apply wp_getsR
  | |- wp (modify _) _ _ => apply wp_modify
  | |- wp (if ?b then _ else _) _ _ => destruct b eqn:?
  | |- wp (match ?x with _ => _ end) _ _ => destruct x eqn:?
  | |- match ?x with Ok _ => _ | Throw _ => _ end => destruct x eqn:?
  end; simpl.

(** Inversion of a bind of methods. *)
Lemma M_bind_inv {S A B} (m : M S A) (f : A → M S B) s res s' :
  (m ≫= f) s = (res, s') →
  (∃ a s1, m s = (Ok a, s1) ∧ f a s1 = (res, s')) ∨
  (∃ e, m s = (Throw e, s') ∧ res = Throw e).
Proof.
  unfold mbind, M_bind. destruct (m s) as [[a|e] s1]; intros H.
  - left. by exists a, s1.
  - right. exists e. by simplify_eq.
Qed.

Lemma M_bind_Ok {S A B} (m : M S A) (f : A → M S B) s b s' :
  (m ≫= f) s = (Ok b, s') ↔ ∃ a s1, m s = (Ok a, s1) ∧ f a s1 = (Ok b, s').
Proof.
  split.
  - intros [(a & s1 & ?)|(e & _ & [=])]%M_bind_inv. by exists a, s1.
  - intros (a & s1 & Hm & Hf). unfold mbind, M_bind. by rewrite Hm.
Qed.

Lemma M_run_Ok {S A B} (m : M S A) (f : A → M S B) s a s1 :
  m s = (Ok a, s1) → (m ≫= f) s = f a s1.
Proof. intros E. unfold mbind, M_bind. by rewrite E. Qed.

Lemma M_run_Throw {S A B} (m : M S A) (f : A → M S B) s e s1 :
  m s = (Throw e, s1) → (m ≫= f) s = (Throw e, s1).
Proof. intros E. unfold mbind, M_bind. by rewrite E. Qed.

Lemma M_bind_Throw {S A B} (m : M S A) (f : A → M S B) s e s' :
  (m ≫= f) s = (Throw e, s') →
  m s = (Throw e, s') ∨ ∃ a s1, m s = (Ok a, s1) ∧ f a s1 = (Throw e, s').
Proof.
  intros [(a & s1 & ?)|(e' & ? & [= <-])]%M_bind_inv; [right|by left]. by exists a, s1.
Qed.

Lemma foldR_unit {A} (f : A → result unit) l u :
  foldR (λ _ x, f x) tt l = Ok u ↔ ∀ x, x ∈ l → f x = Ok tt.
Proof.
  destruct u. induction l as [|x l IH]; simpl.
  - split; [by intros _ x ?%elem_of_nil|done].
  - rewrite bind_Ok. split.
    + intros ([] & Hx & Hl) y [->|Hy]%elem_of_cons; [done|by apply IH].
    + intros Hall. exists tt. split; [apply Hall; elem|]. apply IH. intros. apply Hall. elem.
Qed.

(** A method that only checks something: it never changes the object. *)
Definition readonly {S A} (m : M S A) : Prop := within eq m.

Lemma lift_Ok {S A} (r : result A) (s : S) a s' :
  lift r s = (Ok a, s') ↔ r = Ok a ∧ s' = s.
Proof. unfold lift. split; [by intros [= -> ->]|by intros [-> ->]]. Qed.

Lemma getsR_Ok {S A} (f : S → result A) (s : S) a s' :
  getsR f s = (Ok a, s') ↔ f s = Ok a ∧ s' = s.
Proof. unfold getsR. split; [by intros [= -> ->]|by intros [-> ->]]. Qed.

Lemma on_local_Ok {S A} (m : M S A) s s' :
  on_local m s = Ok s' ↔ ∃ a, m s = (Ok a, s').
Proof.
  unfold on_local. destruct (m s) as [[a|e] s1]; split.
  - intros [= ->]. by exists a.
  - by intros (? & [= _ ->]).
  - done.
  - by intros (? & [=]).
Qed.

(** [inv_M] opens hypotheses about successful runs of composed methods. *)
Ltac inv_M :=
  repeat match goal with
  | H : (_ ≫= _) _ = (Ok _, _) |- _ =>
      let a := fresh "a" in let s := fresh "s" in let E := fresh "E" in
      apply M_bind_Ok in H as (a & s & E & H); simpl in H
  | H : lift _ _ = (Ok _, _) |- _ => apply lift_Ok in H as [H ?]
  | H : getsR _ _ = (Ok _, _) |- _ => apply getsR_Ok in H as [H ?]
  | H : on_local _ _ = Ok _ |- _ => apply on_local_Ok in H as [? H]
  | _ => progress inv_ok
  end.
