(* ===== verification/Utils.v ===== *)
(** * utils: checked monetary amounts and scalar text checks

    Models src/src/utils/Amount.cpp and src/include/utils/SafeScalar.hpp.
    An [Amount] is the [int64] count of raw units the class wraps; every
    operation that can fail returns a [result]. *)

From Stdlib Require Import Ascii.
From S2P Require Import Prelude.

Module Amount.

Abbreviation Amount := Z (only parsing).

Definition UNITS_PER_NODO : Z := 100000000.

(** [Amount::Amount(std::int64_t)] *)
Definition mk (rawUnits : Z) : result Amount :=
  throw_if (rawUnits <? 0)
    (invalid_argument "Amount cannot be created from negative raw units.");;
  Ok rawUnits.

Definition fromNodo (wholeNodo : Z) : result Amount :=
  throw_if (wholeNodo <? 0)
    (invalid_argument "Amount cannot be created from negative NODO value.");;
  throw_if (i64_max / UNITS_PER_NODO <? wholeNodo)
    (overflow_error "Amount::fromNodo: value would overflow int64.");;
  mk (wholeNodo * UNITS_PER_NODO).

Definition fromRawUnits (rawUnits : Z) : result Amount :=
  throw_if (rawUnits <? 0) (invalid_argument "Amount cannot be negative.");;
  mk rawUnits.

Definition isNegative (a : Amount) : bool := a <? 0.
Definition isZero (a : Amount) : bool := a =? 0.
Definition isPositive (a : Amount) : bool := 0 <? a.

(** Decimal digits padded with zeros to [width] characters, as
    [std::setw(width) << std::setfill('0')] prints a non-negative value. *)
Definition zero_padded (width : nat) (s : string) : string :=
  String.append (String.concat "" (replicate (width - String.length s) "0")) s.

Definition toString (a : Amount) : string :=
  let whole := Z.quot a UNITS_PER_NODO in
  let fraction := Z.rem a UNITS_PER_NODO in
  to_string whole +:+ "." +:+ zero_padded 8 (to_string fraction) +:+ " NODO".

(** [operator+] *)
Definition add (a b : Amount) : result Amount :=
  throw_if ((0 <? b) && (i64_max - b <? a))
    (overflow_error "Amount addition overflow.");;
  mk (a + b).

(** [operator-] *)
Definition sub (a b : Amount) : result Amount :=
  throw_if (a <? b)
    (underflow_error "Amount subtraction would create negative value.");;
  mk (a - b).

(** The values an [Amount] object can hold. *)
Definition wf (a : Amount) : Prop := 0 ≤ a ≤ i64_max.

(** [total = 0; for (x : l) total = total + amount(x);] *)
Definition sum {A} (amount : A → Amount) (l : list A) : result Amount :=
  foldR (λ total x, add total (amount x)) 0 l.

Lemma mk_Ok z a : mk z = Ok a ↔ 0 ≤ z ∧ a = z.
Proof. unfold mk. destruct (z <? 0) eqn:E; simpl; split; intros; inv_ok; intuition (try lia; congruence). Qed.

Lemma add_Ok a b c : add a b = Ok c → c = a + b ∧ 0 ≤ c.
Proof. unfold add. intros H. inv_ok. apply mk_Ok in H. lia. Qed.

Lemma add_bounded a b c : add a b = Ok c → 0 < b → c ≤ i64_max.
Proof. unfold add. intros H Hb. inv_ok. apply mk_Ok in H. lia. Qed.

Lemma sub_Ok a b c : sub a b = Ok c → c = a - b ∧ 0 ≤ c.
Proof. unfold sub. intros H. inv_ok. apply mk_Ok in H. lia. Qed.

(** Addition of two well-formed amounts is exact when the sum fits in an
    [int64], and throws [overflow_error] otherwise. *)
Lemma add_wf a b : wf a → wf b →
  add a b = if a + b <=? i64_max then Ok (a + b)
            else Throw (overflow_error "Amount addition overflow.").
Proof.
  unfold wf, add, throw_if. intros Ha Hb.
  destruct ((0 <? b) && (i64_max - b <? a)) eqn:E1, (a + b <=? i64_max) eqn:E2; try lia;
    simpl; [done|]. apply mk_Ok. lia.
Qed.

Lemma sub_wf a b : wf a → wf b →
  sub a b = if b <=? a then Ok (a - b)
            else Throw (underflow_error "Amount subtraction would create negative value.").
Proof.
  unfold wf, sub, throw_if. intros Ha Hb.
  destruct (a <? b) eqn:E1, (b <=? a) eqn:E2; try lia; simpl; [done|]. apply mk_Ok. lia.
Qed.

Lemma sub_wf' a b : b ≤ a → sub a b = Ok (a - b).
Proof. unfold sub. intros. replace (a <? b) with false by lia. simpl. apply mk_Ok. lia. Qed.

Lemma sum_Ok {A} (f : A → Amount) l s : sum f l = Ok s → s = sum_by f l.
Proof. intros H. apply (foldR_sum _ f) in H; [lia|]. intros ??? ?%add_Ok. lia. Qed.

Lemma sum_from_Ok {A} (f : A → Amount) l acc :
  wf acc → (∀ x, x ∈ l → 0 ≤ f x) → acc + sum_by f l ≤ i64_max →
  foldR (λ total x, add total (f x)) acc l = Ok (acc + sum_by f l).
Proof.
  unfold wf. revert acc. induction l as [|x l IH]; intros acc Ha Hl Hs; simpl in *.
  - f_equal. lia.
  - assert (0 ≤ f x) by (apply Hl; elem).
    assert (0 ≤ sum_by f l) by (apply sum_by_nonneg; intros; apply Hl; elem).
    rewrite add_wf by (unfold wf; lia).
    replace (acc + f x <=? i64_max) with true by lia. simpl.
    rewrite IH by (try lia; intros; apply Hl; elem). f_equal. lia.
Qed.

(** The checked loop succeeds with the exact sum when it fits. *)
Lemma sum_fits {A} (f : A → Amount) l :
  (∀ x, x ∈ l → 0 ≤ f x) → sum_by f l ≤ i64_max → sum f l = Ok (sum_by f l).
Proof. intros Hl Hs. unfold sum. rewrite sum_from_Ok; [done|unfold wf, i64_max; lia|done|lia]. Qed.

End Amount.
Abbreviation Amount := Z (only parsing).

Module SafeScalar.

(** [extra.find(c) != npos] *)
Fixpoint contains_char (s : string) (c : Ascii.ascii) : bool :=
  match s with
  | EmptyString => false
  | String d s => Ascii.eqb d c || contains_char s c
  end.

Fixpoint all_chars (p : Ascii.ascii → bool) (s : string) : bool :=
  match s with
  | EmptyString => true
  | String c s => p c && all_chars p s
  end.

Definition char_between (lo hi c : Ascii.ascii) : bool :=
  (Ascii.N_of_ascii lo <=? Ascii.N_of_ascii c)%N && (Ascii.N_of_ascii c <=? Ascii.N_of_ascii hi)%N.

(** [isSafeIdentifier(value, maximum, extra)] *)
Definition isSafeIdentifier (value : string) (maximum : Z) (extra : string) : bool :=
  if empty_string value || (maximum <? string_size value) then false
  else all_chars (λ c, char_between "a"%char "z"%char c || char_between "A"%char "Z"%char c ||
                       char_between "0"%char "9"%char c || contains_char extra c) value.

(** [isSafeDelimitedText(value, maximum, forbidden)] *)
Definition isSafeDelimitedText (value : string) (maximum : Z) (forbidden : string) : bool :=
  if empty_string value || (maximum <? string_size value) then false
  else all_chars (λ c, negb (contains_char forbidden c)) value.

(** The characters ";{}[]\n\r\t" of the [isSafeScalar] helpers. *)
Definition scalar_delimiters : string :=
  ";{}[]" +:+ String "010"%char (String "013"%char (String "009"%char EmptyString)).

(** [std::string::npos] *)
Definition npos : Z := u64_max.

(** The [isSafeScalar] helper repeated in the consensus and core sources. *)
Definition isSafeScalar (value : string) : bool :=
  isSafeDelimitedText value npos scalar_delimiters.

Lemma isSafeScalar_nonempty s : isSafeScalar s = true → s ≠ "".
Proof. unfold isSafeScalar, isSafeDelimitedText. intros H ->. discriminate. Qed.

Lemma contains_char_app a b c :
  contains_char (a +:+ b) c = contains_char a c || contains_char b c.
Proof. induction a as [|d a IH]; simpl; [done|]. by rewrite IH, orb_assoc. Qed.

(** Two texts with the same content after their last separator [c]. *)
Lemma last_field_inj c p q x y :
  contains_char x c = false → contains_char y c = false →
  p +:+ String c x = q +:+ String c y → x = y.
Proof.
  intros Hx Hy. revert q. induction p as [|d p IH]; intros [|e q]; simpl.
  - by intros [= ->].
  - intros [= -> E]. rewrite E, contains_char_app in Hx. simpl in Hx.
    rewrite Ascii.eqb_refl, orb_true_r in Hx. done.
  - intros [= -> E]. rewrite <- E, contains_char_app in Hy. simpl in Hy.
    rewrite Ascii.eqb_refl, orb_true_r in Hy. done.
  - intros [= -> E]. by apply (IH q).
Qed.

Lemma pretty_N_char_no_underscore n : Ascii.eqb (pretty_N_char n) "_" = false.
Proof. unfold pretty_N_char. by repeat case_match. Qed.

Lemma pretty_N_go_no_underscore n s :
  contains_char s "_" = false → contains_char (pretty_N_go n s) "_" = false.
Proof.
  revert s. induction (N.lt_wf_0 n) as [n _ IH]; intros s Hs.
  destruct (decide (n = 0)%N) as [->|]; [by rewrite pretty_N_go_0|].
  rewrite pretty_N_go_step by lia. apply IH; [apply N.div_lt; lia|].
  simpl. by rewrite pretty_N_char_no_underscore.
Qed.

Lemma to_string_no_underscore z : contains_char (to_string z) "_" = false.
Proof.
  unfold to_string, pretty, pretty_Z.
  destruct z as [|p|p]; [done| |]; unfold pretty, pretty_positive, pretty, pretty_N;
    rewrite decide_False by done; simpl; by apply pretty_N_go_no_underscore.
Qed.

#[global] Instance to_string_inj : Inj (=) (=) to_string.
Proof. unfold to_string. apply _. Qed.

Lemma prefix_app p s : String.prefix p (p +:+ s) = true.
Proof.
  induction p as [|c p IH]; simpl; [by destruct s|].
  destruct (Ascii.ascii_dec c c); [done|congruence].
Qed.

End SafeScalar.

(** [std::string] searches and [std::stoull]. *)
Module Text.
Import SafeScalar.

(** The text before and after the first [c]. *)
Fixpoint split_at (c : Ascii.ascii) (s : string) : option (string * string) :=
  match s with
  | EmptyString => None
  | String d s =>
      if Ascii.eqb d c then Some (EmptyString, s)
      else match split_at c s with
           | Some (before, after) => Some (String d before, after)
           | None => None
           end
  end.

Definition is_space (c : Ascii.ascii) : bool :=
  char_between "009"%char "013"%char c || Ascii.eqb c " "%char.
Definition is_digit (c : Ascii.ascii) : bool := char_between "0"%char "9"%char c.
Definition digit_value (c : Ascii.ascii) : Z := Z.of_N (Ascii.N_of_ascii c) - 48.

Fixpoint skip_spaces (s : string) : string :=
  match s with
  | String c s' => if is_space c then skip_spaces s' else s
  | EmptyString => s
  end.

(** The value of the leading digits. *)
Fixpoint digits (acc : Z) (s : string) : Z :=
  match s with
  | String c s => if is_digit c then digits (10 * acc + digit_value c) s else acc
  | EmptyString => acc
  end.

Definition starts_with_digit (s : string) : bool :=
  match s with String c _ => is_digit c | EmptyString => false end.

(** [std::stoull(s)]: leading spaces, an optional sign, at least one digit; a
    minus sign negates modulo 2^64. *)
Definition stoull (s : string) : result Z :=
  let s := skip_spaces s in
  let '(negative, s) :=
    match s with
    | String "-"%char s => (true, s)
    | String "+"%char s => (false, s)
    | _ => (false, s)
    end in
  if negb (starts_with_digit s) then Throw (invalid_argument "stoull")
  else
    let v := digits 0 s in
    if u64_max <? v then Throw (out_of_range "stoull")
    else Ok (if negative : bool then wrap64 (- v) else v).

Lemma pretty_N_char_digit n : (n < 10)%N →
  is_digit (pretty_N_char n) = true ∧ digit_value (pretty_N_char n) = Z.of_N n.
Proof.
  intros Hn. assert (n = 0 ∨ n = 1 ∨ n = 2 ∨ n = 3 ∨ n = 4 ∨ n = 5 ∨ n = 6 ∨ n = 7 ∨ n = 8 ∨ n = 9)%N as Hc by lia.
  repeat destruct Hc as [->|Hc]; try (vm_compute; done). subst n. vm_compute. done.
Qed.

Lemma pretty_N_go_digits n s :
  all_chars is_digit s = true → all_chars is_digit (pretty_N_go n s) = true.
Proof.
  revert s. induction (N.lt_wf_0 n) as [n _ IH]; intros s Hs.
  destruct (decide (n = 0)%N) as [->|]; [by rewrite pretty_N_go_0|].
  rewrite pretty_N_go_step by lia. apply IH; [apply N.div_lt; lia|].
  simpl. by rewrite (proj1 (pretty_N_char_digit (n `mod` 10) ltac:(apply N.mod_lt; lia))).
Qed.

Lemma digits_pretty n s : digits 0 (pretty_N_go n s) = digits (Z.of_N n) s.
Proof.
  revert s. induction (N.lt_wf_0 n) as [n _ IH]; intros s.
  destruct (decide (n = 0)%N) as [->|]; [by rewrite pretty_N_go_0|].
  rewrite pretty_N_go_step by lia. rewrite IH by (apply N.div_lt; lia). simpl.
  destruct (pretty_N_char_digit (n `mod` 10)) as [-> ->]; [apply N.mod_lt; lia|].
  f_equal. rewrite N2Z.inj_div, N2Z.inj_mod. pose proof (Z.div_mod (Z.of_N n) 10). lia.
Qed.

Lemma to_string_digits z : 0 ≤ z → all_chars is_digit (to_string z) = true ∧ to_string z ≠ "".
Proof.
  intros Hz. unfold to_string, pretty, pretty_Z. destruct z as [|p|p]; [done| |lia].
  unfold pretty, pretty_positive, pretty, pretty_N. rewrite decide_False by done.
  split; [by apply pretty_N_go_digits|].
  rewrite pretty_N_go_step by lia. intros E.
  assert (String.length (pretty_N_go (N.pos p `div` 10) (String (pretty_N_char (N.pos p `mod` 10)) "")) = 0%nat)
    as El by (by rewrite E).
  assert (∀ n s, String.length s ≤ String.length (pretty_N_go n s))%nat as Hmono.
  { intros n. induction (N.lt_wf_0 n) as [n _ IH]; intros s.
    destruct (decide (n = 0)%N) as [->|]; [by rewrite pretty_N_go_0|].
    rewrite pretty_N_go_step by lia. etransitivity; [|apply IH; apply N.div_lt; lia]. simpl. lia. }
  specialize (Hmono (N.pos p `div` 10)%N (String (pretty_N_char (N.pos p `mod` 10)) "")). simpl in Hmono. lia.
Qed.

Lemma to_string_value z : 0 ≤ z → digits 0 (to_string z) = z.
Proof.
  intros Hz. unfold to_string, pretty, pretty_Z. destruct z as [|p|p]; [done| |lia].
  unfold pretty, pretty_positive, pretty, pretty_N. rewrite decide_False by done.
  rewrite digits_pretty. done.
Qed.

Lemma all_chars_contains p s c : all_chars p s = true → p c = false → contains_char s c = false.
Proof.
  intros Hs Hc. induction s as [|d s IH]; simpl in *; [done|]. apply andb_true_iff in Hs as [Hd Hs].
  rewrite IH by done. rewrite orb_false_r. destruct (Ascii.eqb_spec d c) as [->|]; [congruence|done].
Qed.

Lemma split_at_app c before after : contains_char before c = false →
  split_at c (before +:+ String c after) = Some (before, after).
Proof.
  induction before as [|d before IH]; simpl; [by rewrite Ascii.eqb_refl|].
  intros [Hd Hb]%orb_false_iff. change (split_at c (String d (before +:+ String c after)) = Some (String d before, after)).
  simpl. by rewrite Hd, IH.
Qed.

(** Parsing a printed 64-bit number returns it. *)
Lemma stoull_to_string z : u64 z → stoull (to_string z) = Ok z.
Proof.
  intros [Hz Hmax]. destruct (to_string_digits z Hz) as [Hall Hne]. pose proof (to_string_value z Hz) as Hv.
  destruct (to_string z) as [|c s]; [done|]. unfold stoull. cbn [all_chars] in Hall.
  apply andb_true_iff in Hall as [Hc _].
  assert (skip_spaces (String c s) = String c s) as ->.
  { cbn [skip_spaces]. destruct c as [[] [] [] [] [] [] [] []]; vm_compute in Hc; try discriminate; done. }
  assert ((match String c s with String "-"%char s => (true, s) | String "+"%char s => (false, s)
           | _ => (false, String c s) end) = (false, String c s)) as ->.
  { destruct c as [[] [] [] [] [] [] [] []]; vm_compute in Hc; try discriminate; done. }
  cbn [starts_with_digit negb]. rewrite Hc. cbn [negb]. rewrite Hv.
  by replace (u64_max <? z) with false by lia.
Qed.

End Text.
