(* ===== verification/CoinLots.v ===== *)
(** * core: traceable coin lots and their registry

    Models src/src/core/CoinLot.cpp, CoinLotVerificationResult.cpp and
    CoinLotRegistry.cpp.  A lot is a record, its mutating methods are
    computations over that record that keep the object when they throw, and the
    registry is the [std::map] from lot id to lot, iterated in key order. *)

From S2P Require Import Prelude Utils.

Inductive CoinLotStatus := AVAILABLE | LOCKED_FOR_SECURITY | SPENT | SLASHED.

#[global] Instance CoinLotStatus_eq_dec : EqDecision CoinLotStatus.
Proof. solve_decision. Defined.

Definition coinLotStatusToString (status : CoinLotStatus) : string :=
  match status with
  | AVAILABLE => "AVAILABLE"
  | LOCKED_FOR_SECURITY => "LOCKED_FOR_SECURITY"
  | SPENT => "SPENT"
  | SLASHED => "SLASHED"
  end.

Module CoinLot.

Record t := mk {
  id : string;
  originMintRecordId : string;
  ownerAddress : string;
  amount : Amount;
  status : CoinLotStatus;
  createdAtBlock : Z;
  lockedUntilBlock : Z;
  timestamp : Z;
}.

#[global] Instance eq_dec : EqDecision t.
Proof. solve_decision. Defined.

(** Assignment to [m_status] and [m_lockedUntilBlock]. *)
Definition with_status (s : CoinLotStatus) (l : t) : t :=
  mk (id l) (originMintRecordId l) (ownerAddress l) (amount l) s
     (createdAtBlock l) (lockedUntilBlock l) (timestamp l).
Definition with_lockedUntil (b : Z) (l : t) : t :=
  mk (id l) (originMintRecordId l) (ownerAddress l) (amount l) (status l)
     (createdAtBlock l) b (timestamp l).

Definition isAvailable (l : t) : bool := bool_decide (status l = AVAILABLE).
Definition isLockedForSecurity (l : t) : bool := bool_decide (status l = LOCKED_FOR_SECURITY).
Definition isSpent (l : t) : bool := bool_decide (status l = SPENT).
Definition isSlashed (l : t) : bool := bool_decide (status l = SLASHED).
Definition isSpendable (l : t) : bool := bool_decide (status l = AVAILABLE).

Definition isValid (l : t) : bool :=
  if empty_string (id l) then false
  else if empty_string (originMintRecordId l) then false
  else if empty_string (ownerAddress l) then false
  else if negb (Amount.isPositive (amount l)) then false
  else if timestamp l <=? 0 then false
  else if isLockedForSecurity l && (lockedUntilBlock l <=? createdAtBlock l) then false
  else true.

Definition lockForSecurity (until : Z) : M t unit := λ l,
  if negb (isAvailable l) then
    (Throw (logic_error "Only available coin lots can be locked."), l)
  else if until <=? createdAtBlock l then
    (Throw (invalid_argument "Lock expiration block must be greater than creation block."), l)
  else (Ok tt, with_lockedUntil until (with_status LOCKED_FOR_SECURITY l)).

Definition unlockIfMature (currentBlock : Z) : M t unit := λ l,
  if negb (isLockedForSecurity l) then (Ok tt, l)
  else if lockedUntilBlock l <=? currentBlock then
    (Ok tt, with_lockedUntil 0 (with_status AVAILABLE l))
  else (Ok tt, l).

Definition markSpent : M t unit := λ l,
  if negb (isSpendable l) then
    (Throw (logic_error "Only spendable coin lots can be marked as spent."), l)
  else (Ok tt, with_lockedUntil 0 (with_status SPENT l)).

Definition markSlashed : M t unit := λ l,
  if isSpent l then (Throw (logic_error "Spent coin lots cannot be slashed."), l)
  else (Ok tt, with_status SLASHED l).

Definition serialize (l : t) : string :=
  "CoinLot{id=" +:+ id l +:+
  ";originMintRecordId=" +:+ originMintRecordId l +:+
  ";owner=" +:+ ownerAddress l +:+
  ";amountRaw=" +:+ to_string (amount l) +:+
  ";status=" +:+ coinLotStatusToString (status l) +:+
  ";createdAtBlock=" +:+ to_string (createdAtBlock l) +:+
  ";lockedUntilBlock=" +:+ to_string (lockedUntilBlock l) +:+
  ";timestamp=" +:+ to_string (timestamp l) +:+ "}".

End CoinLot.
Abbreviation CoinLot := CoinLot.t.

(** [CoinLotVerificationResult]: valid, or invalid with a reason. *)
Inductive CoinLotVerificationResult :=
| Verified
| NotVerified (reason : string).

Definition verification_success (r : CoinLotVerificationResult) : bool :=
  match r with Verified => true | NotVerified _ => false end.
Definition verification_reason (r : CoinLotVerificationResult) : string :=
  match r with Verified => "VALID" | NotVerified why => why end.

Abbreviation CoinLotRegistry := (gmap string CoinLot).

Module Registry.

Implicit Types (r : CoinLotRegistry) (lotId owner : string).

Definition hasLot r lotId : bool := bool_decide (is_Some (r !! lotId)).

Definition lot r lotId : result CoinLot :=
  match r !! lotId with
  | Some l => Ok l
  | None => Throw (out_of_range "CoinLot was not found in registry.")
  end.

Definition assertLotCanBeAdded r (l : CoinLot) : result unit :=
  throw_if (negb (CoinLot.isValid l))
    (invalid_argument "Invalid CoinLot cannot be added to registry.");;
  throw_if (empty_string (CoinLot.id l)) (invalid_argument "CoinLot id cannot be empty.");;
  throw_if (hasLot r (CoinLot.id l))
    (logic_error "CoinLot id already exists in registry.").

Definition addLot (l : CoinLot) : M CoinLotRegistry unit := λ r,
  match assertLotCanBeAdded r l with
  | Throw e => (Throw e, r)
  | Ok _ =>
      match r !! CoinLot.id l with
      | Some _ => (Throw (logic_error "CoinLot id already exists in registry."), r)
      | None => (Ok tt, <[CoinLot.id l := l]> r)
      end
  end.

Definition fromCoinLots (lots : list CoinLot) : result CoinLotRegistry :=
  on_local (for_each addLot lots) ∅.

Definition verifyExists r lotId : result CoinLotVerificationResult :=
  if empty_string lotId then Ok (NotVerified "CoinLot id is empty.")
  else if negb (hasLot r lotId) then Ok (NotVerified "CoinLot does not exist.")
  else
    l ← lot r lotId;
    if negb (CoinLot.isValid l) then Ok (NotVerified "CoinLot exists but is invalid.")
    else Ok Verified.

Definition verifySpendable r lotId owner : result CoinLotVerificationResult :=
  exists_ ← verifyExists r lotId;
  if negb (verification_success exists_) then Ok exists_
  else if empty_string owner then Ok (NotVerified "Expected owner is empty.")
  else
    l ← lot r lotId;
    if negb (String.eqb (CoinLot.ownerAddress l) owner)
    then Ok (NotVerified "CoinLot owner mismatch.")
    else if negb (CoinLot.isSpendable l) then Ok (NotVerified "CoinLot is not spendable.")
    else Ok Verified.

Definition verifyExactSpend r lotId owner (expectedAmount : Amount)
    : result CoinLotVerificationResult :=
  spendable ← verifySpendable r lotId owner;
  if negb (verification_success spendable) then Ok spendable
  else if negb (Amount.isPositive expectedAmount)
  then Ok (NotVerified "Expected spend amount must be positive.")
  else
    l ← lot r lotId;
    if negb (CoinLot.amount l =? expectedAmount)
    then Ok (NotVerified "CoinLot amount mismatch.")
    else Ok Verified.

(** [it = m_lots.find(lotId); if (it == end) throw ...; it->second.method();] *)
Definition on_lot lotId (notFound : string) (method : M CoinLot unit)
    : M CoinLotRegistry unit := λ r,
  match r !! lotId with
  | None => (Throw (out_of_range notFound), r)
  | Some l => let '(res, l') := method l in (res, <[lotId := l']> r)
  end.

(** [verifySpendable] followed by [throw invalid_argument(context + reason)]. *)
Definition requireSpendable (context : string) lotId owner : M CoinLotRegistry unit := λ r,
  (v ← verifySpendable r lotId owner;
   throw_if (negb (verification_success v))
     (invalid_argument (context +:+ verification_reason v)), r).

Definition sumLots (lots : list CoinLot) : result Amount := Amount.sum CoinLot.amount lots.

Definition checkOutput r (l : CoinLot) : result unit :=
  assertLotCanBeAdded r l;;
  throw_if (negb (CoinLot.isAvailable l))
    (invalid_argument "Output CoinLot must be available.").

Definition consumeLotAndCreateOutputs inputLotId owner (outputLots : list CoinLot)
    : M CoinLotRegistry unit :=
  lift (throw_if (bool_decide (outputLots = []))
    (invalid_argument "CoinLot spend must create at least one output lot."));;
  requireSpendable "Input CoinLot is not spendable: " inputLotId owner;;
  getsR (λ r, foldR (λ _ l, checkOutput r l) tt outputLots);;
  inputAmount ← getsR (λ r, CoinLot.amount <$> lot r inputLotId);
  outputAmount ← lift (sumLots outputLots);
  lift (throw_if (negb (inputAmount =? outputAmount))
    (invalid_argument "CoinLot spend outputs must exactly equal input amount."));;
  on_lot inputLotId "Input CoinLot disappeared from registry." CoinLot.markSpent;;
  for_each addLot outputLots.

Definition markSpent lotId owner : M CoinLotRegistry unit :=
  requireSpendable "CoinLot cannot be marked spent: " lotId owner;;
  on_lot lotId "CoinLot was not found in registry." CoinLot.markSpent.

Definition lockForSecurity lotId owner (lockedUntilBlock : Z) : M CoinLotRegistry unit :=
  requireSpendable "CoinLot cannot be locked: " lotId owner;;
  on_lot lotId "CoinLot was not found in registry." (CoinLot.lockForSecurity lockedUntilBlock).

Definition unlockIfMature lotId (currentBlock : Z) : M CoinLotRegistry unit :=
  on_lot lotId "CoinLot was not found in registry." (CoinLot.unlockIfMature currentBlock).

Definition markSlashed lotId : M CoinLotRegistry unit :=
  on_lot lotId "CoinLot was not found in registry." CoinLot.markSlashed.

(** The balance and total queries: a checked sum over the lots that satisfy
    a condition, in map order. *)
Definition sumWhere (p : CoinLot → bool) r : result Amount :=
  foldR (λ total e, if p e.2 then Amount.add total (CoinLot.amount e.2) else Ok total)
    0 (entries r).

Definition availableBalanceForOwner r owner : result Amount :=
  sumWhere (λ l, String.eqb (CoinLot.ownerAddress l) owner && CoinLot.isAvailable l) r.
Definition lockedBalanceForOwner r owner : result Amount :=
  sumWhere (λ l, String.eqb (CoinLot.ownerAddress l) owner && CoinLot.isLockedForSecurity l) r.
Definition totalTrackedAmount r : result Amount := sumWhere (λ _, true) r.
Definition totalAvailableAmount r : result Amount := sumWhere CoinLot.isAvailable r.
Definition totalLockedAmount r : result Amount := sumWhere CoinLot.isLockedForSecurity r.
Definition totalSpentAmount r : result Amount := sumWhere CoinLot.isSpent r.
Definition totalSlashedAmount r : result Amount := sumWhere CoinLot.isSlashed r.

Definition entryValid (e : string * CoinLot) : bool :=
  if empty_string e.1 then false
  else if negb (String.eqb e.1 (CoinLot.id e.2)) then false
  else CoinLot.isValid e.2.

Definition isValid r : bool := forallb entryValid (entries r).

End Registry.

(** ** Lemmas on single lots *)

Module LotFacts.

Lemma isValid_true l :
  CoinLot.isValid l = true ↔
  CoinLot.id l ≠ "" ∧ CoinLot.originMintRecordId l ≠ "" ∧ CoinLot.ownerAddress l ≠ "" ∧
  0 < CoinLot.amount l ∧ 0 < CoinLot.timestamp l ∧
  (CoinLot.status l = LOCKED_FOR_SECURITY → CoinLot.createdAtBlock l < CoinLot.lockedUntilBlock l).
Proof.
  unfold CoinLot.isValid, Amount.isPositive, CoinLot.isLockedForSecurity.
  destruct (empty_string (CoinLot.id l)) eqn:E1; [apply empty_string_true in E1; split; [done|tauto]|].
  destruct (empty_string (CoinLot.originMintRecordId l)) eqn:E2;
    [apply empty_string_true in E2; split; [done|tauto]|].
  destruct (empty_string (CoinLot.ownerAddress l)) eqn:E3;
    [apply empty_string_true in E3; split; [done|tauto]|].
  apply empty_string_false in E1, E2, E3.
  destruct (0 <? CoinLot.amount l) eqn:E4; simpl; [|split; [done|lia]].
  destruct (CoinLot.timestamp l <=? 0) eqn:E5; [split; [done|lia]|].
  case_bool_decide as E6; simpl; [|split; [intros _; repeat split; try done; lia|done]].
  destruct (CoinLot.lockedUntilBlock l <=? CoinLot.createdAtBlock l) eqn:E7; split; try done.
  - intros (_ & _ & _ & _ & _ & Hlock). specialize (Hlock E6). lia.
  - intros _. repeat split; try done; lia.
Qed.

(** The amount a lot contributes to the active supply. *)
Definition active_amount (l : CoinLot) : Z :=
  if CoinLot.isAvailable l || CoinLot.isLockedForSecurity l then CoinLot.amount l else 0.

(** [l'] is a later version of the lot [l]: identity, origin, owner, amount
    and creation data never change, and SPENT and SLASHED are final. *)
Record evolves (l l' : CoinLot) : Prop := {
  ev_id : CoinLot.id l' = CoinLot.id l;
  ev_origin : CoinLot.originMintRecordId l' = CoinLot.originMintRecordId l;
  ev_owner : CoinLot.ownerAddress l' = CoinLot.ownerAddress l;
  ev_amount : CoinLot.amount l' = CoinLot.amount l;
  ev_created : CoinLot.createdAtBlock l' = CoinLot.createdAtBlock l;
  ev_timestamp : CoinLot.timestamp l' = CoinLot.timestamp l;
  ev_spent : CoinLot.status l = SPENT → CoinLot.status l' = SPENT;
  ev_slashed : CoinLot.status l = SLASHED → CoinLot.status l' = SLASHED;
}.

#[global] Instance evolves_preorder : PreOrder evolves.
Proof.
  split; [by intros l; split|].
  intros l1 l2 l3 [] []; split; try congruence; auto.
Qed.

(** The mutating methods of [CoinLot]. *)
Inductive lot_method : M CoinLot unit → Prop :=
| lm_lock b : lot_method (CoinLot.lockForSecurity b)
| lm_unlock b : lot_method (CoinLot.unlockIfMature b)
| lm_spend : lot_method CoinLot.markSpent
| lm_slash : lot_method CoinLot.markSlashed.

Ltac lot_cases :=
  unfold CoinLot.lockForSecurity, CoinLot.unlockIfMature, CoinLot.markSpent,
    CoinLot.markSlashed, CoinLot.isAvailable, CoinLot.isLockedForSecurity,
    CoinLot.isSpendable, CoinLot.isSpent in *;
  repeat case_bool_decide; simpl in *;
  repeat match goal with |- context [if ?b then _ else _] => destruct b eqn:?; simpl in * end.

Lemma method_evolves m : lot_method m → within evolves m.
Proof. destruct 1; intros l; lot_cases; split; simpl; congruence. Qed.

Lemma method_valid m : lot_method m → within (keeps (λ l, CoinLot.isValid l = true)) m.
Proof.
  intros Hm l. unfold keeps. rewrite !isValid_true. destruct Hm; lot_cases; intuition (try congruence; lia).
Qed.

End LotFacts.
#[export] Hint Constructors LotFacts.lot_method : nodo.

(** ** Lemmas on the registry *)

Module RegistryFacts.
Import LotFacts.

(** What [Registry.isValid] checks, as a property of the map. *)
Definition wf (r : CoinLotRegistry) : Prop :=
  map_Forall (λ k l, k = CoinLot.id l ∧ CoinLot.isValid l = true) r.

Lemma registry_isValid_wf r : Registry.isValid r = true ↔ wf r.
Proof.
  unfold Registry.isValid. rewrite forallb_forall. split.
  - intros Hall k l Hl. specialize (Hall (k, l)).
    rewrite <- list_elem_of_In, elem_of_entries in Hall. specialize (Hall Hl).
    unfold Registry.entryValid in Hall; simpl in Hall.
    destruct (empty_string k); [done|].
    destruct (String.eqb_spec k (CoinLot.id l)); [by split|done].
  - intros Hwf [k l]. rewrite <- list_elem_of_In, elem_of_entries. intros Hl.
    destruct (Hwf k l Hl) as [-> Hv]. unfold Registry.entryValid; simpl.
    rewrite String.eqb_refl, Hv. apply isValid_true in Hv as [Hid _].
    apply empty_string_false in Hid. by rewrite Hid.
Qed.

Lemma wf_empty : wf ∅.
Proof. apply map_Forall_empty. Qed.

Lemma assertLotCanBeAdded_Ok r l u :
  Registry.assertLotCanBeAdded r l = Ok u ↔ CoinLot.isValid l = true ∧ r !! CoinLot.id l = None.
Proof.
  unfold Registry.assertLotCanBeAdded, Registry.hasLot. split.
  - intros H. inv_ok. split; [done|]. case_bool_decide as Hb; [done|].
    by apply eq_None_not_Some in Hb.
  - intros [Hv Hn]. rewrite Hv; simpl. apply isValid_true in Hv as [Hid _].
    apply empty_string_false in Hid. rewrite Hid; simpl. rewrite bool_decide_false; [by destruct u|].
    rewrite Hn. by intros [? ?].
Qed.

Lemma addLot_Ok l r u r' :
  Registry.addLot l r = (Ok u, r') ↔
  CoinLot.isValid l = true ∧ r !! CoinLot.id l = None ∧ r' = <[CoinLot.id l := l]> r.
Proof.
  unfold Registry.addLot. destruct (Registry.assertLotCanBeAdded r l) as [[]|e] eqn:E.
  - apply assertLotCanBeAdded_Ok in E as [Hv Hn]. rewrite Hn. destruct u.
    split; [by intros [= <-]|by intros (_ & _ & ->)].
  - split; [done|]. intros (Hv & Hn & _).
    pose proof (proj2 (assertLotCanBeAdded_Ok r l tt) (conj Hv Hn)). congruence.
Qed.

Lemma addLot_Throw l r e r' : Registry.addLot l r = (Throw e, r') → r' = r.
Proof.
  unfold Registry.addLot. destruct (Registry.assertLotCanBeAdded r l) as [[]|]; [|by intros [= _ <-]].
  destruct (r !! _); by intros [= ? <-].
Qed.

(** A lot that [verifySpendable] accepts. *)
Definition spendable (r : CoinLotRegistry) (lotId owner : string) (l : CoinLot) : Prop :=
  r !! lotId = Some l ∧ CoinLot.isValid l = true ∧ CoinLot.ownerAddress l = owner ∧
  CoinLot.status l = AVAILABLE.

Lemma verifySpendable_Ok r lotId owner v :
  Registry.verifySpendable r lotId owner = Ok v → verification_success v = true →
  ∃ l, spendable r lotId owner l.
Proof.
  unfold Registry.verifySpendable, Registry.verifyExists, Registry.hasLot, Registry.lot, CoinLot.isSpendable.
  intros H Hs.
  destruct (empty_string lotId); [by simpl in H; inv_ok|].
  destruct (r !! lotId) as [l|] eqn:El; [|rewrite bool_decide_false in H; [by simpl in H; inv_ok|by intros [? ?]]].
  rewrite bool_decide_true in H by eauto. simpl in H.
  destruct (CoinLot.isValid l) eqn:Ev; [|by simpl in H; inv_ok]. simpl in H.
  destruct (empty_string owner); [by simpl in H; inv_ok|].
  destruct (String.eqb_spec (CoinLot.ownerAddress l) owner); [|by simpl in H; inv_ok]. simpl in H.
  case_bool_decide; [|by simpl in H; inv_ok]. by exists l.
Qed.

Lemma spendable_verifySpendable r lotId owner l :
  wf r → spendable r lotId owner l → Registry.verifySpendable r lotId owner = Ok Verified.
Proof.
  intros Hwf (Hl & Hv & <- & Hs). destruct (Hwf _ _ Hl) as [-> _].
  apply isValid_true in Hv as Hv'. destruct Hv' as (Hid & _ & Ho & _).
  apply empty_string_false in Hid, Ho.
  unfold Registry.verifySpendable, Registry.verifyExists, Registry.hasLot, Registry.lot, CoinLot.isSpendable.
  rewrite Hid. rewrite bool_decide_true by eauto. simpl.
  rewrite Hl. simpl. rewrite Hv. simpl. rewrite Ho, String.eqb_refl. simpl.
  by rewrite bool_decide_true by done.
Qed.

Lemma requireSpendable_Ok ctx lotId owner r u r' :
  Registry.requireSpendable ctx lotId owner r = (Ok u, r') →
  r' = r ∧ ∃ l, spendable r lotId owner l.
Proof.
  unfold Registry.requireSpendable. intros [= H <-]. split; [done|]. inv_ok.
  by eapply verifySpendable_Ok.
Qed.

Lemma on_lot_Ok lotId nf m r u r' :
  Registry.on_lot lotId nf m r = (Ok u, r') ↔
  ∃ l l', r !! lotId = Some l ∧ m l = (Ok u, l') ∧ r' = <[lotId := l']> r.
Proof.
  unfold Registry.on_lot. destruct (r !! lotId) as [l|]; [|split; [done|by intros (? & ? & [=] & _)]].
  destruct (m l) as [res l'] eqn:Em. split.
  - intros [= -> <-]. by exists l, l'.
  - intros (? & ? & [= <-] & ? & ->). congruence.
Qed.

(** ** Every operation of the registry, exceptions included *)

Inductive op :=
| OpAdd (l : CoinLot)
| OpConsume (inputLotId owner : string) (outputs : list CoinLot)
| OpMarkSpent (lotId owner : string)
| OpLock (lotId owner : string) (until : Z)
| OpUnlock (lotId : string) (currentBlock : Z)
| OpSlash (lotId : string).

Definition run (o : op) : M CoinLotRegistry unit :=
  match o with
  | OpAdd l => Registry.addLot l
  | OpConsume i owner outs => Registry.consumeLotAndCreateOutputs i owner outs
  | OpMarkSpent i owner => Registry.markSpent i owner
  | OpLock i owner b => Registry.lockForSecurity i owner b
  | OpUnlock i b => Registry.unlockIfMature i b
  | OpSlash i => Registry.markSlashed i
  end.

(** The registry after a sequence of calls, each of which may have thrown and
    been caught by the caller. *)
Definition run_all (ops : list op) (r : CoinLotRegistry) : CoinLotRegistry :=
  foldl (λ r o, (run o r).2) r ops.

Section every_operation.
Context (R : relation CoinLotRegistry) `{!PreOrder R}.
Hypothesis R_add : ∀ l, within R (Registry.addLot l).
Hypothesis R_on_lot : ∀ i nf m, lot_method m → within R (Registry.on_lot i nf m).

Lemma requireSpendable_within ctx i o : within R (Registry.requireSpendable ctx i o).
Proof using PreOrder0. intros r. by simpl. Qed.

Lemma run_within o : within R (run o).
Proof using All.
  destruct o; simpl; unfold Registry.consumeLotAndCreateOutputs, Registry.markSpent,
    Registry.lockForSecurity, Registry.unlockIfMature, Registry.markSlashed;
    eauto 10 using within_bind, within_lift, within_getsR, within_for_each,
      requireSpendable_within with nodo.
  repeat first [apply within_bind | intros ? | apply within_lift | apply within_getsR
               | apply requireSpendable_within | apply within_for_each
               | apply R_on_lot; constructor | apply R_add]; done.
Qed.

Lemma run_all_within ops r : R r (run_all ops r).
Proof using All.
  revert r. induction ops as [|o ops IH]; intros r; simpl; [done|].
  etrans; [apply run_within|apply IH].
Qed.
End every_operation.

(** Lots never disappear and evolve only along the lot lifecycle. *)
Definition history (r r' : CoinLotRegistry) : Prop :=
  ∀ k l, r !! k = Some l → ∃ l', r' !! k = Some l' ∧ evolves l l'.

#[global] Instance history_preorder : PreOrder history.
Proof.
  split; [intros r k l ?; by exists l|].
  intros r1 r2 r3 H12 H23 k l (l2 & ? & ?)%H12.
  destruct (H23 k l2) as (l3 & ? & ?); [done|]. exists l3. split; [done|by etrans].
Qed.

Lemma addLot_history l : within history (Registry.addLot l).
Proof.
  intros r. destruct (Registry.addLot l r) as [[u|e] r'] eqn:E; simpl.
  - apply addLot_Ok in E as (_ & Hn & ->). intros k l0 Hk. exists l0. split; [|done].
    rewrite lookup_insert_ne; congruence.
  - by apply addLot_Throw in E as ->.
Qed.

Lemma on_lot_history i nf m : lot_method m → within history (Registry.on_lot i nf m).
Proof.
  intros Hm r. unfold Registry.on_lot. destruct (r !! i) as [l|] eqn:E; [|done].
  pose proof (method_evolves m Hm l) as Hev. destruct (m l) as [res l'].
  simpl in *. intros k l0 Hk. destruct (decide (i = k)) as [->|].
  - exists l'. rewrite lookup_insert_eq. by simplify_eq.
  - exists l0. by rewrite lookup_insert_ne.
Qed.

Lemma addLot_wf l : within (keeps wf) (Registry.addLot l).
Proof.
  intros r. destruct (Registry.addLot l r) as [[u|e] r'] eqn:E; simpl; intros Hwf.
  - apply addLot_Ok in E as (Hv & _ & ->). by apply map_Forall_insert_2.
  - by apply addLot_Throw in E as ->.
Qed.

Lemma on_lot_wf i nf m : lot_method m → within (keeps wf) (Registry.on_lot i nf m).
Proof.
  intros Hm r. unfold Registry.on_lot. destruct (r !! i) as [l|] eqn:E; [|done].
  pose proof (method_evolves m Hm l) as Hev. pose proof (method_valid m Hm l) as Hval.
  destruct (m l) as [res l']. simpl in *. intros Hwf. destruct (Hwf i l E) as [-> Hv].
  apply map_Forall_insert_2; [|done]. rewrite (ev_id _ _ Hev). by split; [|apply Hval].
Qed.

(** ** Conservation of value when a lot is consumed *)

Definition activeSupply (r : CoinLotRegistry) : Z := map_sum active_amount r.

(** Adding a list of lots: it succeeds exactly when they are valid, fresh and
    pairwise distinct, and then adds each of them. *)
Definition addable (r : CoinLotRegistry) (outs : list CoinLot) : Prop :=
  (∀ l, l ∈ outs → CoinLot.isValid l = true ∧ r !! CoinLot.id l = None) ∧
  NoDup (CoinLot.id <$> outs).

Definition add_lots (outs : list CoinLot) (r : CoinLotRegistry) : CoinLotRegistry :=
  foldl (λ r l, <[CoinLot.id l := l]> r) r outs.

Lemma addable_cons r l outs :
  addable r (l :: outs) ↔
  CoinLot.isValid l = true ∧ r !! CoinLot.id l = None ∧ addable (<[CoinLot.id l := l]> r) outs.
Proof.
  unfold addable. rewrite fmap_cons, NoDup_cons. split.
  - intros [Hall [Hni Hnd]]. destruct (Hall l) as [Hv Hn]; [elem|]. split_and!; try done.
    + intros l' Hl'. destruct (Hall l') as [Hv' Hn']; [elem|]. split; [done|].
      rewrite lookup_insert_ne; [done|]. intros E. apply Hni. rewrite E.
      by apply list_elem_of_fmap_2.
  - intros (Hv & Hn & Hall & Hnd). split_and!; try done.
    + intros l0 [->|Hl]%elem_of_cons; [done|]. destruct (Hall l0 Hl) as [? Hf].
      by apply lookup_insert_None in Hf as [? _].
    + intros (l' & E & Hl')%list_elem_of_fmap. destruct (Hall l' Hl') as [_ Hf].
      apply lookup_insert_None in Hf as [_ []]. congruence.
Qed.

Lemma add_all_Ok outs r u r' :
  for_each Registry.addLot outs r = (Ok u, r') ↔ addable r outs ∧ r' = add_lots outs r.
Proof.
  revert r. induction outs as [|l outs IH]; intros r; simpl.
  - destruct u. split; [intros [= <-]|by intros [_ ->]]. split; [|done]. split; [|constructor].
    by intros l ?%elem_of_nil.
  - rewrite M_bind_Ok, addable_cons. split.
    + intros ([] & r1 & (Hv & Hn & ->)%addLot_Ok & [Ha ->]%IH). done.
    + intros ((Hv & Hn & Ha) & ->). exists tt, (<[CoinLot.id l:=l]> r).
      rewrite addLot_Ok, IH. done.
Qed.

Lemma add_lots_wf outs r : wf r → addable r outs → wf (add_lots outs r).
Proof.
  intros Hwf Ha. pose proof (within_for_each (keeps wf) Registry.addLot outs addLot_wf r) as Hk.
  rewrite (proj2 (add_all_Ok outs r tt _) (conj Ha eq_refl)) in Hk. by apply Hk.
Qed.

Lemma add_lots_sum f outs r :
  addable r outs → map_sum f (add_lots outs r) = map_sum f r + sum_by f outs.
Proof.
  revert r. induction outs as [|l outs IH]; intros r; simpl; [intros; lia|].
  intros (Hv & Hn & Ha)%addable_cons. rewrite IH, map_sum_insert by done. lia.
Qed.

Lemma add_lots_old outs r k l : addable r outs → r !! k = Some l → add_lots outs r !! k = Some l.
Proof.
  revert r. induction outs as [|l0 outs IH]; intros r; simpl; [done|].
  intros (Hv & Hn & Ha)%addable_cons Hk. apply IH; [done|]. rewrite lookup_insert_ne; congruence.
Qed.

Lemma add_lots_new outs r l : addable r outs → l ∈ outs → add_lots outs r !! CoinLot.id l = Some l.
Proof.
  revert r. induction outs as [|l0 outs IH]; intros r; simpl; [by intros _ ?%elem_of_nil|].
  intros (Hv & Hn & Ha)%addable_cons [->|Hl]%elem_of_cons; [|by apply IH].
  apply add_lots_old; [done|]. apply lookup_insert_eq.
Qed.

Lemma add_lots_inv outs r k l :
  addable r outs → add_lots outs r !! k = Some l → r !! k = Some l ∨ (l ∈ outs ∧ k = CoinLot.id l).
Proof.
  revert r. induction outs as [|l0 outs IH]; intros r; simpl; [by left|].
  intros (Hv & Hn & Ha)%addable_cons [Hk|[Hl ->]]%IH; [| |done].
  - apply lookup_insert_Some in Hk as [[<- <-]|[_ Hk]]; [|by left]. right. split; [elem|done].
  - right. split; [elem|done].
Qed.

Lemma checkOutput_Ok r l u :
  Registry.checkOutput r l = Ok u ↔
  CoinLot.isValid l = true ∧ r !! CoinLot.id l = None ∧ CoinLot.status l = AVAILABLE.
Proof.
  unfold Registry.checkOutput, CoinLot.isAvailable. rewrite bind_Ok. split.
  - intros ([] & [Hv Hn]%assertLotCanBeAdded_Ok & Hs%throw_if_Ok). inv_ok.
    by apply bool_decide_eq_true in Hs.
  - intros (Hv & Hn & Hs). exists tt. rewrite assertLotCanBeAdded_Ok, bool_decide_true by done.
    by destruct u.
Qed.

Lemma markSpent_available l :
  CoinLot.status l = AVAILABLE →
  CoinLot.markSpent l = (Ok tt, CoinLot.with_lockedUntil 0 (CoinLot.with_status SPENT l)).
Proof. intros E. unfold CoinLot.markSpent, CoinLot.isSpendable. by rewrite bool_decide_true. Qed.

Lemma active_amount_available l : CoinLot.status l = AVAILABLE → active_amount l = CoinLot.amount l.
Proof. intros E. unfold active_amount, CoinLot.isAvailable. by rewrite bool_decide_true. Qed.

Definition spent_version (l : CoinLot) : CoinLot :=
  CoinLot.with_lockedUntil 0 (CoinLot.with_status SPENT l).

(** The checks of [consumeLotAndCreateOutputs], all made before its first
    mutation. *)
Definition consume_checked r input owner outs l : Prop :=
  spendable r input owner l ∧ outs ≠ [] ∧
  (∀ o, o ∈ outs → CoinLot.isValid o = true ∧ r !! CoinLot.id o = None ∧
                   CoinLot.status o = AVAILABLE) ∧
  sum_by CoinLot.amount outs = CoinLot.amount l.

(** A call that passes the checks spends the input and then adds the outputs;
    a call that does not pass them throws with the registry unchanged. *)
Lemma consume_cases r input owner outs :
  (∃ e, Registry.consumeLotAndCreateOutputs input owner outs r = (Throw e, r)) ∨
  (∃ l, consume_checked r input owner outs l ∧
     Registry.consumeLotAndCreateOutputs input owner outs r =
     for_each Registry.addLot outs (<[input := spent_version l]> r)).
Proof.
  unfold Registry.consumeLotAndCreateOutputs.
  destruct (bool_decide (outs = [])) eqn:Hne;
    [left; eexists; by erewrite M_run_Throw by reflexivity|].
  apply bool_decide_eq_false in Hne.
  erewrite M_run_Ok by reflexivity.
  destruct (Registry.requireSpendable "Input CoinLot is not spendable: " input owner r)
    as [[[]|e] r1] eqn:E1.
  2: { left. exists e. erewrite M_run_Throw by done. by injection E1 as _ <-. }
  erewrite M_run_Ok by done. apply requireSpendable_Ok in E1 as [-> [l Hsp]].
  destruct (foldR (λ _ l, Registry.checkOutput r l) tt outs) as [u|e] eqn:E2;
    [|left; eexists; erewrite M_run_Throw; [done|by unfold getsR; rewrite E2]].
  erewrite M_run_Ok; [|by unfold getsR; rewrite E2]. rewrite foldR_unit in E2.
  pose proof Hsp as (Hl & Hv & Ho & Hs).
  erewrite M_run_Ok; [|by unfold getsR, Registry.lot; rewrite Hl].
  destruct (Registry.sumLots outs) as [s|e] eqn:E3;
    [|left; eexists; by erewrite M_run_Throw by done].
  erewrite M_run_Ok by done. apply Amount.sum_Ok in E3 as ->.
  destruct (CoinLot.amount l =? sum_by CoinLot.amount outs) eqn:E4;
    [|left; eexists; by erewrite M_run_Throw by done].
  apply Z.eqb_eq in E4. erewrite M_run_Ok by done.
  erewrite M_run_Ok; [|by unfold Registry.on_lot; rewrite Hl, markSpent_available by done].
  right. exists l. split; [|reflexivity]. split_and!; try done.
  intros o Ho'. by apply (checkOutput_Ok r o tt), E2.
Qed.

Lemma consume_addable r input owner outs l :
  consume_checked r input owner outs l → NoDup (CoinLot.id <$> outs) →
  addable (<[input := spent_version l]> r) outs.
Proof.
  intros ((Hl & _) & _ & Hall & _) Hnd. split; [|done]. intros o Ho.
  destruct (Hall o Ho) as (Hv & Hn & _). split; [done|].
  rewrite lookup_insert_ne; [done|]. congruence.
Qed.

End RegistryFacts.

(** ** What the registry promises *)

Module RegistryProperties.
Import LotFacts RegistryFacts.

(** Whatever sequence of registry operations runs, and whether each call
    returns or throws, no recorded lot disappears, its id, origin mint record,
    owner, amount and creation data never change, and a SPENT or SLASHED lot
    stays so: a consumed lot can never be spent again. *)
Theorem lots_are_traceable (ops : list op) (r : CoinLotRegistry) (k : string) (l : CoinLot) :
  r !! k = Some l → ∃ l', run_all ops r !! k = Some l' ∧ evolves l l'.
Proof.
  apply (run_all_within history addLot_history on_lot_history ops r).
Qed.

(** Every sequence of registry operations, exceptions included, keeps the
    registry valid: keys are the lot ids and every lot is well formed. *)
Theorem operations_keep_registry_valid (ops : list op) (r : CoinLotRegistry) :
  Registry.isValid r = true → Registry.isValid (run_all ops r) = true.
Proof.
  rewrite !registry_isValid_wf. apply (run_all_within (keeps wf) addLot_wf on_lot_wf ops r).
Qed.

(** [consumeLotAndCreateOutputs] is exact: when it returns, the input was a
    valid AVAILABLE lot of the expected owner, the outputs sum to its amount,
    the input is now SPENT, each output is recorded, and the active supply of
    the registry is unchanged. *)
Theorem consume_conserves_value r input owner outs r' :
  Registry.isValid r = true →
  Registry.consumeLotAndCreateOutputs input owner outs r = (Ok tt, r') →
  ∃ l, spendable r input owner l ∧ sum_by CoinLot.amount outs = CoinLot.amount l ∧
       r' !! input = Some (spent_version l) ∧
       (∀ o, o ∈ outs → r' !! CoinLot.id o = Some o) ∧
       activeSupply r' = activeSupply r.
Proof.
  rewrite registry_isValid_wf. intros Hwf Hrun.
  destruct (consume_cases r input owner outs) as [[e E]|(l & Hc & E)]; [congruence|].
  rewrite E in Hrun. apply add_all_Ok in Hrun as [Ha ->].
  pose proof Hc as (Hsp & _ & Hall & Hsum). pose proof Hsp as (Hl & _ & _ & Hs).
  exists l. split_and!; try done.
  - apply add_lots_old; [done|]. apply lookup_insert_eq.
  - intros o Ho. by apply add_lots_new.
  - unfold activeSupply. rewrite add_lots_sum, (map_sum_update _ _ _ l) by done.
    rewrite (sum_by_ext active_amount CoinLot.amount outs), Hsum, active_amount_available; [|done|].
    + change (active_amount (spent_version l)) with 0. lia.
    + intros o Ho. apply active_amount_available. by destruct (Hall o Ho) as (_ & _ & ?).
Qed.

(** When the output ids are pairwise distinct, [consumeLotAndCreateOutputs]
    is all or nothing: a call that throws leaves the registry unchanged. *)
Theorem consume_is_atomic r input owner outs e r' :
  NoDup (CoinLot.id <$> outs) →
  Registry.consumeLotAndCreateOutputs input owner outs r = (Throw e, r') → r' = r.
Proof.
  intros Hnd Hrun.
  destruct (consume_cases r input owner outs) as [[e' E]|(l & Hc & E)]; [congruence|].
  pose proof (proj2 (add_all_Ok outs _ tt _) (conj (consume_addable r input owner outs l Hc Hnd) eq_refl)).
  congruence.
Qed.

Definition sample_lot (id owner : string) (amount : Z) : CoinLot :=
  CoinLot.mk id "mint-1" owner amount AVAILABLE 0 0 1700000000.
Definition sample_registry : CoinLotRegistry := {[ "lot-a" := sample_lot "lot-a" "alice" 100 ]}.

Lemma lots_are_traceable_witness :
  ∃ l', run_all [OpMarkSpent "lot-a" "alice"; OpSlash "lot-a"] sample_registry !! "lot-a" = Some l' ∧
        evolves (sample_lot "lot-a" "alice" 100) l'.
Proof. apply lots_are_traceable. reflexivity. Defined.

Lemma operations_keep_registry_valid_witness :
  Registry.isValid (run_all [OpLock "lot-a" "alice" 9; OpUnlock "lot-a" 10] sample_registry) = true.
Proof. apply operations_keep_registry_valid. vm_compute. reflexivity. Defined.

Definition split_outputs : list CoinLot := [sample_lot "o1" "bob" 30; sample_lot "o2" "alice" 70].

Lemma consume_conserves_value_witness :
  ∃ r' l, spendable sample_registry "lot-a" "alice" l ∧
    sum_by CoinLot.amount split_outputs = CoinLot.amount l ∧
    r' !! "lot-a" = Some (spent_version l) ∧
    (∀ o, o ∈ split_outputs → r' !! CoinLot.id o = Some o) ∧
    activeSupply r' = activeSupply sample_registry.
Proof.
  exists (Registry.consumeLotAndCreateOutputs "lot-a" "alice" split_outputs sample_registry).2.
  apply (consume_conserves_value sample_registry "lot-a" "alice" split_outputs).
  - vm_compute. reflexivity.
  - vm_compute. reflexivity.
Defined.

Lemma consume_is_atomic_witness :
  (Registry.consumeLotAndCreateOutputs "lot-a" "alice" [sample_lot "o1" "bob" 30] sample_registry).2
  = sample_registry.
Proof.
  apply (consume_is_atomic sample_registry "lot-a" "alice" [sample_lot "o1" "bob" 30]
           (invalid_argument "CoinLot spend outputs must exactly equal input amount.")).
  - apply NoDup_singleton.
  - vm_compute. reflexivity.
Defined.

(** The distinctness hypothesis is needed: with two outputs of the same id
    the checks pass, the input is marked SPENT and the second [addLot] throws,
    so the exception leaves the registry with less active value than before. *)
Theorem consume_duplicate_outputs_lose_value :
  let outs := [sample_lot "o1" "bob" 30; sample_lot "o1" "bob" 70] in
  let res := Registry.consumeLotAndCreateOutputs "lot-a" "alice" outs sample_registry in
  res.1 = Throw (logic_error "CoinLot id already exists in registry.") ∧
  activeSupply sample_registry = 100 ∧ activeSupply res.2 = 30.
Proof. vm_compute. done. Qed.

End RegistryProperties.
