(* ===== verification/CoinLotTransfer.v ===== *)
(** * core: transfers as movements of coin lots

    Models src/src/core/CoinLotTransferPlan.cpp,
    CoinLotTransactionValidationResult.cpp and CoinLotTransactionValidator.cpp:
    the choice of the input lots of a transfer, the construction of the output
    lots and the application of the plan to the registry.  The inner [while]
    loop that allocates one input lot runs on fuel; [allocate_total] shows that
    the fuel used is never exhausted. *)

From S2P Require Import Prelude Utils CoinLots.

(** [TransactionType], include/core/TransactionType.hpp. *)
Inductive TransactionType :=
| TRANSFER | BURN | STAKE_DEPOSIT | STAKE_UNLOCK | STAKE_WITHDRAW | STAKE_TOP_UP
| VALIDATOR_REGISTER | VALIDATOR_EXIT_REQUEST | VALIDATOR_UNJAIL_REQUEST
| VALIDATOR_KEY_ROTATE | GOVERNANCE_PROPOSE | GOVERNANCE_VOTE | GOVERNANCE_EXECUTE
| TYPE_COUNT.

#[global] Instance TransactionType_eq_dec : EqDecision TransactionType.
Proof. solve_decision. Defined.

(** The payload of a [Transaction]; its signature bundle is not read by any
    operation on lots. *)
Module Transaction.
Record t := mk {
  id : string;
  type : TransactionType;
  fromAddress : string;
  toAddress : string;
  amount : Amount;
  fee : Amount;
  nonce : Z;
  timestamp : Z;
  inputCoinLotIds : list string;
  data : string;
  chainId : string;
}.

Definition hasExplicitInputCoinLotIds (tx : t) : bool :=
  negb (bool_decide (inputCoinLotIds tx = [])).
End Transaction.
Abbreviation Transaction := Transaction.t.

(** [State::feePoolAddress()] *)
Definition feePoolAddress : string := "nodo_fee_pool".

Module TransferPlan.

Record t := mk {
  transactionId : string;
  senderAddress : string;
  recipientAddress : string;
  inputLotIds : list string;
  outputLots : list CoinLot;
  transferAmount : Amount;
  feeAmount : Amount;
  changeAmount : Amount;
  totalInputAmount : Amount;
}.

Definition totalOutputAmount (p : t) : result Amount := Amount.sum CoinLot.amount (outputLots p).
Definition totalDebitAmount (p : t) : result Amount := Amount.add (transferAmount p) (feeAmount p).

(** The loop over the input ids: non-empty and not seen before. *)
Fixpoint inputIdsValid (seen : gset string) (ids : list string) : bool :=
  match ids with
  | [] => true
  | i :: ids =>
      if empty_string i then false
      else if bool_decide (i ∈ seen) then false
      else inputIdsValid ({[ i ]} ∪ seen) ids
  end.

Fixpoint outputLotsValid (seen : gset string) (lots : list CoinLot) : bool :=
  match lots with
  | [] => true
  | l :: lots =>
      if negb (CoinLot.isValid l) then false
      else if negb (CoinLot.isAvailable l) then false
      else if bool_decide (CoinLot.id l ∈ seen) then false
      else outputLotsValid ({[ CoinLot.id l ]} ∪ seen) lots
  end.

Definition isValid (p : t) : result bool :=
  if empty_string (transactionId p) then Ok false
  else if empty_string (senderAddress p) || empty_string (recipientAddress p) then Ok false
  else if String.eqb (senderAddress p) (recipientAddress p) then Ok false
  else if bool_decide (inputLotIds p = []) then Ok false
  else if bool_decide (outputLots p = []) then Ok false
  else if negb (Amount.isPositive (transferAmount p)) then Ok false
  else if Amount.isNegative (feeAmount p) then Ok false
  else if Amount.isNegative (changeAmount p) then Ok false
  else if negb (Amount.isPositive (totalInputAmount p)) then Ok false
  else
    debit ← totalDebitAmount p;
    total ← Amount.add debit (changeAmount p);
    if negb (total =? totalInputAmount p) then Ok false
    else
      output ← totalOutputAmount p;
      if negb (output =? totalInputAmount p) then Ok false
      else if negb (inputIdsValid ∅ (inputLotIds p)) then Ok false
      else Ok (outputLotsValid ∅ (outputLots p)).

End TransferPlan.
Abbreviation CoinLotTransferPlan := TransferPlan.t.

(** [CoinLotTransactionValidationResult] *)
Inductive TransferValidation := TransferValid | TransferInvalid (reason : string).

Definition validation_invalid (reason : string) : TransferValidation :=
  TransferInvalid (if empty_string reason then "INVALID" else reason).
Definition validation_success (v : TransferValidation) : bool :=
  match v with TransferValid => true | TransferInvalid _ => false end.
Definition validation_reason (v : TransferValidation) : string :=
  match v with TransferValid => "VALID" | TransferInvalid why => why end.

Module TransferValidator.

Implicit Types (tx : Transaction) (r : CoinLotRegistry).

Definition minAmount (left right : Amount) : Amount :=
  if left <=? right then left else right.

(** One iteration of the explicit-input loop; the state is the set [seen],
    the selected lots and the collected amount. *)
Definition selectExplicitStep tx r (st : gset string * list CoinLot * Amount) (inputLotId : string)
    : result (gset string * list CoinLot * Amount) :=
  let '(seen, selected, collected) := st in
  throw_if (bool_decide (inputLotId ∈ seen))
    (invalid_argument "Duplicate explicit input CoinLot id rejected.");;
  v ← Registry.verifySpendable r inputLotId (Transaction.fromAddress tx);
  throw_if (negb (verification_success v))
    (invalid_argument ("Explicit input CoinLot is not spendable: " +:+ verification_reason v));;
  l ← Registry.lot r inputLotId;
  collected' ← Amount.add collected (CoinLot.amount l);
  Ok ({[ inputLotId ]} ∪ seen, selected ++ [l], collected').

(** The deterministic mode: walk the registry in map order and stop as soon
    as the debit is covered. *)
Fixpoint selectSpendable tx (totalDebit : Amount) (lots : list CoinLot)
    (selected : list CoinLot) (collected : Amount) : result (list CoinLot * Amount) :=
  match lots with
  | [] => Ok (selected, collected)
  | l :: lots =>
      if negb (String.eqb (CoinLot.ownerAddress l) (Transaction.fromAddress tx)) then
        selectSpendable tx totalDebit lots selected collected
      else if negb (CoinLot.isSpendable l) then
        selectSpendable tx totalDebit lots selected collected
      else
        collected' ← Amount.add collected (CoinLot.amount l);
        if totalDebit <=? collected' then Ok (selected ++ [l], collected')
        else selectSpendable tx totalDebit lots (selected ++ [l]) collected'
  end.

Definition selectInputLots tx r (totalDebit : Amount) : result (list CoinLot) :=
  if Transaction.hasExplicitInputCoinLotIds tx then
    st ← foldR (selectExplicitStep tx r) (∅, [], 0) (Transaction.inputCoinLotIds tx);
    let '(_, selected, collected) := st in
    throw_if (collected <? totalDebit)
      (invalid_argument "Explicit input CoinLots do not cover transfer amount plus fee.");;
    Ok selected
  else
    st ← selectSpendable tx totalDebit (entries r).*2 [] 0;
    let '(selected, collected) := st in
    throw_if (collected <? totalDebit)
      (invalid_argument "Insufficient spendable CoinLot balance for transfer.");;
    Ok selected.

Fixpoint validateSelectedLoop tx (totalDebit : Amount) (lots : list CoinLot)
    (seen : gset string) (collected : Amount) : result TransferValidation :=
  match lots with
  | [] =>
      if collected <? totalDebit then
        Ok (validation_invalid "Selected input CoinLots do not cover transfer amount plus fee.")
      else Ok TransferValid
  | l :: lots =>
      if negb (CoinLot.isValid l) then
        Ok (validation_invalid "Selected input CoinLot is invalid.")
      else if negb (String.eqb (CoinLot.ownerAddress l) (Transaction.fromAddress tx)) then
        Ok (validation_invalid "Selected input CoinLot owner mismatch.")
      else if negb (CoinLot.isSpendable l) then
        Ok (validation_invalid "Selected input CoinLot is not spendable.")
      else if bool_decide (CoinLot.id l ∈ seen) then
        Ok (validation_invalid "Duplicate selected input CoinLot id rejected.")
      else
        collected' ← Amount.add collected (CoinLot.amount l);
        validateSelectedLoop tx totalDebit lots ({[ CoinLot.id l ]} ∪ seen) collected'
  end.

Definition validateSelectedInputLots tx (selected : list CoinLot) (totalDebit : Amount)
    : result TransferValidation :=
  if bool_decide (selected = []) then
    Ok (validation_invalid "Transfer has no selected input CoinLots.")
  else validateSelectedLoop tx totalDebit selected ∅ 0.

Definition validateTransferTransaction tx r : result TransferValidation :=
  if negb (bool_decide (Transaction.type tx = TRANSFER)) then
    Ok (validation_invalid "Only TRANSFER transactions can be validated against CoinLotRegistry.")
  else if empty_string (Transaction.id tx) then
    Ok (validation_invalid "Transaction id is empty.")
  else if empty_string (Transaction.fromAddress tx) || empty_string (Transaction.toAddress tx) then
    Ok (validation_invalid "Transfer addresses cannot be empty.")
  else if String.eqb (Transaction.fromAddress tx) (Transaction.toAddress tx) then
    Ok (validation_invalid "Transfer sender and recipient cannot be the same.")
  else if negb (Amount.isPositive (Transaction.amount tx)) then
    Ok (validation_invalid "Transfer amount must be positive.")
  else if Amount.isNegative (Transaction.fee tx) then
    Ok (validation_invalid "Transfer fee cannot be negative.")
  else if Transaction.nonce tx =? 0 then
    Ok (validation_invalid "Transfer nonce must be positive.")
  else if Transaction.timestamp tx <=? 0 then
    Ok (validation_invalid "Transfer timestamp must be positive.")
  else if negb (Registry.isValid r) then
    Ok (validation_invalid "CoinLotRegistry is invalid.")
  else
    totalDebit ← Amount.add (Transaction.amount tx) (Transaction.fee tx);
    if negb (Amount.isPositive totalDebit) then
      Ok (validation_invalid "Transfer total debit must be positive.")
    else
      match
        (selected ← selectInputLots tx r totalDebit;
         validateSelectedInputLots tx selected totalDebit)
      with
      | Ok v => Ok v
      | Throw error => Ok (validation_invalid (what error))
      end.

Definition createTransferOutputCoinLotId tx (inputLot : CoinLot) (outputKind : string)
    (outputIndex : Z) : string :=
  "coinlot_from_tx_" +:+ Transaction.id tx +:+ "_input_" +:+ CoinLot.id inputLot +:+
  "_" +:+ outputKind +:+ "_" +:+ to_string outputIndex.

Definition outputIdAlreadyExistsInRegistryOrPending r (pending : list CoinLot)
    (outputLotId : string) : bool :=
  Registry.hasLot r outputLotId ||
  existsb (λ l, String.eqb (CoinLot.id l) outputLotId) pending.

(** The variables that the lambda [createOutput] and the loops update. *)
Record allocation := Alloc {
  remainingInput : Amount;
  remainingRecipient : Amount;
  remainingFee : Amount;
  outputs : list CoinLot;
  outputIndex : Z;
}.

(** The lambda [createOutput] of [buildTransferPlan]. *)
Definition createOutput tx r (currentBlockIndex : Z) (inputLot : CoinLot)
    (ownerAddress : string) (amount : Amount) (outputKind : string)
    (outs : list CoinLot) (index : Z) : result (list CoinLot * Z) :=
  if negb (Amount.isPositive amount) then Ok (outs, index)
  else
    let outputLotId := createTransferOutputCoinLotId tx inputLot outputKind index in
    if outputIdAlreadyExistsInRegistryOrPending r outs outputLotId then
      Throw (logic_error "Generated transfer output CoinLot id already exists.")
    else
      let outputLot :=
        CoinLot.mk outputLotId (CoinLot.originMintRecordId inputLot) ownerAddress amount
          AVAILABLE currentBlockIndex 0 (Transaction.timestamp tx) in
      if negb (CoinLot.isValid outputLot) then
        Throw (logic_error "Generated transfer output CoinLot is invalid.")
      else Ok (outs ++ [outputLot], index + 1).

(** [while (remainingInputAmount.isPositive()) { ... }] *)
Fixpoint allocate (fuel : nat) tx r (currentBlockIndex : Z) (inputLot : CoinLot)
    (st : allocation) : result allocation :=
  match fuel with
  | O => Throw OutOfFuel
  | S fuel =>
      let '(Alloc input recipient fee outs index) := st in
      if negb (Amount.isPositive input) then Ok st
      else if Amount.isPositive recipient then
        let outputAmount := minAmount input recipient in
        o ← createOutput tx r currentBlockIndex inputLot (Transaction.toAddress tx)
              outputAmount "recipient" outs index;
        input' ← Amount.sub input outputAmount;
        recipient' ← Amount.sub recipient outputAmount;
        allocate fuel tx r currentBlockIndex inputLot (Alloc input' recipient' fee o.1 o.2)
      else if Amount.isPositive fee then
        let outputAmount := minAmount input fee in
        o ← createOutput tx r currentBlockIndex inputLot feePoolAddress
              outputAmount "fee" outs index;
        input' ← Amount.sub input outputAmount;
        fee' ← Amount.sub fee outputAmount;
        allocate fuel tx r currentBlockIndex inputLot (Alloc input' recipient fee' o.1 o.2)
      else
        o ← createOutput tx r currentBlockIndex inputLot (Transaction.fromAddress tx)
              input "change" outs index;
        input' ← Amount.fromRawUnits 0;
        allocate fuel tx r currentBlockIndex inputLot (Alloc input' recipient fee o.1 o.2)
  end.

(** At most a recipient, a fee and a change output, and the final test. *)
Definition allocate_fuel : nat := 4.

(** The body of the loop over the selected inputs; the state is the input
    ids, the collected amount and the allocation. *)
Definition planStep tx r (currentBlockIndex : Z) (st : list string * Amount * allocation)
    (inputLot : CoinLot) : result (list string * Amount * allocation) :=
  let '(ids, collected, al) := st in
  collected' ← Amount.add collected (CoinLot.amount inputLot);
  al' ← allocate allocate_fuel tx r currentBlockIndex inputLot
          (Alloc (CoinLot.amount inputLot) (remainingRecipient al) (remainingFee al)
             (outputs al) (outputIndex al));
  Ok (ids ++ [CoinLot.id inputLot], collected', al').

Definition buildTransferPlan tx r (currentBlockIndex : Z) : result CoinLotTransferPlan :=
  validation ← validateTransferTransaction tx r;
  throw_if (negb (validation_success validation))
    (invalid_argument ("Cannot build CoinLotTransferPlan: " +:+ validation_reason validation));;
  totalDebit ← Amount.add (Transaction.amount tx) (Transaction.fee tx);
  selected ← selectInputLots tx r totalDebit;
  st ← foldR (planStep tx r currentBlockIndex)
         ([], 0, Alloc 0 (Transaction.amount tx) (Transaction.fee tx) [] 0) selected;
  let '(ids, collected, al) := st in
  throw_if (collected <? totalDebit)
    (logic_error "CoinLotTransferPlan collected less than required debit.");;
  throw_if (Amount.isPositive (remainingRecipient al) || Amount.isPositive (remainingFee al))
    (logic_error "CoinLotTransferPlan output allocation failed.");;
  changeAmount ← Amount.sub collected totalDebit;
  let plan :=
    TransferPlan.mk (Transaction.id tx) (Transaction.fromAddress tx) (Transaction.toAddress tx)
      ids (outputs al) (Transaction.amount tx) (Transaction.fee tx) changeAmount collected in
  valid ← TransferPlan.isValid plan;
  throw_if (negb valid) (logic_error "Generated CoinLotTransferPlan is invalid.");;
  Ok plan.

Definition checkInput tx r (inputLotId : string) : result unit :=
  v ← Registry.verifySpendable r inputLotId (Transaction.fromAddress tx);
  throw_if (negb (verification_success v))
    (invalid_argument
       ("Input CoinLot became invalid before transfer application: " +:+ verification_reason v)).

Definition checkTransferOutput r (l : CoinLot) : result unit :=
  throw_if (negb (CoinLot.isValid l))
    (logic_error "Transfer output lot is invalid before application.");;
  throw_if (Registry.hasLot r (CoinLot.id l))
    (logic_error "Transfer output lot already exists before application.").

Definition applyTransfer tx (currentBlockIndex : Z) : M CoinLotRegistry unit :=
  plan ← getsR (λ r, buildTransferPlan tx r currentBlockIndex);
  getsR (λ r, foldR (λ _ i, checkInput tx r i) tt (TransferPlan.inputLotIds plan));;
  getsR (λ r, foldR (λ _ l, checkTransferOutput r l) tt (TransferPlan.outputLots plan));;
  for_each (λ i, Registry.markSpent i (Transaction.fromAddress tx)) (TransferPlan.inputLotIds plan);;
  for_each Registry.addLot (TransferPlan.outputLots plan).

End TransferValidator.

(** ** Lemmas on the selection of inputs *)

Module TransferFacts.
Import LotFacts RegistryFacts TransferValidator.

(** What the owner of lots [ls] holds, available or locked. *)
Definition held (owner : string) (l : CoinLot) : Z :=
  if String.eqb (CoinLot.ownerAddress l) owner then active_amount l else 0.

(** A share [x] that goes to the address [b], seen from [a]. *)
Definition credit (a b : string) (x : Z) : Z := if String.eqb a b then x else 0.

(** Lots of [r] that [owner] can spend, without repetition. *)
Record selection (r : CoinLotRegistry) (owner : string) (sel : list CoinLot) : Prop := {
  sel_nodup : NoDup (CoinLot.id <$> sel);
  sel_spendable : ∀ l, l ∈ sel → spendable r (CoinLot.id l) owner l;
}.

Lemma entries_values_ids r : wf r →
  NoDup (CoinLot.id <$> (entries r).*2) ∧
  ∀ l, l ∈ (entries r).*2 → r !! CoinLot.id l = Some l ∧ CoinLot.isValid l = true.
Proof.
  intros Hwf.
  assert (∀ l, l ∈ (entries r).*2 → r !! CoinLot.id l = Some l ∧ CoinLot.isValid l = true) as Hall.
  { intros l ([k l'] & -> & Hk)%list_elem_of_fmap. apply elem_of_entries in Hk.
    destruct (Hwf _ _ Hk) as [-> ?]. done. }
  split; [|done].
  assert (CoinLot.id <$> (entries r).*2 = (entries r).*1) as ->; [|apply NoDup_fst_entries].
  rewrite <- list_fmap_compose. apply list_fmap_ext. intros i [k l] Hi. simpl.
  apply list_elem_of_lookup_2, elem_of_entries in Hi. by destruct (Hwf _ _ Hi) as [-> _].
Qed.

Lemma selection_snoc r owner sel l :
  selection r owner sel → spendable r (CoinLot.id l) owner l →
  CoinLot.id l ∉ CoinLot.id <$> sel → selection r owner (sel ++ [l]).
Proof.
  intros [Hnd Hsp] Hl Hni. split.
  - rewrite fmap_app, NoDup_app. split_and!; [done| |apply NoDup_singleton].
    intros x Hx ->%list_elem_of_singleton. done.
  - intros l' [?| ->%list_elem_of_singleton]%elem_of_app; auto.
Qed.

Lemma selection_nil r owner : selection r owner [].
Proof. split; [constructor|by intros l ?%elem_of_nil]. Qed.

Lemma selectExplicit_Ok tx r ids seen sel c seen' sel' c' :
  wf r →
  foldR (selectExplicitStep tx r) (seen, sel, c) ids = Ok (seen', sel', c') →
  selection r (Transaction.fromAddress tx) sel → c = sum_by CoinLot.amount sel →
  (∀ i, i ∈ CoinLot.id <$> sel → i ∈ seen) → c ≤ i64_max →
  selection r (Transaction.fromAddress tx) sel' ∧ c' = sum_by CoinLot.amount sel' ∧ c' ≤ i64_max.
Proof.
  intros Hwf. revert seen sel c. induction ids as [|i ids IH]; intros seen sel c; simpl.
  { by intros [= <- <- <-]. }
  intros H Hsel Hc Hseen Hmax. unfold selectExplicitStep at 1 in H. inv_ok.
  match goal with E : bool_decide _ = false |- _ => apply bool_decide_eq_false in E end.
  edestruct verifySpendable_Ok as [l Hl]; [done..|].
  pose proof Hl as (El & _). unfold Registry.lot in *. rewrite El in *. inv_ok.
  destruct (Hwf _ _ El) as [-> _].
  match goal with E : Amount.add _ _ = Ok _ |- _ =>
    pose proof (Amount.add_bounded _ _ _ E); apply Amount.add_Ok in E as [-> _] end.
  eapply IH; [done| | | |].
  - apply selection_snoc; [done..|]. auto.
  - rewrite sum_by_app. simpl. lia.
  - intros j. rewrite fmap_app. intros [?| ->%list_elem_of_singleton]%elem_of_app;
      [|by apply elem_of_union_l, elem_of_singleton].
    apply elem_of_union_r. auto.
  - destruct Hl as (_ & Hv & _). apply isValid_true in Hv. intuition.
Qed.

Lemma selectSpendable_Ok tx r d lots sel c sel' c' :
  (∀ l, l ∈ lots → r !! CoinLot.id l = Some l ∧ CoinLot.isValid l = true) →
  NoDup (CoinLot.id <$> sel ++ lots) →
  selectSpendable tx d lots sel c = Ok (sel', c') →
  selection r (Transaction.fromAddress tx) sel → c = sum_by CoinLot.amount sel → c ≤ i64_max →
  selection r (Transaction.fromAddress tx) sel' ∧ c' = sum_by CoinLot.amount sel' ∧ c' ≤ i64_max.
Proof.
  revert sel c. induction lots as [|l lots IH]; intros sel c Hall Hnd; simpl.
  { by intros [= <- <-]. }
  assert (NoDup (CoinLot.id <$> sel ++ lots)) as Hnd'.
  { revert Hnd. rewrite !fmap_app, fmap_cons, !NoDup_app, NoDup_cons. intros (? & Hd & ? & ?).
    split_and!; try done. intros x Hx ?. apply (Hd x Hx). elem. }
  assert (∀ l, l ∈ lots → r !! CoinLot.id l = Some l ∧ CoinLot.isValid l = true) as Hall'
    by (intros; apply Hall; elem).
  destruct (String.eqb_spec (CoinLot.ownerAddress l) (Transaction.fromAddress tx)); simpl; [|by apply IH].
  unfold CoinLot.isSpendable. case_bool_decide; simpl; [|by apply IH].
  intros H' Hsel Hc Hmax. inv_ok.
  match goal with E : Amount.add _ _ = Ok _ |- _ =>
    pose proof (Amount.add_bounded _ _ _ E); apply Amount.add_Ok in E as [-> _] end.
  assert (0 < CoinLot.amount l).
  { destruct (Hall l) as [_ Hv]; [elem|]. apply isValid_true in Hv. intuition. }
  assert (selection r (Transaction.fromAddress tx) (sel ++ [l])) as Hsel'.
  { destruct (Hall l) as [? ?]; [elem|]. apply selection_snoc; [done|done|].
    revert Hnd. rewrite fmap_app, fmap_cons, NoDup_app. intros (_ & Hd & _) Hin.
    apply (Hd _ Hin). elem. }
  assert (sum_by CoinLot.amount sel + CoinLot.amount l = sum_by CoinLot.amount (sel ++ [l]))
    as Esum by (rewrite sum_by_app; simpl; lia).
  destruct (d <=? _); [simplify_eq; intuition lia|].
  eapply IH; [done| |done|done|done|auto]. by rewrite <- (assoc (++)).
Qed.

Lemma selectInputLots_Ok tx r d sel :
  wf r → selectInputLots tx r d = Ok sel →
  selection r (Transaction.fromAddress tx) sel ∧ d ≤ sum_by CoinLot.amount sel ≤ i64_max.
Proof.
  intros Hwf. unfold selectInputLots. destruct (Transaction.hasExplicitInputCoinLotIds tx); intros H.
  - inv_ok. destruct a as [[seen sel1] c]. inv_ok.
    match goal with E : foldR _ _ _ = Ok _ |- _ =>
      apply selectExplicit_Ok in E as (Hs & -> & ?);
        [|done|apply selection_nil|done|by intros ? ?%elem_of_nil|done] end.
    split; [done|lia].
  - inv_ok. destruct a as [sel1 c]. inv_ok. destruct (entries_values_ids r Hwf) as [? ?].
    match goal with E : selectSpendable _ _ _ _ _ = Ok _ |- _ =>
      eapply (selectSpendable_Ok tx r) in E as (Hs & -> & ?); [|done|done|apply selection_nil|done|done] end.
    split; [done|lia].
Qed.

(** ** Lemmas on the allocation of one input *)

(** What lots contribute to the value traced back to the mint record [o]. *)
Definition traced (o : string) (l : CoinLot) : Z :=
  if String.eqb (CoinLot.originMintRecordId l) o then active_amount l else 0.

Lemma createOutput_Ok tx r blk lot owner amt kind outs idx res :
  createOutput tx r blk lot owner amt kind outs idx = Ok res → 0 < amt → addable r outs →
  ∃ l, res = (outs ++ [l], idx + 1) ∧ CoinLot.ownerAddress l = owner ∧ CoinLot.amount l = amt ∧
       CoinLot.originMintRecordId l = CoinLot.originMintRecordId lot ∧
       CoinLot.status l = AVAILABLE ∧ addable r (outs ++ [l]).
Proof.
  unfold createOutput, Amount.isPositive, outputIdAlreadyExistsInRegistryOrPending.
  intros H Hpos Hadd. replace (0 <? amt) with true in H by lia. simpl in H. inv_ok.
  eexists. split_and!; [done..|]. destruct Hadd as [Hall Hnd].
  match goal with E : Registry.hasLot _ _ = false |- _ =>
    unfold Registry.hasLot in E; apply bool_decide_eq_false, eq_None_not_Some in E end.
  split.
  - intros l [?| ->%list_elem_of_singleton]%elem_of_app; auto.
  - rewrite fmap_app, NoDup_app. split_and!; [done| |apply NoDup_singleton].
    intros x (l & -> & Hl)%list_elem_of_fmap Hx%list_elem_of_singleton. simpl in Hx.
    match goal with E : existsb _ _ = false |- _ =>
      apply not_true_iff_false in E; apply E, existsb_exists; exists l end.
    split; [by apply list_elem_of_In|]. apply String.eqb_eq, Hx.
Qed.

(** The effect of allocating an input of amount [remainingInput st] that
    comes from the mint record [origin]. *)
Definition allocated tx r (origin : string) (st st' : allocation) : Prop :=
  ∃ new pr pf ch,
    outputs st' = outputs st ++ new ∧ addable r (outputs st') ∧
    remainingRecipient st' = remainingRecipient st - pr ∧
    remainingFee st' = remainingFee st - pf ∧
    remainingInput st = pr + pf + ch ∧ remainingInput st' = 0 ∧
    0 ≤ pr ≤ remainingRecipient st ∧ 0 ≤ pf ≤ remainingFee st ∧ 0 ≤ ch ∧
    (0 < ch → remainingRecipient st' = 0 ∧ remainingFee st' = 0) ∧
    (∀ l, l ∈ new → CoinLot.status l = AVAILABLE) ∧
    sum_by CoinLot.amount new = remainingInput st ∧
    (∀ a, sum_by (held a) new =
          credit (Transaction.toAddress tx) a pr + credit feePoolAddress a pf +
          credit (Transaction.fromAddress tx) a ch) ∧
    (∀ o, sum_by (traced o) new = credit origin o (remainingInput st)).

Lemma credit_plus a b x y : credit a b (x + y) = credit a b x + credit a b y.
Proof. unfold credit. destruct (String.eqb a b); lia. Qed.

Lemma credit_0 a b : credit a b 0 = 0.
Proof. unfold credit. by destruct (String.eqb a b). Qed.

Lemma held_available a l : CoinLot.status l = AVAILABLE →
  held a l = credit (CoinLot.ownerAddress l) a (CoinLot.amount l).
Proof. intros. unfold held, credit. by rewrite active_amount_available. Qed.

Lemma traced_available o l : CoinLot.status l = AVAILABLE →
  traced o l = credit (CoinLot.originMintRecordId l) o (CoinLot.amount l).
Proof. intros. unfold traced, credit. by rewrite active_amount_available. Qed.

Lemma minAmount_spec a b : minAmount a b = Z.min a b.
Proof. unfold minAmount. destruct (a <=? b) eqn:E; lia. Qed.

(** One output in front of an allocation. *)
Lemma allocated_step tx r origin l input recipient fee outs idx st' o_r o_f o_c :
  CoinLot.status l = AVAILABLE → CoinLot.originMintRecordId l = origin →
  0 ≤ o_r ≤ recipient → 0 ≤ o_f ≤ fee → 0 ≤ o_c → CoinLot.amount l = o_r + o_f + o_c →
  (0 < o_c → recipient = 0 ∧ fee = 0) →
  (∀ a, held a l = credit (Transaction.toAddress tx) a o_r + credit feePoolAddress a o_f +
                   credit (Transaction.fromAddress tx) a o_c) →
  allocated tx r origin
    (Alloc (input - CoinLot.amount l) (recipient - o_r) (fee - o_f) (outs ++ [l]) (idx + 1)) st' →
  allocated tx r origin (Alloc input recipient fee outs idx) st'.
Proof.
  intros Hs Ho Hr Hf Hc Hamt Hch Hheld (new & pr & pf & ch & E1 & Hadd & E2 & E3 & E4 & E5 & Hpr & Hpf & Hch0 & Hch1 & Hav & Esum & Eheld & Etr).
  simpl in *. exists (l :: new), (o_r + pr), (o_f + pf), (o_c + ch). simpl.
  split_and!; try done; try lia.
  - by rewrite E1, <- (assoc (++)).
  - intros l' [->|?]%elem_of_cons; auto.
  - intros a. rewrite !credit_plus, Eheld, Hheld. lia.
  - intros o. rewrite Etr, traced_available, Ho by done. rewrite <- credit_plus. f_equal. lia.
Qed.

Lemma allocate_Ok fuel tx r blk lot st st' :
  allocate fuel tx r blk lot st = Ok st' →
  0 ≤ remainingInput st → 0 ≤ remainingRecipient st → 0 ≤ remainingFee st →
  addable r (outputs st) → allocated tx r (CoinLot.originMintRecordId lot) st st'.
Proof.
  revert st. induction fuel as [|fuel IH]; intros [input recipient fee outs idx]; [done|].
  simpl. intros H Hi Hr Hf Hadd. unfold Amount.isPositive in H.
  destruct (0 <? input) eqn:E1; simpl in H.
  2: { inv_ok. assert (input = 0) as -> by lia.
       exists [], 0, 0, 0. simpl. rewrite app_nil_r. split_and!; try done; try lia.
       - by intros ? ?%elem_of_nil.
       - intros a. by rewrite !credit_0.
       - intros o. by rewrite credit_0. }
  destruct (0 <? recipient) eqn:E2; [|destruct (0 <? fee) eqn:E3]; inv_ok;
    match goal with E : createOutput _ _ _ _ _ _ _ _ _ = Ok _ |- _ =>
      apply createOutput_Ok in E as (l & -> & Hown & Hamt & Hori & Hst & Hadd'); [|
        rewrite ?minAmount_spec; lia | done] end;
    repeat match goal with E : Amount.sub _ _ = Ok _ |- _ => apply Amount.sub_Ok in E as [-> ?] end;
    try match goal with E : Amount.fromRawUnits 0 = Ok _ |- _ => vm_compute in E; injection E as <- end;
    rewrite ?minAmount_spec in *; simpl in H; apply IH in H; simpl; try lia; try done.
  - eapply (allocated_step tx r _ l input recipient fee outs idx st' (Z.min input recipient) 0 0);
      try done; try lia.
    + intros a. by rewrite held_available, Hown, Hamt, !credit_0, !Z.add_0_r.
    + rewrite Hamt, Z.sub_0_r. done.
  - assert (recipient = 0) as -> by lia.
    eapply (allocated_step tx r _ l input 0 fee outs idx st' 0 (Z.min input fee) 0);
      try done; try lia.
    + intros a. by rewrite held_available, Hown, Hamt, !credit_0, Z.add_0_r.
    + rewrite Hamt, Z.sub_0_r. done.
  - assert (recipient = 0) as -> by lia. assert (fee = 0) as -> by lia.
    eapply (allocated_step tx r _ l input 0 0 outs idx st' 0 0 input); try done; try lia.
    + intros a. by rewrite held_available, Hown, Hamt, !credit_0.
    + rewrite Hamt, !Z.sub_0_r, Z.sub_diag. done.
Qed.

(** ** Lemmas on the whole plan *)

(** The effect of the loop over the inputs [sel]. *)
Definition planned tx r (sel : list CoinLot) (al al' : allocation) : Prop :=
  ∃ new pr pf ch,
    outputs al' = outputs al ++ new ∧ addable r (outputs al') ∧
    remainingRecipient al' = remainingRecipient al - pr ∧
    remainingFee al' = remainingFee al - pf ∧
    sum_by CoinLot.amount sel = pr + pf + ch ∧
    0 ≤ remainingRecipient al' ∧ 0 ≤ remainingFee al' ∧
    (0 ≤ pr ∧ 0 ≤ pf ∧ 0 ≤ ch ∧
     (0 < ch → remainingRecipient al' = 0 ∧ remainingFee al' = 0)) ∧
    (∀ l, l ∈ new → CoinLot.status l = AVAILABLE) ∧
    sum_by CoinLot.amount new = sum_by CoinLot.amount sel ∧
    (∀ a, sum_by (held a) new =
          credit (Transaction.toAddress tx) a pr + credit feePoolAddress a pf +
          credit (Transaction.fromAddress tx) a ch) ∧
    (∀ o, sum_by (traced o) new = sum_by (traced o) sel).

#[local] Arguments allocate : simpl never.

Lemma planLoop_Ok tx r blk sel ids c al ids' c' al' :
  foldR (planStep tx r blk) (ids, c, al) sel = Ok (ids', c', al') →
  (∀ l, l ∈ sel → 0 ≤ CoinLot.amount l ∧ CoinLot.status l = AVAILABLE) →
  0 ≤ remainingRecipient al → 0 ≤ remainingFee al → addable r (outputs al) →
  ids' = ids ++ (CoinLot.id <$> sel) ∧ c' = c + sum_by CoinLot.amount sel ∧
  planned tx r sel al al'.
Proof.
  revert ids c al. induction sel as [|l sel IH]; intros ids c al; rewrite ?fmap_cons; simpl.
  { intros [= <- <- <-] _ Hr Hf Hadd. rewrite app_nil_r. split_and!; [done|lia|].
    exists [], 0, 0, 0. rewrite app_nil_r. simpl. split_and!; try done; try lia.
    - by intros ? ?%elem_of_nil.
    - intros a. by rewrite !credit_0. }
  intros H Hsel Hr Hf Hadd. inv_ok.
  match goal with E : Amount.add _ _ = Ok _ |- _ => apply Amount.add_Ok in E as [-> _] end.
  destruct (Hsel l) as [Hamt Hav]; [elem|].
  match goal with E : allocate _ _ _ _ _ _ = Ok _ |- _ =>
    apply allocate_Ok in E as (n1 & pr1 & pf1 & ch1 & E1 & Hadd1 & E2 & E3 & E4 & E5 & ? & ? & ? & ? & Hav1 & S1 & Hh1 & Ht1); [|done..] end.
  simpl in *. apply IH in H as (-> & -> & (n2 & pr2 & pf2 & ch2 & F1 & Hadd2 & F2 & F3 & F4 & ? & ? & (? & ? & ? & ?) & Hav2 & S2 & Hh2 & Ht2)); [|intros; apply Hsel; elem|lia|lia|done].
  rewrite <- (assoc (++)). simpl. split_and!; [done|lia|].
  exists (n1 ++ n2), (pr1 + pr2), (pf1 + pf2), (ch1 + ch2).
  rewrite E1 in F1. rewrite F1, !sum_by_app, <- (assoc (++)). split_and!; try done; try (simpl; lia).
  - by rewrite F1 in Hadd2; rewrite <- (assoc (++)) in Hadd2.
  - intros l' [?|?]%elem_of_app; auto.
  - intros a. rewrite sum_by_app, Hh1, Hh2, !credit_plus. lia.
  - intros o. rewrite sum_by_app, Ht1, Ht2. simpl. by rewrite traced_available.
Qed.

Lemma planLoop_ids tx r blk sel ids c al ids' c' al' :
  foldR (planStep tx r blk) (ids, c, al) sel = Ok (ids', c', al') →
  ids' = ids ++ (CoinLot.id <$> sel).
Proof.
  revert ids c al. induction sel as [|l sel IH]; intros ids c al; rewrite ?fmap_cons; simpl.
  { intros [= <- _ _]. by rewrite app_nil_r. }
  intros H. inv_ok. apply IH in H as ->. by rewrite <- (assoc (++)).
Qed.

Lemma validateTransferTransaction_success tx r v :
  validateTransferTransaction tx r = Ok v → validation_success v = true →
  Transaction.type tx = TRANSFER ∧ Transaction.id tx ≠ "" ∧
  Transaction.fromAddress tx ≠ "" ∧ Transaction.toAddress tx ≠ "" ∧
  Transaction.fromAddress tx ≠ Transaction.toAddress tx ∧
  0 < Transaction.amount tx ∧ 0 ≤ Transaction.fee tx ∧ 0 < Transaction.timestamp tx ∧
  wf r ∧
  ∃ sel, Amount.add (Transaction.amount tx) (Transaction.fee tx) =
           Ok (Transaction.amount tx + Transaction.fee tx) ∧
         selectInputLots tx r (Transaction.amount tx + Transaction.fee tx) = Ok sel.
Proof.
  unfold validateTransferTransaction, Amount.isPositive, Amount.isNegative. intros H Hs.
  repeat match type of H with
  | (if ?b then Ok _ else _) = _ => destruct b eqn:?; [injection H as <-; discriminate Hs|]
  end.
  inv_ok.
  repeat match goal with E : empty_string _ = false |- _ => apply empty_string_false in E end.
  match goal with E : bool_decide _ = true |- _ => apply bool_decide_eq_true in E end.
  match goal with E : String.eqb _ _ = false |- _ => apply String.eqb_neq in E end.
  match goal with E : Registry.isValid _ = true |- _ => apply registry_isValid_wf in E end.
  match goal with E : Amount.add _ _ = Ok _ |- _ =>
    pose proof E as Eadd; apply Amount.add_Ok in E as [-> _] end.
  destruct (0 <? _) eqn:? in H; simpl in H; [|injection H as <-; discriminate Hs].
  destruct (selectInputLots _ _ _) as [sel|] eqn:? in H; simpl in H; [|injection H as <-; discriminate Hs].
  split_and!; try done; try lia. by exists sel.
Qed.

(** The facts a plan that [buildTransferPlan] returns satisfies. *)
Record plan_ok tx r (plan : CoinLotTransferPlan) (sel : list CoinLot) : Prop := {
  plan_wf : wf r;
  plan_selection : selection r (Transaction.fromAddress tx) sel;
  plan_inputs : TransferPlan.inputLotIds plan = CoinLot.id <$> sel;
  plan_addable : addable r (TransferPlan.outputLots plan);
  plan_available : ∀ l, l ∈ TransferPlan.outputLots plan → CoinLot.status l = AVAILABLE;
  plan_total : sum_by CoinLot.amount (TransferPlan.outputLots plan) = sum_by CoinLot.amount sel;
  plan_held : ∀ a, sum_by (held a) (TransferPlan.outputLots plan) =
    credit (Transaction.toAddress tx) a (Transaction.amount tx) +
    credit feePoolAddress a (Transaction.fee tx) +
    credit (Transaction.fromAddress tx) a
      (sum_by CoinLot.amount sel - Transaction.amount tx - Transaction.fee tx);
  plan_traced : ∀ o, sum_by (traced o) (TransferPlan.outputLots plan) = sum_by (traced o) sel;
}.

Lemma selection_amounts r owner sel :
  selection r owner sel → ∀ l, l ∈ sel → 0 < CoinLot.amount l ∧ CoinLot.status l = AVAILABLE.
Proof. intros [_ Hsp] l (_ & Hv & _ & Hs)%Hsp. apply isValid_true in Hv. intuition. Qed.

Lemma buildTransferPlan_Ok tx r blk plan :
  buildTransferPlan tx r blk = Ok plan → ∃ sel, plan_ok tx r plan sel.
Proof.
  unfold buildTransferPlan. intros H. inv_ok.
  match goal with E : validateTransferTransaction _ _ = Ok _ |- _ =>
    apply validateTransferTransaction_success in E as (_ & _ & _ & _ & _ & Hamt & Hfee & _ & Hwf & _); [|done] end.
  match goal with E : Amount.add _ _ = Ok _ |- _ => apply Amount.add_Ok in E as [-> _] end.
  match goal with E : selectInputLots _ _ _ = Ok ?s |- _ =>
    rename s into sel; apply selectInputLots_Ok in E as [Hsel Hcov]; [|done] end.
  match goal with E : foldR _ _ _ = Ok ?s |- _ =>
    destruct s as [[ids c] al]; apply planLoop_Ok in E as (-> & -> & (new & pr & pf & ch & E1 & Hadd & E2 & E3 & E4 & Hr & Hf & Hch & Hav & Htot & Hheld & Htr)) end;
    [|intros l Hl; apply (selection_amounts _ _ _ Hsel) in Hl; intuition lia|simpl; lia..|].
  2: { split; [by intros ? ?%elem_of_nil|constructor]. }
  simpl in *. subst new. inv_ok. unfold Amount.isPositive in *.
  assert (pr = Transaction.amount tx) as -> by lia.
  assert (pf = Transaction.fee tx) as -> by lia.
  exists sel. split; simpl; try done.
  intros b. rewrite Hheld. do 2 f_equal. lia.
Qed.

(** ** Lemmas on the application of a plan *)

Lemma markSpent_run r owner l :
  wf r → spendable r (CoinLot.id l) owner l →
  Registry.markSpent (CoinLot.id l) owner r = (Ok tt, <[CoinLot.id l := spent_version l]> r).
Proof.
  intros Hwf Hsp. pose proof Hsp as (Hl & _ & _ & Hs). unfold Registry.markSpent.
  erewrite M_run_Ok; [|unfold Registry.requireSpendable; by erewrite spendable_verifySpendable by done].
  unfold Registry.on_lot. by rewrite Hl, markSpent_available.
Qed.

Lemma spent_version_valid l : CoinLot.isValid l = true → CoinLot.isValid (spent_version l) = true.
Proof. rewrite !isValid_true. intuition discriminate. Qed.

Definition spend_lots (sel : list CoinLot) (r : CoinLotRegistry) : CoinLotRegistry :=
  foldl (λ r l, <[CoinLot.id l := spent_version l]> r) r sel.

Lemma selection_tail r owner l sel :
  selection r owner (l :: sel) →
  spendable r (CoinLot.id l) owner l ∧ selection (<[CoinLot.id l := spent_version l]> r) owner sel.
Proof.
  intros [Hnd Hsp]. rewrite fmap_cons, NoDup_cons in Hnd. destruct Hnd as [Hni Hnd].
  split; [apply Hsp; elem|]. split; [done|]. intros l' Hl'.
  destruct (Hsp l') as (? & ? & ? & ?); [elem|]. split_and!; try done.
  rewrite lookup_insert_ne; [done|]. intros E. apply Hni. rewrite E. by apply list_elem_of_fmap_2.
Qed.

Lemma spend_all r owner sel :
  wf r → selection r owner sel →
  for_each (λ i, Registry.markSpent i owner) (CoinLot.id <$> sel) r = (Ok tt, spend_lots sel r) ∧
  (∀ f, map_sum f (spend_lots sel r) =
        map_sum f r - sum_by f sel + sum_by (λ l, f (spent_version l)) sel) ∧
  wf (spend_lots sel r) ∧
  (∀ k, spend_lots sel r !! k = None ↔ r !! k = None).
Proof.
  revert r. induction sel as [|l sel IH]; intros r Hwf Hsel.
  { simpl. split_and!; try done. intros; lia. }
  rewrite fmap_cons. simpl. apply selection_tail in Hsel as [Hsp Hsel].
  pose proof Hsp as (Hl & Hv & _). destruct (IH (<[CoinLot.id l := spent_version l]> r)) as (IH1 & IH2 & IH3 & IH4); [|done|].
  { apply map_Forall_insert_2; [|done]. by split; [|apply spent_version_valid]. }
  split_and!; [| |done|].
  - by erewrite M_run_Ok by (by apply markSpent_run).
  - intros f. rewrite IH2, (map_sum_update _ _ _ l) by done. lia.
  - intros k. rewrite IH4, lookup_insert_None. split; [by intros [? _]|]. intros ?. split; congruence.
Qed.

(** The registry a successful [applyTransfer] leaves. *)
Lemma applyTransfer_cases tx blk r :
  (∃ e, applyTransfer tx blk r = (Throw e, r) ∧ buildTransferPlan tx r blk = Throw e) ∨
  (∃ plan sel, buildTransferPlan tx r blk = Ok plan ∧ plan_ok tx r plan sel ∧
     addable (spend_lots sel r) (TransferPlan.outputLots plan) ∧
     applyTransfer tx blk r = (Ok tt, add_lots (TransferPlan.outputLots plan) (spend_lots sel r))).
Proof.
  destruct (buildTransferPlan tx r blk) as [plan|e] eqn:Eb.
  2: { left. exists e. split; [|done]. unfold applyTransfer.
       by erewrite M_run_Throw by (unfold getsR; by rewrite Eb). }
  right. destruct (buildTransferPlan_Ok _ _ _ _ Eb) as [sel Hok]. exists plan, sel.
  destruct (spend_all r _ sel (plan_wf _ _ _ _ Hok) (plan_selection _ _ _ _ Hok)) as (Hrun & _ & _ & Hnone).
  pose proof (plan_addable _ _ _ _ Hok) as [Hall Hnd].
  assert (addable (spend_lots sel r) (TransferPlan.outputLots plan)) as Hadd.
  { split; [|done]. intros l Hl. rewrite Hnone. auto. }
  split_and!; try done. unfold applyTransfer.
  erewrite M_run_Ok by (unfold getsR; by rewrite Eb).
  erewrite M_run_Ok. 2: { unfold getsR. rewrite (proj2 (foldR_unit _ _ tt)); [done|].
    rewrite (plan_inputs _ _ _ _ Hok). intros i (l & -> & Hl)%list_elem_of_fmap. unfold checkInput.
    by rewrite (spendable_verifySpendable _ _ _ l (plan_wf _ _ _ _ Hok) (sel_spendable _ _ _ (plan_selection _ _ _ _ Hok) l Hl)). }
  erewrite M_run_Ok. 2: { unfold getsR. rewrite (proj2 (foldR_unit _ _ tt)); [done|].
    intros l Hl. unfold checkTransferOutput, Registry.hasLot. destruct (Hall l Hl) as [-> Hn]. simpl.
    by rewrite bool_decide_false by (rewrite Hn; by intros [? ?]). }
  rewrite (plan_inputs _ _ _ _ Hok). erewrite M_run_Ok by done. by apply add_all_Ok.
Qed.

(** Every quantity that does not count SPENT lots changes by the difference of
    outputs and inputs. *)
Lemma transfer_sum tx r plan sel f :
  plan_ok tx r plan sel → addable (spend_lots sel r) (TransferPlan.outputLots plan) →
  (∀ l, f (spent_version l) = 0) →
  map_sum f (add_lots (TransferPlan.outputLots plan) (spend_lots sel r)) =
  map_sum f r - sum_by f sel + sum_by f (TransferPlan.outputLots plan).
Proof.
  intros Hok Hadd Hf. rewrite add_lots_sum by done.
  destruct (spend_all r _ sel (plan_wf _ _ _ _ Hok) (plan_selection _ _ _ _ Hok)) as (_ & Hsum & _).
  rewrite Hsum, (sum_by_ext (λ l, f (spent_version l)) (λ _, 0)), sum_by_0 by done. lia.
Qed.

Lemma selection_held r owner sel a :
  selection r owner sel → sum_by (held a) sel = credit owner a (sum_by CoinLot.amount sel).
Proof.
  intros Hsel. induction sel as [|l sel IH]; simpl; [by rewrite credit_0|].
  destruct Hsel as [Hnd Hsp]. rewrite credit_plus, IH.
  - destruct (Hsp l) as (_ & _ & <- & ?); [elem|]. by rewrite held_available.
  - split; [|intros; apply Hsp; elem]. rewrite fmap_cons, NoDup_cons in Hnd. tauto.
Qed.

(** ** A validated transfer is always applied *)

Definition output_prefix tx : string := "coinlot_from_tx_" +:+ Transaction.id tx +:+ "_input_".

(** A lot of the registry already carries an id of the form that [tx] generates. *)
Definition used tx (r : CoinLotRegistry) : Prop :=
  ∃ k, is_Some (r !! k) ∧ String.prefix (output_prefix tx) k = true.

(** The one exception of a plan for a validated transfer. *)
Definition id_clash : exn := logic_error "Generated transfer output CoinLot id already exists.".

(** The pending outputs carry the indices below [idx]. *)
Definition indexed (outs : list CoinLot) (idx : Z) : Prop :=
  ∀ l, l ∈ outs → ∃ p i, i < idx ∧ CoinLot.id l = p +:+ "_" +:+ to_string i.

Lemma outputId_prefix tx lot kind idx :
  String.prefix (output_prefix tx) (createTransferOutputCoinLotId tx lot kind idx) = true.
Proof.
  assert (createTransferOutputCoinLotId tx lot kind idx =
          output_prefix tx +:+ CoinLot.id lot +:+ "_" +:+ kind +:+ "_" +:+ to_string idx) as ->.
  { unfold createTransferOutputCoinLotId, output_prefix. by rewrite !string_app_assoc. }
  apply SafeScalar.prefix_app.
Qed.

Lemma outputId_last tx lot kind idx : ∃ p,
  createTransferOutputCoinLotId tx lot kind idx = p +:+ "_" +:+ to_string idx.
Proof.
  exists ("coinlot_from_tx_" +:+ Transaction.id tx +:+ "_input_" +:+ CoinLot.id lot +:+ "_" +:+ kind).
  unfold createTransferOutputCoinLotId. by rewrite !string_app_assoc.
Qed.

Lemma createOutput_total tx r blk lot owner amt kind outs idx :
  indexed outs idx → 0 < Transaction.timestamp tx → owner ≠ "" →
  CoinLot.originMintRecordId lot ≠ "" → 0 < amt →
  (used tx r ∧ createOutput tx r blk lot owner amt kind outs idx = Throw id_clash) ∨
  ∃ l, createOutput tx r blk lot owner amt kind outs idx = Ok (outs ++ [l], idx + 1) ∧
       indexed (outs ++ [l]) (idx + 1).
Proof.
  intros Hidx Hts Ho Hori Hamt. unfold createOutput, Amount.isPositive.
  replace (0 <? amt) with true by lia. simpl.
  set (i := createTransferOutputCoinLotId tx lot kind idx).
  destruct (decide (is_Some (r !! i))) as [Hi|Hi].
  { left. split; [exists i; split; [done|apply outputId_prefix]|].
    unfold outputIdAlreadyExistsInRegistryOrPending, Registry.hasLot. by rewrite bool_decide_true by done. }
  right. assert (outputIdAlreadyExistsInRegistryOrPending r outs i = false) as ->.
  { unfold outputIdAlreadyExistsInRegistryOrPending, Registry.hasLot.
    apply orb_false_iff. split.
    - by apply bool_decide_eq_false.
    - apply not_true_iff_false. intros (l & Hl & E%String.eqb_eq)%existsb_exists.
      apply list_elem_of_In in Hl. destruct (Hidx l Hl) as (p & j & Hj & El).
      destruct (outputId_last tx lot kind idx) as [q Eq]. subst i.
      rewrite E, Eq in El. apply SafeScalar.last_field_inj in El; [|apply SafeScalar.to_string_no_underscore..].
      apply (inj to_string) in El. lia. }
  match goal with |- context [CoinLot.isValid ?l] => set (lt := l) end.
  assert (CoinLot.isValid lt = true) as ->.
  { apply isValid_true. simpl. split_and!; try done. }
  exists lt. split; [done|]. intros l [Hl| ->%list_elem_of_singleton]%elem_of_app.
  - destruct (Hidx l Hl) as (p & j & Hj & El). exists p, j. split; [lia|done].
  - destruct (outputId_last tx lot kind idx) as [q Eq]. exists q, idx. split; [lia|done].
Qed.

(** Iterations the allocation of one input still needs. *)
Definition need (st : allocation) : nat :=
  if 0 <? remainingInput st
  then 2 + (if 0 <? remainingRecipient st then 1 else 0) + (if 0 <? remainingFee st then 1 else 0)
  else 1.

#[local] Arguments allocate !fuel.

(** The loop ends: [need st] iterations, at most [allocate_fuel], are enough. *)
Lemma allocate_total fuel tx r blk lot st :
  (need st ≤ fuel)%nat → indexed (outputs st) (outputIndex st) →
  0 < Transaction.timestamp tx → Transaction.fromAddress tx ≠ "" → Transaction.toAddress tx ≠ "" →
  CoinLot.originMintRecordId lot ≠ "" →
  (used tx r ∧ allocate fuel tx r blk lot st = Throw id_clash) ∨
  ∃ st', allocate fuel tx r blk lot st = Ok st' ∧ indexed (outputs st') (outputIndex st').
Proof.
  intros Hfuel Hidx Hts Hfrom Hto Hori. revert st Hfuel Hidx.
  induction fuel as [|fuel IH]; intros [input recipient fee outs idx]; unfold need; simpl.
  { destruct (0 <? input); lia. }
  intros Hfuel Hidx. unfold Amount.isPositive. destruct (0 <? input) eqn:E1; simpl; [|right; by eexists].
  destruct (0 <? recipient) eqn:E2; [|destruct (0 <? fee) eqn:E3];
    match goal with |- context [createOutput _ _ _ _ ?o ?a ?k _ _] =>
      destruct (createOutput_total tx r blk lot o a k outs idx) as [[Hu ->]|(l & -> & Hidx')];
        [done|done|done|done|rewrite ?minAmount_spec; lia|by left|] end; simpl;
    rewrite ?Amount.sub_wf' by (rewrite ?minAmount_spec; lia); simpl;
    apply IH; unfold need; simpl; try done; rewrite ?minAmount_spec.
  - destruct (0 <? input - Z.min input recipient) eqn:E4; [|destruct (0 <? fee); lia].
    destruct (0 <? recipient - Z.min input recipient) eqn:E5; [lia|]. destruct (0 <? fee); lia.
  - rewrite E2. destruct (0 <? input - Z.min input fee) eqn:E4; [|lia].
    destruct (0 <? fee - Z.min input fee) eqn:E5; lia.
  - lia.
Qed.

#[local] Arguments allocate : simpl never.

Lemma planLoop_total tx r blk sel ids c al :
  indexed (outputs al) (outputIndex al) →
  0 < Transaction.timestamp tx → Transaction.fromAddress tx ≠ "" → Transaction.toAddress tx ≠ "" →
  (∀ l, l ∈ sel → CoinLot.isValid l = true) → 0 ≤ c →
  c + sum_by CoinLot.amount sel ≤ i64_max →
  (used tx r ∧ foldR (planStep tx r blk) (ids, c, al) sel = Throw id_clash) ∨
  ∃ st, foldR (planStep tx r blk) (ids, c, al) sel = Ok st.
Proof.
  intros Hidx Hts Hfrom Hto. revert ids c al Hidx.
  induction sel as [|l sel IH]; intros ids c al Hidx Hv Hc Hsum; simpl in *; [right; by eexists|].
  destruct (proj1 (isValid_true l)) as (_ & Hori & _ & Hamt & _); [apply Hv; elem|].
  assert (0 ≤ sum_by CoinLot.amount sel).
  { apply sum_by_nonneg. intros x Hx. destruct (proj1 (isValid_true x)) as (_ & _ & _ & ? & _); [|lia].
    apply Hv. elem. }
  rewrite Amount.add_wf by (unfold Amount.wf; lia).
  replace (c + CoinLot.amount l <=? i64_max) with true by lia. simpl.
  match goal with |- context [allocate _ _ _ _ _ ?st] =>
    destruct (allocate_total allocate_fuel tx r blk l st) as [[Hu ->]|(st' & -> & Hidx')] end; try done; [|by left|].
  { unfold need, allocate_fuel. repeat case_match; lia. }
  simpl. apply IH; try done; try lia. intros; apply Hv; elem.
Qed.

Lemma inputIdsValid_true seen ids :
  NoDup ids → (∀ i, i ∈ ids → i ≠ "" ∧ i ∉ seen) → TransferPlan.inputIdsValid seen ids = true.
Proof.
  revert seen. induction ids as [|i ids IH]; intros seen; simpl; [done|].
  intros [Hni Hnd]%NoDup_cons Hall. destruct (Hall i) as [?%empty_string_false ?]; [elem|].
  rewrite H, bool_decide_false by done. apply IH; [done|]. intros j Hj. split; [apply Hall; elem|].
  intros [->%elem_of_singleton|]%elem_of_union; [done|]. destruct (Hall j); [elem|done].
Qed.

Lemma outputLotsValid_true seen lots :
  NoDup (CoinLot.id <$> lots) →
  (∀ l, l ∈ lots → CoinLot.isValid l = true ∧ CoinLot.status l = AVAILABLE ∧ CoinLot.id l ∉ seen) →
  TransferPlan.outputLotsValid seen lots = true.
Proof.
  revert seen. induction lots as [|l lots IH]; intros seen; [done|]. rewrite fmap_cons. simpl.
  intros [Hni Hnd]%NoDup_cons Hall. destruct (Hall l) as (-> & ? & ?); [elem|]. simpl.
  unfold CoinLot.isAvailable. rewrite bool_decide_true, bool_decide_false by done. simpl.
  apply IH; [done|]. intros j Hj. destruct (Hall j) as (? & ? & ?); [elem|]. split_and!; try done.
  intros [E%elem_of_singleton|]%elem_of_union; [|done]. apply Hni. rewrite <- E.
  by apply list_elem_of_fmap_2.
Qed.

Lemma plan_isValid_true r p :
  TransferPlan.transactionId p ≠ "" → TransferPlan.senderAddress p ≠ "" →
  TransferPlan.recipientAddress p ≠ "" →
  TransferPlan.senderAddress p ≠ TransferPlan.recipientAddress p →
  TransferPlan.inputLotIds p ≠ [] → NoDup (TransferPlan.inputLotIds p) →
  (∀ i, i ∈ TransferPlan.inputLotIds p → i ≠ "") →
  addable r (TransferPlan.outputLots p) →
  (∀ l, l ∈ TransferPlan.outputLots p → CoinLot.status l = AVAILABLE) →
  0 < TransferPlan.transferAmount p → 0 ≤ TransferPlan.feeAmount p →
  0 ≤ TransferPlan.changeAmount p → TransferPlan.totalInputAmount p ≤ i64_max →
  TransferPlan.transferAmount p + TransferPlan.feeAmount p + TransferPlan.changeAmount p =
    TransferPlan.totalInputAmount p →
  sum_by CoinLot.amount (TransferPlan.outputLots p) = TransferPlan.totalInputAmount p →
  TransferPlan.isValid p = Ok true.
Proof.
  intros H1 H2 H3 H4 H5 Hnd Hne [Hout Hnd'] Hav Ht Hf Hc Hmax Esum Htot.
  unfold TransferPlan.isValid, TransferPlan.totalDebitAmount, TransferPlan.totalOutputAmount,
    Amount.isPositive, Amount.isNegative.
  rewrite !(proj2 (empty_string_false _)), (proj2 (String.eqb_neq _ _)) by done. simpl.
  rewrite !bool_decide_false by (done || intros E; rewrite E in Htot; simpl in Htot; lia).
  replace (0 <? TransferPlan.transferAmount p) with true by lia. simpl.
  replace (TransferPlan.feeAmount p <? 0) with false by lia.
  replace (TransferPlan.changeAmount p <? 0) with false by lia.
  replace (0 <? TransferPlan.totalInputAmount p) with true by lia. simpl.
  rewrite Amount.add_wf by (unfold Amount.wf; lia).
  replace (TransferPlan.transferAmount p + TransferPlan.feeAmount p <=? i64_max) with true by lia. simpl.
  rewrite Amount.add_wf, Esum by (unfold Amount.wf; lia).
  replace (TransferPlan.totalInputAmount p <=? i64_max) with true by lia. simpl.
  rewrite Z.eqb_refl. simpl. rewrite Amount.sum_fits; [simpl|intros l Hl|lia].
  2: { destruct (Hout l Hl) as [Hv _]. apply isValid_true in Hv. intuition lia. }
  rewrite Htot, Z.eqb_refl. simpl.
  rewrite inputIdsValid_true; [simpl|done|intros i Hi; split; [auto|set_solver]].
  rewrite outputLotsValid_true; [done..|]. intros l Hl.
  split_and!; [by apply Hout|by apply Hav|set_solver].
Qed.

(** A transfer that [validateTransferTransaction] accepts has a plan. *)
Lemma buildTransferPlan_total tx r blk v :
  validateTransferTransaction tx r = Ok v → validation_success v = true →
  (used tx r ∧ buildTransferPlan tx r blk = Throw id_clash) ∨ ∃ plan, buildTransferPlan tx r blk = Ok plan.
Proof.
  intros Ev Hs. pose proof Ev as Hval.
  apply validateTransferTransaction_success in Hval
    as (Hty & Hid & Hfrom & Hto & Hne & Hamt & Hfee & Hts & Hwf & sel & Eadd & Esel); [|done].
  unfold buildTransferPlan. rewrite Ev. simpl. rewrite Hs. simpl. rewrite Eadd. simpl.
  rewrite Esel. simpl. apply selectInputLots_Ok in Esel as [Hsel Hcov]; [|done].
  pose proof (selection_amounts _ _ _ Hsel) as Hselamt.
  destruct (planLoop_total tx r blk sel [] 0
    (Alloc 0 (Transaction.amount tx) (Transaction.fee tx) [] 0)) as [[Hu ->]|[[[ids c] al] Eloop]];
    try done; try lia.
  { by intros ? ?%elem_of_nil. }
  { intros l Hl. apply Hsel in Hl. by destruct Hl as (_ & ? & _). }
  { by left. }
  right. rewrite Eloop. simpl.
  apply planLoop_Ok in Eloop as (-> & -> & (new & pr & pf & ch & E1 & Hadd & E2 & E3 & E4 & Hr & Hf & Hch & Hav & Htot & Hheld & Htr)); simpl; try lia.
  2: { intros l Hl. apply Hselamt in Hl. intuition lia. }
  2: { split; [by intros ? ?%elem_of_nil|constructor]. }
  simpl in *. subst new. unfold Amount.isPositive.
  replace (sum_by CoinLot.amount sel <? _) with false by lia. simpl.
  replace (0 <? remainingRecipient al) with false by lia.
  replace (0 <? remainingFee al) with false by lia. simpl.
  rewrite Amount.sub_wf' by lia. simpl.
  eexists. erewrite plan_isValid_true; [done|..]; simpl; try done; try lia; auto.
  - intros ->%fmap_nil_inv. simpl in Hcov. lia.
  - apply Hsel.
  - intros i (l & -> & Hl)%list_elem_of_fmap.
    apply (sel_spendable _ _ _ Hsel) in Hl as (_ & Hv & _). apply isValid_true in Hv. intuition.
Qed.

(** In explicit mode the selected lots are exactly the declared ones. *)
Lemma selectExplicit_ids tx r ids seen sel c seen' sel' c' :
  wf r → foldR (selectExplicitStep tx r) (seen, sel, c) ids = Ok (seen', sel', c') →
  CoinLot.id <$> sel' = (CoinLot.id <$> sel) ++ ids.
Proof.
  intros Hwf. revert seen sel c. induction ids as [|i ids IH]; intros seen sel c; simpl.
  { intros [= _ <- _]. by rewrite app_nil_r. }
  intros H. unfold selectExplicitStep at 1 in H. inv_ok. apply IH in H. rewrite H, fmap_app.
  rewrite <- (assoc (++)). do 2 f_equal.
  unfold Registry.lot in *. destruct (r !! i) as [l|] eqn:E; inv_ok. by destruct (Hwf i _ E) as [-> _].
Qed.

(** The effect of a successful [applyTransfer] on what addresses hold. *)
Lemma applyTransfer_effect tx blk r r' :
  applyTransfer tx blk r = (Ok tt, r') →
  wf r ∧ wf r' ∧
  (∀ a, map_sum (held a) r' =
        map_sum (held a) r
        - credit (Transaction.fromAddress tx) a (Transaction.amount tx + Transaction.fee tx)
        + credit (Transaction.toAddress tx) a (Transaction.amount tx)
        + credit feePoolAddress a (Transaction.fee tx)) ∧
  activeSupply r' = activeSupply r.
Proof.
  intros Hrun. destruct (applyTransfer_cases tx blk r) as [(e & E & _)|(plan & sel & _ & Hok & Hadd & E)];
    [congruence|]. assert (r' = add_lots (TransferPlan.outputLots plan) (spend_lots sel r)) as -> by congruence.
  pose proof (plan_selection _ _ _ _ Hok) as Hsel. pose proof (plan_wf _ _ _ _ Hok) as Hwf.
  destruct (spend_all r _ sel Hwf Hsel) as (_ & _ & Hwf' & _).
  split; [done|]. split; [by apply add_lots_wf|]. split.
  - intros a. rewrite (transfer_sum tx r) by (try done; intros l; unfold held; by case_match).
    rewrite (plan_held _ _ _ _ Hok), (selection_held r _ sel a Hsel).
    unfold credit. repeat case_match; lia.
  - unfold activeSupply. rewrite (transfer_sum tx r) by done.
    rewrite (sum_by_ext active_amount CoinLot.amount sel),
      (sum_by_ext active_amount CoinLot.amount (TransferPlan.outputLots plan)).
    + rewrite (plan_total _ _ _ _ Hok). lia.
    + intros l Hl. by apply active_amount_available, (plan_available _ _ _ _ Hok).
    + intros l Hl. by apply active_amount_available, (selection_amounts _ _ _ Hsel).
Qed.

End TransferFacts.

(** ** What transfers promise *)

Module TransferProperties.
Import LotFacts RegistryFacts TransferValidator TransferFacts.

(** C3. A transfer that is applied moves exactly the declared values: for every
    address the value held (available or locked) changes by minus amount plus
    fee for the sender, plus amount for the recipient and plus fee for the fee
    pool; everyone else, and the active supply, is unchanged. *)
Theorem transfer_moves_balances tx blk r r' :
  applyTransfer tx blk r = (Ok tt, r') →
  (∀ a, map_sum (held a) r' =
        map_sum (held a) r
        - credit (Transaction.fromAddress tx) a (Transaction.amount tx + Transaction.fee tx)
        + credit (Transaction.toAddress tx) a (Transaction.amount tx)
        + credit feePoolAddress a (Transaction.fee tx)) ∧
  activeSupply r' = activeSupply r.
Proof.
  intros Hrun. by destruct (applyTransfer_effect tx blk r r' Hrun) as (_ & _ & ? & ?).
Qed.

(** Transfers keep every coin traceable to its mint: for every mint record,
    the active value that descends from it is the same before and after. *)
Theorem transfer_conserves_origins tx blk r r' o :
  applyTransfer tx blk r = (Ok tt, r') → map_sum (traced o) r' = map_sum (traced o) r.
Proof.
  intros Hrun. destruct (applyTransfer_cases tx blk r) as [(e & E & _)|(plan & sel & _ & Hok & Hadd & E)];
    [congruence|]. assert (r' = add_lots (TransferPlan.outputLots plan) (spend_lots sel r)) as -> by congruence.
  rewrite (transfer_sum tx r) by (try done; intros l; unfold traced; by case_match).
  rewrite (plan_traced _ _ _ _ Hok). lia.
Qed.

(** [applyTransfer] is all or nothing: whenever it throws, the registry is
    unchanged and the exception is the one that building the plan raised. *)
Theorem transfer_is_atomic tx blk r e r' :
  applyTransfer tx blk r = (Throw e, r') → r' = r ∧ buildTransferPlan tx r blk = Throw e.
Proof.
  intros Hrun. destruct (applyTransfer_cases tx blk r) as [(e' & E & ?)|(plan & sel & _ & _ & _ & E)];
    rewrite E in Hrun; by simplify_eq.
Qed.

(** C17. A transfer that [validateTransferTransaction] accepts is applied, or an id it
    generates is already taken: the allocation loop ends within its fuel, generated
    ids never clash with each other, the plan is valid and no later check fails; the
    only exception is that of a generated id that a lot of the registry carries
    already, and it leaves the registry as it was. *)
Theorem validated_transfer_applies tx blk r v :
  validateTransferTransaction tx r = Ok v → validation_success v = true →
  (∃ r', applyTransfer tx blk r = (Ok tt, r')) ∨
  applyTransfer tx blk r = (Throw (logic_error "Generated transfer output CoinLot id already exists."), r) ∧
    ∃ k, is_Some (r !! k) ∧ String.prefix (output_prefix tx) k = true.
Proof.
  intros Hv Hs. destruct (buildTransferPlan_total tx r blk v Hv Hs) as [[Hu Hp]|[plan Hp]].
  - right. split; [|done]. unfold applyTransfer. apply M_run_Throw. unfold getsR. by rewrite Hp.
  - left. destruct (applyTransfer_cases tx blk r) as [(e & _ & ?)|(p & sel & _ & _ & _ & E)]; [congruence|eauto].
Qed.

(** A transaction that declares input lots spends exactly those lots, in the
    declared order, and no other lot of the sender. *)
Theorem explicit_inputs_are_respected tx r blk plan :
  Transaction.inputCoinLotIds tx ≠ [] → buildTransferPlan tx r blk = Ok plan →
  TransferPlan.inputLotIds plan = Transaction.inputCoinLotIds tx.
Proof.
  intros Hex Hb. destruct (buildTransferPlan_Ok _ _ _ _ Hb) as [_ [Hwf _ _ _ _ _ _ _]].
  unfold buildTransferPlan, selectInputLots, Transaction.hasExplicitInputCoinLotIds in Hb.
  rewrite bool_decide_false in Hb by done. simpl in Hb. inv_ok.
  match goal with E : foldR (selectExplicitStep _ _) _ _ = Ok ?s |- _ =>
    destruct s as [[seen sel] c]; apply selectExplicit_ids in E; [|done] end.
  match goal with E : foldR (planStep _ _ _) _ _ = Ok ?s |- _ => destruct s as [[ids c'] al] end.
  inv_ok. simpl.
  match goal with E : foldR (planStep _ _ _) _ _ = Ok _ |- _ => apply planLoop_ids in E as -> end.
  done.
Qed.

Definition sample_transfer (inputs : list string) : Transaction :=
  Transaction.mk "tx-1" TRANSFER "alice" "bob" 30 5 1 1700000001 inputs "" "nodo".
Definition two_lots : CoinLotRegistry :=
  {[ "lot-a" := CoinLot.mk "lot-a" "mint-1" "alice" 20 AVAILABLE 0 0 1700000000;
     "lot-b" := CoinLot.mk "lot-b" "mint-2" "alice" 50 AVAILABLE 0 0 1700000000 ]}.
Definition after_transfer : CoinLotRegistry := (applyTransfer (sample_transfer []) 3 two_lots).2.

Lemma transfer_moves_balances_witness :
  map_sum (held "bob") after_transfer = 30 ∧ map_sum (held "alice") after_transfer = 35 ∧
  activeSupply after_transfer = 70.
Proof.
  destruct (transfer_moves_balances (sample_transfer []) 3 two_lots after_transfer) as [Hheld Hsup];
    [vm_compute; reflexivity|].
  split_and!; [rewrite (Hheld "bob")|rewrite (Hheld "alice")|rewrite Hsup]; vm_compute; reflexivity.
Defined.

Lemma transfer_conserves_origins_witness : map_sum (traced "mint-2") after_transfer = 50.
Proof.
  rewrite (transfer_conserves_origins (sample_transfer []) 3 two_lots after_transfer "mint-2");
    vm_compute; reflexivity.
Defined.

Lemma transfer_is_atomic_witness :
  ∃ e, buildTransferPlan (sample_transfer ["lot-a"]) two_lots 3 = Throw e.
Proof.
  eexists. apply (transfer_is_atomic (sample_transfer ["lot-a"]) 3 two_lots _ two_lots).
  vm_compute. reflexivity.
Defined.

Lemma validated_transfer_applies_witness :
  ∃ r', applyTransfer (sample_transfer []) 3 two_lots = (Ok tt, r').
Proof.
  destruct (validated_transfer_applies (sample_transfer []) 3 two_lots TransferValid) as [Hr|(_ & k & [l Hk] & Hp)];
    [vm_compute; reflexivity..|exact Hr|exfalso].
  unfold two_lots in Hk. apply lookup_insert_Some in Hk as [[<- _]|[_ [<- _]%lookup_singleton_Some]]; discriminate Hp.
Defined.

Lemma explicit_inputs_are_respected_witness :
  ∃ plan, buildTransferPlan (sample_transfer ["lot-b"]) two_lots 3 = Ok plan ∧
          TransferPlan.inputLotIds plan = ["lot-b"].
Proof.
  eexists. split; [vm_compute; reflexivity|].
  apply (explicit_inputs_are_respected (sample_transfer ["lot-b"]) two_lots 3);
    [discriminate|vm_compute; reflexivity].
Defined.

End TransferProperties.
