(* ===== verification/Crypto.v ===== *)
(** * crypto: hashing, hexadecimal text, keys, addresses and signature bundles

    Models src/src/crypto/hash.c, Hex.cpp, CryptoAlgorithm.cpp, CryptoPolicy.cpp,
    CryptoSuiteId.cpp, SigningDomain.cpp, PublicKey.cpp, Address.cpp,
    AddressDerivation.cpp, Signature.cpp and the checks of SignatureBundle.cpp,
    and src/include/utils/HashString.hpp.  OpenSSL's SHA-256 is the operation of
    the class [Sha256]; the virtual class [SignatureProvider] is a record.
    Byte vectors are lists of integers between 0 and 255. *)

From Stdlib Require Import Ascii.
From S2P Require Import Prelude Utils.

(** OpenSSL's EVP digest: [None] when one of the EVP calls fails. *)
Class Sha256 := evp_sha256 : string → option (list Z).

Definition byte (b : Z) : Prop := 0 ≤ b < 256.

(** The documented behaviour of SHA-256 when no allocation fails: a digest of
    32 bytes for every input. *)
Class Sha256Spec `{Sha256} : Prop :=
  evp_sha256_total : ∀ s, ∃ d, evp_sha256 s = Some d ∧ length d = 32%nat ∧ Forall byte d.

Module Hex.

(** [kHex[n]] *)
Definition hex_digit (n : Z) : ascii :=
  if n <? 10 then ascii_of_N (Z.to_N (48 + n)) else ascii_of_N (Z.to_N (87 + n)).

Fixpoint hexEncode (data : list Z) : string :=
  match data with
  | [] => ""
  | value :: data =>
      String (hex_digit (Z.shiftr value 4))
        (String (hex_digit (Z.land value 15)) (hexEncode data))
  end.

Definition code (c : ascii) : Z := Z.of_N (N_of_ascii c).

Definition decodeNibble (value : ascii) : result Z :=
  let v := code value in
  if (48 <=? v) && (v <=? 57) then Ok (v - 48)
  else if (97 <=? v) && (v <=? 102) then Ok (v - 97 + 10)
  else if (65 <=? v) && (v <=? 70) then Ok (v - 65 + 10)
  else Throw (invalid_argument "Non-hex character rejected.").

(** The loop of [hexDecode], two characters per iteration. *)
Fixpoint decodePairs (hex : string) : result (list Z) :=
  match hex with
  | String hi (String lo hex) =>
      h ← decodeNibble hi;
      l ← decodeNibble lo;
      rest ← decodePairs hex;
      Ok (Z.lor (Z.shiftl h 4) l :: rest)
  | _ => Ok []
  end.

Definition hexDecode (hex : string) : result (list Z) :=
  if empty_string hex || negb (string_size hex mod 2 =? 0) then
    Throw (invalid_argument "Hex string has invalid length.")
  else decodePairs hex.

Definition is_hex_char (value : ascii) : bool :=
  let v := code value in
  ((48 <=? v) && (v <=? 57)) || ((97 <=? v) && (v <=? 102)) || ((65 <=? v) && (v <=? 70)).

Definition isHexString (hex : string) : bool :=
  if empty_string hex || negb (string_size hex mod 2 =? 0) then false
  else SafeScalar.all_chars is_hex_char hex.

Definition hasHexByteSize (hex : string) (byteSize : Z) : bool :=
  (string_size hex =? byteSize * 2) && isHexString hex.

End Hex.

Module Hash.
Section hash.
Context `{Sha256}.

(** [value.c_str()] read as a C string: the text before the first NUL. *)
Fixpoint c_str (s : string) : string :=
  match s with
  | EmptyString => EmptyString
  | String c s => if Ascii.eqb c "000" then EmptyString else String c (c_str s)
  end.

(** The text [nodo_hash_bytes] leaves in a buffer of 65 characters. *)
Definition nodo_hash_bytes (input : string) : string :=
  match evp_sha256 input with
  | Some digest => if Z.of_nat (length digest) =? 32 then Hex.hexEncode digest else ""
  | None => ""
  end.

Definition nodo_hash_string (input : string) : string := nodo_hash_bytes input.

Definition hashCString (value : string) : string := nodo_hash_string (c_str value).

(** [std::string(output, NODO_HASH_HEX_SIZE)]: a failed digest leaves a
    buffer of NUL characters. *)
Definition hashBytes (value : string) : string :=
  match nodo_hash_bytes value with
  | EmptyString => String.concat "" (replicate 64 (String "000" EmptyString))
  | s => s
  end.
End hash.
End Hash.

Inductive CryptoAlgorithm :=
| DEVELOPMENT_FAKE_SIGNATURE | CLASSIC_ED25519 | CLASSIC_ECDSA_SECP256K1 | BLS12_381.

#[global] Instance CryptoAlgorithm_eq_dec : EqDecision CryptoAlgorithm.
Proof. solve_decision. Defined.

Definition cryptoAlgorithmToString (a : CryptoAlgorithm) : string :=
  match a with
  | DEVELOPMENT_FAKE_SIGNATURE => "DEVELOPMENT_FAKE_SIGNATURE"
  | CLASSIC_ED25519 => "CLASSIC_ED25519"
  | CLASSIC_ECDSA_SECP256K1 => "CLASSIC_ECDSA_SECP256K1"
  | BLS12_381 => "BLS12_381"
  end.

Definition cryptoAlgorithmFromString (value : string) : result CryptoAlgorithm :=
  if String.eqb value "DEVELOPMENT_FAKE_SIGNATURE" then Ok DEVELOPMENT_FAKE_SIGNATURE
  else if String.eqb value "CLASSIC_ED25519" then Ok CLASSIC_ED25519
  else if String.eqb value "CLASSIC_ECDSA_SECP256K1" then Ok CLASSIC_ECDSA_SECP256K1
  else if String.eqb value "BLS12_381" then Ok BLS12_381
  else Throw (invalid_argument ("Unknown CryptoAlgorithm: " +:+ value)).

Definition isClassicAlgorithm (a : CryptoAlgorithm) : bool :=
  bool_decide (a = CLASSIC_ED25519) || bool_decide (a = CLASSIC_ECDSA_SECP256K1).
Definition isValidatorAlgorithm (a : CryptoAlgorithm) : bool := bool_decide (a = BLS12_381).
Definition isDevelopmentOnlyAlgorithm (a : CryptoAlgorithm) : bool :=
  bool_decide (a = DEVELOPMENT_FAKE_SIGNATURE).

Inductive SecurityContext :=
| PEER_AUTHENTICATION | USER_TRANSACTION | VALIDATOR_OPERATION | TREASURY_OPERATION
| MINT_OPERATION | DEVELOPMENT_ONLY.

#[global] Instance SecurityContext_eq_dec : EqDecision SecurityContext.
Proof. solve_decision. Defined.

(** [CryptoPolicy]: its only field is [m_developmentMode]. *)
Record CryptoPolicy := { developmentMode : bool }.

Definition isAlgorithmAllowed (policy : CryptoPolicy) (a : CryptoAlgorithm)
    (context : SecurityContext) : bool :=
  if isDevelopmentOnlyAlgorithm a then
    bool_decide (context = DEVELOPMENT_ONLY) && developmentMode policy
  else if bool_decide (context = USER_TRANSACTION) then bool_decide (a = CLASSIC_ED25519)
  else if bool_decide (context = PEER_AUTHENTICATION) then bool_decide (a = CLASSIC_ED25519)
  else if bool_decide (context = VALIDATOR_OPERATION) then bool_decide (a = BLS12_381)
  else if bool_decide (context = TREASURY_OPERATION) || bool_decide (context = MINT_OPERATION)
  then bool_decide (a = BLS12_381)
  else if isClassicAlgorithm a then true
  else if isValidatorAlgorithm a then true
  else false.

Inductive SigningDomain :=
| DOMAIN_UNKNOWN | DOMAIN_PEER_HANDSHAKE | DOMAIN_USER_TRANSACTION | DOMAIN_VALIDATOR_VOTE
| DOMAIN_QUORUM_CERTIFICATE | DOMAIN_MINT_AUTHORIZATION | DOMAIN_TREASURY_PROPOSAL
| DOMAIN_GOVERNANCE_VOTE | DOMAIN_VALIDATOR_BLOCK_PROPOSAL | DOMAIN_ARCHIVAL_PROOF.

#[global] Instance SigningDomain_eq_dec : EqDecision SigningDomain.
Proof. solve_decision. Defined.

Definition signingDomainToString (d : SigningDomain) : string :=
  match d with
  | DOMAIN_PEER_HANDSHAKE => "NODO_PEER_HANDSHAKE_V1"
  | DOMAIN_USER_TRANSACTION => "NODO_TX_V1"
  | DOMAIN_VALIDATOR_VOTE => "NODO_VALIDATOR_VOTE_V1"
  | DOMAIN_QUORUM_CERTIFICATE => "NODO_QUORUM_CERTIFICATE_V1"
  | DOMAIN_MINT_AUTHORIZATION => "NODO_MINT_AUTHORIZATION_V1"
  | DOMAIN_TREASURY_PROPOSAL => "NODO_TREASURY_PROPOSAL_V1"
  | DOMAIN_GOVERNANCE_VOTE => "NODO_GOVERNANCE_VOTE_V1"
  | DOMAIN_VALIDATOR_BLOCK_PROPOSAL => "NODO_VALIDATOR_BLOCK_PROPOSAL_V1"
  | DOMAIN_ARCHIVAL_PROOF => "NODO_ARCHIVAL_PROOF_V1"
  | DOMAIN_UNKNOWN => "UNKNOWN"
  end.

Definition signingDomainFromString (value : string) : SigningDomain :=
  if String.eqb value "NODO_PEER_HANDSHAKE_V1" then DOMAIN_PEER_HANDSHAKE
  else if String.eqb value "NODO_TX_V1" then DOMAIN_USER_TRANSACTION
  else if String.eqb value "NODO_VALIDATOR_VOTE_V1" then DOMAIN_VALIDATOR_VOTE
  else if String.eqb value "NODO_QUORUM_CERTIFICATE_V1" then DOMAIN_QUORUM_CERTIFICATE
  else if String.eqb value "NODO_MINT_AUTHORIZATION_V1" then DOMAIN_MINT_AUTHORIZATION
  else if String.eqb value "NODO_TREASURY_PROPOSAL_V1" then DOMAIN_TREASURY_PROPOSAL
  else if String.eqb value "NODO_GOVERNANCE_VOTE_V1" then DOMAIN_GOVERNANCE_VOTE
  else if String.eqb value "NODO_VALIDATOR_BLOCK_PROPOSAL_V1" then DOMAIN_VALIDATOR_BLOCK_PROPOSAL
  else if String.eqb value "NODO_ARCHIVAL_PROOF_V1" then DOMAIN_ARCHIVAL_PROOF
  else DOMAIN_UNKNOWN.

Definition signingDomainForSecurityContext (context : SecurityContext) : SigningDomain :=
  match context with
  | PEER_AUTHENTICATION => DOMAIN_PEER_HANDSHAKE
  | USER_TRANSACTION => DOMAIN_USER_TRANSACTION
  | VALIDATOR_OPERATION => DOMAIN_VALIDATOR_VOTE
  | TREASURY_OPERATION => DOMAIN_TREASURY_PROPOSAL
  | MINT_OPERATION => DOMAIN_MINT_AUTHORIZATION
  | DEVELOPMENT_ONLY => DOMAIN_UNKNOWN
  end.

Definition isSigningDomainAllowedForContext (d : SigningDomain) (context : SecurityContext) : bool :=
  if bool_decide (d = DOMAIN_UNKNOWN) then false
  else if bool_decide (context = VALIDATOR_OPERATION) then
    bool_decide (d = DOMAIN_VALIDATOR_VOTE) ||
    bool_decide (d = DOMAIN_VALIDATOR_BLOCK_PROPOSAL) ||
    bool_decide (d = DOMAIN_QUORUM_CERTIFICATE)
  else bool_decide (d = signingDomainForSecurityContext context).

Inductive CryptoSuiteId := SUITE_UNKNOWN | NODO_CRYPTO_SUITE_V1.

#[global] Instance CryptoSuiteId_eq_dec : EqDecision CryptoSuiteId.
Proof. solve_decision. Defined.

Definition cryptoSuiteIdToString (s : CryptoSuiteId) : string :=
  match s with NODO_CRYPTO_SUITE_V1 => "NODO_CRYPTO_SUITE_V1" | SUITE_UNKNOWN => "UNKNOWN" end.
Definition cryptoSuiteIdFromString (value : string) : CryptoSuiteId :=
  if String.eqb value "NODO_CRYPTO_SUITE_V1" then NODO_CRYPTO_SUITE_V1 else SUITE_UNKNOWN.
Definition isSupportedCryptoSuite (s : CryptoSuiteId) : bool := bool_decide (s = NODO_CRYPTO_SUITE_V1).

Module PublicKey.
Record t := mk { algorithm : CryptoAlgorithm; keyMaterial : string }.

#[global] Instance eq_dec : EqDecision t.
Proof. solve_decision. Defined.

Definition isValid (k : t) : bool :=
  if empty_string (keyMaterial k) then false
  else if bool_decide (algorithm k = CLASSIC_ED25519) then Hex.hasHexByteSize (keyMaterial k) 32
  else if bool_decide (algorithm k = BLS12_381) then Hex.hasHexByteSize (keyMaterial k) 48
  else negb (empty_string (keyMaterial k)).

Definition serialize (k : t) : string :=
  "PublicKey{algorithm=" +:+ cryptoAlgorithmToString (algorithm k) +:+
  ";keyMaterial=" +:+ keyMaterial k +:+ "}".

Definition fingerprint `{Sha256} (k : t) : string := Hash.hashCString (serialize k).
End PublicKey.
Abbreviation PublicKey := PublicKey.t.

Module Address.
Section address.
Context `{Sha256}.

Definition networkPrefix : string := "nodo1".
Definition payloadHexSize : nat := 40.
Definition checksumHexSize : nat := 8.
Definition totalSize : nat := String.length networkPrefix + payloadHexSize + checksumHexSize.

Definition is_lower_hex (c : ascii) : bool :=
  let v := Hex.code c in ((48 <=? v) && (v <=? 57)) || ((97 <=? v) && (v <=? 102)).

(** [value.substr(pos)] for [pos <= value.size()] *)
Definition substr_from (pos : nat) (value : string) : string :=
  String.substring pos (String.length value - pos) value.

Definition hasOnlyLowercaseHexAfterPrefix (value : string) : bool :=
  if negb (String.prefix networkPrefix value) then false
  else SafeScalar.all_chars is_lower_hex (substr_from (String.length networkPrefix) value).

Definition computeChecksum (body : string) : string :=
  String.substring 0 checksumHexSize (Hash.hashCString ("NODO_ADDRESS_CHECKSUM_V1|" +:+ body)).

Definition hasValidChecksum (value : string) : bool :=
  if negb (Nat.eqb (String.length value) totalSize) then false
  else
    let cut := (String.length networkPrefix + payloadHexSize)%nat in
    let body := String.substring 0 cut value in
    let checksum := substr_from cut value in
    String.eqb checksum (computeChecksum body).

Definition isValid (value : string) : bool :=
  if negb (Nat.eqb (String.length value) totalSize) then false
  else if negb (String.prefix networkPrefix value) then false
  else if negb (hasOnlyLowercaseHexAfterPrefix value) then false
  else if negb (hasValidChecksum value) then false
  else true.
End address.
End Address.

Module AddressDerivation.
Section derivation.
Context `{Sha256}.

Definition computeAddressPayloadHex (k : PublicKey) : string :=
  String.substring 0 Address.payloadHexSize
    (Hash.hashCString ("NODO_ADDRESS_DERIVATION_V1|" +:+ PublicKey.serialize k)).

(** [AddressDerivation::computeChecksum], the same text as [Address]'s. *)
Definition computeChecksum (body : string) : string :=
  String.substring 0 Address.checksumHexSize
    (Hash.hashCString ("NODO_ADDRESS_CHECKSUM_V1|" +:+ body)).

Definition deriveFromPublicKey (k : PublicKey) : result string :=
  throw_if (negb (PublicKey.isValid k))
    (invalid_argument "Cannot derive address from invalid public key.");;
  let body := Address.networkPrefix +:+ computeAddressPayloadHex k in
  let address := body +:+ computeChecksum body in
  throw_if (negb (Address.isValid address)) (logic_error "Derived address is invalid.");;
  Ok address.

Definition verifyAddressForPublicKey (address : string) (k : PublicKey) : result bool :=
  if negb (Address.isValid address) then Ok false
  else if negb (PublicKey.isValid k) then Ok false
  else
    derived ← deriveFromPublicKey k;
    Ok (String.eqb address derived).
End derivation.
End AddressDerivation.

Module Signature.
Record t := mk {
  suite : CryptoSuiteId;
  domain : SigningDomain;
  algorithm : CryptoAlgorithm;
  publicKey : PublicKey;
  signatureHex : string;
  createdAt : Z;
}.

#[global] Instance eq_dec : EqDecision t.
Proof. solve_decision. Defined.

Definition isSafeSignatureHex (value : string) : bool :=
  if empty_string value then false else SafeScalar.all_chars Hex.is_hex_char value.

Definition isValid (s : t) : bool :=
  if negb (isSupportedCryptoSuite (suite s)) then false
  else if bool_decide (domain s = DOMAIN_UNKNOWN) then false
  else if negb (PublicKey.isValid (publicKey s)) then false
  else if negb (isSafeSignatureHex (signatureHex s)) then false
  else if createdAt s <=? 0 then false
  else if negb (bool_decide (algorithm s = PublicKey.algorithm (publicKey s))) then false
  else true.

Definition serialize (s : t) : string :=
  "Signature{suite=" +:+ cryptoSuiteIdToString (suite s) +:+
  ";domain=" +:+ signingDomainToString (domain s) +:+
  ";algorithm=" +:+ cryptoAlgorithmToString (algorithm s) +:+
  ";publicKey=" +:+ PublicKey.serialize (publicKey s) +:+
  ";signatureHex=" +:+ signatureHex s +:+
  ";createdAt=" +:+ to_string (createdAt s) +:+ "}".
End Signature.
Abbreviation Signature := Signature.t.

(** The virtual class [SignatureProvider]: its algorithm and whether [verify]
    reports success. *)
Record SignatureProvider := {
  provider_algorithm : CryptoAlgorithm;
  provider_verify : string → Signature → bool;
}.

(** [SignatureBundle]: a vector of signatures. *)
Module SignatureBundle.
Abbreviation t := (list Signature).

Definition addSignature (s : Signature) : M t unit := λ b,
  if negb (Signature.isValid s) then
    (Throw (invalid_argument "Invalid signature rejected by SignatureBundle."), b)
  else if existsb (λ e, bool_decide (Signature.algorithm e = Signature.algorithm s)) b then
    (Throw (logic_error "Duplicated signature algorithm rejected."), b)
  else (Ok tt, b ++ [s]).

Definition hasAlgorithm (b : t) (a : CryptoAlgorithm) : bool :=
  existsb (λ s, bool_decide (Signature.algorithm s = a)) b.

Definition isValidForPolicy (b : t) (policy : CryptoPolicy) (context : SecurityContext) : bool :=
  if bool_decide (b = []) then false
  else forallb (λ s,
    if negb (Signature.isValid s) then false
    else if negb (isAlgorithmAllowed policy (Signature.algorithm s) context) then false
    else isSigningDomainAllowedForContext (Signature.domain s) context) b.

Definition verifyForPolicy (b : t) (message : string) (policy : CryptoPolicy)
    (context : SecurityContext) (provider : SignatureProvider) : bool :=
  if negb (isValidForPolicy b policy context) then false
  else if empty_string message then false
  else forallb (λ s,
    if negb (bool_decide (Signature.algorithm s = provider_algorithm provider)) then false
    else provider_verify provider message s) b.

Definition serialize (b : t) : string :=
  "SignatureBundle{" +:+ String.concat ";" (Signature.serialize <$> b) +:+ "}".
End SignatureBundle.
Abbreviation SignatureBundle := SignatureBundle.t.

(** ** Lemmas on hexadecimal text and hashes *)

Module CryptoFacts.

Lemma append_cons c a b : String c a +:+ b = String c (a +:+ b).
Proof. done. Qed.

Lemma length_append a b : String.length (a +:+ b) = (String.length a + String.length b)%nat.
Proof. induction a as [|c a IH]; [done|]. rewrite append_cons. simpl. by rewrite IH. Qed.

Lemma all_chars_append p a b :
  SafeScalar.all_chars p (a +:+ b) = SafeScalar.all_chars p a && SafeScalar.all_chars p b.
Proof. induction a as [|c a IH]; [done|]. rewrite append_cons. simpl. by rewrite IH, andb_assoc. Qed.

Lemma substring_all s n : (String.length s ≤ n)%nat → String.substring 0 n s = s.
Proof.
  revert n. induction s as [|c s IH]; intros [|n] Hn; simpl in *; try done; try lia.
  f_equal. apply IH. lia.
Qed.

Lemma substring_append_l a b : String.substring 0 (String.length a) (a +:+ b) = a.
Proof.
  induction a as [|c a IH]; [by destruct b|]. rewrite append_cons. simpl. by rewrite IH.
Qed.

Lemma substring_append_r a b n :
  (String.length b ≤ n)%nat → String.substring (String.length a) n (a +:+ b) = b.
Proof.
  intros Hn. induction a as [|c a IH]; [by apply substring_all|]. rewrite append_cons. simpl. apply IH.
Qed.

Lemma length_substring n s :
  (n ≤ String.length s)%nat → String.length (String.substring 0 n s) = n.
Proof.
  revert n. induction s as [|c s IH]; intros [|n] Hn; simpl in *; try done; try lia.
  f_equal. apply IH. lia.
Qed.

Lemma all_chars_substring p n s :
  SafeScalar.all_chars p s = true → SafeScalar.all_chars p (String.substring 0 n s) = true.
Proof.
  revert n. induction s as [|c s IH]; intros [|n]; simpl; try done.
  intros [-> ?]%andb_true_iff. simpl. by apply IH.
Qed.

(** Finite checks over all byte values. *)
Definition byte_ok (b : Z) : bool :=
  bool_decide (Hex.decodeNibble (Hex.hex_digit (Z.shiftr b 4)) = Ok (Z.shiftr b 4)) &&
  bool_decide (Hex.decodeNibble (Hex.hex_digit (Z.land b 15)) = Ok (Z.land b 15)) &&
  (Z.lor (Z.shiftl (Z.shiftr b 4) 4) (Z.land b 15) =? b) &&
  Address.is_lower_hex (Hex.hex_digit (Z.shiftr b 4)) &&
  Address.is_lower_hex (Hex.hex_digit (Z.land b 15)).

Lemma byte_check b : byte b → byte_ok b = true.
Proof.
  intros Hb. assert (forallb byte_ok (seqZ 0 256) = true) as Hall by (vm_compute; done).
  rewrite forallb_forall in Hall. apply Hall, list_elem_of_In, elem_of_seqZ. unfold byte in Hb. lia.
Qed.

Lemma hexEncode_decode d : Forall byte d → Hex.decodePairs (Hex.hexEncode d) = Ok d.
Proof.
  induction 1 as [|b d Hb _ IH]; [done|]. apply byte_check in Hb. unfold byte_ok in Hb. inv_ok.
  repeat match goal with E : bool_decide _ = true |- _ => apply bool_decide_eq_true in E end.
  simpl. repeat match goal with E : Hex.decodeNibble _ = _ |- _ => rewrite E; simpl; clear E end.
  rewrite IH. simpl. do 2 f_equal. lia.
Qed.

Lemma hexEncode_length d : String.length (Hex.hexEncode d) = (2 * length d)%nat.
Proof. induction d as [|b d IH]; simpl; [done|]. rewrite IH. lia. Qed.

Lemma hexEncode_lower d :
  Forall byte d → SafeScalar.all_chars Address.is_lower_hex (Hex.hexEncode d) = true.
Proof.
  induction 1 as [|b d Hb _ IH]; [done|]. apply byte_check in Hb. unfold byte_ok in Hb. inv_ok.
  simpl. rewrite IH. by repeat match goal with E : Address.is_lower_hex _ = true |- _ => rewrite E; clear E end.
Qed.

Section sha.
Context `{Sha256Spec}.

Lemma hash_shape s : ∃ h, Hash.hashCString s = h ∧ String.length h = 64%nat ∧
  SafeScalar.all_chars Address.is_lower_hex h = true.
Proof.
  unfold Hash.hashCString, Hash.nodo_hash_string, Hash.nodo_hash_bytes.
  destruct (evp_sha256_total (Hash.c_str s)) as (d & -> & Hlen & Hd). rewrite Hlen. simpl.
  eexists. split_and!; [done| |by apply hexEncode_lower]. by rewrite hexEncode_length, Hlen.
Qed.

Lemma hash_nonempty s : Hash.hashCString s ≠ "".
Proof. destruct (hash_shape s) as (h & -> & Hlen & _). by intros ->. Qed.

Lemma hash_prefix_shape s n : (n ≤ 64)%nat →
  String.length (String.substring 0 n (Hash.hashCString s)) = n ∧
  SafeScalar.all_chars Address.is_lower_hex (String.substring 0 n (Hash.hashCString s)) = true.
Proof.
  intros Hn. destruct (hash_shape s) as (h & -> & Hlen & Hall).
  split; [apply length_substring; lia|by apply all_chars_substring].
Qed.

(** The address built from a payload and its checksum is well formed. *)
Lemma address_isValid payload :
  String.length payload = Address.payloadHexSize →
  SafeScalar.all_chars Address.is_lower_hex payload = true →
  let body := Address.networkPrefix +:+ payload in
  Address.isValid (body +:+ Address.computeChecksum body) = true.
Proof.
  intros Hlen Hall body. unfold Address.isValid, Address.hasValidChecksum.
  destruct (hash_prefix_shape ("NODO_ADDRESS_CHECKSUM_V1|" +:+ body) 8) as [Hcl Hca]; [lia|].
  change (String.substring 0 8 _) with (Address.computeChecksum body) in Hcl, Hca.
  assert (String.length body = 45%nat) as Hbl by (unfold body; by rewrite length_append, Hlen).
  assert (String.length (body +:+ Address.computeChecksum body) = Address.totalSize) as ->
    by (by rewrite length_append, Hbl, Hcl).
  rewrite Nat.eqb_refl. change (negb true) with false. cbv iota.
  assert (String.prefix Address.networkPrefix (body +:+ Address.computeChecksum body) = true) as Hp.
  { unfold body. rewrite string_app_assoc. apply SafeScalar.prefix_app. }
  unfold Address.hasOnlyLowercaseHexAfterPrefix. rewrite Hp. change (negb true) with false. cbv iota.
  assert (Address.substr_from (String.length Address.networkPrefix) (body +:+ Address.computeChecksum body)
          = payload +:+ Address.computeChecksum body) as ->.
  { unfold Address.substr_from, body. rewrite string_app_assoc. apply substring_append_r.
    rewrite !length_append. lia. }
  rewrite all_chars_append, Hall, Hca. change (negb true) with false. cbv iota.
  replace (String.length Address.networkPrefix + Address.payloadHexSize)%nat with (String.length body)
    by (rewrite Hbl; done).
  rewrite substring_append_l. unfold Address.substr_from.
  rewrite substring_append_r by (rewrite length_append; lia). by rewrite String.eqb_refl.
Qed.

Lemma derive_Ok k : PublicKey.isValid k = true →
  ∃ a, AddressDerivation.deriveFromPublicKey k = Ok a ∧ Address.isValid a = true.
Proof.
  intros Hk. unfold AddressDerivation.deriveFromPublicKey. rewrite Hk. simpl.
  destruct (hash_prefix_shape ("NODO_ADDRESS_DERIVATION_V1|" +:+ PublicKey.serialize k) 40)
    as [Hl Ha]; [lia|].
  pose proof (address_isValid (AddressDerivation.computeAddressPayloadHex k) Hl Ha) as Hv.
  simpl in Hv. change (AddressDerivation.computeChecksum) with Address.computeChecksum.
  rewrite Hv. simpl. by eexists.
Qed.
End sha.

End CryptoFacts.

(** ** What the crypto layer promises *)

Module CryptoProperties.
Import CryptoFacts.

(** Hexadecimal text round trips: decoding the encoding of a non-empty byte
    vector returns it, and the encoding is accepted by [hasHexByteSize] for its
    own size. *)
Theorem hex_roundtrip (d : list Z) :
  Forall byte d → d ≠ [] →
  Hex.hexDecode (Hex.hexEncode d) = Ok d ∧
  string_size (Hex.hexEncode d) = 2 * Z.of_nat (length d).
Proof.
  intros Hd Hne. unfold Hex.hexDecode.
  assert (string_size (Hex.hexEncode d) = 2 * Z.of_nat (length d)) as Hs
    by (unfold string_size; rewrite hexEncode_length; lia).
  rewrite Hs, Z.mul_comm, Z.mod_mul by done. simpl. rewrite orb_false_r.
  destruct d as [|b d]; [done|]. split; [|done]. by apply hexEncode_decode.
Qed.

(** Address derivation is self-consistent: for every valid public key a
    well-formed address is derived (prefix, 40 hexadecimal digits, checksum),
    and [verifyAddressForPublicKey] accepts that address for that key and no
    other address. *)
Theorem derived_address_verifies `{Sha256Spec} (k : PublicKey) :
  PublicKey.isValid k = true →
  ∃ a, AddressDerivation.deriveFromPublicKey k = Ok a ∧ Address.isValid a = true ∧
       ∀ b, AddressDerivation.verifyAddressForPublicKey b k = Ok true ↔ b = a.
Proof.
  intros Hk. destruct (derive_Ok k Hk) as (a & Ha & Hv). exists a. split_and!; try done.
  intros b. unfold AddressDerivation.verifyAddressForPublicKey. rewrite Hk, Ha. simpl. split.
  - destruct (Address.isValid b); simpl; [|done]. by intros [= ->%String.eqb_eq].
  - intros ->. rewrite Hv. simpl. by rewrite String.eqb_refl.
Qed.

Lemma hex_roundtrip_witness :
  Hex.hexDecode (Hex.hexEncode [0; 171; 255]) = Ok [0; 171; 255].
Proof. apply hex_roundtrip; [|discriminate]. repeat constructor; unfold byte; lia. Defined.

(** A concrete digest: the length of the text in its first byte. *)
Definition toy_sha256 : Sha256 := λ s, Some (string_size s mod 256 :: replicate 31 7).

Lemma toy_sha256_spec : @Sha256Spec toy_sha256.
Proof.
  intros s. eexists. split_and!; [done|done|]. constructor.
  - unfold byte. by apply Z.mod_pos_bound.
  - apply Forall_replicate. unfold byte. lia.
Qed.

Definition sample_key : PublicKey := PublicKey.mk DEVELOPMENT_FAKE_SIGNATURE "validator-1".

Lemma derived_address_verifies_witness :
  ∃ a, @AddressDerivation.deriveFromPublicKey toy_sha256 sample_key = Ok a.
Proof.
  destruct (@derived_address_verifies toy_sha256 toy_sha256_spec sample_key) as (a & Ha & _);
    [reflexivity|]. exists a. exact Ha.
Defined.

End CryptoProperties.
