(* ===== verification/LedgerState.v ===== *)
(** * core: the ledger state

    Models src/src/core/Account.cpp, AccountState.cpp, AccountStateView.cpp,
    State.cpp (all but its text snapshot), src/src/economics/MintRecord.cpp,
    GenesisRewardRecord.cpp and src/src/staking/SecurityWeight.cpp.  A mutating
    method of [State] is a computation that keeps the partially updated object
    when it throws, exactly where the code throws. *)

From S2P Require Import Prelude Utils CoinLots CoinLotTransfer Crypto.

(** ** Accounts *)

Module Account.
Record t := mk {
  address : string;
  nextNonce : Z;
  createdAtBlock : Z;
  lastUpdatedAtBlock : Z;
}.

Definition create (address : string) (createdAtBlock : Z) : t :=
  mk address 1 createdAtBlock createdAtBlock.

Definition isValid (a : t) : bool :=
  if empty_string (address a) then false
  else if nextNonce a =? 0 then false
  else if lastUpdatedAtBlock a <? createdAtBlock a then false
  else true.

Definition canApplyNonce (a : t) (nonce : Z) : bool :=
  if nonce =? 0 then false else nonce =? nextNonce a.

Definition markTransactionApplied (nonce blockIndex : Z) : M t unit := λ a,
  if negb (canApplyNonce a nonce) then
    (Throw (logic_error "Invalid account nonce rejected."), a)
  else if nextNonce a =? u64_max then
    (Throw (overflow_error "Account nonce overflow."), a)
  else if blockIndex <? lastUpdatedAtBlock a then
    (Throw (logic_error "Account update cannot move backwards in block history."), a)
  else (Ok tt, mk (address a) (nextNonce a + 1) (createdAtBlock a) blockIndex).
End Account.
Abbreviation Account := Account.t.

Module AccountState.
Record t := mk { address : string; balance : Amount; nonce : Z }.

Definition isValid (a : t) : bool :=
  negb (empty_string (address a)) && negb (Amount.isNegative (balance a)).
End AccountState.

(** [AccountStateView]: the map from address to account state. *)
Module AccountStateView.
Abbreviation t := (gmap string AccountState.t).

Definition hasAccount (v : t) (address : string) : bool :=
  if empty_string address then false else bool_decide (is_Some (v !! address)).

Definition accountOrDefault (v : t) (address : string) : AccountState.t :=
  match v !! address with
  | None => AccountState.mk address 0 0
  | Some a => a
  end.

Definition putAccount (a : AccountState.t) (v : t) : bool * t :=
  if negb (AccountState.isValid a) then (false, v)
  else (true, <[AccountState.address a := a]> v).

Definition knownAddresses (v : t) : list string := (entries v).*1.
Definition accounts (v : t) : list AccountState.t := (entries v).*2.

Definition isValid (v : t) : bool :=
  forallb (λ e, negb (empty_string e.1 ||
                      negb (String.eqb e.1 (AccountState.address e.2)) ||
                      negb (AccountState.isValid e.2))) (entries v).
End AccountStateView.

(** ** Records that create coins *)

Inductive MintReason :=
| GENESIS_ALLOCATION | NETWORK_DEFENSE_REWARD | LOCKED_RESERVE_REWARD | TREASURY_REWARD.

Module MintRecord.
Record t := mk {
  id : string;
  authorizationId : string;
  recipientAddress : string;
  amount : Amount;
  reason : MintReason;
  epoch : Z;
  sourceBlockIndex : Z;
  sourceBlockHash : string;
  timestamp : Z;
}.

Definition rejectionReason (m : t) : string :=
  if empty_string (id m) then "MintRecord rejected: id is empty."
  else if empty_string (authorizationId m) then
    "MintRecord rejected: authorizationId is empty. Every mint must be linked to a MintAuthorization."
  else if empty_string (recipientAddress m) then "MintRecord rejected: recipientAddress is empty."
  else if negb (Amount.isPositive (amount m)) then
    "MintRecord rejected: amount must be positive, got " +:+ to_string (amount m) +:+ "."
  else if empty_string (sourceBlockHash m) then "MintRecord rejected: sourceBlockHash is empty."
  else if timestamp m <=? 0 then "MintRecord rejected: timestamp must be positive."
  else "".

Definition isValid (m : t) : bool := empty_string (rejectionReason m).
End MintRecord.
Abbreviation MintRecord := MintRecord.t.

Inductive GenesisRewardReason :=
| REASON_UNKNOWN | NETWORK_PROTECTION | BOOTSTRAP_PROTECTION | STORAGE_PROTECTION
| CHALLENGE_RESPONSE.

#[global] Instance GenesisRewardReason_eq_dec : EqDecision GenesisRewardReason.
Proof. solve_decision. Defined.

Definition genesisRewardReasonToString (reason : GenesisRewardReason) : string :=
  match reason with
  | NETWORK_PROTECTION => "NETWORK_PROTECTION"
  | BOOTSTRAP_PROTECTION => "BOOTSTRAP_PROTECTION"
  | STORAGE_PROTECTION => "STORAGE_PROTECTION"
  | CHALLENGE_RESPONSE => "CHALLENGE_RESPONSE"
  | REASON_UNKNOWN => "UNKNOWN"
  end.

Module GenesisReward.
Record t := mk {
  epoch : Z;
  validatorAddress : string;
  amount : Amount;
  reason : GenesisRewardReason;
  workSummaryHash : string;
  policyVersion : string;
  acceptedBlockHash : string;
  timestamp : Z;
}.

Definition isValid (g : t) : bool :=
  if epoch g =? 0 then false
  else if empty_string (validatorAddress g) then false
  else if negb (Amount.isPositive (amount g)) then false
  else if bool_decide (reason g = REASON_UNKNOWN) then false
  else if empty_string (workSummaryHash g) then false
  else if empty_string (policyVersion g) then false
  else if empty_string (acceptedBlockHash g) then false
  else if timestamp g <=? 0 then false
  else true.

Definition serialize (g : t) : string :=
  "GenesisRewardRecord{epoch=" +:+ to_string (epoch g) +:+
  ";validator=" +:+ validatorAddress g +:+
  ";amountRaw=" +:+ to_string (amount g) +:+
  ";reason=" +:+ genesisRewardReasonToString (reason g) +:+
  ";workSummaryHash=" +:+ workSummaryHash g +:+
  ";policyVersion=" +:+ policyVersion g +:+
  ";acceptedBlockHash=" +:+ acceptedBlockHash g +:+
  ";timestamp=" +:+ to_string (timestamp g) +:+ "}".

Definition deterministicId `{Sha256} (g : t) : result string :=
  throw_if (negb (isValid g)) (logic_error "Invalid GenesisRewardRecord has no deterministic id.");;
  Ok (Hash.hashCString ("NODO_GENESIS_REWARD_RECORD_V1|" +:+ serialize g)).

Definition createRewardCoinLot `{Sha256} (g : t) (createdAtBlock : Z) : result CoinLot :=
  throw_if (negb (isValid g))
    (logic_error "Invalid GenesisRewardRecord cannot create a coin lot.");;
  rewardId ← deterministicId g;
  Ok (CoinLot.mk ("reward_lot_" +:+ rewardId) rewardId (validatorAddress g) (amount g)
        AVAILABLE createdAtBlock 0 (timestamp g)).
End GenesisReward.
Abbreviation GenesisRewardRecord := GenesisReward.t.

(** ** Security weight of locked lots *)

Module SecurityWeight.
Definition lockDurationMultiplier (currentBlock lockedUntilBlock : Z) : Z :=
  if lockedUntilBlock <=? currentBlock then 1
  else
    let remainingBlocks := lockedUntilBlock - currentBlock in
    if 500 <=? remainingBlocks then 3
    else if 100 <=? remainingBlocks then 2
    else 1.

(** The product is computed in 128 bits and the quotient saturates. *)
Definition calculateForCoinLot (l : CoinLot) (currentBlock : Z) : Z :=
  if negb (CoinLot.isLockedForSecurity l) then 0
  else
    let multiplier := lockDurationMultiplier currentBlock (CoinLot.lockedUntilBlock l) in
    let product := CoinLot.amount l * multiplier in
    let q := Z.quot product Amount.UNITS_PER_NODO in
    if u64_max <? q then u64_max else q.
End SecurityWeight.

(** ** The state *)

Module State.

Record t := mk {
  currentBlockIndex : Z;
  totalSupply : Amount;
  accounts : list Account;
  mintRecords : list MintRecord;
  genesisRewardRecords : list GenesisRewardRecord;
  coinLots : list CoinLot;
  appliedTransactionIds : list string;
}.

Definition init : t := mk 0 0 [] [] [] [] [].

(** Assignments to the members. *)
Definition set_block (v : Z) (s : t) : t :=
  mk v (totalSupply s) (accounts s) (mintRecords s) (genesisRewardRecords s) (coinLots s)
     (appliedTransactionIds s).
Definition set_supply (v : Amount) (s : t) : t :=
  mk (currentBlockIndex s) v (accounts s) (mintRecords s) (genesisRewardRecords s) (coinLots s)
     (appliedTransactionIds s).
Definition set_accounts (v : list Account) (s : t) : t :=
  mk (currentBlockIndex s) (totalSupply s) v (mintRecords s) (genesisRewardRecords s) (coinLots s)
     (appliedTransactionIds s).
Definition set_mints (v : list MintRecord) (s : t) : t :=
  mk (currentBlockIndex s) (totalSupply s) (accounts s) v (genesisRewardRecords s) (coinLots s)
     (appliedTransactionIds s).
Definition set_rewards (v : list GenesisRewardRecord) (s : t) : t :=
  mk (currentBlockIndex s) (totalSupply s) (accounts s) (mintRecords s) v (coinLots s)
     (appliedTransactionIds s).
Definition set_lots (v : list CoinLot) (s : t) : t :=
  mk (currentBlockIndex s) (totalSupply s) (accounts s) (mintRecords s) (genesisRewardRecords s) v
     (appliedTransactionIds s).
Definition set_applied (v : list string) (s : t) : t :=
  mk (currentBlockIndex s) (totalSupply s) (accounts s) (mintRecords s) (genesisRewardRecords s)
     (coinLots s) v.

Section state.
Context `{Sha256}.

Definition findAccount (s : t) (address : string) : option Account :=
  find (λ a, String.eqb (Account.address a) address) (accounts s).

Definition hasAccount (s : t) (address : string) : bool :=
  bool_decide (is_Some (findAccount s address)).

Definition nextNonceOf (s : t) (address : string) : result Z :=
  match findAccount s address with
  | None => Throw (invalid_argument "Account not found.")
  | Some a => Ok (Account.nextNonce a)
  end.

Definition coinLotRegistry (s : t) : result CoinLotRegistry := Registry.fromCoinLots (coinLots s).

Definition balanceOf (s : t) (ownerAddress : string) : result Amount :=
  foldR (λ balance l,
    if negb (String.eqb (CoinLot.ownerAddress l) ownerAddress) then Ok balance
    else if CoinLot.isAvailable l || CoinLot.isLockedForSecurity l
    then Amount.add balance (CoinLot.amount l)
    else Ok balance) 0 (coinLots s).

Definition accountStateView (s : t) : result AccountStateView.t :=
  foldR (λ view a,
    balance ← balanceOf s (Account.address a);
    let '(ok, view') := AccountStateView.putAccount
      (AccountState.mk (Account.address a) balance (Account.nextNonce a)) view in
    throw_if (negb ok) (logic_error "State produced invalid AccountStateView.");;
    Ok view') ∅ (accounts s).

Definition totalSecurityWeight (s : t) : Z :=
  foldl (λ total l,
    wrap64 (total + SecurityWeight.calculateForCoinLot l (currentBlockIndex s))) 0 (coinLots s).

Definition isTransactionAlreadyApplied (s : t) (transactionId : string) : bool :=
  existsb (λ i, String.eqb i transactionId) (appliedTransactionIds s).

Definition hasLegacyMintRecord (s : t) (mintRecordId : string) : bool :=
  existsb (λ m, String.eqb (MintRecord.id m) mintRecordId) (mintRecords s).

(** The loop calls [deterministicId] on each record until one matches. *)
Fixpoint anyRewardId (rewards : list GenesisRewardRecord) (rewardId : string) : result bool :=
  match rewards with
  | [] => Ok false
  | g :: rewards =>
      i ← GenesisReward.deterministicId g;
      if String.eqb i rewardId then Ok true else anyRewardId rewards rewardId
  end.
Definition hasGenesisRewardRecord (s : t) (rewardId : string) : result bool :=
  anyRewardId (genesisRewardRecords s) rewardId.

Definition createCoinLotIdFromMint (m : MintRecord) : string :=
  "coinlot_from_" +:+ MintRecord.id m.

Definition advanceBlock : M t unit := λ s,
  let block := wrap64 (currentBlockIndex s + 1) in
  (Ok tt, set_lots ((λ l, (CoinLot.unlockIfMature block l).2) <$> coinLots s) (set_block block s)).

Definition ensureAccountExists (address : string) : M t unit := λ s,
  if empty_string address then
    (Throw (invalid_argument "Account address cannot be empty."), s)
  else match findAccount s address with
    | Some _ => (Ok tt, s)
    | None =>
        let account := Account.create address (currentBlockIndex s) in
        if negb (Account.isValid account) then
          (Throw (logic_error "Generated Account is invalid."), s)
        else (Ok tt, set_accounts (accounts s ++ [account]) s)
    end.

Definition replaceCoinLotsFromRegistry (r : CoinLotRegistry) : M t unit := λ s,
  if negb (Registry.isValid r) then
    (Throw (invalid_argument "Cannot replace State CoinLots from invalid registry."), s)
  else (Ok tt, set_lots (entries r).*2 s).

(** [registry = coinLotRegistry(); registry.addLot(lot); replaceCoinLotsFromRegistry(registry);] *)
Definition addLotThroughRegistry (l : CoinLot) : M t unit :=
  registry ← getsR coinLotRegistry;
  registry' ← lift (on_local (Registry.addLot l) registry);
  replaceCoinLotsFromRegistry registry'.

(** [m_totalSupply = m_totalSupply + amount] *)
Definition addSupply (amount : Amount) : M t unit :=
  supply ← getsR (λ s, Amount.add (totalSupply s) amount);
  modify (set_supply supply).

Definition mintLot (m : MintRecord) (block : Z) : CoinLot :=
  CoinLot.mk (createCoinLotIdFromMint m) (MintRecord.id m) (MintRecord.recipientAddress m)
    (MintRecord.amount m) AVAILABLE block 0 (MintRecord.timestamp m).

Definition applyMintRecord (m : MintRecord) : M t unit :=
  lift (throw_if (negb (MintRecord.isValid m))
    (invalid_argument "Invalid MintRecord rejected by State."));;
  getsR (λ s, throw_if (hasLegacyMintRecord s (MintRecord.id m))
    (logic_error "Duplicated MintRecord id rejected."));;
  block ← gets currentBlockIndex;
  let coinLot := mintLot m block in
  lift (throw_if (negb (CoinLot.isValid coinLot))
    (logic_error "Generated legacy mint CoinLot is invalid."));;
  ensureAccountExists (MintRecord.recipientAddress m);;
  addLotThroughRegistry coinLot;;
  modify (λ s, set_mints (mintRecords s ++ [m]) s);;
  addSupply (MintRecord.amount m).

Definition applyGenesisRewardRecord (g : GenesisRewardRecord) : M t unit :=
  lift (throw_if (negb (GenesisReward.isValid g))
    (invalid_argument "Invalid GenesisRewardRecord rejected by State."));;
  rewardId ← lift (GenesisReward.deterministicId g);
  known ← getsR (λ s, hasGenesisRewardRecord s rewardId);
  lift (throw_if known (logic_error "Duplicated GenesisRewardRecord id rejected."));;
  rewardLot ← getsR (λ s, GenesisReward.createRewardCoinLot g (currentBlockIndex s));
  lift (throw_if (negb (CoinLot.isValid rewardLot))
    (logic_error "Generated GenesisReward CoinLot is invalid."));;
  lift (throw_if (negb (String.eqb (CoinLot.originMintRecordId rewardLot) rewardId))
    (logic_error "Generated GenesisReward CoinLot origin mismatch."));;
  ensureAccountExists (GenesisReward.validatorAddress g);;
  addLotThroughRegistry rewardLot;;
  modify (λ s, set_rewards (genesisRewardRecords s ++ [g]) s);;
  addSupply (GenesisReward.amount g).

(** [account->markTransactionApplied(nonce, block)] on the first account with
    the address. *)
Fixpoint updateAccount (address : string) (f : M Account unit) (l : list Account)
    : option (result unit * list Account) :=
  match l with
  | [] => None
  | a :: l =>
      if String.eqb (Account.address a) address then
        let '(res, a') := f a in Some (res, a' :: l)
      else match updateAccount address f l with
        | Some (res, l') => Some (res, a :: l')
        | None => None
        end
  end.

Definition markSenderApplied (address : string) (nonce : Z) : M t unit := λ s,
  match updateAccount address (Account.markTransactionApplied nonce (currentBlockIndex s))
          (accounts s) with
  | None => (Throw (logic_error "Sender account disappeared during transfer application."), s)
  | Some (res, l) => (res, set_accounts l s)
  end.

(** The guards of [applyTransferTransactionUsingRegistry]. *)
Definition transferGuards (tx : Transaction) (s : t) : result unit :=
  throw_if (negb (bool_decide (Transaction.type tx = TRANSFER)))
    (invalid_argument "Only TRANSFER transactions can be applied by this method.");;
  throw_if (empty_string (Transaction.id tx))
    (invalid_argument "Transaction id cannot be empty.");;
  throw_if (empty_string (Transaction.fromAddress tx) || empty_string (Transaction.toAddress tx))
    (invalid_argument "Transfer addresses cannot be empty.");;
  throw_if (String.eqb (Transaction.fromAddress tx) (Transaction.toAddress tx))
    (invalid_argument "Transfer sender and recipient cannot be the same.");;
  throw_if (negb (Amount.isPositive (Transaction.amount tx)))
    (invalid_argument "Transfer amount must be positive.");;
  throw_if (Amount.isNegative (Transaction.fee tx))
    (invalid_argument "Transfer fee cannot be negative.");;
  throw_if (Transaction.nonce tx =? 0) (invalid_argument "Transfer nonce must be positive.");;
  throw_if (isTransactionAlreadyApplied s (Transaction.id tx))
    (logic_error "Duplicate transaction application rejected.");;
  match findAccount s (Transaction.fromAddress tx) with
  | None => Throw (logic_error "Sender account does not exist.")
  | Some sender =>
      throw_if (negb (Account.canApplyNonce sender (Transaction.nonce tx)))
        (logic_error "Invalid sender nonce rejected.")
  end.

Definition applyTransferTransactionUsingRegistry (tx : Transaction) : M t unit :=
  getsR (transferGuards tx);;
  registry ← getsR coinLotRegistry;
  validation ← lift (TransferValidator.validateTransferTransaction tx registry);
  lift (throw_if (negb (validation_success validation))
    (logic_error ("Transfer rejected by CoinLotRegistry: " +:+ validation_reason validation)));;
  block ← gets currentBlockIndex;
  registry' ← lift (on_local (TransferValidator.applyTransfer tx block) registry);
  ensureAccountExists (Transaction.toAddress tx);;
  (if Amount.isPositive (Transaction.fee tx) then ensureAccountExists feePoolAddress else mret tt);;
  markSenderApplied (Transaction.fromAddress tx) (Transaction.nonce tx);;
  replaceCoinLotsFromRegistry registry';;
  modify (λ s, set_applied (appliedTransactionIds s ++ [Transaction.id tx]) s).

Definition applyTransferTransaction (tx : Transaction) : M t unit :=
  applyTransferTransactionUsingRegistry tx.

Definition lockCoinLotForSecurity (coinLotId : string) (lockedUntilBlock : Z) : M t unit :=
  registry ← getsR coinLotRegistry;
  targetLot ← lift (Registry.lot registry coinLotId);
  registry' ← lift (on_local
    (Registry.lockForSecurity coinLotId (CoinLot.ownerAddress targetLot) lockedUntilBlock) registry);
  replaceCoinLotsFromRegistry registry'.

(** [for (x : l) { if (!valid(x)) return false; total = total + amount(x); }]:
    [None] is the early [return false]. *)
Fixpoint auditSum {A} (valid : A → bool) (counted : A → bool) (amount : A → Amount)
    (total : Amount) (l : list A) : result (option Amount) :=
  match l with
  | [] => Ok (Some total)
  | x :: l =>
      if negb (valid x) then Ok None
      else if counted x then
        total' ← Amount.add total (amount x); auditSum valid counted amount total' l
      else auditSum valid counted amount total l
  end.

Definition isSupplyAuditable (s : t) : result bool :=
  minted ← auditSum MintRecord.isValid (λ _, true) MintRecord.amount 0 (mintRecords s);
  match minted with
  | None => Ok false
  | Some minted =>
      created ← auditSum GenesisReward.isValid (λ _, true) GenesisReward.amount minted
                  (genesisRewardRecords s);
      match created with
      | None => Ok false
      | Some created =>
          if negb (created =? totalSupply s) then Ok false
          else if negb (forallb Account.isValid (accounts s)) then Ok false
          else
            active ← auditSum CoinLot.isValid
              (λ l, CoinLot.isAvailable l || CoinLot.isLockedForSecurity l)
              CoinLot.amount 0 (coinLots s);
            match active with
            | None => Ok false
            | Some active => Ok (active =? totalSupply s)
            end
      end
  end.
End state.
End State.

(** ** Lemmas on the state *)

Module StateFacts.
Import LotFacts RegistryFacts TransferFacts.

(** Lots with pairwise distinct ids, all well formed. *)
Definition lots_ok (lots : list CoinLot) : Prop :=
  (∀ l, l ∈ lots → CoinLot.isValid l = true) ∧ NoDup (CoinLot.id <$> lots).

Lemma registry_of_lots lots : lots_ok lots →
  ∃ r, Registry.fromCoinLots lots = Ok r ∧ wf r ∧ ∀ f, map_sum f r = sum_by f lots.
Proof.
  intros [Hv Hnd]. assert (addable ∅ lots) as Ha by (split; [intros l Hl; split; [auto|apply lookup_empty]|done]).
  exists (add_lots lots ∅). split_and!.
  - unfold Registry.fromCoinLots. apply on_local_Ok. exists tt. by apply add_all_Ok.
  - apply add_lots_wf; [apply wf_empty|done].
  - intros f. rewrite add_lots_sum, map_sum_empty by done. lia.
Qed.

Lemma lots_of_registry r : wf r →
  lots_ok (entries r).*2 ∧ ∀ f, sum_by f (entries r).*2 = map_sum f r.
Proof.
  intros Hwf. destruct (entries_values_ids r Hwf) as [Hnd Hall]. split.
  - split; [by intros l [_ ?]%Hall|done].
  - intros f. rewrite sum_by_fmap. apply map_sum_entries.
Qed.

(** What the state says about money: the recorded supply and what each
    address holds. *)
Record money := { supply : Z; holds : string → Z }.

Definition money_of (s : State.t) : money :=
  {| supply := State.totalSupply s; holds := λ a, sum_by (held a) (State.coinLots s) |}.

#[global] Instance money_equiv : Equiv money := λ m m',
  supply m = supply m' ∧ ∀ a, holds m a = holds m' a.
#[global] Instance money_equivalence : Equivalence (≡@{money}).
Proof.
  split; [by intros m|by intros m m' [? H]; split; [|intros a; rewrite H]|].
  intros m1 m2 m3 [E1 H1] [E2 H2]. split; [congruence|]. intros a. by rewrite H1.
Qed.

(** Well-formed accounts, with a 64-bit nonce. *)
Definition accounts_ok (l : list Account) : Prop :=
  ∀ a, a ∈ l → Account.isValid a = true ∧ u64 (Account.nextNonce a).

(** The invariant behind [isSupplyAuditable]. *)
Record audited (s : State.t) : Prop := {
  au_mints : ∀ m, m ∈ State.mintRecords s → MintRecord.isValid m = true;
  au_rewards : ∀ g, g ∈ State.genesisRewardRecords s → GenesisReward.isValid g = true;
  au_accounts : accounts_ok (State.accounts s);
  au_lots : lots_ok (State.coinLots s);
  au_created : sum_by MintRecord.amount (State.mintRecords s) +
               sum_by GenesisReward.amount (State.genesisRewardRecords s) = State.totalSupply s;
  au_active : sum_by active_amount (State.coinLots s) = State.totalSupply s;
  au_supply : State.totalSupply s ≤ i64_max;
}.

Lemma audited_init : audited State.init.
Proof.
  split; simpl; try by intros ? ?%elem_of_nil.
  - split; [by intros ? ?%elem_of_nil|constructor].
  - done.
  - done.
  - unfold i64_max; lia.
Qed.

Lemma MintRecord_isValid m : MintRecord.isValid m = true →
  MintRecord.id m ≠ "" ∧ MintRecord.recipientAddress m ≠ "" ∧ 0 < MintRecord.amount m ∧
  0 < MintRecord.timestamp m.
Proof.
  unfold MintRecord.isValid, MintRecord.rejectionReason, Amount.isPositive.
  repeat match goal with |- context [if ?b then _ else _] => destruct b eqn:? end; try done.
  intros _. inv_ok. repeat match goal with E : empty_string _ = false |- _ => apply empty_string_false in E end.
  split_and!; try done; lia.
Qed.

Lemma GenesisReward_isValid g : GenesisReward.isValid g = true → 0 < GenesisReward.amount g.
Proof.
  unfold GenesisReward.isValid, Amount.isPositive. intros H.
  repeat match type of H with (if ?b then _ else _) = _ => destruct b eqn:?; try discriminate H end.
  inv_ok. lia.
Qed.

Lemma active_nonneg l : CoinLot.isValid l = true → 0 ≤ active_amount l.
Proof. intros Hv%isValid_true. unfold active_amount. case_match; intuition lia. Qed.

(** The audit loops compute sums when every item is valid and the sum fits. *)
Lemma auditSum_Ok {A} (valid counted : A → bool) (amount : A → Z) total l :
  (∀ x, x ∈ l → valid x = true ∧ 0 ≤ amount x) → 0 ≤ total →
  total + sum_by (λ x, if counted x then amount x else 0) l ≤ i64_max →
  State.auditSum valid counted amount total l =
  Ok (Some (total + sum_by (λ x, if counted x then amount x else 0) l)).
Proof.
  revert total. induction l as [|x l IH]; intros total Hall Ht Hs; simpl in *; [do 2 f_equal; lia|].
  destruct (Hall x) as [-> Hx]; [elem|]. simpl.
  assert (0 ≤ sum_by (λ x, if counted x then amount x else 0) l).
  { apply sum_by_nonneg. intros y Hy. destruct (counted y); [|lia]. apply Hall. elem. }
  destruct (counted x).
  - rewrite Amount.add_wf by (unfold Amount.wf; lia).
    replace (total + amount x <=? i64_max) with true by lia. simpl.
    rewrite IH by (try lia; intros; apply Hall; elem). do 2 f_equal. lia.
  - rewrite IH by (try lia; intros; apply Hall; elem). do 2 f_equal.
Qed.

Lemma auditSum_all {A} (valid : A → bool) (amount : A → Z) total l :
  (∀ x, x ∈ l → valid x = true ∧ 0 ≤ amount x) → 0 ≤ total → total + sum_by amount l ≤ i64_max →
  State.auditSum valid (λ _, true) amount total l = Ok (Some (total + sum_by amount l)).
Proof. exact (auditSum_Ok valid (λ _, true) amount total l). Qed.

Lemma auditSum_active lots :
  (∀ l, l ∈ lots → CoinLot.isValid l = true) → sum_by active_amount lots ≤ i64_max →
  State.auditSum CoinLot.isValid (λ l, CoinLot.isAvailable l || CoinLot.isLockedForSecurity l)
    CoinLot.amount 0 lots = Ok (Some (sum_by active_amount lots)).
Proof.
  intros Hv Hs. refine (auditSum_Ok CoinLot.isValid _ CoinLot.amount 0 lots _ _ _); [|done|exact Hs].
  intros l Hl. split; [auto|]. apply Hv, isValid_true in Hl. intuition lia.
Qed.

Lemma audited_isSupplyAuditable s : audited s → State.isSupplyAuditable s = Ok true.
Proof.
  intros [Hm Hg Ha [Hv Hnd] Hc Hact Hsup]. unfold State.isSupplyAuditable.
  assert (∀ m, m ∈ State.mintRecords s → MintRecord.isValid m = true ∧ 0 ≤ MintRecord.amount m) as Hm'.
  { intros m Hin. split; [auto|]. apply Hm, MintRecord_isValid in Hin. lia. }
  assert (∀ g, g ∈ State.genesisRewardRecords s →
            GenesisReward.isValid g = true ∧ 0 ≤ GenesisReward.amount g) as Hg'.
  { intros g Hin. split; [auto|]. apply Hg, GenesisReward_isValid in Hin. lia. }
  assert (0 ≤ sum_by MintRecord.amount (State.mintRecords s)) by (apply sum_by_nonneg; intros; by apply Hm').
  assert (0 ≤ sum_by GenesisReward.amount (State.genesisRewardRecords s))
    by (apply sum_by_nonneg; intros; by apply Hg').
  rewrite auditSum_all, Z.add_0_l by (done || lia). simpl. rewrite auditSum_all, Hc by (done || lia). simpl.
  rewrite Z.eqb_refl. simpl.
  assert (forallb Account.isValid (State.accounts s) = true) as ->.
  { apply forallb_forall. intros a Hin. by apply Ha, list_elem_of_In. }
  simpl. rewrite auditSum_active, Hact by (done || lia). simpl. by rewrite Z.eqb_refl.
Qed.

(** ** Steps that touch accounts only *)

Record quiet (s s' : State.t) : Prop := {
  q_block : State.currentBlockIndex s' = State.currentBlockIndex s;
  q_supply : State.totalSupply s' = State.totalSupply s;
  q_mints : State.mintRecords s' = State.mintRecords s;
  q_rewards : State.genesisRewardRecords s' = State.genesisRewardRecords s;
  q_lots : State.coinLots s' = State.coinLots s;
  q_applied : State.appliedTransactionIds s' = State.appliedTransactionIds s;
  q_accounts : accounts_ok (State.accounts s) → accounts_ok (State.accounts s');
}.

#[global] Instance quiet_preorder : PreOrder quiet.
Proof. split; [by intros s; split|]. intros s1 s2 s3 [] []; split; try congruence; auto. Qed.

Lemma quiet_audited s s' : quiet s s' → audited s → audited s'.
Proof. intros [? Es Em Er El ? Ha] []; split; rewrite ?Es, ?Em, ?Er, ?El; auto. Qed.

Lemma quiet_money s s' : quiet s s' → money_of s' ≡ money_of s.
Proof. intros [? Es ? ? El ? ?]. split; simpl; [done|]. intros a. by rewrite El. Qed.

Lemma ensureAccountExists_quiet a : within quiet (State.ensureAccountExists a).
Proof.
  intros s. unfold State.ensureAccountExists. destruct (empty_string a) eqn:Ea; [done|].
  destruct (State.findAccount s a); [done|].
  destruct (Account.isValid _) eqn:Hv; simpl; [|done]. split; simpl; try done.
  intros Hok x [?| ->%list_elem_of_singleton]%elem_of_app; [auto|].
  split; [done|]. simpl. unfold u64, u64_max. lia.
Qed.

Lemma updateAccount_elem a f l res l' :
  State.updateAccount a f l = Some (res, l') →
  ∀ x, x ∈ l' → x ∈ l ∨ ∃ y, y ∈ l ∧ x = (f y).2.
Proof.
  revert l'. induction l as [|y l IH]; intros l'; simpl; [done|].
  destruct (String.eqb _ _).
  - destruct (f y) as [r y'] eqn:E. intros [= <- <-] x [->|Hx]%elem_of_cons.
    + right. exists y. rewrite E. split; [elem|done].
    + left. elem.
  - destruct (State.updateAccount a f l) as [[r l1]|]; [|done].
    intros [= <- <-] x [->|Hx]%elem_of_cons; [left; elem|].
    destruct (IH l1 eq_refl x Hx) as [?|(z & ? & ->)]; [left; elem|]. right. exists z. split; [elem|done].
Qed.

Lemma markTransactionApplied_ok n b a :
  Account.isValid a = true ∧ u64 (Account.nextNonce a) →
  Account.isValid (Account.markTransactionApplied n b a).2 = true ∧
  u64 (Account.nextNonce (Account.markTransactionApplied n b a).2).
Proof.
  intros [Hv Hn]. unfold Account.markTransactionApplied.
  destruct (negb (Account.canApplyNonce a n)); [done|].
  destruct (Account.nextNonce a =? u64_max) eqn:E1; [done|].
  destruct (b <? Account.lastUpdatedAtBlock a) eqn:E2; [done|]. simpl. revert Hv. unfold Account.isValid. simpl.
  unfold u64 in *. destruct (empty_string _); [done|]. destruct (Account.nextNonce a =? 0); [done|].
  destruct (Account.lastUpdatedAtBlock a <? _) eqn:E3; [done|]. intros _.
  replace (Account.nextNonce a + 1 =? 0) with false by lia.
  replace (b <? Account.createdAtBlock a) with false by lia. split; [done|lia].
Qed.

Lemma markSenderApplied_quiet a n : within quiet (State.markSenderApplied a n).
Proof.
  intros s. unfold State.markSenderApplied.
  destruct (State.updateAccount _ _ _) as [[res l]|] eqn:E; [|done]. split; simpl; try done.
  intros Hok x [?|(y & Hy & ->)]%(updateAccount_elem _ _ _ _ _ E); [auto|].
  apply markTransactionApplied_ok. auto.
Qed.

(** ** Steps that replace the lots *)

Lemma replaceCoinLots_Ok r s : wf r →
  State.replaceCoinLotsFromRegistry r s = (Ok tt, State.set_lots (entries r).*2 s).
Proof. intros Hwf. unfold State.replaceCoinLotsFromRegistry. by rewrite (proj2 (registry_isValid_wf r) Hwf). Qed.

Lemma addLotThroughRegistry_cases l s : lots_ok (State.coinLots s) →
  (∃ e, State.addLotThroughRegistry l s = (Throw e, s)) ∨
  (∃ ls, State.addLotThroughRegistry l s = (Ok tt, State.set_lots ls s) ∧ lots_ok ls ∧
         ∀ f, sum_by f ls = f l + sum_by f (State.coinLots s)).
Proof.
  intros Hok. destruct (registry_of_lots _ Hok) as (r & Er & Hwf & Hsum).
  unfold State.addLotThroughRegistry.
  erewrite M_run_Ok by (unfold getsR, State.coinLotRegistry; by rewrite Er).
  destruct (Registry.addLot l r) as [[[]|e] r'] eqn:Ea.
  2: { left. exists e. erewrite M_run_Throw; [done|]. unfold lift, on_local. by rewrite Ea. }
  right. erewrite M_run_Ok by (unfold lift, on_local; by rewrite Ea).
  pose proof (addLot_wf l r) as Hk. rewrite Ea in Hk. simpl in Hk. specialize (Hk Hwf).
  apply addLot_Ok in Ea as (_ & Hn & ->). destruct (lots_of_registry _ Hk) as [Hok' Hsum'].
  eexists. split; [by apply replaceCoinLots_Ok|]. split; [done|].
  intros f. by rewrite Hsum', map_sum_insert, Hsum.
Qed.

Lemma addSupply_Ok x s : 0 ≤ State.totalSupply s → 0 ≤ x → State.totalSupply s + x ≤ i64_max →
  State.addSupply x s = (Ok tt, State.set_supply (State.totalSupply s + x) s).
Proof.
  intros Hs Hx Hb. unfold State.addSupply. erewrite M_run_Ok; [done|]. unfold getsR.
  rewrite Amount.add_wf by (unfold Amount.wf; lia).
  by replace (State.totalSupply s + x <=? i64_max) with true by lia.
Qed.

Lemma addSupply_Throw x s : 0 ≤ State.totalSupply s ≤ i64_max → 0 < x → i64_max < State.totalSupply s + x →
  State.addSupply x s = (Throw (overflow_error "Amount addition overflow."), s).
Proof.
  intros Hs Hx Hb. unfold State.addSupply, mbind, M_bind, getsR, Amount.add.
  replace (0 <? x) with true by lia. replace (i64_max - x <? State.totalSupply s) with true by lia. reflexivity.
Qed.

Lemma audited_supply_nonneg s : audited s → 0 ≤ State.totalSupply s.
Proof.
  intros [_ _ _ [Hv _] _ <- _]. apply sum_by_nonneg. intros l Hl. apply active_nonneg. auto.
Qed.

(** ** Creation of coins *)

Definition minted (owner : string) (x : Z) (m : money) : money :=
  {| supply := supply m + x; holds := λ a, holds m a + credit owner a x |}.

#[global] Instance minted_proper owner x : Proper ((≡) ==> (≡)) (minted owner x).
Proof. intros m m' [Hs Hh]. split; simpl; [congruence|]. intros a. by rewrite Hh. Qed.

Definition unchanged (s s' : State.t) : Prop := audited s' ∧ money_of s' ≡ money_of s.
Definition created (owner : string) (x : Z) (s s' : State.t) : Prop :=
  audited s' ∧ money_of s' ≡ minted owner x (money_of s).

(** What a creation leaves behind when its supply overflows: the coins are held, the
    total supply does not count them. *)
Definition stranded (owner : string) (x : Z) (s s' : State.t) : Prop :=
  i64_max < State.totalSupply s + x ∧
  money_of s' ≡ {| supply := supply (money_of s); holds := holds (minted owner x (money_of s)) |}.

(** Pushing a record that accounts for [x] new raw units. *)
Record records (x : Z) (push : State.t → State.t) : Prop := {
  rec_lots s : State.coinLots (push s) = State.coinLots s;
  rec_supply s : State.totalSupply (push s) = State.totalSupply s;
  rec_accounts s : State.accounts (push s) = State.accounts s;
  rec_created s : sum_by MintRecord.amount (State.mintRecords (push s)) +
                  sum_by GenesisReward.amount (State.genesisRewardRecords (push s)) =
                  sum_by MintRecord.amount (State.mintRecords s) +
                  sum_by GenesisReward.amount (State.genesisRewardRecords s) + x;
  rec_mints s : (∀ m, m ∈ State.mintRecords s → MintRecord.isValid m = true) →
                ∀ m, m ∈ State.mintRecords (push s) → MintRecord.isValid m = true;
  rec_rewards s : (∀ g, g ∈ State.genesisRewardRecords s → GenesisReward.isValid g = true) →
                  ∀ g, g ∈ State.genesisRewardRecords (push s) → GenesisReward.isValid g = true;
}.

Lemma records_mint m : MintRecord.isValid m = true →
  records (MintRecord.amount m) (λ s, State.set_mints (State.mintRecords s ++ [m]) s).
Proof.
  intros Hv. split; intros s; simpl; try done.
  - rewrite sum_by_app. simpl. lia.
  - intros Hall m' [?| ->%list_elem_of_singleton]%elem_of_app; auto.
Qed.

Lemma records_reward g : GenesisReward.isValid g = true →
  records (GenesisReward.amount g)
    (λ s, State.set_rewards (State.genesisRewardRecords s ++ [g]) s).
Proof.
  intros Hv. split; intros s; simpl; try done.
  - rewrite sum_by_app. simpl. lia.
  - intros Hall g' [?| ->%list_elem_of_singleton]%elem_of_app; auto.
Qed.

Lemma creation_tail push l s :
  audited s → records (CoinLot.amount l) push → CoinLot.status l = AVAILABLE →
  0 < CoinLot.amount l →
  ends ((State.addLotThroughRegistry l;; modify push;; State.addSupply (CoinLot.amount l)) s)
    (created (CoinLot.ownerAddress l) (CoinLot.amount l) s)
    (λ s', unchanged s s' ∨ stranded (CoinLot.ownerAddress l) (CoinLot.amount l) s s').
Proof.
  intros Hau Hrec Hst Hpos. pose proof (audited_supply_nonneg s Hau) as Hnn.
  destruct Hau as [Hm Hg Ha Hok Hc Hact Hsup] eqn:Eau. clear Eau.
  destruct (addLotThroughRegistry_cases l s Hok) as [[e E]|(ls & E & Hls & Hsum)].
  { erewrite M_run_Throw by done. left. split; [done|reflexivity]. }
  erewrite M_run_Ok by done. erewrite M_run_Ok by reflexivity.
  destruct Hrec as [R1 R2 R3 R4 R5 R6].
  destruct (Z_le_gt_dec (State.totalSupply s + CoinLot.amount l) i64_max) as [Hfit|Hbig].
  2: { rewrite addSupply_Throw by (rewrite ?R2; simpl; lia). right. split; [lia|]. split; simpl; rewrite ?R1, ?R2; simpl; [done|].
    intros a. rewrite Hsum, held_available by done. lia. }
  rewrite addSupply_Ok by (rewrite ?R2; simpl; lia). rewrite R2.
  split; [split|split]; simpl; rewrite ?R1, ?R2, ?R3; simpl.
  - apply R5, Hm.
  - apply R6, Hg.
  - done.
  - done.
  - rewrite R4. simpl. lia.
  - rewrite Hsum, active_amount_available by done. lia.
  - lia.
  - done.
  - intros a. rewrite Hsum, held_available by done. lia.
Qed.

Lemma ends_mono {A} (out : result A * State.t) (P P' Q Q' : State.t → Prop) :
  ends out P Q → (∀ s, P s → P' s) → (∀ s, Q s → Q' s) → ends out P' Q'.
Proof. destruct out as [[a|e] s]; simpl; auto. Qed.

(** The tail after the account of the owner was created. *)
Lemma creation_with_account push owner l s :
  audited s → records (CoinLot.amount l) push → CoinLot.status l = AVAILABLE →
  CoinLot.ownerAddress l = owner → 0 < CoinLot.amount l →
  ends ((State.ensureAccountExists owner;; State.addLotThroughRegistry l;; modify push;;
         State.addSupply (CoinLot.amount l)) s)
    (created owner (CoinLot.amount l) s) (λ s', unchanged s s' ∨ stranded owner (CoinLot.amount l) s s').
Proof.
  intros Hau Hrec Hst <- Hpos.
  apply (ends_within _ _ quiet); [apply ensureAccountExists_quiet|..].
  - intros s1 Hq. left. split; [by eapply quiet_audited|by apply quiet_money].
  - intros _ s1 Hq. pose proof (quiet_money _ _ Hq) as Hmon. eapply ends_mono.
    + apply creation_tail; try done. by eapply quiet_audited.
    + intros s' [Hau' Hm]. split; [done|]. by rewrite Hm, Hmon.
    + intros s' [[Hau' Hm]|[Hbig [Hs Hh]]]; [left; split; [done|by rewrite Hm, Hmon]|right].
      split; [by rewrite <- (q_supply _ _ Hq)|]. destruct Hmon as [Es Eh]. split; simpl in *; [congruence|]. intros a. by rewrite Hh, Eh.
Qed.

(** ** Every operation of the state *)

Inductive op :=
| OpAdvance
| OpMint (m : MintRecord)
| OpReward (g : GenesisRewardRecord)
| OpTransfer (tx : Transaction)
| OpLockLot (coinLotId : string) (lockedUntilBlock : Z).

Definition run `{Sha256} (o : op) : M State.t unit :=
  match o with
  | OpAdvance => State.advanceBlock
  | OpMint m => State.applyMintRecord m
  | OpReward g => State.applyGenesisRewardRecord g
  | OpTransfer tx => State.applyTransferTransaction tx
  | OpLockLot i b => State.lockCoinLotForSecurity i b
  end.

(** The abstract ledger: what each operation does to the supply and to what
    the addresses hold. *)
Definition effect (o : op) (m : money) : money :=
  match o with
  | OpAdvance | OpLockLot _ _ => m
  | OpMint r => minted (MintRecord.recipientAddress r) (MintRecord.amount r) m
  | OpReward g => minted (GenesisReward.validatorAddress g) (GenesisReward.amount g) m
  | OpTransfer tx =>
      {| supply := supply m;
         holds := λ a,
           holds m a - credit (Transaction.fromAddress tx) a (Transaction.amount tx + Transaction.fee tx)
           + credit (Transaction.toAddress tx) a (Transaction.amount tx)
           + credit feePoolAddress a (Transaction.fee tx) |}
  end.

(** A creation of coins that keeps the total supply within an [int64]. *)
Definition fits (o : op) (s : State.t) : Prop :=
  match o with
  | OpMint r => State.totalSupply s + MintRecord.amount r ≤ i64_max
  | OpReward g => State.totalSupply s + GenesisReward.amount g ≤ i64_max
  | _ => True
  end.

Definition refines (o : op) (s s' : State.t) : Prop := audited s' ∧ money_of s' ≡ effect o (money_of s).

(** The state after an exception: unchanged, or with the coins of an overflowing
    creation held but not counted. *)
Definition failed (o : op) (s s' : State.t) : Prop :=
  unchanged s s' ∨ ¬ fits o s ∧ money_of s' ≡ {| supply := supply (money_of s); holds := holds (effect o (money_of s)) |}.

Lemma unlock_active b l : active_amount (CoinLot.unlockIfMature b l).2 = active_amount l.
Proof.
  destruct l as [? ? ? ? [] ? u ?]; try done. unfold CoinLot.unlockIfMature. simpl.
  by destruct (u <=? b).
Qed.

Lemma unlock_held b a l : held a (CoinLot.unlockIfMature b l).2 = held a l.
Proof. unfold held. by rewrite unlock_active, (ev_owner _ _ (method_evolves _ (lm_unlock b) l)). Qed.

(** A change of lots that keeps every id, validity and what is held. *)
Lemma set_lots_unchanged s ls :
  audited s → lots_ok ls → sum_by active_amount ls = sum_by active_amount (State.coinLots s) →
  (∀ a, sum_by (held a) ls = sum_by (held a) (State.coinLots s)) →
  unchanged s (State.set_lots ls s).
Proof. intros [] Hok Hact Hh. split; [split|split]; simpl; try done; congruence. Qed.

Lemma advance_refines `{Sha256} s : audited s → ends (State.advanceBlock s) (refines OpAdvance s) (unchanged s).
Proof.
  intros Hau. unfold State.advanceBlock, ends. set (b := wrap64 _).
  assert (unchanged s (State.set_lots ((λ l, (CoinLot.unlockIfMature b l).2) <$> State.coinLots s) s))
    as [[? ? ? ? ? ? ?] Hmon].
  { apply set_lots_unchanged; [done| |rewrite sum_by_fmap; apply sum_by_ext; intros; apply unlock_active|].
    - destruct (au_lots s Hau) as [Hv Hnd]. split.
      + intros l' (l & -> & Hl)%list_elem_of_fmap. by apply (method_valid _ (lm_unlock b) l), Hv.
      + rewrite <- list_fmap_compose. erewrite list_fmap_ext; [done|]. intros i l _. simpl.
        apply (ev_id _ _ (method_evolves _ (lm_unlock b) l)).
    - intros a. rewrite sum_by_fmap. apply sum_by_ext. intros. apply unlock_held. }
  split; [by split|done].
Qed.

Lemma lock_refines `{Sha256} i b s :
  audited s → ends (State.lockCoinLotForSecurity i b s) (refines (OpLockLot i b) s) (unchanged s).
Proof.
  intros Hau. assert (unchanged s s) as Hsame by (split; [done|reflexivity]).
  destruct (registry_of_lots _ (au_lots s Hau)) as (r & Er & Hwf & Hsum).
  unfold State.lockCoinLotForSecurity. apply ends_getsR; [done|]. intros r0 Er0.
  assert (r0 = r) as -> by (unfold State.coinLotRegistry in Er0; congruence).
  apply ends_lift; [done|]. intros l Hl. apply ends_lift; [done|]. intros r' Hr'.
  unfold Registry.lot in Hl. destruct (r !! i) as [l0|] eqn:El; inv_ok.
  apply on_local_Ok in Hr' as [[] Hr']. unfold Registry.lockForSecurity in Hr'.
  apply M_bind_Ok in Hr' as ([] & r1 & [-> (l1 & Hsp)]%requireSpendable_Ok & Hr').
  assert (wf r') as Hwf'.
  { pose proof (on_lot_wf i "CoinLot was not found in registry." _ (lm_lock b) r) as Hk.
    rewrite Hr' in Hk. by apply Hk. }
  apply on_lot_Ok in Hr' as (l2 & l' & E2 & Hm & ->). destruct Hsp as (_ & _ & _ & _).
  assert (l2 = l) as -> by congruence. unfold CoinLot.lockForSecurity in Hm.
  destruct (CoinLot.isAvailable l) eqn:Hav; simpl in Hm; [|done].
  destruct (b <=? _); [done|]. injection Hm as <-. apply bool_decide_eq_true in Hav.
  rewrite replaceCoinLots_Ok by done. destruct (lots_of_registry _ Hwf') as [Hok' Hsum'].
  apply set_lots_unchanged; [done|done|..].
  - rewrite Hsum', (map_sum_update _ _ _ l), <- Hsum by done. rewrite active_amount_available by done.
    unfold active_amount. simpl. lia.
  - intros a. rewrite Hsum', (map_sum_update _ _ _ l), <- Hsum by done. rewrite held_available by done.
    unfold held, active_amount, credit. simpl. lia.
Qed.

Lemma mint_refines `{Sha256} m s :
  audited s → ends (State.applyMintRecord m s) (refines (OpMint m) s) (failed (OpMint m) s).
Proof.
  intros Hau. assert (failed (OpMint m) s s) as Hsame by (left; split; [done|reflexivity]).
  unfold State.applyMintRecord. apply ends_lift; [done|]. intros [] Hv. inv_ok.
  apply ends_getsR; [done|]. intros [] _. erewrite M_run_Ok by reflexivity.
  apply ends_lift; [done|]. intros [] _. apply MintRecord_isValid in Hv as Hv'.
  eapply ends_mono; [apply (creation_with_account _ _ (State.mintLot m (State.currentBlockIndex s))); try done|done|].
  - by apply records_mint.
  - simpl. lia.
  - intros s' [Hu|[Hbig Hm]]; [by left|right]. split; [unfold fits; simpl in Hbig; lia|done].
Qed.

Lemma reward_refines `{Sha256} g s :
  audited s → ends (State.applyGenesisRewardRecord g s) (refines (OpReward g) s) (failed (OpReward g) s).
Proof.
  intros Hau. assert (failed (OpReward g) s s) as Hsame by (left; split; [done|reflexivity]).
  unfold State.applyGenesisRewardRecord. apply ends_lift; [done|]. intros [] Hv. inv_ok.
  apply ends_lift; [done|]. intros rid Hrid. apply ends_getsR; [done|]. intros known _.
  apply ends_lift; [done|]. intros [] _. apply ends_getsR; [done|]. intros l Hl.
  do 2 (apply ends_lift; [done|]; intros [] _). unfold GenesisReward.createRewardCoinLot in Hl. inv_ok.
  apply GenesisReward_isValid in Hv as Hv'.
  eapply ends_mono; [match goal with |- context [State.addLotThroughRegistry ?l] =>
    apply (creation_with_account _ _ l); try done end; by apply records_reward|done|].
  intros s' [Hu|[Hbig Hm]]; [by left|right]. split; [unfold fits; simpl in Hbig; lia|done].
Qed.

Lemma transfer_refines `{Sha256} tx s :
  audited s → ends (State.applyTransferTransaction tx s) (refines (OpTransfer tx) s) (unchanged s).
Proof.
  intros Hau. assert (unchanged s s) as Hsame by (split; [done|reflexivity]).
  destruct (registry_of_lots _ (au_lots s Hau)) as (r & Er & Hwf & Hsum).
  unfold State.applyTransferTransaction, State.applyTransferTransactionUsingRegistry.
  apply ends_getsR; [done|]. intros [] _. apply ends_getsR; [done|]. intros r0 Er0.
  assert (r0 = r) as -> by (unfold State.coinLotRegistry in Er0; congruence).
  do 2 (apply ends_lift; [done|]; intros ? _). erewrite M_run_Ok by reflexivity.
  apply ends_lift; [done|]. intros r' [[] (_ & Hwf' & Hheld & Hact)%applyTransfer_effect]%on_local_Ok.
  assert (∀ s1, quiet s s1 → unchanged s s1) as Hq.
  { intros s1 Hq. split; [by eapply quiet_audited|by apply quiet_money]. }
  apply (ends_within _ _ quiet); [apply ensureAccountExists_quiet|done|]. intros _ s1 Hq1.
  apply (ends_within _ _ quiet).
  { destruct (Amount.isPositive _); [apply ensureAccountExists_quiet|apply within_ret, _]. }
  { intros s2 Hq2. apply Hq. by etrans. }
  intros _ s2 Hq2. apply (ends_within _ _ quiet); [apply markSenderApplied_quiet|..].
  { intros s3 Hq3. apply Hq. etrans; [|done]. by etrans. }
  intros _ s3 Hq3. assert (quiet s s3) as Hq' by (etrans; [|done]; by etrans). clear Hq1 Hq2 Hq3.
  erewrite M_run_Ok by (by apply replaceCoinLots_Ok). simpl.
  destruct (lots_of_registry _ Hwf') as [Hok' Hsum']. destruct (quiet_audited _ _ Hq' Hau).
  assert (sum_by active_amount (entries r').*2 = State.totalSupply s3) as Eact.
  { rewrite Hsum'. fold (activeSupply r'). rewrite Hact. unfold activeSupply. rewrite Hsum.
    rewrite (q_supply _ _ Hq'). by apply au_active. }
  split; [by split|]. split; simpl; [apply Hq'|]. intros x. by rewrite Hsum', Hheld, Hsum.
Qed.

Lemma run_refines `{Sha256} o s : audited s → ends (run o s) (refines o s) (failed o s).
Proof.
  intros Hau. destruct o; [|by apply mint_refines|by apply reward_refines|..]; (eapply ends_mono; [|done|intros s' Hs'; by left]);
    [by apply advance_refines|by apply transfer_refines|by apply lock_refines].
Qed.

Lemma run_audited `{Sha256} o s : audited s → fits o s → audited (run o s).2.
Proof.
  intros Hau Hfit. pose proof (run_refines o s Hau) as He.
  destruct (run o s) as [[u|e] s']; [by destruct He|by destruct He as [[He _]|[He _]]].
Qed.

(** States reached from the empty ledger by operations that may each return or
    throw, as long as the supply fits in an [int64]. *)
Inductive reachable `{Sha256} : State.t → Prop :=
| reach_init : reachable State.init
| reach_step o s : reachable s → fits o s → reachable (run o s).2.

Lemma reachable_audited `{Sha256} s : reachable s → audited s.
Proof. induction 1; [apply audited_init|by apply run_audited]. Qed.

Lemma held_le_active a l : CoinLot.isValid l = true → 0 ≤ held a l ≤ active_amount l.
Proof. intros Hv%active_nonneg. unfold held. case_match; lia. Qed.

Definition balanceStep (a : string) (balance : Z) (l : CoinLot) : result Z :=
  if negb (String.eqb (CoinLot.ownerAddress l) a) then Ok balance
  else if CoinLot.isAvailable l || CoinLot.isLockedForSecurity l
  then Amount.add balance (CoinLot.amount l) else Ok balance.

Lemma balanceStep_Ok a acc l :
  0 ≤ acc → CoinLot.isValid l = true → acc + held a l ≤ i64_max →
  balanceStep a acc l = Ok (acc + held a l).
Proof.
  intros Hacc Hv Hle. pose proof (held_le_active a l Hv) as Hh. revert Hle Hh.
  unfold balanceStep, held, active_amount. destruct (String.eqb _ _); simpl; [|intros; f_equal; lia].
  destruct (_ || _); simpl; [|intros; f_equal; lia]. intros Hle Hh.
  rewrite Amount.add_wf by (unfold Amount.wf; lia).
  by replace (acc + CoinLot.amount l <=? i64_max) with true by lia.
Qed.

Lemma balance_loop a acc lots :
  0 ≤ acc → (∀ l, l ∈ lots → CoinLot.isValid l = true) → acc + sum_by (held a) lots ≤ i64_max →
  foldR (balanceStep a) acc lots = Ok (acc + sum_by (held a) lots).
Proof.
  revert acc. induction lots as [|x l IH]; intros acc Hacc Hv Hle; simpl in *; [f_equal; lia|].
  assert (0 ≤ sum_by (held a) l).
  { apply sum_by_nonneg. intros y Hy. apply held_le_active, Hv. elem. }
  assert (CoinLot.isValid x = true) as Hx by (apply Hv; elem).
  pose proof (held_le_active a x Hx). rewrite balanceStep_Ok by (done || lia). simpl.
  rewrite IH by (try lia; intros; apply Hv; elem). f_equal. lia.
Qed.

Lemma balanceOf_Ok s a : audited s → State.balanceOf s a = Ok (holds (money_of s) a).
Proof.
  intros [_ _ _ [Hv _] _ Hact Hsup]. apply balance_loop; [done|done|].
  enough (sum_by (held a) (State.coinLots s) ≤ sum_by active_amount (State.coinLots s)) by lia.
  apply sum_by_mono. intros l Hl. by apply held_le_active, Hv.
Qed.

(** ** Replay protection *)

(** Applied transaction ids are never forgotten. *)
Definition remembers (s s' : State.t) : Prop :=
  ∀ i, i ∈ State.appliedTransactionIds s → i ∈ State.appliedTransactionIds s'.

#[global] Instance remembers_preorder : PreOrder remembers.
Proof. split; [by intros s i|intros s1 s2 s3 H1 H2 i ?; auto]. Qed.

Lemma quiet_remembers {A} (m : M State.t A) : within quiet m → within remembers m.
Proof. intros Hm s i Hi. by rewrite (q_applied _ _ (Hm s)). Qed.

Lemma replace_remembers r : within remembers (State.replaceCoinLotsFromRegistry r).
Proof. intros s i Hi. unfold State.replaceCoinLotsFromRegistry. by destruct (Registry.isValid r). Qed.

Lemma modify_remembers f : (∀ s, remembers s (f s)) → within remembers (modify f).
Proof. intros Hf s. apply Hf. Qed.

Lemma run_remembers `{Sha256} o : within remembers (run o).
Proof.
  destruct o; simpl; unfold State.applyMintRecord, State.applyGenesisRewardRecord,
    State.applyTransferTransaction, State.applyTransferTransactionUsingRegistry,
    State.lockCoinLotForSecurity, State.addLotThroughRegistry, State.addSupply;
    [by intros s i|..];
    repeat first
      [ apply within_bind; [apply _| |intros ?] | apply within_lift, _ | apply within_getsR, _
      | apply within_gets, _ | apply quiet_remembers, ensureAccountExists_quiet
      | apply quiet_remembers, markSenderApplied_quiet | apply replace_remembers
      | case_match; [|apply within_ret, _] | apply modify_remembers; intros ? ? ?; simpl; elem ].
Qed.

Definition run_all `{Sha256} (ops : list op) (s : State.t) : State.t :=
  foldl (λ s o, (run o s).2) s ops.

Lemma run_all_remembers `{Sha256} ops s : remembers s (run_all ops s).
Proof.
  revert s. induction ops as [|o ops IH]; intros s; simpl; [done|].
  etrans; [apply run_remembers|apply IH].
Qed.

Lemma already_applied_rejected `{Sha256} tx s :
  Transaction.id tx ∈ State.appliedTransactionIds s →
  ∃ e, State.applyTransferTransaction tx s = (Throw e, s).
Proof.
  intros Hin.
  assert (State.isTransactionAlreadyApplied s (Transaction.id tx) = true) as Ha.
  { apply existsb_exists. exists (Transaction.id tx). rewrite <- list_elem_of_In, String.eqb_refl. done. }
  assert (∃ e, State.transferGuards tx s = Throw e) as [e E].
  { unfold State.transferGuards. rewrite Ha.
    repeat match goal with |- context [throw_if ?b _ ≫= _] => destruct b; simpl; [by eexists|] end.
    by eexists. }
  exists e. unfold State.applyTransferTransaction, State.applyTransferTransactionUsingRegistry.
  erewrite M_run_Throw; [done|]. unfold getsR. by rewrite E.
Qed.

(** ** Security weight *)

Lemma lockDurationMultiplier_range c u : 1 ≤ SecurityWeight.lockDurationMultiplier c u ≤ 3.
Proof. unfold SecurityWeight.lockDurationMultiplier. repeat case_match; lia. Qed.

(** Weight times [UNITS_PER_NODO] never exceeds three times the active amount. *)
Lemma weight_bound l b : CoinLot.isValid l = true →
  0 ≤ SecurityWeight.calculateForCoinLot l b ∧
  SecurityWeight.calculateForCoinLot l b * Amount.UNITS_PER_NODO ≤ 3 * active_amount l.
Proof.
  intros Hv. pose proof (active_nonneg l Hv) as Hnn. apply isValid_true in Hv as (_ & _ & _ & Hpos & _).
  unfold SecurityWeight.calculateForCoinLot. destruct (CoinLot.isLockedForSecurity l) eqn:El; simpl; [|lia].
  assert (active_amount l = CoinLot.amount l) as Ea by (unfold active_amount; by rewrite El, orb_true_r).
  pose proof (lockDurationMultiplier_range b (CoinLot.lockedUntilBlock l)) as Hm.
  set (m := SecurityWeight.lockDurationMultiplier _ _) in *.
  assert (0 ≤ CoinLot.amount l * m) by nia.
  rewrite Z.quot_div_nonneg by (unfold Amount.UNITS_PER_NODO; lia).
  pose proof (Z.div_pos (CoinLot.amount l * m) Amount.UNITS_PER_NODO).
  pose proof (Z.mul_div_le (CoinLot.amount l * m) Amount.UNITS_PER_NODO).
  unfold Amount.UNITS_PER_NODO in *. rewrite Ea. destruct (u64_max <? _) eqn:E; [|nia].
  unfold u64_max in *. nia.
Qed.

Lemma sum_by_scale {A} (f : A → Z) k l : sum_by f l * k = sum_by (λ x, f x * k) l.
Proof. induction l; simpl; lia. Qed.

Lemma total_weight_bound s : audited s →
  let w := sum_by (λ l, SecurityWeight.calculateForCoinLot l (State.currentBlockIndex s)) (State.coinLots s) in
  0 ≤ w ∧ w * Amount.UNITS_PER_NODO ≤ 3 * State.totalSupply s.
Proof.
  intros [_ _ _ [Hv _] _ Hact _] w. split.
  - apply sum_by_nonneg. intros l Hl. by apply weight_bound, Hv.
  - unfold w. rewrite sum_by_scale, <- Hact, Z.mul_comm, sum_by_scale. apply sum_by_mono.
    intros l Hl. rewrite (Z.mul_comm (active_amount l)). by apply weight_bound, Hv.
Qed.

(** The nonce of the sender after a transfer was applied. *)
Lemma updateAccount_find a f l res l' :
  (∀ x, Account.address (f x).2 = Account.address x) →
  State.updateAccount a f l = Some (res, l') →
  ∃ x, find (λ y, String.eqb (Account.address y) a) l = Some x ∧ res = (f x).1 ∧
       find (λ y, String.eqb (Account.address y) a) l' = Some (f x).2.
Proof.
  intros Hf. revert l'. induction l as [|y l IH]; intros l'; simpl; [done|].
  destruct (String.eqb _ _) eqn:E.
  - destruct (f y) as [r y'] eqn:Ey. intros [= <- <-]. exists y. simpl.
    pose proof (Hf y) as Ha. rewrite Ey in *. simpl in *. by rewrite Ha, E.
  - destruct (State.updateAccount a f l) as [[r l1]|]; [|done]. intros [= <- <-].
    destruct (IH l1 eq_refl) as (x & ? & ? & ?). exists x. simpl. by rewrite E.
Qed.

Lemma markSenderApplied_nonce a n s s' :
  State.markSenderApplied a n s = (Ok tt, s') → State.nextNonceOf s' a = Ok (n + 1).
Proof.
  unfold State.markSenderApplied. destruct (State.updateAccount _ _ _) as [[res l]|] eqn:E; [|done].
  intros [= -> <-]. apply updateAccount_find in E as (x & _ & Hres & Hf).
  2: { intros x. unfold Account.markTransactionApplied. by repeat case_match. }
  unfold State.nextNonceOf, State.findAccount. simpl. rewrite Hf. f_equal.
  revert Hres. unfold Account.markTransactionApplied, Account.canApplyNonce.
  repeat case_match; try done. intros _. simpl.
  repeat match goal with E : negb _ = false |- _ => apply negb_false_iff in E end. lia.
Qed.

Lemma transfer_records `{Sha256} tx s s' :
  State.applyTransferTransaction tx s = (Ok tt, s') →
  Transaction.id tx ∈ State.appliedTransactionIds s' ∧
  State.nextNonceOf s' (Transaction.fromAddress tx) = Ok (Transaction.nonce tx + 1).
Proof.
  unfold State.applyTransferTransaction, State.applyTransferTransactionUsingRegistry. intros Hrun.
  repeat match goal with
  | H : (State.markSenderApplied _ _ ≫= _) _ = (Ok _, _) |- _ => fail 1
  | H : (_ ≫= _) _ = (Ok _, _) |- _ => apply M_bind_Ok in H as (? & ? & _ & H); simpl in H
  end.
  apply M_bind_Ok in Hrun as ([] & s1 & Hm & Hrun). apply markSenderApplied_nonce in Hm.
  apply M_bind_Ok in Hrun as ([] & s2 & Hr & Hrun). unfold State.replaceCoinLotsFromRegistry in Hr.
  destruct (Registry.isValid _); simpl in Hr; [|done]. injection Hr as <-.
  unfold modify in Hrun. injection Hrun as <-. simpl. split; [|done]. apply elem_of_app. right. elem.
Qed.

End StateFacts.

(** ** What the ledger promises *)

Module StateProperties.
Import LotFacts RegistryFacts TransferFacts StateFacts.

(** C1. Refinement: every operation of [State] implements the abstract ledger of
    one balance per address and one supply.  From an audited state, when it returns,
    supply and balances change as the abstract operation says and the state is
    audited; when it throws, the state is audited and no balance and no supply
    changed, with one exception: a creation of coins that would push the supply past
    an int64 leaves the coins with their owner and the supply as it was. *)
Theorem state_refines_ledger `{Sha256} (o : op) (s : State.t) :
  audited s →
  match run o s with
  | (Ok _, s') => audited s' ∧ money_of s' ≡ effect o (money_of s)
  | (Throw _, s') =>
      audited s' ∧ money_of s' ≡ money_of s ∨
      ¬ fits o s ∧ money_of s' ≡ {| supply := supply (money_of s); holds := holds (effect o (money_of s)) |}
  end.
Proof. exact (run_refines o s). Qed.

(** C5. Every state reachable from the empty ledger by any operations, returning or
    throwing, none of which creates coins past an int64 of supply, passes
    [isSupplyAuditable] (which then returns, without overflow), and [balanceOf]
    returns exactly what the address holds. *)
Theorem reachable_supply_auditable `{Sha256} (s : State.t) :
  reachable s →
  State.isSupplyAuditable s = Ok true ∧
  ∀ a, State.balanceOf s a = Ok (holds (money_of s) a).
Proof.
  intros Hau%reachable_audited. split; [by apply audited_isSupplyAuditable|].
  intros a. by apply balanceOf_Ok.
Qed.

(** C4. No transfer is applied twice: after a transfer was applied the sender's
    nonce is the next one, and whatever operations follow, a transfer with the
    same id is rejected and changes nothing. *)
Theorem transfer_applied_once `{Sha256} (tx tx' : Transaction) (s s' : State.t) (ops : list op) :
  State.applyTransferTransaction tx s = (Ok tt, s') → Transaction.id tx' = Transaction.id tx →
  State.nextNonceOf s' (Transaction.fromAddress tx) = Ok (Transaction.nonce tx + 1) ∧
  ∃ e, State.applyTransferTransaction tx' (run_all ops s') = (Throw e, run_all ops s').
Proof.
  intros [Hin Hn]%transfer_records Hid. split; [done|].
  apply already_applied_rejected. rewrite Hid. by apply run_all_remembers.
Qed.

(** The security weight of an audited state is exact and bounded: the 64-bit
    accumulation never wraps, and the total is at most three times the supply in
    whole NODO. *)
Theorem security_weight_exact (s : State.t) :
  audited s →
  State.totalSecurityWeight s =
    sum_by (λ l, SecurityWeight.calculateForCoinLot l (State.currentBlockIndex s)) (State.coinLots s) ∧
  State.totalSecurityWeight s ≤ 3 * State.totalSupply s / Amount.UNITS_PER_NODO.
Proof.
  intros Hau. destruct (total_weight_bound s Hau) as [Hnn Hle].
  assert (State.totalSecurityWeight s =
    sum_by (λ l, SecurityWeight.calculateForCoinLot l (State.currentBlockIndex s)) (State.coinLots s)) as E.
  { unfold State.totalSecurityWeight. rewrite foldl_wrap64; [lia|lia|..].
    - intros l Hl. by apply weight_bound, (au_lots s Hau).
    - pose proof (au_supply s Hau). unfold Amount.UNITS_PER_NODO, i64_max, u64_max in *. lia. }
  split; [done|]. rewrite E. apply Z.div_le_lower_bound; [done|]. lia.
Qed.

Definition toy : Sha256 := CryptoProperties.toy_sha256.

Definition mint_to (id owner : string) (amount : Z) : MintRecord :=
  MintRecord.mk id "auth-1" owner amount GENESIS_ALLOCATION 1 0 "block-hash" 1700000000.

(** Needed bound: when a mint would push the supply past an [int64], the
    exception of the checked addition comes after the lot and the mint record
    were added, so the state it leaves no longer passes its own audit. *)
Theorem mint_overflow_breaks_audit :
  let s1 := (@run toy (OpMint (mint_to "m1" "alice" i64_max)) State.init).2 in
  let out := @run toy (OpMint (mint_to "m2" "bob" 1)) s1 in
  State.isSupplyAuditable s1 = Ok true ∧
  out.1 = Throw (overflow_error "Amount addition overflow.") ∧
  State.isSupplyAuditable out.2 = Throw (overflow_error "Amount addition overflow.") ∧
  State.balanceOf out.2 "bob" = Ok 1.
Proof. vm_compute. done. Qed.

Definition funded : State.t := (@run toy (OpMint (mint_to "m1" "alice" 100)) State.init).2.
Definition pay : Transaction :=
  Transaction.mk "tx-1" TRANSFER "alice" "bob" 30 5 1 1700000001 [] "" "nodo".

Lemma funded_reachable : @reachable toy funded.
Proof. apply (@reach_step toy); [apply reach_init|]. vm_compute. discriminate. Qed.

Lemma state_refines_ledger_witness :
  holds (money_of (@run toy (OpTransfer pay) funded).2) "bob" = 30.
Proof.
  pose proof (@state_refines_ledger toy (OpTransfer pay) funded (reachable_audited _ funded_reachable)) as Hr.
  destruct (@run toy (OpTransfer pay) funded) as [[[]|e] s'] eqn:E.
  - destruct Hr as [_ [_ Hh]]. simpl. simpl in Hh. rewrite Hh. vm_compute. reflexivity.
  - vm_compute in E. discriminate.
Defined.

Lemma reachable_supply_auditable_witness :
  State.isSupplyAuditable funded = Ok true ∧ State.balanceOf funded "alice" = Ok 100.
Proof.
  destruct (@reachable_supply_auditable toy funded funded_reachable) as [Ha Hb].
  split; [exact Ha|]. rewrite (Hb "alice"). vm_compute. reflexivity.
Defined.

Lemma transfer_applied_once_witness :
  ∃ e s', State.applyTransferTransaction pay funded = (Ok tt, s') ∧
          State.applyTransferTransaction pay (@run_all toy [OpAdvance] s') = (Throw e, @run_all toy [OpAdvance] s').
Proof.
  destruct (@transfer_applied_once toy pay pay funded
              (State.applyTransferTransaction pay funded).2 [OpAdvance]) as [_ [e He]];
    [vm_compute; reflexivity|reflexivity|].
  exists e, (State.applyTransferTransaction pay funded).2.
  split; [vm_compute; reflexivity|exact He].
Defined.

Lemma security_weight_exact_witness :
  State.totalSecurityWeight funded ≤ 3 * State.totalSupply funded / Amount.UNITS_PER_NODO.
Proof. apply security_weight_exact. exact (@reachable_audited toy funded funded_reachable). Defined.

End StateProperties.
