(* ===== verification/ValidatorRegistry.v ===== *)
(** * core: the validator registry and the history of validator sets

    Models src/src/core/ValidatorRegistry.cpp and
    src/src/consensus/ConsensusWeight.cpp: registration records, registry
    entries, the lifecycle operations of the registry, its audit, its total
    consensus weight, and [ValidatorSetHistory].  The checks derive an address
    from a public key and so may throw when the digest fails; they are
    [result bool]. *)

From S2P Require Import Prelude Utils Crypto.

Inductive ValidatorRegistrationStatus :=
| STATUS_UNKNOWN | PENDING_ACTIVATION | ACTIVE | JAILED | EXIT_REQUESTED | EXITED | DEACTIVATED.

#[global] Instance ValidatorRegistrationStatus_eq_dec : EqDecision ValidatorRegistrationStatus.
Proof. solve_decision. Defined.

Definition validatorRegistrationStatusToString (status : ValidatorRegistrationStatus) : string :=
  match status with
  | PENDING_ACTIVATION => "PENDING_ACTIVATION"
  | ACTIVE => "ACTIVE"
  | JAILED => "JAILED"
  | EXIT_REQUESTED => "EXIT_REQUESTED"
  | EXITED => "EXITED"
  | DEACTIVATED => "DEACTIVATED"
  | STATUS_UNKNOWN => "UNKNOWN"
  end.

Definition validatorRegistrationStatusFromString (value : string) : ValidatorRegistrationStatus :=
  if String.eqb value "PENDING_ACTIVATION" then PENDING_ACTIVATION
  else if String.eqb value "ACTIVE" then ACTIVE
  else if String.eqb value "JAILED" then JAILED
  else if String.eqb value "EXIT_REQUESTED" then EXIT_REQUESTED
  else if String.eqb value "EXITED" then EXITED
  else if String.eqb value "DEACTIVATED" then DEACTIVATED
  else STATUS_UNKNOWN.

(** [ConsensusWeight::weightFromStake]: one unit of weight per raw unit. *)
Definition weightFromStake (lockedAmount : Z) : Z := lockedAmount.

(** [ValidatorRegistry::MIN_VALIDATOR_STAKE_RAW_UNITS] *)
Definition MIN_VALIDATOR_STAKE_RAW_UNITS : Z := 1000000.

Module Registration.
Record t := mk {
  validatorAddress : string;
  validatorPublicKey : PublicKey;
  activationEpoch : Z;
  metadataHash : string;
  registeredAt : Z;
}.

Section registration.
Context `{Sha256}.

Definition publicKeyFingerprint (r : t) : string := PublicKey.fingerprint (validatorPublicKey r).

Definition isValid (r : t) : result bool :=
  if negb (SafeScalar.isSafeScalar (validatorAddress r)) ||
     negb (SafeScalar.isSafeScalar (metadataHash r)) then Ok false
  else if negb (PublicKey.isValid (validatorPublicKey r)) then Ok false
  else if negb (SafeScalar.isSafeScalar (PublicKey.keyMaterial (validatorPublicKey r))) then Ok false
  else if (activationEpoch r =? 0) || (registeredAt r <=? 0) then Ok false
  else if negb (Address.isValid (validatorAddress r)) then Ok false
  else AddressDerivation.verifyAddressForPublicKey (validatorAddress r) (validatorPublicKey r).

Definition serialize (r : t) : string :=
  "ValidatorRegistrationRecord{validatorAddress=" +:+ validatorAddress r +:+
  ";publicKey=" +:+ PublicKey.serialize (validatorPublicKey r) +:+
  ";publicKeyFingerprint=" +:+ publicKeyFingerprint r +:+
  ";activationEpoch=" +:+ to_string (activationEpoch r) +:+
  ";metadataHash=" +:+ metadataHash r +:+
  ";registeredAt=" +:+ to_string (registeredAt r) +:+ "}".

Definition deterministicId (r : t) : result string :=
  valid ← isValid r;
  Ok (if negb valid then "" else Hash.hashCString (serialize r)).
End registration.
End Registration.
Abbreviation ValidatorRegistrationRecord := Registration.t.

Module Entry.
Record t := mk {
  registrationRecord : ValidatorRegistrationRecord;
  status : ValidatorRegistrationStatus;
  lastUpdatedAt : Z;
  stakeAmount : Z;
  jailUntilEpoch : Z;
  exitRequestHeight : Z;
  ownerAddress : string;
}.

Definition consensusWeight (e : t) : Z := weightFromStake (stakeAmount e).

Definition eligibleForConsensus (e : t) : bool :=
  bool_decide (status e = ACTIVE) && (MIN_VALIDATOR_STAKE_RAW_UNITS <=? stakeAmount e) &&
  (0 <? consensusWeight e).

Definition jailed (e : t) : bool := bool_decide (status e = JAILED).
Definition exited (e : t) : bool :=
  bool_decide (status e = EXITED) || bool_decide (status e = DEACTIVATED).
Definition active (e : t) : bool := bool_decide (status e = ACTIVE).

Definition isValid `{Sha256} (e : t) : result bool :=
  valid ← Registration.isValid (registrationRecord e);
  Ok (if negb valid then false
      else if bool_decide (status e = STATUS_UNKNOWN) then false
      else if lastUpdatedAt e <=? 0 then false
      else if lastUpdatedAt e <? Registration.registeredAt (registrationRecord e) then false
      else if i64_max <? stakeAmount e then false
      else true).

Definition serialize `{Sha256} (e : t) : string :=
  "ValidatorRegistryEntry{status=" +:+ validatorRegistrationStatusToString (status e) +:+
  ";lastUpdatedAt=" +:+ to_string (lastUpdatedAt e) +:+
  ";stakeAmount=" +:+ to_string (stakeAmount e) +:+
  ";consensusWeight=" +:+ to_string (consensusWeight e) +:+
  ";jailUntilEpoch=" +:+ to_string (jailUntilEpoch e) +:+
  ";exitRequestHeight=" +:+ to_string (exitRequestHeight e) +:+
  ";ownerAddress=" +:+ ownerAddress e +:+
  ";registration=" +:+ Registration.serialize (registrationRecord e) +:+ "}".
End Entry.
Abbreviation ValidatorRegistryEntry := Entry.t.

Inductive ValidatorRegistryUpdateStatus :=
| U_ACCEPTED | U_DUPLICATE | U_DEACTIVATED | U_JAILED | U_UNJAILED | U_EXIT_REQUESTED
| U_ACTIVATED | U_KEY_ROTATED | U_CONFLICTING_PUBLIC_KEY | U_INVALID_RECORD
| U_INVALID_REGISTRY | U_ALREADY_ACTIVE | U_ALREADY_JAILED | U_INVALID_STATUS_TRANSITION
| U_INSUFFICIENT_STAKE.

#[global] Instance ValidatorRegistryUpdateStatus_eq_dec : EqDecision ValidatorRegistryUpdateStatus.
Proof. solve_decision. Defined.

(** [ValidatorRegistryUpdateResult]: the status, the reason and, on the
    successful constructors, the entry. *)
Record ValidatorRegistryUpdateResult := UpdateResult {
  u_status : ValidatorRegistryUpdateStatus;
  u_reason : string;
  u_entry : option ValidatorRegistryEntry;
}.

Definition u_success (u : ValidatorRegistryUpdateResult) : bool :=
  match u_status u with
  | U_ACCEPTED | U_DUPLICATE | U_DEACTIVATED | U_JAILED | U_UNJAILED | U_EXIT_REQUESTED
  | U_ACTIVATED | U_KEY_ROTATED => true
  | _ => false
  end.

Definition rejected (status : ValidatorRegistryUpdateStatus) (reason : string)
    : ValidatorRegistryUpdateResult := UpdateResult status reason None.
Definition updated (status : ValidatorRegistryUpdateStatus) (e : ValidatorRegistryEntry)
    : ValidatorRegistryUpdateResult := UpdateResult status "" (Some e).

Abbreviation ValidatorRegistry := (gmap string ValidatorRegistryEntry).

Module Validators.
Section validators.
Context `{Sha256}.
Implicit Types (r : ValidatorRegistry) (address : string).

(** The loop of [isValid]; [total] is [totalVotingWeight]. *)
Fixpoint auditEntries (total : Z) (l : list (string * ValidatorRegistryEntry)) : result bool :=
  match l with
  | [] => Ok true
  | (address, entry) :: l =>
      if negb (SafeScalar.isSafeScalar address) then Ok false
      else
        valid ← Entry.isValid entry;
        if negb valid then Ok false
        else if negb (String.eqb
               (Registration.validatorAddress (Entry.registrationRecord entry)) address)
        then Ok false
        else if Entry.eligibleForConsensus entry then
          let weight := Entry.consensusWeight entry in
          if u64_max - weight <? total then Ok false
          else auditEntries (total + weight) l
        else auditEntries total l
  end.

Definition isValid r : result bool := auditEntries 0 (entries r).

Definition totalConsensusWeight r : result Z :=
  foldR (λ total e,
    if negb (Entry.eligibleForConsensus e.2) then Ok total
    else
      let weight := Entry.consensusWeight e.2 in
      throw_if (u64_max - total <? weight)
        (overflow_error "Validator consensus weight overflow.");;
      Ok (total + weight)) 0 (entries r).

Definition hasValidator r address : bool := bool_decide (is_Some (r !! address)).

Definition isActiveValidator r address : bool :=
  match r !! address with None => false | Some e => Entry.active e end.

Definition isEligibleForConsensus r address : bool :=
  match r !! address with None => false | Some e => Entry.eligibleForConsensus e end.

Definition consensusWeightFor r address : Z :=
  match r !! address with
  | None => 0
  | Some e => if negb (Entry.eligibleForConsensus e) then 0 else Entry.consensusWeight e
  end.

Definition verifyValidatorIdentity r address (k : PublicKey) : result bool :=
  match r !! address with
  | None => Ok false
  | Some e =>
      if negb (Entry.active e) then Ok false
      else if negb (PublicKey.isValid k) then Ok false
      else if negb (String.eqb (Registration.publicKeyFingerprint (Entry.registrationRecord e))
                      (PublicKey.fingerprint k)) then Ok false
      else AddressDerivation.verifyAddressForPublicKey address k
  end.

(** The address lists: the keys in map order whose entry satisfies [p]. *)
Definition addressesWhere (p : ValidatorRegistryEntry → bool) r : list string :=
  (filter (λ e, p e.2 = true) (entries r)).*1.
Definition validatorAddresses r : list string := (entries r).*1.
Definition activeValidatorAddresses r : list string := addressesWhere Entry.active r.
Definition eligibleValidatorAddresses r : list string :=
  addressesWhere Entry.eligibleForConsensus r.
Definition jailedValidatorAddresses r : list string := addressesWhere Entry.jailed r.
Definition pendingValidatorAddresses r : list string :=
  addressesWhere (λ e, bool_decide (Entry.status e = PENDING_ACTIVATION)) r.
Definition exitRequestedValidatorAddresses r : list string :=
  addressesWhere (λ e, bool_decide (Entry.status e = EXIT_REQUESTED)) r.

Definition activeCount r : Z := Z.of_nat (length (activeValidatorAddresses r)).

Definition serialize r : result string :=
  total ← totalConsensusWeight r;
  Ok ("ValidatorRegistry{size=" +:+ to_string (Z.of_nat (size r)) +:+
      ";activeCount=" +:+ to_string (activeCount r) +:+
      ";totalConsensusWeight=" +:+ to_string total +:+ ";entries=[" +:+
      String.concat "," (Entry.serialize <$> (entries r).*2) +:+ "]}").

Definition validatorSetRoot r : result string :=
  s ← serialize r; Ok (Hash.hashCString s).

(** [m_entries.emplace(address, entry)] on an absent key, and the audit that
    undoes it: [undo] is what the code does when [isValid()] is false. *)
Definition write (f : ValidatorRegistry → ValidatorRegistry) : M ValidatorRegistry unit := modify f.
Definition audit : M ValidatorRegistry bool := getsR isValid.

Definition restoreEntry (entry : ValidatorRegistryEntry) : M ValidatorRegistry bool :=
  valid ← lift (Entry.isValid entry);
  if negb valid then mret false
  else
    let address := Registration.validatorAddress (Entry.registrationRecord entry) in
    present ← gets (λ r, hasValidator r address);
    if negb (SafeScalar.isSafeScalar address) || present then mret false
    else
      write (insert address entry);;
      ok ← audit;
      if negb ok then write (delete address);; mret false else mret true.

(** [registerValidator(record, stake, owner)] *)
Definition registerValidator (record : ValidatorRegistrationRecord) (stakeAmount : Z)
    (ownerAddress : string) : M ValidatorRegistry ValidatorRegistryUpdateResult :=
  valid ← lift (Registration.isValid record);
  if negb valid then mret (rejected U_INVALID_RECORD "Invalid validator registration record.")
  else if (stakeAmount <? MIN_VALIDATOR_STAKE_RAW_UNITS) || (weightFromStake stakeAmount =? 0) then
    mret (rejected U_INSUFFICIENT_STAKE "Validator registration is below the minimum stake.")
  else if negb (SafeScalar.isSafeScalar ownerAddress) then
    mret (rejected U_INVALID_RECORD "Validator owner address is invalid.")
  else
    let address := Registration.validatorAddress record in
    existing ← gets (λ r, r !! address);
    match existing with
    | Some e =>
        valid ← lift (Entry.isValid e);
        if negb valid then
          mret (rejected U_INVALID_REGISTRY "Existing validator registry entry is invalid.")
        else if String.eqb (Registration.publicKeyFingerprint (Entry.registrationRecord e))
                  (Registration.publicKeyFingerprint record) then
          mret (UpdateResult U_DUPLICATE "Validator registration already exists." (Some e))
        else mret (rejected U_CONFLICTING_PUBLIC_KEY
               "Validator address is already bound to a different public key.")
    | None =>
        let entry := Entry.mk record ACTIVE (Registration.registeredAt record) stakeAmount 0 0
                       ownerAddress in
        valid ← lift (Entry.isValid entry);
        if negb valid then
          mret (rejected U_INVALID_RECORD "Validator registry entry would be invalid.")
        else
          write (insert address entry);;
          ok ← audit;
          if negb ok then
            write (delete address);;
            mret (rejected U_INVALID_REGISTRY "Validator registry failed post-registration audit.")
          else mret (updated U_ACCEPTED entry)
    end.

(** [registerValidator(record)] *)
Definition registerValidatorDefault (record : ValidatorRegistrationRecord)
    : M ValidatorRegistry ValidatorRegistryUpdateResult :=
  registerValidator record MIN_VALIDATOR_STAKE_RAW_UNITS (Registration.validatorAddress record).

Definition registerPendingValidator (record : ValidatorRegistrationRecord) (stakeAmount : Z)
    (ownerAddress : string) : M ValidatorRegistry ValidatorRegistryUpdateResult :=
  valid ← lift (Registration.isValid record);
  if negb valid || (stakeAmount <? MIN_VALIDATOR_STAKE_RAW_UNITS) ||
     negb (SafeScalar.isSafeScalar ownerAddress) then
    mret (rejected U_INVALID_RECORD
      "Pending validator registration is invalid or below minimum stake.")
  else
    let address := Registration.validatorAddress record in
    present ← gets (λ r, hasValidator r address);
    if present : bool then mret (rejected U_DUPLICATE "Validator is already registered.")
    else
      let entry := Entry.mk record PENDING_ACTIVATION (Registration.registeredAt record)
                     stakeAmount 0 0 ownerAddress in
      valid ← lift (Entry.isValid entry);
      if negb valid then mret (rejected U_INVALID_RECORD "Pending validator entry is invalid.")
      else
        write (insert address entry);;
        ok ← audit;
        if negb ok then
          write (delete address);;
          mret (rejected U_INVALID_REGISTRY
            "Validator registry failed pending-registration audit.")
        else mret (updated U_ACCEPTED entry).

(** The lookup that most operations start with. *)
Definition with_entry address (k : ValidatorRegistryEntry → M ValidatorRegistry ValidatorRegistryUpdateResult)
    : M ValidatorRegistry ValidatorRegistryUpdateResult :=
  existing ← gets (λ r, r !! address);
  match existing with
  | None => mret (rejected U_INVALID_RECORD "Validator is not registered.")
  | Some e => k e
  end.

Definition deactivateValidator address (timestamp : Z)
    : M ValidatorRegistry ValidatorRegistryUpdateResult :=
  if negb (SafeScalar.isSafeScalar address) then
    mret (rejected U_INVALID_RECORD "Validator address is invalid.")
  else if timestamp <=? 0 then
    mret (rejected U_INVALID_RECORD "Deactivation timestamp must be positive.")
  else with_entry address (λ e,
    let updatedEntry := Entry.mk (Entry.registrationRecord e) DEACTIVATED timestamp
      (Entry.stakeAmount e) (Entry.jailUntilEpoch e) (Entry.exitRequestHeight e)
      (Entry.ownerAddress e) in
    valid ← lift (Entry.isValid updatedEntry);
    if negb valid then
      mret (rejected U_INVALID_RECORD "Deactivated validator entry would be invalid.")
    else
      write (insert address updatedEntry);;
      ok ← audit;
      if negb ok then
        mret (rejected U_INVALID_REGISTRY "Validator registry failed post-deactivation audit.")
      else mret (updated U_DEACTIVATED updatedEntry)).

(** [it->second = updated; if (!isValid()) { it->second = existing; reject }] *)
Definition writeAudited address (existing new : ValidatorRegistryEntry)
    (success : ValidatorRegistryUpdateStatus) (overflow : string)
    : M ValidatorRegistry ValidatorRegistryUpdateResult :=
  write (insert address new);;
  ok ← audit;
  if negb ok then
    write (insert address existing);;
    mret (rejected U_INVALID_REGISTRY overflow)
  else mret (updated success new).

Definition activateValidator address (currentEpoch timestamp : Z)
    : M ValidatorRegistry ValidatorRegistryUpdateResult :=
  with_entry address (λ e,
    if bool_decide (Entry.status e = ACTIVE) then
      mret (rejected U_ALREADY_ACTIVE "Validator is already active.")
    else if negb (bool_decide (Entry.status e = PENDING_ACTIVATION)) then
      mret (rejected U_INVALID_STATUS_TRANSITION
        "Only PENDING_ACTIVATION validators can be activated.")
    else if currentEpoch <? Registration.activationEpoch (Entry.registrationRecord e) then
      mret (rejected U_INVALID_STATUS_TRANSITION "Activation epoch has not been reached.")
    else if (Entry.stakeAmount e <? MIN_VALIDATOR_STAKE_RAW_UNITS) || (Entry.consensusWeight e =? 0)
    then mret (rejected U_INSUFFICIENT_STAKE
           "Validator stake is below the minimum required for activation.")
    else
      writeAudited address e
        (Entry.mk (Entry.registrationRecord e) ACTIVE timestamp (Entry.stakeAmount e)
           (Entry.jailUntilEpoch e) (Entry.exitRequestHeight e) (Entry.ownerAddress e))
        U_ACTIVATED "Activation would overflow the total consensus voting weight.").

Definition jailValidator address (jailUntilEpoch timestamp : Z)
    : M ValidatorRegistry ValidatorRegistryUpdateResult :=
  with_entry address (λ e,
    if bool_decide (Entry.status e = JAILED) then
      mret (rejected U_ALREADY_JAILED "Validator is already jailed.")
    else if negb (bool_decide (Entry.status e = ACTIVE)) then
      mret (rejected U_INVALID_STATUS_TRANSITION "Only ACTIVE validators can be jailed.")
    else
      let new := Entry.mk (Entry.registrationRecord e) JAILED timestamp (Entry.stakeAmount e)
                   jailUntilEpoch (Entry.exitRequestHeight e) (Entry.ownerAddress e) in
      write (insert address new);;
      mret (updated U_JAILED new)).

Definition unjailValidator address (currentEpoch timestamp : Z)
    : M ValidatorRegistry ValidatorRegistryUpdateResult :=
  with_entry address (λ e,
    if negb (bool_decide (Entry.status e = JAILED)) then
      mret (rejected U_INVALID_STATUS_TRANSITION "Only JAILED validators can be unjailed.")
    else if currentEpoch <? Entry.jailUntilEpoch e then
      mret (rejected U_INVALID_STATUS_TRANSITION
        ("Jail period has not elapsed (until epoch " +:+ to_string (Entry.jailUntilEpoch e) +:+ ")."))
    else if (Entry.stakeAmount e <? MIN_VALIDATOR_STAKE_RAW_UNITS) || (Entry.consensusWeight e =? 0)
    then mret (rejected U_INSUFFICIENT_STAKE
           "Validator stake is below the minimum required for unjail.")
    else
      writeAudited address e
        (Entry.mk (Entry.registrationRecord e) ACTIVE timestamp (Entry.stakeAmount e)
           0 (Entry.exitRequestHeight e) (Entry.ownerAddress e))
        U_UNJAILED "Unjailing would overflow the total consensus voting weight.").

Definition requestExit address (requestHeight timestamp : Z)
    : M ValidatorRegistry ValidatorRegistryUpdateResult :=
  with_entry address (λ e,
    let canExit := bool_decide (Entry.status e = ACTIVE) || bool_decide (Entry.status e = JAILED) in
    if negb canExit then
      mret (rejected U_INVALID_STATUS_TRANSITION "Only ACTIVE or JAILED validators can request exit.")
    else
      let new := Entry.mk (Entry.registrationRecord e) EXIT_REQUESTED timestamp
                   (Entry.stakeAmount e) (Entry.jailUntilEpoch e) requestHeight
                   (Entry.ownerAddress e) in
      write (insert address new);;
      mret (updated U_EXIT_REQUESTED new)).

Definition completeExit address (timestamp : Z)
    : M ValidatorRegistry ValidatorRegistryUpdateResult :=
  with_entry address (λ e,
    if negb (bool_decide (Entry.status e = EXIT_REQUESTED)) then
      mret (rejected U_INVALID_STATUS_TRANSITION "Only EXIT_REQUESTED validators can complete exit.")
    else
      let new := Entry.mk (Entry.registrationRecord e) EXITED timestamp (Entry.stakeAmount e)
                   (Entry.jailUntilEpoch e) (Entry.exitRequestHeight e) (Entry.ownerAddress e) in
      write (insert address new);;
      mret (updated U_DEACTIVATED new)).

Definition updateStake address (newStakeAmount timestamp : Z)
    : M ValidatorRegistry ValidatorRegistryUpdateResult :=
  with_entry address (λ e,
    let new := Entry.mk (Entry.registrationRecord e) (Entry.status e) timestamp newStakeAmount
                 (Entry.jailUntilEpoch e) (Entry.exitRequestHeight e) (Entry.ownerAddress e) in
    valid ← lift (Entry.isValid new);
    if negb valid then
      mret (rejected U_INVALID_RECORD
        "Stake update would produce an invalid validator registry entry.")
    else writeAudited address e new U_ACCEPTED
           "Stake update would overflow the total consensus voting weight.").

Definition rotateValidatorKey (oldValidatorAddress : string)
    (newRecord : ValidatorRegistrationRecord) (timestamp : Z)
    : M ValidatorRegistry ValidatorRegistryUpdateResult :=
  newValid ← (if negb (SafeScalar.isSafeScalar oldValidatorAddress) || (timestamp <=? 0)
              then mret false else lift (Registration.isValid newRecord));
  if negb newValid then
    mret (rejected U_INVALID_RECORD "Validator key rotation request is invalid.")
  else
    let newAddress := Registration.validatorAddress newRecord in
    if String.eqb oldValidatorAddress newAddress then
      mret (rejected U_CONFLICTING_PUBLIC_KEY
        "Validator key rotation must bind to a new validator address.")
    else
      existing ← gets (λ r, r !! oldValidatorAddress);
      existingValid ← (match existing with None => mret false | Some e => lift (Entry.isValid e) end);
      match existing with
      | Some previous =>
          if negb existingValid then
            mret (rejected U_INVALID_RECORD "Existing validator is not registered or is invalid.")
          else
            present ← gets (λ r, hasValidator r newAddress);
            if present : bool then
              mret (rejected U_DUPLICATE "New validator address is already registered.")
            else if bool_decide (Entry.status previous = EXITED) ||
                    bool_decide (Entry.status previous = DEACTIVATED) ||
                    bool_decide (Entry.status previous = EXIT_REQUESTED) then
              mret (rejected U_INVALID_STATUS_TRANSITION
                "Exited, deactivated, or exiting validators cannot rotate keys.")
            else if empty_string (Entry.ownerAddress previous) ||
                    negb (SafeScalar.isSafeScalar (Entry.ownerAddress previous)) then
              mret (rejected U_INVALID_RECORD
                "Validator has no valid owner address for key rotation.")
            else
              let rotated := Entry.mk newRecord (Entry.status previous) timestamp
                (Entry.stakeAmount previous) (Entry.jailUntilEpoch previous)
                (Entry.exitRequestHeight previous) (Entry.ownerAddress previous) in
              valid ← lift (Entry.isValid rotated);
              if negb valid then
                mret (rejected U_INVALID_RECORD "Rotated validator registry entry would be invalid.")
              else
                write (delete oldValidatorAddress);;
                write (insert newAddress rotated);;
                ok ← audit;
                if negb ok then
                  write (delete newAddress);;
                  write (insert oldValidatorAddress previous);;
                  mret (rejected U_INVALID_REGISTRY
                    "Validator registry failed post-rotation audit.")
                else mret (updated U_KEY_ROTATED rotated)
      | None =>
          mret (rejected U_INVALID_RECORD "Existing validator is not registered or is invalid.")
      end.
End validators.
End Validators.

(** ** Lemmas on the registry *)

Module ValidatorFacts.
Import Validators.

(** The operations of the registry. *)
Inductive op :=
| OpRestore (e : ValidatorRegistryEntry)
| OpRegister (record : ValidatorRegistrationRecord) (stake : Z) (owner : string)
| OpRegisterPending (record : ValidatorRegistrationRecord) (stake : Z) (owner : string)
| OpDeactivate (address : string) (timestamp : Z)
| OpActivate (address : string) (epoch timestamp : Z)
| OpJail (address : string) (until timestamp : Z)
| OpUnjail (address : string) (epoch timestamp : Z)
| OpRequestExit (address : string) (height timestamp : Z)
| OpCompleteExit (address : string) (timestamp : Z)
| OpUpdateStake (address : string) (stake timestamp : Z)
| OpRotate (address : string) (record : ValidatorRegistrationRecord) (timestamp : Z).

(** The outcome seen by the caller: whether the registry reports a change. *)
Definition changes (u : ValidatorRegistryUpdateResult) : bool :=
  u_success u && negb (bool_decide (u_status u = U_DUPLICATE)).

Definition as_change (m : M ValidatorRegistry ValidatorRegistryUpdateResult) : M ValidatorRegistry bool :=
  u ← m; mret (changes u).

Definition run `{Sha256} (o : op) : M ValidatorRegistry bool :=
  match o with
  | OpRestore e => restoreEntry e
  | OpRegister r st ow => as_change (registerValidator r st ow)
  | OpRegisterPending r st ow => as_change (registerPendingValidator r st ow)
  | OpDeactivate a t => as_change (deactivateValidator a t)
  | OpActivate a e t => as_change (activateValidator a e t)
  | OpJail a u t => as_change (jailValidator a u t)
  | OpUnjail a e t => as_change (unjailValidator a e t)
  | OpRequestExit a h t => as_change (requestExit a h t)
  | OpCompleteExit a t => as_change (completeExit a t)
  | OpUpdateStake a st t => as_change (updateStake a st t)
  | OpRotate a r t => as_change (rotateValidatorKey a r t)
  end.

(** ** The lifecycle *)

(** Status changes an entry can go through under its address. *)
Definition step_allowed (s s' : ValidatorRegistrationStatus) : bool :=
  match s, s' with
  | PENDING_ACTIVATION, ACTIVE => true
  | ACTIVE, (JAILED | EXIT_REQUESTED) => true
  | JAILED, (ACTIVE | EXIT_REQUESTED) => true
  | EXIT_REQUESTED, EXITED => true
  | _, DEACTIVATED => true
  | _, _ => bool_decide (s = s')
  end.

(** Only key rotation removes an address, and only before exit starts. *)
Definition removable (s : ValidatorRegistrationStatus) : bool :=
  match s with STATUS_UNKNOWN | PENDING_ACTIVATION | ACTIVE | JAILED => true | _ => false end.

Definition lifecycle (r r' : ValidatorRegistry) : Prop :=
  ∀ a e, r !! a = Some e →
    match r' !! a with
    | Some e' => step_allowed (Entry.status e) (Entry.status e') = true
    | None => removable (Entry.status e) = true
    end.

Lemma step_allowed_refl s : step_allowed s s = true.
Proof. by destruct s. Qed.

Lemma lifecycle_refl r : lifecycle r r.
Proof. intros a e E. rewrite E. apply step_allowed_refl. Qed.

Lemma lifecycle_insert_new r a e : r !! a = None → lifecycle r (<[a:=e]> r).
Proof.
  intros Hn a' e' E. rewrite lookup_insert_ne by congruence. rewrite E. apply step_allowed_refl.
Qed.

Lemma lifecycle_delete_new r a e : r !! a = None → lifecycle r (delete a (<[a:=e]> r)).
Proof.
  intros Hn a' e' E. rewrite lookup_delete_ne, lookup_insert_ne by congruence.
  rewrite E. apply step_allowed_refl.
Qed.

Lemma lifecycle_update r a e e' :
  r !! a = Some e → step_allowed (Entry.status e) (Entry.status e') = true →
  lifecycle r (<[a:=e']> r).
Proof.
  intros Ea Hs b x Eb. destruct (decide (a = b)) as [->|].
  - rewrite lookup_insert_eq. by simplify_eq.
  - rewrite lookup_insert_ne, Eb by done. apply step_allowed_refl.
Qed.

Lemma lifecycle_undo r a e e' : r !! a = Some e → lifecycle r (<[a:=e]> (<[a:=e']> r)).
Proof. intros Ea. rewrite insert_insert_eq, insert_id by done. apply lifecycle_refl. Qed.

Lemma lifecycle_rotate r a e b x :
  r !! a = Some e → r !! b = None → removable (Entry.status e) = true →
  lifecycle r (<[b:=x]> (delete a r)).
Proof.
  intros Ea Eb Hr c y Ec. rewrite lookup_insert_ne by congruence.
  destruct (decide (a = c)) as [->|].
  - rewrite lookup_delete_eq. by simplify_eq.
  - rewrite lookup_delete_ne, Ec by done. apply step_allowed_refl.
Qed.

Lemma rotate_undo (r : ValidatorRegistry) a (e : ValidatorRegistryEntry) b x :
  r !! a = Some e → r !! b = None → <[a:=e]> (delete b (<[b:=x]> (delete a r))) = r.
Proof.
  intros Ea Eb. rewrite delete_insert_id; [by apply insert_delete_id|].
  rewrite lookup_delete_ne by congruence. done.
Qed.

#[local] Hint Resolve lifecycle_refl lifecycle_insert_new lifecycle_delete_new
  lifecycle_update lifecycle_undo : nodo.

Ltac status_facts :=
  repeat match goal with
  | E : negb _ = true |- _ => apply negb_true_iff in E
  | E : negb _ = false |- _ => apply negb_false_iff in E
  | E : bool_decide _ = true |- _ => apply bool_decide_eq_true in E
  | E : bool_decide _ = false |- _ => apply bool_decide_eq_false in E
  | E : _ || _ = false |- _ => apply orb_false_iff in E as [? ?]
  | E : _ || _ = true |- _ => apply orb_true_iff in E as [?|?]
  | E : hasValidator _ _ = false |- _ => unfold hasValidator in E
  | E : ¬ is_Some _ |- _ => apply eq_None_not_Some in E
  end.

Lemma run_lifecycle `{Sha256} o : within lifecycle (run o).
Proof.
  intros r. change (wp (run o) (λ _ r', lifecycle r r') r).
  destruct o; unfold run, as_change, restoreEntry, registerValidator, registerPendingValidator,
    deactivateValidator, activateValidator, jailValidator, unjailValidator, requestExit,
    completeExit, updateStake, rotateValidatorKey, writeAudited, with_entry, write, audit;
    repeat wp_step; eauto with nodo; status_facts; eauto with nodo;
    try (eapply lifecycle_update; [done|]; simpl;
         repeat match goal with E : Entry.status ?e = _ |- context [Entry.status ?e] => rewrite E end;
         (done || by destruct (Entry.status _))).
  - rewrite rotate_undo by done. apply lifecycle_refl.
  - eapply lifecycle_rotate; [done|done|]. by destruct (Entry.status _).
  - eapply lifecycle_rotate; [done|done|]. by destruct (Entry.status _).
Qed.

Definition run_all `{Sha256} (ops : list op) (r : ValidatorRegistry) : ValidatorRegistry :=
  foldl (λ r o, (run o r).2) r ops.

(** An address whose validator has left. *)
Definition left (a : string) (r : ValidatorRegistry) : Prop :=
  ∃ e, r !! a = Some e ∧ Entry.exited e = true.

Lemma run_left `{Sha256} a o r : left a r → left a (run o r).2.
Proof.
  intros (e & Ea & Hx). pose proof (run_lifecycle o r a e Ea) as Hl. unfold Entry.exited in Hx.
  destruct ((run o r).2 !! a) as [e'|] eqn:E; [exists e'; split; [done|]; unfold Entry.exited|];
    destruct (Entry.status e); try discriminate Hx; try discriminate Hl;
    destruct (Entry.status e'); try discriminate Hl; done.
Qed.

Lemma run_all_left `{Sha256} a ops r : left a r → left a (run_all ops r).
Proof. revert r. induction ops as [|o ops IH]; intros r Hl; simpl; [done|]. by apply IH, run_left. Qed.

(** ** The audit *)

(** The weight an entry contributes to consensus. *)
Definition weight (e : ValidatorRegistryEntry) : Z :=
  if Entry.eligibleForConsensus e then Entry.consensusWeight e else 0.

Lemma weight_nonneg e : 0 ≤ weight e.
Proof.
  unfold weight, Entry.eligibleForConsensus. destruct (_ && _) eqn:E; [|done].
  apply andb_true_iff in E as [_ E]. lia.
Qed.

Definition entry_ok `{Sha256} (a : string) (e : ValidatorRegistryEntry) : Prop :=
  SafeScalar.isSafeScalar a = true ∧ Entry.isValid e = Ok true ∧
  Registration.validatorAddress (Entry.registrationRecord e) = a.

Definition wf `{Sha256} (r : ValidatorRegistry) : Prop :=
  map_Forall entry_ok r ∧ map_sum weight r ≤ u64_max.

Lemma auditEntries_true `{Sha256} t l : t ≤ u64_max →
  auditEntries t l = Ok true ↔
  (∀ a e, (a, e) ∈ l → entry_ok a e) ∧ t + sum_by (weight ∘ snd) l ≤ u64_max.
Proof.
  revert t. induction l as [|[a e] l IH]; intros t Ht; simpl.
  { split; [|done]. intros _. split; [by intros a e ?%elem_of_nil|lia]. }
  pose proof (sum_by_nonneg (weight ∘ snd) l ltac:(intros; apply weight_nonneg)) as Hnn.
  pose proof (weight_nonneg e) as Hw.
  assert (∀ P : Prop, (¬ entry_ok a e) →
    ((∀ a' e', (a', e') ∈ (a, e) :: l → entry_ok a' e') ∧ P → Ok false = Ok true)) as Habs.
  { intros P Hn [Hall _]. destruct Hn. apply Hall. elem. }
  destruct (SafeScalar.isSafeScalar a) eqn:E1; simpl.
  2: { split; [done|]. apply Habs. intros (? & _). congruence. }
  destruct (Entry.isValid e) as [[]|] eqn:E2; simpl.
  3: { split; [done|]. intros [Hall _]. destruct (Hall a e) as (_ & ? & _); [elem|congruence]. }
  2: { split; [done|]. apply Habs. intros (_ & ? & _). congruence. }
  destruct (String.eqb_spec (Registration.validatorAddress (Entry.registrationRecord e)) a) as [E3|E3]; simpl.
  2: { split; [done|]. apply Habs. intros (_ & _ & ?). congruence. }
  assert (entry_ok a e) as Hok by done.
  assert (∀ t', t' = t + weight e → t' ≤ u64_max →
    (auditEntries t' l = Ok true ↔
     (∀ a' e', (a', e') ∈ (a, e) :: l → entry_ok a' e') ∧ t + (weight e + sum_by (weight ∘ snd) l) ≤ u64_max)) as Hstep.
  { intros t' -> Ht'. rewrite IH by done. split.
    - intros [Hall ?]. split; [|lia]. intros a' e' [[= -> ->]|?]%elem_of_cons; auto.
    - intros [Hall ?]. split; [|lia]. intros. apply Hall. elem. }
  unfold weight in Hstep, Hw |- *. destruct (Entry.eligibleForConsensus e) eqn:E4; [|apply Hstep; lia].
  destruct (u64_max - Entry.consensusWeight e <? t) eqn:E5; [|apply Hstep; lia].
  split; [done|]. intros [_ Hs]. unfold weight in Hnn. lia.
Qed.

Lemma isValid_wf `{Sha256} r : isValid r = Ok true ↔ wf r.
Proof.
  unfold isValid, wf. rewrite auditEntries_true by done. rewrite map_sum_entries.
  split; intros [Hall Hs]; split; try done.
  - intros a e E. by apply Hall, elem_of_entries.
  - intros a e E%elem_of_entries. by apply Hall.
Qed.

(** When no entry makes the check throw, the audit does not throw. *)
Lemma isValid_total `{Sha256} r :
  map_Forall (λ _ e, ∃ b, Entry.isValid e = Ok b) r → ∃ b, isValid r = Ok b.
Proof.
  intros Hall. unfold isValid.
  assert (∀ a e, (a, e) ∈ entries r → ∃ b, Entry.isValid e = Ok b) as Hl
    by (intros a e Hin%elem_of_entries; by eapply Hall).
  generalize 0 as t. induction (entries r) as [|[a e] l IH]; intros t; simpl; [by eexists|].
  assert (∀ t, ∃ b, auditEntries t l = Ok b) as IH' by (apply IH; intros a' e' Hin; apply (Hl a' e'); elem). clear IH.
  destruct (Hl a e) as [b ->]; [elem|].
  destruct (SafeScalar.isSafeScalar a), b; simpl; try by eexists.
  destruct (String.eqb _ _); simpl; [|by eexists].
  destruct (Entry.eligibleForConsensus e); [|apply IH'].
  destruct (_ <? _); [by eexists|apply IH'].
Qed.

Definition weightStep (total : Z) (e : string * ValidatorRegistryEntry) : result Z :=
  if negb (Entry.eligibleForConsensus e.2) then Ok total
  else
    let weight := Entry.consensusWeight e.2 in
    throw_if (u64_max - total <? weight) (overflow_error "Validator consensus weight overflow.");;
    Ok (total + weight).

Lemma weight_loop t l : t + sum_by (weight ∘ snd) l ≤ u64_max →
  foldR weightStep t l = Ok (t + sum_by (weight ∘ snd) l).
Proof.
  revert t. induction l as [|e l IH]; intros t Hs; simpl in *; [f_equal; lia|].
  pose proof (sum_by_nonneg (weight ∘ snd) l ltac:(intros; apply weight_nonneg)) as Hnn.
  change ((weight ∘ snd) e) with (weight e.2) in *.
  assert (weightStep t e = Ok (t + weight e.2)) as ->.
  { unfold weightStep. destruct (Entry.eligibleForConsensus e.2) eqn:E; simpl.
    - assert (weight e.2 = Entry.consensusWeight e.2) as Ew by (unfold weight; by rewrite E).
      rewrite <- Ew. replace (u64_max - t <? weight e.2) with false; [done|]. lia.
    - assert (weight e.2 = 0) as -> by (unfold weight; by rewrite E). f_equal. lia. }
  simpl. rewrite IH by lia. f_equal. lia.
Qed.

Lemma totalConsensusWeight_Ok `{Sha256} r : wf r → totalConsensusWeight r = Ok (map_sum weight r).
Proof. intros [_ Hs]. rewrite <- map_sum_entries in *. by apply weight_loop. Qed.

(** ** Preservation of the audit *)

Lemma entry_isValid_Ok `{Sha256} e b : Entry.isValid e = Ok b →
  ∃ v, Registration.isValid (Entry.registrationRecord e) = Ok v.
Proof. unfold Entry.isValid. intros E. inv_ok. by eexists. Qed.

Lemma entry_total `{Sha256} e e' b : Entry.isValid e = Ok b →
  Entry.registrationRecord e' = Entry.registrationRecord e → ∃ b', Entry.isValid e' = Ok b'.
Proof.
  intros [v Ev]%entry_isValid_Ok Er. unfold Entry.isValid. rewrite Er, Ev. simpl. by eexists.
Qed.

Lemma entry_isValid_true `{Sha256} e : Entry.isValid e = Ok true ↔
  Registration.isValid (Entry.registrationRecord e) = Ok true ∧ Entry.status e ≠ STATUS_UNKNOWN ∧
  0 < Entry.lastUpdatedAt e ∧
  Registration.registeredAt (Entry.registrationRecord e) ≤ Entry.lastUpdatedAt e ∧
  Entry.stakeAmount e ≤ i64_max.
Proof.
  unfold Entry.isValid. destruct (Registration.isValid _) as [[]|]; simpl; [|split; [done|by intros [? _]]..].
  case_bool_decide; [split; [done|by intros (_ & ? & _)]|].
  destruct (_ <=? 0) eqn:E1; [split; [done|lia]|].
  destruct (_ <? Registration.registeredAt _) eqn:E2; [split; [done|lia]|].
  destruct (i64_max <? _) eqn:E3; [split; [done|lia]|].
  split; [|done]. intros _. split_and!; try done; lia.
Qed.

Lemma wf_update `{Sha256} r a e e' :
  wf r → r !! a = Some e → Entry.isValid e' = Ok true →
  Entry.registrationRecord e' = Entry.registrationRecord e → weight e' ≤ weight e →
  wf (<[a:=e']> r).
Proof.
  intros [Hall Hs] Ea Hv Hr Hw. destruct (Hall a e Ea) as (? & _ & ?). split.
  - apply map_Forall_insert_2; [|done]. split_and!; [done|done|by rewrite Hr].
  - rewrite (map_sum_update _ _ _ e) by done. lia.
Qed.

Lemma inactive_weight e : Entry.status e ≠ ACTIVE → weight e = 0.
Proof. intros Hs. unfold weight, Entry.eligibleForConsensus. by rewrite bool_decide_false. Qed.

(** The audit after an entry was written does not throw. *)
Lemma audit_insert_total `{Sha256} r a e b : wf r → Entry.isValid e = Ok b →
  ∃ b', isValid (<[a:=e]> r) = Ok b'.
Proof.
  intros [Hall _] He. apply isValid_total, map_Forall_insert_2; [by eexists|].
  intros k x Hk. destruct (Hall k x Hk) as (_ & ? & _). by eexists.
Qed.

Lemma audit_update_total `{Sha256} r a e e' : wf r → r !! a = Some e →
  Entry.registrationRecord e' = Entry.registrationRecord e → ∃ b', isValid (<[a:=e']> r) = Ok b'.
Proof.
  intros Hwf Ea Hr. destruct (proj1 Hwf a e Ea) as (_ & Hv & _).
  destruct (entry_total e e' true Hv Hr) as [b Hb]. by eapply audit_insert_total.
Qed.

Lemma wf_delete `{Sha256} r a : wf r → wf (delete a r).
Proof.
  intros [Hall Hs]. split; [by apply map_Forall_delete|].
  destruct (r !! a) as [e|] eqn:Ea; [|by rewrite delete_id].
  rewrite (map_sum_delete _ _ _ _ Ea) in Hs. pose proof (weight_nonneg e). lia.
Qed.

(** A timestamp that the unchecked transitions need. *)
Definition timely (r : ValidatorRegistry) (o : op) : Prop :=
  match o with
  | OpJail a _ t | OpRequestExit a _ t | OpCompleteExit a t =>
      0 < t ∧ ∀ e, r !! a = Some e → Registration.registeredAt (Entry.registrationRecord e) ≤ t
  | _ => True
  end.

Definition audited_outcome `{Sha256} (r : ValidatorRegistry) (o : op) (res : result bool) (r' : ValidatorRegistry) : Prop :=
  match res with
  | Ok changed => (timely r o → wf r') ∧ (changed = false → r' = r)
  | Throw _ => r' = r
  end.

Lemma undo_insert (r : ValidatorRegistry) a (e e' : ValidatorRegistryEntry) :
  r !! a = Some e → <[a:=e]> (<[a:=e']> r) = r.
Proof. intros Ea. by rewrite insert_insert_eq, insert_id. Qed.

Lemma undo_new (r : ValidatorRegistry) a (e : ValidatorRegistryEntry) :
  r !! a = None → delete a (<[a:=e]> r) = r.
Proof. apply delete_insert_id. Qed.

(** The audit ran on a registry that cannot make it throw. *)
Ltac audit_total :=
  match goal with
  | Hwf : wf ?r, E : isValid (<[?a:=?e]> ?r) = Throw _ |- _ =>
      exfalso;
      first
        [ match goal with He : Entry.isValid e = Ok _ |- _ =>
            destruct (audit_insert_total r a e _ Hwf He) as [? ?]; congruence end
        | match goal with Ea : r !! a = Some ?old |- _ =>
            destruct (audit_update_total r a old e Hwf Ea eq_refl) as [? ?]; congruence end ]
  | Hwf : wf ?r, E : isValid (<[?b:=?e]> (delete ?a ?r)) = Throw _, He : Entry.isValid ?e = Ok _ |- _ =>
      exfalso; destruct (audit_insert_total (delete a r) b e _ (wf_delete r a Hwf) He) as [? ?]; congruence
  end.

(** A transition out of consensus keeps the registry well formed. *)
Lemma wf_leave `{Sha256} r a e e' :
  wf r → r !! a = Some e → Entry.registrationRecord e' = Entry.registrationRecord e →
  Entry.status e' ≠ STATUS_UNKNOWN → Entry.status e' ≠ ACTIVE →
  Entry.stakeAmount e' = Entry.stakeAmount e → 0 < Entry.lastUpdatedAt e' →
  Registration.registeredAt (Entry.registrationRecord e) ≤ Entry.lastUpdatedAt e' →
  wf (<[a:=e']> r).
Proof.
  intros Hwf Ea Hr Hs1 Hs2 Hst Ht1 Ht2. destruct (proj1 Hwf a e Ea) as (_ & Hv & _).
  apply entry_isValid_true in Hv as (Hrec & _ & _ & _ & Hmax). eapply wf_update; try done.
  - apply entry_isValid_true. rewrite Hr, Hst. split_and!; try done; lia.
  - rewrite inactive_weight by done. apply weight_nonneg.
Qed.

Ltac outcome :=
  first
    [ done
    | split; [intros _; assumption|done]
    | audit_total
    | split; [intros _; by apply isValid_wf|done]
    | rewrite undo_insert by done; split; [intros _; assumption|done]
    | rewrite undo_new by done; split; [intros _; assumption|done]
    | rewrite rotate_undo by done; split; [intros _; assumption|done]
    | split; [intros [Ht1 Ht2]; eapply wf_leave; simpl; try done; eauto with lia|done] ].

Lemma run_audited_outcome `{Sha256} o r :
  wf r → wp (run o) (audited_outcome r o) r.
Proof.
  intros Hwf. destruct o;
    unfold run, as_change, restoreEntry, registerValidator, registerPendingValidator,
    deactivateValidator, activateValidator, jailValidator, unjailValidator, requestExit,
    completeExit, updateStake, rotateValidatorKey, writeAudited, with_entry, write, audit;
    repeat wp_step; status_facts; subst; simpl; try outcome.
  exfalso. apply entry_isValid_true in Heqr0 as (_ & _ & Ht1 & Ht2 & _). simpl in *.
  assert (wf (<[address:=Entry.mk (Entry.registrationRecord t) DEACTIVATED timestamp
    (Entry.stakeAmount t) (Entry.jailUntilEpoch t) (Entry.exitRequestHeight t) (Entry.ownerAddress t)]> r))
    as Hv%isValid_wf by (by eapply wf_leave).
  congruence.
Qed.

End ValidatorFacts.

(** ** The history of validator sets *)

(** How the caller of [recordSet] refers to the registry: an object of its own,
    or a reference to the set stored under a key of the history itself. *)
Inductive registry_ref :=
| External (registry : ValidatorRegistry)
| StoredAt (key : Z).

Module SetHistory.

Record t := mk {
  firstHeight : Z;
  highestHeight : Z;
  setsByHeight : gmap Z ValidatorRegistry;
}.

Definition empty : t := mk 0 0 ∅.

(** [m_setsByHeight.rbegin()] *)
Definition rbegin (m : gmap Z ValidatorRegistry) : option (Z * ValidatorRegistry) := last (entries m).

(** [std::prev(m_setsByHeight.upper_bound(height))] *)
Definition floor (m : gmap Z ValidatorRegistry) (height : Z) : option (Z * ValidatorRegistry) :=
  last (filter (λ e, e.1 ≤ height) (entries m)).

Section history.
Context `{Sha256}.

Definition hasSet (h : t) (height : Z) : bool :=
  negb (firstHeight h =? 0) && (firstHeight h <=? height) && (height <=? highestHeight h).

(** [setAt], with the key of the stored set; stepping before the first
    element is undefined behaviour in C++, reported here as [logic_error]. *)
Definition locate (h : t) (height : Z) : result (Z * ValidatorRegistry) :=
  throw_if (negb (hasSet h height))
    (out_of_range "No validator set recorded for block height.");;
  match floor (setsByHeight h) height with
  | Some e => Ok e
  | None => Throw (logic_error "undefined behaviour: iterator before begin")
  end.

Definition setAt (h : t) (height : Z) : result ValidatorRegistry := snd <$> locate h height.

Definition deref (h : t) (ref : registry_ref) : result ValidatorRegistry :=
  match ref with
  | External r => Ok r
  | StoredAt k =>
      match setsByHeight h !! k with
      | Some r => Ok r
      | None => Throw (logic_error "undefined behaviour: dangling reference")
      end
  end.

(** [&stored == &registry] for the set stored under [key]. *)
Definition same_object (ref : registry_ref) (key : Z) : bool :=
  match ref with External _ => false | StoredAt k => k =? key end.

Definition equalSerialized (a b : ValidatorRegistry) : result bool :=
  sa ← Validators.serialize a;
  sb ← Validators.serialize b;
  Ok (String.eqb sa sb).

Definition recordSet (height : Z) (ref : registry_ref) (h : t) : result (bool * t) :=
  if height =? 0 then Ok (false, h)
  else
    registry ← deref h ref;
    let alreadyStored :=
      match rbegin (setsByHeight h) with None => false | Some e => same_object ref e.1 end in
    valid ← (if alreadyStored then Ok true else Validators.isValid registry);
    if negb valid then Ok (false, h)
    else if hasSet h height then
      existing ← locate h height;
      same ← (if same_object ref existing.1 then Ok true
              else equalSerialized existing.2 registry);
      Ok (same, h)
    else if negb (firstHeight h =? 0) &&
            ((highestHeight h =? u64_max) || negb (height =? highestHeight h + 1)) then Ok (false, h)
    else if firstHeight h =? 0 then
      Ok (true, mk height height
             (if bool_decide (is_Some (setsByHeight h !! height)) then setsByHeight h
              else <[height := registry]> (setsByHeight h)))
    else
      changed ← (if alreadyStored then Ok false
                 else match rbegin (setsByHeight h) with
                   | None => Throw (logic_error "undefined behaviour: rbegin of an empty map")
                   | Some e => negb <$> equalSerialized e.2 registry
                   end);
      Ok (true, mk (firstHeight h) height
             (if (changed : bool) && negb (bool_decide (is_Some (setsByHeight h !! height)))
              then <[height := registry]> (setsByHeight h) else setsByHeight h)).

(** The loop of [isValid]: [previous] is the set visited before. *)
Fixpoint auditSets (highest : Z) (previous : option ValidatorRegistry)
    (l : list (Z * ValidatorRegistry)) : result bool :=
  match l with
  | [] => Ok true
  | (height, registry) :: l =>
      if highest <? height then Ok false
      else
        valid ← Validators.isValid registry;
        if negb valid then Ok false
        else
          same ← (match previous with
                  | None => Ok false
                  | Some p => equalSerialized p registry
                  end);
          if same : bool then Ok false else auditSets highest (Some registry) l
  end.

Definition isValid (h : t) : result bool :=
  if firstHeight h =? 0 then
    Ok ((highestHeight h =? 0) && bool_decide (setsByHeight h = ∅))
  else match head (entries (setsByHeight h)), rbegin (setsByHeight h) with
    | Some b, Some e =>
        if negb (b.1 =? firstHeight h) || (highestHeight h <? firstHeight h) ||
           (highestHeight h <? e.1) then Ok false
        else auditSets (highestHeight h) None (entries (setsByHeight h))
    | _, _ => Ok false
    end.

Definition changesOnlyAtBoundaries (h : t) (epochLength : Z) : result bool :=
  if epochLength =? 0 then Ok false
  else
    valid ← isValid h;
    if negb valid then Ok false
    else Ok (forallb (λ e, (e.1 - 1) mod epochLength =? 0) (tail (entries (setsByHeight h)))).

Definition windowFrom (h : t) (fromHeight : Z) : result t :=
  throw_if (negb (hasSet h fromHeight))
    (out_of_range "Validator-set window start is not recorded.");;
  start ← setAt h fromHeight;
  Ok (mk fromHeight (highestHeight h)
        (<[fromHeight := start]> (filter (λ e, fromHeight < e.1) (setsByHeight h)))).

Definition restore (firstHeight highestHeight : Z) (changes : gmap Z ValidatorRegistry)
    : result (option t) :=
  let h := mk firstHeight highestHeight changes in
  if firstHeight =? 0 then Ok None
  else
    valid ← isValid h;
    Ok (if negb valid then None else Some h).
End history.
End SetHistory.

(** ** Lemmas on the history *)

Module HistoryFacts.
Import SetHistory.

(** The shape of a history: empty, or one set at its first height and all
    changes between its first and its highest height. *)
Definition wf (h : t) : Prop :=
  (firstHeight h = 0 ∧ highestHeight h = 0 ∧ setsByHeight h = ∅) ∨
  (0 < firstHeight h ≤ highestHeight h ∧ is_Some (setsByHeight h !! firstHeight h) ∧
   ∀ k r, setsByHeight h !! k = Some r → firstHeight h ≤ k ≤ highestHeight h).

Lemma floor_spec m height k r :
  floor m height = Some (k, r) ↔
  m !! k = Some r ∧ k ≤ height ∧ ∀ k' r', m !! k' = Some r' → k' ≤ height → k' ≤ k.
Proof. unfold floor. by rewrite last_filter_entries. Qed.

Lemma rbegin_spec m k r :
  rbegin m = Some (k, r) ↔ m !! k = Some r ∧ ∀ k' r', m !! k' = Some r' → k' ≤ k.
Proof.
  unfold rbegin. assert (entries m = filter (λ _, True) (entries m)) as ->.
  { induction (entries m) as [|e l IH]; [done|]. rewrite filter_cons_True by done. by f_equal. }
  rewrite last_filter_entries. simpl. split; intros (? & ?); intuition eauto.
Qed.

Lemma floor_ext m m' height :
  (∀ k, k ≤ height → m !! k = m' !! k) → floor m height = floor m' height.
Proof.
  intros Hext. apply option_eq. intros [k r]. rewrite !floor_spec. split; intros (Hk & Hle & Hmax).
  - split_and!; [by rewrite <- Hext|done|]. intros k' r' Hk' Hle'. apply (Hmax k' r'); [by rewrite Hext|done].
  - split_and!; [by rewrite Hext|done|]. intros k' r' Hk' Hle'. apply (Hmax k' r'); [by rewrite <- Hext|done].
Qed.

(** A recorded height has a set. *)
Lemma floor_exists h height :
  wf h → hasSet h height = true → ∃ k r, floor (setsByHeight h) height = Some (k, r).
Proof.
  unfold hasSet. intros [(-> & _)|(Hf & [r0 Hr0] & _)] Hh; [done|].
  inv_ok. destruct (floor (setsByHeight h) height) as [[k r]|] eqn:E; [by exists k, r|].
  unfold floor in E. apply last_None in E.
  assert ((firstHeight h, r0) ∈ filter (λ e, e.1 ≤ height) (entries (setsByHeight h))) as Hin.
  { apply list_elem_of_filter. split; [simpl; lia|by apply elem_of_entries]. }
  rewrite E in Hin. by apply elem_of_nil in Hin.
Qed.

Lemma setAt_floor h height k r :
  hasSet h height = true → floor (setsByHeight h) height = Some (k, r) → setAt h height = Ok r.
Proof. intros Hh Hf. unfold setAt, locate. by rewrite Hh, Hf. Qed.

Lemma window_lookup h from w :
  wf h → windowFrom h from = Ok w → ∀ height, from ≤ height → setAt w height = setAt h height.
Proof.
  intros Hwf Hw height Hle. unfold windowFrom in Hw. inv_ok.
  match goal with E : hasSet h from = true |- _ => rename E into Hfrom end.
  destruct (floor_exists h from Hwf Hfrom) as (k0 & r0 & Hfl).
  match goal with E : setAt h from = Ok _ |- _ =>
    rewrite (setAt_floor h from k0 r0 Hfrom Hfl) in E; injection E as <- end.
  unfold setAt, locate. set (w := mk _ _ _).
  assert (hasSet w height = hasSet h height) as ->.
  { unfold hasSet in *. inv_ok. simpl. destruct Hwf as [(? & _)|(? & _)]; lia. }
  destruct (hasSet h height) eqn:Hh; [|done]. simpl.
  destruct (floor_exists h height Hwf Hh) as (k & r & Hfl'). rewrite Hfl'.
  pose proof Hfl as (Hk0 & Hk0le & Hk0max)%floor_spec. pose proof Hfl' as (Hk & Hkle & Hkmax)%floor_spec.
  assert (floor (<[from:=r0]> (filter (λ e, from < e.1) (setsByHeight h))) height
          = Some (Z.max from k, r)) as ->; [|done].
  apply floor_spec. simpl. destruct (decide (from < k)).
  - rewrite Z.max_r by lia. split_and!; [|lia|].
    + rewrite lookup_insert_ne by lia. apply map_lookup_filter_Some. by split; [|simpl; lia].
    + intros k' r' [[<- <-]|[_ [Hk' _]%map_lookup_filter_Some]]%lookup_insert_Some ?; [lia|]. eauto.
  - assert (k = k0) as ->.
    { apply Z.le_antisymm; [by apply (Hk0max k r); [|lia]|apply (Hkmax k0 r0); [done|lia]]. }
    rewrite Z.max_l by lia. split_and!; [|lia|].
    + rewrite lookup_insert_eq. congruence.
    + intros k' r' [[<- <-]|[? [Hk' Hlt]%map_lookup_filter_Some]]%lookup_insert_Some ?; [lia|].
      simpl in Hlt. pose proof (Hkmax k' r' Hk'). lia.
Qed.

(** Two registries that the code cannot tell apart: the same object, or the
    same serialized text. *)
Definition same_set `{Sha256} (a b : ValidatorRegistry) : Prop :=
  a = b ∨ equalSerialized a b = Ok true.

Lemma equalSerialized_sym `{Sha256} a b : equalSerialized a b = Ok true → equalSerialized b a = Ok true.
Proof.
  unfold equalSerialized. intros H'. inv_ok.
  match goal with E : String.eqb _ _ = true |- _ => apply String.eqb_eq in E; subst end.
  do 2 (match goal with E : Validators.serialize _ = _ |- _ => rewrite E; simpl; clear E end).
  by rewrite String.eqb_refl.
Qed.

(** Appending one height: earlier heights keep their set, and the new height
    has the new set when it is stored and the last one otherwise. *)
Lemma append_lookup h height m :
  wf h → 0 < firstHeight h → height = highestHeight h + 1 →
  (∀ k, k ≤ highestHeight h → m !! k = setsByHeight h !! k) →
  (∀ k r, m !! k = Some r → k ≤ height) →
  wf (mk (firstHeight h) height m) ∧
  ∀ k, hasSet h k = true → setAt (mk (firstHeight h) height m) k = setAt h k.
Proof.
  intros [(? & _)|(Hf & Hs & Hall)] Hpos -> Hm Hmax; [lia|]. split.
  - right. simpl. split; [lia|]. rewrite Hm by lia. split; [done|].
    intros k r Hk. split; [|by eapply Hmax].
    destruct (decide (k ≤ highestHeight h)); [|lia]. rewrite Hm in Hk by done. apply Hall in Hk. lia.
  - intros k Hk. unfold setAt, locate. rewrite Hk.
    assert (hasSet (mk (firstHeight h) (highestHeight h + 1) m) k = true) as ->
      by (unfold hasSet in *; inv_ok; simpl; lia).
    simpl. rewrite (floor_ext m (setsByHeight h)); [done|]. unfold hasSet in Hk. inv_ok.
    intros k' Hk'. apply Hm. lia.
Qed.

(** A reference to a stored set denotes that set. *)
Lemma same_object_deref h ref k r reg :
  same_object ref k = true → setsByHeight h !! k = Some r → deref h ref = Ok reg → reg = r.
Proof.
  destruct ref as [x|k']; simpl; [done|]. intros ->%Z.eqb_eq -> E. by inv_ok.
Qed.

(** The set that a height beyond the highest one falls back to. *)
Lemma floor_beyond h height k r :
  wf h → 0 < firstHeight h → highestHeight h ≤ height →
  rbegin (setsByHeight h) = Some (k, r) → floor (setsByHeight h) height = Some (k, r).
Proof.
  intros [(? & _)|(_ & _ & Hall)] Hpos Hle (Hk & Hmax)%rbegin_spec; [lia|].
  apply floor_spec. split_and!; [done|apply Hall in Hk; lia|]. eauto.
Qed.

Definition recorded `{Sha256} (h h' : t) (height : Z) (ref : registry_ref) : Prop :=
  wf h' ∧ (∀ k, hasSet h k = true → setAt h' k = setAt h k) ∧
  ∃ reg r, deref h ref = Ok reg ∧ setAt h' height = Ok r ∧ same_set r reg.

Lemma record_existing `{Sha256} h height ref reg existing same :
  wf h → deref h ref = Ok reg → locate h height = Ok existing →
  (if same_object ref existing.1 then Ok true else equalSerialized existing.2 reg) = Ok same →
  same = true → recorded h h height ref.
Proof.
  intros Hwf Hreg Hloc Hsame ->. destruct existing as [k r]. split_and!; try done.
  exists reg, r. split_and!; [done|unfold setAt; by rewrite Hloc|]. simpl in Hsame.
  unfold locate in Hloc. inv_ok.
  destruct (floor (setsByHeight h) height) as [[k' r']|] eqn:Hfl; [|done]. inv_ok.
  apply floor_spec in Hfl as (Hk & _).
  destruct (same_object ref k) eqn:Es; [|by right]. left. symmetry. by eapply same_object_deref.
Qed.

Lemma record_first `{Sha256} h height ref reg :
  wf h → firstHeight h = 0 → 0 < height → deref h ref = Ok reg →
  recorded h (mk height height (<[height := reg]> (setsByHeight h))) height ref.
Proof.
  intros [(H0 & _ & Hsets)|(? & _)] Hf Hpos Hreg; [|lia]. rewrite Hsets. split_and!.
  - right. simpl. rewrite lookup_insert_eq. split; [lia|]. split; [by eexists|].
    intros k r [[<- _]|[_ ?]]%lookup_insert_Some; [lia|]. by rewrite lookup_empty in *.
  - intros k Hk. unfold hasSet in Hk. by rewrite Hf in Hk.
  - exists reg, reg. split_and!; [done| |by left]. eapply setAt_floor.
    + unfold hasSet. simpl. lia.
    + apply floor_spec. simpl. rewrite lookup_insert_eq. split_and!; [done|done|].
      intros k' r' _ ?. done.
Qed.

Lemma record_append `{Sha256} h height ref reg (changed : bool) :
  wf h → 0 < firstHeight h → height = highestHeight h + 1 → deref h ref = Ok reg →
  (changed = false → ∃ k r, rbegin (setsByHeight h) = Some (k, r) ∧ same_set r reg) →
  recorded h (mk (firstHeight h) height
                (if changed then <[height := reg]> (setsByHeight h) else setsByHeight h)) height ref.
Proof.
  intros Hwf Hpos -> Hreg Hunch. pose proof Hwf as [(? & _)|(Hf & _ & Hall)]; [lia|].
  destruct (append_lookup h (highestHeight h + 1)
    (if changed then <[highestHeight h + 1 := reg]> (setsByHeight h) else setsByHeight h)) as [Hwf' Hold];
    try done.
  { intros k Hk. destruct changed; [|done]. by rewrite lookup_insert_ne by lia. }
  { intros k r Hk. destruct changed; [apply lookup_insert_Some in Hk as [[<- _]|[_ Hk]]; [lia|]|];
      apply Hall in Hk; lia. }
  split_and!; [done|done|]. assert (hasSet (mk (firstHeight h) (highestHeight h + 1)
    (if changed then <[highestHeight h + 1 := reg]> (setsByHeight h) else setsByHeight h))
    (highestHeight h + 1) = true) as Hhas by (unfold hasSet; simpl; lia).
  destruct changed.
  - exists reg, reg. split_and!; [done| |by left]. eapply setAt_floor; [done|].
    apply floor_spec. simpl. rewrite lookup_insert_eq. split_and!; [done|done|]. intros; lia.
  - destruct Hunch as (k & r & Hrb & Hsame); [done|]. exists reg, r. split_and!; [done| |done].
    eapply setAt_floor; [done|]. apply floor_beyond; (done || lia).
Qed.

Lemma recordSet_recorded `{Sha256} h height ref h' :
  wf h → 0 ≤ height → recordSet height ref h = Ok (true, h') → recorded h h' height ref.
Proof.
  intros Hwf Hnn Hr. unfold recordSet in Hr. destruct (height =? 0) eqn:E0; [by inv_ok|].
  apply bind_Ok in Hr as (reg & Hreg & Hr). apply bind_Ok in Hr as (valid & _ & Hr).
  destruct valid; simpl in Hr; [|by inv_ok].
  destruct (hasSet h height) eqn:Ehas.
  { apply bind_Ok in Hr as (ex & Hex & Hr). apply bind_Ok in Hr as (same & Hsame & Hr). inv_ok.
    by eapply record_existing. }
  destruct (negb (firstHeight h =? 0) && _) eqn:Eg; [by inv_ok|].
  destruct (firstHeight h =? 0) eqn:Ef.
  { inv_ok. assert (firstHeight h = 0) as Ef' by lia.
    destruct (Hwf) as [(_ & _ & Hs)|(? & _)]; [|lia]. rewrite bool_decide_false.
    - apply record_first; try done. lia.
    - rewrite Hs, lookup_empty. by intros [? ?]. }
  simpl in Eg. apply bind_Ok in Hr as (changed & Hch & Hr). inv_ok.
  match goal with E : (height =? _) = true |- _ => apply Z.eqb_eq in E as Eh end.
  pose proof Hwf as [(? & _)|(Hf & _ & Hall)]; [lia|].
  rewrite bool_decide_false by (intros [x Hx]; apply Hall in Hx; lia). rewrite andb_true_r.
  apply record_append; try done; [lia|]. intros ->.
  destruct (rbegin (setsByHeight h)) as [[k r]|] eqn:Erb; [|done]. simpl in Hch.
  exists k, r. split; [done|]. apply rbegin_spec in Erb as [Hk _].
  destruct (same_object ref k) eqn:Es.
  - left. symmetry. by eapply same_object_deref.
  - inv_ok. by right.
Qed.

End HistoryFacts.

(** ** What the registry and the history promise *)

Module ValidatorProperties.
Import Validators ValidatorFacts.

Lemma consensusWeightFor_entry (r : ValidatorRegistry) a e :
  r !! a = Some e → consensusWeightFor r a = weight e.
Proof. intros E. unfold consensusWeightFor, weight. rewrite E. by destruct (Entry.eligibleForConsensus e). Qed.

Lemma sum_weights (r : ValidatorRegistry) :
  sum_by (consensusWeightFor r) (validatorAddresses r) = map_sum weight r.
Proof.
  unfold validatorAddresses. rewrite sum_by_fmap, <- map_sum_entries. apply sum_by_ext.
  intros [a e] Hin%elem_of_entries. simpl. by apply consensusWeightFor_entry.
Qed.

(** C6. Every operation on an audited registry is all or nothing: one that reports no
    change, or throws, leaves the registry exactly as it was.  Every operation
    that returns keeps the registry audited; jailing and the two exit steps, which
    do not audit again, only when their timestamp is positive and not before the
    registration of the validator. *)
Theorem registry_operations_audited `{Sha256} (o : op) (r : ValidatorRegistry) :
  isValid r = Ok true →
  match run o r with
  | (Ok changed, r') => (timely r o → isValid r' = Ok true) ∧ (changed = false → r' = r)
  | (Throw _, r') => r' = r
  end.
Proof.
  intros Hwf%isValid_wf. pose proof (run_audited_outcome o r Hwf) as Ho. unfold wp in Ho.
  destruct (run o r) as [[b|e] r']; simpl in Ho; [|done]. by rewrite isValid_wf.
Qed.

(** Leaving is final: once the validator of an address is EXITED or
    DEACTIVATED, it stays so under that address through every sequence of
    operations, thrown ones included, and never has consensus weight again. *)
Theorem exited_is_terminal `{Sha256} (ops : list op) (r : ValidatorRegistry) (a : string) :
  left a r →
  left a (run_all ops r) ∧ consensusWeightFor (run_all ops r) a = 0 ∧
  isActiveValidator (run_all ops r) a = false.
Proof.
  intros Hl%(run_all_left a ops). split; [done|]. destruct Hl as (e & Ea & Hx).
  unfold consensusWeightFor, isActiveValidator, Entry.eligibleForConsensus, Entry.active. rewrite Ea.
  unfold Entry.exited in Hx. by destruct (Entry.status e).
Qed.

(** Status changes follow the lifecycle: under its address a validator only
    moves along the allowed transitions, and it disappears from the registry
    only by key rotation before it started to exit. *)
Theorem registry_follows_lifecycle `{Sha256} (o : op) (r : ValidatorRegistry) (a : string) e :
  r !! a = Some e →
  match (run o r).2 !! a with
  | Some e' => step_allowed (Entry.status e) (Entry.status e') = true
  | None => removable (Entry.status e) = true
  end.
Proof. apply run_lifecycle. Qed.

(** The total consensus weight of an audited registry is returned without
    overflow, is the sum of the weights of its validators, and fits in 64 bits. *)
Theorem total_weight_exact `{Sha256} (r : ValidatorRegistry) :
  isValid r = Ok true →
  totalConsensusWeight r = Ok (sum_by (consensusWeightFor r) (validatorAddresses r)) ∧
  u64 (sum_by (consensusWeightFor r) (validatorAddresses r)).
Proof.
  intros Hwf%isValid_wf. rewrite sum_weights. split; [by apply totalConsensusWeight_Ok|].
  destruct Hwf as [_ Hs]. split; [|done]. apply map_sum_nonneg, weight_nonneg.
Qed.

(** Recording a validator set for the next height keeps the set of every
    earlier height, and the recorded height then has the given set, up to the
    serialized text by which the code compares sets. *)
Theorem recordSet_extends_history `{Sha256} (h h' : SetHistory.t) (height : Z) (ref : registry_ref) :
  HistoryFacts.wf h → 0 ≤ height → SetHistory.recordSet height ref h = Ok (true, h') →
  HistoryFacts.wf h' ∧
  (∀ k, SetHistory.hasSet h k = true → SetHistory.setAt h' k = SetHistory.setAt h k) ∧
  ∃ reg r, SetHistory.deref h ref = Ok reg ∧ SetHistory.setAt h' height = Ok r ∧
           HistoryFacts.same_set r reg.
Proof. apply HistoryFacts.recordSet_recorded. Qed.

(** A window of the history answers every lookup at or above its start
    exactly as the full history does. *)
Theorem window_preserves_lookups (h w : SetHistory.t) (from height : Z) :
  HistoryFacts.wf h → SetHistory.windowFrom h from = Ok w → from ≤ height →
  SetHistory.setAt w height = SetHistory.setAt h height.
Proof. intros Hwf Hw. by apply (HistoryFacts.window_lookup h from w Hwf Hw). Qed.

(** *** Concrete registries *)

#[local] Instance toy : Sha256 := CryptoProperties.toy_sha256.

Definition address_of (k : PublicKey) : string :=
  match AddressDerivation.deriveFromPublicKey k with Ok a => a | Throw _ => "" end.
Definition key (material : string) : PublicKey := PublicKey.mk DEVELOPMENT_FAKE_SIGNATURE material.
Definition record_for (k : PublicKey) : ValidatorRegistrationRecord :=
  Registration.mk (address_of k) k 1 "meta" 1700000000.
Definition alice : PublicKey := key "alice".
Definition one_validator : ValidatorRegistry :=
  (run (OpRegister (record_for alice) 2000000 "owner") ∅).2.

(** Needed timestamp: [jailValidator] writes its entry without the audit the
    other operations make, so jailing with a timestamp before the registration
    is reported as a change and leaves a registry that fails its own audit. *)
Theorem jail_in_the_past_breaks_audit :
  let out := jailValidator (address_of alice) 5 1 one_validator in
  isValid one_validator = Ok true ∧
  (u_success <$> out.1) = Ok true ∧ isValid out.2 = Ok false.
Proof. vm_compute. done. Qed.

Lemma registry_operations_audited_witness :
  isValid (run (OpJail (address_of alice) 5 1700000001) one_validator).2 = Ok true.
Proof.
  pose proof (registry_operations_audited (OpJail (address_of alice) 5 1700000001) one_validator) as Hr.
  destruct (run (OpJail (address_of alice) 5 1700000001) one_validator) as [[b|e] r'] eqn:E.
  - apply Hr; [vm_compute; reflexivity|]. split; [lia|]. intros e He. vm_compute in He.
    injection He as <-. vm_compute. discriminate.
  - exfalso. apply (f_equal fst) in E. vm_compute in E. discriminate E.
Defined.

Definition left_validator : ValidatorRegistry :=
  run_all [OpRequestExit (address_of alice) 7 1700000001; OpCompleteExit (address_of alice) 1700000002]
    one_validator.

Lemma exited_is_terminal_witness :
  consensusWeightFor (run_all [OpUnjail (address_of alice) 9 1700000003;
                               OpRegister (record_for alice) 5000000 "owner"] left_validator)
    (address_of alice) = 0.
Proof.
  apply exited_is_terminal. unfold left.
  eexists. split; [vm_compute; reflexivity|vm_compute; reflexivity].
Defined.

Lemma registry_follows_lifecycle_witness : ∃ e,
  one_validator !! address_of alice = Some e ∧
  match (run (OpJail (address_of alice) 5 1700000001) one_validator).2 !! address_of alice with
  | Some e' => step_allowed (Entry.status e) (Entry.status e') = true
  | None => removable (Entry.status e) = true
  end.
Proof.
  eexists. split; [vm_compute; reflexivity|].
  apply registry_follows_lifecycle. vm_compute. reflexivity.
Defined.

Lemma total_weight_exact_witness :
  totalConsensusWeight one_validator =
  Ok (sum_by (consensusWeightFor one_validator) (validatorAddresses one_validator)).
Proof. apply total_weight_exact. vm_compute. reflexivity. Defined.

Definition first_history : SetHistory.t := SetHistory.mk 5 5 {[ 5 := one_validator ]}.

Lemma first_history_wf : HistoryFacts.wf first_history.
Proof.
  right. simpl. rewrite lookup_singleton_eq. split; [lia|]. split; [by eexists|].
  intros k r [<- _]%lookup_singleton_Some. lia.
Qed.

Lemma recordSet_extends_history_witness :
  ∃ h', SetHistory.recordSet 6 (External left_validator) first_history = Ok (true, h') ∧
        SetHistory.setAt h' 5 = Ok one_validator.
Proof.
  eexists. split; [vm_compute; reflexivity|].
  match goal with |- SetHistory.setAt ?h' 5 = _ =>
    destruct (recordSet_extends_history first_history h' 6 (External left_validator)) as (_ & Hold & _) end;
    [exact first_history_wf|lia|vm_compute; reflexivity|].
  rewrite Hold; vm_compute; reflexivity.
Defined.

Lemma window_preserves_lookups_witness :
  ∃ w, SetHistory.windowFrom first_history 5 = Ok w ∧
       SetHistory.setAt w 5 = SetHistory.setAt first_history 5.
Proof.
  eexists. split; [vm_compute; reflexivity|].
  apply (window_preserves_lookups _ _ 5); [exact first_history_wf|vm_compute; reflexivity|lia].
Defined.

End ValidatorProperties.
