(* ===== verification/Quorum.v ===== *)
(** * consensus: votes, the quorum threshold and quorum certificates

    Models src/include/consensus/QuorumThreshold.hpp,
    src/src/consensus/ValidatorVoteRecord.cpp (all but the text parser) and
    src/src/consensus/QuorumCertificate.cpp (all but the text parser). *)

From S2P Require Import Prelude Utils Crypto ValidatorRegistry.

Module QuorumThreshold.
Definition kNumerator : Z := 2.
Definition kDenominator : Z := 3.

Definition isCanonicalFraction (numerator denominator : Z) : bool :=
  (numerator =? kNumerator) && (denominator =? kDenominator).

Definition requiredWeight (totalWeight : Z) : result Z :=
  throw_if (totalWeight =? 0)
    (invalid_argument "Quorum requires positive total voting weight.");;
  Ok (totalWeight - Z.quot (totalWeight - 1) kDenominator).
End QuorumThreshold.

Inductive ValidatorVoteDecision := DECISION_UNKNOWN | REJECT | PREVOTE | PRECOMMIT.

#[global] Instance ValidatorVoteDecision_eq_dec : EqDecision ValidatorVoteDecision.
Proof. solve_decision. Defined.

Definition validatorVoteDecisionToString (d : ValidatorVoteDecision) : string :=
  match d with
  | REJECT => "REJECT"
  | PREVOTE => "PREVOTE"
  | PRECOMMIT => "PRECOMMIT"
  | DECISION_UNKNOWN => "UNKNOWN"
  end.

Module Vote.
Record t := mk {
  validatorAddress : string;
  validatorPublicKey : PublicKey;
  blockIndex : Z;
  blockHash : string;
  previousHash : string;
  round : Z;
  decision : ValidatorVoteDecision;
  reasonHash : string;
  createdAt : Z;
  signatureBundle : SignatureBundle;
}.

#[global] Instance eq_dec : EqDecision t.
Proof. solve_decision. Defined.

Section vote.
Context `{Sha256}.

Definition isValidatorAddressBoundToPublicKey (address : string) (k : PublicKey) : result bool :=
  if negb (Address.isValid address) then Ok false
  else AddressDerivation.verifyAddressForPublicKey address k.

Definition buildSigningPayload (address : string) (k : PublicKey) (blockIndex : Z)
    (blockHash previousHash : string) (round : Z) (decision : ValidatorVoteDecision)
    (reasonHash : string) (createdAt : Z) : result string :=
  throw_if (negb (SafeScalar.isSafeScalar address) || negb (SafeScalar.isSafeScalar blockHash) ||
            negb (SafeScalar.isSafeScalar previousHash) || negb (SafeScalar.isSafeScalar reasonHash))
    (invalid_argument "Unsafe scalar rejected by ValidatorVoteRecord.");;
  throw_if (negb (PublicKey.isValid k)) (invalid_argument "Validator vote public key is invalid.");;
  bound ← isValidatorAddressBoundToPublicKey address k;
  throw_if (negb bound)
    (invalid_argument "Validator vote address is not bound to public key.");;
  throw_if ((blockIndex =? 0) || (round =? 0) || (createdAt <=? 0))
    (invalid_argument "Validator vote numeric fields are invalid.");;
  throw_if (bool_decide (decision = DECISION_UNKNOWN))
    (invalid_argument "Validator vote decision is UNKNOWN.");;
  Ok ("ValidatorVoteSigningPayload{version=NODO_VALIDATOR_VOTE_PAYLOAD_V1;validatorAddress=" +:+
      address +:+ ";validatorPublicKey=" +:+ PublicKey.serialize k +:+
      ";validatorPublicKeyFingerprint=" +:+ PublicKey.fingerprint k +:+
      ";blockIndex=" +:+ to_string blockIndex +:+ ";blockHash=" +:+ blockHash +:+
      ";previousHash=" +:+ previousHash +:+ ";round=" +:+ to_string round +:+
      ";decision=" +:+ validatorVoteDecisionToString decision +:+
      ";reasonHash=" +:+ reasonHash +:+ ";createdAt=" +:+ to_string createdAt +:+ "}").

Definition signingPayload (v : t) : result string :=
  buildSigningPayload (validatorAddress v) (validatorPublicKey v) (blockIndex v) (blockHash v)
    (previousHash v) (round v) (decision v) (reasonHash v) (createdAt v).

Definition matchesBlock (v : t) (index : Z) (hash : string) (r : Z) : bool :=
  (blockIndex v =? index) && String.eqb (blockHash v) hash && (round v =? r).

Definition isStructurallyValid (v : t) (policy : CryptoPolicy) : result bool :=
  if negb (SafeScalar.isSafeScalar (validatorAddress v)) ||
     negb (SafeScalar.isSafeScalar (blockHash v)) ||
     negb (SafeScalar.isSafeScalar (previousHash v)) ||
     negb (SafeScalar.isSafeScalar (reasonHash v)) then Ok false
  else if negb (PublicKey.isValid (validatorPublicKey v)) then Ok false
  else
    bound ← isValidatorAddressBoundToPublicKey (validatorAddress v) (validatorPublicKey v);
    if negb bound then Ok false
    else if (blockIndex v =? 0) || (round v =? 0) || (createdAt v <=? 0) then Ok false
    else if bool_decide (decision v = DECISION_UNKNOWN) then Ok false
    else if bool_decide (signatureBundle v = []) then Ok false
    else if negb (SignatureBundle.isValidForPolicy (signatureBundle v) policy VALIDATOR_OPERATION)
    then Ok false
    else Ok true.

Definition verify (v : t) (policy : CryptoPolicy) (provider : SignatureProvider) : result bool :=
  valid ← isStructurallyValid v policy;
  if negb valid then Ok false
  else
    payload ← signingPayload v;
    Ok (SignatureBundle.verifyForPolicy (signatureBundle v) payload policy
          VALIDATOR_OPERATION provider).

Definition serialize (v : t) : string :=
  "ValidatorVoteRecord{validatorAddress=" +:+ validatorAddress v +:+
  ";validatorPublicKey=" +:+ PublicKey.serialize (validatorPublicKey v) +:+
  ";validatorPublicKeyFingerprint=" +:+ PublicKey.fingerprint (validatorPublicKey v) +:+
  ";blockIndex=" +:+ to_string (blockIndex v) +:+ ";blockHash=" +:+ blockHash v +:+
  ";previousHash=" +:+ previousHash v +:+ ";round=" +:+ to_string (round v) +:+
  ";decision=" +:+ validatorVoteDecisionToString (decision v) +:+
  ";reasonHash=" +:+ reasonHash v +:+ ";createdAt=" +:+ to_string (createdAt v) +:+
  ";signatureBundle=" +:+ SignatureBundle.serialize (signatureBundle v) +:+ "}".

Definition deterministicId (v : t) : string :=
  Hash.hashCString ("NODO_VALIDATOR_VOTE_RECORD_ID_V1|" +:+ serialize v).
End vote.
End Vote.
Abbreviation ValidatorVoteRecord := Vote.t.

Module Certificate.
Record t := mk {
  blockIndex : Z;
  blockHash : string;
  previousHash : string;
  round : Z;
  requiredVotingWeight : Z;
  totalVotingWeight : Z;
  signedVotingWeight : Z;
  validatorSetRoot : string;
  votes : list ValidatorVoteRecord;
}.

Fixpoint duplicateVoterFrom (voters : gset string) (l : list ValidatorVoteRecord) : bool :=
  match l with
  | [] => false
  | v :: l =>
      if bool_decide (Vote.validatorAddress v ∈ voters) then true
      else duplicateVoterFrom ({[ Vote.validatorAddress v ]} ∪ voters) l
  end.
Definition hasDuplicateVoter (l : list ValidatorVoteRecord) : bool := duplicateVoterFrom ∅ l.

Section certificate.
Context `{Sha256}.

Definition voteMatches (c : t) (v : ValidatorVoteRecord) : bool :=
  if negb (Vote.matchesBlock v (blockIndex c) (blockHash c) (round c)) then false
  else if negb (String.eqb (Vote.previousHash v) (previousHash c)) then false
  else if negb (bool_decide (Vote.decision v = PRECOMMIT)) then false
  else true.

Definition isStructurallyValid (c : t) : result bool :=
  if (blockIndex c =? 0) || (round c =? 0) || (requiredVotingWeight c =? 0) ||
     (totalVotingWeight c =? 0) || (signedVotingWeight c =? 0) then Ok false
  else if negb (SafeScalar.isSafeScalar (blockHash c)) ||
          negb (SafeScalar.isSafeScalar (previousHash c)) ||
          negb (SafeScalar.isSafeScalar (validatorSetRoot c)) then Ok false
  else if (totalVotingWeight c <? requiredVotingWeight c) ||
          (totalVotingWeight c <? signedVotingWeight c) ||
          (signedVotingWeight c <? requiredVotingWeight c) then Ok false
  else
    required ← QuorumThreshold.requiredWeight (totalVotingWeight c);
    if negb (requiredVotingWeight c =? required) then Ok false
    else if bool_decide (votes c = []) then Ok false
    else if hasDuplicateVoter (votes c) then Ok false
    else Ok (forallb (voteMatches c) (votes c)).

(** The loop of [verify]: [None] is the early [return false]. *)
Fixpoint signedWeight (registry : ValidatorRegistry) (policy : CryptoPolicy)
    (provider : SignatureProvider) (signed : Z) (l : list ValidatorVoteRecord) : result (option Z) :=
  match l with
  | [] => Ok (Some signed)
  | v :: l =>
      identity ← Validators.verifyValidatorIdentity registry (Vote.validatorAddress v)
                   (Vote.validatorPublicKey v);
      if negb identity then Ok None
      else
        verified ← Vote.verify v policy provider;
        if negb verified then Ok None
        else
          let voterWeight := Validators.consensusWeightFor registry (Vote.validatorAddress v) in
          if (voterWeight =? 0) || (u64_max - signed <? voterWeight) then Ok None
          else signedWeight registry policy provider (signed + voterWeight) l
  end.

Definition verify (c : t) (registry : ValidatorRegistry) (policy : CryptoPolicy)
    (provider : SignatureProvider) : result bool :=
  structure ← isStructurallyValid c;
  if negb structure then Ok false
  else
    registryValid ← Validators.isValid registry;
    if negb registryValid then Ok false
    else
      total ← Validators.totalConsensusWeight registry;
      if negb (total =? totalVotingWeight c) then Ok false
      else
        required ← QuorumThreshold.requiredWeight (totalVotingWeight c);
        if negb (requiredVotingWeight c =? required) then Ok false
        else
          root ← Validators.validatorSetRoot registry;
          if negb (String.eqb root (validatorSetRoot c)) then Ok false
          else
            signed ← signedWeight registry policy provider 0 (votes c);
            match signed with
            | None => Ok false
            | Some w => Ok ((w =? signedVotingWeight c) && (requiredVotingWeight c <=? w))
            end.

Definition serialize (c : t) : string :=
  "QuorumCertificate{blockIndex=" +:+ to_string (blockIndex c) +:+
  ";blockHash=" +:+ blockHash c +:+ ";previousHash=" +:+ previousHash c +:+
  ";round=" +:+ to_string (round c) +:+
  ";requiredVotingWeight=" +:+ to_string (requiredVotingWeight c) +:+
  ";totalVotingWeight=" +:+ to_string (totalVotingWeight c) +:+
  ";signedVotingWeight=" +:+ to_string (signedVotingWeight c) +:+
  ";validatorSetRoot=" +:+ validatorSetRoot c +:+
  ";votes=[" +:+ String.concat "," (Vote.serialize <$> votes c) +:+ "]}".
End certificate.
End Certificate.
Abbreviation QuorumCertificate := Certificate.t.

Inductive QuorumCertificateBuildStatus :=
| CERTIFIED | INVALID_INPUT | INVALID_VALIDATOR_REGISTRY | INVALID_VOTE
| UNREGISTERED_OR_INACTIVE_VOTER | DUPLICATE_VOTER | CONFLICTING_VOTE | NOT_ENOUGH_VALID_VOTES.

(** [QuorumCertificateBuildResult] *)
Inductive BuildResult :=
| Certified (c : QuorumCertificate)
| NotCertified (status : QuorumCertificateBuildStatus) (reason : string).

Module Builder.
Section builder.
Context `{Sha256}.

Definition requiredVotingWeight (totalVotingWeight numerator denominator : Z) : result Z :=
  throw_if (negb (QuorumThreshold.isCanonicalFraction numerator denominator) ||
            (totalVotingWeight =? 0))
    (invalid_argument "Invalid quorum threshold parameters.");;
  QuorumThreshold.requiredWeight totalVotingWeight.

(** One candidate vote: a rejection, or the new state of the loop
    ([seenVoters], [signedWeight]). *)
Definition acceptVote (index : Z) (hash previous : string) (round : Z)
    (registry : ValidatorRegistry) (policy : CryptoPolicy) (provider : SignatureProvider)
    (seen : gset string) (signed : Z) (v : ValidatorVoteRecord)
    : result (BuildResult + (gset string * Z)) :=
  verified ← Vote.verify v policy provider;
  if negb verified then
    Ok (inl (NotCertified INVALID_VOTE "Invalid vote signature or structure."))
  else if negb (Vote.matchesBlock v index hash round) ||
          negb (String.eqb (Vote.previousHash v) previous) then
    Ok (inl (NotCertified CONFLICTING_VOTE "Vote targets a different block or round."))
  else if negb (bool_decide (Vote.decision v = PRECOMMIT)) then
    Ok (inl (NotCertified CONFLICTING_VOTE "Only PRECOMMIT votes can build a quorum certificate."))
  else
    identity ← Validators.verifyValidatorIdentity registry (Vote.validatorAddress v)
                 (Vote.validatorPublicKey v);
    if negb identity then
      Ok (inl (NotCertified UNREGISTERED_OR_INACTIVE_VOTER
        "Vote signer is not an active registered validator."))
    else if bool_decide (Vote.validatorAddress v ∈ seen) then
      Ok (inl (NotCertified DUPLICATE_VOTER "Duplicate validator vote rejected."))
    else
      let voterWeight := Validators.consensusWeightFor registry (Vote.validatorAddress v) in
      if voterWeight =? 0 then
        Ok (inl (NotCertified UNREGISTERED_OR_INACTIVE_VOTER
          "Vote signer has no consensus voting weight."))
      else if u64_max - signed <? voterWeight then
        Ok (inl (NotCertified INVALID_INPUT "Signed voting weight overflow."))
      else Ok (inr ({[ Vote.validatorAddress v ]} ∪ seen, signed + voterWeight)).

Fixpoint acceptVotes (index : Z) (hash previous : string) (round : Z)
    (registry : ValidatorRegistry) (policy : CryptoPolicy) (provider : SignatureProvider)
    (seen : gset string) (signed : Z) (l : list ValidatorVoteRecord)
    : result (BuildResult + Z) :=
  match l with
  | [] => Ok (inr signed)
  | v :: l =>
      step ← acceptVote index hash previous round registry policy provider seen signed v;
      match step with
      | inl rejected => Ok (inl rejected)
      | inr (seen', signed') =>
          acceptVotes index hash previous round registry policy provider seen' signed' l
      end
  end.

Definition buildFromVotes (index : Z) (hash previous : string) (round : Z)
    (candidateVotes : list ValidatorVoteRecord) (registry : ValidatorRegistry)
    (policy : CryptoPolicy) (provider : SignatureProvider) (numerator denominator : Z)
    : result BuildResult :=
  if (index =? 0) || (round =? 0) || negb (SafeScalar.isSafeScalar hash) ||
     negb (SafeScalar.isSafeScalar previous) || bool_decide (candidateVotes = []) then
    Ok (NotCertified INVALID_INPUT "Invalid quorum certificate input.")
  else
    registryValid ← Validators.isValid registry;
    noWeight ← (if negb registryValid then Ok true
                else (λ w, w =? 0) <$> Validators.totalConsensusWeight registry);
    if noWeight : bool then
      Ok (NotCertified INVALID_VALIDATOR_REGISTRY
        "Validator registry is invalid or has no weighted consensus validators.")
    else
      total ← Validators.totalConsensusWeight registry;
      match requiredVotingWeight total numerator denominator with
      | Throw error => Ok (NotCertified INVALID_INPUT (what error))
      | Ok required =>
          accepted ← acceptVotes index hash previous round registry policy provider ∅ 0 candidateVotes;
          match accepted with
          | inl rejected => Ok rejected
          | inr signed =>
              if signed <? required then
                Ok (NotCertified NOT_ENOUGH_VALID_VOTES
                  "Not enough signed validator weight to certify block.")
              else
                root ← Validators.validatorSetRoot registry;
                let c := Certificate.mk index hash previous round required total signed root
                           candidateVotes in
                ok ← Certificate.verify c registry policy provider;
                if negb ok then
                  Ok (NotCertified INVALID_VOTE "Built quorum certificate failed verification.")
                else Ok (Certified c)
          end
      end.
End builder.
End Builder.

(** ** Lemmas on quorums *)

Module QuorumFacts.
Import Validators ValidatorFacts.

Lemma requiredWeight_spec w : 0 < w →
  QuorumThreshold.requiredWeight w = Ok (2 * w / 3 + 1) ∧ 0 < 2 * w / 3 + 1 ≤ w.
Proof.
  intros Hw. unfold QuorumThreshold.requiredWeight, QuorumThreshold.kDenominator.
  replace (w =? 0) with false by lia. simpl. rewrite Z.quot_div_nonneg by lia.
  assert (w - (w - 1) / 3 = 2 * w / 3 + 1) as ->.
  { pose proof (Z.div_mod (w - 1) 3). pose proof (Z.div_mod (2 * w) 3).
    pose proof (Z.mod_pos_bound (w - 1) 3). pose proof (Z.mod_pos_bound (2 * w) 3). lia. }
  split; [done|]. pose proof (Z.div_mod (2 * w) 3). pose proof (Z.mod_pos_bound (2 * w) 3). lia.
Qed.

Lemma consensusWeightFor_nonneg (r : ValidatorRegistry) a : 0 ≤ consensusWeightFor r a.
Proof.
  unfold consensusWeightFor. destruct (r !! a) as [e|]; [|done].
  pose proof (weight_nonneg e) as Hw. unfold weight in Hw. by destruct (Entry.eligibleForConsensus e).
Qed.

Definition voters (l : list ValidatorVoteRecord) : list string := Vote.validatorAddress <$> l.

Lemma duplicateVoterFrom_false seen l :
  Certificate.duplicateVoterFrom seen l = false ↔
  NoDup (voters l) ∧ ∀ a, a ∈ voters l → a ∉ seen.
Proof.
  revert seen. induction l as [|v l IH]; intros seen; simpl.
  { split; [|done]. intros _. split; [constructor|by intros ? ?%elem_of_nil]. }
  rewrite NoDup_cons. change (list_fmap _ _ Vote.validatorAddress l) with (voters l).
  case_bool_decide as Hin.
  { split; [done|]. intros [_ Hall]. destruct (Hall (Vote.validatorAddress v)); [elem|done]. }
  rewrite IH. split.
  - intros [Hnd Hall]. split_and!; [|done|].
    + intros Ha. apply (Hall _ Ha). apply elem_of_union_l, elem_of_singleton. done.
    + intros a [->|Ha]%elem_of_cons; [done|]. intros Hs. apply (Hall _ Ha). by apply elem_of_union_r.
  - intros [[Hni Hnd] Hall]. split; [done|]. intros a Ha [->%elem_of_singleton|Hs]%elem_of_union; [done|].
    apply (Hall a); [elem|done].
Qed.

Section quorum.
Context `{Sha256} (r : ValidatorRegistry) (policy : CryptoPolicy) (provider : SignatureProvider).

(** A vote that counts: a registered active signer with weight. *)
Record counted (v : ValidatorVoteRecord) : Prop := {
  counted_identity :
    verifyValidatorIdentity r (Vote.validatorAddress v) (Vote.validatorPublicKey v) = Ok true;
  counted_verified : Vote.verify v policy provider = Ok true;
  counted_weight : 0 < consensusWeightFor r (Vote.validatorAddress v);
}.

Lemma signedWeight_Some s l w :
  Certificate.signedWeight r policy provider s l = Ok (Some w) →
  w = s + sum_by (consensusWeightFor r) (voters l) ∧ ∀ v, v ∈ l → counted v.
Proof.
  revert s. induction l as [|v l IH]; intros s; simpl.
  { intros [= <-]. split; [lia|by intros ? ?%elem_of_nil]. }
  intros E. inv_ok.
  match goal with E : (if negb ?b then _ else _) = _ |- _ => destruct b; simpl in E; [|done] end. inv_ok.
  match goal with E : (if negb ?b then _ else _) = _ |- _ => destruct b; simpl in E; [|done] end.
  destruct (_ || _) eqn:Eg; [done|]. inv_ok. apply IH in E as [-> Hall]. split; [lia|].
  pose proof (consensusWeightFor_nonneg r (Vote.validatorAddress v)).
  intros v' [->|?]%elem_of_cons; [|auto]. split; [done..|]. lia.
Qed.

(** What a certificate that [verify] accepts guarantees. *)
Record certified (c : QuorumCertificate) : Prop := {
  cert_registry : ValidatorFacts.wf r;
  cert_total : Certificate.totalVotingWeight c = map_sum weight r;
  cert_positive : 0 < map_sum weight r;
  cert_nodup : NoDup (voters (Certificate.votes c));
  cert_votes : ∀ v, v ∈ Certificate.votes c → counted v ∧
    Vote.blockIndex v = Certificate.blockIndex c ∧ Vote.blockHash v = Certificate.blockHash c ∧
    Vote.round v = Certificate.round c ∧ Vote.previousHash v = Certificate.previousHash c ∧
    Vote.decision v = PRECOMMIT;
  cert_signed : Certificate.signedVotingWeight c =
    sum_by (consensusWeightFor r) (voters (Certificate.votes c));
  cert_quorum : 2 * map_sum weight r / 3 + 1 ≤ Certificate.signedVotingWeight c;
}.

Lemma structure_true c : Certificate.isStructurallyValid c = Ok true →
  Certificate.totalVotingWeight c ≠ 0 ∧ NoDup (voters (Certificate.votes c)) ∧
  ∀ v, v ∈ Certificate.votes c → Certificate.voteMatches c v = true.
Proof.
  unfold Certificate.isStructurallyValid. intros E.
  repeat match type of E with
  | (if ?b then Ok false else _) = _ => destruct b eqn:?; [done|]
  end.
  apply bind_Ok in E as (req & _ & E).
  repeat match type of E with
  | (if ?b then Ok false else _) = _ => destruct b eqn:?; [done|]
  end.
  inv_ok. split_and!; [lia| |].
  - match goal with E : Certificate.hasDuplicateVoter _ = false |- _ =>
      apply duplicateVoterFrom_false in E as [? _] end. done.
  - intros v Hv%list_elem_of_In. rewrite forallb_forall in E. by apply E.
Qed.

Lemma voteMatches_true c v : Certificate.voteMatches c v = true →
  Vote.blockIndex v = Certificate.blockIndex c ∧ Vote.blockHash v = Certificate.blockHash c ∧
  Vote.round v = Certificate.round c ∧ Vote.previousHash v = Certificate.previousHash c ∧
  Vote.decision v = PRECOMMIT.
Proof.
  unfold Certificate.voteMatches, Vote.matchesBlock. intros E.
  repeat match type of E with (if negb ?b then false else _) = _ => destruct b eqn:?; simpl in E; [|done] end.
  inv_ok. repeat match goal with
  | E : String.eqb _ _ = true |- _ => apply String.eqb_eq in E
  | E : bool_decide _ = true |- _ => apply bool_decide_eq_true in E
  end. simpl in E. split_and!; try done; lia.
Qed.

Lemma verify_certified c : Certificate.verify c r policy provider = Ok true → certified c.
Proof.
  unfold Certificate.verify. intros E.
  apply bind_Ok in E as ([] & Hst & E); simpl in E; [|done].
  apply bind_Ok in E as ([] & Hwf & E); simpl in E; [|done]. apply isValid_wf in Hwf.
  apply bind_Ok in E as (total & Htot & E). rewrite totalConsensusWeight_Ok in Htot by done.
  injection Htot as <-. destruct (_ =? Certificate.totalVotingWeight c) eqn:Et; simpl in E; [|done].
  apply bind_Ok in E as (req & Hreq & E).
  destruct (_ =? req) eqn:Er; simpl in E; [|done]. apply bind_Ok in E as (root & _ & E).
  destruct (String.eqb _ _); simpl in E; [|done]. apply bind_Ok in E as ([w|] & Hw & E); [|done].
  inv_ok. apply structure_true in Hst as (Hne & Hnd & Hm). apply signedWeight_Some in Hw as [-> Hc].
  pose proof (map_sum_nonneg weight r weight_nonneg).
  destruct (requiredWeight_spec (Certificate.totalVotingWeight c)) as [Hreq' _]; [lia|].
  rewrite Hreq' in Hreq. injection Hreq as <-.
  split; try done; try lia.
  - intros v Hv. split; [auto|]. apply voteMatches_true. auto.
  - assert (map_sum weight r = Certificate.totalVotingWeight c) as -> by lia. lia.
Qed.
End quorum.

(** ** Quorum intersection *)

Lemma weight_registered (r : ValidatorRegistry) a :
  0 < consensusWeightFor r a → a ∈ validatorAddresses r.
Proof.
  unfold consensusWeightFor, validatorAddresses. destruct (r !! a) as [e|] eqn:E; [|lia].
  intros _. apply list_elem_of_fmap. exists (a, e). split; [done|]. by apply elem_of_entries.
Qed.

Lemma validatorAddresses_NoDup (r : ValidatorRegistry) : NoDup (validatorAddresses r).
Proof. apply NoDup_fst_entries. Qed.

(** A sum over a sublist without repetition, as a sum over the whole list. *)
Lemma sum_by_indicator (w : string → Z) (l all : list string) :
  NoDup l → NoDup all → (∀ a, a ∈ l → a ∈ all) →
  sum_by w l = sum_by (λ a, if bool_decide (a ∈ l) then w a else 0) all.
Proof.
  intros Hl Ha Hsub.
  assert (l ≡ₚ filter (λ a, a ∈ l) all) as ->.
  { apply NoDup_Permutation; [done|by apply NoDup_filter|].
    intros a. rewrite list_elem_of_filter. intuition. }
  clear Hl Ha Hsub. induction all as [|a all IH]; [done|]. rewrite filter_cons. simpl.
  case_decide as Hd.
  - rewrite bool_decide_true by done. simpl. by rewrite IH.
  - rewrite bool_decide_false by done. simpl. by rewrite IH.
Qed.

(** Two sets of validators overlap in what exceeds the total weight. *)
Lemma overlap (r : ValidatorRegistry) (l1 l2 : list string) :
  NoDup l1 → NoDup l2 →
  (∀ a, a ∈ l1 → a ∈ validatorAddresses r) → (∀ a, a ∈ l2 → a ∈ validatorAddresses r) →
  sum_by (consensusWeightFor r) l1 + sum_by (consensusWeightFor r) l2 ≤
  map_sum weight r + sum_by (consensusWeightFor r) (filter (λ a, a ∈ l2) l1).
Proof.
  intros H1 H2 S1 S2. pose proof (validatorAddresses_NoDup r) as Hall.
  rewrite <- ValidatorProperties.sum_weights.
  rewrite (sum_by_indicator _ l1 (validatorAddresses r)), (sum_by_indicator _ l2 (validatorAddresses r)),
    (sum_by_indicator _ (filter _ l1) (validatorAddresses r)); try done.
  - rewrite <- !sum_by_plus. apply sum_by_mono. intros a _.
    pose proof (consensusWeightFor_nonneg r a).
    repeat case_bool_decide; rewrite ?list_elem_of_filter in *; try lia; tauto.
  - by apply NoDup_filter.
  - intros a [_ Ha]%list_elem_of_filter. auto.
Qed.

Lemma voters_weight (r : ValidatorRegistry) (l : list string) :
  NoDup l → (∀ a, a ∈ l → a ∈ validatorAddresses r) →
  sum_by (consensusWeightFor r) l ≤ map_sum weight r.
Proof.
  intros Hl Hsub. rewrite <- ValidatorProperties.sum_weights.
  rewrite (sum_by_indicator _ l (validatorAddresses r)) by (done || apply validatorAddresses_NoDup).
  apply sum_by_mono. intros a _. pose proof (consensusWeightFor_nonneg r a). case_bool_decide; lia.
Qed.

Lemma certified_registered `{Sha256} (r : ValidatorRegistry) policy provider c :
  certified r policy provider c →
  ∀ a, a ∈ voters (Certificate.votes c) → a ∈ validatorAddresses r.
Proof.
  intros Hc a (v & -> & Hv)%list_elem_of_fmap. apply weight_registered.
  by destruct (cert_votes _ _ _ _ Hc v Hv) as [[] _].
Qed.

(** Two certificates share voters with more than a third of the weight. *)
Lemma certified_overlap `{Sha256} (r : ValidatorRegistry) policy provider c1 c2 :
  certified r policy provider c1 → certified r policy provider c2 →
  ∃ common, NoDup common ∧ 3 * sum_by (consensusWeightFor r) common > map_sum weight r ∧
    ∀ a, a ∈ common → ∃ v1 v2, v1 ∈ Certificate.votes c1 ∧ v2 ∈ Certificate.votes c2 ∧
      Vote.validatorAddress v1 = a ∧ Vote.validatorAddress v2 = a.
Proof.
  intros H1 H2. pose proof (certified_registered _ _ _ _ H1) as R1.
  pose proof (certified_registered _ _ _ _ H2) as R2.
  destruct H1 as [_ _ Hpos N1 _ S1 Q1], H2 as [_ _ _ N2 _ S2 Q2].
  exists (filter (λ a, a ∈ voters (Certificate.votes c2)) (voters (Certificate.votes c1))).
  split; [by apply NoDup_filter|]. split.
  - pose proof (overlap r _ _ N1 N2 R1 R2).
    pose proof (Z.div_mod (2 * map_sum weight r) 3). pose proof (Z.mod_pos_bound (2 * map_sum weight r) 3). lia.
  - intros a [(v2 & -> & ?)%list_elem_of_fmap (v1 & ? & ?)%list_elem_of_fmap]%list_elem_of_filter.
    by exists v1, v2.
Qed.

(** ** Hashes are safe scalars *)

Lemma lower_hex_safe c : Address.is_lower_hex c = true →
  SafeScalar.contains_char SafeScalar.scalar_delimiters c = false.
Proof. destruct c as [[] [] [] [] [] [] [] []]; vm_compute; done. Qed.

Lemma lower_hex_text forbidden max s :
  (∀ c, Address.is_lower_hex c = true → SafeScalar.contains_char forbidden c = false) →
  s ≠ "" → string_size s ≤ max → SafeScalar.all_chars Address.is_lower_hex s = true →
  SafeScalar.isSafeDelimitedText s max forbidden = true.
Proof.
  intros Hsafe Hne Hsz Hall. unfold SafeScalar.isSafeDelimitedText.
  apply empty_string_false in Hne. rewrite Hne.
  replace (max <? string_size s) with false by lia. cbn [orb].
  clear Hne Hsz. induction s as [|c s IH]; [done|]. cbn [SafeScalar.all_chars] in *.
  apply andb_true_iff in Hall as [Hc Hs]. rewrite (Hsafe c Hc). by apply IH.
Qed.

Lemma hash_text `{Sha256Spec} forbidden max s :
  (∀ c, Address.is_lower_hex c = true → SafeScalar.contains_char forbidden c = false) → 64 ≤ max →
  SafeScalar.isSafeDelimitedText (Hash.hashCString s) max forbidden = true.
Proof.
  intros Hsafe Hmax. destruct (CryptoFacts.hash_shape s) as (h & -> & Hlen & Hall).
  apply lower_hex_text; [done| | |done].
  - by intros ->.
  - unfold string_size. rewrite Hlen. lia.
Qed.

Lemma hash_scalar `{Sha256Spec} s : SafeScalar.isSafeScalar (Hash.hashCString s) = true.
Proof. apply hash_text; [exact lower_hex_safe|unfold SafeScalar.npos, u64_max; lia]. Qed.

Lemma validatorSetRoot_Ok `{Sha256Spec} r : ValidatorFacts.wf r →
  ∃ root, validatorSetRoot r = Ok root ∧ SafeScalar.isSafeScalar root = true.
Proof.
  intros Hwf. unfold validatorSetRoot, serialize. rewrite totalConsensusWeight_Ok by done. simpl.
  eexists. split; [done|apply hash_scalar].
Qed.

(** ** The builder *)

Section builder.
Context `{Sha256} (r : ValidatorRegistry) (policy : CryptoPolicy) (provider : SignatureProvider).
Context (index : Z) (hash previous : string) (round : Z).

(** A candidate the builder counts. *)
Definition candidate (v : ValidatorVoteRecord) : Prop :=
  counted r policy provider v ∧ Vote.blockIndex v = index ∧ Vote.blockHash v = hash ∧
  Vote.round v = round ∧ Vote.previousHash v = previous ∧ Vote.decision v = PRECOMMIT.

Lemma acceptVote_candidate seen signed v :
  candidate v → Vote.validatorAddress v ∉ seen →
  signed + consensusWeightFor r (Vote.validatorAddress v) ≤ u64_max →
  Builder.acceptVote index hash previous round r policy provider seen signed v =
  Ok (inr ({[ Vote.validatorAddress v ]} ∪ seen, signed + consensusWeightFor r (Vote.validatorAddress v))).
Proof.
  intros ([Hid Hv Hw] & <- & <- & <- & <- & Hd) Hseen Hsum. unfold Builder.acceptVote, Vote.matchesBlock.
  rewrite Hv. simpl. rewrite !Z.eqb_refl, !String.eqb_refl. simpl.
  rewrite bool_decide_true, Hid by done. simpl. rewrite bool_decide_false by done.
  replace (consensusWeightFor r (Vote.validatorAddress v) =? 0) with false by lia.
  by replace (u64_max - signed <? consensusWeightFor r (Vote.validatorAddress v)) with false by lia.
Qed.

Lemma acceptVotes_candidates seen signed l :
  (∀ v, v ∈ l → candidate v ∧ Vote.validatorAddress v ∉ seen) → NoDup (voters l) →
  signed + sum_by (consensusWeightFor r) (voters l) ≤ u64_max →
  Builder.acceptVotes index hash previous round r policy provider seen signed l =
  Ok (inr (signed + sum_by (consensusWeightFor r) (voters l))).
Proof.
  revert seen signed. induction l as [|v l IH]; intros seen signed Hall Hnd Hs; simpl in *.
  { do 2 f_equal. lia. }
  change (list_fmap _ _ Vote.validatorAddress l) with (voters l) in *. apply NoDup_cons in Hnd as [Hni Hnd].
  assert (0 ≤ sum_by (consensusWeightFor r) (voters l))
    by (apply sum_by_nonneg; intros; apply consensusWeightFor_nonneg).
  destruct (Hall v) as [Hc Hseen]; [elem|]. rewrite acceptVote_candidate by (done || lia). simpl.
  rewrite IH; [do 2 f_equal; lia| |done|lia].
  intros v' Hv'. destruct (Hall v') as [? Hs']; [elem|]. split; [done|].
  intros [E%elem_of_singleton|?]%elem_of_union; [|done]. apply Hni. rewrite <- E.
  by apply list_elem_of_fmap_2.
Qed.

Lemma signedWeight_candidates signed l :
  (∀ v, v ∈ l → candidate v) → signed + sum_by (consensusWeightFor r) (voters l) ≤ u64_max →
  Certificate.signedWeight r policy provider signed l =
  Ok (Some (signed + sum_by (consensusWeightFor r) (voters l))).
Proof.
  revert signed. induction l as [|v l IH]; intros signed Hall Hs; simpl in *; [do 2 f_equal; lia|].
  change (list_fmap _ _ Vote.validatorAddress l) with (voters l) in *.
  assert (0 ≤ sum_by (consensusWeightFor r) (voters l))
    by (apply sum_by_nonneg; intros; apply consensusWeightFor_nonneg).
  destruct (Hall v) as [[-> -> Hw] _]; [elem|]. simpl.
  replace (consensusWeightFor r (Vote.validatorAddress v) =? 0) with false by lia.
  replace (u64_max - signed <? consensusWeightFor r (Vote.validatorAddress v)) with false by lia. simpl.
  rewrite IH; [do 2 f_equal; lia| |lia]. intros. apply Hall. elem.
Qed.

(** The certificate of enough candidates passes its own verification. *)
Lemma verify_candidates root l :
  ValidatorFacts.wf r → validatorSetRoot r = Ok root → SafeScalar.isSafeScalar root = true →
  index ≠ 0 → round ≠ 0 → SafeScalar.isSafeScalar hash = true → SafeScalar.isSafeScalar previous = true →
  l ≠ [] → NoDup (voters l) → (∀ v, v ∈ l → candidate v) →
  0 < map_sum weight r → 2 * map_sum weight r / 3 + 1 ≤ sum_by (consensusWeightFor r) (voters l) →
  Certificate.verify
    (Certificate.mk index hash previous round (2 * map_sum weight r / 3 + 1) (map_sum weight r)
       (sum_by (consensusWeightFor r) (voters l)) root l) r policy provider = Ok true.
Proof.
  intros Hwf Hroot Hrs Hi Hr Hh Hp Hne Hnd Hall Hpos Hq.
  assert (∀ a, a ∈ voters l → a ∈ validatorAddresses r) as Hreg.
  { intros a (v & -> & Hv)%list_elem_of_fmap. apply weight_registered. by apply Hall. }
  pose proof (voters_weight r (voters l) Hnd Hreg) as Hle. destruct (requiredWeight_spec _ Hpos) as [Hreq Hrb].
  unfold Certificate.verify, Certificate.isStructurallyValid. simpl.
  replace (index =? 0) with false by lia. replace (round =? 0) with false by lia.
  replace (2 * map_sum weight r / 3 + 1 =? 0) with false by lia.
  replace (map_sum weight r =? 0) with false by lia.
  replace (sum_by (consensusWeightFor r) (voters l) =? 0) with false by lia.
  rewrite Hh, Hp, Hrs. simpl.
  replace (map_sum weight r <? 2 * map_sum weight r / 3 + 1) with false by lia.
  replace (map_sum weight r <? sum_by (consensusWeightFor r) (voters l)) with false by lia.
  replace (sum_by (consensusWeightFor r) (voters l) <? 2 * map_sum weight r / 3 + 1) with false by lia.
  simpl. rewrite Hreq. simpl. rewrite Z.eqb_refl. simpl. rewrite bool_decide_false by done.
  unfold Certificate.hasDuplicateVoter. rewrite (proj2 (duplicateVoterFrom_false ∅ l)) by (split; [done|]; intros; apply not_elem_of_empty).
  assert (forallb (Certificate.voteMatches (Certificate.mk index hash previous round
    (2 * map_sum weight r / 3 + 1) (map_sum weight r)
    (sum_by (consensusWeightFor r) (voters l)) root l)) l = true) as ->.
  { apply forallb_forall. intros v (Hc & E1 & E2 & E3 & E4 & E5)%list_elem_of_In%Hall.
    unfold Certificate.voteMatches, Vote.matchesBlock. simpl.
    rewrite E1, E2, E3, E4, !Z.eqb_refl, !String.eqb_refl. simpl. by rewrite bool_decide_true. }
  simpl. rewrite (proj2 (isValid_wf r) Hwf), totalConsensusWeight_Ok by done. simpl.
  rewrite Z.eqb_refl. simpl. rewrite ?Hreq. simpl. rewrite ?Z.eqb_refl. simpl.
  rewrite Hroot. simpl. rewrite String.eqb_refl. simpl.
  rewrite signedWeight_candidates; [|done|destruct Hwf; lia]. simpl.
  rewrite Z.eqb_refl. simpl. f_equal. lia.
Qed.
End builder.

(** Enough candidates make the builder return their certificate. *)
Lemma build_candidates `{Sha256Spec} (r : ValidatorRegistry) policy provider
    (index : Z) (hash previous : string) (round : Z) (l : list ValidatorVoteRecord) :
  Validators.isValid r = Ok true → index ≠ 0 → round ≠ 0 →
  SafeScalar.isSafeScalar hash = true → SafeScalar.isSafeScalar previous = true →
  NoDup (voters l) → (∀ v, v ∈ l → candidate r policy provider index hash previous round v) →
  2 * map_sum weight r / 3 + 1 ≤ sum_by (consensusWeightFor r) (voters l) →
  0 < map_sum weight r →
  ∃ c, Builder.buildFromVotes index hash previous round l r policy provider 2 3 = Ok (Certified c) ∧
       Certificate.votes c = l ∧
       Certificate.signedVotingWeight c = sum_by (consensusWeightFor r) (voters l).
Proof.
  intros Hv Hi Hr Hh Hp Hnd Hall Hq Hpos. pose proof (proj1 (isValid_wf r) Hv) as Hwf.
  destruct (validatorSetRoot_Ok r Hwf) as (root & Hroot & Hrs).
  assert (l ≠ []) as Hne.
  { intros ->. simpl in Hq. pose proof (Z.div_pos (2 * map_sum weight r) 3). lia. }
  assert (∀ a, a ∈ voters l → a ∈ validatorAddresses r) as Hreg.
  { intros a (v & -> & Hv')%list_elem_of_fmap. apply weight_registered. by apply Hall. }
  pose proof (voters_weight r (voters l) Hnd Hreg) as Hle. destruct (requiredWeight_spec _ Hpos) as [Hreq _].
  unfold Builder.buildFromVotes. replace (index =? 0) with false by lia.
  replace (round =? 0) with false by lia. rewrite Hh, Hp, bool_decide_false by done. simpl.
  rewrite Hv. simpl. rewrite totalConsensusWeight_Ok by done. simpl.
  replace (map_sum weight r =? 0) with false by lia. simpl.
  unfold Builder.requiredVotingWeight. replace (map_sum weight r =? 0) with false by lia. simpl.
  rewrite Hreq. rewrite (acceptVotes_candidates r policy provider index hash previous round).
  - simpl. rewrite Z.add_0_l. replace (sum_by (consensusWeightFor r) (voters l) <? 2 * map_sum weight r / 3 + 1) with false by lia.
    rewrite Hroot. simpl. rewrite verify_candidates by done. by eexists.
  - intros v Hv'. split; [auto|apply not_elem_of_empty].
  - done.
  - destruct Hwf; lia.
Qed.

(** A certificate the builder returns carries the candidate votes and verifies. *)
Lemma acceptVotes_rejects `{Sha256} index hash previous round r policy provider seen signed l b :
  Builder.acceptVotes index hash previous round r policy provider seen signed l = Ok (inl b) →
  ∃ status reason, b = NotCertified status reason.
Proof.
  revert seen signed. induction l as [|v l IH]; intros seen signed; simpl; [discriminate|].
  intros (step & Hs & E)%bind_Ok. destruct step as [b'|[seen' signed']]; [|by eapply IH].
  injection E as ->. unfold Builder.acceptVote in Hs.
  apply bind_Ok in Hs as ([] & _ & Hs); simpl in Hs; [|injection Hs as <-; by do 2 eexists].
  destruct (_ || _) in Hs; [injection Hs as <-; by do 2 eexists|].
  destruct (negb _) in Hs; [injection Hs as <-; by do 2 eexists|].
  apply bind_Ok in Hs as ([] & _ & Hs); simpl in Hs; [|injection Hs as <-; by do 2 eexists].
  destruct (bool_decide _) in Hs; [injection Hs as <-; by do 2 eexists|].
  destruct (_ =? _) in Hs; [injection Hs as <-; by do 2 eexists|].
  destruct (_ <? _) in Hs; [injection Hs as <-; by do 2 eexists|discriminate].
Qed.

Lemma build_certified `{Sha256} index hash previous round l r policy provider n d c :
  Builder.buildFromVotes index hash previous round l r policy provider n d = Ok (Certified c) →
  Certificate.votes c = l ∧ Certificate.previousHash c = previous ∧
  Certificate.verify c r policy provider = Ok true.
Proof.
  unfold Builder.buildFromVotes. intros E.
  destruct (_ || _) in E; [discriminate|]. apply bind_Ok in E as (rv & _ & E).
  apply bind_Ok in E as (nw & _ & E). destruct nw; [discriminate|]. apply bind_Ok in E as (total & _ & E).
  destruct (Builder.requiredVotingWeight total n d) as [required|e]; [|discriminate].
  apply bind_Ok in E as (acc & Hacc & E). destruct acc as [b|signed].
  { apply acceptVotes_rejects in Hacc as (st & re & ->). discriminate. }
  destruct (signed <? required); [discriminate|]. apply bind_Ok in E as (root & _ & E).
  apply bind_Ok in E as (ok & Hv & E). destruct ok; simpl in E; [|discriminate].
  injection E as <-. split_and!; [reflexivity|reflexivity|exact Hv].
Qed.

(** A set of voters, registered or not, weighs at most the total. *)
Lemma any_voters_weight (r : ValidatorRegistry) (l : list string) :
  NoDup l → sum_by (consensusWeightFor r) l ≤ map_sum weight r.
Proof.
  intros Hl.
  assert (sum_by (consensusWeightFor r) l =
          sum_by (consensusWeightFor r) (filter (λ a, a ∈ validatorAddresses r) l)) as ->.
  { clear Hl. induction l as [|a l IH]; [done|]. rewrite filter_cons. case_decide as Ha; simpl; rewrite IH; [done|].
    pose proof (consensusWeightFor_nonneg r a). enough (¬ 0 < consensusWeightFor r a) by lia.
    intros Hw. by apply Ha, weight_registered. }
  apply voters_weight; [by apply NoDup_filter|]. by intros a [? _]%list_elem_of_filter.
Qed.

End QuorumFacts.

(** ** What quorums promise *)

Module QuorumProperties.
Import Validators ValidatorFacts QuorumFacts.

(** The quorum threshold: for every positive 64-bit total the division form
    of the code is exactly floor(2W/3) + 1, is at most the total (so it is
    reachable and never overflows), and two such weights always exceed the total
    by more than a third of it. *)
Theorem required_weight_exact (w : Z) :
  0 < w ≤ u64_max →
  ∃ q, QuorumThreshold.requiredWeight w = Ok q ∧ q = 2 * w / 3 + 1 ∧ 0 < q ≤ w ∧ 3 * (2 * q - w) > w.
Proof.
  intros Hw. destruct (requiredWeight_spec w) as [Hr Hb]; [lia|].
  exists (2 * w / 3 + 1). split_and!; try done; try lia.
  pose proof (Z.div_mod (2 * w) 3). pose proof (Z.mod_pos_bound (2 * w) 3). lia.
Qed.

(** Quorum intersection: two certificates that verify against the same
    validator set share voters that together hold more than a third of the total
    weight, and each shared voter cast a verified PRECOMMIT in both. *)
Theorem quorums_intersect `{Sha256} (r : ValidatorRegistry) policy provider (c1 c2 : QuorumCertificate) :
  Certificate.verify c1 r policy provider = Ok true →
  Certificate.verify c2 r policy provider = Ok true →
  ∃ common, NoDup common ∧ 3 * sum_by (consensusWeightFor r) common > map_sum weight r ∧
    ∀ a, a ∈ common → ∃ v1 v2,
      v1 ∈ Certificate.votes c1 ∧ v2 ∈ Certificate.votes c2 ∧
      Vote.validatorAddress v1 = a ∧ Vote.validatorAddress v2 = a ∧
      Vote.verify v1 policy provider = Ok true ∧ Vote.verify v2 policy provider = Ok true ∧
      Vote.decision v1 = PRECOMMIT ∧ Vote.decision v2 = PRECOMMIT ∧
      Vote.blockIndex v1 = Certificate.blockIndex c1 ∧ Vote.blockIndex v2 = Certificate.blockIndex c2 ∧
      Vote.round v1 = Certificate.round c1 ∧ Vote.round v2 = Certificate.round c2 ∧
      Vote.blockHash v1 = Certificate.blockHash c1 ∧ Vote.blockHash v2 = Certificate.blockHash c2.
Proof.
  intros H1%verify_certified H2%verify_certified.
  destruct (certified_overlap _ _ _ _ _ H1 H2) as (common & Hnd & Hw & Hall). exists common.
  split_and!; [done..|]. intros a (v1 & v2 & I1 & I2 & E1 & E2)%Hall. exists v1, v2.
  destruct (cert_votes _ _ _ _ H1 v1 I1) as ([] & ? & ? & ? & ? & ?),
    (cert_votes _ _ _ _ H2 v2 I2) as ([] & ? & ? & ? & ? & ?).
  by split_and!.
Qed.

(** Addresses that signed PRECOMMITs for two blocks at one height and round,
    as far as the certificates show. *)
Definition equivocates (c1 c2 : QuorumCertificate) (a : string) : Prop :=
  ∃ v1 v2, v1 ∈ Certificate.votes c1 ∧ v2 ∈ Certificate.votes c2 ∧
    Vote.validatorAddress v1 = a ∧ Vote.validatorAddress v2 = a ∧
    Vote.blockIndex v1 = Vote.blockIndex v2 ∧ Vote.round v1 = Vote.round v2 ∧
    Vote.blockHash v1 ≠ Vote.blockHash v2.

(** Agreement of certified blocks, for every certificate that meets [certified]. *)
Lemma certified_agree `{Sha256} (r : ValidatorRegistry) policy provider (c1 c2 : QuorumCertificate) (faulty : list string) :
  certified r policy provider c1 → certified r policy provider c2 →
  Certificate.blockIndex c1 = Certificate.blockIndex c2 → Certificate.round c1 = Certificate.round c2 →
  NoDup faulty → 3 * sum_by (consensusWeightFor r) faulty ≤ map_sum weight r →
  (∀ a, equivocates c1 c2 a → a ∈ faulty) →
  Certificate.blockHash c1 = Certificate.blockHash c2.
Proof.
  intros H1 H2 Ei Er Hnd Hf Heq.
  destruct (decide (Certificate.blockHash c1 = Certificate.blockHash c2)) as [|Hne]; [done|exfalso].
  destruct (certified_overlap _ _ _ _ _ H1 H2) as (common & Hc & Hw & Hall).
  assert (sum_by (consensusWeightFor r) common ≤ sum_by (consensusWeightFor r) faulty); [|lia].
  rewrite (sum_by_indicator _ common faulty); [|done..|].
  - apply sum_by_mono. intros a _. pose proof (consensusWeightFor_nonneg r a). case_bool_decide; lia.
  - intros a (v1 & v2 & I1 & I2 & E1 & E2)%Hall. apply Heq. exists v1, v2.
    destruct (cert_votes _ _ _ _ H1 v1 I1) as (_ & ? & ? & ? & _),
      (cert_votes _ _ _ _ H2 v2 I2) as (_ & ? & ? & ? & _).
    split_and!; try done; congruence.
Qed.

(** C2. Agreement: when the validators that sign two blocks at one height and
    round hold at most a third of the weight, two certificates for the same
    height and round certify the same block. *)
Theorem certificates_agree `{Sha256} (r : ValidatorRegistry) policy provider
    (c1 c2 : QuorumCertificate) (faulty : list string) :
  Certificate.verify c1 r policy provider = Ok true →
  Certificate.verify c2 r policy provider = Ok true →
  Certificate.blockIndex c1 = Certificate.blockIndex c2 → Certificate.round c1 = Certificate.round c2 →
  NoDup faulty → 3 * sum_by (consensusWeightFor r) faulty ≤ map_sum weight r →
  (∀ a, equivocates c1 c2 a → a ∈ faulty) →
  Certificate.blockHash c1 = Certificate.blockHash c2.
Proof. intros H1%verify_certified H2%verify_certified. by apply (certified_agree r policy provider). Qed.


(** A vote with its signature bundle replaced. *)
Definition signed_with (v : ValidatorVoteRecord) (b : SignatureBundle) : ValidatorVoteRecord :=
  Vote.mk (Vote.validatorAddress v) (Vote.validatorPublicKey v) (Vote.blockIndex v) (Vote.blockHash v)
    (Vote.previousHash v) (Vote.round v) (Vote.decision v) (Vote.reasonHash v) (Vote.createdAt v) b.

(** Who signed: [verify] never compares the key inside a signature with the
    voter's key. Any bundle that the policy and the provider accept on the vote's
    payload, under whatever public key it carries, makes the vote verify; the
    binding is only checked where a vote is parsed from text. *)
Theorem vote_signer_unbound `{Sha256} (v : ValidatorVoteRecord) policy provider payload (b : SignatureBundle) :
  Vote.signingPayload v = Ok payload →
  SignatureBundle.verifyForPolicy b payload policy VALIDATOR_OPERATION provider = true →
  Vote.verify (signed_with v b) policy provider = Ok true.
Proof.
  intros Hp Hb. assert (b ≠ [] ∧ SignatureBundle.isValidForPolicy b policy VALIDATOR_OPERATION = true) as [Hne Hv].
  { split; [by intros ->|]. unfold SignatureBundle.verifyForPolicy in Hb.
    by destruct (SignatureBundle.isValidForPolicy b policy VALIDATOR_OPERATION). }
  unfold Vote.verify, Vote.isStructurallyValid. simpl.
  pose proof Hp as E. unfold Vote.signingPayload, Vote.buildSigningPayload in E. inv_ok.
  repeat match goal with H : ?b = false |- context [?b] => rewrite H end.
  repeat match goal with H : ?b = true |- context [?b] => rewrite H end. simpl.
  rewrite E2. simpl. rewrite bool_decide_false by done. simpl.
  unfold Vote.signingPayload in *. simpl. rewrite Hp. simpl. by rewrite Hb.
Qed.

(** *** A concrete quorum: three validators of equal weight, all sign *)

#[local] Instance toy : Sha256 := CryptoProperties.toy_sha256.
#[local] Instance toy_spec : Sha256Spec := CryptoProperties.toy_sha256_spec.

Definition toy_provider : SignatureProvider := {|
  provider_algorithm := BLS12_381;
  provider_verify := λ _ s, String.eqb (Signature.signatureHex s) "aa" |}.
Definition bls_key : PublicKey :=
  PublicKey.mk BLS12_381 (String.concat "" (replicate 48 "ab")).
Definition toy_bundle : SignatureBundle :=
  [Signature.mk NODO_CRYPTO_SUITE_V1 DOMAIN_VALIDATOR_VOTE BLS12_381 bls_key "aa" 1700000000].
Definition policy : CryptoPolicy := {| developmentMode := false |}.

Definition vote_of (material : string) : ValidatorVoteRecord :=
  let k := ValidatorProperties.key material in
  Vote.mk (ValidatorProperties.address_of k) k 7 "block" "parent" 1 PRECOMMIT "reason" 1700000000 toy_bundle.
Definition three_validators : ValidatorRegistry :=
  run_all ((λ m, OpRegister (ValidatorProperties.record_for (ValidatorProperties.key m)) 2000000 "owner")
           <$> ["a"; "bb"; "ccc"]) ∅.
Definition all_votes : list ValidatorVoteRecord := vote_of <$> ["a"; "bb"; "ccc"].
Definition sample_certificate : QuorumCertificate :=
  Certificate.mk 7 "block" "parent" 1 4000001 6000000 6000000
    (match validatorSetRoot three_validators with Ok h => h | _ => "" end) all_votes.

Lemma sample_certificate_verifies :
  Certificate.verify sample_certificate three_validators policy toy_provider = Ok true.
Proof. vm_compute. reflexivity. Qed.

Lemma all_votes_candidates v : v ∈ all_votes →
  candidate three_validators policy toy_provider 7 "block" "parent" 1 v.
Proof.
  unfold all_votes. simpl. rewrite !elem_of_cons, elem_of_nil.
  intros [->|[->|[->|[]]]]; (split; [split; vm_compute; reflexivity|done]).
Qed.

Lemma required_weight_exact_witness :
  ∃ q, QuorumThreshold.requiredWeight 100 = Ok q ∧ q = 67.
Proof.
  destruct (required_weight_exact 100) as (q & Hq & -> & _); [unfold u64_max; lia|].
  eexists. split; [exact Hq|reflexivity].
Defined.

Lemma quorums_intersect_witness :
  ∃ common, 3 * sum_by (consensusWeightFor three_validators) common > map_sum weight three_validators.
Proof.
  destruct (quorums_intersect three_validators policy toy_provider sample_certificate sample_certificate)
    as (common & _ & Hw & _); [exact sample_certificate_verifies..|].
  exists common. exact Hw.
Defined.

Lemma certificates_agree_witness :
  Certificate.blockHash sample_certificate = Certificate.blockHash sample_certificate.
Proof.
  apply (certificates_agree three_validators policy toy_provider sample_certificate sample_certificate []);
    [exact sample_certificate_verifies..|reflexivity|reflexivity|constructor|vm_compute; discriminate|].
  intros a (v1 & v2 & H1 & H2 & _ & _ & _ & _ & Hne). exfalso. apply Hne.
  transitivity "block"; [|symmetry]; by apply all_votes_candidates.
Defined.


(** The bundle of [vote_of] is signed with a key that is not the voter's. *)
Lemma vote_signer_unbound_witness :
  Vote.verify (signed_with (vote_of "a") toy_bundle) policy toy_provider = Ok true.
Proof. eapply vote_signer_unbound; vm_compute; reflexivity. Defined.

End QuorumProperties.
