(* ===== verification/Evidence.v ===== *)
(** * consensus: slashing evidence and the evidence pool

    Models src/src/consensus/SlashingEvidence.cpp (records, double votes,
    proposer equivocation and the verifier; not the text parsers) and
    src/src/consensus/EvidencePool.cpp.  The persistence interface of the pool is
    an environment: each call takes what the bound object answers. *)

From Stdlib Require Import Ascii.
From S2P Require Import Prelude Utils Crypto ValidatorRegistry Quorum.

Inductive SlashingEvidenceType := EVIDENCE_UNKNOWN | DOUBLE_VOTE | INVALID_SIGNATURE | EQUIVOCATION.
Inductive SlashingEvidenceSeverity := SEVERITY_UNKNOWN | WARNING | SLASHABLE.
Inductive SlashingEvidenceValidationStatus := EV_ACCEPTED | EV_DUPLICATE | EV_REJECTED.

#[global] Instance SlashingEvidenceType_eq_dec : EqDecision SlashingEvidenceType.
Proof. solve_decision. Defined.
#[global] Instance SlashingEvidenceSeverity_eq_dec : EqDecision SlashingEvidenceSeverity.
Proof. solve_decision. Defined.

Definition slashingEvidenceTypeToString (t : SlashingEvidenceType) : string :=
  match t with
  | DOUBLE_VOTE => "DOUBLE_VOTE"
  | INVALID_SIGNATURE => "INVALID_SIGNATURE"
  | EQUIVOCATION => "EQUIVOCATION"
  | EVIDENCE_UNKNOWN => "UNKNOWN"
  end.

Definition slashingEvidenceSeverityToString (s : SlashingEvidenceSeverity) : string :=
  match s with WARNING => "WARNING" | SLASHABLE => "SLASHABLE" | SEVERITY_UNKNOWN => "UNKNOWN" end.

(** [left < right] on [std::string]. *)
Definition string_lt (left right : string) : bool := negb (bool_decide (key_le right left)).

Module EvidenceRecord.
(** The characters "{}[]\n\r\t" of this file's [isSafeScalar]. *)
Definition evidence_delimiters : string :=
  "{}[]" +:+ String "010"%char (String "013"%char (String "009"%char EmptyString)).
Definition isSafeScalar (value : string) (maxSize : Z) : bool :=
  SafeScalar.isSafeDelimitedText value maxSize evidence_delimiters.

Record t := mk {
  evidenceId : string;
  type : SlashingEvidenceType;
  validatorAddress : string;
  payloadHash : string;
  severity : SlashingEvidenceSeverity;
  createdAt : Z;
}.

Definition isValid (r : t) : bool :=
  isSafeScalar (evidenceId r) 160 && negb (bool_decide (type r = EVIDENCE_UNKNOWN)) &&
  isSafeScalar (validatorAddress r) 200 && isSafeScalar (payloadHash r) 160 &&
  negb (bool_decide (severity r = SEVERITY_UNKNOWN)) && (0 <? createdAt r).

Definition serialize (r : t) : string :=
  "SlashingEvidenceRecord{evidenceId=" +:+ evidenceId r +:+
  ";type=" +:+ slashingEvidenceTypeToString (type r) +:+
  ";validatorAddress=" +:+ validatorAddress r +:+ ";payloadHash=" +:+ payloadHash r +:+
  ";severity=" +:+ slashingEvidenceSeverityToString (severity r) +:+
  ";createdAt=" +:+ to_string (createdAt r) +:+ "}".

(** [SlashingEvidenceRecord()] *)
Definition empty : t := mk "" EVIDENCE_UNKNOWN "" "" SEVERITY_UNKNOWN 0.
End EvidenceRecord.
Abbreviation SlashingEvidenceRecord := EvidenceRecord.t.

(** [SlashingEvidenceValidationResult] *)
Record EvidenceVerdict := Verdict {
  verdict_status : SlashingEvidenceValidationStatus;
  verdict_reason : string;
  verdict_record : SlashingEvidenceRecord;
}.
Definition verdict_accepted (v : EvidenceVerdict) : bool :=
  match verdict_status v with EV_ACCEPTED => true | _ => false end.

Module DoubleVote.
Record t := mk {
  firstVote : ValidatorVoteRecord;
  secondVote : ValidatorVoteRecord;
  detectedAt : Z;
}.

Definition sameValidatorHeightRound (left right : ValidatorVoteRecord) : bool :=
  negb (empty_string (Vote.validatorAddress left)) &&
  String.eqb (Vote.validatorAddress left) (Vote.validatorAddress right) &&
  (Vote.blockIndex left =? Vote.blockIndex right) && (Vote.round left =? Vote.round right).

Definition sameVoteTarget (left right : ValidatorVoteRecord) : bool :=
  String.eqb (Vote.blockHash left) (Vote.blockHash right) &&
  String.eqb (Vote.previousHash left) (Vote.previousHash right) &&
  bool_decide (Vote.decision left = Vote.decision right) &&
  String.eqb (Vote.reasonHash left) (Vote.reasonHash right).

Section evidence.
Context `{Sha256}.

(** The constructor orders the two votes by their ids. *)
Definition make (first second : ValidatorVoteRecord) (detectedAt : Z) : t :=
  if string_lt (Vote.deterministicId second) (Vote.deterministicId first)
  then mk second first detectedAt else mk first second detectedAt.

Definition isConflictPair (e : t) : bool :=
  (0 <? detectedAt e) && sameValidatorHeightRound (firstVote e) (secondVote e) &&
  negb (sameVoteTarget (firstVote e) (secondVote e)).

Definition validatorAddress (e : t) : string :=
  if isConflictPair e then Vote.validatorAddress (firstVote e) else "".

Definition payload (e : t) : string :=
  "DoubleVoteEvidencePayload{firstVote=" +:+ Vote.serialize (firstVote e) +:+
  ";secondVote=" +:+ Vote.serialize (secondVote e) +:+ "}".

Definition payloadHash (e : t) : string :=
  Hash.hashCString ("NODO_SLASHING_DOUBLE_VOTE_PAYLOAD_V1|" +:+ payload e).

Definition evidenceId (e : t) : string :=
  if negb (isConflictPair e) then ""
  else Hash.hashCString ("NODO_SLASHING_DOUBLE_VOTE_EVIDENCE_ID_V1|" +:+ payloadHash e).

Definition toRecord (e : t) : SlashingEvidenceRecord :=
  EvidenceRecord.mk (evidenceId e) DOUBLE_VOTE (validatorAddress e) (payloadHash e) SLASHABLE (detectedAt e).
End evidence.
End DoubleVote.
Abbreviation DoubleVoteEvidence := DoubleVote.t.

Module ProposerEquivocation.
Record t := mk {
  firstProposal : string;
  secondProposal : string;
  proposerAddress : string;
  blockIndex : Z;
  round : Z;
  firstBlockHash : string;
  secondBlockHash : string;
  detectedAt : Z;
}.

Definition make (first second proposer : string) (index round : Z) (firstHash secondHash : string)
    (detectedAt : Z) : t :=
  if string_lt secondHash firstHash
  then mk second first proposer index round secondHash firstHash detectedAt
  else mk first second proposer index round firstHash secondHash detectedAt.

Definition MAX_SLASHING_EVIDENCE_GOSSIP_BYTES : Z := 64 * 1024.
Definition isSafeProposalBlob (value : string) : bool :=
  negb (empty_string value) && (string_size value <=? MAX_SLASHING_EVIDENCE_GOSSIP_BYTES).

Definition isConflictPair (e : t) : bool :=
  (0 <? detectedAt e) && (0 <? blockIndex e) && (0 <? round e) &&
  EvidenceRecord.isSafeScalar (proposerAddress e) 200 &&
  EvidenceRecord.isSafeScalar (firstBlockHash e) 160 &&
  EvidenceRecord.isSafeScalar (secondBlockHash e) 160 &&
  negb (String.eqb (firstBlockHash e) (secondBlockHash e)) &&
  isSafeProposalBlob (firstProposal e) && isSafeProposalBlob (secondProposal e).

Section evidence.
Context `{Sha256}.

Definition payload (e : t) : string :=
  "ProposerEquivocationEvidencePayload{firstProposal=" +:+ firstProposal e +:+
  ";secondProposal=" +:+ secondProposal e +:+ "}".

Definition payloadHash (e : t) : string :=
  Hash.hashCString ("NODO_SLASHING_PROPOSER_EQUIVOCATION_PAYLOAD_V1|" +:+ payload e).

Definition evidenceId (e : t) : string :=
  if negb (isConflictPair e) then ""
  else Hash.hashCString ("NODO_SLASHING_PROPOSER_EQUIVOCATION_EVIDENCE_ID_V1|" +:+ payloadHash e).

Definition toRecord (e : t) : SlashingEvidenceRecord :=
  EvidenceRecord.mk (evidenceId e) EQUIVOCATION (proposerAddress e) (payloadHash e) SLASHABLE (detectedAt e).
End evidence.
End ProposerEquivocation.
Abbreviation ProposerEquivocationEvidence := ProposerEquivocation.t.

Module Verifier.
Section verifier.
Context `{Sha256}.

Definition validateDoubleVoteStructure (e : DoubleVoteEvidence) : EvidenceVerdict :=
  if negb (DoubleVote.isConflictPair e) then
    Verdict EV_REJECTED "Votes do not form a same-validator same-height same-round conflict."
      EvidenceRecord.empty
  else
    let record := DoubleVote.toRecord e in
    if negb (EvidenceRecord.isValid record) then
      Verdict EV_REJECTED "Double-vote evidence record is invalid." record
    else Verdict EV_ACCEPTED "Double-vote evidence structure is valid." record.

Definition validateProposerEquivocationStructure (e : ProposerEquivocationEvidence) : EvidenceVerdict :=
  if negb (ProposerEquivocation.isConflictPair e) then
    Verdict EV_REJECTED "Proposals do not form a same-proposer same-height same-round equivocation."
      EvidenceRecord.empty
  else
    let record := ProposerEquivocation.toRecord e in
    if negb (EvidenceRecord.isValid record) then
      Verdict EV_REJECTED "Proposer-equivocation evidence record is invalid." record
    else Verdict EV_ACCEPTED "Proposer-equivocation evidence structure is valid." record.

Definition bothVotesVerify (e : DoubleVoteEvidence) (policy : CryptoPolicy) (provider : SignatureProvider)
    : result bool :=
  first ← Vote.verify (DoubleVote.firstVote e) policy provider;
  if first : bool then Vote.verify (DoubleVote.secondVote e) policy provider else Ok false.

Definition verifyDoubleVoteEvidence (e : DoubleVoteEvidence) (policy : CryptoPolicy)
    (provider : SignatureProvider) : result EvidenceVerdict :=
  let structural := validateDoubleVoteStructure e in
  if negb (verdict_accepted structural) then Ok structural
  else
    verified ← bothVotesVerify e policy provider;
    if negb verified then
      Ok (Verdict EV_REJECTED "Double-vote evidence contains at least one vote with an invalid signature."
            (verdict_record structural))
    else
      Ok (Verdict EV_ACCEPTED "Double-vote evidence is structurally valid and both signatures verify."
            (verdict_record structural)).

Definition verifyDoubleVoteEvidenceForHistory (e : DoubleVoteEvidence) (maximumOffenseHeight : Z)
    (history : SetHistory.t) (policy : CryptoPolicy) (provider : SignatureProvider)
    : result EvidenceVerdict :=
  let structural := validateDoubleVoteStructure e in
  if negb (verdict_accepted structural) then Ok structural
  else
    let offenseHeight := Vote.blockIndex (DoubleVote.firstVote e) in
    if (offenseHeight =? 0) || (maximumOffenseHeight <? offenseHeight) then
      Ok (Verdict EV_REJECTED "Double-vote evidence refers to an unavailable consensus height."
            (verdict_record structural))
    else if negb (SetHistory.hasSet history offenseHeight) then
      Ok (Verdict EV_REJECTED "Historical validator set is unavailable for the evidence."
            (verdict_record structural))
    else
      validators ← SetHistory.setAt history offenseHeight;
      first ← Validators.verifyValidatorIdentity validators (DoubleVote.validatorAddress e)
                (Vote.validatorPublicKey (DoubleVote.firstVote e));
      second ← (if negb first then Ok false
                else Validators.verifyValidatorIdentity validators (DoubleVote.validatorAddress e)
                       (Vote.validatorPublicKey (DoubleVote.secondVote e)));
      if negb first || negb second then
        Ok (Verdict EV_REJECTED "Evidence signer was not active at the offense height."
              (verdict_record structural))
      else verifyDoubleVoteEvidence e policy provider.
End verifier.
End Verifier.

Module EvidencePool.
Definition MAX_PENDING_SLASHING_EVIDENCE : Z := 4096.
Definition kMinRetentionSeconds : Z := 7 * 24 * 3600.

(** The persistence pointer is an object identity; [None] is [nullptr]. *)
Record t := mk {
  evidenceById : gmap string SlashingEvidenceRecord;
  doubleVoteEvidenceById : gmap string DoubleVoteEvidence;
  proposerEquivocationEvidenceById : gmap string ProposerEquivocationEvidence;
  persistence : option Z;
}.

Definition init : t := mk ∅ ∅ ∅ None.

Definition size (p : t) : Z := Z.of_nat (base.size (evidenceById p)).
Definition contains (p : t) (id : string) : bool := bool_decide (is_Some (evidenceById p !! id)).
Definition hasPersistence (p : t) : bool := bool_decide (persistence p ≠ None).

(** [std::map::emplace] keeps an existing value. *)
Definition emplace {V} (k : string) (v : V) (m : gmap string V) : gmap string V :=
  match m !! k with Some _ => m | None => <[k := v]> m end.

Definition erase (id : string) (p : t) : t :=
  mk (delete id (evidenceById p)) (delete id (doubleVoteEvidenceById p))
     (delete id (proposerEquivocationEvidenceById p)) (persistence p).

Section pool.
Context `{Sha256}.

(** The common part of the two submissions: [persisted] is whether the bound
    object's [persist] returns (true) or throws (false). *)
Definition admitEvidence (validation : EvidenceVerdict) (persisted : bool) (store : string → SlashingEvidenceRecord → t → t)
    : M t EvidenceVerdict := λ p,
  if negb (verdict_accepted validation) then (Ok validation, p)
  else
    let record := verdict_record validation in
    let id := EvidenceRecord.evidenceId record in
    if contains p id then
      (Ok (Verdict EV_DUPLICATE "Slashing evidence record is already present." record), p)
    else if MAX_PENDING_SLASHING_EVIDENCE <=? size p then
      (Ok (Verdict EV_REJECTED "Pending slashing evidence pool reached its protocol limit." record), p)
    else if hasPersistence p && negb persisted then
      (Ok (Verdict EV_REJECTED "Slashing evidence could not be persisted atomically." record), p)
    else (Ok (Verdict EV_ACCEPTED "Slashing evidence record accepted." record), store id record p).

Definition submitDoubleVoteEvidence (e : DoubleVoteEvidence) (persisted : bool) : M t EvidenceVerdict :=
  admitEvidence (Verifier.validateDoubleVoteStructure e) persisted (λ id record p,
    mk (emplace id record (evidenceById p)) (emplace id e (doubleVoteEvidenceById p))
       (proposerEquivocationEvidenceById p) (persistence p)).

Definition submitProposerEquivocationEvidence (e : ProposerEquivocationEvidence) (persisted : bool)
    : M t EvidenceVerdict :=
  admitEvidence (Verifier.validateProposerEquivocationStructure e) persisted (λ id record p,
    mk (emplace id record (evidenceById p)) (doubleVoteEvidenceById p)
       (emplace id e (proposerEquivocationEvidenceById p)) (persistence p)).

Definition setPersistence (next : option Z) : M t unit := λ p,
  if negb (bool_decide (evidenceById p = ∅)) && negb (bool_decide (next = persistence p)) then
    (Throw (logic_error "Evidence persistence cannot change after pool admission."), p)
  else if hasPersistence p && bool_decide (next ≠ None) && negb (bool_decide (persistence p = next)) then
    (Throw (logic_error "Evidence persistence cannot be replaced while bound."), p)
  else
    (Ok tt, mk (evidenceById p) (doubleVoteEvidenceById p) (proposerEquivocationEvidenceById p) next).

(** [erased] is the answer of the bound object's [erase]. *)
Definition removeEvidence (id : string) (erased : bool) : M t bool := λ p,
  if negb (contains p id) then (Ok false, p)
  else if hasPersistence p && negb erased then (Ok false, p)
  else (Ok true, erase id p).

Definition pruneOne (safeCutoff : Z) (erased : string → bool) (p : t)
    (entry : string * SlashingEvidenceRecord) : t :=
  if EvidenceRecord.createdAt entry.2 <? safeCutoff then
    if hasPersistence p && negb (erased entry.1) then p else erase entry.1 p
  else p.

Definition pruneOlderThan (cutoffTimestamp now : Z) (erased : string → bool) : M t unit := λ p,
  let safeCutoff := Z.min cutoffTimestamp (now - kMinRetentionSeconds) in
  (Ok tt, foldl (pruneOne safeCutoff erased) p (entries (evidenceById p))).

Definition evidenceForValidator (p : t) (address : string) : list SlashingEvidenceRecord :=
  filter (λ r, EvidenceRecord.validatorAddress r = address) (entries (evidenceById p)).*2.

Definition countForValidator (p : t) (address : string) : Z :=
  Z.of_nat (length (evidenceForValidator p address)).

Definition doubleVoteEvidenceBeforeHeight (p : t) (height : Z) : list DoubleVoteEvidence :=
  filter (λ e, Vote.blockIndex (DoubleVote.firstVote e) < height) (entries (doubleVoteEvidenceById p)).*2.

Definition proposerEquivocationEvidenceBeforeHeight (p : t) (height : Z) : list ProposerEquivocationEvidence :=
  filter (λ e, ProposerEquivocation.blockIndex e < height)
    (entries (proposerEquivocationEvidenceById p)).*2.

Definition recordEntryValid (entry : string * SlashingEvidenceRecord) : bool :=
  String.eqb entry.1 (EvidenceRecord.evidenceId entry.2) && EvidenceRecord.isValid entry.2.

(** The same body for both evidence maps: the record is present, carries the
    evidence's id and serializes like it. *)
Definition sourceEntryValid (p : t) (id evidenceId : string) (record : SlashingEvidenceRecord) : bool :=
  match evidenceById p !! id with
  | None => false
  | Some r => String.eqb evidenceId id &&
              String.eqb (EvidenceRecord.serialize record) (EvidenceRecord.serialize r)
  end.

Definition isValid (p : t) : bool :=
  forallb recordEntryValid (entries (evidenceById p)) &&
  forallb (λ e, sourceEntryValid p e.1 (DoubleVote.evidenceId e.2) (DoubleVote.toRecord e.2))
    (entries (doubleVoteEvidenceById p)) &&
  forallb (λ e, sourceEntryValid p e.1 (ProposerEquivocation.evidenceId e.2)
                  (ProposerEquivocation.toRecord e.2))
    (entries (proposerEquivocationEvidenceById p)).
End pool.
End EvidencePool.

(** ** Lemmas on evidence *)

Module EvidenceFacts.
Import DoubleVote Verifier.

Lemma evidence_safe_hex c : Address.is_lower_hex c = true →
  SafeScalar.contains_char EvidenceRecord.evidence_delimiters c = false.
Proof. destruct c as [[] [] [] [] [] [] [] []]; vm_compute; done. Qed.

Lemma scalar_evidence_safe s max :
  SafeScalar.isSafeScalar s = true → string_size s ≤ max → EvidenceRecord.isSafeScalar s max = true.
Proof.
  unfold SafeScalar.isSafeScalar, EvidenceRecord.isSafeScalar, SafeScalar.isSafeDelimitedText.
  intros E Hmax. destruct (_ || _) eqn:Eg in E; [done|]. apply orb_false_iff in Eg as [-> _].
  replace (max <? string_size s) with false by lia. cbn [orb]. clear Hmax.
  induction s as [|c s IH]; [done|]. cbn [SafeScalar.all_chars] in *.
  apply andb_true_iff in E as [Hc Hs]. rewrite (IH Hs), andb_true_r. apply negb_true_iff in Hc.
  change SafeScalar.scalar_delimiters with (";" +:+ EvidenceRecord.evidence_delimiters) in Hc.
  rewrite SafeScalar.contains_char_app in Hc. apply orb_false_iff in Hc as [_ ->]. done.
Qed.

Lemma address_size `{Sha256} a : Address.isValid a = true → string_size a ≤ 200.
Proof.
  unfold Address.isValid. destruct (Nat.eqb _ _) eqn:E; [|done]. intros _.
  apply Nat.eqb_eq in E. unfold string_size. rewrite E. vm_compute. discriminate.
Qed.

Lemma verified_address `{Sha256} v policy provider : Vote.verify v policy provider = Ok true →
  SafeScalar.isSafeScalar (Vote.validatorAddress v) = true ∧ string_size (Vote.validatorAddress v) ≤ 200.
Proof.
  unfold Vote.verify. intros (b & E & Hb)%bind_Ok. destruct b; [clear Hb|done].
  unfold Vote.isStructurallyValid in E.
  destruct (_ || _) eqn:Eg in E; [done|]. destruct (negb (PublicKey.isValid _)) in E; [done|].
  apply bind_Ok in E as (b & Hb & E). destruct b; [clear E|done]. split; [by destruct (SafeScalar.isSafeScalar (Vote.validatorAddress v))|].
  unfold Vote.isValidatorAddressBoundToPublicKey in Hb.
  destruct (Address.isValid _) eqn:Ha; [|done]. by apply address_size.
Qed.

(** What two votes must share, and where they must differ, to be evidence. *)
Record conflicting (v1 v2 : ValidatorVoteRecord) : Prop := {
  conflict_address : Vote.validatorAddress v1 = Vote.validatorAddress v2;
  conflict_named : Vote.validatorAddress v1 ≠ "";
  conflict_height : Vote.blockIndex v1 = Vote.blockIndex v2;
  conflict_round : Vote.round v1 = Vote.round v2;
  conflict_target : ¬ (Vote.blockHash v1 = Vote.blockHash v2 ∧ Vote.previousHash v1 = Vote.previousHash v2 ∧
                       Vote.decision v1 = Vote.decision v2 ∧ Vote.reasonHash v1 = Vote.reasonHash v2);
}.

Lemma conflicting_sym v1 v2 : conflicting v1 v2 → conflicting v2 v1.
Proof.
  intros [Ha Hn Hh Hr Ht]. split; [done|congruence|done..|].
  intros (E1 & E2 & E3 & E4). apply Ht. by rewrite E1, E2, E3, E4.
Qed.

Lemma isConflictPair_true e :
  isConflictPair e = true ↔ 0 < detectedAt e ∧ conflicting (firstVote e) (secondVote e).
Proof.
  unfold isConflictPair, sameValidatorHeightRound, sameVoteTarget.
  rewrite !andb_true_iff, !negb_true_iff, empty_string_false, String.eqb_eq, !Z.eqb_eq, Z.ltb_lt.
  rewrite !andb_false_iff, !String.eqb_neq, bool_decide_eq_false. split.
  - intros [[Hd [[[Hn Ha] Hh] Hr]] Ht]. split; [done|]. split; try done. tauto.
  - intros [Hd [Ha Hn Hh Hr Ht]]. split_and!; try done.
    destruct (decide (Vote.blockHash (firstVote e) = Vote.blockHash (secondVote e)));
    destruct (decide (Vote.previousHash (firstVote e) = Vote.previousHash (secondVote e)));
    destruct (decide (Vote.decision (firstVote e) = Vote.decision (secondVote e))); tauto.
Qed.

(** The constructor only orders the votes. *)
Lemma make_cases `{Sha256} a b t :
  make a b t = mk a b t ∨ make a b t = mk b a t.
Proof. unfold make. destruct (string_lt _ _); tauto. Qed.

Lemma string_lt_total (x y : string) : x ≠ y → string_lt y x = negb (string_lt x y).
Proof.
  intros Hne. unfold string_lt. rewrite negb_involutive.
  destruct (decide (key_le y x)) as [H1|H1], (decide (key_le x y)) as [H2|H2].
  - destruct Hne. by apply (anti_symm key_le).
  - by rewrite (bool_decide_true (key_le y x)), (bool_decide_false (key_le x y)).
  - by rewrite (bool_decide_false (key_le y x)), (bool_decide_true (key_le x y)).
  - by destruct (key_le_total x y).
Qed.

Lemma make_comm `{Sha256} a b t :
  Vote.deterministicId a ≠ Vote.deterministicId b → make a b t = make b a t.
Proof.
  intros Hne. unfold make. pose proof (string_lt_total _ _ Hne) as ->.
  by destruct (string_lt (Vote.deterministicId a) (Vote.deterministicId b)).
Qed.

Lemma structure_accepted `{Sha256Spec} e :
  isConflictPair e = true → EvidenceRecord.isSafeScalar (Vote.validatorAddress (firstVote e)) 200 = true →
  validateDoubleVoteStructure e =
    Verdict EV_ACCEPTED "Double-vote evidence structure is valid." (toRecord e).
Proof.
  intros Hc Ha. unfold validateDoubleVoteStructure. rewrite Hc. simpl.
  enough (EvidenceRecord.isValid (toRecord e) = true) as -> by done.
  pose proof (proj1 (isConflictPair_true e) Hc) as [Hd _].
  unfold EvidenceRecord.isValid, toRecord, evidenceId, DoubleVote.validatorAddress. rewrite Hc. simpl.
  unfold EvidenceRecord.isSafeScalar in *. unfold payloadHash. rewrite Ha, !QuorumFacts.hash_text by (exact evidence_safe_hex || lia). simpl. by apply Z.ltb_lt.
Qed.

(** Proven misbehaviour: what the verifier demands of a pair of votes. *)
Record slashable `{Sha256} (history : SetHistory.t) (maxHeight : Z) (policy : CryptoPolicy)
    (provider : SignatureProvider) (v1 v2 : ValidatorVoteRecord) : Prop := {
  slash_conflict : conflicting v1 v2;
  slash_height : Vote.blockIndex v1 ≠ 0 ∧ Vote.blockIndex v1 ≤ maxHeight;
  slash_active : ∃ r, SetHistory.setAt history (Vote.blockIndex v1) = Ok r ∧
    Validators.verifyValidatorIdentity r (Vote.validatorAddress v1) (Vote.validatorPublicKey v1) = Ok true ∧
    Validators.verifyValidatorIdentity r (Vote.validatorAddress v1) (Vote.validatorPublicKey v2) = Ok true;
  slash_signed : Vote.verify v1 policy provider = Ok true ∧ Vote.verify v2 policy provider = Ok true;
}.

Lemma slashable_sym `{Sha256} history maxHeight policy provider v1 v2 :
  slashable history maxHeight policy provider v1 v2 → slashable history maxHeight policy provider v2 v1.
Proof.
  intros [Hc [Hh1 Hh2] (r & Hr & Hi1 & Hi2) [Hs1 Hs2]]. pose proof Hc as [Ha _ Hh _ _].
  split; [by apply conflicting_sym|by rewrite <- Hh| |done].
  exists r. rewrite <- Hh, <- Ha. done.
Qed.

Lemma setAt_hasSet `{Sha256} h k r : SetHistory.setAt h k = Ok r → SetHistory.hasSet h k = true.
Proof.
  unfold SetHistory.setAt, SetHistory.locate. intros E. destruct (SetHistory.hasSet h k); [done|].
  by apply fmap_Ok in E as (? & ? & _).
Qed.

(** The verifier, for any order of the two votes. *)
Lemma slashable_accepted `{Sha256Spec} history maxHeight policy provider e :
  0 < detectedAt e → slashable history maxHeight policy provider (firstVote e) (secondVote e) →
  verifyDoubleVoteEvidenceForHistory e maxHeight history policy provider =
  Ok (Verdict EV_ACCEPTED "Double-vote evidence is structurally valid and both signatures verify." (toRecord e)).
Proof.
  intros Hd [Hc [Hh1 Hh2] (r & Hr & Hi1 & Hi2) [Hs1 Hs2]].
  assert (isConflictPair e = true) as Hp by (by apply isConflictPair_true).
  assert (DoubleVote.validatorAddress e = Vote.validatorAddress (firstVote e)) as Ha
    by (unfold DoubleVote.validatorAddress; by rewrite Hp).
  assert (validateDoubleVoteStructure e =
    Verdict EV_ACCEPTED "Double-vote evidence structure is valid." (toRecord e)) as Hv.
  { apply structure_accepted; [done|]. apply verified_address in Hs1 as [? ?]. by apply scalar_evidence_safe. }
  unfold verifyDoubleVoteEvidenceForHistory. rewrite Hv. simpl.
  replace (Vote.blockIndex (firstVote e) =? 0) with false by lia.
  replace (maxHeight <? Vote.blockIndex (firstVote e)) with false by lia. simpl.
  rewrite (setAt_hasSet _ _ _ Hr), Hr. simpl. rewrite Ha, Hi1. simpl. rewrite Hi2. simpl.
  unfold verifyDoubleVoteEvidence. rewrite Hv. simpl. unfold bothVotesVerify. rewrite Hs1. simpl. by rewrite Hs2.
Qed.

Lemma accepted_slashable `{Sha256} history maxHeight policy provider e v :
  verifyDoubleVoteEvidenceForHistory e maxHeight history policy provider = Ok v → verdict_accepted v = true →
  0 < detectedAt e ∧ slashable history maxHeight policy provider (firstVote e) (secondVote e).
Proof.
  unfold verifyDoubleVoteEvidenceForHistory. intros E Hacc.
  destruct (verdict_accepted (validateDoubleVoteStructure e)) eqn:Hst; simpl in E; [|congruence].
  assert (isConflictPair e = true) as Hp.
  { unfold validateDoubleVoteStructure in Hst. by destruct (isConflictPair e). }
  assert (DoubleVote.validatorAddress e = Vote.validatorAddress (firstVote e)) as Ha
    by (unfold DoubleVote.validatorAddress; by rewrite Hp).
  apply isConflictPair_true in Hp as [Hd Hc]. split; [done|].
  destruct (_ || _) eqn:Eh in E; [by injection E as <-|].
  destruct (SetHistory.hasSet _ _) eqn:Es; simpl in E; [|by injection E as <-].
  apply bind_Ok in E as (r & Hr & E). apply bind_Ok in E as (b1 & H1 & E).
  apply bind_Ok in E as (b2 & H2 & E). rewrite Ha in H1, H2.
  destruct b1; simpl in *; [|by injection E as <-]. destruct b2; simpl in *; [|by injection E as <-].
  unfold verifyDoubleVoteEvidence in E. rewrite Hst in E. simpl in E.
  apply bind_Ok in E as (b & Hb & E). destruct b; simpl in E; [|by injection E as <-].
  unfold bothVotesVerify in Hb. apply bind_Ok in Hb as (b1 & Hv1 & Hb). destruct b1; [|done].
  split; [exact Hc|lia|exists r; split_and!; assumption|split; assumption].
Qed.
End EvidenceFacts.

(** ** Lemmas on the pool *)

Module PoolFacts.
Import EvidencePool.

Section pool.
Context `{Sha256}.

Record wf (p : t) : Prop := {
  wf_records id r : evidenceById p !! id = Some r →
    EvidenceRecord.evidenceId r = id ∧ EvidenceRecord.isValid r = true;
  wf_double id e : doubleVoteEvidenceById p !! id = Some e →
    evidenceById p !! id = Some (DoubleVote.toRecord e) ∧ DoubleVote.evidenceId e = id;
  wf_equivocation id e : proposerEquivocationEvidenceById p !! id = Some e →
    evidenceById p !! id = Some (ProposerEquivocation.toRecord e) ∧ ProposerEquivocation.evidenceId e = id;
  wf_source id r : evidenceById p !! id = Some r →
    is_Some (doubleVoteEvidenceById p !! id) ∨ is_Some (proposerEquivocationEvidenceById p !! id);
  wf_size : size p ≤ MAX_PENDING_SLASHING_EVIDENCE;
}.

Inductive op :=
| OpDoubleVote (e : DoubleVoteEvidence) (persisted : bool)
| OpEquivocation (e : ProposerEquivocationEvidence) (persisted : bool)
| OpSetPersistence (next : option Z)
| OpRemove (id : string) (erased : bool)
| OpPrune (cutoff now : Z) (erased : string → bool).

Definition run (o : op) (p : t) : t :=
  match o with
  | OpDoubleVote e persisted => (submitDoubleVoteEvidence e persisted p).2
  | OpEquivocation e persisted => (submitProposerEquivocationEvidence e persisted p).2
  | OpSetPersistence next => (setPersistence next p).2
  | OpRemove id erased => (removeEvidence id erased p).2
  | OpPrune cutoff now erased => (pruneOlderThan cutoff now erased p).2
  end.
Definition run_all (ops : list op) (p : t) : t := foldl (λ p o, run o p) p ops.

Lemma wf_init : wf init.
Proof.
  split; [intros ? ? E; simpl in E; by apply lookup_empty_Some in E..|]. unfold size. simpl. rewrite map_size_empty.
  unfold MAX_PENDING_SLASHING_EVIDENCE. lia.
Qed.

Lemma emplace_new {V} k (v : V) m : m !! k = None → emplace k v m = <[k := v]> m.
Proof. unfold emplace. by intros ->. Qed.

Lemma double_absent p id : wf p → contains p id = false → doubleVoteEvidenceById p !! id = None.
Proof.
  intros Hwf Hc%bool_decide_eq_false. destruct (doubleVoteEvidenceById p !! id) as [e|] eqn:E; [|done].
  apply (wf_double p Hwf) in E as [E _]. destruct Hc. by eexists.
Qed.

Lemma equivocation_absent p id : wf p → contains p id = false → proposerEquivocationEvidenceById p !! id = None.
Proof.
  intros Hwf Hc%bool_decide_eq_false. destruct (proposerEquivocationEvidenceById p !! id) as [e|] eqn:E; [|done].
  apply (wf_equivocation p Hwf) in E as [E _]. destruct Hc. by eexists.
Qed.

Lemma contains_false p id : contains p id = false → evidenceById p !! id = None.
Proof. intros Hc%bool_decide_eq_false. by apply eq_None_not_Some. Qed.

Lemma size_insert p id r : evidenceById p !! id = None → size p < MAX_PENDING_SLASHING_EVIDENCE →
  Z.of_nat (base.size (<[id := r]> (evidenceById p))) ≤ MAX_PENDING_SLASHING_EVIDENCE.
Proof. intros E Hs. unfold size in *. rewrite map_size_insert_None by done. lia. Qed.

Lemma double_stored p e :
  wf p → EvidenceRecord.isValid (DoubleVote.toRecord e) = true →
  contains p (DoubleVote.evidenceId e) = false → size p < MAX_PENDING_SLASHING_EVIDENCE →
  wf (mk (emplace (DoubleVote.evidenceId e) (DoubleVote.toRecord e) (evidenceById p))
         (emplace (DoubleVote.evidenceId e) e (doubleVoteEvidenceById p))
         (proposerEquivocationEvidenceById p) (persistence p)).
Proof.
  intros Hwf Hv Hc Hs. pose proof (contains_false _ _ Hc) as Hn.
  rewrite (emplace_new _ _ _ Hn), (emplace_new _ _ _ (double_absent _ _ Hwf Hc)).
  split; simpl.
  - intros id r [[<- <-]|[? ?]]%lookup_insert_Some; [done|by apply (wf_records p Hwf)].
  - intros id e' [[<- <-]|[? E]]%lookup_insert_Some; [by rewrite lookup_insert_eq|].
    rewrite lookup_insert_ne by done. by apply (wf_double p Hwf).
  - intros id e' E. destruct (decide (id = DoubleVote.evidenceId e)) as [->|Hne].
    { by rewrite (equivocation_absent _ _ Hwf Hc) in E. }
    rewrite lookup_insert_ne by done. by apply (wf_equivocation p Hwf).
  - intros id r [[<- <-]|[? E]]%lookup_insert_Some; [left; by rewrite lookup_insert_eq|].
    rewrite lookup_insert_ne by done. by apply (wf_source p Hwf _ r).
  - by apply size_insert.
Qed.

Lemma equivocation_stored p e :
  wf p → EvidenceRecord.isValid (ProposerEquivocation.toRecord e) = true →
  contains p (ProposerEquivocation.evidenceId e) = false → size p < MAX_PENDING_SLASHING_EVIDENCE →
  wf (mk (emplace (ProposerEquivocation.evidenceId e) (ProposerEquivocation.toRecord e) (evidenceById p))
         (doubleVoteEvidenceById p)
         (emplace (ProposerEquivocation.evidenceId e) e (proposerEquivocationEvidenceById p)) (persistence p)).
Proof.
  intros Hwf Hv Hc Hs. pose proof (contains_false _ _ Hc) as Hn.
  rewrite (emplace_new _ _ _ Hn), (emplace_new _ _ _ (equivocation_absent _ _ Hwf Hc)).
  split; simpl.
  - intros id r [[<- <-]|[? ?]]%lookup_insert_Some; [done|by apply (wf_records p Hwf)].
  - intros id e' E. destruct (decide (id = ProposerEquivocation.evidenceId e)) as [->|Hne].
    { by rewrite (double_absent _ _ Hwf Hc) in E. }
    rewrite lookup_insert_ne by done. by apply (wf_double p Hwf).
  - intros id e' [[<- <-]|[? E]]%lookup_insert_Some; [by rewrite lookup_insert_eq|].
    rewrite lookup_insert_ne by done. by apply (wf_equivocation p Hwf).
  - intros id r [[<- <-]|[? E]]%lookup_insert_Some; [right; by rewrite lookup_insert_eq|].
    rewrite lookup_insert_ne by done. by apply (wf_source p Hwf _ r).
  - by apply size_insert.
Qed.

Lemma erase_wf id p : wf p → wf (erase id p).
Proof.
  intros Hwf. split; simpl.
  - intros k r [_ E]%lookup_delete_Some. by apply (wf_records p Hwf).
  - intros k e [Hne E]%lookup_delete_Some. rewrite lookup_delete_ne by done. by apply (wf_double p Hwf).
  - intros k e [Hne E]%lookup_delete_Some. rewrite lookup_delete_ne by done. by apply (wf_equivocation p Hwf).
  - intros k r [Hne E]%lookup_delete_Some. rewrite !lookup_delete_ne by done. by apply (wf_source p Hwf _ r).
  - pose proof (wf_size p Hwf) as Hs. unfold size in *. simpl. rewrite map_size_delete.
    destruct (evidenceById p !! id); simpl; unfold Datatypes.id; lia.
Qed.

Lemma pruneOne_cases cut erased p en : pruneOne cut erased p en = p ∨ pruneOne cut erased p en = erase en.1 p.
Proof. unfold pruneOne. destruct (_ <? _); [destruct (_ && _)|]; tauto. Qed.

Lemma prune_wf cut erased l p : wf p → wf (foldl (pruneOne cut erased) p l).
Proof.
  revert p. induction l as [|en l IH]; intros p Hwf; simpl; [done|]. apply IH.
  destruct (pruneOne_cases cut erased p en) as [->| ->]; [done|by apply erase_wf].
Qed.

Lemma admit_cases validation persisted store p :
  (admitEvidence validation persisted store p).2 = p ∨
  verdict_accepted validation = true ∧
  contains p (EvidenceRecord.evidenceId (verdict_record validation)) = false ∧
  size p < MAX_PENDING_SLASHING_EVIDENCE ∧
  (admitEvidence validation persisted store p).2 =
    store (EvidenceRecord.evidenceId (verdict_record validation)) (verdict_record validation) p.
Proof.
  unfold admitEvidence. destruct (verdict_accepted validation); [|by left]. cbn [negb].
  destruct (contains _ _); [by left|]. destruct (_ <=? _) eqn:Hs; [by left|].
  destruct (_ && _); [by left|]. right. split_and!; [done..|lia|done].
Qed.

Lemma double_valid e : verdict_accepted (Verifier.validateDoubleVoteStructure e) = true →
  verdict_record (Verifier.validateDoubleVoteStructure e) = DoubleVote.toRecord e ∧
  EvidenceRecord.isValid (DoubleVote.toRecord e) = true.
Proof.
  unfold Verifier.validateDoubleVoteStructure. destruct (DoubleVote.isConflictPair e); [|discriminate].
  cbn [negb]. destruct (EvidenceRecord.isValid _); [|discriminate]. done.
Qed.

Lemma equivocation_valid e : verdict_accepted (Verifier.validateProposerEquivocationStructure e) = true →
  verdict_record (Verifier.validateProposerEquivocationStructure e) = ProposerEquivocation.toRecord e ∧
  EvidenceRecord.isValid (ProposerEquivocation.toRecord e) = true.
Proof.
  unfold Verifier.validateProposerEquivocationStructure.
  destruct (ProposerEquivocation.isConflictPair e); [|discriminate].
  cbn [negb]. destruct (EvidenceRecord.isValid _); [|discriminate]. done.
Qed.

Lemma run_wf o p : wf p → wf (run o p).
Proof.
  intros Hwf. destruct o as [e pe|e pe|next|id er|cut now er]; simpl.
  - unfold submitDoubleVoteEvidence.
    match goal with |- wf (admitEvidence ?v ?b ?st ?q).2 =>
      destruct (admit_cases v b st q) as [->|(Ha & Hc & Hs & ->)] end; [done|].
    apply double_valid in Ha as [Hr Hv]. rewrite Hr in Hc |- *. by apply double_stored.
  - unfold submitProposerEquivocationEvidence.
    match goal with |- wf (admitEvidence ?v ?b ?st ?q).2 =>
      destruct (admit_cases v b st q) as [->|(Ha & Hc & Hs & ->)] end; [done|].
    apply equivocation_valid in Ha as [Hr Hv]. rewrite Hr in Hc |- *. by apply equivocation_stored.
  - unfold setPersistence. destruct (_ && _); [done|]. destruct (_ && _); [done|].
    simpl. destruct Hwf. by split.
  - unfold removeEvidence. destruct (negb _); [done|]. destruct (_ && _); [done|]. by apply erase_wf.
  - by apply prune_wf.
Qed.

Lemma run_all_wf ops p : wf p → wf (run_all ops p).
Proof. revert p. induction ops as [|o ops IH]; intros p Hwf; simpl; [done|]. apply IH, run_wf, Hwf. Qed.

Lemma wf_isValid p : wf p → isValid p = true.
Proof.
  intros Hwf. unfold isValid. rewrite !andb_true_iff, !forallb_forall. split_and!.
  - intros [id r] Hin%list_elem_of_In%elem_of_entries. apply (wf_records p Hwf) in Hin as [<- Hv].
    unfold recordEntryValid. simpl. by rewrite String.eqb_refl, Hv.
  - intros [id e] Hin%list_elem_of_In%elem_of_entries. apply (wf_double p Hwf) in Hin as [E <-].
    unfold sourceEntryValid. simpl. by rewrite E, !String.eqb_refl.
  - intros [id e] Hin%list_elem_of_In%elem_of_entries. apply (wf_equivocation p Hwf) in Hin as [E <-].
    unfold sourceEntryValid. simpl. by rewrite E, !String.eqb_refl.
Qed.

(** *** Pruning *)

Lemma prune_keeps cut erased l p id :
  (∀ r, (id, r) ∈ l → cut ≤ EvidenceRecord.createdAt r) →
  let p' := foldl (pruneOne cut erased) p l in
  evidenceById p' !! id = evidenceById p !! id ∧
  doubleVoteEvidenceById p' !! id = doubleVoteEvidenceById p !! id ∧
  proposerEquivocationEvidenceById p' !! id = proposerEquivocationEvidenceById p !! id.
Proof.
  revert p. induction l as [|[k r] l IH]; intros p Hkeep; simpl; [done|].
  destruct (IH (pruneOne cut erased p (k, r))) as (-> & -> & ->); [intros; apply Hkeep; elem|].
  unfold pruneOne. simpl. destruct (_ <? cut) eqn:Hc; [|done]. destruct (_ && _); [done|]. simpl.
  assert (k ≠ id) by (intros ->; specialize (Hkeep r); assert (cut ≤ EvidenceRecord.createdAt r) by (apply Hkeep; elem); lia).
  by rewrite !lookup_delete_ne.
Qed.

Lemma pruneOne_persistence cut erased p en : persistence (pruneOne cut erased p en) = persistence p.
Proof. by destruct (pruneOne_cases cut erased p en) as [->| ->]. Qed.

Lemma prune_stays_absent cut erased l p id :
  evidenceById p !! id = None → evidenceById (foldl (pruneOne cut erased) p l) !! id = None.
Proof.
  revert p. induction l as [|en l IH]; intros p E; simpl; [done|]. apply IH.
  destruct (pruneOne_cases cut erased p en) as [->| ->]; [done|]. simpl. by apply lookup_delete_None; right.
Qed.

Lemma prune_removes cut erased l p id r :
  (id, r) ∈ l → EvidenceRecord.createdAt r < cut → hasPersistence p = false ∨ erased id = true →
  evidenceById (foldl (pruneOne cut erased) p l) !! id = None.
Proof.
  intros Hin Hr Hp. revert p Hp. induction l as [|en l IH]; intros p Hp; [by apply elem_of_nil in Hin|].
  simpl. apply elem_of_cons in Hin as [<-|Hin].
  - apply prune_stays_absent. unfold pruneOne. simpl. replace (EvidenceRecord.createdAt r <? cut) with true by lia.
    assert (hasPersistence p && negb (erased id) = false) as ->
      by (destruct Hp as [->| ->]; [done|by rewrite andb_false_r]).
    simpl. apply lookup_delete_eq.
  - apply IH; [done|]. unfold hasPersistence. by rewrite pruneOne_persistence.
Qed.
End pool.
End PoolFacts.

(** ** What slashing evidence promises *)

Module EvidenceProperties.
Import DoubleVote Verifier EvidenceFacts.

(** C24. The verifier decides exactly the proven conflicts: evidence built from two
    votes is accepted for a history if and only if both votes carry verified
    signatures of one validator, active at the offense height, for one height and
    round within range, and name different targets. *)
Theorem evidence_accepted_iff `{Sha256Spec} history maxHeight policy provider
    (v1 v2 : ValidatorVoteRecord) (at_time : Z) :
  (∃ v, verifyDoubleVoteEvidenceForHistory (make v1 v2 at_time) maxHeight history policy provider = Ok v ∧
        verdict_accepted v = true) ↔
  0 < at_time ∧ slashable history maxHeight policy provider v1 v2.
Proof.
  split.
  - intros (v & Hv & Hacc). apply (accepted_slashable _ _ _ _ _ _ Hv) in Hacc as [Hd Hs].
    destruct (make_cases v1 v2 at_time) as [E|E]; rewrite E in Hd, Hs; simpl in Hd, Hs; split; try done.
    by apply slashable_sym.
  - intros [Hd Hs]. rewrite slashable_accepted; [by eexists|..];
      destruct (make_cases v1 v2 at_time) as [->| ->]; try done. by apply slashable_sym.
Qed.

(** One conflict is one piece of evidence: the pair gives the same evidence,
    id and record in whichever order the two votes are reported. *)
Theorem evidence_order_independent `{Sha256} (v1 v2 : ValidatorVoteRecord) (at_time : Z) :
  Vote.deterministicId v1 ≠ Vote.deterministicId v2 →
  evidenceId (make v1 v2 at_time) = evidenceId (make v2 v1 at_time) ∧
  toRecord (make v1 v2 at_time) = toRecord (make v2 v1 at_time).
Proof.
  intros Hne. pose proof (make_comm v1 v2 at_time Hne) as E.
  split; [exact (f_equal evidenceId E)|exact (f_equal toRecord E)].
Qed.

(** C25. Honest votes are slashable: the target comparison includes the decision,
    so the PREVOTE and the PRECOMMIT that every validator signs for one block in
    one round already are accepted as double-vote evidence against it. *)
Theorem honest_round_is_slashable `{Sha256Spec} history maxHeight policy provider
    (prevote precommit : ValidatorVoteRecord) (r : ValidatorRegistry) (at_time : Z) :
  Vote.decision prevote = PREVOTE → Vote.decision precommit = PRECOMMIT →
  Vote.validatorAddress prevote = Vote.validatorAddress precommit →
  Vote.validatorPublicKey prevote = Vote.validatorPublicKey precommit →
  Vote.blockIndex prevote = Vote.blockIndex precommit → Vote.round prevote = Vote.round precommit →
  Vote.blockHash prevote = Vote.blockHash precommit →
  Vote.verify prevote policy provider = Ok true → Vote.verify precommit policy provider = Ok true →
  0 < Vote.blockIndex prevote ≤ maxHeight →
  SetHistory.setAt history (Vote.blockIndex prevote) = Ok r →
  Validators.verifyValidatorIdentity r (Vote.validatorAddress prevote) (Vote.validatorPublicKey prevote) = Ok true →
  0 < at_time →
  ∃ record, verifyDoubleVoteEvidenceForHistory (make prevote precommit at_time) maxHeight history policy provider =
    Ok (Verdict EV_ACCEPTED "Double-vote evidence is structurally valid and both signatures verify." record) ∧
    EvidenceRecord.severity record = SLASHABLE ∧
    EvidenceRecord.validatorAddress record = Vote.validatorAddress prevote.
Proof.
  intros Hd1 Hd2 Ha Hk Hi Hr _ Hv1 Hv2 Hh Hset Hid Ht.
  assert (slashable history maxHeight policy provider prevote precommit) as Hs.
  { pose proof (verified_address _ _ _ Hv1) as [Hne%SafeScalar.isSafeScalar_nonempty _].
    split; [split; try done; rewrite Hd1, Hd2; intuition discriminate|lia| |done].
    exists r. rewrite <- Hk. done. }
  exists (toRecord (make prevote precommit at_time)). split_and!.
  - apply slashable_accepted; destruct (make_cases prevote precommit at_time) as [->| ->]; try done.
    by apply slashable_sym.
  - done.
  - unfold toRecord. simpl. unfold DoubleVote.validatorAddress.
    destruct Hs as [Hc _ _ _].
    destruct (make_cases prevote precommit at_time) as [->| ->]; rewrite (proj2 (isConflictPair_true _)); simpl; try done.
    split; [done|by apply conflicting_sym].
Qed.

(** The evidence pool stays consistent and bounded through every sequence of
    submissions, removals, prunings and persistence changes, whatever the
    persistence layer answers: it passes its own audit, keeps one record per piece
    of evidence, and never holds more than the protocol limit. *)
Theorem evidence_pool_consistent `{Sha256} (ops : list PoolFacts.op) :
  let p := PoolFacts.run_all ops EvidencePool.init in
  EvidencePool.isValid p = true ∧ EvidencePool.size p ≤ EvidencePool.MAX_PENDING_SLASHING_EVIDENCE ∧
  (∀ id r, EvidencePool.evidenceById p !! id = Some r →
     is_Some (EvidencePool.doubleVoteEvidenceById p !! id) ∨
     is_Some (EvidencePool.proposerEquivocationEvidenceById p !! id)).
Proof.
  intros p. pose proof (PoolFacts.run_all_wf ops _ PoolFacts.wf_init) as Hwf.
  split_and!; [by apply PoolFacts.wf_isValid|apply Hwf|apply Hwf].
Qed.

(** Pruning respects the retention floor: whatever cutoff is requested,
    evidence younger than seven days survives with its votes or proposals, and
    older evidence below the cutoff goes unless persistence refuses. *)
Theorem pruning_respects_retention (p : EvidencePool.t) cutoff now erased id r :
  EvidencePool.evidenceById p !! id = Some r →
  let p' := (EvidencePool.pruneOlderThan cutoff now erased p).2 in
  (now - 604800 ≤ EvidenceRecord.createdAt r →
     EvidencePool.evidenceById p' !! id = Some r ∧
     EvidencePool.doubleVoteEvidenceById p' !! id = EvidencePool.doubleVoteEvidenceById p !! id ∧
     EvidencePool.proposerEquivocationEvidenceById p' !! id =
       EvidencePool.proposerEquivocationEvidenceById p !! id) ∧
  (EvidenceRecord.createdAt r < cutoff → EvidenceRecord.createdAt r < now - 604800 →
     EvidencePool.hasPersistence p = false ∨ erased id = true →
     EvidencePool.evidenceById p' !! id = None).
Proof.
  intros Hr p'. split.
  - intros Hyoung. rewrite <- Hr. apply PoolFacts.prune_keeps.
    intros r' Hin%elem_of_entries. rewrite Hr in Hin. injection Hin as <-.
    unfold EvidencePool.kMinRetentionSeconds. lia.
  - intros H1 H2. apply PoolFacts.prune_removes with r; [by apply elem_of_entries|].
    unfold EvidencePool.kMinRetentionSeconds. lia.
Qed.

(** *** Concrete evidence *)

#[local] Instance toy : Sha256 := CryptoProperties.toy_sha256.
#[local] Instance toy_spec : Sha256Spec := CryptoProperties.toy_sha256_spec.

Definition sample_vote (decision : ValidatorVoteDecision) : ValidatorVoteRecord :=
  let k := ValidatorProperties.key "a" in
  Vote.mk (ValidatorProperties.address_of k) k 7 "block" "parent" 1 decision "reason" 1700000000
    QuorumProperties.toy_bundle.
Definition sample_history : SetHistory.t := SetHistory.mk 7 7 {[ 7 := QuorumProperties.three_validators ]}.

Lemma sample_history_set : SetHistory.setAt sample_history 7 = Ok QuorumProperties.three_validators.
Proof.
  unfold SetHistory.setAt, SetHistory.locate, sample_history, SetHistory.floor, entries. simpl.
  generalize QuorumProperties.three_validators as r. intros r. by rewrite map_to_list_singleton.
Qed.

(** One vote reported twice is no evidence. *)
Lemma evidence_accepted_iff_witness :
  ¬ ∃ v, verifyDoubleVoteEvidenceForHistory (make (sample_vote PREVOTE) (sample_vote PREVOTE) 1) 7 sample_history
           QuorumProperties.policy QuorumProperties.toy_provider = Ok v ∧ verdict_accepted v = true.
Proof.
  intros Hv. apply (evidence_accepted_iff sample_history 7 QuorumProperties.policy QuorumProperties.toy_provider
    (sample_vote PREVOTE) (sample_vote PREVOTE) 1) in Hv as [_ Hs].
  apply (conflict_target _ _ (slash_conflict _ _ _ _ _ _ Hs)). split_and!; reflexivity.
Defined.

Lemma evidence_order_independent_witness :
  evidenceId (make (sample_vote PREVOTE) (sample_vote PRECOMMIT) 1) =
  evidenceId (make (sample_vote PRECOMMIT) (sample_vote PREVOTE) 1).
Proof. apply evidence_order_independent. vm_compute. discriminate. Defined.

Lemma honest_round_is_slashable_witness :
  ∃ record, verifyDoubleVoteEvidenceForHistory
    (make (sample_vote PREVOTE) (sample_vote PRECOMMIT) 1700000009) 7 sample_history
    QuorumProperties.policy QuorumProperties.toy_provider =
    Ok (Verdict EV_ACCEPTED "Double-vote evidence is structurally valid and both signatures verify." record).
Proof.
  destruct (honest_round_is_slashable sample_history 7 QuorumProperties.policy QuorumProperties.toy_provider
    (sample_vote PREVOTE) (sample_vote PRECOMMIT) QuorumProperties.three_validators 1700000009)
    as (record & Hr & _);
    [vm_compute; reflexivity|vm_compute; reflexivity|vm_compute; reflexivity
    |vm_compute; reflexivity|vm_compute; reflexivity|vm_compute; reflexivity
    |vm_compute; reflexivity|vm_compute; reflexivity|vm_compute; reflexivity
    |change (0 < 7 ≤ 7); lia|exact sample_history_set|vm_compute; reflexivity|vm_compute; reflexivity|exists record; exact Hr].
Defined.

Definition young_record : SlashingEvidenceRecord :=
  EvidenceRecord.mk "e1" DOUBLE_VOTE "v1" "h1" SLASHABLE 1700000000.

Lemma pruning_respects_retention_witness :
  EvidencePool.evidenceById
    (EvidencePool.pruneOlderThan 1700000500 1700000400 (λ _, true)
       (EvidencePool.mk {[ "e1" := young_record ]} ∅ ∅ None)).2 !! "e1" = Some young_record.
Proof.
  apply (pruning_respects_retention (EvidencePool.mk {[ "e1" := young_record ]} ∅ ∅ None)
    1700000500 1700000400 (λ _, true) "e1" young_record); [vm_compute; reflexivity|simpl; lia].
Defined.

End EvidenceProperties.
