(* ===== verification/VotePool.v ===== *)
(** * consensus: collecting votes and running rounds

    Models src/src/consensus/VotePool.cpp (the pool, quorum progress, pruning and
    certificate assembly), src/src/consensus/NetworkVoteCollector.cpp,
    src/src/consensus/RoundTimeout.cpp, src/src/consensus/ConsensusRoundManager.cpp
    (all but the text form of the round state) and the selection of certificate
    votes in src/src/node/consensus/BlockFinalizationPhase.cpp. *)

From Stdlib Require Import Ascii.
From S2P Require Import Prelude Utils Crypto ValidatorRegistry Quorum Evidence.

Inductive VotePoolStatus := POOL_ACCEPTED | POOL_DUPLICATE | POOL_CONFLICTING | POOL_INVALID.

#[global] Instance VotePoolStatus_eq_dec : EqDecision VotePoolStatus.
Proof. solve_decision. Defined.

Record VotePoolResult := PoolResult { pool_status : VotePoolStatus; pool_reason : string }.

(** [VotePoolBlockKey]: block index, block hash and round. *)
Abbreviation VotePoolBlockKey := (Z * string * Z)%type.

Module Progress.
Record t := mk {
  blockIndex : Z;
  blockHash : string;
  round : Z;
  acceptedVotingWeight : Z;
  requiredVotingWeight : Z;
  totalVotingWeight : Z;
}.

Definition isValid (p : t) : result bool :=
  if (0 <? blockIndex p) && negb (empty_string (blockHash p)) && (0 <? round p) &&
     (0 <? requiredVotingWeight p) && (0 <? totalVotingWeight p) then
    required ← QuorumThreshold.requiredWeight (totalVotingWeight p);
    Ok ((requiredVotingWeight p =? required) && (acceptedVotingWeight p <=? totalVotingWeight p))
  else Ok false.

Definition canCertify (p : t) : result bool :=
  valid ← isValid p;
  Ok (valid && (requiredVotingWeight p <=? acceptedVotingWeight p)).
End Progress.

Module VotePool.
Definition kMaxConflictingVotesPerKey : Z := 10.

Record t := mk {
  votesByBlock : gmap VotePoolBlockKey (list ValidatorVoteRecord);
  voteByValidatorHeightRound : gmap string ValidatorVoteRecord;
  voteIds : gset string;
  conflictingVotes : list ValidatorVoteRecord;
  conflictingVoteCounts : gmap string Z;
}.

Definition init : t := mk ∅ ∅ ∅ [] ∅.

Definition blockKey (v : ValidatorVoteRecord) : VotePoolBlockKey :=
  (Vote.blockIndex v, Vote.blockHash v, Vote.round v).

Definition keyFor (address : string) (index round : Z) (decision : ValidatorVoteDecision) : string :=
  address +:+ "#" +:+ to_string index +:+ "#" +:+ to_string round +:+ "#" +:+
  validatorVoteDecisionToString decision.

Definition validatorHeightRoundKey (v : ValidatorVoteRecord) : string :=
  keyFor (Vote.validatorAddress v) (Vote.blockIndex v) (Vote.round v) (Vote.decision v).

Definition sameVoteDecision (left right : ValidatorVoteRecord) : bool :=
  String.eqb (Vote.validatorAddress left) (Vote.validatorAddress right) &&
  (Vote.blockIndex left =? Vote.blockIndex right) &&
  String.eqb (Vote.blockHash left) (Vote.blockHash right) &&
  String.eqb (Vote.previousHash left) (Vote.previousHash right) &&
  (Vote.round left =? Vote.round right) &&
  bool_decide (Vote.decision left = Vote.decision right).

Definition countOf (p : t) (key : string) : Z := default 0 (conflictingVoteCounts p !! key).

Definition votesForBlock (p : t) (index : Z) (hash : string) (round : Z) : list ValidatorVoteRecord :=
  default [] (votesByBlock p !! (index, hash, round)).

Definition voteCountForBlock (p : t) (index : Z) (hash : string) (round : Z) : Z :=
  Z.of_nat (length (votesForBlock p index hash round)).

Definition hasConflictingVote (p : t) (address : string) (index round : Z) : bool :=
  existsb (λ v, String.eqb (Vote.validatorAddress v) address && (Vote.blockIndex v =? index) &&
                (Vote.round v =? round)) (conflictingVotes p).

Definition firstVoteForValidator (p : t) (address : string) (index round : Z)
    (decision : ValidatorVoteDecision) : option ValidatorVoteRecord :=
  voteByValidatorHeightRound p !! keyFor address index round decision.

Definition existingVoteConflictingWith (p : t) (v : ValidatorVoteRecord) : option ValidatorVoteRecord :=
  match voteByValidatorHeightRound p !! validatorHeightRoundKey v with
  | None => None
  | Some existing => if sameVoteDecision existing v then None else Some existing
  end.

Definition totalVoteCount (p : t) : Z := Z.of_nat (size (voteByValidatorHeightRound p)).

Section pool.
Context `{Sha256}.

Definition isMinimallyValidVote (v : ValidatorVoteRecord) (policy : CryptoPolicy)
    (provider : SignatureProvider) : result bool :=
  if empty_string (Vote.validatorAddress v) || (Vote.blockIndex v =? 0) ||
     empty_string (Vote.blockHash v) || empty_string (Vote.previousHash v) || (Vote.round v =? 0) ||
     bool_decide (Vote.decision v = DECISION_UNKNOWN) || (Vote.createdAt v <=? 0) then Ok false
  else if developmentMode policy then Ok true
  else Vote.verify v policy provider.

Definition submitVote (v : ValidatorVoteRecord) (policy : CryptoPolicy) (provider : SignatureProvider)
    : M t VotePoolResult :=
  valid ← lift (isMinimallyValidVote v policy provider);
  if negb valid then mret (PoolResult POOL_INVALID "Vote failed minimal pool validation.")
  else
    let voteId := Vote.deterministicId v in
    if empty_string voteId then mret (PoolResult POOL_INVALID "Vote deterministic id is empty.")
    else
      known ← gets (λ p, bool_decide (voteId ∈ voteIds p));
      if known : bool then mret (PoolResult POOL_DUPLICATE "Validator vote id already exists in pool.")
      else
        let key := validatorHeightRoundKey v in
        existing ← gets (λ p, voteByValidatorHeightRound p !! key);
        match existing with
        | Some first =>
            if sameVoteDecision first v then
              mret (PoolResult POOL_DUPLICATE "Validator vote already exists in pool.")
            else
              count ← gets (λ p, countOf p key);
              if kMaxConflictingVotesPerKey <=? count then
                mret (PoolResult POOL_CONFLICTING "Validator submitted a conflicting vote.")
              else
                modify (λ p, mk (votesByBlock p) (voteByValidatorHeightRound p) (voteIds p)
                  (conflictingVotes p ++ [v]) (<[key := countOf p key + 1]> (conflictingVoteCounts p)));;
                mret (PoolResult POOL_CONFLICTING "Validator submitted a conflicting vote.")
        | None =>
            modify (λ p, mk
              (<[blockKey v := default [] (votesByBlock p !! blockKey v) ++ [v]]> (votesByBlock p))
              (<[key := v]> (voteByValidatorHeightRound p))
              ({[ voteId ]} ∪ voteIds p) (conflictingVotes p) (conflictingVoteCounts p));;
            mret (PoolResult POOL_ACCEPTED "Vote accepted into pool.")
        end.

Fixpoint acceptedWeight (registry : ValidatorRegistry) (seen : gset string) (weight : Z)
    (l : list ValidatorVoteRecord) : result Z :=
  match l with
  | [] => Ok weight
  | v :: l =>
      if bool_decide (Vote.validatorAddress v ∈ seen) then acceptedWeight registry seen weight l
      else
        let w := Validators.consensusWeightFor registry (Vote.validatorAddress v) in
        throw_if (u64_max - weight <? w) (overflow_error "Vote pool weight cannot fit in uint64.");;
        acceptedWeight registry ({[ Vote.validatorAddress v ]} ∪ seen) (weight + w) l
  end.

Definition quorumProgressForBlock (p : t) (index : Z) (hash : string) (round : Z)
    (registry : ValidatorRegistry) (numerator denominator : Z) : result Progress.t :=
  accepted ← acceptedWeight registry ∅ 0 (votesForBlock p index hash round);
  total ← Validators.totalConsensusWeight registry;
  required ← Builder.requiredVotingWeight total numerator denominator;
  Ok (Progress.mk index hash round accepted required total).

(** The height a conflict counter's key names: the text between its first two
    '#' characters. *)
Definition countKeyObsolete (currentHeight : Z) (key : string) : bool :=
  match Text.split_at "#"%char key with
  | None => false
  | Some (_, rest) =>
      match Text.split_at "#"%char rest with
      | None => false
      | Some (heightStr, _) =>
          match Text.stoull heightStr with
          | Ok height => height <? currentHeight
          | Throw _ => true
          end
      end
  end.

Definition prune (currentHeight : Z) : M t unit := λ p,
  (Ok tt, mk
    (filter (λ e, ¬ e.1.1.1 < currentHeight) (votesByBlock p))
    (filter (λ e, ¬ Vote.blockIndex e.2 < currentHeight) (voteByValidatorHeightRound p))
    (voteIds p ∖ list_to_set (Vote.deterministicId <$>
       filter (λ v, Vote.blockIndex v < currentHeight) (entries (voteByValidatorHeightRound p)).*2))
    (filter (λ v, ¬ Vote.blockIndex v < currentHeight) (conflictingVotes p))
    (filter (λ e, countKeyObsolete currentHeight e.1 = false) (conflictingVoteCounts p))).

(** [QuorumAssembly::tryBuildCertificate] *)
Definition tryBuildCertificate (p : t) (index : Z) (hash previous : string) (round : Z)
    (registry : ValidatorRegistry) (policy : CryptoPolicy) (provider : SignatureProvider)
    (numerator denominator : Z) : result BuildResult :=
  Builder.buildFromVotes index hash previous round (votesForBlock p index hash round) registry policy
    provider numerator denominator.

(** The votes [BlockFinalizationPhase::tryFinalize] hands to the builder. *)
Definition certificateVotes (p : t) (index : Z) (hash : string) (round : Z) : list ValidatorVoteRecord :=
  filter (λ v, Vote.decision v = PRECOMMIT) (votesForBlock p index hash round).
End pool.
End VotePool.

Inductive VoteCollectStatus :=
| VC_ACCEPTED | VC_STALE_ROUND | VC_REPLAY | VC_CONFLICTING | VC_INVALID | VC_NOT_ELIGIBLE
| VC_DOUBLE_VOTE_DETECTED.

#[global] Instance VoteCollectStatus_eq_dec : EqDecision VoteCollectStatus.
Proof. solve_decision. Defined.

Record VoteCollectResult := Collected {
  collect_status : VoteCollectStatus;
  collect_reason : string;
  collect_evidence : option DoubleVoteEvidence;
}.

Module Collector.
Record t := mk {
  pool : VotePool.t;
  currentHeight : Z;
  currentRound : Z;
  eligibleValidators : list string;
}.

Definition start (height round : Z) : t := mk VotePool.init height round [].

Definition set_pool (p : VotePool.t) (c : t) : t :=
  mk p (currentHeight c) (currentRound c) (eligibleValidators c).

Definition setEligibleValidators (l : list string) : M t unit :=
  modify (λ c, mk (pool c) (currentHeight c) (currentRound c) l).

Definition hasDoubleVote (c : t) (v : ValidatorVoteRecord) : bool :=
  VotePool.hasConflictingVote (pool c) (Vote.validatorAddress v) (Vote.blockIndex v) (Vote.round v).

(** The checks that reject a vote before the pool sees it. *)
Definition rejection (c : t) (v : ValidatorVoteRecord) : option VoteCollectResult :=
  if negb (bool_decide (eligibleValidators c = [])) &&
     negb (bool_decide (Vote.validatorAddress v ∈ eligibleValidators c)) then
    Some (Collected VC_NOT_ELIGIBLE
      ("Validator " +:+ Vote.validatorAddress v +:+ " is not eligible to vote.") None)
  else if Vote.blockIndex v <? currentHeight c then
    Some (Collected VC_STALE_ROUND
      ("Vote block index " +:+ to_string (Vote.blockIndex v) +:+ " is below current height " +:+
       to_string (currentHeight c)) None)
  else if (Vote.blockIndex v =? currentHeight c) && (Vote.round v <? currentRound c) then
    Some (Collected VC_STALE_ROUND
      ("Vote round " +:+ to_string (Vote.round v) +:+ " is below current round " +:+
       to_string (currentRound c) +:+ " for height " +:+ to_string (currentHeight c)) None)
  else if currentHeight c <? Vote.blockIndex v then
    Some (Collected VC_INVALID
      ("Vote block index " +:+ to_string (Vote.blockIndex v) +:+ " is above current height " +:+
       to_string (currentHeight c)) None)
  else if (currentRound c <? Vote.round v) &&
          ((currentRound c =? u64_max) || negb (Vote.round v =? currentRound c + 1)) then
    Some (Collected VC_INVALID
      ("Vote round " +:+ to_string (Vote.round v) +:+ " is more than one round above current round " +:+
       to_string (currentRound c) +:+ " for height " +:+ to_string (currentHeight c)) None)
  else None.

Section collector.
Context `{Sha256}.

Definition setCurrentRound (height round : Z) : M t unit := λ c,
  (Ok tt, mk (VotePool.prune height (pool c)).2 height round (eligibleValidators c)).

Definition submitNetworkVote (v : ValidatorVoteRecord) (policy : CryptoPolicy)
    (provider : SignatureProvider) : M t VoteCollectResult := λ c,
  match rejection c v with
  | Some r => (Ok r, c)
  | None =>
      let '(outcome, p') := VotePool.submitVote v policy provider (pool c) in
      let c' := set_pool p' c in
      match outcome with
      | Throw e => (Throw e, c')
      | Ok r =>
          match pool_status r with
          | POOL_DUPLICATE => (Ok (Collected VC_REPLAY ("Duplicate vote detected: " +:+ pool_reason r) None), c')
          | POOL_CONFLICTING =>
              let evidence :=
                match VotePool.existingVoteConflictingWith p' v with
                | None => None
                | Some existing => Some (DoubleVote.make existing v (Vote.createdAt v))
                end in
              (Ok (Collected VC_CONFLICTING ("Conflicting vote detected: " +:+ pool_reason r) evidence), c')
          | POOL_INVALID => (Ok (Collected VC_INVALID ("Vote rejected by pool: " +:+ pool_reason r) None), c')
          | POOL_ACCEPTED => (Ok (Collected VC_ACCEPTED "Vote accepted." None), c')
          end
      end
  end.
End collector.
End Collector.
Abbreviation NetworkVoteCollector := Collector.t.

Module RoundTimeout.
Record t := mk { height : Z; round : Z; startedAt : Z; timeoutSeconds : Z }.

Definition expiresAt (r : t) : Z :=
  let delta := as_i64 (timeoutSeconds r) in
  if (0 <? delta) && (i64_max - delta <? startedAt r) then i64_max else startedAt r + delta.
Definition hasExpired (r : t) (now : Z) : bool := expiresAt r <=? now.
Definition isValid (r : t) : bool := (0 <? startedAt r) && (0 <? timeoutSeconds r).
End RoundTimeout.

Module RoundState.
Record t := mk {
  height : Z;
  round : Z;
  proposerAddress : string;
  roundStartedAt : Z;
  lockedBlockHash : string;
  lockedRound : Z;
  votedPrevote : bool;
  votedPrecommit : bool;
  persistedPrevote : option ValidatorVoteRecord;
  persistedPrecommit : option ValidatorVoteRecord;
}.

(** The constructor with its default arguments. *)
Definition fresh (height round : Z) (proposer : string) (startedAt : Z) : t :=
  mk height round proposer startedAt "" 0 false false None None.

Definition isPersistedRoundVote (v : ValidatorVoteRecord) (height round : Z)
    (decision : ValidatorVoteDecision) : bool :=
  (Vote.blockIndex v =? height) && (Vote.round v =? round) && bool_decide (Vote.decision v = decision) &&
  negb (empty_string (Vote.blockHash v)) && negb (empty_string (Vote.previousHash v)) &&
  negb (empty_string (Vote.validatorAddress v)).

Definition has_value {A} (o : option A) : bool := match o with Some _ => true | None => false end.

Definition isValid (s : t) : bool :=
  if (height s =? 0) || (round s =? 0) || empty_string (proposerAddress s) || (roundStartedAt s <=? 0)
  then false
  else
    let hasLock := negb (empty_string (lockedBlockHash s)) in
    if negb (eqb hasLock (0 <? lockedRound s)) || (round s <? lockedRound s) then false
    else if negb (eqb (votedPrevote s) (has_value (persistedPrevote s))) then false
    else if negb (eqb (votedPrecommit s) (has_value (persistedPrecommit s))) then false
    else if votedPrecommit s && (negb (votedPrevote s) || negb hasLock) then false
    else if match persistedPrevote s with
            | Some v => negb (isPersistedRoundVote v (height s) (round s) PREVOTE) | None => false end then false
    else if match persistedPrecommit s with
            | Some v => negb (isPersistedRoundVote v (height s) (round s) PRECOMMIT) ||
                        negb (String.eqb (Vote.blockHash v) (lockedBlockHash s))
            | None => false end then false
    else match persistedPrevote s, persistedPrecommit s with
         | Some a, Some b =>
             String.eqb (Vote.blockHash a) (Vote.blockHash b) &&
             String.eqb (Vote.previousHash a) (Vote.previousHash b) &&
             String.eqb (Vote.validatorAddress a) (Vote.validatorAddress b)
         | _, _ => true
         end.
End RoundState.
Abbreviation ConsensusRoundState := RoundState.t.

Module RoundManager.
Record t := mk { state : ConsensusRoundState; voteCollector : NetworkVoteCollector; timeout : RoundTimeout.t }.

Definition DEFAULT_ROUND_TIMEOUT_SECONDS : Z := 30.
Definition init : t :=
  mk (RoundState.mk 0 0 "" 0 "" 0 false false None None) (Collector.start 0 0)
     (RoundTimeout.mk 0 0 0 DEFAULT_ROUND_TIMEOUT_SECONDS).

Definition isCurrentRound (m : t) (height round : Z) : bool :=
  (RoundState.height (state m) =? height) && (RoundState.round (state m) =? round).

Definition isTimeoutExpired (m : t) (now : Z) : bool :=
  RoundTimeout.isValid (timeout m) && RoundTimeout.hasExpired (timeout m) now.

Section manager.
Context `{Sha256}.

Definition advanceToHeight (height round : Z) (proposer : string) (now timeoutSeconds : Z) : M t unit := λ m,
  let c := voteCollector m in
  let consecutiveRoundAtSameHeight :=
    (Collector.currentHeight c =? height) && negb (Collector.currentRound c =? u64_max) &&
    (round =? Collector.currentRound c + 1) in
  let c' := if consecutiveRoundAtSameHeight then (Collector.setCurrentRound height round c).2
            else Collector.start height round in
  (Ok tt, mk (RoundState.fresh height round proposer now) c'
             (RoundTimeout.mk height round now timeoutSeconds)).

Definition advanceRound (newRound : Z) (proposer : string) (now timeoutSeconds : Z) : M t unit := λ m,
  advanceToHeight (RoundState.height (state m)) newRound proposer now timeoutSeconds m.

Definition submitVote (v : ValidatorVoteRecord) (policy : CryptoPolicy) (provider : SignatureProvider)
    : M t VoteCollectResult := λ m,
  let '(r, c') := Collector.submitNetworkVote v policy provider (voteCollector m) in
  (r, mk (state m) c' (timeout m)).
End manager.
End RoundManager.

(** ** Lemmas on the pool *)

Module VotePoolFacts.
Import VotePool.

(** *** Keys *)

Lemma prefix_split p s : String.prefix p s = true → ∃ rest, s = p +:+ rest.
Proof.
  revert s. induction p as [|c p IH]; intros s; [by exists s|]. destruct s as [|d s]; [done|]. simpl.
  destruct (Ascii.ascii_dec c d) as [->|]; [|done]. intros [rest ->]%IH. by exists rest.
Qed.

Lemma address_no_hash `{Sha256} a : Address.isValid a = true → SafeScalar.contains_char a "#" = false.
Proof.
  unfold Address.isValid. destruct (Nat.eqb _ _); [|done]. cbn [negb].
  destruct (String.prefix Address.networkPrefix a) eqn:Hp; [|done]. cbn [negb].
  destruct (Address.hasOnlyLowercaseHexAfterPrefix a) eqn:Hh; [|done]. intros _.
  unfold Address.hasOnlyLowercaseHexAfterPrefix in Hh. rewrite Hp in Hh. cbn [negb] in Hh.
  apply prefix_split in Hp as [rest ->]. unfold Address.substr_from in Hh.
  rewrite CryptoFacts.substring_append_r in Hh by (rewrite CryptoFacts.length_append; lia).
  rewrite SafeScalar.contains_char_app. apply orb_false_iff. split; [done|].
  by apply (Text.all_chars_contains Address.is_lower_hex).
Qed.

Lemma to_string_no_hash z : 0 ≤ z → SafeScalar.contains_char (to_string z) "#" = false.
Proof. intros Hz. by apply (Text.all_chars_contains Text.is_digit); [apply Text.to_string_digits|]. Qed.

(** What the pool relies on: votes of a well-formed address and 64-bit position. *)
Record sane (v : ValidatorVoteRecord) : Prop := {
  sane_address : SafeScalar.contains_char (Vote.validatorAddress v) "#" = false;
  sane_index : u64 (Vote.blockIndex v);
  sane_round : u64 (Vote.round v);
}.

Lemma split_key a i r d : SafeScalar.contains_char a "#" = false →
  Text.split_at "#" (keyFor a i r d) =
  Some (a, to_string i +:+ String "#" (to_string r +:+ String "#" (validatorVoteDecisionToString d))).
Proof. intros Ha. exact (Text.split_at_app "#" a _ Ha). Qed.

Lemma key_inj v1 v2 : sane v1 → sane v2 → validatorHeightRoundKey v1 = validatorHeightRoundKey v2 →
  Vote.validatorAddress v1 = Vote.validatorAddress v2 ∧ Vote.blockIndex v1 = Vote.blockIndex v2 ∧
  Vote.round v1 = Vote.round v2 ∧ Vote.decision v1 = Vote.decision v2.
Proof.
  intros [A1 [I1 _] [R1 _]] [A2 [I2 _] [R2 _]] E%(f_equal (Text.split_at "#")).
  unfold validatorHeightRoundKey in E. rewrite !split_key in E by done. injection E as -> E.
  apply (f_equal (Text.split_at "#")) in E. rewrite !Text.split_at_app in E by (by apply to_string_no_hash).
  injection E as Ei E. apply (inj to_string) in Ei.
  apply (f_equal (Text.split_at "#")) in E. rewrite !Text.split_at_app in E by (by apply to_string_no_hash).
  injection E as Er E. apply (inj to_string) in Er. split_and!; try done.
  destruct (Vote.decision v1), (Vote.decision v2); done.
Qed.

(** The height parsed from a key is the vote's height. *)
Lemma obsolete_key h v : sane v → countKeyObsolete h (validatorHeightRoundKey v) = (Vote.blockIndex v <? h).
Proof.
  intros [Ha Hi Hr]. unfold countKeyObsolete, validatorHeightRoundKey. rewrite split_key by done.
  rewrite Text.split_at_app by (apply to_string_no_hash, Hi). by rewrite Text.stoull_to_string.
Qed.

(** *** The invariant *)

#[local] Opaque Vote.deterministicId.

Definition conflictsAt (p : t) (k : string) : Z :=
  Z.of_nat (length (filter (λ c, validatorHeightRoundKey c = k) (conflictingVotes p))).

Section pool.
Context `{Sha256}.

Record wf (p : t) : Prop := {
  wf_block k l : votesByBlock p !! k = Some l →
    NoDup l ∧ ∀ v, v ∈ l → blockKey v = k ∧ voteByValidatorHeightRound p !! validatorHeightRoundKey v = Some v;
  wf_vote k v : voteByValidatorHeightRound p !! k = Some v →
    k = validatorHeightRoundKey v ∧ sane v ∧ v ∈ default [] (votesByBlock p !! blockKey v);
  wf_ids id : id ∈ voteIds p ↔ ∃ k v, voteByValidatorHeightRound p !! k = Some v ∧ Vote.deterministicId v = id;
  wf_inj k1 v1 k2 v2 : voteByValidatorHeightRound p !! k1 = Some v1 →
    voteByValidatorHeightRound p !! k2 = Some v2 → Vote.deterministicId v1 = Vote.deterministicId v2 → v1 = v2;
  wf_conflict c : c ∈ conflictingVotes p → sane c ∧
    ∃ first, voteByValidatorHeightRound p !! validatorHeightRoundKey c = Some first ∧ sameVoteDecision first c = false;
  wf_counts k : countOf p k = conflictsAt p k ∧ conflictsAt p k ≤ kMaxConflictingVotesPerKey;
}.

Lemma init_vote k v : voteByValidatorHeightRound init !! k = Some v → False.
Proof. simpl. rewrite lookup_empty. discriminate. Qed.

Lemma pool_wf_init : wf init.
Proof.
  split.
  - intros k l. simpl. rewrite lookup_empty. discriminate.
  - intros k v []%init_vote.
  - intros id. split; [by intros ?%elem_of_empty|]. intros (k & v & []%init_vote & _).
  - intros k1 v1 k2 v2 []%init_vote.
  - intros c []%elem_of_nil.
  - intros k. unfold countOf, conflictsAt, kMaxConflictingVotesPerKey. simpl. rewrite lookup_empty. simpl. lia.
Qed.

Lemma valid_sane v policy provider :
  developmentMode policy = false → u64 (Vote.blockIndex v) → u64 (Vote.round v) →
  isMinimallyValidVote v policy provider = Ok true → sane v ∧ Vote.verify v policy provider = Ok true.
Proof.
  intros Hp Hi Hr. unfold isMinimallyValidVote. rewrite Hp. destruct (_ || _); [done|]. intros Hv.
  split; [|done]. split; [|done..]. unfold Vote.verify in Hv. apply bind_Ok in Hv as (b & E & Hv).
  destruct b; [clear Hv|done]. unfold Vote.isStructurallyValid in E. destruct (_ || _) in E; [done|].
  destruct (negb (PublicKey.isValid _)) in E; [done|]. apply bind_Ok in E as (b & Hb & E).
  destruct b; [clear E|done]. unfold Vote.isValidatorAddressBoundToPublicKey in Hb.
  destruct (Address.isValid _) eqn:Ha; [|done]. by apply address_no_hash.
Qed.

(** *** Submission *)

Definition stored (v : ValidatorVoteRecord) (p : t) : t :=
  mk (<[blockKey v := default [] (votesByBlock p !! blockKey v) ++ [v]]> (votesByBlock p))
     (<[validatorHeightRoundKey v := v]> (voteByValidatorHeightRound p))
     ({[ Vote.deterministicId v ]} ∪ voteIds p) (conflictingVotes p) (conflictingVoteCounts p).

Definition flagged (v : ValidatorVoteRecord) (p : t) : t :=
  mk (votesByBlock p) (voteByValidatorHeightRound p) (voteIds p) (conflictingVotes p ++ [v])
     (<[validatorHeightRoundKey v := countOf p (validatorHeightRoundKey v) + 1]> (conflictingVoteCounts p)).

(** Every outcome of [submitVote]. *)
Lemma submitVote_cases v policy provider p :
  match submitVote v policy provider p with
  | (Throw _, p') => p' = p
  | (Ok r, p') =>
      match pool_status r with
      | POOL_ACCEPTED => p' = stored v p ∧ isMinimallyValidVote v policy provider = Ok true ∧
          (Vote.deterministicId v ∉ voteIds p) ∧ voteByValidatorHeightRound p !! validatorHeightRoundKey v = None
      | POOL_CONFLICTING => isMinimallyValidVote v policy provider = Ok true ∧
          (∃ first, voteByValidatorHeightRound p !! validatorHeightRoundKey v = Some first ∧
                    sameVoteDecision first v = false) ∧
          (p' = p ∨ (countOf p (validatorHeightRoundKey v) < kMaxConflictingVotesPerKey ∧ p' = flagged v p))
      | _ => p' = p
      end
  end.
Proof.
  unfold submitVote, mbind, M_bind, lift, gets, modify, mret, M_ret.
  destruct (isMinimallyValidVote v policy provider) as [[]|e]; cbn [negb]; try reflexivity.
  destruct (empty_string _); [reflexivity|].
  destruct (decide (Vote.deterministicId v ∈ voteIds p)) as [Hin|Hin].
  { rewrite bool_decide_true by exact Hin. reflexivity. }
  rewrite bool_decide_false by exact Hin.
  destruct (voteByValidatorHeightRound p !! validatorHeightRoundKey v) as [first|] eqn:E.
  - destruct (sameVoteDecision first v) eqn:Es; [reflexivity|].
    destruct (_ <=? _) eqn:Hc; cbn [pool_status]; (split; [reflexivity|split; [by exists first|]]).
    + by left.
    + right. split; [lia|reflexivity].
  - cbn [pool_status]. split_and!; [reflexivity|reflexivity|exact Hin|reflexivity].
Qed.

Lemma stored_wf v p :
  wf p → sane v → Vote.deterministicId v ∉ voteIds p →
  voteByValidatorHeightRound p !! validatorHeightRoundKey v = None → wf (stored v p).
Proof.
  intros Hwf Hv Hid Hnew.
  assert (∀ k w, voteByValidatorHeightRound p !! k = Some w → Vote.deterministicId w ≠ Vote.deterministicId v) as Hne.
  { intros k w Hw E. apply Hid, (wf_ids p Hwf). exists k, w. split; assumption. }
  assert (∀ l, votesByBlock p !! blockKey v = Some l → v ∉ l) as Hfresh.
  { intros l El Hin. apply (wf_block p Hwf) in El as [_ Hall]. apply Hall in Hin as [_ E]. congruence. }
  split; simpl.
  - intros k l [[<- <-]|[Hk El]]%lookup_insert_Some.
    + split.
      * apply NoDup_app. destruct (votesByBlock p !! blockKey v) as [l|] eqn:El; simpl.
        { split_and!; [by apply (wf_block p Hwf) in El as [? _]| |apply NoDup_singleton].
          intros w Hw ->%list_elem_of_singleton. by apply (Hfresh l). }
        split_and!; [constructor|by intros ? ?%elem_of_nil|apply NoDup_singleton].
      * intros w [Hw| ->%list_elem_of_singleton]%elem_of_app; [|by rewrite lookup_insert_eq].
        destruct (votesByBlock p !! blockKey v) as [l|] eqn:El; simpl in Hw; [|by apply elem_of_nil in Hw].
        apply (wf_block p Hwf) in El as [_ Hall]. apply Hall in Hw as [Hb E]. split; [exact Hb|].
        rewrite lookup_insert_ne; [exact E|]. intros Ek. rewrite Ek in Hnew. congruence.
    + apply (wf_block p Hwf) in El as [Hnd Hall]. split; [exact Hnd|]. intros w Hw.
      apply Hall in Hw as [Hb E]. split; [exact Hb|].
      rewrite lookup_insert_ne; [exact E|]. intros Ek. rewrite Ek in Hnew. congruence.
  - intros k w [[<- <-]|[Hk Ew]]%lookup_insert_Some.
    + split_and!; [reflexivity|exact Hv|]. rewrite lookup_insert_eq.
      apply elem_of_app. right. by apply list_elem_of_singleton.
    + apply (wf_vote p Hwf) in Ew as (-> & Hs & Hin). split_and!; [reflexivity|exact Hs|].
      destruct (decide (blockKey v = blockKey w)) as [Eb|Hb].
      * rewrite <- Eb in Hin |- *. rewrite lookup_insert_eq. apply elem_of_app. left. exact Hin.
      * by rewrite lookup_insert_ne.
  - intros id. rewrite elem_of_union, elem_of_singleton, (wf_ids p Hwf). split.
    + intros [->|(k & w & Ew & <-)]; [exists (validatorHeightRoundKey v), v|exists k, w].
      * rewrite lookup_insert_eq. split; reflexivity.
      * split; [|reflexivity]. rewrite lookup_insert_ne; [exact Ew|]. congruence.
    + intros (k & w & [[_ <-]|[_ Ew]]%lookup_insert_Some & <-); [left; reflexivity|right; exists k, w; split; [exact Ew|reflexivity]].
  - intros k1 v1 k2 v2 [[_ <-]|[_ E1]]%lookup_insert_Some [[_ <-]|[_ E2]]%lookup_insert_Some Hids.
    + reflexivity.
    + destruct (Hne _ _ E2 (eq_sym Hids)).
    + destruct (Hne _ _ E1 Hids).
    + exact (wf_inj p Hwf _ _ _ _ E1 E2 Hids).
  - intros c Hc. apply (wf_conflict p Hwf) in Hc as (Hs & first & Ef & Hd). split; [exact Hs|]. exists first.
    split; [|exact Hd]. rewrite lookup_insert_ne; [exact Ef|]. congruence.
  - apply (wf_counts p Hwf).
Qed.

Lemma flagged_wf v p first :
  wf p → sane v → voteByValidatorHeightRound p !! validatorHeightRoundKey v = Some first →
  sameVoteDecision first v = false → countOf p (validatorHeightRoundKey v) < kMaxConflictingVotesPerKey →
  wf (flagged v p).
Proof.
  intros Hwf Hv Hf Hd Hc. destruct Hwf as [W1 W2 W3 W4 W5 W6]. split; simpl; try assumption.
  - intros c [Hin| ->%list_elem_of_singleton]%elem_of_app; [by apply W5|]. split; [exact Hv|]. by exists first.
  - intros k. destruct (W6 k) as [Hk Hle]. unfold countOf, conflictsAt in *. simpl.
    rewrite filter_app, length_app, filter_cons, filter_nil.
    destruct (decide (validatorHeightRoundKey v = k)) as [Ek|Hne].
    + rewrite Ek in *. rewrite lookup_insert_eq. simpl. unfold countOf. lia.
    + rewrite lookup_insert_ne by exact Hne. simpl. lia.
Qed.

Lemma submitVote_wf v policy provider p :
  developmentMode policy = false → u64 (Vote.blockIndex v) → u64 (Vote.round v) →
  wf p → wf (submitVote v policy provider p).2.
Proof.
  intros Hp Hi Hr Hwf. pose proof (submitVote_cases v policy provider p) as Hc.
  destruct (submitVote v policy provider p) as [[r|e] p']; simpl; [|by rewrite Hc].
  destruct (pool_status r); try (rewrite Hc; exact Hwf).
  - destruct Hc as (-> & Hv & Hid & Hnew). apply stored_wf; try assumption.
    by apply (valid_sane v policy provider).
  - destruct Hc as (Hv & (first & Hf & Hd) & [->|[Hc ->]]); [exact Hwf|].
    apply (flagged_wf v p first); try assumption. by apply (valid_sane v policy provider).
Qed.

(** *** Pruning *)

Lemma conflicts_after_prune h k l :
  (∀ c, c ∈ l → sane c) →
  length (filter (λ c, validatorHeightRoundKey c = k) (filter (λ v, ¬ Vote.blockIndex v < h) l)) =
  (if countKeyObsolete h k then 0 else length (filter (λ c, validatorHeightRoundKey c = k) l))%nat.
Proof.
  induction l as [|c l IH]; intros Hs; [by destruct (countKeyObsolete h k)|].
  assert (sane c) as Hc by (apply Hs; elem). specialize (IH ltac:(intros; apply Hs; elem)).
  rewrite !filter_cons. destruct (decide (validatorHeightRoundKey c = k)) as [<-|Hk].
  - rewrite (obsolete_key h c Hc) in IH |- *. destruct (Vote.blockIndex c <? h) eqn:Ei.
    + rewrite decide_False by lia. exact IH.
    + rewrite decide_True by lia. rewrite filter_cons, decide_True by reflexivity. simpl. by rewrite IH.
  - destruct (decide (¬ Vote.blockIndex c < h)); [rewrite filter_cons, decide_False by exact Hk|]; exact IH.
Qed.

Lemma prune_lookup_vote h p k v :
  voteByValidatorHeightRound (prune h p).2 !! k = Some v ↔
  voteByValidatorHeightRound p !! k = Some v ∧ h ≤ Vote.blockIndex v.
Proof. simpl. rewrite map_lookup_filter_Some. simpl. split; intros [? ?]; (split; [assumption|lia]). Qed.

Lemma prune_lookup_block h p k l :
  votesByBlock (prune h p).2 !! k = Some l ↔ votesByBlock p !! k = Some l ∧ h ≤ k.1.1.
Proof. simpl. rewrite map_lookup_filter_Some. simpl. split; intros [? ?]; (split; [assumption|lia]). Qed.

Lemma prune_votes_for h p v : h ≤ Vote.blockIndex v →
  default [] (votesByBlock (prune h p).2 !! blockKey v) = default [] (votesByBlock p !! blockKey v).
Proof.
  intros Hv. destruct (votesByBlock p !! blockKey v) as [l|] eqn:El.
  - assert (votesByBlock (prune h p).2 !! blockKey v = Some l) as -> by (by apply prune_lookup_block).
    reflexivity.
  - destruct (votesByBlock (prune h p).2 !! blockKey v) as [l|] eqn:El'; [|reflexivity].
    apply prune_lookup_block in El' as [E _]. congruence.
Qed.

Lemma prune_ids h p id :
  id ∈ voteIds (prune h p).2 ↔ id ∈ voteIds p ∧
    ∀ k v, voteByValidatorHeightRound p !! k = Some v → Vote.blockIndex v < h → Vote.deterministicId v ≠ id.
Proof.
  simpl. rewrite elem_of_difference, elem_of_list_to_set. split; intros [Hin Hno]; (split; [exact Hin|]).
  - intros k v Hk Hv E. apply Hno. apply list_elem_of_fmap. exists v. split; [by rewrite E|].
    apply list_elem_of_filter. split; [exact Hv|]. apply list_elem_of_fmap. exists (k, v). split; [reflexivity|].
    by apply elem_of_entries.
  - intros (v & E & [Hv Hin']%list_elem_of_filter)%list_elem_of_fmap.
    apply list_elem_of_fmap in Hin' as ([k w] & -> & Hk%elem_of_entries). exact (Hno k w Hk Hv (eq_sym E)).
Qed.

Lemma pool_prune_wf h p : wf p → wf (prune h p).2.
Proof.
  intros Hwf. split.
  - intros k l [El Hk]%prune_lookup_block. apply (wf_block p Hwf) in El as [Hnd Hall]. split; [exact Hnd|].
    intros v [Hb E]%Hall. split; [exact Hb|]. apply prune_lookup_vote. split; [exact E|]. by rewrite <- Hb in Hk.
  - intros k v [(-> & Hs & Hin)%(wf_vote p Hwf) Hv]%prune_lookup_vote. split_and!; [reflexivity|exact Hs|].
    by rewrite prune_votes_for.
  - intros id. rewrite prune_ids, (wf_ids p Hwf). split.
    + intros [(k & v & Ev & Hid) Hno]. exists k, v. split; [|exact Hid]. apply prune_lookup_vote.
      split; [exact Ev|]. destruct (decide (h ≤ Vote.blockIndex v)) as [|Hlt]; [assumption|].
      destruct (Hno k v Ev); [lia|exact Hid].
    + intros (k & v & [Ev Hv]%prune_lookup_vote & Hid). split; [exists k, v; split; assumption|].
      intros k' w Ew Hw E. assert (w = v) as -> by (apply (wf_inj p Hwf _ _ _ _ Ew Ev); congruence). lia.
  - intros k1 v1 k2 v2 [E1 _]%prune_lookup_vote [E2 _]%prune_lookup_vote. exact (wf_inj p Hwf _ _ _ _ E1 E2).
  - intros c [Hc Hin]%list_elem_of_filter. apply (wf_conflict p Hwf) in Hin as (Hs & first & Ef & Hd).
    split; [exact Hs|]. exists first. split; [|exact Hd]. apply prune_lookup_vote. split; [exact Ef|].
    apply (wf_vote p Hwf) in Ef as (Ek & Hsf & _). apply key_inj in Ek as (_ & Ei & _); [lia|assumption..].
  - intros k. destruct (wf_counts p Hwf k) as [Hk Hle]. unfold countOf, conflictsAt in *. simpl.
    rewrite conflicts_after_prune by (intros c Hc; by apply (wf_conflict p Hwf) in Hc as [? _]).
    rewrite map_lookup_filter. destruct (countKeyObsolete h k) eqn:Eo.
    + destruct (conflictingVoteCounts p !! k); simpl; unfold kMaxConflictingVotesPerKey; rewrite ?Eo; simpl; lia.
    + rewrite <- Hk. split; [|lia]. destruct (conflictingVoteCounts p !! k); simpl; [|reflexivity].
      rewrite Eo. reflexivity.
Qed.

(** Pools of a production node: any votes with 64-bit fields, any prunings. *)
Inductive reachable (policy : CryptoPolicy) (provider : SignatureProvider) : t → Prop :=
| reach_init : reachable policy provider init
| reach_submit p v : reachable policy provider p → u64 (Vote.blockIndex v) → u64 (Vote.round v) →
    reachable policy provider (submitVote v policy provider p).2
| reach_prune p h : reachable policy provider p → reachable policy provider (prune h p).2.

Lemma reachable_wf policy provider p :
  developmentMode policy = false → reachable policy provider p → wf p.
Proof.
  intros Hp. induction 1 as [|p v _ IH Hi Hr|p h _ IH]; [apply pool_wf_init|by apply submitVote_wf|by apply pool_prune_wf].
Qed.

(** *** Counting *)

(** The voters the progress loop counts. *)
Fixpoint newVoters (seen : gset string) (l : list ValidatorVoteRecord) : list string :=
  match l with
  | [] => []
  | v :: l =>
      if bool_decide (Vote.validatorAddress v ∈ seen) then newVoters seen l
      else Vote.validatorAddress v :: newVoters ({[ Vote.validatorAddress v ]} ∪ seen) l
  end.

Lemma elem_of_newVoters seen l a :
  a ∈ newVoters seen l ↔ (∃ v, v ∈ l ∧ Vote.validatorAddress v = a) ∧ a ∉ seen.
Proof.
  revert seen. induction l as [|v l IH]; intros seen; cbn [newVoters].
  { split; [by intros ?%elem_of_nil|]. by intros [(w & ?%elem_of_nil & _) _]. }
  case_bool_decide as Hs; [|rewrite elem_of_cons]; rewrite IH; split.
  - intros [(w & Hw & E) Hn]. split; [|exact Hn]. exists w. split; [elem|exact E].
  - intros [(w & [->|Hw]%elem_of_cons & E) Hn]; [congruence|]. split; [|exact Hn]. by exists w.
  - intros [->|[(w & Hw & E) Hn]].
    + split; [|exact Hs]. exists v. split; [elem|reflexivity].
    + split; [exists w; split; [elem|exact E]|]. intros Ha. apply Hn. by apply elem_of_union_r.
  - intros [(w & [->|Hw]%elem_of_cons & E) Hn]; [left; congruence|].
    destruct (decide (a = Vote.validatorAddress v)) as [->|Hne]; [by left|right].
    split; [by exists w|]. intros [?%elem_of_singleton|?]%elem_of_union; congruence.
Qed.

Lemma newVoters_NoDup seen l : NoDup (newVoters seen l).
Proof.
  revert seen. induction l as [|v l IH]; intros seen; cbn [newVoters]; [constructor|].
  case_bool_decide; [apply IH|]. constructor; [|apply IH].
  intros [_ Hn]%elem_of_newVoters. apply Hn. apply elem_of_union_l. by apply elem_of_singleton.
Qed.

Lemma acceptedWeight_Ok r seen w l :
  w + sum_by (Validators.consensusWeightFor r) (newVoters seen l) ≤ u64_max →
  acceptedWeight r seen w l = Ok (w + sum_by (Validators.consensusWeightFor r) (newVoters seen l)).
Proof.
  revert seen w. induction l as [|v l IH]; intros seen w Hle; cbn [acceptedWeight newVoters] in *.
  { simpl. f_equal. lia. }
  case_bool_decide as Hs; [by apply IH|]. cbn [sum_by] in *.
  assert (0 ≤ sum_by (Validators.consensusWeightFor r) (newVoters ({[ Vote.validatorAddress v ]} ∪ seen) l))
    by (apply sum_by_nonneg; intros; apply QuorumFacts.consensusWeightFor_nonneg).
  replace (u64_max - w <? Validators.consensusWeightFor r (Vote.validatorAddress v)) with false by lia.
  cbn. rewrite IH by lia. f_equal. lia.
Qed.

(** *** Votes for one block *)

Lemma votesForBlock_stored p i h r v :
  wf p → v ∈ votesForBlock p i h r →
  blockKey v = (i, h, r) ∧ voteByValidatorHeightRound p !! validatorHeightRoundKey v = Some v.
Proof.
  intros Hwf. unfold votesForBlock. destruct (votesByBlock p !! (i, h, r)) as [l|] eqn:El; simpl.
  - intros Hin. apply (wf_block p Hwf) in El as [_ Hall]. by apply Hall.
  - by intros ?%elem_of_nil.
Qed.

(** Two counted votes of one validator for one height, round and step. *)
Lemma stored_unique p i1 h1 r1 i2 h2 r2 v1 v2 :
  wf p → v1 ∈ votesForBlock p i1 h1 r1 → v2 ∈ votesForBlock p i2 h2 r2 →
  Vote.validatorAddress v1 = Vote.validatorAddress v2 → Vote.blockIndex v1 = Vote.blockIndex v2 →
  Vote.round v1 = Vote.round v2 → Vote.decision v1 = Vote.decision v2 → v1 = v2.
Proof.
  intros Hwf [_ H1]%(votesForBlock_stored p i1 h1 r1 v1 Hwf) [_ H2]%(votesForBlock_stored p i2 h2 r2 v2 Hwf) E1 E2 E3 E4.
  unfold validatorHeightRoundKey in *. rewrite E1, E2, E3, E4 in H1. congruence.
Qed.

Lemma certificateVotes_distinct p i h r : wf p → NoDup (QuorumFacts.voters (certificateVotes p i h r)).
Proof.
  intros Hwf. assert (NoDup (certificateVotes p i h r)) as Hnd.
  { apply NoDup_filter. unfold votesForBlock. destruct (votesByBlock p !! (i, h, r)) as [l|] eqn:El; [|constructor].
    by apply (wf_block p Hwf) in El as [? _]. }
  apply (NoDup_fmap_2_strong Vote.validatorAddress); [|exact Hnd].
  intros v1 v2 [D1 H1]%list_elem_of_filter [D2 H2]%list_elem_of_filter Ea.
  pose proof (votesForBlock_stored p i h r v1 Hwf H1) as [B1 _].
  pose proof (votesForBlock_stored p i h r v2 Hwf H2) as [B2 _].
  unfold blockKey in B1, B2. injection B1 as I1 _ R1. injection B2 as I2 _ R2.
  apply (stored_unique p i h r i h r v1 v2 Hwf H1 H2); congruence.
Qed.

(** A conflicting vote and the stored one are double-vote evidence. *)
Lemma conflict_is_evidence first c :
  sane first → sane c → validatorHeightRoundKey c = validatorHeightRoundKey first →
  Vote.validatorAddress c ≠ "" → sameVoteDecision first c = false → EvidenceFacts.conflicting first c.
Proof.
  intros Hf Hc Ek Hne Hd. apply key_inj in Ek as (Ea & Ei & Er & Ed); [|assumption..].
  split; try congruence. intros (E1 & E2 & _ & _). revert Hd. unfold sameVoteDecision.
  rewrite <- Ea, <- Ei, <- Er, <- Ed, E1, E2, !String.eqb_refl, !Z.eqb_refl, bool_decide_true by reflexivity.
  discriminate.
Qed.
End pool.
End VotePoolFacts.

(** ** Lemmas on collectors and rounds *)

Module RoundFacts.
Import VotePoolFacts.

(** A vote the collector hands to the pool is for its height and for its round
    or the next one. *)
Lemma rejection_None c v : Collector.rejection c v = None →
  (Collector.eligibleValidators c = [] ∨ Vote.validatorAddress v ∈ Collector.eligibleValidators c) ∧
  Vote.blockIndex v = Collector.currentHeight c ∧
  Collector.currentRound c ≤ Vote.round v ≤ Collector.currentRound c + 1.
Proof.
  unfold Collector.rejection.
  match goal with |- (if ?b then _ else _) = _ → _ => destruct b eqn:E1; [discriminate|] end.
  repeat match goal with |- (if ?b then _ else _) = _ → _ => destruct b eqn:?; [discriminate|] end. intros _.
  assert (Vote.blockIndex v = Collector.currentHeight c) as Ei by lia. split_and!; [|exact Ei|lia|lia].
  destruct (decide (Collector.eligibleValidators c = [])) as [|Hne]; [by left|right].
  rewrite bool_decide_false in E1 by exact Hne. simpl in E1.
  destruct (decide (Vote.validatorAddress v ∈ Collector.eligibleValidators c)) as [|Hn]; [assumption|].
  by rewrite bool_decide_false in E1.
Qed.

Section rounds.
Context `{Sha256}.

(** What the collector's pool becomes. *)
Lemma submitNetworkVote_pool v policy provider c :
  let '(res, c') := Collector.submitNetworkVote v policy provider c in
  (c' = c ∧ ∃ r, Collector.rejection c v = Some r ∧ res = Ok r) ∨
  (Collector.rejection c v = None ∧
   c' = Collector.set_pool (VotePool.submitVote v policy provider (Collector.pool c)).2 c).
Proof.
  unfold Collector.submitNetworkVote. destruct (Collector.rejection c v) as [r|] eqn:Er.
  { left. split; [reflexivity|]. exists r. split; reflexivity. }
  destruct (VotePool.submitVote v policy provider (Collector.pool c)) as [[r|e] p']; [|right; split; reflexivity].
  destruct (pool_status r); right; split; reflexivity.
Qed.

(** Everything the pool of a round holds is of the current height. *)
Record on_height (m : RoundManager.t) : Prop := {
  oh_pool : wf (Collector.pool (RoundManager.voteCollector m));
  oh_height : Collector.currentHeight (RoundManager.voteCollector m) = RoundState.height (RoundManager.state m);
  oh_round : Collector.currentRound (RoundManager.voteCollector m) = RoundState.round (RoundManager.state m);
  oh_votes k v : VotePool.voteByValidatorHeightRound (Collector.pool (RoundManager.voteCollector m)) !! k = Some v →
    Vote.blockIndex v = RoundState.height (RoundManager.state m) ∧
    Vote.round v ≤ RoundState.round (RoundManager.state m) + 1;
}.

Inductive op :=
| OpAdvance (height round : Z) (proposer : string) (now timeout : Z)
| OpAdvanceRound (round : Z) (proposer : string) (now timeout : Z)
| OpSubmit (v : ValidatorVoteRecord).

Definition typed (o : op) : Prop :=
  match o with
  | OpSubmit v => u64 (Vote.blockIndex v) ∧ u64 (Vote.round v)
  | _ => True
  end.

Definition run (policy : CryptoPolicy) (provider : SignatureProvider) (m : RoundManager.t) (o : op) : RoundManager.t :=
  match o with
  | OpAdvance h r pr now to => (RoundManager.advanceToHeight h r pr now to m).2
  | OpAdvanceRound r pr now to => (RoundManager.advanceRound r pr now to m).2
  | OpSubmit v => (RoundManager.submitVote v policy provider m).2
  end.

Lemma on_height_init : on_height RoundManager.init.
Proof. split; [apply pool_wf_init|reflexivity|reflexivity|]. intros k v []%init_vote. Qed.

Lemma advance_on_height h r pr now to m :
  on_height m → on_height (RoundManager.advanceToHeight h r pr now to m).2.
Proof.
  intros [Hw Hh Hr Hv]. unfold RoundManager.advanceToHeight. destruct (_ && _) eqn:Ec.
  - split; simpl; [by apply pool_prune_wf|reflexivity|reflexivity|].
    intros k v [Ev Hge]%prune_lookup_vote. apply Hv in Ev as [Ei Er]. lia.
  - split; simpl; [apply pool_wf_init|reflexivity|reflexivity|]. intros k v []%init_vote.
Qed.

Lemma submit_on_height v policy provider m :
  developmentMode policy = false → u64 (Vote.blockIndex v) → u64 (Vote.round v) →
  on_height m → on_height (RoundManager.submitVote v policy provider m).2.
Proof.
  intros Hp Hi Hr [Hw Hh Hr' Hv]. unfold RoundManager.submitVote.
  pose proof (submitNetworkVote_pool v policy provider (RoundManager.voteCollector m)) as Hs.
  destruct (Collector.submitNetworkVote v policy provider (RoundManager.voteCollector m)) as [res c'].
  destruct Hs as [[-> _]|[Hrej ->]]; simpl; [by split|].
  apply rejection_None in Hrej as (_ & Ei & Er).
  split; simpl; [by apply submitVote_wf|exact Hh|exact Hr'|]. intros k w Ew.
  pose proof (submitVote_cases v policy provider (Collector.pool (RoundManager.voteCollector m))) as Hc.
  destruct (VotePool.submitVote v policy provider _) as [[r|e] p']; simpl in Ew; [|rewrite Hc in Ew; exact (Hv k w Ew)].
  destruct (pool_status r); try (rewrite Hc in Ew; exact (Hv k w Ew)).
  - destruct Hc as (-> & _). simpl in Ew. apply lookup_insert_Some in Ew as [[_ <-]|[_ Ew]]; [lia|exact (Hv k w Ew)].
  - destruct Hc as (_ & _ & [->|[_ ->]]); exact (Hv k w Ew).
Qed.

Lemma run_on_height policy provider ops m :
  developmentMode policy = false → Forall typed ops → on_height m →
  on_height (foldl (run policy provider) m ops).
Proof.
  intros Hp Hops. revert m. induction Hops as [|o ops Ho _ IH]; intros m Hm; simpl; [exact Hm|]. apply IH.
  destruct o as [h r pr now to|r pr now to|v]; simpl.
  - by apply advance_on_height.
  - by apply advance_on_height.
  - destruct Ho. by apply submit_on_height.
Qed.
End rounds.
End RoundFacts.

(** ** What the pool and the rounds promise *)

Module VotePoolProperties.
Import VotePool VotePoolFacts RoundFacts.

(** One vote per step: in every pool a production node can reach, a validator
    is counted at most once for a height, round and decision, whatever blocks it
    voted for; a second, different vote is kept apart as conflicting, at most ten
    per step, and always forms double-vote evidence with the counted one. *)
Theorem pool_counts_one_vote `{Sha256} policy provider (p : VotePool.t) :
  developmentMode policy = false → reachable policy provider p →
  (∀ i1 h1 r1 i2 h2 r2 v1 v2, v1 ∈ votesForBlock p i1 h1 r1 → v2 ∈ votesForBlock p i2 h2 r2 →
     Vote.validatorAddress v1 = Vote.validatorAddress v2 → Vote.blockIndex v1 = Vote.blockIndex v2 →
     Vote.round v1 = Vote.round v2 → Vote.decision v1 = Vote.decision v2 → v1 = v2) ∧
  (∀ a i r d, Z.of_nat (length (filter (λ c, validatorHeightRoundKey c = keyFor a i r d) (conflictingVotes p)))
     ≤ kMaxConflictingVotesPerKey) ∧
  (∀ c, c ∈ conflictingVotes p → Vote.validatorAddress c ≠ "" →
     ∃ first, existingVoteConflictingWith p c = Some first ∧ EvidenceFacts.conflicting first c).
Proof.
  intros Hp Hr. pose proof (reachable_wf _ _ _ Hp Hr) as Hwf. split_and!.
  - intros i1 h1 r1 i2 h2 r2 v1 v2. by apply stored_unique.
  - intros a i r d. apply (wf_counts p Hwf).
  - intros c Hc Hne. apply (wf_conflict p Hwf) in Hc as (Hs & first & Ef & Hd). exists first. split.
    + unfold existingVoteConflictingWith. by rewrite Ef, Hd.
    + pose proof (wf_vote p Hwf _ _ Ef) as (Ek & Hsf & _). by apply conflict_is_evidence.
Qed.

(** Quorum progress is exact: against an audited validator set with weight the
    reported weight is the total weight of the distinct validators that voted for
    the block, never overflows, and the progress record is valid. *)
Theorem quorum_progress_exact `{Sha256} (p : VotePool.t) (i : Z) (h : string) (r : Z) (registry : ValidatorRegistry) :
  Validators.isValid registry = Ok true → 0 < map_sum ValidatorFacts.weight registry →
  0 < i → h ≠ "" → 0 < r →
  ∃ progress names, quorumProgressForBlock p i h r registry 2 3 = Ok progress ∧
    Progress.isValid progress = Ok true ∧
    NoDup names ∧ (∀ a, a ∈ names ↔ ∃ v, v ∈ votesForBlock p i h r ∧ Vote.validatorAddress v = a) ∧
    Progress.acceptedVotingWeight progress = sum_by (Validators.consensusWeightFor registry) names ∧
    Progress.totalVotingWeight progress = map_sum ValidatorFacts.weight registry.
Proof.
  intros Hv%ValidatorFacts.isValid_wf Hpos Hi Hh Hr.
  destruct (QuorumFacts.requiredWeight_spec _ Hpos) as [Hreq Hb].
  pose proof (QuorumFacts.any_voters_weight registry _ (newVoters_NoDup ∅ (votesForBlock p i h r))) as Hle.
  assert (map_sum ValidatorFacts.weight registry ≤ u64_max) as Hu by (destruct Hv; lia).
  eexists (Progress.mk i h r _ _ _), (newVoters ∅ (votesForBlock p i h r)). split_and!.
  - unfold quorumProgressForBlock. rewrite acceptedWeight_Ok by lia. simpl.
    rewrite ValidatorFacts.totalConsensusWeight_Ok by exact Hv. simpl.
    unfold Builder.requiredVotingWeight. replace (map_sum ValidatorFacts.weight registry =? 0) with false by lia.
    simpl. rewrite Hreq. simpl. reflexivity.
  - unfold Progress.isValid. simpl. apply empty_string_false in Hh. rewrite Hh. simpl.
    replace (0 <? i) with true by lia. replace (0 <? r) with true by lia.
    replace (0 <? 2 * map_sum ValidatorFacts.weight registry / 3 + 1) with true by lia.
    replace (0 <? map_sum ValidatorFacts.weight registry) with true by lia. simpl. rewrite Hreq. simpl.
    rewrite Z.eqb_refl. simpl. f_equal. lia.
  - apply newVoters_NoDup.
  - intros a. rewrite elem_of_newVoters. split; [by intros [? _]|]. intros Hex. split; [exact Hex|].
    apply not_elem_of_empty.
  - simpl. lia.
  - reflexivity.
Qed.

(** Finalization from the pool: in a reachable pool, when every PRECOMMIT held
    for a block is of a registered weighted validator and names its parent, and
    together they reach the threshold, the certificate is built from exactly those
    votes; the pool never makes the builder fail on a repeated voter. *)
Theorem pool_quorum_finalizes `{Sha256Spec} policy provider (p : VotePool.t)
    (registry : ValidatorRegistry) (i : Z) (h previous : string) (r : Z) :
  developmentMode policy = false → reachable policy provider p →
  Validators.isValid registry = Ok true → 0 < map_sum ValidatorFacts.weight registry → i ≠ 0 → r ≠ 0 →
  SafeScalar.isSafeScalar h = true → SafeScalar.isSafeScalar previous = true →
  (∀ v, v ∈ certificateVotes p i h r →
     QuorumFacts.counted registry policy provider v ∧ Vote.previousHash v = previous) →
  2 * map_sum ValidatorFacts.weight registry / 3 + 1 ≤
    sum_by (Validators.consensusWeightFor registry) (QuorumFacts.voters (certificateVotes p i h r)) →
  ∃ c, Builder.buildFromVotes i h previous r (certificateVotes p i h r) registry policy provider 2 3 =
         Ok (Certified c) ∧ Certificate.votes c = certificateVotes p i h r.
Proof.
  intros Hp Hr Hv Hpos Hi Hrd Hh Hpr Hall Hq. pose proof (reachable_wf _ _ _ Hp Hr) as Hwf.
  destruct (QuorumFacts.build_candidates registry policy provider i h previous r (certificateVotes p i h r))
    as (c & Hc & Hvotes & _); try assumption.
  - by apply certificateVotes_distinct.
  - intros v Hin. pose proof (Hall v Hin) as [Hcnt Hprev]. apply list_elem_of_filter in Hin as [Hd Hin].
    apply (votesForBlock_stored p i h r v Hwf) in Hin as [Hk _]. unfold blockKey in Hk. injection Hk as E1 E2 E3.
    split_and!; assumption.
  - by exists c.
Qed.

(** One foreign PRECOMMIT blocks a block: the builder refuses the whole list as
    soon as one PRECOMMIT in the pool is of an address that is not an active
    validator, or names another parent, and the pool admits both; no certificate is
    then built for that block and round, whatever weight the other votes have. *)
Theorem foreign_precommit_blocks_certificate `{Sha256} policy provider (p : VotePool.t)
    (registry : ValidatorRegistry) (i : Z) (h previous : string) (r n d : Z) (v : ValidatorVoteRecord) :
  v ∈ certificateVotes p i h r →
  Validators.verifyValidatorIdentity registry (Vote.validatorAddress v) (Vote.validatorPublicKey v) = Ok false ∨
    Vote.previousHash v ≠ previous →
  ∀ c, Builder.buildFromVotes i h previous r (certificateVotes p i h r) registry policy provider n d
       ≠ Ok (Certified c).
Proof.
  intros Hin Hbad c E. apply QuorumFacts.build_certified in E as (Hvotes & Hprev & Hver).
  apply QuorumFacts.verify_certified in Hver. rewrite <- Hvotes in Hin.
  destruct (QuorumFacts.cert_votes _ _ _ _ Hver v Hin) as ([Hid _ _] & _ & _ & _ & Hp & _).
  destruct Hbad as [Hb|Hb]; congruence.
Qed.

(** Rounds only hold current votes: after any sequence of height and round
    changes and submitted votes, the collector stands at the manager's height and
    round, and every vote counted for a block is of that height and of a round at
    most one ahead. *)
Theorem rounds_hold_current_votes `{Sha256} policy provider (ops : list op) :
  developmentMode policy = false → Forall typed ops →
  let m := foldl (run policy provider) RoundManager.init ops in
  RoundManager.isCurrentRound m (Collector.currentHeight (RoundManager.voteCollector m))
    (Collector.currentRound (RoundManager.voteCollector m)) = true ∧
  ∀ i h r v, v ∈ votesForBlock (Collector.pool (RoundManager.voteCollector m)) i h r →
    i = RoundState.height (RoundManager.state m) ∧ r ≤ RoundState.round (RoundManager.state m) + 1.
Proof.
  intros Hp Hops m. pose proof (run_on_height _ provider _ _ Hp Hops on_height_init) as [Hw Hh Hr Hv].
  fold m in Hw, Hh, Hr, Hv. split.
  - unfold RoundManager.isCurrentRound. by rewrite Hh, Hr, !Z.eqb_refl.
  - intros i h r v Hin. apply (votesForBlock_stored _ i h r v Hw) in Hin as [Hk Hin]. apply Hv in Hin.
    unfold blockKey in Hk. injection Hk as <- _ <-. exact Hin.
Qed.

(** The collector admits only what it should: an accepted vote is eligible, for
    the current height and for the current or the next round, and is counted for
    its block from then on; every other answer but a conflict leaves the collector
    unchanged. *)
Theorem collector_admits_current_votes `{Sha256} (v : ValidatorVoteRecord) policy provider (c : NetworkVoteCollector) :
  match Collector.submitNetworkVote v policy provider c with
  | (Ok res, c') =>
      match collect_status res with
      | VC_ACCEPTED =>
          (Collector.eligibleValidators c = [] ∨ Vote.validatorAddress v ∈ Collector.eligibleValidators c) ∧
          Vote.blockIndex v = Collector.currentHeight c ∧
          Collector.currentRound c ≤ Vote.round v ≤ Collector.currentRound c + 1 ∧
          v ∈ votesForBlock (Collector.pool c') (Vote.blockIndex v) (Vote.blockHash v) (Vote.round v)
      | VC_CONFLICTING => True
      | _ => c' = c
      end
  | (Throw _, c') => c' = c
  end.
Proof.
  unfold Collector.submitNetworkVote. destruct (Collector.rejection c v) as [r|] eqn:Er.
  - unfold Collector.rejection in Er.
    repeat match type of Er with (if ?b then _ else _) = _ => destruct b; [injection Er as <-; reflexivity|] end.
    discriminate.
  - apply rejection_None in Er as (He & Hi & Hr). pose proof (submitVote_cases v policy provider (Collector.pool c)) as Hc.
    destruct (submitVote v policy provider (Collector.pool c)) as [[r|e] p'].
    2: { rewrite Hc. by destruct c. }
    destruct (pool_status r); simpl; try exact I; try (rewrite Hc; by destruct c).
    destruct Hc as (-> & _). split_and!; [exact He|exact Hi|lia|lia|].
    unfold votesForBlock. simpl. unfold blockKey. rewrite lookup_insert_eq. simpl.
    apply elem_of_app. right. by apply list_elem_of_singleton.
Qed.

(** Concrete pools and rounds on which the hypotheses above hold. *)

#[local] Instance toy : Sha256 := CryptoProperties.toy_sha256.
#[local] Instance toy_spec : Sha256Spec := CryptoProperties.toy_sha256_spec.

Definition pool_of (l : list ValidatorVoteRecord) : VotePool.t :=
  foldl (λ p v, (submitVote v QuorumProperties.policy QuorumProperties.toy_provider p).2) VotePool.init l.

Lemma pool_of_reachable ms :
  reachable QuorumProperties.policy QuorumProperties.toy_provider (pool_of (QuorumProperties.vote_of <$> ms)).
Proof.
  unfold pool_of. generalize (reach_init QuorumProperties.policy QuorumProperties.toy_provider).
  generalize VotePool.init. induction ms as [|m ms IH]; intros p Hp; simpl; [exact Hp|].
  apply IH. apply reach_submit; [exact Hp|unfold u64, u64_max; simpl; lia..].
Qed.

Definition quorum_pool : VotePool.t := pool_of (QuorumProperties.vote_of <$> ["a"; "bb"; "ccc"]).

Lemma quorum_pool_votes : certificateVotes quorum_pool 7 "block" 1 = QuorumProperties.all_votes.
Proof. vm_compute. reflexivity. Qed.

Lemma pool_counts_one_vote_witness :
  Z.of_nat (length (filter (λ c, validatorHeightRoundKey c = keyFor "a" 7 1 PRECOMMIT)
    (conflictingVotes quorum_pool))) ≤ kMaxConflictingVotesPerKey.
Proof.
  apply (pool_counts_one_vote QuorumProperties.policy QuorumProperties.toy_provider quorum_pool);
    [reflexivity|apply pool_of_reachable].
Defined.

Lemma quorum_progress_exact_witness :
  ∃ progress, quorumProgressForBlock quorum_pool 7 "block" 1 QuorumProperties.three_validators 2 3 = Ok progress ∧
    Progress.isValid progress = Ok true.
Proof.
  destruct (quorum_progress_exact quorum_pool 7 "block" 1 QuorumProperties.three_validators)
    as (progress & names & Hq & Hv & _);
    [vm_compute; reflexivity|vm_compute; reflexivity|lia|discriminate|lia|].
  exists progress. split; [exact Hq|exact Hv].
Defined.

Lemma pool_quorum_finalizes_witness :
  ∃ c, Builder.buildFromVotes 7 "block" "parent" 1 (certificateVotes quorum_pool 7 "block" 1)
    QuorumProperties.three_validators QuorumProperties.policy QuorumProperties.toy_provider 2 3 = Ok (Certified c).
Proof.
  destruct (pool_quorum_finalizes QuorumProperties.policy QuorumProperties.toy_provider quorum_pool
    QuorumProperties.three_validators 7 "block" "parent" 1) as (c & Hc & _);
    [reflexivity|apply pool_of_reachable|vm_compute; reflexivity|vm_compute; reflexivity|discriminate|discriminate
    |reflexivity|reflexivity| | |].
  - rewrite quorum_pool_votes. intros v Hv. destruct (QuorumProperties.all_votes_candidates v Hv) as (Hc & _ & _ & _ & Hp & _).
    split; [exact Hc|exact Hp].
  - rewrite quorum_pool_votes. vm_compute. discriminate.
  - exists c. exact Hc.
Defined.

(** The vote of a key that no validator of [three_validators] has. *)
Definition outsider_pool : VotePool.t := pool_of (QuorumProperties.vote_of <$> ["dddd"; "a"; "bb"; "ccc"]).

Lemma foreign_precommit_blocks_certificate_witness :
  Builder.buildFromVotes 7 "block" "parent" 1 (certificateVotes outsider_pool 7 "block" 1)
    QuorumProperties.three_validators QuorumProperties.policy QuorumProperties.toy_provider 2 3 ≠
    Ok (Certified QuorumProperties.sample_certificate).
Proof.
  apply (foreign_precommit_blocks_certificate QuorumProperties.policy QuorumProperties.toy_provider outsider_pool
    QuorumProperties.three_validators 7 "block" "parent" 1 2 3 (QuorumProperties.vote_of "dddd")).
  - apply (bool_decide_unpack _). vm_compute. exact I.
  - left. vm_compute. reflexivity.
Defined.

Lemma rounds_hold_current_votes_witness :
  let m := foldl (run QuorumProperties.policy QuorumProperties.toy_provider) RoundManager.init
    [OpAdvance 7 1 "proposer" 1700000000 30; OpSubmit (QuorumProperties.vote_of "a")] in
  RoundManager.isCurrentRound m (Collector.currentHeight (RoundManager.voteCollector m))
    (Collector.currentRound (RoundManager.voteCollector m)) = true.
Proof.
  apply (rounds_hold_current_votes QuorumProperties.policy QuorumProperties.toy_provider
    [OpAdvance 7 1 "proposer" 1700000000 30; OpSubmit (QuorumProperties.vote_of "a")]).
  - reflexivity.
  - repeat constructor; unfold u64, u64_max; simpl; lia.
Defined.

End VotePoolProperties.
