(* ===== verification/Encoding.v ===== *)
(** * serialization: the canonical binary format

    Models src/src/serialization/CanonicalWriter.cpp and CanonicalReader.cpp.
    A writer is the list of bytes written so far; a reader is a byte vector with
    a position and a limit on the size of a field.  The class [Codec] is what
    the codecs of the node (see Messages.v, Payloads.v, History.v) use of a
    field: what is written, that reading returns it, and that nothing else reads
    as the same value. *)

From Stdlib Require Import Ascii.
From S2P Require Import Prelude Utils Crypto.

Module Bytes.
(** The bytes of a [std::string], and the string of a byte vector. *)
Fixpoint of_string (s : string) : list Z :=
  match s with
  | EmptyString => []
  | String c s => Hex.code c :: of_string s
  end.

Fixpoint to_string (l : list Z) : string :=
  match l with
  | [] => EmptyString
  | b :: l => String (ascii_of_N (Z.to_N b)) (to_string l)
  end.

Definition size (l : list Z) : Z := Z.of_nat (length l).
End Bytes.

Module Writer.
Abbreviation t := (list Z).

Definition push (b : Z) : M t unit := modify (λ bytes, bytes ++ [b]).
Definition append (l : list Z) : M t unit := modify (λ bytes, bytes ++ l).

Definition writeUInt8 (value : Z) : M t unit := push value.
Definition writeBool (value : bool) : M t unit := writeUInt8 (if value then 1 else 0).
Definition writeUInt16 (value : Z) : M t unit :=
  push (Z.land (Z.shiftr value 8) 255);; push (Z.land value 255).
Definition writeUInt32 (value : Z) : M t unit :=
  for_each (λ shift, push (Z.land (Z.shiftr value shift) 255)) [24; 16; 8; 0].
Definition writeUInt64 (value : Z) : M t unit :=
  for_each (λ shift, push (Z.land (Z.shiftr value shift) 255)) [56; 48; 40; 32; 24; 16; 8; 0].
Definition writeInt64 (value : Z) : M t unit := writeUInt64 (wrap64 value).

Definition writeString (value : string) : M t unit :=
  lift (throw_if (u32_max <? string_size value) (length_error "Canonical string field is too large."));;
  writeUInt32 (string_size value);;
  append (Bytes.of_string value).

Definition writeBytes (value : list Z) : M t unit :=
  lift (throw_if (u32_max <? Bytes.size value) (length_error "Canonical bytes field is too large."));;
  writeUInt32 (Bytes.size value);;
  append value.

(** [CanonicalWriter writer; ...; return writer.bytes();] *)
Definition bytes (m : M t unit) : result (list Z) := on_local m [].

(** [CanonicalWriter writer; ...; return writer.byteString();] *)
Definition byteString (m : M t unit) : result string := Bytes.to_string <$> bytes m.
End Writer.

Module Reader.
Record t := mk { bytes : list Z; position : Z; maxFieldBytes : Z }.

Definition make (bytes : list Z) (maxFieldBytes : Z) : result t :=
  if maxFieldBytes =? 0 then Throw (invalid_argument "CanonicalReader maxFieldBytes must be positive.")
  else Ok (mk bytes 0 maxFieldBytes).

Definition remaining (r : t) : Z := Bytes.size (bytes r) - position r.
Definition fullyConsumed (r : t) : bool := position r =? Bytes.size (bytes r).
Definition advance (n : Z) (r : t) : t := mk (bytes r) (position r + n) (maxFieldBytes r).

Definition requireFullyConsumed : M t unit :=
  getsR (λ r, throw_if (negb (fullyConsumed r)) (runtime_error "Canonical payload contains trailing bytes.")).
Definition requireAvailable (count : Z) : M t unit :=
  getsR (λ r, throw_if (remaining r <? count) (runtime_error "Canonical payload is truncated.")).
Definition requireAllowedFieldSize (count : Z) : M t unit :=
  getsR (λ r, throw_if (maxFieldBytes r <? count)
    (runtime_error "Canonical field exceeds configured size limit.")).

(** [m_bytes[m_position + offset]] *)
Definition peek (offset : Z) : M t Z :=
  getsR (λ r, match bytes r !! Z.to_nat (position r + offset) with
              | Some b => Ok b
              | None => Throw UndefinedBehaviour
              end).

(** [m_bytes[m_position++]] *)
Definition next : M t Z := b ← peek 0; modify (advance 1);; mret b.

Definition readUInt8 : M t Z := requireAvailable 1;; next.

Definition readBool : M t bool :=
  value ← readUInt8;
  if value =? 0 then mret false
  else if value =? 1 then mret true
  else throw (runtime_error "Canonical boolean field must be 0 or 1.").

Definition readUInt16 : M t Z :=
  requireAvailable 2;;
  high ← peek 0;
  low ← peek 1;
  modify (advance 2);;
  mret (Z.lor (Z.shiftl high 8) low).

(** [value = (value << 8) | m_bytes[m_position++]], [n] times, at the width of
    the result. *)
Fixpoint accumulate (width : Z) (n : nat) (value : Z) : M t Z :=
  match n with
  | O => mret value
  | S n => b ← next; accumulate width n (Z.lor (Z.shiftl value 8 mod 2 ^ width) b)
  end.

Definition readUInt32 : M t Z := requireAvailable 4;; accumulate 32 4 0.
Definition readUInt64 : M t Z := requireAvailable 8;; accumulate 64 8 0.
Definition readInt64 : M t Z := value ← readUInt64; mret (as_i64 value).

(** The range constructor over [m_bytes.begin() + m_position] and the next
    [length] bytes. *)
Definition slice (length : Z) : M t (list Z) :=
  getsR (λ r, if (position r + length <=? Bytes.size (bytes r)) then
                Ok (take (Z.to_nat length) (drop (Z.to_nat (position r)) (bytes r)))
              else Throw UndefinedBehaviour).

Definition readBytes : M t (list Z) :=
  length ← readUInt32;
  requireAllowedFieldSize length;;
  requireAvailable length;;
  value ← slice length;
  modify (advance length);;
  mret value.

Definition readString : M t string :=
  length ← readUInt32;
  requireAllowedFieldSize length;;
  requireAvailable length;;
  value ← slice length;
  modify (advance length);;
  mret (Bytes.to_string value).

(** [for (index = 0; index < count; ++index) values.push_back(read);] *)
Fixpoint readList {A} (count : nat) (read : M t A) : M t (list A) :=
  match count with
  | O => mret []
  | S count => x ← read; l ← readList count read; mret (x :: l)
  end.

(** [CanonicalReader reader(bytes, max); ...; return value;] *)
Definition parse {A} (bytes : list Z) (maxFieldBytes : Z) (m : M t A) : result A :=
  r ← make bytes maxFieldBytes; (m r).1.
End Reader.

(** ** Lemmas on bytes and big-endian integers *)

Module EncodingFacts.
Import Reader.

Lemma to_of_string s : Bytes.to_string (Bytes.of_string s) = s.
Proof.
  induction s as [|c s IH]; simpl; [done|]. rewrite IH. unfold Hex.code. by rewrite N2Z.id, ascii_N_embedding.
Qed.

Lemma of_to_string l : Forall byte l → Bytes.of_string (Bytes.to_string l) = l.
Proof.
  induction 1 as [|b l Hb _ IH]; simpl; [done|]. rewrite IH. unfold Hex.code, byte in *.
  rewrite N_ascii_embedding by lia. f_equal. lia.
Qed.

Lemma of_string_size s : Bytes.size (Bytes.of_string s) = string_size s.
Proof.
  unfold Bytes.size, string_size. f_equal. induction s as [|c s IH]; simpl; [done|]. by rewrite IH.
Qed.

Lemma of_string_bytes s : Forall byte (Bytes.of_string s).
Proof.
  induction s as [|c s IH]; constructor; [|done]. unfold byte, Hex.code.
  pose proof (N_ascii_bounded c). lia.
Qed.

Lemma of_string_inj s t : Bytes.of_string s = Bytes.of_string t → s = t.
Proof. intros E. by rewrite <- (to_of_string s), E, to_of_string. Qed.

Lemma size_app l k : Bytes.size (l ++ k) = Bytes.size l + Bytes.size k.
Proof. unfold Bytes.size. rewrite length_app. lia. Qed.

Lemma size_nonneg l : 0 ≤ Bytes.size l.
Proof. unfold Bytes.size. lia. Qed.

(** The [n] low bytes of [v], most significant first, and the value of such a
    list. *)
Fixpoint be (n : nat) (v : Z) : list Z :=
  match n with
  | O => []
  | S n => Z.land (Z.shiftr v (8 * Z.of_nat n)) 255 :: be n v
  end.

Fixpoint be_value (acc : Z) (l : list Z) : Z :=
  match l with [] => acc | b :: l => be_value (256 * acc + b) l end.

Lemma low_byte z : Z.land z 255 = z mod 256.
Proof. change 255 with (Z.ones 8). by rewrite Z.land_ones by lia. Qed.

Lemma be_bytes n v : Forall byte (be n v).
Proof.
  induction n as [|n IH]; constructor; [|done]. rewrite low_byte. unfold byte.
  apply Z.mod_pos_bound. lia.
Qed.

Lemma be_size n v : Bytes.size (be n v) = Z.of_nat n.
Proof. unfold Bytes.size. f_equal. induction n as [|n IH]; simpl; [done|]. by rewrite IH. Qed.

Lemma be_value_be n v acc : be_value acc (be n v) = acc * 256 ^ Z.of_nat n + v mod 256 ^ Z.of_nat n.
Proof.
  revert acc. induction n as [|n IH]; intros acc; cbn [be be_value].
  - change (Z.of_nat 0) with 0. rewrite Z.mod_1_r. lia.
  - rewrite IH, low_byte, Z.shiftr_div_pow2 by lia. rewrite Z.pow_mul_r by lia. change (2 ^ 8) with 256.
    rewrite Nat2Z.inj_succ, Z.pow_succ_r by lia.
    rewrite (Z.mul_comm 256 (256 ^ Z.of_nat n)), Z.rem_mul_r by lia. lia.
Qed.

Lemma be_value_bound acc l : Forall byte l → 0 ≤ acc →
  acc * 256 ^ Bytes.size l ≤ be_value acc l < (acc + 1) * 256 ^ Bytes.size l.
Proof.
  intros Hl. revert acc. induction Hl as [|b l Hb _ IH]; intros acc Ha; cbn [be_value].
  - unfold Bytes.size. simpl. lia.
  - specialize (IH (256 * acc + b)). unfold byte in Hb.
    replace (Bytes.size (b :: l)) with (Z.succ (Bytes.size l)) by (unfold Bytes.size; simpl; lia).
    rewrite Z.pow_succ_r by apply size_nonneg.
    assert (0 < 256 ^ Bytes.size l) by (apply Z.pow_pos_nonneg; [lia|apply size_nonneg]). nia.
Qed.

(** A big-endian list of bytes is determined by its value. *)
Lemma be_unique l : Forall byte l → be (length l) (be_value 0 l) = l.
Proof.
  enough (∀ acc, Forall byte l → be (length l) (be_value acc l) = l) by eauto.
  induction l as [|b l IH]; intros acc Hl; cbn [be be_value length]; [done|].
  apply Forall_cons in Hl as [Hb Hl]. rewrite IH by done. f_equal.
  rewrite low_byte, Z.shiftr_div_pow2 by lia. rewrite Z.pow_mul_r by lia. change (2 ^ 8) with 256.
  assert (∀ a, be_value a l = a * 256 ^ Z.of_nat (length l) + be_value 0 l) as Hsplit.
  { clear. induction l as [|c l IH]; intros a; cbn [be_value length]; [simpl; lia|].
    rewrite IH, (IH (256 * 0 + c)), Nat2Z.inj_succ, Z.pow_succ_r by lia. lia. }
  pose proof (be_value_bound 0 l Hl ltac:(lia)) as Hv. unfold Bytes.size in Hv.
  rewrite Hsplit, Z.div_add_l by lia. rewrite (Z.div_small (be_value 0 l)) by lia.
  unfold byte in Hb. rewrite Z.add_0_r, Z.add_comm, Z.mul_comm, Z_mod_plus_full. apply Z.mod_small. lia.
Qed.

(** ** Runs of writers and readers *)

Definition writes (m : M Writer.t unit) (l : list Z) : Prop := ∀ w, m w = (Ok tt, w ++ l).

Definition suffix (r : Reader.t) : list Z := drop (Z.to_nat (position r)) (bytes r).

Record wf (r : Reader.t) : Prop := {
  wf_position : 0 ≤ position r ≤ Bytes.size (bytes r);
  wf_bytes : Forall byte (bytes r);
}.

(** On every input that starts with [l], [m] returns [a] and moves past [l]. *)
Definition reads {A} (m : M Reader.t A) (max : Z) (l : list Z) (a : A) : Prop :=
  ∀ r rest, wf r → maxFieldBytes r = max → suffix r = l ++ rest → m r = (Ok a, advance (Bytes.size l) r).

(** Whatever [m] returns, it moved past bytes that satisfy [P]. *)
Definition consumes {A} (m : M Reader.t A) (P : Z → A → list Z → Prop) : Prop :=
  ∀ r a r', wf r → m r = (Ok a, r') →
    ∃ l, r' = advance (Bytes.size l) r ∧ suffix r = l ++ suffix r' ∧ P (maxFieldBytes r) a l.

(** [m] never reads outside the vector, and leaves the position inside it. *)
Definition safe {A} (m : M Reader.t A) : Prop :=
  ∀ r, wf r → wf (m r).2 ∧ (m r).1 ≠ Throw UndefinedBehaviour.

Lemma writes_nil : writes (mret tt) [].
Proof. intros w. by rewrite app_nil_r. Qed.

Lemma writes_bind m1 m2 l1 l2 : writes m1 l1 → writes m2 l2 → writes (m1;; m2) (l1 ++ l2).
Proof. intros H1 H2 w. rewrite (M_run_Ok _ _ _ _ _ (H1 w)), H2. by rewrite app_assoc. Qed.

Lemma writes_lift {A} (res : result A) (f : A → M Writer.t unit) a l :
  res = Ok a → writes (f a) l → writes (lift res ≫= f) l.
Proof. intros -> H w. apply H. Qed.

Lemma writes_for_each {A} (f : A → M Writer.t unit) (g : A → list Z) l :
  (∀ x, writes (f x) (g x)) → writes (for_each f l) (mjoin (g <$> l)).
Proof. intros Hf. induction l as [|x l IH]; [apply writes_nil|]. by apply writes_bind. Qed.

Lemma writes_append l : writes (Writer.append l) l.
Proof. done. Qed.

Lemma writes_bytes m l : writes m l → Writer.bytes m = Ok l.
Proof. intros Hm. unfold Writer.bytes, on_local. by rewrite Hm. Qed.

Lemma suffix_size r : wf r → Bytes.size (suffix r) = remaining r.
Proof. intros [Hp _]. unfold suffix, remaining, Bytes.size in *. rewrite length_drop. lia. Qed.

Lemma suffix_bytes r : wf r → Forall byte (suffix r).
Proof. intros [_ Hb]. by apply Forall_drop. Qed.

Lemma advance_wf n r : wf r → 0 ≤ n ≤ remaining r → wf (advance n r).
Proof. intros [Hp Hb] Hn. unfold remaining in Hn. split; simpl; [lia|done]. Qed.

Lemma advance_suffix l rest r : wf r → suffix r = l ++ rest →
  wf (advance (Bytes.size l) r) ∧ suffix (advance (Bytes.size l) r) = rest.
Proof.
  intros Hw Hs. pose proof (suffix_size r Hw) as Hsz. rewrite Hs, size_app in Hsz.
  pose proof (size_nonneg l). pose proof (size_nonneg rest). split; [apply advance_wf; [done|lia]|].
  destruct Hw as [Hp _]. unfold suffix in *. simpl. rewrite Z2Nat.inj_add by lia.
  rewrite <- drop_drop, Hs. unfold Bytes.size. by rewrite Nat2Z.id, drop_app_length.
Qed.

Lemma advance_advance m n r : advance m (advance n r) = advance (n + m) r.
Proof. unfold advance. simpl. f_equal. lia. Qed.

Lemma advance_0 r : advance 0 r = r.
Proof. destruct r. unfold advance. simpl. f_equal. lia. Qed.

Lemma reads_ret {A} (a : A) max : reads (mret a) max [] a.
Proof. intros r rest _ _ _. unfold mret, M_ret. change (Bytes.size []) with 0. by rewrite advance_0. Qed.

Lemma reads_bind {A B} (m : M Reader.t A) (f : A → M Reader.t B) max l1 l2 a b :
  reads m max l1 a → reads (f a) max l2 b → reads (m ≫= f) max (l1 ++ l2) b.
Proof.
  intros H1 H2 r rest Hw Hmax Hs. rewrite <- app_assoc in Hs.
  rewrite (M_run_Ok _ _ _ _ _ (H1 r _ Hw Hmax Hs)). destruct (advance_suffix _ _ _ Hw Hs) as [Hw' Hs'].
  rewrite (H2 _ rest Hw' Hmax Hs'), advance_advance. by rewrite size_app.
Qed.

Lemma consumes_ret {A} (a : A) (P : Z → A → list Z → Prop) : (∀ max, P max a []) → consumes (mret a) P.
Proof.
  intros HP r a' r' _ [= -> ->]. exists []. change (Bytes.size []) with 0. rewrite advance_0. by split_and!.
Qed.

Lemma consumes_throw {A} e (P : Z → A → list Z → Prop) : consumes (throw e) P.
Proof. intros r a r' _ [=]. Qed.

Lemma consumes_bind_dep {A B} (m : M Reader.t A) (f : A → M Reader.t B) P (Q : A → Z → B → list Z → Prop) :
  consumes m P → (∀ a max l, P max a l → consumes (f a) (Q a)) →
  consumes (m ≫= f) (λ max b l, ∃ a l1 l2, l = l1 ++ l2 ∧ P max a l1 ∧ Q a max b l2).
Proof.
  intros H1 H2 r b r' Hw (a & r1 & E1 & E2)%M_bind_Ok.
  destruct (H1 r a r1 Hw E1) as (l1 & -> & Hs1 & HP). pose proof (advance_suffix _ _ _ Hw Hs1) as [Hw1 _].
  destruct (H2 a _ _ HP _ b r' Hw1 E2) as (l2 & -> & Hs2 & HQ). exists (l1 ++ l2). split_and!.
  - by rewrite advance_advance, size_app.
  - by rewrite Hs1, Hs2, app_assoc.
  - by exists a, l1, l2.
Qed.

Lemma consumes_bind {A B} (m : M Reader.t A) (f : A → M Reader.t B) P (Q : A → Z → B → list Z → Prop) :
  consumes m P → (∀ a, consumes (f a) (Q a)) →
  consumes (m ≫= f) (λ max b l, ∃ a l1 l2, l = l1 ++ l2 ∧ P max a l1 ∧ Q a max b l2).
Proof. intros H1 H2. apply consumes_bind_dep; auto. Qed.

Lemma consumes_mono {A} (m : M Reader.t A) (P Q : Z → A → list Z → Prop) :
  consumes m P → (∀ max a l, P max a l → Q max a l) → consumes m Q.
Proof. intros H HPQ r a r' Hw E. destruct (H r a r' Hw E) as (l & ? & ? & ?). exists l. auto. Qed.

Lemma safe_ret {A} (a : A) : safe (mret a).
Proof. done. Qed.

Lemma safe_throw {A} e : e ≠ UndefinedBehaviour → safe (throw e : M Reader.t A).
Proof. intros He r Hw. split; [done|]. by intros [= ->]. Qed.

Lemma safe_bind {A B} (m : M Reader.t A) (f : A → M Reader.t B) :
  safe m → (∀ a, safe (f a)) → safe (m ≫= f).
Proof.
  intros H1 H2 r Hw. destruct (H1 r Hw) as [Hw1 Hu]. unfold mbind, M_bind.
  destruct (m r) as [[a|e] r1]; simpl in *; [by apply H2|]. split; [done|]. intros [= ->]. by apply Hu.
Qed.

(** Checks: they do not move the reader. *)
Definition guard (m : M Reader.t unit) (e : exn) (holds : Reader.t → Prop) : Prop :=
  ∀ r, wf r → (m r = (Ok tt, r) ∧ holds r) ∨ (m r = (Throw e, r) ∧ ¬ holds r).

Lemma guard_available n : guard (requireAvailable n) (runtime_error "Canonical payload is truncated.")
  (λ r, n ≤ remaining r).
Proof. intros r _. unfold requireAvailable, getsR. destruct (remaining r <? n) eqn:E; simpl; [right|left]; split; (done || lia). Qed.

Lemma guard_size n : guard (requireAllowedFieldSize n)
  (runtime_error "Canonical field exceeds configured size limit.") (λ r, n ≤ maxFieldBytes r).
Proof. intros r _. unfold requireAllowedFieldSize, getsR. destruct (maxFieldBytes r <? n) eqn:E; simpl; [right|left]; split; (done || lia). Qed.

Lemma guard_consumed : guard requireFullyConsumed (runtime_error "Canonical payload contains trailing bytes.")
  (λ r, suffix r = []).
Proof.
  intros r Hw. pose proof (suffix_size r Hw) as Hs. unfold requireFullyConsumed, getsR, fullyConsumed, remaining in *.
  destruct (position r =? Bytes.size (bytes r)) eqn:E; simpl; [left|right]; (split; [done|]).
  - apply Z.eqb_eq in E. destruct (suffix r); [done|]. unfold Bytes.size in *. simpl in *. lia.
  - apply Z.eqb_neq in E. intros En. rewrite En in Hs. unfold Bytes.size in *. simpl in *. lia.
Qed.

Lemma guard_safe m e holds : e ≠ UndefinedBehaviour → guard m e holds → safe m.
Proof. intros He Hg r Hw. destruct (Hg r Hw) as [[E _]|[E _]]; rewrite E; simpl; split; congruence. Qed.

Lemma guard_consumes m e holds : guard m e holds →
  consumes m (λ _ _ l, l = []).
Proof.
  intros Hg r [] r' Hw E. destruct (Hg r Hw) as [[E' _]|[E' _]]; rewrite E' in E; [|discriminate].
  injection E as <-. exists []. change (Bytes.size []) with 0. by rewrite advance_0.
Qed.

(** *** Integers of a fixed number of bytes *)

Lemma available n r : wf r → Z.of_nat n ≤ remaining r →
  ∃ l rest, suffix r = l ++ rest ∧ length l = n ∧ Forall byte l.
Proof.
  intros Hw Hn. rewrite <- (suffix_size r Hw) in Hn. unfold Bytes.size in Hn.
  exists (take n (suffix r)), (drop n (suffix r)). split_and!.
  - by rewrite take_drop.
  - rewrite length_take. lia.
  - apply Forall_take, suffix_bytes, Hw.
Qed.

Lemma peek_suffix r b rest l : wf r → suffix r = l ++ b :: rest → peek (Bytes.size l) r = (Ok b, r).
Proof.
  intros [Hp _] Hs. unfold peek, getsR, suffix in *.
  rewrite Z2Nat.inj_add by (try apply size_nonneg; lia). rewrite <- lookup_drop, Hs.
  unfold Bytes.size. by rewrite Nat2Z.id, lookup_app_r, Nat.sub_diag.
Qed.

Lemma next_suffix r b rest : wf r → suffix r = b :: rest → next r = (Ok b, advance 1 r).
Proof.
  intros Hw Hs. unfold next. change 0 with (Bytes.size []). by rewrite (M_run_Ok _ _ _ _ _ (peek_suffix r b rest [] Hw Hs)).
Qed.

Lemma shift_in width v b : byte b → 0 ≤ v → 256 * v + b < 2 ^ width → 0 ≤ width →
  Z.lor (Z.shiftl v 8 mod 2 ^ width) b = 256 * v + b.
Proof.
  intros Hb Hv Hw H0. unfold byte in Hb. rewrite Z.shiftl_mul_pow2 by lia. change (2 ^ 8) with 256.
  rewrite Z.mod_small by lia. rewrite <- Z.lxor_lor.
  - rewrite <- Z.add_nocarry_lxor; [lia|]. apply (Z.bits_inj_0). intros n. rewrite Z.land_spec.
    destruct (Z.lt_ge_cases n 0) as [Hn|Hn]; [by rewrite Z.testbit_neg_r|].
    destruct (Z.lt_ge_cases n 8) as [Hn8|Hn8].
    + change 256 with (2 ^ 8). by rewrite Z.mul_pow2_bits_low.
    + rewrite <- (Z.mod_small b (2 ^ 8)) by (simpl; lia). rewrite Z.mod_pow2_bits_high by lia. apply andb_false_r.
  - apply (Z.bits_inj_0). intros n. rewrite Z.land_spec.
    destruct (Z.lt_ge_cases n 0) as [Hn|Hn]; [by rewrite Z.testbit_neg_r|].
    destruct (Z.lt_ge_cases n 8) as [Hn8|Hn8].
    + change 256 with (2 ^ 8). by rewrite Z.mul_pow2_bits_low.
    + rewrite <- (Z.mod_small b (2 ^ 8)) by (simpl; lia). rewrite Z.mod_pow2_bits_high by lia. apply andb_false_r.
Qed.

Lemma accumulate_run width l v r rest : 0 ≤ width → Forall byte l → wf r → suffix r = l ++ rest → 0 ≤ v →
  (v + 1) * 256 ^ Bytes.size l ≤ 2 ^ width →
  accumulate width (length l) v r = (Ok (be_value v l), advance (Bytes.size l) r).
Proof.
  intros H0 Hl. revert v r. induction Hl as [|b l Hb Hl IH]; intros v r Hw Hs Hv Hbound; cbn [length accumulate be_value].
  - unfold mret, M_ret. change (Bytes.size []) with 0. by rewrite advance_0.
  - rewrite (M_run_Ok _ _ _ _ _ (next_suffix r b (l ++ rest) Hw Hs)).
    destruct (advance_suffix [b] (l ++ rest) r Hw Hs) as [Hw' Hs'].
    replace (Bytes.size (b :: l)) with (Z.succ (Bytes.size l)) in * by (unfold Bytes.size; simpl; lia).
    rewrite Z.pow_succ_r in Hbound by apply size_nonneg.
    assert (0 < 256 ^ Bytes.size l) by (apply Z.pow_pos_nonneg; [lia|apply size_nonneg]). unfold byte in Hb.
    rewrite shift_in by (unfold byte; nia). change (Bytes.size [b]) with 1 in Hw', Hs'.
    rewrite IH; [|done|done|lia|nia]. rewrite advance_advance. do 2 f_equal. lia.
Qed.

Definition fixed (m : M Reader.t Z) (n : nat) : Prop := ∀ r, wf r →
  (remaining r < Z.of_nat n ∧ m r = (Throw (runtime_error "Canonical payload is truncated."), r)) ∨
  (∃ l rest, suffix r = l ++ rest ∧ length l = n ∧ Forall byte l ∧ m r = (Ok (be_value 0 l), advance (Bytes.size l) r)).

Lemma fixed_accumulate n : (n ≤ 8)%nat →
  fixed (requireAvailable (Z.of_nat n);; accumulate (8 * Z.of_nat n) n 0) n.
Proof.
  intros Hn r Hw. destruct (guard_available (Z.of_nat n) r Hw) as [[E Ha]|[E Ha]].
  - right. rewrite (M_run_Ok _ _ _ _ _ E). destruct (available n r Hw Ha) as (l & rest & Hs & Hl & Hb).
    exists l, rest. split_and!; [done..|]. rewrite <- Hl. apply (accumulate_run _ l 0 r rest); [lia|done..|lia|].
    unfold Bytes.size. rewrite Z.pow_mul_r by lia. change (2 ^ 8) with 256. lia.
  - left. rewrite (M_run_Throw _ _ _ _ _ E). split; [lia|done].
Qed.

Lemma fixed_uint8 : fixed readUInt8 1.
Proof.
  intros r Hw. unfold readUInt8. destruct (guard_available 1 r Hw) as [[E Ha]|[E Ha]].
  - right. rewrite (M_run_Ok _ _ _ _ _ E). destruct (available 1 r Hw Ha) as (l & rest & Hs & Hl & Hb).
    destruct l as [|b [|]]; try discriminate. exists [b], rest. split_and!; [done..|]. by apply (next_suffix r b rest).
  - left. rewrite (M_run_Throw _ _ _ _ _ E). split; [lia|done].
Qed.

Lemma fixed_uint16 : fixed readUInt16 2.
Proof.
  intros r Hw. unfold readUInt16. destruct (guard_available 2 r Hw) as [[E Ha]|[E Ha]].
  - right. rewrite (M_run_Ok _ _ _ _ _ E). destruct (available 2 r Hw Ha) as (l & rest & Hs & Hl & Hb).
    destruct l as [|b [|c [|]]]; try discriminate. exists [b; c], rest. split_and!; [done..|].
    rewrite (M_run_Ok _ _ _ _ _ (peek_suffix r b (c :: rest) [] Hw Hs)).
    rewrite (M_run_Ok _ _ _ _ _ (peek_suffix r c rest [b] Hw Hs)).
    rewrite !Forall_cons in Hb. destruct Hb as (Hb & Hc & _). unfold byte in Hb.
    cbn [be_value]. rewrite <- (shift_in 16) by (try done; unfold byte in *; lia). f_equal. f_equal.
    rewrite Z.mod_small; [by rewrite Z.mul_0_r|]. rewrite Z.shiftl_mul_pow2 by lia. simpl. lia.
  - left. rewrite (M_run_Throw _ _ _ _ _ E). split; [lia|done].
Qed.

Lemma fixed_uint32 : fixed readUInt32 4.
Proof. apply (fixed_accumulate 4). lia. Qed.

Lemma fixed_uint64 : fixed readUInt64 8.
Proof. apply (fixed_accumulate 8). lia. Qed.

Section fixed.
Context (m : M Reader.t Z) (n : nat) (Hm : fixed m n).

Lemma fixed_reads max v : 0 ≤ v < 256 ^ Z.of_nat n → reads m max (be n v) v.
Proof using Hm.
  intros Hv r rest Hw _ Hs. destruct (Hm r Hw) as [[Hlt _]|(l & rest' & Hs' & Hl & Hb & E)].
  - rewrite <- (suffix_size r Hw), Hs, size_app, be_size in Hlt. pose proof (size_nonneg rest). lia.
  - rewrite Hs in Hs'. apply app_inj_1 in Hs' as [<- _]; [|by rewrite Hl; apply Nat2Z.inj, be_size].
    rewrite E, be_value_be, Z.mod_small by lia. reflexivity.
Qed.

Lemma fixed_consumes : consumes m (λ _ v l, l = be n v ∧ 0 ≤ v < 256 ^ Z.of_nat n).
Proof using Hm.
  intros r v r' Hw E. destruct (Hm r Hw) as [[_ E']|(l & rest & Hs & Hl & Hb & E')]; rewrite E' in E; [discriminate|].
  injection E as <- <-. exists l. destruct (advance_suffix _ _ _ Hw Hs) as [_ Hs']. split_and!; [done|by rewrite Hs'|..].
  - by rewrite <- Hl, be_unique.
  - pose proof (be_value_bound 0 l Hb ltac:(lia)) as Hv. unfold Bytes.size in Hv. rewrite Hl in Hv. lia.
  - pose proof (be_value_bound 0 l Hb ltac:(lia)) as Hv. unfold Bytes.size in Hv. rewrite Hl in Hv. lia.
Qed.

Lemma fixed_safe : safe m.
Proof using Hm.
  intros r Hw. destruct (Hm r Hw) as [[_ E]|(l & rest & Hs & Hl & Hb & E)]; rewrite E; simpl; split; try congruence.
  apply (advance_suffix _ _ _ Hw Hs).
Qed.
End fixed.
End EncodingFacts.

(** ** The interface of a field *)

(** What a codec uses of a field: [image] is the bytes of a value, [fits] the
    values the format can carry when fields are limited to [max] bytes. *)
Class Codec {A} (write : A → M Writer.t unit) (read : M Reader.t A) := {
  image : A → list Z;
  fits : Z → A → Prop;
  codec_writes max a : fits max a → EncodingFacts.writes (write a) (image a);
  codec_reads max a : fits max a → EncodingFacts.reads read max (image a) a;
  codec_consumes : EncodingFacts.consumes read (λ max a l, l = image a ∧ fits max a);
  codec_bytes max a : fits max a → Forall byte (image a);
  codec_safe : EncodingFacts.safe read;
}.
Arguments image {_} write read {_} _.
Arguments fits {_} write read {_} _ _.

Module Fields.
Import EncodingFacts Reader Writer.

Lemma writes_uint8 v : writes (writeUInt8 v) [v].
Proof. done. Qed.

Lemma writes_push v : writes (push v) [v].
Proof. done. Qed.

Lemma writes_uint16 v : writes (writeUInt16 v) (be 2 v).
Proof. exact (writes_bind _ _ _ _ (writes_push _) (writes_push _)). Qed.

Lemma writes_uint32 v : writes (writeUInt32 v) (be 4 v).
Proof. exact (writes_for_each _ _ _ (λ shift, writes_push (Z.land (Z.shiftr v shift) 255))). Qed.

Lemma writes_uint64 v : writes (writeUInt64 v) (be 8 v).
Proof. exact (writes_for_each _ _ _ (λ shift, writes_push (Z.land (Z.shiftr v shift) 255))). Qed.

Lemma be_1 v : 0 ≤ v < 256 → be 1 v = [v].
Proof. intros Hv. cbn [be]. rewrite low_byte, Z.shiftr_0_r, Z.mod_small by lia. done. Qed.

#[export] Program Instance uint8_codec : Codec writeUInt8 readUInt8 :=
  {| image v := [v]; fits _ v := 0 ≤ v < 256 |}.
Next Obligation. intros. apply writes_uint8. Qed.
Next Obligation. intros max v Hv. simpl. rewrite <- be_1 by done. by apply (fixed_reads _ 1 fixed_uint8). Qed.
Next Obligation.
  refine (consumes_mono _ _ _ (fixed_consumes _ 1 fixed_uint8) _). intros max v l [-> Hv].
  change (256 ^ Z.of_nat 1) with 256 in Hv. rewrite be_1 by done. done.
Qed.
Next Obligation. intros max v Hv. by apply Forall_singleton. Qed.
Next Obligation. exact (fixed_safe _ 1 fixed_uint8). Qed.

#[export] Program Instance uint16_codec : Codec writeUInt16 readUInt16 :=
  {| image v := be 2 v; fits _ v := 0 ≤ v < 65536 |}.
Next Obligation. intros. apply writes_uint16. Qed.
Next Obligation. intros max v Hv. by apply (fixed_reads _ 2 fixed_uint16). Qed.
Next Obligation. exact (fixed_consumes _ 2 fixed_uint16). Qed.
Next Obligation. intros. apply be_bytes. Qed.
Next Obligation. exact (fixed_safe _ 2 fixed_uint16). Qed.

#[export] Program Instance uint32_codec : Codec writeUInt32 readUInt32 :=
  {| image v := be 4 v; fits _ v := u32 v |}.
Next Obligation. intros. apply writes_uint32. Qed.
Next Obligation.
  intros max v Hv. apply (fixed_reads _ 4 fixed_uint32). unfold u32, u32_max in Hv.
  change (256 ^ Z.of_nat 4) with 4294967296. lia.
Qed.
Next Obligation.
  refine (consumes_mono _ _ _ (fixed_consumes _ 4 fixed_uint32) _). intros max v l [-> Hv].
  change (256 ^ Z.of_nat 4) with 4294967296 in Hv. unfold u32, u32_max. split; [done|lia].
Qed.
Next Obligation. intros. apply be_bytes. Qed.
Next Obligation. exact (fixed_safe _ 4 fixed_uint32). Qed.

#[export] Program Instance uint64_codec : Codec writeUInt64 readUInt64 :=
  {| image v := be 8 v; fits _ v := u64 v |}.
Next Obligation. intros. apply writes_uint64. Qed.
Next Obligation.
  intros max v Hv. apply (fixed_reads _ 8 fixed_uint64). unfold u64, u64_max in Hv.
  change (256 ^ Z.of_nat 8) with 18446744073709551616. lia.
Qed.
Next Obligation.
  refine (consumes_mono _ _ _ (fixed_consumes _ 8 fixed_uint64) _). intros max v l [-> Hv].
  change (256 ^ Z.of_nat 8) with 18446744073709551616 in Hv. unfold u64, u64_max. split; [done|lia].
Qed.
Next Obligation. intros. apply be_bytes. Qed.
Next Obligation. exact (fixed_safe _ 8 fixed_uint64). Qed.

Lemma wrap64_u64 v : u64 (wrap64 v).
Proof. unfold u64, u64_max, wrap64. pose proof (Z.mod_pos_bound v 18446744073709551616). lia. Qed.

Lemma as_i64_wrap v : i64 v → as_i64 (wrap64 v) = v.
Proof.
  unfold i64, as_i64, wrap64, i64_max, i64_min. intros Hv. destruct (Z.lt_ge_cases v 0).
  - rewrite <- (Z_mod_plus_full v 1), Z.mod_small by lia. destruct (_ <=? _) eqn:E; lia.
  - rewrite Z.mod_small by lia. destruct (_ <=? _) eqn:E; lia.
Qed.

Lemma wrap_as_i64 v : u64 v → wrap64 (as_i64 v) = v ∧ i64 (as_i64 v).
Proof.
  unfold u64, i64, as_i64, wrap64, i64_max, i64_min, u64_max. intros Hv. destruct (_ <=? _) eqn:E.
  - rewrite Z.mod_small by lia. lia.
  - split; [|lia]. rewrite <- (Z_mod_plus_full _ 1), Z.mod_small by lia. lia.
Qed.

#[export] Program Instance int64_codec : Codec writeInt64 readInt64 :=
  {| image v := be 8 (wrap64 v); fits _ v := i64 v |}.
Next Obligation. intros. apply writes_uint64. Qed.
Next Obligation.
  intros max v Hv. cbv beta. rewrite <- (app_nil_r (be _ _)).
  apply reads_bind with (wrap64 v); [|rewrite as_i64_wrap by done; apply reads_ret].
  refine (codec_reads (write := writeUInt64) (read := readUInt64) max (wrap64 v) (wrap64_u64 v)).
Qed.
Next Obligation.
  refine (consumes_mono _ _ _ (consumes_bind _ _ _ _ codec_consumes
    (λ v, consumes_ret (as_i64 v) (λ _ a l, l = [] ∧ a = as_i64 v) _)) _); [done|].
  intros max v l (u & l1 & l2 & -> & [-> Hu] & -> & ->).
  destruct (wrap_as_i64 u Hu) as [Ew Hi]. cbv beta. split; [|exact Hi]. rewrite Ew. apply app_nil_r.
Qed.
Next Obligation. intros. apply be_bytes. Qed.
Next Obligation. apply safe_bind; [exact codec_safe|]. intros. apply safe_ret. Qed.

#[export] Program Instance bool_codec : Codec writeBool readBool :=
  {| image v := [if v : bool then 1 else 0]; fits _ _ := True |}.
Next Obligation. intros. apply writes_uint8. Qed.
Next Obligation.
  intros max v _. cbv beta. rewrite <- (app_nil_r [_]).
  apply reads_bind with (if v then 1 else 0); [|destruct v; apply reads_ret].
  refine (codec_reads (write := writeUInt8) (read := readUInt8) max _ _). by destruct v.
Qed.
Next Obligation.
  refine (consumes_mono _ _ _ (consumes_bind _ _ _ (λ v _ b l, l = [] ∧ v = (if b : bool then 1 else 0)) codec_consumes _) _).
  - intros v. destruct (v =? 0) eqn:E0; [apply consumes_ret; intros; split; [done|lia]|].
    destruct (v =? 1) eqn:E1; [apply consumes_ret; intros; split; [done|lia]|apply consumes_throw].
  - intros max v l (u & l1 & l2 & -> & [-> Hu] & -> & ->). done.
Qed.
Next Obligation. intros max [] _; by apply Forall_singleton. Qed.
Next Obligation.
  apply safe_bind; [exact codec_safe|]. intros v. destruct (v =? 0); [apply safe_ret|].
  destruct (v =? 1); [apply safe_ret|by apply safe_throw].
Qed.

(** The part of [readString] and [readBytes] after the length. *)
Definition body {A} (g : list Z → A) (n : Z) : M Reader.t A :=
  requireAllowedFieldSize n;; requireAvailable n;;
  value ← slice n; modify (advance n);; mret (g value).

Lemma body_cases {A} (g : list Z → A) n r : wf r → 0 ≤ n →
  (∃ e, body g n r = (Throw e, r) ∧ e ≠ UndefinedBehaviour ∧ (maxFieldBytes r < n ∨ remaining r < n)) ∨
  (∃ l rest, suffix r = l ++ rest ∧ Bytes.size l = n ∧ n ≤ maxFieldBytes r ∧ Forall byte l ∧
     body g n r = (Ok (g l), advance (Bytes.size l) r)).
Proof.
  intros Hw Hn. unfold body. destruct (guard_size n r Hw) as [[E Hs]|[E Hs]].
  2: { left. rewrite (M_run_Throw _ _ _ _ _ E). eexists. split_and!; [done|done|lia]. }
  rewrite (M_run_Ok _ _ _ _ _ E). destruct (guard_available n r Hw) as [[E' Ha]|[E' Ha]].
  2: { left. rewrite (M_run_Throw _ _ _ _ _ E'). eexists. split_and!; [done|done|lia]. }
  rewrite (M_run_Ok _ _ _ _ _ E'). right.
  destruct (available (Z.to_nat n) r Hw ltac:(lia)) as (l & rest & Hsf & Hl & Hb). exists l, rest.
  assert (Bytes.size l = n) as Hsz by (unfold Bytes.size; lia). split_and!; [done..|].
  unfold slice, getsR, mbind, M_bind. unfold remaining in Ha.
  replace (position r + n <=? Bytes.size (Reader.bytes r)) with true by lia.
  change (drop _ _) with (suffix r). rewrite Hsf, <- Hl, take_app_length, Hsz. reflexivity.
Qed.

Section sized.
Context {A : Type} (g : list Z → A) (h : A → list Z).
Hypothesis gh : ∀ a, g (h a) = a.
Hypothesis hg : ∀ l, Forall byte l → h (g l) = l.

Definition sized_fits (max : Z) (a : A) : Prop :=
  Bytes.size (h a) ≤ max ∧ Bytes.size (h a) ≤ u32_max ∧ Forall byte (h a).

Definition readSized : M Reader.t A := n ← readUInt32; body g n.

Lemma sized_reads max a : sized_fits max a → reads readSized max (be 4 (Bytes.size (h a)) ++ h a) a.
Proof using gh.
  intros (Hmax & Hu & Hb). pose proof (size_nonneg (h a)). unfold readSized. apply reads_bind with (Bytes.size (h a)).
  - refine (codec_reads (write := writeUInt32) (read := readUInt32) max _ _). unfold fits; simpl. unfold u32. lia.
  - intros r rest Hw Hm Hs. destruct (body_cases g (Bytes.size (h a)) r Hw ltac:(lia))
      as [(e & _ & _ & Hbad)|(l & rest' & Hs' & Hl & _ & _ & E)].
    + rewrite <- (suffix_size r Hw), Hs, size_app in Hbad. pose proof (size_nonneg rest). lia.
    + rewrite Hs in Hs'. apply app_inj_1 in Hs' as [<- _]; [|unfold Bytes.size in Hl; lia]. by rewrite E, gh.
Qed.

Lemma body_consumes n : 0 ≤ n → consumes (body g n)
  (λ max a l, l = h a ∧ n = Bytes.size (h a) ∧ Bytes.size (h a) ≤ max ∧ Forall byte (h a)).
Proof using hg.
  intros Hn r a r' Hw E. destruct (body_cases g n r Hw Hn) as [(e & E' & _)|(l & rest & Hs & Hl & Hmax & Hb & E')];
    rewrite E' in E; [discriminate|]. injection E as <- <-. exists l. destruct (advance_suffix _ _ _ Hw Hs) as [_ Hs'].
  rewrite Hs', hg by done. split_and!; (done || lia).
Qed.

Lemma sized_consumes : consumes readSized
  (λ max a l, l = be 4 (Bytes.size (h a)) ++ h a ∧ sized_fits max a).
Proof using hg.
  refine (consumes_mono _ _ _ (consumes_bind_dep _ _ _ _
    (codec_consumes (write := writeUInt32) (read := readUInt32)) (λ n _ _ Hn, body_consumes n (proj1 (proj2 Hn)))) _).
  intros max a l (n & l1 & l2 & -> & [-> [_ Hn]] & -> & -> & Hmax & Hb). split; [done|].
  unfold sized_fits. split_and!; [done|lia|done].
Qed.

Lemma sized_safe : safe readSized.
Proof using.
  intros r Hw. unfold readSized. destruct (fixed_uint32 r Hw) as [[_ E]|(l & rest & Hs & Hl & Hb & E)].
  - by rewrite (M_run_Throw _ _ _ _ _ E).
  - rewrite (M_run_Ok _ _ _ _ _ E). destruct (advance_suffix _ _ _ Hw Hs) as [Hw' _].
    pose proof (be_value_bound 0 l Hb ltac:(lia)).
    destruct (body_cases g (be_value 0 l) _ Hw' ltac:(lia)) as [(e & E' & He & _)|(k & rest' & Hs' & _ & _ & _ & E')];
      rewrite E'; simpl; (split; [|congruence]); [done|]. apply (advance_suffix _ _ _ Hw' Hs').
Qed.
End sized.

#[export] Program Instance bytes_codec : Codec writeBytes readBytes :=
  {| image l := be 4 (Bytes.size l) ++ l; fits := sized_fits (λ l, l) |}.
Next Obligation.
  intros max l (_ & Hu & _) w. unfold writeBytes. replace (u32_max <? Bytes.size l) with false by lia.
  exact (writes_bind _ _ _ _ (writes_uint32 _) (writes_append l) w).
Qed.
Next Obligation. exact (sized_reads (λ l, l) (λ l, l) (λ l, eq_refl)). Qed.
Next Obligation. exact (sized_consumes (λ l, l) (λ l, l) (λ l _, eq_refl)). Qed.
Next Obligation. intros max l (_ & _ & Hl). by apply Forall_app_2; [apply be_bytes|]. Qed.
Next Obligation. exact (sized_safe (λ l, l)). Qed.

#[export] Program Instance string_codec : Codec writeString readString :=
  {| image s := be 4 (string_size s) ++ Bytes.of_string s;
     fits max s := string_size s ≤ max ∧ string_size s ≤ u32_max |}.
Next Obligation.
  intros max s [_ Hu] w. unfold writeString. replace (u32_max <? string_size s) with false by lia.
  exact (writes_bind _ _ _ _ (writes_uint32 _) (writes_append _) w).
Qed.
Next Obligation.
  intros max s [Hm Hu]. rewrite <- of_string_size.
  refine (sized_reads Bytes.to_string Bytes.of_string to_of_string max s _). unfold sized_fits.
  rewrite of_string_size. split_and!; [done|done|apply of_string_bytes].
Qed.
Next Obligation.
  refine (consumes_mono _ _ _ (sized_consumes Bytes.to_string Bytes.of_string of_to_string) _).
  intros max s l [-> (Hm & Hu & _)]. rewrite of_string_size in *. done.
Qed.
Next Obligation. intros. apply Forall_app_2; [apply be_bytes|apply of_string_bytes]. Qed.
Next Obligation. exact (sized_safe Bytes.to_string). Qed.

(** Lists of one field. *)
Section list.
Context {A : Type} (write : A → M Writer.t unit) (read : M Reader.t A) `{!Codec write read}.

Definition list_image (l : list A) : list Z := mjoin (image write read <$> l).

Lemma list_writes max l : Forall (fits write read max) l → writes (for_each write l) (list_image l).
Proof.
  unfold list_image. induction 1 as [|x l Hx _ IH]; [apply writes_nil|].
  apply writes_bind; [by eapply codec_writes|exact IH].
Qed.

Lemma list_reads max l : Forall (fits write read max) l → reads (readList (length l) read) max (list_image l) l.
Proof.
  induction 1 as [|x l Hx _ IH]; [apply reads_ret|]. apply reads_bind with x; [by apply codec_reads|].
  change (mjoin _) with (list_image l). rewrite <- (app_nil_r (list_image l)).
  apply reads_bind with l; [exact IH|apply reads_ret].
Qed.

Lemma list_consumes n : consumes (readList n read)
  (λ max l k, k = list_image l ∧ length l = n ∧ Forall (fits write read max) l).
Proof.
  induction n as [|n IH]; [apply consumes_ret; by constructor|]. simpl.
  refine (consumes_mono _ _ _ (consumes_bind _ _ _ _ codec_consumes (λ x, consumes_bind _ _ _ _ IH
    (λ l, consumes_ret (x :: l) (λ _ k b, b = [] ∧ k = x :: l) _))) _); [done|].
  intros max l k (x & l1 & l2 & -> & [-> Hx] & l' & k1 & k2 & -> & (-> & Hn & Hl) & -> & ->).
  rewrite app_nil_r. split_and!; [done|simpl; by rewrite Hn|by constructor].
Qed.

Lemma list_safe n : safe (readList n read).
Proof.
  induction n as [|n IH]; [apply safe_ret|]. apply safe_bind; [apply codec_safe|]. intros x.
  apply safe_bind; [exact IH|]. intros. apply safe_ret.
Qed.
End list.
End Fields.

(** ** Whole messages *)

Module CodecFacts.
Import EncodingFacts Reader.

(** [m] returns [a] on an input that is exactly [l]. *)
Definition accepts {A} (m : M Reader.t A) (max : Z) (l : list Z) (a : A) : Prop :=
  ∀ r, wf r → maxFieldBytes r = max → suffix r = l → (m r).1 = Ok a.

(** Whatever [m] returns, [P] holds of it and of all the input left. *)
Definition finishes {A} (m : M Reader.t A) (P : Z → A → list Z → Prop) : Prop :=
  ∀ r a, wf r → (m r).1 = Ok a → P (maxFieldBytes r) a (suffix r).

Lemma accepts_ret {A} (a : A) max : accepts (mret a) max [] a.
Proof. done. Qed.

Lemma accepts_bind {A B} (m : M Reader.t A) (f : A → M Reader.t B) max l1 l2 a b :
  reads m max l1 a → accepts (f a) max l2 b → accepts (m ≫= f) max (l1 ++ l2) b.
Proof.
  intros H1 H2 r Hw Hm Hs. rewrite (M_run_Ok _ _ _ _ _ (H1 r _ Hw Hm Hs)).
  destruct (advance_suffix _ _ _ Hw Hs) as [Hw' Hs']. by apply H2.
Qed.

Lemma accepts_last {A B} (m : M Reader.t A) (f : A → M Reader.t B) max l a b :
  reads m max l a → accepts (f a) max [] b → accepts (m ≫= f) max l b.
Proof. intros H1 H2. rewrite <- (app_nil_r l). by eapply accepts_bind. Qed.

Lemma accepts_lift {A B} (res : result A) (f : A → M Reader.t B) max l a b :
  res = Ok a → accepts (f a) max l b → accepts (lift res ≫= f) max l b.
Proof. intros -> H r. apply H. Qed.

Lemma accepts_end {A} (m : M Reader.t A) max a :
  accepts m max [] a → accepts (requireFullyConsumed;; m) max [] a.
Proof.
  intros H r Hw Hm Hs. destruct (guard_consumed r Hw) as [[E _]|[_ Hn]]; [|done].
  rewrite (M_run_Ok _ _ _ _ _ E). by apply H.
Qed.

Lemma finishes_ret {A} (a : A) : finishes (mret a) (λ _ b _, b = a).
Proof. by intros r b _ [= ->]. Qed.

Lemma finishes_bind {A B} (m : M Reader.t A) (f : A → M Reader.t B) P (Q : A → Z → B → list Z → Prop) :
  consumes m P → (∀ a, finishes (f a) (Q a)) →
  finishes (m ≫= f) (λ max b l, ∃ a l1 l2, l = l1 ++ l2 ∧ P max a l1 ∧ Q a max b l2).
Proof.
  intros H1 H2 r b Hw E. destruct (m r) as [[a|e] r1] eqn:Em.
  - rewrite (M_run_Ok _ _ _ _ _ Em) in E. destruct (H1 r a r1 Hw Em) as (l1 & -> & Hs & HP).
    exists a, l1, (suffix (advance (Bytes.size l1) r)). split_and!; [done|done|].
    apply (H2 a (advance (Bytes.size l1) r) b); [|done]. by apply (advance_suffix _ _ _ Hw Hs).
  - by rewrite (M_run_Throw _ _ _ _ _ Em) in E.
Qed.

Lemma finishes_lift {A B} (res : result A) (f : A → M Reader.t B) (Q : A → Z → B → list Z → Prop) :
  (∀ a, finishes (f a) (Q a)) →
  finishes (lift res ≫= f) (λ max b l, ∃ a, res = Ok a ∧ Q a max b l).
Proof. intros H r b Hw E. destruct res as [a|e]; [|discriminate]. exists a. split; [done|]. by apply H. Qed.

Lemma finishes_end {A} (m : M Reader.t A) Q :
  finishes m Q → finishes (requireFullyConsumed;; m) (λ max a l, l = [] ∧ Q max a []).
Proof.
  intros H r a Hw E. destruct (guard_consumed r Hw) as [[Eg Hs]|[Eg _]].
  - rewrite (M_run_Ok _ _ _ _ _ Eg) in E. rewrite Hs. split; [done|]. rewrite <- Hs. by apply H.
  - by rewrite (M_run_Throw _ _ _ _ _ Eg) in E.
Qed.

Lemma make_wf l max r : Forall byte l → make l max = Ok r → wf r ∧ maxFieldBytes r = max ∧ suffix r = l.
Proof.
  unfold make. intros Hl E. destruct (max =? 0); [discriminate|]. injection E as <-. split_and!; [|done|done].
  split; simpl; [|done]. pose proof (size_nonneg l). lia.
Qed.

Lemma parse_accepts {A} (m : M Reader.t A) max l a :
  max ≠ 0 → Forall byte l → accepts m max l a → parse l max m = Ok a.
Proof.
  intros Hm Hl H. unfold parse. destruct (make l max) as [r|e] eqn:E.
  - destruct (make_wf _ _ _ Hl E) as (Hw & Hmax & Hs). by apply H.
  - unfold make in E. apply Z.eqb_neq in Hm. rewrite Hm in E. discriminate.
Qed.

Lemma parse_finishes {A} (m : M Reader.t A) P max l a :
  Forall byte l → finishes m P → parse l max m = Ok a → P max a l.
Proof.
  intros Hl H E. unfold parse in E. destruct (make l max) as [r|e] eqn:Er; [|discriminate].
  destruct (make_wf _ _ _ Hl Er) as (Hw & Hmax & Hs). pose proof (H r a Hw E) as HP. by rewrite Hmax, Hs in HP.
Qed.

Lemma reads_last {A B} (m : M Reader.t A) (f : A → M Reader.t B) max l a b :
  reads m max l a → reads (f a) max [] b → reads (m ≫= f) max l b.
Proof. intros H1 H2. rewrite <- (app_nil_r l). by eapply reads_bind. Qed.

Lemma reads_lift {A B} (res : result A) (f : A → M Reader.t B) max l a b :
  res = Ok a → reads (f a) max l b → reads (lift res ≫= f) max l b.
Proof. intros -> H r. apply H. Qed.

Lemma consumes_lift {A B} (res : result A) (f : A → M Reader.t B) (Q : A → Z → B → list Z → Prop) :
  (∀ a, consumes (f a) (Q a)) → consumes (lift res ≫= f) (λ max b l, ∃ a, res = Ok a ∧ Q a max b l).
Proof.
  intros H r b r' Hw E. destruct res as [a|e]; [|discriminate].
  destruct (H a r b r' Hw E) as (l & ? & ? & ?). exists l. split_and!; [done..|]. by exists a.
Qed.

Lemma safe_lift {A} (res : result A) : res ≠ Throw UndefinedBehaviour → safe (lift res).
Proof. intros H r Hw. by split. Qed.
End CodecFacts.

(** ** What readers promise *)

Module EncodingProperties.
Import EncodingFacts Fields CodecFacts Reader.

(** The calls a codec can make on its reader. *)
Inductive read_op :=
| ReadUInt8 | ReadBool | ReadUInt16 | ReadUInt32 | ReadUInt64 | ReadInt64 | ReadString | ReadBytes | RequireFullyConsumed.

(** What a call yields. *)
Inductive read_value := Number (n : Z) | Flag (b : bool) | Text_ (s : string) | Data (l : list Z) | Nothing.

Definition run (o : read_op) : M Reader.t read_value :=
  match o with
  | ReadUInt8 => n ← readUInt8; mret (Number n)
  | ReadBool => b ← readBool; mret (Flag b)
  | ReadUInt16 => n ← readUInt16; mret (Number n)
  | ReadUInt32 => n ← readUInt32; mret (Number n)
  | ReadUInt64 => n ← readUInt64; mret (Number n)
  | ReadInt64 => n ← readInt64; mret (Number n)
  | ReadString => s ← readString; mret (Text_ s)
  | ReadBytes => l ← readBytes; mret (Data l)
  | RequireFullyConsumed => requireFullyConsumed;; mret Nothing
  end.

(** The type of the values of a call: their width, or the size limit of the reader. *)
Definition typed (max : Z) (o : read_op) (v : read_value) : Prop :=
  match o, v with
  | ReadUInt8, Number n => 0 ≤ n < 2 ^ 8
  | ReadUInt16, Number n => 0 ≤ n < 2 ^ 16
  | ReadUInt32, Number n => 0 ≤ n < 2 ^ 32
  | ReadUInt64, Number n => 0 ≤ n < 2 ^ 64
  | ReadInt64, Number n => - 2 ^ 63 ≤ n < 2 ^ 63
  | ReadBool, Flag _ | RequireFullyConsumed, Nothing => True
  | ReadString, Text_ s => string_size s ≤ max
  | ReadBytes, Data l => Forall byte l ∧ Bytes.size l ≤ max
  | _, _ => False
  end.

Lemma run_safe o : safe (run o).
Proof.
  destruct o; apply safe_bind; try (apply codec_safe || (intros; apply safe_ret)).
  eapply guard_safe; [|apply guard_consumed]. done.
Qed.

Lemma read_typed {A} (write : A → M Writer.t unit) (read : M Reader.t A) `{!Codec write read} (g : A → read_value) o r v r' :
  (∀ max a, fits write read max a → typed max o (g a)) → wf r → (a ← read; mret (g a)) r = (Ok v, r') → typed (maxFieldBytes r) o v.
Proof.
  intros Ht Hw E. unfold mbind, M_bind in E. destruct (read r) as [[a|e] r1] eqn:Er; [|done]. injection E as <- <-.
  destruct (codec_consumes (write := write) (read := read) r a r1 Hw Er) as (l & _ & _ & _ & Hf). by apply Ht.
Qed.

Lemma run_typed o r v r' : wf r → run o r = (Ok v, r') → typed (maxFieldBytes r) o v.
Proof.
  intros Hw. destruct o; cbn [run].
  - apply (read_typed Writer.writeUInt8 readUInt8 Number); [|done]. intros max n Hn. exact Hn.
  - by apply (read_typed Writer.writeBool readBool Flag).
  - apply (read_typed Writer.writeUInt16 readUInt16 Number); [|done]. intros max n Hn. exact Hn.
  - apply (read_typed Writer.writeUInt32 readUInt32 Number); [|done]. intros max n [? ?]. cbn. unfold u32_max in *. lia.
  - apply (read_typed Writer.writeUInt64 readUInt64 Number); [|done]. intros max n [? ?]. cbn. unfold u64_max in *. lia.
  - apply (read_typed Writer.writeInt64 readInt64 Number); [|done]. intros max n [? ?]. cbn. change (2 ^ 63) with 9223372036854775808. unfold i64_min, i64_max in *. lia.
  - apply (read_typed Writer.writeString readString Text_); [|done]. by intros max s [? ?].
  - apply (read_typed Writer.writeBytes readBytes Data); [|done]. intros max l (? & ? & ?). done.
  - intros E. unfold mbind, M_bind in E. destruct (requireFullyConsumed r) as [[[]|e] r1]; [|done]. injection E as <- <-. done.
Qed.

(** C28. Readers stay inside their bytes and yield typed values: whatever bytes a peer
    sends and whatever calls a codec makes, also after calls that threw, the position
    stays within the vector, no call accesses a byte outside it, and what a call returns
    has the width of its type, or for strings and byte vectors at most the size limit
    of the reader. *)
Theorem reader_stays_in_bounds (input : list Z) (max : Z) (r : Reader.t) (calls : list read_op) (o : read_op) :
  Forall byte input → make input max = Ok r →
  let r' := foldl (λ r o, (run o r).2) r calls in
  0 ≤ position r' ≤ Bytes.size (bytes r') ∧ (run o r').1 ≠ Throw UndefinedBehaviour ∧
  ∀ v, (run o r').1 = Ok v → typed (maxFieldBytes r') o v.
Proof.
  intros Hi Hr r'. assert (wf r') as Hw.
  { destruct (make_wf _ _ _ Hi Hr) as [Hw _]. unfold r'. clear -Hw. revert r Hw.
    induction calls as [|c calls IH]; intros r Hw; simpl; [exact Hw|]. by apply IH, run_safe. }
  split_and!; [apply Hw|apply Hw|by apply run_safe|]. intros v E. apply (run_typed o r' v (run o r').2 Hw).
  by destruct (run o r') as [x r2]; simpl in E |- *; rewrite E.
Qed.

Lemma reader_stays_in_bounds_witness :
  let r' := foldl (λ r o, (run o r).2) (Reader.mk [0; 0; 0; 9; 65] 0 16) [ReadString; ReadBool] in
  (run ReadString r').1 ≠ Throw UndefinedBehaviour ∧ ∀ v, (run ReadUInt8 (foldl (λ r o, (run o r).2) (Reader.mk [200; 65] 0 16) [ReadBool])).1 = Ok v → typed 16 ReadUInt8 v.
Proof.
  split.
  - apply (reader_stays_in_bounds [0; 0; 0; 9; 65] 16 (Reader.mk [0; 0; 0; 9; 65] 0 16) [ReadString; ReadBool] ReadString).
    + repeat apply Forall_cons_2; try apply Forall_nil_2; unfold byte; lia.
    + reflexivity.
  - apply (reader_stays_in_bounds [200; 65] 16 (Reader.mk [200; 65] 0 16) [ReadBool] ReadUInt8).
    + repeat apply Forall_cons_2; try apply Forall_nil_2; unfold byte; lia.
    + reflexivity.
Defined.
End EncodingProperties.

(** [accept] runs a decoder over the bytes its encoder wrote, field by field;
    what it leaves are the sizes of the fields and the decoder's own checks. *)
Ltac accept_step :=
  lazymatch goal with
  | |- CodecFacts.accepts (let _ := _ in _) _ _ _ => cbv zeta
  | |- CodecFacts.accepts (Reader.requireFullyConsumed ≫= _) _ _ _ => apply CodecFacts.accepts_end
  | |- CodecFacts.accepts (lift _ ≫= _) _ _ _ => eapply CodecFacts.accepts_lift
  | |- CodecFacts.accepts (_ ≫= _) _ (_ ++ _) _ => eapply CodecFacts.accepts_bind
  | |- CodecFacts.accepts (_ ≫= _) _ _ _ => eapply CodecFacts.accepts_last
  | |- EncodingFacts.reads _ _ (image _ _ _) _ => apply codec_reads
  end.
Ltac accept := repeat accept_step.

(** [emit max] computes the bytes an encoder writes. *)
Ltac emit max :=
  repeat lazymatch goal with
  | |- EncodingFacts.writes (lift _ ≫= _) _ => eapply EncodingFacts.writes_lift
  | |- EncodingFacts.writes (_ ≫= _) _ => eapply EncodingFacts.writes_bind
  | |- EncodingFacts.writes _ _ => apply (codec_writes max)
  | |- Forall byte (_ ++ _) => apply Forall_app_2
  | |- Forall byte (image _ _ _) => apply (codec_bytes max)
  end.

(** [finish] computes what a decoder that returned has read. *)
Ltac finish_step :=
  lazymatch goal with
  | |- CodecFacts.finishes (mret _) _ => apply CodecFacts.finishes_ret
  | |- CodecFacts.finishes (let _ := _ in _) _ => cbv zeta
  | |- CodecFacts.finishes (Reader.requireFullyConsumed ≫= _) _ => eapply CodecFacts.finishes_end
  | |- CodecFacts.finishes (lift _ ≫= _) _ => eapply CodecFacts.finishes_lift; intros ?
  | |- CodecFacts.finishes (_ ≫= _) _ => eapply CodecFacts.finishes_bind; [|intros ?]
  | |- EncodingFacts.consumes _ _ => apply codec_consumes
  end.
Ltac finish := repeat finish_step.

(** [open_fields E] names the fields of a decoded message from what [finish]
    computed. *)
Ltac open_fields E :=
  repeat match type of E with
  | ∃ _ : unit, throw_if _ _ = Ok _ ∧ _ =>
      let H := fresh "Hcheck" in destruct E as ([] & H & E); apply throw_if_Ok in H
  | ∃ _, ∃ _, ∃ _, _ = _ ++ _ ∧ (_ = _ ∧ _) ∧ _ =>
      let x := fresh "x" in let H := fresh "Hfits" in destruct E as (x & ? & ? & -> & [-> H] & E)
  | ∃ _, ∃ _, ∃ _, _ = _ ++ _ ∧ _ = _ ∧ _ =>
      let x := fresh "x" in destruct E as (x & ? & ? & -> & -> & E)
  | ∃ _, _ = Ok _ ∧ _ => let x := fresh "x" in let H := fresh "Hok" in destruct E as (x & H & E)
  | _ = [] ∧ _ => destruct E as [-> E]
  end.
