(* ===== verification/Messages.v ===== *)
(** * p2p and node: network envelopes and the canonical message codecs

    Models src/src/p2p/NetworkEnvelope.cpp (all but the debugging text),
    src/src/node/ChainSyncMessages.cpp, the message codecs of
    src/src/serialization/ProtocolMessageCodec.cpp (all but lists of blocks),
    src/src/serialization/CanonicalHash.cpp, src/src/p2p/TransportFrameCodec.cpp,
    src/src/p2p/TcpTransportFrameCodec.cpp, [TransportMessage] of
    src/src/p2p/Transport.cpp and src/src/node/ChainStatusGossipCodec.cpp. *)

From Stdlib Require Import Ascii.
From S2P Require Import Prelude Utils Crypto Encoding.

Inductive NetworkMessageType :=
| MSG_UNKNOWN | MSG_PING | MSG_PONG | MSG_PEER_CHALLENGE | MSG_PEER_HELLO | MSG_PEER_STATUS | MSG_PEER_EXCHANGE
| MSG_TRANSACTION_ANNOUNCE | MSG_TRANSACTION_REQUEST | MSG_TRANSACTION_RESPONSE | MSG_TRANSACTION_GOSSIP
| MSG_BLOCK_ANNOUNCE | MSG_BLOCK_REQUEST | MSG_BLOCK_RESPONSE | MSG_BLOCK_PROPOSAL | MSG_VOTE_ANNOUNCE
| MSG_VALIDATOR_VOTE | MSG_QUORUM_CERTIFICATE_ANNOUNCE | MSG_QUORUM_CERTIFICATE | MSG_FINALIZED_BLOCK_ARTIFACT
| MSG_CHAIN_STATUS | MSG_BLOCK_SYNC_REQUEST | MSG_BLOCK_SYNC_RESPONSE | MSG_SLASHING_EVIDENCE_ANNOUNCE
| MSG_SLASHING_EVIDENCE_INVENTORY | MSG_SLASHING_EVIDENCE_REQUEST | MSG_SLASHING_EVIDENCE_RESPONSE.

#[global] Instance NetworkMessageType_eq_dec : EqDecision NetworkMessageType.
Proof. solve_decision. Defined.

(** The declaration order, which is the numeric value of an enumerator. *)
Definition messageTypes : list NetworkMessageType :=
  [MSG_UNKNOWN; MSG_PING; MSG_PONG; MSG_PEER_CHALLENGE; MSG_PEER_HELLO; MSG_PEER_STATUS; MSG_PEER_EXCHANGE;
   MSG_TRANSACTION_ANNOUNCE; MSG_TRANSACTION_REQUEST; MSG_TRANSACTION_RESPONSE; MSG_TRANSACTION_GOSSIP;
   MSG_BLOCK_ANNOUNCE; MSG_BLOCK_REQUEST; MSG_BLOCK_RESPONSE; MSG_BLOCK_PROPOSAL; MSG_VOTE_ANNOUNCE;
   MSG_VALIDATOR_VOTE; MSG_QUORUM_CERTIFICATE_ANNOUNCE; MSG_QUORUM_CERTIFICATE; MSG_FINALIZED_BLOCK_ARTIFACT;
   MSG_CHAIN_STATUS; MSG_BLOCK_SYNC_REQUEST; MSG_BLOCK_SYNC_RESPONSE; MSG_SLASHING_EVIDENCE_ANNOUNCE;
   MSG_SLASHING_EVIDENCE_INVENTORY; MSG_SLASHING_EVIDENCE_REQUEST; MSG_SLASHING_EVIDENCE_RESPONSE].

Definition networkMessageTypeToString (t : NetworkMessageType) : string :=
  match t with
  | MSG_PING => "PING" | MSG_PONG => "PONG" | MSG_PEER_CHALLENGE => "PEER_CHALLENGE"
  | MSG_PEER_HELLO => "PEER_HELLO" | MSG_PEER_STATUS => "PEER_STATUS" | MSG_PEER_EXCHANGE => "PEER_EXCHANGE"
  | MSG_TRANSACTION_ANNOUNCE => "TRANSACTION_ANNOUNCE" | MSG_TRANSACTION_REQUEST => "TRANSACTION_REQUEST"
  | MSG_TRANSACTION_RESPONSE => "TRANSACTION_RESPONSE" | MSG_TRANSACTION_GOSSIP => "TRANSACTION_GOSSIP"
  | MSG_BLOCK_ANNOUNCE => "BLOCK_ANNOUNCE" | MSG_BLOCK_REQUEST => "BLOCK_REQUEST"
  | MSG_BLOCK_RESPONSE => "BLOCK_RESPONSE" | MSG_BLOCK_PROPOSAL => "BLOCK_PROPOSAL"
  | MSG_VOTE_ANNOUNCE => "VOTE_ANNOUNCE" | MSG_VALIDATOR_VOTE => "VALIDATOR_VOTE"
  | MSG_QUORUM_CERTIFICATE_ANNOUNCE => "QUORUM_CERTIFICATE_ANNOUNCE"
  | MSG_QUORUM_CERTIFICATE => "QUORUM_CERTIFICATE"
  | MSG_FINALIZED_BLOCK_ARTIFACT => "FINALIZED_BLOCK_ARTIFACT" | MSG_CHAIN_STATUS => "CHAIN_STATUS"
  | MSG_BLOCK_SYNC_REQUEST => "BLOCK_SYNC_REQUEST" | MSG_BLOCK_SYNC_RESPONSE => "BLOCK_SYNC_RESPONSE"
  | MSG_SLASHING_EVIDENCE_ANNOUNCE => "SLASHING_EVIDENCE_ANNOUNCE"
  | MSG_SLASHING_EVIDENCE_INVENTORY => "SLASHING_EVIDENCE_INVENTORY"
  | MSG_SLASHING_EVIDENCE_REQUEST => "SLASHING_EVIDENCE_REQUEST"
  | MSG_SLASHING_EVIDENCE_RESPONSE => "SLASHING_EVIDENCE_RESPONSE"
  | MSG_UNKNOWN => "UNKNOWN"
  end.

(** The chain of comparisons tries every name but UNKNOWN, in order. *)
Definition networkMessageTypeFromString (value : string) : NetworkMessageType :=
  default MSG_UNKNOWN (snd <$> list_find (λ t, networkMessageTypeToString t = value) (tail messageTypes)).

Module Envelope.
Record t := mk {
  networkId : string;
  chainId : string;
  protocolVersion : string;
  messageType : NetworkMessageType;
  messageId : string;
  senderNodeId : string;
  createdAt : Z;
  ttlSeconds : Z;
  payload : string;
  payloadHash : string;
}.

Definition MAX_NETWORK_PAYLOAD_BYTES : Z := 4 * 1024 * 1024.
Definition isSafeScalar (value : string) : bool := SafeScalar.isSafeIdentifier value 160 "_-.:/".

Definition signingPayload (e : t) : string :=
  "NodoNetworkEnvelopeSigningPayload{networkId=" +:+ networkId e +:+ ";chainId=" +:+ chainId e +:+
  ";protocolVersion=" +:+ protocolVersion e +:+ ";messageType=" +:+ networkMessageTypeToString (messageType e) +:+
  ";senderNodeId=" +:+ senderNodeId e +:+ ";createdAt=" +:+ to_string (createdAt e) +:+
  ";ttlSeconds=" +:+ to_string (ttlSeconds e) +:+ ";payloadHash=" +:+ payloadHash e +:+ "}".

Definition expiredAt (e : t) (now : Z) : bool :=
  if (now <=? 0) || (createdAt e <=? 0) then true
  else (createdAt e <? now) && (ttlSeconds e <? now - createdAt e).

Section envelope.
Context `{Sha256}.

Definition hashPayload (payload : string) : string := Hash.hashCString ("NODO_NETWORK_PAYLOAD_V1|" +:+ payload).
Definition computeMessageId (e : t) : string := Hash.hashCString (signingPayload e).

(** The constructor: the id is computed from the other fields. *)
Definition make (networkId chainId protocolVersion : string) (type : NetworkMessageType) (senderNodeId : string)
    (createdAt ttlSeconds : Z) (payload : string) : t :=
  let e id := mk networkId chainId protocolVersion type id senderNodeId createdAt ttlSeconds payload
                 (hashPayload payload) in
  e (computeMessageId (e "")).

Definition payloadHashMatches (e : t) : bool := String.eqb (payloadHash e) (hashPayload (payload e)).

Definition isStructurallyValid (maxPayloadBytes : Z) (e : t) : bool :=
  isSafeScalar (networkId e) && isSafeScalar (chainId e) && isSafeScalar (protocolVersion e) &&
  isSafeScalar (senderNodeId e) && negb (bool_decide (messageType e = MSG_UNKNOWN)) &&
  String.eqb (messageId e) (computeMessageId e) && (0 <? createdAt e) && (0 <? ttlSeconds e) &&
  (string_size (payload e) <=? maxPayloadBytes) && payloadHashMatches e.
End envelope.
End Envelope.
Abbreviation NetworkEnvelope := Envelope.t.

(** The [isSafeScalar] of ChainSyncMessages.cpp. *)
Definition isSafeSyncScalar (value : string) : bool := SafeScalar.isSafeIdentifier value 200 "_-.:/".

Module ChainStatus.
Record t := mk {
  networkId : string;
  chainId : string;
  protocolVersion : string;
  latestHeight : Z;
  latestBlockHash : string;
  finalizedHeight : Z;
  finalizedBlockHash : string;
}.

Definition isValid (m : t) : bool :=
  isSafeSyncScalar (networkId m) && isSafeSyncScalar (chainId m) && isSafeSyncScalar (protocolVersion m) &&
  isSafeSyncScalar (latestBlockHash m) && isSafeSyncScalar (finalizedBlockHash m) &&
  (finalizedHeight m <=? latestHeight m).

Definition peerIsAheadOf (m : t) (localHeight : Z) : bool := isValid m && (localHeight <? latestHeight m).
End ChainStatus.
Abbreviation ChainStatusMessage := ChainStatus.t.

Module BlockLocator.
Definition MAX_KNOWN_ANCESTOR_HASHES : Z := 64.
Record t := mk { fromHeight : Z; maxBlocks : Z; knownAncestorHashes : list string }.

Definition isValid (l : t) : bool :=
  if (maxBlocks l =? 0) || (1024 <? maxBlocks l) || bool_decide (knownAncestorHashes l = []) ||
     (MAX_KNOWN_ANCESTOR_HASHES <? Z.of_nat (length (knownAncestorHashes l))) then false
  else forallb isSafeSyncScalar (knownAncestorHashes l).
End BlockLocator.

Module SyncRequest.
Record t := mk { requesterNodeId : string; locator : BlockLocator.t; createdAt : Z }.

Definition isValid (r : t) : bool :=
  isSafeSyncScalar (requesterNodeId r) && BlockLocator.isValid (locator r) && (0 <? createdAt r).
End SyncRequest.
Abbreviation NetworkBlockSyncRequest := SyncRequest.t.

Module RoundAdvance.
Record t := mk { height : Z; round : Z; proposerAddress : string; createdAt : Z }.

Definition isValid (m : t) : bool :=
  (0 <? height m) && (0 <? round m) && isSafeSyncScalar (proposerAddress m) && (0 <? createdAt m).
End RoundAdvance.
Abbreviation RoundAdvanceMessage := RoundAdvance.t.

Module TransportMessage.
Record t := mk {
  fromNodeId : string;
  toNodeId : string;
  envelope : NetworkEnvelope;
  sentAt : Z;
  connectionId : Z;
}.

Definition isSafeNodeId (value : string) : bool := SafeScalar.isSafeIdentifier value 160 "_-.:/".

Definition isValid `{Sha256} (m : t) : bool :=
  isSafeNodeId (fromNodeId m) && isSafeNodeId (toNodeId m) &&
  negb (String.eqb (fromNodeId m) (toNodeId m)) && (0 <? sentAt m) &&
  String.eqb (Envelope.senderNodeId (envelope m)) (fromNodeId m) &&
  Envelope.isStructurallyValid Envelope.MAX_NETWORK_PAYLOAD_BYTES (envelope m).
End TransportMessage.

Module MessageCodec.
Import Writer Reader.

Definition CODEC_VERSION : string := "NODO_CANONICAL_PROTOCOL_V1".
Definition MAX_PROTOCOL_FIELD_BYTES : Z := 16 * 1024 * 1024.

Definition writeHeader (typeName : string) : M Writer.t unit :=
  writeString CODEC_VERSION;; writeString typeName.

Definition readHeader (expectedType : string) : M Reader.t unit :=
  version ← readString;
  type ← readString;
  lift (throw_if (negb (String.eqb version CODEC_VERSION))
    (runtime_error "Unsupported canonical protocol codec version."));;
  lift (throw_if (negb (String.eqb type expectedType))
    (runtime_error "Unexpected canonical protocol message type.")).

Definition encodeMessageType (t : NetworkMessageType) : Z :=
  default 0 (Z.of_nat <$> (fst <$> list_find (λ u, u = t) messageTypes)).

Definition decodeMessageType (value : Z) : NetworkMessageType :=
  if encodeMessageType MSG_SLASHING_EVIDENCE_RESPONSE <? value then MSG_UNKNOWN
  else default MSG_UNKNOWN (messageTypes !! Z.to_nat value).

Definition writeEnvelope (e : NetworkEnvelope) : M Writer.t unit :=
  writeHeader "NetworkEnvelope";;
  writeString (Envelope.networkId e);;
  writeString (Envelope.chainId e);;
  writeString (Envelope.protocolVersion e);;
  writeUInt32 (encodeMessageType (Envelope.messageType e));;
  writeString (Envelope.senderNodeId e);;
  writeInt64 (Envelope.createdAt e);;
  writeUInt32 (Envelope.ttlSeconds e);;
  writeString (Envelope.payload e).
Definition encodeNetworkEnvelope (e : NetworkEnvelope) : result (list Z) := Writer.bytes (writeEnvelope e).

Definition readEnvelope `{Sha256} : M Reader.t NetworkEnvelope :=
  readHeader "NetworkEnvelope";;
  networkId ← readString;
  chainId ← readString;
  protocolVersion ← readString;
  messageType ← readUInt32;
  senderNodeId ← readString;
  createdAt ← readInt64;
  ttlSeconds ← readUInt32;
  payload ← readString;
  requireFullyConsumed;;
  mret (Envelope.make networkId chainId protocolVersion (decodeMessageType messageType) senderNodeId createdAt
          ttlSeconds payload).
Definition decodeNetworkEnvelope `{Sha256} (bytes : list Z) : result NetworkEnvelope :=
  parse bytes MAX_PROTOCOL_FIELD_BYTES readEnvelope.

Definition writeChainStatus (m : ChainStatusMessage) : M Writer.t unit :=
  writeHeader "ChainStatusMessage";;
  writeString (ChainStatus.networkId m);;
  writeString (ChainStatus.chainId m);;
  writeString (ChainStatus.protocolVersion m);;
  writeUInt64 (ChainStatus.latestHeight m);;
  writeString (ChainStatus.latestBlockHash m);;
  writeUInt64 (ChainStatus.finalizedHeight m);;
  writeString (ChainStatus.finalizedBlockHash m).
Definition encodeChainStatusMessage (m : ChainStatusMessage) : result (list Z) := Writer.bytes (writeChainStatus m).

Definition readChainStatus : M Reader.t ChainStatusMessage :=
  readHeader "ChainStatusMessage";;
  networkId ← readString;
  chainId ← readString;
  protocolVersion ← readString;
  latestHeight ← readUInt64;
  latestBlockHash ← readString;
  finalizedHeight ← readUInt64;
  finalizedBlockHash ← readString;
  requireFullyConsumed;;
  mret (ChainStatus.mk networkId chainId protocolVersion latestHeight latestBlockHash finalizedHeight
          finalizedBlockHash).
Definition decodeChainStatusMessage (bytes : list Z) : result ChainStatusMessage :=
  parse bytes MAX_PROTOCOL_FIELD_BYTES readChainStatus.

Definition writeLocator (l : BlockLocator.t) : M Writer.t unit :=
  writeHeader "BlockLocator";;
  writeUInt64 (BlockLocator.fromHeight l);;
  writeUInt64 (BlockLocator.maxBlocks l);;
  writeUInt32 (Z.of_nat (length (BlockLocator.knownAncestorHashes l)));;
  for_each writeString (BlockLocator.knownAncestorHashes l).
Definition encodeBlockLocator (l : BlockLocator.t) : result (list Z) :=
  if negb (BlockLocator.isValid l) then
    Throw (invalid_argument "Invalid block locator rejected by canonical codec.")
  else Writer.bytes (writeLocator l).

Definition readLocator : M Reader.t BlockLocator.t :=
  readHeader "BlockLocator";;
  fromHeight ← readUInt64;
  maxBlocks ← readUInt64;
  hashCount ← readUInt32;
  lift (throw_if ((hashCount =? 0) || (BlockLocator.MAX_KNOWN_ANCESTOR_HASHES <? hashCount))
    (length_error "Canonical block locator hash count is invalid."));;
  hashes ← readList (Z.to_nat hashCount) readString;
  requireFullyConsumed;;
  let locator := BlockLocator.mk fromHeight maxBlocks hashes in
  lift (throw_if (negb (BlockLocator.isValid locator))
    (runtime_error "Decoded canonical block locator is invalid."));;
  mret locator.
Definition decodeBlockLocator (bytes : list Z) : result BlockLocator.t :=
  parse bytes MAX_PROTOCOL_FIELD_BYTES readLocator.

Definition encodeNetworkBlockSyncRequest (r : NetworkBlockSyncRequest) : result (list Z) :=
  Writer.bytes (
    writeHeader "NetworkBlockSyncRequest";;
    writeString (SyncRequest.requesterNodeId r);;
    locator ← lift (encodeBlockLocator (SyncRequest.locator r));
    writeBytes locator;;
    writeInt64 (SyncRequest.createdAt r)).

Definition readSyncRequest : M Reader.t NetworkBlockSyncRequest :=
  readHeader "NetworkBlockSyncRequest";;
  requesterNodeId ← readString;
  bytes ← readBytes;
  locator ← lift (decodeBlockLocator bytes);
  createdAt ← readInt64;
  requireFullyConsumed;;
  mret (SyncRequest.mk requesterNodeId locator createdAt).
Definition decodeNetworkBlockSyncRequest (bytes : list Z) : result NetworkBlockSyncRequest :=
  parse bytes MAX_PROTOCOL_FIELD_BYTES readSyncRequest.

Definition writeRoundAdvance (m : RoundAdvanceMessage) : M Writer.t unit :=
  writeHeader "RoundAdvanceMessage";;
  writeUInt64 (RoundAdvance.height m);;
  writeUInt64 (RoundAdvance.round m);;
  writeString (RoundAdvance.proposerAddress m);;
  writeInt64 (RoundAdvance.createdAt m).
Definition encodeRoundAdvanceMessage (m : RoundAdvanceMessage) : result (list Z) :=
  if negb (RoundAdvance.isValid m) then
    Throw (invalid_argument "Invalid round advance message rejected by canonical codec.")
  else Writer.bytes (writeRoundAdvance m).

Definition readRoundAdvance : M Reader.t RoundAdvanceMessage :=
  readHeader "RoundAdvanceMessage";;
  height ← readUInt64;
  round ← readUInt64;
  proposerAddress ← readString;
  createdAt ← readInt64;
  requireFullyConsumed;;
  let message := RoundAdvance.mk height round proposerAddress createdAt in
  lift (throw_if (negb (RoundAdvance.isValid message))
    (runtime_error "Canonical round advance message is invalid."));;
  mret message.
Definition decodeRoundAdvanceMessage (bytes : list Z) : result RoundAdvanceMessage :=
  parse bytes MAX_PROTOCOL_FIELD_BYTES readRoundAdvance.

(** [CanonicalHash::hashBytes] and the digests of the encoded messages. *)
Definition canonicalHashBytes `{Sha256} (bytes : list Z) (domain : string) : result string :=
  canonical ← Writer.bytes (writeString domain;; writeBytes bytes);
  Ok (Hash.c_str (Hash.nodo_hash_bytes (Bytes.to_string canonical))).

Definition hashNetworkEnvelope `{Sha256} (e : NetworkEnvelope) : result string :=
  bytes ← encodeNetworkEnvelope e; canonicalHashBytes bytes "NODO_NETWORK_ENVELOPE_CANONICAL_HASH_V1".
Definition hashChainStatusMessage `{Sha256} (m : ChainStatusMessage) : result string :=
  bytes ← encodeChainStatusMessage m; canonicalHashBytes bytes "NODO_CHAIN_STATUS_CANONICAL_HASH_V1".
Definition hashBlockLocator `{Sha256} (l : BlockLocator.t) : result string :=
  bytes ← encodeBlockLocator l; canonicalHashBytes bytes "NODO_BLOCK_LOCATOR_CANONICAL_HASH_V1".
Definition hashNetworkBlockSyncRequest `{Sha256} (r : NetworkBlockSyncRequest) : result string :=
  bytes ← encodeNetworkBlockSyncRequest r;
  canonicalHashBytes bytes "NODO_NETWORK_BLOCK_SYNC_REQUEST_CANONICAL_HASH_V1".
Definition hashRoundAdvanceMessage `{Sha256} (m : RoundAdvanceMessage) : result string :=
  bytes ← encodeRoundAdvanceMessage m; canonicalHashBytes bytes "NODO_ROUND_ADVANCE_CANONICAL_HASH_V1".
End MessageCodec.

Module FrameCodec.
Import Writer Reader.
Definition MAX_FRAME_BYTES : Z := 5 * 1024 * 1024.
Definition FRAME_VERSION : string := "NODO_TRANSPORT_FRAME_V1".
Definition TCP_TRANSPORT_FRAME_VERSION : string := "NODO_TCP_TRANSPORT_MESSAGE_V1".

Definition encodeFrame (e : NetworkEnvelope) : result (list Z) :=
  encoded ← MessageCodec.encodeNetworkEnvelope e;
  if bool_decide (encoded = []) || (MAX_FRAME_BYTES <? Bytes.size encoded) then
    Throw (runtime_error "Network envelope frame size is invalid.")
  else Writer.bytes (writeString FRAME_VERSION;; writeBytes encoded).

Section frames.
Context `{Sha256}.

Definition decodeFrame (frame : list Z) : result NetworkEnvelope :=
  if bool_decide (frame = []) || (MAX_FRAME_BYTES + 128 <? Bytes.size frame) then
    Throw (runtime_error "Transport frame size is invalid.")
  else
    parse frame MAX_FRAME_BYTES (
      version ← readString;
      lift (throw_if (negb (String.eqb version FRAME_VERSION))
        (runtime_error "Unsupported transport frame version."));;
      encoded ← readBytes;
      requireFullyConsumed;;
      lift (MessageCodec.decodeNetworkEnvelope encoded)).

Definition isValidFrame (frame : list Z) : bool :=
  match decodeFrame frame with
  | Ok e => Envelope.isStructurallyValid Envelope.MAX_NETWORK_PAYLOAD_BYTES e
  | Throw _ => false
  end.

Definition encodeTransportMessage (m : TransportMessage.t) : result (list Z) :=
  if negb (TransportMessage.isValid m) then
    Throw (runtime_error "Cannot encode invalid TCP transport message.")
  else
    Writer.bytes (
      writeString TCP_TRANSPORT_FRAME_VERSION;;
      writeString (TransportMessage.fromNodeId m);;
      writeString (TransportMessage.toNodeId m);;
      writeInt64 (TransportMessage.sentAt m);;
      envelope ← lift (MessageCodec.encodeNetworkEnvelope (TransportMessage.envelope m));
      writeBytes envelope).

(** [reader.requireFullyConsumed()] comes after the envelope was decoded. *)
Definition decodeTransportMessage (bytes : list Z) : result TransportMessage.t :=
  if bool_decide (bytes = []) || (MAX_FRAME_BYTES <? Bytes.size bytes) then
    Throw (runtime_error "TCP transport frame size is invalid.")
  else
    parse bytes MAX_FRAME_BYTES (
      version ← readString;
      lift (throw_if (negb (String.eqb version TCP_TRANSPORT_FRAME_VERSION))
        (runtime_error "Unsupported TCP transport frame version."));;
      fromNodeId ← readString;
      toNodeId ← readString;
      sentAt ← readInt64;
      envelopeBytes ← readBytes;
      envelope ← lift (MessageCodec.decodeNetworkEnvelope envelopeBytes);
      requireFullyConsumed;;
      let message := TransportMessage.mk fromNodeId toNodeId envelope sentAt 0 in
      lift (throw_if (negb (TransportMessage.isValid message))
        (runtime_error "Decoded TCP transport message is invalid."));;
      mret message).

Definition isValidTransportMessageFrame (bytes : list Z) : bool :=
  match decodeTransportMessage bytes with Ok _ => true | Throw _ => false end.
End frames.
End FrameCodec.

Module ChainStatusGossip.
Definition CANONICAL_PAYLOAD_PREFIX : string := "NODO_CANONICAL_PROTOCOL_HEX_V1:".

Definition encode (status : ChainStatusMessage) : string :=
  if negb (ChainStatus.isValid status) then ""
  else match MessageCodec.encodeChainStatusMessage status with
       | Ok bytes => CANONICAL_PAYLOAD_PREFIX +:+ Hex.hexEncode bytes
       | Throw _ => ""
       end.

Definition decode (payload : string) : option ChainStatusMessage :=
  if negb (String.prefix CANONICAL_PAYLOAD_PREFIX payload) then None
  else
    let encoded := String.substring (String.length CANONICAL_PAYLOAD_PREFIX) (String.length payload) payload in
    if negb (Hex.isHexString encoded) then None
    else match Hex.hexDecode encoded ≫= MessageCodec.decodeChainStatusMessage with
         | Ok status => if ChainStatus.isValid status then Some status else None
         | Throw _ => None
         end.
End ChainStatusGossip.

(** ** Lemmas on the message codecs *)

Module MessageFacts.
Import EncodingFacts CodecFacts Fields MessageCodec Writer Reader.

Lemma safe_size s n extra : SafeScalar.isSafeIdentifier s n extra = true → string_size s ≤ n.
Proof. unfold SafeScalar.isSafeIdentifier. destruct (empty_string s); [done|]. destruct (n <? string_size s) eqn:E; [done|lia]. Qed.

(** Texts that every field limit of the codecs allows. *)
Definition text (s : string) : Prop := string_size s ≤ Envelope.MAX_NETWORK_PAYLOAD_BYTES.

Lemma text_fits s max : text s → Envelope.MAX_NETWORK_PAYLOAD_BYTES ≤ max → fits writeString readString max s.
Proof. unfold text, Envelope.MAX_NETWORK_PAYLOAD_BYTES, fits; simpl. unfold u32_max. lia. Qed.

Definition header_image (typeName : string) : list Z :=
  image writeString readString CODEC_VERSION ++ image writeString readString typeName.

Section header.
Context (typeName : string) (Ht : text typeName).

Lemma header_writes : writes (writeHeader typeName) (header_image typeName).
Proof using Ht.
  apply writes_bind; apply (codec_writes (read := readString) MAX_PROTOCOL_FIELD_BYTES); [done|].
  apply text_fits; [done|]. unfold Envelope.MAX_NETWORK_PAYLOAD_BYTES, MAX_PROTOCOL_FIELD_BYTES. lia.
Qed.

Lemma header_reads : reads (readHeader typeName) MAX_PROTOCOL_FIELD_BYTES (header_image typeName) tt.
Proof using Ht.
  apply reads_bind with CODEC_VERSION; [by apply codec_reads|].
  rewrite <- (app_nil_r (image _ _ typeName)). apply reads_bind with typeName.
  - apply codec_reads, text_fits; [done|]. unfold Envelope.MAX_NETWORK_PAYLOAD_BYTES, MAX_PROTOCOL_FIELD_BYTES. lia.
  - rewrite !String.eqb_refl. eapply reads_lift; [done|]. apply reads_ret.
Qed.

Lemma header_bytes : Forall byte (header_image typeName).
Proof using Ht.
  apply Forall_app_2; eapply codec_bytes with MAX_PROTOCOL_FIELD_BYTES; [done|].
  apply text_fits; [done|]. unfold Envelope.MAX_NETWORK_PAYLOAD_BYTES, MAX_PROTOCOL_FIELD_BYTES. lia.
Qed.
End header.

Lemma header_consumes typeName : consumes (readHeader typeName) (λ _ _ l, l = header_image typeName).
Proof.
  unfold readHeader. eapply consumes_mono.
  - eapply consumes_bind; [apply codec_consumes|intros version]. eapply consumes_bind; [apply codec_consumes|intros type].
    eapply (consumes_lift _ _ (λ _ _ _ l, l = [] ∧ String.eqb type typeName = true)). intros [].
    intros r [] r' _ E. destruct (String.eqb type typeName) eqn:Et; [|discriminate].
    injection E as <-. exists []. change (Bytes.size []) with 0. by rewrite advance_0.
  - intros max a l (version & l1 & l2 & -> & [-> _] & type & l3 & l4 & -> & [-> _] & [] & Ev & -> & Et).
    apply String.eqb_eq in Et as ->. destruct (String.eqb version CODEC_VERSION) eqn:E; [|discriminate].
    apply String.eqb_eq in E as ->. by rewrite app_nil_r.
Qed.

Lemma decode_encode_type t : decodeMessageType (encodeMessageType t) = t.
Proof. by destruct t. Qed.

Lemma encode_type_range t : 0 ≤ encodeMessageType t < 27.
Proof. destruct t; vm_compute; split; congruence. Qed.

Lemma encode_decode_type z : 0 ≤ z → decodeMessageType z ≠ MSG_UNKNOWN → encodeMessageType (decodeMessageType z) = z.
Proof.
  intros Hz Hne. unfold decodeMessageType in *. change (encodeMessageType MSG_SLASHING_EVIDENCE_RESPONSE) with 26 in *.
  destruct (26 <? z) eqn:E; [done|].
  assert (forallb (λ z, encodeMessageType (default MSG_UNKNOWN (messageTypes !! Z.to_nat z)) =? z) (seqZ 0 27) = true)
    as Hall by (vm_compute; done). rewrite forallb_forall in Hall.
  apply Z.eqb_eq, Hall, list_elem_of_In, elem_of_seqZ. lia.
Qed.

(** *** Envelopes *)

(** The C++ types of the fields, with texts of bounded size. *)
Record envelope_typed (e : NetworkEnvelope) : Prop := {
  env_network : text (Envelope.networkId e);
  env_chain : text (Envelope.chainId e);
  env_version : text (Envelope.protocolVersion e);
  env_sender : text (Envelope.senderNodeId e);
  env_payload : text (Envelope.payload e);
  env_created : i64 (Envelope.createdAt e);
  env_ttl : u32 (Envelope.ttlSeconds e);
}.

(** The envelope the constructor builds from the fields on the wire. *)
Definition rebuilt `{Sha256} (e : NetworkEnvelope) : NetworkEnvelope :=
  Envelope.make (Envelope.networkId e) (Envelope.chainId e) (Envelope.protocolVersion e) (Envelope.messageType e)
    (Envelope.senderNodeId e) (Envelope.createdAt e) (Envelope.ttlSeconds e) (Envelope.payload e).

Definition envelope_image (e : NetworkEnvelope) : list Z :=
  header_image "NetworkEnvelope" ++ image writeString readString (Envelope.networkId e) ++
  image writeString readString (Envelope.chainId e) ++ image writeString readString (Envelope.protocolVersion e) ++
  image writeUInt32 readUInt32 (encodeMessageType (Envelope.messageType e)) ++
  image writeString readString (Envelope.senderNodeId e) ++ image writeInt64 readInt64 (Envelope.createdAt e) ++
  image writeUInt32 readUInt32 (Envelope.ttlSeconds e) ++ image writeString readString (Envelope.payload e).

(** Sizes of fields: texts, integers of their width, message types. *)
Ltac fits_field := first
  [ apply text_fits; [done|unfold Envelope.MAX_NETWORK_PAYLOAD_BYTES, MAX_PROTOCOL_FIELD_BYTES; lia]
  | assumption
  | match goal with |- context [encodeMessageType ?t] => pose proof (encode_type_range t) end;
    unfold fits; simpl; unfold u32, u32_max; lia ].

Lemma envelope_writes e : envelope_typed e → writes (writeEnvelope e) (envelope_image e).
Proof.
  intros [H1 H2 H3 H4 H5 H6 H7]. unfold writeEnvelope, envelope_image.
  apply writes_bind; [by apply header_writes|]. emit MAX_PROTOCOL_FIELD_BYTES; fits_field.
Qed.

Lemma envelope_bytes e : envelope_typed e → Forall byte (envelope_image e).
Proof.
  intros [H1 H2 H3 H4 H5 H6 H7]. apply Forall_app_2; [by apply header_bytes|].
  emit MAX_PROTOCOL_FIELD_BYTES; fits_field.
Qed.

Lemma envelope_decodes `{Sha256} e : envelope_typed e → decodeNetworkEnvelope (envelope_image e) = Ok (rebuilt e).
Proof.
  intros He. apply parse_accepts; [done|by apply envelope_bytes|]. destruct He as [H1 H2 H3 H4 H5 H6 H7].
  eapply accepts_bind; [by apply header_reads|]. accept; try fits_field. rewrite decode_encode_type. apply accepts_ret.
Qed.

Lemma envelope_encodes e : envelope_typed e → encodeNetworkEnvelope e = Ok (envelope_image e).
Proof. intros He. by apply writes_bytes, envelope_writes. Qed.

(** A decoded envelope was built by the constructor, and its bytes are the only
    ones that decode to it, unless its type is not one this node knows. *)
Lemma envelope_unique `{Sha256} bs e : Forall byte bs → decodeNetworkEnvelope bs = Ok e →
  rebuilt e = e ∧ i64 (Envelope.createdAt e) ∧ u32 (Envelope.ttlSeconds e) ∧
  (Envelope.messageType e ≠ MSG_UNKNOWN → bs = envelope_image e).
Proof.
  intros Hb E. unfold decodeNetworkEnvelope in E. eapply parse_finishes in E; [|exact Hb|].
  2: { unfold readEnvelope. eapply finishes_bind; [apply header_consumes|intros ?]. finish. }
  cbv beta in E. open_fields E. subst e. split; [reflexivity|].
  split; [exact Hfits4|]. split; [exact Hfits5|]. intros Ht. rewrite app_nil_r. rewrite <- (encode_decode_type x3 (proj1 Hfits2) Ht) at 1. destruct x. reflexivity.
Qed.

Lemma valid_typed `{Sha256} e : Envelope.isStructurallyValid Envelope.MAX_NETWORK_PAYLOAD_BYTES e = true →
  i64 (Envelope.createdAt e) → u32 (Envelope.ttlSeconds e) →
  envelope_typed e ∧ rebuilt e = e ∧ Envelope.messageType e ≠ MSG_UNKNOWN.
Proof.
  unfold Envelope.isStructurallyValid. intros Hv Hc Ht. rewrite !andb_true_iff in Hv.
  destruct Hv as [[[[[[[[[H1 H2] H3] H4] H5] H6] _] _] H7] H8].
  apply safe_size in H1, H2, H3, H4. apply Z.leb_le in H7. split_and!.
  - split; unfold text, Envelope.MAX_NETWORK_PAYLOAD_BYTES in *; (done || lia).
  - apply String.eqb_eq in H6. unfold Envelope.payloadHashMatches in H8. apply String.eqb_eq in H8.
    destruct e; unfold rebuilt, Envelope.make, Envelope.computeMessageId, Envelope.signingPayload in *; simpl in *.
    by rewrite <- H8, <- H6.
  - by apply negb_true_iff, bool_decide_eq_false in H5.
Qed.

(** *** Sizes *)

Lemma string_image_size s : Bytes.size (image writeString readString s) = 4 + string_size s.
Proof. unfold image; simpl. rewrite <- of_string_size. unfold Bytes.size. simpl. lia. Qed.

Lemma uint32_image_size z : Bytes.size (image writeUInt32 readUInt32 z) = 4.
Proof. done. Qed.

Lemma int64_image_size z : Bytes.size (image writeInt64 readInt64 z) = 8.
Proof. done. Qed.

Lemma bytes_image_size l : Bytes.size (image writeBytes readBytes l) = 4 + Bytes.size l.
Proof. unfold image; simpl. unfold Bytes.size. simpl. lia. Qed.

Lemma envelope_size `{Sha256} e : Envelope.isStructurallyValid Envelope.MAX_NETWORK_PAYLOAD_BYTES e = true →
  0 < Bytes.size (envelope_image e) ≤ Envelope.MAX_NETWORK_PAYLOAD_BYTES + 1024.
Proof.
  unfold Envelope.isStructurallyValid. intros Hv. rewrite !andb_true_iff in Hv.
  destruct Hv as [[[[[[[[[H1 H2] H3] H4] _] _] _] _] H7] _]. apply safe_size in H1, H2, H3, H4. apply Z.leb_le in H7.
  unfold envelope_image, header_image.
  rewrite !size_app, !string_image_size, !uint32_image_size, int64_image_size.
  change (string_size CODEC_VERSION) with 26. change (string_size "NetworkEnvelope") with 15.
  unfold string_size in *. lia.
Qed.

(** *** TCP frames *)

Import FrameCodec.

Record message_typed (m : TransportMessage.t) : Prop := {
  msg_sent : i64 (TransportMessage.sentAt m);
  msg_created : i64 (Envelope.createdAt (TransportMessage.envelope m));
  msg_ttl : u32 (Envelope.ttlSeconds (TransportMessage.envelope m));
  msg_connection : TransportMessage.connectionId m = 0;
}.

Definition message_image (m : TransportMessage.t) : list Z :=
  image writeString readString TCP_TRANSPORT_FRAME_VERSION ++
  image writeString readString (TransportMessage.fromNodeId m) ++
  image writeString readString (TransportMessage.toNodeId m) ++
  image writeInt64 readInt64 (TransportMessage.sentAt m) ++
  image writeBytes readBytes (envelope_image (TransportMessage.envelope m)).

Section frames.
Context `{Sha256} (m : TransportMessage.t).
Hypothesis Hv : TransportMessage.isValid m = true.
Hypothesis Hm : message_typed m.

Lemma message_parts :
  string_size (TransportMessage.fromNodeId m) ≤ 160 ∧ string_size (TransportMessage.toNodeId m) ≤ 160 ∧
  Envelope.isStructurallyValid Envelope.MAX_NETWORK_PAYLOAD_BYTES (TransportMessage.envelope m) = true.
Proof using Hv.
  unfold TransportMessage.isValid in Hv. rewrite !andb_true_iff in Hv.
  destruct Hv as [[[[[H1 H2] _] _] _] H3]. apply safe_size in H1, H2. done.
Qed.

Lemma message_fields : fits writeString readString MAX_FRAME_BYTES (TransportMessage.fromNodeId m) ∧
  fits writeString readString MAX_FRAME_BYTES (TransportMessage.toNodeId m) ∧
  fits writeBytes readBytes MAX_FRAME_BYTES (envelope_image (TransportMessage.envelope m)).
Proof using Hv Hm.
  destruct message_parts as (H1 & H2 & He). destruct Hm as [_ Hc Ht _].
  destruct (valid_typed _ He Hc Ht) as (Htyped & _ & _). pose proof (envelope_size _ He) as Hsz.
  unfold fits; simpl. unfold sized_fits, MAX_FRAME_BYTES, u32_max, Envelope.MAX_NETWORK_PAYLOAD_BYTES in *.
  split_and!; try lia. by apply envelope_bytes.
Qed.

Lemma message_encodes : encodeTransportMessage m = Ok (message_image m).
Proof using Hv Hm.
  unfold encodeTransportMessage. rewrite Hv. cbn [negb]. apply writes_bytes.
  destruct message_parts as (_ & _ & He). destruct Hm as [Hs Hc Ht _].
  destruct (valid_typed _ He Hc Ht) as (Htyped & _ & _). destruct message_fields as (F1 & F2 & F3).
  unfold message_image. emit MAX_FRAME_BYTES; try done.
  by apply envelope_encodes.
Qed.

Lemma message_size : 0 < Bytes.size (message_image m) ≤ MAX_FRAME_BYTES.
Proof using Hv Hm.
  destruct message_parts as (H1 & H2 & He). pose proof (envelope_size _ He) as Hsz.
  unfold message_image. rewrite !size_app, !string_image_size, int64_image_size, bytes_image_size.
  change (string_size TCP_TRANSPORT_FRAME_VERSION) with 29.
  unfold MAX_FRAME_BYTES, Envelope.MAX_NETWORK_PAYLOAD_BYTES, string_size in *. lia.
Qed.

Lemma message_bytes : Forall byte (message_image m).
Proof using Hv Hm.
  destruct message_fields as (F1 & F2 & F3). destruct Hm as [Hs _ _ _]. unfold message_image. by emit MAX_FRAME_BYTES.
Qed.

Lemma message_decodes : decodeTransportMessage (message_image m) = Ok m.
Proof using Hv Hm.
  pose proof message_size as Hsz. pose proof message_bytes as Hb.
  destruct message_parts as (_ & _ & He). destruct Hm as [Hs Hc Ht Hcon].
  destruct (valid_typed _ He Hc Ht) as (Htyped & Hre & _). destruct message_fields as (F1 & F2 & F3).
  unfold decodeTransportMessage. rewrite bool_decide_eq_false_2 by (intros E; rewrite E in Hsz; unfold Bytes.size in Hsz; simpl in Hsz; lia).
  replace (MAX_FRAME_BYTES <? _) with false by lia. cbn [orb]. apply parse_accepts; [done|done|].
  unfold message_image. accept; try done.
  - by rewrite (envelope_decodes _ Htyped), Hre.
  - rewrite <- Hcon. destruct m as [from to env sent con]. cbn in *. by rewrite Hv.
  - rewrite <- Hcon. destruct m. apply accepts_ret.
Qed.
End frames.

Lemma message_unique `{Sha256} bs m : Forall byte bs → decodeTransportMessage bs = Ok m →
  bs = message_image m ∧ TransportMessage.isValid m = true ∧ message_typed m.
Proof.
  unfold decodeTransportMessage. intros Hb E. destruct (bool_decide _ || _); [discriminate|].
  eapply parse_finishes in E; [|exact Hb|]; [|finish].
  cbv beta in E. open_fields E. subst m.
  apply negb_false_iff in Hcheck, Hcheck0. apply String.eqb_eq in Hcheck as ->.
  destruct (message_parts _ Hcheck0) as (_ & _ & He).
  match goal with H : decodeNetworkEnvelope _ = Ok _, F : fits writeBytes _ _ _ |- _ =>
    destruct (envelope_unique _ _ (proj2 (proj2 F)) H) as (_ & Hc & Ht & Himg) end.
  destruct (valid_typed _ He Hc Ht) as (_ & _ & Hne). rewrite (Himg Hne), app_nil_r.
  split; [reflexivity|]. split; [exact Hcheck0|]. by split.
Qed.

(** *** Chain synchronization messages *)

Lemma sync_text s : isSafeSyncScalar s = true → text s.
Proof. intros H%safe_size. unfold text, Envelope.MAX_NETWORK_PAYLOAD_BYTES. lia. Qed.

Definition status_image (m : ChainStatusMessage) : list Z :=
  header_image "ChainStatusMessage" ++ image writeString readString (ChainStatus.networkId m) ++
  image writeString readString (ChainStatus.chainId m) ++ image writeString readString (ChainStatus.protocolVersion m) ++
  image writeUInt64 readUInt64 (ChainStatus.latestHeight m) ++
  image writeString readString (ChainStatus.latestBlockHash m) ++
  image writeUInt64 readUInt64 (ChainStatus.finalizedHeight m) ++
  image writeString readString (ChainStatus.finalizedBlockHash m).

Lemma status_codes m : ChainStatus.isValid m = true → u64 (ChainStatus.latestHeight m) →
  u64 (ChainStatus.finalizedHeight m) →
  encodeChainStatusMessage m = Ok (status_image m) ∧ Forall byte (status_image m) ∧
  decodeChainStatusMessage (status_image m) = Ok m.
Proof.
  unfold ChainStatus.isValid. rewrite !andb_true_iff. intros [[[[[H1 H2] H3] H4] H5] _] Hl Hf.
  apply sync_text in H1, H2, H3, H4, H5.
  assert (Forall byte (status_image m)) as Hb.
  { apply Forall_app_2; [by apply header_bytes|]. emit MAX_PROTOCOL_FIELD_BYTES; fits_field. }
  split_and!; [|exact Hb|].
  - apply writes_bytes, writes_bind; [by apply header_writes|]. emit MAX_PROTOCOL_FIELD_BYTES; fits_field.
  - apply parse_accepts; [done|exact Hb|]. eapply accepts_bind; [by apply header_reads|]. accept; try fits_field.
    destruct m. apply accepts_ret.
Qed.

Lemma status_unique bs m : Forall byte bs → decodeChainStatusMessage bs = Ok m →
  bs = status_image m ∧ u64 (ChainStatus.latestHeight m) ∧ u64 (ChainStatus.finalizedHeight m).
Proof.
  intros Hb E. unfold decodeChainStatusMessage in E. eapply parse_finishes in E; [|exact Hb|].
  2: { unfold readChainStatus. eapply finishes_bind; [apply header_consumes|intros ?]. finish. }
  cbv beta in E. open_fields E. subst m. rewrite app_nil_r. split; [destruct x; reflexivity|].
  split; [exact Hfits2|exact Hfits4].
Qed.

Definition advance_image (m : RoundAdvanceMessage) : list Z :=
  header_image "RoundAdvanceMessage" ++ image writeUInt64 readUInt64 (RoundAdvance.height m) ++
  image writeUInt64 readUInt64 (RoundAdvance.round m) ++
  image writeString readString (RoundAdvance.proposerAddress m) ++
  image writeInt64 readInt64 (RoundAdvance.createdAt m).

Lemma round_codes m : RoundAdvance.isValid m = true → u64 (RoundAdvance.height m) → u64 (RoundAdvance.round m) →
  i64 (RoundAdvance.createdAt m) →
  encodeRoundAdvanceMessage m = Ok (advance_image m) ∧ decodeRoundAdvanceMessage (advance_image m) = Ok m.
Proof.
  intros Hv Hh Hr Hc. pose proof Hv as Hv'. unfold RoundAdvance.isValid in Hv'. rewrite !andb_true_iff in Hv'.
  destruct Hv' as [[[_ _] H1%sync_text] _].
  assert (Forall byte (advance_image m)) as Hb.
  { apply Forall_app_2; [by apply header_bytes|]. emit MAX_PROTOCOL_FIELD_BYTES; fits_field. }
  split.
  - unfold encodeRoundAdvanceMessage. rewrite Hv. cbn [negb].
    apply writes_bytes, writes_bind; [by apply header_writes|]. emit MAX_PROTOCOL_FIELD_BYTES; fits_field.
  - apply parse_accepts; [done|exact Hb|]. eapply accepts_bind; [by apply header_reads|]. accept; try fits_field.
    + destruct m. cbn in *. by rewrite Hv.
    + destruct m. apply accepts_ret.
Qed.

Lemma round_unique bs m : Forall byte bs → decodeRoundAdvanceMessage bs = Ok m →
  bs = advance_image m ∧ RoundAdvance.isValid m = true ∧ u64 (RoundAdvance.height m) ∧ u64 (RoundAdvance.round m) ∧
  i64 (RoundAdvance.createdAt m).
Proof.
  intros Hb E. unfold decodeRoundAdvanceMessage in E. eapply parse_finishes in E; [|exact Hb|].
  2: { unfold readRoundAdvance. eapply finishes_bind; [apply header_consumes|intros ?]. finish. }
  cbv beta in E. open_fields E. subst m. rewrite app_nil_r. apply negb_false_iff in Hcheck.
  split; [destruct x; reflexivity|]. split; [exact Hcheck|]. split; [exact Hfits|]. split; [exact Hfits0|exact Hfits2].
Qed.

Definition locator_image (l : BlockLocator.t) : list Z :=
  header_image "BlockLocator" ++ image writeUInt64 readUInt64 (BlockLocator.fromHeight l) ++
  image writeUInt64 readUInt64 (BlockLocator.maxBlocks l) ++
  image writeUInt32 readUInt32 (Z.of_nat (length (BlockLocator.knownAncestorHashes l))) ++
  list_image writeString readString (BlockLocator.knownAncestorHashes l).

Lemma locator_shape l : BlockLocator.isValid l = true →
  (0 < length (BlockLocator.knownAncestorHashes l) ≤ 64)%nat ∧
  Forall (λ h, string_size h ≤ 200) (BlockLocator.knownAncestorHashes l).
Proof.
  unfold BlockLocator.isValid. intros Hv. destruct (_ || _) eqn:E; [discriminate|].
  rewrite !orb_false_iff in E. destruct E as [[[_ _] Hne] Hlen]. apply bool_decide_eq_false in Hne.
  unfold BlockLocator.MAX_KNOWN_ANCESTOR_HASHES in Hlen. split.
  - apply Z.ltb_ge in Hlen. destruct (BlockLocator.knownAncestorHashes l); [done|]. cbn [length] in *. lia.
  - rewrite forallb_forall in Hv. apply Forall_forall. intros h Hh. apply (safe_size h 200 "_-.:/"), Hv, list_elem_of_In, Hh.
Qed.

Lemma locator_typed l : BlockLocator.isValid l = true →
  u32 (Z.of_nat (length (BlockLocator.knownAncestorHashes l))) ∧
  Forall (fits writeString readString MAX_PROTOCOL_FIELD_BYTES) (BlockLocator.knownAncestorHashes l).
Proof.
  intros Hv. destruct (locator_shape l Hv) as [Hn Hs]. split; [unfold u32, u32_max; lia|].
  eapply Forall_impl; [exact Hs|]. intros h Hh. cbv beta in Hh. unfold fits; simpl.
  unfold MAX_PROTOCOL_FIELD_BYTES, u32_max. lia.
Qed.

Lemma locator_bytes l : BlockLocator.isValid l = true → Forall byte (locator_image l).
Proof.
  intros Hv. destruct (locator_typed l Hv) as [Hn Hf].
  apply Forall_app_2; [by apply header_bytes|]. repeat (apply Forall_app_2; [apply be_bytes|]).
  unfold list_image. clear Hn Hv. induction Hf as [|h hs Hh _ IH]; [constructor|].
  apply Forall_app_2; [by apply (codec_bytes MAX_PROTOCOL_FIELD_BYTES)|exact IH].
Qed.

Lemma locator_codes l : BlockLocator.isValid l = true → u64 (BlockLocator.fromHeight l) → u64 (BlockLocator.maxBlocks l) →
  encodeBlockLocator l = Ok (locator_image l) ∧ decodeBlockLocator (locator_image l) = Ok l.
Proof.
  intros Hv Hh Hm. destruct (locator_typed l Hv) as [Hn Hf]. destruct (locator_shape l Hv) as [Hlen _]. split.
  - unfold encodeBlockLocator. rewrite Hv. cbn [negb].
    apply writes_bytes, writes_bind; [by apply header_writes|].
    repeat (apply writes_bind; [apply (codec_writes MAX_PROTOCOL_FIELD_BYTES); assumption|]).
    by apply (list_writes writeString readString MAX_PROTOCOL_FIELD_BYTES).
  - apply parse_accepts; [done|by apply locator_bytes|]. eapply accepts_bind; [by apply header_reads|].
    do 3 (eapply accepts_bind; [apply codec_reads; assumption|]).
    eapply accepts_lift.
    { unfold BlockLocator.MAX_KNOWN_ANCESTOR_HASHES. replace (_ || _) with false; [reflexivity|lia]. }
    eapply accepts_last; [rewrite Nat2Z.id; by apply list_reads|]. apply accepts_end. cbv zeta.
    destruct l as [from max hashes]. cbn [BlockLocator.fromHeight BlockLocator.maxBlocks BlockLocator.knownAncestorHashes].
    rewrite Hv. eapply accepts_lift; [reflexivity|apply accepts_ret].
Qed.

Lemma locator_unique bs l : Forall byte bs → decodeBlockLocator bs = Ok l →
  bs = locator_image l ∧ BlockLocator.isValid l = true ∧ u64 (BlockLocator.fromHeight l) ∧ u64 (BlockLocator.maxBlocks l).
Proof.
  intros Hb E. unfold decodeBlockLocator in E. eapply parse_finishes in E; [|exact Hb|].
  2: { unfold readLocator. eapply finishes_bind; [apply header_consumes|intros ?].
       do 3 (eapply finishes_bind; [apply codec_consumes|intros ?]). eapply finishes_lift; intros ?.
       eapply finishes_bind; [apply list_consumes|intros ?]. finish. }
  cbv beta in E. open_fields E.
  destruct Hfits2 as [Hlen _]. subst l. apply negb_false_iff in Hcheck0. rewrite app_nil_r. unfold locator_image.
  cbn [BlockLocator.fromHeight BlockLocator.maxBlocks BlockLocator.knownAncestorHashes].
  rewrite Hlen, Z2Nat.id by apply Hfits1. split; [destruct x; reflexivity|]. done.
Qed.

Definition request_image (r : NetworkBlockSyncRequest) : list Z :=
  header_image "NetworkBlockSyncRequest" ++ image writeString readString (SyncRequest.requesterNodeId r) ++
  image writeBytes readBytes (locator_image (SyncRequest.locator r)) ++
  image writeInt64 readInt64 (SyncRequest.createdAt r).

Lemma list_image_size n hs : Forall (λ h, string_size h ≤ n) hs →
  Bytes.size (list_image writeString readString hs) ≤ (4 + n) * Z.of_nat (length hs).
Proof.
  unfold list_image. induction 1 as [|h hs Hh _ IH].
  { change (Bytes.size _) with 0. cbn [length]. lia. }
  rewrite fmap_cons. change (mjoin (_ :: _)) with (image writeString readString h ++ mjoin (image writeString readString <$> hs)). cbn [length]. rewrite size_app, string_image_size, Nat2Z.inj_succ, Z.mul_succ_r. lia.
Qed.

Lemma locator_size l : BlockLocator.isValid l = true → Bytes.size (locator_image l) ≤ 16384.
Proof.
  intros Hv. destruct (locator_shape l Hv) as [Hn Hs]. apply list_image_size in Hs. unfold locator_image, header_image.
  rewrite !size_app, !string_image_size. change (string_size CODEC_VERSION) with 26.
  change (string_size "BlockLocator") with 12. change (Bytes.size (image writeUInt32 _ _)) with 4.
  change (Bytes.size (image writeUInt64 _ _)) with 8. lia.
Qed.

Lemma request_codes r : SyncRequest.isValid r = true → u64 (BlockLocator.fromHeight (SyncRequest.locator r)) →
  u64 (BlockLocator.maxBlocks (SyncRequest.locator r)) → i64 (SyncRequest.createdAt r) →
  encodeNetworkBlockSyncRequest r = Ok (request_image r) ∧ decodeNetworkBlockSyncRequest (request_image r) = Ok r.
Proof.
  unfold SyncRequest.isValid. rewrite !andb_true_iff. intros [[Hr%sync_text Hl] _] Hf Hm Hc.
  destruct (locator_codes _ Hl Hf Hm) as [Henc Hdec].
  assert (fits writeBytes readBytes MAX_PROTOCOL_FIELD_BYTES (locator_image (SyncRequest.locator r))) as Hfit.
  { pose proof (locator_size _ Hl). unfold fits; simpl. unfold sized_fits, MAX_PROTOCOL_FIELD_BYTES, u32_max.
    split_and!; [lia|lia|by apply locator_bytes]. }
  split.
  - apply writes_bytes, writes_bind; [by apply header_writes|]. emit MAX_PROTOCOL_FIELD_BYTES; try fits_field.
  - apply parse_accepts; [done| |].
    + apply Forall_app_2; [by apply header_bytes|]. emit MAX_PROTOCOL_FIELD_BYTES; fits_field.
    + eapply accepts_bind; [by apply header_reads|]. accept; try fits_field; [exact Hdec|]. destruct r. apply accepts_ret.
Qed.

Lemma request_unique bs r : Forall byte bs → decodeNetworkBlockSyncRequest bs = Ok r →
  bs = request_image r ∧ BlockLocator.isValid (SyncRequest.locator r) = true ∧
  u64 (BlockLocator.fromHeight (SyncRequest.locator r)) ∧ u64 (BlockLocator.maxBlocks (SyncRequest.locator r)) ∧
  i64 (SyncRequest.createdAt r).
Proof.
  intros Hb E. unfold decodeNetworkBlockSyncRequest in E. eapply parse_finishes in E; [|exact Hb|].
  2: { unfold readSyncRequest. eapply finishes_bind; [apply header_consumes|intros ?]. finish. }
  cbv beta in E. open_fields E. subst r. rewrite app_nil_r.
  destruct (locator_unique _ _ (proj2 (proj2 Hfits0)) Hok) as (-> & Hv & Hf & Hm).
  split; [destruct x; reflexivity|]. done.
Qed.

(** *** Chain status gossip *)

Lemma lower_hex_is_hex s : SafeScalar.all_chars Address.is_lower_hex s = true → SafeScalar.all_chars Hex.is_hex_char s = true.
Proof.
  induction s as [|c s IH]; [done|]. simpl. rewrite !andb_true_iff. intros [Hc Hs]. split; [|by apply IH].
  unfold Address.is_lower_hex, Hex.is_hex_char in *. lia.
Qed.

Lemma gossip_roundtrip m : ChainStatus.isValid m = true → u64 (ChainStatus.latestHeight m) →
  u64 (ChainStatus.finalizedHeight m) → ChainStatusGossip.decode (ChainStatusGossip.encode m) = Some m.
Proof.
  intros Hv Hl Hf. destruct (status_codes m Hv Hl Hf) as (Henc & Hb & Hdec).
  unfold ChainStatusGossip.encode, ChainStatusGossip.decode. rewrite Hv, Henc. cbn [negb].
  rewrite SafeScalar.prefix_app. cbn [negb].
  rewrite CryptoFacts.substring_append_r by (rewrite CryptoFacts.length_append; lia).
  assert (string_size (Hex.hexEncode (status_image m)) = 2 * Bytes.size (status_image m)) as Hsz
    by (unfold string_size, Bytes.size; rewrite CryptoFacts.hexEncode_length; lia).
  assert (0 < Bytes.size (status_image m)) as Hpos.
  { unfold status_image, header_image. rewrite !size_app, !string_image_size. unfold string_size.
    change (Bytes.size (image writeUInt64 _ _)) with 8. lia. }
  assert (empty_string (Hex.hexEncode (status_image m)) = false) as Hne.
  { apply empty_string_false. intros E. rewrite E in Hsz. unfold string_size in Hsz. simpl in Hsz. lia. }
  unfold Hex.isHexString, Hex.hexDecode. rewrite Hne, Hsz, Z.mul_comm, Z.mod_mul by lia. cbn [orb negb Z.eqb].
  rewrite lower_hex_is_hex by (by apply CryptoFacts.hexEncode_lower). cbn [negb].
  rewrite CryptoFacts.hexEncode_decode by exact Hb. cbn [mbind result_bind]. by rewrite Hdec, Hv.
Qed.
End MessageFacts.

(** ** What the wire format promises *)

Module MessageProperties.
Import EncodingFacts MessageCodec FrameCodec MessageFacts.

(** C26. TCP frames are canonical: a byte vector decodes to a transport message
    exactly when it is that message's encoding.  Every valid message fits in a
    frame and comes back unchanged, with its id recomputed and equal; no second
    byte string decodes to it. *)
Theorem tcp_frames_canonical `{Sha256} (bs : list Z) (m : TransportMessage.t) :
  Forall byte bs →
  decodeTransportMessage bs = Ok m ↔ encodeTransportMessage m = Ok bs ∧ message_typed m.
Proof.
  intros Hb. split.
  - intros E. destruct (message_unique _ _ Hb E) as (-> & Hv & Hm). by rewrite message_encodes.
  - intros [E Hm]. destruct (TransportMessage.isValid m) eqn:Hv.
    + rewrite message_encodes in E by done. injection E as <-. by apply message_decodes.
    + unfold encodeTransportMessage in E. by rewrite Hv in E.
Qed.

(** Synchronization messages are canonical: a valid block request, chain status
    or round message is decoded from one byte string, its encoding. *)
Theorem sync_messages_canonical (bs : list Z) :
  Forall byte bs →
  (∀ r, SyncRequest.isValid r = true → u64 (BlockLocator.fromHeight (SyncRequest.locator r)) →
     u64 (BlockLocator.maxBlocks (SyncRequest.locator r)) → i64 (SyncRequest.createdAt r) →
     (decodeNetworkBlockSyncRequest bs = Ok r ↔ encodeNetworkBlockSyncRequest r = Ok bs)) ∧
  (∀ m, ChainStatus.isValid m = true → u64 (ChainStatus.latestHeight m) → u64 (ChainStatus.finalizedHeight m) →
     (decodeChainStatusMessage bs = Ok m ↔ encodeChainStatusMessage m = Ok bs)) ∧
  (∀ m, u64 (RoundAdvance.height m) → u64 (RoundAdvance.round m) → i64 (RoundAdvance.createdAt m) →
     (decodeRoundAdvanceMessage bs = Ok m ↔ encodeRoundAdvanceMessage m = Ok bs)).
Proof.
  intros Hb. split_and!.
  - intros r Hv Hf Hm Hc. destruct (request_codes r Hv Hf Hm Hc) as [Henc Hdec]. rewrite Henc. split.
    + intros E. by destruct (request_unique _ _ Hb E) as [-> _].
    + by intros [= <-].
  - intros m Hv Hl Hf. destruct (status_codes m Hv Hl Hf) as (Henc & _ & Hdec). rewrite Henc. split.
    + intros E. by destruct (status_unique _ _ Hb E) as [-> _].
    + by intros [= <-].
  - intros m Hh Hr Hc. split.
    + intros E. destruct (round_unique _ _ Hb E) as (-> & Hv & _). by apply round_codes.
    + intros E. destruct (RoundAdvance.isValid m) eqn:Hv; [|unfold encodeRoundAdvanceMessage in E; by rewrite Hv in E].
      destruct (round_codes m Hv Hh Hr Hc) as [Henc Hdec]. rewrite Henc in E. by injection E as <-.
Qed.

Lemma c_str_app p s : Hash.c_str p = p → Hash.c_str (p +:+ s) = p +:+ Hash.c_str s.
Proof.
  induction p as [|c p IH]; intros Hp; [done|]. rewrite !CryptoFacts.append_cons. simpl in *.
  destruct (Ascii.eqb c "000"); [discriminate|]. injection Hp as Hp. by rewrite IH.
Qed.

Lemma make_valid `{Sha256} network chain version type sender created ttl p max :
  Envelope.isStructurallyValid max (Envelope.make network chain version type sender created ttl p) =
  Envelope.isSafeScalar network && Envelope.isSafeScalar chain && Envelope.isSafeScalar version &&
  Envelope.isSafeScalar sender && negb (bool_decide (type = MSG_UNKNOWN)) && (0 <? created) && (0 <? ttl) &&
  (string_size p <=? max).
Proof.
  unfold Envelope.isStructurallyValid, Envelope.payloadHashMatches, Envelope.make, Envelope.computeMessageId,
    Envelope.signingPayload.
  cbn [Envelope.networkId Envelope.chainId Envelope.protocolVersion Envelope.messageType Envelope.messageId
       Envelope.senderNodeId Envelope.createdAt Envelope.ttlSeconds Envelope.payload Envelope.payloadHash].
  by rewrite !String.eqb_refl, !andb_true_r.
Qed.

(** The payload hash stops at a NUL: envelopes whose payloads agree up to their
    first NUL byte carry the same payload hash and the same message id, so the one
    is as valid as the other and is taken for its duplicate. *)
Theorem payload_hash_stops_at_nul `{Sha256} network chain version type sender created ttl (p1 p2 : string) (max : Z) :
  Hash.c_str p1 = Hash.c_str p2 → string_size p2 ≤ max →
  let e1 := Envelope.make network chain version type sender created ttl p1 in
  let e2 := Envelope.make network chain version type sender created ttl p2 in
  Envelope.payloadHash e1 = Envelope.payloadHash e2 ∧ Envelope.messageId e1 = Envelope.messageId e2 ∧
  (Envelope.isStructurallyValid max e1 = true → Envelope.isStructurallyValid max e2 = true).
Proof.
  intros Hp Hs e1 e2.
  assert (Envelope.hashPayload p1 = Envelope.hashPayload p2) as Hh
    by (unfold Envelope.hashPayload, Hash.hashCString; by rewrite !c_str_app, Hp).
  assert (Envelope.messageId e1 = Envelope.messageId e2) as Hid
    by (unfold e1, e2, Envelope.make; rewrite Hh; reflexivity).
  split; [exact Hh|]. split; [exact Hid|].
  unfold e1, e2. rewrite !make_valid. intros [Hv _]%andb_true_iff. rewrite Hv. by apply Z.leb_le.
Qed.

(** Concrete messages. *)

#[local] Instance toy : Sha256 := CryptoProperties.toy_sha256.

Definition ping : TransportMessage.t :=
  TransportMessage.mk "node-a" "node-b"
    (Envelope.make "net" "chain" "v1" MSG_PING "node-a" 1700000000 30 "hello") 1700000001 0.

Lemma ping_typed : message_typed ping.
Proof. split; try reflexivity; unfold i64, u32, i64_min, i64_max, u32_max; simpl; lia. Qed.

Lemma tcp_frames_canonical_witness : decodeTransportMessage (message_image ping) = Ok ping.
Proof.
  apply (tcp_frames_canonical (message_image ping) ping).
  - apply message_bytes; [vm_compute; reflexivity|exact ping_typed].
  - split; [apply message_encodes; [vm_compute; reflexivity|exact ping_typed]|exact ping_typed].
Defined.

Definition status : ChainStatusMessage := ChainStatus.mk "net" "chain" "v1" 9 "h9" 8 "h8".

Lemma sync_messages_canonical_witness : decodeChainStatusMessage (status_image status) = Ok status.
Proof.
  destruct (sync_messages_canonical (status_image status)) as (_ & Hs & _).
  - apply (bool_decide_unpack (Forall (λ b, 0 ≤ b < 256) (status_image status))). vm_compute. exact I.
  - apply Hs; [vm_compute; reflexivity|unfold u64, u64_max; simpl; lia..|]. vm_compute. reflexivity.
Defined.

Lemma payload_hash_stops_at_nul_witness :
  Envelope.messageId (Envelope.make "net" "chain" "v1" MSG_PING "node-a" 1700000000 30 (String "000" "x")) =
  Envelope.messageId (Envelope.make "net" "chain" "v1" MSG_PING "node-a" 1700000000 30 (String "000" "yz")).
Proof.
  apply (payload_hash_stops_at_nul "net" "chain" "v1" MSG_PING "node-a" 1700000000 30 (String "000" "x")
    (String "000" "yz") 10); [reflexivity|vm_compute; discriminate].
Defined.
End MessageProperties.
