(* ===== verification/Inbound.v ===== *)
(** * p2p: validation of inbound messages

    Models src/src/p2p/InboundMessageValidator.cpp: the policy and the validator
    with its table of seen message ids and its per-peer windows. *)

From S2P Require Import Prelude Utils Crypto Encoding Messages.

#[global] Instance NetworkMessageType_countable : Countable NetworkMessageType :=
  inj_countable' MessageCodec.encodeMessageType MessageCodec.decodeMessageType MessageFacts.decode_encode_type.

Module Policy.
Record t := mk {
  defaultPayloadBytes : Z;
  payloadBytesPerType : gmap NetworkMessageType Z;
  maxTtlSeconds : Z;
  maxClockSkewSeconds : Z;
  maxMessagesPerPeerWindow : Z;
  peerWindowSeconds : Z;
}.

Definition standard : t := mk Envelope.MAX_NETWORK_PAYLOAD_BYTES ∅ 120 30 1000 60.

Definition maxPayloadBytes (p : t) (type : NetworkMessageType) : Z :=
  default (defaultPayloadBytes p) (payloadBytesPerType p !! type).

Definition setMaxPayloadBytes (type : NetworkMessageType) (maxBytes : Z) (p : t) : t :=
  mk (defaultPayloadBytes p) (<[type := maxBytes]> (payloadBytesPerType p)) (maxTtlSeconds p)
     (maxClockSkewSeconds p) (maxMessagesPerPeerWindow p) (peerWindowSeconds p).

Definition isValid (p : t) : bool :=
  (0 <? defaultPayloadBytes p) && (0 <? maxTtlSeconds p) && (0 <=? maxClockSkewSeconds p) &&
  (0 <? maxMessagesPerPeerWindow p) && (0 <? peerWindowSeconds p).
End Policy.
Abbreviation InboundMessagePolicy := Policy.t.

Inductive InboundMessageStatus :=
| IN_ACCEPTED | IN_INVALID_POLICY | IN_INVALID_ENVELOPE | IN_WRONG_NETWORK | IN_WRONG_CHAIN | IN_WRONG_PROTOCOL
| IN_EXPIRED | IN_TTL_TOO_LARGE | IN_CLOCK_SKEW | IN_DUPLICATE_MESSAGE | IN_RATE_LIMITED.

#[global] Instance InboundMessageStatus_eq_dec : EqDecision InboundMessageStatus.
Proof. solve_decision. Defined.

Record InboundMessageResult := Inbound { in_status : InboundMessageStatus; in_reason : string }.

Module Validator.
Record PeerWindowCounter := Window { windowStartedAt : Z; count : Z }.

Record t := mk {
  policy : InboundMessagePolicy;
  seenMessageIds : gmap string Z;
  messagesByPeerInWindow : gmap string PeerWindowCounter;
  lastPruneTime : Z;
}.

Definition init (p : InboundMessagePolicy) : t := mk p ∅ ∅ 0.

Definition seenMessageCount (s : t) : Z := Z.of_nat (size (seenMessageIds s)).
Definition peerWindowCount (s : t) (sender : string) : Z :=
  match messagesByPeerInWindow s !! sender with None => 0 | Some w => count w end.

(** The condition under which a window is over. *)
Definition windowOver (p : InboundMessagePolicy) (now : Z) (w : PeerWindowCounter) : bool :=
  (windowStartedAt w <=? 0) || (now <? windowStartedAt w) ||
  (Policy.peerWindowSeconds p <? now - windowStartedAt w).

Definition pruneExpiredState (now : Z) (s : t) : t :=
  if now <=? 0 then s
  else if now - lastPruneTime s <? 5 then s
  else mk (policy s) (filter (λ e, ¬ e.2 ≤ now) (seenMessageIds s))
          (filter (λ e, windowOver (policy s) now e.2 = false) (messagesByPeerInWindow s)) now.

(** The time until which an accepted message id is remembered. *)
Definition expiresAt (p : InboundMessagePolicy) (e : NetworkEnvelope) : Z :=
  let ttlSeconds := Envelope.ttlSeconds e in
  let ttlWithSkew :=
    if i64_max - ttlSeconds <? Policy.maxClockSkewSeconds p then i64_max
    else ttlSeconds + Policy.maxClockSkewSeconds p in
  if i64_max - ttlWithSkew <? Envelope.createdAt e then i64_max else Envelope.createdAt e + ttlWithSkew.

(** The checks that do not change the validator. *)
Definition rejection `{Sha256} (p : InboundMessagePolicy) (e : NetworkEnvelope)
    (network chain version : string) (now : Z) : option InboundMessageResult :=
  if negb (Policy.isValid p) then Some (Inbound IN_INVALID_POLICY "Inbound message policy is invalid.")
  else if negb (Envelope.isStructurallyValid (Policy.maxPayloadBytes p (Envelope.messageType e)) e) then
    Some (Inbound IN_INVALID_ENVELOPE "Network envelope failed structural validation.")
  else if negb (String.eqb (Envelope.networkId e) network) then
    Some (Inbound IN_WRONG_NETWORK "Network id mismatch.")
  else if negb (String.eqb (Envelope.chainId e) chain) then Some (Inbound IN_WRONG_CHAIN "Chain id mismatch.")
  else if negb (String.eqb (Envelope.protocolVersion e) version) then
    Some (Inbound IN_WRONG_PROTOCOL "Protocol version mismatch.")
  else if Policy.maxTtlSeconds p <? Envelope.ttlSeconds e then
    Some (Inbound IN_TTL_TOO_LARGE "Message TTL exceeds local policy.")
  else if Envelope.expiredAt e now then Some (Inbound IN_EXPIRED "Message already expired.")
  else
    let delta := now - Envelope.createdAt e in
    if (delta <? 0) && (Policy.maxClockSkewSeconds p <? Z.abs delta) then
      Some (Inbound IN_CLOCK_SKEW "Message timestamp is too far in the future.")
    else None.

(** [m_messagesByPeerInWindow[sender]], reset when its window is over. *)
Definition currentWindow (s : t) (sender : string) (now : Z) : PeerWindowCounter :=
  let w := default (Window 0 0) (messagesByPeerInWindow s !! sender) in
  if windowOver (policy s) now w then Window now 0 else w.

Definition validate `{Sha256} (e : NetworkEnvelope) (network chain version : string) (now : Z)
    : M t InboundMessageResult := λ s,
  match rejection (policy s) e network chain version now with
  | Some r => (Ok r, s)
  | None =>
      let s := pruneExpiredState now s in
      if bool_decide (is_Some (seenMessageIds s !! Envelope.messageId e)) then
        (Ok (Inbound IN_DUPLICATE_MESSAGE "Duplicate message id."), s)
      else
        let sender := Envelope.senderNodeId e in
        let w := currentWindow s sender now in
        if Policy.maxMessagesPerPeerWindow (policy s) <=? count w then
          (Ok (Inbound IN_RATE_LIMITED "Peer exceeded message window policy."),
           mk (policy s) (seenMessageIds s) (<[sender := w]> (messagesByPeerInWindow s)) (lastPruneTime s))
        else
          (Ok (Inbound IN_ACCEPTED "Inbound message accepted."),
           mk (policy s) (<[Envelope.messageId e := expiresAt (policy s) e]> (seenMessageIds s))
              (<[sender := Window (windowStartedAt w) (count w + 1)]> (messagesByPeerInWindow s)) (lastPruneTime s))
  end.
End Validator.
Abbreviation InboundMessageValidator := Validator.t.

(** ** Lemmas on the validator *)

Module InboundFacts.
Import Validator.

Section validator.
Context `{Sha256}.

Definition status_of (out : result InboundMessageResult * t) : option InboundMessageStatus :=
  match out.1 with Ok r => Some (in_status r) | Throw _ => None end.

Lemma policy_kept e network chain version now s : policy (validate e network chain version now s).2 = policy s.
Proof.
  assert (policy (pruneExpiredState now s) = policy s) as Hp by (unfold pruneExpiredState; by repeat case_match).
  unfold validate. by repeat case_match.
Qed.

Lemma not_rejected p e network chain version now : rejection p e network chain version now = None →
  0 < now ∧ 0 < Envelope.createdAt e ∧ 0 < Envelope.ttlSeconds e ∧ now ≤ Envelope.createdAt e + Envelope.ttlSeconds e.
Proof.
  unfold rejection. intros Hr.
  destruct (Policy.isValid p); [|discriminate]. cbn [negb] in Hr.
  destruct (Envelope.isStructurallyValid _ _) eqn:Hv; [|discriminate]. cbn [negb] in Hr.
  repeat match type of Hr with (if ?b then Some _ else _) = None => destruct b eqn:?; [discriminate|] end.
  unfold Envelope.expiredAt in *. destruct ((now <=? 0) || (Envelope.createdAt e <=? 0)) eqn:E0; [discriminate|].
  unfold Envelope.isStructurallyValid in Hv. rewrite !andb_true_iff in Hv. lia.
Qed.

(** The message is remembered, or already too old to be accepted at [T]. *)
Definition guarded (e : NetworkEnvelope) (T : Z) (s : t) : Prop :=
  (∃ x, seenMessageIds s !! Envelope.messageId e = Some x ∧ expiresAt (policy s) e ≤ x) ∨
  Envelope.createdAt e + Envelope.ttlSeconds e < T.

Lemma prune_guarded e T now s : 0 < Policy.maxClockSkewSeconds (policy s) → T ≤ now → now < i64_max →
  u32 (Envelope.ttlSeconds e) → guarded e T s → guarded e now (pruneExpiredState now s).
Proof.
  intros Hskew HT Hnow Ht [(x & Hx & Hle)|Hold]; [|right; lia].
  unfold pruneExpiredState. destruct (now <=? 0); [left; eauto|]. destruct (_ <? 5); [left; eauto|].
  destruct (Z.le_gt_cases x now) as [Hxn|Hxn].
  - right. unfold expiresAt in Hle. cbv zeta in Hle. unfold u32, u32_max, i64_max in *.
    repeat case_match; lia.
  - left. exists x. simpl. split; [|exact Hle]. apply map_lookup_filter_Some. simpl. split; [exact Hx|lia].
Qed.

Lemma validate_guarded e e' network chain version T now s : 0 < Policy.maxClockSkewSeconds (policy s) →
  T ≤ now → now < i64_max → u32 (Envelope.ttlSeconds e) → guarded e T s → guarded e now (validate e' network chain version now s).2.
Proof.
  intros Hskew HT Hnow Ht Hg. unfold validate. destruct (rejection _ _ _ _ _ _).
  { destruct Hg as [Hg|Hg]; [by left|right; lia]. }
  apply (prune_guarded _ T now) in Hg; [|done..]. assert (policy (pruneExpiredState now s) = policy s) as Hp
    by (unfold pruneExpiredState; by repeat case_match).
  destruct (bool_decide _) eqn:Ed; [exact Hg|]. apply bool_decide_eq_false in Ed.
  destruct (_ <=? count _); (destruct Hg as [(x & Hx & Hle)|Hold]; [|by right]); left; exists x; simpl; [done|].
  rewrite lookup_insert_ne; [done|]. intros E. apply Ed. rewrite E. by eexists.
Qed.

Lemma accepted_guarded e network chain version now s : 
  status_of (validate e network chain version now s) = Some IN_ACCEPTED →
  guarded e now (validate e network chain version now s).2.
Proof.
  unfold status_of, validate. destruct (rejection _ _ _ _ _ _) as [r|] eqn:Hr.
  - intros [= Hs]. unfold rejection in Hr. repeat case_match; simplify_eq.
  - destruct (bool_decide _); [discriminate|]. destruct (_ <=? count _); [discriminate|]. intros _. left.
    exists (expiresAt (policy (pruneExpiredState now s)) e). simpl. split; [apply lookup_insert_eq|done].
Qed.

Lemma guarded_not_accepted e network chain version T now s : 0 < Policy.maxClockSkewSeconds (policy s) →
  T ≤ now → now < i64_max → u32 (Envelope.ttlSeconds e) → guarded e T s → status_of (validate e network chain version now s) ≠ Some IN_ACCEPTED.
Proof.
  intros Hskew HT Hnow Ht Hg. unfold status_of, validate. destruct (rejection _ _ _ _ _ _) as [r|] eqn:Hr.
  - intros [= Hs]. unfold rejection in Hr. repeat case_match; simplify_eq.
  - apply not_rejected in Hr as (_ & _ & _ & Hle). apply (prune_guarded _ T now) in Hg; [|done..].
    destruct Hg as [(x & Hx & _)|Hold]; [|lia]. rewrite bool_decide_eq_true_2 by (by eexists). done.
Qed.

(** One call: an envelope, what the node expects and the clock. *)
Record call := Call { c_envelope : NetworkEnvelope; c_network : string; c_chain : string; c_version : string; c_now : Z }.

Definition run (s : t) (c : call) : t := (validate (c_envelope c) (c_network c) (c_chain c) (c_version c) (c_now c) s).2.

(** The clock never goes back and stays below the largest 64-bit time. *)
Fixpoint chronological (T : Z) (calls : list call) : Prop :=
  match calls with
  | [] => True
  | c :: calls => T ≤ c_now c ∧ c_now c < i64_max ∧ chronological (c_now c) calls
  end.

Definition last_time (T : Z) (calls : list call) : Z := foldl (λ _ c, c_now c) T calls.

Lemma run_guarded e calls T s : 0 < Policy.maxClockSkewSeconds (policy s) → u32 (Envelope.ttlSeconds e) →
  chronological T calls → guarded e T s →
  guarded e (last_time T calls) (foldl run s calls) ∧ policy (foldl run s calls) = policy s.
Proof.
  revert T s. induction calls as [|c calls IH]; intros T s Hskew Ht Hc Hg; simpl; [done|].
  destruct Hc as (HT & Hmax & Hc). destruct (IH (c_now c) (run s c)) as [HG HP].
  - unfold run. by rewrite policy_kept.
  - exact Ht.
  - exact Hc.
  - unfold run. by apply (validate_guarded _ _ _ _ _ T).
  - split; [exact HG|]. rewrite HP. unfold run. by rewrite policy_kept.
Qed.

(** Windows hold at most the number of messages the policy allows. *)
Definition bounded (s : t) : Prop := ∀ sender w, messagesByPeerInWindow s !! sender = Some w →
  0 ≤ count w ≤ Policy.maxMessagesPerPeerWindow (policy s).

Lemma validate_bounded e network chain version now s : 0 ≤ Policy.maxMessagesPerPeerWindow (policy s) →
  bounded s → bounded (validate e network chain version now s).2.
Proof.
  intros Hm Hb. unfold validate. destruct (rejection _ _ _ _ _ _); [exact Hb|].
  assert (bounded (pruneExpiredState now s) ∧ policy (pruneExpiredState now s) = policy s) as [Hb' Hp].
  { unfold pruneExpiredState. repeat case_match; try done. split; [|done].
    intros sender w [Hw _]%map_lookup_filter_Some. by apply (Hb sender). }
  destruct (bool_decide _); [exact Hb'|].
  assert (0 ≤ count (currentWindow (pruneExpiredState now s) (Envelope.senderNodeId e) now) ≤
          Policy.maxMessagesPerPeerWindow (policy (pruneExpiredState now s))) as Hw.
  { rewrite Hp. unfold currentWindow. destruct (windowOver _ _ _); [simpl; lia|].
    destruct (messagesByPeerInWindow (pruneExpiredState now s) !! _) as [w|] eqn:E; [|simpl; lia].
    apply Hb' in E. by rewrite Hp in E. }
  destruct (_ <=? count _) eqn:El; intros sender w; simpl;
    (destruct (decide (Envelope.senderNodeId e = sender)) as [<-|Hne];
     [rewrite lookup_insert_eq; intros [= <-]|rewrite lookup_insert_ne by done; apply Hb']); [exact Hw|simpl; lia].
Qed.
End validator.
End InboundFacts.

(** ** What inbound validation promises *)

Module InboundProperties.
Import Validator InboundFacts.

(** C27. Replays are rejected: once a message was accepted, no later delivery of it
    is, whatever other messages arrive in between and however often the tables are
    pruned, as long as the clock does not go back and the policy allows some clock
    skew. *)
Theorem replays_are_rejected `{Sha256} (s : InboundMessageValidator) (e : NetworkEnvelope)
    (network chain version network' chain' version' : string) (now later : Z) (calls : list call) :
  0 < Policy.maxClockSkewSeconds (policy s) → u32 (Envelope.ttlSeconds e) →
  status_of (validate e network chain version now s) = Some IN_ACCEPTED →
  chronological now calls → last_time now calls ≤ later → later < i64_max →
  status_of (validate e network' chain' version' later
    (foldl run (validate e network chain version now s).2 calls)) ≠ Some IN_ACCEPTED.
Proof.
  intros Hskew Ht Hacc Hc Hlast Hmax.
  destruct (run_guarded e calls now (validate e network chain version now s).2) as [Hg Hp].
  - by rewrite policy_kept.
  - exact Ht.
  - exact Hc.
  - by apply accepted_guarded.
  - apply (guarded_not_accepted _ _ _ _ (last_time now calls)); [by rewrite Hp, policy_kept|done..].
Qed.

(** The rate limit holds: after any messages, every peer's window counts at most
    the number of messages the policy allows. *)
Theorem peer_windows_bounded `{Sha256} (p : InboundMessagePolicy) (calls : list call) (sender : string) :
  Policy.isValid p = true →
  0 ≤ peerWindowCount (foldl run (init p) calls) sender ≤ Policy.maxMessagesPerPeerWindow p.
Proof.
  unfold Policy.isValid. rewrite !andb_true_iff. intros [[_ Hm] _].
  assert (∀ s, policy s = p → bounded s → let s' := foldl run s calls in policy s' = p ∧ bounded s') as Hrun.
  { induction calls as [|c calls IH]; intros s Hp Hb; simpl; [done|]. apply IH; unfold run.
    - by rewrite policy_kept.
    - apply validate_bounded; [rewrite Hp; lia|exact Hb]. }
  destruct (Hrun (init p) eq_refl) as [Hp Hb]; [intros sender' w Hw; simpl in Hw; by rewrite lookup_empty in Hw|].
  unfold peerWindowCount. destruct (messagesByPeerInWindow _ !! sender) as [w|] eqn:E; [|lia].
  apply Hb in E. by rewrite Hp in E.
Qed.

#[local] Instance toy : Sha256 := CryptoProperties.toy_sha256.

Definition hello : NetworkEnvelope := Envelope.make "net" "chain" "v1" MSG_PING "node-a" 1700000000 30 "hello".

Lemma replays_are_rejected_witness :
  status_of (validate hello "net" "chain" "v1" 1700000030
    (foldl run (validate hello "net" "chain" "v1" 1700000000 (init Policy.standard)).2
       [Call (Envelope.make "net" "chain" "v1" MSG_PONG "node-b" 1700000010 30 "hi") "net" "chain" "v1" 1700000011]))
    ≠ Some IN_ACCEPTED.
Proof.
  apply (replays_are_rejected (init Policy.standard) hello "net" "chain" "v1" "net" "chain" "v1" 1700000000 1700000030
    [Call (Envelope.make "net" "chain" "v1" MSG_PONG "node-b" 1700000010 30 "hi") "net" "chain" "v1" 1700000011]).
  - reflexivity.
  - unfold u32, u32_max. simpl. lia.
  - vm_compute. reflexivity.
  - unfold chronological, i64_max. simpl. lia.
  - unfold last_time. simpl. lia.
  - reflexivity.
Defined.

Lemma peer_windows_bounded_witness :
  0 ≤ peerWindowCount (foldl run (init Policy.standard) [Call hello "net" "chain" "v1" 1700000000]) "node-a" ≤ 1000.
Proof. apply (peer_windows_bounded Policy.standard). reflexivity. Defined.

(** Without skew a message is forgotten one second too early: the policy check
    allows a skew of zero, and then a message can be accepted a second time at the
    last second of its lifetime. *)
Theorem replay_without_skew :
  let p := Policy.mk 4096 ∅ 120 0 1000 60 in
  Policy.isValid p = true ∧
  status_of (validate hello "net" "chain" "v1" 1700000000 (init p)) = Some IN_ACCEPTED ∧
  status_of (validate hello "net" "chain" "v1" 1700000030
    (validate hello "net" "chain" "v1" 1700000000 (init p)).2) = Some IN_ACCEPTED.
Proof. vm_compute. split_and!; reflexivity. Qed.
End InboundProperties.
