(* ===== verification/Payloads.v ===== *)
(** * core: typed transaction payloads

    Models src/src/core/TransactionPayload.cpp: the payloads of validator
    registration, key rotation, governance proposals and governance votes, their
    validity rules and their canonical binary form. *)

From Stdlib Require Import Ascii.
From S2P Require Import Prelude Utils Crypto Encoding.

Module PayloadText.
Definition MAX_GOVERNANCE_TITLE_BYTES : Z := 120.
Definition MAX_GOVERNANCE_DESCRIPTION_BYTES : Z := 1024.
Definition MAX_GOVERNANCE_SCALAR_BYTES : Z := 256.
Definition MAX_GOVERNANCE_VOTING_DELAY_BLOCKS : Z := 1000000.
Definition MAX_GOVERNANCE_VOTING_PERIOD_BLOCKS : Z := 1000000.

Definition safeScalar (value : string) (limit : Z) : bool := SafeScalar.isSafeIdentifier value limit "_-.:".

Definition safeText (value : string) (limit : Z) : bool :=
  if empty_string value || (limit <? string_size value) then false
  else SafeScalar.all_chars (λ c, negb (Hex.code c <? 32)) value.

Definition validRatio (numerator denominator : Z) : bool :=
  (0 <? denominator) && (0 <? numerator) && (numerator <=? denominator).

(** [if (!isValid()) throw ...; CanonicalWriter writer; ...; return writer.byteString();] *)
Definition serialize (message : string) (valid : result bool) (write : M Writer.t unit) : result string :=
  v ← valid;
  if negb v then Throw (invalid_argument message) else Writer.byteString write.

(** [CanonicalReader reader(serialized, 4096); ...; if (!payload.isValid() ||
    payload.serialize() != serialized) throw ...; return payload;] *)
Definition deserialize {A} (message : string) (isValid : A → result bool) (serialize : A → result string)
    (read : M Reader.t A) (serialized : string) : result A :=
  payload ← Reader.parse (Bytes.of_string serialized) 4096 read;
  valid ← isValid payload;
  if negb valid then Throw (invalid_argument message)
  else
    again ← serialize payload;
    if negb (String.eqb again serialized) then Throw (invalid_argument message) else Ok payload.
End PayloadText.
Import PayloadText Writer Reader.

Module Registration.
Record t := mk { validatorPublicKey : PublicKey; metadataHash : string }.
Definition SCHEMA : string := "NODO_VALIDATOR_REGISTRATION_PAYLOAD_V1".

Definition isValid (p : t) : bool :=
  PublicKey.isValid (validatorPublicKey p) && isValidatorAlgorithm (PublicKey.algorithm (validatorPublicKey p)) &&
  safeScalar (metadataHash p) 256.

Definition write (p : t) : M Writer.t unit :=
  writeString SCHEMA;;
  writeString (cryptoAlgorithmToString (PublicKey.algorithm (validatorPublicKey p)));;
  writeString (PublicKey.keyMaterial (validatorPublicKey p));;
  writeString (metadataHash p).
Definition serialize (p : t) : result string :=
  PayloadText.serialize "Invalid validator registration payload." (Ok (isValid p)) (write p).

Definition read : M Reader.t t :=
  schema ← readString;
  lift (throw_if (negb (String.eqb schema SCHEMA))
    (invalid_argument "Unknown validator registration payload schema."));;
  algorithmStr ← readString;
  keyMaterial ← readString;
  metadataHash ← readString;
  algorithm ← lift (cryptoAlgorithmFromString algorithmStr);
  requireFullyConsumed;;
  mret (mk (PublicKey.mk algorithm keyMaterial) metadataHash).
Definition deserialize : string → result t :=
  PayloadText.deserialize "Non-canonical validator registration payload." (λ p, Ok (isValid p)) serialize read.
End Registration.

Module KeyRotation.
Record t := mk {
  oldValidatorAddress : string;
  newValidatorPublicKey : PublicKey;
  metadataHash : string;
  activationEpoch : Z;
  reasonHash : string;
}.
Definition SCHEMA : string := "NODO_VALIDATOR_KEY_ROTATION_PAYLOAD_V1".

Section rotation.
Context `{Sha256}.

Definition newValidatorAddress (p : t) : result string :=
  if negb (PublicKey.isValid (newValidatorPublicKey p)) then Ok ""
  else AddressDerivation.deriveFromPublicKey (newValidatorPublicKey p).

Definition isValid (p : t) : result bool :=
  if safeScalar (oldValidatorAddress p) 256 && PublicKey.isValid (newValidatorPublicKey p) &&
     isValidatorAlgorithm (PublicKey.algorithm (newValidatorPublicKey p)) &&
     safeScalar (metadataHash p) 256 && safeScalar (reasonHash p) 256 && (0 <? activationEpoch p) then
    address ← newValidatorAddress p;
    Ok (negb (empty_string address) && negb (String.eqb address (oldValidatorAddress p)))
  else Ok false.

Definition write (p : t) : M Writer.t unit :=
  writeString SCHEMA;;
  writeString (oldValidatorAddress p);;
  writeString (cryptoAlgorithmToString (PublicKey.algorithm (newValidatorPublicKey p)));;
  writeString (PublicKey.keyMaterial (newValidatorPublicKey p));;
  writeString (metadataHash p);;
  writeUInt64 (activationEpoch p);;
  writeString (reasonHash p).
Definition serialize (p : t) : result string :=
  PayloadText.serialize "Invalid validator key rotation payload." (isValid p) (write p).

Definition read : M Reader.t t :=
  schema ← readString;
  lift (throw_if (negb (String.eqb schema SCHEMA))
    (invalid_argument "Unknown validator key rotation payload schema."));;
  oldValidatorAddress ← readString;
  algorithmStr ← readString;
  keyMaterial ← readString;
  metadataHash ← readString;
  activationEpoch ← readUInt64;
  reasonHash ← readString;
  algorithm ← lift (cryptoAlgorithmFromString algorithmStr);
  requireFullyConsumed;;
  mret (mk oldValidatorAddress (PublicKey.mk algorithm keyMaterial) metadataHash activationEpoch reasonHash).
Definition deserialize : string → result t :=
  PayloadText.deserialize "Non-canonical validator key rotation payload." isValid serialize read.
End rotation.
End KeyRotation.

Inductive GovernanceProposalType := PARAMETER_CHANGE | TREASURY_SPEND | TEXT_PROPOSAL.

Definition governanceProposalTypeToString (t : GovernanceProposalType) : string :=
  match t with PARAMETER_CHANGE => "PARAMETER_CHANGE" | TREASURY_SPEND => "TREASURY_SPEND" | TEXT_PROPOSAL => "TEXT" end.

Definition governanceProposalTypeFromString (value : string) : result GovernanceProposalType :=
  if String.eqb value "PARAMETER_CHANGE" then Ok PARAMETER_CHANGE
  else if String.eqb value "TREASURY_SPEND" then Ok TREASURY_SPEND
  else if String.eqb value "TEXT" then Ok TEXT_PROPOSAL
  else Throw (invalid_argument "Unknown governance proposal type.").

Module Proposal.
Record t := mk {
  type : GovernanceProposalType;
  title : string;
  description : string;
  votingStartDelayBlocks : Z;
  votingPeriodBlocks : Z;
  quorumNumerator : Z;
  quorumDenominator : Z;
  approvalNumerator : Z;
  approvalDenominator : Z;
  parameterTarget : string;
  parameterValue : string;
  parameterEffectiveHeight : Z;
  treasuryRecipient : string;
  treasuryAmountRaw : Z;
}.
Definition SCHEMA : string := "NODO_GOVERNANCE_PROPOSAL_PAYLOAD_V1".

Definition isValid (p : t) : bool :=
  if negb (safeText (title p) MAX_GOVERNANCE_TITLE_BYTES) ||
     negb (safeText (description p) MAX_GOVERNANCE_DESCRIPTION_BYTES) ||
     (MAX_GOVERNANCE_VOTING_DELAY_BLOCKS <? votingStartDelayBlocks p) || (votingPeriodBlocks p =? 0) ||
     (MAX_GOVERNANCE_VOTING_PERIOD_BLOCKS <? votingPeriodBlocks p) ||
     negb (validRatio (quorumNumerator p) (quorumDenominator p)) ||
     negb (validRatio (approvalNumerator p) (approvalDenominator p)) then false
  else
    match type p with
    | PARAMETER_CHANGE =>
        safeScalar (parameterTarget p) MAX_GOVERNANCE_SCALAR_BYTES &&
        safeScalar (parameterValue p) MAX_GOVERNANCE_SCALAR_BYTES && (0 <? parameterEffectiveHeight p) &&
        empty_string (treasuryRecipient p) && (treasuryAmountRaw p =? 0)
    | TREASURY_SPEND =>
        empty_string (parameterTarget p) && empty_string (parameterValue p) && (parameterEffectiveHeight p =? 0) &&
        safeScalar (treasuryRecipient p) MAX_GOVERNANCE_SCALAR_BYTES && (0 <? treasuryAmountRaw p)
    | TEXT_PROPOSAL =>
        empty_string (parameterTarget p) && empty_string (parameterValue p) && (parameterEffectiveHeight p =? 0) &&
        empty_string (treasuryRecipient p) && (treasuryAmountRaw p =? 0)
    end.

Definition write (p : t) : M Writer.t unit :=
  writeString SCHEMA;;
  writeString (governanceProposalTypeToString (type p));;
  writeString (title p);;
  writeString (description p);;
  writeUInt64 (votingStartDelayBlocks p);;
  writeUInt64 (votingPeriodBlocks p);;
  writeUInt64 (quorumNumerator p);;
  writeUInt64 (quorumDenominator p);;
  writeUInt64 (approvalNumerator p);;
  writeUInt64 (approvalDenominator p);;
  writeString (parameterTarget p);;
  writeString (parameterValue p);;
  writeUInt64 (parameterEffectiveHeight p);;
  writeString (treasuryRecipient p);;
  writeInt64 (treasuryAmountRaw p).
Definition serialize (p : t) : result string :=
  PayloadText.serialize "Invalid governance proposal payload." (Ok (isValid p)) (write p).

Definition read : M Reader.t t :=
  schema ← readString;
  lift (throw_if (negb (String.eqb schema SCHEMA))
    (invalid_argument "Unknown governance proposal payload schema."));;
  typeStr ← readString;
  type ← lift (governanceProposalTypeFromString typeStr);
  title ← readString;
  description ← readString;
  votingStartDelayBlocks ← readUInt64;
  votingPeriodBlocks ← readUInt64;
  quorumNumerator ← readUInt64;
  quorumDenominator ← readUInt64;
  approvalNumerator ← readUInt64;
  approvalDenominator ← readUInt64;
  parameterTarget ← readString;
  parameterValue ← readString;
  parameterEffectiveHeight ← readUInt64;
  treasuryRecipient ← readString;
  treasuryAmountRaw ← readInt64;
  requireFullyConsumed;;
  mret (mk type title description votingStartDelayBlocks votingPeriodBlocks quorumNumerator quorumDenominator
          approvalNumerator approvalDenominator parameterTarget parameterValue parameterEffectiveHeight
          treasuryRecipient treasuryAmountRaw).
Definition deserialize : string → result t :=
  PayloadText.deserialize "Non-canonical governance proposal payload." (λ p, Ok (isValid p)) serialize read.

(** The three factories. *)
Definition parameterChange (title description target value : string) (effectiveHeight delay period qn qd an ad : Z) : t :=
  mk PARAMETER_CHANGE title description delay period qn qd an ad target value effectiveHeight "" 0.
Definition treasurySpend (title description recipient : string) (amountRaw delay period qn qd an ad : Z) : t :=
  mk TREASURY_SPEND title description delay period qn qd an ad "" "" 0 recipient amountRaw.
Definition text (title description : string) (delay period qn qd an ad : Z) : t :=
  mk TEXT_PROPOSAL title description delay period qn qd an ad "" "" 0 "" 0.
End Proposal.

Inductive GovernanceVoteChoice := VOTE_YES | VOTE_NO | VOTE_ABSTAIN.

Definition governanceVoteChoiceToString (c : GovernanceVoteChoice) : string :=
  match c with VOTE_YES => "YES" | VOTE_NO => "NO" | VOTE_ABSTAIN => "ABSTAIN" end.

Definition governanceVoteChoiceFromString (value : string) : result GovernanceVoteChoice :=
  if String.eqb value "YES" then Ok VOTE_YES
  else if String.eqb value "NO" then Ok VOTE_NO
  else if String.eqb value "ABSTAIN" then Ok VOTE_ABSTAIN
  else Throw (invalid_argument "Unknown governance vote choice.").

Module GovernanceVote.
Record t := mk { proposalId : string; validatorAddress : string; choice : GovernanceVoteChoice }.
Definition SCHEMA : string := "NODO_GOVERNANCE_VOTE_PAYLOAD_V2".

Definition isValid (p : t) : bool := safeScalar (proposalId p) 256 && safeScalar (validatorAddress p) 256.

Definition write (p : t) : M Writer.t unit :=
  writeString SCHEMA;;
  writeString (proposalId p);;
  writeString (validatorAddress p);;
  writeString (governanceVoteChoiceToString (choice p)).
Definition serialize (p : t) : result string :=
  PayloadText.serialize "Invalid governance vote payload." (Ok (isValid p)) (write p).

Definition read : M Reader.t t :=
  schema ← readString;
  lift (throw_if (negb (String.eqb schema SCHEMA)) (invalid_argument "Unknown governance vote payload schema."));;
  proposalId ← readString;
  validatorAddress ← readString;
  choiceStr ← readString;
  choice ← lift (governanceVoteChoiceFromString choiceStr);
  requireFullyConsumed;;
  mret (mk proposalId validatorAddress choice).
Definition deserialize : string → result t :=
  PayloadText.deserialize "Non-canonical governance vote payload." (λ p, Ok (isValid p)) serialize read.
End GovernanceVote.

(** ** Lemmas on the payloads *)

Module PayloadFacts.
Import EncodingFacts CodecFacts Fields.

Definition short (s : string) : Prop := string_size s ≤ 4096.

Lemma short_fits s : short s → fits writeString readString 4096 s.
Proof. unfold short, fits; simpl. unfold u32_max. lia. Qed.

Lemma scalar_short s n : safeScalar s n = true → n ≤ 4096 → short s.
Proof.
  unfold safeScalar, SafeScalar.isSafeIdentifier, short. destruct (empty_string s); [done|].
  destruct (n <? string_size s) eqn:E; [done|]. lia.
Qed.

Lemma text_short s n : safeText s n = true → n ≤ 4096 → short s.
Proof.
  unfold safeText, short. destruct (empty_string s); [done|]. destruct (n <? string_size s) eqn:E; [done|]. lia.
Qed.

Lemma empty_short s : empty_string s = true → short s.
Proof. intros ->%empty_string_true. done. Qed.

Lemma validator_key_short k : PublicKey.isValid k = true → isValidatorAlgorithm (PublicKey.algorithm k) = true →
  short (PublicKey.keyMaterial k).
Proof.
  unfold PublicKey.isValid, isValidatorAlgorithm. intros Hv Ha%bool_decide_eq_true. rewrite Ha in Hv.
  destruct (empty_string _); [done|]. simpl in Hv. unfold Hex.hasHexByteSize in Hv.
  apply andb_true_iff in Hv as [Hs _]. apply Z.eqb_eq in Hs. unfold short. lia.
Qed.

Lemma algorithm_roundtrip a : cryptoAlgorithmFromString (cryptoAlgorithmToString a) = Ok a.
Proof. by destruct a. Qed.
Lemma algorithm_short a : short (cryptoAlgorithmToString a).
Proof. by destruct a. Qed.
Lemma proposal_type_roundtrip t : governanceProposalTypeFromString (governanceProposalTypeToString t) = Ok t.
Proof. by destruct t. Qed.
Lemma choice_roundtrip c : governanceVoteChoiceFromString (governanceVoteChoiceToString c) = Ok c.
Proof. by destruct c. Qed.
Lemma proposal_type_short t : short (governanceProposalTypeToString t).
Proof. by destruct t. Qed.
Lemma choice_short c : short (governanceVoteChoiceToString c).
Proof. by destruct c. Qed.

(** What is left of a payload proof: the bytes, and that they are read back. *)
Lemma payload_canonical {A} m1 m2 (isValid : A → result bool) (write : A → M Writer.t unit) (read : M Reader.t A) p L s :
  (isValid p = Ok true → writes (write p) L ∧ Forall byte L ∧ accepts read 4096 L p) →
  let ser := λ p, PayloadText.serialize m1 (isValid p) (write p) in
  PayloadText.deserialize m2 isValid ser read s = Ok p ↔ ser p = Ok s.
Proof.
  intros Hp ser. split.
  - unfold PayloadText.deserialize. intros (q & _ & E)%bind_Ok. apply bind_Ok in E as (v & Hv & E).
    destruct v; [|discriminate]. cbn [negb] in E. apply bind_Ok in E as (again & Hs & E).
    destruct (String.eqb again s) eqn:Ea; [|discriminate]. injection E as <-. by apply String.eqb_eq in Ea as <-.
  - intros E. pose proof E as E'. unfold ser, PayloadText.serialize in E'.
    apply bind_Ok in E' as (v & Hv & E'). destruct v; [|discriminate]. cbn [negb] in E'.
    destruct (Hp Hv) as (Hw & Hb & Ha). unfold Writer.byteString in E'.
    rewrite (writes_bytes _ _ Hw) in E'. injection E' as <-. unfold PayloadText.deserialize.
    rewrite of_to_string by exact Hb. rewrite (parse_accepts _ _ _ p) by done. cbn [mbind result_bind].
    rewrite Hv. cbn [mbind result_bind negb]. fold ser. rewrite E. cbn [mbind result_bind].
    by rewrite String.eqb_refl.
Qed.

Ltac payload_fields := first
  [ assumption | apply short_fits; assumption | apply short_fits, algorithm_short
  | reflexivity | apply algorithm_roundtrip | apply proposal_type_roundtrip | apply choice_roundtrip
  | apply short_fits, proposal_type_short | apply short_fits, choice_short
  | apply short_fits; done ].

Lemma registration_canonical p s : Registration.deserialize s = Ok p ↔ Registration.serialize p = Ok s.
Proof.
  eapply (payload_canonical _ _ (λ p, Ok (Registration.isValid p))). intros [= Hv].
  unfold Registration.isValid in Hv. rewrite !andb_true_iff in Hv. destruct Hv as [[H1 H2] H3].
  pose proof (validator_key_short _ H1 H2). apply scalar_short in H3; [|done]. split_and!.
  - unfold Registration.write. emit 4096; payload_fields.
  - emit 4096; payload_fields.
  - unfold Registration.read. accept; try payload_fields. destruct p as [[]]. apply accepts_ret.
Qed.

Lemma rotation_canonical `{Sha256} p s : u64 (KeyRotation.activationEpoch p) →
  KeyRotation.deserialize s = Ok p ↔ KeyRotation.serialize p = Ok s.
Proof.
  intros He. unfold KeyRotation.deserialize, KeyRotation.serialize.
  eapply (payload_canonical _ _ KeyRotation.isValid KeyRotation.write KeyRotation.read). intros Hv.
  unfold KeyRotation.isValid in Hv. destruct (_ && _) eqn:E; [|discriminate]. rewrite !andb_true_iff in E.
  destruct E as [[[[[H1 H2] H3] H4] H5] _]. pose proof (validator_key_short _ H2 H3).
  apply scalar_short in H1, H4, H5; [|done..]. split_and!.
  - unfold KeyRotation.write. emit 4096; payload_fields.
  - emit 4096; payload_fields.
  - unfold KeyRotation.read. accept; try payload_fields. destruct p as [? [] ? ? ?]. apply accepts_ret.
Qed.

Record proposal_typed (p : Proposal.t) : Prop := {
  typed_delay : u64 (Proposal.votingStartDelayBlocks p);
  typed_period : u64 (Proposal.votingPeriodBlocks p);
  typed_qn : u64 (Proposal.quorumNumerator p);
  typed_qd : u64 (Proposal.quorumDenominator p);
  typed_an : u64 (Proposal.approvalNumerator p);
  typed_ad : u64 (Proposal.approvalDenominator p);
  typed_height : u64 (Proposal.parameterEffectiveHeight p);
  typed_amount : i64 (Proposal.treasuryAmountRaw p);
}.

Lemma proposal_texts p : Proposal.isValid p = true →
  short (Proposal.title p) ∧ short (Proposal.description p) ∧ short (Proposal.parameterTarget p) ∧
  short (Proposal.parameterValue p) ∧ short (Proposal.treasuryRecipient p).
Proof.
  unfold Proposal.isValid. destruct (_ || _) eqn:E; [done|]. rewrite !orb_false_iff, !negb_false_iff in E.
  destruct E as [[[[[[H1 H2] _] _] _] _] _]. apply text_short in H1, H2; [|done..].
  intros Hv. destruct (Proposal.type p); rewrite !andb_true_iff in Hv; destruct Hv as [[[[H3 H4] _] H5] _];
    split_and!; try assumption; first [by apply empty_short|by apply (scalar_short _ MAX_GOVERNANCE_SCALAR_BYTES)].
Qed.

Lemma proposal_canonical p s : proposal_typed p → Proposal.deserialize s = Ok p ↔ Proposal.serialize p = Ok s.
Proof.
  intros [T1 T2 T3 T4 T5 T6 T7 T8]. eapply (payload_canonical _ _ (λ p, Ok (Proposal.isValid p))). intros [= Hv].
  apply proposal_texts in Hv as (H1 & H2 & H3 & H4 & H5). split_and!.
  - unfold Proposal.write. emit 4096; payload_fields.
  - emit 4096; payload_fields.
  - unfold Proposal.read. accept; try payload_fields. destruct p. apply accepts_ret.
Qed.

Lemma vote_canonical p s : GovernanceVote.deserialize s = Ok p ↔ GovernanceVote.serialize p = Ok s.
Proof.
  eapply (payload_canonical _ _ (λ p, Ok (GovernanceVote.isValid p))). intros [= Hv].
  unfold GovernanceVote.isValid in Hv. rewrite !andb_true_iff in Hv. destruct Hv as [H1 H2].
  apply scalar_short in H1, H2; [|done..]. split_and!.
  - unfold GovernanceVote.write. emit 4096; payload_fields.
  - emit 4096; payload_fields.
  - unfold GovernanceVote.read. accept; try payload_fields. destruct p. apply accepts_ret.
Qed.
End PayloadFacts.

(** ** What payloads promise *)

Module PayloadProperties.
Import PayloadFacts.

(** Payloads round trip: for the four typed payloads a text deserializes to a
    payload exactly when the payload serializes to that text.  Everything valid
    comes back unchanged, and no two texts carry one payload, so a signature over
    the text covers the payload. *)
Theorem payloads_roundtrip `{Sha256} (s : string) :
  (∀ p, Registration.deserialize s = Ok p ↔ Registration.serialize p = Ok s) ∧
  (∀ p, u64 (KeyRotation.activationEpoch p) → (KeyRotation.deserialize s = Ok p ↔ KeyRotation.serialize p = Ok s)) ∧
  (∀ p, proposal_typed p → (Proposal.deserialize s = Ok p ↔ Proposal.serialize p = Ok s)) ∧
  (∀ p, GovernanceVote.deserialize s = Ok p ↔ GovernanceVote.serialize p = Ok s).
Proof.
  split; [intros p; apply registration_canonical|]. split; [intros p; apply rotation_canonical|].
  split; [intros p; apply proposal_canonical|intros p; apply vote_canonical].
Qed.

(** A validated proposal pays or changes one thing: a valid proposal has positive
    bounded voting times and ratios in (0, 1], names a treasury recipient and a
    positive amount only when it is a treasury proposal, and a parameter only when
    it is a parameter change. *)
Theorem proposal_has_one_effect (p : Proposal.t) : Proposal.isValid p = true →
  Proposal.votingPeriodBlocks p ≠ 0 ∧ Proposal.votingPeriodBlocks p ≤ 1000000 ∧
  0 < Proposal.quorumNumerator p ≤ Proposal.quorumDenominator p ∧
  0 < Proposal.approvalNumerator p ≤ Proposal.approvalDenominator p ∧
  (Proposal.treasuryAmountRaw p ≠ 0 → Proposal.type p = TREASURY_SPEND ∧ Proposal.treasuryRecipient p ≠ "" ∧
     Proposal.parameterTarget p = "" ∧ Proposal.parameterEffectiveHeight p = 0) ∧
  (Proposal.parameterTarget p ≠ "" → Proposal.type p = PARAMETER_CHANGE ∧ Proposal.treasuryAmountRaw p = 0).
Proof.
  unfold Proposal.isValid, MAX_GOVERNANCE_VOTING_PERIOD_BLOCKS, validRatio. destruct (_ || _) eqn:E; [done|].
  rewrite !orb_false_iff, !negb_false_iff, !andb_true_iff in E. destruct E as [[[[[[_ _] _] Hp] Hm] Hq] Ha].
  assert (∀ s n, safeScalar s n = true → s ≠ "") as Hne by (intros s n Hs ->; discriminate).
  intros Hv. split_and!; try lia; destruct (Proposal.type p); rewrite !andb_true_iff, ?empty_string_true in Hv;
    destruct Hv as [[[[H1 H2] H3] H4] H5]; intros Hx; try lia; try done; split_and!; try done; try lia.
  by apply (Hne _ MAX_GOVERNANCE_SCALAR_BYTES).
Qed.

Lemma proposal_has_one_effect_witness :
  Proposal.type (Proposal.treasurySpend "pay" "pay for work" "nodo1recipient" 500 10 100 1 3 2 3) = TREASURY_SPEND.
Proof.
  destruct (proposal_has_one_effect (Proposal.treasurySpend "pay" "pay for work" "nodo1recipient" 500 10 100 1 3 2 3))
    as (_ & _ & _ & _ & Ht & _); [vm_compute; reflexivity|]. apply Ht. discriminate.
Defined.
End PayloadProperties.
