(* ===== verification/History.v ===== *)
(** * node: history synchronization messages and request accounting

    Models src/src/node/history/HistorySyncMessages.cpp: the fifteen wire messages
    with their limits and canonical form, and the per-peer request guard; and
    [isDigestHex] of src/include/archive/ArchiveEncoding.hpp. *)

From Stdlib Require Import Ascii.
From S2P Require Import Prelude Utils Crypto Encoding.

Definition isDigestHex (value : string) : bool :=
  if negb (string_size value =? 64) then false
  else if negb (SafeScalar.all_chars Address.is_lower_hex value) then false
  else negb (SafeScalar.all_chars (λ c, Ascii.eqb c "0") value).

Module Limits.
Definition kMaxMessageBytes : Z := 4 * 1024 * 1024.
Definition kMaxCheckpointBytes : Z := 1024 * 1024 + 4096.
Definition kMaxChunkBytes : Z := 256 * 1024.
Definition kMaxProofSiblings : Z := 64.
Definition kMaxRangeBlocks : Z := 4.
Definition kMaxIndexEntries : Z := 1024.
Definition kMaxSegmentCommitmentBytes : Z := 4096.
Definition kMaxRegistrationBytes : Z := 4096.
Definition kMaxChallengeBytes : Z := 8192.
Definition kMaxArchivalProofBytes : Z := 4 * 1024 * 1024 - 1024.
Definition kMaxSegmentRanges : Z := 64.
Definition kMaxSignatureBytes : Z := 512.
End Limits.

(** The enumerators are numbered from 1 in this order. *)
Inductive HistorySyncMessageType :=
| CHECKPOINT_REQUEST | CHECKPOINT_RESPONSE | SNAPSHOT_MANIFEST_REQUEST | SNAPSHOT_MANIFEST_RESPONSE
| SNAPSHOT_CHUNK_REQUEST | SNAPSHOT_CHUNK_RESPONSE | HISTORY_RANGE_REQUEST | ARCHIVE_INDEX_REQUEST
| ARCHIVE_INDEX_RESPONSE | ARCHIVE_PROVIDER_ANNOUNCEMENT | ARCHIVE_SEGMENTS_ANNOUNCEMENT | ARCHIVAL_CHALLENGE
| ARCHIVAL_PROOF | REPLICATION_STATUS_REQUEST | REPLICATION_STATUS_RESPONSE.

#[global] Instance HistorySyncMessageType_eq_dec : EqDecision HistorySyncMessageType.
Proof. solve_decision. Defined.

Definition historyTypes : list HistorySyncMessageType :=
  [CHECKPOINT_REQUEST; CHECKPOINT_RESPONSE; SNAPSHOT_MANIFEST_REQUEST; SNAPSHOT_MANIFEST_RESPONSE;
   SNAPSHOT_CHUNK_REQUEST; SNAPSHOT_CHUNK_RESPONSE; HISTORY_RANGE_REQUEST; ARCHIVE_INDEX_REQUEST;
   ARCHIVE_INDEX_RESPONSE; ARCHIVE_PROVIDER_ANNOUNCEMENT; ARCHIVE_SEGMENTS_ANNOUNCEMENT; ARCHIVAL_CHALLENGE;
   ARCHIVAL_PROOF; REPLICATION_STATUS_REQUEST; REPLICATION_STATUS_RESPONSE].

Definition type_tag (t : HistorySyncMessageType) : Z :=
  default 0 ((λ p, Z.of_nat (p.1 + 1)) <$> list_find (λ u, u = t) historyTypes).
Definition tag_type (tag : Z) : option HistorySyncMessageType := historyTypes !! Z.to_nat (tag - 1).

Record ReplicationStatusEntry := Entry { segmentIndex : Z; assignedReplicas : Z; provenReplicas : Z }.

Inductive HistorySyncMessage :=
| CheckpointRequest (requestId height : Z)
| CheckpointResponse (requestId : Z) (checkpoint : list Z)
| SnapshotManifestRequest (requestId : Z) (checkpointId : string)
| SnapshotManifestResponse (requestId : Z) (checkpointId : string) (height : Z) (snapshotDigest : string)
    (totalBytes chunkBytes : Z)
| SnapshotChunkRequest (requestId : Z) (checkpointId : string) (chunkIndex : Z)
| SnapshotChunkResponse (requestId chunkIndex treeSize : Z) (bytes : list Z) (proof : list string)
| HistoryRangeRequest (requestId firstHeight count : Z)
| ArchiveIndexRequest (requestId fromSegment count : Z)
| ArchiveIndexResponse (requestId : Z) (commitments : list (list Z))
| ArchiveProviderAnnouncement (registration : list Z)
| ArchiveSegmentsAnnouncement (providerId : string) (ranges : list (Z * Z)) (createdAt : Z) (signature : list Z)
| ArchivalChallengeMessage (challenge : list Z)
| ArchivalProofMessage (proof : list Z)
| ReplicationStatusRequest (requestId fromSegment count : Z)
| ReplicationStatusResponse (requestId : Z) (entries : list ReplicationStatusEntry).

Module HistoryCodec.
Import Limits Writer Reader.

Definition require (condition : bool) (what : string) : result unit :=
  throw_if (negb condition) (invalid_argument ("History sync message: " +:+ what)).
Definition requireBytes (bytes : list Z) (max : Z) (what : string) : result unit :=
  require (negb (bool_decide (bytes = [])) && (Bytes.size bytes <=? max)) what.
Definition requireId (value what : string) : result unit := require (isDigestHex value) what.
Definition requireRequest (requestId : Z) : result unit :=
  require (negb (requestId =? 0)) "request id must be non-zero".

(** [for (x : l) body(x);] *)
Definition requireAll {A} (body : A → result unit) (l : list A) : result unit := foldR (λ _ x, body x) tt l.

(** The loop over the ranges: [previous] is the range before. *)
Fixpoint requireRanges (previous : option (Z * Z)) (ranges : list (Z * Z)) : result unit :=
  match ranges with
  | [] => Ok tt
  | r :: ranges =>
      require (r.1 <=? r.2) "segment range order";;
      require (match previous with None => true | Some p => p.2 <? r.1 end)
        "segment ranges must ascend without overlap";;
      requireRanges (Some r) ranges
  end.

(** The loop over the entries, from the second one on. *)
Fixpoint requireAscending (previous : option ReplicationStatusEntry) (entries : list ReplicationStatusEntry) : result unit :=
  match entries with
  | [] => Ok tt
  | e :: entries =>
      match previous with
      | None => Ok tt
      | Some p => require (segmentIndex p <? segmentIndex e) "replication entries must ascend"
      end;;
      requireAscending (Some e) entries
  end.

Definition validate (m : HistorySyncMessage) : result unit :=
  match m with
  | CheckpointRequest requestId _ => requireRequest requestId
  | CheckpointResponse requestId checkpoint =>
      requireRequest requestId;; requireBytes checkpoint kMaxCheckpointBytes "checkpoint size"
  | SnapshotManifestRequest requestId checkpointId =>
      requireRequest requestId;; requireId checkpointId "checkpoint id"
  | SnapshotManifestResponse requestId checkpointId height snapshotDigest totalBytes chunkBytes =>
      requireRequest requestId;; requireId checkpointId "checkpoint id";; requireId snapshotDigest "snapshot digest";;
      require ((0 <? height) && (0 <? totalBytes) && (0 <? chunkBytes) && (chunkBytes <=? kMaxChunkBytes))
        "snapshot manifest geometry"
  | SnapshotChunkRequest requestId checkpointId _ =>
      requireRequest requestId;; requireId checkpointId "checkpoint id"
  | SnapshotChunkResponse requestId chunkIndex treeSize bytes proof =>
      requireRequest requestId;; requireBytes bytes kMaxChunkBytes "chunk size";;
      require ((0 <? treeSize) && (chunkIndex <? treeSize) && (Z.of_nat (length proof) <=? kMaxProofSiblings))
        "chunk proof shape";;
      requireAll (λ sibling, requireId sibling "chunk proof sibling") proof
  | HistoryRangeRequest requestId firstHeight count =>
      requireRequest requestId;;
      require ((0 <? firstHeight) && (1 <=? count) && (count <=? kMaxRangeBlocks))
        "range must be 1-4 contiguous blocks after genesis"
  | ArchiveIndexRequest requestId _ count =>
      requireRequest requestId;; require ((1 <=? count) && (count <=? kMaxIndexEntries)) "archive index request count"
  | ArchiveIndexResponse requestId commitments =>
      requireRequest requestId;;
      require (negb (bool_decide (commitments = [])) && (Z.of_nat (length commitments) <=? kMaxIndexEntries))
        "archive index response count";;
      requireAll (λ c, requireBytes c kMaxSegmentCommitmentBytes "segment commitment size") commitments
  | ArchiveProviderAnnouncement registration => requireBytes registration kMaxRegistrationBytes "registration size"
  | ArchiveSegmentsAnnouncement providerId ranges createdAt signature =>
      require (SafeScalar.isSafeIdentifier providerId 128 "_-.:") "provider id";;
      require (negb (bool_decide (ranges = [])) && (Z.of_nat (length ranges) <=? kMaxSegmentRanges))
        "segment range count";;
      requireRanges None ranges;;
      require (0 <? createdAt) "announcement time";;
      requireBytes signature kMaxSignatureBytes "signature size"
  | ArchivalChallengeMessage challenge => requireBytes challenge kMaxChallengeBytes "challenge size"
  | ArchivalProofMessage proof => requireBytes proof kMaxArchivalProofBytes "proof size"
  | ReplicationStatusRequest requestId _ count =>
      requireRequest requestId;; require ((1 <=? count) && (count <=? kMaxIndexEntries)) "replication request count"
  | ReplicationStatusResponse requestId entries =>
      requireRequest requestId;;
      require (negb (bool_decide (entries = [])) && (Z.of_nat (length entries) <=? kMaxIndexEntries))
        "replication response count";;
      requireAscending None entries
  end.

Definition typeOf (m : HistorySyncMessage) : HistorySyncMessageType :=
  match m with
  | CheckpointRequest _ _ => CHECKPOINT_REQUEST
  | CheckpointResponse _ _ => CHECKPOINT_RESPONSE
  | SnapshotManifestRequest _ _ => SNAPSHOT_MANIFEST_REQUEST
  | SnapshotManifestResponse _ _ _ _ _ _ => SNAPSHOT_MANIFEST_RESPONSE
  | SnapshotChunkRequest _ _ _ => SNAPSHOT_CHUNK_REQUEST
  | SnapshotChunkResponse _ _ _ _ _ => SNAPSHOT_CHUNK_RESPONSE
  | HistoryRangeRequest _ _ _ => HISTORY_RANGE_REQUEST
  | ArchiveIndexRequest _ _ _ => ARCHIVE_INDEX_REQUEST
  | ArchiveIndexResponse _ _ => ARCHIVE_INDEX_RESPONSE
  | ArchiveProviderAnnouncement _ => ARCHIVE_PROVIDER_ANNOUNCEMENT
  | ArchiveSegmentsAnnouncement _ _ _ _ => ARCHIVE_SEGMENTS_ANNOUNCEMENT
  | ArchivalChallengeMessage _ => ARCHIVAL_CHALLENGE
  | ArchivalProofMessage _ => ARCHIVAL_PROOF
  | ReplicationStatusRequest _ _ _ => REPLICATION_STATUS_REQUEST
  | ReplicationStatusResponse _ _ => REPLICATION_STATUS_RESPONSE
  end.

Definition writeRange (r : Z * Z) : M Writer.t unit := writeUInt64 r.1;; writeUInt64 r.2.
Definition readRange : M Reader.t (Z * Z) := from ← readUInt64; to ← readUInt64; mret (from, to).
Definition writeEntry (e : ReplicationStatusEntry) : M Writer.t unit :=
  writeUInt64 (segmentIndex e);; writeUInt32 (assignedReplicas e);; writeUInt32 (provenReplicas e).
Definition readEntry : M Reader.t ReplicationStatusEntry :=
  index ← readUInt64; assigned ← readUInt32; proven ← readUInt32; mret (Entry index assigned proven).

(** [writeUInt32(l.size()); for (x : l) write(x);] *)
Definition writeCounted {A} (write : A → M Writer.t unit) (l : list A) : M Writer.t unit :=
  writeUInt32 (Z.of_nat (length l));; for_each write l.

Definition writeBody (m : HistorySyncMessage) : M Writer.t unit :=
  match m with
  | CheckpointRequest requestId height => writeUInt64 requestId;; writeUInt64 height
  | CheckpointResponse requestId checkpoint => writeUInt64 requestId;; writeBytes checkpoint
  | SnapshotManifestRequest requestId checkpointId => writeUInt64 requestId;; writeString checkpointId
  | SnapshotManifestResponse requestId checkpointId height snapshotDigest totalBytes chunkBytes =>
      writeUInt64 requestId;; writeString checkpointId;; writeUInt64 height;; writeString snapshotDigest;;
      writeUInt64 totalBytes;; writeUInt32 chunkBytes
  | SnapshotChunkRequest requestId checkpointId chunkIndex =>
      writeUInt64 requestId;; writeString checkpointId;; writeUInt64 chunkIndex
  | SnapshotChunkResponse requestId chunkIndex treeSize bytes proof =>
      writeUInt64 requestId;; writeUInt64 chunkIndex;; writeUInt64 treeSize;; writeBytes bytes;;
      writeCounted writeString proof
  | HistoryRangeRequest requestId firstHeight count =>
      writeUInt64 requestId;; writeUInt64 firstHeight;; writeUInt8 count
  | ArchiveIndexRequest requestId fromSegment count | ReplicationStatusRequest requestId fromSegment count =>
      writeUInt64 requestId;; writeUInt64 fromSegment;; writeUInt32 count
  | ArchiveIndexResponse requestId commitments => writeUInt64 requestId;; writeCounted writeBytes commitments
  | ArchiveProviderAnnouncement registration => writeBytes registration
  | ArchiveSegmentsAnnouncement providerId ranges createdAt signature =>
      writeString providerId;; writeCounted writeRange ranges;; writeInt64 createdAt;; writeBytes signature
  | ArchivalChallengeMessage challenge => writeBytes challenge
  | ArchivalProofMessage proof => writeBytes proof
  | ReplicationStatusResponse requestId entries => writeUInt64 requestId;; writeCounted writeEntry entries
  end.

Definition readCount (max : Z) : M Reader.t Z :=
  count ← readUInt32;
  lift (require (count <=? max) "list length exceeds its limit");;
  mret count.
Definition readCounted {A} (max : Z) (read : M Reader.t A) : M Reader.t (list A) :=
  count ← readCount max; readList (Z.to_nat count) read.

Definition readBody (t : HistorySyncMessageType) : M Reader.t HistorySyncMessage :=
  match t with
  | CHECKPOINT_REQUEST => requestId ← readUInt64; height ← readUInt64; mret (CheckpointRequest requestId height)
  | CHECKPOINT_RESPONSE =>
      requestId ← readUInt64; checkpoint ← readBytes; mret (CheckpointResponse requestId checkpoint)
  | SNAPSHOT_MANIFEST_REQUEST =>
      requestId ← readUInt64; checkpointId ← readString; mret (SnapshotManifestRequest requestId checkpointId)
  | SNAPSHOT_MANIFEST_RESPONSE =>
      requestId ← readUInt64; checkpointId ← readString; height ← readUInt64; snapshotDigest ← readString;
      totalBytes ← readUInt64; chunkBytes ← readUInt32;
      mret (SnapshotManifestResponse requestId checkpointId height snapshotDigest totalBytes chunkBytes)
  | SNAPSHOT_CHUNK_REQUEST =>
      requestId ← readUInt64; checkpointId ← readString; chunkIndex ← readUInt64;
      mret (SnapshotChunkRequest requestId checkpointId chunkIndex)
  | SNAPSHOT_CHUNK_RESPONSE =>
      requestId ← readUInt64; chunkIndex ← readUInt64; treeSize ← readUInt64; bytes ← readBytes;
      proof ← readCounted kMaxProofSiblings readString;
      mret (SnapshotChunkResponse requestId chunkIndex treeSize bytes proof)
  | HISTORY_RANGE_REQUEST =>
      requestId ← readUInt64; firstHeight ← readUInt64; count ← readUInt8;
      mret (HistoryRangeRequest requestId firstHeight count)
  | ARCHIVE_INDEX_REQUEST =>
      requestId ← readUInt64; fromSegment ← readUInt64; count ← readUInt32;
      mret (ArchiveIndexRequest requestId fromSegment count)
  | ARCHIVE_INDEX_RESPONSE =>
      requestId ← readUInt64; commitments ← readCounted kMaxIndexEntries readBytes;
      mret (ArchiveIndexResponse requestId commitments)
  | ARCHIVE_PROVIDER_ANNOUNCEMENT => registration ← readBytes; mret (ArchiveProviderAnnouncement registration)
  | ARCHIVE_SEGMENTS_ANNOUNCEMENT =>
      providerId ← readString; ranges ← readCounted kMaxSegmentRanges readRange; createdAt ← readInt64;
      signature ← readBytes; mret (ArchiveSegmentsAnnouncement providerId ranges createdAt signature)
  | ARCHIVAL_CHALLENGE => challenge ← readBytes; mret (ArchivalChallengeMessage challenge)
  | ARCHIVAL_PROOF => proof ← readBytes; mret (ArchivalProofMessage proof)
  | REPLICATION_STATUS_REQUEST =>
      requestId ← readUInt64; fromSegment ← readUInt64; count ← readUInt32;
      mret (ReplicationStatusRequest requestId fromSegment count)
  | REPLICATION_STATUS_RESPONSE =>
      requestId ← readUInt64; entries ← readCounted kMaxIndexEntries readEntry;
      mret (ReplicationStatusResponse requestId entries)
  end.

Definition writeMessage (m : HistorySyncMessage) : M Writer.t unit := writeUInt16 (type_tag (typeOf m));; writeBody m.

Definition encode (m : HistorySyncMessage) : result (list Z) :=
  validate m;;
  bytes ← Writer.bytes (writeMessage m);
  require (Bytes.size bytes <=? kMaxMessageBytes) "message exceeds the cap";;
  Ok bytes.

Definition readMessage : M Reader.t HistorySyncMessage :=
  tag ← readUInt16;
  lift (require ((1 <=? tag) && (tag <=? type_tag REPLICATION_STATUS_RESPONSE)) "unknown message type");;
  message ← match tag_type tag with
            | Some t => readBody t
            | None => throw (invalid_argument "Unknown history sync message type.")
            end;
  requireFullyConsumed;;
  mret message.

Definition decode (bytes : list Z) : result HistorySyncMessage :=
  require (negb (bool_decide (bytes = [])) && (Bytes.size bytes <=? kMaxMessageBytes)) "message size is out of range";;
  message ← parse bytes kMaxMessageBytes readMessage;
  validate message;;
  again ← encode message;
  require (bool_decide (again = bytes)) "message encoding is not canonical";;
  Ok message.

Definition expectedResponse (request : HistorySyncMessageType) : option HistorySyncMessageType :=
  match request with
  | CHECKPOINT_REQUEST => Some CHECKPOINT_RESPONSE
  | SNAPSHOT_MANIFEST_REQUEST => Some SNAPSHOT_MANIFEST_RESPONSE
  | SNAPSHOT_CHUNK_REQUEST => Some SNAPSHOT_CHUNK_RESPONSE
  | ARCHIVE_INDEX_REQUEST => Some ARCHIVE_INDEX_RESPONSE
  | REPLICATION_STATUS_REQUEST => Some REPLICATION_STATUS_RESPONSE
  | _ => None
  end.
End HistoryCodec.

(** ** The per-peer request guard *)

Module RequestGuard.
Record Config := mkConfig {
  maxOutstandingPerPeer : Z;
  maxTrackedPeers : Z;
  maxServedBytesPerWindow : Z;
  windowSeconds : Z;
  requestTimeoutSeconds : Z;
}.

Definition standard : Config := mkConfig 8 4096 (64 * 1024 * 1024) 60 30.

Record Outstanding := Open { expected : HistorySyncMessageType; openedAt : Z }.
Record PeerState := Peer { requests : gmap Z Outstanding; windowStart : Z; servedBytes : Z }.

Record t := mk { limits : Config; nextRequestId : Z; peers : gmap string PeerState }.

Definition init (c : Config) : t := mk c 1 ∅.
Definition fresh_peer : PeerState := Peer ∅ 0 0.

(** [m_peers[peerId]] *)
Definition peer (s : t) (peerId : string) : PeerState := default fresh_peer (peers s !! peerId).
Definition set_peer (peerId : string) (p : PeerState) (s : t) : t :=
  mk (limits s) (nextRequestId s) (<[peerId := p]> (peers s)).

(** A new peer when the table is full. *)
Definition tableFull (s : t) (peerId : string) : bool :=
  bool_decide (peers s !! peerId = None) && (maxTrackedPeers (limits s) <=? Z.of_nat (size (peers s))).

Definition openRequest (peerId : string) (requestType : HistorySyncMessageType) (now : Z) : M t (option Z) := λ s,
  match HistoryCodec.expectedResponse requestType with
  | None => (Ok None, s)
  | Some response =>
      if empty_string peerId then (Ok None, s)
      else if tableFull s peerId then (Ok None, s)
      else
        let p := peer s peerId in
        if maxOutstandingPerPeer (limits s) <=? Z.of_nat (size (requests p)) then (Ok None, set_peer peerId p s)
        else
          let id := nextRequestId s in
          let requests' := match requests p !! id with
                           | Some _ => requests p
                           | None => <[id := Open response now]> (requests p)
                           end in
          (Ok (Some id), mk (limits s) (wrap64 (id + 1))
             (<[peerId := Peer requests' (windowStart p) (servedBytes p)]> (peers s)))
  end.

Definition acceptResponse (peerId : string) (requestId : Z) (responseType : HistorySyncMessageType) (now : Z)
    : M t bool := λ s,
  match peers s !! peerId with
  | None => (Ok false, s)
  | Some p =>
      match requests p !! requestId with
      | None => (Ok false, s)
      | Some request =>
          if negb (bool_decide (expected request = responseType)) ||
             (requestTimeoutSeconds (limits s) <? now - openedAt request) then (Ok false, s)
          else (Ok true, set_peer peerId (Peer (delete requestId (requests p)) (windowStart p) (servedBytes p)) s)
      end
  end.

Definition admitServe (peerId : string) (responseBytes now : Z) : M t bool := λ s,
  if empty_string peerId || (maxServedBytesPerWindow (limits s) <? responseBytes) then (Ok false, s)
  else if tableFull s peerId then (Ok false, s)
  else
    let p := peer s peerId in
    let p := if windowSeconds (limits s) <=? now - windowStart p then Peer (requests p) now 0 else p in
    if maxServedBytesPerWindow (limits s) <? wrap64 (servedBytes p + responseBytes) then (Ok false, set_peer peerId p s)
    else (Ok true, set_peer peerId (Peer (requests p) (windowStart p) (wrap64 (servedBytes p + responseBytes))) s).

(** One peer of [expire]: its live requests and how many were dropped. *)
Definition live (c : Config) (now : Z) (p : PeerState) : gmap Z Outstanding :=
  filter (λ e, ¬ requestTimeoutSeconds c < now - openedAt e.2) (requests p).
Definition keptPeer (c : Config) (now : Z) (p : PeerState) : option PeerState :=
  if bool_decide (live c now p = ∅) && (windowSeconds c <=? now - windowStart p) then None
  else Some (Peer (live c now p) (windowStart p) (servedBytes p)).

Definition expire (now : Z) : M t Z := λ s,
  (Ok (sum_by (λ e, Z.of_nat (size (requests e.2)) - Z.of_nat (size (live (limits s) now e.2))) (entries (peers s))),
   mk (limits s) (nextRequestId s) (omap (keptPeer (limits s) now) (peers s))).

Definition outstanding (s : t) (peerId : string) : Z :=
  match peers s !! peerId with None => 0 | Some p => Z.of_nat (size (requests p)) end.
End RequestGuard.

(** ** Lemmas on the history codec *)

Module HistoryFacts.
Import EncodingFacts CodecFacts Fields HistoryCodec Limits Writer Reader.

#[export] Program Instance range_codec : Codec writeRange readRange :=
  {| image r := image writeUInt64 readUInt64 r.1 ++ image writeUInt64 readUInt64 r.2; fits _ r := u64 r.1 ∧ u64 r.2 |}.
Next Obligation. intros max r [H1 H2]. apply writes_bind; by apply (codec_writes max). Qed.
Next Obligation.
  intros max [a b] [H1 H2]. eapply reads_bind; [by apply codec_reads|]. cbv beta. cbn [snd].
  rewrite <- (app_nil_r (image _ _ b)). eapply reads_bind; [by apply codec_reads|apply reads_ret].
Qed.
Next Obligation.
  refine (consumes_mono _ _ _ (consumes_bind _ _ _ _ codec_consumes (λ a, consumes_bind _ _ _ _ codec_consumes
    (λ b, consumes_ret (a, b) (λ _ r l, l = [] ∧ r = (a, b)) _))) _); [done|].
  intros max r l (a & l1 & l2 & -> & [-> Ha] & b & l3 & l4 & -> & [-> Hb] & -> & ->). by rewrite app_nil_r.
Qed.
Next Obligation. intros max r [H1 H2]. by emit max. Qed.
Next Obligation.
  apply safe_bind; [apply codec_safe|intros a]. apply safe_bind; [apply codec_safe|intros b]. apply safe_ret.
Qed.

#[export] Program Instance entry_codec : Codec writeEntry readEntry :=
  {| image e := image writeUInt64 readUInt64 (segmentIndex e) ++ image writeUInt32 readUInt32 (assignedReplicas e) ++
                image writeUInt32 readUInt32 (provenReplicas e);
     fits _ e := u64 (segmentIndex e) ∧ u32 (assignedReplicas e) ∧ u32 (provenReplicas e) |}.
Next Obligation. intros max e (H1 & H2 & H3). cbv beta. unfold writeEntry. by emit max. Qed.
Next Obligation.
  intros max [a b c] (H1 & H2 & H3). eapply reads_bind; [by apply codec_reads|]. eapply reads_bind; [by apply codec_reads|].
  cbv beta. cbn [provenReplicas]. rewrite <- (app_nil_r (image _ _ c)). eapply reads_bind; [by apply codec_reads|apply reads_ret].
Qed.
Next Obligation.
  refine (consumes_mono _ _ _ (consumes_bind _ _ _ _ codec_consumes (λ a, consumes_bind _ _ _ _ codec_consumes
    (λ b, consumes_bind _ _ _ _ codec_consumes (λ c, consumes_ret (Entry a b c) (λ _ r l, l = [] ∧ r = Entry a b c) _)))) _);
    [done|].
  intros max r l (a & l1 & l2 & -> & [-> Ha] & b & l3 & l4 & -> & [-> Hb] & c & l5 & l6 & -> & [-> Hc] & -> & ->).
  by rewrite app_nil_r.
Qed.
Next Obligation. intros max e (H1 & H2 & H3). by emit max. Qed.
Next Obligation.
  apply safe_bind; [apply codec_safe|intros a]. apply safe_bind; [apply codec_safe|intros b].
  apply safe_bind; [apply codec_safe|intros c]. apply safe_ret.
Qed.

(** Counted lists. *)
Section counted.
Context {A : Type} (write : A → M Writer.t unit) (read : M Reader.t A) `{!Codec write read}.

Definition counted_image (l : list A) : list Z :=
  image writeUInt32 readUInt32 (Z.of_nat (length l)) ++ list_image write read l.

Definition counted_fits (max limit : Z) (l : list A) : Prop :=
  Z.of_nat (length l) ≤ limit ∧ limit ≤ u32_max ∧ Forall (fits write read max) l.

Lemma counted_writes max limit l : counted_fits max limit l → writes (writeCounted write l) (counted_image l).
Proof.
  intros (Hn & Hl & Hf). apply writes_bind; [apply (codec_writes max)|by apply (list_writes write read max)].
  unfold fits; simpl. unfold u32. lia.
Qed.

Lemma counted_reads max limit l : counted_fits max limit l → reads (readCounted limit read) max (counted_image l) l.
Proof.
  intros (Hn & Hl & Hf). apply reads_bind with (Z.of_nat (length l)).
  - rewrite <- (app_nil_r (image _ _ _)). apply reads_bind with (Z.of_nat (length l)).
    + apply codec_reads. unfold fits; simpl. unfold u32. lia.
    + unfold require. replace (Z.of_nat (length l) <=? limit) with true by lia. eapply reads_lift; [done|apply reads_ret].
  - rewrite Nat2Z.id. by apply list_reads.
Qed.

Lemma counted_bytes max limit l : counted_fits max limit l → Forall byte (counted_image l).
Proof.
  intros (_ & _ & Hf). apply Forall_app_2; [apply be_bytes|]. unfold list_image.
  induction Hf as [|x l Hx _ IH]; [constructor|]. apply Forall_app_2; [by apply (codec_bytes max)|exact IH].
Qed.
End counted.

(** The C++ types of the fields of a message. *)
Definition typed (m : HistorySyncMessage) : Prop :=
  match m with
  | CheckpointRequest i h => u64 i ∧ u64 h
  | CheckpointResponse i c => u64 i ∧ Forall byte c
  | SnapshotManifestRequest i _ => u64 i
  | SnapshotManifestResponse i _ h _ t c => u64 i ∧ u64 h ∧ u64 t ∧ u32 c
  | SnapshotChunkRequest i _ k => u64 i ∧ u64 k
  | SnapshotChunkResponse i k t b _ => u64 i ∧ u64 k ∧ u64 t ∧ Forall byte b
  | HistoryRangeRequest i h c => u64 i ∧ u64 h ∧ byte c
  | ArchiveIndexRequest i s c | ReplicationStatusRequest i s c => u64 i ∧ u64 s ∧ u32 c
  | ArchiveIndexResponse i cs => u64 i ∧ Forall (Forall byte) cs
  | ArchiveProviderAnnouncement r => Forall byte r
  | ArchiveSegmentsAnnouncement _ rs t s => Forall (λ r, u64 r.1 ∧ u64 r.2) rs ∧ i64 t ∧ Forall byte s
  | ArchivalChallengeMessage c => Forall byte c
  | ArchivalProofMessage p => Forall byte p
  | ReplicationStatusResponse i es =>
      u64 i ∧ Forall (λ e, u64 (segmentIndex e) ∧ u32 (assignedReplicas e) ∧ u32 (provenReplicas e)) es
  end.

Lemma require_Ok b what u : require b what = Ok u ↔ b = true.
Proof. unfold require. rewrite throw_if_Ok. apply negb_false_iff. Qed.

Lemma bytes_fit l n what u : requireBytes l n what = Ok u → Forall byte l → n ≤ kMaxMessageBytes →
  fits writeBytes readBytes kMaxMessageBytes l.
Proof.
  unfold requireBytes. rewrite require_Ok, andb_true_iff. intros [_ Hs] Hb Hn. unfold fits; simpl.
  unfold sized_fits, kMaxMessageBytes, u32_max in *. split_and!; [lia|lia|done].
Qed.

Lemma id_fits s what u : requireId s what = Ok u → fits writeString readString kMaxMessageBytes s.
Proof.
  unfold requireId. rewrite require_Ok. unfold isDigestHex. destruct (string_size s =? 64) eqn:E; [|done]. intros _.
  unfold fits; simpl. unfold kMaxMessageBytes, u32_max. lia.
Qed.

Lemma tag_roundtrip m : tag_type (type_tag (typeOf m)) = Some (typeOf m) ∧ 1 ≤ type_tag (typeOf m) ≤ 15.
Proof. destruct m; vm_compute; (split; [reflexivity|split; discriminate]). Qed.

(** Opens the checks of [validate] into what each field satisfies. *)
Ltac checks H := repeat lazymatch type of H with
  | (_ ≫= _) = Ok _ => let E := fresh "Hchk" in apply bind_Ok in H as ([] & E & H)
  end.
Ltac note_fields := repeat match goal with
  | H : requireBytes ?l ?n ?w = Ok _, Hb : Forall byte ?l |- _ =>
      pose proof (bytes_fit l n w _ H Hb ltac:(vm_compute; discriminate)); clear H
  | H : requireId ?s ?w = Ok _ |- _ => apply id_fits in H
  | H : require _ _ = Ok _ |- _ => apply require_Ok in H
  | H : _ && _ = true |- _ => apply andb_true_iff in H as [? ?]
  end.

(** Runs an encoder and its decoder field by field. *)
Ltac wire_step := lazymatch goal with
  | |- writes (writeCounted _ _) _ => eapply counted_writes
  | |- writes (_ ≫= _) _ => eapply writes_bind
  | |- writes _ _ => apply (codec_writes kMaxMessageBytes)
  | |- Forall byte (counted_image _ _ _) => eapply counted_bytes
  | |- Forall byte (_ ++ _) => apply Forall_app_2
  | |- Forall byte (image _ _ _) => apply (codec_bytes kMaxMessageBytes)
  | |- reads (mret _) _ _ _ => apply reads_ret
  | |- reads (readCounted _ _) _ _ _ => apply counted_reads
  | |- reads (_ ≫= _) _ (_ ++ _) _ => eapply reads_bind
  | |- reads (_ ≫= _) _ _ _ => eapply reads_last
  | |- reads _ _ (image _ _ _) _ => apply codec_reads
  end.
Ltac wire := eexists; split; [|split]; repeat wire_step; eassumption.

Lemma requireAll_Ok {A} (body : A → result unit) l u : requireAll body l = Ok u ↔ ∀ x, x ∈ l → body x = Ok tt.
Proof. apply foldR_unit. Qed.

Lemma siblings_fit proof u : Z.of_nat (length proof) ≤ kMaxProofSiblings →
  requireAll (λ sibling, requireId sibling "chunk proof sibling") proof = Ok u →
  counted_fits writeString readString kMaxMessageBytes kMaxProofSiblings proof.
Proof.
  intros Hn Hall. unfold counted_fits. split_and!; [done|done|]. apply Forall_forall. intros s Hs.
  eapply id_fits. by apply (proj1 (requireAll_Ok _ _ _) Hall).
Qed.

Lemma commitments_fit cs u : Z.of_nat (length cs) ≤ kMaxIndexEntries → Forall (Forall byte) cs →
  requireAll (λ c, requireBytes c kMaxSegmentCommitmentBytes "segment commitment size") cs = Ok u →
  counted_fits writeBytes readBytes kMaxMessageBytes kMaxIndexEntries cs.
Proof.
  intros Hn Hb Hall. unfold counted_fits. split_and!; [done|done|]. rewrite Forall_forall in *. intros c Hc.
  eapply bytes_fit; [by apply (proj1 (requireAll_Ok _ _ _) Hall)|by apply Hb|done].
Qed.

Lemma history_body m : typed m → validate m = Ok tt →
  ∃ L, writes (writeBody m) L ∧ Forall byte L ∧ reads (readBody (typeOf m)) kMaxMessageBytes L m.
Proof.
  intros Ht Hv. destruct m; simpl in Ht, Hv; checks Hv; destruct_and?; note_fields;
    unfold writeBody, readBody, typeOf; try solve [wire].
  - apply Z.leb_le in H5. apply siblings_fit in Hv; [|done]. wire.
  - apply Z.leb_le in H2. apply commitments_fit in Hv; [|done..]. wire.
  - assert (counted_fits writeRange readRange kMaxMessageBytes kMaxSegmentRanges ranges).
    { unfold counted_fits. split_and!; [lia|done|done]. }
    assert (fits writeString readString kMaxMessageBytes providerId).
    { unfold SafeScalar.isSafeIdentifier in *. destruct (empty_string providerId || _) eqn:E; [discriminate|].
      apply orb_false_iff in E as [_ E]. unfold fits; simpl. unfold kMaxMessageBytes, u32_max. lia. }
    wire.
  - assert (counted_fits writeEntry readEntry kMaxMessageBytes kMaxIndexEntries entries).
    { unfold counted_fits. split_and!; [lia|done|done]. }
    wire.
Qed.

Lemma read_message m L : reads (readBody (typeOf m)) kMaxMessageBytes L m →
  accepts readMessage kMaxMessageBytes (image writeUInt16 readUInt16 (type_tag (typeOf m)) ++ L) m.
Proof.
  intros Hr. destruct (tag_roundtrip m) as [Htag Hrange].
  eapply accepts_bind; [apply codec_reads; unfold fits; simpl; lia|].
  apply (accepts_lift _ _ _ _ tt); [apply require_Ok; change (type_tag REPLICATION_STATUS_RESPONSE) with 15; lia|].
  rewrite Htag. eapply accepts_last; [exact Hr|]. apply accepts_end, accepts_ret.
Qed.

Lemma history_canonical bs m : typed m → decode bs = Ok m ↔ encode m = Ok bs.
Proof.
  intros Ht. split.
  - unfold decode. intros (u & _ & E)%bind_Ok. apply bind_Ok in E as (q & _ & E). apply bind_Ok in E as (u' & _ & E).
    apply bind_Ok in E as (again & Ha & E). apply bind_Ok in E as (u2 & Hc & E). injection E as <-.
    apply require_Ok, bool_decide_eq_true in Hc. by subst again.
  - intros E. pose proof E as E'. unfold encode in E'. apply bind_Ok in E' as ([] & Hv & E').
    apply bind_Ok in E' as (out & Hw & E'). apply bind_Ok in E' as ([] & Hsz & E'). injection E' as ->.
    destruct (history_body m Ht Hv) as (L & HwL & HbL & HrL). destruct (tag_roundtrip m) as [_ Hrange].
    assert (writes (writeMessage m) (image writeUInt16 readUInt16 (type_tag (typeOf m)) ++ L)) as Hwm.
    { apply writes_bind; [|exact HwL]. apply (codec_writes kMaxMessageBytes). unfold fits; simpl. lia. }
    rewrite (writes_bytes _ _ Hwm) in Hw. injection Hw as <-. unfold decode. rewrite require_Ok in Hsz. rewrite Hsz.
    cbn [mbind result_bind require throw_if negb bool_decide andb]. 
    rewrite (parse_accepts _ _ _ m); [|done| |by apply read_message].
    2: { apply (Forall_app_2 byte (be 2 (type_tag (typeOf m))) L); [apply be_bytes|exact HbL]. }
    cbn [mbind result_bind]. rewrite Hv. cbn [mbind result_bind]. rewrite E. cbn [mbind result_bind].
    by rewrite bool_decide_eq_true_2.
Qed.
End HistoryFacts.

(** ** Lemmas on the guard *)

Module GuardFacts.
Import RequestGuard.

Inductive op :=
| OpOpen (peerId : string) (type : HistorySyncMessageType) (now : Z)
| OpAccept (peerId : string) (requestId : Z) (type : HistorySyncMessageType) (now : Z)
| OpServe (peerId : string) (bytes now : Z)
| OpExpire (now : Z).

Definition run (s : t) (o : op) : t :=
  match o with
  | OpOpen p ty now => (openRequest p ty now s).2
  | OpAccept p id ty now => (acceptResponse p id ty now s).2
  | OpServe p bytes now => (admitServe p bytes now s).2
  | OpExpire now => (expire now s).2
  end.

Lemma run_limits s o : limits (run s o) = limits s.
Proof. destruct o; simpl; unfold openRequest, acceptResponse, admitServe; by repeat case_match. Qed.

(** The request [id] of a peer, when it is outstanding. *)
Definition request (s : t) (peerId : string) (id : Z) : option Outstanding := requests (peer s peerId) !! id.

Lemma request_set_peer s q p q' id :
  request (set_peer q p s) q' id = if decide (q = q') then requests p !! id else request s q' id.
Proof.
  unfold request, peer, set_peer. simpl. case_decide as E; [subst; by rewrite lookup_insert_eq|by rewrite lookup_insert_ne].
Qed.

(** What one call does to the outstanding requests: it issues the next id, or
    only forgets requests. *)
Lemma run_requests s o :
  (nextRequestId (run s o) = nextRequestId s ∧
   ∀ q id r, request (run s o) q id = Some r → request s q id = Some r) ∨
  (∃ q ty now response, o = OpOpen q ty now ∧ HistoryCodec.expectedResponse ty = Some response ∧
   nextRequestId (run s o) = wrap64 (nextRequestId s + 1) ∧
   ∀ q' id r, request (run s o) q' id = Some r → request s q' id = Some r ∨
     (q' = q ∧ id = nextRequestId s ∧ r = Open response now)).
Proof.
  destruct o as [q ty now|q i ty now|q bytes now|now]; simpl.
  - unfold openRequest. destruct (HistoryCodec.expectedResponse ty) as [response|] eqn:Er; [|by left].
    destruct (empty_string q); [by left|]. destruct (tableFull s q); [by left|].
    destruct (_ <=? _).
    + left. split; [done|]. intros q' id r. simpl. rewrite request_set_peer. case_decide as E; [by subst|done].
    + right. exists q, ty, now, response. split_and!; [done|done|done|]. intros q' id r. simpl.
      unfold request at 1, peer at 1. simpl. destruct (decide (q = q')) as [<-|Hne].
      2: { rewrite lookup_insert_ne by done. by left. }
      rewrite lookup_insert_eq. simpl. destruct (requests (peer s q) !! nextRequestId s) eqn:En; [by left|].
      destruct (decide (nextRequestId s = id)) as [<-|Hi].
      * rewrite lookup_insert_eq. intros [= <-]. by right.
      * rewrite lookup_insert_ne by done. by left.
  - left. unfold acceptResponse. destruct (peers s !! q) as [p|] eqn:Ep; [|done].
    destruct (requests p !! i) as [req|] eqn:Ereq; [|done]. destruct (_ || _); [done|]. split; [done|].
    intros q' id r. simpl. rewrite request_set_peer. case_decide as E; [subst q'|done]. simpl.
    intros [Hne Hlk]%lookup_delete_Some. unfold request, peer. by rewrite Ep.
  - left. unfold admitServe. destruct (_ || _); [done|]. destruct (tableFull s q); [done|].
    assert (∀ c p, requests (if c : bool then Peer (requests p) now 0 else p) = requests p) as Hreq by (by intros []).
    destruct (_ <? wrap64 _); (split; [done|]); intros q' id r; simpl; rewrite request_set_peer;
      (case_decide as E; [subst q'; by rewrite ?Hreq|done]).
  - left. split; [done|]. intros q id r. unfold request, peer. simpl. rewrite lookup_omap.
    destruct (peers s !! q) as [p|]; simpl; [|done]. unfold keptPeer. case_match; simpl; [by rewrite lookup_empty|].
    unfold live. by intros [Hlk _]%map_lookup_filter_Some.
Qed.

(** Outstanding requests were opened by this node, under ids already used. *)
Record solicited (ops : list op) (s : t) : Prop := {
  sol_next : 1 ≤ nextRequestId s ≤ 1 + Z.of_nat (length ops);
  sol_open q id r : request s q id = Some r → 1 ≤ id < nextRequestId s ∧
    ∃ ty, OpOpen q ty (openedAt r) ∈ ops ∧ HistoryCodec.expectedResponse ty = Some (expected r);
}.

Lemma solicited_init c : solicited [] (init c).
Proof.
  split; [simpl; lia|]. intros q id r. unfold request, peer. simpl. rewrite lookup_empty. simpl. by rewrite lookup_empty.
Qed.

Lemma run_solicited ops s o : Z.of_nat (length ops) + 1 < u64_max → solicited ops s → solicited (ops ++ [o]) (run s o).
Proof.
  intros Hlen [Hn Ho]. assert (length (ops ++ [o]) = S (length ops)) as El by (rewrite length_app; simpl; lia).
  destruct (run_requests s o) as [[Hk Hr]|(q & ty & now & response & -> & Hty & Hk & Hr)].
  - split; [rewrite Hk, El; lia|]. intros q id r Hreq. rewrite Hk. destruct (Ho q id r (Hr _ _ _ Hreq)) as (Hid & ty & Hin & E).
    split; [done|]. exists ty. split; [apply elem_of_app; by left|done].
  - unfold wrap64 in Hk. unfold u64_max in Hlen. rewrite Z.mod_small in Hk by lia. split; [rewrite Hk, El; lia|].
    intros q' id r [Hreq|(-> & -> & ->)]%Hr; rewrite Hk.
    + destruct (Ho q' id r Hreq) as (Hid & ty' & Hin & E). split; [lia|]. exists ty'. split; [apply elem_of_app; by left|done].
    + split; [lia|]. exists ty. split; [|done]. apply elem_of_app. right. by apply list_elem_of_singleton.
Qed.

Lemma run_all_solicited ops s more : Z.of_nat (length ops) + Z.of_nat (length more) < u64_max → solicited ops s →
  solicited (ops ++ more) (foldl run s more).
Proof.
  revert ops s. induction more as [|o more IH]; intros ops s Hlen Hs; simpl; [by rewrite app_nil_r|].
  replace (ops ++ o :: more) with ((ops ++ [o]) ++ more) by (by rewrite <- app_assoc).
  simpl in Hlen. apply IH; [rewrite length_app; simpl; lia|]. apply run_solicited; [lia|done].
Qed.

(** A request that is gone stays gone: ids are not issued twice. *)
Lemma gone_stays q id s more : 1 ≤ nextRequestId s → id < nextRequestId s →
  nextRequestId s + Z.of_nat (length more) ≤ u64_max → request s q id = None → request (foldl run s more) q id = None.
Proof.
  revert s. induction more as [|o more IH]; intros s H1 Hid Hlen Hg; simpl; [done|]. simpl in Hlen.
  assert (nextRequestId s ≤ nextRequestId (run s o) ≤ nextRequestId s + 1) as Hn.
  { destruct (run_requests s o) as [[E _]|(q' & ty & now & rsp & Eo & _ & E & _)]; rewrite E; [lia|].
    unfold wrap64. unfold u64_max in Hlen. rewrite Z.mod_small by lia. lia. }
  apply IH; [lia..|]. destruct (request (run s o) q id) as [r|] eqn:E; [|done].
  destruct (run_requests s o) as [[_ Hr]|(q' & ty & now & rsp & Eo & _ & _ & Hr)]; apply Hr in E; [congruence|].
  destruct E as [E|(_ & -> & _)]; [congruence|lia].
Qed.

(** What a true answer of [acceptResponse] means. *)
Lemma accept_true q id ty now s : (acceptResponse q id ty now s).1 = Ok true →
  ∃ r, request s q id = Some r ∧ expected r = ty ∧ now - openedAt r ≤ requestTimeoutSeconds (limits s) ∧
    request (acceptResponse q id ty now s).2 q id = None.
Proof.
  unfold acceptResponse, request at 1, peer at 1. destruct (peers s !! q) as [p|] eqn:Ep; [|done].
  destruct (requests p !! id) as [r|] eqn:Er; [|done]. destruct (negb _ || _) eqn:Eb; [done|]. intros _.
  apply orb_false_iff in Eb as [Ht Hn]. apply negb_false_iff, bool_decide_eq_true in Ht.
  exists r. split_and!; [done|done|lia|]. cbn [snd]. rewrite request_set_peer, decide_True by done. simpl.
  by rewrite lookup_delete_eq.
Qed.

Lemma accept_gone q id ty now s : request s q id = None → (acceptResponse q id ty now s).1 = Ok false.
Proof.
  unfold acceptResponse, request, peer. destruct (peers s !! q) as [p|]; simpl; [|done]. by intros ->.
Qed.

Lemma accept_next q id ty now s : nextRequestId (acceptResponse q id ty now s).2 = nextRequestId s.
Proof. unfold acceptResponse. by repeat case_match. Qed.

Lemma run_all_limits c ops : limits (foldl run (init c) ops) = c.
Proof.
  change c with (limits (init c)) at 2. generalize (init c). induction ops as [|o ops IH]; intros s; simpl; [done|].
  rewrite IH. apply run_limits.
Qed.

(** Memory and bandwidth stay within the limits. *)
Record bounded (s : t) : Prop := {
  bnd_peers : Z.of_nat (size (peers s)) ≤ maxTrackedPeers (limits s);
  bnd_peer q p : peers s !! q = Some p →
    Z.of_nat (size (requests p)) ≤ maxOutstandingPerPeer (limits s) ∧
    0 ≤ servedBytes p ≤ maxServedBytesPerWindow (limits s);
}.

(** Limits a node can have: not negative, and far from the 64-bit bound. *)
Definition sensible (c : Config) : Prop :=
  0 ≤ maxOutstandingPerPeer c ∧ 0 ≤ maxTrackedPeers c ∧ 0 ≤ maxServedBytesPerWindow c ≤ i64_max.

Lemma set_peer_bounded s q p : bounded s → tableFull s q = false ∨ is_Some (peers s !! q) →
  Z.of_nat (size (requests p)) ≤ maxOutstandingPerPeer (limits s) →
  0 ≤ servedBytes p ≤ maxServedBytesPerWindow (limits s) → ∀ n, bounded (mk (limits s) n (<[q := p]> (peers s))).
Proof.
  intros [Hp Hq] Hroom Hr Hsv n. split; simpl.
  - destruct (peers s !! q) as [p0|] eqn:E.
    + rewrite map_size_insert_Some by (by rewrite E). done.
    + rewrite map_size_insert_None by done. destruct Hroom as [Hf|[? [=]]]. unfold tableFull in Hf.
      rewrite E, bool_decide_eq_true_2 in Hf by done. simpl in Hf. lia.
  - intros q' p' [[<- <-]|[Hne H]]%lookup_insert_Some; [done|by apply (Hq q')].
Qed.

Lemma peer_bounded s q : sensible (limits s) → bounded s →
  Z.of_nat (size (requests (peer s q))) ≤ maxOutstandingPerPeer (limits s) ∧
  0 ≤ servedBytes (peer s q) ≤ maxServedBytesPerWindow (limits s).
Proof.
  intros (H1 & H2 & H3) [_ Hq]. unfold peer. destruct (peers s !! q) as [p|] eqn:E; simpl; [by apply (Hq q)|].
  rewrite map_size_empty. lia.
Qed.

Lemma run_bounded s o : sensible (limits s) → bounded s → bounded (run s o).
Proof.
  intros Hc Hb. pose proof Hc as (H1 & H2 & H3). destruct o as [q ty now|q i ty now|q bytes now|now]; simpl.
  - unfold openRequest. destruct (HistoryCodec.expectedResponse ty); [|done]. destruct (empty_string q); [done|].
    destruct (tableFull s q) eqn:Hf; [done|]. destruct (peer_bounded s q Hc Hb) as [Hr Hs].
    destruct (_ <=? _) eqn:El; simpl; [apply set_peer_bounded; auto|]. apply set_peer_bounded; auto. simpl.
    destruct (requests (peer s q) !! nextRequestId s) eqn:En; [done|]. rewrite map_size_insert_None by done. lia.
  - unfold acceptResponse. destruct (peers s !! q) as [p|] eqn:Ep; [|done].
    destruct (requests p !! i) as [req|] eqn:Ereq; [|done]. destruct (_ || _); [done|]. simpl.
    destruct (bnd_peer s Hb q p Ep) as [Hr Hs]. apply set_peer_bounded; auto. simpl.
    pose proof (map_size_delete i (requests p)) as Hd. rewrite Ereq in Hd. lia.
  - unfold admitServe. destruct (_ || _) eqn:E0; [done|]. destruct (tableFull s q) eqn:Hf; [done|].
    destruct (peer_bounded s q Hc Hb) as [Hr Hs].
    set (p := if windowSeconds (limits s) <=? now - windowStart (peer s q) then _ else _).
    assert (requests p = requests (peer s q) ∧ 0 ≤ servedBytes p ≤ maxServedBytesPerWindow (limits s)) as [Ep Hp].
    { unfold p. destruct (_ <=? _); simpl; split; (done || lia). }
    destruct (_ <? wrap64 _) eqn:El; simpl; apply set_peer_bounded; auto; simpl; rewrite ?Ep; auto.
    unfold wrap64 in *. pose proof (Z.mod_pos_bound (servedBytes p + bytes) 18446744073709551616). lia.
  - destruct Hb as [Hp Hq]. split; simpl.
    + etrans; [|exact Hp]. apply inj_le. rewrite <- !size_dom. apply subseteq_size. intros q.
      rewrite !elem_of_dom. intros [p' Hp']. rewrite lookup_omap in Hp'. destruct (peers s !! q); [done|discriminate].
    + intros q p'. rewrite lookup_omap. destruct (peers s !! q) as [p|] eqn:E; simpl; [|done].
      unfold keptPeer. case_match; [done|]. intros [= <-]. simpl. destruct (Hq q p E) as [Hr Hs]. split; [|done].
      etrans; [|exact Hr]. apply inj_le. unfold live. apply map_size_filter.
Qed.
End GuardFacts.

Module HistoryProperties.
Import EncodingFacts HistoryFacts GuardFacts HistoryCodec RequestGuard.

(** The wire form of the fifteen history messages is canonical: bytes decode to
    a message exactly when they are the bytes the encoder writes for it. No second
    byte string decodes to the same message, and every message that passes
    [validate] and fits the cap survives the trip. *)
Theorem history_messages_canonical (bs : list Z) (m : HistorySyncMessage) (H : typed m) :
  decode bs = Ok m ↔ encode m = Ok bs.
Proof. by apply history_canonical. Qed.

Definition sample_range : HistorySyncMessage := HistoryRangeRequest 7 100 4.

Lemma history_messages_canonical_witness :
  encode sample_range = Ok ([0; 7] ++ [0; 0; 0; 0; 0; 0; 0; 7] ++ [0; 0; 0; 0; 0; 0; 0; 100] ++ [4]) ∧
  decode ([0; 7] ++ [0; 0; 0; 0; 0; 0; 0; 7] ++ [0; 0; 0; 0; 0; 0; 0; 100] ++ [4]) = Ok sample_range.
Proof.
  split; [vm_compute; reflexivity|].
  apply (history_messages_canonical _ sample_range); [unfold sample_range; simpl; unfold u64, u64_max, byte; lia|vm_compute; reflexivity].
Defined.

(** A response is accepted only when this node asked that very peer for it, with
    a request of the matching type that has not timed out; and it is accepted at
    most once: whatever calls follow, the same peer and request id are refused. *)
Theorem responses_are_solicited_once (c : Config) (ops more : list op) (q : string) (id now now' : Z)
    (ty ty' : HistorySyncMessageType)
    (Hlen : Z.of_nat (length ops) + Z.of_nat (length more) + 1 < u64_max)
    (Hacc : (acceptResponse q id ty now (foldl run (init c) ops)).1 = Ok true) :
  (∃ request opened, OpOpen q request opened ∈ ops ∧ expectedResponse request = Some ty ∧
     now - opened ≤ requestTimeoutSeconds c) ∧
  (acceptResponse q id ty' now' (foldl run (init c) (ops ++ OpAccept q id ty now :: more))).1 = Ok false.
Proof.
  rewrite foldl_app. cbn [foldl]. set (s := foldl run (init c) ops) in *.
  assert (solicited ops s) as [Hn Ho] by (apply (run_all_solicited []); [simpl; lia|apply solicited_init]).
  destruct (accept_true q id ty now s Hacc) as (r & Hr & <- & Ht & Hgone).
  destruct (Ho q id r Hr) as (Hid & req & Hin & He). split.
  - exists req, (openedAt r). split_and!; [done|done|]. replace c with (limits s); [done|]. apply run_all_limits.
  - apply accept_gone. apply gone_stays; simpl; rewrite ?accept_next; [lia..|done].
Qed.

Lemma responses_are_solicited_once_witness :
  (acceptResponse "peer" 1 CHECKPOINT_RESPONSE 110
     (foldl run (init standard) [OpOpen "peer" CHECKPOINT_REQUEST 100])).1 = Ok true ∧
  (acceptResponse "peer" 1 CHECKPOINT_RESPONSE 111
     (foldl run (init standard) ([OpOpen "peer" CHECKPOINT_REQUEST 100] ++
        OpAccept "peer" 1 CHECKPOINT_RESPONSE 110 :: [OpOpen "peer" CHECKPOINT_REQUEST 110]))).1 = Ok false.
Proof.
  split; [vm_compute; reflexivity|].
  refine (proj2 (responses_are_solicited_once standard [OpOpen "peer" CHECKPOINT_REQUEST 100]
    [OpOpen "peer" CHECKPOINT_REQUEST 110] "peer" 1 110 111 CHECKPOINT_RESPONSE CHECKPOINT_RESPONSE _ _));
    [vm_compute; reflexivity|vm_compute; reflexivity].
Defined.

(** Whatever peers do, the guard's memory and the bytes it lets this node serve
    stay within its limits: at most [maxTrackedPeers] peers, and for each of them at
    most [maxOutstandingPerPeer] open requests and [maxServedBytesPerWindow] bytes. *)
Theorem guard_stays_bounded (c : Config) (ops : list op) (H : sensible c) :
  bounded (foldl run (init c) ops) ∧ limits (foldl run (init c) ops) = c.
Proof.
  split; [|apply run_all_limits]. assert (bounded (init c)) as Hb.
  { destruct H as (H1 & H2 & H3). split; simpl; [by rewrite map_size_empty|]. intros q p. by rewrite lookup_empty. }
  assert (sensible (limits (init c))) as Hc by done. revert Hb Hc. generalize (init c).
  induction ops as [|o ops IH]; intros s Hb Hc; simpl; [done|]. apply IH; [by apply run_bounded|by rewrite run_limits].
Qed.

Lemma guard_stays_bounded_witness :
  bounded (foldl run (init standard) [OpOpen "a" CHECKPOINT_REQUEST 1; OpServe "b" 70000000 2; OpServe "a" 60000000 2;
    OpServe "a" 60000000 3]) ∧
  servedBytes (peer (foldl run (init standard) [OpOpen "a" CHECKPOINT_REQUEST 1; OpServe "b" 70000000 2;
    OpServe "a" 60000000 2; OpServe "a" 60000000 3]) "a") = 60000000.
Proof.
  split; [|vm_compute; reflexivity].
  apply (guard_stays_bounded standard). vm_compute. repeat split; discriminate.
Defined.
End HistoryProperties.
