(* ===== verification/Merkle.v ===== *)
(** * serialization: the v1 hash primitives and Merkle trees

    Models src/src/serialization/V1EncodingPrimitives.cpp (object frames, domain
    separated hashes, the reference Merkle root) and V1MerkleTree.cpp (roots,
    inclusion proofs and their verification).  A digest is a list of 32 bytes.
    Recursion over ranges of leaves has fuel 65: every step at least halves the
    range rounded up to a power of two, and ranges are at most 2^64 long; the
    lemmas of [SplitFacts] and [MerkleFacts] show that the fuel is never used up. *)

From Stdlib Require Import Ascii.
From S2P Require Import Prelude Utils Crypto Encoding.

Abbreviation Digest := (list Z).

Module V1.
Section v1.
Context `{Sha256}.

Inductive Kind :=
| GENESIS | TRANSACTION | HEADER | BLOCK_BODY | RECEIPT | VOTE | PROPOSAL | QUORUM_CERTIFICATE | EVIDENCE
| VALIDATOR_SET | PARAMETER_SET | FINALIZED_ARTIFACT | STATE_SNAPSHOT | NETWORK_ENVELOPE.

Definition kind_tag (k : Kind) : Z :=
  match k with
  | GENESIS => 1 | TRANSACTION => 2 | HEADER => 3 | BLOCK_BODY => 4 | RECEIPT => 5 | VOTE => 6 | PROPOSAL => 7
  | QUORUM_CERTIFICATE => 8 | EVIDENCE => 9 | VALIDATOR_SET => 10 | PARAMETER_SET => 11
  | FINALIZED_ARTIFACT => 12 | STATE_SNAPSHOT => 13 | NETWORK_ENVELOPE => 14
  end.

Definition kVersion : Z := 1.
Definition kMaxListElements : Z := 1048576.
Definition kPrefixBytes : Z := 8.
Definition kMaxFrameBytes : Z := 5 * 1024 * 1024.

Definition maxObjectBytes (k : Kind) : Z :=
  match k with
  | TRANSACTION => 262144
  | HEADER => 4096
  | VOTE => 1024
  | RECEIPT => 65536
  | EVIDENCE => 262144
  | BLOCK_BODY | QUORUM_CERTIFICATE => 1048576
  | GENESIS | VALIDATOR_SET | PARAMETER_SET => 1048576
  | STATE_SNAPSHOT | NETWORK_ENVELOPE | PROPOSAL | FINALIZED_ARTIFACT => 4194304
  end.

Definition topLevel (k : Kind) (typedPayload : list Z) : result (list Z) :=
  throw_if (maxObjectBytes k - kPrefixBytes <? Bytes.size typedPayload)
    (length_error "V1 object exceeds its byte limit.");;
  prefix ← Writer.bytes (for_each Writer.writeUInt8 (Bytes.of_string "NODO");;
                         Writer.writeUInt16 kVersion;; Writer.writeUInt16 (kind_tag k));
  Ok (prefix ++ typedPayload).

(** [ch >= 0x21 && ch <= 0x7e] *)
Definition printable (c : ascii) : bool := (33 <=? Hex.code c) && (Hex.code c <=? 126).

Definition hash_input (domain : string) (bytes : list Z) : list Z :=
  Bytes.of_string "NODO/V1/" ++ Bytes.of_string domain ++ [0] ++ bytes.

Definition hash (domain : string) (bytes : list Z) : result Digest :=
  if empty_string domain || (64 <? string_size domain) || negb (SafeScalar.all_chars printable domain) ||
     (kMaxFrameBytes <? Bytes.size bytes) then
    Throw (invalid_argument "Invalid v1 hash domain or input length.")
  else
    match evp_sha256 (Bytes.to_string (hash_input domain bytes)) with
    | Some digest =>
        if Bytes.size digest =? 32 then Ok digest else Throw (runtime_error "V1 SHA-256 calculation failed.")
    | None => Throw (runtime_error "V1 SHA-256 calculation failed.")
    end.

Definition merkleDomain (label kind : string) : result string :=
  if negb (String.eqb kind "tx") && negb (String.eqb kind "receipt") && negb (String.eqb kind "evidence") &&
     negb (String.eqb kind "state") then Throw (invalid_argument "Unknown v1 Merkle kind.")
  else Ok (label +:+ kind).

(** [while (split <= (count - 1) / 2) split *= 2;] *)
Fixpoint splitLoop (fuel : nat) (split limit : Z) : result Z :=
  match fuel with
  | O => Throw OutOfFuel
  | S fuel => if split <=? limit then splitLoop fuel (wrap64 (split * 2)) limit else Ok split
  end.

(** [leaves[index]] *)
Definition leaf_at (leaves : list Digest) (index : Z) : result Digest :=
  match leaves !! Z.to_nat index with Some d => Ok d | None => Throw UndefinedBehaviour end.

Definition depth_fuel : nat := 65.

Fixpoint merkleTree (fuel : nat) (kind : string) (leaves : list Digest) (begin_ end_ : Z) : result Digest :=
  match fuel with
  | O => Throw OutOfFuel
  | S fuel =>
      let count := wrap64 (end_ - begin_) in
      if count =? 1 then leaf_at leaves begin_
      else
        split ← splitLoop depth_fuel 1 (wrap64 (count - 1) / 2);
        left ← merkleTree fuel kind leaves begin_ (wrap64 (begin_ + split));
        right ← merkleTree fuel kind leaves (wrap64 (begin_ + split)) end_;
        domain ← merkleDomain "MERKLE-NODE/" kind;
        hash domain (left ++ right)
  end.

(** The loop of [merkleRoot] over the elements. *)
Fixpoint leavesOf (leafDomain : string) (index : Z) (elements : list (list Z)) : result (list Digest) :=
  match elements with
  | [] => Ok []
  | element :: elements =>
      throw_if (kMaxFrameBytes - 4 <? Bytes.size element) (length_error "V1 Merkle element exceeds its byte limit.");;
      position ← Writer.bytes (Writer.writeUInt32 index);
      leaf ← hash leafDomain (position ++ element);
      rest ← leavesOf leafDomain (index + 1) elements;
      Ok (leaf :: rest)
  end.

Definition merkleRoot (kind : string) (elements : list (list Z)) : result Digest :=
  leafDomain ← merkleDomain "MERKLE-LEAF/" kind;
  throw_if (kMaxListElements <? Z.of_nat (length elements))
    (length_error "V1 Merkle tree exceeds its leaf count limit.");;
  if bool_decide (elements = []) then
    domain ← merkleDomain "MERKLE-EMPTY/" kind; hash domain []
  else
    leaves ← leavesOf leafDomain 0 elements;
    tree ← merkleTree depth_fuel kind leaves 0 (Z.of_nat (length leaves));
    count ← Writer.bytes (Writer.writeUInt32 (Z.of_nat (length leaves)));
    domain ← merkleDomain "MERKLE-ROOT/" kind;
    hash domain (count ++ tree).

Definition hex (digest : Digest) : string := Hex.hexEncode digest.
End v1.
End V1.

Module Tree.
Import V1.
Record InclusionProof := Proof { leafIndex : Z; treeSize : Z; siblings : list Digest }.

#[global] Instance InclusionProof_eq_dec : EqDecision InclusionProof.
Proof. solve_decision. Defined.

Definition kMaxLeaves : Z := kMaxListElements.
Definition kMaxProofSiblings : Z := 64.

Definition isAllowedKind (kind : string) : bool :=
  existsb (String.eqb kind) ["tx"; "receipt"; "evidence"; "state"; "archive"; "archive-index"; "snapshot-chunk"].

Section tree.
Context `{Sha256}.

Definition domain (label kind : string) : result string :=
  if negb (isAllowedKind kind) then Throw (invalid_argument "Unknown v1 Merkle kind.") else Ok (label +:+ kind).

Definition splitPoint (count : Z) : result Z := splitLoop depth_fuel 1 (wrap64 (count - 1) / 2).

Definition nodeHash (kind : string) (left right : Digest) : result Digest :=
  d ← domain "MERKLE-NODE/" kind; hash d (left ++ right).

Definition countedRoot (kind : string) (count : Z) (treeHash : Digest) : result Digest :=
  counted ← Writer.bytes (Writer.writeUInt32 (count mod 4294967296));
  d ← domain "MERKLE-ROOT/" kind;
  hash d (counted ++ treeHash).

Fixpoint subtree (fuel : nat) (kind : string) (leaves : list Digest) (begin_ end_ : Z) : result Digest :=
  match fuel with
  | O => Throw OutOfFuel
  | S fuel =>
      let count := wrap64 (end_ - begin_) in
      if count =? 1 then leaf_at leaves begin_
      else
        split ← splitPoint count;
        left ← subtree fuel kind leaves begin_ (wrap64 (begin_ + split));
        right ← subtree fuel kind leaves (wrap64 (begin_ + split)) end_;
        nodeHash kind left right
  end.

Record PendingProof := Pending { index : Z; slot : nat }.

(** [proofs[item.slot].siblings.push_back(sibling)] for every item. *)
Definition push_sibling (sibling : Digest) (p : InclusionProof) : InclusionProof :=
  Proof (leafIndex p) (treeSize p) (siblings p ++ [sibling]).
Definition push_all (items : list PendingProof) (sibling : Digest) : M (list InclusionProof) unit :=
  for_each (λ item proofs,
    match proofs !! slot item with
    | Some p => (Ok tt, <[slot item := push_sibling sibling p]> proofs)
    | None => (Throw UndefinedBehaviour, proofs)
    end) items.

Fixpoint buildWithProofs (fuel : nat) (kind : string) (leaves : list Digest) (begin_ end_ : Z)
    (pending : list PendingProof) : M (list InclusionProof) Digest :=
  match fuel with
  | O => throw OutOfFuel
  | S fuel' =>
      let count := wrap64 (end_ - begin_) in
      if bool_decide (pending = []) then lift (subtree fuel kind leaves begin_ end_)
      else if count =? 1 then lift (leaf_at leaves begin_)
      else
        split ← lift (splitPoint count);
        let middle := wrap64 (begin_ + split) in
        let left := filter (λ item, index item < middle) pending in
        let right := filter (λ item, ¬ index item < middle) pending in
        leftHash ← buildWithProofs fuel' kind leaves begin_ middle left;
        rightHash ← buildWithProofs fuel' kind leaves middle end_ right;
        push_all left rightHash;;
        push_all right leftHash;;
        lift (nodeHash kind leftHash rightHash)
  end.

(** The state is the reference parameter [remaining]. *)
Fixpoint rebuild (fuel : nat) (kind : string) (count index : Z) (leaf : Digest) (siblings : list Digest)
    : M nat (option Digest) :=
  match fuel with
  | O => throw OutOfFuel
  | S fuel =>
      if count =? 1 then mret (Some leaf)
      else
        remaining ← gets (λ remaining, remaining);
        match remaining with
        | O => mret None
        | S remaining =>
            modify (λ _, remaining);;
            sibling ← lift (leaf_at siblings (Z.of_nat remaining));
            split ← lift (splitPoint count);
            if index <? split then
              leftHash ← rebuild fuel kind split index leaf siblings;
              match leftHash with
              | None => mret None
              | Some l => h ← lift (nodeHash kind l sibling); mret (Some h)
              end
            else
              rightHash ← rebuild fuel kind (wrap64 (count - split)) (wrap64 (index - split)) leaf siblings;
              match rightHash with
              | None => mret None
              | Some r => h ← lift (nodeHash kind sibling r); mret (Some h)
              end
        end
  end.

Definition leafHash (kind : string) (index : Z) (element : list Z) : result Digest :=
  throw_if (kMaxLeaves <=? index) (length_error "V1 Merkle leaf index exceeds the leaf limit.");;
  position ← Writer.bytes (Writer.writeUInt32 (index mod 4294967296));
  d ← domain "MERKLE-LEAF/" kind;
  hash d (position ++ element).

(** [for (index = 0; ...) leaves.push_back(leafHash(kind, index, elements[index]));] *)
Fixpoint leafHashes (kind : string) (index : Z) (elements : list (list Z)) : result (list Digest) :=
  match elements with
  | [] => Ok []
  | element :: elements =>
      leaf ← leafHash kind index element;
      rest ← leafHashes kind (index + 1) elements;
      Ok (leaf :: rest)
  end.

Definition rootFromLeafHashes (kind : string) (leaves : list Digest) : result Digest :=
  throw_if (kMaxLeaves <? Z.of_nat (length leaves)) (length_error "V1 Merkle tree exceeds its leaf count limit.");;
  if bool_decide (leaves = []) then d ← domain "MERKLE-EMPTY/" kind; hash d []
  else
    tree ← subtree depth_fuel kind leaves 0 (Z.of_nat (length leaves));
    countedRoot kind (Z.of_nat (length leaves)) tree.

Definition root (kind : string) (elements : list (list Z)) : result Digest :=
  throw_if (kMaxLeaves <? Z.of_nat (length elements)) (length_error "V1 Merkle tree exceeds its leaf count limit.");;
  leaves ← leafHashes kind 0 elements;
  rootFromLeafHashes kind leaves.

Definition prove (kind : string) (leaves : list Digest) (indices : list Z) : result (list InclusionProof) :=
  throw_if (negb (isAllowedKind kind)) (invalid_argument "Unknown v1 Merkle kind.");;
  throw_if (bool_decide (leaves = []) || (kMaxLeaves <? Z.of_nat (length leaves)))
    (invalid_argument "V1 Merkle proof requires a bounded tree.");;
  foldR (λ _ i, throw_if (Z.of_nat (length leaves) <=? i)
    (out_of_range "V1 Merkle proof index is outside the tree.")) tt indices;;
  let proofs := (λ i, Proof i (Z.of_nat (length leaves)) []) <$> indices in
  let pending := imap (λ slot i, Pending i slot) indices in
  on_local (buildWithProofs depth_fuel kind leaves 0 (Z.of_nat (length leaves)) pending) proofs.

(** [try { ... } catch (const std::exception&) { return false; }]: what is not an
    exception is not caught. *)
Definition catch_false (r : result bool) : result bool :=
  match r with
  | Ok b => Ok b
  | Throw OutOfFuel => Throw OutOfFuel
  | Throw UndefinedBehaviour => Throw UndefinedBehaviour
  | Throw _ => Ok false
  end.

Definition verifyLeafHash (kind : string) (expectedRoot : Digest) (proof : InclusionProof) (leaf : Digest)
    : result bool := catch_false (
  if negb (isAllowedKind kind) || (treeSize proof =? 0) || (kMaxLeaves <? treeSize proof) ||
     (treeSize proof <=? leafIndex proof) || (kMaxProofSiblings <? Z.of_nat (length (siblings proof))) then Ok false
  else
    match rebuild depth_fuel kind (treeSize proof) (leafIndex proof) leaf (siblings proof) (length (siblings proof)) with
    | (Ok (Some treeHash), O) =>
        r ← countedRoot kind (treeSize proof) treeHash; Ok (bool_decide (r = expectedRoot))
    | (Ok _, _) => Ok false
    | (Throw e, _) => Throw e
    end).

Definition verify (kind : string) (expectedRoot : Digest) (proof : InclusionProof) (element : list Z) : result bool :=
  catch_false (
    if (treeSize proof =? 0) || (kMaxLeaves <? treeSize proof) || (treeSize proof <=? leafIndex proof) then Ok false
    else leaf ← leafHash kind (leafIndex proof) element; verifyLeafHash kind expectedRoot proof leaf).
End tree.

Definition hexValue (c : ascii) : Z :=
  let v := Hex.code c in
  if (48 <=? v) && (v <=? 57) then v - 48
  else if (97 <=? v) && (v <=? 102) then v - 97 + 10
  else -1.

(** The loop of [digestFromHex], two characters per byte. *)
Fixpoint hexPairs (hex : string) : option Digest :=
  match hex with
  | String hi (String lo hex) =>
      if (hexValue hi <? 0) || (hexValue lo <? 0) then None
      else rest ← hexPairs hex; Some (Z.lor (Z.shiftl (hexValue hi) 4) (hexValue lo) :: rest)
  | _ => Some []
  end.

Definition digestFromHex (hex : string) : option Digest :=
  if negb (string_size hex =? 64) then None else hexPairs hex.
End Tree.

(** ** Splits *)

Module SplitFacts.
Import V1 Tree.

(** [n] leaves are split after [2 ^ k]. *)
Definition splits (n k : Z) : Prop := 0 ≤ k ∧ 2 ^ k < n ≤ 2 ^ (k + 1).

Lemma splits_unique n k k' : splits n k → splits n k' → k = k'.
Proof.
  intros (Hk & H1 & H2) (Hk' & H3 & H4).
  assert (k < k' + 1) by (apply (Z.pow_lt_mono_r_iff 2); lia).
  assert (k' < k + 1) by (apply (Z.pow_lt_mono_r_iff 2); lia). lia.
Qed.

(** The part that is not split off first is no longer than the first. *)
Lemma splits_half n k : splits n k → 1 ≤ 2 ^ k < n ∧ 1 ≤ n - 2 ^ k ≤ 2 ^ k.
Proof.
  intros (Hk & H1 & H2). rewrite Z.pow_add_r in H2 by lia. change (2 ^ 1) with 2 in H2.
  pose proof (Z.pow_pos_nonneg 2 k). lia.
Qed.

Lemma splits_fuel n k f : splits n k → n ≤ 2 ^ Z.of_nat (S f) → 2 ^ k ≤ 2 ^ Z.of_nat f.
Proof.
  intros (Hk & H1 & H2) Hn. apply Z.pow_le_mono_r; [lia|].
  assert (k < Z.of_nat (S f)) by (apply (Z.pow_lt_mono_r_iff 2); lia). lia.
Qed.

Lemma splitLoop_ok f k limit : 0 ≤ k → limit < 2 ^ 63 → limit < 2 ^ (k + Z.of_nat f) →
  ∃ j, k ≤ j ∧ splitLoop (S f) (2 ^ k) limit = Ok (2 ^ j) ∧ limit < 2 ^ j ∧ (j = k ∨ 2 ^ (j - 1) ≤ limit).
Proof.
  revert k. induction f as [|f IH]; intros k Hk H63 Hlim; cbn [splitLoop].
  - rewrite Z.add_0_r in Hlim. destruct (Z.leb_spec (2 ^ k) limit); [lia|]. exists k. auto with lia.
  - destruct (Z.leb_spec (2 ^ k) limit) as [Hle|Hgt]; [|exists k; auto with lia].
    assert (2 ^ k * 2 = 2 ^ (k + 1)) as Epow by (rewrite Z.pow_add_r by lia; lia).
    replace (wrap64 (2 ^ k * 2)) with (2 ^ (k + 1)).
    2: { unfold wrap64. rewrite Z.mod_small, Epow; [done|]. pose proof (Z.pow_pos_nonneg 2 k). lia. }
    destruct (IH (k + 1)) as (j & Hj & E & H1 & H2); [lia|done| |].
    { replace (k + 1 + Z.of_nat f) with (k + Z.of_nat (S f)) by lia. done. }
    exists j. split_and!; [lia|exact E|done|]. right. destruct H2 as [->|H2]; [|done].
    by replace (k + 1 - 1) with k by lia.
Qed.

Lemma splitPoint_ok n : 2 ≤ n ≤ u64_max → ∃ k, splits n k ∧ splitPoint n = Ok (2 ^ k).
Proof.
  unfold u64_max. intros Hn. unfold splitPoint, depth_fuel, wrap64. rewrite Z.mod_small by lia.
  assert ((n - 1) / 2 < 2 ^ 63) as Hlim by (apply Z.div_lt_upper_bound; lia).
  destruct (splitLoop_ok 64 0 ((n - 1) / 2)) as (j & Hj & E & H1 & H2); [lia|done|simpl; lia|].
  exists j. split; [|exact E]. split; [done|]. rewrite Z.pow_add_r by lia. change (2 ^ 1) with 2.
  assert (2 ^ j = 1 ∨ 2 ^ j ≤ 2 * ((n - 1) / 2)) as Hj2.
  { destruct H2 as [->|H2]; [by left|]. destruct (decide (j = 0)) as [->|Hj0]; [by left|]. right.
    replace j with (1 + (j - 1)) by lia. rewrite Z.pow_add_r by lia. lia. }
  pose proof (Z.div_mod (n - 1) 2 ltac:(lia)). pose proof (Z.mod_pos_bound (n - 1) 2 ltac:(lia)). clear Hlim H2 E. lia.
Qed.
End SplitFacts.

(** ** The tree hash of RFC 6962, and what the recursion computes *)

Module MerkleFacts.
Import V1 Tree SplitFacts EncodingFacts.

(** Exceptions of the program, as opposed to the model's own outcomes. *)
Definition genuine {A} (r : result A) : Prop := r ≠ Throw OutOfFuel ∧ r ≠ Throw UndefinedBehaviour.

Lemma genuine_bind {A B} (r : result A) (f : A → result B) :
  genuine r → (∀ a, r = Ok a → genuine (f a)) → genuine (r ≫= f).
Proof. intros [H1 H2] Hf. destruct r as [a|e]; [by apply Hf|]. split; intros [= ->]; congruence. Qed.

Lemma genuine_Ok {A} (a : A) : genuine (Ok a).
Proof. by split. Qed.

Lemma genuine_throw_if b e : genuine (Throw e : result unit) → genuine (throw_if b e).
Proof. by destruct b. Qed.

(** The leaves from [b] to [e]. *)
Definition range (b e : Z) (l : list Digest) : list Digest := take (Z.to_nat (e - b)) (drop (Z.to_nat b) l).

Lemma range_length b e l : 0 ≤ b ≤ e → e ≤ Z.of_nat (length l) → Z.of_nat (length (range b e l)) = e - b.
Proof. intros. unfold range. rewrite length_take, length_drop. lia. Qed.

Lemma range_split b m e l : 0 ≤ b ≤ m → m ≤ e → range b e l = range b m l ++ range m e l.
Proof.
  intros. unfold range. replace (Z.to_nat (e - b)) with (Z.to_nat (m - b) + Z.to_nat (e - m))%nat by lia.
  rewrite <- take_take_drop, drop_drop. do 3 f_equal. lia.
Qed.

Lemma range_full l : range 0 (Z.of_nat (length l)) l = l.
Proof. unfold range. rewrite drop_0. apply take_ge. lia. Qed.

Lemma range_lookup b e l i d : 0 ≤ b ≤ i → i < e → range b e l !! Z.to_nat (i - b) = Some d ↔ l !! Z.to_nat i = Some d.
Proof.
  intros. unfold range. rewrite lookup_take_lt by lia. rewrite lookup_drop.
  by replace (Z.to_nat b + Z.to_nat (i - b))%nat with (Z.to_nat i) by lia.
Qed.

Lemma range_one b l d : 0 ≤ b → leaf_at l b = Ok d → range b (b + 1) l = [d].
Proof.
  intros Hb. unfold leaf_at, range. destruct (l !! Z.to_nat b) as [d'|] eqn:E; [|done]. intros [= <-].
  rewrite (drop_S _ _ _ E). by replace (Z.to_nat (b + 1 - b)) with 1%nat by lia.
Qed.

Section facts.
Context `{Sha256}.

Lemma hash_genuine d bs : genuine (hash d bs).
Proof. unfold hash. by repeat case_match. Qed.
Lemma domain_genuine label kind : genuine (domain label kind).
Proof. unfold domain. by case_match. Qed.
Lemma node_genuine kind l r : genuine (nodeHash kind l r).
Proof. apply genuine_bind; [apply domain_genuine|]. intros d _. apply hash_genuine. Qed.

Lemma uint32_bytes v : Writer.bytes (Writer.writeUInt32 v) = Ok (be 4 v).
Proof. apply writes_bytes, Fields.writes_uint32. Qed.

Lemma counted_eq kind n t : countedRoot kind n t = (d ← domain "MERKLE-ROOT/" kind; hash d (be 4 (n mod 4294967296) ++ t)).
Proof. unfold countedRoot. by rewrite uint32_bytes. Qed.

Lemma counted_genuine kind n t : genuine (countedRoot kind n t).
Proof. rewrite counted_eq. apply genuine_bind; [apply domain_genuine|]. intros d _. apply hash_genuine. Qed.

(** RFC 6962: a single leaf is its own hash; otherwise the two parts of the split
    are hashed together. *)
Inductive tree_hash (kind : string) : list Digest → Digest → Prop :=
| th_leaf d : tree_hash kind [d] d
| th_node l r k hl hr h : splits (Z.of_nat (length (l ++ r))) k → Z.of_nat (length l) = 2 ^ k →
    tree_hash kind l hl → tree_hash kind r hr → nodeHash kind hl hr = Ok h → tree_hash kind (l ++ r) h.

Lemma tree_hash_length kind l h : tree_hash kind l h → (1 ≤ length l)%nat.
Proof. induction 1; simpl; [lia|]. rewrite length_app. lia. Qed.

Lemma splits_app_inj (l r l' r' : list Digest) k k' :
  l ++ r = l' ++ r' → splits (Z.of_nat (length (l ++ r))) k → splits (Z.of_nat (length (l' ++ r'))) k' →
  Z.of_nat (length l) = 2 ^ k → Z.of_nat (length l') = 2 ^ k' → l = l' ∧ r = r'.
Proof.
  intros E S1 S2 L1 L2. rewrite <- E in S2. pose proof (splits_unique _ _ _ S1 S2) as ->.
  apply app_inj_1 in E; [done|lia].
Qed.

Lemma tree_hash_one kind d h : tree_hash kind [d] h → h = d.
Proof.
  inversion 1 as [|l r k hl hr h' S1]; simplify_eq; [done|].
  match goal with E : _ ++ _ = [d] |- _ => rewrite E in S1 end. apply splits_half in S1. simpl in S1. lia.
Qed.

Lemma tree_hash_node kind l r k h : splits (Z.of_nat (length (l ++ r))) k → Z.of_nat (length l) = 2 ^ k →
  tree_hash kind (l ++ r) h → ∃ hl hr, tree_hash kind l hl ∧ tree_hash kind r hr ∧ nodeHash kind hl hr = Ok h.
Proof.
  intros S1 L1 Ht. remember (l ++ r) as lr eqn:E. destruct Ht as [d|l' r' k' hl hr h S2 L2 Hl Hr Hn].
  - apply splits_half in S1. simpl in S1. lia.
  - rewrite E in S1. symmetry in E. destruct (splits_app_inj _ _ _ _ _ _ E S1 S2 L1 L2) as [-> ->]. eauto.
Qed.

Lemma tree_hash_det kind l h1 h2 : tree_hash kind l h1 → tree_hash kind l h2 → h1 = h2.
Proof.
  intros H1. revert h2. induction H1 as [d|l r k hl hr h S1 L1 _ IHl _ IHr Hn]; intros h2 H2.
  - by apply tree_hash_one in H2.
  - destruct (tree_hash_node _ _ _ _ _ S1 L1 H2) as (hl' & hr' & Hl & Hr & Hn').
    rewrite (IHl _ Hl), (IHr _ Hr) in Hn. congruence.
Qed.

(** A range of the leaves that is not a single one. *)
Lemma range_cases b e (leaves : list Digest) f : 0 ≤ b < e → e ≤ Z.of_nat (length leaves) ≤ i64_max → e - b ≤ 2 ^ Z.of_nat f → wrap64 (e - b) = e - b ∧
  (e - b = 1 ∨
   ∃ k f', f = S f' ∧ splits (e - b) k ∧ splitPoint (e - b) = Ok (2 ^ k) ∧ wrap64 (b + 2 ^ k) = b + 2 ^ k ∧
     b < b + 2 ^ k < e ∧ (b + 2 ^ k) - b ≤ 2 ^ Z.of_nat f' ∧ e - (b + 2 ^ k) ≤ 2 ^ Z.of_nat f').
Proof.
  unfold i64_max. intros Hb He Hf. split; [unfold wrap64; apply Z.mod_small; lia|].
  destruct (decide (e - b = 1)) as [->|Hn]; [by left|]. right.
  destruct (splitPoint_ok (e - b)) as (k & Hs & E); [unfold u64_max; lia|].
  pose proof (splits_half _ _ Hs) as Hh. destruct f as [|f]; [simpl in Hf; lia|].
  pose proof (splits_fuel _ _ _ Hs Hf). exists k, f. split_and!; try done; try lia.
  unfold wrap64. apply Z.mod_small. lia.
Qed.

Lemma leaf_at_Ok b (l : list Digest) : 0 ≤ b < Z.of_nat (length l) → ∃ d, leaf_at l b = Ok d ∧ range b (b + 1) l = [d].
Proof.
  intros Hb. unfold leaf_at. destruct (l !! Z.to_nat b) as [d|] eqn:E.
  - exists d. split; [done|]. apply range_one; [lia|]. unfold leaf_at. by rewrite E.
  - apply lookup_ge_None in E. lia.
Qed.

Lemma subtree_step fuel kind leaves b e : subtree (S fuel) kind leaves b e =
  let count := wrap64 (e - b) in
  if count =? 1 then leaf_at leaves b
  else split ← splitPoint count; left ← subtree fuel kind leaves b (wrap64 (b + split));
       right ← subtree fuel kind leaves (wrap64 (b + split)) e; nodeHash kind left right.
Proof. done. Qed.

Lemma subtree_spec kind leaves f b e h : 0 ≤ b < e → e ≤ Z.of_nat (length leaves) ≤ i64_max → e - b ≤ 2 ^ Z.of_nat f →
  subtree (S f) kind leaves b e = Ok h ↔ tree_hash kind (range b e leaves) h.
Proof.
  revert b e h. induction f as [|f IH]; intros b e h Hb He Hf;
    destruct (range_cases b e leaves _ Hb He Hf) as (Hw & [H1|(k & f' & Ef & Hs & Hp & Hm & Hk & Hl & Hr)]);
    simplify_eq; rewrite subtree_step; cbv zeta; rewrite Hw.
  1,2: destruct (leaf_at_Ok b leaves) as (d & Hd & Hrg); [lia|]; rewrite H1, Z.eqb_refl, Hd;
    replace e with (b + 1) by lia; rewrite Hrg; split; [intros [= <-]; constructor|by intros ->%tree_hash_one].
  destruct (Z.eqb_spec (e - b) 1); [lia|]. rewrite Hp. cbn [mbind result_bind]. rewrite Hm.
  rewrite (range_split b (b + 2 ^ k) e) by lia.
  assert (splits (Z.of_nat (length (range b (b + 2 ^ k) leaves ++ range (b + 2 ^ k) e leaves))) k ∧
          Z.of_nat (length (range b (b + 2 ^ k) leaves)) = 2 ^ k) as [Hs' Hlen].
  { rewrite length_app, Nat2Z.inj_add, !range_length by lia. split; [|lia].
    by replace (b + 2 ^ k - b + (e - (b + 2 ^ k))) with (e - b) by lia. }
  split.
  - intros (hl & E1 & E)%bind_Ok. apply bind_Ok in E as (hr & E2 & E). apply IH in E1, E2; [|lia..].
    by apply th_node with k hl hr.
  - intros (hl & hr & E1 & E2 & E)%(tree_hash_node _ _ _ _ _ Hs' Hlen). apply IH in E1, E2; [|lia..].
    by rewrite E1, E2.
Qed.

Lemma subtree_genuine kind leaves f b e : 0 ≤ b < e → e ≤ Z.of_nat (length leaves) ≤ i64_max → e - b ≤ 2 ^ Z.of_nat f →
  genuine (subtree (S f) kind leaves b e).
Proof.
  revert b e. induction f as [|f IH]; intros b e Hb He Hf;
    destruct (range_cases b e leaves _ Hb He Hf) as (Hw & [H1|(k & f' & Ef & Hs & Hp & Hm & Hk & Hl & Hr)]);
    simplify_eq; rewrite subtree_step; cbv zeta; rewrite Hw.
  1,2: destruct (leaf_at_Ok b leaves) as (d & Hd & Hrg); [lia|]; rewrite H1, Z.eqb_refl, Hd; apply genuine_Ok.
  destruct (Z.eqb_spec (e - b) 1); [lia|]. rewrite Hp. cbn [mbind result_bind]. rewrite Hm.
  apply genuine_bind; [apply IH; lia|]. intros hl _. apply genuine_bind; [apply IH; lia|]. intros hr _. apply node_genuine.
Qed.

(** The hashes next to the path from leaf [i] to the root, the lowest first. *)
Inductive audit (kind : string) : list Digest → Z → list Digest → Prop :=
| audit_leaf d : audit kind [d] 0 []
| audit_left l r k i p hr : splits (Z.of_nat (length (l ++ r))) k → Z.of_nat (length l) = 2 ^ k →
    audit kind l i p → tree_hash kind r hr → audit kind (l ++ r) i (p ++ [hr])
| audit_right l r k i p hl : splits (Z.of_nat (length (l ++ r))) k → Z.of_nat (length l) = 2 ^ k →
    audit kind r i p → tree_hash kind l hl → audit kind (l ++ r) (Z.of_nat (length l) + i) (p ++ [hl]).

Lemma audit_index kind l i p : audit kind l i p → 0 ≤ i < Z.of_nat (length l).
Proof. induction 1 as [|l r|l r]; simpl; rewrite ?length_app; lia. Qed.

Lemma audit_length kind l i p f : audit kind l i p → Z.of_nat (length l) ≤ 2 ^ Z.of_nat f → (length p ≤ f)%nat.
Proof.
  intros Ha. revert f. induction Ha as [d|l r k i p hr S1 L1 _ IH _|l r k i p hl S1 L1 _ IH _]; intros f Hf; [simpl; lia|..];
    pose proof (splits_half _ _ S1); rewrite length_app in *;
    (destruct f as [|f]; [simpl in Hf; lia|]); pose proof (splits_fuel _ _ _ S1 Hf) as Hk;
    simpl; assert (length p ≤ f)%nat by (apply IH; lia); lia.
Qed.

(** The last step of a level of [rebuild]. *)
Definition join (f : Digest → result Digest) (x : result (option Digest) * nat) : result (option Digest) * nat :=
  match x with
  | (Ok (Some d), rem) => (h ← f d; Ok (Some h), rem)
  | (Ok None, rem) => (Ok None, rem)
  | (Throw e, rem) => (Throw e, rem)
  end.

Lemma rebuild_step fuel kind n i leaf sibs rem sib s : n ≠ 1 → sibs !! rem = Some sib → splitPoint n = Ok s →
  rebuild (S fuel) kind n i leaf sibs (S rem) =
    if i <? s then join (λ d, nodeHash kind d sib) (rebuild fuel kind s i leaf sibs rem)
    else join (nodeHash kind sib) (rebuild fuel kind (wrap64 (n - s)) (wrap64 (i - s)) leaf sibs rem).
Proof.
  intros Hn Hsib Hs. cbn [rebuild]. destruct (Z.eqb_spec n 1); [done|].
  unfold mbind at 1, M_bind at 1, gets. unfold mbind at 1, M_bind at 1, modify.
  unfold mbind at 1, M_bind at 1, lift at 1, leaf_at. rewrite Nat2Z.id, Hsib.
  unfold mbind at 1, M_bind at 1, lift at 1. rewrite Hs.
  destruct (i <? s); unfold mbind at 1, M_bind at 1.
  - destruct (rebuild fuel kind s i leaf sibs rem) as [[[d|]|e] r]; simpl; try done.
    unfold mbind, M_bind, result_bind, lift. by destruct (nodeHash kind d sib).
  - destruct (rebuild fuel kind _ _ leaf sibs rem) as [[[d|]|e] r]; simpl; try done.
    unfold mbind, M_bind, result_bind, lift. by destruct (nodeHash kind sib d).
Qed.

Lemma join_Some f x h rem : join f x = (Ok (Some h), rem) → ∃ d, x = (Ok (Some d), rem) ∧ f d = Ok h.
Proof.
  destruct x as [[[d|]|e] r]; simpl; try done. destruct (f d) as [h'|e] eqn:E; [|done].
  simpl. intros [= -> ->]. by exists d.
Qed.

(** A path of [rebuild] that returns a hash at an inner node. *)
Lemma rebuild_inv fuel kind n i leaf sibs rem rem' s h : n ≠ 1 → splitPoint n = Ok s →
  rebuild (S fuel) kind n i leaf sibs rem = (Ok (Some h), rem') →
  ∃ sib r d, rem = S r ∧ sibs !! r = Some sib ∧
    if i <? s then rebuild fuel kind s i leaf sibs r = (Ok (Some d), rem') ∧ nodeHash kind d sib = Ok h
    else rebuild fuel kind (wrap64 (n - s)) (wrap64 (i - s)) leaf sibs r = (Ok (Some d), rem') ∧ nodeHash kind sib d = Ok h.
Proof.
  intros Hne Hs E. destruct rem as [|r]; [cbn [rebuild] in E; by rewrite (proj2 (Z.eqb_neq n 1)) in E|].
  destruct (sibs !! r) as [sib|] eqn:Hsib.
  - rewrite (rebuild_step _ _ _ _ _ _ _ sib s) in E by done. exists sib, r.
    destruct (i <? s); apply join_Some in E as (d & E & Hn); by exists d.
  - cbn [rebuild] in E. rewrite (proj2 (Z.eqb_neq n 1)) in E by done.
    unfold mbind at 1, M_bind at 1, gets in E. unfold mbind at 1, M_bind at 1, modify in E.
    unfold mbind at 1, M_bind at 1, lift at 1, leaf_at in E. by rewrite Nat2Z.id, Hsib in E.
Qed.

(** The two parts of a tree of at most [2 ^ S f] leaves. *)
Lemma node_split (l r : list Digest) k f : splits (Z.of_nat (length (l ++ r))) k → Z.of_nat (length l) = 2 ^ k →
  Z.of_nat (length (l ++ r)) ≤ 2 ^ Z.of_nat f → Z.of_nat (length (l ++ r)) ≤ i64_max →
  ∃ f', f = S f' ∧ splitPoint (Z.of_nat (length (l ++ r))) = Ok (Z.of_nat (length l)) ∧
    Z.of_nat (length (l ++ r)) ≠ 1 ∧ Z.of_nat (length l) ≤ 2 ^ Z.of_nat f' ∧ Z.of_nat (length r) ≤ 2 ^ Z.of_nat f' ∧
    wrap64 (Z.of_nat (length (l ++ r)) - Z.of_nat (length l)) = Z.of_nat (length r).
Proof.
  intros S1 L1 Hf H63. pose proof (splits_half _ _ S1) as Hh. destruct f as [|f]; [simpl in Hf; lia|].
  pose proof (splits_fuel _ _ _ S1 Hf) as Hk. exists f.
  destruct (splitPoint_ok (Z.of_nat (length (l ++ r)))) as (k' & S2 & Hp); [unfold i64_max, u64_max in *; lia|].
  rewrite (splits_unique _ _ _ S2 S1) in Hp. rewrite L1. split_and!; try done; rewrite ?length_app, ?Nat2Z.inj_add in *; try lia.
  unfold wrap64, i64_max in *. rewrite Z.mod_small; lia.
Qed.

(** Running the verifier's recursion over an audit path rebuilds the tree hash. *)
Lemma rebuild_audit kind l i p f leaf h rest : audit kind l i p → l !! Z.to_nat i = Some leaf → tree_hash kind l h →
  Z.of_nat (length l) ≤ 2 ^ Z.of_nat f → Z.of_nat (length l) ≤ i64_max →
  rebuild (S f) kind (Z.of_nat (length l)) i leaf (p ++ rest) (length p) = (Ok (Some h), 0%nat).
Proof.
  intros Ha. revert f h rest. induction Ha as [d|l r k i p hr S1 L1 Ha IH Hr|l r k i p hl S1 L1 Ha IH Hl];
    intros f h rest Hi Ht Hf H63; [by apply tree_hash_one in Ht as ->; injection Hi as ->|..].
  all: destruct (tree_hash_node _ _ _ _ _ S1 L1 Ht) as (hl' & hr' & Hl' & Hr' & Hn);
    destruct (node_split _ _ _ _ S1 L1 Hf H63) as (f' & -> & Hp & Hne & Hfl & Hfr & Hw);
    pose proof (audit_index _ _ _ _ Ha) as Hidx; pose proof (length_app l r) as Hlen;
    rewrite (length_app p), Nat.add_1_r, <- app_assoc.
  - pose proof (tree_hash_det _ _ _ _ Hr Hr') as <-.
    rewrite (rebuild_step _ _ _ _ _ _ _ hr (Z.of_nat (length l))); [|done|by apply list_lookup_middle|done].
    destruct (Z.ltb_spec i (Z.of_nat (length l))); [|lia].
    rewrite (IH f' hl' ([hr] ++ rest)); [|by rewrite lookup_app_l in Hi by lia|done|lia|lia]. simpl. by rewrite Hn.
  - pose proof (tree_hash_det _ _ _ _ Hl Hl') as <-.
    rewrite (rebuild_step _ _ _ _ _ _ _ hl (Z.of_nat (length l))); [|done|by apply list_lookup_middle|done].
    destruct (Z.ltb_spec (Z.of_nat (length l) + i) (Z.of_nat (length l))); [lia|]. rewrite Hw.
    replace (wrap64 (Z.of_nat (length l) + i - Z.of_nat (length l))) with i
      by (unfold wrap64, i64_max in *; rewrite Z.mod_small; lia).
    rewrite (IH f' hr' ([hl] ++ rest)); [by simpl; rewrite Hn| |done|lia|lia]. rewrite lookup_app_r in Hi by lia.
    by replace (Z.to_nat (Z.of_nat (length l) + i) - length l)%nat with (Z.to_nat i) in Hi by lia.
Qed.

Definition in_slots (proofs : list InclusionProof) (items : list PendingProof) : Prop :=
  Forall (λ item, (slot item < length proofs)%nat) items.

Lemma push_all_ok items d proofs : NoDup (slot <$> items) → in_slots proofs items →
  ∃ proofs', push_all items d proofs = (Ok tt, proofs') ∧ length proofs' = length proofs ∧
    ∀ s, proofs' !! s = if decide (s ∈ slot <$> items) then push_sibling d <$> proofs !! s else proofs !! s.
Proof.
  revert proofs. induction items as [|item items IH]; intros proofs Hnd Hin.
  { exists proofs. split_and!; [done|done|]. intros s. rewrite decide_False; [done|]. apply not_elem_of_nil. }
  apply Forall_cons_1 in Hin as [Hi Hin]. rewrite fmap_cons in Hnd. destruct (proj1 (NoDup_cons _ _) Hnd) as [Hni Hnd'].
  unfold push_all. cbn [for_each]. unfold mbind at 1, M_bind at 1.
  destruct (lookup_lt_is_Some_2 proofs (slot item) Hi) as [p Hp]. rewrite Hp.
  destruct (IH (<[slot item := push_sibling d p]> proofs)) as (proofs' & E & El & Hs); [exact Hnd'| |].
  { unfold in_slots. by rewrite length_insert. }
  exists proofs'. rewrite length_insert in El. split_and!; [exact E|done|]. intros s. rewrite Hs, fmap_cons.
  destruct (decide (slot item = s)) as [<-|Hne].
  - rewrite decide_False by done. rewrite decide_True by (by apply list_elem_of_here).
    rewrite list_lookup_insert_eq by done. by rewrite Hp.
  - rewrite list_lookup_insert_ne by done. destruct (decide (s ∈ slot <$> items)) as [He|He].
    + rewrite decide_True; [done|]. by apply list_elem_of_further.
    + rewrite decide_False; [done|]. rewrite elem_of_cons. by intros [->|?].
Qed.

(** One level of [buildWithProofs] with something to prove. *)
Lemma build_step fuel kind leaves b e pending proofs : pending ≠ [] →
  buildWithProofs (S fuel) kind leaves b e pending proofs =
    if wrap64 (e - b) =? 1 then (leaf_at leaves b, proofs)
    else (split ← lift (splitPoint (wrap64 (e - b)));
          leftHash ← buildWithProofs fuel kind leaves b (wrap64 (b + split))
            (filter (λ item, index item < wrap64 (b + split)) pending);
          rightHash ← buildWithProofs fuel kind leaves (wrap64 (b + split)) e
            (filter (λ item, ¬ index item < wrap64 (b + split)) pending);
          push_all (filter (λ item, index item < wrap64 (b + split)) pending) rightHash;;
          push_all (filter (λ item, ¬ index item < wrap64 (b + split)) pending) leftHash;;
          lift (nodeHash kind leftHash rightHash)) proofs.
Proof. intros Hne. cbn [buildWithProofs]. rewrite bool_decide_eq_false_2 by done. by destruct (_ =? 1). Qed.

Lemma build_none fuel kind leaves b e proofs :
  buildWithProofs (S fuel) kind leaves b e [] proofs = (subtree (S fuel) kind leaves b e, proofs).
Proof. done. Qed.

(** A proof with more siblings. *)
Definition extend (pr : InclusionProof) (p : list Digest) : InclusionProof :=
  Proof (leafIndex pr) (treeSize pr) (siblings pr ++ p).

Lemma partition_slots (P : PendingProof → Prop) `{∀ x, Decision (P x)} pending : NoDup (slot <$> pending) →
  NoDup (slot <$> filter P pending) ∧ NoDup (slot <$> filter (λ x, ¬ P x) pending) ∧
  ∀ s, s ∈ slot <$> filter P pending → s ∉ slot <$> filter (λ x, ¬ P x) pending.
Proof.
  intros Hnd. rewrite <- (filter_app_complement P pending), fmap_app in Hnd.
  apply NoDup_app in Hnd as (H1 & H2 & H3). done.
Qed.

Lemma filter_slots (P : PendingProof → Prop) `{∀ x, Decision (P x)} pending proofs proofs' :
  in_slots proofs pending → length proofs' = length proofs → in_slots proofs' (filter P pending).
Proof.
  unfold in_slots. rewrite !Forall_forall. intros Hin El x [_ Hx]%list_elem_of_filter. rewrite El. auto.
Qed.

Lemma filter_slot (P : PendingProof → Prop) `{∀ x, Decision (P x)} (pending : list PendingProof) s :
  s ∈ slot <$> filter P pending → s ∈ slot <$> pending.
Proof. intros (x & -> & [_ Hx]%list_elem_of_filter)%list_elem_of_fmap. by apply list_elem_of_fmap_2. Qed.

(** [proofs'] are [proofs] with the audit paths of the pending leaves of [l], the
    first of which is number [b]. *)
Record fills (kind : string) (l : list Digest) (b : Z) (pending : list PendingProof)
    (proofs proofs' : list InclusionProof) : Prop := {
  fills_length : length proofs' = length proofs;
  fills_others s : s ∉ slot <$> pending → proofs' !! s = proofs !! s;
  fills_items item : item ∈ pending → ∃ pr p, proofs !! slot item = Some pr ∧
    audit kind l (index item - b) p ∧ proofs' !! slot item = Some (extend pr p);
}.

Lemma fills_leaf kind d b pending proofs : in_slots proofs pending → Forall (λ item, b ≤ index item < b + 1) pending →
  fills kind [d] b pending proofs proofs.
Proof.
  unfold in_slots. rewrite !Forall_forall. intros Hin Hidx. split; [done|done|]. intros item Hi.
  destruct (lookup_lt_is_Some_2 proofs (slot item) (Hin _ Hi)) as [pr Hpr]. exists pr, [].
  specialize (Hidx _ Hi). replace (index item - b) with 0 by lia. split_and!; [done|constructor|].
  rewrite Hpr. unfold extend. rewrite app_nil_r. by destruct pr.
Qed.

(** The two parts of a node, and the siblings pushed after them. *)
Lemma fills_node kind l r k hl hr b pending proofs proofs1 proofs2 :
  let left := filter (λ item, index item < b + 2 ^ k) pending in
  let right := filter (λ item, ¬ index item < b + 2 ^ k) pending in
  splits (Z.of_nat (length (l ++ r))) k → Z.of_nat (length l) = 2 ^ k → tree_hash kind l hl → tree_hash kind r hr →
  NoDup (slot <$> pending) → in_slots proofs pending →
  fills kind l b left proofs proofs1 → fills kind r (b + 2 ^ k) right proofs1 proofs2 →
  ∃ proofs', (push_all left hr;; push_all right hl) proofs2 = (Ok tt, proofs') ∧ fills kind (l ++ r) b pending proofs proofs'.
Proof.
  intros left right Hs Hlen Hl Hr Hnd Hin [El1 Ho1 Hi1] [El2 Ho2 Hi2].
  destruct (partition_slots (λ item, index item < b + 2 ^ k) pending Hnd) as (Hndl & Hndr & Hdis).
  destruct (push_all_ok left hr proofs2) as (proofs3 & E3 & El3 & Hs3); [done|by apply (filter_slots _ _ proofs); [|lia]|].
  destruct (push_all_ok right hl proofs3) as (proofs4 & E4 & El4 & Hs4); [done|by apply (filter_slots _ _ proofs); [|lia]|].
  exists proofs4. split; [unfold mbind, M_bind; by rewrite E3|]. split; [lia|..].
  - intros s Hs0. rewrite Hs4, Hs3, !decide_False by (by intros ?%filter_slot).
    rewrite Ho2, Ho1; [done|..]; by intros ?%filter_slot.
  - intros item Hi. destruct (decide (index item < b + 2 ^ k)) as [Hlt|Hge].
    + assert (item ∈ left) as Hif by (by apply list_elem_of_filter).
      assert (slot item ∈ slot <$> left) as Hsl by (by apply list_elem_of_fmap_2).
      destruct (Hi1 item Hif) as (pr & p & Hpr & Ha & Hpr'). exists pr, (p ++ [hr]). split_and!; [done|by apply audit_left with k|].
      rewrite Hs4, decide_False by auto. rewrite Hs3, decide_True by done. rewrite Ho2 by auto. rewrite Hpr'.
      unfold extend, push_sibling. simpl. by rewrite app_assoc.
    + assert (item ∈ right) as Hif by (by apply list_elem_of_filter).
      assert (slot item ∈ slot <$> right) as Hsl by (by apply list_elem_of_fmap_2).
      destruct (Hi2 item Hif) as (pr & p & Hpr & Ha & Hpr'). exists pr, (p ++ [hl]). split_and!.
      * rewrite <- Ho1; [done|]. intros Hc. by apply (Hdis _ Hc).
      * replace (index item - b) with (Z.of_nat (length l) + (index item - (b + 2 ^ k))) by lia. by apply audit_right with k.
      * rewrite Hs4, decide_True by done. rewrite Hs3, decide_False by (intros Hc; by apply (Hdis _ Hc)). rewrite Hpr'.
        unfold extend, push_sibling. simpl. by rewrite app_assoc.
Qed.

Lemma build_spec kind leaves f b e pending proofs h : 0 ≤ b < e → e ≤ Z.of_nat (length leaves) ≤ i64_max →
  e - b ≤ 2 ^ Z.of_nat f → tree_hash kind (range b e leaves) h → NoDup (slot <$> pending) → in_slots proofs pending →
  Forall (λ item, b ≤ index item < e) pending →
  ∃ proofs', buildWithProofs (S f) kind leaves b e pending proofs = (Ok h, proofs') ∧
    fills kind (range b e leaves) b pending proofs proofs'.
Proof.
  revert b e pending proofs h. induction f as [|f IH]; intros b e pending proofs h Hb He Hf Ht Hnd Hin Hidx;
    (destruct (decide (pending = [])) as [->|Hne];
      [rewrite build_none; exists proofs; split; [f_equal; by apply subtree_spec|by split; [| |intros item ?%elem_of_nil]]|]);
    rewrite build_step by done;
    destruct (range_cases b e leaves _ Hb He Hf) as (Hw & [H1|(k & f' & Ef & Hs & Hp & Hm & Hk & Hl & Hr)]);
    simplify_eq; rewrite Hw.
  1,2: destruct (leaf_at_Ok b leaves) as (d & Hd & Hrg); [lia|]; rewrite H1, Z.eqb_refl, Hd;
    replace e with (b + 1) in * by lia; rewrite Hrg in *; apply tree_hash_one in Ht as ->;
    exists proofs; split; [done|by apply fills_leaf].
  destruct (Z.eqb_spec (e - b) 1); [lia|]. unfold mbind at 1, M_bind at 1, lift at 1. rewrite Hp, Hm.
  rewrite (range_split b (b + 2 ^ k) e) in * by lia.
  assert (Z.of_nat (length (range b (b + 2 ^ k) leaves)) = 2 ^ k ∧
    splits (Z.of_nat (length (range b (b + 2 ^ k) leaves ++ range (b + 2 ^ k) e leaves))) k) as [Hlen Hs'].
  { rewrite length_app, Nat2Z.inj_add, !range_length by lia. split; [lia|].
    by replace (b + 2 ^ k - b + (e - (b + 2 ^ k))) with (e - b) by lia. }
  destruct (tree_hash_node _ _ _ _ _ Hs' Hlen Ht) as (hl & hr & Hl' & Hr' & Hn).
  destruct (partition_slots (λ item, index item < b + 2 ^ k) pending Hnd) as (Hndl & Hndr & _). rewrite Forall_forall in Hidx.
  destruct (IH b (b + 2 ^ k) (filter (λ item, index item < b + 2 ^ k) pending) proofs hl) as (proofs1 & E1 & F1);
    [lia|lia|lia|done|done|by apply (filter_slots _ _ proofs)
    |apply Forall_forall; intros x [Hlt Hx]%list_elem_of_filter; specialize (Hidx _ Hx); lia|].
  destruct (IH (b + 2 ^ k) e (filter (λ item, ¬ index item < b + 2 ^ k) pending) proofs1 hr) as (proofs2 & E2 & F2);
    [lia|lia|lia|done|done|apply (filter_slots _ _ proofs); [done|apply F1]
    |apply Forall_forall; intros x [Hlt Hx]%list_elem_of_filter; specialize (Hidx _ Hx); lia|].
  destruct (fills_node _ _ _ _ _ _ _ _ _ _ _ Hs' Hlen Hl' Hr' Hnd Hin F1 F2) as (proofs' & E & F).
  exists proofs'. split; [|done]. unfold mbind, M_bind in *. rewrite E1, E2.
  destruct (push_all (filter _ pending) hr proofs2) as [[]]; [|discriminate]. rewrite E. unfold lift. by rewrite Hn.
Qed.

(** ** No recursion runs out of fuel or reads outside its vectors *)

Lemma push_all_length items d proofs : in_slots proofs items →
  ∃ proofs', push_all items d proofs = (Ok tt, proofs') ∧ length proofs' = length proofs.
Proof.
  revert proofs. induction items as [|item items IH]; intros proofs Hin; [by exists proofs|].
  apply Forall_cons_1 in Hin as [Hi Hin]. unfold push_all. cbn [for_each]. unfold mbind at 1, M_bind at 1.
  destruct (lookup_lt_is_Some_2 proofs (slot item) Hi) as [p ->].
  destruct (IH (<[slot item := push_sibling d p]> proofs)) as (proofs' & E & El); [unfold in_slots; by rewrite length_insert|].
  exists proofs'. rewrite length_insert in El. by split.
Qed.

Lemma build_genuine kind leaves f b e pending proofs : 0 ≤ b < e → e ≤ Z.of_nat (length leaves) ≤ i64_max →
  e - b ≤ 2 ^ Z.of_nat f → in_slots proofs pending →
  genuine (buildWithProofs (S f) kind leaves b e pending proofs).1 ∧
  length (buildWithProofs (S f) kind leaves b e pending proofs).2 = length proofs.
Proof.
  revert b e pending proofs. induction f as [|f IH]; intros b e pending proofs Hb He Hf Hin;
    (destruct (decide (pending = [])) as [->|Hne];
      [rewrite build_none; split; [by apply subtree_genuine|done]|]); rewrite build_step by done;
    destruct (range_cases b e leaves _ Hb He Hf) as (Hw & [H1|(k & f' & Ef & Hs & Hp & Hm & Hk & Hl & Hr)]);
    simplify_eq; rewrite Hw.
  1,2: destruct (leaf_at_Ok b leaves) as (d & Hd & _); [lia|]; rewrite H1, Z.eqb_refl, Hd; split; [apply genuine_Ok|done].
  destruct (Z.eqb_spec (e - b) 1); [lia|]. unfold mbind, M_bind, lift. rewrite Hp, Hm.
  set (left := filter (λ item, index item < _) pending). set (right := filter (λ item, ¬ _) pending).
  destruct (IH b (b + 2 ^ k) left proofs) as [G1 L1]; [lia|lia|lia|by apply (filter_slots _ _ proofs)|].
  destruct (buildWithProofs (S f') kind leaves b _ left proofs) as [[hl|ex] proofs1]; simpl in G1, L1; [|exact (conj G1 L1)].
  destruct (IH (b + 2 ^ k) e right proofs1) as [G2 L2]; [lia|lia|lia|by apply (filter_slots _ _ proofs)|].
  destruct (buildWithProofs (S f') kind leaves _ e right proofs1) as [[hr|ex] proofs2]; simpl in G2, L2; [|split; [exact G2|simpl; lia]].
  destruct (push_all_length left hr proofs2) as (proofs3 & -> & L3); [by apply (filter_slots _ _ proofs); [|lia]|].
  destruct (push_all_length right hl proofs3) as (proofs4 & -> & L4); [by apply (filter_slots _ _ proofs); [|lia]|].
  split; [apply node_genuine|simpl; lia].
Qed.

Lemma join_genuine f x : (∀ d, genuine (f d)) → genuine x.1 → genuine (join f x).1.
Proof.
  intros Hf Hx. destruct x as [[[d|]|ex] rem]; simpl in *; try done. apply genuine_bind; [done|]. intros h _. apply genuine_Ok.
Qed.

Lemma rebuild_genuine kind f n i leaf sibs rem : 1 ≤ n ≤ 2 ^ Z.of_nat f → n ≤ i64_max → (rem ≤ length sibs)%nat →
  genuine (rebuild (S f) kind n i leaf sibs rem).1.
Proof.
  revert n i rem. induction f as [|f IH]; intros n i rem Hn H63 Hrem; (destruct (decide (n = 1)) as [->|Hne];
    [apply genuine_Ok|]); [simpl in Hn; lia|]. destruct rem as [|rem].
  { cbn [rebuild]. rewrite (proj2 (Z.eqb_neq n 1)) by done. apply genuine_Ok. }
  destruct (lookup_lt_is_Some_2 sibs rem) as [sib Hsib]; [lia|].
  destruct (splitPoint_ok n) as (k & Hs & Hp); [unfold i64_max, u64_max in *; lia|].
  rewrite (rebuild_step _ _ _ _ _ _ _ sib (2 ^ k)) by done.
  pose proof (splits_half _ _ Hs). pose proof (splits_fuel _ _ _ Hs (proj2 Hn)).
  replace (wrap64 (n - 2 ^ k)) with (n - 2 ^ k) by (unfold wrap64, i64_max in *; rewrite Z.mod_small; lia).
  destruct (i <? 2 ^ k); (apply join_genuine; [intros d; apply node_genuine|apply IH; lia]).
Qed.

(** ** Roots, proofs and verification *)

Lemma leafHash_Ok kind i element d : 0 ≤ i → leafHash kind i element = Ok d →
  i < kMaxLeaves ∧ (dm ← domain "MERKLE-LEAF/" kind; hash dm (be 4 i ++ element)) = Ok d.
Proof.
  intros Hi. unfold leafHash. intros (u & Hlt%throw_if_Ok & E)%bind_Ok. rewrite uint32_bytes in E. cbn [mbind result_bind] in E.
  unfold kMaxLeaves, kMaxListElements in *. rewrite Z.mod_small in E by lia. split; [lia|done].
Qed.

Lemma leafHash_genuine kind i element : genuine (leafHash kind i element).
Proof.
  unfold leafHash. apply genuine_bind; [by apply genuine_throw_if|]. intros _ _. rewrite uint32_bytes. cbn [mbind result_bind].
  apply genuine_bind; [apply domain_genuine|]. intros d _. apply hash_genuine.
Qed.

Lemma leafHashes_Ok kind i elements ls : leafHashes kind i elements = Ok ls → length ls = length elements ∧
  ∀ j e, elements !! j = Some e → ∃ d, ls !! j = Some d ∧ leafHash kind (i + Z.of_nat j) e = Ok d.
Proof.
  revert i ls. induction elements as [|e elements IH]; intros i ls; cbn [leafHashes].
  - intros [= <-]. split; [done|]. intros j x. by rewrite lookup_nil.
  - intros (d & Hd & E)%bind_Ok. apply bind_Ok in E as (rest & Hr & [= <-]). destruct (IH _ _ Hr) as [Hl Hj].
    split; [simpl; lia|]. intros [|j] x Hx; simpl in *.
    + injection Hx as <-. exists d. by rewrite Z.add_0_r.
    + destruct (Hj j x Hx) as (d' & Hd' & Hh). exists d'. split; [done|]. rewrite <- Hh. f_equal. lia.
Qed.

Lemma leafHashes_genuine kind i elements : genuine (leafHashes kind i elements).
Proof.
  revert i. induction elements as [|e elements IH]; intros i; cbn [leafHashes]; [apply genuine_Ok|].
  apply genuine_bind; [apply leafHash_genuine|]. intros d _. apply genuine_bind; [apply IH|]. intros rest _. apply genuine_Ok.
Qed.

(** A tree that [rootFromLeafHashes] and [prove] accept fits the fuel. *)
Lemma depth_fuel_S : ∃ f, depth_fuel = S f ∧ kMaxLeaves ≤ 2 ^ Z.of_nat f ∧ f = 64%nat.
Proof. exists 64%nat. split_and!; [done| |done]. by vm_compute. Qed.

Lemma rootFromLeafHashes_Ok kind leaves r : leaves ≠ [] → rootFromLeafHashes kind leaves = Ok r ↔
  Z.of_nat (length leaves) ≤ kMaxLeaves ∧
  ∃ t, tree_hash kind leaves t ∧ countedRoot kind (Z.of_nat (length leaves)) t = Ok r.
Proof.
  intros Hne. unfold rootFromLeafHashes. rewrite bool_decide_eq_false_2 by done.
  destruct depth_fuel_S as (f & -> & Hf & _). assert (kMaxLeaves ≤ i64_max) as H63 by by vm_compute.
  assert (0 < length leaves)%nat by (destruct leaves; [done|simpl; lia]). split.
  - intros (u & Hle%throw_if_Ok & E)%bind_Ok. apply bind_Ok in E as (t & E & Hr). split; [lia|]. exists t. split; [|done].
    rewrite subtree_spec in E by lia. by rewrite range_full in E.
  - intros (Hle & t & E & Hr). unfold throw_if. destruct (Z.ltb_spec kMaxLeaves (Z.of_nat (length leaves))); [lia|].
    cbn [mbind result_bind]. rewrite <- (range_full leaves) in E. apply (subtree_spec kind leaves f) in E; [|lia..]. by rewrite E.
Qed.

Lemma rootFromLeafHashes_genuine kind leaves : genuine (rootFromLeafHashes kind leaves).
Proof.
  unfold rootFromLeafHashes. apply genuine_bind; [by apply genuine_throw_if|]. intros u Hle%throw_if_Ok.
  case_bool_decide as E; [apply genuine_bind; [apply domain_genuine|intros d _; apply hash_genuine]|].
  destruct depth_fuel_S as (f & -> & Hf & _). assert (kMaxLeaves ≤ i64_max) as H63 by by vm_compute.
  assert (0 < length leaves)%nat by (destruct leaves; [done|simpl; lia]).
  apply genuine_bind; [apply subtree_genuine; lia|]. intros t _. apply counted_genuine.
Qed.

Definition pending_of (indices : list Z) : list PendingProof := imap (λ slot i, Pending i slot) indices.
Definition blank (n : Z) (indices : list Z) : list InclusionProof := (λ i, Proof i n []) <$> indices.

Lemma pending_lookup indices j : pending_of indices !! j = (λ i, Pending i j) <$> indices !! j.
Proof. unfold pending_of. by rewrite list_lookup_imap. Qed.

Lemma pending_slots indices : slot <$> pending_of indices = seq 0 (length indices).
Proof.
  unfold pending_of. rewrite fmap_imap. apply list_eq. intros j. rewrite list_lookup_imap.
  destruct (indices !! j) as [i|] eqn:E; simpl.
  - rewrite lookup_seq_lt; [done|]. by apply lookup_lt_Some in E.
  - symmetry. apply lookup_seq_ge. by apply lookup_ge_None in E.
Qed.

Lemma pending_in_slots n indices : in_slots (blank n indices) (pending_of indices).
Proof.
  apply Forall_forall. intros item (j & Hj)%list_elem_of_lookup. rewrite pending_lookup in Hj.
  destruct (indices !! j) as [i|] eqn:E; [|done]. injection Hj as <-. simpl. unfold blank. rewrite length_fmap.
  by apply lookup_lt_Some in E.
Qed.

(** [prove] answers every request with the audit path of its leaf. *)
Lemma prove_audits kind leaves t indices : isAllowedKind kind = true → tree_hash kind leaves t →
  Z.of_nat (length leaves) ≤ kMaxLeaves → Forall (λ i, 0 ≤ i < Z.of_nat (length leaves)) indices →
  ∃ proofs, prove kind leaves indices = Ok proofs ∧ length proofs = length indices ∧
    ∀ j i, indices !! j = Some i → ∃ p, audit kind leaves i p ∧ proofs !! j = Some (Proof i (Z.of_nat (length leaves)) p).
Proof.
  intros Hk Ht Hn Hi. pose proof (tree_hash_length _ _ _ Ht) as Hl. destruct depth_fuel_S as (f & Ef & Hf & _).
  assert (kMaxLeaves ≤ i64_max) as H63 by by vm_compute.
  destruct (build_spec kind leaves f 0 (Z.of_nat (length leaves)) (pending_of indices)
    (blank (Z.of_nat (length leaves)) indices) t) as (proofs & E & [Hlen _ Hitems]); try lia.
  - by rewrite range_full.
  - rewrite pending_slots. apply NoDup_seq.
  - apply pending_in_slots.
  - rewrite Forall_forall in Hi. apply Forall_forall. intros item (j & Hj)%list_elem_of_lookup. rewrite pending_lookup in Hj.
    destruct (indices !! j) as [i|] eqn:Ei; [|done]. injection Hj as <-. simpl. apply Hi. by apply list_elem_of_lookup_2 in Ei.
  - exists proofs. unfold blank in Hlen. rewrite length_fmap in Hlen. split_and!; [|done|].
    + unfold prove. rewrite Hk. cbn [negb throw_if mbind result_bind].
      rewrite bool_decide_eq_false_2 by (intros ->; simpl in Hl; lia). rewrite (proj2 (Z.ltb_ge _ _) Hn).
      cbn [orb throw_if mbind result_bind].
      assert (foldR (λ _ i, throw_if (Z.of_nat (length leaves) <=? i)
        (out_of_range "V1 Merkle proof index is outside the tree.")) tt indices = Ok tt) as ->.
      { apply foldR_unit. intros i Hin. rewrite Forall_forall in Hi. specialize (Hi _ Hin). apply throw_if_Ok. lia. }
      cbn [mbind result_bind]. unfold on_local. rewrite Ef. fold (pending_of indices). fold (blank (Z.of_nat (length leaves)) indices).
      by rewrite E.
    + intros j i Hj. destruct (Hitems (Pending i j)) as (pr & p & Hpr & Ha & Hp).
      { apply list_elem_of_lookup. exists j. by rewrite pending_lookup, Hj. }
      simpl in Hpr, Ha, Hp. rewrite range_full, Z.sub_0_r in Ha. unfold blank in Hpr. rewrite list_lookup_fmap, Hj in Hpr.
      injection Hpr as <-. by exists p.
Qed.

Lemma prove_genuine kind leaves indices : genuine (prove kind leaves indices).
Proof.
  unfold prove. apply genuine_bind; [by apply genuine_throw_if|]. intros _ _.
  apply genuine_bind; [by apply genuine_throw_if|]. intros _ [Hne Hle]%throw_if_Ok%orb_false_iff.
  apply bool_decide_eq_false in Hne. apply genuine_bind.
  { generalize tt. induction indices as [|i indices IH]; intros u; cbn [foldR]; [apply genuine_Ok|].
    apply genuine_bind; [by apply genuine_throw_if|]. intros u' _. apply IH. }
  intros _ _. unfold on_local. fold (pending_of indices). fold (blank (Z.of_nat (length leaves)) indices).
  destruct depth_fuel_S as (f & -> & Hf & _). assert (kMaxLeaves ≤ i64_max) as H63 by by vm_compute.
  assert (0 < length leaves)%nat by (destruct leaves; [done|simpl; lia]).
  destruct (build_genuine kind leaves f 0 (Z.of_nat (length leaves)) (pending_of indices)
    (blank (Z.of_nat (length leaves)) indices)) as [G _]; [lia|lia|lia|apply pending_in_slots|].
  destruct (buildWithProofs _ _ _ _ _ _ _) as [[h|ex] proofs]; [apply genuine_Ok|].
  destruct G as [G1 G2]. simpl in G1, G2. split; intros [= ->]; congruence.
Qed.

Lemma verify_audit kind leaves i p t r leaf : isAllowedKind kind = true → Z.of_nat (length leaves) ≤ kMaxLeaves →
  audit kind leaves i p → tree_hash kind leaves t → countedRoot kind (Z.of_nat (length leaves)) t = Ok r →
  leaves !! Z.to_nat i = Some leaf →
  verifyLeafHash kind r (Proof i (Z.of_nat (length leaves)) p) leaf = Ok true.
Proof.
  intros Hk Hn Ha Ht Hr Hleaf. pose proof (audit_index _ _ _ _ Ha) as Hi. unfold verifyLeafHash. cbn [treeSize leafIndex siblings].
  destruct depth_fuel_S as (f & -> & Hf & E64). assert (kMaxLeaves ≤ i64_max) as H63 by by vm_compute.
  assert (length p ≤ f)%nat as Hp by (eapply audit_length; [done|lia]).
  replace (_ || _) with false.
  2: { symmetry. rewrite Hk, !orb_false_iff. split_and!; [done|lia..|]. apply Z.ltb_ge. unfold kMaxProofSiblings. lia. }
  rewrite <- (app_nil_r p) at 1. rewrite (rebuild_audit _ _ _ _ _ _ t) by (done || lia). rewrite Hr. simpl.
  by rewrite bool_decide_eq_true_2.
Qed.

Lemma catch_genuine r : genuine r → genuine (catch_false r).
Proof. intros [H1 H2]. destruct r as [b|[]]; simpl; try apply genuine_Ok; congruence. Qed.

(** Verification always answers, whatever the proof holds. *)
Lemma verifyLeafHash_genuine kind r proof leaf : 0 ≤ treeSize proof → genuine (verifyLeafHash kind r proof leaf).
Proof.
  intros Hts. apply catch_genuine. destruct (negb _ || _ || _ || _ || _) eqn:E; [apply genuine_Ok|].
  rewrite !orb_false_iff in E. destruct E as [[[[_ E1] E2] _] _].
  destruct depth_fuel_S as (f & -> & Hf & _). assert (kMaxLeaves ≤ i64_max) as H63 by by vm_compute.
  pose proof (rebuild_genuine kind f (treeSize proof) (leafIndex proof) leaf (siblings proof) (length (siblings proof))) as G.
  destruct (rebuild _ _ _ _ _ _ _) as [[[d|]|ex] [|rem]]; try apply genuine_Ok.
  - apply genuine_bind; [apply counted_genuine|]. intros x _. apply genuine_Ok.
  - destruct G as [G1 G2]; [lia|lia|lia|]. simpl in G1, G2; split; intros [= ->]; congruence.
  - destruct G as [G1 G2]; [lia|lia|lia|]. simpl in G1, G2; split; intros [= ->]; congruence.
Qed.

Lemma catch_total r : genuine r → ∃ b, catch_false r = Ok b.
Proof. intros [H1 H2]. destruct r as [b|[]]; simpl; eauto; congruence. Qed.
End facts.

(** ** Soundness, when no two of the inputs hashed have one digest *)

Definition digest (d : Digest) : Prop := length d = 32%nat ∧ Forall byte d.

Lemma zero_split (l1 l2 r1 r2 : list Z) : 0 ∉ l1 → 0 ∉ l2 → l1 ++ 0 :: r1 = l2 ++ 0 :: r2 → l1 = l2 ∧ r1 = r2.
Proof.
  revert l2. induction l1 as [|x l1 IH]; intros [|y l2] H1 H2 E; simplify_eq/=; [done|..].
  - by destruct H2; left.
  - by destruct H1; left.
  - rewrite not_elem_of_cons in H1, H2. destruct H1, H2. by destruct (IH l2) as [-> ->].
Qed.

Lemma printable_no_zero s : SafeScalar.all_chars printable s = true → 0 ∉ Bytes.of_string s.
Proof.
  induction s as [|c s IH]; simpl; [intros _ []%elem_of_nil|].
  rewrite andb_true_iff. intros [Hc Hs]. rewrite not_elem_of_cons. split; [|by apply IH].
  unfold printable in Hc. lia.
Qed.

Section injective.
Context `{Sha256}.
Hypothesis no_collision : ∀ x y d, evp_sha256 x = Some d → evp_sha256 y = Some d → x = y.
Hypothesis digest_bytes : ∀ x d, evp_sha256 x = Some d → Forall byte d.

Lemma hash_Ok dm bs h : hash dm bs = Ok h → SafeScalar.all_chars printable dm = true ∧
  evp_sha256 (Bytes.to_string (hash_input dm bs)) = Some h ∧ digest h.
Proof.
  unfold hash. destruct (_ || _ || _ || _) eqn:E; [done|]. destruct (evp_sha256 _) as [d|] eqn:Ed; [|done].
  destruct (Z.eqb_spec (Bytes.size d) 32) as [E32|]; [|done]. intros [= <-].
  rewrite !orb_false_iff in E. destruct E as [[_ E%negb_false_iff] _]. split_and!; [done|done|].
  split; [unfold Bytes.size in E32; lia|by apply (digest_bytes _ _ Ed)].
Qed.

Lemma hash_inj d1 d2 b1 b2 h : Forall byte b1 → Forall byte b2 → hash d1 b1 = Ok h → hash d2 b2 = Ok h →
  d1 = d2 ∧ b1 = b2.
Proof.
  intros Hb1 Hb2 (P1 & E1 & _)%hash_Ok (P2 & E2 & _)%hash_Ok. pose proof (no_collision _ _ _ E1 E2) as E.
  apply (f_equal Bytes.of_string) in E. unfold hash_input in E.
  rewrite !of_to_string in E by (rewrite !Forall_app; split_and!; try apply of_string_bytes; try done; repeat constructor; by vm_compute).
  apply app_inv_head in E. apply zero_split in E as [E ->]; [|by apply printable_no_zero..]. by apply of_string_inj in E.
Qed.

Lemma domain_hash label kind bs h : (dm ← domain label kind; hash dm bs) = Ok h → hash (label +:+ kind) bs = Ok h ∧ digest h.
Proof.
  intros (dm & Hd & E)%bind_Ok. unfold domain in Hd. destruct (negb _); [done|]. injection Hd as <-. split; [done|].
  by apply hash_Ok in E as (_ & _ & ?).
Qed.

Lemma node_inj kind l1 r1 l2 r2 h : digest l1 → digest r1 → digest l2 → digest r2 →
  nodeHash kind l1 r1 = Ok h → nodeHash kind l2 r2 = Ok h → l1 = l2 ∧ r1 = r2.
Proof.
  intros [L1 B1] [L2 B2] [L3 B3] [L4 B4] [E1 _]%domain_hash [E2 _]%domain_hash.
  destruct (hash_inj _ _ _ _ _ (Forall_app_2 _ _ _ B1 B2) (Forall_app_2 _ _ _ B3 B4) E1 E2) as [_ E].
  apply app_inj_1 in E; [done|lia].
Qed.

Lemma tree_hash_digest kind l h : Forall digest l → tree_hash kind l h → digest h.
Proof.
  intros Hl Ht. induction Ht as [d|l r k hl hr h _ _ _ IHl _ IHr Hn]; [by apply Forall_cons_1 in Hl as [? _]|].
  by apply domain_hash in Hn as [_ ?].
Qed.

Lemma rebuild_digest fuel kind n i leaf sibs rem rem' h : digest leaf →
  rebuild fuel kind n i leaf sibs rem = (Ok (Some h), rem') → digest h.
Proof.
  intros Hleaf. destruct fuel as [|fuel]; [done|]. destruct (decide (n = 1)) as [->|Hne]; [by intros [= <- _]|].
  intros E. destruct (splitPoint n) as [s|e] eqn:Hs.
  - destruct (rebuild_inv _ _ _ _ _ _ _ _ s _ Hne Hs E) as (sib & r & d & _ & _ & E'). clear E. rename E' into E.
    destruct (i <? s); destruct E as [_ E]; exact (proj2 (domain_hash _ _ _ _ E)).
  - exfalso. cbn [rebuild] in E. rewrite (proj2 (Z.eqb_neq n 1)) in E by done.
    unfold mbind at 1, M_bind at 1, gets in E. destruct rem as [|rem]; [done|]. unfold mbind at 1, M_bind at 1, modify in E.
    unfold mbind at 1, M_bind at 1, lift at 1 in E. destruct (leaf_at _ _); [|done].
    unfold mbind at 1, M_bind at 1, lift at 1 in E. by rewrite Hs in E.
Qed.

(** A path that rebuilds the hash of a tree starts at the leaf it claims. *)
Lemma rebuild_sound kind l i f leaf sibs rem rem' h : Forall digest l → Forall digest sibs → digest leaf →
  tree_hash kind l h → 0 ≤ i < Z.of_nat (length l) → Z.of_nat (length l) ≤ 2 ^ Z.of_nat f → Z.of_nat (length l) ≤ i64_max →
  rebuild (S f) kind (Z.of_nat (length l)) i leaf sibs rem = (Ok (Some h), rem') → l !! Z.to_nat i = Some leaf.
Proof.
  intros Hl Hs Hleaf Ht. revert f i rem rem' Hl. induction Ht as [d|l r k hl hr h S1 L1 Htl IHl Htr IHr Hn];
    intros f i rem rem' Hlr Hi Hf H63 E.
  { simpl in Hi. replace i with 0 by lia. cbn [rebuild length] in E. simpl in E. by injection E as -> _. }
  destruct (node_split _ _ _ _ S1 L1 Hf H63) as (f' & -> & Hp & Hne & Hfl & Hfr & Hw).
  destruct (rebuild_inv _ _ _ _ _ _ _ _ _ _ Hne Hp E) as (sib & r0 & d & -> & Hsib & Hd).
  apply Forall_app in Hlr as [Hll Hr]. pose proof (tree_hash_digest _ _ _ Hll Htl). pose proof (tree_hash_digest _ _ _ Hr Htr).
  assert (digest sib) by (rewrite Forall_forall in Hs; by eapply Hs, list_elem_of_lookup_2).
  pose proof (length_app l r) as Hlen. destruct (Z.ltb_spec i (Z.of_nat (length l))); destruct Hd as [Hd Hnd].
  - destruct (node_inj kind d sib hl hr h) as [-> _]; [exact (rebuild_digest _ _ _ _ _ _ _ _ _ Hleaf Hd)|done..|].
    rewrite lookup_app_l by lia. eapply IHl; [done|lia|done|lia|exact Hd].
  - destruct (node_inj kind sib d hl hr h) as [_ ->]; [done|exact (rebuild_digest _ _ _ _ _ _ _ _ _ Hleaf Hd)|done..|].
    rewrite Hw in Hd. replace (wrap64 (i - Z.of_nat (length l))) with (i - Z.of_nat (length l)) in Hd
      by (unfold wrap64, i64_max in *; rewrite Z.mod_small; lia).
    rewrite lookup_app_r by lia. replace (Z.to_nat i - length l)%nat with (Z.to_nat (i - Z.of_nat (length l))) by lia.
    eapply IHr; [done|lia|done|lia|exact Hd].
Qed.

Lemma catch_true r : catch_false r = Ok true → r = Ok true.
Proof. destruct r as [b|[]]; simpl; congruence. Qed.

Lemma be4_inj v w : 0 ≤ v < 4294967296 → 0 ≤ w < 4294967296 → be 4 v = be 4 w → v = w.
Proof.
  intros Hv Hw E. apply (f_equal (be_value 0)) in E. rewrite !be_value_be in E.
  change (256 ^ Z.of_nat 4) with 4294967296 in E. rewrite !Z.mod_small in E by lia. lia.
Qed.

Lemma be4_app_inj v w x y : 0 ≤ v < 4294967296 → 0 ≤ w < 4294967296 → be 4 v ++ x = be 4 w ++ y → v = w ∧ x = y.
Proof.
  intros Hv Hw E. apply app_inj_1 in E as [E ->]; [|done]. split; [by apply be4_inj|done].
Qed.

Lemma be4_typed v x : Forall byte x → Forall byte (be 4 v ++ x).
Proof. intros Hx. apply Forall_app_2; [apply be_bytes|done]. Qed.

Lemma verify_true kind r proof element : 0 ≤ leafIndex proof → verify kind r proof element = Ok true → ∃ leaf t rem,
  leafHash kind (leafIndex proof) element = Ok leaf ∧ leafIndex proof < treeSize proof ≤ kMaxLeaves ∧
  rebuild depth_fuel kind (treeSize proof) (leafIndex proof) leaf (siblings proof) (length (siblings proof)) = (Ok (Some t), rem) ∧
  countedRoot kind (treeSize proof) t = Ok r.
Proof.
  intros Hi E%catch_true. destruct (_ || _ || _) eqn:Eb; [done|]. rewrite !orb_false_iff in Eb. destruct Eb as [[E1 E2] E3].
  apply bind_Ok in E as (leaf & Hl & E%catch_true). destruct (negb _ || _ || _ || _ || _); [done|].
  destruct (rebuild _ _ _ _ _ _ _) as [[[t|]|ex] [|rem]] eqn:Er; try done. apply bind_Ok in E as (r' & Hr & E).
  injection E as E%bool_decide_eq_true. subst r'. exists leaf, t, 0%nat. split_and!; [done|lia|lia|done|done].
Qed.

Lemma counted_inj kind n1 n2 t1 t2 r : 0 ≤ n1 ≤ kMaxLeaves → 0 ≤ n2 ≤ kMaxLeaves → digest t1 → digest t2 →
  countedRoot kind n1 t1 = Ok r → countedRoot kind n2 t2 = Ok r → n1 = n2 ∧ t1 = t2.
Proof.
  unfold kMaxLeaves, kMaxListElements. intros Hn1 Hn2 [_ B1] [_ B2]. rewrite !counted_eq, !Z.mod_small by lia.
  intros [E1 _]%domain_hash [E2 _]%domain_hash.
  destruct (hash_inj _ _ _ _ _ (be4_typed n1 _ B1) (be4_typed n2 _ B2) E1 E2) as [_ E]. apply be4_app_inj in E; [done|lia..].
Qed.

Lemma leafHash_digest kind i element d : leafHash kind i element = Ok d → digest d.
Proof.
  unfold leafHash. intros (u & _ & E)%bind_Ok. rewrite uint32_bytes in E. exact (proj2 (domain_hash _ _ _ _ E)).
Qed.

Lemma leafHash_inj kind i e1 e2 d : 0 ≤ i → Forall byte e1 → Forall byte e2 →
  leafHash kind i e1 = Ok d → leafHash kind i e2 = Ok d → e1 = e2.
Proof.
  intros Hi B1 B2 [Hm E1]%leafHash_Ok [_ E2]%leafHash_Ok; [|done..].
  apply domain_hash in E1 as [E1 _]. apply domain_hash in E2 as [E2 _].
  destruct (hash_inj _ _ _ _ _ (be4_typed i _ B1) (be4_typed i _ B2) E1 E2) as [_ E]. by apply app_inv_head in E.
Qed.

Lemma verify_sound kind elements r proof element : Forall (Forall byte) elements → Forall byte element →
  Forall digest (siblings proof) → 0 ≤ leafIndex proof → root kind elements = Ok r → verify kind r proof element = Ok true →
  treeSize proof = Z.of_nat (length elements) ∧ elements !! Z.to_nat (leafIndex proof) = Some element.
Proof.
  intros Hes He Hsib Hi Hroot (leaf & t & rem & Hl & Hn & Hb & Hc)%verify_true; [|done].
  unfold root in Hroot. apply bind_Ok in Hroot as (u & Hle%throw_if_Ok & Hroot). apply bind_Ok in Hroot as (ls & Hls & Hroot).
  destruct (leafHashes_Ok _ _ _ _ Hls) as [Hlen Hj]. pose proof (leafHash_digest _ _ _ _ Hl) as Dl.
  pose proof (rebuild_digest _ _ _ _ _ _ _ _ _ Dl Hb) as Dt. destruct (decide (ls = [])) as [->|Hne].
  { unfold rootFromLeafHashes in Hroot. simpl in Hroot. apply domain_hash in Hroot as [Hroot _].
    rewrite counted_eq in Hc. apply domain_hash in Hc as [Hc _]. destruct Dt as [_ Bt].
    destruct (hash_inj _ _ _ _ _ (be4_typed (treeSize proof mod 4294967296) _ Bt) (Forall_nil_2 byte) Hc Hroot) as [E _].
    apply (f_equal (String.get 7)) in E. discriminate E. }
  apply rootFromLeafHashes_Ok in Hroot as (Hmax & t0 & Ht0 & Hc0); [|done].
  assert (Forall digest ls) as Dls.
  { apply Forall_lookup. intros j d Hd. assert (j < length elements)%nat as Hjl by (rewrite <- Hlen; by apply lookup_lt_Some in Hd).
    destruct (lookup_lt_is_Some_2 elements j Hjl) as [e Hej]. destruct (Hj j e Hej) as (d' & Hd' & Hh).
    assert (d' = d) as <- by congruence. by apply leafHash_digest in Hh. }
  destruct (counted_inj kind (treeSize proof) (Z.of_nat (length ls)) t t0 r) as [En ->]; [lia|lia|done| |done|done|].
  { by eapply tree_hash_digest. }
  rewrite Hlen in En. split; [done|]. destruct depth_fuel_S as (f & Ef & Hf & _). rewrite Ef, En, <- Hlen in Hb.
  assert (kMaxLeaves ≤ i64_max) as H63 by by vm_compute.
  assert (ls !! Z.to_nat (leafIndex proof) = Some leaf) as Hleaf
    by (apply (rebuild_sound kind ls (leafIndex proof) f leaf (siblings proof) (length (siblings proof)) rem t0); (done || lia)).
  assert (Z.to_nat (leafIndex proof) < length elements)%nat as Hlt by lia.
  destruct (lookup_lt_is_Some_2 elements _ Hlt) as [e Hej]. destruct (Hj _ e Hej) as (d' & Hd' & Hh).
  assert (d' = leaf) as -> by congruence. rewrite Z.add_0_l, Z2Nat.id in Hh by lia. rewrite Hej. f_equal.
  eapply (leafHash_inj kind (leafIndex proof)); [done| |done|done|done]. by eapply Forall_lookup_1 in Hej.
Qed.
End injective.

(** SHA-256 on the inputs of a list: it fails on every other input, so a run that
    succeeds with it hashes only these inputs. *)
Definition hashing (sha : Sha256) (inputs : list string) : Sha256 :=
  λ s, if decide (s ∈ inputs) then sha s else None.

Definition collision_free (sha : Sha256) (inputs : list string) : Prop :=
  ∀ x y, x ∈ inputs → y ∈ inputs → sha x = sha y → x = y.

Lemma hashing_injective sha inputs : collision_free sha inputs →
  ∀ x y d, hashing sha inputs x = Some d → hashing sha inputs y = Some d → x = y.
Proof. intros Hc x y d. unfold hashing. repeat case_decide; try done. intros E1 E2. apply Hc; congruence. Qed.

Lemma hashing_bytes sha inputs : @Sha256Spec sha → ∀ x d, hashing sha inputs x = Some d → Forall byte d.
Proof.
  intros Hs x d. unfold hashing. case_decide; [|done]. destruct (Hs x) as (d' & E & _ & Hb). unfold evp_sha256 in E.
  intros E'. congruence.
Qed.

(** ** The reference root *)

Section reference.
Context `{Sha256}.

Definition adr8_kind (kind : string) : Prop := kind ∈ ["tx"; "receipt"; "evidence"; "state"].

Lemma domains_agree label kind : adr8_kind kind → merkleDomain label kind = domain label kind.
Proof. unfold adr8_kind. rewrite !elem_of_cons, elem_of_nil. by intros [->|[->|[->|[->|[]]]]]. Qed.

Lemma trees_agree fuel kind leaves b e : adr8_kind kind → merkleTree fuel kind leaves b e = subtree fuel kind leaves b e.
Proof.
  intros Hk. revert b e. induction fuel as [|fuel IH]; intros b e; cbn [merkleTree subtree]; [done|].
  destruct (_ =? 1); [done|]. unfold splitPoint. destruct (splitLoop _ _ _) as [s|]; cbn [mbind result_bind]; [|done].
  rewrite !IH. destruct (subtree fuel kind leaves b _); cbn [mbind result_bind]; [|done].
  destruct (subtree fuel kind leaves _ e); cbn [mbind result_bind]; [|done]. unfold nodeHash. by rewrite domains_agree.
Qed.

Lemma long_input dm bs e : kMaxFrameBytes < Bytes.size bs → hash dm bs ≠ Ok e.
Proof.
  intros Hb. unfold hash. apply Z.ltb_lt in Hb. rewrite Hb, orb_true_r. discriminate.
Qed.

Lemma leaves_agree kind dm i elements ls : domain "MERKLE-LEAF/" kind = Ok dm → 0 ≤ i →
  i + Z.of_nat (length elements) ≤ kMaxLeaves → leavesOf dm i elements = Ok ls ↔ leafHashes kind i elements = Ok ls.
Proof.
  intros Hd. revert i ls. induction elements as [|e elements IH]; intros i ls Hi Hn; [done|]. cbn [leavesOf leafHashes].
  unfold leafHash. simpl in Hn. unfold throw_if at 2. destruct (Z.leb_spec kMaxLeaves i); [lia|]. cbn [mbind result_bind].
  rewrite !uint32_bytes. cbn [mbind result_bind]. rewrite Z.mod_small by (unfold kMaxLeaves, kMaxListElements in *; lia).
  rewrite Hd. cbn [mbind result_bind]. unfold throw_if. destruct (Z.ltb_spec (kMaxFrameBytes - 4) (Bytes.size e)) as [Hlong|_].
  - split; [done|]. intros (d & Hh & _)%bind_Ok. by apply long_input in Hh; [|rewrite size_app, be_size; lia].
  - cbn [mbind result_bind]. destruct (hash dm _) as [d|]; cbn [mbind result_bind]; [|done]. split.
    + intros (rest & Hr & E)%bind_Ok. apply IH in Hr; [|lia..]. by rewrite Hr.
    + intros (rest & Hr & E)%bind_Ok. apply IH in Hr; [|lia..]. by rewrite Hr.
Qed.

Lemma counted_trees_agree kind ls : adr8_kind kind → ls ≠ [] → Z.of_nat (length ls) ≤ kMaxLeaves →
  (tree ← merkleTree depth_fuel kind ls 0 (Z.of_nat (length ls));
   count ← Writer.bytes (Writer.writeUInt32 (Z.of_nat (length ls)));
   dm ← merkleDomain "MERKLE-ROOT/" kind;
   hash dm (count ++ tree)) = rootFromLeafHashes kind ls.
Proof.
  intros Hk Hne Hn. unfold rootFromLeafHashes, throw_if. generalize depth_fuel as fuel. intros fuel.
  rewrite bool_decide_eq_false_2 by done. destruct (Z.ltb_spec kMaxLeaves (Z.of_nat (length ls))); [lia|]. cbn [mbind result_bind].
  rewrite trees_agree, uint32_bytes, domains_agree by done. destruct (subtree _ _ _ _ _); cbn [mbind result_bind]; [|done].
  rewrite counted_eq, Z.mod_small by (unfold kMaxLeaves, kMaxListElements in *; lia). done.
Qed.

Lemma Ok_bind {A B} (a : A) (f : A → result B) : (Ok a ≫= f) = f a.
Proof. done. Qed.

Lemma roots_agree kind elements r : adr8_kind kind → merkleRoot kind elements = Ok r ↔ root kind elements = Ok r.
Proof.
  intros Hk. unfold merkleRoot, root. rewrite (domains_agree "MERKLE-LEAF/"), (domains_agree "MERKLE-EMPTY/") by done.
  assert (∃ dm, domain "MERKLE-LEAF/" kind = Ok dm) as [dm Hd].
  { unfold adr8_kind in Hk. rewrite !elem_of_cons, elem_of_nil in Hk. destruct Hk as [->|[->|[->|[->|[]]]]]; by eexists. }
  rewrite Hd, Ok_bind. fold kMaxLeaves.
  destruct (throw_if (kMaxLeaves <? _) _) as [[]|] eqn:Hm; [rewrite !Ok_bind|done]. apply throw_if_Ok in Hm.
  case_bool_decide as Hne; [by subst elements|].
  assert (∀ ls, leafHashes kind 0 elements = Ok ls → ls ≠ [] ∧ Z.of_nat (length ls) ≤ kMaxLeaves) as Hfit.
  { intros ls Hls. destruct (leafHashes_Ok _ _ _ _ Hls) as [Hlen _]. split; [intros ->; by destruct elements|lia]. }
  split; intros (ls & Hls & E)%bind_Ok.
  - apply (leaves_agree kind) in Hls; [|done|lia|lia]. destruct (Hfit ls Hls). rewrite counted_trees_agree in E by done. by rewrite Hls, Ok_bind.
  - destruct (Hfit ls Hls). apply (leaves_agree kind dm) in Hls; [|done|lia|lia]. rewrite Hls, Ok_bind.
    by rewrite counted_trees_agree.
Qed.
End reference.

(** Every tree with a root has proofs that [verify] accepts. *)
Lemma prove_verifies `{Sha256} kind elements expected indices : elements ≠ [] → root kind elements = Ok expected →
  Forall (λ i, 0 ≤ i < Z.of_nat (length elements)) indices →
  ∃ leaves proofs, leafHashes kind 0 elements = Ok leaves ∧ prove kind leaves indices = Ok proofs ∧
    ∀ j i e, indices !! j = Some i → elements !! Z.to_nat i = Some e →
      ∃ proof, proofs !! j = Some proof ∧ leafIndex proof = i ∧ treeSize proof = Z.of_nat (length elements) ∧
        verify kind expected proof e = Ok true.
Proof.
  intros Hne Hroot Hi.
  unfold root in Hroot. apply bind_Ok in Hroot as (u & _ & Hroot). apply bind_Ok in Hroot as (ls & Hls & Hroot).
  destruct (leafHashes_Ok _ _ _ _ Hls) as [Hlen Hj]. assert (ls ≠ []) as Hne' by (intros ->; by destruct elements).
  apply rootFromLeafHashes_Ok in Hroot as (Hmax & t & Ht & Hc); [|done].
  assert (isAllowedKind kind = true) as Hk.
  { rewrite counted_eq in Hc. unfold domain in Hc. by destruct (isAllowedKind kind). }
  rewrite <- Hlen in Hi. destruct (prove_audits kind ls t indices Hk Ht Hmax Hi) as (proofs & Hp & _ & Ha).
  exists ls, proofs. split_and!; [done|done|]. intros j i e Hji He. destruct (Ha j i Hji) as (p & Hap & Hpj).
  exists (Proof i (Z.of_nat (length ls)) p). split_and!; [done|done|by rewrite <- Hlen|]. pose proof (audit_index _ _ _ _ Hap) as Hidx.
  destruct (Hj _ _ He) as (leaf & Hleaf & Hh). rewrite Z.add_0_l, Z2Nat.id in Hh by lia.
  unfold verify. cbn [treeSize leafIndex]. replace (_ || _ || _) with false by (symmetry; rewrite !orb_false_iff; split_and!; lia).
  rewrite Hh. cbn [mbind result_bind]. by rewrite (verify_audit kind ls i p t expected leaf).
Qed.

Lemma collision_free_check sha inputs : NoDup (sha <$> inputs) → collision_free sha inputs.
Proof.
  intros Hnd x y (i & Hi)%list_elem_of_lookup (j & Hj)%list_elem_of_lookup E.
  assert (i = j) as ->; [|congruence]. eapply (NoDup_lookup _ i j (sha x)); [exact Hnd|..]; rewrite list_lookup_fmap.
  - by rewrite Hi.
  - by rewrite Hj, E.
Qed.
End MerkleFacts.

(** ** What the Merkle trees promise *)

Module MerkleProperties.
Import V1 Tree SplitFacts MerkleFacts EncodingFacts.

(** C20. Every recursion ends: the split loop finds the largest power of two below the
    count, and roots, proofs and verification stay within the fuel and never read
    outside a vector, whatever the leaves, the indices or the proof hold.
    Verification always answers. *)
Theorem merkle_terminates `{Sha256} (kind : string) (leaves : list Digest) (indices : list Z) (expected : Digest)
    (proof : InclusionProof) (element : list Z) (n : Z) (Hsize : 0 ≤ treeSize proof) (Hn : 2 ≤ n ≤ u64_max) :
  (∃ k, splits n k ∧ splitPoint n = Ok (2 ^ k)) ∧
  genuine (rootFromLeafHashes kind leaves) ∧
  genuine (prove kind leaves indices) ∧
  ∃ b, verify kind expected proof element = Ok b.
Proof.
  split_and!; [by apply splitPoint_ok|apply rootFromLeafHashes_genuine|apply prove_genuine|].
  apply catch_total. destruct (_ || _); [apply genuine_Ok|].
  apply genuine_bind; [apply leafHash_genuine|]. intros leaf _. by apply verifyLeafHash_genuine.
Qed.

(** Proofs are complete: for every tree that has a root, [prove] answers each
    requested index with a proof that [verify] accepts for the element there. *)
Theorem inclusion_proofs_complete `{Sha256} (kind : string) (elements : list (list Z)) (expected : Digest)
    (indices : list Z) (Hne : elements ≠ []) (Hroot : root kind elements = Ok expected)
    (Hi : Forall (λ i, 0 ≤ i < Z.of_nat (length elements)) indices) :
  ∃ leaves proofs, leafHashes kind 0 elements = Ok leaves ∧ prove kind leaves indices = Ok proofs ∧
    ∀ j i e, indices !! j = Some i → elements !! Z.to_nat i = Some e →
      ∃ proof, proofs !! j = Some proof ∧ leafIndex proof = i ∧ treeSize proof = Z.of_nat (length elements) ∧
        verify kind expected proof e = Ok true.
Proof.
  by apply prove_verifies.
Qed.

(** C19. Proofs are sound: when SHA-256 has no collision among the inputs that the
    root and the verification hash, an accepted proof names the element that really
    stands at its index, in a tree of exactly the claimed size. *)
Theorem inclusion_proofs_sound (sha : Sha256) (inputs : list string) (kind : string) (elements : list (list Z))
    (expected : Digest) (proof : InclusionProof) (element : list Z)
    (Hsha : @Sha256Spec sha) (Hfree : collision_free sha inputs)
    (Hes : Forall (Forall byte) elements) (He : Forall byte element)
    (Hsib : Forall digest (siblings proof)) (Hi : 0 ≤ leafIndex proof)
    (Hroot : @root (hashing sha inputs) kind elements = Ok expected)
    (Hver : @verify (hashing sha inputs) kind expected proof element = Ok true) :
  treeSize proof = Z.of_nat (length elements) ∧ elements !! Z.to_nat (leafIndex proof) = Some element.
Proof.
  apply (@verify_sound (hashing sha inputs) (hashing_injective _ _ Hfree) (hashing_bytes _ _ Hsha) kind elements expected);
    done.
Qed.

(** For the kinds of ADR 0008 the roots of [V1MerkleTree] are those of
    [V1EncodingPrimitives]: one succeeds exactly when the other does, with the same
    digest. *)
Theorem merkle_roots_agree `{Sha256} (kind : string) (elements : list (list Z)) (r : Digest) (Hk : adr8_kind kind) :
  merkleRoot kind elements = Ok r ↔ root kind elements = Ok r.
Proof. by apply roots_agree. Qed.

(** A concrete digest that mixes its input. *)
Definition mix_sha256 : Sha256 := λ s, Some (be 32 (foldl (λ acc b, (acc * 257 + b + 1) mod 2 ^ 255) 0 (Bytes.of_string s))).

Lemma mix_sha256_spec : @Sha256Spec mix_sha256.
Proof.
  intros s. eexists. split_and!; [done| |apply be_bytes]. apply Nat2Z.inj. eapply (be_size 32).
Qed.

Definition sample_elements : list (list Z) := [[1]; [2; 3]; []].
Definition ok_or {A} (d : A) (r : result A) : A := match r with Ok a => a | Throw _ => d end.
Definition sample_leaves : list Digest := ok_or [] (@leafHashes mix_sha256 "tx" 0 sample_elements).
Definition sample_root : Digest := ok_or [] (@root mix_sha256 "tx" sample_elements).
Definition sample_proof : InclusionProof :=
  default (Proof 0 0 []) (head (ok_or [] (@prove mix_sha256 "tx" sample_leaves [1]))).

(** What the root of a tree of three elements hashes: the leaves, two nodes and the
    count. *)
Definition inputs_of_three (kind : string) (e0 e1 e2 : list Z) : list string :=
  let leaf i e := Bytes.to_string (hash_input ("MERKLE-LEAF/" +:+ kind) (be 4 i ++ e)) in
  let h i e := ok_or [] (@leafHash mix_sha256 kind i e) in
  let node l r := Bytes.to_string (hash_input ("MERKLE-NODE/" +:+ kind) (l ++ r)) in
  let pair := ok_or [] (@nodeHash mix_sha256 kind (h 0 e0) (h 1 e1)) in
  let top := ok_or [] (@nodeHash mix_sha256 kind pair (h 2 e2)) in
  [leaf 0 e0; leaf 1 e1; leaf 2 e2; node (h 0 e0) (h 1 e1); node pair (h 2 e2);
   Bytes.to_string (hash_input ("MERKLE-ROOT/" +:+ kind) (be 4 3 ++ top))].
Definition sample_inputs : list string := inputs_of_three "tx" [1] [2; 3] [].

Lemma merkle_terminates_witness :
  (∃ k, splits 6 k ∧ splitPoint 6 = Ok (2 ^ k)) ∧ splitPoint 6 = Ok 4.
Proof.
  split; [|vm_compute; reflexivity].
  exact (proj1 (@merkle_terminates mix_sha256 "tx" sample_leaves [1] sample_root sample_proof [2; 3] 6
    ltac:(vm_compute; discriminate) ltac:(vm_compute; split; discriminate))).
Defined.

Lemma inclusion_proofs_complete_witness :
  ∃ leaves proofs, @leafHashes mix_sha256 "tx" 0 sample_elements = Ok leaves ∧
    @prove mix_sha256 "tx" leaves [1; 0; 1] = Ok proofs ∧ length leaves = 3%nat.
Proof.
  destruct (@inclusion_proofs_complete mix_sha256 "tx" sample_elements sample_root [1; 0; 1])
    as (ls & ps & Hls & Hps & _); [discriminate|vm_compute; reflexivity|repeat constructor; simpl; lia|].
  exists ls, ps. split; [exact Hls|]. split; [exact Hps|]. vm_compute in Hls. injection Hls as <-. reflexivity.
Defined.

Lemma inclusion_proofs_sound_witness :
  treeSize sample_proof = 3 ∧ sample_elements !! Z.to_nat (leafIndex sample_proof) = Some [2; 3].
Proof.
  apply (inclusion_proofs_sound mix_sha256 sample_inputs "tx" sample_elements sample_root sample_proof [2; 3]).
  - exact mix_sha256_spec.
  - apply collision_free_check. apply (bool_decide_eq_true_1 _). vm_compute. reflexivity.
  - repeat constructor; unfold byte; lia.
  - repeat constructor; unfold byte; lia.
  - apply (bool_decide_eq_true_1 (Forall (λ d, length d = 32%nat ∧ Forall (λ b, 0 ≤ b < 256) d) (siblings sample_proof))).
    vm_compute. reflexivity.
  - vm_compute. discriminate.
  - vm_compute. reflexivity.
  - vm_compute. reflexivity.
Defined.

Lemma merkle_roots_agree_witness : @merkleRoot mix_sha256 "tx" sample_elements = Ok sample_root.
Proof.
  apply (@merkle_roots_agree mix_sha256 "tx" sample_elements sample_root); [|vm_compute; reflexivity].
  unfold adr8_kind. left.
Defined.
End MerkleProperties.
