(* ===== verification/Snapshot.v ===== *)
(** * node: chunked snapshot transfer

    Models src/src/node/history/SnapshotTransfer.cpp: the server that cuts a snapshot
    into chunks with inclusion proofs, and the assembler that accepts chunks from
    peers it does not trust.  The client of Merkle.v. *)

From S2P Require Import Prelude Utils Crypto Encoding Merkle.
Import V1 Tree.

Definition kChunkKind : string := "snapshot-chunk".

Definition chunksFor (totalBytes chunkBytes : Z) : Z :=
  if totalBytes =? 0 then 0 else (totalBytes - 1) / chunkBytes + 1.

Definition expectedLength (index count totalBytes chunkBytes : Z) : Z :=
  if wrap64 (index + 1) <? count then chunkBytes else wrap64 (totalBytes - wrap64 (index * chunkBytes)).

(** [all.subspan(offset, length)] *)
Definition subspan (bytes : list Z) (offset length : Z) : result (list Z) :=
  if offset + length <=? Bytes.size bytes then Ok (take (Z.to_nat length) (drop (Z.to_nat offset) bytes))
  else Throw UndefinedBehaviour.

Record SnapshotChunk := Chunk { chunkIndex : Z; chunkData : list Z; chunkProof : InclusionProof }.

Module ChunkServer.
Section server.
Context `{Sha256}.
Record t := mk { bytes : list Z; chunkBytes : Z; leaves : list Digest }.

Definition countOf (bytes : list Z) (chunkBytes : Z) : Z := chunksFor (Bytes.size bytes) chunkBytes.
Definition chunkCount (s : t) : Z := countOf (bytes s) (chunkBytes s).
Definition totalBytes (s : t) : Z := Bytes.size (bytes s).

(** The bytes of chunk [index]. *)
Definition span (bytes : list Z) (chunkBytes index : Z) : result (list Z) :=
  subspan bytes (wrap64 (index * chunkBytes))
    (expectedLength index (countOf bytes chunkBytes) (Bytes.size bytes) chunkBytes).

Definition make (snapshotBytes : list Z) (chunkBytes : Z) : result t :=
  if bool_decide (snapshotBytes = []) || (chunkBytes =? 0) || (kMaxLeaves <? countOf snapshotBytes chunkBytes) then
    Throw (invalid_argument "Snapshot cannot be served in bounded chunks.")
  else
    leaves ← mapM (λ index, part ← span snapshotBytes chunkBytes index; leafHash kChunkKind index part)
               (seqZ 0 (countOf snapshotBytes chunkBytes));
    Ok (mk snapshotBytes chunkBytes leaves).

Definition digest (s : t) : result string := hex <$> rootFromLeafHashes kChunkKind (leaves s).

Definition chunk (s : t) (index : Z) : result SnapshotChunk :=
  throw_if (chunkCount s <=? index) (out_of_range "Snapshot chunk index is out of range.");;
  part ← span (bytes s) (chunkBytes s) index;
  proofs ← prove kChunkKind (leaves s) [index];
  match proofs with
  | proof :: _ => Ok (Chunk index part proof)
  | [] => Throw UndefinedBehaviour
  end.
End server.
End ChunkServer.

Inductive SnapshotChunkAcceptStatus :=
| ACCEPTED | DUPLICATE | OUT_OF_RANGE | WRONG_LENGTH | INVALID_PROOF | OVER_BUDGET.

#[global] Instance SnapshotChunkAcceptStatus_eq_dec : EqDecision SnapshotChunkAcceptStatus.
Proof. solve_decision. Defined.

Module Assembler.
Section assembler.
Context `{Sha256}.
Record t := mk {
  expectedRoot : Digest;
  totalBytes : Z;
  chunkBytes : Z;
  chunkCount : Z;
  receivedBytes : Z;
  chunks : list (list Z);
  received : gset Z;
}.

Definition make (expectedDigest : string) (claimedTotalBytes chunkBytes maxBytes : Z) : result t :=
  let refused := Throw (invalid_argument "Snapshot transfer geometry is not acceptable.") in
  match digestFromHex expectedDigest with
  | None => refused
  | Some root =>
      if (chunkBytes =? 0) || (claimedTotalBytes =? 0) || (maxBytes <? claimedTotalBytes) ||
         (kMaxLeaves <? chunksFor claimedTotalBytes chunkBytes) then refused
      else
        let count := chunksFor claimedTotalBytes chunkBytes in
        Ok (mk root claimedTotalBytes chunkBytes count 0 (replicate (Z.to_nat count) []) ∅)
  end.

(** The checks of [accept] before the Merkle proof, in order. *)
Definition refusal (a : t) (c : SnapshotChunk) : option SnapshotChunkAcceptStatus :=
  if (chunkCount a <=? chunkIndex c) || negb (leafIndex (chunkProof c) =? chunkIndex c) ||
     negb (treeSize (chunkProof c) =? chunkCount a) then Some OUT_OF_RANGE
  else if bool_decide (chunkIndex c ∈ received a) then Some DUPLICATE
  else if negb (Bytes.size (chunkData c) =? expectedLength (chunkIndex c) (chunkCount a) (totalBytes a) (chunkBytes a)) then
    Some WRONG_LENGTH
  else if totalBytes a <? wrap64 (receivedBytes a + Bytes.size (chunkData c)) then Some OVER_BUDGET
  else None.

(** Storing a verified chunk. *)
Definition store (a : t) (c : SnapshotChunk) : t :=
  mk (expectedRoot a) (totalBytes a) (chunkBytes a) (chunkCount a)
     (wrap64 (receivedBytes a + Bytes.size (chunkData c)))
     (<[Z.to_nat (chunkIndex c) := chunkData c]> (chunks a)) ({[ chunkIndex c ]} ∪ received a).

Definition accept (c : SnapshotChunk) : M t SnapshotChunkAcceptStatus := λ a,
  match refusal a c with
  | Some status => (Ok status, a)
  | None =>
      match verify kChunkKind (expectedRoot a) (chunkProof c) (chunkData c) with
      | Ok true => (Ok ACCEPTED, store a c)
      | Ok false => (Ok INVALID_PROOF, a)
      | Throw e => (Throw e, a)
      end
  end.

Definition complete (a : t) : bool :=
  (Z.of_nat (size (received a)) =? chunkCount a) && (receivedBytes a =? totalBytes a).
Definition receivedChunks (a : t) : Z := Z.of_nat (size (received a)).

Definition assemble (a : t) : result (list Z) :=
  throw_if (negb (complete a)) (logic_error "Snapshot transfer is not complete.");;
  Ok (concat (chunks a)).
End assembler.
End Assembler.

(** ** The geometry of a transfer *)

Module SnapshotFacts.
Import MerkleFacts EncodingFacts.

Definition geometry (total cb count : Z) : Prop :=
  1 ≤ total ∧ 1 ≤ cb ≤ u32_max ∧ count = chunksFor total cb ∧ count ≤ kMaxLeaves.

Lemma geometry_bounds total cb count : geometry total cb count →
  1 ≤ count ∧ (count - 1) * cb < total ≤ count * cb ∧ total ≤ i64_max.
Proof.
  intros (Ht & Hcb & -> & Hmax). unfold chunksFor in *. destruct (Z.eqb_spec total 0); [lia|].
  unfold kMaxLeaves, kMaxListElements, u32_max, i64_max in *.
  pose proof (Z.div_mod (total - 1) cb ltac:(lia)). pose proof (Z.mod_pos_bound (total - 1) cb ltac:(lia)).
  pose proof (Z.div_pos (total - 1) cb ltac:(lia) ltac:(lia)). split_and!; nia.
Qed.

Lemma length_in_range total cb count i : geometry total cb count → 0 ≤ i < count →
  wrap64 (i * cb) = i * cb ∧ i * cb + expectedLength i count total cb ≤ total ∧ 1 ≤ expectedLength i count total cb ∧
  expectedLength i count total cb = if decide (i = count - 1) then total - i * cb else cb.
Proof.
  intros Hg Hi. destruct (geometry_bounds _ _ _ Hg) as (H1 & H2 & H3). destruct Hg as (Ht & Hcb & _ & Hmax).
  unfold kMaxLeaves, kMaxListElements, u32_max, i64_max in *. assert (i * cb ≤ (count - 1) * cb) by nia.
  assert (wrap64 (i * cb) = i * cb) as Hw by (unfold wrap64; rewrite Z.mod_small; nia).
  unfold expectedLength. rewrite Hw. assert (wrap64 (i + 1) = i + 1) as -> by (unfold wrap64; rewrite Z.mod_small; lia).
  destruct (Z.ltb_spec (i + 1) count); destruct (decide (i = count - 1)) as [->|Hne]; try lia.
  - assert ((i + 1) * cb ≤ (count - 1) * cb) by nia. split_and!; nia.
  - unfold wrap64. rewrite Z.mod_small by lia. split_and!; lia.
Qed.

(** Chunk [i] of a snapshot. *)
Definition piece (bytes : list Z) (cb count i : Z) : list Z :=
  take (Z.to_nat (expectedLength i count (Bytes.size bytes) cb)) (drop (Z.to_nat (i * cb)) bytes).
Definition pieces (bytes : list Z) (cb count : Z) : list (list Z) := piece bytes cb count <$> seqZ 0 count.

Section snapshot.
Context (bytes : list Z) (cb count : Z) (Hg : geometry (Bytes.size bytes) cb count).

Lemma piece_size i : 0 ≤ i < count → Bytes.size (piece bytes cb count i) = expectedLength i count (Bytes.size bytes) cb.
Proof.
  intros Hi. destruct (length_in_range _ _ _ i Hg Hi) as (_ & Hr & Hl & _). unfold piece, Bytes.size in *.
  destruct Hg as (_ & Hcb & _). assert (0 ≤ i * cb) by nia. rewrite length_take, length_drop. lia.
Qed.

Lemma span_piece i : 0 ≤ i < count → ChunkServer.span bytes cb i = Ok (piece bytes cb count i).
Proof.
  intros Hi. destruct (length_in_range _ _ _ i Hg Hi) as (Hw & Hr & Hl & _). unfold ChunkServer.span, subspan, ChunkServer.countOf.
  destruct Hg as (_ & _ & <- & _). rewrite Hw. by rewrite (proj2 (Z.leb_le _ _) Hr).
Qed.

Lemma pieces_lookup i e : 0 ≤ i → pieces bytes cb count !! Z.to_nat i = Some e ↔ i < count ∧ e = piece bytes cb count i.
Proof.
  intros Hi. unfold pieces. rewrite list_lookup_fmap. destruct (decide (i < count)) as [Hlt|Hge].
  - rewrite lookup_seqZ_lt by lia. simpl. rewrite Z2Nat.id by lia. split; [by intros [= <-]|by intros [_ ->]].
  - rewrite lookup_seqZ_ge by lia. split; [done|lia].
Qed.

Lemma pieces_length : length (pieces bytes cb count) = Z.to_nat count.
Proof. unfold pieces. by rewrite length_fmap, length_seqZ. Qed.

(** The chunks make up the snapshot. *)
Lemma pieces_prefix m : (Z.of_nat m < count) → concat (piece bytes cb count <$> seqZ 0 (Z.of_nat m)) = take (Z.to_nat (Z.of_nat m * cb)) bytes.
Proof.
  destruct Hg as (_ & Hcb & _). induction m as [|m IH]; intros Hm; [done|].
  replace (Z.of_nat (S m)) with (Z.of_nat m + 1) by lia. rewrite seqZ_app by lia.
  rewrite fmap_app, concat_app, IH by lia. simpl.
  replace (Z.of_nat 0 + (0 + Z.of_nat m)) with (Z.of_nat m) by lia. rewrite app_nil_r.
  destruct (length_in_range _ _ _ (Z.of_nat m) Hg ltac:(lia)) as (_ & _ & _ & E). unfold piece.
  rewrite E, decide_False by lia.   rewrite take_take_drop. f_equal. nia.
Qed.

Lemma pieces_concat : concat (pieces bytes cb count) = bytes.
Proof.
  destruct (geometry_bounds _ _ _ Hg) as (H1 & H2 & _). destruct Hg as (_ & Hcb & _). unfold pieces.
  replace count with (Z.of_nat (Z.to_nat (count - 1)) + 1) at 2 by lia. rewrite seqZ_app by lia.
  rewrite fmap_app, concat_app, pieces_prefix by lia. simpl.
  replace (Z.of_nat 0 + (0 + Z.of_nat (Z.to_nat (count - 1)))) with (count - 1) by lia. rewrite app_nil_r.
  destruct (length_in_range _ _ _ (count - 1) Hg ltac:(lia)) as (_ & _ & _ & E). unfold piece.
  rewrite Z2Nat.id, E, decide_True by lia. rewrite take_take_drop. apply take_ge. unfold Bytes.size in *. nia.
Qed.
End snapshot.

(** ** Digests as text *)

Definition nibbles_ok (b : Z) : bool :=
  (hexValue (Hex.hex_digit (Z.shiftr b 4)) =? Z.shiftr b 4) && (hexValue (Hex.hex_digit (Z.land b 15)) =? Z.land b 15) &&
  (0 <=? Z.shiftr b 4) && (0 <=? Z.land b 15) && (Z.lor (Z.shiftl (Z.shiftr b 4) 4) (Z.land b 15) =? b).

Lemma nibbles_byte b : byte b → nibbles_ok b = true.
Proof.
  intros Hb. assert (forallb nibbles_ok (seqZ 0 256) = true) as E by (vm_compute; reflexivity).
  rewrite forallb_forall in E. apply E, list_elem_of_In, elem_of_seqZ. unfold byte in Hb. lia.
Qed.

Lemma hexPairs_encode d : Forall byte d → hexPairs (Hex.hexEncode d) = Some d.
Proof.
  induction 1 as [|b d Hb _ IH]; [done|]. cbn [Hex.hexEncode hexPairs]. apply nibbles_byte in Hb. unfold nibbles_ok in Hb.
  rewrite !andb_true_iff, !Z.eqb_eq, !Z.leb_le in Hb. destruct Hb as [[[[-> ->] H1] H2] H3].
  apply Z.ltb_ge in H1, H2. rewrite H1, H2. cbn [orb]. rewrite IH. simpl. by rewrite H3.
Qed.

Lemma digestFromHex_hex d : digest d → digestFromHex (hex d) = Some d.
Proof.
  intros [Hl Hb]. unfold digestFromHex, hex, string_size. rewrite CryptoFacts.hexEncode_length, Hl. by apply hexPairs_encode.
Qed.

(** ** The server *)

Section server.
Context `{Sha256}.

Lemma spans_leaves bytes cb g n b ls : (∀ i, b ≤ i < b + Z.of_nat n → ChunkServer.span bytes cb i = Ok (g i)) →
  mapM (λ i, part ← ChunkServer.span bytes cb i; leafHash kChunkKind i part) (seqZ b (Z.of_nat n)) = Ok ls →
  leafHashes kChunkKind b (g <$> seqZ b (Z.of_nat n)) = Ok ls.
Proof.
  revert b ls. induction n as [|n IH]; intros b ls Hs; [done|]. rewrite seqZ_cons by lia.
  replace (Z.pred (Z.of_nat (S n))) with (Z.of_nat n) by lia. rewrite fmap_cons. cbn [mapM leafHashes].
  rewrite (Hs b) by lia. cbn [mbind result_bind]. intros (d & -> & E)%bind_Ok. apply bind_Ok in E as (rest & Hr & E).
  cbn [mbind result_bind]. replace (b + 1) with (Z.succ b) by lia. rewrite (IH _ rest); [done|intros i Hi; apply Hs; lia|exact Hr].
Qed.

Lemma server_make bytes cb s : 0 ≤ cb ≤ u32_max → ChunkServer.make bytes cb = Ok s →
  ∃ ls, s = ChunkServer.mk bytes cb ls ∧ geometry (Bytes.size bytes) cb (ChunkServer.countOf bytes cb) ∧
    leafHashes kChunkKind 0 (pieces bytes cb (ChunkServer.countOf bytes cb)) = Ok ls.
Proof.
  intros Hcb. unfold ChunkServer.make. destruct (_ || _ || _) eqn:E; [done|]. rewrite !orb_false_iff in E. destruct E as [[E1 E2] E3].
  apply bool_decide_eq_false in E1. intros (ls & Hls & [= <-])%bind_Ok.
  assert (geometry (Bytes.size bytes) cb (ChunkServer.countOf bytes cb)) as Hg.
  { split_and!; [|lia|lia|done|lia]. unfold Bytes.size. destruct bytes; [done|simpl; lia]. }
  exists ls. split_and!; [done|done|]. destruct (geometry_bounds _ _ _ Hg) as (H1 & _).
  revert Hls. unfold pieces. rewrite <- (Z2Nat.id (ChunkServer.countOf bytes cb)) at 1 3 by lia. apply spans_leaves.
  intros i Hi. apply span_piece; [done|lia].
Qed.

(** What [chunk] serves: the piece at the index, with a proof the root accepts. *)
Lemma server_chunk bytes cb ls r i : let count := ChunkServer.countOf bytes cb in
  geometry (Bytes.size bytes) cb count → leafHashes kChunkKind 0 (pieces bytes cb count) = Ok ls →
  rootFromLeafHashes kChunkKind ls = Ok r → 0 ≤ i < count →
  ∃ proof, ChunkServer.chunk (ChunkServer.mk bytes cb ls) i = Ok (Chunk i (piece bytes cb count i) proof) ∧
    leafIndex proof = i ∧ treeSize proof = count ∧ verify kChunkKind r proof (piece bytes cb count i) = Ok true.
Proof.
  intros count Hg Hls Hr Hi. pose proof (pieces_length bytes cb count) as Hlen.
  destruct (prove_verifies kChunkKind (pieces bytes cb count) r [i]) as (ls' & proofs & Hls' & Hp & Hv).
  - intros E. rewrite E in Hlen. simpl in Hlen. lia.
  - unfold root, throw_if. destruct Hg as (_ & _ & _ & Hmax). destruct (Z.ltb_spec kMaxLeaves (Z.of_nat (length (pieces bytes cb count)))); [lia|].
    cbn [mbind result_bind]. by rewrite Hls.
  - repeat constructor; lia.
  - assert (ls' = ls) as -> by congruence. destruct (Hv 0%nat i (piece bytes cb count i)) as (proof & Hj & Hli & Hts & Hver).
    { done. } { apply pieces_lookup; [lia|split; [lia|done]]. }
    exists proof. split_and!; [|done|lia|done]. unfold ChunkServer.chunk, ChunkServer.chunkCount. cbn [ChunkServer.bytes ChunkServer.chunkBytes ChunkServer.leaves].
    fold count. unfold throw_if. destruct (Z.leb_spec count i); [lia|]. cbn [mbind result_bind].
    rewrite (span_piece _ _ count) by done. cbn [mbind result_bind]. rewrite Hp. cbn [mbind result_bind].
    destruct proofs as [|p ps]; [done|]. by injection Hj as ->.
Qed.
End server.

Lemma pieces_typed bytes cb count : Forall byte bytes → Forall (Forall byte) (pieces bytes cb count).
Proof.
  intros Hb. apply Forall_forall. intros e (i & -> & _)%list_elem_of_fmap. by apply Forall_take, Forall_drop.
Qed.

Lemma root_digest `{Sha256} (digest_bytes : ∀ x d, evp_sha256 x = Some d → Forall byte d) kind ls r :
  rootFromLeafHashes kind ls = Ok r → digest r.
Proof.
  unfold rootFromLeafHashes. intros (u & _ & E)%bind_Ok. case_bool_decide.
  - exact (proj2 (domain_hash digest_bytes _ _ _ _ E)).
  - apply bind_Ok in E as (t & _ & E). rewrite counted_eq in E. exact (proj2 (domain_hash digest_bytes _ _ _ _ E)).
Qed.

Lemma spec_bytes (sha : Sha256) : @Sha256Spec sha → ∀ x d, sha x = Some d → Forall byte d.
Proof. intros Hs x d E. destruct (Hs x) as (d' & E' & _ & Hb). unfold evp_sha256 in E'. congruence. Qed.

(** The digest a server publishes is the root of its pieces. *)
Lemma server_root (sha : Sha256) inputs bytes cb s dg : @Sha256Spec sha → 0 ≤ cb ≤ u32_max →
  @ChunkServer.make (hashing sha inputs) bytes cb = Ok s → @ChunkServer.digest (hashing sha inputs) s = Ok dg →
  ∃ r, @root (hashing sha inputs) kChunkKind (pieces bytes cb (ChunkServer.countOf bytes cb)) = Ok r ∧
    digestFromHex dg = Some r ∧ geometry (Bytes.size bytes) cb (ChunkServer.countOf bytes cb).
Proof.
  intros Hsha Hcb Hm Hd. destruct (server_make _ _ _ Hcb Hm) as (ls & -> & Hg & Hls). unfold ChunkServer.digest in Hd.
  cbn [ChunkServer.leaves] in Hd. destruct (rootFromLeafHashes kChunkKind ls) as [r|] eqn:Hr; [|done]. injection Hd as <-.
  exists r. split_and!; [|apply digestFromHex_hex; exact (@root_digest (hashing sha inputs) (hashing_bytes _ _ Hsha) _ _ _ Hr)|done].
  unfold root, throw_if. rewrite pieces_length. destruct Hg as (_ & _ & _ & Hmax).
  destruct (Z.ltb_spec kMaxLeaves (Z.of_nat (Z.to_nat (ChunkServer.countOf bytes cb)))); [unfold kMaxLeaves, kMaxListElements in *; lia|].
  cbn [mbind result_bind]. by rewrite Hls.
Qed.

(** ** The assembler *)

Section assembler.
Context `{Sha256}.
Import Assembler.

Record wf (a : t) : Prop := {
  wf_geometry : geometry (totalBytes a) (chunkBytes a) (chunkCount a);
  wf_slots : length (chunks a) = Z.to_nat (chunkCount a);
  wf_received i : i ∈ received a → 0 ≤ i < chunkCount a;
  wf_empty i : 0 ≤ i < chunkCount a → i ∉ received a → chunks a !! Z.to_nat i = Some [];
  wf_bytes : receivedBytes a = sum_by Bytes.size (chunks a);
  wf_budget : receivedBytes a ≤ totalBytes a;
}.

Lemma make_Ok dg total cb maxBytes a : 0 ≤ total → 0 ≤ cb ≤ u32_max → make dg total cb maxBytes = Ok a →
  ∃ r, digestFromHex dg = Some r ∧ geometry total cb (chunksFor total cb) ∧ total ≤ maxBytes ∧
    a = mk r total cb (chunksFor total cb) 0 (replicate (Z.to_nat (chunksFor total cb)) []) ∅.
Proof.
  intros Ht Hcb. unfold make. destruct (digestFromHex dg) as [r|]; [|done]. destruct (_ || _ || _ || _) eqn:E; [done|].
  rewrite !orb_false_iff in E. destruct E as [[[E1 E2] E3] E4]. intros [= <-]. exists r.
  split_and!; [done|unfold geometry; split_and!; try done; lia|lia|done].
Qed.

Lemma sum_by_zero {A} (f : A → Z) n x : f x = 0 → sum_by f (replicate n x) = 0.
Proof. intros Hx. induction n as [|n IH]; simpl; [done|lia]. Qed.

Lemma sum_by_insert {A} (f : A → Z) (l : list A) i x y : l !! i = Some x →
  sum_by f (<[i := y]> l) = sum_by f l - f x + f y.
Proof. revert i. induction l as [|z l IH]; intros [|i] Hi; simplify_eq/=; [lia|]. rewrite (IH _ Hi). lia. Qed.

Lemma fresh_wf r total cb : geometry total cb (chunksFor total cb) →
  wf (mk r total cb (chunksFor total cb) 0 (replicate (Z.to_nat (chunksFor total cb)) []) ∅).
Proof.
  intros Hg. split; simpl; [done|by rewrite length_replicate|set_solver| | |destruct Hg; lia].
  - intros i Hi _. apply lookup_replicate. split; [done|lia].
  - by rewrite sum_by_zero.
Qed.

Lemma refusal_None a c : wf a → 0 ≤ chunkIndex c → refusal a c = None →
  chunkIndex c < chunkCount a ∧ leafIndex (chunkProof c) = chunkIndex c ∧ treeSize (chunkProof c) = chunkCount a ∧
  (chunkIndex c ∉ received a) ∧
  Bytes.size (chunkData c) = expectedLength (chunkIndex c) (chunkCount a) (totalBytes a) (chunkBytes a) ∧
  wrap64 (receivedBytes a + Bytes.size (chunkData c)) = receivedBytes a + Bytes.size (chunkData c) ∧
  receivedBytes a + Bytes.size (chunkData c) ≤ totalBytes a.
Proof.
  intros [Hg _ _ _ Hb Hbud] Hi. unfold refusal. destruct (_ || _ || _) eqn:E; [done|]. rewrite !orb_false_iff, !negb_false_iff in E.
  destruct E as [[E1 E2] E3]. case_bool_decide as Er; [done|]. destruct (negb _) eqn:E4; [done|]. apply negb_false_iff in E4.
  destruct (length_in_range _ _ _ (chunkIndex c) Hg) as (_ & Hr & Hl & _); [lia|].
  destruct (geometry_bounds _ _ _ Hg) as (_ & _ & H63). destruct Hg as (_ & Hcb & _).
  assert (0 ≤ receivedBytes a) by (rewrite Hb; apply sum_by_nonneg; intros x _; apply size_nonneg).
  assert (wrap64 (receivedBytes a + Bytes.size (chunkData c)) = receivedBytes a + Bytes.size (chunkData c)) as Hw.
  { unfold wrap64, i64_max in *. assert (0 ≤ chunkIndex c * chunkBytes a) by nia. rewrite Z.mod_small; lia. }
  rewrite Hw. destruct (Z.ltb_spec (totalBytes a) (receivedBytes a + Bytes.size (chunkData c))); [done|]. intros _. split_and!; lia || done.
Qed.

Lemma store_wf a c : wf a → 0 ≤ chunkIndex c → refusal a c = None → wf (store a c).
Proof.
  intros Hwf Hi Hn. destruct (refusal_None a c Hwf Hi Hn) as (Hlt & _ & _ & Hni & _ & Hw & Hle).
  destruct Hwf as [Hg Hs Hr He Hb Hbud]. split; simpl; [done|by rewrite length_insert| | | |lia].
  - intros i [->%elem_of_singleton|Hin]%elem_of_union; [lia|by apply Hr].
  - intros i Hir [Hne%not_elem_of_singleton Hni']%not_elem_of_union. rewrite list_lookup_insert_ne by lia. by apply He.
  - rewrite Hw, Hb. rewrite (sum_by_insert _ _ _ []) by (apply He; [lia|done]). change (Bytes.size []) with 0. lia.
Qed.

(** The only call that changes the assembler is one whose proof verifies. *)
Lemma accept_cases c a : (accept c a).2 = a ∨
  (refusal a c = None ∧ verify kChunkKind (expectedRoot a) (chunkProof c) (chunkData c) = Ok true ∧
   accept c a = (Ok ACCEPTED, store a c)).
Proof. unfold accept. destruct (refusal a c); [by left|]. destruct (verify _ _ _ _) as [[]|]; [by right|by left..]. Qed.

Definition feed (cs : list SnapshotChunk) (a : t) : t := foldl (λ a c, (accept c a).2) a cs.

(** Everything stored was verified, from a chunk that was fed. *)
Definition stored (r : Digest) (fed : list SnapshotChunk) (a : t) : Prop :=
  expectedRoot a = r ∧ ∀ i, i ∈ received a → ∃ c, c ∈ fed ∧ chunkIndex c = i ∧ chunks a !! Z.to_nat i = Some (chunkData c) ∧
    leafIndex (chunkProof c) = i ∧ treeSize (chunkProof c) = chunkCount a ∧
    verify kChunkKind r (chunkProof c) (chunkData c) = Ok true.

Lemma accept_stored r fed a c : wf a → 0 ≤ chunkIndex c → stored r fed a →
  wf (accept c a).2 ∧ stored r (fed ++ [c]) (accept c a).2 ∧ totalBytes (accept c a).2 = totalBytes a.
Proof.
  intros Hwf Hi [Hroot Hst]. destruct (accept_cases c a) as [->|(Hn & Hv & ->)]; cbn [snd].
  - split_and!; [done| |done]. split; [done|]. intros i Hin. destruct (Hst i Hin) as (c' & Hc & Hrest). exists c'.
    split; [apply elem_of_app; by left|done].
  - split_and!; [by apply store_wf| |done]. destruct (refusal_None a c Hwf Hi Hn) as (Hlt & Hli & Hts & Hni & _).
    split; [done|]. simpl. intros i [->%elem_of_singleton|Hin]%elem_of_union.
    + exists c. rewrite Hroot in Hv. split_and!; try done; [apply elem_of_app; right; by apply list_elem_of_singleton|].
      apply list_lookup_insert_eq. rewrite (wf_slots a Hwf). lia.
    + destruct (Hst i Hin) as (c' & Hc & Hidx & Hlk & Hrest). exists c'. pose proof (wf_received a Hwf i Hin).
      split_and!; try done; [apply elem_of_app; by left| |tauto..].
      rewrite list_lookup_insert_ne; [done|]. intros E. apply Hni. replace (chunkIndex c) with i by lia. done.
Qed.

Lemma feed_stored r fed a cs : wf a → Forall (λ c, 0 ≤ chunkIndex c) cs → stored r fed a →
  wf (feed cs a) ∧ stored r (fed ++ cs) (feed cs a) ∧ totalBytes (feed cs a) = totalBytes a.
Proof.
  revert fed a. induction cs as [|c cs IH]; intros fed a Hwf Hcs Hst; [by rewrite app_nil_r|].
  apply Forall_cons_1 in Hcs as [Hc Hcs]. destruct (accept_stored r fed a c Hwf Hc Hst) as (H1 & H2 & H3).
  destruct (IH _ _ H1 Hcs H2) as (H4 & H5 & H6). rewrite <- app_assoc in H5. split_and!; [done|done|].
  simpl. by rewrite <- H3.
Qed.

(** A complete transfer has every chunk. *)
Lemma complete_all a : wf a → complete a = true → ∀ i, 0 ≤ i < chunkCount a → i ∈ received a.
Proof.
  intros Hwf [Hsz _]%andb_true_iff i Hi. destruct (geometry_bounds _ _ _ (wf_geometry a Hwf)) as (H1 & _).
  assert (received a ≡ list_to_set (seqZ 0 (chunkCount a))) as E; [|rewrite E, elem_of_list_to_set, elem_of_seqZ; lia].
  apply set_subseteq_size_equiv.
  - intros j Hj. rewrite elem_of_list_to_set, elem_of_seqZ. pose proof (wf_received a Hwf j Hj). lia.
  - rewrite size_list_to_set by apply NoDup_seqZ. rewrite length_seqZ. lia.
Qed.

Lemma size_concat ls : Bytes.size (concat ls) = sum_by Bytes.size ls.
Proof. induction ls as [|l ls IH]; [done|]. cbn [concat sum_by]. rewrite size_app. by rewrite <- IH. Qed.

Lemma sum_by_pointwise {A} (f : A → Z) (l1 l2 : list A) : length l1 = length l2 →
  (∀ i x y, l1 !! i = Some x → l2 !! i = Some y → f x ≤ f y) → sum_by f l1 ≤ sum_by f l2.
Proof.
  revert l2. induction l1 as [|x l1 IH]; intros [|y l2] Hl Hp; simplify_eq/=; [done|].
  pose proof (Hp 0%nat x y eq_refl eq_refl). specialize (IH l2 Hl (λ i, Hp (S i))). lia.
Qed.

Lemma mapM_all {A B} (f : A → result B) (P : A → B → Prop) l : (∀ x, x ∈ l → ∃ y, f x = Ok y ∧ P x y) →
  ∃ ys, mapM f l = Ok ys ∧ Forall2 P l ys.
Proof.
  induction l as [|x l IH]; intros Hl; [by exists []|]. destruct (Hl x) as (y & Hy & HP); [by left|].
  destruct IH as (ys & Hys & HPs); [intros z Hz; apply Hl; by right|]. exists (y :: ys). cbn [mapM].
  rewrite Hy. cbn [mbind result_bind]. rewrite Hys. split; [done|by constructor].
Qed.

(** ** An honest transfer *)

Section honest.
Context (bytes : list Z) (cb count : Z) (r : Digest) (Hg : geometry (Bytes.size bytes) cb count).

(** What the server sends for an index. *)
Definition served (i : Z) (c : SnapshotChunk) : Prop :=
  0 ≤ i < count ∧ chunkIndex c = i ∧ chunkData c = piece bytes cb count i ∧ leafIndex (chunkProof c) = i ∧
  treeSize (chunkProof c) = count ∧ verify kChunkKind r (chunkProof c) (chunkData c) = Ok true.

Record honest (a : t) : Prop := {
  hon_wf : wf a;
  hon_root : expectedRoot a = r;
  hon_geometry : totalBytes a = Bytes.size bytes ∧ chunkBytes a = cb ∧ chunkCount a = count;
  hon_chunks i : i ∈ received a → chunks a !! Z.to_nat i = Some (piece bytes cb count i);
}.

Lemma honest_budget a i : honest a → 0 ≤ i < count → i ∉ received a →
  receivedBytes a + Bytes.size (piece bytes cb count i) ≤ Bytes.size bytes.
Proof.
  intros [Hwf _ (Ht & Hc & Hn) Hch] Hi Hni. rewrite (wf_bytes a Hwf).
  assert (chunks a !! Z.to_nat i = Some []) as Hempty by (apply (wf_empty a Hwf); [lia|done]).
  pose proof (sum_by_insert Bytes.size _ _ _ (piece bytes cb count i) Hempty) as E. change (Bytes.size []) with 0 in E.
  rewrite <- (pieces_concat bytes cb count Hg) at 2. rewrite size_concat.
  replace (sum_by Bytes.size (chunks a) + Bytes.size (piece bytes cb count i)) with
    (sum_by Bytes.size (<[Z.to_nat i := piece bytes cb count i]> (chunks a))) by lia.
  apply sum_by_pointwise; [rewrite length_insert, pieces_length, (wf_slots a Hwf); by rewrite Hn|].
  intros j x y Hx Hy. assert (j < Z.to_nat count)%nat as Hj by (rewrite <- (pieces_length bytes cb count); by apply lookup_lt_Some in Hy).
  rewrite <- (Nat2Z.id j) in Hy. apply pieces_lookup in Hy as [_ ->]; [|lia].
  destruct (decide (Z.to_nat i = j)) as [<-|Hne].
  - rewrite list_lookup_insert_eq in Hx by (rewrite (wf_slots a Hwf), Hn; lia). injection Hx as <-. rewrite Z2Nat.id by lia. done.
  - rewrite list_lookup_insert_ne in Hx by done. destruct (decide (Z.of_nat j ∈ received a)) as [Hin|Hout].
    + apply Hch in Hin. rewrite Nat2Z.id, Hx in Hin. by injection Hin as ->.
    + apply (wf_empty a Hwf) in Hout; [|lia]. rewrite Nat2Z.id, Hx in Hout. injection Hout as ->. apply size_nonneg.
Qed.

Lemma honest_accept a i c : honest a → served i c → i ∉ received a →
  accept c a = (Ok ACCEPTED, store a c) ∧ honest (store a c).
Proof.
  intros Hh (Hi & <- & Hd & Hli & Hts & Hv) Hni. pose proof (honest_budget a _ Hh Hi Hni) as Hbud. rewrite <- Hd in Hbud.
  destruct Hh as [Hwf Hr (Ht & Hc & Hn) Hch]. destruct (geometry_bounds _ _ _ Hg) as (_ & _ & H63).
  assert (refusal a c = None) as Href.
  { unfold refusal. rewrite Hli, Hts, Hn, Hc, Ht, !Z.eqb_refl. destruct (Z.leb_spec count (chunkIndex c)); [lia|]. cbn [negb orb].
    rewrite bool_decide_eq_false_2 by done. rewrite Hd, piece_size, Z.eqb_refl by done. cbn [negb].
    rewrite <- piece_size, <- Hd by done.
    assert (0 ≤ receivedBytes a) by (rewrite (wf_bytes a Hwf); apply sum_by_nonneg; intros x _; apply size_nonneg).
    pose proof (size_nonneg (chunkData c)). unfold wrap64, i64_max in *. rewrite Z.mod_small by lia.
    destruct (Z.ltb_spec (Bytes.size bytes) (receivedBytes a + Bytes.size (chunkData c))); [lia|done]. }
  split; [unfold accept; by rewrite Href, Hr, Hv|]. split; [by apply store_wf; [|lia|]|done|done|].
  simpl. intros j [->%elem_of_singleton|Hin]%elem_of_union.
  - rewrite list_lookup_insert_eq, Hd; [done|]. rewrite (wf_slots a Hwf), Hn. lia.
  - rewrite list_lookup_insert_ne; [by apply Hch|]. pose proof (wf_received a Hwf j Hin). intros E. apply Hni.
    replace (chunkIndex c) with j by lia. done.
Qed.

(** A chunk that is already there changes nothing. *)
Lemma repeated_accept a c : chunkIndex c ∈ received a → (accept c a).2 = a.
Proof.
  intros Hin. unfold accept. destruct (refusal a c) as [status|] eqn:E; [done|]. exfalso. revert E.
  unfold refusal. destruct (_ || _ || _); [done|]. by rewrite bool_decide_eq_true_2.
Qed.

Lemma honest_feed order cs a : honest a → Forall2 served order cs →
  honest (feed cs a) ∧ ∀ i, i ∈ received (feed cs a) ↔ i ∈ order ∨ i ∈ received a.
Proof.
  intros Hh Hf. revert a Hh. induction Hf as [|i c order cs Hs _ IH]; intros a Hh.
  { split; [done|]. intros i. simpl. rewrite elem_of_nil. tauto. }
  assert (feed (c :: cs) a = feed cs (accept c a).2) as -> by done. pose proof Hs as (_ & Ei & _).
  destruct (decide (i ∈ received a)) as [Hin|Hni].
  - rewrite repeated_accept by (by rewrite Ei). destruct (IH a Hh) as [H1 H2]. split; [done|].
    intros j. rewrite H2, elem_of_cons. split; [tauto|]. by intros [[->|]|]; auto.
  - destruct (honest_accept a i c Hh Hs Hni) as [-> Hh']. destruct (IH (store a c) Hh') as [H1 H2].
    split; [done|]. intros j. simpl. rewrite H2. simpl. rewrite elem_of_union, elem_of_singleton, elem_of_cons, Ei. tauto.
Qed.

Lemma honest_done a : honest a → (∀ i, 0 ≤ i < count → i ∈ received a) → assemble a = Ok bytes.
Proof.
  intros [Hwf _ (Ht & Hc & Hn) Hch] Hall. destruct (geometry_bounds _ _ _ Hg) as (H1 & _).
  assert (chunks a = pieces bytes cb count) as Echunks.
  { apply list_eq_same_length with (Z.to_nat count); [by rewrite pieces_length|by rewrite (wf_slots a Hwf), Hn|].
    intros j x y Hj Hx Hy. rewrite <- (Nat2Z.id j) in Hx, Hy. apply pieces_lookup in Hy as [Hlt ->]; [|lia].
    rewrite (Hch (Z.of_nat j)) in Hx by (apply Hall; lia). by injection Hx as <-. }
  assert (received a ≡ list_to_set (seqZ 0 count)) as Er.
  { intros j. rewrite elem_of_list_to_set, elem_of_seqZ. split; [intros Hj; pose proof (wf_received a Hwf j Hj); lia|intros; apply Hall; lia]. }
  unfold assemble, complete. rewrite Er, size_list_to_set by apply NoDup_seqZ. rewrite length_seqZ, (wf_bytes a Hwf), Echunks, <- size_concat.
  rewrite pieces_concat by done. rewrite Hn, Ht, Z2Nat.id, !Z.eqb_refl by lia. done.
Qed.
End honest.
End assembler.
End SnapshotFacts.

(** ** What a transfer promises *)

Module SnapshotProperties.
Import EncodingFacts MerkleFacts SnapshotFacts.

(** The types of the fields of a chunk received from a peer. *)
Definition chunk_typed (c : SnapshotChunk) : Prop :=
  0 ≤ chunkIndex c ∧ Forall byte (chunkData c) ∧ Forall digest (siblings (chunkProof c)).

(** C21. A transfer from peers nobody trusts is sound: whatever geometry is claimed and
    whatever chunks arrive, in whatever order, if the assembler built on the server's
    digest completes, the bytes it assembles are the server's snapshot.  SHA-256 has
    to be free of collisions among the inputs hashed by the server and by the
    verification of the chunks. *)
Theorem snapshot_transfer_sound (sha : Sha256) (inputs : list string) (bytes : list Z) (cb total cb' maxBytes : Z)
    (s : ChunkServer.t) (dg : string) (a : Assembler.t) (cs : list SnapshotChunk) (out : list Z)
    (Hsha : @Sha256Spec sha) (Hfree : collision_free sha inputs)
    (Hbytes : Forall byte bytes) (Hcb : 0 ≤ cb ≤ u32_max) (Htotal : u64 total) (Hcb' : 0 ≤ cb' ≤ u32_max)
    (Hserver : @ChunkServer.make (hashing sha inputs) bytes cb = Ok s)
    (Hdigest : @ChunkServer.digest (hashing sha inputs) s = Ok dg)
    (Hmake : Assembler.make dg total cb' maxBytes = Ok a)
    (Htyped : Forall chunk_typed cs)
    (Hcover : Forall (λ c, @verify (hashing sha inputs) kChunkKind (Assembler.expectedRoot a) (chunkProof c) (chunkData c) =
                           @verify sha kChunkKind (Assembler.expectedRoot a) (chunkProof c) (chunkData c)) cs)
    (Hout : Assembler.assemble (@feed sha cs a) = Ok out) :
  out = bytes.
Proof.
  destruct (@server_root sha inputs bytes cb s dg Hsha Hcb Hserver Hdigest) as (r & Hr & Hhex & Hg).
  destruct (make_Ok _ _ _ _ _ (proj1 Htotal) Hcb' Hmake) as (r' & Hr' & Hg' & _ & ->). rewrite Hhex in Hr'. injection Hr' as <-.
  cbn [Assembler.expectedRoot] in Hcover. rewrite Forall_forall in Hcover, Htyped.
  destruct (@feed_stored sha r [] _ cs (fresh_wf r total cb' Hg')) as (Hwf & [Hroot Hst] & _);
    [apply Forall_forall; intros c Hc; by apply Htyped|by split; [|intros i ?%elem_of_empty]|].
  set (b := @feed sha cs _) in *. unfold Assembler.assemble in Hout. apply bind_Ok in Hout as (u & Hc%throw_if_Ok%negb_false_iff & [= <-]).
  pose proof (complete_all b Hwf Hc) as Hall. destruct (geometry_bounds _ _ _ (wf_geometry b Hwf)) as (H1 & _).
  assert (∀ i, 0 ≤ i < Assembler.chunkCount b → Assembler.chunkCount b = Z.of_nat (length (pieces bytes cb (ChunkServer.countOf bytes cb))) ∧
    ∃ d, Assembler.chunks b !! Z.to_nat i = Some d ∧ pieces bytes cb (ChunkServer.countOf bytes cb) !! Z.to_nat i = Some d) as Hsound.
  { intros i Hi. destruct (Hst i (Hall i Hi)) as (c & Hin & Hci & Hlk & Hli & Hts & Hv). destruct (Htyped c Hin) as (_ & Hd & Hs).
    rewrite <- (Hcover c Hin) in Hv. destruct (@verify_sound (hashing sha inputs) (hashing_injective _ _ Hfree) (hashing_bytes _ _ Hsha)
      kChunkKind (pieces bytes cb (ChunkServer.countOf bytes cb)) r (chunkProof c) (chunkData c)) as [Hn Hlk']; try done; try lia.
    - by apply pieces_typed.
    - rewrite Hts in Hn. split; [done|]. exists (chunkData c). by rewrite <- Hli at 2. }
  destruct (Hsound 0 ltac:(lia)) as [Hn _]. replace (Assembler.chunks b) with (pieces bytes cb (ChunkServer.countOf bytes cb)); [by apply pieces_concat|].
  symmetry. apply list_eq_same_length with (length (pieces bytes cb (ChunkServer.countOf bytes cb))); [done|rewrite (wf_slots b Hwf); lia|].
  intros j x y Hj Hx Hy. destruct (Hsound (Z.of_nat j) ltac:(lia)) as (_ & d & E1 & E2). rewrite Nat2Z.id in E1, E2. congruence.
Qed.

(** C22. An honest transfer succeeds: every chunk of the server is available, and an
    assembler built on the server's digest and geometry that receives all of them,
    in any order and any number of times each, assembles the snapshot. *)
Theorem snapshot_transfer_complete (sha : Sha256) (bytes : list Z) (cb maxBytes : Z) (s : ChunkServer.t) (dg : string)
    (order : list Z) (Hsha : @Sha256Spec sha) (Hcb : 0 ≤ cb ≤ u32_max)
    (Hserver : @ChunkServer.make sha bytes cb = Ok s) (Hdigest : @ChunkServer.digest sha s = Ok dg)
    (Hmax : Bytes.size bytes ≤ maxBytes) (Horder : ∀ i, i ∈ order ↔ 0 ≤ i < ChunkServer.chunkCount s) :
  ∃ a cs, Assembler.make dg (Bytes.size bytes) cb maxBytes = Ok a ∧ mapM (@ChunkServer.chunk sha s) order = Ok cs ∧
    Assembler.assemble (@feed sha cs a) = Ok bytes.
Proof.
  destruct (server_make _ _ _ Hcb Hserver) as (ls & -> & Hg & Hls). unfold ChunkServer.chunkCount in Horder.
  cbn [ChunkServer.bytes ChunkServer.chunkBytes] in Horder. set (count := ChunkServer.countOf bytes cb) in *.
  unfold ChunkServer.digest in Hdigest. cbn [ChunkServer.leaves] in Hdigest.
  destruct (rootFromLeafHashes kChunkKind ls) as [r|] eqn:Hr; [|done]. injection Hdigest as <-.
  assert (digest r) as Hd by exact (@root_digest sha (spec_bytes sha Hsha) _ _ _ Hr).
  assert (geometry (Bytes.size bytes) cb (chunksFor (Bytes.size bytes) cb)) as Hg' by exact Hg.
  exists (Assembler.mk r (Bytes.size bytes) cb count 0 (replicate (Z.to_nat count) []) ∅).
  destruct (mapM_all (@ChunkServer.chunk sha (ChunkServer.mk bytes cb ls)) (@served sha bytes cb count r) order) as (cs & Hcs & Hsv).
  { intros i Hi%Horder.
    destruct (@server_chunk sha bytes cb ls r i Hg Hls Hr) as (proof & Hc & Hli & Hts & Hv); [fold count; lia|].
    eexists. split; [exact Hc|]. split_and!; simpl; (done || lia). }
  exists cs. split_and!; [|exact Hcs|].
  - unfold Assembler.make. rewrite digestFromHex_hex by done. destruct Hg as (H1 & H2 & H3 & H4). rewrite <- H3.
    replace (_ || _ || _ || _) with false; [done|]. symmetry. rewrite !orb_false_iff. split_and!; lia.
  - destruct (@honest_feed sha bytes cb count r Hg order cs (Assembler.mk r (Bytes.size bytes) cb count 0 (replicate (Z.to_nat count) []) ∅))
      as [Hh Hrec]; [split; [by apply fresh_wf|done|done|done]|done|].
    apply (honest_done bytes cb count r Hg); [exact Hh|]. intros i Hi. apply Hrec. left. by apply Horder.
Qed.

(** Memory follows verified bytes, never a peer's claims: the chunks held are worth
    exactly [receivedBytes], at most the claimed total, which the limit given at the
    start bounds. *)
Theorem assembler_stays_in_budget `{Sha256} (dg : string) (total cb maxBytes : Z) (a : Assembler.t) (cs : list SnapshotChunk)
    (Htotal : u64 total) (Hcb : 0 ≤ cb ≤ u32_max) (Hmake : Assembler.make dg total cb maxBytes = Ok a)
    (Hcs : Forall (λ c, 0 ≤ chunkIndex c) cs) :
  Bytes.size (concat (Assembler.chunks (feed cs a))) = Assembler.receivedBytes (feed cs a) ∧
  Assembler.receivedBytes (feed cs a) ≤ total ≤ maxBytes.
Proof.
  destruct (make_Ok _ _ _ _ _ (proj1 Htotal) Hcb Hmake) as (r & _ & Hg & Hm & ->).
  destruct (feed_stored r [] _ cs (fresh_wf r total cb Hg) Hcs) as (Hwf & _ & Ht); [by split; [|intros i ?%elem_of_empty]|].
  pose proof (wf_budget _ Hwf). rewrite Ht in *. cbn [Assembler.totalBytes] in *. rewrite size_concat, (wf_bytes _ Hwf) in *. lia.
Qed.

Definition sample_bytes : list Z := [10; 20; 30; 40; 50].
#[local] Instance mix : Sha256 := MerkleProperties.mix_sha256.
Definition sample_server : ChunkServer.t :=
  MerkleProperties.ok_or (ChunkServer.mk [] 0 []) (ChunkServer.make sample_bytes 2).
Definition sample_digest : string := MerkleProperties.ok_or "" (ChunkServer.digest sample_server).
Definition sample_chunks : list SnapshotChunk :=
  MerkleProperties.ok_or [] (mapM (ChunkServer.chunk sample_server) [2; 0; 1]).
Definition sample_assembler : Assembler.t :=
  MerkleProperties.ok_or (Assembler.mk [] 0 0 0 0 [] ∅) (Assembler.make sample_digest 5 2 1000).

Lemma snapshot_transfer_complete_witness :
  ∃ a cs, Assembler.make sample_digest 5 2 1000 = Ok a ∧ mapM (ChunkServer.chunk sample_server) [2; 0; 2; 1; 0] = Ok cs ∧
    Assembler.assemble (feed cs a) = Ok sample_bytes.
Proof.
  apply (snapshot_transfer_complete mix sample_bytes 2 1000 sample_server sample_digest [2; 0; 2; 1; 0]).
  - exact MerkleProperties.mix_sha256_spec.
  - vm_compute. split; discriminate.
  - vm_compute. reflexivity.
  - vm_compute. reflexivity.
  - vm_compute. discriminate.
  - change (ChunkServer.chunkCount sample_server) with 3. intros i. rewrite !elem_of_cons, elem_of_nil. lia.
Defined.

Lemma snapshot_transfer_sound_witness :
  Assembler.assemble (feed sample_chunks sample_assembler) = Ok sample_bytes ∧ [10; 20; 30; 40; 50] = sample_bytes.
Proof.
  split; [vm_compute; reflexivity|].
  apply (snapshot_transfer_sound mix (MerkleProperties.inputs_of_three kChunkKind [10; 20] [30; 40] [50]) sample_bytes 2 5 2 1000
    sample_server sample_digest sample_assembler sample_chunks [10; 20; 30; 40; 50]).
  - exact MerkleProperties.mix_sha256_spec.
  - apply collision_free_check. apply (bool_decide_eq_true_1 _). vm_compute. reflexivity.
  - repeat constructor; unfold byte; lia.
  - vm_compute. split; discriminate.
  - vm_compute. split; discriminate.
  - vm_compute. split; discriminate.
  - vm_compute. reflexivity.
  - vm_compute. reflexivity.
  - vm_compute. reflexivity.
  - apply (bool_decide_eq_true_1 (Forall (λ c, 0 ≤ chunkIndex c ∧ Forall (λ b, 0 ≤ b < 256) (chunkData c) ∧
      Forall (λ d, length d = 32%nat ∧ Forall (λ b, 0 ≤ b < 256) d) (siblings (chunkProof c))) sample_chunks)).
    vm_compute. reflexivity.
  - apply (bool_decide_eq_true_1 _). vm_compute. reflexivity.
  - vm_compute. reflexivity.
Defined.

Lemma assembler_stays_in_budget_witness :
  Assembler.receivedBytes (feed sample_chunks sample_assembler) ≤ 5 ≤ 1000.
Proof.
  apply (assembler_stays_in_budget sample_digest 5 2 1000 sample_assembler sample_chunks).
  - vm_compute. split; discriminate.
  - vm_compute. split; discriminate.
  - vm_compute. reflexivity.
  - apply (bool_decide_eq_true_1 _). vm_compute. reflexivity.
Defined.
End SnapshotProperties.
