(* ===== verification/Schedule.v ===== *)
(** * consensus: proposer schedules and the epoch calendar

    Models src/src/consensus/V1WeightedProposerSchedule.cpp (the priority schedule of
    protocol v1), ProposerSchedule.cpp (the weighted lottery of the current node) and
    EpochCadence.cpp.  Validator ids of the v1 schedule are digests of 32 bytes,
    compared lexicographically; priorities are signed 128-bit integers. *)

From Stdlib Require Import Ascii.
From S2P Require Import Prelude Utils Crypto Encoding ValidatorRegistry.

(** ** The priority schedule *)

Module Weighted.

(** [std::array<unsigned char, 32>::operator<] *)
Fixpoint lex_lt (x y : list Z) : bool :=
  match x, y with
  | [], [] => false
  | [], _ :: _ => true
  | _ :: _, [] => false
  | a :: x, b :: y => if a <? b then true else if b <? a then false else lex_lt x y
  end.

Record Validator := mkValidator { id : list Z; weight : Z }.
#[global] Instance Validator_eq_dec : EqDecision Validator.
Proof. solve_decision. Defined.

Record NextSet := mkNextSet { root : list Z; nextSetValidators : list Validator }.

Definition kMaxValidators : Z := 9619.

(** Checked signed 128-bit arithmetic. *)
Definition i128 (z : Z) : bool := (- 2 ^ 127 <=? z) && (z <? 2 ^ 127).
Definition add (left right : Z) : option Z := if i128 (left + right) then Some (left + right) else None.
Definition subtract (left right : Z) : option Z := if i128 (left - right) then Some (left - right) else None.

Record t := mk {
  epochLengthBlocks : Z;
  nextHeight : Z;
  setRoot : list Z;
  totalWeight : Z;
  validators : list Validator;
  priorities : list Z;
}.

(** The loop of [validSet]; [previous] is the validator before. *)
Fixpoint validLoop (previous : option Validator) (total : Z) (l : list Validator) : option Z :=
  match l with
  | [] => Some total
  | v :: l =>
      if (weight v =? 0) || match previous with None => false | Some p => negb (lex_lt (id p) (id v)) end ||
         (u64_max - total <? weight v) then None
      else validLoop (Some v) (total + weight v) l
  end.

(** The total weight of a valid set. *)
Definition validSet (l : list Validator) : option Z :=
  if bool_decide (l = []) || (kMaxValidators <? Z.of_nat (length l)) then None
  else total ← validLoop None 0 l; if total =? 0 then None else Some total.

Definition create (epochLength : Z) (genesisSetRoot : list Z) (genesisValidators : list Validator) : option t :=
  if (epochLength =? 0) || (Z.of_nat (length genesisValidators) <? 4) then None
  else
    total ← validSet genesisValidators;
    Some (mk epochLength 1 genesisSetRoot total genesisValidators (replicate (length genesisValidators) 0)).

(** [order] of a ranking: indices by falling score, then by id. *)
Definition before (scores : list Z) (vs : list Validator) (left right : nat) : bool :=
  let sl := default 0 (scores !! left) in
  let sr := default 0 (scores !! right) in
  if negb (sl =? sr) then sr <? sl
  else lex_lt (default [] (id <$> vs !! left)) (default [] (id <$> vs !! right)).

Definition not_after (scores : list Z) (vs : list Validator) : relation nat :=
  λ left right, before scores vs right left = false.
#[global] Instance not_after_dec scores vs : RelDecision (not_after scores vs).
Proof. intros i j. unfold not_after. apply _. Defined.

Definition scoresOf (s : t) : option (list Z) :=
  mapM (λ pv, add pv.1 (weight pv.2)) (zip (priorities s) (validators s)).
Definition orderOf (scores : list Z) (vs : list Validator) : list nat :=
  merge_sort (not_after scores vs) (seq 0 (length vs)).

Record Ranking := mkRanking { scores : list Z; order : list nat }.

Definition ranking (s : t) : option Ranking :=
  scores ← scoresOf s; Some (mkRanking scores (orderOf scores (validators s))).

(** [m_validators[order[round % order.size()]].id] *)
Definition idAt (s : t) (r : Ranking) (round : Z) : option (list Z) :=
  index ← order r !! Z.to_nat (round mod Z.of_nat (length (order r)));
  v ← validators s !! index;
  Some (id v).

Definition proposer (height round : Z) (s : t) : option (list Z) :=
  if negb (height =? nextHeight s) then None
  else r ← ranking s; idAt s r round.

(** [for (p : priorities) if (!add(sum, p, sum)) return false;] *)
Fixpoint sumLoop (sum : Z) (l : list Z) : option Z :=
  match l with
  | [] => Some sum
  | p :: l => sum ← add sum p; sumLoop sum l
  end.

(** [*std::minmax_element] of a non-empty list. *)
Definition minimum (l : list Z) : Z := match l with [] => 0 | x :: l => foldr Z.min x l end.
Definition maximum (l : list Z) : Z := match l with [] => 0 | x :: l => foldr Z.max x l end.

Definition normalize (ps : list Z) (total : Z) : option (list Z) :=
  range ← subtract (maximum ps) (minimum ps);
  let threshold := total * 2 in
  let ps := if threshold <? range then
              let divisor := Z.quot range threshold + (if Z.rem range threshold =? 0 then 0 else 1) in
              (λ p, Z.quot p divisor) <$> ps
            else ps in
  sum ← sumLoop 0 ps;
  let average := Z.quot sum (Z.of_nat (length ps)) in
  ps ← mapM (λ p, subtract p average) ps;
  sum ← sumLoop 0 ps;
  let direction := if 0 <? sum then -1 else 1 in
  let remainder := wrap64 (if 0 <? sum then sum else - sum) in
  if Z.of_nat (length ps) <=? remainder then None
  else
    firsts ← mapM (λ p, add p direction) (take (Z.to_nat remainder) ps);
    let ps := firsts ++ drop (Z.to_nat remainder) ps in
    sum ← sumLoop 0 ps;
    if sum =? 0 then
      range ← subtract (maximum ps) (minimum ps);
      if range <=? threshold + 1 then Some ps else None
    else None.

(** [std::lower_bound] on validators in id order, and the priority found there. *)
Definition carried (oldValidators : list Validator) (oldPriorities : list Z) (v : Validator) : option Z :=
  '(i, entry) ← list_find (λ entry, lex_lt (id entry) (id v) = false) oldValidators;
  if bool_decide (id entry = id v) then oldPriorities !! i else None.

Definition lowestOf (carries : list (option Z)) : option Z :=
  foldl (λ lowest c, match c, lowest with
                     | None, _ => lowest
                     | Some p, None => Some p
                     | Some p, Some l => if p <? l then Some p else Some l
                     end) None carries.

Definition rebase (oldValidators : list Validator) (oldPriorities : list Z) (newValidators : list Validator)
    (newWeight : Z) : option (list Z) :=
  let carries := carried oldValidators oldPriorities <$> newValidators in
  let lowest := lowestOf carries in
  ps ← mapM (λ c, match c, lowest with
                  | Some p, _ => Some p
                  | None, Some l => subtract l newWeight
                  | None, None => Some 0
                  end) carries;
  normalize ps newWeight.

(** The priorities after a finalized height. *)
Definition nextPriorities (s : t) (r : Ranking) (nextSet : option (NextSet * Z)) : option (list Z) :=
  primary ← head (order r);
  score ← scores r !! primary;
  lowered ← subtract score (totalWeight s);
  let ps := <[primary := lowered]> (scores r) in
  match nextSet with
  | Some (next, nextWeight) =>
      if negb (bool_decide (nextSetValidators next = validators s)) then
        rebase (validators s) ps (nextSetValidators next) nextWeight
      else normalize ps nextWeight
  | None => normalize ps (totalWeight s)
  end.

Definition finalize (height round : Z) (signedProposer : list Z) (nextSet : option NextSet) (s : t) : bool * t :=
  if negb (height =? nextHeight s) || (height =? u64_max) ||
     match nextSet with None => false | Some _ => negb (height mod epochLengthBlocks s =? 0) end then (false, s)
  else
    match (match nextSet with
           | None => Some None
           | Some next => (λ w, Some (next, w)) <$> validSet (nextSetValidators next)
           end) with
    | None => (false, s)
    | Some next =>
        match ranking s with
        | None => (false, s)
        | Some r =>
            if negb (bool_decide (idAt s r round = Some signedProposer)) then (false, s)
            else
              match nextPriorities s r next with
              | None => (false, s)
              | Some ps =>
                  (true, match next with
                         | None => mk (epochLengthBlocks s) (nextHeight s + 1) (setRoot s) (totalWeight s) (validators s) ps
                         | Some (n, w) => mk (epochLengthBlocks s) (nextHeight s + 1) (root n) w (nextSetValidators n) ps
                         end)
              end
        end
    end.

(** [appendU64], [appendU32], [appendI128] *)
Definition appendU64 (value : Z) : list Z := (λ shift, Z.shiftr value shift mod 256) <$> [56; 48; 40; 32; 24; 16; 8; 0].
Definition appendU32 (value : Z) : list Z := (λ shift, Z.shiftr value shift mod 256) <$> [24; 16; 8; 0].
Definition appendI128 (value : Z) : list Z :=
  let raw := value mod 2 ^ 128 in
  (λ shift, Z.shiftr raw shift mod 256) <$> [120; 112; 104; 96; 88; 80; 72; 64; 56; 48; 40; 32; 24; 16; 8; 0].

Definition stateValueBytes (s : t) : list Z :=
  setRoot s ++ appendU64 (nextHeight s - 1) ++ appendU64 (totalWeight s) ++
  appendU32 (Z.of_nat (length (validators s))) ++
  concat (zip_with (λ v p, appendU32 48 ++ id v ++ appendI128 p) (validators s) (priorities s)).
End Weighted.

(** ** The lottery *)

Module Lottery.
Section lottery.
Context `{Sha256}.

(** One character of [hexPrefixToUint64]. *)
Definition hexValue (c : ascii) : Z :=
  let v := Hex.code c in
  if (48 <=? v) && (v <=? 57) then v - 48
  else if (97 <=? v) && (v <=? 102) then v - 97 + 10
  else if (65 <=? v) && (v <=? 70) then v - 65 + 10
  else 0.

Fixpoint prefixLoop (n : nat) (value : Z) (s : string) : Z :=
  match n, s with
  | S n, String c s => prefixLoop n (Z.lor (wrap64 (Z.shiftl value 4)) (hexValue c)) s
  | _, _ => value
  end.
Definition hexPrefixToUint64 (hashHex : string) : Z := prefixLoop 16 0 hashHex.

Definition buildSelectionKey (chainId : string) (height round : Z) : string :=
  "NODO_PROPOSER_SELECTION_V1:" +:+ chainId +:+ ":" +:+ to_string height +:+ ":" +:+ to_string round.

(** The loop over the eligible addresses. *)
Fixpoint pick (r : ValidatorRegistry) (ticket cursor : Z) (addresses : list string) : result (option string) :=
  match addresses with
  | [] => Ok None
  | address :: addresses =>
      let weight := Validators.consensusWeightFor r address in
      if weight =? 0 then pick r ticket cursor addresses
      else
        throw_if (u64_max - cursor <? weight) (overflow_error "Proposer schedule weight overflow.");;
        if ticket <? cursor + weight then Ok (Some address) else pick r ticket (cursor + weight) addresses
  end.

(** What is drawn for a ticket. *)
Definition draw (r : ValidatorRegistry) (ticket : Z) : result string :=
  let addresses := Validators.eligibleValidatorAddresses r in
  found ← pick r ticket 0 addresses;
  Ok (match found with Some address => address | None => default "" (last addresses) end).

Definition selectProposer (r : ValidatorRegistry) (chainId : string) (height round : Z) : result string :=
  if bool_decide (Validators.eligibleValidatorAddresses r = []) then Ok ""
  else
    total ← Validators.totalConsensusWeight r;
    if total =? 0 then Ok ""
    else
      let hashHex := Hash.hashCString (buildSelectionKey chainId height round) in
      draw r (hexPrefixToUint64 hashHex mod total).
End lottery.
End Lottery.

(** ** The epoch calendar *)

Module Cadence.
Record t := mk { epochLengthBlocks : Z; targetBlockSeconds : Z }.

Definition kMaxTargetBlockSeconds : Z := 300.
Definition kMinNominalEpochSeconds : Z := 24 * 60 * 60.
Definition kMaxNominalEpochSeconds : Z := 7 * 24 * 60 * 60.

Definition create (length seconds : Z) : option t :=
  if (length =? 0) || (seconds =? 0) || (kMaxTargetBlockSeconds <? seconds) ||
     (kMaxNominalEpochSeconds / seconds <? length) || (wrap64 (length * seconds) <? kMinNominalEpochSeconds) then None
  else Some (mk length seconds).

Definition nominalEpochSeconds (c : t) : Z := wrap64 (epochLengthBlocks c * targetBlockSeconds c).

Definition epochForHeight (c : t) (height : Z) : option Z :=
  if height =? 0 then None else Some ((height - 1) / epochLengthBlocks c).
Definition isFinalBlockOfEpoch (c : t) (height : Z) : bool :=
  negb (height =? 0) && (height mod epochLengthBlocks c =? 0).
Definition firstHeight (c : t) (epoch : Z) : option Z :=
  if (u64_max - 1) / epochLengthBlocks c <? epoch then None else Some (wrap64 (wrap64 (epoch * epochLengthBlocks c) + 1)).
Definition lastHeight (c : t) (epoch : Z) : option Z :=
  if (epoch =? u64_max) || (u64_max / epochLengthBlocks c <? epoch + 1) then None
  else Some (wrap64 ((epoch + 1) * epochLengthBlocks c)).
Definition earliestHeaderTime (c : t) (genesisTime height : Z) : option Z :=
  if genesisTime <=? 0 then None
  else if (i64_max - genesisTime) / targetBlockSeconds c <? height then None
  else Some (genesisTime + as_i64 (wrap64 (height * targetBlockSeconds c))).
End Cadence.

(** ** Lemmas on lists of priorities *)

Module WeightedFacts.
Import Weighted.

Definition within (B : Z) (l : list Z) : Prop := Forall (λ x, - B ≤ x ≤ B) l.
Definition spread (l : list Z) (T : Z) : Prop := ∀ x y, x ∈ l → y ∈ l → x - y ≤ T.
Definition total (l : list Z) : Z := sum_by (λ x, x) l.

Lemma add_ok a b : - 2 ^ 126 ≤ a < 2 ^ 126 → - 2 ^ 126 ≤ b < 2 ^ 126 → add a b = Some (a + b).
Proof. intros. unfold add. replace (i128 (a + b)) with true; [done|]. unfold i128. assert (2 ^ 127 = 2 * 2 ^ 126) by done. lia. Qed.

Lemma subtract_ok a b : - 2 ^ 126 ≤ a < 2 ^ 126 → - 2 ^ 126 ≤ b < 2 ^ 126 → subtract a b = Some (a - b).
Proof. intros. unfold subtract. replace (i128 (a - b)) with true; [done|]. unfold i128. assert (2 ^ 127 = 2 * 2 ^ 126) by done. lia. Qed.

Lemma mapM_pure {A B} (f : A → option B) (g : A → B) l : (∀ x, x ∈ l → f x = Some (g x)) → mapM f l = Some (g <$> l).
Proof.
  induction l as [|x l IH]; intros Hf; [done|]. simpl. rewrite Hf by (by left). simpl.
  rewrite IH; [done|]. intros y Hy. apply Hf. by right.
Qed.

Lemma total_bound B l : 0 ≤ B → within B l → - (B * Z.of_nat (length l)) ≤ total l ≤ B * Z.of_nat (length l).
Proof. intros HB Hl. unfold total. induction Hl as [|x l Hx _ IH]; simpl; nia. Qed.

Lemma total_map f (l : list Z) : total (f <$> l) = sum_by f l.
Proof. unfold total. apply sum_by_fmap. Qed.

Lemma total_shift l a : total ((λ p, p - a) <$> l) = total l - a * Z.of_nat (length l).
Proof. rewrite total_map. unfold total. induction l as [|x l IH]; simpl; lia. Qed.

Lemma sumLoop_ok B l acc : 0 ≤ B ≤ 2 ^ 126 → within B l → - 2 ^ 126 ≤ acc - B * Z.of_nat (length l) →
  acc + B * Z.of_nat (length l) < 2 ^ 126 → sumLoop acc l = Some (acc + total l).
Proof.
  intros HB Hl. revert acc. induction Hl as [|x l Hx _ IH]; intros acc H1 H2; simpl; [f_equal; unfold total; simpl; lia|].
  simpl in H1, H2. rewrite add_ok by nia. simpl. rewrite IH by nia. f_equal. unfold total. simpl. lia.
Qed.

Lemma minimum_spec l : l ≠ [] → minimum l ∈ l ∧ ∀ x, x ∈ l → minimum l ≤ x.
Proof.
  destruct l as [|a l]; [done|]. intros _. simpl. induction l as [|b l [IH1 IH2]]; simpl.
  - split; [by left|]. intros x. rewrite list_elem_of_singleton. lia.
  - split.
    + destruct (Z.min_spec b (foldr Z.min a l)) as [[_ ->]|[_ ->]]; rewrite !elem_of_cons in *; tauto.
    + intros x. rewrite !elem_of_cons. intros [->|[->|Hx]]; [|lia|].
      * assert (foldr Z.min a l ≤ a) by (apply IH2; by left). lia.
      * assert (foldr Z.min a l ≤ x) by (apply IH2; by right). lia.
Qed.

Lemma maximum_spec l : l ≠ [] → maximum l ∈ l ∧ ∀ x, x ∈ l → x ≤ maximum l.
Proof.
  destruct l as [|a l]; [done|]. intros _. simpl. induction l as [|b l [IH1 IH2]]; simpl.
  - split; [by left|]. intros x. rewrite list_elem_of_singleton. lia.
  - split.
    + destruct (Z.max_spec b (foldr Z.max a l)) as [[_ ->]|[_ ->]]; rewrite !elem_of_cons in *; tauto.
    + intros x. rewrite !elem_of_cons. intros [->|[->|Hx]]; [|lia|].
      * assert (a ≤ foldr Z.max a l) by (apply IH2; by left). lia.
      * assert (x ≤ foldr Z.max a l) by (apply IH2; by right). lia.
Qed.

Lemma within_elem B l x : within B l → x ∈ l → - B ≤ x ≤ B.
Proof. unfold within. rewrite Forall_forall. auto. Qed.

(** The range the code computes bounds the spread, and is bounded by it. *)
Lemma range_ok l B : l ≠ [] → within B l → B ≤ 2 ^ 125 → 0 ≤ B →
  ∃ r, subtract (maximum l) (minimum l) = Some r ∧ spread l r ∧ 0 ≤ r ≤ 2 * B ∧ ∀ T, spread l T → r ≤ T.
Proof.
  intros Hne Hw HB HB0. destruct (minimum_spec l Hne) as [Hmin Hlo]. destruct (maximum_spec l Hne) as [Hmax Hhi].
  pose proof (within_elem _ _ _ Hw Hmin). pose proof (within_elem _ _ _ Hw Hmax).
  exists (maximum l - minimum l). split_and!.
  - apply subtract_ok; lia.
  - intros x y Hx Hy. specialize (Hlo _ Hy). specialize (Hhi _ Hx). lia.
  - specialize (Hlo _ Hmax). lia.
  - lia.
  - intros T HT. by apply HT.
Qed.

(** Truncating division does not widen a spread beyond the quotient. *)
Lemma quot_spread a b d T : 0 < d → 0 ≤ T → a - b ≤ T * d → Z.quot a d - Z.quot b d ≤ T.
Proof.
  intros Hd HT Hab. pose proof (Z.quot_rem' a d) as Ea. pose proof (Z.quot_rem' b d) as Eb.
  destruct (Z.le_gt_cases (Z.quot a d - Z.quot b d) T) as [|Hgt]; [done|].
  assert (d * (T + 1) ≤ d * (Z.quot a d - Z.quot b d)) as Hm by (apply Z.mul_le_mono_nonneg_l; lia).
  assert (- d < Z.rem a d - Z.rem b d ∨ a < 0 < b) as [Hr|Hsign]; [|lia|].
  - destruct (Z.le_gt_cases 0 a) as [Ha|Ha], (Z.le_gt_cases b 0) as [Hb|Hb]; [| |left|by right].
    all: pose proof (Z.rem_bound_abs a d ltac:(lia)); pose proof (Z.rem_bound_abs b d ltac:(lia)).
    + pose proof (Z.rem_nonneg a d ltac:(lia) Ha). pose proof (Z.rem_nonpos b d ltac:(lia) Hb). lia.
    + pose proof (Z.rem_nonneg a d ltac:(lia) Ha). pose proof (Z.rem_nonneg b d ltac:(lia) ltac:(lia)). lia.
    + pose proof (Z.rem_nonpos b d ltac:(lia) Hb). lia.
  - assert (0 ≤ Z.quot b d) by (apply Z.quot_pos; lia).
    assert (0 ≤ Z.quot (- a) d) by (apply Z.quot_pos; lia). rewrite Z.quot_opp_l in * by lia. lia.
Qed.

Lemma quot_bound x d B : 0 < d → - B ≤ x ≤ B → 0 ≤ B → - B ≤ Z.quot x d ≤ B.
Proof.
  intros Hd Hx HB. destruct (Z.le_gt_cases 0 x).
  - assert (0 ≤ Z.quot x d) by (apply Z.quot_pos; lia). assert (Z.quot x d ≤ x) by (rewrite Z.quot_div_nonneg by lia; apply Z.div_le_upper_bound; nia). lia.
  - pose proof (Z.quot_opp_l x d ltac:(lia)) as E. assert (0 ≤ Z.quot (- x) d) by (apply Z.quot_pos; lia).
    assert (Z.quot (- x) d ≤ - x) by (rewrite Z.quot_div_nonneg by lia; apply Z.div_le_upper_bound; nia). lia.
Qed.

(** A bound on every priority, far from the 128-bit range. *)
Definition B80 : Z := 2 ^ 80.

Definition scaled (ps : list Z) (total range : Z) : list Z :=
  if total * 2 <? range then
    let divisor := Z.quot range (total * 2) + (if Z.rem range (total * 2) =? 0 then 0 else 1) in
    (λ p, Z.quot p divisor) <$> ps
  else ps.

Lemma scaled_ok ps W range : 1 ≤ W → 0 ≤ range → spread ps range → within B80 ps →
  spread (scaled ps W range) (2 * W) ∧ within B80 (scaled ps W range) ∧ length (scaled ps W range) = length ps.
Proof.
  intros HW Hr Hs Hb. unfold scaled. destruct (Z.ltb_spec (W * 2) range) as [Hlt|Hge].
  2: { split_and!; [|done|done]. intros x y Hx Hy. specialize (Hs x y Hx Hy). lia. }
  set (d := Z.quot range (W * 2) + _). assert (range ≤ 2 * W * d ∧ 0 < d) as [Hd Hd0].
  { unfold d. pose proof (Z.quot_rem' range (W * 2)). pose proof (Z.rem_bound_pos range (W * 2) Hr ltac:(lia)).
    assert (0 < Z.quot range (W * 2)) by (apply Z.quot_str_pos; lia). destruct (Z.eqb_spec (Z.rem range (W * 2)) 0); lia. }
  split_and!; [| |by rewrite length_fmap].
  - intros x y (p & -> & Hp)%list_elem_of_fmap (q & -> & Hq)%list_elem_of_fmap. specialize (Hs p q Hp Hq).
    apply quot_spread; lia.
  - unfold within in *. apply Forall_fmap. eapply Forall_impl; [exact Hb|]. intros x Hx. simpl.
    apply quot_bound; [done|done|by vm_compute].
Qed.

(** Moving the first few elements by one. *)
Lemma nudge_ok (l : list Z) (k : nat) (dir : Z) T : dir = 1 ∨ dir = -1 → spread l T → (k ≤ length l)%nat →
  let l' := ((λ p, p + dir) <$> take k l) ++ drop k l in
  length l' = length l ∧ total l' = total l + dir * Z.of_nat k ∧ spread l' (T + 1).
Proof.
  intros Hdir Hs Hk l'. split_and!.
  - unfold l'. rewrite length_app, length_fmap, length_take, length_drop. lia.
  - unfold l', total. rewrite sum_by_app, sum_by_fmap. rewrite <- (take_drop k l) at 3. rewrite sum_by_app.
    assert (sum_by ((λ x, x) ∘ (λ p, p + dir)) (take k l) = sum_by (λ x, x) (take k l) + dir * Z.of_nat (length (take k l))) as ->.
    { generalize (take k l). intros u. induction u as [|x u IH]; [simpl; lia|]. cbn [sum_by length]. rewrite IH. simpl. lia. }
    rewrite length_take. replace (k `min` length l)%nat with k by lia. lia.
  - assert (∀ x, x ∈ l' → ∃ x0, x0 ∈ l ∧ (x = x0 ∨ x = x0 + dir)) as Hfrom.
    { intros x [(p & -> & Hp)%list_elem_of_fmap|Hx]%elem_of_app.
      - exists p. split; [rewrite <- (take_drop k l); apply elem_of_app; by left|by right].
      - exists x. split; [rewrite <- (take_drop k l); apply elem_of_app; by right|by left]. }
    intros x y (x0 & Hx0 & Hx)%Hfrom (y0 & Hy0 & Hy)%Hfrom. specialize (Hs x0 y0 Hx0 Hy0). lia.
Qed.

Lemma quot_average t n B : 0 < n → 0 ≤ B → - (B * n) ≤ t ≤ B * n → - B ≤ Z.quot t n ≤ B.
Proof.
  intros Hn HB Ht. split.
  - replace (- B) with (Z.quot (- (B * n)) n) by (rewrite Z.quot_opp_l, Z.quot_mul by lia; done). apply Z.quot_le_mono; lia.
  - replace B with (Z.quot (B * n) n) by (by rewrite Z.quot_mul by lia). apply Z.quot_le_mono; lia.
Qed.

Lemma bounds_80 : 2 ^ 126 = B80 * 70368744177664 ∧ 0 < B80.
Proof. by vm_compute. Qed.

(** Taking the average off. *)
Lemma centre_ok l T : l ≠ [] → Z.of_nat (length l) ≤ kMaxValidators → within B80 l → spread l T →
  let avg := Z.quot (total l) (Z.of_nat (length l)) in
  let l2 := (λ p, p - avg) <$> l in
  sumLoop 0 l = Some (total l) ∧ mapM (λ p, subtract p avg) l = Some l2 ∧ within (2 * B80) l2 ∧ spread l2 T ∧
  length l2 = length l ∧ - Z.of_nat (length l) < total l2 < Z.of_nat (length l).
Proof.
  intros Hne Hn Hb Hs avg l2. destruct bounds_80 as [E126 HB0]. unfold kMaxValidators in Hn.
  assert (0 < Z.of_nat (length l)) as Hpos by (destruct l; [done|simpl; lia]).
  pose proof (total_bound B80 l ltac:(lia) Hb) as Ht.
  assert (- B80 ≤ avg ≤ B80) as Havg by (apply quot_average; lia). split_and!.
  - rewrite (sumLoop_ok B80) by (done || nia). done.
  - apply mapM_pure. intros x Hx. pose proof (within_elem _ _ _ Hb Hx). apply subtract_ok; lia.
  - unfold l2, within in *. apply Forall_fmap. eapply Forall_impl; [exact Hb|]. intros x Hx. unfold compose. cbv beta in Hx. lia.
  - intros x y (p & -> & Hp)%list_elem_of_fmap (q & -> & Hq)%list_elem_of_fmap. specialize (Hs p q Hp Hq). lia.
  - unfold l2. by rewrite length_fmap.
  - unfold l2. rewrite total_shift. unfold avg. pose proof (Z.quot_rem' (total l) (Z.of_nat (length l))).
    pose proof (Z.rem_bound_abs (total l) (Z.of_nat (length l)) ltac:(lia)). lia.
  - unfold l2. rewrite total_shift. unfold avg. pose proof (Z.quot_rem' (total l) (Z.of_nat (length l))).
    pose proof (Z.rem_bound_abs (total l) (Z.of_nat (length l)) ltac:(lia)). lia.
Qed.

(** Distributing what is left of the sum, and the final checks. *)
Lemma finish_ok l W : l ≠ [] → Z.of_nat (length l) ≤ kMaxValidators → within (2 * B80) l → spread l (2 * W) → 1 ≤ W →
  - Z.of_nat (length l) < total l < Z.of_nat (length l) →
  ∃ l', (sum ← sumLoop 0 l;
         let direction := if 0 <? sum then -1 else 1 in
         let remainder := wrap64 (if 0 <? sum then sum else - sum) in
         if Z.of_nat (length l) <=? remainder then None
         else
           firsts ← mapM (λ p, add p direction) (take (Z.to_nat remainder) l);
           let ps := firsts ++ drop (Z.to_nat remainder) l in
           sum ← sumLoop 0 ps;
           if sum =? 0 then
             range ← subtract (maximum ps) (minimum ps);
             if range <=? W * 2 + 1 then Some ps else None
           else None) = Some l' ∧ length l' = length l ∧ total l' = 0 ∧ spread l' (2 * W + 1).
Proof.
  intros Hne Hn Hb Hs HW Ht. destruct bounds_80 as [E126 HB0]. unfold kMaxValidators in Hn.
  rewrite (sumLoop_ok (2 * B80)) by (done || nia). cbn [mbind option_bind]. rewrite Z.add_0_l.
  set (dir := if 0 <? total l then -1 else 1). set (rest := if 0 <? total l then total l else - total l).
  assert ((dir = 1 ∨ dir = -1) ∧ 0 ≤ rest < Z.of_nat (length l) ∧ total l + dir * rest = 0) as (Hdir & Hrest & Hsum).
  { unfold dir, rest. destruct (Z.ltb_spec 0 (total l)); lia. }
  assert (wrap64 rest = rest) as -> by (unfold wrap64; apply Z.mod_small; lia).
  destruct (Z.leb_spec (Z.of_nat (length l)) rest); [lia|].
  destruct (nudge_ok l (Z.to_nat rest) dir (2 * W) Hdir Hs ltac:(lia)) as (Hl' & Ht' & Hs').
  set (l' := ((λ p, p + dir) <$> take (Z.to_nat rest) l) ++ drop (Z.to_nat rest) l) in *.
  rewrite (mapM_pure _ (λ p, p + dir)).
  2: { intros x Hx. assert (x ∈ l) as Hin by (rewrite <- (take_drop (Z.to_nat rest) l); apply elem_of_app; by left).
       pose proof (within_elem _ _ _ Hb Hin). apply add_ok; lia. }
  cbn [mbind option_bind]. fold l'. assert (within (3 * B80) l') as Hb'.
  { unfold l', within in *. rewrite <- (take_drop (Z.to_nat rest) l) in Hb. apply Forall_app in Hb as [Hb1 Hb2].
    apply Forall_app_2; [apply Forall_fmap|]; (eapply Forall_impl; [eassumption|]); intros x Hx; unfold compose; cbv beta in Hx; lia. }
  rewrite (sumLoop_ok (3 * B80)) by (done || (rewrite ?Hl'; nia)). cbn [mbind option_bind].
  assert (0 + total l' = 0) as -> by lia. rewrite Z.eqb_refl. assert (l' ≠ []) as Hne' by (intros E; rewrite E in Hl'; by destruct l).
  destruct (range_ok l' (3 * B80) Hne' Hb') as (range & Er & _ & _ & Hmin); [nia|lia|]. rewrite Er. cbn [mbind option_bind].
  specialize (Hmin _ Hs'). destruct (Z.leb_spec range (W * 2 + 1)); [|lia]. exists l'. split_and!; (done || lia).
Qed.

(** [normalize] never fails on priorities far from the 128-bit range, and leaves
    them centred and within the threshold. *)
Lemma normalize_ok ps W : ps ≠ [] → Z.of_nat (length ps) ≤ kMaxValidators → within B80 ps → 1 ≤ W →
  ∃ ps', normalize ps W = Some ps' ∧ length ps' = length ps ∧ total ps' = 0 ∧ spread ps' (2 * W + 1).
Proof.
  intros Hne Hn Hb HW. destruct (range_ok ps B80 Hne Hb) as (range & Er & Hs & Hr & _); [by vm_compute|by vm_compute|].
  unfold normalize. rewrite Er. cbn [mbind option_bind]. fold (scaled ps W range).
  destruct (scaled_ok ps W range HW ltac:(lia) Hs Hb) as (Hs1 & Hb1 & Hl1).
  assert (scaled ps W range ≠ []) as Hne1 by (intros E; rewrite E in Hl1; by destruct ps).
  destruct (centre_ok (scaled ps W range) (2 * W) Hne1) as (E1 & E2 & Hb2 & Hs2 & Hl2 & Ht2); [by rewrite Hl1|done|done|].
  rewrite E1. cbn [mbind option_bind]. rewrite E2. cbn [mbind option_bind].
  destruct (finish_ok ((λ p, p - Z.quot (total (scaled ps W range)) (Z.of_nat (length (scaled ps W range)))) <$> scaled ps W range) W)
    as (l' & E & Hl & Ht & Hsp); [|by rewrite Hl2, Hl1|done|done|done|by rewrite Hl2|].
  { intros E. rewrite E in Hl2. simpl in Hl2. by destruct (scaled ps W range). }
  exists l'. split_and!; [exact E|by rewrite Hl, Hl2|done|done].
Qed.

(** ** Validator sets *)

Definition weights (l : list Validator) : Z := sum_by weight l.
Definition set_typed (l : list Validator) : Prop := Forall (λ v, 0 ≤ weight v) l.

Lemma validLoop_ok l prev t t' : set_typed l → 0 ≤ t ≤ u64_max → validLoop prev t l = Some t' →
  t' = t + weights l ∧ Forall (λ v, 1 ≤ weight v) l ∧ t' ≤ u64_max ∧
  Sorted (λ a b, lex_lt (id a) (id b) = true) (match prev with None => l | Some p => p :: l end).
Proof.
  intros Hty. revert prev t. induction Hty as [|v l Hv _ IH]; intros prev t Ht; simpl.
  - intros [= <-]. unfold weights. simpl. split_and!; [lia|done|lia|]. destruct prev; repeat constructor.
  - destruct (_ || _ || _) eqn:E; [done|]. rewrite !orb_false_iff in E. destruct E as [[E1 E2] E3]. intros E.
    destruct (IH (Some v) (t + weight v) ltac:(lia) E) as (-> & Hw & Hm & Hs). unfold weights in *. simpl.
    split_and!; [lia|constructor; [lia|done]|done|]. destruct prev as [p|]; [|done].
    constructor; [done|]. constructor. by apply negb_false_iff in E2.
Qed.

Lemma lex_lt_trans x y z : lex_lt x y = true → lex_lt y z = true → lex_lt x z = true.
Proof.
  revert y z. induction x as [|a x IH]; intros [|b y] [|c z]; simpl; try done.
  destruct (Z.ltb_spec a b), (Z.ltb_spec b a), (Z.ltb_spec b c), (Z.ltb_spec c b), (Z.ltb_spec a c), (Z.ltb_spec c a);
    try done; try lia. apply IH.
Qed.

Lemma lex_lt_irrefl x : lex_lt x x = false.
Proof. induction x as [|a x IH]; simpl; [done|]. by rewrite Z.ltb_irrefl. Qed.

Lemma lex_lt_total x y : lex_lt x y = false → lex_lt y x = false → x = y.
Proof.
  revert y. induction x as [|a x IH]; intros [|b y]; simpl; try done.
  destruct (Z.ltb_spec a b), (Z.ltb_spec b a); try done; try lia. intros Hxy Hyx. f_equal; [lia|by apply IH].
Qed.

Lemma validSet_ok l W : set_typed l → validSet l = Some W →
  l ≠ [] ∧ Z.of_nat (length l) ≤ kMaxValidators ∧ W = weights l ∧ 1 ≤ W ≤ u64_max ∧
  Forall (λ v, 1 ≤ weight v) l ∧ StronglySorted (λ a b, lex_lt (id a) (id b) = true) l.
Proof.
  intros Hty. unfold validSet. destruct (_ || _) eqn:E; [done|]. rewrite orb_false_iff in E. destruct E as [E1%bool_decide_eq_false E2].
  intros (w & Hw & E)%bind_Some. destruct (Z.eqb_spec w 0); [done|]. injection E as ->.
  destruct (validLoop_ok l None 0 W Hty) as (HW & Hp & Hm & Hs); [unfold u64_max; lia|done|].
  assert (0 ≤ weights l) by (apply sum_by_nonneg; intros v Hv; unfold set_typed in Hty; rewrite Forall_forall in Hty; auto).
  split_and!; try done; try lia. apply Sorted_StronglySorted; [|done]. intros a b c. apply lex_lt_trans.
Qed.

Lemma sorted_ids l : StronglySorted (λ a b, lex_lt (id a) (id b) = true) l → NoDup (id <$> l).
Proof.
  induction 1 as [|v l Hl IH Hv]; [constructor|]. rewrite fmap_cons. constructor; [|done].
  intros (w & E & Hw)%list_elem_of_fmap. rewrite Forall_forall in Hv. specialize (Hv w Hw). rewrite E, lex_lt_irrefl in Hv. done.
Qed.

(** ** The invariant of the schedule *)

Record sound (s : t) : Prop := {
  snd_epoch : 1 ≤ epochLengthBlocks s;
  snd_height : 1 ≤ nextHeight s ≤ u64_max;
  snd_typed : set_typed (validators s);
  snd_set : validSet (validators s) = Some (totalWeight s);
  snd_length : length (priorities s) = length (validators s);
  snd_centred : total (priorities s) = 0;
  snd_spread : spread (priorities s) (2 * totalWeight s + 1);
}.

Lemma total_positive l : l ≠ [] → (∀ y, y ∈ l → 0 < y) → 0 < total l.
Proof.
  destruct l as [|x l]; [done|]. intros _ Hp. unfold total. simpl. assert (0 < x) by (apply Hp; by left).
  enough (0 ≤ sum_by (λ y, y) l) by lia. apply sum_by_nonneg. intros y Hy. assert (0 < y) by (apply Hp; by right). lia.
Qed.

Lemma total_opp l : total (Z.opp <$> l) = - total l.
Proof. unfold total. induction l as [|x l IH]; [done|]. rewrite fmap_cons. cbn [sum_by]. rewrite IH. lia. Qed.

(** Priorities that sum to zero are no larger than their spread. *)
Lemma centred_within l T : total l = 0 → spread l T → within T l.
Proof.
  intros H0 Hs. apply Forall_forall. intros x Hx. assert (l ≠ []) as Hne by (intros ->; by apply elem_of_nil in Hx). split.
  - destruct (Z.le_gt_cases (- T) x) as [|Hlt]; [done|]. assert (0 < total (Z.opp <$> l)); [|rewrite total_opp in *; lia].
    apply total_positive; [by destruct l|]. intros y (z & -> & Hz)%list_elem_of_fmap. specialize (Hs z x Hz Hx). lia.
  - destruct (Z.le_gt_cases x T) as [|Hgt]; [done|]. assert (0 < total l); [|lia].
    apply total_positive; [done|]. intros y Hy. specialize (Hs x y Hx Hy). lia.
Qed.

Definition raised (s : t) : list Z := (λ pv, pv.1 + weight pv.2) <$> zip (priorities s) (validators s).

Lemma within_weaken B B' l : B ≤ B' → within B l → within B' l.
Proof. intros HB Hl. unfold within in *. eapply Forall_impl; [exact Hl|]. intros x Hx. cbv beta in *. lia. Qed.

Lemma weight_le_total v l : set_typed l → v ∈ l → 0 ≤ weight v ≤ weights l.
Proof.
  unfold set_typed. rewrite Forall_forall. intros Hty Hv. split; [by apply Hty|].
  apply (sum_by_elem_le weight l v); [|done]. intros. by apply Hty.
Qed.

Lemma scores_ok s : sound s → ranking s = Some (mkRanking (raised s) (orderOf (raised s) (validators s))) ∧
  within (2 ^ 70) (raised s) ∧ length (raised s) = length (validators s).
Proof.
  intros [_ _ Hty Hset Hlen H0 Hs]. destruct (validSet_ok _ _ Hty Hset) as (_ & _ & HW & HWb & _).
  assert (∀ pv, pv ∈ zip (priorities s) (validators s) →
    - (2 * totalWeight s + 1) ≤ pv.1 ≤ 2 * totalWeight s + 1 ∧ 0 ≤ weight pv.2 ≤ totalWeight s) as Hpv.
  { intros [p v] Hin. split.
    - apply (within_elem _ (priorities s)); [by apply centred_within|]. by apply elem_of_zip_l in Hin.
    - rewrite HW. apply weight_le_total; [done|]. by apply elem_of_zip_r in Hin. }
  unfold u64_max in HWb. split_and!.
  - unfold ranking, scoresOf. rewrite (mapM_pure _ (λ pv, pv.1 + weight pv.2)); [done|].
    intros pv Hin. specialize (Hpv pv Hin). apply add_ok; lia.
  - unfold raised, within. apply Forall_fmap, Forall_forall. intros pv Hin. specialize (Hpv pv Hin). unfold compose. lia.
  - unfold raised. rewrite length_fmap, length_zip_with. lia.
Qed.

Lemma orderOf_perm sc vs : orderOf sc vs ≡ₚ seq 0 (length vs).
Proof. apply merge_sort_Permutation. Qed.

Lemma order_length sc vs : length (orderOf sc vs) = length vs.
Proof. by rewrite orderOf_perm, length_seq. Qed.

Lemma idAt_ok s r round : sound s → ranking s = Some r → ∃ i v, order r !! Z.to_nat (round mod Z.of_nat (length (validators s))) = Some i ∧
  validators s !! i = Some v ∧ idAt s r round = Some (id v).
Proof.
  intros Hs Hr. destruct (scores_ok s Hs) as (Er & _ & Hl). rewrite Er in Hr. injection Hr as <-. unfold idAt. simpl.
  destruct (validSet_ok _ _ (snd_typed s Hs) (snd_set s Hs)) as (Hne & _). rewrite order_length.
  assert (0 < Z.of_nat (length (validators s))) by (destruct (validators s); [done|simpl; lia]).
  pose proof (Z.mod_pos_bound round (Z.of_nat (length (validators s))) ltac:(lia)).
  destruct (lookup_lt_is_Some_2 (orderOf (raised s) (validators s)) (Z.to_nat (round mod Z.of_nat (length (validators s))))) as [i Hi];
    [rewrite order_length; lia|].
  assert (i ∈ seq 0 (length (validators s))) as Hin by (rewrite <- (orderOf_perm (raised s)); by apply list_elem_of_lookup_2 in Hi).
  rewrite elem_of_seq in Hin. destruct (lookup_lt_is_Some_2 (validators s) i) as [v Hv]; [lia|].
  exists i, v. rewrite Hi. simpl. by rewrite Hv.
Qed.

(** ** What a finalized height does *)

(** A set the schedule may move to. *)
Definition next_ok (s : t) (next : option (NextSet * Z)) : Prop :=
  match next with
  | None => True
  | Some (n, w) => set_typed (nextSetValidators n) ∧ validSet (nextSetValidators n) = Some w
  end.
Definition nextValidators (s : t) (next : option (NextSet * Z)) : list Validator :=
  match next with None => validators s | Some (n, _) => nextSetValidators n end.
Definition nextWeight (s : t) (next : option (NextSet * Z)) : Z :=
  match next with None => totalWeight s | Some (_, w) => w end.

Lemma insert_within B l i x : within B l → - B ≤ x ≤ B → within B (<[i := x]> l).
Proof. unfold within. intros. by apply Forall_insert. Qed.

Lemma carried_in vs ps v p : carried vs ps v = Some p → p ∈ ps.
Proof.
  unfold carried. intros ([i e] & _ & E)%bind_Some. case_bool_decide; [|done]. by apply list_elem_of_lookup_2 in E.
Qed.

Lemma lowestOf_in cs p : lowestOf cs = Some p → Some p ∈ cs.
Proof.
  unfold lowestOf. assert (∀ acc, foldl (λ lowest c, match c, lowest with
    | None, _ => lowest | Some p, None => Some p | Some p, Some l => if p <? l then Some p else Some l end) acc cs = Some p →
    Some p ∈ cs ∨ acc = Some p) as Hgen.
  { induction cs as [|c cs IH]; intros acc; simpl; [by right|]. intros [Hin|E]%IH; [left; by right|].
    destruct c as [q|]; [|by right]. destruct acc as [l|]; [|left; injection E as ->; by left].
    destruct (q <? l); [left; injection E as ->; by left|by right]. }
  intros [?|?]%Hgen; done.
Qed.

Lemma rebase_ok vs ps new w : within (2 ^ 72) ps → set_typed new → validSet new = Some w →
  ∃ ps', rebase vs ps new w = Some ps' ∧ length ps' = length new ∧ total ps' = 0 ∧ spread ps' (2 * w + 1).
Proof.
  intros Hb Hty Hv. destruct (validSet_ok _ _ Hty Hv) as (Hne & Hn & _ & Hw & _). unfold rebase.
  set (cs := carried vs ps <$> new). set (low := lowestOf cs).
  assert (∀ p, Some p ∈ cs → - 2 ^ 72 ≤ p ≤ 2 ^ 72) as Hcs.
  { intros p (v & E & _)%list_elem_of_fmap. symmetry in E. apply carried_in in E. exact (within_elem _ _ _ Hb E). }
  set (g := λ c : option Z, match c, low with Some p, _ => p | None, Some l => l - w | None, None => 0 end).
  unfold u64_max in Hw. rewrite (mapM_pure _ g).
  2: { intros [p|] Hc; unfold g; [done|]. destruct low as [l|] eqn:El; [|done].
       apply lowestOf_in, Hcs in El. rewrite subtract_ok by lia. done. }
  cbn [mbind option_bind]. destruct (normalize_ok (g <$> cs) w) as (ps' & E & Hl & Ht & Hs).
  - unfold cs. by destruct new.
  - unfold cs. by rewrite !length_fmap.
  - apply Forall_fmap, Forall_forall. intros c Hc. unfold compose, g. assert (2 ^ 72 * 256 = B80) by by vm_compute.
    destruct c as [p|]; [specialize (Hcs p Hc); lia|]. destruct low as [l|] eqn:El; [apply lowestOf_in, Hcs in El|]; lia.
  - lia.
  - exists ps'. split_and!; try done. by rewrite Hl; unfold cs; rewrite !length_fmap.
Qed.

Lemma nextPriorities_ok s r next : sound s → ranking s = Some r → next_ok s next →
  ∃ ps, nextPriorities s r next = Some ps ∧ length ps = length (nextValidators s next) ∧ total ps = 0 ∧
    spread ps (2 * nextWeight s next + 1).
Proof.
  intros Hs Hr Hn. destruct (scores_ok s Hs) as (Er & Hw & Hl). rewrite Er in Hr. injection Hr as <-.
  destruct (validSet_ok _ _ (snd_typed s Hs) (snd_set s Hs)) as (Hne & Hk & _ & HW & _).
  unfold nextPriorities. cbn [scores order].
  destruct (orderOf (raised s) (validators s)) as [|i o] eqn:Eo.
  { pose proof (order_length (raised s) (validators s)) as E. rewrite Eo in E. by destruct (validators s). }
  assert (i ∈ seq 0 (length (validators s))) as Hin by (rewrite <- (orderOf_perm (raised s)), Eo; by left).
  rewrite elem_of_seq in Hin. destruct (lookup_lt_is_Some_2 (raised s) i) as [sc Hsc]; [lia|]. cbn [head mbind option_bind].
  rewrite Hsc. cbn [mbind option_bind]. pose proof (within_elem _ _ _ Hw (list_elem_of_lookup_2 _ _ _ Hsc)) as Hscb.
  unfold u64_max in HW. rewrite subtract_ok by lia. cbn [mbind option_bind].
  assert (within (2 ^ 72) (<[i := sc - totalWeight s]> (raised s))) as Hb.
  { apply insert_within; [by apply (within_weaken (2 ^ 70)); [by vm_compute|]|lia]. }
  assert (∀ w, 1 ≤ w → ∃ ps, normalize (<[i := sc - totalWeight s]> (raised s)) w = Some ps ∧
    length ps = length (validators s) ∧ total ps = 0 ∧ spread ps (2 * w + 1)) as Hnorm.
  { intros w Hw1. destruct (normalize_ok (<[i := sc - totalWeight s]> (raised s)) w) as (ps & E & Hlp & Ht & Hsp).
    - intros E. apply (f_equal length) in E. rewrite length_insert, Hl in E. simpl in E. by destruct (validators s).
    - by rewrite length_insert, Hl.
    - by apply (within_weaken (2 ^ 72)); [by vm_compute|].
    - done.
    - exists ps. rewrite length_insert, Hl in Hlp. done. }
  destruct next as [[n w]|]; simpl; [|apply Hnorm; lia]. destruct Hn as [Hty Hv].
  destruct (validSet_ok _ _ Hty Hv) as (_ & _ & _ & Hwb & _). case_bool_decide as E; simpl.
  - rewrite E. apply Hnorm. lia.
  - by apply rebase_ok.
Qed.

(** The conditions under which a height is finalized. *)
Definition allowed (height round : Z) (signer : list Z) (next : option NextSet) (s : t) : Prop :=
  height = nextHeight s ∧ height ≠ u64_max ∧ proposer height round s = Some signer ∧
  match next with
  | None => True
  | Some n => height mod epochLengthBlocks s = 0 ∧ is_Some (validSet (nextSetValidators n))
  end.
Definition next_typed (next : option NextSet) : Prop :=
  match next with None => True | Some n => set_typed (nextSetValidators n) end.

Lemma finalize_allowed height round signer next s : sound s → next_typed next → allowed height round signer next s →
  ∃ s', finalize height round signer next s = (true, s') ∧ sound s' ∧ nextHeight s' = height + 1.
Proof.
  intros Hs Hty (-> & Hmax & Hp & Hn). destruct (scores_ok s Hs) as (Er & _). unfold proposer in Hp.
  rewrite Z.eqb_refl, Er in Hp. cbn [negb mbind option_bind] in Hp. unfold finalize.
  rewrite Z.eqb_refl, (proj2 (Z.eqb_neq _ _) Hmax). cbn [negb orb]. pose proof (snd_height s Hs) as Hh.
  assert (∃ next', next_ok s next' ∧ match next with
     | None => Some None
     | Some n => (λ w, Some (n, w)) <$> validSet (nextSetValidators n) end = Some next' ∧
     match next with None => false | Some _ => negb (nextHeight s mod epochLengthBlocks s =? 0) end = false ∧
     (next' = None ∨ ∃ n w, next' = Some (n, w) ∧ set_typed (nextSetValidators n))) as (next' & Hok & En & Eb & Hshape).
  { destruct next as [n|]; [|by exists None; auto]. destruct Hn as [Hmod [w Hw]]. exists (Some (n, w)).
    rewrite Hw, Hmod. split_and!; [done|done|done|]. right. by exists n, w. }
  rewrite Eb, En, Er. rewrite bool_decide_eq_true_2 by done. cbn [negb].
  destruct (nextPriorities_ok s _ next' Hs Er Hok) as (ps & Eps & Hl & Ht & Hsp). rewrite Eps.
  eexists. split; [done|]. destruct Hs as [He _ Hty0 Hset _ _ _]. unfold u64_max in *.
  destruct Hshape as [->|(n & w & -> & Htn)]; (split; [split; simpl in *; try done; try (unfold u64_max in *; lia)|done]).
  by destruct Hok.
Qed.

Lemma finalize_refused height round signer next s : sound s → next_typed next → ¬ allowed height round signer next s →
  finalize height round signer next s = (false, s).
Proof.
  intros Hs Hty Hna. unfold finalize. destruct (_ || _ || _) eqn:E; [done|]. rewrite !orb_false_iff in E. destruct E as [[E1 E2] E3].
  apply negb_false_iff, Z.eqb_eq in E1 as ->. apply Z.eqb_neq in E2. destruct (scores_ok s Hs) as (Er & _).
  assert (proposer (nextHeight s) round s ≠ Some signer ∨ ∃ n, next = Some n ∧ validSet (nextSetValidators n) = None) as [Hp|(n & -> & Hv)].
  { destruct (decide (proposer (nextHeight s) round s = Some signer)) as [Ep|]; [|by left]. right.
    destruct next as [n|]; [|by destruct Hna]. exists n. split; [done|].
    destruct (validSet (nextSetValidators n)) as [w|] eqn:Hv; [|done]. destruct Hna. apply negb_false_iff, Z.eqb_eq in E3.
    split_and!; try done; by rewrite Hv. }
  - unfold proposer in Hp. rewrite Z.eqb_refl, Er in Hp. cbn [negb mbind option_bind] in Hp. rewrite Er, bool_decide_eq_false_2 by done.
    by destruct (match next with None => Some None | Some _ => _ end).
  - by rewrite Hv.
Qed.

Lemma create_sound epoch rt vs s : 0 ≤ epoch → set_typed vs → create epoch rt vs = Some s → sound s.
Proof.
  intros He Hty. unfold create. destruct (_ || _) eqn:E; [done|]. rewrite orb_false_iff in E. destruct E as [E1 _].
  intros (w & Hw & [= <-])%bind_Some. destruct (validSet_ok _ _ Hty Hw) as (_ & _ & _ & HW & _). split; simpl; try done.
  - lia.
  - by rewrite length_replicate.
  - unfold total. induction (length vs) as [|n IH]; simpl; lia.
  - intros x y Hx%elem_of_replicate Hy%elem_of_replicate. destruct Hx as [-> _], Hy as [-> _]. lia.
Qed.

(** States a schedule can be in: those finalized heights lead to. *)
Inductive reachable (s0 : t) : t → Prop :=
| reach_init : reachable s0 s0
| reach_step s h r p next : reachable s0 s → next_typed next → reachable s0 (finalize h r p next s).2.

Lemma allowed_dec h r p next s : allowed h r p next s ∨ ¬ allowed h r p next s.
Proof.
  unfold allowed. destruct (decide (h = nextHeight s)); [|by right; intros []]. destruct (decide (h = u64_max)); [right; tauto|].
  destruct (decide (proposer h r s = Some p)); [|right; tauto]. destruct next as [n'|]; [|by left].
  destruct (decide (h mod epochLengthBlocks s = 0)); [|right; tauto].
  destruct (validSet (nextSetValidators n')); [left; split_and!; try done; by eexists|right; by intros (_ & _ & _ & _ & [])].
Qed.

Lemma reachable_sound s0 s : sound s0 → reachable s0 s → sound s.
Proof.
  intros H0. induction 1 as [|s h r p next _ IH Hty]; [done|]. destruct (allowed_dec h r p next s) as [Ha|Hna].
  - by destruct (finalize_allowed h r p next s IH Hty Ha) as (s' & -> & ? & _).
  - by rewrite (finalize_refused h r p next s IH Hty Hna).
Qed.

(** ** The ranking *)

Definition key_score (sc : list Z) (i : nat) : Z := default 0 (sc !! i).
Definition key_id (vs : list Validator) (i : nat) : list Z := default [] (id <$> vs !! i).

Lemma not_after_spec sc vs i j : not_after sc vs i j ↔
  key_score sc j < key_score sc i ∨ (key_score sc i = key_score sc j ∧ lex_lt (key_id vs j) (key_id vs i) = false).
Proof.
  unfold not_after, before. fold (key_score sc i) (key_score sc j) (key_id vs i) (key_id vs j).
  destruct (Z.eqb_spec (key_score sc j) (key_score sc i)) as [E|E]; simpl; [split; [by right|intros [?|[_ ?]]; [lia|done]]|].
  destruct (Z.ltb_spec (key_score sc i) (key_score sc j)); split; try done; try (intros [?|[? _]]; lia). left. lia.
Qed.

#[global] Instance not_after_total sc vs : Total (not_after sc vs).
Proof.
  intros i j. rewrite !not_after_spec. destruct (Z.lt_trichotomy (key_score sc i) (key_score sc j)) as [?|[E|?]]; [by right; left| |by left; left].
  destruct (lex_lt (key_id vs j) (key_id vs i)) eqn:L; [|by left; right]. right. right. split; [done|].
  destruct (lex_lt (key_id vs i) (key_id vs j)) eqn:L'; [|done]. pose proof (lex_lt_trans _ _ _ L L') as C. by rewrite lex_lt_irrefl in C.
Qed.

#[global] Instance not_after_trans sc vs : Transitive (not_after sc vs).
Proof.
  intros i j k. rewrite !not_after_spec. intros [H1|[H1 L1]] [H2|[H2 L2]]; [left; lia|left; lia|left; lia|]. right. split; [lia|].
  destruct (lex_lt (key_id vs k) (key_id vs i)) eqn:L; [|done].
  destruct (lex_lt (key_id vs k) (key_id vs j)) eqn:Lkj; [done|]. destruct (lex_lt (key_id vs j) (key_id vs k)) eqn:Ljk.
  - rewrite (lex_lt_trans _ _ _ Ljk L) in L1. done.
  - rewrite (lex_lt_total _ _ Ljk Lkj) in L1. congruence.
Qed.

Lemma order_sorted sc vs : StronglySorted (not_after sc vs) (orderOf sc vs).
Proof. apply StronglySorted_merge_sort; apply _. Qed.

(** Round [k] goes to the [k]-th validator of the ranking. *)
Lemma proposer_order s k : sound s → (k < length (validators s))%nat →
  proposer (nextHeight s) (Z.of_nat k) s = i ← orderOf (raised s) (validators s) !! k; id <$> validators s !! i.
Proof.
  intros Hs Hk. destruct (scores_ok s Hs) as (Er & _). unfold proposer. rewrite Z.eqb_refl, Er. cbn [negb mbind option_bind].
  unfold idAt. cbn [order]. rewrite order_length, Z.mod_small, Nat2Z.id by lia.
  destruct (orderOf (raised s) (validators s) !! k) as [i|]; simpl; [|done]. by destruct (validators s !! i).
Qed.

Lemma perm_lookup {A} (l k : list A) : (∀ i, l !! i = k !! i) → l ≡ₚ k.
Proof. by intros ->%list_eq. Qed.

Lemma proposers_perm s : sound s →
  (λ k, proposer (nextHeight s) (Z.of_nat k) s) <$> seq 0 (length (validators s)) ≡ₚ (λ v, Some (id v)) <$> validators s.
Proof.
  intros Hs. transitivity ((λ i, id <$> validators s !! i) <$> orderOf (raised s) (validators s)).
  - apply perm_lookup. intros k. rewrite !list_lookup_fmap.
    destruct (decide (k < length (validators s))%nat) as [Hk|Hk].
    + rewrite lookup_seq_lt by done. simpl. rewrite proposer_order by done.
      destruct (lookup_lt_is_Some_2 (orderOf (raised s) (validators s)) k) as [i ->]; [by rewrite order_length|]. done.
    + rewrite lookup_seq_ge by lia. rewrite lookup_ge_None_2; [done|]. rewrite order_length. lia.
  - etransitivity; [apply fmap_Permutation, orderOf_perm|]. apply perm_lookup. intros k. rewrite !list_lookup_fmap.
    destruct (validators s !! k) as [v|] eqn:E; simpl.
    + apply lookup_lt_Some in E as Hk. rewrite lookup_seq_lt by done. simpl. by rewrite E.
    + apply lookup_ge_None in E. by rewrite lookup_seq_ge.
Qed.
End WeightedFacts.

(** ** The lottery draws in proportion to the weights *)

Module LotteryFacts.
Import Lottery Validators ValidatorFacts.

Lemma pick_ok (r : ValidatorRegistry) l ticket cursor : 0 ≤ cursor → (∀ a, 0 ≤ consensusWeightFor r a) →
  cursor + sum_by (consensusWeightFor r) l ≤ u64_max →
  ∃ o, pick r ticket cursor l = Ok o ∧
    (ticket < cursor + sum_by (consensusWeightFor r) l → 0 < sum_by (consensusWeightFor r) l → ∃ a, o = Some a ∧ a ∈ l ∧ 0 < consensusWeightFor r a).
Proof.
  intros Hc Hw. revert cursor Hc. induction l as [|a l IH]; intros cursor Hc Hs; simpl in *; [exists None; split; [done|lia]|].
  pose proof (Hw a) as Ha. assert (0 ≤ sum_by (consensusWeightFor r) l) by (by apply sum_by_nonneg).
  destruct (Z.eqb_spec (consensusWeightFor r a) 0) as [E|E].
  - destruct (IH cursor Hc ltac:(lia)) as (o & Ho & Hp). exists o. split; [done|]. intros H1 H2.
    destruct Hp as (b & -> & Hb & Hwb); [lia|lia|]. exists b. split_and!; [done|by right|done].
  - unfold throw_if. destruct (Z.ltb_spec (u64_max - cursor) (consensusWeightFor r a)); [lia|]. cbn [mbind result_bind].
    destruct (Z.ltb_spec ticket (cursor + consensusWeightFor r a)).
    + exists (Some a). split; [done|]. intros _ _. exists a. split_and!; [done|by left|lia].
    + destruct (IH (cursor + consensusWeightFor r a) ltac:(lia) ltac:(lia)) as (o & Ho & Hp). exists o. split; [done|]. intros H3 _.
      destruct Hp as (b & -> & Hb & Hwb); [lia|lia|]. exists b. split_and!; [done|by right|done].
Qed.

Definition count_where (P : Z → bool) (l : list Z) : Z := sum_by (λ t, if P t then 1 else 0) l.
Definition drawn (r : ValidatorRegistry) cursor l (a : string) (t : Z) : bool :=
  bool_decide (pick r t cursor l = Ok (Some a)).

Lemma count_all P b n : (∀ t, b ≤ t < b + Z.of_nat n → P t = true) → count_where P (seqZ b (Z.of_nat n)) = Z.of_nat n.
Proof.
  revert b. induction n as [|n IH]; intros b Hp; [done|]. rewrite seqZ_cons by lia. unfold count_where. cbn [sum_by].
  replace (Z.pred (Z.of_nat (S n))) with (Z.of_nat n) by lia. fold (count_where P (seqZ (Z.succ b) (Z.of_nat n))).
  rewrite IH by (intros t Ht; apply Hp; lia). rewrite Hp by lia. lia.
Qed.

Lemma count_ext P Q l : (∀ t, t ∈ l → P t = Q t) → count_where P l = count_where Q l.
Proof. intros E. apply sum_by_ext. intros t Ht. by rewrite E. Qed.

Lemma count_none P l : (∀ t, t ∈ l → P t = false) → count_where P l = 0.
Proof. intros E. rewrite (count_ext P (λ _, false)) by done. apply sum_by_0. Qed.

(** Exactly [weight] of the tickets draw a validator. *)
Lemma tickets_of (r : ValidatorRegistry) l a cursor : 0 ≤ cursor → (∀ b, 0 ≤ consensusWeightFor r b) → NoDup l →
  cursor + sum_by (consensusWeightFor r) l ≤ u64_max →
  count_where (drawn r cursor l a) (seqZ cursor (sum_by (consensusWeightFor r) l)) =
    if decide (a ∈ l) then consensusWeightFor r a else 0.
Proof.
  intros Hc Hw Hnd. revert cursor Hc. induction Hnd as [|b l Hb _ IH]; intros cursor Hc Hs; [done|].
  cbn [sum_by] in *. pose proof (Hw b) as Hwb. assert (0 ≤ sum_by (consensusWeightFor r) l) as Hrest by (by apply sum_by_nonneg).
  rewrite seqZ_app by done. unfold count_where. rewrite sum_by_app. fold (count_where (drawn r cursor (b :: l) a) (seqZ cursor (consensusWeightFor r b))).
  fold (count_where (drawn r cursor (b :: l) a) (seqZ (cursor + consensusWeightFor r b) (sum_by (consensusWeightFor r) l))).
  assert (∀ t, cursor + consensusWeightFor r b ≤ t → drawn r cursor (b :: l) a t = drawn r (cursor + consensusWeightFor r b) l a t) as Htail.
  { intros t Ht. unfold drawn. cbn [pick]. destruct (Z.eqb_spec (consensusWeightFor r b) 0) as [E|E]; [by rewrite E, Z.add_0_r|].
    unfold throw_if. destruct (Z.ltb_spec (u64_max - cursor) (consensusWeightFor r b)); [lia|]. cbn [mbind result_bind].
    destruct (Z.ltb_spec t (cursor + consensusWeightFor r b)); [lia|done]. }
  rewrite (count_ext _ (drawn r (cursor + consensusWeightFor r b) l a) (seqZ (cursor + _) _)) by (intros t Ht%elem_of_seqZ; apply Htail; lia).
  rewrite IH by lia.
  assert (∀ t, cursor ≤ t < cursor + consensusWeightFor r b → drawn r cursor (b :: l) a t = bool_decide (a = b)) as Hhead.
  { intros t Ht. unfold drawn. cbn [pick]. destruct (Z.eqb_spec (consensusWeightFor r b) 0); [lia|].
    unfold throw_if. destruct (Z.ltb_spec (u64_max - cursor) (consensusWeightFor r b)); [lia|]. cbn [mbind result_bind].
    destruct (Z.ltb_spec t (cursor + consensusWeightFor r b)); [|lia]. apply bool_decide_ext. split; [by intros [= ->]|by intros ->]. }
  destruct (decide (a = b)) as [->|Hne].
  - rewrite <- (Z2Nat.id (consensusWeightFor r b)) at 1 by lia. rewrite count_all.
    + rewrite decide_False by done. rewrite decide_True by (by left). lia.
    + intros t Ht. rewrite Hhead by lia. by rewrite bool_decide_eq_true_2.
  - rewrite count_none by (intros t Ht%elem_of_seqZ; rewrite Hhead by lia; by rewrite bool_decide_eq_false_2).
    destruct (decide (a ∈ l)); [rewrite decide_True by (by right)|rewrite decide_False by (rewrite elem_of_cons; tauto)]; lia.
Qed.

Lemma eligible_weight (r : ValidatorRegistry) a :
  (if decide (a ∈ eligibleValidatorAddresses r) then consensusWeightFor r a else 0) = consensusWeightFor r a.
Proof.
  case_decide as Hin; [done|]. unfold consensusWeightFor. destruct (r !! a) as [e|] eqn:E; [|done].
  destruct (Entry.eligibleForConsensus e) eqn:Ee; [|done]. destruct Hin. unfold eligibleValidatorAddresses, addressesWhere.
  apply list_elem_of_fmap. exists (a, e). split; [done|]. apply list_elem_of_filter. split; [done|by apply elem_of_entries].
Qed.

Lemma weight_for_nonneg (r : ValidatorRegistry) a : 0 ≤ consensusWeightFor r a.
Proof.
  unfold consensusWeightFor. destruct (r !! a) as [e|]; [|done]. pose proof (weight_nonneg e) as Hw. unfold weight in Hw.
  by destruct (Entry.eligibleForConsensus e).
Qed.

Lemma eligible_sum (r : ValidatorRegistry) : sum_by (consensusWeightFor r) (eligibleValidatorAddresses r) = map_sum weight r.
Proof.
  unfold eligibleValidatorAddresses, addressesWhere. rewrite sum_by_fmap, <- map_sum_entries.
  assert (∀ l, (∀ e, e ∈ l → r !! e.1 = Some e.2) →
    sum_by (consensusWeightFor r ∘ fst) (filter (λ e, Entry.eligibleForConsensus e.2 = true) l) = sum_by (λ e, weight e.2) l) as Hl.
  { induction l as [|[a e] l IH]; intros Hin; [done|]. rewrite filter_cons. cbn [sum_by].
    pose proof (Hin (a, e) ltac:(by left)) as Ea. specialize (IH (λ x Hx, Hin x ltac:(by right))). simpl in Ea.
    case_decide as Ee; simpl in Ee; cbn [sum_by]; rewrite IH; unfold weight; simpl.
    - unfold compose, consensusWeightFor. simpl. rewrite Ea. by rewrite Ee.
    - apply not_true_is_false in Ee. by rewrite Ee. }
  rewrite Hl; [done|]. intros [a e] Hin. by apply elem_of_entries.
Qed.

Lemma lottery_setup `{Sha256} r W : isValid r = Ok true → totalConsensusWeight r = Ok W →
  (∀ a, 0 ≤ consensusWeightFor r a) ∧ NoDup (eligibleValidatorAddresses r) ∧
  sum_by (consensusWeightFor r) (eligibleValidatorAddresses r) = W ∧ W ≤ u64_max ∧
  ∀ a, (if decide (a ∈ eligibleValidatorAddresses r) then consensusWeightFor r a else 0) = consensusWeightFor r a.
Proof.
  intros Hv%isValid_wf Ht. pose proof (totalConsensusWeight_Ok r Hv) as E. rewrite Ht in E. injection E as ->.
  split_and!; [apply weight_for_nonneg| |apply eligible_sum|by destruct Hv|apply eligible_weight].
  unfold eligibleValidatorAddresses, addressesWhere. apply (sublist_NoDup _ (entries r).*1); [apply NoDup_fst_entries|].
  apply fmap_sublist, sublist_filter.
Qed.

Lemma count_filter (P : Z → Prop) `{∀ t, Decision (P t)} (Q : Z → bool) l : (∀ t, t ∈ l → P t ↔ Q t = true) →
  Z.of_nat (length (filter P l)) = count_where Q l.
Proof.
  unfold count_where. induction l as [|t l IH]; intros HP; [done|]. rewrite filter_cons. cbn [sum_by].
  rewrite <- IH by (intros u Hu; apply HP; by right). specialize (HP t ltac:(by left)).
  case_decide as Ht; destruct (Q t); simpl; try lia; exfalso; [apply HP in Ht|apply Ht, HP]; done.
Qed.

Lemma draw_drawn (r : ValidatorRegistry) a t : (∀ b, 0 ≤ consensusWeightFor r b) →
  sum_by (consensusWeightFor r) (eligibleValidatorAddresses r) ≤ u64_max →
  0 ≤ t < sum_by (consensusWeightFor r) (eligibleValidatorAddresses r) →
  draw r t = Ok a ↔ drawn r 0 (eligibleValidatorAddresses r) a t = true.
Proof.
  intros Hw Hmax Ht. unfold draw, drawn. rewrite bool_decide_eq_true.
  destruct (pick_ok r (eligibleValidatorAddresses r) t 0) as (o & Ho & Hp); [lia|done|lia|].
  destruct Hp as (b & -> & _); [lia|lia|]. rewrite Ho. cbn [mbind result_bind]. split; [by intros [= ->]|by intros [= ->]].
Qed.
End LotteryFacts.

(** ** What the schedules promise *)

Module CadenceFacts.
Import Cadence.

Lemma Cadence_create_Ok len seconds c : u64 len → u64 seconds → create len seconds = Some c →
  c = mk len seconds ∧ 1 ≤ len ∧ 1 ≤ seconds ≤ kMaxTargetBlockSeconds ∧
  kMinNominalEpochSeconds ≤ len * seconds ≤ kMaxNominalEpochSeconds.
Proof.
  unfold u64, create, kMaxTargetBlockSeconds, kMaxNominalEpochSeconds, kMinNominalEpochSeconds. intros Hl Hs.
  destruct (_ || _ || _ || _ || _) eqn:E; [done|]. rewrite !orb_false_iff in E. destruct E as [[[[E1 E2] E3] E4] E5].
  intros [= <-]. apply Z.eqb_neq in E1, E2. apply Z.ltb_ge in E3, E4, E5.
  assert (len * seconds ≤ 604800) as Hmul.
  { pose proof (Z.mul_div_le 604800 seconds ltac:(lia)). change (7 * 24 * 60 * 60) with 604800 in *. nia. }
  unfold wrap64 in E5. rewrite Z.mod_small in E5 by nia. split_and!; try done; lia.
Qed.

Lemma firstHeight_Some c e : 1 ≤ epochLengthBlocks c → 0 ≤ e → e * epochLengthBlocks c + 1 ≤ u64_max →
  firstHeight c e = Some (e * epochLengthBlocks c + 1).
Proof.
  intros Hn He Hm. unfold firstHeight. assert (e ≤ (u64_max - 1) / epochLengthBlocks c) by (apply Z.div_le_lower_bound; lia).
  destruct (Z.ltb_spec ((u64_max - 1) / epochLengthBlocks c) e); [lia|]. unfold wrap64, u64_max in *.
  rewrite (Z.mod_small (e * epochLengthBlocks c)) by nia. rewrite Z.mod_small by nia. done.
Qed.

Lemma firstHeight_inv c e f : 1 ≤ epochLengthBlocks c → 0 ≤ e → firstHeight c e = Some f → f = e * epochLengthBlocks c + 1.
Proof.
  intros Hn He. unfold firstHeight. destruct (Z.ltb_spec ((u64_max - 1) / epochLengthBlocks c) e) as [|Hle]; [done|]. intros [= <-].
  pose proof (Z.mul_div_le (u64_max - 1) (epochLengthBlocks c) ltac:(lia)). unfold wrap64, u64_max in *.
  rewrite (Z.mod_small (e * epochLengthBlocks c)) by nia. rewrite Z.mod_small by nia. done.
Qed.

Lemma lastHeight_Some c e l : 1 ≤ epochLengthBlocks c → 0 ≤ e → lastHeight c e = Some l →
  l = (e + 1) * epochLengthBlocks c ∧ l ≤ u64_max.
Proof.
  intros Hn He. unfold lastHeight. destruct (_ || _) eqn:E; [done|]. rewrite orb_false_iff in E. destruct E as [_ E]. apply Z.ltb_ge in E.
  intros [= <-]. pose proof (Z.mul_div_le u64_max (epochLengthBlocks c) ltac:(lia)). unfold wrap64, u64_max in *.
  rewrite Z.mod_small by nia. split; nia.
Qed.
End CadenceFacts.

Module ScheduleProperties.
Import CadenceFacts.
Import Weighted WeightedFacts Lottery LotteryFacts.


(** Rounds visit everyone: the first [n] rounds of a height propose each of the
    [n] validators exactly once, so a height stalls on absent proposers for at most
    as many rounds as there are of them; and round zero belongs to a validator whose
    score no other exceeds. *)
Theorem rounds_visit_everyone (epoch : Z) (genesisRoot : list Z) (vs : list Validator) (s0 s : t)
    (Hepoch : 0 ≤ epoch) (Htyped : set_typed vs) (Hcreate : create epoch genesisRoot vs = Some s0)
    (Hreach : reachable s0 s) :
  (λ k, proposer (nextHeight s) (Z.of_nat k) s) <$> seq 0 (length (validators s)) ≡ₚ (λ v, Some (id v)) <$> validators s ∧
  NoDup (id <$> validators s) ∧
  ∃ i v sc, validators s !! i = Some v ∧ raised s !! i = Some sc ∧ proposer (nextHeight s) 0 s = Some (id v) ∧
    ∀ j sc', raised s !! j = Some sc' → sc' ≤ sc.
Proof.
  assert (sound s) as Hs by (eapply reachable_sound; [by eapply create_sound|done]).
  destruct (validSet_ok _ _ (snd_typed s Hs) (snd_set s Hs)) as (Hne & _ & _ & _ & _ & Hsort).
  split_and!; [by apply proposers_perm|by apply sorted_ids|].
  assert (0 < length (validators s))%nat as Hpos by (destruct (validators s); [done|simpl; lia]).
  pose proof (order_sorted (raised s) (validators s)) as Ho. pose proof (orderOf_perm (raised s) (validators s)) as Hp.
  pose proof (proposer_order s 0 Hs Hpos) as E0. destruct (orderOf (raised s) (validators s)) as [|i o] eqn:Eo.
  { apply (f_equal length) in Eo. rewrite order_length in Eo. simpl in Eo. lia. }
  assert (i < length (validators s))%nat as Hi by (assert (i ∈ seq 0 (length (validators s))) as Hin by (rewrite <- Hp; by left);
    rewrite elem_of_seq in Hin; lia).
  destruct (scores_ok s Hs) as (_ & _ & Hl). destruct (lookup_lt_is_Some_2 (validators s) i Hi) as [v Hv].
  destruct (lookup_lt_is_Some_2 (raised s) i ltac:(lia)) as [sc Hsc]. exists i, v, sc. split_and!; [done|done|simpl in E0; by rewrite Hv in E0|].
  intros j sc' Hj. apply StronglySorted_inv in Ho as [_ Ho]. rewrite Forall_forall in Ho.
  assert (j ∈ i :: o) as Hin by (rewrite Hp; apply elem_of_seq; apply lookup_lt_Some in Hj; lia).
  apply elem_of_cons in Hin as [->|Hin]; [assert (sc' = sc) by congruence; lia|]. apply Ho, not_after_spec in Hin. unfold key_score in Hin.
  rewrite Hsc, Hj in Hin. simpl in Hin. lia.
Qed.

(** The lottery is fair: over the tickets that can be drawn, each eligible
    validator is drawn by exactly as many as its consensus weight, and every
    selection is the draw of one of these tickets. *)
Theorem lottery_is_proportional `{Sha256} (r : ValidatorRegistry) (W : Z) (a chainId : string) (height round : Z)
    (Hvalid : Validators.isValid r = Ok true) (Htotal : Validators.totalConsensusWeight r = Ok W) (Hpos : 0 < W) :
  Z.of_nat (length (filter (λ t, draw r t = Ok a) (seqZ 0 W))) = Validators.consensusWeightFor r a ∧
  ∃ ticket, 0 ≤ ticket < W ∧ selectProposer r chainId height round = draw r ticket ∧
    ∃ b, draw r ticket = Ok b ∧ 0 < Validators.consensusWeightFor r b.
Proof.
  destruct (lottery_setup r W Hvalid Htotal) as (Hw & Hnd & Hsum & Hmax & Hmem). split.
  - rewrite <- Hmem, <- (tickets_of r (Validators.eligibleValidatorAddresses r) a 0) by (done || lia). rewrite Hsum.
    apply count_filter. intros t Ht%elem_of_seqZ. apply draw_drawn; [done|lia|lia].
  - set (ticket := hexPrefixToUint64 (Hash.hashCString (buildSelectionKey chainId height round)) mod W).
    assert (0 ≤ ticket < W) as Ht by (apply Z.mod_pos_bound; lia). exists ticket. split_and!; [lia|lia| |].
    + unfold selectProposer. rewrite bool_decide_eq_false_2 by (intros E; rewrite E in Hsum; simpl in Hsum; lia).
      rewrite Htotal. cbn [mbind result_bind]. by rewrite (proj2 (Z.eqb_neq W 0)) by lia.
    + destruct (pick_ok r (Validators.eligibleValidatorAddresses r) ticket 0) as (o & Ho & Hp); [lia|done|lia|].
      destruct Hp as (b & -> & _ & Hb); [lia|lia|]. exists b. unfold draw. rewrite Ho. done.
Qed.

(** Epochs partition the heights: every height after genesis lies in exactly one
    epoch, between its first and its last height, and is final exactly when it is
    the last. *)
Theorem epochs_partition_heights (len seconds : Z) (c : Cadence.t) (height : Z)
    (Hlen : u64 len) (Hsec : u64 seconds) (Hc : Cadence.create len seconds = Some c) (Hh : 1 ≤ height ≤ u64_max) :
  ∃ e first, Cadence.epochForHeight c height = Some e ∧ Cadence.firstHeight c e = Some first ∧ first ≤ height ∧
    (∀ last, Cadence.lastHeight c e = Some last → height ≤ last ∧
       (Cadence.isFinalBlockOfEpoch c height = true ↔ height = last)) ∧
    ∀ e' first' last', Cadence.firstHeight c e' = Some first' → Cadence.lastHeight c e' = Some last' →
      0 ≤ e' → first' ≤ height ≤ last' → e' = e.
Proof.
  destruct (Cadence_create_Ok _ _ _ Hlen Hsec Hc) as (-> & Hl & _). set (n := len) in *.
  assert (∃ e r, height - 1 = n * e + r ∧ 0 ≤ r < n ∧ 0 ≤ e) as (e & r & Ee & Hr & He).
  { exists ((height - 1) / n), ((height - 1) mod n). pose proof (Z.div_mod (height - 1) n ltac:(lia)).
    pose proof (Z.mod_pos_bound (height - 1) n ltac:(lia)). pose proof (Z.div_pos (height - 1) n ltac:(lia) ltac:(lia)). lia. }
  assert ((height - 1) / n = e) as Hdiv by (symmetry; apply (Z.div_unique _ _ e r); lia).
  exists e, (e * n + 1). split_and!.
  - unfold Cadence.epochForHeight. simpl. fold n. rewrite (proj2 (Z.eqb_neq _ _)) by lia. by rewrite Hdiv.
  - apply firstHeight_Some; simpl; fold n; lia.
  - lia.
  - intros last Hlast%lastHeight_Some; [|simpl; lia|lia]. simpl in Hlast. fold n in Hlast. destruct Hlast as [-> _]. split; [nia|].
    unfold Cadence.isFinalBlockOfEpoch. simpl. fold n. rewrite (proj2 (Z.eqb_neq _ _)) by lia. cbn [negb andb]. rewrite Z.eqb_eq. split.
    + intros Hm. apply Z.mod_divide in Hm as [q Hq]; [|lia]. assert (q = e + 1) by nia. nia.
    + intros ->. apply Z.mod_mul. lia.
  - intros e' f l Hf Hlast He' Hin. apply firstHeight_inv in Hf as ->; [|simpl; lia..].
    apply lastHeight_Some in Hlast as [-> _]; [|simpl; lia|lia]. simpl in Hin. fold n in Hin. nia.
Qed.

Definition sample_set : list Validator :=
  [mkValidator [1] 10; mkValidator [2] 20; mkValidator [3] 30; mkValidator [4] 1].
Definition genesis_schedule : t := default (mk 0 0 [] 0 [] []) (create 1 [9] sample_set).
Definition larger_set : NextSet := mkNextSet [8] (sample_set ++ [mkValidator [5] 7]).
Definition second_schedule : t := (finalize 1 0 [3] (Some larger_set) genesis_schedule).2.

Lemma sample_typed : set_typed sample_set.
Proof. repeat constructor; simpl; lia. Qed.
Lemma second_reachable : reachable genesis_schedule second_schedule.
Proof. apply reach_step; [constructor|]. repeat constructor; simpl; lia. Qed.


Lemma rounds_visit_everyone_witness :
  (λ k, proposer (nextHeight second_schedule) (Z.of_nat k) second_schedule) <$> seq 0 (length (validators second_schedule)) ≡ₚ
  (λ v, Some (id v)) <$> validators second_schedule.
Proof.
  exact (proj1 (rounds_visit_everyone 1 [9] sample_set genesis_schedule second_schedule ltac:(lia) sample_typed
    ltac:(vm_compute; reflexivity) second_reachable)).
Defined.

#[local] Instance toy : Sha256 := CryptoProperties.toy_sha256.

Lemma lottery_is_proportional_witness :
  Validators.totalConsensusWeight ValidatorProperties.one_validator = Ok 2000000 ∧
  ∃ ticket, 0 ≤ ticket < 2000000 ∧
    selectProposer ValidatorProperties.one_validator "chain" 5 0 = draw ValidatorProperties.one_validator ticket.
Proof.
  split; [vm_compute; reflexivity|].
  assert (Validators.isValid ValidatorProperties.one_validator = Ok true) as H1 by (vm_compute; reflexivity).
  assert (Validators.totalConsensusWeight ValidatorProperties.one_validator = Ok 2000000) as H2 by (vm_compute; reflexivity).
  destruct (lottery_is_proportional ValidatorProperties.one_validator 2000000 "nobody" "chain" 5 0 H1 H2 eq_refl)
    as (_ & ticket & Ht & E & _).
  exists ticket. exact (conj Ht E).
Defined.

Lemma epochs_partition_heights_witness : ∃ e, Cadence.epochForHeight (Cadence.mk 20000 10) 20000 = Some e ∧ e = 0.
Proof.
  destruct (epochs_partition_heights 20000 10 (Cadence.mk 20000 10) 20000 ltac:(vm_compute; split; discriminate)
    ltac:(vm_compute; split; discriminate) ltac:(vm_compute; reflexivity) ltac:(vm_compute; split; discriminate)) as (e & f & He & _).
  exists e. split; [exact He|]. vm_compute in He. injection He as <-. reflexivity.
Defined.
End ScheduleProperties.
