(* ===== verification/Transactions.v ===== *)
(** * core: signed transactions

    Models src/src/core/Transaction.cpp (all but the text parser) and
    src/src/core/TransactionTypePolicy.cpp: the rules of each transaction type, the
    signing payload and the id derived from it, signing and authorization.  The
    payload of a transaction is the record of CoinLotTransfer.v; here it is paired
    with its optional signature bundle. *)

From Stdlib Require Import Ascii.
From S2P Require Import Prelude Utils CoinLots CoinLotTransfer Crypto Encoding.

(** ** What each type of transaction may do *)

Inductive TransactionAmountRule := AMOUNT_ZERO | AMOUNT_POSITIVE.
Inductive TransactionDebitRule := FEE_ONLY | AMOUNT_PLUS_FEE.
Inductive TransactionCreditRule := CREDIT_NONE | TARGET_AMOUNT | SENDER_AMOUNT.
#[global] Instance TransactionAmountRule_eq_dec : EqDecision TransactionAmountRule.
Proof. solve_decision. Defined.
#[global] Instance TransactionDebitRule_eq_dec : EqDecision TransactionDebitRule.
Proof. solve_decision. Defined.
#[global] Instance TransactionCreditRule_eq_dec : EqDecision TransactionCreditRule.
Proof. solve_decision. Defined.

Module TypePolicy.
(** A row of the table; the handler is named after the type. *)
Record t := mk {
  type : TransactionType;
  name : string;
  amountRule : TransactionAmountRule;
  debitRule : TransactionDebitRule;
  creditRule : TransactionCreditRule;
  payloadRequired : bool;
  payloadAllowed : bool;
  touchedDomains : list string;
}.

Definition policies : list t := [
  mk TRANSFER "TRANSFER" AMOUNT_POSITIVE AMOUNT_PLUS_FEE TARGET_AMOUNT false false ["accounts"];
  mk BURN "BURN" AMOUNT_POSITIVE AMOUNT_PLUS_FEE CREDIT_NONE false false ["accounts"; "supply"; "burns"];
  mk STAKE_DEPOSIT "STAKE_DEPOSIT" AMOUNT_POSITIVE AMOUNT_PLUS_FEE CREDIT_NONE false false ["accounts"; "staking"; "validators"];
  mk STAKE_UNLOCK "STAKE_UNLOCK" AMOUNT_POSITIVE FEE_ONLY CREDIT_NONE false false ["accounts"; "staking"; "validators"];
  mk STAKE_WITHDRAW "STAKE_WITHDRAW" AMOUNT_POSITIVE FEE_ONLY SENDER_AMOUNT false false ["accounts"; "staking"];
  mk STAKE_TOP_UP "STAKE_TOP_UP" AMOUNT_POSITIVE AMOUNT_PLUS_FEE CREDIT_NONE false false ["accounts"; "staking"; "validators"];
  mk VALIDATOR_REGISTER "VALIDATOR_REGISTER" AMOUNT_POSITIVE AMOUNT_PLUS_FEE CREDIT_NONE true true ["accounts"; "staking"; "validators"];
  mk VALIDATOR_EXIT_REQUEST "VALIDATOR_EXIT_REQUEST" AMOUNT_ZERO FEE_ONLY CREDIT_NONE false false ["accounts"; "staking"; "validators"];
  mk VALIDATOR_UNJAIL_REQUEST "VALIDATOR_UNJAIL_REQUEST" AMOUNT_ZERO FEE_ONLY CREDIT_NONE false false ["accounts"; "staking"; "validators"];
  mk VALIDATOR_KEY_ROTATE "VALIDATOR_KEY_ROTATE" AMOUNT_ZERO FEE_ONLY CREDIT_NONE true true ["accounts"; "staking"; "validators"];
  mk GOVERNANCE_PROPOSE "GOVERNANCE_PROPOSE" AMOUNT_ZERO FEE_ONLY CREDIT_NONE true true ["accounts"; "governance"];
  mk GOVERNANCE_VOTE "GOVERNANCE_VOTE" AMOUNT_ZERO FEE_ONLY CREDIT_NONE true true ["accounts"; "governance"; "validators"; "staking"];
  mk GOVERNANCE_EXECUTE "GOVERNANCE_EXECUTE" AMOUNT_ZERO FEE_ONLY CREDIT_NONE false false ["accounts"; "governance"]
].

Definition allTypes : list TransactionType := type <$> policies.

(** The row found by the loops of [policyFor] and [hasPolicy]. *)
Definition row (ty : TransactionType) : option t := snd <$> list_find (λ p, type p = ty) policies.

Definition policyFor (ty : TransactionType) : result t :=
  match row ty with
  | Some p => Ok p
  | None => Throw (invalid_argument "TransactionType has no registered policy.")
  end.

Definition hasPolicy (ty : TransactionType) : bool := bool_decide (is_Some (row ty)).
Definition isMempoolType (ty : TransactionType) : bool := hasPolicy ty.

(** The reason left in the reference parameter, [None] when the shape is valid.
    [policyFor] is called after [hasPolicy], so it finds the row. *)
Definition validateShape (tx : Transaction) : option string :=
  match row (Transaction.type tx) with
  | None => Some "Transaction type is not registered."
  | Some policy =>
      if bool_decide (amountRule policy = AMOUNT_ZERO) && negb (Transaction.amount tx =? 0) then
        Some "Transaction amount must be zero for this type."
      else if bool_decide (amountRule policy = AMOUNT_POSITIVE) && negb (0 <? Transaction.amount tx) then
        Some "Transaction amount must be positive for this type."
      else if empty_string (Transaction.toAddress tx) then Some "Transaction target is required."
      else if payloadRequired policy && empty_string (Transaction.data tx) then
        Some "Transaction payload is required for this type."
      else if negb (payloadAllowed policy) && negb (empty_string (Transaction.data tx)) then
        Some "Transaction payload is not allowed for this type."
      else if bool_decide (Transaction.type tx = TRANSFER) && String.eqb (Transaction.fromAddress tx) (Transaction.toAddress tx) then
        Some "Transfer sender and recipient must differ."
      else if bool_decide (Transaction.type tx = BURN) && negb (String.eqb (Transaction.toAddress tx) "nodo_burn") then
        Some "Burn target must be the canonical burn address."
      else if bool_decide (Transaction.type tx = GOVERNANCE_PROPOSE) && negb (String.eqb (Transaction.toAddress tx) "nodo_governance") then
        Some "Governance proposal target must be the canonical governance address."
      else None
  end.

Definition maximumDebit (tx : Transaction) : result Amount :=
  policy ← policyFor (Transaction.type tx);
  if bool_decide (debitRule policy = AMOUNT_PLUS_FEE) then Amount.add (Transaction.amount tx) (Transaction.fee tx)
  else Ok (Transaction.fee tx).
End TypePolicy.

Definition transactionTypeToString (ty : TransactionType) : string :=
  match ty with
  | TRANSFER => "TRANSFER"
  | VALIDATOR_REGISTER => "VALIDATOR_REGISTER"
  | BURN => "BURN"
  | STAKE_DEPOSIT => "STAKE_DEPOSIT"
  | STAKE_UNLOCK => "STAKE_UNLOCK"
  | STAKE_WITHDRAW => "STAKE_WITHDRAW"
  | STAKE_TOP_UP => "STAKE_TOP_UP"
  | VALIDATOR_EXIT_REQUEST => "VALIDATOR_EXIT_REQUEST"
  | VALIDATOR_UNJAIL_REQUEST => "VALIDATOR_UNJAIL_REQUEST"
  | VALIDATOR_KEY_ROTATE => "VALIDATOR_KEY_ROTATE"
  | GOVERNANCE_PROPOSE => "GOVERNANCE_PROPOSE"
  | GOVERNANCE_VOTE => "GOVERNANCE_VOTE"
  | GOVERNANCE_EXECUTE => "GOVERNANCE_EXECUTE"
  | TYPE_COUNT => "UNKNOWN"
  end.

Definition transactionTypeFromString (value : string) : result TransactionType :=
  if String.eqb value "TRANSFER" then Ok TRANSFER
  else if String.eqb value "VALIDATOR_REGISTER" then Ok VALIDATOR_REGISTER
  else if String.eqb value "BURN" then Ok BURN
  else if String.eqb value "STAKE_DEPOSIT" then Ok STAKE_DEPOSIT
  else if String.eqb value "STAKE_UNLOCK" then Ok STAKE_UNLOCK
  else if String.eqb value "STAKE_WITHDRAW" then Ok STAKE_WITHDRAW
  else if String.eqb value "STAKE_TOP_UP" then Ok STAKE_TOP_UP
  else if String.eqb value "VALIDATOR_EXIT_REQUEST" then Ok VALIDATOR_EXIT_REQUEST
  else if String.eqb value "VALIDATOR_UNJAIL_REQUEST" then Ok VALIDATOR_UNJAIL_REQUEST
  else if String.eqb value "VALIDATOR_KEY_ROTATE" then Ok VALIDATOR_KEY_ROTATE
  else if String.eqb value "GOVERNANCE_PROPOSE" then Ok GOVERNANCE_PROPOSE
  else if String.eqb value "GOVERNANCE_VOTE" then Ok GOVERNANCE_VOTE
  else if String.eqb value "GOVERNANCE_EXECUTE" then Ok GOVERNANCE_EXECUTE
  else Throw (invalid_argument ("Unknown TransactionType: " +:+ value)).

Definition requiresUserSignature (ty : TransactionType) : bool := TypePolicy.isMempoolType ty.
Definition isStakingTransaction (ty : TransactionType) : bool :=
  bool_decide (ty = STAKE_DEPOSIT) || bool_decide (ty = STAKE_UNLOCK) || bool_decide (ty = STAKE_WITHDRAW) || bool_decide (ty = STAKE_TOP_UP).
Definition isValidatorLifecycleTransaction (ty : TransactionType) : bool :=
  bool_decide (ty = VALIDATOR_REGISTER) || bool_decide (ty = VALIDATOR_EXIT_REQUEST) ||
  bool_decide (ty = VALIDATOR_UNJAIL_REQUEST) || bool_decide (ty = VALIDATOR_KEY_ROTATE).
Definition isGovernanceTransaction (ty : TransactionType) : bool :=
  bool_decide (ty = GOVERNANCE_PROPOSE) || bool_decide (ty = GOVERNANCE_VOTE) || bool_decide (ty = GOVERNANCE_EXECUTE).

(** ** Transactions *)

Module SignedTx.
Definition MAX_EXPLICIT_INPUT_COIN_LOTS : Z := 128.
Definition MAX_COIN_LOT_ID_LENGTH : Z := 256.
Definition MAX_TRANSACTION_DATA_BYTES : Z := 4096.
Definition MIN_ADDRESS_LENGTH : Z := 1.
Definition MAX_ADDRESS_LENGTH : Z := 256.

(** ";={}[],", newline, carriage return, tab and space *)
Definition address_delimiters : string :=
  ";={}[]," +:+ String "010"%char (String "013"%char (String "009"%char " ")).
(** ";,[]{} ", tab, newline and carriage return *)
Definition lot_delimiters : string :=
  ";,[]{} " +:+ String "009"%char (String "010"%char (String "013"%char EmptyString)).

Definition isSafeTransactionAddress (address : string) : bool :=
  if (string_size address <? MIN_ADDRESS_LENGTH) || (MAX_ADDRESS_LENGTH <? string_size address) then false
  else SafeScalar.all_chars (λ c, negb (SafeScalar.contains_char address_delimiters c)) address.

Definition isSafeCoinLotInputId (value : string) : bool :=
  if empty_string value || (MAX_COIN_LOT_ID_LENGTH <? string_size value) then false
  else SafeScalar.all_chars (λ c, negb (SafeScalar.contains_char lot_delimiters c)) value.

(** The loop of [hasDuplicateInputCoinLotIds] with its set. *)
Fixpoint duplicateFrom (seen : gset string) (ids : list string) : bool :=
  match ids with
  | [] => false
  | i :: ids => if bool_decide (i ∈ seen) then true else duplicateFrom ({[ i ]} ∪ seen) ids
  end.
Definition hasDuplicateInputCoinLotIds (ids : list string) : bool := duplicateFrom ∅ ids.

Definition areInputCoinLotIdsStructurallyValid (ids : list string) : bool :=
  if MAX_EXPLICIT_INPUT_COIN_LOTS <? Z.of_nat (length ids) then false
  else if hasDuplicateInputCoinLotIds ids then false
  else forallb isSafeCoinLotInputId ids.

Definition serializeInputCoinLotIds (ids : list string) : string := "[" +:+ String.concat "," ids +:+ "]".

Definition encodeTransactionData (data : string) : string :=
  if empty_string data then "" else Hex.hexEncode (Bytes.of_string data).

#[global] Instance Transaction_eq_dec : EqDecision Transaction.
Proof. solve_decision. Defined.

Record t := mk { payload : Transaction; bundle : option SignatureBundle }.
#[global] Instance eq_dec : EqDecision t.
Proof. solve_decision. Defined.

Definition id (tx : t) : string := Transaction.id (payload tx).
Definition type (tx : t) : TransactionType := Transaction.type (payload tx).
Definition fromAddress (tx : t) : string := Transaction.fromAddress (payload tx).
Definition toAddress (tx : t) : string := Transaction.toAddress (payload tx).
Definition fee (tx : t) : Amount := Transaction.fee (payload tx).
Definition nonce (tx : t) : Z := Transaction.nonce (payload tx).

Section signed.
Context `{Sha256}.

Definition signingPayload (tx : Transaction) : string :=
  "TransactionPayload{type=" +:+ transactionTypeToString (Transaction.type tx) +:+
  ";from=" +:+ Transaction.fromAddress tx +:+ ";to=" +:+ Transaction.toAddress tx +:+
  ";amountRaw=" +:+ to_string (Transaction.amount tx) +:+ ";feeRaw=" +:+ to_string (Transaction.fee tx) +:+
  (if bool_decide (Transaction.inputCoinLotIds tx = []) then ""
   else ";inputLots=" +:+ serializeInputCoinLotIds (Transaction.inputCoinLotIds tx)) +:+
  (if empty_string (Transaction.data tx) then "" else ";dataHex=" +:+ encodeTransactionData (Transaction.data tx)) +:+
  ";nonce=" +:+ to_string (Transaction.nonce tx) +:+ ";timestamp=" +:+ to_string (Transaction.timestamp tx) +:+
  (if empty_string (Transaction.chainId tx) then "" else ";chainId=" +:+ Transaction.chainId tx) +:+ "}".

Definition computeTransactionIdFromPayload (payload : string) : string := Hash.hashCString payload.

Definition set_id (i : string) (tx : Transaction) : Transaction :=
  Transaction.mk i (Transaction.type tx) (Transaction.fromAddress tx) (Transaction.toAddress tx) (Transaction.amount tx)
    (Transaction.fee tx) (Transaction.nonce tx) (Transaction.timestamp tx) (Transaction.inputCoinLotIds tx)
    (Transaction.data tx) (Transaction.chainId tx).

(** [m_id = computeTransactionIdFromPayload(signingPayload())] *)
Definition with_id (tx : Transaction) : Transaction := set_id (computeTransactionIdFromPayload (signingPayload tx)) tx.

(** The constructor with explicit input lots. *)
Definition make (ty : TransactionType) (from to : string) (amount fee : Amount) (nonce timestamp : Z) (inputs : list string) : result t :=
  throw_if (negb (areInputCoinLotIdsStructurallyValid inputs)) (invalid_argument "Invalid explicit input CoinLot id list.");;
  throw_if (negb (bool_decide (ty = TRANSFER)) && negb (bool_decide (inputs = [])))
    (invalid_argument "Only TRANSFER transactions can declare input CoinLot ids.");;
  Ok (mk (with_id (Transaction.mk "" ty from to amount fee nonce timestamp inputs "" "")) None).

(** The constructor with payload data. *)
Definition makeWithData (ty : TransactionType) (from to : string) (amount fee : Amount) (nonce timestamp : Z) (data : string) : result t :=
  throw_if (MAX_TRANSACTION_DATA_BYTES <? string_size data) (invalid_argument "Transaction data exceeds protocol limit.");;
  Ok (mk (with_id (Transaction.mk "" ty from to amount fee nonce timestamp [] data "")) None).

Definition signatureBundle (tx : t) : result SignatureBundle :=
  match bundle tx with
  | None => Throw (logic_error "Transaction has no SignatureBundle attached.")
  | Some b => Ok b
  end.

Definition attachSignatureBundle (b : SignatureBundle) : M t unit := λ tx,
  if bool_decide (b = []) then (Throw (invalid_argument "Empty SignatureBundle rejected by Transaction."), tx)
  else match bundle tx with
       | Some _ => (Throw (logic_error "Transaction SignatureBundle is immutable once attached."), tx)
       | None => (Ok tt, mk (payload tx) (Some b))
       end.

Definition set_chainId (chainId : string) (tx : Transaction) : Transaction :=
  Transaction.mk (Transaction.id tx) (Transaction.type tx) (Transaction.fromAddress tx) (Transaction.toAddress tx) (Transaction.amount tx)
    (Transaction.fee tx) (Transaction.nonce tx) (Transaction.timestamp tx) (Transaction.inputCoinLotIds tx)
    (Transaction.data tx) chainId.

Definition withChainId (chainId : string) : M t unit := λ tx,
  match bundle tx with
  | Some _ => (Throw (logic_error "Cannot change chainId after transaction signing."), tx)
  | None =>
      if negb (isSafeTransactionAddress chainId) then
        (Throw (invalid_argument "Transaction chainId is empty or unsafe."), tx)
      else (Ok tt, mk (with_id (set_chainId chainId (payload tx))) None)
  end.

Definition serialize (tx : t) : string :=
  "Transaction{id=" +:+ id tx +:+ ";payload=" +:+ signingPayload (payload tx) +:+ ";signatureBundle=" +:+
  match bundle tx with Some b => SignatureBundle.serialize b | None => "NONE" end +:+ "}".

Definition isStructurallyValid (policy : CryptoPolicy) (context : SecurityContext) (tx : t) : bool :=
  let p := payload tx in
  if empty_string (Transaction.id p) then false
  else if Transaction.timestamp p <=? 0 then false
  else if Transaction.nonce p =? 0 then false
  else if bool_decide (TypePolicy.validateShape p ≠ None) then false
  else if Transaction.fee p <? 0 then false
  else if negb (areInputCoinLotIdsStructurallyValid (Transaction.inputCoinLotIds p)) then false
  else if negb (bool_decide (Transaction.type p = TRANSFER)) && negb (bool_decide (Transaction.inputCoinLotIds p = [])) then false
  else if negb (String.eqb (Transaction.id p) (computeTransactionIdFromPayload (signingPayload p))) then false
  else if requiresUserSignature (Transaction.type p) && negb (isSafeTransactionAddress (Transaction.fromAddress p)) then false
  else if negb (isSafeTransactionAddress (Transaction.fromAddress p)) || negb (isSafeTransactionAddress (Transaction.toAddress p)) ||
          (MAX_TRANSACTION_DATA_BYTES <? string_size (Transaction.data p)) then false
  else if requiresUserSignature (Transaction.type p) &&
          match bundle tx with
          | None => true
          | Some b => negb (SignatureBundle.isValidForPolicy b policy context)
          end then false
  else if negb (bool_decide (context = DEVELOPMENT_ONLY)) && negb (developmentMode policy) && empty_string (Transaction.chainId p) then false
  else true.

Definition verifyAuthorization (expectedChainId : string) (policy : CryptoPolicy) (context : SecurityContext)
    (provider : SignatureProvider) (tx : t) : result bool :=
  let p := payload tx in
  if empty_string expectedChainId || negb (String.eqb (Transaction.chainId p) expectedChainId) ||
     negb (isStructurallyValid policy context tx) then Ok false
  else if negb (requiresUserSignature (Transaction.type p)) then Ok true
  else
    match bundle tx with
    | None | Some [] => Ok false
    | Some ((first :: _) as signatures) =>
        let signingKey := Signature.publicKey first in
        if negb (bool_decide (PublicKey.algorithm signingKey = provider_algorithm provider)) then Ok false
        else if negb (forallb (λ s, String.eqb (PublicKey.serialize (Signature.publicKey s)) (PublicKey.serialize signingKey)) signatures)
        then Ok false
        else if negb (Address.isValid (Transaction.fromAddress p)) then Ok false
        else
          owner ← AddressDerivation.verifyAddressForPublicKey (Transaction.fromAddress p) signingKey;
          if negb owner then Ok false
          else Ok (SignatureBundle.verifyForPolicy signatures (signingPayload p) policy context provider)
    end.
End signed.
End SignedTx.

(** ** Lemmas on text fields *)

Module TransactionFacts.
Import SafeScalar SignedTx.

Lemma field_inj c a b x y : contains_char a c = false → contains_char b c = false →
  a +:+ String c x = b +:+ String c y → a = b ∧ x = y.
Proof.
  intros Ha Hb E. pose proof (Text.split_at_app c a x Ha) as H1. rewrite E, (Text.split_at_app c b y Hb) in H1.
  by injection H1 as -> ->.
Qed.

Lemma pretty_N_go_chars p n s : (∀ n, p (pretty_N_char n) = true) → all_chars p s = true → all_chars p (pretty_N_go n s) = true.
Proof.
  intros Hp. revert s. induction (N.lt_wf_0 n) as [n _ IH]; intros s Hs.
  destruct (decide (n = 0)%N) as [->|]; [by rewrite pretty_N_go_0|].
  rewrite pretty_N_go_step by lia. apply IH; [apply N.div_lt; lia|]. simpl. by rewrite Hp.
Qed.

(** Numbers are written with digits and a minus sign. *)
Definition number_char (c : ascii) : bool := contains_char "-0123456789" c.

Lemma to_string_chars z : all_chars number_char (to_string z) = true.
Proof.
  assert (∀ n, number_char (pretty_N_char n) = true) as Hp by (intros n; unfold pretty_N_char; by repeat case_match).
  unfold to_string, pretty, pretty_Z. destruct z as [|p|p]; [done| |]; unfold pretty, pretty_positive, pretty, pretty_N;
    rewrite decide_False by done; [by apply pretty_N_go_chars|].
  rewrite CryptoFacts.all_chars_append. by rewrite pretty_N_go_chars.
Qed.

Lemma to_string_plain z c : number_char c = false → contains_char (to_string z) c = false.
Proof. intros Hc. by apply (Text.all_chars_contains number_char); [apply to_string_chars|]. Qed.

Lemma address_plain s c : isSafeTransactionAddress s = true → contains_char address_delimiters c = true → contains_char s c = false.
Proof.
  unfold isSafeTransactionAddress. intros Hs Hc. case_match; [done|].
  apply (Text.all_chars_contains _ _ _ Hs). cbv beta. by rewrite Hc.
Qed.

Lemma c_str_app_tail a x y : Hash.c_str x = Hash.c_str y → Hash.c_str (a +:+ x) = Hash.c_str (a +:+ y).
Proof.
  intros E. induction a as [|c a IH]; [exact E|]. rewrite !CryptoFacts.append_cons. cbn [Hash.c_str]. by rewrite IH.
Qed.

Lemma c_str_cut a x y : contains_char a "000" = true → Hash.c_str (a +:+ x) = Hash.c_str (a +:+ y).
Proof.
  induction a as [|c a IH]; [done|]. cbn [contains_char]. rewrite !CryptoFacts.append_cons. cbn [Hash.c_str].
  destruct (Ascii.eqb c "000"); [done|]. cbn [orb]. intros Ha. by rewrite IH.
Qed.

Lemma type_plain ty c : c = ";"%char ∨ c = "}"%char → contains_char (transactionTypeToString ty) c = false.
Proof. by intros [->| ->]; destruct ty. Qed.

Lemma type_inj ty ty' : transactionTypeToString ty = transactionTypeToString ty' → ty = ty'.
Proof. destruct ty, ty'; done. Qed.

Lemma type_roundtrip ty : ty ≠ TYPE_COUNT → transactionTypeFromString (transactionTypeToString ty) = Ok ty.
Proof. by destruct ty. Qed.

Lemma lot_id_plain s c : isSafeCoinLotInputId s = true → contains_char lot_delimiters c = true → contains_char s c = false.
Proof.
  unfold isSafeCoinLotInputId. intros Hs Hc. case_match; [done|].
  apply (Text.all_chars_contains _ _ _ Hs). cbv beta. by rewrite Hc.
Qed.

Lemma lot_ids_plain ids : areInputCoinLotIdsStructurallyValid ids = true →
  Forall (λ i, i ≠ "" ∧ ∀ c, contains_char lot_delimiters c = true → contains_char i c = false) ids.
Proof.
  unfold areInputCoinLotIdsStructurallyValid. intros Hv. repeat case_match; try done.
  apply Forall_forall. intros i Hi. apply (proj1 (forallb_forall _ _)) with (x := i) in Hv; [|by apply list_elem_of_In].
  split; [intros ->; done|]. intros c Hc. by apply lot_id_plain.
Qed.

Lemma concat_inj c ids ids' : Forall (λ i, i ≠ "" ∧ contains_char i c = false) ids →
  Forall (λ i, i ≠ "" ∧ contains_char i c = false) ids' →
  String.concat (String c "") ids = String.concat (String c "") ids' → ids = ids'.
Proof.
  intros Hids. revert ids'. induction Hids as [|i ids [Hne Hi] Hids IH]; intros ids' Hids' E.
  - destruct Hids' as [|j ids' [Hj _] _]; [done|]. destruct ids', j; done.
  - destruct Hids' as [|j ids' [Hnj Hj] Hids']; [destruct ids, i; done|].
    destruct ids as [|i2 ids], ids' as [|j2 ids'].
    + simpl in E. by subst.
    + exfalso. cbn [String.concat] in E. rewrite E, contains_char_app in Hi. simpl in Hi.
      by rewrite Ascii.eqb_refl, orb_true_r in Hi.
    + exfalso. cbn [String.concat] in E. rewrite <- E, contains_char_app in Hj. simpl in Hj.
      by rewrite Ascii.eqb_refl, orb_true_r in Hj.
    + change (i +:+ String c (String.concat (String c "") (i2 :: ids)) =
              j +:+ String c (String.concat (String c "") (j2 :: ids'))) in E.
      apply field_inj in E as [-> E]; [|done..]. f_equal. by apply IH.
Qed.

Lemma concat_cons2 sep a b l : String.concat sep (a :: b :: l) = a +:+ sep +:+ String.concat sep (b :: l).
Proof. done. Qed.

Lemma concat_plain c sep ids : contains_char sep c = false → Forall (λ i, contains_char i c = false) ids →
  contains_char (String.concat sep ids) c = false.
Proof.
  intros Hs. induction 1 as [|i ids Hi Hids IH]; [done|]. destruct ids; [done|]. rewrite concat_cons2.
  by rewrite !contains_char_app, Hi, Hs, IH.
Qed.

Lemma lots_plain ids c : areInputCoinLotIdsStructurallyValid ids = true → contains_char lot_delimiters c = true →
  contains_char "[,]" c = false → contains_char (serializeInputCoinLotIds ids) c = false.
Proof.
  intros Hv Hc Hb. unfold serializeInputCoinLotIds. simpl in Hb. rewrite !contains_char_app. simpl.
  apply orb_false_iff in Hb as [H1 [H2 [H3 _]%orb_false_iff]%orb_false_iff]. rewrite H1, H3. simpl. rewrite orb_false_r.
  apply concat_plain; [by simpl; rewrite H2|]. eapply Forall_impl; [by apply lot_ids_plain|]. intros i [_ Hi]. by apply Hi.
Qed.

Lemma lots_inj ids ids' : areInputCoinLotIdsStructurallyValid ids = true → areInputCoinLotIdsStructurallyValid ids' = true →
  serializeInputCoinLotIds ids = serializeInputCoinLotIds ids' → ids = ids'.
Proof.
  intros Hv Hv'. unfold serializeInputCoinLotIds. intros [= E].
  assert (∀ l, areInputCoinLotIdsStructurallyValid l = true → contains_char (String.concat "," l) "]" = false) as Hp.
  { intros l Hl. apply concat_plain; [done|]. eapply Forall_impl; [by apply lot_ids_plain|]. intros i [_ Hi]. by apply Hi. }
  apply field_inj in E as [E _]; [|by apply Hp..].
  apply (concat_inj ","); [..|exact E]; (eapply Forall_impl; [by apply lot_ids_plain|]; intros i [Hn Hi]; split; [done|by apply Hi]).
Qed.

Lemma data_inj d d' : encodeTransactionData d = encodeTransactionData d' → d ≠ "" → d' ≠ "" → d = d'.
Proof.
  unfold encodeTransactionData. intros E Hd Hd'. rewrite !(proj2 (empty_string_false _)) in E by done.
  apply EncodingFacts.of_string_inj.
  assert (Hex.decodePairs (Hex.hexEncode (Bytes.of_string d)) = Hex.decodePairs (Hex.hexEncode (Bytes.of_string d'))) as E'
    by (by rewrite E).
  rewrite !CryptoFacts.hexEncode_decode in E' by apply EncodingFacts.of_string_bytes. by injection E' as ->.
Qed.

Lemma data_plain d c : Address.is_lower_hex c = false → contains_char (encodeTransactionData d) c = false.
Proof.
  intros Hc. unfold encodeTransactionData. case_match; [done|].
  eapply Text.all_chars_contains; [|exact Hc]. apply CryptoFacts.hexEncode_lower, EncodingFacts.of_string_bytes.
Qed.

(** ** The signing payload determines the transaction *)

Record plain (tx : Transaction) : Prop := {
  plain_from : isSafeTransactionAddress (Transaction.fromAddress tx) = true;
  plain_to : isSafeTransactionAddress (Transaction.toAddress tx) = true;
  plain_lots : areInputCoinLotIdsStructurallyValid (Transaction.inputCoinLotIds tx) = true;
  plain_chain : Transaction.chainId tx = "" ∨ isSafeTransactionAddress (Transaction.chainId tx) = true;
}.

(** The end of the payload, from the timestamp on. *)
Definition closing (tx : Transaction) : string :=
  to_string (Transaction.timestamp tx) +:+
  (if empty_string (Transaction.chainId tx) then "" else ";chainId=" +:+ Transaction.chainId tx) +:+ "}".

Definition ending (tx : Transaction) : string :=
  "nonce=" +:+ to_string (Transaction.nonce tx) +:+ ";timestamp=" +:+ closing tx.

(** The optional fields and what follows, after the semicolon. *)
Definition withData (tx : Transaction) : string :=
  if empty_string (Transaction.data tx) then ending tx
  else "dataHex=" +:+ encodeTransactionData (Transaction.data tx) +:+ ";" +:+ ending tx.
Definition withLots (tx : Transaction) : string :=
  if bool_decide (Transaction.inputCoinLotIds tx = []) then withData tx
  else "inputLots=" +:+ serializeInputCoinLotIds (Transaction.inputCoinLotIds tx) +:+ ";" +:+ withData tx.

Lemma payload_parts tx : signingPayload tx =
  "TransactionPayload{type=" +:+ transactionTypeToString (Transaction.type tx) +:+
  ";from=" +:+ Transaction.fromAddress tx +:+ ";to=" +:+ Transaction.toAddress tx +:+
  ";amountRaw=" +:+ to_string (Transaction.amount tx) +:+ ";feeRaw=" +:+ to_string (Transaction.fee tx) +:+
  ";" +:+ withLots tx.
Proof.
  unfold signingPayload, withLots, withData, ending, closing.
  destruct (bool_decide (Transaction.inputCoinLotIds tx = [])), (empty_string (Transaction.data tx)); rewrite ?string_app_assoc; done.
Qed.

Lemma closing_inj tx tx' : plain tx → plain tx' → closing tx = closing tx' →
  Transaction.timestamp tx = Transaction.timestamp tx' ∧ Transaction.chainId tx = Transaction.chainId tx'.
Proof.
  intros Hp Hp'. unfold closing.
  destruct (empty_string (Transaction.chainId tx)) eqn:E1, (empty_string (Transaction.chainId tx')) eqn:E2.
  - apply empty_string_true in E1 as ->. apply empty_string_true in E2 as ->. intros E.
    apply field_inj in E as [E _]; [|by apply to_string_plain..]. by apply to_string_inj in E.
  - intros E. assert (contains_char (to_string (Transaction.timestamp tx) +:+ "" +:+ "}") ";" = false) as Hc
      by (rewrite contains_char_app, to_string_plain; done).
    rewrite E, contains_char_app, orb_true_r in Hc. done.
  - intros E. assert (contains_char (to_string (Transaction.timestamp tx') +:+ "" +:+ "}") ";" = false) as Hc
      by (rewrite contains_char_app, to_string_plain; done).
    rewrite <- E, contains_char_app, orb_true_r in Hc. done.
  - intros E. apply field_inj in E as [Ets E]; [|by apply to_string_plain..].
    apply to_string_inj in Ets. split; [done|]. injection E as E.
    apply empty_string_false in E1. apply empty_string_false in E2.
    destruct (plain_chain _ Hp) as [?|H1]; [done|]. destruct (plain_chain _ Hp') as [?|H2]; [done|].
    apply field_inj in E as [-> _]; [done|by apply address_plain..].
Qed.

Lemma number_field_inj a b x y : to_string a +:+ String ";" x = to_string b +:+ String ";" y → a = b ∧ x = y.
Proof. intros [E ->]%field_inj; [|by apply to_string_plain..]. split; [|done]. by apply to_string_inj. Qed.

Lemma ending_inj tx tx' : plain tx → plain tx' → ending tx = ending tx' →
  Transaction.nonce tx = Transaction.nonce tx' ∧ Transaction.timestamp tx = Transaction.timestamp tx' ∧
  Transaction.chainId tx = Transaction.chainId tx'.
Proof.
  intros Hp Hp' E. injection E as E. apply number_field_inj in E as [En E]. split; [done|]. injection E as E. by apply closing_inj.
Qed.

Lemma withData_inj tx tx' : plain tx → plain tx' → withData tx = withData tx' →
  Transaction.data tx = Transaction.data tx' ∧ ending tx = ending tx'.
Proof.
  intros Hp Hp'. unfold withData.
  destruct (empty_string (Transaction.data tx)) eqn:E1, (empty_string (Transaction.data tx')) eqn:E2.
  - apply empty_string_true in E1 as ->. by apply empty_string_true in E2 as ->.
  - discriminate.
  - discriminate.
  - intros E. injection E as E. apply field_inj in E as [E ->]; [|by apply data_plain..].
    apply empty_string_false in E1. apply empty_string_false in E2. split; [|done]. by apply data_inj.
Qed.

Lemma withLots_inj tx tx' : plain tx → plain tx' → withLots tx = withLots tx' →
  Transaction.inputCoinLotIds tx = Transaction.inputCoinLotIds tx' ∧ withData tx = withData tx'.
Proof.
  intros Hp Hp'. unfold withLots. pose proof (plain_lots _ Hp) as Hl. pose proof (plain_lots _ Hp') as Hl'.
  assert (∀ t s, withData t ≠ "inputLots=" +:+ s) as Hd by (intros t s; unfold withData; case_match; discriminate).
  do 2 case_bool_decide; [by intros ->; split; [congruence|]|intros E; by apply Hd in E|intros E; symmetry in E; by apply Hd in E|].
  intros E. apply (inj (String.append "inputLots=")) in E. apply field_inj in E as [E ->]; [|by apply lots_plain..]. split; [|done]. by apply lots_inj.
Qed.

Lemma payload_inj tx tx' : plain tx → plain tx' → signingPayload tx = signingPayload tx' → set_id "" tx = set_id "" tx'.
Proof.
  intros Hp Hp'. rewrite !payload_parts. intros E. injection E as E.
  apply field_inj in E as [Ety%type_inj E]; [|by apply type_plain; left..]. injection E as E.
  apply field_inj in E as [Efrom E]; [|by apply address_plain; [apply plain_from|]..]. injection E as E.
  apply field_inj in E as [Eto E]; [|by apply address_plain; [apply plain_to|]..]. injection E as E.
  apply number_field_inj in E as [Eamount E]. injection E as E.
  apply number_field_inj in E as [Efee E].
  apply withLots_inj in E as [Elots E]; [|done..]. apply withData_inj in E as [Edata E]; [|done..].
  apply ending_inj in E as (Enonce & Ets & Echain); [|done..]. unfold set_id. by f_equal.
Qed.
End TransactionFacts.

(** ** Transactions as the constructors and setters build them *)

Module BuiltTransactions.
Import SignedTx TransactionFacts.
Section built.
Context `{Sha256}.

Inductive built : SignedTx.t → Prop :=
| built_lots ty from to amount fee nonce timestamp inputs tx :
    make ty from to amount fee nonce timestamp inputs = Ok tx → built tx
| built_data ty from to amount fee nonce timestamp data tx :
    makeWithData ty from to amount fee nonce timestamp data = Ok tx → built tx
| built_chain chainId tx : built tx → built (withChainId chainId tx).2
| built_signed b tx : built tx → built (attachSignatureBundle b tx).2.

Lemma payload_ignores_id i tx : signingPayload (set_id i tx) = signingPayload tx.
Proof. done. Qed.

Lemma with_id_consistent p : Transaction.id (with_id p) = computeTransactionIdFromPayload (signingPayload (with_id p)).
Proof. unfold with_id at 2. rewrite payload_ignores_id. exact eq_refl. Qed.

(** What every built transaction satisfies. *)
Definition consistent (tx : SignedTx.t) : Prop :=
  Transaction.id (payload tx) = computeTransactionIdFromPayload (signingPayload (payload tx)) ∧
  (Transaction.chainId (payload tx) = "" ∨ isSafeTransactionAddress (Transaction.chainId (payload tx)) = true).

Lemma built_consistent tx : built tx → consistent tx.
Proof.
  induction 1 as [??????????E|??????????E|c tx _ IH|b tx _ IH].
  - unfold make in E. inv_ok. split; [apply with_id_consistent|left; exact eq_refl].
  - unfold makeWithData in E. inv_ok. split; [apply with_id_consistent|left; exact eq_refl].
  - unfold withChainId. destruct (bundle tx); [exact IH|].
    destruct (isSafeTransactionAddress c) eqn:Hc; cbn [negb]; [|exact IH]. split; [apply with_id_consistent|right; exact Hc].
  - unfold attachSignatureBundle. case_bool_decide; [exact IH|]. destruct (bundle tx); exact IH.
Qed.

Lemma valid_plain policy context tx : consistent tx → isStructurallyValid policy context tx = true → plain (payload tx).
Proof.
  intros [_ Hc]. unfold isStructurallyValid. intros Hv. repeat (case_match; [discriminate|]).
  repeat match goal with E : _ || _ = false |- _ => apply orb_false_iff in E as [? ?] end.
  repeat match goal with E : negb _ = false |- _ => apply negb_false_iff in E end.
  constructor; assumption.
Qed.

(** The signatures [s :: l] are all of one key, which derives the sender's address, and
    verify over the signing payload. *)
Record signed_by_sender (policy : CryptoPolicy) (context : SecurityContext) (provider : SignatureProvider)
    (tx : Transaction) (s : Signature) (l : list Signature) : Prop := {
  signed_algorithm : PublicKey.algorithm (Signature.publicKey s) = provider_algorithm provider;
  signed_one_key : ∀ s', s' ∈ s :: l → PublicKey.serialize (Signature.publicKey s') = PublicKey.serialize (Signature.publicKey s);
  signed_address : Address.isValid (Transaction.fromAddress tx) = true;
  signed_key_valid : PublicKey.isValid (Signature.publicKey s) = true;
  signed_derives : AddressDerivation.deriveFromPublicKey (Signature.publicKey s) = Ok (Transaction.fromAddress tx);
  signed_verifies : SignatureBundle.verifyForPolicy (s :: l) (signingPayload tx) policy context provider = true;
}.

Lemma bundle_authorized policy context provider tx s l :
  (let key := Signature.publicKey s in
   if negb (bool_decide (PublicKey.algorithm key = provider_algorithm provider)) then Ok false
   else if negb (forallb (λ s', String.eqb (PublicKey.serialize (Signature.publicKey s')) (PublicKey.serialize key)) (s :: l)) then Ok false
   else if negb (Address.isValid (Transaction.fromAddress tx)) then Ok false
   else
     owner ← AddressDerivation.verifyAddressForPublicKey (Transaction.fromAddress tx) key;
     if negb owner then Ok false
     else Ok (SignatureBundle.verifyForPolicy (s :: l) (signingPayload tx) policy context provider)) = Ok true ↔
  signed_by_sender policy context provider tx s l.
Proof.
  cbv zeta. set (check := forallb _ _).
  assert (check = true ↔ ∀ s', s' ∈ s :: l → PublicKey.serialize (Signature.publicKey s') = PublicKey.serialize (Signature.publicKey s)) as Hcheck.
  { unfold check. rewrite forallb_forall. split; intros Hk s' Hs'; [apply String.eqb_eq, Hk; by apply list_elem_of_In|].
    apply String.eqb_eq, Hk. by apply list_elem_of_In. }
  clearbody check. unfold AddressDerivation.verifyAddressForPublicKey. split.
  - intros E. case_bool_decide; cbn [negb] in E; [|discriminate]. destruct check; cbn [negb] in E; [|discriminate].
    destruct (Address.isValid (Transaction.fromAddress tx)) eqn:Hvalid; cbn [negb] in E; [|discriminate].
    destruct (PublicKey.isValid (Signature.publicKey s)) eqn:Hkey; cbn [negb mbind result_bind] in E; [|discriminate].
    destruct (AddressDerivation.deriveFromPublicKey (Signature.publicKey s)) as [derived|e] eqn:Hd; cbn [mbind result_bind] in E; [|discriminate].
    destruct (String.eqb_spec (Transaction.fromAddress tx) derived) as [Ed|]; cbn [negb] in E; [|discriminate].
    injection E as E. rewrite <- Ed in Hd. constructor; [assumption|by apply Hcheck|assumption..].
  - intros [H1 H2%Hcheck H3 H4 H5 H6]. rewrite bool_decide_eq_true_2 by exact H1. rewrite H2, H3, H4, H5. cbn [negb mbind result_bind].
    rewrite String.eqb_refl. cbn [negb]. by rewrite H6.
Qed.
End built.
End BuiltTransactions.

Module TransactionProperties.
Import SafeScalar SignedTx TransactionFacts BuiltTransactions.

(** C29. A signature cannot be moved to another transaction: two transactions built by
    the constructors and setters that are structurally valid and have the same signing
    payload are the same transaction, id included. *)
Theorem signatures_bind_transactions `{Sha256} (policy : CryptoPolicy) (context : SecurityContext) (a b : SignedTx.t)
    (Ha : built a) (Hb : built b) (Hva : isStructurallyValid policy context a = true)
    (Hvb : isStructurallyValid policy context b = true)
    (E : signingPayload (payload a) = signingPayload (payload b)) : payload a = payload b.
Proof.
  pose proof (built_consistent _ Ha) as Ca. pose proof (built_consistent _ Hb) as Cb.
  pose proof (payload_inj _ _ (valid_plain _ _ _ Ca Hva) (valid_plain _ _ _ Cb Hvb) E) as Ep.
  destruct Ca as [Ia _], Cb as [Ib _]. rewrite <- E, <- Ia in Ib. revert Ep Ib.
  generalize (payload a), (payload b). intros [] []. unfold set_id. simpl. intros [=] ->. by subst.
Qed.

(** Authorization, on every branch: a user transaction is authorized for a chain
    exactly when it is structurally valid, names that chain, and carries a non-empty
    bundle of signatures, all of one key of the provider's algorithm that derives the
    sender's address, each of which verifies over the signing payload. *)
Theorem transaction_authorized_iff `{Sha256} (chain : string) (policy : CryptoPolicy) (context : SecurityContext)
    (provider : SignatureProvider) (tx : SignedTx.t) (Huser : requiresUserSignature (Transaction.type (payload tx)) = true) :
  verifyAuthorization chain policy context provider tx = Ok true ↔
  chain ≠ "" ∧ Transaction.chainId (payload tx) = chain ∧ isStructurallyValid policy context tx = true ∧
  ∃ s l, bundle tx = Some (s :: l) ∧ signed_by_sender policy context provider (payload tx) s l.
Proof.
  unfold verifyAuthorization. rewrite Huser. cbn [negb].
  destruct (empty_string chain) eqn:Hchain; cbn [orb].
  { apply empty_string_true in Hchain. split; [discriminate|]. intros [? _]. congruence. }
  apply empty_string_false in Hchain.
  destruct (String.eqb_spec (Transaction.chainId (payload tx)) chain) as [Ec|Ec]; cbn [negb orb];
    [|split; [discriminate|]; intros (_ & ? & _); congruence].
  destruct (isStructurallyValid policy context tx); cbn [negb orb]; [|split; [discriminate|]; intros (_ & _ & ? & _); congruence].
  destruct (bundle tx) as [[|s l]|]; try (split; [discriminate|]; intros (_ & _ & _ & s & l & E & _); discriminate).
  rewrite (bundle_authorized policy context provider (payload tx) s l). split.
  - intros Hs. split_and!; [assumption|assumption|reflexivity|]. exists s, l. split; [reflexivity|exact Hs].
  - intros (_ & _ & _ & s2 & l2 & [= <- <-] & Hs). exact Hs.
Qed.

(** The id of a transaction does not cover what follows a NUL character: two
    transactions with the same type, sender and recipient have the same id, whatever
    their amounts, fees and nonces, when the recipient contains a NUL, which the
    address check accepts. *)
Theorem transaction_id_stops_at_nul `{Sha256} (a b : Transaction)
    (Etype : Transaction.type a = Transaction.type b) (Efrom : Transaction.fromAddress a = Transaction.fromAddress b)
    (Eto : Transaction.toAddress a = Transaction.toAddress b) (Hnul : contains_char (Transaction.toAddress a) "000" = true) :
  computeTransactionIdFromPayload (signingPayload a) = computeTransactionIdFromPayload (signingPayload b).
Proof.
  unfold computeTransactionIdFromPayload, Hash.hashCString. apply (f_equal Hash.nodo_hash_string). unfold signingPayload. rewrite <- Etype, <- Efrom, <- Eto.
  apply c_str_app_tail, c_str_app_tail, c_str_app_tail, c_str_app_tail, c_str_app_tail, c_str_cut, Hnul.
Qed.

#[local] Instance toy : Sha256 := CryptoProperties.toy_sha256.

Definition wallet_key : PublicKey := PublicKey.mk CLASSIC_ED25519 (Hex.hexEncode (replicate 32 7)).
Definition sample_sender : string :=
  match AddressDerivation.deriveFromPublicKey wallet_key with Ok a => a | Throw _ => "" end.
Definition sample_signature (at_ : Z) : Signature :=
  Signature.mk NODO_CRYPTO_SUITE_V1 DOMAIN_USER_TRANSACTION CLASSIC_ED25519 wallet_key "ab" at_.
Definition accepting_provider : SignatureProvider :=
  {| provider_algorithm := CLASSIC_ED25519; provider_verify := λ _ _, true |}.
Definition strict_policy : CryptoPolicy := {| developmentMode := false |}.

(** A transfer of [amount] to [to], signed for chain "c". *)
Definition sample_transfer (to : string) (amount at_ : Z) : SignedTx.t :=
  match make TRANSFER sample_sender to amount 2 1 9 ["lot_1"] with
  | Ok tx => (attachSignatureBundle [sample_signature at_] (withChainId "c" tx).2).2
  | Throw _ => SignedTx.mk (Transaction.mk "" TRANSFER "" "" 0 0 0 0 [] "" "") None
  end.

Lemma sample_built to amount at_ : built (sample_transfer to amount at_).
Proof.
  unfold sample_transfer. destruct (make _ _ _ _ _ _ _ _) as [tx|e] eqn:E.
  - apply built_signed, built_chain. exact (built_lots _ _ _ _ _ _ _ _ _ E).
  - vm_compute in E. discriminate.
Qed.

Lemma signatures_bind_transactions_witness :
  payload (sample_transfer "bob" 5 9) = payload (sample_transfer "bob" 5 10).
Proof.
  apply (signatures_bind_transactions strict_policy USER_TRANSACTION); [apply sample_built|apply sample_built|
    vm_compute; reflexivity|vm_compute; reflexivity|reflexivity].
Defined.

Lemma transaction_authorized_iff_witness :
  verifyAuthorization "c" strict_policy USER_TRANSACTION accepting_provider (sample_transfer "bob" 5 9) = Ok true ∧
  ∃ s l, bundle (sample_transfer "bob" 5 9) = Some (s :: l).
Proof.
  assert (verifyAuthorization "c" strict_policy USER_TRANSACTION accepting_provider (sample_transfer "bob" 5 9) = Ok true) as Hv
    by (vm_compute; reflexivity).
  split; [exact Hv|].
  apply transaction_authorized_iff in Hv as (_ & _ & _ & s & l & E & _); [|vm_compute; reflexivity].
  exists s, l. exact E.
Defined.

(** A recipient with a NUL character: both transfers are structurally valid. *)
Definition nul_recipient : string := String.append "bob" (String "000" "").

Lemma transaction_id_stops_at_nul_witness :
  isStructurallyValid strict_policy USER_TRANSACTION (sample_transfer nul_recipient 5 9) = true ∧
  isStructurallyValid strict_policy USER_TRANSACTION (sample_transfer nul_recipient 1000000 9) = true ∧
  computeTransactionIdFromPayload (signingPayload (payload (sample_transfer nul_recipient 5 9))) =
  computeTransactionIdFromPayload (signingPayload (payload (sample_transfer nul_recipient 1000000 9))).
Proof.
  split; [vm_compute; reflexivity|]. split; [vm_compute; reflexivity|].
  apply transaction_id_stops_at_nul; vm_compute; reflexivity.
Defined.
End TransactionProperties.
