(* ===== verification/Mempool.v ===== *)
(** * mempool: the queue of pending transactions

    Models src/src/mempool/Mempool.cpp: the configuration, admission with replacement
    by fee and eviction, removal, pruning, the selection of transactions for a block and
    the consistency check.  The two [std::map] of the class are maps iterated in key
    order.  The eviction loop and the selection loops carry fuel one above the number of
    entries; [planEvictions_ok] and [selectLoop_ok] show that it is never used up. *)

From S2P Require Import Prelude Utils CoinLots CoinLotTransfer Crypto LedgerState Transactions.

Module Config.
Record t := mk {
  maxTransactions : Z;
  minimumFeeRaw : Z;
  replaceByHigherFee : bool;
  maxTransactionAgeSeconds : Z;
  maxMempoolSizeBytes : Z;
  maxTransactionSizeBytes : Z;
}.

Definition default : t := mk 5000 0 true 3600 (50 * 1024 * 1024) 131072.

Definition isValid (c : t) : bool :=
  (0 <? maxTransactions c) && (0 <=? minimumFeeRaw c) && (0 <? maxTransactionAgeSeconds c) &&
  (0 <? maxMempoolSizeBytes c) && (0 <? maxTransactionSizeBytes c).
End Config.

Module Entry.
Record t := mk { transaction : SignedTx.t; acceptedAt : Z }.

Definition priorityFeeRaw (e : t) : Z := SignedTx.fee (transaction e).
Definition senderNonceKey (e : t) : string :=
  SignedTx.fromAddress (transaction e) +:+ "#" +:+ to_string (SignedTx.nonce (transaction e)).
Definition isValid `{Sha256} (policy : CryptoPolicy) (context : SecurityContext) (e : t) : bool :=
  if acceptedAt e <=? 0 then false else SignedTx.isStructurallyValid policy context (transaction e).
(** [entry.transaction().serialize().size()] *)
Definition bytes `{Sha256} (e : t) : Z := string_size (SignedTx.serialize (transaction e)).
End Entry.

(** [MempoolAdmissionStatus] and [MempoolAdmissionResult] *)
Module Admission.
Inductive Status :=
| ACCEPTED | DUPLICATE | REPLACED | INVALID_CONFIG | INVALID_TRANSACTION | FEE_TOO_LOW
| CAPACITY_REACHED | CONFLICTING_NONCE | TRANSACTION_TOO_LARGE.
#[global] Instance Status_eq_dec : EqDecision Status.
Proof. solve_decision. Defined.

Definition mempoolAdmissionStatusToString (s : Status) : string :=
  match s with
  | ACCEPTED => "ACCEPTED"
  | DUPLICATE => "DUPLICATE"
  | REPLACED => "REPLACED"
  | INVALID_CONFIG => "INVALID_CONFIG"
  | INVALID_TRANSACTION => "INVALID_TRANSACTION"
  | FEE_TOO_LOW => "FEE_TOO_LOW"
  | CAPACITY_REACHED => "CAPACITY_REACHED"
  | CONFLICTING_NONCE => "CONFLICTING_NONCE"
  | TRANSACTION_TOO_LARGE => "TRANSACTION_TOO_LARGE"
  end.

Record t := mk { status : Status; reason : string; transactionId : string; replacedTransactionId : string }.

Definition uninitialized : string := "Uninitialized mempool admission result.".
Definition accepted (id : string) : t := mk ACCEPTED uninitialized id "".
Definition duplicate (id : string) : t := mk DUPLICATE "Transaction already exists in mempool." id "".
Definition replaced (id old : string) : t := mk REPLACED uninitialized id old.
Definition rejected (s : Status) (reason : string) : t := mk s reason "" "".
Definition success (r : t) : bool :=
  bool_decide (status r = ACCEPTED) || bool_decide (status r = DUPLICATE) || bool_decide (status r = REPLACED).
Definition serialize (r : t) : string :=
  "MempoolAdmissionResult{status=" +:+ mempoolAdmissionStatusToString (status r) +:+ ";reason=" +:+ reason r +:+
  ";transactionId=" +:+ transactionId r +:+ ";replacedTransactionId=" +:+ replacedTransactionId r +:+ "}".
End Admission.

Module Mempool.
Import Entry.
Record t := mk {
  config : Config.t;
  entriesById : gmap string Entry.t;
  transactionIdBySenderNonce : gmap string string;
  currentMempoolSizeBytes : Z;
}.

Definition make (config : Config.t) : t := mk config ∅ ∅ 0.

(** [std::map::emplace] keeps an entry that is there. *)
Definition emplace {V} (k : string) (v : V) (m : gmap string V) : gmap string V :=
  match m !! k with Some _ => m | None => <[k := v]> m end.

Definition REPLACEMENT_NUMERATOR : Z := 110.
Definition REPLACEMENT_DENOMINATOR : Z := 100.

(** The products and sums are of [__int128] and stay in its range. *)
Definition minimumReplacementFee (existingFeeRaw : Z) : Z :=
  if existingFeeRaw <? 0 then i64_max
  else
    let numerator := existingFeeRaw * REPLACEMENT_NUMERATOR in
    let roundedUp := Z.quot (numerator + REPLACEMENT_DENOMINATOR - 1) REPLACEMENT_DENOMINATOR in
    let strictlyHigher := existingFeeRaw + 1 in
    let required := Z.max roundedUp strictlyHigher in
    if i64_max <? required then i64_max else required.

Definition contains (id : string) (m : t) : bool := bool_decide (is_Some (entriesById m !! id)).
Definition entry (id : string) (m : t) : option Entry.t := entriesById m !! id.

Section mempool.
Context `{Sha256}.

Definition removeIndexesForEntry (e : Entry.t) (m : t) : t :=
  mk (config m) (entriesById m) (delete (senderNonceKey e) (transactionIdBySenderNonce m)) (currentMempoolSizeBytes m).

Definition removeTransaction (id : string) (m : t) : bool * t :=
  match entriesById m !! id with
  | None => (false, m)
  | Some e =>
      let m := mk (config m) (entriesById m) (transactionIdBySenderNonce m) (wrap64 (currentMempoolSizeBytes m - bytes e)) in
      let m := removeIndexesForEntry e m in
      (true, mk (config m) (delete id (entriesById m)) (transactionIdBySenderNonce m) (currentMempoolSizeBytes m))
  end.

(** [for (id : ids) removeTransaction(id);] *)
Definition removeAll (ids : list string) (m : t) : t := foldl (λ m id, (removeTransaction id m).2) m ids.

Definition senderNonceKey (tx : SignedTx.t) : string :=
  SignedTx.fromAddress tx +:+ "#" +:+ to_string (SignedTx.nonce tx).

(** The checks of [admitTransaction] before the nonce index is read. *)
Definition entryCheck (tx : SignedTx.t) (policy : CryptoPolicy) (context : SecurityContext) (acceptedAt : Z) (m : t) : option Admission.t :=
  let incomingSize := string_size (SignedTx.serialize tx) in
  if negb (Config.isValid (config m)) then
    Some (Admission.rejected Admission.INVALID_CONFIG "Mempool configuration is invalid.")
  else if acceptedAt <=? 0 then
    Some (Admission.rejected Admission.INVALID_TRANSACTION "Mempool acceptedAt timestamp must be positive.")
  else if negb (SignedTx.isStructurallyValid policy context tx) then
    Some (Admission.rejected Admission.INVALID_TRANSACTION "Transaction failed structural or policy validation.")
  else if negb (TypePolicy.isMempoolType (SignedTx.type tx)) then
    Some (Admission.rejected Admission.INVALID_TRANSACTION "Transaction type is not user-submittable.")
  else if SignedTx.fee tx <? Config.minimumFeeRaw (config m) then
    Some (Admission.rejected Admission.FEE_TOO_LOW "Transaction fee is below mempool minimum.")
  else if 1000000000000 <? SignedTx.fee tx then
    Some (Admission.rejected Admission.INVALID_TRANSACTION "Transaction fee is absurdly high (Fat-Finger protection limit).")
  else if String.eqb (SignedTx.fromAddress tx) (SignedTx.toAddress tx) then
    Some (Admission.rejected Admission.INVALID_TRANSACTION "Self-transfers are not allowed.")
  else if contains (SignedTx.id tx) m then Some (Admission.duplicate (SignedTx.id tx))
  else if Config.maxTransactionSizeBytes (config m) <? incomingSize then
    Some (Admission.rejected Admission.TRANSACTION_TOO_LARGE "Transaction size exceeds maximum transaction size limit.")
  else if Config.maxMempoolSizeBytes (config m) <? incomingSize then
    Some (Admission.rejected Admission.CAPACITY_REACHED "Transaction size exceeds maximum mempool capacity.")
  else None.

(** The transaction that is replaced, with its size, or a refusal. *)
Definition replacementOf (tx : SignedTx.t) (m : t) : Admission.t + option (string * Z) :=
  match transactionIdBySenderNonce m !! senderNonceKey tx with
  | None => inr None
  | Some replacedTransactionId =>
      match entriesById m !! replacedTransactionId with
      | None => inl (Admission.rejected Admission.INVALID_TRANSACTION "Mempool nonce index is inconsistent.")
      | Some existing =>
          if negb (Config.replaceByHigherFee (config m)) then
            inl (Admission.rejected Admission.CONFLICTING_NONCE
              "Another transaction with the same sender nonce is already in mempool.")
          else if SignedTx.fee tx <? minimumReplacementFee (priorityFeeRaw existing) then
            inl (Admission.rejected Admission.CONFLICTING_NONCE
              "Replacement transaction must pay at least 10% more than the existing fee.")
          else inr (Some (replacedTransactionId, bytes existing))
      end
  end.

(** The cheapest entry found by one scan of the eviction loop. *)
Record Candidate := mkCandidate { lowestFeeTxId : string; lowestFee : Z; oldestAcceptedAt : Z; lowestFeeTxSize : Z }.

Definition consider (replacedTransactionId : string) (planned : gset string) (c : Candidate) (e : string * Entry.t) : Candidate :=
  if String.eqb e.1 replacedTransactionId || bool_decide (e.1 ∈ planned) then c
  else
    let fee := priorityFeeRaw e.2 in
    if (fee <? lowestFee c) || ((fee =? lowestFee c) && (acceptedAt e.2 <? oldestAcceptedAt c)) then
      mkCandidate e.1 fee (acceptedAt e.2) (bytes e.2)
    else c.

Definition cheapest (replacedTransactionId : string) (planned : gset string) (m : t) : Candidate :=
  foldl (consider replacedTransactionId planned) (mkCandidate "" i64_max i64_max 0) (entries (entriesById m)).

(** The eviction loop: the ids to evict, in order, or a refusal. *)
Fixpoint planEvictions (fuel : nat) (fee incomingSize : Z) (replacedTransactionId : string) (m : t) (projectedSize : Z)
    (planned : gset string) (order : list string) : result (Admission.t + list string) :=
  match fuel with
  | O => Throw OutOfFuel
  | S fuel =>
      if Config.maxMempoolSizeBytes (config m) <? wrap64 (projectedSize + incomingSize) then
        let c := cheapest replacedTransactionId planned m in
        if empty_string (lowestFeeTxId c) then
          Ok (inl (Admission.rejected Admission.CAPACITY_REACHED "Mempool cannot make enough room for incoming transaction."))
        else if fee <=? lowestFee c then
          Ok (inl (Admission.rejected Admission.FEE_TOO_LOW
            "Mempool is full and incoming transaction fee is too low to trigger eviction."))
        else
          planEvictions fuel fee incomingSize replacedTransactionId m (wrap64 (projectedSize - lowestFeeTxSize c))
            ({[ lowestFeeTxId c ]} ∪ planned) (order ++ [lowestFeeTxId c])
      else Ok (inr order)
  end.

(** The new entry and its index. *)
Definition store (tx : SignedTx.t) (acceptedAt : Z) (m : t) : t :=
  let e := Entry.mk tx acceptedAt in
  mk (config m) (emplace (SignedTx.id tx) e (entriesById m))
     (emplace (Entry.senderNonceKey e) (SignedTx.id tx) (transactionIdBySenderNonce m))
     (wrap64 (currentMempoolSizeBytes m + string_size (SignedTx.serialize tx))).

Definition admitTransaction (tx : SignedTx.t) (policy : CryptoPolicy) (context : SecurityContext) (acceptedAt : Z) : M t Admission.t := λ m,
  match entryCheck tx policy context acceptedAt m with
  | Some refused => (Ok refused, m)
  | None =>
      match replacementOf tx m with
      | inl refused => (Ok refused, m)
      | inr replacement =>
          if bool_decide (replacement = None) && (Config.maxTransactions (config m) <=? Z.of_nat (size (entriesById m))) then
            (Ok (Admission.rejected Admission.CAPACITY_REACHED "Mempool capacity reached."), m)
          else
            let replacedTransactionId := default "" (fst <$> replacement) in
            let replacedTransactionSize := default 0 (snd <$> replacement) in
            match planEvictions (S (size (entriesById m))) (SignedTx.fee tx) (string_size (SignedTx.serialize tx)) replacedTransactionId m
                    (wrap64 (currentMempoolSizeBytes m - replacedTransactionSize)) ∅ [] with
            | Throw e => (Throw e, m)
            | Ok (inl refused) => (Ok refused, m)
            | Ok (inr evictionOrder) =>
                let m := removeAll evictionOrder m in
                match replacement with
                | Some (old, _) =>
                    (Ok (Admission.replaced (SignedTx.id tx) old), store tx acceptedAt (removeTransaction old m).2)
                | None => (Ok (Admission.accepted (SignedTx.id tx)), store tx acceptedAt m)
                end
            end
      end
  end.

Definition pruneExpired (currentTime : Z) (m : t) : Z * t :=
  if currentTime <=? 0 then (0, m)
  else
    let expiredIds := (filter (λ e, acceptedAt e.2 < currentTime ∧
                         Config.maxTransactionAgeSeconds (config m) < currentTime - acceptedAt e.2) (entries (entriesById m))).*1 in
    (Z.of_nat (length expiredIds), removeAll expiredIds m).

Definition removeConflicting (sender : string) (upToNonce : Z) (m : t) : Z * t :=
  let conflictingIds := (filter (λ e, SignedTx.fromAddress (transaction e.2) = sender ∧
                           SignedTx.nonce (transaction e.2) ≤ upToNonce) (entries (entriesById m))).*1 in
  (Z.of_nat (length conflictingIds), removeAll conflictingIds m).

(** ** Selection for a block *)

(** Not after: a higher fee, then an earlier admission, then the smaller id. *)
Definition priority_le (left right : Entry.t) : Prop :=
  priorityFeeRaw right < priorityFeeRaw left ∨
  (priorityFeeRaw left = priorityFeeRaw right ∧
   (acceptedAt left < acceptedAt right ∨
    (acceptedAt left = acceptedAt right ∧ String.le (SignedTx.id (transaction left)) (SignedTx.id (transaction right))))).
#[global] Instance priority_le_dec : RelDecision priority_le.
Proof. intros l r. unfold priority_le. apply _. Defined.

Definition sortedEntriesByPriority (m : gmap string Entry.t) : list Entry.t := merge_sort priority_le (entries m).*2.

Definition transactionsForBlockAny (maxCount : Z) (m : t) : list SignedTx.t :=
  transaction <$> take (Z.to_nat maxCount) (sortedEntriesByPriority (entriesById m)).

(** One scan of the entries: the next executable transaction, and the nonce table. *)
Fixpoint scan (view : AccountStateView.t) (selected : gset string) (nonces : gmap string Z) (l : list Entry.t)
    : option SignedTx.t * gmap string Z :=
  match l with
  | [] => (None, nonces)
  | e :: l =>
      let tx := transaction e in
      let sender := SignedTx.fromAddress tx in
      if bool_decide (SignedTx.id tx ∈ selected) then scan view selected nonces l
      else
        let known := match nonces !! sender with
                     | Some n => Some (n, nonces)
                     | None =>
                         let n := AccountState.nonce (AccountStateView.accountOrDefault view sender) in
                         if n =? u64_max then None else Some (n + 1, <[sender := n + 1]> nonces)
                     end in
        match known with
        | None => scan view selected nonces l
        | Some (n, nonces) =>
            if negb (SignedTx.nonce tx =? n) then scan view selected nonces l
            else (Some tx, <[sender := wrap64 (n + 1)]> nonces)
        end
  end.

(** The loop over scans. *)
Fixpoint selectLoop (fuel : nat) (maxCount : Z) (view : AccountStateView.t) (l : list Entry.t) (selected : gset string)
    (nonces : gmap string Z) (txs : list SignedTx.t) : result (list SignedTx.t) :=
  match fuel with
  | O => Throw OutOfFuel
  | S fuel =>
      if Z.of_nat (length txs) <? maxCount then
        match scan view selected nonces l with
        | (None, _) => Ok txs
        | (Some tx, nonces) => selectLoop fuel maxCount view l ({[ SignedTx.id tx ]} ∪ selected) nonces (txs ++ [tx])
        end
      else Ok txs
  end.

Definition transactionsForBlock (maxCount : Z) (view : AccountStateView.t) (m : t) : result (list SignedTx.t) :=
  if (maxCount =? 0) || negb (AccountStateView.isValid view) then Ok []
  else
    let l := sortedEntriesByPriority (entriesById m) in
    selectLoop (S (S (length l))) maxCount view l ∅ ∅ [].

(** The scan of [transactionsForBlockByFee]; [count] is [transactions.size()]. *)
Fixpoint scanByFee (maxCount count : Z) (view : AccountStateView.t) (selected : gset string) (nonces : gmap string Z) (l : list Entry.t)
    : option SignedTx.t * gmap string Z :=
  match l with
  | [] => (None, nonces)
  | e :: l =>
      if maxCount <=? count then (None, nonces)
      else
        let tx := transaction e in
        let sender := SignedTx.fromAddress tx in
        if bool_decide (SignedTx.id tx ∈ selected) then scanByFee maxCount count view selected nonces l
        else
          let known := match nonces !! sender with
                       | Some n => Some (n, nonces)
                       | None =>
                           let n := AccountState.nonce (AccountStateView.accountOrDefault view sender) in
                           if n =? u64_max then None else Some (n + 1, <[sender := n + 1]> nonces)
                       end in
          match known with
          | None => scanByFee maxCount count view selected nonces l
          | Some (n, nonces) =>
              if negb (SignedTx.nonce tx =? n) then scanByFee maxCount count view selected nonces l
              else (Some tx, <[sender := wrap64 (n + 1)]> nonces)
          end
  end.

Fixpoint selectLoopByFee (fuel : nat) (maxCount : Z) (view : AccountStateView.t) (l : list Entry.t) (selected : gset string)
    (nonces : gmap string Z) (txs : list SignedTx.t) : result (list SignedTx.t) :=
  match fuel with
  | O => Throw OutOfFuel
  | S fuel =>
      if Z.of_nat (length txs) <? maxCount then
        match scanByFee maxCount (Z.of_nat (length txs)) view selected nonces l with
        | (None, _) => Ok txs
        | (Some tx, nonces) => selectLoopByFee fuel maxCount view l ({[ SignedTx.id tx ]} ∪ selected) nonces (txs ++ [tx])
        end
      else Ok txs
  end.

Definition transactionsForBlockByFee (maxCount : Z) (view : AccountStateView.t) (m : t) : result (list SignedTx.t) :=
  if (maxCount =? 0) || negb (AccountStateView.isValid view) then Ok []
  else
    let l := sortedEntriesByPriority (entriesById m) in
    selectLoopByFee (S (S (length l))) maxCount view l ∅ ∅ [].

(** ** Statistics and the consistency check *)

Record Stats := mkStats { totalCount : Z; highestFee : Amount; lowestFeeStat : Amount; averageFee : Amount; countPerSender : gmap string Z }.

Definition countBySender (address : string) (s : Stats) : Z := default 0 (countPerSender s !! address).

Definition stats (m : t) : Stats :=
  let l := entries (entriesById m) in
  if bool_decide (l = []) then mkStats 0 0 0 0 ∅
  else
    let highest := foldl (λ h e, if h <? priorityFeeRaw e.2 then priorityFeeRaw e.2 else h) i64_min l in
    let lowest := foldl (λ h e, if priorityFeeRaw e.2 <? h then priorityFeeRaw e.2 else h) i64_max l in
    let sum := foldl (λ s e, s + priorityFeeRaw e.2) 0 l in
    let counts := foldl (λ c e, <[SignedTx.fromAddress (transaction e.2) := default 0 (c !! SignedTx.fromAddress (transaction e.2)) + 1]> c) ∅ l in
    mkStats (Z.of_nat (size (entriesById m))) highest lowest (Z.quot sum (Z.of_nat (size (entriesById m)))) counts.

Definition isValid (policy : CryptoPolicy) (context : SecurityContext) (m : t) : bool :=
  if negb (Config.isValid (config m)) then false
  else if negb (Z.of_nat (size (entriesById m)) =? Z.of_nat (size (transactionIdBySenderNonce m))) then false
  else if Config.maxTransactions (config m) <? Z.of_nat (size (entriesById m)) then false
  else if negb (forallb (λ e, String.eqb e.1 (SignedTx.id (transaction e.2)) && Entry.isValid policy context e.2 &&
                  bool_decide (transactionIdBySenderNonce m !! Entry.senderNonceKey e.2 = Some e.1)) (entries (entriesById m))) then false
  else if negb (currentMempoolSizeBytes m =? foldl (λ s e, wrap64 (s + bytes e.2)) 0 (entries (entriesById m))) then false
  else if Config.maxMempoolSizeBytes (config m) <? currentMempoolSizeBytes m then false
  else true.
End mempool.
End Mempool.

(** ** The invariant of the pool *)

Module MempoolFacts.
Import Entry Mempool.
Section pool.
Context `{Sha256} (policy : CryptoPolicy) (context : SecurityContext).

Definition sound_entry (id : string) (e : Entry.t) : Prop :=
  SignedTx.id (transaction e) = id ∧ Entry.isValid policy context e = true ∧ priorityFeeRaw e ≤ 1000000000000.

Record wf (m : t) : Prop := {
  wf_config : Config.isValid (config m) = true;
  wf_limit : Config.maxMempoolSizeBytes (config m) ≤ i64_max;
  wf_entry : ∀ id e, entriesById m !! id = Some e → sound_entry id e;
  wf_index : ∀ k id, transactionIdBySenderNonce m !! k = Some id ↔
    ∃ e, entriesById m !! id = Some e ∧ Entry.senderNonceKey e = k;
  wf_count : Z.of_nat (size (entriesById m)) ≤ Config.maxTransactions (config m);
  wf_size : currentMempoolSizeBytes m = map_sum bytes (entriesById m);
  wf_bytes : currentMempoolSizeBytes m ≤ Config.maxMempoolSizeBytes (config m);
}.

Lemma bytes_nonneg e : 0 ≤ bytes e.
Proof. unfold bytes, string_size. lia. Qed.

Lemma wf_make c : Config.isValid c = true → Config.maxMempoolSizeBytes c ≤ i64_max → wf (make c).
Proof.
  intros Hc Hl. assert (0 < Config.maxTransactions c ∧ 0 < Config.maxMempoolSizeBytes c) as [? ?] by (unfold Config.isValid in Hc; lia).
  constructor; simpl; try done; [intros k id; rewrite lookup_empty; split; [done|by intros (e & He & _)]|rewrite map_size_empty; lia|lia].
Qed.

Lemma wf_sum_bounds m : wf m → 0 ≤ map_sum bytes (entriesById m) ≤ i64_max.
Proof.
  intros Hm. rewrite <- (wf_size m Hm). pose proof (wf_bytes m Hm). pose proof (wf_limit m Hm).
  rewrite (wf_size m Hm) in *. split; [apply map_sum_nonneg; apply bytes_nonneg|lia].
Qed.

(** The index and the entries have the same size. *)
Lemma wf_sizes m : wf m → size (transactionIdBySenderNonce m) = size (entriesById m).
Proof.
  intros Hm. rewrite <- !length_map_to_list, <- (length_fmap (λ p, (Entry.senderNonceKey p.2, p.1)) (map_to_list (entriesById m))).
  apply Permutation_length, NoDup_Permutation; [apply NoDup_map_to_list| |].
  - apply NoDup_fmap_2_strong; [|apply NoDup_map_to_list]. intros [i e] [i' e'] Hi%elem_of_map_to_list Hi'%elem_of_map_to_list [= Ek ->].
    f_equal. congruence.
  - intros [k i]. rewrite elem_of_map_to_list, (wf_index m Hm), list_elem_of_fmap. split.
    + intros (e & He & <-). exists (i, e). split; [done|]. by apply elem_of_map_to_list.
    + intros ([i' e] & [= -> ->] & He%elem_of_map_to_list). by exists e.
Qed.

Lemma remove_missing id m : entriesById m !! id = None → removeTransaction id m = (false, m).
Proof. intros Hn. unfold removeTransaction. by rewrite Hn. Qed.

Lemma remove_config id m : config (removeTransaction id m).2 = config m.
Proof. unfold removeTransaction. by destruct (entriesById m !! id). Qed.

Lemma remove_entries id m : entriesById (removeTransaction id m).2 = delete id (entriesById m).
Proof. unfold removeTransaction. destruct (entriesById m !! id) eqn:E; simpl; [done|]. by rewrite delete_id. Qed.

Lemma remove_wf id m : wf m → wf (removeTransaction id m).2.
Proof.
  intros Hm. destruct (entriesById m !! id) as [e|] eqn:E; [|by rewrite remove_missing].
  pose proof (wf_sum_bounds m Hm) as Hb. pose proof (bytes_nonneg e) as He.
  pose proof (map_sum_delete bytes _ _ _ E) as Hsum.
  assert (0 ≤ map_sum bytes (delete id (entriesById m))) by (apply map_sum_nonneg; apply bytes_nonneg).
  assert (wrap64 (currentMempoolSizeBytes m - bytes e) = map_sum bytes (delete id (entriesById m))) as Hw.
  { rewrite (wf_size m Hm), wrap64_id; [lia|]. unfold u64, u64_max, i64_max in *. lia. }
  pose proof (wf_config m Hm). pose proof (wf_limit m Hm). pose proof (wf_bytes m Hm). pose proof (wf_count m Hm).
  unfold removeTransaction. rewrite E. constructor; simpl; try done.
  - intros i e' [_ He']%lookup_delete_Some. by apply (wf_entry m Hm).
  - intros k i. rewrite lookup_delete_Some. setoid_rewrite lookup_delete_Some. rewrite (wf_index m Hm). split.
    + intros (Hk & e' & He' & <-). exists e'. split_and!; [|done|done]. intros <-. congruence.
    + intros (e' & [Hi He'] & <-). split; [|by exists e']. intros Ek.
      assert (transactionIdBySenderNonce m !! Entry.senderNonceKey e' = Some i) as Hk1 by (apply (wf_index m Hm); by exists e').
      assert (transactionIdBySenderNonce m !! Entry.senderNonceKey e = Some id) as Hk2 by (apply (wf_index m Hm); by exists e).
      congruence.
  - rewrite map_size_delete_Some by done. lia.
  - rewrite Hw, <- (wf_size m Hm) in *. lia.
Qed.

Lemma removeAll_wf ids m : wf m → wf (removeAll ids m).
Proof. unfold removeAll. revert m. induction ids as [|i ids IH]; intros m Hm; [done|]. simpl. by apply IH, remove_wf. Qed.

Lemma removeAll_config ids m : config (removeAll ids m) = config m.
Proof. unfold removeAll. revert m. induction ids as [|i ids IH]; intros m; [done|]. simpl. by rewrite IH, remove_config. Qed.

Lemma removeAll_lookup ids m i : entriesById (removeAll ids m) !! i = if decide (i ∈ ids) then None else entriesById m !! i.
Proof.
  unfold removeAll. revert m. induction ids as [|j ids IH]; intros m.
  - destruct (decide (i ∈ [])) as [Hi%elem_of_nil|]; done.
  - cbn [foldl]. rewrite IH, remove_entries. destruct (decide (i ∈ ids)) as [Hi|Hi].
    + by rewrite decide_True by (by right).
    + destruct (decide (i = j)) as [->|Hij]; [rewrite lookup_delete_eq, decide_True by (by left); done|].
      rewrite lookup_delete_ne by done. rewrite decide_False by (rewrite elem_of_cons; tauto). done.
Qed.

Lemma store_entries tx at_ m : entriesById m !! SignedTx.id tx = None →
  entriesById (store tx at_ m) = <[SignedTx.id tx := Entry.mk tx at_]> (entriesById m).
Proof. intros Hn. unfold store, emplace. simpl. by rewrite Hn. Qed.

Lemma mempool_store_wf tx at_ m : wf m → sound_entry (SignedTx.id tx) (Entry.mk tx at_) →
  entriesById m !! SignedTx.id tx = None → transactionIdBySenderNonce m !! senderNonceKey tx = None →
  Z.of_nat (size (entriesById m)) < Config.maxTransactions (config m) →
  currentMempoolSizeBytes m + string_size (SignedTx.serialize tx) ≤ Config.maxMempoolSizeBytes (config m) →
  wf (store tx at_ m).
Proof.
  intros Hm Hs Hid Hkey Hcount Hroom. pose proof (wf_sum_bounds m Hm) as Hb. pose proof (bytes_nonneg (Entry.mk tx at_)) as He.
  pose proof (map_sum_insert bytes (entriesById m) _ (Entry.mk tx at_) Hid) as Hsum.
  pose proof (wf_config m Hm). pose proof (wf_limit m Hm).
  change (bytes (Entry.mk tx at_)) with (string_size (SignedTx.serialize tx)) in *.
  assert (wrap64 (currentMempoolSizeBytes m + string_size (SignedTx.serialize tx)) =
          currentMempoolSizeBytes m + string_size (SignedTx.serialize tx)) as Hw.
  { apply wrap64_id. rewrite (wf_size m Hm) in *. unfold u64, u64_max, i64_max in *. lia. }
  assert (Entry.senderNonceKey (Entry.mk tx at_) = senderNonceKey tx) as Ek by exact eq_refl.
  constructor; rewrite ?store_entries by done; cbn [store config entriesById transactionIdBySenderNonce currentMempoolSizeBytes]; try done.
  - intros i e [[<- <-]|[_ He']]%lookup_insert_Some; [done|by apply (wf_entry m Hm)].
  - rewrite Ek. unfold emplace. rewrite Hkey. intros k i. rewrite lookup_insert_Some. setoid_rewrite lookup_insert_Some. rewrite (wf_index m Hm). split.
    + intros [[<- <-]|[Hk (e & Hi & <-)]]; [by eexists; split; [by left|]|].
      exists e. split; [|done]. right. split; [|done]. intros <-. congruence.
    + intros (e & [[<- <-]|[Hi He']] & <-); [by left|]. right. split; [|by exists e]. intros Ek'.
      assert (transactionIdBySenderNonce m !! Entry.senderNonceKey e = Some i) as Hk1 by (apply (wf_index m Hm); by exists e). congruence.
  - rewrite map_size_insert_None by done. lia.
  - rewrite Hw, (wf_size m Hm). lia.
  - rewrite Hw. lia.
Qed.

(** The pool that satisfies the invariant passes the consistency check. *)
Lemma mempool_wf_isValid m : wf m → isValid policy context m = true.
Proof.
  intros Hm. unfold isValid. rewrite (wf_config m Hm), (wf_sizes m Hm), Z.eqb_refl. cbn [negb].
  rewrite (proj2 (Z.ltb_ge _ _) (wf_count m Hm)).
  replace (forallb _ _) with true; cbn [negb].
  2: { symmetry. apply forallb_forall. intros [i e] Hi. apply list_elem_of_In, elem_of_entries in Hi. simpl.
       destruct (wf_entry m Hm i e Hi) as (<- & Hv & _). rewrite String.eqb_refl, Hv. simpl. apply bool_decide_eq_true.
       apply (wf_index m Hm). by exists e. }
  pose proof (wf_sum_bounds m Hm) as Hb. pose proof (map_sum_entries bytes (entriesById m)) as Hsum.
  unfold compose in Hsum. rewrite foldl_wrap64; [|lia|intros; apply bytes_nonneg|rewrite Hsum; unfold u64_max, i64_max in *; lia].
  rewrite Hsum, (wf_size m Hm), Z.add_0_l, Z.eqb_refl. cbn [negb]. rewrite <- (wf_size m Hm).
  by rewrite (proj2 (Z.ltb_ge _ _) (wf_bytes m Hm)).
Qed.

(** ** Choosing what to evict *)

Definition skipped (old : string) (planned : gset string) (p : string * Entry.t) : Prop := p.1 = old ∨ p.1 ∈ planned.
#[global] Instance skipped_dec old planned p : Decision (skipped old planned p).
Proof. unfold skipped. apply _. Defined.

Definition best (old : string) (planned : gset string) (l : list (string * Entry.t)) (c : Candidate) : Prop :=
  (c = mkCandidate "" i64_max i64_max 0 ∧ ∀ p, p ∈ l → skipped old planned p) ∨
  ∃ p, p ∈ l ∧ ¬ skipped old planned p ∧ c = mkCandidate p.1 (priorityFeeRaw p.2) (acceptedAt p.2) (bytes p.2) ∧
    ∀ q, q ∈ l → ¬ skipped old planned q → priorityFeeRaw p.2 ≤ priorityFeeRaw q.2.

Lemma consider_skipped old planned c p : skipped old planned p → consider old planned c p = c.
Proof.
  intros Hs. unfold consider. replace (String.eqb p.1 old || bool_decide (p.1 ∈ planned)) with true; [done|].
  symmetry. destruct Hs as [->|Hp]; [by rewrite String.eqb_refl|]. by rewrite bool_decide_eq_true_2, orb_true_r.
Qed.

Lemma consider_eligible old planned c p : ¬ skipped old planned p →
  consider old planned c p =
  if (priorityFeeRaw p.2 <? lowestFee c) || ((priorityFeeRaw p.2 =? lowestFee c) && (acceptedAt p.2 <? oldestAcceptedAt c)) then
    mkCandidate p.1 (priorityFeeRaw p.2) (acceptedAt p.2) (bytes p.2) else c.
Proof.
  intros Hs. unfold consider. replace (String.eqb p.1 old || bool_decide (p.1 ∈ planned)) with false; [done|].
  symmetry. apply orb_false_iff. unfold skipped in Hs. split; [apply String.eqb_neq; tauto|apply bool_decide_eq_false; tauto].
Qed.

Lemma best_foldl old planned l : (∀ p, p ∈ l → priorityFeeRaw p.2 < i64_max) →
  best old planned l (foldl (consider old planned) (mkCandidate "" i64_max i64_max 0) l).
Proof.
  induction l as [|q l IH] using rev_ind; intros Hfee; [left; split; [done|]; by intros p ?%elem_of_nil|].
  rewrite foldl_snoc. set (c := foldl _ _ l) in *.
  assert (∀ p, p ∈ l → p ∈ l ++ [q]) as Hl by (intros p ?; apply elem_of_app; by left).
  assert (q ∈ l ++ [q]) as Hq by (apply elem_of_app; right; by left).
  assert (∀ p, p ∈ l ++ [q] → p ∈ l ∨ p = q) as Hcases by (intros p [?|?%list_elem_of_singleton]%elem_of_app; auto).
  specialize (IH (λ p Hp, Hfee p (Hl p Hp))). destruct (decide (skipped old planned q)) as [Hs|Hs].
  - rewrite consider_skipped by done. destruct IH as [[-> Hall]|(p & Hp & Hn & -> & Hmin)].
    + left. split; [done|]. intros p [?| ->]%Hcases; [by apply Hall|done].
    + right. exists p. split_and!; [by apply Hl|done|done|]. intros r [?| ->]%Hcases Hr; [by apply Hmin|done].
  - rewrite consider_eligible by done. right. destruct IH as [[-> Hall]|(p & Hp & Hn & -> & Hmin)]; cbn [lowestFee oldestAcceptedAt].
    + rewrite (proj2 (Z.ltb_lt _ _)) by (by apply Hfee). exists q. split_and!; [done..|].
      intros r [Hr| ->]%Hcases Hnr; [by apply Hall in Hr|lia].
    + destruct ((priorityFeeRaw q.2 <? priorityFeeRaw p.2) ||
        ((priorityFeeRaw q.2 =? priorityFeeRaw p.2) && (acceptedAt q.2 <? acceptedAt p.2))) eqn:E.
      * exists q. split_and!; [done..|]. intros r [Hr| ->]%Hcases Hnr; [|lia]. specialize (Hmin r Hr Hnr). lia.
      * exists p. split_and!; [by apply Hl|done|done|]. intros r [Hr| ->]%Hcases Hnr; [by apply Hmin|]. lia.
Qed.

Lemma entry_id_nonempty m i e : wf m → entriesById m !! i = Some e → i ≠ "".
Proof.
  intros Hm Hi ->. destruct (wf_entry m Hm _ _ Hi) as (Hid & Hv & _). revert Hv. unfold Entry.isValid, SignedTx.isStructurallyValid.
  unfold SignedTx.id in Hid. rewrite Hid. case_match; discriminate.
Qed.

(** The entry that a scan finds is the cheapest of those not yet planned. *)
Lemma cheapest_spec m old planned : wf m →
  (lowestFeeTxId (cheapest old planned m) = "" ∧ ∀ i e, entriesById m !! i = Some e → i = old ∨ i ∈ planned) ∨
  (∃ i e, entriesById m !! i = Some e ∧ i ≠ "" ∧ i ≠ old ∧ ¬ (i ∈ planned) ∧
     cheapest old planned m = mkCandidate i (priorityFeeRaw e) (acceptedAt e) (bytes e) ∧
     ∀ j e', entriesById m !! j = Some e' → j ≠ old → j ∉ planned → priorityFeeRaw e ≤ priorityFeeRaw e').
Proof.
  intros Hm. destruct (best_foldl old planned (entries (entriesById m))) as [[E Hall]|([i e] & Hi & Hn & E & Hmin)].
  - intros [i e] Hi%elem_of_entries. destruct (wf_entry m Hm i e Hi) as (_ & _ & Hf). simpl. unfold i64_max. lia.
  - left. unfold cheapest. rewrite E. split; [done|]. intros i e He%elem_of_entries. by apply (Hall (i, e)).
  - right. apply elem_of_entries in Hi. exists i, e. unfold skipped in Hn. simpl in *. split_and!; [done|by apply (entry_id_nonempty m i e)|tauto|tauto|done|].
    intros j e' Hj%elem_of_entries Ho Hp. apply (Hmin (j, e')); [done|]. unfold skipped. simpl. tauto.
Qed.

(** The bytes of the listed entries. *)
Definition order_bytes (entries : gmap string Entry.t) (order : list string) : Z :=
  sum_by (λ i, from_option bytes 0 (entries !! i)) order.

Lemma order_bytes_le l es : NoDup l → (∀ i, i ∈ l → is_Some (es !! i)) → order_bytes es l ≤ map_sum bytes es.
Proof.
  unfold order_bytes. revert es. induction l as [|i l IH]; intros es Hnd Hin; [apply map_sum_nonneg, bytes_nonneg|].
  apply NoDup_cons in Hnd as [Hi Hnd]. destruct (Hin i) as [e He]; [by left|]. cbn [sum_by]. rewrite He. cbn [from_option].
  pose proof (map_sum_delete bytes es i e He) as Hsum. specialize (IH (delete i es) Hnd).
  rewrite (sum_by_ext _ (λ j, from_option bytes 0 (delete i es !! j))).
  2: { intros j Hj. rewrite lookup_delete_ne; [done|]. intros ->. done. }
  assert (∀ j, j ∈ l → is_Some (delete i es !! j)) as Hd.
  { intros j Hj. rewrite lookup_delete_ne; [apply Hin; by right|]. intros ->. done. }
  specialize (IH Hd). lia.
Qed.

(** What may be evicted: distinct entries of the pool other than the replaced one. *)
Record evictable (m : t) (old : string) (order : list string) : Prop := {
  ev_nodup : NoDup order;
  ev_entry : ∀ i, i ∈ order → i ≠ old ∧ is_Some (entriesById m !! i);
}.

(** A plan makes room and takes the cheapest entries, all cheaper than the newcomer. *)
Record good_plan (m : t) (old : string) (fee incoming base : Z) (order : list string) : Prop := {
  plan_evictable : evictable m old order;
  plan_room : base - order_bytes (entriesById m) order + incoming ≤ Config.maxMempoolSizeBytes (config m);
  plan_cheaper : ∀ i e, i ∈ order → entriesById m !! i = Some e → priorityFeeRaw e < fee;
  plan_cheapest : ∀ i e j e', i ∈ order → entriesById m !! i = Some e → j ∉ order → j ≠ old →
    entriesById m !! j = Some e' → priorityFeeRaw e ≤ priorityFeeRaw e';
}.

Lemma snoc_set (l : list string) i : {[ i ]} ∪ list_to_set l =@{gset string} list_to_set (l ++ [i]).
Proof. rewrite list_to_set_app_L. cbn [list_to_set]. rewrite (right_id_L ∅ (∪)). apply (comm_L (∪)). Qed.

Lemma planEvictions_ok fuel fee incoming old m base order : wf m →
  0 ≤ incoming ≤ Config.maxMempoolSizeBytes (config m) → base ≤ Config.maxMempoolSizeBytes (config m) →
  (∀ l, evictable m old l → order_bytes (entriesById m) l ≤ base) →
  evictable m old order → (∀ i e, i ∈ order → entriesById m !! i = Some e → priorityFeeRaw e < fee) →
  (∀ i e j e', i ∈ order → entriesById m !! i = Some e → j ∉ order → j ≠ old → entriesById m !! j = Some e' → priorityFeeRaw e ≤ priorityFeeRaw e') →
  (size (entriesById m) < fuel + length order)%nat →
  ∃ r, planEvictions fuel fee incoming old m (base - order_bytes (entriesById m) order) (list_to_set order) order = Ok r ∧
    match r with inl refused => Admission.success refused = false | inr order' => good_plan m old fee incoming base order' end.
Proof.
  intros Hm Hin Hbase Hroom. revert order. induction fuel as [|fuel IH]; intros order Hev Hfee Hcheap Hfuel.
  { exfalso. assert (length order ≤ size (entriesById m))%nat; [|lia]. rewrite <- (size_list_to_set (C:=gset string) order) by apply Hev.
    rewrite <- (size_dom (D:=gset string)). apply subseteq_size. intros i Hi%elem_of_list_to_set. apply elem_of_dom. by apply Hev. }
  pose proof (Hroom order Hev) as Hob. pose proof (wf_limit m Hm) as Hlim. unfold i64_max in Hlim.
  assert (0 ≤ order_bytes (entriesById m) order) as Hob0.
  { apply sum_by_nonneg. intros i _. destruct (entriesById m !! i); simpl; [apply bytes_nonneg|lia]. }
  cbn [planEvictions]. rewrite wrap64_id by (unfold u64, u64_max; lia).
  destruct (Z.ltb_spec (Config.maxMempoolSizeBytes (config m)) (base - order_bytes (entriesById m) order + incoming)) as [Hfull|Hfits].
  2: { eexists. split; [done|]. by constructor. }
  destruct (cheapest_spec m old (list_to_set order) Hm) as [[-> _]|(i & e & He & Hne & Ho & Hp & Ec & Hmin)]; [eexists; split; [done|done]|].
  rewrite Ec. cbn [lowestFeeTxId lowestFee lowestFeeTxSize]. rewrite (proj2 (empty_string_false i) Hne).
  destruct (Z.leb_spec fee (priorityFeeRaw e)) as [Hle|Hgt]; [eexists; split; [done|done]|].
  rewrite elem_of_list_to_set in Hp.
  assert (evictable m old (order ++ [i])) as Hev'.
  { destruct Hev as [Hnd Hent]. constructor; [apply NoDup_app; split_and!; [done| |apply NoDup_singleton]|].
    - intros j Hj ->%list_elem_of_singleton. done.
    - intros j [Hj| ->%list_elem_of_singleton]%elem_of_app; [by apply Hent|split; [done|by eexists]]. }
  assert (order_bytes (entriesById m) (order ++ [i]) = order_bytes (entriesById m) order + bytes e) as Eb.
  { unfold order_bytes. rewrite sum_by_app. cbn [sum_by]. rewrite He. simpl. lia. }
  pose proof (Hroom _ Hev') as Hob'. rewrite Eb in Hob'. pose proof (bytes_nonneg e).
  rewrite wrap64_id by (unfold u64, u64_max; lia).
  replace (base - order_bytes (entriesById m) order - bytes e) with (base - order_bytes (entriesById m) (order ++ [i])) by lia.
  rewrite (snoc_set order i).
  apply IH; [done| | |rewrite length_app; simpl; lia].
  - intros j e' [Hj| ->%list_elem_of_singleton]%elem_of_app He'; [by apply (Hfee j)|congruence].
  - intros j ej k ek [Hj| ->%list_elem_of_singleton]%elem_of_app Hej Hk Hko Hek; rewrite elem_of_app, list_elem_of_singleton in Hk.
    + apply (Hcheap j ej k ek); tauto.
    + assert (ej = e) as -> by congruence. apply (Hmin k ek); [done|done|]. rewrite elem_of_list_to_set. tauto.
Qed.

(** ** Admission *)

Lemma entryCheck_None tx at_ m : entryCheck tx policy context at_ m = None →
  sound_entry (SignedTx.id tx) (Entry.mk tx at_) ∧ entriesById m !! SignedTx.id tx = None ∧
  Config.minimumFeeRaw (config m) ≤ SignedTx.fee tx ∧ SignedTx.fromAddress tx ≠ SignedTx.toAddress tx ∧
  string_size (SignedTx.serialize tx) ≤ Config.maxTransactionSizeBytes (config m) ∧
  string_size (SignedTx.serialize tx) ≤ Config.maxMempoolSizeBytes (config m).
Proof.
  unfold entryCheck. cbv zeta. intros E.
  destruct (Config.isValid (config m)); cbn [negb] in E; [|discriminate].
  destruct (Z.leb_spec at_ 0) as [?|Hat]; [discriminate|].
  destruct (SignedTx.isStructurallyValid policy context tx) eqn:Hv; cbn [negb] in E; [|discriminate].
  destruct (TypePolicy.isMempoolType (SignedTx.type tx)); cbn [negb] in E; [|discriminate].
  destruct (Z.ltb_spec (SignedTx.fee tx) (Config.minimumFeeRaw (config m))) as [?|Hmin]; [discriminate|].
  destruct (Z.ltb_spec 1000000000000 (SignedTx.fee tx)) as [?|Hmax]; [discriminate|].
  destruct (String.eqb_spec (SignedTx.fromAddress tx) (SignedTx.toAddress tx)) as [?|Hself]; [discriminate|].
  destruct (contains (SignedTx.id tx) m) eqn:Hc; [discriminate|].
  destruct (Z.ltb_spec (Config.maxTransactionSizeBytes (config m)) (string_size (SignedTx.serialize tx))) as [?|Hts]; [discriminate|].
  destruct (Z.ltb_spec (Config.maxMempoolSizeBytes (config m)) (string_size (SignedTx.serialize tx))) as [?|Hms]; [discriminate|].
  unfold contains in Hc. apply bool_decide_eq_false in Hc. split_and!; [|by apply eq_None_not_Some|lia|exact Hself|lia|lia].
  split_and!; [reflexivity| |exact Hmax]. unfold Entry.isValid. cbn [acceptedAt transaction].
  by rewrite (proj2 (Z.leb_gt _ _) Hat).
Qed.

Lemma entryCheck_Some tx at_ m r : entryCheck tx policy context at_ m = Some r →
  Admission.success r = true → r = Admission.duplicate (SignedTx.id tx) ∧ is_Some (entriesById m !! SignedTx.id tx).
Proof.
  unfold entryCheck. cbv zeta. intros E Hs.
  repeat (match type of E with (if ?b then _ else _) = _ => destruct b eqn:?; [injection E as <-; try discriminate Hs|] end); [|discriminate].
  split; [reflexivity|]. match goal with Hc : contains _ _ = true |- _ => unfold contains in Hc; by apply bool_decide_eq_true in Hc end.
Qed.

Lemma replacementOf_cases tx m : wf m →
  match replacementOf tx m with
  | inl refused => Admission.success refused = false
  | inr None => transactionIdBySenderNonce m !! senderNonceKey tx = None
  | inr (Some (old, n)) => ∃ e, entriesById m !! old = Some e ∧ Entry.senderNonceKey e = senderNonceKey tx ∧ n = bytes e ∧
      minimumReplacementFee (priorityFeeRaw e) ≤ SignedTx.fee tx
  end.
Proof.
  intros Hm. unfold replacementOf. destruct (transactionIdBySenderNonce m !! senderNonceKey tx) as [old|] eqn:E; [|done].
  apply (wf_index m Hm) in E as (e & He & Ek). rewrite He. destruct (Config.replaceByHigherFee (config m)); cbn [negb]; [|done].
  destruct (Z.ltb_spec (SignedTx.fee tx) (minimumReplacementFee (priorityFeeRaw e))); [done|]. by exists e.
Qed.

(** The pool after an admission: the newcomer, and everything that was neither evicted
    nor replaced. *)
Record admitted (tx : SignedTx.t) (at_ : Z) (old : option string) (evicted : list string) (m m' : t) : Prop := {
  ad_new : entriesById m' !! SignedTx.id tx = Some (Entry.mk tx at_);
  ad_fresh : entriesById m !! SignedTx.id tx = None;
  ad_kept : ∀ i, i ≠ SignedTx.id tx →
    entriesById m' !! i = if decide (i ∈ evicted ∨ Some i = old) then None else entriesById m !! i;
  ad_cheaper : ∀ i, i ∈ evicted → ∃ e, entriesById m !! i = Some e ∧ priorityFeeRaw e < SignedTx.fee tx ∧
    ∀ j e', entriesById m !! j = Some e' → j ∉ evicted → Some j ≠ old → priorityFeeRaw e ≤ priorityFeeRaw e';
  ad_replaced : ∀ i, old = Some i → ∃ e, entriesById m !! i = Some e ∧ Entry.senderNonceKey e = senderNonceKey tx ∧
    minimumReplacementFee (priorityFeeRaw e) ≤ SignedTx.fee tx;
}.

(** Storing into a pool that has room. *)
Lemma admit_finish tx at_ old evicted m :
  wf m → sound_entry (SignedTx.id tx) (Entry.mk tx at_) → entriesById m !! SignedTx.id tx = None →
  evictable m (default "" old) evicted →
  (old = None → transactionIdBySenderNonce m !! senderNonceKey tx = None ∧ Z.of_nat (size (entriesById m)) < Config.maxTransactions (config m)) →
  (∀ i, old = Some i → ∃ e, entriesById m !! i = Some e ∧ Entry.senderNonceKey e = senderNonceKey tx) →
  let m1 := match old with Some i => (removeTransaction i (removeAll evicted m)).2 | None => removeAll evicted m end in
  currentMempoolSizeBytes m1 + string_size (SignedTx.serialize tx) ≤ Config.maxMempoolSizeBytes (config m) →
  wf (store tx at_ m1) ∧ entriesById (store tx at_ m1) = <[SignedTx.id tx := Entry.mk tx at_]> (entriesById m1) ∧
  ∀ i, entriesById m1 !! i = if decide (i ∈ evicted ∨ Some i = old) then None else entriesById m !! i.
Proof.
  intros Hm Hs Hid Hev Hnone Hsome m1 Hroom.
  assert (wf m1) as Hm1 by (unfold m1; destruct old; [apply remove_wf|]; by apply removeAll_wf).
  assert (config m1 = config m) as Ec by (unfold m1; destruct old; rewrite ?remove_config; apply removeAll_config).
  assert (∀ i, entriesById m1 !! i = if decide (i ∈ evicted ∨ Some i = old) then None else entriesById m !! i) as Hlook.
  { intros i. unfold m1. destruct old as [o|].
    - rewrite remove_entries. destruct (decide (i = o)) as [->|Hio]; [rewrite lookup_delete_eq, decide_True by tauto; done|].
      rewrite lookup_delete_ne, removeAll_lookup by done. apply decide_ext. split; [tauto|intros [?|[= ->]]; tauto].
    - rewrite removeAll_lookup. apply decide_ext. split; [tauto|intros [?|?]; [done|discriminate]]. }
  assert (entriesById m1 !! SignedTx.id tx = None) as Hid1 by (rewrite Hlook; by case_decide).
  split; [|split; [by apply store_entries|exact Hlook]]. apply mempool_store_wf; [done|done|done| | |rewrite Ec; done].
  - destruct (transactionIdBySenderNonce m1 !! senderNonceKey tx) as [i|] eqn:E; [|done]. exfalso.
    apply (wf_index m1 Hm1) in E as (e & He & Ek). rewrite Hlook in He. case_decide as Hd; [done|].
    assert (transactionIdBySenderNonce m !! senderNonceKey tx = Some i) as E by (apply (wf_index m Hm); by exists e).
    destruct old as [o|]; [|destruct (Hnone eq_refl) as [E' _]; congruence].
    destruct (Hsome o eq_refl) as (e' & He' & Ek').
    assert (transactionIdBySenderNonce m !! senderNonceKey tx = Some o) as E' by (apply (wf_index m Hm); by exists e'). apply Hd. right. congruence.
  - rewrite Ec. assert (∀ i, is_Some (entriesById m1 !! i) → is_Some (entriesById m !! i)) as Hsub
      by (intros i; rewrite Hlook; case_decide; [by intros [? ?]|done]).
    assert (dom (entriesById m1) ⊆ dom (entriesById m)) as Hdom by (intros i; rewrite !elem_of_dom; apply Hsub).
    destruct old as [o|].
    + assert (size (entriesById m1) < size (entriesById m))%nat; [|pose proof (wf_count m Hm); lia].
      rewrite <- !(size_dom (D:=gset string)). apply subset_size. split; [done|]. intros Hback.
      destruct (Hsome o eq_refl) as (e & He & _). assert (o ∈ dom (entriesById m1)) as Ho by (apply Hback, elem_of_dom; by eexists).
      apply elem_of_dom in Ho as [e' He']. rewrite Hlook, decide_True in He' by tauto. done.
    + assert (size (entriesById m1) ≤ size (entriesById m))%nat; [|destruct (Hnone eq_refl); lia].
      rewrite <- !(size_dom (D:=gset string)). by apply subseteq_size.
Qed.

Lemma remove_bytes i e m : wf m → entriesById m !! i = Some e →
  currentMempoolSizeBytes (removeTransaction i m).2 = currentMempoolSizeBytes m - bytes e.
Proof.
  intros Hm He. rewrite (wf_size _ (remove_wf i m Hm)), (wf_size m Hm), remove_entries, (map_sum_delete bytes _ i e He). lia.
Qed.

Lemma removeAll_bytes order m : wf m → NoDup order → (∀ i, i ∈ order → is_Some (entriesById m !! i)) →
  currentMempoolSizeBytes (removeAll order m) = currentMempoolSizeBytes m - order_bytes (entriesById m) order.
Proof.
  unfold removeAll, order_bytes. revert m. induction order as [|i order IH]; intros m Hm Hnd Hin; [simpl; lia|].
  apply NoDup_cons in Hnd as [Hi Hnd]. destruct (Hin i) as [e He]; [by left|].
  assert (∀ j, j ∈ order → entriesById (removeTransaction i m).2 !! j = entriesById m !! j) as Hj.
  { intros j Hj. rewrite remove_entries, lookup_delete_ne; [done|]. by intros ->. }
  cbn [foldl sum_by]. rewrite IH; [|by apply remove_wf|done|intros j Hjo; rewrite Hj by done; apply Hin; by right].
  rewrite (sum_by_ext (λ j, from_option bytes 0 (entriesById (removeTransaction i m).2 !! j)) (λ j, from_option bytes 0 (entriesById m !! j)))
    by (intros j Hjo; by rewrite Hj).
  rewrite (remove_bytes i e) by done. rewrite He. simpl. lia.
Qed.

(** The replaced entry of [replacementOf], if any: its id and size. *)
Record replacing (tx : SignedTx.t) (m : t) (old : option string) (osize : Z) : Prop := {
  rp_some : ∀ i, old = Some i → ∃ e, entriesById m !! i = Some e ∧ Entry.senderNonceKey e = senderNonceKey tx ∧ osize = bytes e ∧
    minimumReplacementFee (priorityFeeRaw e) ≤ SignedTx.fee tx;
  rp_none : old = None → transactionIdBySenderNonce m !! senderNonceKey tx = None ∧
    Z.of_nat (size (entriesById m)) < Config.maxTransactions (config m) ∧ osize = 0;
}.

Lemma replacing_room tx m old osize l : wf m → replacing tx m old osize → evictable m (default "" old) l →
  0 ≤ osize ∧ order_bytes (entriesById m) l ≤ currentMempoolSizeBytes m - osize.
Proof.
  intros Hm [Hsome Hnone] [Hnd Hent]. rewrite (wf_size m Hm). destruct old as [o|] eqn:Eo.
  - destruct (Hsome o eq_refl) as (e & He & _ & -> & _). split; [apply bytes_nonneg|].
    assert (order_bytes (entriesById m) (o :: l) ≤ map_sum bytes (entriesById m)) as Hle.
    { apply order_bytes_le; [constructor; [|done]; intros Ho; by destruct (Hent o Ho)|].
      intros i [->|Hi]%elem_of_cons; [by eexists|by apply Hent]. }
    unfold order_bytes in *. cbn [sum_by] in Hle. rewrite He in Hle. simpl in Hle. lia.
  - destruct (Hnone eq_refl) as (_ & _ & ->). split; [lia|]. rewrite Z.sub_0_r. apply order_bytes_le; [done|]. intros i Hi. by apply Hent.
Qed.

(** Carrying out a plan. *)
Lemma plan_admits tx at_ m old osize evicted : wf m → sound_entry (SignedTx.id tx) (Entry.mk tx at_) →
  entriesById m !! SignedTx.id tx = None → replacing tx m old osize →
  good_plan m (default "" old) (SignedTx.fee tx) (string_size (SignedTx.serialize tx)) (currentMempoolSizeBytes m - osize) evicted →
  let m' := store tx at_ (match old with Some i => (removeTransaction i (removeAll evicted m)).2 | None => removeAll evicted m end) in
  wf m' ∧ admitted tx at_ old evicted m m'.
Proof.
  intros Hm Hs Hid [Hold Hnone] [Hev Hfit Hcheaper Hcheapest].
  assert (∀ i, i ∈ evicted → is_Some (entriesById m !! i)) as Hin by (intros i Hi; by apply Hev).
  pose proof (removeAll_bytes evicted m Hm (ev_nodup _ _ _ Hev) Hin) as Hrb.
  destruct (admit_finish tx at_ old evicted m Hm Hs Hid Hev) as (Hwf & Hnew & Hlook).
  { intros Eo. destruct (Hnone Eo) as (? & ? & _). done. }
  { intros i Ei. destruct (Hold i Ei) as (e & ? & ? & _). by exists e. }
  { destruct old as [o|] eqn:Eo; [|rewrite Hrb; destruct (Hnone eq_refl) as (_ & _ & E0); lia].
    destruct (Hold o eq_refl) as (e & He & _ & E0 & _). rewrite (remove_bytes o e); [lia|by apply removeAll_wf|].
    rewrite removeAll_lookup, decide_False; [done|]. intros Ho. by destruct (ev_entry _ _ _ Hev o Ho). }
  split; [exact Hwf|]. constructor.
  - rewrite Hnew. apply lookup_insert_eq.
  - exact Hid.
  - intros i Hi. rewrite Hnew, lookup_insert_ne by congruence. apply Hlook.
  - intros i Hi. destruct (Hin i Hi) as [e He]. exists e. split_and!; [done|by apply (Hcheaper i)|].
    intros j e' Hj Hnj Hoj. apply (Hcheapest i e j e'); [done|done|done| |done]. intros ->. destruct old as [o|]; [done|].
    by apply (entry_id_nonempty m _ _ Hm) in Hj.
  - intros i Ei. destruct (Hold i Ei) as (e & ? & ? & _ & ?). by exists e.
Qed.

(** Admission either refuses and changes nothing, or admits within the invariant. *)
Lemma mempool_admit_cases tx at_ m : wf m →
  (∃ r, admitTransaction tx policy context at_ m = (Ok r, m) ∧
     (Admission.success r = true → r = Admission.duplicate (SignedTx.id tx) ∧ is_Some (entriesById m !! SignedTx.id tx))) ∨
  ∃ old evicted m', wf m' ∧ admitted tx at_ old evicted m m' ∧
    admitTransaction tx policy context at_ m =
      (Ok (match old with Some i => Admission.replaced (SignedTx.id tx) i | None => Admission.accepted (SignedTx.id tx) end), m').
Proof.
  intros Hm. unfold admitTransaction. destruct (entryCheck tx policy context at_ m) as [r|] eqn:Hc.
  { left. exists r. split; [reflexivity|]. by apply (entryCheck_Some tx at_). }
  apply entryCheck_None in Hc as (Hs & Hid & _ & _ & _ & Hsize). pose proof (replacementOf_cases tx m Hm) as Hr.
  destruct (replacementOf tx m) as [r|repl]; [left; exists r; split; [reflexivity|congruence]|].
  destruct (bool_decide (repl = None) && (Config.maxTransactions (config m) <=? Z.of_nat (size (entriesById m)))) eqn:Hcap;
    [left; eexists; split; [reflexivity|discriminate]|].
  set (old := fst <$> repl). set (osize := default 0 (snd <$> repl)).
  assert (replacing tx m old osize) as Hrep.
  { unfold old, osize. destruct repl as [[o n]|]; constructor; try discriminate.
    - intros i [= <-]. destruct Hr as (e & ? & ? & -> & ?). by exists e.
    - intros _. rewrite bool_decide_eq_true_2 in Hcap by done. simpl in *. split_and!; [done|lia|done]. }
  pose proof (wf_sum_bounds m Hm) as Hb. pose proof (wf_bytes m Hm) as Hbytes.
  assert (evictable m (default "" old) []) as Hnil by (constructor; [constructor|by intros i ?%elem_of_nil]).
  destruct (replacing_room tx m old osize [] Hm Hrep Hnil) as [Hos Hbase]. unfold order_bytes in Hbase at 1. simpl in Hbase.
  assert (wrap64 (currentMempoolSizeBytes m - osize) = currentMempoolSizeBytes m - osize - order_bytes (entriesById m) []) as Ew.
  { unfold order_bytes. simpl. rewrite wrap64_id; [lia|]. rewrite (wf_size m Hm) in *. unfold u64, u64_max, i64_max in *. lia. }
  rewrite Ew.
  destruct (planEvictions_ok (S (size (entriesById m))) (SignedTx.fee tx) (string_size (SignedTx.serialize tx)) (default "" old) m
    (currentMempoolSizeBytes m - osize) []) as (r & Er & Hplan);
    [done|unfold string_size in *; lia|lia|intros l Hl; by apply (replacing_room tx m old osize l)|done|by intros i e ?%elem_of_nil|
     by intros i e j e' ?%elem_of_nil|simpl; lia|].
  change (list_to_set []) with (∅ : gset string) in Er. rewrite Er.
  destruct r as [r|evicted]; [left; exists r; split; [reflexivity|congruence]|]. right. exists old, evicted.
  destruct (plan_admits tx at_ m old osize evicted Hm Hs Hid Hrep Hplan) as [Hwf Had].
  eexists. split_and!; [exact Hwf|exact Had|unfold old; destruct repl as [[o n]|]; reflexivity].
Qed.
End pool.
End MempoolFacts.

(** ** Selection for a block *)

Module SelectionFacts.
Import Entry Mempool MempoolFacts.

#[global] Instance priority_le_trans : Transitive priority_le.
Proof.
  intros a b c [H1|[E1 H1]] [H2|[E2 H2]]; [left; lia|left; lia|left; lia|]. right. split; [lia|].
  destruct H1 as [H1|[F1 H1]], H2 as [H2|[F2 H2]]; [left; lia|left; lia|left; lia|]. right. split; [lia|]. by etransitivity.
Qed.

#[global] Instance priority_le_total : Total priority_le.
Proof.
  intros a b. unfold priority_le. destruct (Z.lt_trichotomy (priorityFeeRaw a) (priorityFeeRaw b)) as [?|[E|?]]; [tauto| |tauto].
  destruct (Z.lt_trichotomy (acceptedAt a) (acceptedAt b)) as [?|[F|?]]; [tauto| |right; right; split; [done|by left]].
  destruct (total String.le (SignedTx.id (transaction a)) (SignedTx.id (transaction b))); [tauto|]. right. right. split; [done|]. by right.
Qed.

Lemma sorted_perm m : sortedEntriesByPriority m ≡ₚ (entries m).*2.
Proof. apply merge_sort_Permutation. Qed.

Lemma sorted_sorted m : StronglySorted priority_le (sortedEntriesByPriority m).
Proof. apply StronglySorted_merge_sort; apply _. Qed.

Lemma elem_of_sorted m e : e ∈ sortedEntriesByPriority m ↔ ∃ i, m !! i = Some e.
Proof.
  rewrite sorted_perm, list_elem_of_fmap. split.
  - intros ([i e'] & -> & Hi%elem_of_entries). by exists i.
  - intros [i Hi%elem_of_entries]. by exists (i, e).
Qed.

Section selection.
Context (view : AccountStateView.t).

Definition account_nonce (sender : string) : Z := AccountState.nonce (AccountStateView.accountOrDefault view sender).

(** The transactions already selected from a sender, and the nonce expected next. *)
Definition sent (sender : string) (txs : list SignedTx.t) : Z :=
  Z.of_nat (length (filter (λ tx, SignedTx.fromAddress tx = sender) txs)).
Definition expected (txs : list SignedTx.t) (sender : string) : Z := account_nonce sender + 1 + sent sender txs.

(** An entry that could come next. *)
Definition pending (txs : list SignedTx.t) (e : Entry.t) : Prop :=
  (SignedTx.id (transaction e) ∉ (SignedTx.id <$> txs)) ∧
  SignedTx.nonce (transaction e) = expected txs (SignedTx.fromAddress (transaction e)).
#[global] Instance pending_dec txs e : Decision (pending txs e).
Proof. unfold pending. apply _. Defined.

(** The table of nonces agrees with what was selected. *)
Record tracks (nonces : gmap string Z) (txs : list SignedTx.t) : Prop := {
  tracks_known : ∀ s n, nonces !! s = Some n → n = wrap64 (expected txs s) ∧ expected txs s ≤ u64_max + 1;
  tracks_unknown : ∀ s, nonces !! s = None → sent s txs = 0;
}.

Definition nonce_typed (e : Entry.t) : Prop := 1 ≤ SignedTx.nonce (transaction e) ≤ u64_max.
Definition view_typed : Prop := ∀ s, 0 ≤ account_nonce s ≤ u64_max.

Lemma sent_snoc s txs tx : sent s (txs ++ [tx]) = sent s txs + (if decide (SignedTx.fromAddress tx = s) then 1 else 0).
Proof.
  unfold sent. rewrite filter_app, length_app, filter_cons, filter_nil. destruct (decide (SignedTx.fromAddress tx = s)); simpl; lia.
Qed.

Lemma sent_nonneg s txs : 0 ≤ sent s txs.
Proof. unfold sent. lia. Qed.

Lemma wrap_expected txs s n : view_typed → 1 ≤ n ≤ u64_max → expected txs s ≤ u64_max + 1 →
  n = wrap64 (expected txs s) ↔ n = expected txs s.
Proof.
  intros Hv Hn He. pose proof (Hv s). pose proof (sent_nonneg s txs). unfold expected in *.
  destruct (decide (account_nonce s + 1 + sent s txs = u64_max + 1)) as [->|].
  - split; [|lia]. intros ->. change (wrap64 (u64_max + 1)) with 0 in Hn. lia.
  - rewrite wrap64_id by (unfold u64; lia). done.
Qed.

Lemma tracks_learn nonces txs s : view_typed → tracks nonces txs → nonces !! s = None → account_nonce s ≠ u64_max →
  tracks (<[s := account_nonce s + 1]> nonces) txs.
Proof.
  intros Hv [Hk Hu] Hs Hn. constructor.
  - intros s' n [[<- <-]|[_ H']]%lookup_insert_Some; [|by apply Hk]. unfold expected. rewrite (Hu s Hs). pose proof (Hv s).
    rewrite wrap64_id by (unfold u64; lia). lia.
  - intros s' [H' _]%lookup_insert_None. by apply Hu.
Qed.

Lemma tracks_select nonces txs tx n : tracks nonces txs → nonces !! SignedTx.fromAddress tx = Some n →
  n = expected txs (SignedTx.fromAddress tx) → n ≤ u64_max →
  tracks (<[SignedTx.fromAddress tx := wrap64 (n + 1)]> nonces) (txs ++ [tx]).
Proof.
  intros [Hk Hu] Hs En Hn. constructor.
  - intros s' n' [[<- <-]|[Hne H']]%lookup_insert_Some; unfold expected in *; rewrite sent_snoc.
    + rewrite decide_True by done. rewrite Z.add_assoc, <- En. split; [done|lia].
    + rewrite decide_False by congruence. rewrite Z.add_0_r. by apply Hk.
  - intros s' [H' Hne]%lookup_insert_None. rewrite sent_snoc, decide_False by congruence. rewrite Z.add_0_r. by apply Hu.
Qed.

Lemma tracks_init : tracks ∅ [].
Proof. constructor; [intros s n; by rewrite lookup_empty|done]. Qed.

(** A scan finds the first pending entry. *)
Lemma scan_spec l nonces txs : view_typed → Forall nonce_typed l → tracks nonces txs →
  (scan view (list_to_set (SignedTx.id <$> txs)) nonces l).1 = transaction <$> head (filter (pending txs) l) ∧
  tracks (scan view (list_to_set (SignedTx.id <$> txs)) nonces l).2
    (txs ++ option_list (transaction <$> head (filter (pending txs) l))).
Proof.
  intros Hv Hl. revert nonces. induction Hl as [|e l He Hl IH]; intros nonces Ht; [simpl; rewrite app_nil_r; by split|].
  cbn [scan]. cbv zeta. rewrite filter_cons. case_bool_decide as Hid.
  { rewrite elem_of_list_to_set in Hid. rewrite decide_False by (unfold pending; tauto). by apply IH. }
  rewrite elem_of_list_to_set in Hid. fold (account_nonce (SignedTx.fromAddress (transaction e))).
  set (s := SignedTx.fromAddress (transaction e)). unfold nonce_typed in He.
  (* once the expected nonce is in the table *)
  assert (∀ n nonces', tracks nonces' txs → nonces' !! s = Some n →
    let out := if negb (SignedTx.nonce (transaction e) =? n) then scan view (list_to_set (SignedTx.id <$> txs)) nonces' l
               else (Some (transaction e), <[s := wrap64 (n + 1)]> nonces') in
    let first := if decide (pending txs e) then e :: filter (pending txs) l else filter (pending txs) l in
    out.1 = transaction <$> head first ∧ tracks out.2 (txs ++ option_list (transaction <$> head first))) as Hknown.
  { intros n nonces' Ht' Hn. destruct (tracks_known _ _ Ht' s n Hn) as [En Hmax].
    destruct (Z.eqb_spec (SignedTx.nonce (transaction e)) n) as [Ee|Ee]; cbn [negb]; cbv zeta.
    - assert (n = expected txs s) as En' by (apply wrap_expected; [done|lia|done|done]).
      rewrite decide_True by (split; [done|]; fold s; lia). split; [done|]. cbn [head fmap option_fmap option_map option_list].
      apply tracks_select; [done|done|done|lia].
    - rewrite decide_False; [by apply IH|]. intros [_ Hp]. fold s in Hp. apply Ee. rewrite Hp, En. apply wrap_expected; [done| |done|done]. lia. }
  destruct (nonces !! s) as [n|] eqn:Hs; [by apply Hknown|].
  destruct (Z.eqb_spec (account_nonce s) u64_max) as [Emax|Emax].
  - rewrite decide_False; [by apply IH|]. intros [_ Hp]. fold s in Hp. unfold expected in Hp. pose proof (sent_nonneg s txs). lia.
  - apply Hknown; [by apply tracks_learn|apply lookup_insert_eq].
Qed.

(** Selections made one pending entry at a time, always the first in [l]. *)
Inductive greedy (l : list Entry.t) : list SignedTx.t → Prop :=
| greedy_nil : greedy l []
| greedy_snoc txs e : greedy l txs → head (filter (pending txs) l) = Some e → greedy l (txs ++ [transaction e]).

Lemma head_filter_Some {A} (P : A → Prop) `{∀ x, Decision (P x)} l x : head (filter P l) = Some x → x ∈ l ∧ P x.
Proof.
  intros E. assert (x ∈ filter P l) as Hx by (destruct (filter P l); [done|]; injection E as ->; by left).
  by apply list_elem_of_filter in Hx as [? ?].
Qed.

Lemma greedy_ids l txs : greedy l txs → NoDup (SignedTx.id <$> txs) ∧ ∀ tx, tx ∈ txs → ∃ e, e ∈ l ∧ transaction e = tx.
Proof.
  induction 1 as [|txs e _ [IH1 IH2] Hh]; [split; [constructor|by intros tx ?%elem_of_nil]|].
  apply head_filter_Some in Hh as [He [Hid _]]. split.
  - rewrite fmap_app. apply NoDup_app. split_and!; [done| |apply NoDup_singleton]. intros i Hi ->%list_elem_of_singleton. done.
  - intros tx [Htx| ->%list_elem_of_singleton]%elem_of_app; [by apply IH2|by exists e].
Qed.

Lemma greedy_length l txs : greedy l txs → (length txs ≤ length l)%nat.
Proof.
  intros Hg. destruct (greedy_ids l txs Hg) as [Hnd Hin]. rewrite <- (length_fmap SignedTx.id), <- (length_fmap (SignedTx.id ∘ transaction) l).
  apply submseteq_length, NoDup_submseteq; [done|]. intros i (tx & -> & Htx)%list_elem_of_fmap.
  destruct (Hin tx Htx) as (e & He & <-). apply list_elem_of_fmap. by exists e.
Qed.

(** Position by position. *)
Lemma greedy_step l txs k tx : greedy l txs → txs !! k = Some tx →
  ∃ e, transaction e = tx ∧ head (filter (pending (take k txs)) l) = Some e.
Proof.
  induction 1 as [|txs e Hg IH Hh]; [done|]. destruct (decide (k < length txs)%nat) as [Hk|Hk].
  - rewrite lookup_app_l by lia. rewrite take_app_le by lia. exact IH.
  - rewrite lookup_app_r by lia. intros [Hk' <-]%list_lookup_singleton_Some. assert (k = length txs) as -> by lia.
    rewrite take_app_length. by exists e.
Qed.

Lemma snoc_ids txs tx : {[ SignedTx.id tx ]} ∪ list_to_set (SignedTx.id <$> txs) =@{gset string} list_to_set (SignedTx.id <$> (txs ++ [tx])).
Proof. rewrite fmap_app. apply snoc_set. Qed.

(** The selection loop ends and returns a greedy selection that cannot be extended. *)
Lemma selectLoop_ok fuel maxCount l nonces txs : view_typed → Forall nonce_typed l → tracks nonces txs → greedy l txs →
  Z.of_nat (length txs) ≤ maxCount → (length l < fuel + length txs)%nat →
  ∃ txs', selectLoop fuel maxCount view l (list_to_set (SignedTx.id <$> txs)) nonces txs = Ok txs' ∧ greedy l txs' ∧
    Z.of_nat (length txs') ≤ maxCount ∧ (Z.of_nat (length txs') < maxCount → ∀ e, e ∈ l → ¬ pending txs' e).
Proof.
  intros Hv Hl. revert nonces txs. induction fuel as [|fuel IH]; intros nonces txs Ht Hg Hle Hfuel.
  { pose proof (greedy_length l txs Hg). lia. }
  cbn [selectLoop]. destruct (Z.ltb_spec (Z.of_nat (length txs)) maxCount) as [Hlt|Hge]; [|exists txs; split_and!; [done..|lia]].
  destruct (scan_spec l nonces txs Hv Hl Ht) as [Hr Ht'].
  destruct (scan view (list_to_set (SignedTx.id <$> txs)) nonces l) as [r nonces']. cbn [fst snd] in *.
  destruct (head (filter (pending txs) l)) as [e|] eqn:Hh; cbn [fmap option_fmap option_map] in Hr, Ht'; subst r.
  - rewrite snoc_ids. apply IH; [exact Ht'|by apply greedy_snoc|rewrite length_app; simpl; lia|rewrite length_app; simpl; lia].
  - exists txs. split_and!; [done..|]. intros _ e He Hp. assert (e ∈ filter (pending txs) l) as Hin by (by apply list_elem_of_filter).
    destruct (filter (pending txs) l); [by apply elem_of_nil in Hin|done].
Qed.

Lemma scanByFee_scan maxCount count selected nonces l : count < maxCount →
  scanByFee maxCount count view selected nonces l = scan view selected nonces l.
Proof.
  intros Hlt. revert nonces. induction l as [|e l IH]; intros nonces; [done|]. cbn [scan scanByFee]. cbv zeta.
  rewrite (proj2 (Z.leb_gt _ _) Hlt). case_bool_decide; [apply IH|].
  repeat case_match; simplify_eq; (apply IH || done).
Qed.

Lemma selectByFee_select fuel maxCount l selected nonces txs :
  selectLoopByFee fuel maxCount view l selected nonces txs = selectLoop fuel maxCount view l selected nonces txs.
Proof.
  revert selected nonces txs. induction fuel as [|fuel IH]; intros selected nonces txs; [done|]. cbn [selectLoop selectLoopByFee].
  destruct (Z.ltb_spec (Z.of_nat (length txs)) maxCount); [|done]. rewrite scanByFee_scan by done.
  destruct (scan view selected nonces l) as [[tx|] nonces']; [apply IH|done].
Qed.
End selection.
End SelectionFacts.

Module MempoolProperties.
Import Entry Mempool MempoolFacts SelectionFacts.

(** ** Every sequence of operations *)

Inductive op :=
| Admit (tx : SignedTx.t) (acceptedAt : Z)
| Remove (id : string)
| RemoveConflicting (sender : string) (upToNonce : Z)
| PruneExpired (currentTime : Z).

Section run.
Context `{Sha256} (policy : CryptoPolicy) (context : SecurityContext).

Definition run (o : op) (m : t) : t :=
  match o with
  | Admit tx acceptedAt => (admitTransaction tx policy context acceptedAt m).2
  | Remove id => (removeTransaction id m).2
  | RemoveConflicting sender upToNonce => (removeConflicting sender upToNonce m).2
  | PruneExpired currentTime => (pruneExpired currentTime m).2
  end.
Definition run_all (ops : list op) (m : t) : t := foldl (λ m o, run o m) m ops.

(** The nonce of a submitted transaction is an unsigned 64-bit integer. *)
Definition op_typed (o : op) : Prop := match o with Admit tx _ => u64 (SignedTx.nonce tx) | _ => True end.

(** The invariant with the widths of nonces. *)
Definition sound (m : t) : Prop :=
  wf policy context m ∧ ∀ i e, entriesById m !! i = Some e → u64 (SignedTx.nonce (transaction e)).

Lemma removeAll_sound ids m : sound m → sound (removeAll ids m).
Proof.
  intros [Hm Ht]. split; [by apply removeAll_wf|]. intros i e. rewrite removeAll_lookup. case_decide; [done|]. apply Ht.
Qed.

Lemma run_sound o m : op_typed o → sound m → sound (run o m).
Proof.
  intros Ho [Hm Ht]. destruct o as [tx at_|i|s n|t]; simpl.
  - destruct (mempool_admit_cases policy context tx at_ m Hm) as [(r & -> & _)|(old & evicted & m' & Hm' & Had & ->)]; [done|].
    split; [exact Hm'|]. cbn [snd]. intros i e He. destruct (decide (i = SignedTx.id tx)) as [->|Hne].
    + rewrite (ad_new _ _ _ _ _ _ Had) in He. injection He as <-. exact Ho.
    + rewrite (ad_kept _ _ _ _ _ _ Had i Hne) in He. case_decide; [done|]. by apply (Ht i).
  - apply (removeAll_sound [i] m). done.
  - by apply removeAll_sound.
  - unfold pruneExpired. case_match; [done|]. by apply removeAll_sound.
Qed.

Lemma run_all_sound c ops : Config.isValid c = true → Config.maxMempoolSizeBytes c ≤ i64_max → Forall op_typed ops →
  sound (run_all ops (make c)).
Proof.
  intros Hc Hl Hops. assert (sound (make c)) as Hm by (split; [by apply wf_make|]; intros i e; simpl; by rewrite lookup_empty).
  revert Hm. generalize (make c). unfold run_all. induction Hops as [|o ops Ho _ IH]; intros m Hm; [done|]. simpl. by apply IH, run_sound.
Qed.

Lemma sound_nonces m : sound m → Forall nonce_typed (sortedEntriesByPriority (entriesById m)).
Proof.
  intros [Hm Ht]. apply Forall_forall. intros e [i Hi]%elem_of_sorted. destruct (wf_entry _ _ _ Hm i e Hi) as (_ & Hv & _).
  pose proof (Ht i e Hi) as [Hn0 Hn]. unfold nonce_typed. split; [|done].
  assert (SignedTx.nonce (transaction e) ≠ 0); [|lia]. intros E. revert Hv. unfold Entry.isValid, SignedTx.isStructurallyValid.
  unfold SignedTx.nonce in E. rewrite E. repeat (case_match; [discriminate|]). discriminate.
Qed.
End run.

(** C30. Whatever is submitted, removed or pruned, the pool stays consistent: the entries
    and the nonce index agree, both capacity limits hold, the byte count is exact and
    every entry is a valid transaction; and admission always returns an answer. *)
Theorem mempool_always_valid `{Sha256} (policy : CryptoPolicy) (context : SecurityContext) (c : Config.t) (ops : list op)
    (Hc : Config.isValid c = true) (Hl : Config.maxMempoolSizeBytes c ≤ i64_max) (Hops : Forall op_typed ops) :
  isValid policy context (run_all policy context ops (make c)) = true ∧
  ∀ tx acceptedAt, ∃ r, (admitTransaction tx policy context acceptedAt (run_all policy context ops (make c))).1 = Ok r.
Proof.
  destruct (run_all_sound policy context c ops Hc Hl Hops) as [Hm _]. split; [by apply mempool_wf_isValid|]. intros tx at_.
  destruct (mempool_admit_cases policy context tx at_ _ Hm) as [(r & -> & _)|(old & evicted & m' & _ & _ & ->)]; by eexists.
Qed.

(** Admission on every branch: a refusal, and a duplicate, change nothing; an admitted
    transaction is stored, every evicted entry paid strictly less than the newcomer and
    no more than any entry that stays, the replaced entry had the same sender and nonce
    and the newcomer pays the minimum replacement fee, and all other entries stay. *)
Theorem admission_is_fair `{Sha256} (policy : CryptoPolicy) (context : SecurityContext) (c : Config.t) (ops : list op)
    (tx : SignedTx.t) (acceptedAt : Z)
    (Hc : Config.isValid c = true) (Hl : Config.maxMempoolSizeBytes c ≤ i64_max) (Hops : Forall op_typed ops) :
  let m := run_all policy context ops (make c) in
  let out := admitTransaction tx policy context acceptedAt m in
  (out.2 = m ∧ ∃ r, out.1 = Ok r ∧
     (Admission.success r = true → r = Admission.duplicate (SignedTx.id tx) ∧ is_Some (entriesById m !! SignedTx.id tx))) ∨
  (∃ old evicted, admitted tx acceptedAt old evicted m out.2 ∧
     out.1 = Ok (match old with
                 | Some i => Admission.replaced (SignedTx.id tx) i
                 | None => Admission.accepted (SignedTx.id tx)
                 end)).
Proof.
  intros m out. destruct (run_all_sound policy context c ops Hc Hl Hops) as [Hm _]. fold m in Hm. unfold out.
  destruct (mempool_admit_cases policy context tx acceptedAt m Hm) as [(r & -> & Hr)|(old & evicted & m' & _ & Had & ->)].
  - left. split; [reflexivity|]. exists r. split; [reflexivity|exact Hr].
  - right. exists old, evicted. split; [exact Had|reflexivity].
Qed.

(** Block selection terminates with an executable and greedy selection: distinct
    transactions of the pool, each with the nonce its sender's account expects after the
    ones before it and of the highest priority among those that could come there, at
    most [maxCount] of them, and with room left none that could be added. *)
Theorem block_selection_is_greedy `{Sha256} (policy : CryptoPolicy) (context : SecurityContext) (c : Config.t) (ops : list op)
    (maxCount : Z) (view : AccountStateView.t)
    (Hc : Config.isValid c = true) (Hl : Config.maxMempoolSizeBytes c ≤ i64_max) (Hops : Forall op_typed ops)
    (Hcount : 0 < maxCount) (Hview : AccountStateView.isValid view = true) (Htyped : view_typed view) :
  let m := run_all policy context ops (make c) in
  ∃ txs, transactionsForBlock maxCount view m = Ok txs ∧ Z.of_nat (length txs) ≤ maxCount ∧ NoDup (SignedTx.id <$> txs) ∧
    (∀ k tx, txs !! k = Some tx → ∃ i e, entriesById m !! i = Some e ∧ transaction e = tx ∧ pending view (take k txs) e ∧
       ∀ i' e', entriesById m !! i' = Some e' → pending view (take k txs) e' → priority_le e e') ∧
    (Z.of_nat (length txs) < maxCount → ∀ i e, entriesById m !! i = Some e → ¬ pending view txs e).
Proof.
  intros m. pose proof (run_all_sound policy context c ops Hc Hl Hops) as Hs. fold m in Hs.
  set (l := sortedEntriesByPriority (entriesById m)).
  destruct (selectLoop_ok view (S (S (length l))) maxCount l ∅ []) as (txs & E & Hg & Hle & Hmax);
    [done|by apply (sound_nonces policy context)|apply tracks_init|constructor|simpl; lia|simpl; lia|].
  exists txs. unfold transactionsForBlock. rewrite (proj2 (Z.eqb_neq _ _)), Hview by lia. cbn [orb negb].
  change (list_to_set (SignedTx.id <$> [])) with (∅ : gset string) in E. split_and!; [exact E|done|by apply (greedy_ids view l)| |].
  - intros k tx Hk. destruct (greedy_step view l txs k tx Hg Hk) as (e & He & Hh). pose proof (head_filter_Some _ _ _ Hh) as [Hin Hp].
    apply elem_of_sorted in Hin as [i Hi]. exists i, e. split_and!; [done..|]. intros i' e' Hi' Hp'.
    assert (e' ∈ filter (pending view (take k txs)) l) as Hin' by (apply list_elem_of_filter; split; [done|]; apply elem_of_sorted; by exists i').
    pose proof (StronglySorted_filter priority_le (pending view (take k txs)) l (sorted_sorted _)) as Hsort.
    destruct (filter (pending view (take k txs)) l) as [|e0 rest]; [done|]. injection Hh as ->.
    apply StronglySorted_inv in Hsort as [_ Hall]. apply elem_of_cons in Hin' as [->|Hin']; [by destruct (total priority_le e e)|].
    rewrite Forall_forall in Hall. by apply Hall.
  - intros Hlt i e Hi. apply Hmax; [done|]. apply elem_of_sorted. by exists i.
Qed.

(** The two selection routines are the same function: selecting "by fee" returns
    exactly what the other returns, on every pool, account view and count. *)
Theorem selection_routines_agree (maxCount : Z) (view : AccountStateView.t) (m : t) :
  transactionsForBlockByFee maxCount view m = transactionsForBlock maxCount view m.
Proof.
  unfold transactionsForBlockByFee, transactionsForBlock. case_match; [done|]. cbv zeta. apply selectByFee_select.
Qed.

(** ** A pool of two transactions *)

#[local] Instance toy : Sha256 := CryptoProperties.toy_sha256.

Definition sample_tx (to : string) (amount fee nonce : Z) : SignedTx.t :=
  match SignedTx.make TRANSFER TransactionProperties.sample_sender to amount fee nonce 9 [] with
  | Ok tx => (SignedTx.attachSignatureBundle [TransactionProperties.sample_signature 9] (SignedTx.withChainId "c" tx).2).2
  | Throw _ => SignedTx.mk (Transaction.mk "" TRANSFER "" "" 0 0 0 0 [] "" "") None
  end.
Definition first_tx : SignedTx.t := sample_tx "bob" 5 10 1.
Definition second_tx : SignedTx.t := sample_tx "carol" 5 20 2.
Definition dearer_tx : SignedTx.t := sample_tx "bob" 50000 11 1.
Definition sample_ops : list op := [Admit first_tx 100; Admit second_tx 90; PruneExpired 200].
Definition small_config : Config.t := Config.mk 10 0 true 3600 1500 1000.
Abbreviation sample_pool := (run_all TransactionProperties.strict_policy USER_TRANSACTION sample_ops (make small_config)).

Lemma ops_typed : Forall op_typed sample_ops.
Proof. repeat constructor; vm_compute; discriminate. Qed.

Lemma mempool_always_valid_witness :
  size (entriesById sample_pool) = 2%nat ∧ isValid TransactionProperties.strict_policy USER_TRANSACTION sample_pool = true.
Proof.
  split; [vm_compute; reflexivity|].
  exact (proj1 (mempool_always_valid TransactionProperties.strict_policy USER_TRANSACTION small_config sample_ops
    eq_refl ltac:(vm_compute; discriminate) ops_typed)).
Defined.

Lemma admission_is_fair_witness :
  ∃ old evicted, admitted dearer_tx 110 old evicted sample_pool
    (admitTransaction dearer_tx TransactionProperties.strict_policy USER_TRANSACTION 110 sample_pool).2.
Proof.
  destruct (admission_is_fair TransactionProperties.strict_policy USER_TRANSACTION small_config sample_ops dearer_tx 110
    eq_refl ltac:(vm_compute; discriminate) ops_typed) as [(_ & r & E & Hr)|(old & evicted & Had & _)].
  - exfalso. vm_compute in E. injection E as <-. destruct Hr as [E _]; [reflexivity|]. vm_compute in E. discriminate.
  - exists old, evicted. exact Had.
Defined.

Lemma empty_view_typed : view_typed ∅.
Proof. intros s. unfold account_nonce, AccountStateView.accountOrDefault. rewrite lookup_empty. vm_compute. split; discriminate. Qed.

Lemma block_selection_is_greedy_witness :
  ∃ txs, transactionsForBlock 5 ∅ sample_pool = Ok txs ∧ length txs = 2%nat ∧ NoDup (SignedTx.id <$> txs).
Proof.
  destruct (block_selection_is_greedy TransactionProperties.strict_policy USER_TRANSACTION small_config sample_ops 5 ∅
    eq_refl ltac:(vm_compute; discriminate) ops_typed ltac:(lia) eq_refl empty_view_typed) as (txs & E & _ & Hnd & _).
  exists txs. split; [exact E|]. split; [|exact Hnd]. vm_compute in E. injection E as <-. reflexivity.
Defined.
End MempoolProperties.
