(* ===== verification/Staking.v ===== *)
(** * node: stake accounts and positions

    Models src/src/economics/StakeAccount.cpp, src/src/node/StakingRegistry.cpp (all but
    the text dumps), src/include/node/AccountabilityWindow.hpp and the activation rules
    of src/include/node/ValidatorSetSchedule.hpp.  A method of the registry is a
    computation over the registry that keeps what was written when it throws: the nested
    [std::map] of positions is updated in place, one position at a time. *)

From Stdlib Require Import Ascii.
From S2P Require Import Prelude Utils Crypto.

(** ** Protocol windows *)

Module Window.
Definition NODO_VALIDATOR_EPOCH_BLOCKS : Z := 43200.
Definition kEvidenceMaxAgeBlocks : Z := 21 * NODO_VALIDATOR_EPOCH_BLOCKS.
Definition kUnbondingBlocks : Z := 28 * NODO_VALIDATOR_EPOCH_BLOCKS.
Definition kUnbondingSeconds : Z := 28 * 24 * 60 * 60.
Definition kFutureBlockSkewSeconds : Z := 300.

Definition evidenceHeightIsAdmissible (offenseHeight inclusionHeight : Z) : bool :=
  negb (offenseHeight =? 0) && (offenseHeight <? inclusionHeight) &&
  (inclusionHeight - offenseHeight <=? kEvidenceMaxAgeBlocks).

Definition isBoundary (finalizedHeight : Z) : bool :=
  negb (finalizedHeight =? 0) && (finalizedHeight mod NODO_VALIDATOR_EPOCH_BLOCKS =? 0).

Definition activationEpoch (transactionHeight : Z) : result Z :=
  throw_if (transactionHeight =? 0) (invalid_argument "Validator activation requires a positive height.");;
  let epoch := (transactionHeight - 1) / NODO_VALIDATOR_EPOCH_BLOCKS + 1 in
  throw_if (u64_max - 2 <? epoch) (overflow_error "Validator activation epoch overflow.");;
  Ok (epoch + 2).

Definition activationHeight (transactionHeight : Z) : result Z :=
  epoch ← activationEpoch transactionHeight;
  throw_if ((u64_max - 1) / NODO_VALIDATOR_EPOCH_BLOCKS <? epoch - 1) (overflow_error "Validator activation height overflow.");;
  Ok ((epoch - 1) * NODO_VALIDATOR_EPOCH_BLOCKS + 1).
End Window.

(** ** Stake accounts *)

Module StakeAccount.
Record t := mk { validatorAddress : string; bondedAmount : Amount; slashedAmount : Amount; jailed : bool; tombstoned : bool }.
#[global] Instance eq_dec : EqDecision t.
Proof. solve_decision. Defined.

Definition isValid (a : t) : bool :=
  negb (empty_string (validatorAddress a)) && negb (Amount.isNegative (bondedAmount a)) &&
  negb (Amount.isNegative (slashedAmount a)) && (slashedAmount a <=? bondedAmount a).

(** The constructor of five arguments. *)
Definition make (address : string) (bonded slashed : Amount) (jailed tombstoned : bool) : result t :=
  let a := mk address bonded slashed jailed tombstoned in
  throw_if (negb (isValid a)) (invalid_argument "Invalid complete StakeAccount state.");; Ok a.

Definition isEligible (a : t) : bool := negb (jailed a) && negb (tombstoned a) && (0 <? bondedAmount a).

Definition canSlash (amount : Amount) (a : t) : result bool :=
  if Amount.isNegative amount || Amount.isZero amount then Ok false
  else remaining ← Amount.sub (bondedAmount a) (slashedAmount a); Ok (amount <=? remaining).

Definition applySlash (amount : Amount) : M t unit := λ a,
  match
    throw_if (Amount.isNegative amount || Amount.isZero amount) (invalid_argument "Slash amount must be positive.");;
    remaining ← Amount.sub (bondedAmount a) (slashedAmount a);
    throw_if (remaining <? amount) (invalid_argument ("Slash amount exceeds remaining stake for validator " +:+ validatorAddress a));;
    Amount.add (slashedAmount a) amount
  with
  | Throw e => (Throw e, a)
  | Ok slashed => (Ok tt, mk (validatorAddress a) (bondedAmount a) slashed (jailed a) (tombstoned a || (bondedAmount a <=? slashed)))
  end.

Definition jail (a : t) : t := mk (validatorAddress a) (bondedAmount a) (slashedAmount a) true (tombstoned a).
Definition tombstone (a : t) : t := mk (validatorAddress a) (bondedAmount a) (slashedAmount a) true true.
Definition unjail (a : t) : t :=
  if tombstoned a then a else mk (validatorAddress a) (bondedAmount a) (slashedAmount a) false (tombstoned a).
End StakeAccount.
Abbreviation StakeAccount := StakeAccount.t.

(** ** Positions *)

Module Position.
Inductive Status := PENDING_ACTIVATION | ACTIVE | UNBONDING | WITHDRAWN | TOMBSTONED.
#[global] Instance Status_eq_dec : EqDecision Status.
Proof. solve_decision. Defined.

Record t := mk {
  positionId : string;
  activeAmount : Amount;
  pendingActivationAmount : Amount;
  pendingUnbondingAmount : Amount;
  withdrawnAmount : Amount;
  slashedAmount : Amount;
  rewardsPending : Amount;
  lockHeight : Z;
  activationHeight : Z;
  unbondingStartHeight : Z;
  withdrawableHeight : Z;
  unbondingStartTime : Z;
  withdrawableTime : Z;
  status : Status;
}.
#[global] Instance eq_dec : EqDecision t.
Proof. solve_decision. Defined.

(** [Position{}] *)
Definition empty : t := mk "" 0 0 0 0 0 0 0 0 0 0 0 0 PENDING_ACTIVATION.

Definition set_status (s : Status) (p : t) : t :=
  mk (positionId p) (activeAmount p) (pendingActivationAmount p) (pendingUnbondingAmount p) (withdrawnAmount p) (slashedAmount p)
     (rewardsPending p) (lockHeight p) (activationHeight p) (unbondingStartHeight p) (withdrawableHeight p) (unbondingStartTime p)
     (withdrawableTime p) s.
Definition set_id (i : string) (p : t) : t :=
  mk i (activeAmount p) (pendingActivationAmount p) (pendingUnbondingAmount p) (withdrawnAmount p) (slashedAmount p)
     (rewardsPending p) (lockHeight p) (activationHeight p) (unbondingStartHeight p) (withdrawableHeight p) (unbondingStartTime p)
     (withdrawableTime p) (status p).
Definition set_lockHeight (h : Z) (p : t) : t :=
  mk (positionId p) (activeAmount p) (pendingActivationAmount p) (pendingUnbondingAmount p) (withdrawnAmount p) (slashedAmount p)
     (rewardsPending p) h (activationHeight p) (unbondingStartHeight p) (withdrawableHeight p) (unbondingStartTime p)
     (withdrawableTime p) (status p).
Definition set_activationHeight (h : Z) (p : t) : t :=
  mk (positionId p) (activeAmount p) (pendingActivationAmount p) (pendingUnbondingAmount p) (withdrawnAmount p) (slashedAmount p)
     (rewardsPending p) (lockHeight p) h (unbondingStartHeight p) (withdrawableHeight p) (unbondingStartTime p)
     (withdrawableTime p) (status p).
(** The five amounts of the life cycle. *)
Definition set_amounts (active pending unbonding withdrawn slashed : Amount) (p : t) : t :=
  mk (positionId p) active pending unbonding withdrawn slashed
     (rewardsPending p) (lockHeight p) (activationHeight p) (unbondingStartHeight p) (withdrawableHeight p) (unbondingStartTime p)
     (withdrawableTime p) (status p).
Definition set_active (a : Amount) (p : t) : t :=
  set_amounts a (pendingActivationAmount p) (pendingUnbondingAmount p) (withdrawnAmount p) (slashedAmount p) p.
Definition set_pending (a : Amount) (p : t) : t :=
  set_amounts (activeAmount p) a (pendingUnbondingAmount p) (withdrawnAmount p) (slashedAmount p) p.
Definition set_unbonding (a : Amount) (p : t) : t :=
  set_amounts (activeAmount p) (pendingActivationAmount p) a (withdrawnAmount p) (slashedAmount p) p.
Definition set_withdrawn (a : Amount) (p : t) : t :=
  set_amounts (activeAmount p) (pendingActivationAmount p) (pendingUnbondingAmount p) a (slashedAmount p) p.
Definition set_slashed (a : Amount) (p : t) : t :=
  set_amounts (activeAmount p) (pendingActivationAmount p) (pendingUnbondingAmount p) (withdrawnAmount p) a p.
(** The four fields of an unbonding. *)
Definition set_unbondingWindow (startHeight height startTime time : Z) (p : t) : t :=
  mk (positionId p) (activeAmount p) (pendingActivationAmount p) (pendingUnbondingAmount p) (withdrawnAmount p) (slashedAmount p)
     (rewardsPending p) (lockHeight p) (activationHeight p) startHeight height startTime time (status p).

Definition positionAvailable (p : t) : result Amount :=
  a ← Amount.add (activeAmount p) (pendingActivationAmount p); Amount.add a (pendingUnbondingAmount p).

Definition statusFor (p : t) : result Status :=
  if bool_decide (status p = TOMBSTONED) then Ok TOMBSTONED
  else
    total ← positionAvailable p;
    Ok (if total =? 0 then WITHDRAWN
        else if Amount.isPositive (activeAmount p) || Amount.isPositive (pendingUnbondingAmount p) then
          (if Amount.isPositive (pendingUnbondingAmount p) && Amount.isZero (activeAmount p) then UNBONDING else ACTIVE)
        else PENDING_ACTIVATION).
End Position.
Abbreviation Position := Position.t.

Definition stakePositionStatusToString (s : Position.Status) : string :=
  match s with
  | Position.PENDING_ACTIVATION => "PENDING_ACTIVATION"
  | Position.ACTIVE => "ACTIVE"
  | Position.UNBONDING => "UNBONDING"
  | Position.WITHDRAWN => "WITHDRAWN"
  | Position.TOMBSTONED => "TOMBSTONED"
  end.

(** The [isSafeScalar] of this file, which also forbids commas. *)
Definition isSafeScalar (value : string) : bool :=
  SafeScalar.isSafeDelimitedText value SafeScalar.npos
    (";{}[]," +:+ String "010"%char (String "013"%char (String "009"%char EmptyString))).

Module LifecycleRecord.
Record t := mk {
  recordId : string;
  action : string;
  transactionId : string;
  ownerAddress : string;
  validatorAddress : string;
  previousValidatorAddress : string;
  amount : Amount;
  activeAfter : Amount;
  pendingActivationAfter : Amount;
  pendingUnbondingAfter : Amount;
  slashedAfter : Amount;
  blockHeight : Z;
  activationHeight : Z;
  withdrawableHeight : Z;
  reason : string;
}.

Definition isValid (r : t) : bool :=
  negb (empty_string (recordId r)) && negb (empty_string (action r)) && isSafeScalar (ownerAddress r) && isSafeScalar (validatorAddress r) &&
  (empty_string (previousValidatorAddress r) || isSafeScalar (previousValidatorAddress r)) &&
  Bool.eqb (String.eqb (action r) "VALIDATOR_KEY_ROTATE") (negb (empty_string (previousValidatorAddress r))) &&
  (empty_string (previousValidatorAddress r) || negb (String.eqb (previousValidatorAddress r) (validatorAddress r))) &&
  negb (Amount.isNegative (amount r)) && negb (Amount.isNegative (activeAfter r)) && negb (Amount.isNegative (pendingActivationAfter r)) &&
  negb (Amount.isNegative (pendingUnbondingAfter r)) && negb (Amount.isNegative (slashedAfter r)) && (0 <? blockHeight r).
End LifecycleRecord.

(** ** The registry *)

Module Staking.
Import Position.
Abbreviation Owners := (gmap string Position).

Record t := mk {
  accounts : gmap string StakeAccount;
  positions : gmap string Owners;
  lifecycleRecords : list LifecycleRecord.t;
  rotationSuccessors : gmap string string;
}.

Definition empty : t := mk ∅ ∅ [] ∅.
Definition UNBONDING_DELAY_BLOCKS : Z := Window.kUnbondingBlocks.

Definition set_accounts (f : gmap string StakeAccount → gmap string StakeAccount) (r : t) : t :=
  mk (f (accounts r)) (positions r) (lifecycleRecords r) (rotationSuccessors r).
Definition set_positions (f : gmap string Owners → gmap string Owners) (r : t) : t :=
  mk (accounts r) (f (positions r)) (lifecycleRecords r) (rotationSuccessors r).

(** [m_positionsByValidatorAndOwner[validator]], which creates a missing map. *)
Definition ensureOwners (validator : string) (r : t) : t :=
  match positions r !! validator with Some _ => r | None => set_positions (insert validator ∅) r end.
Definition ownersOf (validator : string) (r : t) : Owners := default ∅ (positions r !! validator).
(** Writing through a reference to one position. *)
Definition putPosition (validator owner : string) (p : Position) (r : t) : t :=
  set_positions (insert validator (<[owner := p]> (ownersOf validator r))) r.

Definition withdrawableTime (blockTimestamp : Z) : result Z :=
  let delay := Window.kUnbondingSeconds + Window.kFutureBlockSkewSeconds in
  throw_if ((blockTimestamp <=? 0) || (i64_max - delay <? blockTimestamp)) (overflow_error "Stake withdrawable time would overflow.");;
  Ok (blockTimestamp + delay).

Definition requireValidOperationInput (owner validator : string) (amount : Amount) (blockHeight : Z) : result unit :=
  throw_if (negb (isSafeScalar owner) || negb (isSafeScalar validator) || negb (Amount.isPositive amount) || (blockHeight =? 0))
    (invalid_argument "Invalid staking lifecycle operation.").

Definition safeAvailable (a : StakeAccount) : result Amount :=
  throw_if (StakeAccount.bondedAmount a <? StakeAccount.slashedAmount a)
    (logic_error "Invalid stake account has slash above bonded amount.");;
  Amount.sub (StakeAccount.bondedAmount a) (StakeAccount.slashedAmount a).

Definition hasAccount (validator : string) (r : t) : bool := bool_decide (is_Some (accounts r !! validator)).
Definition accountFor (validator : string) (r : t) : option StakeAccount := accounts r !! validator.
Definition accountOrDefault (validator : string) (r : t) : StakeAccount :=
  match accounts r !! validator with Some a => a | None => StakeAccount.mk validator 0 0 false false end.

Section staking.
Context `{Sha256}.

Definition stakePositionId (owner validator : string) : string :=
  if negb (isSafeScalar owner) || negb (isSafeScalar validator) then ""
  else Hash.hashCString ("stake-position:" +:+ validator +:+ ":" +:+ owner).

(** The totals over the owners of a validator, [available] and [slashed]. *)
Definition totalsStep (acc : Amount * Amount) (p : Position) : result (Amount * Amount) :=
  available ← positionAvailable p;
  a ← Amount.add acc.1 available;
  s ← Amount.add acc.2 (slashedAmount p);
  Ok (a, s).
Definition totals (ps : Owners) : result (Amount * Amount) := foldR totalsStep (0, 0) (entries ps).*2.

(** The position that [setAccount] creates for a validator without positions. *)
Definition soloPosition (validator : string) (a : StakeAccount) (available : Amount) : Position :=
  Position.mk (stakePositionId validator validator) available 0 0 0 (StakeAccount.slashedAmount a) 0 1 1 0 0 0 0
    (if StakeAccount.tombstoned a then TOMBSTONED else if Amount.isPositive available then ACTIVE else WITHDRAWN).

Definition setAccount (validator : string) (account : StakeAccount) : M t unit :=
  lift (throw_if (negb (isSafeScalar validator) || negb (StakeAccount.isValid account) ||
                  negb (String.eqb (StakeAccount.validatorAddress account) validator))
         (invalid_argument "Staking registry key does not match a valid stake account."));;
  modify (set_accounts (insert validator account));;
  modify (ensureOwners validator);;
  ps ← gets (ownersOf validator);
  '(available, slashed) ← lift (totals ps);
  mismatch ← lift (if bool_decide (ps = ∅) then Ok false
                   else total ← Amount.add available slashed;
                        Ok (negb (StakeAccount.bondedAmount account =? total) || negb (StakeAccount.slashedAmount account =? slashed)));
  (if mismatch : bool then modify (set_positions (insert validator ∅)) else mret tt);;
  if mismatch || bool_decide (ps = ∅) then
    available ← lift (safeAvailable account);
    if Amount.isPositive available || Amount.isPositive (StakeAccount.slashedAmount account) then
      modify (putPosition validator validator (soloPosition validator account available))
    else mret tt
  else mret tt.

Definition appendLifecycleRecord (action transactionId owner validator : string) (amount : Amount) (blockHeight : Z) (p : Position)
    (reason previous : string) : M t unit := λ r,
  let record := LifecycleRecord.mk
    (Hash.hashCString ("stake-lifecycle:" +:+ to_string (Z.of_nat (length (lifecycleRecords r))) +:+ ":" +:+ action +:+ ":" +:+ validator +:+ ":" +:+
       owner +:+ ":" +:+ to_string blockHeight +:+ ":" +:+ to_string amount +:+ ":" +:+ transactionId +:+ ":" +:+ previous))
    action transactionId owner validator previous amount (activeAmount p) (pendingActivationAmount p) (pendingUnbondingAmount p)
    (slashedAmount p) blockHeight (activationHeight p) (withdrawableHeight p) reason in
  if negb (LifecycleRecord.isValid record) then (Throw (logic_error "Generated invalid stake lifecycle record."), r)
  else (Ok tt, mk (accounts r) (positions r) (lifecycleRecords r ++ [record]) (rotationSuccessors r)).

(** The loop of [rewriteAccountFromPositions] over the owners of a validator. *)
Fixpoint rewriteLoop (validator : string) (preserveTombstoned : bool) (owners : list (string * Position)) (available slashed : Amount)
    : M t (Amount * Amount) :=
  match owners with
  | [] => mret (available, slashed)
  | (owner, p) :: owners =>
      s ← lift (if preserveTombstoned then Ok TOMBSTONED else statusFor p);
      let p := set_status s p in
      modify (putPosition validator owner p);;
      a ← lift (positionAvailable p);
      available ← lift (Amount.add available a);
      slashed ← lift (Amount.add slashed (slashedAmount p));
      rewriteLoop validator preserveTombstoned owners available slashed
  end.

Definition rewriteAccountFromPositions (validator : string) (preserveJailed preserveTombstoned : bool) : M t unit :=
  ps ← gets (λ r, positions r !! validator);
  '(available, slashed) ← rewriteLoop validator preserveTombstoned (match ps with Some ps => entries ps | None => [] end) 0 0;
  bonded ← lift (Amount.add available slashed);
  account ← lift (StakeAccount.make validator bonded slashed (preserveJailed || preserveTombstoned) preserveTombstoned);
  setAccount validator account.

Definition deposit (owner validator : string) (amount : Amount) (blockHeight : Z) (requireExistingPosition : bool) (transactionId : string)
    : M t unit :=
  lift (requireValidOperationInput owner validator amount blockHeight);;
  activation ← lift (Window.activationHeight blockHeight);
  current ← gets (accountOrDefault validator);
  lift (throw_if (StakeAccount.tombstoned current) (invalid_argument "Cannot deposit into a tombstoned validator."));;
  modify (ensureOwners validator);;
  found ← gets (λ r, ownersOf validator r !! owner);
  lift (throw_if (requireExistingPosition && bool_decide (found = None))
    (invalid_argument "Stake top-up requires an existing owner position."));;
  lift (throw_if (match found with
                  | Some p => bool_decide (status p = TOMBSTONED) || Amount.isPositive (pendingUnbondingAmount p)
                  | None => false
                  end) (invalid_argument "Stake top-up requires a non-unbonding live position."));;
  let next := default Position.empty found in
  let next := if empty_string (positionId next) then set_lockHeight blockHeight (set_id (stakePositionId owner validator) next) else next in
  pending ← lift (Amount.add (pendingActivationAmount next) amount);
  let next := set_activationHeight activation (set_pending pending next) in
  s ← lift (statusFor next);
  let next := set_status s next in
  modify (putPosition validator owner next);;
  rewriteAccountFromPositions validator (StakeAccount.jailed current) (StakeAccount.tombstoned current);;
  p ← getsR (λ r, match ownersOf validator r !! owner with Some p => Ok p | None => Throw (out_of_range "map::at") end);
  appendLifecycleRecord (if requireExistingPosition then "TOP_UP" else "DEPOSIT") transactionId owner validator amount blockHeight p
    (if requireExistingPosition then "stake top-up pending activation" else "stake deposit pending activation") "".

(** Moving [amount] of active stake to unbonding; the common tail of
    [requestUnlock] and [requestValidatorExit]. *)
Definition beginUnbonding (action owner validator : string) (p : Position) (active : Amount) (amount : Amount) (blockHeight blockTimestamp deadline : Z)
    (current : StakeAccount) (transactionId reason : string) : M t unit :=
  let p := set_active active p in
  modify (putPosition validator owner p);;
  unbonding ← lift (Amount.add (pendingUnbondingAmount p) amount);
  let p := set_unbondingWindow blockHeight (blockHeight + UNBONDING_DELAY_BLOCKS) blockTimestamp deadline (set_unbonding unbonding p) in
  modify (putPosition validator owner p);;
  s ← lift (statusFor p);
  modify (putPosition validator owner (set_status s p));;
  rewriteAccountFromPositions validator (StakeAccount.jailed current) (StakeAccount.tombstoned current);;
  p ← getsR (λ r, match ownersOf validator r !! owner with Some p => Ok p | None => Throw UndefinedBehaviour end);
  appendLifecycleRecord action transactionId owner validator amount blockHeight p reason "".

Definition requestUnlock (owner validator : string) (amount : Amount) (blockHeight blockTimestamp : Z) (transactionId : string) : M t unit :=
  lift (requireValidOperationInput owner validator amount blockHeight);;
  lift (throw_if (u64_max - UNBONDING_DELAY_BLOCKS <? blockHeight) (overflow_error "Stake withdrawable height would overflow."));;
  deadline ← lift (withdrawableTime blockTimestamp);
  current ← gets (accountOrDefault validator);
  lift (throw_if (StakeAccount.jailed current || StakeAccount.tombstoned current)
    (invalid_argument "Jailed or tombstoned validator stake cannot be unlocked."));;
  found ← gets (λ r, positions r !! validator);
  match found with
  | None => throw (invalid_argument "Validator has no staking positions.")
  | Some ps =>
      match ps !! owner with
      | None => throw (invalid_argument "Stake unlock exceeds active owner stake.")
      | Some p =>
          lift (throw_if (activeAmount p <? amount) (invalid_argument "Stake unlock exceeds active owner stake."));;
          active ← lift (Amount.sub (activeAmount p) amount);
          beginUnbonding "UNLOCK" owner validator p active amount blockHeight blockTimestamp deadline current transactionId
            "stake moved to unbonding"
      end
  end.

Definition withdraw (owner validator : string) (amount : Amount) (blockHeight blockTimestamp : Z) (transactionId : string) : M t unit :=
  lift (requireValidOperationInput owner validator amount blockHeight);;
  current ← gets (accountOrDefault validator);
  lift (throw_if (StakeAccount.jailed current || StakeAccount.tombstoned current)
    (invalid_argument "Jailed or tombstoned validator stake cannot be withdrawn."));;
  found ← gets (λ r, positions r !! validator);
  match found with
  | None => throw (invalid_argument "Validator has no staking positions.")
  | Some ps =>
      match ps !! owner with
      | None => throw (invalid_argument "Stake withdrawal exceeds the owner's unbonding position.")
      | Some p =>
          lift (throw_if (pendingUnbondingAmount p <? amount)
            (invalid_argument "Stake withdrawal exceeds the owner's unbonding position."));;
          lift (throw_if ((withdrawableHeight p =? 0) || (Position.withdrawableTime p =? 0) || (blockHeight <? withdrawableHeight p) ||
                          (blockTimestamp <? Position.withdrawableTime p))
            (invalid_argument "Stake unbonding cooldown has not elapsed."));;
          unbonding ← lift (Amount.sub (pendingUnbondingAmount p) amount);
          let p := set_unbonding unbonding p in
          modify (putPosition validator owner p);;
          withdrawn ← lift (Amount.add (withdrawnAmount p) amount);
          let p := set_withdrawn withdrawn p in
          modify (putPosition validator owner p);;
          s ← lift (statusFor p);
          modify (putPosition validator owner (set_status s p));;
          rewriteAccountFromPositions validator (StakeAccount.jailed current) (StakeAccount.tombstoned current);;
          p ← getsR (λ r, match ownersOf validator r !! owner with Some p => Ok p | None => Throw UndefinedBehaviour end);
          appendLifecycleRecord "WITHDRAW" transactionId owner validator amount blockHeight p
            "withdrawable stake credited to liquid account" ""
      end
  end.

Definition requestValidatorExit (owner validator : string) (blockHeight blockTimestamp : Z) (transactionId : string) : M t unit :=
  lift (throw_if (negb (isSafeScalar owner) || negb (isSafeScalar validator) || (blockHeight =? 0))
    (invalid_argument "Invalid validator exit staking operation."));;
  lift (throw_if (u64_max - UNBONDING_DELAY_BLOCKS <? blockHeight) (overflow_error "Stake withdrawable height would overflow."));;
  deadline ← lift (withdrawableTime blockTimestamp);
  found ← gets (λ r, positions r !! validator);
  match found ≫= lookup owner with
  | None => mret tt
  | Some p =>
      if Amount.isZero (activeAmount p) then mret tt
      else
        current ← gets (accountOrDefault validator);
        beginUnbonding "VALIDATOR_EXIT_UNBOND" owner validator p 0 (activeAmount p) blockHeight blockTimestamp deadline current transactionId
          "validator exit moved active stake to unbonding"
  end.

(** The loops of [activatePending]; the result is the flag [changed]. *)
Fixpoint activateOwners (boundaryHeight : Z) (validator : string) (owners : list (string * Position)) (changed : bool) : M t bool :=
  match owners with
  | [] => mret changed
  | (owner, p) :: owners =>
      if Amount.isPositive (pendingActivationAmount p) && (activationHeight p <=? boundaryHeight) then
        let activated := pendingActivationAmount p in
        active ← lift (Amount.add (activeAmount p) activated);
        let p := set_pending 0 (set_active active p) in
        modify (putPosition validator owner p);;
        s ← lift (statusFor p);
        let p := set_status s p in
        modify (putPosition validator owner p);;
        appendLifecycleRecord "ACTIVATE" "" owner validator activated boundaryHeight p "pending stake activated at deterministic height" "";;
        activateOwners boundaryHeight validator owners true
      else activateOwners boundaryHeight validator owners changed
  end.

Fixpoint activateValidators (boundaryHeight : Z) (validators : list (string * Owners)) (changed : bool) : M t bool :=
  match validators with
  | [] => mret changed
  | (validator, ps) :: validators =>
      current ← gets (accountOrDefault validator);
      if StakeAccount.tombstoned current then activateValidators boundaryHeight validators changed
      else
        changed ← activateOwners boundaryHeight validator (entries ps) changed;
        (if changed : bool then rewriteAccountFromPositions validator (StakeAccount.jailed current) (StakeAccount.tombstoned current) else mret tt);;
        activateValidators boundaryHeight validators changed
  end.

Definition activatePending (boundaryHeight : Z) : M t bool :=
  if boundaryHeight =? 0 then mret false
  else ps ← gets positions; activateValidators boundaryHeight (entries ps) false.

(** [from = amount < remaining ? amount : remaining] moved to the slashed amount. *)
Definition slashPart (amount remaining : Amount) : Amount := if amount <? remaining then amount else remaining.

(** One of the three blocks of the loop of [applyPenaltyState], which moves [from] of one
    amount of a position to its slashed amount. *)
Definition slashFrom (get : Position → Amount) (set : Amount → Position → Position) (validator owner : string) (p : Position)
    (from remainingSlash : Amount) : M t (Position * Amount) :=
  if Amount.isPositive from then
    a ← lift (Amount.sub (get p) from);
    let p := set a p in
    modify (putPosition validator owner p);;
    s ← lift (Amount.add (slashedAmount p) from);
    let p := set_slashed s p in
    modify (putPosition validator owner p);;
    rest ← lift (Amount.sub remainingSlash from);
    mret (p, rest)
  else mret (p, remainingSlash).

(** The three blocks: the position, what remains, and the three amounts taken. *)
Definition slashOwner (validator owner : string) (p : Position) (remainingSlash : Amount) : M t (Position * Amount * (Amount * Amount * Amount)) :=
  let fromActive := slashPart (activeAmount p) remainingSlash in
  '(p, remainingSlash) ← slashFrom activeAmount set_active validator owner p fromActive remainingSlash;
  let fromPendingActivation := if Amount.isPositive remainingSlash then slashPart (pendingActivationAmount p) remainingSlash else 0 in
  '(p, remainingSlash) ← slashFrom pendingActivationAmount set_pending validator owner p fromPendingActivation remainingSlash;
  let fromUnbonding := if Amount.isPositive remainingSlash then slashPart (pendingUnbondingAmount p) remainingSlash else 0 in
  '(p, remainingSlash) ← slashFrom pendingUnbondingAmount set_unbonding validator owner p fromUnbonding remainingSlash;
  mret (p, remainingSlash, (fromActive, fromPendingActivation, fromUnbonding)).

(** The loop of [applyPenaltyState]; the result is what remains to be slashed. *)
Fixpoint penaltyLoop (validator : string) (tombstoned : bool) (blockHeight : Z) (owners : list (string * Position)) (remainingSlash : Amount)
    : M t Amount :=
  match owners with
  | [] => mret remainingSlash
  | (owner, p) :: owners =>
      if Amount.isZero remainingSlash then mret remainingSlash
      else
        '(p, remainingSlash, (fromActive, fromPendingActivation, fromUnbonding)) ← slashOwner validator owner p remainingSlash;
        s ← lift (if tombstoned then Ok TOMBSTONED else statusFor p);
        let p := set_status s p in
        modify (putPosition validator owner p);;
        part ← lift (Amount.add fromActive fromPendingActivation);
        applied ← lift (Amount.add part fromUnbonding);
        (if Amount.isPositive applied then
           appendLifecycleRecord "SLASH" "" owner validator applied blockHeight p
             (if tombstoned then "stake slashed and validator tombstoned" else "stake slashed") ""
         else mret tt);;
        penaltyLoop validator tombstoned blockHeight owners remainingSlash
  end.

Definition applyPenaltyState (validator : string) (totalSlashedAmount : Amount) (jailed tombstoned : bool) (blockHeight : Z) : M t unit :=
  lift (throw_if (negb (isSafeScalar validator) || Amount.isNegative totalSlashedAmount || (blockHeight =? 0))
    (invalid_argument "Invalid staking penalty state."));;
  current ← gets (accountOrDefault validator);
  lift (throw_if (totalSlashedAmount <? StakeAccount.slashedAmount current)
    (invalid_argument "Canonical slashing total cannot decrease."));;
  remainingSlash ← lift (Amount.sub totalSlashedAmount (StakeAccount.slashedAmount current));
  found ← gets (λ r, positions r !! validator);
  remainingSlash ← (match found with
                    | Some ps => penaltyLoop validator tombstoned blockHeight (entries ps) remainingSlash
                    | None => mret remainingSlash
                    end);
  lift (throw_if (Amount.isPositive remainingSlash)
    (invalid_argument "Canonical slashing total exceeds remaining stake positions."));;
  rewriteAccountFromPositions validator (jailed || tombstoned) tombstoned;;
  rewritten ← gets (accountOrDefault validator);
  if negb (StakeAccount.slashedAmount rewritten =? totalSlashedAmount) then
    account ← lift (StakeAccount.make validator (StakeAccount.bondedAmount rewritten) totalSlashedAmount (jailed || tombstoned) tombstoned);
    setAccount validator account
  else mret tt.

Definition unjail (validator : string) : M t unit :=
  account ← gets (accountOrDefault validator);
  lift (throw_if (negb (StakeAccount.isValid account) || negb (StakeAccount.jailed account) || StakeAccount.tombstoned account)
    (invalid_argument "Validator staking state cannot be unjailed."));;
  setAccount validator (StakeAccount.unjail account).

(** ** Queries *)

Definition positionOf (owner validator : string) (r : t) : option Position := positions r !! validator ≫= lookup owner.
Definition activeStake (owner validator : string) (r : t) : Amount := from_option activeAmount 0 (positionOf owner validator r).
Definition pendingActivationStake (owner validator : string) (r : t) : Amount :=
  from_option pendingActivationAmount 0 (positionOf owner validator r).
Definition pendingUnbondingStake (owner validator : string) (r : t) : Amount :=
  from_option pendingUnbondingAmount 0 (positionOf owner validator r).
Definition ownedStake (owner validator : string) (r : t) : result Amount :=
  a ← Amount.add (activeStake owner validator r) (pendingActivationStake owner validator r);
  Amount.add a (pendingUnbondingStake owner validator r).

Definition withdrawableAt (owner validator : string) (blockHeight : Z) (r : t) : Amount :=
  match positionOf owner validator r with
  | None => 0
  | Some p => if (withdrawableHeight p =? 0) || (blockHeight <? withdrawableHeight p) then 0 else pendingUnbondingAmount p
  end.
Definition withdrawableStake (owner validator : string) (blockHeight blockTimestamp : Z) (r : t) : Amount :=
  match positionOf owner validator r with
  | None => 0
  | Some p =>
      if (Position.withdrawableTime p =? 0) || (blockTimestamp <? Position.withdrawableTime p) then 0
      else withdrawableAt owner validator blockHeight r
  end.

Definition activeStakeFor (validator : string) (r : t) : result Amount :=
  let account := accounts r !! validator in
  if match account with Some a => StakeAccount.jailed a || StakeAccount.tombstoned a | None => false end then Ok 0
  else if bool_decide (ownersOf validator r = ∅) then
    match account with Some a => safeAvailable a | None => Ok 0 end
  else foldR (λ total p, if negb (bool_decide (status p = TOMBSTONED)) then Amount.add total (activeAmount p) else Ok total) 0
         (entries (ownersOf validator r)).*2.

Definition bondedStakeFor (validator : string) (r : t) : Amount := StakeAccount.bondedAmount (accountOrDefault validator r).
Definition unlockHeight (owner validator : string) (r : t) : Z := from_option withdrawableHeight 0 (positionOf owner validator r).

(** ** Key rotation *)

(** The bounded walk of [currentAddressFor]. *)
Fixpoint follow (steps : nat) (successors : gmap string string) (current : string) : result string :=
  match steps with
  | O => Throw (logic_error "Validator key-rotation chain contains a cycle.")
  | S steps => match successors !! current with None => Ok current | Some next => follow steps successors next end
  end.
Definition currentAddressFor (historical : string) (r : t) : result string :=
  follow (S (size (rotationSuccessors r))) (rotationSuccessors r) historical.

(** The checks on one position in [isValid]. *)
Definition positionSound (validator owner : string) (p : Position) : bool :=
  isSafeScalar owner && String.eqb (positionId p) (stakePositionId owner validator) && negb (lockHeight p =? 0) &&
  negb (activationHeight p =? 0) && negb (Amount.isNegative (activeAmount p)) && negb (Amount.isNegative (pendingActivationAmount p)) &&
  negb (Amount.isNegative (pendingUnbondingAmount p)) && negb (Amount.isNegative (withdrawnAmount p)) &&
  negb (Amount.isNegative (slashedAmount p)) && negb (Amount.isNegative (rewardsPending p)) && negb (unbondingStartTime p <? 0) &&
  negb (Position.withdrawableTime p <? 0) &&
  (negb (Amount.isPositive (pendingUnbondingAmount p)) ||
   (negb (unbondingStartHeight p =? 0) && negb (unbondingStartTime p <=? 0) &&
    negb (u64_max - UNBONDING_DELAY_BLOCKS <? unbondingStartHeight p) &&
    (withdrawableHeight p =? unbondingStartHeight p + UNBONDING_DELAY_BLOCKS) &&
    negb (i64_max - Window.kUnbondingSeconds - Window.kFutureBlockSkewSeconds <? unbondingStartTime p) &&
    (Position.withdrawableTime p =? unbondingStartTime p + Window.kUnbondingSeconds + Window.kFutureBlockSkewSeconds))).

(** The loop over the owners of a validator: [None] is [return false]. *)
Fixpoint auditOwners (validator : string) (acc : Amount * Amount) (owners : list (string * Position)) : result (option (Amount * Amount)) :=
  match owners with
  | [] => Ok (Some acc)
  | (owner, p) :: owners =>
      if negb (positionSound validator owner p) then Ok None
      else acc ← totalsStep acc p; auditOwners validator acc owners
  end.

Definition auditValidator (r : t) (e : string * Owners) : result bool :=
  if negb (isSafeScalar e.1) then Ok false
  else
    sums ← auditOwners e.1 (0, 0) (entries e.2);
    match sums with
    | None => Ok false
    | Some (available, slashed) =>
        match accounts r !! e.1 with
        | None => Ok false
        | Some a =>
            if negb (StakeAccount.slashedAmount a =? slashed) then Ok false
            else total ← Amount.add available slashed; Ok (StakeAccount.bondedAmount a =? total)
        end
    end.

(** Collecting the rotations of the records; [None] on a conflict. *)
Fixpoint rotationsOf (acc : gmap string string) (records : list LifecycleRecord.t) : option (gmap string string) :=
  match records with
  | [] => Some acc
  | record :: records =>
      if negb (LifecycleRecord.isValid record) then None
      else if String.eqb (LifecycleRecord.action record) "VALIDATOR_KEY_ROTATE" then
        let old := LifecycleRecord.previousValidatorAddress record in
        let new := LifecycleRecord.validatorAddress record in
        match acc !! old with
        | None => rotationsOf (<[old := new]> acc) records
        | Some known => if String.eqb known new then rotationsOf acc records else None
        end
      else rotationsOf acc records
  end.

Definition isValid (r : t) : result bool :=
  if negb (forallb (λ e, isSafeScalar e.1 && StakeAccount.isValid e.2 && String.eqb (StakeAccount.validatorAddress e.2) e.1) (entries (accounts r)))
  then Ok false
  else
    audited ← all_ofR (auditValidator r) (entries (positions r));
    if negb audited then Ok false
    else if negb (bool_decide (rotationsOf ∅ (lifecycleRecords r) = Some (rotationSuccessors r))) then Ok false
    else Ok (forallb (λ e, match currentAddressFor e.1 r with
                           | Throw _ => false
                           | Ok current => negb (String.eqb current e.1) && negb (hasAccount e.1 r) && hasAccount current r
                           end) (entries (rotationSuccessors r))).

(** The records appended for the moved positions, which get their new ids. *)
Fixpoint rotateLoop (old new transactionId : string) (blockHeight : Z) (owners : list (string * Position)) (moved : Owners) : M t Owners :=
  match owners with
  | [] => mret moved
  | (owner, p) :: owners =>
      let p := set_id (stakePositionId owner new) p in
      available ← lift (positionAvailable p);
      appendLifecycleRecord "VALIDATOR_KEY_ROTATE" transactionId owner new available blockHeight p
        ("validator key rotation from " +:+ old) old;;
      rotateLoop old new transactionId blockHeight owners (<[owner := p]> moved)
  end.

Definition emplace {V} (k : string) (v : V) (m : gmap string V) : gmap string V :=
  match m !! k with Some _ => m | None => <[k := v]> m end.

Definition rotateValidatorAddress (old new owner : string) (blockHeight : Z) (transactionId : string) : M t unit :=
  lift (throw_if (negb (isSafeScalar old) || negb (isSafeScalar new) || negb (isSafeScalar owner) || String.eqb old new || (blockHeight =? 0))
    (invalid_argument "Invalid validator key rotation staking input."));;
  taken ← gets (λ r, bool_decide (is_Some (accounts r !! new)) || bool_decide (is_Some (positions r !! new)) ||
                     bool_decide (is_Some (rotationSuccessors r !! new)));
  lift (throw_if taken (invalid_argument "New validator address already has staking history or state."));;
  found ← gets (λ r, (accounts r !! old, positions r !! old));
  match found with
  | (Some oldAccount, Some moved) =>
      lift (throw_if (bool_decide (moved !! owner = None)) (invalid_argument "Validator key rotation owner has no stake position."));;
      modify (set_accounts (delete old));;
      modify (set_positions (delete old));;
      moved ← rotateLoop old new transactionId blockHeight (entries moved) moved;
      modify (set_positions (emplace new moved));;
      account ← lift (StakeAccount.make new (StakeAccount.bondedAmount oldAccount) (StakeAccount.slashedAmount oldAccount)
                        (StakeAccount.jailed oldAccount) (StakeAccount.tombstoned oldAccount));
      modify (set_accounts (emplace new account));;
      modify (λ r, mk (accounts r) (positions r) (lifecycleRecords r) (emplace old new (rotationSuccessors r)));;
      valid ← getsR isValid;
      lift (throw_if (negb valid) (logic_error "Staking registry failed post key-rotation audit."))
  | _ => throw (invalid_argument "Old validator has no staking state to rotate.")
  end.
End staking.
End Staking.

(** ** Lemmas on positions and their sums *)

Module StakingFacts.
Import Position Staking.

Definition avail (p : Position) : Z := activeAmount p + pendingActivationAmount p + pendingUnbondingAmount p.
(** The stake still locked in the positions of a validator, and what was slashed. *)
Definition locked (ps : Owners) : Z := map_sum avail ps.
Definition slashed (ps : Owners) : Z := map_sum slashedAmount ps.

Record typed (p : Position) : Prop := {
  ty_active : Amount.wf (activeAmount p);
  ty_pending : Amount.wf (pendingActivationAmount p);
  ty_unbonding : Amount.wf (pendingUnbondingAmount p);
  ty_slashed : Amount.wf (slashedAmount p);
}.

Lemma add_bound a b c : Amount.add a b = Ok c → a ≤ i64_max → 0 ≤ b → c = a + b ∧ c ≤ i64_max ∧ 0 ≤ c.
Proof.
  intros E Ha Hb. destruct (Amount.add_Ok _ _ _ E) as [-> Hc]. split_and!; [done| |done].
  destruct (decide (b = 0)) as [->|]; [lia|]. apply (Amount.add_bounded a b); [done|lia].
Qed.

Lemma add_fits a b : 0 ≤ a → 0 ≤ b → a + b ≤ i64_max → Amount.add a b = Ok (a + b).
Proof. intros. rewrite Amount.add_wf by (unfold Amount.wf; lia). by rewrite (proj2 (Z.leb_le _ _)) by lia. Qed.

Lemma available_inv p a : typed p → positionAvailable p = Ok a → a = avail p ∧ 0 ≤ a ≤ i64_max.
Proof.
  intros [[? ?] [? ?] [? ?] _] E. unfold positionAvailable in E. inv_ok.
  apply add_bound in E0 as (-> & ? & ?); [|lia|lia]. apply add_bound in E as (-> & ? & ?); [|lia|lia]. unfold avail. lia.
Qed.

Lemma available_fits p : typed p → avail p ≤ i64_max → positionAvailable p = Ok (avail p).
Proof.
  intros [[? ?] [? ?] [? ?] _] Hle. unfold positionAvailable, avail in *. rewrite add_fits by lia. cbn [mbind result_bind].
  by rewrite add_fits by lia.
Qed.

Lemma avail_nonneg p : typed p → 0 ≤ avail p.
Proof. intros [[? ?] [? ?] [? ?] _]. unfold avail. lia. Qed.

Lemma set_status_typed s p : typed p → typed (set_status s p).
Proof. by intros []. Qed.

(** *** Sums over maps that differ only in fields a function ignores *)

Lemma map_sum_same {A} (f : A → Z) (m1 m2 : gmap string A) : (∀ k, f <$> m1 !! k = f <$> m2 !! k) → map_sum f m1 = map_sum f m2.
Proof.
  intros Hk. assert (f <$> m1 = f <$> m2) as E by (apply map_eq; intros k; by rewrite !lookup_fmap).
  assert (∀ m : gmap string A, map_sum f m = map_sum (λ z : Z, z) (f <$> m)) as Hm.
  { intros m. unfold map_sum. rewrite map_to_list_fmap, sum_by_fmap. apply sum_by_ext. by intros [k v] _. }
  by rewrite !Hm, E.
Qed.

(** Positions equal but for their status. *)
Definition restatused (ps ps' : Owners) : Prop :=
  ∀ o, option_Forall2 (λ p p', ∃ s, p' = set_status s p) (ps !! o) (ps' !! o).

Lemma restatused_refl ps : restatused ps ps.
Proof. intros o. destruct (ps !! o) as [p|]; constructor. exists (status p). by destruct p. Qed.

Lemma restatused_same {A} (f : Position → A) ps ps' o : (∀ s p, f (set_status s p) = f p) → restatused ps ps' → f <$> ps' !! o = f <$> ps !! o.
Proof. intros Hf Hr. destruct (Hr o) as [p p' [s ->]|]; [|done]. simpl. by rewrite Hf. Qed.

Lemma restatused_sums ps ps' : restatused ps ps' → locked ps' = locked ps ∧ slashed ps' = slashed ps.
Proof. intros Hr. split; apply map_sum_same; intros o; by apply restatused_same. Qed.

Lemma restatused_lookup ps ps' o p' : restatused ps ps' → ps' !! o = Some p' → ∃ p s, ps !! o = Some p ∧ p' = set_status s p.
Proof. intros Hr E. specialize (Hr o). rewrite E in Hr. inversion Hr as [p ? [s ->] Ep|]. subst. by exists p, s. Qed.

Lemma restatused_insert ps ps' o p s : restatused ps ps' → restatused (<[o := p]> ps) (<[o := set_status s p]> ps').
Proof.
  intros Hr o'. destruct (decide (o = o')) as [->|Hne]; [rewrite !lookup_insert_eq; constructor; by exists s|].
  by rewrite !lookup_insert_ne.
Qed.

Lemma restatused_trans1 ps o p s ps' : ps !! o = Some p → restatused (<[o := set_status s p]> ps) ps' → restatused ps ps'.
Proof.
  intros Eo Hr o'. specialize (Hr o'). destruct (decide (o = o')) as [<-|Hne].
  - rewrite lookup_insert_eq in Hr. rewrite Eo. inversion Hr as [? p' [s' ->] Ep E'|]. subst. constructor. exists s'. done.
  - by rewrite lookup_insert_ne in Hr.
Qed.

Lemma restatused_empty ps ps' : restatused ps ps' → ps = ∅ ↔ ps' = ∅.
Proof.
  intros Hr. split; intros ->; apply map_eq; intros o; specialize (Hr o); rewrite lookup_empty in *; by inversion Hr.
Qed.

(** *** Sums computed by the loops *)

Lemma totals_inv l a s a' s' : Forall typed l → 0 ≤ a ≤ i64_max → 0 ≤ s ≤ i64_max → foldR totalsStep (a, s) l = Ok (a', s') →
  a' = a + sum_by avail l ∧ s' = s + sum_by slashedAmount l ∧ a' ≤ i64_max ∧ s' ≤ i64_max.
Proof.
  intros Hl. revert a s. induction Hl as [|p l Hp _ IH]; intros a s Ha Hs E; simpl in E; [inv_ok; simpl; lia|].
  inv_ok. unfold totalsStep in E0. simpl in E0. inv_ok. apply available_inv in E1 as [-> ?]; [|done].
  apply add_bound in E2 as (-> & ? & ?); [|lia|lia]. destruct Hp as [_ _ _ [? ?]]. apply add_bound in E3 as (-> & ? & ?); [|lia|lia].
  apply IH in E as (-> & -> & ? & ?); [|lia|lia]. simpl. lia.
Qed.

Lemma totalsStep_fits a s p : typed p → 0 ≤ a → 0 ≤ s → a + avail p ≤ i64_max → s + slashedAmount p ≤ i64_max →
  totalsStep (a, s) p = Ok (a + avail p, s + slashedAmount p).
Proof.
  intros Hp Ha Hs H1 H2. pose proof (avail_nonneg p Hp). pose proof (ty_slashed p Hp) as [? ?]. unfold totalsStep.
  rewrite available_fits by (done || lia). cbn [mbind result_bind fst snd]. by rewrite !add_fits by lia.
Qed.

Lemma totals_fits l a s : Forall typed l → 0 ≤ a → 0 ≤ s → a + sum_by avail l ≤ i64_max → s + sum_by slashedAmount l ≤ i64_max →
  foldR totalsStep (a, s) l = Ok (a + sum_by avail l, s + sum_by slashedAmount l).
Proof.
  intros Hl. revert a s. induction Hl as [|p l Hp Hl IH]; intros a s Ha Hs H1 H2; simpl in *; [f_equal; f_equal; lia|].
  pose proof (avail_nonneg p Hp). pose proof (ty_slashed p Hp) as [? ?].
  assert (0 ≤ sum_by avail l) by (apply sum_by_nonneg; intros x Hx; apply avail_nonneg; rewrite Forall_forall in Hl; auto).
  assert (0 ≤ sum_by slashedAmount l) by (apply sum_by_nonneg; intros x Hx; rewrite Forall_forall in Hl; by apply (ty_slashed x), Hl).
  rewrite totalsStep_fits by (done || lia). cbn [mbind result_bind].
  rewrite IH by lia. f_equal. f_equal; lia.
Qed.

Lemma sum_entries f ps : sum_by f (entries ps).*2 = map_sum f (ps : Owners).
Proof. rewrite sum_by_fmap. apply map_sum_entries. Qed.

Definition owners_typed (ps : Owners) : Prop := ∀ o p, ps !! o = Some p → typed p.

Lemma owners_typed_insert ps o p st : owners_typed ps → typed p → owners_typed (<[o := set_status st p]> ps).
Proof. intros Ht Hp o' p' [[<- <-]|[_ E]]%lookup_insert_Some; [by apply set_status_typed|by apply (Ht o')]. Qed.

Lemma owners_typed_entries ps : owners_typed ps → Forall typed (entries ps).*2.
Proof. intros Ht. apply Forall_forall. intros p ([o p'] & -> & Hp%elem_of_entries)%list_elem_of_fmap. by apply (Ht o). Qed.

Lemma totals_owners ps a s : owners_typed ps → totals ps = Ok (a, s) → a = locked ps ∧ s = slashed ps ∧ a ≤ i64_max ∧ s ≤ i64_max.
Proof.
  intros Ht E. apply totals_inv in E; [|by apply owners_typed_entries|unfold i64_max; lia..].
  rewrite !sum_entries in E. exact E.
Qed.

Lemma totals_owners_fits ps : owners_typed ps → locked ps ≤ i64_max → slashed ps ≤ i64_max → totals ps = Ok (locked ps, slashed ps).
Proof.
  intros Ht H1 H2. unfold totals. rewrite totals_fits; rewrite ?sum_entries; [done|by apply owners_typed_entries|lia|lia|done|done].
Qed.

Lemma locked_nonneg ps : owners_typed ps → 0 ≤ locked ps ∧ 0 ≤ slashed ps.
Proof.
  intros Ht. unfold locked, slashed. rewrite <- !sum_entries. pose proof (owners_typed_entries ps Ht) as Hl. rewrite Forall_forall in Hl.
  split; apply sum_by_nonneg; intros p Hp; [by apply avail_nonneg, Hl|by apply (ty_slashed p), Hl].
Qed.

(** *** Writing positions and accounts *)

Definition installed (v : string) (a : StakeAccount) (ps : Owners) (r : t) : t :=
  mk (<[v := a]> (accounts r)) (<[v := ps]> (positions r)) (lifecycleRecords r) (rotationSuccessors r).

Lemma put_present v o p ps r : positions r !! v = Some ps → putPosition v o p r = set_positions (insert v (<[o := p]> ps)) r.
Proof. intros E. unfold putPosition, ownersOf. by rewrite E. Qed.

Lemma set_positions_twice v ps ps' r : set_positions (insert v ps') (set_positions (insert v ps) r) = set_positions (insert v ps') r.
Proof. unfold set_positions. simpl. by rewrite insert_insert_eq. Qed.

Lemma set_positions_id v ps r : positions r !! v = Some ps → set_positions (insert v ps) r = r.
Proof. intros E. destruct r. unfold set_positions. simpl in *. by rewrite insert_id. Qed.

Lemma put_twice v o p p' r : putPosition v o p' (putPosition v o p r) = putPosition v o p' r.
Proof. unfold putPosition at 1 3, ownersOf. simpl. rewrite lookup_insert_eq. simpl. unfold putPosition. by rewrite set_positions_twice, insert_insert_eq. Qed.

Lemma ensure_owners v r : ensureOwners v r = set_positions (insert v (ownersOf v r)) r.
Proof.
  unfold ensureOwners, ownersOf. destruct (positions r !! v) as [ps|] eqn:E; simpl; [|done]. by rewrite set_positions_id.
Qed.

Lemma mret_Ok {S A} (x y : A) (s s' : S) : (mret x : M S A) s = (Ok y, s') → y = x ∧ s' = s.
Proof. by intros [= <- <-]. Qed.

(** Runs the steps of a successful computation. *)
Ltac run_M :=
  repeat (progress (unfold gets, modify in *; inv_M; cbn [orb andb negb] in *;
    repeat match goal with
    | E : (Ok _, _) = (Ok _, _) |- _ => injection E as ?; subst
    | E : mret _ _ = (Ok _, _) |- _ => apply mret_Ok in E as [? ?]; subst
    | E : () = () |- _ => clear E
    end)).

Section staking.
Context `{Sha256}.

Lemma safeAvailable_Ok a x : safeAvailable a = Ok x → x = StakeAccount.bondedAmount a - StakeAccount.slashedAmount a.
Proof. unfold safeAvailable. intros E. inv_ok. by apply Amount.sub_Ok in E as [-> _]. Qed.

(** Setting an account that agrees with the positions only writes the account. *)
Lemma setAccount_agrees v a r u r' : setAccount v a r = (Ok u, r') → owners_typed (ownersOf v r) →
  StakeAccount.bondedAmount a = locked (ownersOf v r) + slashed (ownersOf v r) → StakeAccount.slashedAmount a = slashed (ownersOf v r) →
  r' = installed v a (ownersOf v r) r ∧ isSafeScalar v = true ∧ StakeAccount.isValid a = true ∧ StakeAccount.validatorAddress a = v.
Proof.
  intros E Ht Hb Hs. unfold setAccount in E. run_M. rewrite ensure_owners in *. set (ps := ownersOf v r) in *.
  change (ownersOf v (set_accounts (insert v a) r)) with ps in *.
  assert (ownersOf v (set_positions (insert v ps) (set_accounts (insert v a) r)) = ps) as Eps by (unfold ownersOf; simpl; by rewrite lookup_insert_eq).
  rewrite Eps in *. destruct a4 as [x y]. apply totals_owners in E4 as (-> & -> & ? & ?); [|done].
  destruct (locked_nonneg ps Ht) as [Hl0 Hs0]. apply String.eqb_eq in H3.
  assert (r' = installed v a ps r) as Er; [|by split_and!].
  case_bool_decide as Hempty.
  - cbn [orb] in E. run_M. assert (locked ps = 0 ∧ slashed ps = 0) as [Z1 Z2] by (rewrite Hempty; done).
    match goal with Es : safeAvailable a = Ok _ |- _ => apply safeAvailable_Ok in Es as -> end. rewrite Hb, Hs, Z1, Z2 in E. by injection E as <-.
  - run_M. match goal with Es : Amount.add _ _ = Ok _ |- _ => apply Amount.add_Ok in Es as [-> _] end. rewrite Hb, Hs, !Z.eqb_refl in *. by run_M.
Qed.

Lemma rewriteLoop_cons v tomb o p l a s r x r' : rewriteLoop v tomb ((o, p) :: l) a s r = (Ok x, r') →
  ∃ st b a' s', positionAvailable p = Ok b ∧ Amount.add a b = Ok a' ∧ Amount.add s (slashedAmount p) = Ok s' ∧
    (if tomb then st = TOMBSTONED else statusFor p = Ok st) ∧
    rewriteLoop v tomb l a' s' (putPosition v o (set_status st p) r) = (Ok x, r').
Proof.
  intros E. cbn [rewriteLoop] in E. run_M. eexists _, _, _, _. split_and!; [done..| |exact E]. destruct tomb; [by run_M|done].
Qed.

(** The loop over the owners rewrites statuses and sums the amounts. *)
Lemma rewriteLoop_inv v tomb l a s r ps x r' : positions r !! v = Some ps → owners_typed ps → NoDup l.*1 →
  (∀ o p, (o, p) ∈ l → ps !! o = Some p) → 0 ≤ a ≤ i64_max → 0 ≤ s ≤ i64_max →
  rewriteLoop v tomb l a s r = (Ok x, r') →
  ∃ ps', r' = set_positions (insert v ps') r ∧ restatused ps ps' ∧ x.1 = a + sum_by avail l.*2 ∧ x.2 = s + sum_by slashedAmount l.*2 ∧
    x.1 ≤ i64_max ∧ x.2 ≤ i64_max.
Proof.
  revert a s r ps. induction l as [|[o p] l IH]; intros a s r ps Hps Ht Hnd Hl Ha Hs E.
  { simpl in E. injection E as <- <-. exists ps. simpl. split_and!; [by rewrite set_positions_id|apply restatused_refl|lia..]. }
  apply NoDup_cons in Hnd as [Ho Hnd]. assert (ps !! o = Some p) as Eo by (apply Hl; by left). pose proof (Ht o p Eo) as Hp.
  apply rewriteLoop_cons in E as (st & b & a' & s' & Eb & Ea & Es & _ & E).
  apply available_inv in Eb as [-> ?]; [|done]. apply add_bound in Ea as (-> & ? & ?); [|lia|lia].
  pose proof (ty_slashed p Hp) as [? ?]. apply add_bound in Es as (-> & ? & ?); [|lia|lia].
  rewrite (put_present _ _ _ ps) in E by done.
  apply (IH _ _ _ (<[o := set_status st p]> ps)) in E as (ps' & -> & Hr & -> & -> & ? & ?); [| |by apply owners_typed_insert|done| |lia|lia].
  - exists ps'. rewrite set_positions_twice, !fmap_cons. cbn [sum_by fst snd]. split_and!; [done| |lia..]. by apply (restatused_trans1 ps o p st).
  - by cbn; rewrite lookup_insert_eq.
  - intros o' p' Hin. rewrite lookup_insert_ne; [apply Hl; by right|]. intros <-. apply Ho, list_elem_of_fmap. by exists (o, p').
Qed.
(** The account that mirrors the positions of a validator. *)
Definition mirror (v : string) (jailed tombstoned : bool) (ps : Owners) : StakeAccount :=
  StakeAccount.mk v (locked ps + slashed ps) (slashed ps) (jailed || tombstoned) tombstoned.

Lemma rewrite_inv v j tomb r u r' : rewriteAccountFromPositions v j tomb r = (Ok u, r') → owners_typed (ownersOf v r) →
  ∃ ps', restatused (ownersOf v r) ps' ∧ r' = installed v (mirror v j tomb ps') ps' r ∧ isSafeScalar v = true ∧
    StakeAccount.isValid (mirror v j tomb ps') = true ∧ locked ps' + slashed ps' ≤ i64_max.
Proof.
  intros E Ht. unfold rewriteAccountFromPositions in E. apply M_bind_Ok in E as (ps & r0 & E0 & E). injection E0 as <- <-.
  apply M_bind_Ok in E as ([av sl] & r1 & E1 & E). apply M_bind_Ok in E as (bonded & r2 & E2 & E). apply lift_Ok in E2 as [E2 ->].
  apply M_bind_Ok in E as (acc & r2 & E3 & E). apply lift_Ok in E3 as [E3 ->]. unfold StakeAccount.make in E3. inv_ok.
  assert (∃ ps', ownersOf v r1 = ps' ∧ restatused (ownersOf v r) ps' ∧ installed v (mirror v j tomb ps') ps' r1 = installed v (mirror v j tomb ps') ps' r ∧
    av = locked ps' ∧ sl = slashed ps' ∧ av ≤ i64_max ∧ sl ≤ i64_max) as (ps' & Eo & Hr & Ei & -> & -> & ? & ?).
  { unfold ownersOf in *. destruct (positions r !! v) as [ps|] eqn:Eps; simpl in *.
    - apply (rewriteLoop_inv v tomb _ _ _ r ps) in E1 as (ps' & -> & Hr & Ea & Es & ? & ?);
        [|done|done|apply NoDup_fst_entries|by intros o p ?%elem_of_entries|unfold i64_max; lia..].
      exists ps'. rewrite !sum_entries in *. destruct (restatused_sums _ _ Hr) as [El Esl]. unfold locked, slashed in *. simpl in *.
      rewrite lookup_insert_eq. split_and!; [done|done| |lia..]. unfold installed, set_positions. simpl. by rewrite insert_insert_eq.
    - injection E1 as <- <- <-. exists ∅. rewrite Eps. split_and!; try done; apply restatused_refl. }
  assert (owners_typed ps') as Ht' by (intros o p' (p & st & Ep & ->)%(restatused_lookup _ _ _ _ Hr); by apply set_status_typed, (Ht o)).
  destruct (locked_nonneg ps' Ht'). apply add_bound in E2 as (-> & ? & ?); [|lia|lia].
  apply setAccount_agrees in E as (-> & ? & ? & _); rewrite ?Eo; try done.
  exists ps'. by split_and!.
Qed.

(** *** The audited registry *)

Definition posok (v o : string) (p : Position) : Prop := typed p ∧ positionSound v o p = true.
Definition owners_ok (v : string) (ps : Owners) : Prop := ∀ o p, ps !! o = Some p → posok v o p.

(** What [isValid] checks, for amounts of the width of the code, and that every account
    has its map of positions. *)
Record wf (r : t) : Prop := {
  wf_accounts : ∀ v a, accounts r !! v = Some a →
    isSafeScalar v = true ∧ StakeAccount.isValid a = true ∧ StakeAccount.validatorAddress a = v ∧ StakeAccount.bondedAmount a ≤ i64_max;
  wf_positions : ∀ v ps, positions r !! v = Some ps → owners_ok v ps ∧
    ∃ a, accounts r !! v = Some a ∧ StakeAccount.slashedAmount a = slashed ps ∧ StakeAccount.bondedAmount a = locked ps + slashed ps;
  wf_owned : ∀ v, is_Some (accounts r !! v) → is_Some (positions r !! v);
  wf_records : rotationsOf ∅ (lifecycleRecords r) = Some (rotationSuccessors r);
  wf_rotated : ∀ old new, rotationSuccessors r !! old = Some new → accounts r !! old = None ∧
    ∃ current, currentAddressFor old r = Ok current ∧ current ≠ old ∧ is_Some (accounts r !! current);
}.

Lemma owners_ok_typed v ps : owners_ok v ps → owners_typed ps.
Proof. intros Hok o p Ep. by destruct (Hok o p Ep). Qed.

Lemma auditOwners_ok v l acc : Forall (λ e, positionSound v e.1 e.2 = true) l →
  auditOwners v acc l = (x ← foldR totalsStep acc l.*2; Ok (Some x)).
Proof.
  intros Hl. revert acc. induction Hl as [|[o p] l Hp _ IH]; intros acc; [done|]. cbn [auditOwners fst snd] in *. rewrite Hp. cbn [negb].
  rewrite fmap_cons. cbn [foldR snd]. destruct (totalsStep acc p) as [acc'|e]; [apply IH|done].
Qed.

Lemma auditValidator_ok r v ps : wf r → positions r !! v = Some ps → auditValidator r (v, ps) = Ok true.
Proof.
  intros Hr Eps. destruct (wf_positions r Hr v ps Eps) as [Hok (a & Ea & Es & Eb)].
  destruct (wf_accounts r Hr v a Ea) as (Hv & _ & _ & Hmax). pose proof (owners_ok_typed v ps Hok) as Ht.
  destruct (locked_nonneg ps Ht) as [Hl0 Hs0].
  unfold auditValidator. cbn [fst snd]. rewrite Hv. cbn [negb]. rewrite auditOwners_ok.
  2:{ apply Forall_forall. intros [o p] Hin%elem_of_entries. by destruct (Hok o p Hin). }
  fold (totals ps). rewrite totals_owners_fits by (done || lia). cbn [mbind result_bind]. rewrite Ea, Es, Z.eqb_refl. cbn [negb].
  rewrite add_fits by lia. cbn [mbind result_bind]. by rewrite Eb, Z.eqb_refl.
Qed.

Lemma wf_audit r : wf r → isValid r = Ok true.
Proof.
  intros Hr. unfold isValid.
  rewrite (proj2 (forallb_forall _ _)).
  2:{ intros [v a] Hin. apply list_elem_of_In, elem_of_entries in Hin. destruct (wf_accounts r Hr v a Hin) as (E1 & E2 & E3 & _). cbn [fst snd]. rewrite E1, E2, E3. apply String.eqb_refl. }
  cbn [negb]. rewrite (proj2 (all_ofR_true _ _)).
  2:{ intros [v ps] Hin%elem_of_entries. by apply auditValidator_ok. }
  cbn [mbind result_bind negb]. rewrite bool_decide_eq_true_2 by apply (wf_records r Hr). cbn [negb]. f_equal.
  apply forallb_forall. intros [old new] Hin. apply list_elem_of_In, elem_of_entries in Hin.
  destruct (wf_rotated r Hr old new Hin) as (Hnone & cur & Ecur & Hne & Hsome). cbn [fst]. rewrite Ecur. unfold hasAccount.
  rewrite Hnone, (bool_decide_eq_true_2 _ Hsome), (proj2 (String.eqb_neq _ _) Hne). by rewrite bool_decide_eq_false_2 by (intros [? [=]]).
Qed.
(** *** Steps of an operation on one validator *)

(** Only the positions of [v] and records that are no rotations were added. *)
Record grown (v : string) (ps : Owners) (r r' : t) : Prop := {
  g_accounts : accounts r' = accounts r;
  g_positions : positions r' = <[v := ps]> (positions r);
  g_rotations : rotationSuccessors r' = rotationSuccessors r;
  g_records : rotationsOf ∅ (lifecycleRecords r) = Some (rotationSuccessors r) →
    rotationsOf ∅ (lifecycleRecords r') = Some (rotationSuccessors r);
}.

Lemma grown_refl v ps r : positions r !! v = Some ps → grown v ps r r.
Proof. intros E. split; [done|by rewrite insert_id|done|done]. Qed.

Lemma grown_put v ps o p r r' : grown v ps r r' → grown v (<[o := p]> ps) r (putPosition v o p r').
Proof.
  intros [Ha Hp Hs Hr]. assert (positions r' !! v = Some ps) as E by (by rewrite Hp, lookup_insert_eq).
  split; unfold putPosition, ownersOf; simpl; rewrite ?E, ?Hp; [done| |done|done]. simpl. by rewrite insert_insert_eq.
Qed.

Lemma rotationsOf_app acc l rec : LifecycleRecord.isValid rec = true → String.eqb (LifecycleRecord.action rec) "VALIDATOR_KEY_ROTATE" = false →
  rotationsOf acc (l ++ [rec]) = rotationsOf acc l.
Proof.
  intros Hv Ha. revert acc. induction l as [|x l IH]; intros acc; simpl; [by rewrite Hv, Ha|].
  destruct (negb _); [done|]. destruct (String.eqb (LifecycleRecord.action x) _); [|apply IH]. destruct (acc !! _) as [k|]; [destruct (String.eqb k _)|]; auto.
Qed.

Lemma append_inv action tx o v amount h p reason prev r u r' : appendLifecycleRecord action tx o v amount h p reason prev r = (Ok u, r') →
  String.eqb action "VALIDATOR_KEY_ROTATE" = false →
  ∃ rec, r' = mk (accounts r) (positions r) (lifecycleRecords r ++ [rec]) (rotationSuccessors r) ∧
    ∀ acc, rotationsOf acc (lifecycleRecords r ++ [rec]) = rotationsOf acc (lifecycleRecords r).
Proof.
  intros E Ha. unfold appendLifecycleRecord in E. destruct (negb _) eqn:Hv in E; [by injection E|]. apply negb_false_iff in Hv.
  injection E as _ <-. eexists. split; [done|]. intros acc. by apply rotationsOf_app.
Qed.

Lemma grown_append action tx o w v amount h p reason prev ps r r1 u r' : grown v ps r r1 →
  appendLifecycleRecord action tx o w amount h p reason prev r1 = (Ok u, r') → String.eqb action "VALIDATOR_KEY_ROTATE" = false → grown v ps r r'.
Proof. intros [Ha Hp Hs Hr] E Hact. apply append_inv in E as (rec & -> & Hrec); [|done]. split; simpl; try done. intros Hw. rewrite Hrec. auto. Qed.

Lemma wf_append action tx o w amount h p reason prev r u r' : wf r →
  appendLifecycleRecord action tx o w amount h p reason prev r = (Ok u, r') → String.eqb action "VALIDATOR_KEY_ROTATE" = false → wf r'.
Proof.
  intros [Ha Hp Ho Hw Hr] E Hact. apply append_inv in E as (rec & -> & Hrec); [|done]. split; simpl; try done. by rewrite Hrec.
Qed.

(** Rewriting the account of a live validator from sound positions keeps the audit. *)
Lemma wf_rewrite v j tomb ps r r1 u r' : wf r → grown v ps r r1 → owners_ok v ps → rotationSuccessors r !! v = None →
  rewriteAccountFromPositions v j tomb r1 = (Ok u, r') →
  wf r' ∧ ∃ ps', restatused ps ps' ∧ positions r' = <[v := ps']> (positions r) ∧ accounts r' = <[v := mirror v j tomb ps']> (accounts r) ∧
    rotationSuccessors r' = rotationSuccessors r.
Proof.
  intros Hr Hg Hok Hlive E. assert (ownersOf v r1 = ps) as Eps by (unfold ownersOf; by rewrite (g_positions _ _ _ _ Hg), lookup_insert_eq).
  apply rewrite_inv in E as (ps' & Hst & -> & Hv & Hval & Hmax); rewrite Eps in *; [|by apply (owners_ok_typed v)].
  assert (accounts (installed v (mirror v j tomb ps') ps' r1) = <[v := mirror v j tomb ps']> (accounts r)) as Ea
    by (simpl; by rewrite (g_accounts _ _ _ _ Hg)).
  assert (positions (installed v (mirror v j tomb ps') ps' r1) = <[v := ps']> (positions r)) as Ep
    by (simpl; by rewrite (g_positions _ _ _ _ Hg), insert_insert_eq).
  split; [|exists ps'; split_and!; [done..|apply (g_rotations _ _ _ _ Hg)]].
  split; rewrite ?Ea, ?Ep.
  - intros w a [[<- <-]|[_ Hw]]%lookup_insert_Some; [by split_and!|by apply (wf_accounts r Hr)].
  - intros w qs [[<- <-]|[Hne Hw]]%lookup_insert_Some.
    + split; [|exists (mirror v j tomb ps'); by rewrite lookup_insert_eq].
      intros o p' (p & st & Ep' & ->)%(restatused_lookup _ _ _ _ Hst). destruct (Hok o p Ep') as [? ?]. by split; [apply set_status_typed|].
    + destruct (wf_positions r Hr w qs Hw) as [Hq (a & Hacc & ?)]. split; [done|]. exists a. by rewrite lookup_insert_ne.
  - intros w. rewrite !lookup_insert_is_Some'. intros [?|?]; [by left|right; by apply (wf_owned r Hr)].
  - simpl. rewrite (g_rotations _ _ _ _ Hg). apply (g_records _ _ _ _ Hg), (wf_records r Hr).
  - simpl. rewrite (g_rotations _ _ _ _ Hg). intros old new Hold.
    destruct (wf_rotated r Hr old new Hold) as (Hnone & cur & Ecur & Hne & Hsome). split; [rewrite lookup_insert_ne; [done|congruence]|].
    exists cur. unfold currentAddressFor. simpl. rewrite (g_rotations _ _ _ _ Hg). split_and!; [done..|].
    destruct (decide (v = cur)) as [<-|]; [by rewrite lookup_insert_eq|by rewrite lookup_insert_ne].
Qed.

(** A validator with positions has not been rotated away. *)
Lemma positions_live r v ps : wf r → positions r !! v = Some ps → rotationSuccessors r !! v = None.
Proof.
  intros Hr E. destruct (rotationSuccessors r !! v) as [new|] eqn:Ev; [|done]. exfalso.
  destruct (wf_rotated r Hr v new Ev) as [Hnone _]. destruct (wf_positions r Hr v ps E) as [_ (a & Ha & _)]. congruence.
Qed.
(** The checks on a position as propositions. *)
Lemma sound_iff v o p : positionSound v o p = true ↔
  isSafeScalar o = true ∧ positionId p = stakePositionId o v ∧ lockHeight p ≠ 0 ∧ activationHeight p ≠ 0 ∧ 0 ≤ activeAmount p ∧
  0 ≤ pendingActivationAmount p ∧ 0 ≤ pendingUnbondingAmount p ∧ 0 ≤ withdrawnAmount p ∧ 0 ≤ slashedAmount p ∧ 0 ≤ rewardsPending p ∧
  0 ≤ unbondingStartTime p ∧ 0 ≤ Position.withdrawableTime p ∧
  (0 < pendingUnbondingAmount p →
   unbondingStartHeight p ≠ 0 ∧ 0 < unbondingStartTime p ∧ unbondingStartHeight p ≤ u64_max - UNBONDING_DELAY_BLOCKS ∧
   withdrawableHeight p = unbondingStartHeight p + UNBONDING_DELAY_BLOCKS ∧
   unbondingStartTime p ≤ i64_max - Window.kUnbondingSeconds - Window.kFutureBlockSkewSeconds ∧
   Position.withdrawableTime p = unbondingStartTime p + Window.kUnbondingSeconds + Window.kFutureBlockSkewSeconds).
Proof.
  unfold positionSound, Amount.isNegative, Amount.isPositive. rewrite !andb_true_iff, orb_true_iff, !andb_true_iff, !negb_true_iff, String.eqb_eq.
  rewrite !Z.eqb_neq, !Z.eqb_eq, !Z.ltb_ge, Z.leb_gt.
  split; intros Hs; decompose [and] Hs; split_and!; try assumption; try lia; destruct (decide (0 < pendingUnbondingAmount p)); try lia.
Qed.

(** The sums after one position was written. *)
Lemma sums_put ps o p : locked (<[o := p]> ps) = locked ps - from_option avail 0 (ps !! o) + avail p ∧
  slashed (<[o := p]> ps) = slashed ps - from_option slashedAmount 0 (ps !! o) + slashedAmount p.
Proof.
  unfold locked, slashed. destruct (ps !! o) as [q|] eqn:E; simpl.
  - by rewrite !(map_sum_update _ _ _ _ _ E).
  - rewrite !map_sum_insert by done. lia.
Qed.

Lemma owners_ok_put v ps o p : owners_ok v ps → posok v o p → owners_ok v (<[o := p]> ps).
Proof. intros Hok Hp o' p' [[<- <-]|[_ E]]%lookup_insert_Some; [done|by apply Hok]. Qed.

Lemma owners_ok_of r v : wf r → owners_ok v (ownersOf v r).
Proof. intros Hr. unfold ownersOf. destruct (positions r !! v) as [ps|] eqn:E; simpl; [by apply (wf_positions r Hr)|]. by intros o p. Qed.

Lemma grown_ensure v r : grown v (ownersOf v r) r (ensureOwners v r).
Proof. rewrite ensure_owners. by split. Qed.

(** What an operation on the positions of one validator did. *)
Record changed (v : string) (r r' : t) (moved slash : Z) : Prop := {
  ch_wf : wf r';
  ch_rotations : rotationSuccessors r' = rotationSuccessors r;
  ch_others : ∀ w, w ≠ v → positions r' !! w = positions r !! w ∧ accounts r' !! w = accounts r !! w;
  ch_locked : locked (ownersOf v r') = locked (ownersOf v r) + moved;
  ch_slashed : slashed (ownersOf v r') = slashed (ownersOf v r) + slash;
}.

(** The common tail: the account is rewritten and a record appended. *)
Lemma commit_changed v j tomb ps r r1 u r2 action tx o w amount h p reason prev u' r' moved slash : wf r → grown v ps r r1 → owners_ok v ps →
  rotationSuccessors r !! v = None → rewriteAccountFromPositions v j tomb r1 = (Ok u, r2) →
  appendLifecycleRecord action tx o w amount h p reason prev r2 = (Ok u', r') → String.eqb action "VALIDATOR_KEY_ROTATE" = false →
  locked ps = locked (ownersOf v r) + moved → slashed ps = slashed (ownersOf v r) + slash → changed v r r' moved slash.
Proof.
  intros Hr Hg Hok Hlive E1 E2 Hact Hl Hs. destruct (wf_rewrite v j tomb ps r r1 u r2 Hr Hg Hok Hlive E1) as [Hw2 (ps' & Hst & Hp & Ha & Hrot)].
  destruct (restatused_sums _ _ Hst) as [El Esl]. pose proof (wf_append _ _ _ _ _ _ _ _ _ _ _ _ Hw2 E2 Hact) as Hw.
  apply append_inv in E2 as (rec & -> & _); [|done]. split; [exact Hw|exact Hrot|..].
  - intros x Hx. simpl. by rewrite Hp, Ha, !lookup_insert_ne.
  - unfold ownersOf at 1. simpl. rewrite Hp, lookup_insert_eq. simpl. lia.
  - unfold ownersOf at 1. simpl. rewrite Hp, lookup_insert_eq. simpl. lia.
Qed.

Lemma activationHeight_pos h x : 0 ≤ h → Window.activationHeight h = Ok x → 0 < x.
Proof.
  unfold Window.activationHeight, Window.activationEpoch. intros Hh E. inv_ok. unfold Window.NODO_VALIDATOR_EPOCH_BLOCKS in *.
  repeat match goal with Eq : (h =? 0) = false |- _ => apply Z.eqb_neq in Eq end. pose proof (Z.div_pos (h - 1) 43200). lia.
Qed.

Lemma input_ok o v amount h u : requireValidOperationInput o v amount h = Ok u → isSafeScalar o = true ∧ isSafeScalar v = true ∧ 0 < amount ∧ h ≠ 0.
Proof.
  unfold requireValidOperationInput, Amount.isPositive. intros E. inv_ok. repeat (apply orb_false_iff in E as [E ?]).
  split_and!; (done || lia).
Qed.

(** The position a deposit starts from: the owner's, or a fresh one. *)
Definition depositBase (o v : string) (h : Z) (found : option Position) : Position :=
  let next := default Position.empty found in
  if empty_string (positionId next) then set_lockHeight h (set_id (stakePositionId o v) next) else next.

Lemma depositBase_ok o v h found : isSafeScalar o = true → h ≠ 0 → (∀ p, found = Some p → posok v o p) →
  typed (depositBase o v h found) ∧ (∀ a, a ≠ 0 → positionSound v o (set_activationHeight a (depositBase o v h found)) = true) ∧
  avail (depositBase o v h found) = from_option avail 0 found ∧ slashedAmount (depositBase o v h found) = from_option slashedAmount 0 found.
Proof.
  intros Ho Hh Hf. destruct found as [p|]; unfold depositBase; simpl.
  - destruct (Hf p eq_refl) as [Ht Hs%sound_iff]. decompose [and] Hs. destruct (empty_string (positionId p)); simpl;
      (split_and!; [by destruct Ht| |done|done]); intros a Ha; apply sound_iff; simpl; split_and!; (done || lia).
  - split_and!; [by split; unfold Amount.wf, i64_max; simpl; lia| |done|done]. intros a Ha. apply sound_iff. simpl. split_and!; (done || lia).
Qed.

(** Writing a larger pending amount. *)
Lemma set_pending_ok v o p a : posok v o p → Amount.wf a → posok v o (set_pending a p).
Proof. intros [[? ? ? ?] Hs%sound_iff] [? ?]. split; [by split|]. apply sound_iff. simpl. tauto. Qed.

Lemma set_status_ok v o p st : posok v o p → posok v o (set_status st p).
Proof. intros [Ht Hs]. by split; [apply set_status_typed|]. Qed.

Lemma deposit_changed o v amount h top tx r u r' : wf r → rotationSuccessors r !! v = None → 0 ≤ h → deposit o v amount h top tx r = (Ok u, r') →
  changed v r r' amount 0.
Proof.
  intros Hr Hlive Hh E. unfold deposit in E. run_M. apply input_ok in E0 as (Ho & Hv & Hpos & Hh0). apply activationHeight_pos in E1; [|done].
  pose proof (grown_ensure v s1) as Hg. assert (ownersOf v (ensureOwners v s1) = ownersOf v s1) as Eo
    by (rewrite ensure_owners; unfold ownersOf; simpl; by rewrite lookup_insert_eq).
  rewrite Eo in *. set (found := ownersOf v s1 !! o) in *. fold (depositBase o v h found) in *.
  destruct (depositBase_ok o v h found) as (Ht & Hs & Ea & Es); [done..|by intros p Ep; apply (owners_ok_of s1 v Hr)|].
  destruct (Ht) as [[? ?] [? ?] [? ?] [? ?]]. apply add_bound in E8 as (-> & ? & ?); [|lia|lia].
  set (next := set_status a8 _) in *. assert (posok v o next) as Hn.
  { apply set_status_ok. apply (set_pending_ok v o (set_activationHeight a0 (depositBase o v h found))); [|done].
    split; [by destruct Ht|]. apply Hs. lia. }
  eapply (commit_changed v _ _ (<[o := next]> (ownersOf v s1))); [done|by apply grown_put| |done|exact E11|exact E|by destruct top|..].
  - by apply owners_ok_put; [apply owners_ok_of|].
  - destruct (sums_put (ownersOf v s1) o next) as [-> _]. fold found. rewrite <- Ea. unfold next, avail. simpl. lia.
  - destruct (sums_put (ownersOf v s1) o next) as [_ ->]. fold found. rewrite <- Es. unfold next. simpl. lia.
Qed.
Lemma withdrawableTime_ok t x : withdrawableTime t = Ok x →
  0 < t ∧ t ≤ i64_max - Window.kUnbondingSeconds - Window.kFutureBlockSkewSeconds ∧ x = t + Window.kUnbondingSeconds + Window.kFutureBlockSkewSeconds.
Proof. unfold withdrawableTime. intros E. inv_ok. lia. Qed.

(** The same tail after one position [p] became [p']. *)
Lemma put_changed v o j tomb ps p p' r r1 u r2 action tx w amount h q reason prev u' r' : wf r → positions r !! v = Some ps → ps !! o = Some p →
  posok v o p' → grown v (<[o := p']> ps) r r1 → rewriteAccountFromPositions v j tomb r1 = (Ok u, r2) →
  appendLifecycleRecord action tx o w amount h q reason prev r2 = (Ok u', r') → String.eqb action "VALIDATOR_KEY_ROTATE" = false →
  changed v r r' (avail p' - avail p) (slashedAmount p' - slashedAmount p).
Proof.
  intros Hr Eps Eo Hp' Hg E1 E2 Hact. assert (ownersOf v r = ps) as Eow by (unfold ownersOf; by rewrite Eps).
  destruct (wf_positions _ Hr v ps Eps) as [Hok _]. destruct (sums_put ps o p') as [S1 S2]. rewrite Eo in S1, S2. simpl in S1, S2.
  eapply commit_changed; [exact Hr|exact Hg|by apply owners_ok_put|by apply (positions_live _ v ps)|exact E1|exact E2|done|rewrite Eow; lia..].
Qed.

Lemma beginUnbonding_changed action o v p active amount h t deadline current tx reason ps r u r' : wf r → positions r !! v = Some ps →
  ps !! o = Some p → String.eqb action "VALIDATOR_KEY_ROTATE" = false → 0 < h ≤ u64_max - UNBONDING_DELAY_BLOCKS → withdrawableTime t = Ok deadline →
  0 ≤ active → 0 ≤ amount → activeAmount p = active + amount →
  beginUnbonding action o v p active amount h t deadline current tx reason r = (Ok u, r') → changed v r r' 0 0.
Proof.
  intros Hr Eps Eo Hact Hh Hd Ha0 Ham Hsum E. unfold beginUnbonding in E. run_M.
  destruct (wf_positions _ Hr v ps Eps) as [Hok _]. destruct (Hok o p Eo) as [[[? ?] [? ?] [? ?] [? ?]] Hs%sound_iff].
  apply add_bound in E1 as (-> & ? & ?); [|simpl; lia..]. simpl in *. apply withdrawableTime_ok in Hd as (? & ? & ->).
  set (p1 := set_active active p) in *. set (p2 := set_unbondingWindow _ _ _ _ _) in *.
  assert (posok v o p2) as Hp2.
  { split; [split; unfold Amount.wf; simpl; lia|]. apply sound_iff. decompose [and] Hs. simpl. unfold Window.kUnbondingSeconds, Window.kFutureBlockSkewSeconds in *.
    split_and!; (done || lia). }
  replace 0 with (avail (set_status a2 p2) - avail p) at 1 by (unfold p2, p1, avail; simpl; lia).
  replace 0 with (slashedAmount (set_status a2 p2) - slashedAmount p) by (unfold p2, p1; simpl; lia).
  eapply (put_changed v o); [exact Hr|exact Eps|exact Eo|by apply set_status_ok| |eassumption|exact E|exact Hact].
  rewrite <- (insert_insert_eq ps o (set_status a2 p2) p2), <- (insert_insert_eq ps o p2 p1). by repeat apply grown_put; apply grown_refl.
Qed.

Lemma unlock_changed o v amount h t tx r u r' : wf r → 0 ≤ h → requestUnlock o v amount h t tx r = (Ok u, r') → changed v r r' 0 0.
Proof.
  intros Hr Hh E. unfold requestUnlock in E. run_M. apply input_ok in E0 as (Ho & Hv & Hpos & Hh0).
  match goal with E : context [positions ?x !! v] |- _ => destruct (positions x !! v) as [ps|] eqn:Eps end; [|done]. destruct (ps !! o) as [p|] eqn:Eo; [|done]. run_M.
  match goal with Es : Amount.sub _ _ = Ok _ |- _ => apply Amount.sub_Ok in Es as [-> ?] end.
  eapply (beginUnbonding_changed "UNLOCK" o v p); [exact Hr|exact Eps|exact Eo|exact eq_refl| |eassumption| | | |exact E]; lia.
Qed.

Lemma exit_changed o v h t tx r u r' : wf r → 0 ≤ h → requestValidatorExit o v h t tx r = (Ok u, r') → r' = r ∨ changed v r r' 0 0.
Proof.
  intros Hr Hh E. unfold requestValidatorExit in E. run_M.
  match goal with E : context [positions ?x !! v] |- _ => destruct (positions x !! v) as [ps|] eqn:Eps end; simpl in E; [|run_M; by left]. destruct (ps !! o) as [p|] eqn:Eo; simpl in E; [|run_M; by left].
  destruct (Amount.isZero (activeAmount p)) eqn:Hz; [run_M; by left|]. right. run_M.
  destruct (wf_positions _ Hr v ps Eps) as [Hok _]. destruct (Hok o p Eo) as [[[? ?] _ _ _] _].
  unfold Amount.isZero in Hz. eapply (beginUnbonding_changed "VALIDATOR_EXIT_UNBOND" o v p); [exact Hr|exact Eps|exact Eo|exact eq_refl| |eassumption| | | |exact E]; lia.
Qed.

Lemma withdraw_changed o v amount h t tx r u r' : wf r → withdraw o v amount h t tx r = (Ok u, r') →
  changed v r r' (-amount) 0 ∧ ∃ ps p, positions r !! v = Some ps ∧ ps !! o = Some p ∧ 0 < amount ≤ pendingUnbondingAmount p ∧
    withdrawableHeight p ≤ h ∧ Position.withdrawableTime p ≤ t.
Proof.
  intros Hr E. unfold withdraw in E. run_M. apply input_ok in E0 as (Ho & Hv & Hpos & Hh0).
  match goal with E : context [positions ?x !! v] |- _ => destruct (positions x !! v) as [ps|] eqn:Eps end; [|done]. destruct (ps !! o) as [p|] eqn:Eo; [|done]. run_M.
  match goal with Es : Amount.sub _ _ = Ok _ |- _ => apply Amount.sub_Ok in Es as [-> ?] end.
  match goal with Es : Amount.add _ _ = Ok _ |- _ => apply Amount.add_Ok in Es as [-> ?] end.
  split; [|exists ps, p; split_and!; (assumption || lia || reflexivity)]. set (p1 := set_unbonding _ p) in *. set (p2 := set_withdrawn _ p1) in *.
  destruct (wf_positions _ Hr v ps Eps) as [Hok _]. destruct (Hok o p Eo) as [[[? ?] [? ?] [? ?] [? ?]] Hs%sound_iff].
  replace (-amount) with (avail (set_status a5 p2) - avail p) by (unfold p2, p1, avail; simpl; lia).
  replace 0 with (slashedAmount (set_status a5 p2) - slashedAmount p) by (unfold p2, p1; simpl; lia).
  eapply (put_changed v o); [exact Hr|exact Eps|exact Eo| | |eassumption|exact E|exact eq_refl].
  - apply set_status_ok. split; [split; unfold Amount.wf; simpl; lia|]. apply sound_iff.
    destruct Hs as (S1 & S2 & S3 & S4 & S5 & S6 & S7 & S8 & S9 & S10 & S11 & S12 & S13). simpl.
    split_and!; [assumption..|lia|lia|assumption|assumption|assumption|assumption|]. intros. apply S13. lia.
  - rewrite <- (insert_insert_eq ps o (set_status a5 p2) p2), <- (insert_insert_eq ps o p2 p1). by repeat apply grown_put; apply grown_refl.
Qed.
(** *** Activation *)

Lemma changed_refl v r : wf r → changed v r r 0 0.
Proof. intros Hr. split; (done || lia). Qed.

Lemma changed_trans v r1 r2 r3 a b c d : changed v r1 r2 a b → changed v r2 r3 c d → changed v r1 r3 (a + c) (b + d).
Proof.
  intros [W1 R1 O1 L1 S1] [W2 R2 O2 L2 S2]. split; [done|congruence| |lia|lia].
  intros w Hw. destruct (O1 w Hw) as [<- <-]. by apply O2.
Qed.

Lemma changed_same v r1 r2 r3 : changed v r1 r2 0 0 → changed v r2 r3 0 0 → changed v r1 r3 0 0.
Proof. apply changed_trans. Qed.

Lemma append_changed action tx o w v amount h p reason prev r u r' : wf r →
  appendLifecycleRecord action tx o w amount h p reason prev r = (Ok u, r') → String.eqb action "VALIDATOR_KEY_ROTATE" = false → changed v r r' 0 0.
Proof.
  intros Hr E Hact. pose proof (wf_append _ _ _ _ _ _ _ _ _ _ _ _ Hr E Hact) as Hw. apply append_inv in E as (rec & -> & _); [|exact Hact].
  split; [exact Hw|reflexivity|intros; split; reflexivity|unfold ownersOf; simpl; lia..].
Qed.

Lemma put_same v o ps p p' r : wf r → positions r !! v = Some ps → ps !! o = Some p → posok v o p' → avail p' = avail p →
  slashedAmount p' = slashedAmount p → changed v r (putPosition v o p' r) 0 0.
Proof.
  intros Hr Eps Eo Hp' Ea Es. rewrite (put_present v o p' ps r Eps). destruct (sums_put ps o p') as [S1 S2].
  rewrite Eo in S1, S2. simpl in S1, S2. assert (ownersOf v r = ps) as Eow by (unfold ownersOf; by rewrite Eps).
  split; [|done| | |]; rewrite ?Eow.
  2:{ intros w Hw. simpl. by rewrite lookup_insert_ne. }
  2,3: unfold ownersOf; simpl; rewrite lookup_insert_eq; simpl; lia.
  split; [apply (wf_accounts r Hr)| | |apply (wf_records r Hr)|apply (wf_rotated r Hr)].
  2:{ intros w Hw. cbn [positions set_positions]. rewrite lookup_insert_is_Some'. right. by apply (wf_owned r Hr). }
  cbn [positions accounts set_positions]. intros w qs [[<- <-]|[Hne Hw]]%lookup_insert_Some; [|by apply (wf_positions r Hr)].
  destruct (wf_positions r Hr v ps Eps) as [Hok (a & ? & ? & ?)]. split; [by apply owners_ok_put|]. exists a. split_and!; [done|lia|lia].
Qed.

Lemma rewrite_changed v j tomb ps r u r' : wf r → positions r !! v = Some ps → rewriteAccountFromPositions v j tomb r = (Ok u, r') → changed v r r' 0 0.
Proof.
  intros Hr Eps E. destruct (wf_positions r Hr v ps Eps) as [Hok _].
  destruct (wf_rewrite v j tomb ps r r u r' Hr (grown_refl v ps r Eps) Hok (positions_live r v ps Hr Eps) E) as [Hw (ps' & Hst & Hp & Ha & Hrot)].
  destruct (restatused_sums _ _ Hst) as [El Esl]. split; [exact Hw|exact Hrot| |unfold ownersOf; rewrite Hp, Eps, lookup_insert_eq; simpl; lia..].
  intros x Hx. by rewrite Hp, Ha, !lookup_insert_ne.
Qed.

Lemma append_positions action tx o w amount h p reason prev r u r' :
  appendLifecycleRecord action tx o w amount h p reason prev r = (Ok u, r') → positions r' = positions r.
Proof. unfold appendLifecycleRecord. by destruct (negb _); intros [= _ <-]. Qed.

Lemma activateOwners_changed h v l b r ps b' r' : wf r → positions r !! v = Some ps → NoDup l.*1 → (∀ o p, (o, p) ∈ l → ps !! o = Some p) →
  activateOwners h v l b r = (Ok b', r') → changed v r r' 0 0 ∧ is_Some (positions r' !! v).
Proof.
  revert b r ps. induction l as [|[o p] l IH]; intros b r ps Hr Eps Hnd Hl E.
  { simpl in E. injection E as <- <-. split; [by apply changed_refl|by exists ps]. }
  apply NoDup_cons in Hnd as [Ho Hnd]. assert (ps !! o = Some p) as Eo by (apply Hl; by left). cbn [activateOwners] in E.
  destruct (Amount.isPositive (pendingActivationAmount p) && (activationHeight p <=? h)) eqn:Hcond.
  2:{ apply (IH _ _ ps) in E; [done..|]. intros; apply Hl; by right. }
  clear Hcond. run_M.
  rewrite put_twice in *. destruct (wf_positions _ Hr v ps Eps) as [Hok _]. destruct (Hok o p Eo) as [Ht Hs%sound_iff].
  pose proof Ht as [[? ?] [? ?] [? ?] [? ?]]. apply add_bound in E0 as (-> & ? & ?); [|lia|lia].
  set (p' := set_status a1 _) in *. assert (posok v o p') as Hp'.
  { split; [split; unfold Amount.wf; simpl; lia|]. apply sound_iff.
    destruct Hs as (S1 & S2 & S3 & S4 & S5 & S6 & S7 & S8 & S9 & S10 & S11 & S12 & S13). simpl. split_and!; (assumption || lia). }
  pose proof (put_same v o ps p p' r Hr Eps Eo Hp' ltac:(unfold p', avail; simpl; lia) eq_refl) as C1.
  pose proof (append_changed _ _ _ _ v _ _ _ _ _ _ _ _ (ch_wf _ _ _ _ _ C1) E4 eq_refl) as C2.
  apply (IH _ _ (<[o := p']> ps)) in E as [C3 Hsome]; [|by apply (ch_wf _ _ _ _ _ C2)| |done|].
  - split; [|done]. by apply (changed_same v r _ r' (changed_same v r _ _ C1 C2)).
  - apply append_positions in E4 as ->. rewrite (put_present v o p' ps r Eps). simpl. by rewrite lookup_insert_eq.
  - intros o' q Hin. rewrite lookup_insert_ne; [apply Hl; by right|]. intros <-. apply Ho, list_elem_of_fmap. by exists (o, q).
Qed.

(** The stake and the slashed stake of the whole registry. *)
Definition total (f : Owners → Z) (r : t) : Z := map_sum f (positions r).
Definition totalBonded (r : t) : Z := total locked r + total slashed r.
Definition totalSlashed (r : t) : Z := total slashed r.

Lemma total_split f v r : f ∅ = 0 → total f r = f (ownersOf v r) + map_sum f (delete v (positions r)).
Proof.
  intros Hf. unfold total, ownersOf. destruct (positions r !! v) as [ps|] eqn:E; simpl; [by apply map_sum_delete|].
  rewrite delete_id by done. lia.
Qed.

Lemma changed_total f v r r' a b : f ∅ = 0 → changed v r r' a b → total f r' = total f r - f (ownersOf v r) + f (ownersOf v r').
Proof.
  intros Hf C. rewrite !(total_split f v) by done. assert (delete v (positions r') = delete v (positions r)) as ->; [|lia].
  apply map_eq. intros w. destruct (decide (v = w)) as [<-|Hne]; [by rewrite !lookup_delete_eq|rewrite !lookup_delete_ne by done].
  by apply (ch_others _ _ _ _ _ C).
Qed.

Lemma changed_totals v r r' a b : changed v r r' a b → totalBonded r' = totalBonded r + a + b ∧ totalSlashed r' = totalSlashed r + b.
Proof.
  intros C. unfold totalBonded, totalSlashed. rewrite (changed_total locked v r r' a b), (changed_total slashed v r r' a b) by done.
  rewrite (ch_locked _ _ _ _ _ C), (ch_slashed _ _ _ _ _ C). lia.
Qed.

(** Nothing but the place of the stake within positions changed. *)
Record steady (r r' : t) : Prop := {
  st_wf : wf r';
  st_total : totalBonded r' = totalBonded r ∧ totalSlashed r' = totalSlashed r;
  st_rotations : rotationSuccessors r' = rotationSuccessors r;
  st_sums : ∀ w, locked (ownersOf w r') = locked (ownersOf w r) ∧ slashed (ownersOf w r') = slashed (ownersOf w r);
}.

Lemma changed_sums v r r' a b w : changed v r r' a b → w ≠ v → ownersOf w r' = ownersOf w r.
Proof. intros C Hw. unfold ownersOf. by destruct (ch_others _ _ _ _ _ C w Hw) as [-> _]. Qed.

Lemma changed_steady v r r' : changed v r r' 0 0 → steady r r'.
Proof.
  intros C. split; [apply (ch_wf _ _ _ _ _ C)|destruct (changed_totals v r r' 0 0 C); lia|apply (ch_rotations _ _ _ _ _ C)|]. intros w. destruct (decide (w = v)) as [->|Hw].
  - rewrite (ch_locked _ _ _ _ _ C), (ch_slashed _ _ _ _ _ C). lia.
  - by rewrite (changed_sums v r r' 0 0 w C Hw).
Qed.

Lemma steady_trans r1 r2 r3 : steady r1 r2 → steady r2 r3 → steady r1 r3.
Proof.
  intros [W1 [T1 T2] R1 S1] [W2 [T3 T4] R2 S2]. split; [done|split; congruence|congruence|]. intros w. destruct (S1 w), (S2 w). split; congruence.
Qed.

Lemma activateValidators_steady h l b r b' r' : wf r → NoDup l.*1 → (∀ v ps, (v, ps) ∈ l → positions r !! v = Some ps) →
  activateValidators h l b r = (Ok b', r') → steady r r'.
Proof.
  revert b r. induction l as [|[v ps] l IH]; intros b r Hr Hnd Hl E.
  { simpl in E. injection E as <- <-. apply (changed_steady ""). by apply changed_refl. }
  apply NoDup_cons in Hnd as [Hv Hnd]. assert (positions r !! v = Some ps) as Ev by (apply Hl; by left). cbn [activateValidators] in E.
  apply M_bind_Ok in E as (current & r0 & [= <- <-] & E).
  destruct (StakeAccount.tombstoned _); [apply (IH _ _ Hr Hnd) in E; [done|]; intros; apply Hl; by right|].
  apply M_bind_Ok in E as (ch & r1 & E1 & E). apply M_bind_Ok in E as ([] & r2 & E2 & E).
  apply (activateOwners_changed h v _ b r ps) in E1 as [C1 [qs Hqs]]; [|done|done|apply NoDup_fst_entries|by intros ? ? ?%elem_of_entries].
  assert (changed v r r2 0 0) as C.
  { destruct ch; [|by injection E2 as <-]. apply (changed_same v r r1 r2 C1).
    by apply (rewrite_changed v _ _ qs) in E2; [|apply (ch_wf _ _ _ _ _ C1)|]. }
  apply (IH _ _ (ch_wf _ _ _ _ _ C) Hnd) in E; [by apply (steady_trans _ r2); [apply (changed_steady v)|]|].
  intros w qs' Hin. destruct (ch_others _ _ _ _ _ C w) as [-> _]; [|apply Hl; by right].
  intros ->. apply Hv, list_elem_of_fmap. by exists (v, qs').
Qed.

Lemma activate_steady h r b r' : wf r → activatePending h r = (Ok b, r') → steady r r'.
Proof.
  intros Hr E. unfold activatePending in E. destruct (h =? 0); [injection E as <- <-; apply (changed_steady ""); by apply changed_refl|].
  apply M_bind_Ok in E as (ps & r0 & [= <- <-] & E).
  apply activateValidators_steady in E; [done..|apply NoDup_fst_entries|by intros ? ? ?%elem_of_entries].
Qed.
(** *** Penalties *)

Lemma slashFrom_inv get set v o p from rest ps r0 r x r' : grown v ps r0 r → ps !! o = Some p → posok v o p → 0 ≤ from ≤ rest →
  (∀ s, from ≤ get p → Amount.wf s → posok v o (set_slashed s (set (get p - from) p)) ∧
     avail (set_slashed s (set (get p - from) p)) = avail p - from ∧ slashedAmount (set (get p - from) p) = slashedAmount p) →
  slashFrom get set v o p from rest r = (Ok x, r') →
  grown v (<[o := x.1]> ps) r0 r' ∧ posok v o x.1 ∧ avail x.1 = avail p - from ∧ slashedAmount x.1 = slashedAmount p + from ∧ x.2 = rest - from.
Proof.
  intros Hg Eo Hp Hf Hset E. unfold slashFrom in E. destruct (Amount.isPositive from) eqn:Hpos; unfold Amount.isPositive in Hpos.
  2:{ injection E as <- <-. assert (from = 0) as -> by lia. cbn [fst snd]. rewrite insert_id by exact Eo. split_and!; [exact Hg|exact Hp|lia..]. }
  run_M. apply Amount.sub_Ok in E0 as [-> ?]. apply Amount.sub_Ok in E4 as [-> ?]. destruct (Hp) as [[_ _ _ [? ?]] _].
  destruct (Hset 0) as (_ & _ & Esl); [lia|unfold Amount.wf, i64_max; lia|]. rewrite Esl in *. apply add_bound in E2 as (-> & ? & ?); [|lia|lia].
  destruct (Hset (slashedAmount p + from)) as (Hok & Hav & _); [lia|by split|].
  cbn [fst snd]. split_and!; [|exact Hok|exact Hav|done|done].
  rewrite <- (insert_insert_eq ps o _ (set (get p - from) p)). by apply grown_put, grown_put.
Qed.

(** Moving a part of one of the three amounts to the slashed amount. *)
Lemma slash_ok v o p a1 a2 a3 s : posok v o p → 0 ≤ a1 ≤ activeAmount p → 0 ≤ a2 ≤ pendingActivationAmount p → 0 ≤ a3 ≤ pendingUnbondingAmount p →
  Amount.wf s → posok v o (set_slashed s (set_amounts a1 a2 a3 (withdrawnAmount p) (slashedAmount p) p)).
Proof.
  intros [[[? ?] [? ?] [? ?] [? ?]] Hs%sound_iff] L1 L2 L3 [? ?]. split; [split; unfold Amount.wf; simpl; lia|]. apply sound_iff.
  destruct Hs as (S1 & S2 & S3 & S4 & S5 & S6 & S7 & S8 & S9 & S10 & S11 & S12 & S13). simpl.
  split_and!; (assumption || lia || (intros; apply S13; lia)).
Qed.

Lemma slashPart_le a b : 0 ≤ a → 0 ≤ b → 0 ≤ slashPart a b ≤ a ∧ slashPart a b ≤ b.
Proof. unfold slashPart. intros. destruct (a <? b) eqn:E; lia. Qed.

Lemma slashPart_guarded a b : 0 ≤ a → 0 ≤ b → 0 ≤ (if Amount.isPositive b then slashPart a b else 0) ≤ a ∧ (if Amount.isPositive b then slashPart a b else 0) ≤ b.
Proof. intros. destruct (Amount.isPositive b); [by apply slashPart_le|lia]. Qed.

Lemma posok_nonneg v o p : posok v o p → 0 ≤ activeAmount p ∧ 0 ≤ pendingActivationAmount p ∧ 0 ≤ pendingUnbondingAmount p ∧ 0 ≤ slashedAmount p.
Proof. intros [[[? ?] [? ?] [? ?] [? ?]] _]. lia. Qed.

(** One round of the loop moves [rest - rest'] of the owner's stake to the slashed amount. *)
Lemma slashOwner_inv v o p rest ps r0 r x r' : grown v ps r0 r → ps !! o = Some p → posok v o p → 0 ≤ rest → slashOwner v o p rest r = (Ok x, r') →
  grown v (<[o := x.1.1]> ps) r0 r' ∧ posok v o x.1.1 ∧ 0 ≤ x.1.2 ∧ avail x.1.1 = avail p - (rest - x.1.2) ∧
  slashedAmount x.1.1 = slashedAmount p + (rest - x.1.2).
Proof.
  intros Hg Eo Hp Hrest E. unfold slashOwner in E. destruct (posok_nonneg v o p Hp) as (? & ? & ? & ?).
  apply M_bind_Ok in E as ([p1 rest1] & r1 & E1 & E). destruct (slashPart_le (activeAmount p) rest) as [F1 F1']; [done..|].
  set (f1 := slashPart (activeAmount p) rest) in *.
  apply (slashFrom_inv _ _ _ _ _ _ _ ps r0) in E1 as (G1 & Hp1 & A1 & S1 & R1); [|done..|lia|].
  2:{ intros s0 Hle Hs0. split_and!; [apply (slash_ok v o p); [done|lia..|done]|unfold avail; simpl; lia|done]. }
  cbn [fst snd] in *. subst rest1. destruct (posok_nonneg v o p1 Hp1) as (? & ? & ? & ?).
  apply M_bind_Ok in E as ([p2 rest2] & r2 & E2 & E). destruct (slashPart_guarded (pendingActivationAmount p1) (rest - f1)) as [F2 F2']; [done|lia|].
  set (f2 := if Amount.isPositive (rest - f1) then _ else 0) in *.
  apply (slashFrom_inv _ _ _ _ _ _ _ (<[o := p1]> ps) r0) in E2 as (G2 & Hp2 & A2 & S2 & R2); [|done|by rewrite lookup_insert_eq|done|lia|].
  2:{ intros s0 Hle Hs0. split_and!; [apply (slash_ok v o p1); [done|lia..|done]|unfold avail; simpl; lia|done]. }
  cbn [fst snd] in *. subst rest2. destruct (posok_nonneg v o p2 Hp2) as (? & ? & ? & ?).
  apply M_bind_Ok in E as ([p3 rest3] & r3 & E3 & E). destruct (slashPart_guarded (pendingUnbondingAmount p2) (rest - f1 - f2)) as [F3 F3']; [done|lia|].
  set (f3 := if Amount.isPositive (rest - f1 - f2) then _ else 0) in *.
  apply (slashFrom_inv _ _ _ _ _ _ _ (<[o := p2]> (<[o := p1]> ps)) r0) in E3 as (G3 & Hp3 & A3 & S3 & R3); [|done|by rewrite lookup_insert_eq|done|lia|].
  2:{ intros s0 Hle Hs0. split_and!; [apply (slash_ok v o p2); [done|lia..|done]|unfold avail; simpl; lia|done]. }
  cbn [fst snd] in *. rewrite !insert_insert_eq in G3. injection E as <- <-. cbn [fst snd]. split_and!; [exact G3|exact Hp3|lia..].
Qed.

Lemma penaltyLoop_inv v tomb h l rest ps r0 r x r' : grown v ps r0 r → owners_ok v ps → NoDup l.*1 → (∀ o p, (o, p) ∈ l → ps !! o = Some p) →
  0 ≤ rest → penaltyLoop v tomb h l rest r = (Ok x, r') →
  ∃ ps', grown v ps' r0 r' ∧ owners_ok v ps' ∧ 0 ≤ x ∧ slashed ps' = slashed ps + (rest - x) ∧ locked ps' = locked ps - (rest - x).
Proof.
  revert rest ps r. induction l as [|[o p] l IH]; intros rest ps r Hg Hok Hnd Hl Hrest E.
  { simpl in E. injection E as <- <-. exists ps. split_and!; [done..|lia|lia]. }
  cbn [penaltyLoop] in E. destruct (Amount.isZero rest) eqn:Hz; [injection E as <- <-; exists ps; split_and!; [done..|lia|lia]|].
  apply NoDup_cons in Hnd as [Ho Hnd]. assert (ps !! o = Some p) as Eo by (apply Hl; by left). pose proof (Hok o p Eo) as Hp.
  apply M_bind_Ok in E as ([[p1 rest1] [[f1 f2] f3]] & r1 & E1 & E).
  apply (slashOwner_inv _ _ _ _ ps r0) in E1 as (G1 & Hp1 & H01 & A1 & S1); [|done..]. cbn [fst snd] in *.
  apply M_bind_Ok in E as (st & r2 & [_ ->]%lift_Ok & E). apply M_bind_Ok in E as ([] & r2 & [= <-] & E).
  apply M_bind_Ok in E as (part & r2 & [_ ->]%lift_Ok & E). apply M_bind_Ok in E as (applied & r2 & [_ ->]%lift_Ok & E).
  apply M_bind_Ok in E as ([] & r3 & E3 & E). set (p2 := set_status st p1) in *.
  assert (grown v (<[o := p2]> ps) r0 r3) as G3.
  { pose proof (grown_put v _ o p2 r0 r1 G1) as G2. rewrite insert_insert_eq in G2.
    destruct (Amount.isPositive applied); [by apply (grown_append _ _ _ _ _ _ _ _ _ _ _ _ _ _ _ G2) in E3|by injection E3 as <-]. }
  apply (IH _ (<[o := p2]> ps)) in E as (ps' & G & Hok' & Hx & Es & El); [| |by apply owners_ok_put; [|apply set_status_ok]|done| |done].
  - exists ps'. destruct (sums_put ps o p2) as [L1 L2]. rewrite Eo in L1, L2. simpl in L1, L2. rewrite Es, El, L1, L2.
    change (avail p2) with (avail p1). rewrite A1, S1. split_and!; [done..|lia|lia].
  - done.
  - intros o' q Hin. rewrite lookup_insert_ne; [apply Hl; by right|]. intros <-. apply Ho, list_elem_of_fmap. by exists (o, q).
Qed.
Lemma accountOrDefault_present v a r : accounts r !! v = Some a → accountOrDefault v r = a.
Proof. intros E. unfold accountOrDefault. by rewrite E. Qed.

Lemma penalty_changed v total j tomb h r u r' : wf r → is_Some (accounts r !! v) → applyPenaltyState v total j tomb h r = (Ok u, r') →
  0 ≤ total - slashed (ownersOf v r) ∧ changed v r r' (slashed (ownersOf v r) - total) (total - slashed (ownersOf v r)).
Proof.
  intros Hr Hsome E. destruct (wf_owned r Hr v Hsome) as [ps Eps]. destruct (wf_positions r Hr v ps Eps) as [Hok (a & Ea & Es & Eb)].
  assert (ownersOf v r = ps) as Eow by (unfold ownersOf; by rewrite Eps). rewrite Eow. unfold applyPenaltyState in E.
  apply M_bind_Ok in E as ([] & r0 & [_ ->]%lift_Ok & E). apply M_bind_Ok in E as (current & r0 & [= <- <-] & E).
  rewrite (accountOrDefault_present v a r Ea) in E.
  apply M_bind_Ok in E as ([] & r0 & [H1%throw_if_Ok ->]%lift_Ok & E). apply M_bind_Ok in E as (rest & r0 & [E1 ->]%lift_Ok & E).
  apply Amount.sub_Ok in E1 as [-> Hrest]. apply M_bind_Ok in E as (found & r0 & [= <- <-] & E). rewrite Eps in E.
  apply M_bind_Ok in E as (x & r1 & E1 & E).
  apply (penaltyLoop_inv v _ _ _ _ ps r r) in E1 as (ps' & G & Hok' & Hx & Esl & El);
    [|by apply grown_refl|done|apply NoDup_fst_entries|by intros ? ? ?%elem_of_entries|done].
  apply M_bind_Ok in E as ([] & r2 & [H2%throw_if_Ok ->]%lift_Ok & E). unfold Amount.isPositive in H2. assert (x = 0) as -> by lia.
  apply M_bind_Ok in E as ([] & r2 & E2 & E).
  destruct (wf_rewrite v _ _ ps' r r1 _ r2 Hr G Hok' (positions_live r v ps Hr Eps) E2) as [Hw (ps'' & Hst & Hp & Ha & Hrot)].
  destruct (restatused_sums _ _ Hst) as [El' Esl']. apply M_bind_Ok in E as (rewritten & r3 & [= <- <-] & E).
  rewrite (accountOrDefault_present v (mirror v (j || tomb) tomb ps'')) in E by (by rewrite Ha, lookup_insert_eq).
  replace (StakeAccount.slashedAmount (mirror v (j || tomb) tomb ps'') =? total) with true in E by (symmetry; apply Z.eqb_eq; simpl; lia).
  injection E as _ <-. split; [lia|]. split; [exact Hw|exact Hrot| | |].
  - intros w Hw'. by rewrite Hp, Ha, !lookup_insert_ne.
  - rewrite Eow. unfold ownersOf. rewrite Hp, lookup_insert_eq. simpl. lia.
  - rewrite Eow. unfold ownersOf. rewrite Hp, lookup_insert_eq. simpl. lia.
Qed.

Lemma unjail_valid a : StakeAccount.tombstoned a = false → StakeAccount.isValid (StakeAccount.unjail a) = StakeAccount.isValid a ∧
  StakeAccount.bondedAmount (StakeAccount.unjail a) = StakeAccount.bondedAmount a ∧ StakeAccount.slashedAmount (StakeAccount.unjail a) = StakeAccount.slashedAmount a.
Proof. intros E. unfold StakeAccount.unjail. by rewrite E. Qed.

Lemma unjail_changed v r u r' : wf r → unjail v r = (Ok u, r') → changed v r r' 0 0.
Proof.
  intros Hr E. unfold unjail in E. apply M_bind_Ok in E as (acc & r0 & [= <- <-] & E). apply M_bind_Ok in E as ([] & r0 & [Hg%throw_if_Ok ->]%lift_Ok & E).
  destruct (accounts r !! v) as [a|] eqn:Ea; unfold accountOrDefault in *; rewrite Ea in *; [|by rewrite orb_true_r in Hg].
  destruct (wf_owned r Hr v) as [ps Eps]; [by exists a|]. destruct (wf_positions r Hr v ps Eps) as [Hok (a' & Ea' & Es & Eb)].
  rewrite Ea in Ea'. injection Ea' as <-. assert (ownersOf v r = ps) as Eow by (unfold ownersOf; by rewrite Eps).
  apply orb_false_iff in Hg as [_ Htomb]. destruct (unjail_valid a Htomb) as (Ev & Eb' & Es').
  apply setAccount_agrees in E as (-> & Hv & Hval & Hadr); rewrite ?Eow in *; [|by apply (owners_ok_typed v)|congruence|congruence].
  split; [|done| | |].
  2:{ intros w Hw. simpl. by rewrite !lookup_insert_ne. }
  2,3: rewrite Eow; unfold ownersOf; simpl; rewrite lookup_insert_eq; simpl; lia.
  assert (positions (installed v (StakeAccount.unjail a) ps r) = positions r) as Ep by (simpl; by rewrite insert_id).
  split; rewrite ?Ep.
  - simpl. intros w b [[<- <-]|[_ Hw]]%lookup_insert_Some; [|by apply (wf_accounts r Hr)].
    destruct (wf_accounts r Hr v a Ea) as (_ & _ & _ & ?). rewrite Eb'. by split_and!.
  - simpl. intros w qs Hw. destruct (wf_positions r Hr w qs Hw) as [? (b & Hb & ?)]. split; [done|]. destruct (decide (v = w)) as [<-|].
    + exists (StakeAccount.unjail a). rewrite lookup_insert_eq, Eb', Es'. rewrite Ea in Hb. injection Hb as <-. done.
    + exists b. by rewrite lookup_insert_ne.
  - simpl. intros w. rewrite lookup_insert_is_Some'. intros [<-|?]; [by exists ps|by apply (wf_owned r Hr)].
  - apply (wf_records r Hr).
  - simpl. intros old new Hold. destruct (wf_rotated r Hr old new Hold) as (Hnone & cur & Ecur & Hne & Hcur).
    split; [rewrite lookup_insert_ne; [done|congruence]|]. exists cur. split_and!; [done..|]. rewrite lookup_insert_is_Some'. by right.
Qed.
(** *** Key rotation *)

Lemma auditOwners_inv v l acc x : auditOwners v acc l = Ok (Some x) →
  Forall (λ e, positionSound v e.1 e.2 = true) l ∧ foldR totalsStep acc l.*2 = Ok x.
Proof.
  revert acc. induction l as [|[o p] l IH]; intros acc E; cbn [auditOwners] in E; [by injection E as <-|].
  destruct (positionSound v o p) eqn:Hp; cbn [negb] in E; [|done]. apply bind_Ok in E as (acc' & E1 & E). apply IH in E as [Hl Ef].
  split; [by constructor|]. rewrite fmap_cons. cbn [foldR snd]. rewrite E1. exact Ef.
Qed.

(** A registry of bounded amounts that passes the audit satisfies the invariant. *)
Lemma audit_wf r : isValid r = Ok true → (∀ v a, accounts r !! v = Some a → StakeAccount.bondedAmount a ≤ i64_max) →
  (∀ v ps, positions r !! v = Some ps → owners_typed ps) → (∀ v, is_Some (accounts r !! v) → is_Some (positions r !! v)) → wf r.
Proof.
  intros E Hb Ht Ho. unfold isValid in E. destruct (negb (forallb _ (entries (accounts r)))) eqn:Ha; [done|]. apply negb_false_iff in Ha.
  rewrite forallb_forall in Ha. apply bind_Ok in E as (audited & Hp & E). destruct audited; cbn [negb] in E; [|done]. rewrite all_ofR_true in Hp.
  destruct (negb (bool_decide _)) eqn:Hrec; [done|]. apply negb_false_iff, bool_decide_eq_true in Hrec. injection E as Hrot. rewrite forallb_forall in Hrot.
  split; [| |done|done|].
  - intros v a Ea. specialize (Ha (v, a)). rewrite <- list_elem_of_In, elem_of_entries in Ha. specialize (Ha Ea). cbn [fst snd] in Ha.
    rewrite !andb_true_iff, String.eqb_eq in Ha. destruct Ha as [[? ?] ?]. split_and!; [done..|by apply (Hb v)].
  - intros v ps Eps. specialize (Hp (v, ps)). rewrite elem_of_entries in Hp. specialize (Hp Eps). unfold auditValidator in Hp. cbn [fst snd] in Hp.
    destruct (negb (isSafeScalar v)); [done|]. apply bind_Ok in Hp as ([[av sl]|] & Eaud & Hp); [|done]. apply auditOwners_inv in Eaud as [Hs Ef].
    destruct (accounts r !! v) as [a|] eqn:Ea; [|done]. destruct (StakeAccount.slashedAmount a =? sl) eqn:Esl; cbn [negb] in Hp; [|done].
    apply bind_Ok in Hp as (total & Etot & Hp). injection Hp as Hp. apply totals_owners in Ef as (-> & -> & _ & _); [|by apply (Ht v)].
    apply Amount.add_Ok in Etot as [-> _]. split; [|exists a; split_and!; [done|lia|lia]].
    intros o p Eo. split; [by apply (Ht v ps Eps o)|]. rewrite Forall_forall in Hs. apply (Hs (o, p)). by apply elem_of_entries.
  - intros old new Hold. specialize (Hrot (old, new)). rewrite <- list_elem_of_In, elem_of_entries in Hrot. specialize (Hrot Hold). cbn [fst] in Hrot.
    destruct (currentAddressFor old r) as [cur|]; [|done]. unfold hasAccount in Hrot. rewrite !andb_true_iff, !negb_true_iff, bool_decide_eq_true, bool_decide_eq_false in Hrot.
    destruct Hrot as [[Hne Hnone] Hsome]. split; [by apply eq_None_not_Some|]. exists cur. split_and!; [done|by apply String.eqb_neq|done].
Qed.

(** The positions after the loop of a rotation differ in their ids only. *)
Definition renamed (ps ps' : Owners) : Prop := ∀ o, option_Forall2 (λ p p', ∃ i, p' = set_id i p) (ps !! o) (ps' !! o).

Lemma renamed_refl ps : renamed ps ps.
Proof. intros o. destruct (ps !! o) as [p|]; constructor. exists (positionId p). by destruct p. Qed.

Lemma renamed_trans1 ps o p i ps' : ps !! o = Some p → renamed (<[o := set_id i p]> ps) ps' → renamed ps ps'.
Proof.
  intros Eo Hr o'. specialize (Hr o'). destruct (decide (o = o')) as [<-|Hne].
  - rewrite lookup_insert_eq in Hr. rewrite Eo. inversion Hr as [? p' [s' ->] Ep E'|]. subst. constructor. by exists s'.
  - by rewrite lookup_insert_ne in Hr.
Qed.

Lemma renamed_sums ps ps' : renamed ps ps' → locked ps' = locked ps ∧ slashed ps' = slashed ps.
Proof. intros Hr. split; apply map_sum_same; intros o; by destruct (Hr o) as [p p' [i ->]|]. Qed.

Lemma renamed_typed ps ps' : renamed ps ps' → owners_typed ps → owners_typed ps'.
Proof. intros Hr Ht o p' E. specialize (Hr o). rewrite E in Hr. inversion Hr as [p ? [i ->] Ep|]. subst. by destruct (Ht o p). Qed.

Lemma rotateLoop_inv old new tx h l m r m' r' : NoDup l.*1 → (∀ o p, (o, p) ∈ l → m !! o = Some p) →
  rotateLoop old new tx h l m r = (Ok m', r') →
  renamed m m' ∧ accounts r' = accounts r ∧ positions r' = positions r ∧ rotationSuccessors r' = rotationSuccessors r.
Proof.
  revert m r. induction l as [|[o p] l IH]; intros m r Hnd Hl E; [injection E as <- <-; split_and!; [apply renamed_refl|done..]|].
  apply NoDup_cons in Hnd as [Ho Hnd]. assert (m !! o = Some p) as Eo by (apply Hl; by left). cbn [rotateLoop] in E.
  apply M_bind_Ok in E as (av & r1 & [_ ->]%lift_Ok & E). apply M_bind_Ok in E as ([] & r1 & E1 & E).
  assert (accounts r1 = accounts r ∧ positions r1 = positions r ∧ rotationSuccessors r1 = rotationSuccessors r) as (<- & <- & <-)
    by (unfold appendLifecycleRecord in E1; destruct (negb _); [discriminate E1|]; injection E1 as E1; by rewrite <- E1).
  apply IH in E as (Hr & ? & ? & ?); [|done|].
  - split_and!; [by apply (renamed_trans1 m o p _ _ Eo Hr)|done..].
  - intros o' q Hin. rewrite lookup_insert_ne; [apply Hl; by right|]. intros <-. apply Ho, list_elem_of_fmap. by exists (o, q).
Qed.
(** What a successful rotation did. *)
Record rotated (old new : string) (r r' : t) : Prop := {
  ro_wf : wf r';
  ro_fresh : positions r !! new = None ∧ accounts r !! new = None;
  ro_links : rotationSuccessors r' = <[old := new]> (rotationSuccessors r);
  ro_gone : positions r' !! old = None ∧ accounts r' !! old = None;
  ro_others : ∀ w, w ≠ old → w ≠ new → positions r' !! w = positions r !! w ∧ accounts r' !! w = accounts r !! w;
  ro_sums : locked (ownersOf new r') = locked (ownersOf old r) ∧ slashed (ownersOf new r') = slashed (ownersOf old r);
}.

Lemma emplace_fresh {V} k (v : V) (m : gmap string V) : m !! k = None → Staking.emplace k v m = <[k := v]> m.
Proof. intros E. unfold Staking.emplace. by rewrite E. Qed.

Lemma rotated_intro old new a b ps moved records r : wf r → old ≠ new → accounts r !! new = None → positions r !! new = None →
  accounts r !! old = Some a → positions r !! old = Some ps → renamed ps moved → StakeAccount.bondedAmount b = StakeAccount.bondedAmount a →
  let r' := mk (Staking.emplace new b (delete old (accounts r))) (Staking.emplace new moved (delete old (positions r))) records
              (Staking.emplace old new (rotationSuccessors r)) in
  isValid r' = Ok true → rotated old new r r'.
Proof.
  intros Hr Hne Hna Hnp Ea Eps Hren Hbond. rewrite (emplace_fresh new b), (emplace_fresh new moved) by (by rewrite lookup_delete_ne).
  rewrite (emplace_fresh old) by (by apply (positions_live r old ps)). cbv zeta. intros Hval. set (r' := mk _ _ _ _) in *.
  destruct (renamed_sums _ _ Hren) as [L S]. split; [|done|done| | |].
  - apply audit_wf; [exact Hval|..]; cbn [accounts positions r'].
    + intros v c [[<- <-]|[_ [_ Hc]%lookup_delete_Some]]%lookup_insert_Some; [rewrite Hbond; by apply (wf_accounts r Hr old)|by apply (wf_accounts r Hr v)].
    + intros v qs [[<- <-]|[_ [_ Hc]%lookup_delete_Some]]%lookup_insert_Some; apply (owners_ok_typed v) || (apply (renamed_typed ps); [done|apply (owners_ok_typed old)]);
        by apply (wf_positions r Hr).
    + intros v. rewrite !lookup_insert_is_Some', !lookup_delete_is_Some. intros [?|[? ?]]; [by left|right; split; [done|by apply (wf_owned r Hr)]].
  - cbn [accounts positions r']. by rewrite !lookup_insert_ne, !lookup_delete_eq.
  - intros w H1 H2. cbn [accounts positions r']. by rewrite !lookup_insert_ne, !lookup_delete_ne.
  - unfold ownersOf. cbn [positions r']. rewrite lookup_insert_eq, Eps. simpl. done.
Qed.

Lemma rotate_rotated old new owner h tx r u r' : wf r → rotateValidatorAddress old new owner h tx r = (Ok u, r') → rotated old new r r'.
Proof.
  intros Hr E. unfold rotateValidatorAddress in E. apply M_bind_Ok in E as ([] & r0 & [Hin%throw_if_Ok ->]%lift_Ok & E).
  apply M_bind_Ok in E as (taken & r0 & [= <- <-] & E). apply M_bind_Ok in E as ([] & r0 & [Hfresh%throw_if_Ok ->]%lift_Ok & E).
  apply orb_false_iff in Hfresh as [Hfresh _]. apply orb_false_iff in Hfresh as [Hna Hnp].
  apply bool_decide_eq_false, eq_None_not_Some in Hna. apply bool_decide_eq_false, eq_None_not_Some in Hnp.
  assert (old ≠ new) as Hne by (repeat apply orb_false_iff in Hin as [Hin ?]; by apply String.eqb_neq).
  apply M_bind_Ok in E as (found & r0 & [= <- <-] & E).
  destruct (accounts r !! old) as [a|] eqn:Ea; [|done]. destruct (positions r !! old) as [ps|] eqn:Eps; [|done].
  apply M_bind_Ok in E as ([] & r0 & [_ ->]%lift_Ok & E). apply M_bind_Ok in E as ([] & r0 & [= <-] & E). apply M_bind_Ok in E as ([] & r0 & [= <-] & E).
  apply M_bind_Ok in E as (moved & r1 & E1 & E).
  apply rotateLoop_inv in E1 as (Hren & A1 & P1 & R1); [|apply NoDup_fst_entries|by intros ? ? ?%elem_of_entries]. simpl in A1, P1, R1.
  apply M_bind_Ok in E as ([] & r2 & [= <-] & E). apply M_bind_Ok in E as (account & r3 & [E2 ->]%lift_Ok & E).
  unfold StakeAccount.make in E2. apply bind_Ok in E2 as (? & _ & [= <-]).
  apply M_bind_Ok in E as ([] & r3 & [= <-] & E). apply M_bind_Ok in E as ([] & r3 & [= <-] & E).
  apply M_bind_Ok in E as (valid & r4 & [Hval ->]%getsR_Ok & E). apply lift_Ok in E as [Hv%throw_if_Ok ->].
  destruct valid; [|done]. clear Hv. cbn [accounts positions rotationSuccessors lifecycleRecords set_positions set_accounts] in Hval |- *.
  rewrite A1, P1, R1 in *. by eapply (rotated_intro old new a).
Qed.
Lemma rotated_total f old new r r' : f ∅ = 0 → f (ownersOf new r') = f (ownersOf old r) → old ≠ new → rotated old new r r' → total f r' = total f r.
Proof.
  intros Hf Ef Hne R. rewrite (total_split f new r'), (total_split f old r) by done. rewrite Ef. f_equal.
  assert (delete new (positions r') = delete old (positions r)) as ->; [|done].
  destruct (ro_gone _ _ _ _ R) as [Hg _]. destruct (ro_fresh _ _ _ _ R) as [Hn _].
  apply map_eq. intros w. destruct (decide (w = old)) as [->|Ho]; [by rewrite lookup_delete_eq, lookup_delete_ne|].
  rewrite (lookup_delete_ne _ old) by done. destruct (decide (w = new)) as [->|Hw]; [by rewrite lookup_delete_eq|].
  rewrite lookup_delete_ne by done. by apply (ro_others _ _ _ _ R).
Qed.
(** *** What deposits never touch *)

(** Accounts stay and rotations do not change. *)
Definition keeps (r r' : t) : Prop := rotationSuccessors r' = rotationSuccessors r ∧ ∀ v, is_Some (accounts r !! v) → is_Some (accounts r' !! v).

#[local] Instance keeps_preorder : PreOrder keeps.
Proof. split; [by split|]. intros a b c [E1 A1] [E2 A2]. split; [congruence|auto]. Qed.

Lemma keeps_modify (f : t → t) : (∀ r, rotationSuccessors (f r) = rotationSuccessors r ∧ accounts (f r) = accounts r) → within keeps (modify f).
Proof. intros Hf r. destruct (Hf r) as [E1 E2]. split; simpl; [done|]. by rewrite E2. Qed.

Lemma keeps_ensure v : within keeps (modify (ensureOwners v)).
Proof. apply keeps_modify. intros r. unfold ensureOwners. by destruct (positions r !! v). Qed.

Lemma keeps_put v o p : within keeps (modify (putPosition v o p)).
Proof. by apply keeps_modify. Qed.

Lemma keeps_account v a : within keeps (modify (set_accounts (insert v a))).
Proof. intros r. split; [done|]. intros w Hw. simpl. rewrite lookup_insert_is_Some'. by right. Qed.

Lemma keeps_clear v : within keeps (modify (set_positions (insert v ∅))).
Proof. by apply keeps_modify. Qed.

Ltac keeps_tac :=
  repeat match goal with
  | |- ∀ _, within _ _ => intros ?
  | |- PreOrder _ => apply keeps_preorder
  | |- within keeps (if ?b then _ else _) => destruct b
  | |- within keeps (let '(_, _) := ?x in _) => destruct x
  | |- within keeps (_ ≫= _) => apply within_bind
  | |- within keeps _ =>
      apply within_lift || apply within_ret || apply within_gets || apply within_getsR || apply keeps_ensure || apply keeps_put || apply keeps_account || apply keeps_clear
  end.

Lemma setAccount_keeps v a : within keeps (setAccount v a).
Proof. unfold setAccount. keeps_tac. Qed.

Lemma rewriteLoop_keeps v tomb l a s : within keeps (rewriteLoop v tomb l a s).
Proof. revert a s. induction l as [|[o p] l IH]; intros a s; cbn [rewriteLoop]; keeps_tac. apply IH. Qed.

Lemma append_keeps action tx o w amount h p reason prev : within keeps (appendLifecycleRecord action tx o w amount h p reason prev).
Proof. intros r. unfold appendLifecycleRecord. by destruct (negb _). Qed.

Lemma setAccount_has v a r u r' : setAccount v a r = (Ok u, r') → is_Some (accounts r' !! v).
Proof.
  intros E. unfold setAccount in E. apply M_bind_Ok in E as ([] & r1 & [_ ->]%lift_Ok & E). apply M_bind_Ok in E as ([] & r1 & [= <-] & E).
  match type of E with ?m ?x = _ => enough (within keeps m) as Hk end.
  - specialize (Hk (set_accounts (insert v a) r)). rewrite E in Hk. apply Hk. simpl. by rewrite lookup_insert_eq.
  - keeps_tac.
Qed.

Lemma rewriteAccount_has v j tomb r u r' : rewriteAccountFromPositions v j tomb r = (Ok u, r') → keeps r r' ∧ is_Some (accounts r' !! v).
Proof.
  intros E. split.
  - assert (within keeps (rewriteAccountFromPositions v j tomb)) as Hk; [|specialize (Hk r); by rewrite E in Hk].
    unfold rewriteAccountFromPositions. apply within_bind; [apply _|keeps_tac|]. intros ps. apply within_bind; [apply _|apply rewriteLoop_keeps|].
    intros [av sl]. apply within_bind; [apply _|keeps_tac|]. intros b. apply within_bind; [apply _|keeps_tac|]. intros acc. apply setAccount_keeps.
  - unfold rewriteAccountFromPositions in E. apply M_bind_Ok in E as (ps & r3 & _ & E). apply M_bind_Ok in E as ([av sl] & r4 & _ & E).
    apply M_bind_Ok in E as (bonded & r5 & _ & E). apply M_bind_Ok in E as (acc & r6 & _ & E). by apply setAccount_has in E.
Qed.

Lemma deposit_account o v amount h top tx r u r' : deposit o v amount h top tx r = (Ok u, r') →
  rotationSuccessors r' = rotationSuccessors r ∧ is_Some (accounts r' !! v).
Proof.
  intros E. unfold deposit in E. run_M.
  match goal with E1 : rewriteAccountFromPositions _ _ _ _ = (Ok _, ?y) |- _ => apply rewriteAccount_has in E1 as [[K1 _] Hs]; rename y into r2 end.
  pose proof (append_keeps (if top then "TOP_UP" else "DEPOSIT") tx o v amount h a11
    (if top then "stake top-up pending activation" else "stake deposit pending activation") "" r2) as Hk. rewrite E in Hk. destruct Hk as [K3 K4].
  cbn [snd] in *. split; [|by apply K4]. rewrite K3, K1. simpl. unfold ensureOwners. by destruct (positions s1 !! v).
Qed.

(** The first deposit to an address that has neither an account nor positions. *)
Definition firstPosition (o v : string) (amount h act : Z) : Position :=
  set_status PENDING_ACTIVATION (set_activationHeight act (set_pending amount (set_lockHeight h (set_id (stakePositionId o v) Position.empty)))).

Lemma first_entries o (p : Position) : entries ({[ o := p ]} : Owners) = [(o, p)].
Proof. unfold entries. by rewrite map_to_list_singleton. Qed.

Lemma first_available o v amount h act : 0 < amount ≤ i64_max → positionAvailable (firstPosition o v amount h act) = Ok amount.
Proof.
  intros Ha. rewrite available_fits; [f_equal; unfold avail; cbn; lia| |unfold avail; cbn; lia].
  split; unfold Amount.wf, i64_max in *; cbn; lia.
Qed.

Lemma first_status o v amount h act st : 0 < amount ≤ i64_max → st ≠ TOMBSTONED → statusFor (set_status st (firstPosition o v amount h act)) = Ok PENDING_ACTIVATION.
Proof.
  intros Ha Hst. unfold statusFor. cbn [status set_status]. rewrite bool_decide_false by done.
  change (positionAvailable (set_status st (firstPosition o v amount h act))) with (positionAvailable (firstPosition o v amount h act)).
  rewrite first_available by done. cbn. by replace (amount =? 0) with false by lia.
Qed.

Lemma safe_not_empty v : isSafeScalar v = true → empty_string v = false.
Proof. unfold isSafeScalar, SafeScalar.isSafeDelimitedText. by destruct (empty_string v). Qed.

Lemma first_account o v amount h act r : isSafeScalar v = true → 0 < amount ≤ i64_max → positions r !! v = Some {[ o := firstPosition o v amount h act ]} →
  ∃ r', rewriteAccountFromPositions v false false r = (Ok tt, r') ∧ ownersOf v r' = {[ o := firstPosition o v amount h act ]}.
Proof.
  intros Hv Ha Hp. set (p := firstPosition o v amount h act) in *. unfold rewriteAccountFromPositions. erewrite M_run_Ok by reflexivity. rewrite Hp, first_entries.
  assert (putPosition v o (set_status PENDING_ACTIVATION p) r = r) as Eput.
  { unfold putPosition, ownersOf. rewrite Hp. cbn [default from_option id]. change (set_status PENDING_ACTIVATION p) with p. rewrite insert_singleton_eq. by apply set_positions_id. }
  assert (statusFor p = Ok PENDING_ACTIVATION) as Est by exact (first_status o v amount h act PENDING_ACTIVATION Ha ltac:(done)).
  assert (positionAvailable p = Ok amount) as Eav by exact (first_available o v amount h act Ha).
  assert (rewriteLoop v false [(o, p)] 0 0 r = (Ok (amount, 0), r)) as Eloop.
  { cbn [rewriteLoop]. erewrite M_run_Ok by (unfold lift; by rewrite Est). erewrite M_run_Ok by reflexivity. cbv zeta. rewrite Eput.
    erewrite M_run_Ok by (unfold lift; change (positionAvailable (set_status PENDING_ACTIVATION p)) with (positionAvailable p); by rewrite Eav).
    erewrite M_run_Ok by (unfold lift; rewrite add_fits by lia; reflexivity). erewrite M_run_Ok by reflexivity. reflexivity. }
  rewrite (M_run_Ok _ _ _ _ _ Eloop). erewrite M_run_Ok by (unfold lift; rewrite add_fits by lia; reflexivity).
  assert (StakeAccount.make v (amount + 0) 0 (false || false) false = Ok (StakeAccount.mk v amount 0 false false)) as Emake.
  { unfold StakeAccount.make, StakeAccount.isValid, Amount.isNegative. rewrite Z.add_0_r. cbn [StakeAccount.validatorAddress StakeAccount.bondedAmount StakeAccount.slashedAmount].
    rewrite (safe_not_empty v Hv). replace (amount <? 0) with false by lia. replace (0 <=? amount) with true by lia. reflexivity. }
  erewrite M_run_Ok by (unfold lift; by rewrite Emake). cbv beta.
  set (a := StakeAccount.mk v amount 0 false false).
  assert (StakeAccount.isValid a = true) as Hva by (unfold StakeAccount.make in Emake; rewrite Z.add_0_r in Emake; destruct (StakeAccount.isValid a) eqn:Ea; [done|unfold a in Ea; cbn in Emake, Ea; rewrite Ea in Emake; done]).
  set (r2 := set_accounts (insert v a) r). assert (positions r2 !! v = Some {[ o := p ]}) as Hp2 by exact Hp.
  exists r2. split; [|unfold ownersOf; by rewrite Hp2]. unfold setAccount.
  change (StakeAccount.validatorAddress a) with v.
  erewrite M_run_Ok by (unfold lift; rewrite Hv, Hva, (String.eqb_refl v); reflexivity). erewrite M_run_Ok by reflexivity. fold r2.
  erewrite M_run_Ok by (unfold modify, ensureOwners; by rewrite Hp2). erewrite M_run_Ok by reflexivity.
  assert (ownersOf v r2 = {[ o := p ]}) as Eo by (unfold ownersOf; by rewrite Hp2). rewrite Eo.
  assert (totals ({[ o := p ]} : Owners) = Ok (amount, 0)) as Etot.
  { unfold totals. rewrite first_entries. cbn [fmap list_fmap snd foldR]. unfold totalsStep. cbn [fst snd]. rewrite Eav. cbn [mbind result_bind]. change (slashedAmount p) with 0. rewrite (add_fits 0 amount) by lia. reflexivity. }
  erewrite M_run_Ok by (unfold lift; by rewrite Etot). cbv beta iota.
  erewrite M_run_Ok. 2: { unfold lift. rewrite bool_decide_false by (apply insert_non_empty). rewrite add_fits by lia. cbn [mbind result_bind]. rewrite Z.add_0_r. cbn. by rewrite Z.eqb_refl. }
  rewrite bool_decide_false by (apply insert_non_empty). reflexivity.
Qed.

Lemma first_deposit `{!Sha256Spec} o v amount h act tx r : accounts r !! v = None → positions r !! v = None → isSafeScalar o = true → isSafeScalar v = true →
  0 < amount ≤ i64_max → 0 < h → Window.activationHeight h = Ok act → ∃ r', deposit o v amount h false tx r = (Ok tt, r').
Proof.
  intros Hacc Hpos Ho Hv Ha Hh Eact. unfold deposit.
  erewrite M_run_Ok by (unfold lift, requireValidOperationInput, Amount.isPositive; rewrite Ho, Hv; replace (0 <? amount) with true by lia; replace (h =? 0) with false by lia; reflexivity).
  erewrite M_run_Ok by (unfold lift; by rewrite Eact). erewrite M_run_Ok by reflexivity. unfold accountOrDefault. rewrite Hacc.
  erewrite M_run_Ok by reflexivity. erewrite M_run_Ok by (unfold modify, ensureOwners; by rewrite Hpos). set (r1 := set_positions (insert v ∅) r).
  erewrite M_run_Ok by reflexivity. assert (ownersOf v r1 !! o = None) as -> by (unfold ownersOf; simpl; rewrite lookup_insert_eq; reflexivity).
  erewrite M_run_Ok by reflexivity. erewrite M_run_Ok by reflexivity. cbn [default from_option Position.empty positionId]. change (empty_string "") with true. cbv iota.
  erewrite M_run_Ok by (unfold lift; rewrite add_fits by (cbn; lia); reflexivity). cbv zeta.
  set (p := firstPosition o v amount h act).
  match goal with |- context [statusFor ?q] => change q with (set_status PENDING_ACTIVATION p) end.
  assert (statusFor (set_status PENDING_ACTIVATION p) = Ok PENDING_ACTIVATION) as Est by exact (first_status o v amount h act PENDING_ACTIVATION Ha ltac:(done)).
  erewrite M_run_Ok by (unfold lift; by rewrite Est). cbv beta.
  change (set_status PENDING_ACTIVATION (set_status PENDING_ACTIVATION p)) with p. erewrite M_run_Ok by reflexivity. cbn [StakeAccount.jailed StakeAccount.tombstoned].
  destruct (first_account o v amount h act (putPosition v o p r1) Hv Ha) as (r2 & E2 & Eo).
  { unfold putPosition, ownersOf. simpl. rewrite !lookup_insert_eq. reflexivity. }
  erewrite M_run_Ok by exact E2. erewrite M_run_Ok by (unfold getsR; rewrite Eo; setoid_rewrite lookup_singleton_eq; reflexivity).
  unfold appendLifecycleRecord. match goal with |- context [LifecycleRecord.isValid ?l] => assert (LifecycleRecord.isValid l = true) as -> end; [|by eexists].
  unfold LifecycleRecord.isValid. cbn [LifecycleRecord.recordId LifecycleRecord.action LifecycleRecord.ownerAddress LifecycleRecord.validatorAddress
    LifecycleRecord.previousValidatorAddress LifecycleRecord.amount LifecycleRecord.activeAfter LifecycleRecord.pendingActivationAfter
    LifecycleRecord.pendingUnbondingAfter LifecycleRecord.slashedAfter LifecycleRecord.blockHeight].
  rewrite Ho, Hv, (proj2 (empty_string_false _) (CryptoFacts.hash_nonempty _)). unfold Amount.isNegative. cbn.
  replace (amount <? 0) with false by lia. replace (0 <? h) with true by lia. reflexivity.
Qed.

End staking.
End StakingFacts.

(** ** The registry under the transaction executor *)

Module Executor.
Import Position Staking.
Section executor.
Context `{Sha256}.

(** The calls that the executor and the end of a block make. *)
Inductive op :=
  | Deposit (owner validator : string) (amount : Amount) (height : Z) (topUp : bool) (tx : string)
  | Unlock (owner validator : string) (amount : Amount) (height time : Z) (tx : string)
  | Withdraw (owner validator : string) (amount : Amount) (height time : Z) (tx : string)
  | Exit (owner validator : string) (height time : Z) (tx : string)
  | Activate (height : Z)
  | Penalize (validator : string) (total : Amount) (jailed tombstoned : bool) (height : Z)
  | Unjail (validator : string)
  | Rotate (old new owner : string) (height : Z) (tx : string).

Definition run (x : op) : M t unit :=
  match x with
  | Deposit o v a h top tx => deposit o v a h top tx
  | Unlock o v a h time tx => requestUnlock o v a h time tx
  | Withdraw o v a h time tx => withdraw o v a h time tx
  | Exit o v h time tx => requestValidatorExit o v h time tx
  | Activate h => activatePending h;; mret tt
  | Penalize v total j tomb h => applyPenaltyState v total j tomb h
  | Unjail v => unjail v
  | Rotate old new o h tx => rotateValidatorAddress old new o h tx
  end.

(** [atomically]: an exception restores the state before the call. *)
Definition atomically (x : op) (r : t) : t := match run x r with (Ok _, r') => r' | (Throw _, _) => r end.

(** Heights are unsigned; penalties are applied to validators that have an account;
    a deposit names a validator whose key was not rotated away. *)
Definition live (x : op) (r : t) : Prop :=
  match x with
  | Deposit _ v _ h _ _ => rotationSuccessors r !! v = None ∧ 0 ≤ h
  | Unlock _ _ _ h _ _ | Exit _ _ h _ _ => 0 ≤ h
  | Penalize v _ _ _ _ => is_Some (accounts r !! v)
  | _ => True
  end.

Inductive reachable : t → Prop :=
  | reachable_empty : reachable Staking.empty
  | reachable_step x r : reachable r → live x r → reachable (atomically x r).

(** What a call brings into the registry or takes out of it. *)
Definition inflow (x : op) : Z :=
  match x with Deposit _ _ a _ _ _ => a | Withdraw _ _ a _ _ _ => - a | _ => 0 end.
End executor.
End Executor.

Module StakingProperties.
Import Position Staking StakingFacts Executor.

Section properties.
Context `{Sha256}.

Lemma staking_wf_empty : wf Staking.empty.
Proof. split; simpl; try done. by intros v [? ?]. Qed.

(** What every successful call does, by kind of call. *)
Definition effect (x : op) (r r' : t) : Prop :=
  match x with
  | Deposit _ v a _ _ _ => changed v r r' a 0
  | Unlock _ v _ _ _ _ | Unjail v => changed v r r' 0 0
  | Withdraw _ v a _ _ _ => changed v r r' (- a) 0
  | Exit _ v _ _ _ => r' = r ∨ changed v r r' 0 0
  | Activate _ => steady r r'
  | Penalize v total _ _ _ => 0 ≤ total - slashed (ownersOf v r) ∧ changed v r r' (slashed (ownersOf v r) - total) (total - slashed (ownersOf v r))
  | Rotate old new _ _ _ => old ≠ new ∧ rotated old new r r'
  end.

Lemma run_effect x r u r' : wf r → live x r → run x r = (Ok u, r') → effect x r r'.
Proof.
  intros Hr Hlive E. destruct x; simpl in *.
  - destruct Hlive. by eapply deposit_changed.
  - by eapply unlock_changed.
  - by eapply withdraw_changed.
  - by eapply exit_changed.
  - apply M_bind_Ok in E as (b & r1 & E & [= _ <-]). by eapply activate_steady.
  - by eapply penalty_changed.
  - by eapply unjail_changed.
  - split; [|by eapply rotate_rotated]. intros ->. unfold rotateValidatorAddress in E. apply M_bind_Ok in E as (? & ? & [Hin%throw_if_Ok _]%lift_Ok & _).
    rewrite String.eqb_refl, !orb_true_r in Hin. done.
Qed.

Lemma effect_wf x r r' : wf r → effect x r r' → wf r'.
Proof.
  intros Hr. destruct x; simpl; try apply ch_wf; try apply st_wf; try (intros [_ Hc]; revert Hc; apply ch_wf || apply ro_wf).
  intros [->|Hc]; [done|by apply (ch_wf _ _ _ _ _ Hc)].
Qed.

Lemma staking_reachable_wf r : reachable r → wf r.
Proof.
  induction 1 as [|x r _ IH Hl]; [apply staking_wf_empty|]. unfold atomically. destruct (run x r) as [[u|e] r'] eqn:E; [|done].
  by apply (effect_wf x r); [|eapply run_effect].
Qed.

Lemma effect_totals x r r' : effect x r r' → totalBonded r' = totalBonded r + inflow x ∧
  totalSlashed r' = totalSlashed r + match x with Penalize v total _ _ _ => total - slashed (ownersOf v r) | _ => 0 end.
Proof.
  destruct x; simpl; try (intros C%changed_totals; lia).
  - intros [->|C%changed_totals]; lia.
  - intros C. destruct (st_total _ _ C). lia.
  - intros [_ C%changed_totals]. lia.
  - intros [Hne R]. destruct (ro_sums _ _ _ _ R) as [L S]. unfold totalBonded, totalSlashed.
    rewrite (rotated_total locked old new r r'), (rotated_total slashed old new r r') by done. lia.
Qed.
End properties.

(** C31. Every sequence of stake transactions, activations, penalties and key rotations keeps the staking registry
    audited, as long as no deposit names a rotated-away key and penalties are for validators that have an account:
    [isValid] returns true, and the account of each validator is exactly the sum of its owners' positions. *)
Theorem staking_stays_audited `{Sha256} (r : Staking.t) (Hr : reachable r) :
  isValid r = Ok true ∧
  ∀ v a, accounts r !! v = Some a →
    StakeAccount.bondedAmount a = locked (ownersOf v r) + slashed (ownersOf v r) ∧ StakeAccount.slashedAmount a = slashed (ownersOf v r).
Proof.
  apply staking_reachable_wf in Hr. split; [by apply wf_audit|]. intros v a Ea. destruct (wf_owned r Hr v) as [ps Eps]; [by exists a|].
  destruct (wf_positions r Hr v ps Eps) as [_ (a' & Ea' & Es & Eb)]. rewrite Ea in Ea'. injection Ea' as <-. unfold ownersOf. by rewrite Eps.
Qed.

(** Stake is conserved: a deposit adds its amount to the registry, a withdrawal takes its amount out, every
    other call only moves stake, and only a penalty changes what is slashed, up to exactly the new total of the
    validator and never down. *)
Theorem stake_is_conserved `{Sha256} (x : op) (r r' : Staking.t) (u : unit)
    (Hr : reachable r) (Hlive : live x r) (E : run x r = (Ok u, r')) :
  totalBonded r' = totalBonded r + inflow x ∧
  match x with
  | Penalize v total _ _ _ => slashed (ownersOf v r') = total ∧ slashed (ownersOf v r) ≤ total ∧
                              totalSlashed r' = totalSlashed r + (total - slashed (ownersOf v r))
  | _ => totalSlashed r' = totalSlashed r
  end.
Proof.
  pose proof (run_effect x r u r' (staking_reachable_wf r Hr) Hlive E) as He. destruct (effect_totals x r r' He) as [Hb Hs]. split; [done|].
  destruct x; try lia. destruct He as [? C]. pose proof (ch_slashed _ _ _ _ _ C). lia.
Qed.

(** C32. Stake leaves the registry only when it can no longer be slashed: at the height of a successful withdrawal
    and at every later one, evidence about the heights up to the start of the unbonding is too old to be admitted. *)
Theorem withdrawals_outlast_evidence `{Sha256} (o v : string) (amount : Amount) (h time : Z) (tx : string) (r r' : Staking.t) (u : unit)
    (Hr : reachable r) (E : withdraw o v amount h time tx r = (Ok u, r')) :
  ∃ p, positionOf o v r = Some p ∧ 0 < amount ≤ pendingUnbondingAmount p ∧ 0 < unbondingStartTime p + Window.kUnbondingSeconds < time ∧
    ∀ offense inclusion, offense ≤ unbondingStartHeight p → h ≤ inclusion → Window.evidenceHeightIsAdmissible offense inclusion = false.
Proof.
  apply staking_reachable_wf in Hr. apply withdraw_changed in E as [_ (ps & p & Eps & Eo & Ham & Hh & Ht)]; [|done]. exists p.
  destruct (wf_positions r Hr v ps Eps) as [Hok _]. destruct (Hok o p Eo) as [_ Hs%sound_iff].
  destruct Hs as (_ & _ & _ & _ & _ & _ & _ & _ & _ & _ & _ & _ & Hw). destruct Hw as (S1 & S2 & S3 & S4 & S5 & S6); [lia|].
  unfold positionOf. rewrite Eps. unfold Window.kUnbondingSeconds, Window.kFutureBlockSkewSeconds in *. split_and!; [done|lia..|].
  intros offense inclusion Ho Hi. unfold Window.evidenceHeightIsAdmissible. unfold UNBONDING_DELAY_BLOCKS, Window.kUnbondingBlocks, Window.kEvidenceMaxAgeBlocks, Window.NODO_VALIDATOR_EPOCH_BLOCKS in *. lia.
Qed.

(** An audited registry holds nothing under a rotated-away key. *)
Lemma rotated_is_empty `{Sha256} r v successor : isValid r = Ok true → rotationSuccessors r !! v = Some successor →
  accounts r !! v = None ∧ positions r !! v = None.
Proof.
  intros Hv Hrot. unfold isValid in Hv. destruct (negb (forallb _ (entries (accounts r)))); [done|]. apply bind_Ok in Hv as ([] & Hp & Hv); [|done].
  cbn [negb] in Hv. destruct (negb (bool_decide _)); [done|]. injection Hv as Hv. rewrite forallb_forall in Hv.
  specialize (Hv (v, successor)). rewrite <- list_elem_of_In, elem_of_entries in Hv. specialize (Hv Hrot). cbn [fst] in Hv.
  destruct (currentAddressFor v r) as [c|]; [|done]. assert (accounts r !! v = None) as Ha.
  { unfold hasAccount in Hv. destruct (accounts r !! v); [|done]. rewrite (bool_decide_eq_true_2 (is_Some (Some _))) in Hv by done. by rewrite andb_false_r in Hv. }
  split; [done|]. destruct (positions r !! v) as [ps|] eqn:Eps; [|done]. exfalso. rewrite all_ofR_true in Hp. specialize (Hp (v, ps)). rewrite elem_of_entries in Hp.
  specialize (Hp Eps). unfold auditValidator in Hp. cbn [fst snd] in Hp. destruct (negb _); [done|]. apply bind_Ok in Hp as ([[av sl]|] & _ & Hp); [|done]. by rewrite Ha in Hp.
Qed.

(** C33. Deposits to keys that were rotated away are accepted and break the audit.  In
    every audited registry, a first deposit of a positive amount by any well-formed owner
    to a rotated-away key returns, and the registry it leaves fails [isValid]: the
    address regains an account, which is forbidden for rotated keys. *)
Theorem deposit_to_rotated_key_breaks_audit `{Sha256Spec} (o v successor : string) (amount : Amount) (h : Z) (tx : string) (r : Staking.t) :
  isValid r = Ok true → rotationSuccessors r !! v = Some successor → isSafeScalar o = true → isSafeScalar v = true →
  0 < amount ≤ i64_max → 0 < h ≤ i64_max →
  ∃ r', deposit o v amount h false tx r = (Ok tt, r') ∧ isValid r' ≠ Ok true.
Proof.
  intros Hv Hrot Ho Hvs Ha Hh. destruct (rotated_is_empty r v successor Hv Hrot) as [Hacc Hpos].
  assert (∃ act, Window.activationHeight h = Ok act) as [act Eact].
  { unfold Window.activationHeight, Window.activationEpoch, Window.NODO_VALIDATOR_EPOCH_BLOCKS, u64_max, i64_max in *. replace (h =? 0) with false by lia. cbn [throw_if mbind result_bind].
    assert ((h - 1) / 43200 ≤ 213503982334602) by (apply Z.div_le_upper_bound; lia). change ((18446744073709551615 - 1) / 43200) with 427007964669202.
    cbv zeta. do 2 (match goal with |- context [throw_if (?a <? ?b)] => replace (a <? b) with false by (symmetry; apply Z.ltb_ge; lia) end; cbn [throw_if mbind result_bind]). by eexists. }
  destruct (first_deposit o v amount h act tx r Hacc Hpos Ho Hvs Ha (proj1 Hh) Eact) as [r' E]. exists r'. split; [exact E|]. intros Hv'.
  apply deposit_account in E as [Erot Hacc']. assert (rotationSuccessors r' !! v = Some successor) as Hrot' by (by rewrite Erot).
  destruct (rotated_is_empty r' v successor Hv' Hrot') as [Hn _]. rewrite Hn in Hacc'. by destruct Hacc'.
Qed.
(** ** A validator with one owner, its stake activated and partly unbonding *)

#[local] Instance toy : Sha256 := CryptoProperties.toy_sha256.

Lemma ran {S A} (m : M S A) (s : S) x : (m s).1 = Ok x → m s = (Ok x, (m s).2).
Proof. intros <-. by destruct (m s). Qed.

Definition bonded_once : Staking.t := atomically (Deposit "owner" "validator" 100 5 false "tx1") Staking.empty.
Definition activated_once : Staking.t := atomically (Activate 86401) bonded_once.
Definition unbonding_once : Staking.t := atomically (Unlock "owner" "validator" 40 90000 1000 "tx2") activated_once.
Definition rotated_once : Staking.t := atomically (Rotate "validator" "successor" "owner" 90001 "tx3") unbonding_once.

Lemma reachable_unbonding : reachable unbonding_once.
Proof.
  unfold unbonding_once, activated_once, bonded_once. apply reachable_step; [|simpl; lia]. apply reachable_step; [|exact I].
  apply reachable_step; [constructor|split; [reflexivity|lia]].
Qed.

Lemma staking_stays_audited_witness : isValid unbonding_once = Ok true ∧ locked (ownersOf "validator" unbonding_once) = 100.
Proof. split; [exact (proj1 (staking_stays_audited unbonding_once reachable_unbonding))|vm_compute; reflexivity]. Defined.

Definition penalty_op : op := Penalize "validator" 30 true false 90002.

Lemma penalty_live : live penalty_op unbonding_once.
Proof. apply (bool_decide_unpack (is_Some (accounts unbonding_once !! "validator"))). vm_compute. exact I. Qed.

Lemma penalty_runs : run penalty_op unbonding_once = (Ok tt, (run penalty_op unbonding_once).2).
Proof. apply ran. vm_compute. reflexivity. Qed.

Lemma withdraw_runs : withdraw "owner" "validator" 40 1299600 3000000 "tx4" unbonding_once =
  (Ok tt, (withdraw "owner" "validator" 40 1299600 3000000 "tx4" unbonding_once).2).
Proof. apply ran. vm_compute. reflexivity. Qed.

Lemma stake_is_conserved_witness : totalBonded (run penalty_op unbonding_once).2 = totalBonded unbonding_once + 0 ∧
  slashed (ownersOf "validator" (run penalty_op unbonding_once).2) = 30.
Proof.
  destruct (stake_is_conserved penalty_op unbonding_once (run penalty_op unbonding_once).2 tt reachable_unbonding penalty_live penalty_runs) as [Hb [Hs _]].
  split; [exact Hb|exact Hs].
Defined.

Lemma withdrawals_outlast_evidence_witness :
  ∃ p, positionOf "owner" "validator" unbonding_once = Some p ∧ 0 < 40 ≤ pendingUnbondingAmount p ∧ 0 < unbondingStartTime p + Window.kUnbondingSeconds < 3000000 ∧
    ∀ offense inclusion, offense ≤ unbondingStartHeight p → 1299600 ≤ inclusion → Window.evidenceHeightIsAdmissible offense inclusion = false.
Proof.
  exact (withdrawals_outlast_evidence "owner" "validator" 40 1299600 3000000 "tx4" unbonding_once
    (withdraw "owner" "validator" 40 1299600 3000000 "tx4" unbonding_once).2 tt reachable_unbonding withdraw_runs).
Defined.

Lemma rotated_valid : isValid rotated_once = Ok true ∧ rotationSuccessors rotated_once !! "validator" = Some "successor".
Proof. vm_compute. done. Qed.

Lemma deposit_to_rotated_key_breaks_audit_witness :
  isValid rotated_once = Ok true ∧ ∃ r', deposit "anyone" "validator" 1 90002 false "tx5" rotated_once = (Ok tt, r') ∧ isValid r' ≠ Ok true.
Proof.
  destruct rotated_valid as [Hv Hrot]. split; [exact Hv|].
  apply (@deposit_to_rotated_key_breaks_audit toy CryptoProperties.toy_sha256_spec "anyone" "validator" "successor" 1 90002 "tx5" rotated_once Hv Hrot);
    [reflexivity|reflexivity|split; [lia|vm_compute; discriminate]|split; [lia|vm_compute; discriminate]].
Defined.
End StakingProperties.
