(* ===== verification/Rewards.v ===== *)
(** * economics: emission, epoch rewards and fees

    Models src/src/economics/EpochEmissionPolicy.cpp, ProtectionEpoch.cpp,
    ValidationWorkRecord.cpp, ValidatorScoreRecord.cpp and EpochRewardDistributor.cpp,
    and of src/src/node: FeeEconomics.cpp, RewardDistribution.cpp, the settlement of fees
    in ProtocolStateTransition.cpp and of rewards in EpochRewardSettlementService.cpp.
    The text forms of the records and their parsers are left out, except for what is
    hashed. *)

From Stdlib Require Import Ascii.
From S2P Require Import Prelude Utils Crypto CoinLots CoinLotTransfer LedgerState.

(** [static_cast<std::uint32_t>] *)
Definition wrap32 (z : Z) : Z := z mod 4294967296.

(** ** The emission policy *)

Module EmissionPolicy.
Definition BASIS_POINTS_DENOMINATOR : Z := 10000.

Record t := mk { policyVersion : string; targetYearlyInflationBasisPoints : Z; epochsPerYear : Z; zeroSupplyBootstrapCap : Amount }.

Definition developmentDefaultPolicy : result t :=
  cap ← Amount.fromNodo 100; Ok (mk "NODO_EPOCH_EMISSION_POLICY_V1" 400 365 cap).

Definition isValid (p : t) : bool :=
  if empty_string (policyVersion p) then false
  else if epochsPerYear p =? 0 then false
  else if BASIS_POINTS_DENOMINATOR <? targetYearlyInflationBasisPoints p then false
  else if Amount.isNegative (zeroSupplyBootstrapCap p) then false
  else true.

Definition multiplyDivideRawUnits (rawUnits numerator denominator : Z) : result Z :=
  throw_if (rawUnits <? 0) (invalid_argument "Raw units cannot be negative.");;
  throw_if (denominator =? 0) (invalid_argument "Denominator cannot be zero.");;
  let value := rawUnits * numerator / denominator in
  throw_if (i64_max <? value) (overflow_error "Emission cap calculation overflow.");;
  Ok value.

Definition calculateNewEmissionCap (currentCirculatingSupply : Amount) (p : t) : result Amount :=
  throw_if (negb (isValid p)) (logic_error "Invalid epoch emission policy.");;
  throw_if (Amount.isNegative currentCirculatingSupply) (invalid_argument "Circulating supply cannot be negative.");;
  if Amount.isZero currentCirculatingSupply then Ok (zeroSupplyBootstrapCap p)
  else
    let denominator := wrap64 (BASIS_POINTS_DENOMINATOR * epochsPerYear p) in
    raw ← multiplyDivideRawUnits currentCirculatingSupply (targetYearlyInflationBasisPoints p) denominator;
    Amount.fromRawUnits raw.
End EmissionPolicy.

(** ** The protection epoch *)

Module ProtectionEpoch.
Definition BASIS_POINTS_DENOMINATOR : Z := 10000.

Record t := mk {
  epochId : Z;
  startBlock : Z;
  endBlock : Z;
  feesCollected : Amount;
  emissionCap : Amount;
  workDemandBasisPoints : Z;
  targetWorkWeight : Z;
  acceptedWorkWeight : Z;
  policyVersion : string;
  evidenceBlockHash : string;
}.

Definition hasCanonicalSettlementMetadata (e : t) : bool :=
  (0 <? targetWorkWeight e) && (acceptedWorkWeight e <=? targetWorkWeight e) && negb (empty_string (policyVersion e)) &&
  negb (empty_string (evidenceBlockHash e)).

Definition isValid (e : t) : bool :=
  if epochId e =? 0 then false
  else if endBlock e <? startBlock e then false
  else if Amount.isNegative (feesCollected e) then false
  else if Amount.isNegative (emissionCap e) then false
  else if BASIS_POINTS_DENOMINATOR <? workDemandBasisPoints e then false
  else if hasCanonicalSettlementMetadata e then
    let expected := acceptedWorkWeight e * BASIS_POINTS_DENOMINATOR / targetWorkWeight e in
    let bounded := if BASIS_POINTS_DENOMINATOR <=? expected then BASIS_POINTS_DENOMINATOR else wrap32 expected in
    bounded =? workDemandBasisPoints e
  else if negb (targetWorkWeight e =? 0) || negb (acceptedWorkWeight e =? 0) || negb (empty_string (policyVersion e)) ||
          negb (empty_string (evidenceBlockHash e)) then false
  else true.

Definition multiplyDivideRawUnits (rawUnits numerator denominator : Z) : result Z :=
  throw_if (rawUnits <? 0) (invalid_argument "Raw units cannot be negative.");;
  throw_if (denominator =? 0) (invalid_argument "Denominator cannot be zero.");;
  let quotient := rawUnits / denominator in
  let remainder := rawUnits mod denominator in
  throw_if (negb (numerator =? 0) && (i64_max / numerator <? quotient)) (overflow_error "Protection epoch emission calculation overflow.");;
  let value := wrap64 (wrap64 (quotient * numerator) + wrap64 (remainder * numerator) / denominator) in
  throw_if (i64_max <? value) (overflow_error "Protection epoch emission calculation overflow.");;
  Ok value.

Definition securityEmission (e : t) : result Amount :=
  throw_if (negb (isValid e)) (logic_error "Invalid protection epoch.");;
  raw ← multiplyDivideRawUnits (emissionCap e) (workDemandBasisPoints e) BASIS_POINTS_DENOMINATOR;
  Amount.fromRawUnits raw.

Definition rewardPool (e : t) : result Amount := s ← securityEmission e; Amount.add (feesCollected e) s.
End ProtectionEpoch.

(** ** Work and score records *)

Module Work.
Inductive Type_ :=
  | UNKNOWN | VALIDATE_TRANSACTION | VERIFY_COIN_EXISTENCE | VERIFY_SIGNATURE | VALIDATE_BLOCK | RESPOND_INTEGRITY_CHALLENGE
  | SERVE_HISTORICAL_BLOCK | CONSENSUS_VOTE.
#[global] Instance Type_eq_dec : EqDecision Type_.
Proof. solve_decision. Defined.
Inductive Result_ := UNKNOWN_RESULT | ACCEPTED | REJECTED.
#[global] Instance Result_eq_dec : EqDecision Result_.
Proof. solve_decision. Defined.

Record t := mk {
  validatorAddress : string;
  epoch : Z;
  workType : Type_;
  outcome : Result_;
  targetHash : string;
  evidenceHash : string;
  workWeight : Z;
  timestamp : Z;
}.

Definition isAccepted (w : t) : bool := bool_decide (outcome w = ACCEPTED).
Definition isRejected (w : t) : bool := bool_decide (outcome w = REJECTED).

Definition isValid (w : t) : bool :=
  if empty_string (validatorAddress w) then false
  else if epoch w =? 0 then false
  else if bool_decide (workType w = UNKNOWN) then false
  else if bool_decide (outcome w = UNKNOWN_RESULT) then false
  else if empty_string (targetHash w) then false
  else if empty_string (evidenceHash w) then false
  else if workWeight w =? 0 then false
  else if timestamp w <=? 0 then false
  else true.

Definition contributesToReward (w : t) : bool := isValid w && isAccepted w.
End Work.

Module Score.
Definition MIN_SCORE : Z := 0.
Definition MAX_SCORE : Z := 100.

Inductive Reason :=
  | INITIAL_REGISTRATION | CONSISTENT_VALIDATION | SUCCESSFUL_CHALLENGE_RESPONSE | USEFUL_STORAGE_SERVICE | NETWORK_CLUSTER_PENALTY
  | MISSED_CHALLENGE | INVALID_WORK | CONFLICTING_SIGNATURE | OTHER.
#[global] Instance Reason_eq_dec : EqDecision Reason.
Proof. solve_decision. Defined.

Record t := mk {
  validatorAddress : string;
  epoch : Z;
  previousScore : Z;
  newScore : Z;
  reason : Reason;
  evidenceHash : string;
  timestamp : Z;
}.

Definition isScoreInRange (score : Z) : bool := (MIN_SCORE <=? score) && (score <=? MAX_SCORE).

Definition isValid (s : t) : bool :=
  if empty_string (validatorAddress s) then false
  else if epoch s =? 0 then false
  else if negb (isScoreInRange (previousScore s)) then false
  else if negb (isScoreInRange (newScore s)) then false
  else if bool_decide (reason s = OTHER) then false
  else if empty_string (evidenceHash s) then false
  else if timestamp s <=? 0 then false
  else true.
End Score.

(** ** Distribution of the emission of an epoch *)

Module Share.
Record t := mk {
  validatorAddress : string;
  acceptedWorkWeight : Z;
  trustFactorBasisPoints : Z;
  effectiveRewardWeight : Z;
  rewardAmount : Amount;
  rewardRecord : GenesisRewardRecord;
}.

Definition isValid (s : t) : bool :=
  if empty_string (validatorAddress s) then false
  else if acceptedWorkWeight s =? 0 then false
  else if ProtectionEpoch.BASIS_POINTS_DENOMINATOR <? trustFactorBasisPoints s then false
  else if effectiveRewardWeight s =? 0 then false
  else if negb (Amount.isPositive (rewardAmount s)) then false
  else if negb (GenesisReward.isValid (rewardRecord s)) then false
  else if negb (String.eqb (GenesisReward.validatorAddress (rewardRecord s)) (validatorAddress s)) then false
  else if negb (GenesisReward.amount (rewardRecord s) =? rewardAmount s) then false
  else true.
End Share.

Definition safeAdd (context : string) (left right : Z) : result Z :=
  throw_if (u64_max - right <? left) (overflow_error ("Unsigned addition overflow in " +:+ context +:+ "."));; Ok (left + right).

Definition safeMultiply (context : string) (left right : Z) : result Z :=
  throw_if (negb (left =? 0) && (u64_max / left <? right)) (overflow_error ("Unsigned multiplication overflow in " +:+ context +:+ "."));;
  Ok (left * right).

Module Distribution.
Record t := mk {
  protectionEpoch : ProtectionEpoch.t;
  policyVersion : string;
  targetWorkWeight : Z;
  totalAcceptedWorkWeight : Z;
  totalEffectiveRewardWeight : Z;
  distributedSecurityEmission : Amount;
  validatorRewards : list Share.t;
}.

Definition genesisRewardRecords (d : t) : list GenesisRewardRecord := Share.rewardRecord <$> validatorRewards d.

(** The running totals of the audit of the shares. *)
Record totals := Totals { work : Z; weight : Z; rewards : Amount; ids : gset string }.

Section distribution.
Context `{Sha256}.

(** The loop of [isValid]: [None] is [return false]. *)
Fixpoint auditShares (d : t) (acc : totals) (l : list Share.t) : result (option totals) :=
  match l with
  | [] => Ok (Some acc)
  | s :: l =>
      if negb (Share.isValid s) then Ok None
      else if negb (GenesisReward.epoch (Share.rewardRecord s) =? ProtectionEpoch.epochId (protectionEpoch d)) then Ok None
      else if negb (String.eqb (GenesisReward.policyVersion (Share.rewardRecord s)) (policyVersion d)) then Ok None
      else
        rewardId ← GenesisReward.deterministicId (Share.rewardRecord s);
        if bool_decide (rewardId ∈ ids acc) then Ok None
        else
          w ← safeAdd "EpochRewardDistribution accepted work audit" (work acc) (Share.acceptedWorkWeight s);
          e ← safeAdd "EpochRewardDistribution effective weight audit" (weight acc) (Share.effectiveRewardWeight s);
          r ← Amount.add (rewards acc) (Share.rewardAmount s);
          auditShares d (Totals w e r ({[ rewardId ]} ∪ ids acc)) l
  end.

Definition isValid (d : t) : result bool :=
  if negb (ProtectionEpoch.isValid (protectionEpoch d)) then Ok false
  else if empty_string (policyVersion d) then Ok false
  else if targetWorkWeight d =? 0 then Ok false
  else if Amount.isNegative (distributedSecurityEmission d) then Ok false
  else
    emission ← ProtectionEpoch.securityEmission (protectionEpoch d);
    if emission <? distributedSecurityEmission d then Ok false
    else
      audited ← auditShares d (Totals 0 0 0 ∅) (validatorRewards d);
      match audited with
      | None => Ok false
      | Some acc =>
          if totalAcceptedWorkWeight d <? work acc then Ok false
          else if negb (weight acc =? totalEffectiveRewardWeight d) then Ok false
          else if negb (rewards acc =? distributedSecurityEmission d) then Ok false
          else if bool_decide (validatorRewards d = []) && (negb (Amount.isZero (distributedSecurityEmission d)) ||
                  negb (totalEffectiveRewardWeight d =? 0)) then Ok false
          else Ok true
      end.
End distribution.
End Distribution.

Module Distributor.
(** [ValidatorScoreSummary]; a default summary has no score. *)
Record ScoreSummary := Summary { hasScore : bool; epoch : Z; timestamp : Z; score : Z }.
Definition noScore : ScoreSummary := Summary false 0 0 0.

Record Candidate := Cand { validatorAddress : string; acceptedWorkWeight : Z; trustFactorBasisPoints : Z; effectiveRewardWeight : Z; rewardAmount : Amount }.
Definition set_reward (a : Amount) (c : Candidate) : Candidate :=
  Cand (validatorAddress c) (acceptedWorkWeight c) (trustFactorBasisPoints c) (effectiveRewardWeight c) a.

Definition shouldReplaceScore (current : ScoreSummary) (candidate : Score.t) : bool :=
  if negb (hasScore current) then true
  else if epoch current <? Score.epoch candidate then true
  else if (Score.epoch candidate =? epoch current) && (timestamp current <? Score.timestamp candidate) then true
  else false.

Definition calculateWorkDemandBasisPoints (totalAccepted target : Z) : result Z :=
  throw_if (target =? 0) (invalid_argument "Target work weight must be positive.");;
  let value := totalAccepted * ProtectionEpoch.BASIS_POINTS_DENOMINATOR / target in
  Ok (if ProtectionEpoch.BASIS_POINTS_DENOMINATOR <=? value then ProtectionEpoch.BASIS_POINTS_DENOMINATOR else wrap32 value).

Definition multiplyDivideRawUnits (rawUnits numerator denominator : Z) : result Z :=
  throw_if (rawUnits <? 0) (invalid_argument "Raw units cannot be negative.");;
  throw_if (denominator =? 0) (invalid_argument "Denominator cannot be zero.");;
  throw_if (denominator <? numerator) (invalid_argument "Reward numerator cannot exceed denominator.");;
  let value := rawUnits * numerator / denominator in
  throw_if (i64_max <? value) (overflow_error "Reward amount calculation overflow.");;
  Ok value.

(** The accepted work by validator, the evidence seen and the total. *)
Record WorkState := WS { byValidator : gmap string Z; evidence : gset string; total : Z }.

Definition workStep (epochId : Z) (s : WorkState) (w : Work.t) : result WorkState :=
  throw_if (negb (Work.isValid w)) (invalid_argument "Invalid ValidationWorkRecord rejected by reward distributor.");;
  if negb (Work.epoch w =? epochId) then Ok s
  else if negb (Work.contributesToReward w) then Ok s
  else
    throw_if (bool_decide (Work.evidenceHash w ∈ evidence s)) (invalid_argument "Duplicate accepted work evidence rejected.");;
    own ← safeAdd "validator accepted work" (default 0 (byValidator s !! Work.validatorAddress w)) (Work.workWeight w);
    all ← safeAdd "total accepted work" (total s) (Work.workWeight w);
    Ok (WS (<[Work.validatorAddress w := own]> (byValidator s)) ({[ Work.evidenceHash w ]} ∪ evidence s) all).

Definition scoreStep (epochId : Z) (m : gmap string ScoreSummary) (s : Score.t) : result (gmap string ScoreSummary) :=
  throw_if (negb (Score.isValid s)) (invalid_argument "Invalid ValidatorScoreRecord rejected by reward distributor.");;
  if epochId <? Score.epoch s then Ok m
  else
    let current := default noScore (m !! Score.validatorAddress s) in
    Ok (<[Score.validatorAddress s := if shouldReplaceScore current s then Summary true (Score.epoch s) (Score.timestamp s) (Score.newScore s) else current]> m).

(** The candidates in address order and the total of their weights. *)
Definition candidateStep (scores : gmap string ScoreSummary) (acc : list Candidate * Z) (e : string * Z) : result (list Candidate * Z) :=
  let s := default noScore (scores !! e.1) in
  if negb (hasScore s) then Ok acc
  else
    let trust := wrap32 (score s * 100) in
    if trust =? 0 then Ok acc
    else
      weight ← safeMultiply "validator effective reward weight" e.2 trust;
      all ← safeAdd "total effective reward weight" acc.2 weight;
      Ok (acc.1 ++ [Cand e.1 e.2 trust weight 0], all).

(** Every candidate's share of the emission, rounded down, and their sum. *)
Definition floorStep (emission totalWeight : Z) (acc : list Candidate * Amount) (c : Candidate) : result (list Candidate * Amount) :=
  raw ← multiplyDivideRawUnits emission (effectiveRewardWeight c) totalWeight;
  reward ← Amount.fromRawUnits raw;
  sum ← Amount.add acc.2 reward;
  Ok (acc.1 ++ [set_reward reward c], sum).

(** One raw unit each, in address order, until the remainder is used up. *)
Fixpoint spread (remainder : Z) (l : list Candidate) : result (list Candidate) :=
  match l with
  | [] => Ok []
  | c :: l =>
      if remainder <=? 0 then Ok (c :: l)
      else
        one ← Amount.fromRawUnits 1;
        reward ← Amount.add (rewardAmount c) one;
        rest ← spread (remainder - 1) l;
        Ok (set_reward reward c :: rest)
  end.

Section distributor.
Context `{Sha256}.

Definition buildWorkSummaryHash (epochId : Z) (c : Candidate) (policyVersion : string) : string :=
  Hash.hashCString ("EpochRewardWorkSummary{epochId=" +:+ to_string epochId +:+ ";validator=" +:+ validatorAddress c +:+
    ";acceptedWorkWeight=" +:+ to_string (acceptedWorkWeight c) +:+ ";trustFactorBasisPoints=" +:+ to_string (trustFactorBasisPoints c) +:+
    ";effectiveRewardWeight=" +:+ to_string (effectiveRewardWeight c) +:+ ";policyVersion=" +:+ policyVersion +:+ "}").

Definition shareStep (epochId : Z) (policyVersion acceptedBlockHash : string) (at_ : Z) (acc : list Share.t * Amount) (c : Candidate)
    : result (list Share.t * Amount) :=
  if negb (Amount.isPositive (rewardAmount c)) then Ok acc
  else
    let record := GenesisReward.mk epochId (validatorAddress c) (rewardAmount c) NETWORK_PROTECTION (buildWorkSummaryHash epochId c policyVersion)
                    policyVersion acceptedBlockHash at_ in
    throw_if (negb (GenesisReward.isValid record)) (logic_error "Reward distributor created an invalid GenesisRewardRecord.");;
    sum ← Amount.add acc.2 (rewardAmount c);
    Ok (acc.1 ++ [Share.mk (validatorAddress c) (acceptedWorkWeight c) (trustFactorBasisPoints c) (effectiveRewardWeight c) (rewardAmount c) record], sum).

(** The first half of [distribute]: the epoch, the candidates and the total of their weights. *)
Record Prepared := Prep { prepared_epoch : ProtectionEpoch.t; candidates : list Candidate; totalWeight : Z; accepted : Z }.

Definition prepare (epochId startBlock endBlock : Z) (supply fees : Amount) (target : Z) (policy : EmissionPolicy.t)
    (works : list Work.t) (scores : list Score.t) (acceptedBlockHash : string) (at_ : Z) : result Prepared :=
  throw_if (epochId =? 0) (invalid_argument "Epoch id must be positive.");;
  throw_if (endBlock <? startBlock) (invalid_argument "Epoch end block cannot be lower than start block.");;
  throw_if (Amount.isNegative supply) (invalid_argument "Current circulating supply cannot be negative.");;
  throw_if (Amount.isNegative fees) (invalid_argument "Collected fees cannot be negative.");;
  throw_if (target =? 0) (invalid_argument "Target work weight must be positive.");;
  throw_if (negb (EmissionPolicy.isValid policy)) (invalid_argument "Invalid epoch emission policy.");;
  throw_if (empty_string acceptedBlockHash) (invalid_argument "Accepted block hash cannot be empty.");;
  throw_if (at_ <=? 0) (invalid_argument "Reward timestamp must be positive.");;
  work ← foldR (workStep epochId) (WS ∅ ∅ 0) works;
  scoreMap ← foldR (scoreStep epochId) ∅ scores;
  demand ← calculateWorkDemandBasisPoints (total work) target;
  cap ← EmissionPolicy.calculateNewEmissionCap supply policy;
  let e := ProtectionEpoch.mk epochId startBlock endBlock fees cap demand target (total work) (EmissionPolicy.policyVersion policy) acceptedBlockHash in
  throw_if (negb (ProtectionEpoch.isValid e)) (logic_error "Reward distributor created an invalid ProtectionEpoch.");;
  _ ← ProtectionEpoch.securityEmission e;
  '(cs, all) ← foldR (candidateStep scoreMap) ([], 0) (entries (byValidator work));
  Ok (Prep e cs all (total work)).

Definition distribute (epochId startBlock endBlock : Z) (supply fees : Amount) (target : Z) (policy : EmissionPolicy.t)
    (works : list Work.t) (scores : list Score.t) (acceptedBlockHash : string) (at_ : Z) : result Distribution.t :=
  p ← prepare epochId startBlock endBlock supply fees target policy works scores acceptedBlockHash at_;
  let version := EmissionPolicy.policyVersion policy in
  emission ← ProtectionEpoch.securityEmission (prepared_epoch p);
  if Amount.isZero emission || bool_decide (candidates p = []) || (totalWeight p =? 0) then
    let d := Distribution.mk (prepared_epoch p) version target (accepted p) 0 0 [] in
    valid ← Distribution.isValid d;
    throw_if (negb valid) (logic_error "Empty reward distribution is invalid.");;
    Ok d
  else
    '(cs, distributed) ← foldR (floorStep emission (totalWeight p)) ([], 0) (candidates p);
    cs ← spread (emission - distributed) cs;
    '(rewards, distributed) ← foldR (shareStep epochId version acceptedBlockHash at_) ([], 0) cs;
    throw_if (emission <? distributed) (logic_error "Reward distributor exceeded security emission cap.");;
    let d := Distribution.mk (prepared_epoch p) version target (accepted p) (totalWeight p) distributed rewards in
    valid ← Distribution.isValid d;
    throw_if (negb valid) (logic_error "Reward distributor created an invalid distribution.");;
    Ok d.
End distributor.
End Distributor.

(** ** Fees *)

Module Fees.
Definition NODO_FEE_VALIDATOR_REWARD_BASIS_POINTS : Z := 5000.
Definition NODO_FEE_TREASURY_BASIS_POINTS : Z := 3000.
Definition NODO_FEE_BURN_BASIS_POINTS : Z := 2000.
Definition FEE_SPLIT_POLICY_REASON : string := "FEE_SPLIT_POLICY_V1".
Definition FEE_BALANCE_REASON : string := "FEE_ECONOMIC_BALANCE".
Definition FEE_BURN_REASON : string := "PARTIAL_FEE_BURN".
Definition TREASURY_FEE_REASON : string := "TREASURY_FEE_ALLOCATION".
Definition TREASURY_ADDRESS : string := "treasury-protocol-account".

Definition basisPointShare (total : Amount) (basisPoints : Z) : result Amount :=
  throw_if (Amount.isNegative total) (invalid_argument "Cannot split a negative fee amount.");;
  if (basisPoints =? 0) || Amount.isZero total then Ok 0
  else
    let whole := Z.quot total 10000 in
    let remainder := Z.rem total 10000 in
    throw_if (i64_max / basisPoints <? whole) (overflow_error "Fee split overflow.");;
    let wholePart := whole * basisPoints in
    let remainderPart := Z.quot (remainder * basisPoints) 10000 in
    throw_if (i64_max - remainderPart <? wholePart) (overflow_error "Fee split overflow.");;
    Amount.fromRawUnits (wholePart + remainderPart).

Record Policy := mkPolicy { validatorRewardBasisPoints : Z; treasuryBasisPoints : Z; burnBasisPoints : Z; policyId : string; policyReason : string }.

Definition policyIsValid (p : Policy) : bool :=
  negb (empty_string (policyId p)) && String.eqb (policyReason p) FEE_SPLIT_POLICY_REASON &&
  (wrap32 (validatorRewardBasisPoints p + treasuryBasisPoints p + burnBasisPoints p) =? 10000).

Definition policySerialize (p : Policy) : string :=
  "FeeSplitPolicy{validatorRewardBasisPoints=" +:+ to_string (validatorRewardBasisPoints p) +:+ ";treasuryBasisPoints=" +:+
  to_string (treasuryBasisPoints p) +:+ ";burnBasisPoints=" +:+ to_string (burnBasisPoints p) +:+ ";policyId=" +:+ policyId p +:+ ";reason=" +:+
  policyReason p +:+ "}".

Definition protocolDefault : Policy :=
  mkPolicy NODO_FEE_VALIDATOR_REWARD_BASIS_POINTS NODO_FEE_TREASURY_BASIS_POINTS NODO_FEE_BURN_BASIS_POINTS "NODO_FEE_SPLIT_POLICY_V1" FEE_SPLIT_POLICY_REASON.

Record Balance := mkBalance {
  status : string;
  blockHeight : Z;
  totalFee : Amount;
  validatorRewardAmount : Amount;
  treasuryAmount : Amount;
  burnAmount : Amount;
  balancePolicyId : string;
  reason : string;
}.

Definition NOT_EVALUATED_REASON : string := "FEE_ECONOMICS_NOT_EVALUATED".

Definition balanceIsValid (b : Balance) : result bool :=
  if String.eqb (status b) "NOT_EVALUATED" then
    Ok ((blockHeight b =? 0) && Amount.isZero (totalFee b) && Amount.isZero (validatorRewardAmount b) && Amount.isZero (treasuryAmount b) &&
        Amount.isZero (burnAmount b) && empty_string (balancePolicyId b) && String.eqb (reason b) NOT_EVALUATED_REASON)
  else if negb (String.eqb (status b) "ACTIVE") || (blockHeight b =? 0) || Amount.isNegative (totalFee b) ||
          Amount.isNegative (validatorRewardAmount b) || Amount.isNegative (treasuryAmount b) || Amount.isNegative (burnAmount b) then Ok false
  else
    part ← Amount.add (validatorRewardAmount b) (treasuryAmount b);
    all ← Amount.add part (burnAmount b);
    Ok (negb (negb (all =? totalFee b) || negb (String.eqb (balancePolicyId b) (policySerialize protocolDefault)) ||
              negb (String.eqb (reason b) FEE_BALANCE_REASON))).

Definition active (b : Balance) : result bool := if String.eqb (status b) "ACTIVE" then balanceIsValid b else Ok false.

Definition buildFeeEconomicBalance (height : Z) (fee : Amount) : result Balance :=
  throw_if (height =? 0) (invalid_argument "Cannot build fee economic balance at genesis height.");;
  throw_if (Amount.isNegative fee) (invalid_argument "Cannot build fee economic balance from negative total fee.");;
  let policy := protocolDefault in
  throw_if (negb (policyIsValid policy)) (invalid_argument "Default fee split policy is invalid.");;
  validatorReward ← basisPointShare fee (validatorRewardBasisPoints policy);
  treasury ← basisPointShare fee (treasuryBasisPoints policy);
  rest ← Amount.sub fee validatorReward;
  burn ← Amount.sub rest treasury;
  Ok (mkBalance "ACTIVE" height fee validatorReward treasury burn (policySerialize policy) FEE_BALANCE_REASON).

Definition balanceSerialize (b : Balance) : string :=
  "FeeEconomicBalance{status=" +:+ status b +:+ ";blockHeight=" +:+ to_string (blockHeight b) +:+ ";totalFeeRawUnits=" +:+ to_string (totalFee b) +:+
  ";validatorRewardRawUnits=" +:+ to_string (validatorRewardAmount b) +:+ ";treasuryRawUnits=" +:+ to_string (treasuryAmount b) +:+
  ";burnRawUnits=" +:+ to_string (burnAmount b) +:+ ";policyId=" +:+ balancePolicyId b +:+ ";reason=" +:+ reason b +:+ "}".

(** [FeeBurnRecord] *)
Record Burn := mkBurn {
  burnStatus : string;
  burnHeight : Z;
  burned : Amount;
  supplyBefore : Amount;
  supplyAfter : Amount;
  burnReason : string;
  burnSource : string;
}.

Definition burnIsValid (r : Burn) : result bool :=
  if String.eqb (burnStatus r) "NOT_EVALUATED" then Ok (String.eqb (burnReason r) NOT_EVALUATED_REASON)
  else if negb (String.eqb (burnStatus r) "ACTIVE") || (burnHeight r =? 0) || Amount.isNegative (burned r) || Amount.isNegative (supplyBefore r) ||
          Amount.isNegative (supplyAfter r) then Ok false
  else
    after ← Amount.sub (supplyBefore r) (burned r);
    Ok (negb (negb (supplyAfter r =? after) || negb (String.eqb (burnReason r) FEE_BURN_REASON) || empty_string (burnSource r))).

Definition buildFeeBurnRecord (b : Balance) (supply : Amount) : result Burn :=
  isActive ← active b;
  throw_if (negb isActive || Amount.isNegative supply || (supply <? burnAmount b))
    (invalid_argument "Cannot build fee burn record from invalid fee balance or supply.");;
  after ← Amount.sub supply (burnAmount b);
  Ok (mkBurn "ACTIVE" (blockHeight b) (burnAmount b) supply after FEE_BURN_REASON (balanceSerialize b)).

(** [TreasuryFeeRecord] *)
Record Treasury := mkTreasury {
  treasuryStatus : string;
  treasuryHeight : Z;
  treasuryAddress : string;
  treasuryShare : Amount;
  treasuryReason : string;
  treasurySource : string;
}.

Definition treasuryIsValid (r : Treasury) : bool :=
  if String.eqb (treasuryStatus r) "NOT_EVALUATED" then String.eqb (treasuryReason r) NOT_EVALUATED_REASON
  else if negb (String.eqb (treasuryStatus r) "ACTIVE") || (treasuryHeight r =? 0) || negb (String.eqb (treasuryAddress r) TREASURY_ADDRESS) ||
          Amount.isNegative (treasuryShare r) || negb (String.eqb (treasuryReason r) TREASURY_FEE_REASON) || empty_string (treasurySource r) then false
  else true.

Definition buildTreasuryFeeRecord (b : Balance) : result Treasury :=
  isActive ← active b;
  throw_if (negb isActive) (invalid_argument "Cannot build treasury fee record from inactive fee balance.");;
  Ok (mkTreasury "ACTIVE" (blockHeight b) TREASURY_ADDRESS (treasuryAmount b) TREASURY_FEE_REASON (balanceSerialize b)).
End Fees.

(** ** Settlement on the account view *)

Module Settlement.
Definition credit (accounts : AccountStateView.t) (address : string) (amount : Amount) : result AccountStateView.t :=
  if Amount.isZero amount then Ok accounts
  else
    let current := AccountStateView.accountOrDefault accounts address in
    balance ← Amount.add (AccountState.balance current) amount;
    let '(put, accounts) := AccountStateView.putAccount (AccountState.mk address balance (AccountState.nonce current)) accounts in
    throw_if (negb put) (logic_error "Fee settlement produced an invalid account.");;
    Ok accounts.

Definition settleFees (accounts : AccountStateView.t) (blockHeight : Z) (totalFee : Amount) : result AccountStateView.t :=
  b ← Fees.buildFeeEconomicBalance blockHeight totalFee;
  settled ← credit accounts feePoolAddress (Fees.validatorRewardAmount b);
  credit settled Fees.TREASURY_ADDRESS (Fees.treasuryAmount b).

Definition VALIDATOR_REWARD_LOCKED_NUMERATOR : Z := 1.
Definition VALIDATOR_REWARD_LOCKED_DENOMINATOR : Z := 10.
Definition BLOCK_FINALIZATION_FEE_REASON : string := "BLOCK_FINALIZATION_FEE".
Definition EPOCH_PROTECTION_REWARD_REASON : string := "EPOCH_PROTECTION_REWARD".

Record Reward := mkReward { validatorAddress : string; blockHeight : Z; totalReward : Amount; liquidReward : Amount; lockedReward : Amount; reason : string }.

Definition rewardIsValid (r : Reward) : bool :=
  if empty_string (validatorAddress r) || (blockHeight r =? 0) ||
     (negb (String.eqb (reason r) BLOCK_FINALIZATION_FEE_REASON) && negb (String.eqb (reason r) EPOCH_PROTECTION_REWARD_REASON)) ||
     negb (Amount.isPositive (totalReward r)) || Amount.isNegative (liquidReward r) || Amount.isNegative (lockedReward r) then false
  else match Amount.add (liquidReward r) (lockedReward r) with Ok s => s =? totalReward r | Throw _ => false end.

Definition lockedPortion (total : Amount) : result Amount :=
  Amount.fromRawUnits (Z.quot (total * VALIDATOR_REWARD_LOCKED_NUMERATOR) VALIDATOR_REWARD_LOCKED_DENOMINATOR).

(** The rewards of [buildForVoters] from position [index] of the sorted recipients. *)
Fixpoint votersFrom (base remainder height : Z) (index : Z) (recipients : list string) : result (list Reward) :=
  match recipients with
  | [] => Ok []
  | address :: recipients =>
      let raw := base + (if index <? remainder then 1 else 0) in
      if raw <=? 0 then votersFrom base remainder height (index + 1) recipients
      else
        total ← Amount.fromRawUnits raw;
        locked ← lockedPortion total;
        liquid ← Amount.sub total locked;
        rest ← votersFrom base remainder height (index + 1) recipients;
        Ok (mkReward address height total liquid locked BLOCK_FINALIZATION_FEE_REASON :: rest)
  end.

Definition buildForVoters (total : Amount) (addresses : list string) (height : Z) : result (list Reward) :=
  throw_if (Amount.isNegative total) (invalid_argument "Cannot distribute a negative validator reward.");;
  if Amount.isZero total then Ok []
  else
    throw_if (height =? 0) (invalid_argument "Cannot distribute validator rewards for genesis height.");;
    throw_if (existsb empty_string addresses) (invalid_argument "Reward distribution validator address is empty.");;
    let recipients := (entries (list_to_map ((λ a, (a, tt)) <$> addresses) : gmap string unit)).*1 in
    throw_if (bool_decide (recipients = [])) (invalid_argument "Cannot distribute validator rewards without recipients.");;
    let n := Z.of_nat (length recipients) in
    votersFrom (Z.quot total n) (Z.rem total n) height 0 recipients.

(** The loop of [buildFromEpochRewards]. *)
Fixpoint epochRewardsFrom (height : Z) (seen : gset string) (l : list GenesisRewardRecord) : result (list Reward) :=
  match l with
  | [] => Ok []
  | g :: l =>
      throw_if (negb (GenesisReward.isValid g) || bool_decide (GenesisReward.validatorAddress g ∈ seen))
        (invalid_argument "Invalid or duplicate canonical epoch reward.");;
      rest ← epochRewardsFrom height ({[ GenesisReward.validatorAddress g ]} ∪ seen) l;
      Ok (mkReward (GenesisReward.validatorAddress g) height (GenesisReward.amount g) (GenesisReward.amount g) 0 EPOCH_PROTECTION_REWARD_REASON :: rest)
  end.

Definition buildFromEpochRewards (records : list GenesisRewardRecord) (height : Z) : result (list Reward) :=
  throw_if (height =? 0) (invalid_argument "Cannot distribute epoch rewards at genesis height.");; epochRewardsFrom height ∅ records.

Definition distributionStep (accounts : AccountStateView.t) (r : Reward) : result AccountStateView.t :=
  throw_if (negb (rewardIsValid r) || Amount.isNegative (liquidReward r)) (invalid_argument "Invalid epoch reward distribution rejected.");;
  if Amount.isZero (liquidReward r) then Ok accounts
  else
    let current := AccountStateView.accountOrDefault accounts (validatorAddress r) in
    balance ← Amount.add (AccountState.balance current) (liquidReward r);
    let '(put, accounts) := AccountStateView.putAccount (AccountState.mk (validatorAddress r) balance (AccountState.nonce current)) accounts in
    throw_if (negb put) (logic_error "Epoch reward credit produced an invalid account.");;
    Ok accounts.

Definition applyDistributions (l : list Reward) (accounts : AccountStateView.t) : result AccountStateView.t := foldR distributionStep accounts l.
End Settlement.

(** ** Lemmas on rounding *)

Module RewardFacts.
Import Distributor.

(** Rounding the shares of [total] down loses less than one unit per share. *)
Lemma floors_sum {A} (w : A → Z) (total all : Z) (l : list A) : 0 < all → sum_by w l = all →
  0 ≤ total - sum_by (λ x, total * w x / all) l ∧ (total - sum_by (λ x, total * w x / all) l < Z.of_nat (length l)).
Proof.
  intros Hall Hsum. assert (∀ l, sum_by (λ x, total * w x) l = total * sum_by w l) as Hmul by (induction l0; simpl; lia).
  assert (∀ l : list A, all * sum_by (λ x, total * w x / all) l + sum_by (λ x, (total * w x) mod all) l = sum_by (λ x, total * w x) l) as Hdiv.
  { induction l0 as [|x l0 IH]; simpl; [lia|]. pose proof (Z.div_mod (total * w x) all ltac:(lia)). lia. }
  assert (∀ l : list A, 0 ≤ sum_by (λ x, (total * w x) mod all) l ∧ (l ≠ [] → sum_by (λ x, (total * w x) mod all) l < all * Z.of_nat (length l))) as Hmod.
  { induction l0 as [|x l0 [IH1 IH2]]; simpl; [done|]. pose proof (Z.mod_pos_bound (total * w x) all Hall).
    destruct l0 as [|y l0]; [simpl; lia|]. assert (y :: l0 ≠ []) as Hne by done. specialize (IH2 Hne). rewrite (Nat2Z.inj_succ (length _)). split; [lia|]. intros _. lia. }
  specialize (Hdiv l). specialize (Hmul l). destruct (Hmod l) as [H0 H1]. rewrite Hmul, Hsum in Hdiv.
  destruct l as [|x l]; [simpl in Hsum; lia|]. specialize (H1 ltac:(done)). nia.
Qed.

Lemma mulDiv_Ok r n d v : multiplyDivideRawUnits r n d = Ok v → 0 ≤ r ∧ n ≤ d ∧ v = r * n / d.
Proof. unfold multiplyDivideRawUnits. intros E. inv_ok. lia. Qed.

Lemma fromRaw_Ok r v : Amount.fromRawUnits r = Ok v → v = r ∧ 0 ≤ r.
Proof. unfold Amount.fromRawUnits. intros E. inv_ok. apply Amount.mk_Ok in E as [? ->]. lia. Qed.

Lemma safeAdd_Ok c a b x : safeAdd c a b = Ok x → x = a + b.
Proof. unfold safeAdd. intros E. by inv_ok. Qed.

Lemma safeMultiply_Ok c a b x : safeMultiply c a b = Ok x → x = a * b.
Proof. unfold safeMultiply. intros E. by inv_ok. Qed.

Lemma floors_inv E W cs acc s x : foldR (floorStep E W) (acc, s) cs = Ok x →
  x.1 = acc ++ ((λ c, set_reward (E * effectiveRewardWeight c / W) c) <$> cs) ∧ x.2 = s + sum_by (λ c, E * effectiveRewardWeight c / W) cs.
Proof.
  revert acc s. induction cs as [|c cs IH]; intros acc s Hx; simpl in Hx; [inv_ok; simpl; rewrite app_nil_r; split; [done|lia]|].
  apply bind_Ok in Hx as ([acc1 s1] & E1 & Hx). unfold floorStep in E1. simpl in E1. inv_ok.
  apply mulDiv_Ok in E0 as (_ & _ & ->). apply fromRaw_Ok in E2 as [-> _]. apply Amount.add_Ok in E3 as [-> _].
  apply IH in Hx as [-> ->]. rewrite fmap_cons, <- app_assoc. simpl. split; [done|lia].
Qed.

(** Handing out the remainder raises some rewards by one unit and changes nothing else. *)
Definition raised (c c' : Candidate) : Prop := c' = c ∨ c' = set_reward (rewardAmount c + 1) c.

Lemma spread_inv n l l' : 0 ≤ n ≤ Z.of_nat (length l) → spread n l = Ok l' →
  Forall2 raised l l' ∧ sum_by rewardAmount l' = sum_by rewardAmount l + n.
Proof.
  revert n l'. induction l as [|c l IH]; intros n l' Hn E; cbn [spread] in E; [inv_ok; simpl in *; split; [constructor|lia]|].
  destruct (n <=? 0) eqn:Hz.
  { injection E as <-. split; [|lia]. constructor; [by left|]. clear. induction l; constructor; [by left|done]. }
  apply bind_Ok in E as (one & E1 & E). apply fromRaw_Ok in E1 as [-> _]. apply bind_Ok in E as (rw & E2 & E). apply Amount.add_Ok in E2 as [-> _].
  apply bind_Ok in E as (rest & E3 & E). injection E as <-. simpl length in Hn. rewrite Nat2Z.inj_succ in Hn.
  apply IH in E3 as [HF Hs]; [|lia]. split; [constructor; [by right|done]|]. simpl. lia.
Qed.

Lemma raised_weights l l' : Forall2 raised l l' → sum_by effectiveRewardWeight l' = sum_by effectiveRewardWeight l.
Proof. induction 1 as [|c c' l l' [->| ->] _ IH]; simpl; lia. Qed.

(** *** The candidates *)

Definition score_ok (s : ScoreSummary) : Prop := 0 ≤ score s ≤ 100.

Definition cand_ok (work : gmap string Z) (c : Candidate) : Prop :=
  work !! validatorAddress c = Some (acceptedWorkWeight c) ∧ 0 < trustFactorBasisPoints c ≤ 10000 ∧
  effectiveRewardWeight c = acceptedWorkWeight c * trustFactorBasisPoints c ∧ rewardAmount c = 0.

Lemma trust_range (scores : gmap string ScoreSummary) v : map_Forall (λ _, score_ok) scores → let trust := wrap32 (score (default noScore (scores !! v)) * 100) in 0 ≤ trust ≤ 10000.
Proof.
  intros Hs. assert (score_ok (default noScore (scores !! v))) as [H0 H1]; [|unfold wrap32; rewrite Z.mod_small; lia].
  destruct (scores !! v) as [x|] eqn:E; simpl; [by apply (Hs v)|split; simpl; lia].
Qed.

Lemma candidateStep_inv (scores : gmap string ScoreSummary) acc e x : candidateStep scores acc e = Ok x →
  x = acc ∨ ∃ trust, trust = wrap32 (score (default noScore (scores !! e.1)) * 100) ∧ trust ≠ 0 ∧
    x = (acc.1 ++ [Cand e.1 e.2 trust (e.2 * trust) 0], acc.2 + e.2 * trust).
Proof.
  unfold candidateStep. destruct (negb _); [intros [= <-]; by left|]. destruct (wrap32 _ =? 0) eqn:Ht; [intros [= <-]; by left|]. intros E. right.
  apply bind_Ok in E as (w & E1 & E). apply bind_Ok in E as (a & E2 & E). injection E as <-. apply safeMultiply_Ok in E1 as ->. apply safeAdd_Ok in E2 as ->.
  eexists. split_and!; [done|by apply Z.eqb_neq|done].
Qed.

Lemma candidates_inv scores work l acc all x : map_Forall (λ _, score_ok) scores → (∀ v w, (v, w) ∈ l → work !! v = Some w) →
  Forall (cand_ok work) acc → all = sum_by effectiveRewardWeight acc → foldR (candidateStep scores) (acc, all) l = Ok x →
  Forall (cand_ok work) x.1 ∧ x.2 = sum_by effectiveRewardWeight x.1.
Proof.
  intros Hsc. revert acc all. induction l as [|[v w] l IH]; intros acc all Hl Hacc Hall Hx; simpl in Hx; [by injection Hx as <-|].
  apply bind_Ok in Hx as ([acc1 all1] & E1 & Hx). pose proof (trust_range scores v Hsc) as Ht.
  apply candidateStep_inv in E1 as [[= -> ->]|(trust & -> & Hne & [= -> ->])]; simpl in *.
  - apply (IH acc all); [intros; apply Hl; by right|done..].
  - eapply IH; [intros; apply Hl; by right| | |exact Hx]; [|rewrite sum_by_app; simpl; lia].
    apply Forall_app. split; [done|]. apply Forall_singleton. unfold cand_ok. simpl. split_and!; [apply Hl; by left|lia|lia|done|done].
Qed.

(** *** The shares *)

Section rewards.
Context `{Sha256}.

(** A share made of a candidate with a positive reward. *)
Definition share_of (c : Candidate) (s : Share.t) : Prop :=
  Share.validatorAddress s = validatorAddress c ∧ Share.acceptedWorkWeight s = acceptedWorkWeight c ∧
  Share.trustFactorBasisPoints s = trustFactorBasisPoints c ∧ Share.effectiveRewardWeight s = effectiveRewardWeight c ∧
  Share.rewardAmount s = rewardAmount c ∧ GenesisReward.validatorAddress (Share.rewardRecord s) = validatorAddress c ∧
  GenesisReward.amount (Share.rewardRecord s) = rewardAmount c.

Definition positive (c : Candidate) : bool := Amount.isPositive (rewardAmount c).

Lemma shares_inv epochId version hash at_ cs acc s x : foldR (shareStep epochId version hash at_) (acc, s) cs = Ok x →
  ∃ l, x.1 = acc ++ l ∧ Forall2 share_of (List.filter positive cs) l ∧ x.2 = s + sum_by rewardAmount (List.filter positive cs).
Proof.
  revert acc s. induction cs as [|c cs IH]; intros acc s Hx; simpl in Hx.
  { injection Hx as <-. exists []. rewrite app_nil_r. split_and!; [done|constructor|simpl; lia]. }
  apply bind_Ok in Hx as ([acc1 s1] & E1 & Hx). unfold shareStep in E1. cbn [fst snd] in E1. cbn [List.filter].
  change (Amount.isPositive (rewardAmount c)) with (positive c) in E1. destruct (positive c) eqn:Hp; cbn [negb] in E1; [|injection E1 as <- <-; by apply IH].
  inv_ok. match goal with Es : Amount.add _ _ = Ok _ |- _ => apply Amount.add_Ok in Es as [-> _] end. apply IH in Hx as (l & -> & HF & ->). rewrite <- app_assoc. eexists (_ :: l). split_and!; [done| |simpl; lia].
  constructor; [by unfold share_of|done].
Qed.

Lemma audit_weights d l acc x : Distribution.auditShares d acc l = Ok (Some x) →
  Distribution.weight x = Distribution.weight acc + sum_by Share.effectiveRewardWeight l ∧
  Distribution.rewards x = Distribution.rewards acc + sum_by Share.rewardAmount l.
Proof.
  revert acc. induction l as [|s l IH]; intros acc E; simpl in E; [injection E as <-; simpl; lia|].
  destruct (negb (Share.isValid s)); [done|]. destruct (negb (_ =? _)); [done|]. destruct (negb (String.eqb _ _)); [done|].
  apply bind_Ok in E as (i & _ & E). case_bool_decide; [done|]. apply bind_Ok in E as (w & E1 & E). apply bind_Ok in E as (e & E2 & E). apply bind_Ok in E as (r & E3 & E).
  apply safeAdd_Ok in E2 as ->. apply Amount.add_Ok in E3 as [-> _]. apply IH in E as [-> ->]. simpl. lia.
Qed.

Lemma valid_weights d : Distribution.isValid d = Ok true →
  sum_by Share.effectiveRewardWeight (Distribution.validatorRewards d) = Distribution.totalEffectiveRewardWeight d ∧
  sum_by Share.rewardAmount (Distribution.validatorRewards d) = Distribution.distributedSecurityEmission d.
Proof.
  unfold Distribution.isValid. intros E. repeat (case_match; [done|]). apply bind_Ok in E as (em & _ & E). case_match; [done|].
  apply bind_Ok in E as ([acc|] & Ea & E); [|done]. apply audit_weights in Ea as [Ew Er]. simpl in Ew, Er.
  case_match; [done|]. destruct (Distribution.weight acc =? _) eqn:E1; [|done]. destruct (Distribution.rewards acc =? _) eqn:E2; [|done]. lia.
Qed.

Lemma share_sums cs l : Forall2 share_of cs l → sum_by Share.effectiveRewardWeight l = sum_by effectiveRewardWeight cs ∧
  sum_by Share.rewardAmount l = sum_by rewardAmount cs.
Proof. induction 1 as [|c s cs l (_ & _ & _ & Ew & Er & _) _ [IH1 IH2]]; simpl; lia. Qed.

Lemma positive_sum cs : Forall (λ c, 0 ≤ rewardAmount c) cs → sum_by rewardAmount (List.filter positive cs) = sum_by rewardAmount cs.
Proof.
  induction 1 as [|c cs Hc _ IH]; [done|]. simpl. unfold positive at 1, Amount.isPositive. destruct (0 <? rewardAmount c) eqn:E; simpl; lia.
Qed.

Lemma all_positive cs : Forall (λ c, 0 < effectiveRewardWeight c) cs → sum_by effectiveRewardWeight (List.filter positive cs) = sum_by effectiveRewardWeight cs →
  Forall (λ c, positive c = true) cs.
Proof.
  intros Hw. assert (∀ l : list Candidate, Forall (λ c, 0 < effectiveRewardWeight c) l → sum_by effectiveRewardWeight (List.filter positive l) ≤ sum_by effectiveRewardWeight l) as Hle.
  { induction 1 as [|c l Hc _ IH]; simpl; [lia|]. destruct (positive c); simpl; lia. }
  induction Hw as [|c cs Hc Hw IH]; intros E; [constructor|]. specialize (Hle cs Hw). simpl in E. destruct (positive c) eqn:Hp; simpl in E; [|lia].
  constructor; [done|]. apply IH. lia.
Qed.

(** *** Accepted work *)

Definition work_typed (w : Work.t) : Prop := 0 ≤ Work.workWeight w.

Lemma work_inv epochId ws s s' : Forall work_typed ws → map_Forall (λ _ z, 0 < z) (byValidator s) → 0 ≤ total s →
  foldR (workStep epochId) s ws = Ok s' → map_Forall (λ _ z, 0 < z) (byValidator s') ∧ 0 ≤ total s'.
Proof.
  intros Hws. revert s. induction Hws as [|w ws Hw _ IH]; intros s Hm Ht E; simpl in E; [by injection E as <-|].
  apply bind_Ok in E as (s1 & E1 & E). apply (IH s1); [| |exact E]; clear E IH; unfold workStep in E1; apply bind_Ok in E1 as ([] & Hv%throw_if_Ok & E1).
  - destruct (negb (Work.epoch w =? epochId)); [by injection E1 as <-|]. destruct (negb (Work.contributesToReward w)); [by injection E1 as <-|]. inv_ok.
    match goal with Es : safeAdd "validator accepted work" _ _ = Ok _ |- _ => apply safeAdd_Ok in Es as -> end. simpl. apply map_Forall_insert_2; [|done].
    assert (0 < Work.workWeight w) by (unfold Work.isValid, work_typed in *; repeat (case_match; [discriminate|]); lia).
    destruct (byValidator s !! _) as [z|] eqn:Ez; simpl; [specialize (Hm _ _ Ez); simpl in Hm|]; lia.
  - destruct (negb (Work.epoch w =? epochId)); [by injection E1 as <-|]. destruct (negb (Work.contributesToReward w)); [by injection E1 as <-|]. inv_ok.
    match goal with Es : safeAdd "total accepted work" _ _ = Ok _ |- _ => apply safeAdd_Ok in Es as -> end. simpl. unfold work_typed in Hw. lia.
Qed.

(** *** Scores are percentages *)

Lemma score_inv epochId l m m' : map_Forall (λ _, score_ok) m → foldR (scoreStep epochId) m l = Ok m' → map_Forall (λ _, score_ok) m'.
Proof.
  revert m. induction l as [|x l IH]; intros m Hm E; simpl in E; [by injection E as <-|]. apply bind_Ok in E as (m1 & E1 & E). apply (IH m1); [|exact E].
  unfold scoreStep in E1. apply bind_Ok in E1 as ([] & Hv%throw_if_Ok & E1). destruct (epochId <? Score.epoch x); [by injection E1 as <-|].
  injection E1 as <-. apply map_Forall_insert_2; [|done]. destruct (shouldReplaceScore _ x).
  - unfold score_ok. simpl. apply negb_false_iff in Hv. unfold Score.isValid in Hv. repeat (case_match; [discriminate|]).
    apply negb_false_iff in H3. unfold Score.isScoreInRange, Score.MIN_SCORE, Score.MAX_SCORE in H3. lia.
  - destruct (m !! _) as [z|] eqn:Ez; simpl; [by apply (Hm _ _ Ez)|unfold score_ok; simpl; lia].
Qed.

(** *** What the records of an epoch say of a validator *)

(** The work of [v] that was accepted in the epoch. *)
Definition earned (works : list Work.t) (epochId : Z) (v : string) : Z :=
  sum_by (λ w, if (Work.epoch w =? epochId) && Work.contributesToReward w && String.eqb (Work.validatorAddress w) v then Work.workWeight w else 0) works.

Definition scores_before (s s' : Score.t) : Prop :=
  Score.epoch s < Score.epoch s' ∨ Score.epoch s = Score.epoch s' ∧ Score.timestamp s < Score.timestamp s'.

Definition scores_of (epochId : Z) (v : string) (s : Score.t) : Prop := Score.validatorAddress s = v ∧ Score.epoch s ≤ epochId.

(** The score of [v] in force in the epoch: the latest one, and the first of those of the same time. *)
Definition latest (scores : list Score.t) (epochId : Z) (v : string) (sc : Score.t) : Prop :=
  ∃ k, scores !! k = Some sc ∧ scores_of epochId v sc ∧
    ∀ j s, scores !! j = Some s → scores_of epochId v s → ((j < k)%nat → scores_before s sc) ∧ ((k < j)%nat → ¬ scores_before sc s).

Lemma latest_unique scores epochId v sc sc' : latest scores epochId v sc → latest scores epochId v sc' → sc = sc'.
Proof.
  intros (k & Hk & Hs & Hall) (k' & Hk' & Hs' & Hall'). destruct (Hall k' sc' Hk' Hs') as [H1 H2], (Hall' k sc Hk Hs) as [H3 H4].
  destruct (Nat.lt_trichotomy k k') as [Hlt|[->|Hlt]]; [by destruct (H2 Hlt); apply H3| |by destruct (H4 Hlt); apply H1].
  rewrite Hk in Hk'. by injection Hk'.
Qed.

Lemma latest_snoc scores epochId v sc x : latest scores epochId v sc → (scores_of epochId v x → ¬ scores_before sc x) → latest (scores ++ [x]) epochId v sc.
Proof.
  intros (k & Hk & Hs & Hall) Hx. exists k. split_and!; [by apply lookup_app_l_Some|done|]. intros j s [[_ Hj]|[-> ->]]%lookup_snoc_Some Hof.
  - by apply Hall.
  - apply lookup_lt_Some in Hk. split; [lia|]. intros _. by apply Hx.
Qed.

Lemma latest_new scores epochId v x : scores_of epochId v x →
  (∀ s, s ∈ scores → scores_of epochId v s → scores_before s x) → latest (scores ++ [x]) epochId v x.
Proof.
  intros Hx Hall. exists (length scores). split_and!; [by rewrite lookup_app_r, Nat.sub_diag by lia|done|].
  intros j s [[Hlt Hj]|[-> ->]]%lookup_snoc_Some Hof; split; [|lia..]. intros _. apply Hall; [by eapply list_elem_of_lookup_2|done].
Qed.

Lemma latest_max scores epochId v sc s : latest scores epochId v sc → s ∈ scores → scores_of epochId v s → ¬ scores_before sc s.
Proof.
  intros (k & Hk & _ & Hall) [j Hj]%list_elem_of_lookup Hof. destruct (Hall j s Hj Hof) as [H1 H2].
  destruct (Nat.lt_trichotomy k j) as [Hlt|[->|Hlt]]; [by apply H2| |specialize (H1 Hlt); unfold scores_before in *; lia].
  rewrite Hk in Hj. injection Hj as ->. unfold scores_before. lia.
Qed.

Definition summary_of (s : Score.t) : ScoreSummary := Summary true (Score.epoch s) (Score.timestamp s) (Score.newScore s).

(** The score map holds the score in force of every validator that has one. *)
Definition scores_spec (epochId : Z) (l : list Score.t) (m : gmap string ScoreSummary) : Prop :=
  ∀ v, match m !! v with
       | Some x => ∃ sc, latest l epochId v sc ∧ x = summary_of sc
       | None => ∀ s, s ∈ l → ¬ scores_of epochId v s
       end.

Lemma replace_iff sc x : shouldReplaceScore (summary_of sc) x = true ↔ scores_before sc x.
Proof.
  unfold shouldReplaceScore, scores_before. simpl. destruct (Z.ltb_spec (Score.epoch sc) (Score.epoch x)); [split; [by left|done]|].
  destruct (Z.eqb_spec (Score.epoch x) (Score.epoch sc)), (Z.ltb_spec (Score.timestamp sc) (Score.timestamp x)); simpl; split; try done; lia.
Qed.

Lemma scoreStep_spec epochId l m x m' : scores_spec epochId l m → scoreStep epochId m x = Ok m' → scores_spec epochId (l ++ [x]) m'.
Proof.
  intros Hm E. unfold scoreStep in E. apply bind_Ok in E as ([] & _ & E).
  assert (∀ v, ¬ scores_of epochId v x → match m !! v with Some y => ∃ sc, latest (l ++ [x]) epochId v sc ∧ y = summary_of sc
                                         | None => ∀ s, s ∈ l ++ [x] → ¬ scores_of epochId v s end) as Hkeep.
  { intros v Hno. specialize (Hm v). destruct (m !! v) as [y|].
    - destruct Hm as (sc & Hl & ->). exists sc. split; [|done]. by apply latest_snoc.
    - intros s [Hs| ->%list_elem_of_singleton]%elem_of_app; [by apply Hm|done]. }
  destruct (Z.ltb_spec epochId (Score.epoch x)) as [Hlt|Hle]; injection E as <-; intros v; [apply Hkeep; unfold scores_of; lia|].
  destruct (decide (Score.validatorAddress x = v)) as [<-|Hne]; [|rewrite lookup_insert_ne by done; apply Hkeep; by intros [? _]].
  rewrite lookup_insert_eq. assert (scores_of epochId (Score.validatorAddress x) x) as Hof by done. specialize (Hm (Score.validatorAddress x)).
  destruct (m !! Score.validatorAddress x) as [y|]; simpl.
  - destruct Hm as (sc & Hl & ->). pose proof (replace_iff sc x) as Hr. destruct (shouldReplaceScore (summary_of sc) x).
    + exists x. split; [|done]. apply latest_new; [done|]. intros s Hin Hs. pose proof (latest_max _ _ _ _ _ Hl Hin Hs).
      destruct Hr as [Hr _]. specialize (Hr eq_refl). unfold scores_before in *. lia.
    + exists sc. split; [|done]. apply latest_snoc; [done|]. intros _ Hb. by apply Hr in Hb.
  - exists x. split; [|done]. apply latest_new; [done|]. intros s Hin Hs. by destruct (Hm s Hin).
Qed.

Lemma scores_found epochId scores l m m' : scores_spec epochId l m → foldR (scoreStep epochId) m scores = Ok m' → scores_spec epochId (l ++ scores) m'.
Proof.
  revert l m. induction scores as [|x scores IH]; intros l m Hm E; simpl in E; [rewrite app_nil_r; by injection E as <-|].
  apply bind_Ok in E as (m1 & E1 & E). change (x :: scores) with ([x] ++ scores). rewrite app_assoc. eapply IH; [|exact E]. by eapply scoreStep_spec.
Qed.

Lemma work_found epochId ws s s' v : foldR (workStep epochId) s ws = Ok s' →
  default 0 (byValidator s' !! v) = default 0 (byValidator s !! v) + earned ws epochId v.
Proof.
  revert s. induction ws as [|w ws IH]; intros s E; simpl in E; [injection E as <-; unfold earned; simpl; lia|].
  apply bind_Ok in E as (s1 & E1 & E). rewrite (IH _ E). unfold earned. cbn [sum_by]. unfold workStep in E1. apply bind_Ok in E1 as ([] & _ & E1).
  destruct (Work.epoch w =? epochId); [|injection E1 as <-; simpl; lia]. destruct (Work.contributesToReward w); [|injection E1 as <-; simpl; lia].
  simpl in E1. inv_ok. match goal with Es : safeAdd "validator accepted work" _ _ = Ok _ |- _ => apply safeAdd_Ok in Es as -> end. simpl.
  destruct (String.eqb_spec (Work.validatorAddress w) v) as [->|Hne]; [rewrite lookup_insert_eq; simpl; lia|rewrite lookup_insert_ne by done; lia].
Qed.

(** The candidates are those of the entries whose score counts. *)
Definition candidate_of (scores : gmap string ScoreSummary) (e : string * Z) (c : Candidate) : Prop :=
  hasScore (default noScore (scores !! e.1)) = true ∧
  let trust := wrap32 (score (default noScore (scores !! e.1)) * 100) in trust ≠ 0 ∧ c = Cand e.1 e.2 trust (e.2 * trust) 0.

Lemma candidates_members scores l acc x : foldR (candidateStep scores) acc l = Ok x →
  ∃ cs, x.1 = acc.1 ++ cs ∧ (∀ c, c ∈ cs ↔ ∃ e, e ∈ l ∧ candidate_of scores e c) ∧ (validatorAddress <$> cs) `sublist_of` l.*1.
Proof.
  revert acc. induction l as [|e l IH]; intros acc Hx; simpl in Hx.
  { injection Hx as <-. exists []. rewrite app_nil_r. split_and!; [done| |constructor]. intros c. split; [by intros ?%elem_of_nil|by intros (e & ?%elem_of_nil & _)]. }
  apply bind_Ok in Hx as (acc1 & E1 & Hx). apply IH in Hx as (cs & Hcs & Hmem & Hsub). rewrite fmap_cons.
  unfold candidateStep in E1. destruct (hasScore _) eqn:Hh; simpl in E1.
  - destruct (wrap32 _ =? 0) eqn:Ht.
    + injection E1 as <-. exists cs. split_and!; [done| |by apply sublist_cons]. intros c. rewrite Hmem. setoid_rewrite elem_of_cons.
      split; [intros (e' & ? & ?); exists e'; eauto|]. intros (e' & [->|?] & Hc); [|by exists e']. destruct Hc as (_ & Hne & _). by apply Z.eqb_eq in Ht.
    + apply bind_Ok in E1 as (w & E2 & E1). apply bind_Ok in E1 as (a & E3 & E1). injection E1 as <-. apply safeMultiply_Ok in E2 as ->. simpl in Hcs.
      rewrite <- app_assoc in Hcs. eexists (_ :: cs). split_and!; [exact Hcs| |by apply sublist_skip]. intros c. setoid_rewrite elem_of_cons. rewrite Hmem.
      apply Z.eqb_neq in Ht. split; [intros [->|(e' & ? & ?)]; [exists e; split; [by left|done]|exists e'; eauto]|].
      intros (e' & [->|?] & Hc); [left; by destruct Hc as (_ & _ & ->)|right; by exists e'].
  - injection E1 as <-. exists cs. split_and!; [done| |by apply sublist_cons]. intros c. rewrite Hmem. setoid_rewrite elem_of_cons.
    split; [intros (e' & ? & ?); exists e'; eauto|]. intros (e' & [->|?] & Hc); [|by exists e']. destruct Hc as (Hh' & _). by rewrite Hh in Hh'.
Qed.

(** *** The two halves of [distribute] *)

Lemma prepare_inv epochId startBlock endBlock supply fees target policy works scores hash at_ p : Forall work_typed works →
  prepare epochId startBlock endBlock supply fees target policy works scores hash at_ = Ok p →
  Forall (λ c, 0 < effectiveRewardWeight c ∧ effectiveRewardWeight c = acceptedWorkWeight c * trustFactorBasisPoints c ∧ rewardAmount c = 0) (candidates p) ∧
  totalWeight p = sum_by effectiveRewardWeight (candidates p) ∧
  EmissionPolicy.calculateNewEmissionCap supply policy = Ok (ProtectionEpoch.emissionCap (prepared_epoch p)) ∧
  ProtectionEpoch.isValid (prepared_epoch p) = true ∧ (0 ≤ target → 0 ≤ ProtectionEpoch.workDemandBasisPoints (prepared_epoch p)).
Proof.
  intros Hw E. unfold prepare in E.
  do 8 (apply bind_Ok in E as ([] & _ & E)). apply bind_Ok in E as (work & Ework & E). apply bind_Ok in E as (sm & Escore & E).
  apply bind_Ok in E as (demand & Ed & E). apply bind_Ok in E as (cap & Ecap & E). apply bind_Ok in E as ([] & Hv%throw_if_Ok & E).
  apply bind_Ok in E as (em & _ & E). apply bind_Ok in E as ([cs all] & Ec & E). injection E as <-. simpl.
  apply work_inv in Ework as [Hpos Htot]; [|done|done|done]. apply score_inv in Escore; [|done].
  apply (candidates_inv _ (byValidator work)) in Ec as [Hc Hall]; [|done|by intros ? ? ?%elem_of_entries|constructor|done]. simpl in *.
  split_and!; [|done|done|by apply negb_false_iff|].
  - eapply Forall_impl; [exact Hc|]. intros c (Ha & Ht & He & Hr). specialize (Hpos _ _ Ha). simpl in Hpos. split_and!; [nia|done|done].
  - intros Ht. unfold calculateWorkDemandBasisPoints in Ed. apply bind_Ok in Ed as ([] & Hz%throw_if_Ok & Ed). injection Ed as <-.
    destruct (_ <=? _); [unfold ProtectionEpoch.BASIS_POINTS_DENOMINATOR; lia|unfold wrap32; apply Z.mod_pos_bound; lia].
Qed.

(** Every candidate is a validator with accepted work and a positive score in force, and every such validator is one, once. *)
Lemma prepare_members epochId startBlock endBlock supply fees target policy works scores hash at_ p : Forall work_typed works →
  prepare epochId startBlock endBlock supply fees target policy works scores hash at_ = Ok p →
  NoDup (validatorAddress <$> candidates p) ∧
  (∀ c, c ∈ candidates p → 0 < earned works epochId (validatorAddress c) ∧ acceptedWorkWeight c = earned works epochId (validatorAddress c) ∧
     ∃ sc, latest scores epochId (validatorAddress c) sc ∧ trustFactorBasisPoints c = Score.newScore sc * 100) ∧
  ∀ v sc, 0 < earned works epochId v → latest scores epochId v sc → 0 < Score.newScore sc → v ∈ validatorAddress <$> candidates p.
Proof.
  intros Hw E. unfold prepare in E.
  do 8 (apply bind_Ok in E as ([] & _ & E)). apply bind_Ok in E as (work & Ework & E). apply bind_Ok in E as (sm & Escore & E).
  do 2 (apply bind_Ok in E as (?d & _ & E)). apply bind_Ok in E as ([] & _ & E). apply bind_Ok in E as (em & _ & E).
  apply bind_Ok in E as ([cs all] & Ec & E). injection E as <-. simpl.
  pose proof (λ v, work_found _ _ _ _ v Ework) as Hearned. simpl in Hearned. setoid_rewrite lookup_empty in Hearned. simpl in Hearned.
  apply work_inv in Ework as [Hpos _]; [|done|done|done]. pose proof (score_inv _ _ _ _ (map_Forall_empty _) Escore) as Hok.
  apply (scores_found _ _ []) in Escore; [|intros v; rewrite lookup_empty; by intros s ?%elem_of_nil]. simpl in Escore.
  apply candidates_members in Ec as (cs' & Hcs & Hmem & Hsub). simpl in Hcs. subst cs'.
  assert (∀ v x, sm !! v = Some x → wrap32 (score x * 100) = score x * 100) as Hwrap.
  { intros v x Hx. specialize (Hok v x Hx). unfold score_ok in Hok. unfold wrap32. rewrite Z.mod_small; lia. }
  split_and!; [eapply sublist_NoDup; [apply (NoDup_fst_entries (byValidator work))|exact Hsub]| |].
  - intros c ([v w] & Hin%elem_of_entries & Hsc & _ & ->)%Hmem. simpl in *. specialize (Hearned v). rewrite Hin in Hearned. simpl in Hearned.
    specialize (Hpos v w Hin). simpl in Hpos. split_and!; [lia|lia|]. specialize (Escore v). destruct (sm !! v) as [x|] eqn:Ex; [|done].
    destruct Escore as (sc & Hl & ->). exists sc. split; [done|]. exact (Hwrap v _ Ex).
  - intros v sc Hw0 Hl Hsc. specialize (Hearned v). destruct (byValidator work !! v) as [w|] eqn:Ew; simpl in Hearned; [|lia].
    specialize (Escore v). destruct (sm !! v) as [x|] eqn:Ex; [|destruct Hl as (k & Hk & Hof & _); exfalso; by eapply Escore, Hof; eapply list_elem_of_lookup_2].
    destruct Escore as (sc' & Hl' & ->). rewrite (latest_unique _ _ _ _ _ Hl' Hl) in Ex. pose proof (Hwrap v _ Ex) as Hwr. simpl in Hwr.
    apply list_elem_of_fmap. eexists. split; [|apply Hmem; exists (v, w); split; [by apply elem_of_entries|]].
    2: { unfold candidate_of. simpl. rewrite Ex. simpl. rewrite Hwr. split_and!; [done|lia|reflexivity]. } done.
Qed.

Lemma emission_le_cap e x : 0 ≤ ProtectionEpoch.workDemandBasisPoints e → ProtectionEpoch.securityEmission e = Ok x →
  0 ≤ x ≤ ProtectionEpoch.emissionCap e ∧ ProtectionEpoch.isValid e = true.
Proof.
  unfold ProtectionEpoch.securityEmission. intros Hd E. apply bind_Ok in E as ([] & Hv%throw_if_Ok & E). apply negb_false_iff in Hv. split; [|done].
  apply bind_Ok in E as (raw & Er & E). apply fromRaw_Ok in E as [-> Hraw]. split; [done|]. unfold ProtectionEpoch.multiplyDivideRawUnits in Er.
  assert (ProtectionEpoch.workDemandBasisPoints e ≤ 10000) as Hle
    by (unfold ProtectionEpoch.isValid in Hv; repeat (case_match; [discriminate|]); unfold ProtectionEpoch.BASIS_POINTS_DENOMINATOR in *; lia).
  unfold ProtectionEpoch.BASIS_POINTS_DENOMINATOR in *. set (cap := ProtectionEpoch.emissionCap e) in *. set (n := ProtectionEpoch.workDemandBasisPoints e) in *.
  apply bind_Ok in Er as ([] & H1%throw_if_Ok & Er). apply bind_Ok in Er as ([] & _ & Er). apply bind_Ok in Er as ([] & H2%throw_if_Ok & Er).
  apply bind_Ok in Er as ([] & H3%throw_if_Ok & Er). injection Er as <-. pose proof (Z.mod_pos_bound cap 10000). pose proof (Z.div_mod cap 10000).
  assert (wrap64 (cap `mod` 10000 * n) ≤ cap `mod` 10000 * n) as Hm by (unfold wrap64; apply Z.mod_le; nia).
  assert (wrap64 (cap / 10000 * n) ≤ cap / 10000 * n) as Hq by (unfold wrap64; apply Z.mod_le; [|lia]; pose proof (Z.div_pos cap 10000); nia).
  assert (0 ≤ wrap64 (cap `mod` 10000 * n) ∧ 0 ≤ wrap64 (cap / 10000 * n)) as [? ?] by (unfold wrap64; split; apply Z.mod_pos_bound; lia).
  assert (wrap64 (cap `mod` 10000 * n) / 10000 ≤ cap `mod` 10000) by (apply Z.div_le_upper_bound; nia).
  etrans; [unfold wrap64 at 1; apply Z.mod_le; [|lia]; pose proof (Z.div_pos (wrap64 (cap `mod` 10000 * n)) 10000); lia|].
  pose proof (Z.div_pos cap 10000). nia.
Qed.

Lemma raised_floors E W cs l : Forall2 raised ((λ c, set_reward (E * effectiveRewardWeight c / W) c) <$> cs) l →
  0 ≤ E → 0 < W → Forall (λ c, 0 < effectiveRewardWeight c) cs →
  Forall (λ c, 0 ≤ rewardAmount c ∧ E * effectiveRewardWeight c / W ≤ rewardAmount c ≤ E * effectiveRewardWeight c / W + 1) l.
Proof.
  intros HF HE HW. revert l HF. induction cs as [|c cs IH]; intros l HF Hpos; [by inversion HF|]. rewrite fmap_cons in HF.
  apply Forall2_cons_inv_l in HF as (c' & l' & Hr & HF' & ->). apply Forall_cons in Hpos as [Hc Hpos]. constructor; [|by apply IH].
  pose proof (Z.div_pos (E * effectiveRewardWeight c) W ltac:(nia) HW). destruct Hr as [->| ->]; simpl; lia.
Qed.

Lemma sum_set_reward (f : Candidate → Z) cs : sum_by rewardAmount ((λ c, set_reward (f c) c) <$> cs) = sum_by f cs.
Proof. rewrite sum_by_fmap. by apply sum_by_ext. Qed.

Lemma sum_weight_floor (f : Candidate → Z) cs : sum_by effectiveRewardWeight ((λ c, set_reward (f c) c) <$> cs) = sum_by effectiveRewardWeight cs.
Proof. rewrite sum_by_fmap. by apply sum_by_ext. Qed.

(** What a distribution of a positive emission is made of: candidates [cs] whose rewards
    are the rounded shares, summing to the whole emission, and the shares of those that
    get anything. *)
Record split (p : Prepared) (emission : Z) (d : Distribution.t) (cs : list Candidate) : Prop := {
  sp_shares : Forall2 share_of (List.filter positive cs) (Distribution.validatorRewards d);
  sp_rounded : Forall (λ c, 0 ≤ rewardAmount c ∧ emission * effectiveRewardWeight c / totalWeight p ≤ rewardAmount c ≤
                                             emission * effectiveRewardWeight c / totalWeight p + 1) cs;
  sp_total : sum_by rewardAmount cs = emission;
  sp_weights : sum_by effectiveRewardWeight cs = totalWeight p;
  sp_positive : Forall (λ c, 0 < effectiveRewardWeight c ∧ effectiveRewardWeight c = acceptedWorkWeight c * trustFactorBasisPoints c) cs;
  sp_same : Forall2 (λ c c', ∃ a, c' = set_reward a c) (candidates p) cs;
  sp_recorded : Distribution.totalEffectiveRewardWeight d = totalWeight p ∧ Distribution.distributedSecurityEmission d = emission;
}.

(** The shares of a distribution with a positive emission are those of all its candidates. *)
Lemma split_all p emission d cs : totalWeight p = Distribution.totalEffectiveRewardWeight d → Distribution.isValid d = Ok true → split p emission d cs →
  Forall2 share_of cs (Distribution.validatorRewards d).
Proof.
  intros HWd Hval [HF Hr Htot HW Hp Hs _]. destruct (valid_weights d Hval) as [Hws _]. destruct (share_sums _ _ HF) as [Hs1 _].
  assert (Forall (λ c, positive c = true) cs) as Hall.
  { apply all_positive; [eapply Forall_impl; [exact Hp|]; by intros ? [? _]|]. lia. }
  enough (List.filter positive cs = cs) as Hf by (by rewrite Hf in HF). clear -Hall. induction Hall as [|c cs Hc _ IH]; simpl; [done|]. by rewrite Hc, IH.
Qed.

Lemma same_addresses ps cs l : Forall2 (λ c c', ∃ a, c' = set_reward a c) ps cs → Forall2 share_of cs l →
  Share.validatorAddress <$> l = validatorAddress <$> ps.
Proof.
  intros H1. revert l. induction H1 as [|c c' ps cs [a ->] _ IH]; intros l H2; [by apply Forall2_nil_inv_l in H2 as ->|].
  apply Forall2_cons_inv_l in H2 as (s & l' & (Ea & _) & H2 & ->). rewrite !fmap_cons, (IH _ H2), Ea. done.
Qed.

(** A share comes from a candidate, which its reward was added to. *)
Lemma share_candidate ps cs l s : Forall2 (λ c c', ∃ a, c' = set_reward a c) ps cs → Forall2 share_of cs l → s ∈ l →
  ∃ c c', c ∈ ps ∧ c' ∈ cs ∧
    (Share.validatorAddress s = validatorAddress c ∧ Share.acceptedWorkWeight s = acceptedWorkWeight c ∧ Share.trustFactorBasisPoints s = trustFactorBasisPoints c) ∧
    Share.effectiveRewardWeight s = effectiveRewardWeight c' ∧ Share.rewardAmount s = rewardAmount c' ∧
    effectiveRewardWeight c' = effectiveRewardWeight c ∧ acceptedWorkWeight c' = acceptedWorkWeight c ∧ trustFactorBasisPoints c' = trustFactorBasisPoints c.
Proof.
  intros H1 H2 [k Hk]%list_elem_of_lookup. destruct (Forall2_lookup_r _ _ _ _ _ H2 Hk) as (c' & Hc' & (Ea & Ew & Et & Ee & Er & _)).
  destruct (Forall2_lookup_r _ _ _ _ _ H1 Hc') as (c & Hc & a & ->). exists c, (set_reward a c).
  split_and!; try done; by eapply list_elem_of_lookup_2.
Qed.

Lemma distribute_inv epochId startBlock endBlock supply fees target policy works scores hash at_ d : Forall work_typed works → 0 ≤ target →
  distribute epochId startBlock endBlock supply fees target policy works scores hash at_ = Ok d →
  ∃ p emission, prepare epochId startBlock endBlock supply fees target policy works scores hash at_ = Ok p ∧
    ProtectionEpoch.securityEmission (prepared_epoch p) = Ok emission ∧ 0 ≤ emission ≤ ProtectionEpoch.emissionCap (prepared_epoch p) ∧
    Distribution.protectionEpoch d = prepared_epoch p ∧ Distribution.isValid d = Ok true ∧
    ((emission = 0 ∨ candidates p = []) ∧ Distribution.validatorRewards d = [] ∧ Distribution.distributedSecurityEmission d = 0 ∨
     0 < emission ∧ candidates p ≠ [] ∧ ∃ cs, split p emission d cs).
Proof.
  intros Hw Ht E. unfold distribute in E. apply bind_Ok in E as (p & Ep & E). apply bind_Ok in E as (em & Eem & E). exists p, em.
  destruct (prepare_inv _ _ _ _ _ _ _ _ _ _ _ _ Hw Ep) as (Hc & HW & _ & _ & Hd). destruct (emission_le_cap _ _ (Hd Ht) Eem) as [Hem _].
  assert (candidates p ≠ [] → 0 < totalWeight p) as Hpos.
  { intros Hne. rewrite HW. destruct (candidates p) as [|c cs]; [done|]. apply Forall_cons in Hc as [[? _] Hc]. simpl.
    assert (0 ≤ sum_by effectiveRewardWeight cs); [|lia]. apply sum_by_nonneg. intros x Hx. rewrite Forall_forall in Hc. destruct (Hc x Hx). lia. }
  destruct (Amount.isZero em || bool_decide (candidates p = []) || (totalWeight p =? 0)) eqn:Hzero.
  { apply bind_Ok in E as (valid & Ev & E). apply bind_Ok in E as ([] & Hval%throw_if_Ok & E). injection E as <-. destruct valid; [|done].
    split_and!; [done|done|lia|lia|done|done|]. left. split; [|done]. apply orb_true_iff in Hzero as [[Hz|Hn%bool_decide_eq_true]%orb_true_iff|Hz].
    - left. unfold Amount.isZero in Hz. lia.
    - by right.
    - right. destruct (candidates p) as [|c cs]; [done|]. specialize (Hpos ltac:(done)). lia. }
  apply orb_false_iff in Hzero as [[Hz Hne%bool_decide_eq_false]%orb_false_iff HW0]. specialize (Hpos Hne). unfold Amount.isZero in Hz.
  apply bind_Ok in E as ([fl dist] & Ef & E). apply floors_inv in Ef as [Efl Edist]. simpl in Efl, Edist. subst fl dist.
  apply bind_Ok in E as (cs & Espr & E). destruct (floors_sum effectiveRewardWeight em (totalWeight p) (candidates p) Hpos (eq_sym HW)) as [F1 F2].
  apply spread_inv in Espr as [Hr Hsum]; [|rewrite length_fmap; lia]. rewrite sum_set_reward in Hsum.
  apply bind_Ok in E as ([rs dist] & Es & E). apply shares_inv in Es as (l & El & HF & Ed). simpl in El, Ed. subst rs dist.
  apply bind_Ok in E as ([] & _ & E). apply bind_Ok in E as (valid & Ev & E). apply bind_Ok in E as ([] & Hval%throw_if_Ok & E). injection E as <-. destruct valid; [|done].
  assert (Forall (λ c, 0 < effectiveRewardWeight c) (candidates p)) as Hwp by (eapply Forall_impl; [exact Hc|]; by intros ? [? _]).
  pose proof (raised_floors em (totalWeight p) (candidates p) cs Hr ltac:(lia) Hpos Hwp) as Hround.
  split_and!; [done|done|lia|lia|done|done|]. right. split_and!; [lia|done|]. exists cs. split; simpl.
  - exact HF.
  - exact Hround.
  - lia.
  - rewrite (raised_weights _ _ Hr), sum_weight_floor. done.
  - clear -Hr Hc. revert cs Hr. induction (candidates p) as [|c l IH]; intros cs Hr; [apply Forall2_nil_inv_l in Hr as ->; constructor|].
    rewrite fmap_cons in Hr. apply Forall2_cons_inv_l in Hr as (c' & l' & Hr' & HF' & ->). apply Forall_cons in Hc as [(? & ? & _) Hc].
    constructor; [destruct Hr' as [->| ->]; done|by apply IH].
  - rewrite Forall2_fmap_l in Hr. eapply Forall2_impl; [exact Hr|]. intros c c' [->| ->]; simpl; by eexists.
  - split; [done|]. rewrite positive_sum; [lia|]. eapply Forall_impl; [exact Hround|]. by intros ? [? _].
Qed.
End rewards.

(** *** Money in the account view *)

Definition money (accounts : AccountStateView.t) : Z := map_sum AccountState.balance accounts.

Lemma put_money accounts address b n put accounts' : AccountStateView.putAccount (AccountState.mk address b n) accounts = (put, accounts') → put = true →
  money accounts' = money accounts + (b - AccountState.balance (AccountStateView.accountOrDefault accounts address)).
Proof.
  unfold AccountStateView.putAccount. destruct (negb _); intros [= <- <-] Hp; [done|]. simpl. unfold money, AccountStateView.accountOrDefault.
  destruct (accounts !! address) as [a|] eqn:E; simpl; [rewrite (map_sum_update _ _ _ _ _ E)|rewrite map_sum_insert by done]; simpl; lia.
Qed.

Lemma credit_money accounts address amount accounts' : Settlement.credit accounts address amount = Ok accounts' → money accounts' = money accounts + amount.
Proof.
  unfold Settlement.credit. unfold Amount.isZero. destruct (amount =? 0) eqn:Hz; [intros [= <-]; lia|]. intros E. apply bind_Ok in E as (b & Eb & E).
  apply Amount.add_Ok in Eb as [-> _]. destruct (AccountStateView.putAccount _ accounts) as [put a'] eqn:Ep. apply bind_Ok in E as ([] & Hp%throw_if_Ok & E). injection E as <-.
  apply put_money in Ep; [lia|by apply negb_false_iff].
Qed.

Lemma distributions_money l accounts accounts' : Settlement.applyDistributions l accounts = Ok accounts' →
  money accounts' = money accounts + sum_by Settlement.liquidReward l.
Proof.
  unfold Settlement.applyDistributions. revert accounts. induction l as [|r l IH]; intros accounts E; simpl in E; [injection E as <-; simpl; lia|].
  apply bind_Ok in E as (a1 & E1 & E). apply IH in E. unfold Settlement.distributionStep in E1. apply bind_Ok in E1 as ([] & _ & E1).
  enough (money a1 = money accounts + Settlement.liquidReward r) by (simpl; lia). unfold Amount.isZero in E1.
  destruct (_ =? 0) eqn:Hz in E1; [injection E1 as <-; lia|]. apply bind_Ok in E1 as (b & Eb & E1). apply Amount.add_Ok in Eb as [-> _].
  destruct (AccountStateView.putAccount _ accounts) as [put a'] eqn:Ep. apply bind_Ok in E1 as ([] & Hp%throw_if_Ok & E1). injection E1 as <-.
  apply put_money in Ep; [lia|by apply negb_false_iff].
Qed.

Lemma epochRewards_sum h seen l rs : Settlement.epochRewardsFrom h seen l = Ok rs → sum_by Settlement.liquidReward rs = sum_by GenesisReward.amount l.
Proof.
  revert seen rs. induction l as [|g l IH]; intros seen rs E; simpl in E; [by injection E as <-|]. apply bind_Ok in E as ([] & _ & E).
  apply bind_Ok in E as (rest & Er & E). injection E as <-. apply IH in Er. simpl. lia.
Qed.

(** *** Fees *)

Lemma basisPointShare_exact total bps x : 0 ≤ bps → Fees.basisPointShare total bps = Ok x → 0 ≤ total ∧ x = total * bps / 10000.
Proof.
  unfold Fees.basisPointShare, Amount.isNegative, Amount.isZero. intros Hb E. apply bind_Ok in E as ([] & Hn%throw_if_Ok & E). split; [lia|].
  destruct ((bps =? 0) || (total =? 0)) eqn:Hz.
  { injection E as <-. apply orb_true_iff in Hz as [Hz|Hz]; [assert (bps = 0) as -> by lia; by rewrite Z.mul_0_r|assert (total = 0) as -> by lia; done]. }
  apply bind_Ok in E as ([] & _ & E). apply bind_Ok in E as ([] & _ & E). apply fromRaw_Ok in E as [-> _].
  rewrite Z.quot_div_nonneg, Z.rem_mod_nonneg by lia. pose proof (Z.mod_pos_bound total 10000). rewrite Z.quot_div_nonneg by nia.
  rewrite (Z.div_mod total 10000) at 3 by lia. replace ((10000 * (total / 10000) + total `mod` 10000) * bps) with (total / 10000 * bps * 10000 + total `mod` 10000 * bps) by lia.
  rewrite Z.div_add_l by lia. lia.
Qed.

Lemma feeBalance_inv h fee b : Fees.buildFeeEconomicBalance h fee = Ok b →
  0 ≤ fee ∧ Fees.validatorRewardAmount b = fee * 5000 / 10000 ∧ Fees.treasuryAmount b = fee * 3000 / 10000 ∧
  Fees.burnAmount b = fee - Fees.validatorRewardAmount b - Fees.treasuryAmount b.
Proof.
  unfold Fees.buildFeeEconomicBalance. intros E. do 3 (apply bind_Ok in E as ([] & _ & E)). apply bind_Ok in E as (v & Ev & E). apply bind_Ok in E as (tr & Et & E).
  apply bind_Ok in E as (r & Er & E). apply bind_Ok in E as (bn & Eb & E). injection E as <-. simpl in *.
  apply basisPointShare_exact in Ev as [? ->]; [|done]. apply basisPointShare_exact in Et as [_ ->]; [|done].
  apply Amount.sub_Ok in Er as [-> _]. apply Amount.sub_Ok in Eb as [-> _]. done.
Qed.

Lemma settleFees_inv accounts h fee accounts' : Settlement.settleFees accounts h fee = Ok accounts' →
  ∃ b, Fees.buildFeeEconomicBalance h fee = Ok b ∧ money accounts' = money accounts + Fees.validatorRewardAmount b + Fees.treasuryAmount b.
Proof.
  unfold Settlement.settleFees. intros E. apply bind_Ok in E as (b & Eb & E). apply bind_Ok in E as (a1 & E1 & E). exists b. split; [done|].
  apply credit_money in E1. apply credit_money in E. lia.
Qed.

Section records.
Context `{Sha256}.

Lemma share_record_sum cs l : Forall2 share_of cs l → sum_by GenesisReward.amount (Share.rewardRecord <$> l) = sum_by rewardAmount cs.
Proof. induction 1 as [|c s cs l (_ & _ & _ & _ & _ & _ & Er) _ IH]; [done|]. rewrite fmap_cons. simpl. lia. Qed.

End records.
End RewardFacts.

Module RewardProperties.
Import Distributor RewardFacts.

(** C34. Whenever the distributor returns, the rewards of an epoch are exact. No validator is paid twice; each one that
    is paid has accepted work in the epoch and a score in force, is recorded with that work and that trust, and gets its
    proportional part of the security emission, by work times trust, rounded down or one raw unit more. When there is
    an emission, every validator with accepted work and a positive score is paid, and as soon as one of them exists the
    payments sum to the whole emission, which never exceeds the emission cap of the policy. *)
Theorem epoch_rewards_are_exact `{Sha256} (epochId startBlock endBlock : Z) (supply fees : Amount) (target : Z) (policy : EmissionPolicy.t)
    (works : list Work.t) (scores : list Score.t) (hash : string) (at_ : Z) (d : Distribution.t)
    (Hw : Forall work_typed works) (Ht : 0 ≤ target)
    (E : distribute epochId startBlock endBlock supply fees target policy works scores hash at_ = Ok d) :
  ∃ emission, ProtectionEpoch.securityEmission (Distribution.protectionEpoch d) = Ok emission ∧
    EmissionPolicy.calculateNewEmissionCap supply policy = Ok (ProtectionEpoch.emissionCap (Distribution.protectionEpoch d)) ∧
    0 ≤ emission ≤ ProtectionEpoch.emissionCap (Distribution.protectionEpoch d) ∧
    sum_by Share.rewardAmount (Distribution.validatorRewards d) = Distribution.distributedSecurityEmission d ∧
    Distribution.distributedSecurityEmission d = (if decide (Distribution.validatorRewards d = []) then 0 else emission) ∧
    NoDup (Share.validatorAddress <$> Distribution.validatorRewards d) ∧
    (∀ s, s ∈ Distribution.validatorRewards d →
      let v := Share.validatorAddress s in
      0 < Share.acceptedWorkWeight s ∧ Share.acceptedWorkWeight s = earned works epochId v ∧
      (∃ sc, latest scores epochId v sc ∧ Share.trustFactorBasisPoints s = Score.newScore sc * 100) ∧
      Share.effectiveRewardWeight s = Share.acceptedWorkWeight s * Share.trustFactorBasisPoints s ∧
      let exact := emission * Share.effectiveRewardWeight s / Distribution.totalEffectiveRewardWeight d in
      exact ≤ Share.rewardAmount s ≤ exact + 1) ∧
    ∀ v sc, 0 < emission → 0 < earned works epochId v → latest scores epochId v sc → 0 < Score.newScore sc →
      v ∈ Share.validatorAddress <$> Distribution.validatorRewards d.
Proof.
  apply distribute_inv in E as (p & em & Ep & Eem & Hem & Ed & Hval & Hcases); [|done|done]. exists em. rewrite Ed.
  destruct (prepare_inv _ _ _ _ _ _ _ _ _ _ _ _ Hw Ep) as (_ & _ & Hcap & _ & _). destruct (valid_weights d Hval) as [_ Hsum].
  destruct (prepare_members _ _ _ _ _ _ _ _ _ _ _ _ Hw Ep) as (Hnodup & Hsound & Hcomplete).
  split; [done|]. split; [done|]. split; [done|]. split; [done|].
  destruct Hcases as [(Hnone & Hnil & ->)|(Hpos & Hne & cs & Hsplit)].
  - rewrite Hnil. split_and!; [done|constructor|by intros s ?%elem_of_nil|]. intros v sc H0 H1 H2 H3. destruct Hnone as [->|Hnone]; [lia|].
    specialize (Hcomplete v sc H1 H2 H3). by rewrite Hnone in Hcomplete.
  - destruct (Hsplit) as [_ Hr _ _ Hp Hsame [HW Hd]]. apply split_all in Hsplit; [|done|done].
    assert (Share.validatorAddress <$> Distribution.validatorRewards d = validatorAddress <$> candidates p) as Haddr by (by apply (same_addresses _ cs)).
    rewrite Haddr. split_and!; [|done| |by intros v sc _ H1 H2 H3; apply (Hcomplete v sc)].
    + rewrite decide_False; [done|]. intros Hnil. rewrite Hnil in Haddr. by apply Hne, (fmap_nil_inv validatorAddress).
    + intros s Hin. destruct (share_candidate _ _ _ _ Hsame Hsplit Hin) as (c & c' & Hc & Hc' & (Ea & Ew & Et) & Ee & Er & _ & Ew' & Et').
      destruct (Hsound c Hc) as (H1 & H2 & H3). rewrite Forall_forall in Hr, Hp. destruct (Hr c' Hc') as [_ ?], (Hp c' Hc') as [_ Hmul].
      rewrite Ea, HW, Ee, Er, Ew, Et. split_and!; [lia|done|done|congruence|simpl; lia].
Qed.

(** C35. Settling a block moves exactly what the supply records: half of the fees goes to the fee pool and three tenths
    to the treasury, rounded down, the rest is burned, and the rewards of an epoch are credited in full, so that the
    balances grow by the fees that were collected, less the burn, plus the distributed emission. *)
Theorem settlement_conserves_money `{Sha256} (epochId startBlock endBlock : Z) (supply fees : Amount) (target : Z) (policy : EmissionPolicy.t)
    (works : list Work.t) (scores : list Score.t) (hash : string) (at_ height totalFee : Z) (d : Distribution.t)
    (accounts settled final : AccountStateView.t) (rewards : list Settlement.Reward)
    (Hw : Forall work_typed works) (Ht : 0 ≤ target)
    (Efee : Settlement.settleFees accounts height totalFee = Ok settled)
    (Ed : distribute epochId startBlock endBlock supply fees target policy works scores hash at_ = Ok d)
    (Er : Settlement.buildFromEpochRewards (Distribution.genesisRewardRecords d) height = Ok rewards)
    (Ea : Settlement.applyDistributions rewards settled = Ok final) :
  ∃ b, Fees.buildFeeEconomicBalance height totalFee = Ok b ∧ Fees.validatorRewardAmount b = totalFee * 5000 / 10000 ∧
    Fees.treasuryAmount b = totalFee * 3000 / 10000 ∧ Fees.validatorRewardAmount b + Fees.treasuryAmount b + Fees.burnAmount b = totalFee ∧
    money final = money accounts + totalFee - Fees.burnAmount b + Distribution.distributedSecurityEmission d.
Proof.
  apply settleFees_inv in Efee as (b & Eb & Hm). exists b. destruct (feeBalance_inv _ _ _ Eb) as (_ & Hv & Htr & Hburn). apply distributions_money in Ea.
  unfold Settlement.buildFromEpochRewards in Er. apply bind_Ok in Er as ([] & _ & Er). apply epochRewards_sum in Er.
  enough (sum_by GenesisReward.amount (Distribution.genesisRewardRecords d) = Distribution.distributedSecurityEmission d) by (split_and!; [done|done|done|lia|lia]).
  apply distribute_inv in Ed as (p & em & Ep & Eem & Hem & Epe & Hval & Hcases); [|done|done]. unfold Distribution.genesisRewardRecords.
  destruct Hcases as [(_ & -> & ->)|(_ & _ & cs & [HF Hr Htot _ _ _ [_ Hd]])]; [done|]. rewrite (share_record_sum _ _ HF), Hd, positive_sum; [done|].
  eapply Forall_impl; [exact Hr|]. by intros ? [? _].
Qed.

(** An epoch whose security emission is smaller than the number of validators with a weight cannot be settled: some
    of them get nothing, their weight is missing from the shares, and the distributor throws, whatever else holds. *)
Theorem small_emission_is_refused `{Sha256} (epochId startBlock endBlock : Z) (supply fees : Amount) (target : Z) (policy : EmissionPolicy.t)
    (works : list Work.t) (scores : list Score.t) (hash : string) (at_ emission : Z) (p : Prepared)
    (Hw : Forall work_typed works) (Ht : 0 ≤ target)
    (Ep : prepare epochId startBlock endBlock supply fees target policy works scores hash at_ = Ok p)
    (Eem : ProtectionEpoch.securityEmission (prepared_epoch p) = Ok emission)
    (Hsmall : 0 < emission < Z.of_nat (length (candidates p))) :
  ∃ e, distribute epochId startBlock endBlock supply fees target policy works scores hash at_ = Throw e.
Proof.
  destruct (distribute _ _ _ _ _ _ _ _ _ _ _) as [d|e] eqn:E; [exfalso|by exists e].
  apply distribute_inv in E as (p' & em & Ep' & Eem' & _ & _ & Hval & Hcases); [|done|done]. rewrite Ep in Ep'. injection Ep' as <-. rewrite Eem in Eem'. injection Eem' as <-.
  destruct Hcases as [([?| Hn] & _)|(_ & _ & cs & [HF Hr Htot HW Hp Hlen%Forall2_length [HWd _]])]; [lia|rewrite Hn in Hsmall; simpl in Hsmall; lia|].
  destruct (valid_weights d Hval) as [Hws _]. destruct (share_sums _ _ HF) as [Hs1 _].
  assert (Forall (λ c, positive c = true) cs) as Hall.
  { apply all_positive; [eapply Forall_impl; [exact Hp|]; by intros ? [? _]|]. lia. }
  assert (∀ l : list Candidate, Forall (λ c, positive c = true) l → Z.of_nat (length l) ≤ sum_by rewardAmount l) as Hcount.
  { induction 1 as [|c l Hc _ IH]; simpl; [lia|]. unfold positive, Amount.isPositive in Hc. lia. }
  specialize (Hcount cs Hall). lia.
Qed.

(** *** Witnesses *)

#[local] Instance toy : Sha256 := CryptoProperties.toy_sha256.

Definition sample_policy : EmissionPolicy.t := EmissionPolicy.mk "v1" 400 365 0.
Definition sample_works : list Work.t :=
  [Work.mk "alice" 3 Work.CONSENSUS_VOTE Work.ACCEPTED "block" "ev1" 40 1700; Work.mk "bob" 3 Work.VALIDATE_BLOCK Work.ACCEPTED "block" "ev2" 30 1700;
   Work.mk "bob" 3 Work.VALIDATE_BLOCK Work.REJECTED "block" "ev3" 9 1700].
Definition sample_scores : list Score.t :=
  [Score.mk "alice" 1 0 50 Score.INITIAL_REGISTRATION "sc1" 100; Score.mk "bob" 1 0 80 Score.INITIAL_REGISTRATION "sc2" 100;
   Score.mk "alice" 2 50 90 Score.CONSISTENT_VALIDATION "sc3" 200].

Lemma samples_typed : Forall work_typed sample_works.
Proof. repeat constructor; unfold work_typed; simpl; lia. Qed.

Lemma ran_with {A} (r : result A) (P : A → Prop) : match r with Ok a => P a | Throw _ => False end → ∃ a, r = Ok a ∧ P a.
Proof. destruct r as [a|]; [by exists a|done]. Qed.

(** The emission of this epoch is 766 of the cap of 1095 raw units: 460 to alice and 306 to bob. *)
Lemma sample_distribution :
  ∃ d, distribute 3 200 299 10000001 70 100 sample_policy sample_works sample_scores "hash" 1800 = Ok d ∧
    (Share.rewardAmount <$> Distribution.validatorRewards d) = [460; 306].
Proof. apply ran_with. vm_compute. reflexivity. Qed.

Lemma sample_latest : latest sample_scores 3 "alice" (Score.mk "alice" 2 50 90 Score.CONSISTENT_VALIDATION "sc3" 200).
Proof.
  exists 2%nat. split_and!; [done|by split; simpl|]. intros [|[|[|j]]] s Hs Hof; simpl in Hs; [injection Hs as <-|injection Hs as <-|lia|].
  - split; [|lia]. intros _. left. simpl. lia.
  - by destruct Hof.
  - by rewrite lookup_nil in Hs.
Qed.

Lemma epoch_rewards_are_exact_witness :
  ∃ d, distribute 3 200 299 10000001 70 100 sample_policy sample_works sample_scores "hash" 1800 = Ok d ∧
    Distribution.distributedSecurityEmission d = 766 ∧ "alice" ∈ Share.validatorAddress <$> Distribution.validatorRewards d.
Proof.
  destruct sample_distribution as (d & E & Er). exists d. split; [exact E|].
  destruct (epoch_rewards_are_exact 3 200 299 10000001 70 100 sample_policy sample_works sample_scores "hash" 1800 d samples_typed ltac:(lia) E)
    as (em & _ & _ & _ & Hs & Hd & _ & _ & Hpaid).
  assert (Distribution.distributedSecurityEmission d = 766) as Hsum.
  { rewrite <- Hs. destruct (Distribution.validatorRewards d) as [|a [|b [|]]]; try discriminate Er. injection Er as Ea Eb. simpl. lia. }
  split; [exact Hsum|]. eapply (Hpaid "alice"); [|vm_compute; reflexivity|exact sample_latest|reflexivity].
  rewrite Hsum in Hd. destruct (decide _); [discriminate Hd|lia].
Defined.

Definition sample_accounts : AccountStateView.t := {[ "alice" := AccountState.mk "alice" 1000 4 ]}.

Lemma sample_settlement :
  ∃ d settled rewards final, Settlement.settleFees sample_accounts 300 77 = Ok settled ∧
    distribute 3 200 299 10000001 70 100 sample_policy sample_works sample_scores "hash" 1800 = Ok d ∧
    Settlement.buildFromEpochRewards (Distribution.genesisRewardRecords d) 300 = Ok rewards ∧
    Settlement.applyDistributions rewards settled = Ok final ∧ Distribution.distributedSecurityEmission d = 766.
Proof.
  destruct (ran_with (settled ← Settlement.settleFees sample_accounts 300 77;
    d ← distribute 3 200 299 10000001 70 100 sample_policy sample_works sample_scores "hash" 1800;
    rewards ← Settlement.buildFromEpochRewards (Distribution.genesisRewardRecords d) 300;
    final ← Settlement.applyDistributions rewards settled;
    Ok (d, settled, rewards, final)) (λ x, Distribution.distributedSecurityEmission x.1.1.1 = 766)) as (x & E & Hx); [vm_compute; reflexivity|].
  apply bind_Ok in E as (settled & E1 & E). apply bind_Ok in E as (d & E2 & E). apply bind_Ok in E as (rewards & E3 & E).
  apply bind_Ok in E as (final & E4 & E). injection E as <-. exists d, settled, rewards, final. repeat (split; [assumption|]). exact Hx.
Qed.

Lemma settlement_conserves_money_witness :
  ∃ final b, Fees.buildFeeEconomicBalance 300 77 = Ok b ∧ money final = money sample_accounts + 77 - Fees.burnAmount b + 766.
Proof.
  destruct sample_settlement as (d & settled & rewards & final & E1 & E2 & E3 & E4 & E5).
  destruct (settlement_conserves_money 3 200 299 10000001 70 100 sample_policy sample_works sample_scores "hash" 1800 300 77 d sample_accounts settled final
    rewards samples_typed ltac:(lia) E1 E2 E3 E4) as (b & Hb & _ & _ & _ & Hm).
  exists final, b. split; [exact Hb|]. rewrite Hm, E5. reflexivity.
Defined.

(** A supply of 15000 raw units has an epoch emission of one, for two validators. *)
Lemma sample_small :
  ∃ p, prepare 3 200 299 15000 70 70 sample_policy sample_works sample_scores "hash" 1800 = Ok p ∧
    ProtectionEpoch.securityEmission (prepared_epoch p) = Ok 1 ∧ length (candidates p) = 2%nat.
Proof. apply ran_with. vm_compute. split; reflexivity. Qed.

Lemma small_emission_is_refused_witness :
  ∃ e, distribute 3 200 299 15000 70 70 sample_policy sample_works sample_scores "hash" 1800 = Throw e.
Proof.
  destruct sample_small as (p & Ep & Eem & El).
  exact (small_emission_is_refused 3 200 299 15000 70 70 sample_policy sample_works sample_scores "hash" 1800 1 p samples_typed ltac:(lia) Ep Eem ltac:(rewrite El; lia)).
Defined.
End RewardProperties.
