(* ===== verification/ValidatorSets.v ===== *)
(** * node: which validators vote in the next epoch

    Models the projection of src/include/node/ValidatorSetSchedule.hpp,
    src/src/node/ValidatorStakeWeightUpdater.cpp and the validator transition at an
    epoch boundary of src/src/node/ProtocolStateTransition.cpp.  They tie three
    components together: stake ([Staking]), the registry of validators and the history
    of validator sets ([ValidatorRegistry]). *)

From S2P Require Import Prelude Utils Crypto ValidatorRegistry Staking.

(** ** The bounded projection of a validator set *)

Module SetSchedule.
Import Validators.

Definition kMaxChurnBasisPoints : Z := 3333.

Definition withStake (entry : ValidatorRegistryEntry) (stake : Z) : ValidatorRegistryEntry :=
  Entry.mk (Entry.registrationRecord entry) (Entry.status entry) (Entry.lastUpdatedAt entry) stake (Entry.jailUntilEpoch entry)
    (Entry.exitRequestHeight entry) (Entry.ownerAddress entry).

(** [std::map::emplace] keeps an entry that is there already. *)
Definition emplace (address : string) (entry : ValidatorRegistryEntry) (selected : ValidatorRegistry) : ValidatorRegistry :=
  if bool_decide (is_Some (selected !! address)) then selected else <[address := entry]> selected.

(** The set [all] of addresses of both registries, in order. *)
Definition allAddresses (previous target : ValidatorRegistry) : list string :=
  (entries (((λ _, tt) <$> previous) ∪ ((λ _, tt) <$> target) : gmap string unit)).*1.

(** The budget: the entries chosen so far and the weight that may still change. *)
Record choice := Choice { selected : ValidatorRegistry; remaining : Z }.

Section schedule.
Context `{Sha256}.
Variables (previous target : ValidatorRegistry) (effectiveEpoch : Z).

(** A key that is missing from the target has a successor with the same owner that may not vote yet. *)
Definition replacementIsImmature (old : ValidatorRegistryEntry) : bool :=
  existsb (λ e, negb (hasValidator previous e.1) && Entry.eligibleForConsensus e.2 &&
                String.eqb (Entry.ownerAddress e.2) (Entry.ownerAddress old) &&
                (effectiveEpoch <? Registration.activationEpoch (Entry.registrationRecord e.2))) (entries target).

(** The first loop: removals and reductions. *)
Definition reduceStep (c : choice) (address : string) : choice :=
  let oldWeight := consensusWeightFor previous address in
  let nextWeight := consensusWeightFor target address in
  if (oldWeight =? 0) || (oldWeight <=? nextWeight) then c
  else match previous !! address with
  | None => c
  | Some old =>
      if negb (hasValidator target address) && replacementIsImmature old then Choice (emplace address old (selected c)) (remaining c)
      else if oldWeight - nextWeight <=? remaining c then
        Choice (match target !! address with
                | Some next => if negb (nextWeight =? 0) then emplace address next (selected c) else selected c
                | None => selected c
                end) (remaining c - (oldWeight - nextWeight))
      else
        let projectedWeight := Z.max MIN_VALIDATOR_STAKE_RAW_UNITS (oldWeight - remaining c) in
        let spent := wrap64 (oldWeight - projectedWeight) in
        Choice (emplace address (withStake old projectedWeight) (selected c)) (wrap64 (remaining c - spent))
  end.

(** An old key of the same owner that left the target is still among the selected ones. *)
Definition oldKeyStillLive (next : ValidatorRegistryEntry) (chosen : ValidatorRegistry) : bool :=
  existsb (λ e, negb (hasValidator target e.1) && Entry.eligibleForConsensus e.2 &&
                String.eqb (Entry.ownerAddress e.2) (Entry.ownerAddress next)) (entries chosen).

(** The second loop: additions and increases. *)
Definition increaseStep (c : choice) (address : string) : choice :=
  if bool_decide (is_Some (selected c !! address)) then c
  else
    let oldWeight := consensusWeightFor previous address in
    let nextWeight := consensusWeightFor target address in
    if nextWeight <? oldWeight then c
    else match target !! address with
    | None => c
    | Some next =>
        if nextWeight =? 0 then c
        else if negb (hasValidator previous address) && (effectiveEpoch <? Registration.activationEpoch (Entry.registrationRecord next)) then c
        else if negb (hasValidator previous address) && oldKeyStillLive next (selected c) then c
        else
          let increase := nextWeight - oldWeight in
          if increase <=? remaining c then Choice (emplace address next (selected c)) (remaining c - increase)
          else
            let projectedWeight := oldWeight + remaining c in
            if MIN_VALIDATOR_STAKE_RAW_UNITS <=? projectedWeight then
              Choice (emplace address (withStake next projectedWeight) (selected c)) 0
            else match previous !! address with
              | Some old => Choice (emplace address old (selected c)) (remaining c)
              | None => c
              end
    end.

Definition budget (total : Z) : Z := wrap64 (total * kMaxChurnBasisPoints / 10000).

Definition choose (total : Z) : choice :=
  foldl increaseStep (foldl reduceStep (Choice ∅ (budget total)) (allAddresses previous target)) (allAddresses previous target).

(** [projected.restoreEntry(entry)] for every selected entry. *)
Definition restoreOrThrow (entry : ValidatorRegistryEntry) : M ValidatorRegistry unit :=
  restored ← restoreEntry entry;
  if negb restored then throw (logic_error "Bounded validator-set projection is invalid.") else mret tt.

(** The weight by which two sets differ, over the addresses of both. *)
Definition changedWeight (after : ValidatorRegistry) : Z :=
  sum_by (λ a, Z.abs (consensusWeightFor previous a - consensusWeightFor after a)) (allAddresses previous target).

Definition project : result ValidatorRegistry :=
  previousValid ← isValid previous;
  targetValid ← (if negb previousValid then Ok false else isValid target);
  previousTotal ← (if negb targetValid then Ok 0 else totalConsensusWeight previous);
  throw_if (negb targetValid || (previousTotal =? 0) || (effectiveEpoch =? 0)) (invalid_argument "Invalid validator-set projection input.");;
  let c := choose previousTotal in
  projected ← on_local (for_each restoreOrThrow (entries (selected c)).*2) ∅;
  total ← totalConsensusWeight projected;
  throw_if (total =? 0) (logic_error "Validator-set projection would remove all voting weight.");;
  throw_if (budget previousTotal <? changedWeight projected) (logic_error "Validator-set projection exceeded the churn budget.");;
  Ok projected.
End schedule.

(** The conditional expression makes a copy also when the set does not change. *)
Definition recordNext `{Sha256} (finalizedHeight : Z) (target : ValidatorRegistry) (h : SetHistory.t) : result (bool * SetHistory.t) :=
  if (finalizedHeight =? 0) || (finalizedHeight =? u64_max) || negb (SetHistory.hasSet h finalizedHeight) then Ok (false, h)
  else
    previous ← SetHistory.setAt h finalizedHeight;
    next ← (if Window.isBoundary finalizedHeight
            then project previous target (finalizedHeight / Window.NODO_VALIDATOR_EPOCH_BLOCKS + 1) else Ok previous);
    SetHistory.recordSet (finalizedHeight + 1) (External next) h.
End SetSchedule.

(** ** Stake becomes weight *)

Module WeightUpdater.

Definition isEpochBoundary (finalizedBlockHeight : Z) : bool :=
  (0 <? finalizedBlockHeight) && (finalizedBlockHeight mod Window.NODO_VALIDATOR_EPOCH_BLOCKS =? 0).

(** [ValidatorLifecycle::epochIndexForBlock] *)
Definition epochIndexForBlock (blockHeight : Z) : result Z :=
  throw_if (blockHeight =? 0) (invalid_argument "Cannot calculate validator epoch for genesis height.");;
  Ok ((blockHeight - 1) / Window.NODO_VALIDATOR_EPOCH_BLOCKS + 1).

Definition effectiveEpochForBoundary (finalizedBlockHeight : Z) : result Z :=
  throw_if (negb (isEpochBoundary finalizedBlockHeight)) (invalid_argument "Validator weight update height is not an epoch boundary.");;
  completedEpoch ← epochIndexForBlock finalizedBlockHeight;
  throw_if (completedEpoch =? u64_max) (overflow_error "Effective validator epoch would overflow.");;
  Ok (completedEpoch + 1).

Section updater.
Context `{Sha256}.

(** The body of the loop, on the copy [projected]; [validators] is the registry it was copied from. *)
Definition syncStep (validators : ValidatorRegistry) (staking : Staking.t) (blockTimestamp : Z) (address : string) : M ValidatorRegistry unit :=
  match validators !! address with
  | None => throw (logic_error "Validator registry enumeration returned an unknown address.")
  | Some current =>
      activeStake ← lift (Staking.activeStakeFor address staking);
      if activeStake <? 0 then throw (logic_error "Validator active stake cannot be negative.")
      else if Entry.stakeAmount current =? activeStake then mret tt
      else
        update ← Validators.updateStake address activeStake blockTimestamp;
        if negb (u_success update) then
          throw (logic_error ("Validator stake could not be projected into the epoch set: " +:+ u_reason update))
        else mret tt
  end.

(** [validators] is assigned only at the end, so a throw leaves it as it was. *)
Definition synchronizeAtEpochBoundary (finalizedBlockHeight blockTimestamp : Z) (staking : Staking.t) : M ValidatorRegistry bool :=
  if (finalizedBlockHeight =? 0) || (blockTimestamp <=? 0) then
    throw (invalid_argument "Validator weight reconciliation requires a finalized height and timestamp.")
  else if negb (isEpochBoundary finalizedBlockHeight) then mret false
  else
    stakingValid ← lift (Staking.isValid staking);
    if negb stakingValid then throw (invalid_argument "Validator weight reconciliation received an invalid staking registry.")
    else
      valid ← getsR Validators.isValid;
      if negb valid then throw (invalid_argument "Validator weight reconciliation received an invalid validator registry.")
      else
        projected ← getsR (λ validators,
          on_local (for_each (syncStep validators staking blockTimestamp) (Validators.validatorAddresses validators)) validators);
        projectedValid ← lift (Validators.isValid projected);
        if negb projectedValid then throw (logic_error "Epoch validator weight projection produced an invalid registry.")
        else modify (λ _, projected);; mret true.

(** [ProtocolStateTransition::applyValidatorEpochTransition] *)
Definition activateStep (effectiveEpoch blockTimestamp : Z) (address : string) : M ValidatorRegistry unit :=
  entry ← gets (λ r : ValidatorRegistry, r !! address);
  match entry with
  | Some e =>
      if (Registration.activationEpoch (Entry.registrationRecord e) <=? effectiveEpoch) && (MIN_VALIDATOR_STAKE_RAW_UNITS <=? Entry.stakeAmount e) &&
         (0 <? Entry.consensusWeight e) then
        result ← Validators.activateValidator address effectiveEpoch blockTimestamp;
        if negb (u_success result) then throw (logic_error "Projected validator activation failed.") else mret tt
      else mret tt
  | None => mret tt
  end.

Definition exitStep (blockHeight blockTimestamp : Z) (address : string) : M ValidatorRegistry unit :=
  entry ← gets (λ r : ValidatorRegistry, r !! address);
  match entry with
  | Some e =>
      if wrap64 (Entry.exitRequestHeight e + Window.NODO_VALIDATOR_EPOCH_BLOCKS) <=? blockHeight then
        result ← Validators.completeExit address blockTimestamp;
        if negb (u_success result) then throw (logic_error "Projected validator exit failed.") else mret tt
      else mret tt
  | None => mret tt
  end.

Definition applyValidatorEpochTransition (blockHeight blockTimestamp : Z) : M ValidatorRegistry unit :=
  if (blockHeight =? 0) || negb (blockHeight mod Window.NODO_VALIDATOR_EPOCH_BLOCKS =? 0) then mret tt
  else
    effectiveEpoch ← lift (effectiveEpochForBoundary blockHeight);
    pending ← gets Validators.pendingValidatorAddresses;
    for_each (activateStep effectiveEpoch blockTimestamp) pending;;
    exiting ← gets Validators.exitRequestedValidatorAddresses;
    for_each (exitStep blockHeight blockTimestamp) exiting.
End updater.
End WeightUpdater.

(** ** Facts about the projection *)

Module ScheduleFacts.
Import Validators ValidatorFacts SetSchedule.

Lemma weightFor (r : ValidatorRegistry) a : consensusWeightFor r a = from_option weight 0 (r !! a).
Proof. unfold consensusWeightFor, weight. destruct (r !! a) as [e|]; [|done]. simpl. by destruct (Entry.eligibleForConsensus e). Qed.

Lemma weightFor_nonneg (r : ValidatorRegistry) a : 0 ≤ consensusWeightFor r a.
Proof. rewrite weightFor. destruct (r !! a); simpl; [apply weight_nonneg|lia]. Qed.

(** A weight is zero or at least the minimum, and is the stake then. *)
Lemma weight_cases e : weight e = 0 ∨ MIN_VALIDATOR_STAKE_RAW_UNITS ≤ weight e ∧ weight e = Entry.stakeAmount e ∧ Entry.status e = ACTIVE.
Proof.
  unfold weight, Entry.eligibleForConsensus, Entry.consensusWeight, weightFromStake. destruct (_ && _) eqn:E; [right|by left].
  apply andb_prop in E as [[E1 E2]%andb_prop _]. apply bool_decide_eq_true in E1. split_and!; [lia|done|done].
Qed.

Lemma weightFor_min (r : ValidatorRegistry) a : consensusWeightFor r a ≠ 0 → MIN_VALIDATOR_STAKE_RAW_UNITS ≤ consensusWeightFor r a.
Proof. rewrite weightFor. destruct (r !! a) as [e|]; simpl; [|done]. destruct (weight_cases e) as [|[? _]]; [done|lia]. Qed.

Lemma withStake_weight e s : Entry.status e = ACTIVE → MIN_VALIDATOR_STAKE_RAW_UNITS ≤ s → weight (withStake e s) = s.
Proof.
  intros Hs Hm. unfold weight, Entry.eligibleForConsensus, Entry.consensusWeight, weightFromStake. simpl. rewrite bool_decide_true by done.
  unfold MIN_VALIDATOR_STAKE_RAW_UNITS in *. replace (1000000 <=? s) with true by lia. by replace (0 <? s) with true by lia.
Qed.

Lemma withStake_ok `{Sha256} a e s : entry_ok a e → s ≤ i64_max → entry_ok a (withStake e s).
Proof.
  intros (Ha & Hv & Hr) Hs. split_and!; [done| |done]. apply entry_isValid_true in Hv as (? & ? & ? & ? & _).
  apply entry_isValid_true. by split_and!.
Qed.

(** Sums over the values of a map, taken over a list of its keys. *)
Lemma sum_over_keys (f : ValidatorRegistryEntry → Z) (r : ValidatorRegistry) (l : list string) : NoDup l → (∀ a, is_Some (r !! a) → a ∈ l) →
  sum_by (λ a, from_option f 0 (r !! a)) l = map_sum f r.
Proof.
  revert r. induction l as [|a l IH]; intros r Hnd Hdom; simpl.
  - assert (r = ∅) as ->; [|by rewrite map_sum_empty]. apply map_eq. intros a. rewrite lookup_empty.
    destruct (r !! a) eqn:E; [|done]. exfalso. apply (not_elem_of_nil a), Hdom. by rewrite E.
  - apply NoDup_cons in Hnd as [Hn Hnd]. assert (sum_by (λ b, from_option f 0 (r !! b)) l = map_sum f (delete a r)) as Hrest.
    { rewrite <- IH; [|done|].
      - apply sum_by_ext. intros b Hb. rewrite lookup_delete_ne; [done|]. by intros ->.
      - intros b Hb. rewrite lookup_delete_is_Some in Hb. destruct Hb as [Hne Hb]. apply Hdom, elem_of_cons in Hb as [->|?]; done. }
    rewrite Hrest. destruct (r !! a) as [e|] eqn:E; simpl; [by rewrite (map_sum_delete f r a e E)|]. by rewrite delete_id.
Qed.

Lemma elem_of_all (previous target : ValidatorRegistry) a : a ∈ allAddresses previous target ↔ is_Some (previous !! a) ∨ is_Some (target !! a).
Proof.
  unfold allAddresses. rewrite list_elem_of_fmap. split.
  - intros ([b []] & -> & Hin%elem_of_entries). simpl. apply lookup_union_Some_raw in Hin. rewrite !lookup_fmap in Hin.
    destruct (previous !! b), (target !! b); simpl in Hin; eauto. destruct Hin as [?|[_ ?]]; done.
  - intros Hin. exists (a, tt). split; [done|]. apply elem_of_entries, lookup_union_Some_raw. rewrite !lookup_fmap.
    destruct (previous !! a), (target !! a); simpl; eauto. by destruct Hin as [[? ?]|[? ?]].
Qed.

Lemma NoDup_all (previous target : ValidatorRegistry) : NoDup (allAddresses previous target).
Proof. apply NoDup_fst_entries. Qed.

(** *** The two loops *)

(** A loop that decides the addresses with [P] and leaves the choice alone on the others. *)
Lemma fold_decides (Q : list string → choice → Prop) (step : choice → string → choice) (P : string → Prop) `{∀ a, Decision (P a)} (all : list string) :
  (∀ D c a, a ∈ all → Q D c → a ∉ D → P a → Q (a :: D) (step c a)) → (∀ c a, ¬ P a → step c a = c) →
  ∀ l D c, NoDup l → l ⊆ all → (∀ a, a ∈ l → P a → a ∉ D) → Q D c → ∃ D', Q D' (foldl step c l) ∧ ∀ a, a ∈ D' ↔ a ∈ D ∨ (a ∈ l ∧ P a).
Proof.
  intros Hdo Hskip l. induction l as [|a l IH]; intros D c Hnd Hsub Hdisj Hd; simpl.
  { exists D. split; [done|]. intros b. rewrite elem_of_nil. tauto. }
  apply NoDup_cons in Hnd as [Hna Hnd]. assert (l ⊆ all) as Hsub' by (intros b Hb; apply Hsub; by right). destruct (decide (P a)) as [HP|HP].
  - destruct (IH (a :: D) (step c a) Hnd Hsub') as (D' & HD' & Hel).
    + intros b Hb HPb. rewrite elem_of_cons. intros [->|Hb']; [done|]. by apply (Hdisj b); [right|..].
    + apply Hdo; [apply Hsub; left|done|by apply Hdisj; [left|]|done].
    + exists D'. split; [done|]. intros b. rewrite Hel, !elem_of_cons. split; [intros [[->|?]|[? ?]]; tauto|].
      intros [?|[[->|?] ?]]; tauto.
  - rewrite Hskip by done. destruct (IH D c Hnd Hsub') as (D' & HD' & Hel); [intros b Hb; apply Hdisj; by right|done|].
    exists D'. split; [done|]. intros b. rewrite Hel, elem_of_cons. split; [tauto|]. intros [?|[[->|?] ?]]; tauto.
Qed.

(** The weight two sets have in common. *)
Lemma common_bound (f g : string → Z) l : sum_by f l - sum_by (λ a, Z.abs (f a - g a)) l ≤ sum_by (λ a, Z.min (f a) (g a)) l.
Proof. induction l; simpl; lia. Qed.

Lemma common_weight (previous target next : ValidatorRegistry) :
  sum_by (λ a, Z.min (consensusWeightFor previous a) (consensusWeightFor next a)) (validatorAddresses previous) =
  sum_by (λ a, Z.min (consensusWeightFor previous a) (consensusWeightFor next a)) (allAddresses previous target).
Proof.
  assert (∀ l, sum_by (λ a, Z.min (consensusWeightFor previous a) (consensusWeightFor next a)) (filter (λ a, is_Some (previous !! a)) l) =
    sum_by (λ a, Z.min (consensusWeightFor previous a) (consensusWeightFor next a)) l) as Hf.
  { induction l as [|a l IH]; [done|]. rewrite filter_cons. simpl. destruct (decide _) as [|Hn]; simpl; rewrite IH; [done|].
    assert (consensusWeightFor previous a = 0) as -> by (rewrite weightFor; destruct (previous !! a); [by destruct Hn|done]).
    pose proof (weightFor_nonneg next a). lia. }
  rewrite <- (Hf (allAddresses _ _)). assert (validatorAddresses previous ≡ₚ filter (λ a, is_Some (previous !! a)) (allAddresses previous target)) as ->; [|done].
  apply NoDup_Permutation; [apply NoDup_fst_entries|apply NoDup_filter, NoDup_all|]. intros a. rewrite list_elem_of_filter, elem_of_all.
  unfold validatorAddresses. rewrite list_elem_of_fmap. split.
  - intros ([b e] & -> & Hin%elem_of_entries). simpl. rewrite Hin. split; [by eexists|left; by eexists].
  - intros [[e E] _]. exists (a, e). split; [done|]. by apply elem_of_entries.
Qed.

Lemma same_eligibility (r r' : ValidatorRegistry) a : (consensusWeightFor r a = 0 ↔ consensusWeightFor r' a = 0) →
  isEligibleForConsensus r a = isEligibleForConsensus r' a.
Proof.
  assert (∀ r : ValidatorRegistry, isEligibleForConsensus r a = true ↔ consensusWeightFor r a ≠ 0) as Hel.
  { intros x. unfold isEligibleForConsensus, consensusWeightFor. destruct (x !! a) as [e|]; [|done]. destruct (Entry.eligibleForConsensus e) eqn:E; [|done].
    unfold Entry.eligibleForConsensus in E. cbn [negb]. apply andb_prop in E as [_ E]. split; [lia|done]. }
  intros Hz. apply eq_true_iff_eq. rewrite !Hel. tauto.
Qed.

Section loops.
Context `{Sha256}.
Variables (previous target : ValidatorRegistry) (effectiveEpoch total : Z).
Hypotheses (Hprev : wf previous) (Htarget : wf target).

Abbreviation old := (consensusWeightFor previous).
Abbreviation next := (consensusWeightFor target).
Abbreviation reduce := (reduceStep previous target effectiveEpoch).
Abbreviation increase := (increaseStep previous target effectiveEpoch).

(** The weight of an address among the selected entries. *)
Definition chosen (c : choice) (a : string) : Z := consensusWeightFor (selected c) a.
Definition between (a : string) (w : Z) : Prop := Z.min (old a) (next a) ≤ w ≤ Z.max (old a) (next a).
Definition reducing (a : string) : Prop := next a < old a.

(** After the addresses [done] were decided: what is selected is well formed and lies between the two
    registries, and what is left of the budget is exact. *)
Record decided (done_ : list string) (c : choice) : Prop := {
  d_remaining : 0 ≤ remaining c;
  d_nodup : NoDup done_;
  d_dom : ∀ a, is_Some (selected c !! a) → a ∈ done_;
  d_ok : map_Forall entry_ok (selected c);
  d_between : ∀ a, a ∈ done_ → between a (chosen c a);
  d_budget : sum_by (λ a, Z.abs (old a - chosen c a)) done_ + remaining c = budget total;
}.

Lemma not_selected D c a : decided D c → a ∉ D → selected c !! a = None.
Proof. intros [_ _ Hd _ _ _] Ha. destruct (selected c !! a) eqn:E; [|done]. exfalso. apply Ha, Hd. by rewrite E. Qed.

(** Leaving an address out. *)
Lemma decided_skip D c a r : decided D c → a ∉ D → between a 0 → 0 ≤ r → r = remaining c - old a → decided (a :: D) (Choice (selected c) r).
Proof.
  intros Hd Ha Hb Hr ->. pose proof (not_selected D c a Hd Ha) as Hn. destruct Hd as [Hrem Hnd Hdom Hok Hbt Hbud].
  assert (consensusWeightFor (selected c) a = 0) as Hz by (rewrite weightFor, Hn; done).
  split; simpl; unfold chosen in *; simpl; [done|by constructor|intros b Hb'; right; auto|done| |].
  - intros b [->|Hb']%elem_of_cons; [by rewrite Hz|auto].
  - rewrite Hz. pose proof (weightFor_nonneg previous a). lia.
Qed.

(** Selecting an entry for an address. *)
Lemma decided_add D c a e r : decided D c → a ∉ D → entry_ok a e → between a (weight e) → 0 ≤ r → r = remaining c - Z.abs (old a - weight e) →
  decided (a :: D) (Choice (emplace a e (selected c)) r).
Proof.
  intros Hd Ha He Hb Hr ->. pose proof (not_selected D c a Hd Ha) as Hn. destruct Hd as [Hrem Hnd Hdom Hok Hbt Hbud].
  unfold emplace. rewrite bool_decide_false by (rewrite Hn; by intros [? ?]).
  assert (consensusWeightFor (<[a:=e]> (selected c)) a = weight e) as Hz by (rewrite weightFor, lookup_insert_eq; done).
  assert (∀ b, b ∈ D → consensusWeightFor (<[a:=e]> (selected c)) b = consensusWeightFor (selected c) b) as Hne.
  { intros b Hb'. rewrite !weightFor, lookup_insert_ne; [done|]. by intros ->. }
  split; simpl; unfold chosen in *; simpl; [done|by constructor| |by apply map_Forall_insert_2| |].
  - intros b. rewrite lookup_insert_is_Some. intros [->|[_ Hb']]; [left|right; auto].
  - intros b [->|Hb']%elem_of_cons; [by rewrite Hz|]. rewrite Hne by done. auto.
  - rewrite Hz. rewrite (sum_by_ext _ (λ a, Z.abs (old a - consensusWeightFor (selected c) a)) D); [lia|]. intros b Hb'. by rewrite Hne.
Qed.

Lemma entry_of (r : ValidatorRegistry) a : wf r → consensusWeightFor r a ≠ 0 → ∃ e, r !! a = Some e ∧ entry_ok a e ∧ weight e = consensusWeightFor r a ∧
  Entry.stakeAmount e = weight e ∧ Entry.status e = ACTIVE.
Proof.
  intros [Hall _]. rewrite weightFor. destruct (r !! a) as [e|] eqn:E; simpl; [|done]. intros Hw. exists e.
  destruct (weight_cases e) as [?|(? & ? & ?)]; [done|]. split_and!; [done|by apply Hall|done|done|done].
Qed.

Lemma stake_bound a e : entry_ok a e → Entry.stakeAmount e ≤ i64_max.
Proof. intros (_ & Hv & _). by apply entry_isValid_true in Hv as (_ & _ & _ & _ & ?). Qed.

Lemma reduce_decided D c a : decided D c → a ∉ D → reducing a → budget total ≤ u64_max → decided (a :: D) (reduce c a).
Proof.
  intros Hd Ha Hred Hbud. unfold reduceStep, reducing in *. pose proof (weightFor_nonneg target a) as Hn0.
  replace ((old a =? 0) || (old a <=? next a)) with false by lia.
  destruct (entry_of previous a Hprev ltac:(lia)) as (o & Eo & Hok & Hw & Hst & Hact). rewrite Eo.
  pose proof (stake_bound a o Hok) as Hb. pose proof (d_remaining _ _ Hd) as Hrem.
  destruct (negb _ && _).
  { apply decided_add; [done|done|done|unfold between; lia|done|lia]. }
  destruct (old a - next a <=? remaining c) eqn:El.
  - destruct (decide (next a = 0)) as [Ez|Ez].
    + assert ((match target !! a with Some next => if negb (consensusWeightFor target a =? 0) then emplace a next (selected c) else selected c
        | None => selected c end) = selected c) as ->. { rewrite Ez. by destruct (target !! a). }
      apply decided_skip; [done|done|unfold between; lia|lia|lia].
    + destruct (entry_of target a Htarget ltac:(lia)) as (n & -> & Hokn & Hwn & _). replace (negb (next a =? 0)) with true by lia.
      apply decided_add; [done|done|done|unfold between; lia|lia|lia].
  - pose proof (weightFor_min previous a ltac:(lia)) as Hmin.
    set (w := Z.max MIN_VALIDATOR_STAKE_RAW_UNITS (old a - remaining c)).
    assert (MIN_VALIDATOR_STAKE_RAW_UNITS ≤ w ≤ old a) as Hwb by lia.
    assert (next a ≤ w) as Hnw by lia. assert (old a - w ≤ remaining c) as Hsp by lia.
    assert (remaining c ≤ u64_max) as Hru.
    { pose proof (d_budget _ _ Hd). pose proof (sum_by_nonneg (λ a, Z.abs (old a - chosen c a)) D ltac:(intros; lia)). lia. }
    rewrite (wrap64_id (old a - w)) by (unfold u64, u64_max, i64_max in *; lia). rewrite wrap64_id by (unfold u64; lia).
    pose proof (withStake_weight o w Hact ltac:(lia)) as Hww.
    apply decided_add; [done|done|by apply withStake_ok; [|lia]| |lia|]; rewrite ?Hww; unfold between; lia.
Qed.

Lemma reduce_other c a : ¬ reducing a → reduce c a = c.
Proof. intros Hn. unfold reduceStep, reducing in *. replace ((old a =? 0) || (old a <=? next a)) with true by lia. done. Qed.

Lemma increase_other c a : reducing a → increase c a = c.
Proof. intros Hr. unfold increaseStep, reducing in *. case_bool_decide; [done|]. by replace (next a <? old a) with true by lia. Qed.

Lemma increase_decided D c a : decided D c → a ∉ D → ¬ reducing a → decided (a :: D) (increase c a).
Proof.
  intros Hd Ha Hred. unfold increaseStep, reducing in *. pose proof (weightFor_nonneg previous a) as Ho0.
  rewrite bool_decide_false by (rewrite (not_selected D c a Hd Ha); by intros [? ?]). replace (next a <? old a) with false by lia.
  pose proof (d_remaining _ _ Hd) as Hrem.
  assert (old a = 0 → decided (a :: D) c) as Hskip.
  { intros Ez. destruct c as [sel rem]. simpl in *. apply (decided_skip D (Choice sel rem) a rem); [done|done| |done|simpl; lia].
    unfold between. pose proof (weightFor_nonneg target a). lia. }
  destruct (decide (next a = 0)) as [Ez|Ez].
  { assert (match target !! a with Some _ | None => c end = c) as Hm by by destruct (target !! a).
    replace (next a =? 0) with true by lia. destruct (target !! a); apply Hskip; lia. }
  destruct (entry_of target a Htarget ltac:(lia)) as (n & En & Hokn & Hwn & Hst & Hact). rewrite En. replace (next a =? 0) with false by lia.
  pose proof (stake_bound a n Hokn) as Hb. pose proof (weightFor_min target a ltac:(lia)) as Hmin.
  destruct (previous !! a) as [o|] eqn:Eo.
  - unfold hasValidator at 1 2. rewrite bool_decide_true by (rewrite Eo; by eexists). cbn [negb andb].
    destruct (next a - old a <=? remaining c) eqn:El.
    { apply decided_add; [done|done|done|unfold between; lia|lia|lia]. }
    destruct (MIN_VALIDATOR_STAKE_RAW_UNITS <=? old a + remaining c) eqn:Em.
    + pose proof (withStake_weight n (old a + remaining c) Hact ltac:(lia)) as Hww.
      apply decided_add; [done|done|by apply withStake_ok; [|lia]| |lia|]; rewrite ?Hww; unfold between; lia.
    + assert (weight o = old a) as Hwo by (rewrite weightFor, Eo; done).
      apply decided_add; [done|done|by apply (proj1 Hprev)|unfold between; lia|done|lia].
  - assert (old a = 0) as Hz by (rewrite weightFor, Eo; done).
    unfold hasValidator at 1 2. rewrite bool_decide_false by (rewrite Eo; by intros [? ?]). cbn [negb andb].
    destruct (effectiveEpoch <? _); [by apply Hskip|]. destruct (oldKeyStillLive _ _ _); [by apply Hskip|].
    destruct (next a - old a <=? remaining c) eqn:El.
    { apply decided_add; [done|done|done|unfold between; lia|lia|lia]. }
    destruct (MIN_VALIDATOR_STAKE_RAW_UNITS <=? old a + remaining c) eqn:Em; [|by apply Hskip].
    pose proof (withStake_weight n (old a + remaining c) Hact ltac:(lia)) as Hww.
    apply decided_add; [done|done|by apply withStake_ok; [|lia]| |lia|]; rewrite ?Hww; unfold between; lia.
Qed.

Lemma decided_start : 0 ≤ total → decided [] (Choice ∅ (budget total)).
Proof.
  intros Ht. assert (0 ≤ budget total) as Hb0 by (unfold budget, wrap64; apply Z.mod_pos_bound; lia).
  split; simpl; [done|constructor| |apply map_Forall_empty| |lia].
  - intros a. rewrite lookup_empty. by intros [? ?].
  - intros a ?%elem_of_nil. done.
Qed.

Lemma two_loops (Q : list string → choice → Prop) D0 :
  (∀ D c a, a ∈ allAddresses previous target → Q D c → a ∉ D → reducing a → Q (a :: D) (reduce c a)) →
  (∀ D c a, a ∈ allAddresses previous target → Q D c → a ∉ D → ¬ reducing a → Q (a :: D) (increase c a)) →
  D0 = [] → Q D0 (Choice ∅ (budget total)) → ∃ D, Q D (choose previous target effectiveEpoch total) ∧ ∀ a, a ∈ D ↔ a ∈ allAddresses previous target.
Proof.
  intros Hred Hinc -> H0. pose proof (NoDup_all previous target) as Hnd. unfold choose.
  destruct (fold_decides Q reduce reducing (allAddresses previous target) Hred (λ c a, reduce_other c a)
    (allAddresses previous target) [] _ Hnd ltac:(done) ltac:(intros ? ? ? ?%elem_of_nil; done) H0) as (D1 & HD1 & Hel1).
  destruct (fold_decides Q increase (λ a, ¬ reducing a) (allAddresses previous target) Hinc
    ltac:(intros c a Hn; apply increase_other; unfold reducing in *; lia) (allAddresses previous target) D1 _ Hnd ltac:(done)
    ltac:(intros a _ Hn Ha; apply Hel1 in Ha as [?%elem_of_nil|[_ ?]]; done) HD1) as (D2 & HD2 & Hel2).
  exists D2. split; [done|]. intros a. rewrite Hel2, Hel1, elem_of_nil. unfold reducing. destruct (decide (next a < old a)); tauto.
Qed.

Lemma choose_decided : 0 ≤ total → budget total ≤ u64_max → ∃ D, decided D (choose previous target effectiveEpoch total) ∧ D ≡ₚ allAddresses previous target.
Proof.
  intros Ht Hb.
  pose proof (decided_start Ht) as H0.
  destruct (two_loops decided []) as (D & HD & Hel); [by intros; apply reduce_decided|by intros; apply increase_decided|done|done|].
  exists D. split; [done|]. apply NoDup_Permutation; [by destruct HD|apply NoDup_all|done].
Qed.
End loops.

(** *** Restoring the selected entries *)

Lemma restoreEntry_ok `{Sha256} a e r : entry_ok a e → r !! a = None → wf r → map_sum weight r + weight e ≤ u64_max →
  restoreOrThrow e r = (Ok tt, <[a := e]> r) ∧ wf (<[a := e]> r).
Proof.
  intros (Hs & Hv & Ha) Hn [Hall _] Hsum.
  assert (wf (<[a:=e]> r)) as Hwf. { split; [by apply map_Forall_insert_2|]. rewrite map_sum_insert by done. lia. }
  split; [|done]. unfold restoreOrThrow, restoreEntry, mbind, M_bind, lift, gets, write, audit, getsR, modify. rewrite Hv, Ha, Hs. simpl.
  unfold hasValidator. rewrite bool_decide_false by (rewrite Hn; by intros [? ?]). simpl.
  rewrite (proj2 (isValid_wf (<[a:=e]> r)) Hwf). done.
Qed.

Lemma restoreAll_ok `{Sha256} l r : NoDup l.*1 → (∀ a e, (a, e) ∈ l → entry_ok a e ∧ r !! a = None) → wf r →
  map_sum weight r + sum_by (weight ∘ snd) l ≤ u64_max →
  ∃ r', for_each restoreOrThrow l.*2 r = (Ok tt, r') ∧ wf r' ∧ ∀ a, r' !! a = match list_to_map (M := ValidatorRegistry) l !! a with Some e => Some e | None => r !! a end.
Proof.
  revert r. induction l as [|[a e] l IH]; intros r Hnd Hall Hwf Hsum; simpl in *; [by exists r|].
  apply NoDup_cons in Hnd as [Hna Hnd]. destruct (Hall a e ltac:(left)) as [Hok Hn].
  pose proof (sum_by_nonneg (weight ∘ snd) l ltac:(intros; apply weight_nonneg)) as Hnn.
  destruct (restoreEntry_ok a e r Hok Hn Hwf ltac:(lia)) as [E Hwf'].
  destruct (IH (<[a:=e]> r) Hnd) as (r' & Er & Hr' & Hl).
  - intros b x Hb. destruct (Hall b x ltac:(by right)) as [? ?]. split; [done|]. rewrite lookup_insert_ne; [done|].
    intros ->. apply Hna. apply list_elem_of_fmap. by exists (b, x).
  - done.
  - rewrite map_sum_insert by done. lia.
  - exists r'. split; [|split; [done|]].
    + unfold mbind, M_bind. rewrite E. exact Er.
    + intros b. rewrite Hl. destruct (decide (a = b)) as [->|Hne].
      * rewrite not_elem_of_list_to_map_1 by done. by rewrite !lookup_insert_eq.
      * by rewrite !lookup_insert_ne by done.
Qed.

Lemma restore_selected `{Sha256} (m : ValidatorRegistry) : map_Forall entry_ok m → map_sum weight m ≤ u64_max →
  on_local (for_each restoreOrThrow (entries m).*2) ∅ = Ok m.
Proof.
  intros Hall Hsum. destruct (restoreAll_ok (entries m) ∅) as (r' & E & _ & Hl).
  - apply NoDup_fst_entries.
  - intros a e Hin%elem_of_entries. split; [by apply Hall|done].
  - split; [apply map_Forall_empty|]. by rewrite map_sum_empty.
  - rewrite map_sum_empty, map_sum_entries. lia.
  - unfold on_local. rewrite E. f_equal. apply map_eq. intros a. rewrite Hl, lookup_empty.
    assert (list_to_map (entries m) = m) as ->; [|by destruct (m !! a)].
    rewrite (list_to_map_proper (entries m) (map_to_list m)); [apply list_to_map_to_list|apply NoDup_fst_entries|apply entries_Permutation].
Qed.

(** *** The projection *)

Definition max_churn (w : Z) : Z := w * 3333 / 10000.

Lemma budget_value w : 0 ≤ w ≤ u64_max → budget w = max_churn w ∧ 0 ≤ max_churn w < u64_max.
Proof.
  intros Hw. unfold budget, max_churn, kMaxChurnBasisPoints, u64_max in *. assert (0 ≤ w * 3333 / 10000 < 18446744073709551615) as Hb.
  { split; [apply Z.div_pos; lia|apply Z.div_lt_upper_bound; lia]. }
  split; [|done]. apply wrap64_id. unfold u64, u64_max. lia.
Qed.

Section projection.
Context `{Sha256}.
Variables (previous target : ValidatorRegistry) (effectiveEpoch total : Z).
Hypotheses (Hprev : wf previous) (Htarget : wf target).
Hypotheses (Etotal : totalConsensusWeight previous = Ok total) (Hpos : 0 < total) (Hmoney : total ≤ i64_max) (Hepoch : effectiveEpoch ≠ 0).

Abbreviation old := (consensusWeightFor previous).
Abbreviation next := (consensusWeightFor target).
Abbreviation all := (allAddresses previous target).
Definition outcome : ValidatorRegistry := selected (choose previous target effectiveEpoch total).

Lemma total_over (r : ValidatorRegistry) : (∀ a, is_Some (r !! a) → a ∈ all) → sum_by (consensusWeightFor r) all = map_sum weight r.
Proof.
  intros Hdom. rewrite <- (sum_over_keys weight r all); [|apply NoDup_all|done]. apply sum_by_ext. intros a _. apply weightFor.
Qed.

Lemma total_value : total = map_sum weight previous.
Proof. rewrite (totalConsensusWeight_Ok previous Hprev) in Etotal. by injection Etotal. Qed.

Record projected (r : ValidatorRegistry) : Prop := {
  p_wf : wf r;
  p_dom : ∀ a, is_Some (r !! a) → a ∈ all;
  p_between : ∀ a, Z.min (old a) (next a) ≤ consensusWeightFor r a ≤ Z.max (old a) (next a);
  p_churn : sum_by (λ a, Z.abs (old a - consensusWeightFor r a)) all ≤ max_churn total;
}.

Lemma abs_sum_le (f g : string → Z) l : sum_by f l - sum_by (λ a, Z.abs (f a - g a)) l ≤ sum_by g l ≤ sum_by f l + sum_by (λ a, Z.abs (f a - g a)) l.
Proof. induction l; simpl; lia. Qed.

Lemma churn_small : max_churn total < total.
Proof. unfold max_churn. apply Z.div_lt_upper_bound; lia. Qed.

Lemma outcome_total : (∀ a, is_Some (outcome !! a) → a ∈ all) → sum_by (λ a, Z.abs (old a - consensusWeightFor outcome a)) all ≤ max_churn total →
  0 < map_sum weight outcome ≤ u64_max.
Proof.
  intros Hdom Hch. pose proof (abs_sum_le old (consensusWeightFor outcome) all) as Hs. pose proof churn_small.
  rewrite (total_over outcome Hdom), (total_over previous), <- total_value in Hs by (intros a Ha; apply elem_of_all; by left).
  unfold i64_max, u64_max in *. lia.
Qed.

Lemma outcome_projected : projected outcome.
Proof.
  destruct (budget_value total) as [Hb Hb']; [unfold i64_max, u64_max in *; lia|].
  destruct (choose_decided previous target effectiveEpoch total Hprev Htarget ltac:(lia) ltac:(lia)) as (D & [Hrem Hnd Hdom Hok Hbt Hbud] & HD).
  assert (∀ a, is_Some (outcome !! a) → a ∈ all) as Hdom' by (intros a Ha; rewrite <- HD; by apply Hdom).
  assert (sum_by (λ a, Z.abs (old a - consensusWeightFor outcome a)) all ≤ max_churn total) as Hch.
  { rewrite <- HD. unfold outcome. unfold chosen in Hbud. lia. }
  split; [|done| |done].
  - split; [done|]. by apply outcome_total.
  - intros a. destruct (decide (a ∈ all)) as [Ha|Ha]; [apply Hbt; by rewrite HD|].
    assert (∀ r : ValidatorRegistry, (∀ b, is_Some (r !! b) → b ∈ all) → consensusWeightFor r a = 0) as Hz.
    { intros r Hr. rewrite weightFor. destruct (r !! a) eqn:E; [|done]. exfalso. apply Ha, Hr. by rewrite E. }
    rewrite (Hz outcome Hdom'), (Hz previous), (Hz target); [lia|..]; intros b Hb''; apply elem_of_all; auto.
Qed.

Lemma project_outcome : project previous target effectiveEpoch = Ok outcome.
Proof.
  pose proof outcome_projected as [Hwf Hdom Hbt Hch]. destruct (budget_value total) as [Hb _]; [unfold i64_max, u64_max in *; lia|].
  unfold project. rewrite (proj2 (isValid_wf previous) Hprev). cbn [mbind result_bind negb]. rewrite (proj2 (isValid_wf target) Htarget).
  cbn [mbind result_bind negb]. rewrite Etotal. cbn [mbind result_bind orb]. replace ((total =? 0) || (effectiveEpoch =? 0)) with false by lia.
  cbn [throw_if mbind result_bind]. fold outcome. rewrite restore_selected; [|exact (proj1 Hwf)|exact (proj2 Hwf)]. cbn [mbind result_bind].
  rewrite (totalConsensusWeight_Ok outcome Hwf). cbn [mbind result_bind].
  pose proof (outcome_total Hdom Hch). replace (map_sum weight outcome =? 0) with false by lia. cbn [throw_if mbind result_bind].
  unfold changedWeight. rewrite Hb. replace (max_churn total <? _) with false by lia. done.
Qed.

(** *** When the whole change fits *)

Hypothesis Hfits : sum_by (λ a, Z.abs (old a - next a)) all ≤ max_churn total.
Hypothesis Hmature : ∀ a e, target !! a = Some e → Registration.activationEpoch (Entry.registrationRecord e) ≤ effectiveEpoch.

(** The decided addresses have the weight of the target, with entries the target has as well. *)
Definition reached (D : list string) (c : choice) : Prop :=
  decided previous target total D c ∧ (∀ a, a ∈ D → a ∈ all ∧ chosen c a = next a) ∧ ∀ a, is_Some (selected c !! a) → is_Some (target !! a).

Lemma room D c a : reached D c → a ∈ all → a ∉ D → Z.abs (old a - next a) ≤ remaining c.
Proof.
  intros (Hd & Hr & _) Ha Hn. destruct Hd as [_ Hnd _ _ _ Hbud]. destruct (budget_value total) as [Hb _]; [unfold i64_max, u64_max in *; lia|].
  rewrite (sum_by_ext _ (λ a, Z.abs (old a - next a)) D) in Hbud by (intros b Hb'; by rewrite (proj2 (Hr b Hb'))).
  destruct (submseteq_Permutation (a :: D) all) as [rest Hp].
  { apply NoDup_submseteq; [by constructor|]. intros b [->|Hb']%elem_of_cons; [done|by apply Hr]. }
  pose proof (sum_by_nonneg (λ a, Z.abs (old a - next a)) rest ltac:(intros; lia)). rewrite Hp, sum_by_app in Hfits. simpl in Hfits. lia.
Qed.

Lemma mature_step : (∀ o, replacementIsImmature previous target effectiveEpoch o = false) ∧
  (∀ n c, (∀ a, is_Some (selected c !! a) → is_Some (target !! a)) → oldKeyStillLive target n (selected c) = false).
Proof.
  split.
  - intros o. apply not_true_iff_false. unfold replacementIsImmature. rewrite existsb_exists. intros ([a e] & Hin%list_elem_of_In%elem_of_entries & Hb).
    apply andb_prop in Hb as [_ Hb]. apply Hmature in Hin. simpl in Hb. lia.
  - intros n c Hc. apply not_true_iff_false. unfold oldKeyStillLive. rewrite existsb_exists. intros ([a e] & Hin%list_elem_of_In%elem_of_entries & Hb).
    apply andb_prop in Hb as [[Hb _]%andb_prop _]. simpl in Hb. unfold hasValidator in Hb. rewrite bool_decide_true in Hb; [done|]. apply Hc. by rewrite Hin.
Qed.

(** What one address adds to the selected entries then. *)
Definition adopt (sel : ValidatorRegistry) (a : string) : ValidatorRegistry :=
  match target !! a with Some n => if negb (next a =? 0) then emplace a n sel else sel | None => sel end.

Lemma reached_extend D c a c' : reached D c → a ∈ all → a ∉ D → decided previous target total (a :: D) c' → selected c' = adopt (selected c) a →
  reached (a :: D) c'.
Proof.
  intros (Hd & Hr & Ht) Ha Hn Hd' Es. pose proof (not_selected _ _ _ D c a Hd Hn) as Hns. split; [done|].
  unfold adopt in Es. destruct (target !! a) as [n|] eqn:En.
  2: { assert (next a = 0) as Hz by (rewrite weightFor, En; done). split; [|by rewrite Es].
       intros b [->|Hb]%elem_of_cons; unfold chosen in *; rewrite Es; [|by apply Hr]. split; [done|]. by rewrite weightFor, Hns. }
  assert (weight n = next a) as Hw by (rewrite weightFor, En; done).
  destruct (next a =? 0) eqn:Ez; cbn [negb] in Es.
  - split; [|by rewrite Es]. intros b [->|Hb]%elem_of_cons; unfold chosen in *; rewrite Es; [|by apply Hr]. split; [done|]. rewrite weightFor, Hns. simpl. lia.
  - unfold emplace in Es. rewrite bool_decide_false in Es by (rewrite Hns; by intros [? ?]). split.
    + intros b [->|Hb]%elem_of_cons; unfold chosen in *; rewrite Es.
      * split; [done|]. rewrite weightFor, lookup_insert_eq. done.
      * destruct (Hr b Hb) as [? Hb']. split; [done|]. rewrite weightFor, lookup_insert_ne by (by intros ->). by rewrite <- weightFor.
    + intros b. rewrite Es, lookup_insert_is_Some. intros [<-|[_ ?]]; [by rewrite En|auto].
Qed.

Lemma reduce_reached D c a : a ∈ all → reached D c → a ∉ D → reducing previous target a → reached (a :: D) (reduceStep previous target effectiveEpoch c a).
Proof.
  intros Ha Hre Hn Hred. destruct (budget_value total) as [Hb Hb']; [unfold i64_max, u64_max in *; lia|]. pose proof (room D c a Hre Ha Hn) as Hroom.
  eapply reached_extend; [exact Hre|done|done|apply reduce_decided; [done|done|apply Hre|done|done|lia]|].
  unfold reduceStep, reducing, adopt in *. pose proof (weightFor_nonneg target a). replace ((old a =? 0) || (old a <=? next a)) with false by lia.
  destruct (entry_of previous a Hprev ltac:(lia)) as (o & -> & _). rewrite (proj1 mature_step), andb_false_r.
  replace (old a - next a <=? remaining c) with true by lia. done.
Qed.

Lemma increase_reached D c a : a ∈ all → reached D c → a ∉ D → ¬ reducing previous target a → reached (a :: D) (increaseStep previous target effectiveEpoch c a).
Proof.
  intros Ha Hre Hn Hred. pose proof (room D c a Hre Ha Hn) as Hroom. pose proof Hre as (Hd & _ & Ht).
  eapply reached_extend; [exact Hre|done|done|by apply increase_decided|].
  unfold increaseStep, reducing, adopt in *. rewrite bool_decide_false by (rewrite (not_selected _ _ _ D c a Hd Hn); by intros [? ?]).
  replace (next a <? old a) with false by lia. destruct (target !! a) as [n|] eqn:En; [|done].
  destruct (next a =? 0) eqn:Ez; [done|]. pose proof (Hmature a n En).
  replace (effectiveEpoch <? _) with false by lia. rewrite (proj2 mature_step n c Ht), !andb_false_r. replace (next a - old a <=? remaining c) with true by lia. done.
Qed.

Lemma outcome_reaches a : consensusWeightFor outcome a = next a.
Proof.
  destruct (two_loops previous target effectiveEpoch total reached []) as (D & (_ & HD & _) & Hel).
  - intros. by apply reduce_reached.
  - intros. by apply increase_reached.
  - done.
  - split; [|split; [by intros ? ?%elem_of_nil|intros b; simpl; rewrite lookup_empty; by intros [? ?]]]. apply decided_start. lia.
  - destruct (decide (a ∈ D)) as [Ha|Ha]; [by apply HD|]. pose proof outcome_projected as [_ Hdom _ _]. rewrite Hel in Ha. rewrite !weightFor.
    destruct (outcome !! a) eqn:Eo; [exfalso; apply Ha, Hdom; by rewrite Eo|]. destruct (target !! a) eqn:Et; [|done].
    exfalso. apply Ha, elem_of_all. right. by rewrite Et.
Qed.
End projection.
End ScheduleFacts.

(** ** Facts about the boundary of an epoch *)

Module BoundaryFacts.
Import Validators ValidatorFacts ScheduleFacts WeightUpdater.

(** *** The active stake of an audited staking registry *)

Section active_stake.
Import Position Staking StakingFacts.
Context `{Sha256}.

Lemma active_sum (l : list Position) acc : Forall typed l → 0 ≤ acc → acc + sum_by avail l ≤ i64_max →
  ∃ s, foldR (λ total p, if negb (bool_decide (status p = TOMBSTONED)) then Amount.add total (activeAmount p) else Ok total) acc l = Ok s ∧
    acc ≤ s ≤ acc + sum_by avail l.
Proof.
  revert acc. induction l as [|p l IH]; intros acc Ht Ha Hb; simpl in *; [exists acc; split; [done|lia]|].
  apply Forall_cons in Ht as [Hp Ht]. pose proof Hp as [[? ?] [? ?] [? ?] _].
  pose proof (sum_by_nonneg avail l) as Hn. rewrite Forall_forall in Ht. specialize (Hn ltac:(intros q Hq; apply avail_nonneg, Ht, Hq)).
  rewrite <- Forall_forall in Ht. assert (0 ≤ activeAmount p ≤ avail p) as Hav by (unfold avail; lia).
  destruct (negb _).
  - rewrite add_fits by lia. cbn [mbind result_bind]. destruct (IH (acc + activeAmount p) Ht ltac:(lia) ltac:(lia)) as (s & E & Hs). exists s. split; [exact E|lia].
  - cbn [mbind result_bind]. destruct (IH acc Ht ltac:(lia) ltac:(lia)) as (s & E & Hs). exists s. split; [exact E|lia].
Qed.

(** What a validator has locked or lost. *)
Definition bondedOf (r : t) (v : string) : Z := locked (ownersOf v r) + slashed (ownersOf v r).

Lemma active_defined r v : wf r → ∃ s, activeStakeFor v r = Ok s ∧ 0 ≤ s ≤ bondedOf r v ∧ s ≤ i64_max.
Proof.
  intros Hr. unfold activeStakeFor, bondedOf, ownersOf. destruct (positions r !! v) as [ps|] eqn:Ep; simpl.
  - destruct (wf_positions r Hr v ps Ep) as [Hok (a & Ea & Es & Eb)]. destruct (wf_accounts r Hr v a Ea) as (_ & _ & _ & Hmax).
    pose proof (owners_ok_typed v ps Hok) as Ht. destruct (locked_nonneg ps Ht). rewrite Ea.
    destruct (_ || _); [exists 0; split; [done|unfold i64_max; lia]|]. case_bool_decide as Eps.
    + subst ps. exists (locked ∅ + slashed ∅ - slashed ∅). unfold safeAvailable. rewrite Es, Eb.
      assert (slashed ∅ = 0 ∧ locked ∅ = 0) as [Hz1 Hz2] by (unfold slashed, locked; split; apply map_sum_empty). rewrite Hz1, Hz2.
      split; [reflexivity|unfold i64_max; lia].
    + destruct (active_sum (entries ps).*2 0 (owners_typed_entries ps Ht) ltac:(lia)) as (s & E & Hs); rewrite ?sum_entries in *; [fold (locked ps); lia|].
      exists s. split; [exact E|]. fold (locked ps) in Hs. lia.
  - assert (accounts r !! v = None) as ->.
    { destruct (accounts r !! v) as [acc|] eqn:Ea; [|done]. destruct (wf_owned r Hr v) as [? ?]; [by exists acc|congruence]. }
    exists 0. rewrite bool_decide_true by done. split; [done|]. unfold locked, slashed. rewrite !map_sum_empty. unfold i64_max. lia.
Qed.
End active_stake.

(** *** Loops over the validators of a registry *)

Lemma sum_keys_le {V} (f : V → Z) (m : gmap string V) (l : list string) : NoDup l → map_Forall (λ _ v, 0 ≤ f v) m →
  sum_by (λ a, from_option f 0 (m !! a)) l ≤ map_sum f m.
Proof.
  revert m. induction l as [|a l IH]; intros m Hnd Hf; simpl.
  - unfold map_sum. apply sum_by_nonneg. intros [k v] Hin%elem_of_map_to_list. by apply (Hf k v).
  - apply NoDup_cons in Hnd as [Hna Hnd]. specialize (IH (delete a m) Hnd ltac:(by apply map_Forall_delete)).
    rewrite (sum_by_ext _ (λ b, from_option f 0 (m !! b)) l) in IH by (intros b Hb; rewrite lookup_delete_ne; [done|by intros ->]).
    destruct (m !! a) as [v|] eqn:E; simpl; [rewrite (map_sum_delete f m a v E)|rewrite delete_id in IH by done]; lia.
Qed.

Section boundary.
Context `{Sha256}.
Variables (keys : list string) (cap : string → Z) (now : Z).
Hypotheses (Hnd : NoDup keys) (Hcap : ∀ a, a ∈ keys → 0 ≤ cap a) (Hsum : sum_by cap keys ≤ u64_max) (Hnow : 0 < now).

(** Every entry is sound, not younger than [now] and its weight is below its cap. *)
Definition good_entry (a : string) (e : ValidatorRegistryEntry) : Prop :=
  a ∈ keys ∧ entry_ok a e ∧ Registration.registeredAt (Entry.registrationRecord e) ≤ now ∧ weight e ≤ cap a.
Definition good (r : ValidatorRegistry) : Prop := map_Forall good_entry r.

Lemma good_wf r : good r → wf r.
Proof.
  intros Hg. split; [intros a e E; by destruct (Hg a e E) as (_ & ? & _)|].
  rewrite <- (sum_over_keys weight r keys Hnd); [|intros a [e E]; by destruct (Hg a e E)].
  etrans; [apply (sum_by_mono _ cap)|exact Hsum]. intros a Ha. destruct (r !! a) as [e|] eqn:E; simpl; [by destruct (Hg a e E) as (_ & _ & _ & ?)|auto].
Qed.

(** A step that replaces one entry by a good one, started from the entries of [r0]. *)
Lemma for_each_pointwise (r0 : ValidatorRegistry) (step : string → M ValidatorRegistry unit) (f : string → ValidatorRegistryEntry → ValidatorRegistryEntry) :
  (∀ a cur e, good cur → r0 !! a = Some e → cur !! a = Some e → step a cur = (Ok tt, <[a := f a e]> cur) ∧ good_entry a (f a e)) →
  ∀ l cur, NoDup l → good cur → (∀ a, a ∈ l → is_Some (r0 !! a) ∧ cur !! a = r0 !! a) →
  ∃ cur', for_each step l cur = (Ok tt, cur') ∧ good cur' ∧ ∀ a, cur' !! a = if bool_decide (a ∈ l) then f a <$> cur !! a else cur !! a.
Proof.
  intros Hstep l. induction l as [|a l IH]; intros cur Hl Hg Hr0; cbn [for_each].
  { exists cur. split_and!; [done|done|]. intros a. case_bool_decide as Ha; [by apply elem_of_nil in Ha|done]. }
  apply NoDup_cons in Hl as [Hna Hl]. destruct (Hr0 a ltac:(left)) as [[e E0] Ecur]. rewrite E0 in Ecur.
  destruct (Hstep a cur e Hg E0 Ecur) as [Es Hge]. destruct (IH (<[a := f a e]> cur) Hl) as (cur' & Er & Hg' & Hlk).
  - by apply map_Forall_insert_2.
  - intros b Hb. destruct (Hr0 b ltac:(by right)) as [? Hb']. split; [done|]. rewrite lookup_insert_ne; [done|]. by intros ->.
  - exists cur'. split; [|split; [done|]].
    + unfold mbind, M_bind. rewrite Es. exact Er.
    + intros b. rewrite Hlk. destruct (decide (a = b)) as [<-|Hne].
      * rewrite bool_decide_false by done. rewrite bool_decide_true by left. by rewrite lookup_insert_eq, Ecur.
      * rewrite lookup_insert_ne by done. rewrite (bool_decide_ext (b ∈ a :: l) (b ∈ l)); [done|]. rewrite elem_of_cons. split; [intros [->|?]; done|by right].
Qed.

Lemma write_good r a e new (st : ValidatorRegistryUpdateStatus) msg : good r → good_entry a new → writeAudited a e new st msg r = (Ok (updated st new), <[a := new]> r).
Proof.
  intros Hg Hn. unfold writeAudited, write, audit, mbind, M_bind, modify, getsR. 
  rewrite (proj2 (isValid_wf (<[a:=new]> r))); [done|]. apply good_wf. by apply map_Forall_insert_2.
Qed.

(** *** The new stakes *)

Variables (staking : Staking.t) (stake : string → Z).
Hypothesis (Hstake : ∀ a, a ∈ keys → Staking.activeStakeFor a staking = Ok (stake a) ∧ 0 ≤ stake a ≤ cap a ∧ stake a ≤ i64_max).

Definition synced (a : string) (e : ValidatorRegistryEntry) : ValidatorRegistryEntry :=
  if Entry.stakeAmount e =? stake a then e
  else Entry.mk (Entry.registrationRecord e) (Entry.status e) now (stake a) (Entry.jailUntilEpoch e) (Entry.exitRequestHeight e) (Entry.ownerAddress e).

Lemma weight_le_stake e : 0 ≤ Entry.stakeAmount e → weight e ≤ Entry.stakeAmount e.
Proof. intros Hs. destruct (weight_cases e) as [->|(_ & -> & _)]; lia. Qed.

Lemma synced_good a e : good_entry a e → good_entry a (synced a e).
Proof.
  intros (Hk & Hok & Ht & Hw). destruct (Hstake a Hk) as (_ & Hs & Hmax). unfold synced. destruct (_ =? _); [done|].
  destruct Hok as (H1 & Hv & H2). apply entry_isValid_true in Hv as (Hv1 & Hv2 & _). split_and!; [done| |done|].
  - split_and!; [done| |done]. apply entry_isValid_true. simpl. split_and!; [done|done|done|done|lia].
  - etrans; [apply weight_le_stake; simpl; lia|]. simpl. lia.
Qed.

Lemma syncStep_run r0 a cur e : good cur → r0 !! a = Some e → cur !! a = Some e →
  syncStep r0 staking now a cur = (Ok tt, <[a := synced a e]> cur) ∧ good_entry a (synced a e).
Proof.
  intros Hg E0 Ecur. pose proof (synced_good a e (Hg a e Ecur)) as Hs. split; [|done]. destruct (Hg a e Ecur) as (Hk & _).
  destruct (Hstake a Hk) as (Ea & Hb & _). unfold syncStep. rewrite E0. unfold mbind, M_bind, lift. rewrite Ea. replace (stake a <? 0) with false by lia.
  unfold synced in *. destruct (Entry.stakeAmount e =? stake a) eqn:Es; [by rewrite insert_id|].
  unfold updateStake, with_entry, mbind, M_bind, gets, lift. rewrite Ecur. set (new := Entry.mk _ _ _ _ _ _ _) in *.
  assert (Entry.isValid new = Ok true) as -> by by destruct Hs as (_ & (_ & ? & _) & _). cbn [negb].
  by rewrite (write_good cur a e new U_ACCEPTED _ Hg Hs).
Qed.

Lemma sync_run r : good r → Staking.isValid staking = Ok true → ∀ height, Window.isBoundary height = true → 0 < height →
  ∃ r', synchronizeAtEpochBoundary height now staking r = (Ok true, r') ∧ good r' ∧ ∀ a, r' !! a = synced a <$> r !! a.
Proof.
  intros Hg Hs height Hb Hh. destruct (for_each_pointwise r (syncStep r staking now) synced (syncStep_run r) (validatorAddresses r) r) as (r' & E & Hg' & Hl).
  - apply NoDup_fst_entries.
  - done.
  - intros a ([b e] & -> & Hin%elem_of_entries)%list_elem_of_fmap. simpl. rewrite Hin. split; [by eexists|done].
  - exists r'. unfold synchronizeAtEpochBoundary, isEpochBoundary. unfold Window.isBoundary in Hb. apply andb_prop in Hb as [_ Hb]. rewrite Hb.
    replace ((height =? 0) || (now <=? 0)) with false by lia. replace (0 <? height) with true by lia. cbn [andb negb].
    unfold mbind, M_bind, lift, getsR, on_local, modify. rewrite Hs. cbn [negb]. rewrite (proj2 (isValid_wf r) (good_wf r Hg)). cbn [negb].
    rewrite E, (proj2 (isValid_wf r') (good_wf r' Hg')). cbn [negb]. split; [done|]. split; [done|]. intros a. rewrite Hl. case_bool_decide as Ha; [done|].
    destruct (r !! a) as [e|] eqn:Ea; [|done]. exfalso. apply Ha, list_elem_of_fmap. exists (a, e). split; [done|]. by apply elem_of_entries.
Qed.

(** *** The transition of the lifecycle *)

Definition matured (epoch : Z) (e : ValidatorRegistryEntry) : bool :=
  (Registration.activationEpoch (Entry.registrationRecord e) <=? epoch) && (MIN_VALIDATOR_STAKE_RAW_UNITS <=? Entry.stakeAmount e) && (0 <? Entry.consensusWeight e).

(** The effect on one entry: pending validators become active, exits that waited an epoch complete. *)
Definition restatus (st : ValidatorRegistrationStatus) (e : ValidatorRegistryEntry) : ValidatorRegistryEntry :=
  Entry.mk (Entry.registrationRecord e) st now (Entry.stakeAmount e) (Entry.jailUntilEpoch e) (Entry.exitRequestHeight e) (Entry.ownerAddress e).
Definition activated (epoch : Z) (e : ValidatorRegistryEntry) : ValidatorRegistryEntry := if matured epoch e then restatus ACTIVE e else e.
Definition departed (height : Z) (e : ValidatorRegistryEntry) : ValidatorRegistryEntry :=
  if wrap64 (Entry.exitRequestHeight e + Window.NODO_VALIDATOR_EPOCH_BLOCKS) <=? height then restatus EXITED e else e.
Definition advanced (epoch height : Z) (e : ValidatorRegistryEntry) : ValidatorRegistryEntry :=
  if bool_decide (Entry.status e = PENDING_ACTIVATION) then activated epoch e
  else if bool_decide (Entry.status e = EXIT_REQUESTED) then departed height e else e.

Lemma restatus_good st a e : st ≠ STATUS_UNKNOWN → good_entry a e → 0 ≤ Entry.stakeAmount e ≤ cap a → good_entry a (restatus st e).
Proof.
  intros Hst (Hk & (H1 & Hv & H2) & Ht & _) Hs. apply entry_isValid_true in Hv as (Hv1 & Hv2 & _ & _ & Hv5). split_and!; [done| |done|].
  - split_and!; [done| |done]. apply entry_isValid_true. by split_and!.
  - etrans; [apply weight_le_stake; simpl; lia|]. simpl. lia.
Qed.

Lemma activateStep_run epoch a cur e : good cur → cur !! a = Some e → Entry.status e = PENDING_ACTIVATION → 0 ≤ Entry.stakeAmount e ≤ cap a →
  activateStep epoch now a cur = (Ok tt, <[a := activated epoch e]> cur) ∧ good_entry a (activated epoch e).
Proof.
  intros Hg Ecur Hst Hs. pose proof (restatus_good ACTIVE a e ltac:(done) (Hg a e Ecur) Hs) as Hgood.
  unfold activateStep, activated, mbind, M_bind, gets. rewrite Ecur. fold (matured epoch e). destruct (matured epoch e) eqn:Em; [|by rewrite insert_id; [split; [|apply Hg]|]].
  split; [|done]. unfold matured in Em. unfold activateValidator, with_entry, mbind, M_bind, gets. rewrite Ecur, Hst. 
  rewrite bool_decide_false by done. rewrite bool_decide_true by done. cbn [negb].
  replace (epoch <? _) with false by lia. replace (_ || _) with false by lia.
  rewrite (write_good cur a e _ U_ACTIVATED _ Hg); [done|]. exact Hgood.
Qed.

Lemma exitStep_run height a cur e : good cur → cur !! a = Some e → Entry.status e = EXIT_REQUESTED → 0 ≤ Entry.stakeAmount e ≤ cap a →
  exitStep height now a cur = (Ok tt, <[a := departed height e]> cur) ∧ good_entry a (departed height e).
Proof.
  intros Hg Ecur Hst Hs. pose proof (restatus_good EXITED a e ltac:(done) (Hg a e Ecur) Hs) as Hgood.
  unfold exitStep, departed, mbind, M_bind, gets. rewrite Ecur. destruct (_ <=? height) eqn:Em; [|by rewrite insert_id; [split; [|apply Hg]|]].
  split; [|done]. unfold completeExit, with_entry, mbind, M_bind, gets, write, modify. rewrite Ecur, Hst. by rewrite bool_decide_true.
Qed.

Lemma addressesWhere_spec p (r : ValidatorRegistry) a : a ∈ addressesWhere p r ↔ ∃ e, r !! a = Some e ∧ p e = true.
Proof.
  unfold addressesWhere. rewrite list_elem_of_fmap. split.
  - intros ([b e] & -> & [Hp Hin%elem_of_entries]%list_elem_of_filter). by exists e.
  - intros (e & E & Hp). exists (a, e). split; [done|]. apply list_elem_of_filter. split; [done|by apply elem_of_entries].
Qed.

Lemma NoDup_addressesWhere p (r : ValidatorRegistry) : NoDup (addressesWhere p r).
Proof.
  unfold addressesWhere. pose proof (NoDup_fst_entries r) as Hn. induction (entries r) as [|[a e] l IH]; [constructor|].
  simpl in Hn. apply NoDup_cons in Hn as [Hna Hn]. rewrite filter_cons. destruct (decide _); [|by apply IH]. simpl. apply NoDup_cons. split; [|by apply IH].
  intros ([b x] & -> & [_ Hin]%list_elem_of_filter)%list_elem_of_fmap. apply Hna, list_elem_of_fmap. by exists (b, x).
Qed.

(** A loop over the entries with one status. *)
Lemma loop_where r st (step : string → M ValidatorRegistry unit) (f : ValidatorRegistryEntry → ValidatorRegistryEntry) : good r →
  (∀ a cur e, good cur → r !! a = Some e → cur !! a = Some e → Entry.status e = st → step a cur = (Ok tt, <[a := f e]> cur) ∧ good_entry a (f e)) →
  ∃ r', for_each step (addressesWhere (λ e, bool_decide (Entry.status e = st)) r) r = (Ok tt, r') ∧ good r' ∧
    ∀ a, r' !! a = (λ e, if bool_decide (Entry.status e = st) then f e else e) <$> r !! a.
Proof.
  intros Hg Hstep. set (p e := bool_decide (Entry.status e = st)).
  destruct (for_each_pointwise (filter (λ x, p x.2 = true) r) step (λ _, f)) with (l := addressesWhere p r) (cur := r) as (r' & E & Hg' & Hl).
  - intros a cur e Hgc [Ea Hp]%map_lookup_filter_Some Ec. apply bool_decide_eq_true in Hp. by apply Hstep.
  - apply NoDup_addressesWhere.
  - done.
  - intros a (e & Ea & Hp)%addressesWhere_spec. assert (filter (λ x, p x.2 = true) r !! a = Some e) as -> by by apply map_lookup_filter_Some.
    split; [by eexists|done].
  - exists r'. split_and!; [done|done|]. intros a. rewrite Hl. case_bool_decide as Ha.
    + apply addressesWhere_spec in Ha as (e & -> & Hp). simpl. unfold p in Hp. by rewrite Hp.
    + destruct (r !! a) as [e|] eqn:Ea; simpl; [|done]. f_equal. case_bool_decide as Hp; [|done]. exfalso. apply Ha, addressesWhere_spec.
      exists e. split; [done|]. unfold p. by apply bool_decide_eq_true.
Qed.

Lemma transition_run r height : good r → (∀ a e, r !! a = Some e → 0 ≤ Entry.stakeAmount e ≤ cap a) → Window.isBoundary height = true → 0 < height < u64_max →
  ∃ r' epoch, effectiveEpochForBoundary height = Ok epoch ∧ applyValidatorEpochTransition height now r = (Ok tt, r') ∧ good r' ∧
    ∀ a, r' !! a = advanced epoch height <$> r !! a.
Proof.
  intros Hg Hst Hb Hh. unfold Window.isBoundary in Hb. apply andb_prop in Hb as [_ Hb].
  assert (effectiveEpochForBoundary height = Ok ((height - 1) / Window.NODO_VALIDATOR_EPOCH_BLOCKS + 1 + 1)) as Ee.
  { unfold effectiveEpochForBoundary, epochIndexForBlock, isEpochBoundary. rewrite Hb. replace (0 <? height) with true by lia. replace (height =? 0) with false by lia.
    cbn [andb negb throw_if mbind result_bind]. assert ((height - 1) / Window.NODO_VALIDATOR_EPOCH_BLOCKS < u64_max - 1).
    { unfold Window.NODO_VALIDATOR_EPOCH_BLOCKS, u64_max in *. apply Z.div_lt_upper_bound; lia. }
    by replace (_ =? u64_max) with false by lia. }
  set (epoch := _ + 1 + 1) in Ee.
  destruct (loop_where r PENDING_ACTIVATION (activateStep epoch now) (activated epoch)) as (r1 & E1 & Hg1 & Hl1); [done| |].
  { intros a cur e Hgc Ea Ec Hs. apply activateStep_run; [done|done|done|by apply (Hst a)]. }
  assert (∀ a e, r1 !! a = Some e → 0 ≤ Entry.stakeAmount e ≤ cap a) as Hst1.
  { intros a e. rewrite Hl1. destruct (r !! a) as [x|] eqn:Ex; simpl; [|done]. intros [= <-]. specialize (Hst a x Ex).
    case_bool_decide; [|done]. unfold activated. by destruct (matured epoch x). }
  destruct (loop_where r1 EXIT_REQUESTED (exitStep height now) (departed height)) as (r2 & E2 & Hg2 & Hl2); [done| |].
  { intros a cur e Hgc Ea Ec Hs. apply exitStep_run; [done|done|done|by apply (Hst1 a)]. }
  exists r2, epoch. split_and!; [done| |done|].
  - unfold applyValidatorEpochTransition. rewrite Hb. replace (height =? 0) with false by lia. cbn [orb negb].
    unfold mbind, M_bind, lift, gets. rewrite Ee. unfold pendingValidatorAddresses. rewrite E1. exact E2.
  - intros a. rewrite Hl2, Hl1. destruct (r !! a) as [e|]; simpl; [|done]. f_equal. unfold advanced.
    destruct (bool_decide (Entry.status e = PENDING_ACTIVATION)) eqn:Hp; [|done]. apply bool_decide_eq_true in Hp.
    unfold activated. destruct (matured epoch e); simpl; [done|]. by rewrite bool_decide_false by congruence.
Qed.
End boundary.

(** The status a validator has after the boundary of an epoch, with [stake] active stake. *)
Definition status_after (epoch height stake : Z) (e : ValidatorRegistryEntry) : ValidatorRegistrationStatus :=
  match Entry.status e with
  | PENDING_ACTIVATION =>
      if (Registration.activationEpoch (Entry.registrationRecord e) <=? epoch) && (MIN_VALIDATOR_STAKE_RAW_UNITS <=? stake) then ACTIVE else PENDING_ACTIVATION
  | EXIT_REQUESTED => if wrap64 (Entry.exitRequestHeight e + Window.NODO_VALIDATOR_EPOCH_BLOCKS) <=? height then EXITED else EXIT_REQUESTED
  | st => st
  end.

(** The entry of a validator after both steps. *)
Lemma advanced_fields now epoch height stake a e :
  let e2 := advanced now epoch height (synced now stake a e) in
  Entry.registrationRecord e2 = Entry.registrationRecord e ∧ Entry.ownerAddress e2 = Entry.ownerAddress e ∧ Entry.stakeAmount e2 = stake a ∧
  Entry.status e2 = status_after epoch height (stake a) e.
Proof.
  assert (∃ t, synced now stake a e = Entry.mk (Entry.registrationRecord e) (Entry.status e) t (stake a) (Entry.jailUntilEpoch e)
    (Entry.exitRequestHeight e) (Entry.ownerAddress e)) as [t ->].
  { unfold synced. destruct (Z.eqb_spec (Entry.stakeAmount e) (stake a)) as [<-|]; [exists (Entry.lastUpdatedAt e); by destruct e|by eexists]. }
  unfold advanced, activated, departed, matured, status_after, Entry.consensusWeight, weightFromStake, MIN_VALIDATOR_STAKE_RAW_UNITS. simpl.
  destruct (Entry.status e) eqn:Es; simpl; try (split_and!; done).
  - destruct (_ <=? epoch); simpl; [|done]. destruct (1000000 <=? stake a) eqn:Em; simpl; [|done]. by replace (0 <? stake a) with true by lia.
  - by destruct (_ <=? height).
Qed.

Lemma stake_sum `{Sha256} staking (stake : string → Z) keys : StakingFacts.wf staking → NoDup keys → (∀ a, 0 ≤ stake a ≤ bondedOf staking a) →
  sum_by stake keys ≤ StakingFacts.totalBonded staking.
Proof.
  intros Hwf Hnd Hs. unfold StakingFacts.totalBonded, StakingFacts.total.
  assert (∀ v ps, Staking.positions staking !! v = Some ps → 0 ≤ StakingFacts.locked ps ∧ 0 ≤ StakingFacts.slashed ps) as Hnn.
  { intros v ps Ep. destruct (StakingFacts.wf_positions staking Hwf v ps Ep) as [Hok _]. apply StakingFacts.locked_nonneg. by eapply StakingFacts.owners_ok_typed. }
  pose proof (sum_keys_le StakingFacts.locked (Staking.positions staking) keys Hnd ltac:(intros v ps Ep; by destruct (Hnn v ps Ep))) as Hl.
  pose proof (sum_keys_le StakingFacts.slashed (Staking.positions staking) keys Hnd ltac:(intros v ps Ep; by destruct (Hnn v ps Ep))) as Hsl.
  assert (sum_by stake keys ≤ sum_by (bondedOf staking) keys) as Hb by (apply sum_by_mono; intros a _; apply Hs).
  assert (sum_by (bondedOf staking) keys = sum_by (λ a, from_option StakingFacts.locked 0 (Staking.positions staking !! a)) keys +
    sum_by (λ a, from_option StakingFacts.slashed 0 (Staking.positions staking !! a)) keys) as Hsplit.
  { rewrite <- sum_by_plus. apply sum_by_ext. intros a _. unfold bondedOf, Staking.ownersOf. destruct (Staking.positions staking !! a); simpl; [done|].
    unfold StakingFacts.locked, StakingFacts.slashed. by rewrite !map_sum_empty. }
  lia.
Qed.
End BoundaryFacts.

(** ** Facts about the history of sets *)

Module NextSetFacts.
Import SetHistory Validators ValidatorFacts.

Lemma entries_insert_max {V} (m : gmap Z V) k v : (∀ j x, m !! j = Some x → j < k) → entries (<[k := v]> m) = entries m ++ [(k, v)].
Proof.
  intros Hmax. assert (m !! k = None) as Hk by (destruct (m !! k) eqn:E; [apply Hmax in E; lia|done]).
  apply (StronglySorted_unique_strong entry_le).
  - intros [i x] [j y] Hi%elem_of_entries Hj Hij Hji. assert (i = j) as <- by (unfold entry_le in *; simpl in *; by apply (anti_symm key_le)).
    apply elem_of_app in Hj as [Hj%elem_of_entries|[= -> ->]%list_elem_of_singleton].
    + rewrite lookup_insert_ne in Hi by (apply Hmax in Hj; lia). congruence.
    + rewrite lookup_insert_eq in Hi. by injection Hi as ->.
  - apply entries_sorted.
  - apply StronglySorted_app_2; [|apply entries_sorted|by repeat constructor].
    intros [i x] y Hi%elem_of_entries ->%list_elem_of_singleton. apply Hmax in Hi. unfold entry_le, key_le. simpl. lia.
  - rewrite !entries_Permutation, map_to_list_insert by done. apply Permutation_cons_append.
Qed.

Section history.
Context `{Sha256}.

Lemma auditSets_raise hi hi' previous l : hi ≤ hi' → auditSets hi previous l = Ok true → auditSets hi' previous l = Ok true.
Proof.
  intros Hle. revert previous. induction l as [|[k r] l IH]; intros previous E; [done|]. cbn [auditSets] in *.
  destruct (hi <? k) eqn:Ek; [done|]. replace (hi' <? k) with false by lia.
  apply bind_Ok in E as (valid & -> & E). cbn [mbind result_bind]. destruct valid; cbn [negb] in *; [|done].
  apply bind_Ok in E as (same & -> & E). cbn [mbind result_bind]. destruct same; [done|]. by apply IH.
Qed.

Lemma auditSets_snoc hi previous l k r : auditSets hi previous l = Ok true → k ≤ hi → isValid r = Ok true →
  (match last (option_list previous ++ l.*2) with None => Ok false | Some p => equalSerialized p r end) = Ok false → auditSets hi previous (l ++ [(k, r)]) = Ok true.
Proof.
  revert previous. induction l as [|[j x] l IH]; intros previous E Hk Hv Hs.
  - cbn [app auditSets]. replace (hi <? k) with false by lia. rewrite Hv. cbn [mbind result_bind negb].
    assert (match previous with None => Ok false | Some p => equalSerialized p r end = Ok false) as -> by (destruct previous; exact Hs). done.
  - cbn [app auditSets] in *. destruct (hi <? j) eqn:Ek; [done|]. apply bind_Ok in E as (valid & -> & E). cbn [mbind result_bind].
    destruct valid; cbn [negb] in *; [|done]. apply bind_Ok in E as (same & -> & E). cbn [mbind result_bind]. destruct same; [done|].
    apply IH; [done|done|done|]. simpl in *. etrans; [|exact Hs]. destruct previous; reflexivity.
Qed.

(** What the checks of a history that is not empty say. *)
Lemma isValid_inv h : firstHeight h ≠ 0 → SetHistory.isValid h = Ok true →
  firstHeight h ≤ highestHeight h ∧ is_Some (setsByHeight h !! firstHeight h) ∧ (∀ k r, setsByHeight h !! k = Some r → firstHeight h ≤ k ≤ highestHeight h) ∧
  auditSets (highestHeight h) None (entries (setsByHeight h)) = Ok true.
Proof.
  intros Hf E. unfold SetHistory.isValid in E. replace (firstHeight h =? 0) with false in E by lia.
  destruct (head (entries (setsByHeight h))) as [[b rb]|] eqn:Eh; [|done]. destruct (rbegin (setsByHeight h)) as [[e re]|] eqn:El; [|done]. simpl in E.
  destruct (_ || _) eqn:Ec; [done|]. apply HistoryFacts.rbegin_spec in El as [Hle Hmax].
  assert (b = firstHeight h) as -> by lia. pose proof (entries_sorted (setsByHeight h)) as Hs.
  destruct (entries (setsByHeight h)) as [|x l] eqn:Ee; [done|]. injection Eh as ->.
  assert (∀ k r, setsByHeight h !! k = Some r → firstHeight h ≤ k) as Hmin.
  { intros k r Hk. apply elem_of_entries in Hk. rewrite Ee in Hk. apply elem_of_cons in Hk as [[= -> _]|Hk]; [lia|].
    apply StronglySorted_cons in Hs as [Hall _]. rewrite Forall_forall in Hall. specialize (Hall _ Hk). exact Hall. }
  split_and!; [lia| | |done].
  - exists rb. apply elem_of_entries. rewrite Ee. left.
  - intros k r Hk. pose proof (Hmin k r Hk). pose proof (Hmax k r Hk). lia.
Qed.

Lemma auditSets_valid hi previous l k r : auditSets hi previous l = Ok true → (k, r) ∈ l → isValid r = Ok true.
Proof.
  revert previous. induction l as [|[j x] l IH]; intros previous E Hin; [by apply elem_of_nil in Hin|]. cbn [auditSets] in E.
  destruct (hi <? j); [done|]. apply bind_Ok in E as (valid & Hv & E). destruct valid; cbn [negb] in E; [|done].
  apply bind_Ok in E as (same & _ & E). destruct same; [done|]. apply elem_of_cons in Hin as [[= -> ->]|Hin]; [done|]. by apply (IH (Some x)).
Qed.

Lemma equalSerialized_Ok a b : wf a → wf b → ∃ c, equalSerialized a b = Ok c.
Proof. intros Ha Hb. unfold equalSerialized, serialize. rewrite !totalConsensusWeight_Ok by done. cbn [mbind result_bind]. by eexists. Qed.

Lemma equalSerialized_refl a : wf a → equalSerialized a a = Ok true.
Proof. intros Ha. unfold equalSerialized, serialize. rewrite !totalConsensusWeight_Ok by done. cbn [mbind result_bind]. by rewrite String.eqb_refl. Qed.

(** The last set of a history is the set of its highest height. *)
Lemma last_set h : firstHeight h ≠ 0 → 0 ≤ firstHeight h → SetHistory.isValid h = Ok true →
  HistoryFacts.wf h ∧ ∃ k r, rbegin (setsByHeight h) = Some (k, r) ∧ k ≤ highestHeight h ∧ setAt h (highestHeight h) = Ok r ∧ wf r ∧ last (entries (setsByHeight h)).*2 = Some r.
Proof.
  intros Hf Hf0 Hv. destruct (isValid_inv h Hf Hv) as (Hle & Hsome & Hr & Ha).
  assert (HistoryFacts.wf h) as Hwf by (right; split_and!; [lia|done|done|done]). split; [done|].
  destruct (rbegin (setsByHeight h)) as [[k r]|] eqn:E.
  - exists k, r. pose proof E as [Hk _]%HistoryFacts.rbegin_spec. split_and!; [done|by apply (Hr k r)| | |].
    + eapply HistoryFacts.setAt_floor; [unfold hasSet; lia|]. apply HistoryFacts.floor_beyond; [done|lia|lia|done].
    + apply isValid_wf. eapply auditSets_valid; [exact Ha|]. by apply elem_of_entries.
    + unfold rbegin in E. by rewrite fmap_last, E.
  - exfalso. unfold rbegin in E. apply last_None in E. destruct Hsome as [r Hs]. apply elem_of_entries in Hs. rewrite E in Hs. by apply elem_of_nil in Hs.
Qed.

(** Appending a set that is the last one, or any set at the start of an epoch. *)
Lemma append_set h next len : firstHeight h ≠ 0 → 0 ≤ firstHeight h → 0 < len → changesOnlyAtBoundaries h len = Ok true → highestHeight h < u64_max → wf next →
  (highestHeight h mod len = 0 ∨ setAt h (highestHeight h) = Ok next) →
  ∃ h', recordSet (highestHeight h + 1) (External next) h = Ok (true, h') ∧ changesOnlyAtBoundaries h' len = Ok true ∧
    firstHeight h' = firstHeight h ∧ highestHeight h' = highestHeight h + 1.
Proof.
  intros Hf Hf0 Hlen Hb Hmax Hn Hcase. unfold changesOnlyAtBoundaries in Hb. replace (len =? 0) with false in Hb by lia.
  apply bind_Ok in Hb as (valid & Hv & Hb). destruct valid; cbn [negb] in Hb; [|done]. injection Hb as Hb.
  destruct (last_set h Hf Hf0 Hv) as (_ & k & r & Erb & Hk & Hset & Hwr & Hlast). destruct (isValid_inv h Hf Hv) as (Hle & Hsome & Hr & Ha).
  unfold recordSet. replace (highestHeight h + 1 =? 0) with false by lia. cbn [deref mbind result_bind same_object]. rewrite Erb.
  rewrite (proj2 (isValid_wf next) Hn). cbn [mbind result_bind negb]. assert (hasSet h (highestHeight h + 1) = false) as -> by (unfold hasSet; lia).
  replace (firstHeight h =? 0) with false by lia. replace (highestHeight h =? u64_max) with false by lia. rewrite Z.eqb_refl. cbn [negb andb orb].
  destruct (equalSerialized_Ok r next Hwr Hn) as [same Es]. cbn [snd]. rewrite Es. cbn [fmap result_fmap mbind result_bind].
  assert (setsByHeight h !! (highestHeight h + 1) = None) as Hnone by (destruct (setsByHeight h !! (highestHeight h + 1)) eqn:E; [apply Hr in E; lia|done]).
  rewrite bool_decide_false by (rewrite Hnone; by intros [? ?]). cbn [negb]. rewrite andb_true_r.
  eexists. split; [reflexivity|]. split_and!; [|done|done]. unfold changesOnlyAtBoundaries. replace (len =? 0) with false by lia.
  assert (∃ x l, entries (setsByHeight h) = x :: l ∧ x.1 = firstHeight h) as (x & l & El & Hx).
  { unfold SetHistory.isValid in Hv. replace (firstHeight h =? 0) with false in Hv by lia.
    destruct (entries (setsByHeight h)) as [|x l] eqn:E; [done|]. exists x, l. split; [done|]. cbn [head] in Hv. rewrite Erb in Hv. destruct (_ || _) eqn:Ec in Hv; [done|]. lia. }
  unfold SetHistory.isValid. cbn [firstHeight highestHeight setsByHeight]. replace (firstHeight h =? 0) with false by lia. destruct same; cbn [negb].
  - rewrite El, Erb. cbn [head fst]. rewrite Hx, Z.eqb_refl. cbn [negb orb]. replace (_ || _) with false by lia.
    rewrite <- El, (auditSets_raise (highestHeight h) (highestHeight h + 1) None _ ltac:(lia) Ha). cbn [mbind result_bind negb]. by rewrite <- Hb.
  - assert (highestHeight h mod len = 0) as Hmod.
    { destruct Hcase as [?|Hc]; [done|]. rewrite Hset in Hc. injection Hc as ->. rewrite equalSerialized_refl in Es by done. done. }
    unfold rbegin. rewrite entries_insert_max by (intros j y Hj; apply Hr in Hj; lia). rewrite last_snoc, El. cbn [app head fst]. rewrite Hx, Z.eqb_refl. cbn [negb orb].
    replace (_ || _) with false by lia. rewrite app_comm_cons, <- El. rewrite auditSets_snoc; [|apply (auditSets_raise (highestHeight h)); [lia|exact Ha]|lia|by apply isValid_wf|].
    + cbn [mbind result_bind negb]. rewrite El in *. cbn [app tail] in *. f_equal. rewrite forallb_app, Hb. cbn [forallb fst andb]. rewrite andb_true_r.
      replace (highestHeight h + 1 - 1) with (highestHeight h) by lia. by rewrite Hmod.
    + change (option_list None ++ (entries (setsByHeight h)).*2) with ((entries (setsByHeight h)).*2). by rewrite Hlast.
Qed.
End history.
End NextSetFacts.

(** ** What the validator sets promise *)

Module ValidatorSetProperties.
Import Validators ValidatorFacts SetSchedule ScheduleFacts WeightUpdater BoundaryFacts.

(** C36. Whatever the registry of validators has become, the set of the next epoch exists and is near the one before:
    the projection never throws on audited registries, its weights lie between the old and the wanted ones, at most
    33.33% of the voting weight changes, and two thirds of the old weight are still held by the same validators. *)
Theorem projection_is_bounded `{Sha256} (previous target : ValidatorRegistry) (effectiveEpoch total : Z)
    (Hprev : isValid previous = Ok true) (Htarget : isValid target = Ok true) (Etotal : totalConsensusWeight previous = Ok total)
    (Hpos : 0 < total ≤ i64_max) (Hepoch : effectiveEpoch ≠ 0) :
  ∃ next, project previous target effectiveEpoch = Ok next ∧ isValid next = Ok true ∧
    (∀ a, Z.min (consensusWeightFor previous a) (consensusWeightFor target a) ≤ consensusWeightFor next a ≤
          Z.max (consensusWeightFor previous a) (consensusWeightFor target a)) ∧
    10000 * changedWeight previous target next ≤ 3333 * total ∧
    2 * total ≤ 3 * sum_by (λ a, Z.min (consensusWeightFor previous a) (consensusWeightFor next a)) (validatorAddresses previous).
Proof.
  apply isValid_wf in Hprev, Htarget. pose proof (outcome_projected previous target effectiveEpoch total Hprev Htarget Etotal ltac:(lia) ltac:(lia)) as [Hwf Hdom Hbt Hch].
  set (next := outcome _ _ _ _) in *. exists next.
  assert (10000 * max_churn total ≤ 3333 * total) as Hmc by (unfold max_churn; pose proof (Z.mul_div_le (total * 3333) 10000); lia).
  split_and!; [apply project_outcome; (assumption || lia)|by apply isValid_wf|exact Hbt|unfold changedWeight; lia|].
  assert (sum_by (λ a, Z.min (consensusWeightFor previous a) (consensusWeightFor next a)) (validatorAddresses previous) =
          sum_by (λ a, Z.min (consensusWeightFor previous a) (consensusWeightFor next a)) (allAddresses previous target)) as ->.
  { by apply common_weight. }
  pose proof (common_bound (consensusWeightFor previous) (consensusWeightFor next) (allAddresses previous target)) as Hc.
  rewrite (total_over previous target previous), <- (total_value previous total Hprev Etotal) in Hc by (intros a Ha; apply elem_of_all; by left). lia.
Qed.

(** When the wanted change fits into the budget and every validator of the registry has reached its activation
    epoch, the next set has exactly the weights of the registry: exits, entries, new stakes and key rotations take
    effect together. *)
Theorem projection_reaches_target `{Sha256} (previous target : ValidatorRegistry) (effectiveEpoch total : Z)
    (Hprev : isValid previous = Ok true) (Htarget : isValid target = Ok true) (Etotal : totalConsensusWeight previous = Ok total)
    (Hpos : 0 < total ≤ i64_max) (Hepoch : effectiveEpoch ≠ 0)
    (Hmature : ∀ a e, target !! a = Some e → Registration.activationEpoch (Entry.registrationRecord e) ≤ effectiveEpoch)
    (Hfits : 10000 * changedWeight previous target target ≤ 3333 * total) :
  ∃ next, project previous target effectiveEpoch = Ok next ∧ ∀ a, consensusWeightFor next a = consensusWeightFor target a.
Proof.
  apply isValid_wf in Hprev, Htarget. exists (outcome previous target effectiveEpoch total). split; [apply project_outcome; (assumption || lia)|].
  intros a. apply outcome_reaches; try (assumption || lia). unfold max_churn, changedWeight in *. apply Z.div_le_lower_bound; lia.
Qed.

(** When a third of the voting weight is less than the minimal stake, no validator can join or leave: whatever the
    registry says, also that a validator was jailed or has exited, the next set has the same members. *)
Theorem small_sets_are_frozen `{Sha256} (previous target next : ValidatorRegistry) (effectiveEpoch total : Z)
    (Hprev : isValid previous = Ok true) (Htarget : isValid target = Ok true) (Etotal : totalConsensusWeight previous = Ok total)
    (Hpos : 0 < total) (Hsmall : 3333 * total < 10000 * MIN_VALIDATOR_STAKE_RAW_UNITS) (E : project previous target effectiveEpoch = Ok next) :
  ∀ a, isEligibleForConsensus next a = isEligibleForConsensus previous a.
Proof.
  apply isValid_wf in Hprev, Htarget. destruct (decide (effectiveEpoch = 0)) as [->|Hepoch].
  { exfalso. unfold project in E. rewrite (proj2 (isValid_wf previous) Hprev) in E. cbn [mbind result_bind negb] in E. rewrite (proj2 (isValid_wf target) Htarget) in E.
    cbn [mbind result_bind negb] in E. rewrite Etotal in E. cbn [mbind result_bind Z.eqb] in E. by rewrite orb_true_r in E. }
  assert (total ≤ i64_max) as Hmax by (unfold MIN_VALIDATOR_STAKE_RAW_UNITS, i64_max in *; lia).
  pose proof (outcome_projected previous target effectiveEpoch total Hprev Htarget Etotal Hpos Hmax) as [_ Hdom _ Hch].
  rewrite (project_outcome previous target effectiveEpoch total) in E by assumption. injection E as <-.
  intros a. apply same_eligibility. destruct (decide (a ∈ allAddresses previous target)) as [Ha|Ha].
  - pose proof (sum_by_elem_le (λ a, Z.abs (consensusWeightFor previous a - consensusWeightFor (outcome previous target effectiveEpoch total) a))
      (allAddresses previous target) a ltac:(intros; lia) Ha) as Hle.
    assert (max_churn total < MIN_VALIDATOR_STAKE_RAW_UNITS) by (unfold max_churn; apply Z.div_lt_upper_bound; lia). simpl in Hle.
    pose proof (weightFor_min previous a). pose proof (weightFor_min (outcome previous target effectiveEpoch total) a). lia.
  - rewrite !weightFor. destruct (outcome _ _ _ _ !! a) eqn:E1; [exfalso; apply Ha, Hdom; by rewrite E1|].
    destruct (previous !! a) eqn:E2; [exfalso; apply Ha, elem_of_all; left; by rewrite E2|]. done.
Qed.

(** The history of validator sets advances with every finalized height: the set of the next height is recorded, it
    is the previous set inside an epoch and the bounded projection at its end, no recorded set changes, and sets
    change at the first height of an epoch only. *)
Theorem validator_sets_advance `{Sha256} (h : SetHistory.t) (target previous : ValidatorRegistry) (total : Z)
    (Hfirst : 0 < SetHistory.firstHeight h) (Hmax : SetHistory.highestHeight h < u64_max)
    (Hb : SetHistory.changesOnlyAtBoundaries h Window.NODO_VALIDATOR_EPOCH_BLOCKS = Ok true)
    (Hset : SetHistory.setAt h (SetHistory.highestHeight h) = Ok previous)
    (Htarget : isValid target = Ok true) (Etotal : totalConsensusWeight previous = Ok total) (Hpos : 0 < total ≤ i64_max) :
  let height := SetHistory.highestHeight h in
  ∃ h' stored next, recordNext height target h = Ok (true, h') ∧
    SetHistory.changesOnlyAtBoundaries h' Window.NODO_VALIDATOR_EPOCH_BLOCKS = Ok true ∧
    SetHistory.highestHeight h' = height + 1 ∧ (∀ k, SetHistory.hasSet h k = true → SetHistory.setAt h' k = SetHistory.setAt h k) ∧
    SetHistory.setAt h' (height + 1) = Ok stored ∧ HistoryFacts.same_set stored next ∧
    (if Window.isBoundary height then project previous target (height / Window.NODO_VALIDATOR_EPOCH_BLOCKS + 1) = Ok next else next = previous).
Proof.
  intros height. pose proof Hb as Hv. unfold SetHistory.changesOnlyAtBoundaries in Hv. cbn [Z.eqb] in Hv. apply bind_Ok in Hv as (valid & Hv & Hrest).
  destruct valid; [clear Hrest|done]. destruct (NextSetFacts.last_set h ltac:(lia) ltac:(lia) Hv) as (Hwf & k & r & _ & Hk & Hset' & Hwr & _).
  rewrite Hset in Hset'. injection Hset' as <-. destruct (NextSetFacts.isValid_inv h ltac:(lia) Hv) as (Hle & _). apply isValid_wf in Htarget.
  assert (0 ≤ height / Window.NODO_VALIDATOR_EPOCH_BLOCKS) as Hdiv by (apply Z.div_pos; unfold Window.NODO_VALIDATOR_EPOCH_BLOCKS, height; lia).
  set (epoch := height / Window.NODO_VALIDATOR_EPOCH_BLOCKS + 1).
  set (next := if Window.isBoundary height then outcome previous target epoch total else previous).
  assert (wf next) as Hnext.
  { unfold next. destruct (Window.isBoundary height); [|done]. apply outcome_projected; (assumption || lia). }
  assert (project previous target epoch = Ok (outcome previous target epoch total)) as Ep by (apply project_outcome; (assumption || lia)).
  destruct (NextSetFacts.append_set h next Window.NODO_VALIDATOR_EPOCH_BLOCKS) as (h' & Er & Hb' & _ & Hh'); [lia|lia|done|done|done|done| |].
  { unfold next, Window.isBoundary, height. destruct (_ mod _ =? 0) eqn:Em; [left; lia|right]. by rewrite andb_false_r. }
  pose proof (HistoryFacts.recordSet_recorded h (SetHistory.highestHeight h + 1) (External next) h' Hwf ltac:(lia) Er) as (_ & Hold & reg & stored & Ereg & Est & Hsame). injection Ereg as <-.
  exists h', stored, next. split_and!; [|done|done|done|done|done|].
  - unfold recordNext. replace (height =? 0) with false by lia. replace (height =? u64_max) with false by lia.
    assert (SetHistory.hasSet h height = true) as -> by (unfold SetHistory.hasSet, height; lia). cbn [negb orb]. fold height in Hset. rewrite Hset. cbn [mbind result_bind].
    fold epoch. unfold next in Er. fold height in Er. destruct (Window.isBoundary height); [rewrite Ep|]; cbn [mbind result_bind]; exact Er.
  - unfold next. destruct (Window.isBoundary height); [exact Ep|done].
Qed.

(** C37. The last block of an epoch can be finalized.  Take a staking registry that the executor reaches with no deposit
    to a rotated-away key, and an audited validator registry, with amounts and weights within an int64 and no validator
    registered in the future.  At a boundary height, stake synchronization and the lifecycle transition return; each
    validator then has its active stake, the validators that matured with enough stake are active, exits that waited an
    epoch are complete, and the registry is audited. *)
Theorem epoch_boundary_never_stalls `{Sha256} (staking : Staking.t) (r : ValidatorRegistry) (height now total : Z)
    (Hstaking : Executor.reachable staking) (Hbonded : StakingFacts.totalBonded staking ≤ i64_max)
    (Hvalid : isValid r = Ok true) (Etotal : totalConsensusWeight r = Ok total) (Htotal : total ≤ i64_max)
    (Hnow : 0 < now) (Hpast : ∀ a e, r !! a = Some e → Registration.registeredAt (Entry.registrationRecord e) ≤ now)
    (Hb : Window.isBoundary height = true) (Hh : 0 < height < u64_max) :
  ∃ r1 r2 epoch, synchronizeAtEpochBoundary height now staking r = (Ok true, r1) ∧ applyValidatorEpochTransition height now r1 = (Ok tt, r2) ∧
    isValid r2 = Ok true ∧ effectiveEpochForBoundary height = Ok epoch ∧ (∀ a, r !! a = None → r2 !! a = None) ∧
    ∀ a e, r !! a = Some e → ∃ stake e2, Staking.activeStakeFor a staking = Ok stake ∧ r2 !! a = Some e2 ∧
      Entry.registrationRecord e2 = Entry.registrationRecord e ∧ Entry.ownerAddress e2 = Entry.ownerAddress e ∧
      Entry.stakeAmount e2 = stake ∧ Entry.status e2 = status_after epoch height stake e.
Proof.
  apply isValid_wf in Hvalid. apply StakingProperties.staking_reachable_wf in Hstaking as Hwf. rewrite (totalConsensusWeight_Ok r Hvalid) in Etotal. injection Etotal as <-.
  set (stake a := match Staking.activeStakeFor a staking with Ok s => s | Throw _ => 0 end).
  set (keys := validatorAddresses r). set (cap a := from_option weight 0 (r !! a) + stake a).
  assert (NoDup keys) as Hnd by apply NoDup_fst_entries.
  assert (∀ a, Staking.activeStakeFor a staking = Ok (stake a) ∧ 0 ≤ stake a ≤ bondedOf staking a ∧ stake a ≤ i64_max) as Hs.
  { intros a. destruct (active_defined staking a Hwf) as (s & E & ?). unfold stake. by rewrite E. }
  assert (∀ a, 0 ≤ from_option weight 0 (r !! a)) as Hw0 by (intros a; destruct (r !! a); simpl; [apply weight_nonneg|lia]).
  assert (∀ a e, r !! a = Some e → a ∈ keys) as Hkeys by (intros a e E; apply list_elem_of_fmap; exists (a, e); split; [done|by apply elem_of_entries]).
  assert (sum_by cap keys ≤ u64_max) as Hsum.
  { unfold cap. rewrite sum_by_plus. pose proof (sum_over_keys weight r keys Hnd ltac:(intros a [e E]; by eapply Hkeys)) as Hold.
    pose proof (stake_sum staking stake keys Hwf Hnd ltac:(intros a; apply Hs)) as Hnew. unfold i64_max, u64_max in *. lia. }
  assert (∀ a, a ∈ keys → 0 ≤ cap a) as Hcap by (intros a _; unfold cap; specialize (Hw0 a); destruct (Hs a) as (_ & ? & _); lia).
  assert (∀ a, a ∈ keys → Staking.activeStakeFor a staking = Ok (stake a) ∧ 0 ≤ stake a ≤ cap a ∧ stake a ≤ i64_max) as Hstake.
  { intros a _. destruct (Hs a) as (? & ? & ?). specialize (Hw0 a). unfold cap. split_and!; [done|lia|lia|done]. }
  assert (good keys cap now r) as Hg.
  { intros a e E. split_and!; [by eapply Hkeys|by apply (proj1 Hvalid)|by apply (Hpast a)|]. unfold cap. rewrite E. simpl. destruct (Hs a) as (_ & ? & _). lia. }
  destruct (sync_run keys cap now Hnd Hcap Hsum Hnow staking stake Hstake r Hg (StakingFacts.wf_audit staking Hwf) height Hb ltac:(lia)) as (r1 & E1 & Hg1 & Hl1).
  destruct (transition_run keys cap now Hnd Hcap Hsum Hnow r1 height Hg1) as (r2 & epoch & Ee & E2 & Hg2 & Hl2); [|done|done|].
  { intros a e. rewrite Hl1. destruct (r !! a) as [x|] eqn:Ex; simpl; [|done]. intros [= <-]. destruct (Hstake a ltac:(by eapply Hkeys)) as (_ & ? & _).
    unfold synced. destruct (Entry.stakeAmount x =? stake a) eqn:Eq; simpl; lia. }
  exists r1, r2, epoch. split_and!; [done|done|by apply isValid_wf, (good_wf keys cap now)|done|intros a Ea; by rewrite Hl2, Hl1, Ea|].
  intros a e Ea. exists (stake a), (advanced now epoch height (synced now stake a e)). split_and!; [by destruct (Hs a)|by rewrite Hl2, Hl1, Ea|..].
  all: apply advanced_fields.
Qed.

(** *** Witnesses *)

#[local] Instance toy : Sha256 := CryptoProperties.toy_sha256.

Definition enroll (stake : Z) (names : list string) : ValidatorRegistry :=
  run_all ((λ n, OpRegister (ValidatorProperties.record_for (ValidatorProperties.key n)) stake "owner") <$> names) ∅.
Definition at_ (name : string) : string := ValidatorProperties.address_of (ValidatorProperties.key name).
Definition four : ValidatorRegistry := enroll 2000000 ["a"; "bb"; "ccc"; "dddd"].
Definition four_jailed : ValidatorRegistry := run_all [OpJail (at_ "a") 9 1700000001] four.
Definition two : ValidatorRegistry := enroll 1000000 ["a"; "bb"].
Definition two_jailed : ValidatorRegistry := run_all [OpJail (at_ "a") 9 1700000001] two.

Lemma four_facts : isValid four = Ok true ∧ isValid four_jailed = Ok true ∧ totalConsensusWeight four = Ok 8000000.
Proof. vm_compute. done. Qed.

Lemma projection_is_bounded_witness : ∃ next, project four four_jailed 2 = Ok next ∧ isValid next = Ok true.
Proof.
  destruct four_facts as (H1 & H2 & H3). destruct (projection_is_bounded four four_jailed 2 8000000 H1 H2 H3 ltac:(unfold i64_max; lia) ltac:(lia)) as (next & E & Hv & _).
  exists next. split; [exact E|exact Hv].
Defined.

Lemma four_mature : map_Forall (λ _ e, Registration.activationEpoch (Entry.registrationRecord e) ≤ 2) four_jailed.
Proof. apply (bool_decide_eq_true_1 (map_Forall _ _)). vm_compute. reflexivity. Qed.

Lemma four_fits : 10000 * changedWeight four four_jailed four_jailed ≤ 3333 * 8000000 ∧ consensusWeightFor four_jailed (at_ "a") = 0.
Proof. vm_compute. split; [discriminate|reflexivity]. Qed.

Lemma projection_reaches_target_witness : ∃ next, project four four_jailed 2 = Ok next ∧ consensusWeightFor next (at_ "a") = 0.
Proof.
  destruct four_facts as (H1 & H2 & H3), four_fits as [H4 H5].
  destruct (projection_reaches_target four four_jailed 2 8000000 H1 H2 H3 ltac:(unfold i64_max; lia) ltac:(lia) (λ a e Ea, four_mature a e Ea) H4) as (next & E & Hw).
  exists next. split; [exact E|]. rewrite (Hw (at_ "a")). exact H5.
Defined.

Definition two_next : ValidatorRegistry := match project two two_jailed 2 with Ok n => n | Throw _ => ∅ end.

Lemma two_facts : isValid two = Ok true ∧ isValid two_jailed = Ok true ∧ totalConsensusWeight two = Ok 2000000 ∧
  isEligibleForConsensus two (at_ "a") = true ∧ isEligibleForConsensus two_jailed (at_ "a") = false.
Proof. vm_compute. done. Qed.

Lemma two_projects : project two two_jailed 2 = Ok two_next.
Proof. unfold two_next. destruct (project two two_jailed 2) eqn:E; [reflexivity|]. apply (f_equal (λ r, match r with Ok _ => true | Throw _ => false end)) in E. vm_compute in E. discriminate E. Qed.

(** The jailed validator is still eligible in the next set. *)
Lemma small_sets_are_frozen_witness : isEligibleForConsensus two_jailed (at_ "a") = false ∧ isEligibleForConsensus two_next (at_ "a") = true.
Proof.
  destruct two_facts as (H1 & H2 & H3 & H4 & H5). split; [exact H5|].
  rewrite (small_sets_are_frozen two two_jailed two_next 2 2000000 H1 H2 H3 ltac:(lia) ltac:(unfold MIN_VALIDATOR_STAKE_RAW_UNITS; lia) two_projects (at_ "a")). exact H4.
Defined.

Definition boundary_history : SetHistory.t := SetHistory.mk 1 43200 {[ 1 := four ]}.

Lemma boundary_facts : SetHistory.changesOnlyAtBoundaries boundary_history Window.NODO_VALIDATOR_EPOCH_BLOCKS = Ok true ∧
  SetHistory.setAt boundary_history 43200 = Ok four.
Proof. split; [vm_compute; reflexivity|reflexivity]. Qed.

Lemma validator_sets_advance_witness : ∃ h', recordNext 43200 four_jailed boundary_history = Ok (true, h') ∧ SetHistory.highestHeight h' = 43201.
Proof.
  destruct four_facts as (H1 & H2 & H3), boundary_facts as [H4 H5].
  destruct (validator_sets_advance boundary_history four_jailed four 8000000 ltac:(simpl; lia) ltac:(unfold u64_max; simpl; lia) H4 H5 H2 H3 ltac:(unfold i64_max; lia))
    as (h' & stored & next & E & _ & Eh & _).
  exists h'. split; [exact E|exact Eh].
Defined.

Definition staked_a : Staking.t :=
  Executor.atomically (Executor.Activate 86401) (Executor.atomically (Executor.Deposit "owner" (at_ "a") 3000000 5 false "tx1") Staking.empty).

Lemma staked_reachable : Executor.reachable staked_a.
Proof. unfold staked_a. apply Executor.reachable_step; [|exact I]. apply Executor.reachable_step; [constructor|split; [reflexivity|lia]]. Qed.

Lemma staked_facts : StakingFacts.totalBonded staked_a ≤ i64_max ∧ Staking.activeStakeFor (at_ "a") staked_a = Ok 3000000 ∧ is_Some (four !! at_ "a").
Proof. vm_compute. split; [discriminate|]. split; [reflexivity|]. eexists. reflexivity. Qed.

Lemma four_past : map_Forall (λ _ e, Registration.registeredAt (Entry.registrationRecord e) ≤ 1700000009) four.
Proof. apply (bool_decide_eq_true_1 (map_Forall _ _)). vm_compute. reflexivity. Qed.

Lemma epoch_boundary_never_stalls_witness : ∃ r1 r2 e, synchronizeAtEpochBoundary 86400 1700000009 staked_a four = (Ok true, r1) ∧
  applyValidatorEpochTransition 86400 1700000009 r1 = (Ok tt, r2) ∧ r2 !! at_ "a" = Some e ∧ Entry.stakeAmount e = 3000000.
Proof.
  destruct four_facts as (H1 & _ & H3), staked_facts as (H4 & H5 & [e0 H6]).
  destruct (epoch_boundary_never_stalls staked_a four 86400 1700000009 8000000 staked_reachable H4 H1 H3 ltac:(unfold i64_max; lia) ltac:(lia)
    (λ a e Ea, four_past a e Ea) ltac:(reflexivity) ltac:(unfold u64_max; lia)) as (r1 & r2 & epoch & E1 & E2 & _ & _ & _ & Hall).
  destruct (Hall (at_ "a") e0 H6) as (s & e & Es & Ee & _ & _ & Hs & _). exists r1, r2, e. rewrite H5 in Es. injection Es as Es.
  split; [exact E1|]. split; [exact E2|]. split; [exact Ee|]. rewrite Hs. symmetry. exact Es.
Defined.
End ValidatorSetProperties.
