(* ===== verification/StateTrees.v ===== *)
(** * core: Merkle trees of records and accounts

    Models src/src/core/MerkleTree.cpp, src/src/core/SparseMerkleTree.cpp,
    src/src/core/StateRootCalculator.cpp, the proofs of records that
    src/src/node/LightClientService.cpp builds, and the checks of an account proof in
    src/src/node/LightClientProtocol.cpp.  A block commits to its records with an ordered
    tree, the state root commits to the accounts with a sparse tree of depth 256 and to
    the other domains with a sorted tree. *)

From Stdlib Require Import Ascii.
From S2P Require Import Prelude Utils Crypto CoinLots CoinLotTransfer LedgerState ValidatorRegistry Encoding Merkle Transactions.

(** ** Binary trees over lists *)

Module CoreMerkle.
Definition LEAF_PREFIX : string := "NODO_MERKLE_LEAF:".
Definition NODE_PREFIX : string := "NODO_MERKLE_NODE:".
Definition EMPTY_PAYLOAD : string := "NODO_MERKLE_EMPTY".

Record MerkleProofStep := Step { siblingHash : string; siblingIsLeft : bool }.
Record MerkleProof := Proof_ { leafHash : string; steps : list MerkleProofStep }.
Definition emptyProof : MerkleProof := Proof_ "" [].

Section merkle.
Context `{Sha256}.

Definition hashLeaf (payload : string) : string := Hash.hashBytes (LEAF_PREFIX +:+ payload).
Definition hashNode (l r : string) : string := Hash.hashBytes (NODE_PREFIX +:+ l +:+ r).

(** One level of the tree: an odd last node is paired with itself. *)
Fixpoint nextLayer (hashes : list string) : list string :=
  match hashes with
  | l :: r :: rest => hashNode l r :: nextLayer rest
  | [l] => [hashNode l l]
  | [] => []
  end.

(** [hashLayer]; the fuel is the number of hashes, which every level at least halves. *)
Fixpoint hashLayerFrom (fuel : nat) (hashes : list string) : string :=
  match hashes with
  | [] => Hash.hashBytes EMPTY_PAYLOAD
  | [h] => h
  | _ => match fuel with O => "" | S fuel => hashLayerFrom fuel (nextLayer hashes) end
  end.
Definition hashLayer (hashes : list string) : string := hashLayerFrom (length hashes) hashes.

Definition buildRoot (leafPayloads : list string) : string :=
  if bool_decide (leafPayloads = []) then Hash.hashBytes EMPTY_PAYLOAD
  else hashLayer (hashLeaf <$> merge_sort String.le leafPayloads).

Definition orderedLeaf (index : Z) (payload : string) : string :=
  "NODO_BLOCK_RECORD_0.6:" +:+ to_string index +:+ ":" +:+ to_string (string_size payload) +:+ ":" +:+ payload.
Definition hashOrderedLeaf (index : Z) (payload : string) : string := hashLeaf (orderedLeaf index payload).

Definition orderedLeaves (leafPayloads : list string) : list string := imap (λ i p, hashOrderedLeaf (Z.of_nat i) p) leafPayloads.
Definition buildOrderedRoot (leafPayloads : list string) : string := hashLayer (orderedLeaves leafPayloads).

Definition applyStep (current : string) (s : MerkleProofStep) : string :=
  if siblingIsLeft s then hashNode (siblingHash s) current else hashNode current (siblingHash s).
Definition reconstructRoot (p : MerkleProof) : string := foldl applyStep (leafHash p) (steps p).
Definition isValid (p : MerkleProof) : bool := negb (empty_string (leafHash p)).
Definition verify (p : MerkleProof) (expectedRoot : string) : bool := isValid p && String.eqb (reconstructRoot p) expectedRoot.

(** The loop of [buildOrderedMerkleProof] from one level to the root. *)
Fixpoint climb (fuel : nat) (level : list string) (targetIndex : nat) : list MerkleProofStep :=
  match fuel with
  | O => []
  | S fuel =>
      if (length level <=? 1)%nat then []
      else
        let isRightChild := (targetIndex mod 2 =? 1)%nat in
        let siblingIndex := if isRightChild then (targetIndex - 1)%nat else (targetIndex + 1)%nat in
        let siblingIndex := if (length level <=? siblingIndex)%nat then targetIndex else siblingIndex in
        Step (nth siblingIndex level "") isRightChild :: climb fuel (nextLayer level) (targetIndex / 2)
  end.

Definition buildOrderedMerkleProof (payloads : list string) (targetIndex : nat) : MerkleProof :=
  if bool_decide (payloads = []) || (length payloads <=? targetIndex)%nat then emptyProof
  else
    let level := orderedLeaves payloads in
    Proof_ (nth targetIndex level "") (climb (length level) level targetIndex).
End merkle.
End CoreMerkle.

(** ** The sparse tree *)

Module Sparse.
Import CoreMerkle.
Definition DEPTH : nat := 256.

(** A [std::unique_ptr<Node>]. *)
Inductive Node := nullptr | MkNode (hash : string) (left right : Node).

Definition leftOf (node : Node) : Node := match node with nullptr => nullptr | MkNode _ l _ => l end.
Definition rightOf (node : Node) : Node := match node with nullptr => nullptr | MkNode _ _ r => r end.

Record t := mk { m_root : Node; m_defaultHashes : list string }.

Section sparse.
Context `{Sha256}.

(** The hashes of empty subtrees by level, from level 0. *)
Fixpoint defaultsFrom (n : nat) (h : string) : list string :=
  h :: match n with O => [] | S n => defaultsFrom n (hashNode h h) end.
Definition precomputeDefaultHashes : list string := defaultsFrom DEPTH (Hash.hashBytes "").

Definition empty : t := mk nullptr precomputeDefaultHashes.

Definition getNodeHash (defaults : list string) (node : Node) (level : nat) : string :=
  match node with
  | nullptr => nth level defaults ""
  | MkNode hash _ _ => if empty_string hash then nth level defaults "" else hash
  end.

(** The bits of one character, most significant first. *)
Definition nibbleBits (c : ascii) : result (list bool) :=
  let v := Hex.code c in
  let bits n := [Z.testbit n 3; Z.testbit n 2; Z.testbit n 1; Z.testbit n 0] in
  if (48 <=? v) && (v <=? 57) then Ok (bits (v - 48))
  else if (97 <=? v) && (v <=? 102) then Ok (bits (v - 97 + 10))
  else if (65 <=? v) && (v <=? 70) then Ok (bits (v - 65 + 10))
  else Throw (invalid_argument "Invalid hex character in key").

Fixpoint bitsOf (hex : string) : result (list bool) :=
  match hex with
  | EmptyString => Ok []
  | String c hex => b ← nibbleBits c; rest ← bitsOf hex; Ok (b ++ rest)
  end.

Definition hexToBits (hex : string) : result (list bool) :=
  throw_if (negb (string_size hex =? 64)) (invalid_argument "Key hex must be exactly 64 characters (256 bits)");;
  bitsOf hex.

(** The level is the number of bits that are left. *)
Fixpoint updateRecursive (defaults : list string) (node : Node) (bits : list bool) (valueHash : string) : Node :=
  match bits with
  | [] => MkNode valueHash (leftOf node) (rightOf node)
  | bit :: bits =>
      let l := if bit then leftOf node else updateRecursive defaults (leftOf node) bits valueHash in
      let r := if bit then updateRecursive defaults (rightOf node) bits valueHash else rightOf node in
      MkNode (hashNode (getNodeHash defaults l (length bits)) (getNodeHash defaults r (length bits))) l r
  end.

Definition update (keyHex valueHash : string) (s : t) : result t :=
  bits ← hexToBits keyHex; Ok (mk (updateRecursive (m_defaultHashes s) (m_root s) bits valueHash) (m_defaultHashes s)).

Definition root (s : t) : string := getNodeHash (m_defaultHashes s) (m_root s) DEPTH.

(** The hash of a sibling, without the test for an empty one. *)
Definition siblingOf (defaults : list string) (node : Node) (level : nat) : string :=
  match node with nullptr => nth level defaults "" | MkNode hash _ _ => hash end.

Fixpoint collectProofSteps (defaults : list string) (node : Node) (bits : list bool) : list MerkleProofStep :=
  match bits with
  | [] => []
  | bit :: bits =>
      if bit then Step (siblingOf defaults (leftOf node) (length bits)) true :: collectProofSteps defaults (rightOf node) bits
      else Step (siblingOf defaults (rightOf node) (length bits)) false :: collectProofSteps defaults (leftOf node) bits
  end.

Fixpoint descend (node : Node) (bits : list bool) : Node :=
  match bits with
  | [] => node
  | bit :: bits => match node with nullptr => nullptr | _ => descend (if bit then rightOf node else leftOf node) bits end
  end.

Definition generateProof (keyHex : string) (s : t) : result MerkleProof :=
  bits ← hexToBits keyHex;
  Ok (Proof_ (getNodeHash (m_defaultHashes s) (descend (m_root s) bits) 0) (reverse (collectProofSteps (m_defaultHashes s) (m_root s) bits))).
End sparse.
End Sparse.

(** ** The state root *)

Module StateRoot.
Import CoreMerkle.

Section roots.
Context `{Sha256}.

Definition accountSmtKey (address : string) : string := Hash.hashCString address.

Definition accountLeafPayload (a : AccountState.t) : string :=
  "NODO_ACCOUNT_LEAF_V2{address=" +:+ AccountState.address a +:+ ";balance=" +:+ to_string (AccountState.balance a) +:+
  ";nonce=" +:+ to_string (AccountState.nonce a) +:+ "}".

Definition buildAccountStateTree (view : AccountStateView.t) : result Sparse.t :=
  foldR (λ smt a, Sparse.update (accountSmtKey (AccountState.address a)) (hashLeaf (accountLeafPayload a)) smt) Sparse.empty
    (AccountStateView.accounts view).

Definition validatorLeafPayload (e : ValidatorRegistryEntry) : string :=
  "NODO_VALIDATOR_STAKE_LEAF_V1{address=" +:+ Registration.validatorAddress (Entry.registrationRecord e) +:+
  ";weight=" +:+ to_string (Entry.consensusWeight e) +:+ "}".

Definition buildValidatorStateTree (registry : ValidatorRegistry) : result Sparse.t :=
  foldR (λ smt e, Sparse.update (Hash.hashCString e.1) (hashLeaf (validatorLeafPayload e.2)) smt) Sparse.empty (entries registry).

Definition calculateAccountStateRoot (view : AccountStateView.t) : result string :=
  if negb (AccountStateView.isValid view) then Ok "" else Sparse.root <$> buildAccountStateTree view.

Definition canonicalAccountStatePayload (view : AccountStateView.t) : result string :=
  if negb (AccountStateView.isValid view) then Ok ""
  else
    root ← calculateAccountStateRoot view;
    Ok ("NODO_ACCOUNT_STATE_ROOT_V2{accountCount=" +:+ to_string (Z.of_nat (length (AccountStateView.accounts view))) +:+ ";merkleRoot=" +:+ root +:+ "}").

Definition calculateValidatorStateRoot (registry : ValidatorRegistry) : result string :=
  valid ← Validators.isValid registry;
  if negb valid then Ok "" else Sparse.root <$> buildValidatorStateTree registry.

Definition domainLeaf (domain payload : string) : result string :=
  Writer.byteString (Writer.writeString "NODO_STATE_DOMAIN_V2";; Writer.writeString domain;; Writer.writeString payload).

(** The loop over the domains; [None] is [return ""]. *)
Fixpoint domainLeaves (domains : list (string * string)) : result (option (list string)) :=
  match domains with
  | [] => Ok (Some [])
  | (domain, payload) :: domains =>
      if empty_string domain || String.eqb domain "accounts" || empty_string payload then Ok None
      else
        leaf ← domainLeaf domain payload;
        rest ← domainLeaves domains;
        Ok (option_map (cons leaf) rest)
  end.

Definition calculateProtocolStateRoot (view : AccountStateView.t) (domains : gmap string string) : result string :=
  accountRoot ← calculateAccountStateRoot view;
  if empty_string accountRoot then Ok ""
  else if bool_decide (domains = ∅) then Ok accountRoot
  else
    leaf ← domainLeaf "accounts" accountRoot;
    leaves ← domainLeaves (entries domains);
    Ok (match leaves with None => "" | Some leaves => buildRoot (leaf :: leaves) end).

Definition accountInclusionProof (view : AccountStateView.t) (address : string) : result MerkleProof :=
  if negb (AccountStateView.isValid view) || negb (AccountStateView.hasAccount view address) then Ok emptyProof
  else smt ← buildAccountStateTree view; Sparse.generateProof (accountSmtKey address) smt.
End roots.
End StateRoot.

(** ** Facts about hashes and layers *)

Module TreeFacts.
Import CoreMerkle MerkleFacts.

Lemma list_pair_ind {A} (P : list A → Prop) : P [] → (∀ a, P [a]) → (∀ a b l, P l → P (a :: b :: l)) → ∀ l, P l.
Proof.
  intros H0 H1 H2. fix IH 1. intros [|a [|b l]]; [exact H0|apply H1|apply H2, IH].
Qed.

Lemma hexEncode_inj a b : Forall byte a → Forall byte b → Hex.hexEncode a = Hex.hexEncode b → a = b.
Proof. intros Ha Hb E. pose proof (CryptoFacts.hexEncode_decode a Ha) as H1. rewrite E, CryptoFacts.hexEncode_decode in H1 by done. by injection H1. Qed.

Section hashes.
Context `{Hsha : Sha256Spec}.

Lemma hashBytes_value x : ∃ d, evp_sha256 x = Some d ∧ Forall byte d ∧ Hash.hashBytes x = Hex.hexEncode d ∧ String.length (Hash.hashBytes x) = 64%nat.
Proof.
  destruct (evp_sha256_total x) as (d & E & Hl & Hb). exists d. unfold Hash.hashBytes, Hash.nodo_hash_bytes. rewrite E, Hl. simpl.
  pose proof (CryptoFacts.hexEncode_length d) as Hlen. rewrite Hl in Hlen. destruct (Hex.hexEncode d) eqn:Ed; [done|]. by split_and!.
Qed.

Lemma hashBytes_length x : String.length (Hash.hashBytes x) = 64%nat.
Proof. by destruct (hashBytes_value x) as (d & _ & _ & _ & ?). Qed.

Variable inputs : list string.
Hypothesis Hfree : collision_free evp_sha256 inputs.

Lemma hashBytes_inj x y : x ∈ inputs → y ∈ inputs → Hash.hashBytes x = Hash.hashBytes y → x = y.
Proof.
  intros Hx Hy E. destruct (hashBytes_value x) as (d1 & E1 & Hb1 & H1 & _), (hashBytes_value y) as (d2 & E2 & Hb2 & H2 & _).
  apply Hfree; [done|done|]. rewrite E1, E2. f_equal. apply hexEncode_inj; congruence.
Qed.

Definition leafIn (payload : string) : string := LEAF_PREFIX +:+ payload.
Definition nodeIn (l r : string) : string := NODE_PREFIX +:+ l +:+ r.

Lemma leaf_not_node p l r : leafIn p ≠ nodeIn l r.
Proof. unfold leafIn, nodeIn, LEAF_PREFIX, NODE_PREFIX. cbn. intros E. discriminate E. Qed.

Lemma string_app_inj_l a b x y : String.length a = String.length b → a +:+ x = b +:+ y → a = b ∧ x = y.
Proof.
  revert b. induction a as [|c a IH]; intros [|d b] Hl E; try discriminate Hl; [done|]. cbn in E. injection E as -> E. injection Hl as Hl.
  by destruct (IH b Hl E) as [-> ->].
Qed.

Lemma prefix_inj p x y : p +:+ x = p +:+ y → x = y.
Proof. intros E. by apply string_app_inj_l in E as [_ ?]. Qed.

Lemma leaf_inj p q : leafIn p ∈ inputs → leafIn q ∈ inputs → hashLeaf p = hashLeaf q → p = q.
Proof. intros Hp Hq E. apply hashBytes_inj in E; [|done|done]. by apply prefix_inj in E. Qed.

Lemma hashNode_inj l r l' r' : String.length l = String.length l' → nodeIn l r ∈ inputs → nodeIn l' r' ∈ inputs → hashNode l r = hashNode l' r' → l = l' ∧ r = r'.
Proof. intros Hl Hp Hq E. apply hashBytes_inj in E; [|done|done]. apply prefix_inj in E. by apply string_app_inj_l. Qed.

Lemma string_app_inj_r a b x y : String.length x = String.length y → a +:+ x = b +:+ y → a = b ∧ x = y.
Proof.
  intros Hl E. apply string_app_inj_l; [|done]. apply (f_equal String.length) in E. rewrite !CryptoFacts.length_append in E. lia.
Qed.

Lemma hashNode_inj_r l r l' r' : String.length r = String.length r' → nodeIn l r ∈ inputs → nodeIn l' r' ∈ inputs → hashNode l r = hashNode l' r' → l = l' ∧ r = r'.
Proof. intros Hl Hp Hq E. apply hashBytes_inj in E; [|done|done]. apply prefix_inj in E. by apply string_app_inj_r. Qed.

Lemma leaf_node_differ p l r : leafIn p ∈ inputs → nodeIn l r ∈ inputs → hashLeaf p ≠ hashNode l r.
Proof. intros Hp Hq E. apply hashBytes_inj in E; [|done|done]. by apply leaf_not_node in E. Qed.

(** *** Hashes of a height *)

Fixpoint level (n : nat) (h : string) : Prop :=
  match n with
  | O => ∃ p, leafIn p ∈ inputs ∧ h = hashLeaf p
  | S n => ∃ l r, level n l ∧ level n r ∧ nodeIn l r ∈ inputs ∧ h = hashNode l r
  end.

Lemma level_length n h : level n h → String.length h = 64%nat.
Proof. destruct n; [intros (p & _ & ->)|intros (l & r & _ & _ & _ & ->)]; apply hashBytes_length. Qed.

Lemma level_unique n m h : level n h → level m h → n = m.
Proof.
  revert m h. induction n as [|n IH]; intros [|m] h.
  - done.
  - intros (p & Hp & ->) (l & r & _ & _ & Hi & E). by apply leaf_node_differ in E.
  - intros (l & r & _ & _ & Hi & ->) (p & Hp & E). symmetry in E. by apply leaf_node_differ in E.
  - intros (l & r & Hl & Hr & Hi & ->) (l' & r' & Hl' & Hr' & Hi' & E). f_equal. apply (IH m l Hl).
    apply hashNode_inj in E as [-> _]; [done| |done|done]. by rewrite (level_length n l Hl), (level_length m l' Hl').
Qed.

(** *** One level *)

Fixpoint nodeInputs (hashes : list string) : list string :=
  match hashes with
  | l :: r :: rest => nodeIn l r :: nodeInputs rest
  | [l] => [nodeIn l l]
  | [] => []
  end.

Lemma nextLayer_elem x h : x ∈ nextLayer h → ∃ a b, a ∈ h ∧ b ∈ h ∧ nodeIn a b ∈ nodeInputs h ∧ x = hashNode a b.
Proof.
  induction h as [|a|a b h IH] using list_pair_ind; simpl.
  - by intros ?%elem_of_nil.
  - intros ->%list_elem_of_singleton. exists a, a. split_and!; [left|left|left|done].
  - intros [->|Hx]%elem_of_cons; [exists a, b; split_and!; [left|right; left|left|done]|].
    destruct (IH Hx) as (a' & b' & ? & ? & ? & ->). exists a', b'. split_and!; [by right; right|by right; right|by right|done].
Qed.

Lemma nextLayer_length h : (2 * length (nextLayer h) = length h + length h mod 2)%nat.
Proof.
  induction h as [|a|a b h IH] using list_pair_ind; [done|done|]. cbn [nextLayer length].
  replace (S (S (length h)) mod 2)%nat with (length h mod 2)%nat; [lia|]. replace (S (S (length h))) with (length h + 1 * 2)%nat by lia. by rewrite Nat.Div0.mod_add.
Qed.

Lemma nextLayer_shorter h : (2 ≤ length h → 1 ≤ length (nextLayer h) < length h)%nat.
Proof. intros Hl. pose proof (nextLayer_length h). pose proof (Nat.mod_upper_bound (length h) 2). lia. Qed.

Lemma nextLayer_level n h : Forall (level n) h → nodeInputs h ⊆ inputs → Forall (level (S n)) (nextLayer h).
Proof.
  intros Hl Hs. rewrite Forall_forall in *. intros x (a & b & Ha & Hb & Hi & ->)%nextLayer_elem. exists a, b. split_and!; auto.
Qed.

Lemma nextLayer_nodup n h : Forall (level n) h → nodeInputs h ⊆ inputs → NoDup h → NoDup (nextLayer h).
Proof.
  induction h as [|a|a b h IH] using list_pair_ind; intros Hl Hs Hnd; simpl in *; [constructor|by apply NoDup_singleton|].
  apply NoDup_cons in Hnd as [Ha Hnd]. apply NoDup_cons in Hnd as [_ Hnd]. apply Forall_cons in Hl as [Hla Hl]. apply Forall_cons in Hl as [Hlb Hl].
  assert (nodeInputs h ⊆ inputs) as Hs' by (intros x Hx; apply Hs; by right).
  apply NoDup_cons. split; [|by apply IH]. intros (a' & b' & Ha' & _ & Hi & E)%nextLayer_elem. apply Ha. right.
  rewrite Forall_forall in Hl. apply hashNode_inj in E as [-> _]; [done| |apply Hs; left|by apply Hs'].
  by rewrite (level_length n a Hla), (level_length n a' (Hl _ Ha')).
Qed.

Lemma nextLayer_inj n h h' : Forall (level n) h → Forall (level n) h' → nodeInputs h ⊆ inputs → nodeInputs h' ⊆ inputs → NoDup h → NoDup h' →
  nextLayer h = nextLayer h' → h = h'.
Proof.
  revert h'. induction h as [|a|a b h IH] using list_pair_ind; intros h' Hl Hl' Hs Hs' Hnd Hnd' E.
  - destruct h' as [|? [|? ?]]; done.
  - destruct h' as [|x [|y h']]; [done|..]; simpl in *; injection E; [intros E'|intros E' E''].
    + apply hashNode_inj in E' as [-> _]; [done|..|apply Hs; left|apply Hs'; left]. apply Forall_cons in Hl as [Hl _], Hl' as [Hl' _]. by rewrite (level_length n a Hl), (level_length n x Hl').
    + apply Forall_cons in Hl as [Hl _]. apply Forall_cons in Hl' as [Hx Hl']. apply hashNode_inj in E'' as [-> ->]; [|by rewrite (level_length n a Hl), (level_length n x Hx)|apply Hs; left|apply Hs'; left].
      apply NoDup_cons in Hnd' as [Hn _]. destruct Hn. left.
  - apply Forall_cons in Hl as [Hla Hl]. apply Forall_cons in Hl as [Hlb Hl].
    destruct h' as [|x [|y h']]; [done|..]; simpl in *; injection E; intros E' E''.
    + apply Forall_cons in Hl' as [Hl' _]. apply hashNode_inj in E'' as [-> ->]; [|by rewrite (level_length n a Hla), (level_length n x Hl')|apply Hs; left|apply Hs'; left].
      apply NoDup_cons in Hnd as [Hn _]. destruct Hn. left.
    + apply Forall_cons in Hl' as [Hlx Hl']. apply Forall_cons in Hl' as [Hly Hl'].
      apply hashNode_inj in E'' as [-> ->]; [|by rewrite (level_length n a Hla), (level_length n x Hlx)|apply Hs; left|apply Hs'; left].
      apply NoDup_cons in Hnd as [_ Hnd]. apply NoDup_cons in Hnd as [_ Hnd]. apply NoDup_cons in Hnd' as [_ Hnd']. apply NoDup_cons in Hnd' as [_ Hnd'].
      f_equal. f_equal. apply IH; [done|done|intros z Hz; apply Hs; by right|intros z Hz; apply Hs'; by right|done|done|done].
Qed.

(** *** All levels *)

Fixpoint layerInputs (fuel : nat) (hashes : list string) : list string :=
  match hashes with
  | [] | [_] => []
  | _ => nodeInputs hashes ++ match fuel with O => [] | S fuel => layerInputs fuel (nextLayer hashes) end
  end.

(** The fuel is enough: with a node for every level the root does not depend on it. *)
Lemma layer_unfold fuel a b h : hashLayerFrom (S fuel) (a :: b :: h) = hashLayerFrom fuel (nextLayer (a :: b :: h)).
Proof. done. Qed.

Lemma inputs_unfold fuel a b h : layerInputs (S fuel) (a :: b :: h) = nodeInputs (a :: b :: h) ++ layerInputs fuel (nextLayer (a :: b :: h)).
Proof. done. Qed.

Lemma hashLayer_fuel fuel h : (length h ≤ fuel)%nat → hashLayerFrom fuel h = hashLayer h.
Proof.
  unfold hashLayer. remember (length h) as k eqn:Ek. assert (length h ≤ k)%nat as Hk by lia. clear Ek. revert k h Hk.
  induction fuel as [fuel IH] using lt_wf_ind. intros k h Hk Hf. destruct h as [|a [|b h]].
  - by destruct fuel, k.
  - by destruct fuel, k.
  - pose proof (nextLayer_shorter (a :: b :: h) ltac:(simpl; lia)) as Hs. destruct fuel as [|fuel]; [simpl in Hk; lia|]. destruct k as [|k]; [simpl in Hk; lia|].
    rewrite !layer_unfold. apply IH; lia.
Qed.

Lemma hashLayer_step a b h : hashLayer (a :: b :: h) = hashLayer (nextLayer (a :: b :: h)).
Proof.
  unfold hashLayer at 1. cbn [length]. rewrite layer_unfold. apply hashLayer_fuel. pose proof (nextLayer_shorter (a :: b :: h) ltac:(simpl; lia)). simpl in *. lia.
Qed.

Definition allInputs (h : list string) : list string := layerInputs (length h) h.

Lemma layerInputs_fuel fuel h : (length h ≤ fuel)%nat → layerInputs fuel h = allInputs h.
Proof.
  unfold allInputs. remember (length h) as k eqn:Ek. assert (length h ≤ k)%nat as Hk by lia. clear Ek. revert k h Hk.
  induction fuel as [fuel IH] using lt_wf_ind. intros k h Hk Hf. destruct h as [|a [|b h]].
  - by destruct fuel, k.
  - by destruct fuel, k.
  - pose proof (nextLayer_shorter (a :: b :: h) ltac:(simpl; lia)) as Hs. destruct fuel as [|fuel]; [simpl in Hk; lia|]. destruct k as [|k]; [simpl in Hk; lia|].
    rewrite !inputs_unfold. f_equal. apply IH; simpl in *; lia.
Qed.

Lemma allInputs_step a b h : allInputs (a :: b :: h) = nodeInputs (a :: b :: h) ++ allInputs (nextLayer (a :: b :: h)).
Proof.
  unfold allInputs at 1. cbn [length]. rewrite inputs_unfold. f_equal. apply layerInputs_fuel. pose proof (nextLayer_shorter (a :: b :: h) ltac:(simpl; lia)). simpl in *. lia.
Qed.

(** Induction over the levels of a tree. *)
Lemma layers_ind (P : list string → Prop) : P [] → (∀ a, P [a]) → (∀ a b h, P (nextLayer (a :: b :: h)) → P (a :: b :: h)) → ∀ h, P h.
Proof.
  intros H0 H1 H2 h. remember (length h) as k eqn:Ek. revert h Ek. induction k as [k IH] using lt_wf_ind. intros [|a [|b h]] ->; [done|done|].
  apply H2. pose proof (nextLayer_shorter (a :: b :: h) ltac:(simpl; lia)). by apply (IH (length (nextLayer (a :: b :: h)))); [lia|].
Qed.

Lemma root_level n h : h ≠ [] → Forall (level n) h → allInputs h ⊆ inputs → ∃ m, (n ≤ m)%nat ∧ (2 ≤ length h → n < m)%nat ∧ level m (hashLayer h).
Proof.
  revert n. induction h as [|a|a b h IH] using layers_ind; intros n Hne Hl Hs; [done| |].
  - apply Forall_cons in Hl as [Hl _]. exists n. split_and!; [done|simpl; lia|done].
  - rewrite hashLayer_step. rewrite allInputs_step in Hs. assert (nodeInputs (a :: b :: h) ⊆ inputs) as Hs1 by (intros x Hx; apply Hs, elem_of_app; by left).
    destruct (IH (S n)) as (m & Hm & _ & Hlev); [done|by apply nextLayer_level|intros x Hx; apply Hs, elem_of_app; by right|].
    exists m. split_and!; [lia|lia|done].
Qed.

Lemma layers_bind n h h' : h ≠ [] → h' ≠ [] → Forall (level n) h → Forall (level n) h' → allInputs h ⊆ inputs → allInputs h' ⊆ inputs → NoDup h → NoDup h' →
  hashLayer h = hashLayer h' → h = h'.
Proof.
  revert n h'. induction h as [|a|a b h IH] using layers_ind; intros n h' Hne Hne' Hl Hl' Hs Hs' Hnd Hnd' E; [done|..].
  - destruct h' as [|x [|y h']]; [done|by change (a = x) in E; rewrite E|]. exfalso. destruct (root_level n (x :: y :: h') Hne' Hl' Hs') as (m & _ & Hm & Hlev).
    rewrite <- E in Hlev. apply Forall_cons in Hl as [Hl _]. pose proof (level_unique n m a Hl Hlev). simpl in Hm. lia.
  - destruct h' as [|x [|y h']]; [done|..].
    + exfalso. destruct (root_level n (a :: b :: h) Hne Hl Hs) as (m & _ & Hm & Hlev). rewrite E in Hlev. apply Forall_cons in Hl' as [Hl' _].
      pose proof (level_unique n m x Hl' Hlev). simpl in Hm. lia.
    + rewrite !hashLayer_step in E. rewrite allInputs_step in Hs, Hs'.
      assert (nodeInputs (a :: b :: h) ⊆ inputs) as Hs1 by (intros z Hz; apply Hs, elem_of_app; by left).
      assert (nodeInputs (x :: y :: h') ⊆ inputs) as Hs2 by (intros z Hz; apply Hs', elem_of_app; by left).
      apply (nextLayer_inj n); [done|done|done|done|done|done|].
      apply (IH (S n)); [done|done|by apply nextLayer_level|by apply nextLayer_level|intros z Hz; apply Hs, elem_of_app; by right|
        intros z Hz; apply Hs', elem_of_app; by right|by eapply nextLayer_nodup|by eapply nextLayer_nodup|done].
Qed.

(** *** Proofs *)

(** The hashes of all levels of a tree over [h]. *)
Inductive inTree (h : list string) : string → Prop :=
  | inTree_leaf x : x ∈ h → inTree h x
  | inTree_node a b : inTree h a → inTree h b → nodeIn a b ∈ inputs → inTree h (hashNode a b).

Lemma inTree_layer h x : nodeInputs h ⊆ inputs → inTree (nextLayer h) x → inTree h x.
Proof.
  intros Hs. induction 1 as [x (a & b & Ha & Hb & Hi & ->)%nextLayer_elem|a b _ IHa _ IHb Hi].
  - apply inTree_node; [by apply inTree_leaf|by apply inTree_leaf|auto].
  - by apply inTree_node.
Qed.

Lemma root_inTree h : h ≠ [] → allInputs h ⊆ inputs → inTree h (hashLayer h).
Proof.
  induction h as [|a|a b h IH] using layers_ind; intros Hne Hs; [done|apply inTree_leaf; left|].
  rewrite hashLayer_step. rewrite allInputs_step in Hs. apply inTree_layer; [intros x Hx; apply Hs, elem_of_app; by left|].
  apply IH; [done|]. intros x Hx; apply Hs, elem_of_app; by right.
Qed.

(** Below a node of a tree over leaves there are only hashes of the tree. *)
Lemma inTree_length h x : Forall (level 0) h → inTree h x → String.length x = 64%nat.
Proof. intros Hh Hx. inversion Hx as [y Hy|]; [rewrite Forall_forall in Hh; by apply (level_length 0), Hh|]. apply hashBytes_length. Qed.

Lemma inTree_below h l r : Forall (level 0) h → String.length l = 64%nat ∨ String.length r = 64%nat → nodeIn l r ∈ inputs → inTree h (hashNode l r) → inTree h l ∧ inTree h r.
Proof.
  intros Hh Hl Hi Ht. inversion Ht as [x Hx E|a b Ha Hb Hab E].
  - rewrite Forall_forall in Hh. destruct (Hh _ Hx) as (p & Hp & E'). symmetry in E'. by apply leaf_node_differ in E'.
  - pose proof (inTree_length h a Hh Ha). pose proof (inTree_length h b Hh Hb).
    destruct Hl as [Hl|Hl]; [apply hashNode_inj in E as [-> ->]|apply hashNode_inj_r in E as [-> ->]]; first [done|congruence].
Qed.

Lemma inTree_leaf_only h p : Forall (level 0) h → leafIn p ∈ inputs → inTree h (hashLeaf p) → hashLeaf p ∈ h.
Proof. intros Hh Hp Ht. inversion Ht as [x Hx|a b _ _ Hab E]; [done|]. symmetry in E. by apply leaf_node_differ in E. Qed.

Fixpoint stepInputs (current : string) (l : list MerkleProofStep) : list string :=
  match l with
  | [] => []
  | s :: l => (if siblingIsLeft s then nodeIn (siblingHash s) current else nodeIn current (siblingHash s)) :: stepInputs (applyStep current s) l
  end.

Lemma steps_inTree h cur l : Forall (level 0) h → String.length cur = 64%nat → stepInputs cur l ⊆ inputs → inTree h (foldl applyStep cur l) → inTree h cur.
Proof.
  intros Hh. revert cur. induction l as [|s l IH]; intros cur Hc Hs Ht; [done|]. cbn [foldl stepInputs] in *.
  apply IH in Ht; [|unfold applyStep; destruct (siblingIsLeft s); apply hashBytes_length|intros x Hx; apply Hs; by right].
  specialize (Hs _ ltac:(left)). unfold applyStep in Ht. destruct (siblingIsLeft s); apply inTree_below in Ht as [? ?]; auto.
Qed.

(** *** The tree of a block's records *)

Lemma orderedLeaf_inj i j p q : orderedLeaf i p = orderedLeaf j q → i = j ∧ p = q.
Proof.
  unfold orderedLeaf. intros E. apply prefix_inj in E. change (":" +:+ ?x) with (String ":" x) in E.
  apply TransactionFacts.field_inj in E as [Ei E]; [|by apply TransactionFacts.to_string_plain..].
  apply TransactionFacts.field_inj in E as [_ Ep]; [|by apply TransactionFacts.to_string_plain..]. split; [by apply (inj to_string)|done].
Qed.

Definition leafInputs (payloads : list string) : list string := imap (λ i p, leafIn (orderedLeaf (Z.of_nat i) p)) payloads.
Definition orderedInputs (payloads : list string) : list string := EMPTY_PAYLOAD :: leafInputs payloads ++ allInputs (orderedLeaves payloads).

Lemma leafInputs_elem payloads i p : payloads !! i = Some p → leafIn (orderedLeaf (Z.of_nat i) p) ∈ leafInputs payloads.
Proof. intros E. unfold leafInputs. apply list_elem_of_lookup. exists i. rewrite list_lookup_imap, E. done. Qed.

Lemma orderedLeaves_lookup payloads i : orderedLeaves payloads !! i = hashOrderedLeaf (Z.of_nat i) <$> payloads !! i.
Proof. unfold orderedLeaves. by rewrite list_lookup_imap. Qed.

Lemma orderedLeaves_level payloads : leafInputs payloads ⊆ inputs → Forall (level 0) (orderedLeaves payloads).
Proof.
  intros Hs. apply Forall_lookup. intros i x. rewrite orderedLeaves_lookup. destruct (payloads !! i) as [p|] eqn:E; [|done]. intros [= <-].
  exists (orderedLeaf (Z.of_nat i) p). split; [by apply Hs, leafInputs_elem|done].
Qed.

Lemma orderedLeaves_nodup payloads : leafInputs payloads ⊆ inputs → NoDup (orderedLeaves payloads).
Proof.
  intros Hs. apply NoDup_alt. intros i j x. rewrite !orderedLeaves_lookup. destruct (payloads !! i) as [p|] eqn:Ei; [|done].
  destruct (payloads !! j) as [q|] eqn:Ej; [|done]. intros [= <-] [= E]. apply leaf_inj in E; [|by apply Hs, leafInputs_elem..].
  apply orderedLeaf_inj in E as [E _]. lia.
Qed.

Lemma orderedLeaves_inj l l' : leafInputs l ⊆ inputs → leafInputs l' ⊆ inputs → orderedLeaves l = orderedLeaves l' → l = l'.
Proof.
  intros Hs Hs' E. apply list_eq. intros i. pose proof (f_equal (lookup i) E) as Ei. rewrite !orderedLeaves_lookup in Ei.
  destruct (l !! i) as [p|] eqn:E1, (l' !! i) as [q|] eqn:E2; simpl in Ei; try done. injection Ei as Ei. f_equal.
  apply leaf_inj in Ei; [|by apply Hs, leafInputs_elem|by apply Hs', leafInputs_elem]. by apply orderedLeaf_inj in Ei as [_ ?].
Qed.

Lemma empty_not_leaf p : EMPTY_PAYLOAD ≠ leafIn p.
Proof. unfold EMPTY_PAYLOAD, leafIn, LEAF_PREFIX. cbn. intros E. discriminate E. Qed.
Lemma empty_not_node l r : EMPTY_PAYLOAD ≠ nodeIn l r.
Proof. unfold EMPTY_PAYLOAD, nodeIn, NODE_PREFIX. cbn. intros E. discriminate E. Qed.

Lemma root_not_empty h : h ≠ [] → Forall (level 0) h → allInputs h ⊆ inputs → EMPTY_PAYLOAD ∈ inputs → hashLayer h ≠ Hash.hashBytes EMPTY_PAYLOAD.
Proof.
  intros Hne Hl Hs He E. destruct (root_level 0 h Hne Hl Hs) as (m & _ & _ & Hlev). rewrite E in Hlev. destruct m as [|m].
  - destruct Hlev as (p & Hp & E'). apply hashBytes_inj in E'; [|done|done]. by apply empty_not_leaf in E'.
  - destruct Hlev as (l & r & _ & _ & Hi & E'). apply hashBytes_inj in E'; [|done|done]. by apply empty_not_node in E'.
Qed.

Lemma ordered_root_bind l l' : orderedInputs l ⊆ inputs → orderedInputs l' ⊆ inputs → buildOrderedRoot l = buildOrderedRoot l' → l = l'.
Proof.
  intros Hs Hs' E. unfold buildOrderedRoot in E.
  assert (∀ l, orderedInputs l ⊆ inputs → EMPTY_PAYLOAD ∈ inputs ∧ leafInputs l ⊆ inputs ∧ allInputs (orderedLeaves l) ⊆ inputs) as Hsplit.
  { intros x Hx. split_and!; [apply Hx; left| |]; intros z Hz; apply Hx; right; apply elem_of_app; auto. }
  destruct (Hsplit l Hs) as (He & Hl & Ha), (Hsplit l' Hs') as (_ & Hl' & Ha').
  pose proof (orderedLeaves_level l Hl) as Hlev. pose proof (orderedLeaves_level l' Hl') as Hlev'.
  assert (∀ l : list string, orderedLeaves l = [] ↔ l = []) as Hnil.
  { intros x. rewrite <- !length_zero_iff_nil. unfold orderedLeaves. by rewrite length_imap. }
  destruct (decide (l = [])) as [->|Hne], (decide (l' = [])) as [->|Hne']; [done|..].
  - exfalso. symmetry in E. apply (root_not_empty (orderedLeaves l')) in E; [done|by rewrite Hnil|done|done|done].
  - exfalso. apply (root_not_empty (orderedLeaves l)) in E; [done|by rewrite Hnil|done|done|done].
  - apply orderedLeaves_inj; [done|done|]. apply (layers_bind 0); [by rewrite Hnil|by rewrite Hnil|done|done|done|done|by apply orderedLeaves_nodup|by apply orderedLeaves_nodup|done].
Qed.

Lemma ordered_proof_sound l i p proof : orderedInputs l ⊆ inputs → leafIn (orderedLeaf i p) ∈ inputs → stepInputs (leafHash proof) (steps proof) ⊆ inputs →
  l ≠ [] → leafHash proof = hashOrderedLeaf i p →
  verify proof (buildOrderedRoot l) = true → 0 ≤ i ∧ l !! Z.to_nat i = Some p.
Proof.
  intros Hs Hp Hst Hne Hleaf Hv. apply andb_prop in Hv as [_ Hv]. apply String.eqb_eq in Hv.
  assert (leafInputs l ⊆ inputs ∧ allInputs (orderedLeaves l) ⊆ inputs) as [Hl Ha].
  { split; intros z Hz; apply Hs; right; apply elem_of_app; auto. }
  pose proof (orderedLeaves_level l Hl) as Hlev. unfold reconstructRoot, buildOrderedRoot in Hv.
  assert (inTree (orderedLeaves l) (leafHash proof)) as Ht.
  { eapply (steps_inTree _ _ (steps proof)); [done|rewrite Hleaf; apply hashBytes_length|done|]. rewrite Hv. apply root_inTree; [|done].
    rewrite <- length_zero_iff_nil. unfold orderedLeaves. rewrite length_imap. by destruct l. }
  rewrite Hleaf in Ht. apply inTree_leaf_only in Ht; [|done|done]. apply list_elem_of_lookup in Ht as [j Hj]. rewrite orderedLeaves_lookup in Hj.
  destruct (l !! j) as [q|] eqn:Ej; [|done]. injection Hj as Hj. apply leaf_inj in Hj; [|by apply Hl, leafInputs_elem|done].
  apply orderedLeaf_inj in Hj as [<- <-]. rewrite Nat2Z.id. split; [lia|done].
Qed.

Lemma nextLayer_nth h i : (i < length h)%nat → nth (i / 2) (nextLayer h) "" =
  if (i mod 2 =? 1)%nat then hashNode (nth (i - 1) h "") (nth i h "")
  else hashNode (nth i h "") (nth (if (length h <=? i + 1)%nat then i else i + 1)%nat h "").
Proof.
  revert i. induction h as [|a|a b h IH] using list_pair_ind; intros i Hi; simpl in Hi; [lia| |].
  - assert (i = 0%nat) as -> by lia. done.
  - destruct i as [|[|i]]; [done|done|]. replace (S (S i)) with (i + 1 * 2)%nat at 1 2 by lia. rewrite Nat.div_add, Nat.Div0.mod_add by done.
    replace (i / 2 + 1)%nat with (S (i / 2)) by lia. cbn [nextLayer nth]. rewrite (IH i) by lia. destruct (i mod 2 =? 1)%nat eqn:Em.
    + replace (S (S i) - 1)%nat with (S (S (i - 1))); [done|]. destruct i; [done|lia].
    + cbn [length]. replace (S (S (length h)) <=? S (S i) + 1)%nat with (length h <=? i + 1)%nat; [by destruct (_ <=? _)%nat|].
      destruct (length h <=? i + 1)%nat eqn:E1, (S (S (length h)) <=? S (S i) + 1)%nat eqn:E2; try done; [apply Nat.leb_le in E1; apply Nat.leb_gt in E2|apply Nat.leb_gt in E1; apply Nat.leb_le in E2]; lia.
Qed.

Lemma climb_root h : ∀ fuel i, (length h ≤ fuel)%nat → (i < length h)%nat → foldl applyStep (nth i h "") (climb fuel h i) = hashLayer h.
Proof.
  induction h as [|a|a b h IH] using layers_ind; intros fuel i Hf Hi; [simpl in Hi; lia| |].
  - simpl in Hi. assert (i = 0%nat) as -> by lia. by destruct fuel.
  - destruct fuel as [|fuel]; [simpl in Hf; lia|]. pose proof (nextLayer_shorter (a :: b :: h) ltac:(simpl; lia)) as Hs.
    remember (a :: b :: h) as l eqn:El. cbn [climb]. replace (length l <=? 1)%nat with false by (symmetry; apply Nat.leb_gt; rewrite El; simpl; lia).
    cbn [foldl]. assert (hashLayer l = hashLayer (nextLayer l)) as -> by (rewrite El; apply hashLayer_step). rewrite <- (IH fuel (i / 2)%nat).
    + f_equal. rewrite nextLayer_nth by done. unfold applyStep. cbn [siblingIsLeft siblingHash]. destruct (i mod 2 =? 1)%nat eqn:Em; [|done].
      by replace (length l <=? i - 1)%nat with false by (symmetry; apply Nat.leb_gt; lia).
    + lia.
    + pose proof (nextLayer_length l). apply Nat.Div0.div_lt_upper_bound. lia.
Qed.

Lemma ordered_proof_complete payloads i : (i < length payloads)%nat → verify (buildOrderedMerkleProof payloads i) (buildOrderedRoot payloads) = true.
Proof.
  intros Hi. unfold buildOrderedMerkleProof. rewrite bool_decide_false by (by intros ->; simpl in Hi; lia).
  replace (length payloads <=? i)%nat with false by (symmetry; by apply Nat.leb_gt). cbn [orb]. unfold verify, isValid, reconstructRoot. cbn [leafHash steps].
  assert (length (orderedLeaves payloads) = length payloads) as Hlen by apply length_imap.
  rewrite climb_root by lia. unfold buildOrderedRoot. rewrite String.eqb_refl, andb_true_r. apply negb_true_iff, empty_string_false. intros E.
  destruct (lookup_lt_is_Some_2 payloads i Hi) as [p Ep]. pose proof (orderedLeaves_lookup payloads i) as El. rewrite Ep in El. apply nth_lookup_Some with (d := "") in El.
  rewrite E in El. pose proof (hashBytes_length (LEAF_PREFIX +:+ orderedLeaf (Z.of_nat i) p)) as Hl. unfold hashOrderedLeaf, hashLeaf in El. rewrite <- El in Hl. done.
Qed.
End hashes.
End TreeFacts.

(** ** Facts about the sparse tree *)

Module SparseFacts.
Import CoreMerkle Sparse MerkleFacts TreeFacts.

Abbreviation assignment := (list bool * string)%type.

(** The entries below one child, with the rest of their keys. *)
Fixpoint sub (bit : bool) (l : list assignment) : list assignment :=
  match l with
  | (b :: bits, v) :: l => if Bool.eqb b bit then (bits, v) :: sub bit l else sub bit l
  | _ :: l => sub bit l
  | [] => []
  end.

(** The value written last for a key. *)
Fixpoint get (bits : list bool) (l : list assignment) : option string :=
  match l with
  | [] => None
  | (b, v) :: l => match get bits l with Some w => Some w | None => if decide (b = bits) then Some v else None end
  end.

Lemma sub_app bit l l' : sub bit (l ++ l') = sub bit l ++ sub bit l'.
Proof. induction l as [|[[|b bits] v] l IH]; simpl; [done|done|]. destruct (Bool.eqb b bit); simpl; by rewrite IH. Qed.

Lemma get_sub bit bits l : get (bit :: bits) l = get bits (sub bit l).
Proof.
  induction l as [|[[|b bs] v] l IH]; simpl; [done| |].
  - rewrite IH. by destruct (get bits (sub bit l)).
  - destruct b, bit; simpl; rewrite IH; simpl; destruct (get bits (sub _ l)); try done; repeat case_decide; congruence.
Qed.

Lemma get_elem bits l v : get bits l = Some v → (bits, v) ∈ l.
Proof.
  induction l as [|[b w] l IH]; simpl; [done|]. destruct (get bits l) as [x|]; [intros [= <-]; right; by apply IH|].
  case_decide; [intros [= <-]; subst; left|done].
Qed.

Section sparse.
Context `{Hsha : Sha256Spec}.

Definition defaultHash (n : nat) : string := Nat.iter n (λ d, hashNode d d) (Hash.hashBytes "").

(** The reference: the root of a complete tree of depth [n] whose leaves are the values last written. *)
Fixpoint refHash (n : nat) (l : list assignment) : string :=
  match l with
  | [] => defaultHash n
  | _ :: _ =>
      match n with
      | O => default (Hash.hashBytes "") (get [] l)
      | S n => hashNode (refHash n (sub false l)) (refHash n (sub true l))
      end
  end.

Lemma refHash_S n l : refHash (S n) l = hashNode (refHash n (sub false l)) (refHash n (sub true l)).
Proof. destruct l; [|done]. simpl. destruct n; done. Qed.

Lemma refHash_O l : refHash 0 l = default (Hash.hashBytes "") (get [] l).
Proof. by destruct l. Qed.

(** The same root as one equation per level: the complete tree of depth [n] over a
    function from paths to values. *)
Fixpoint fullHash (n : nat) (f : list bool → option string) : string :=
  match n with
  | O => default (Hash.hashBytes "") (f [])
  | S n => hashNode (fullHash n (λ path, f (false :: path))) (fullHash n (λ path, f (true :: path)))
  end.

Lemma fullHash_ext n f g : (∀ path, f path = g path) → fullHash n f = fullHash n g.
Proof. revert f g. induction n as [|n IH]; intros f g E; simpl; [by rewrite E|]. f_equal; apply IH; intros path; apply E. Qed.

Lemma refHash_full n l : refHash n l = fullHash n (λ path, get path l).
Proof.
  revert l. induction n as [|n IH]; intros l; [apply refHash_O|]. rewrite refHash_S, !IH. cbn [fullHash].
  f_equal; apply fullHash_ext; intros path; by rewrite get_sub.
Qed.

Lemma defaults_nth N n : (n ≤ N)%nat → nth n (defaultsFrom N (Hash.hashBytes "")) "" = defaultHash n.
Proof.
  unfold defaultHash. assert (∀ k h, (n ≤ k)%nat → nth n (defaultsFrom k h) "" = Nat.iter n (λ d, hashNode d d) h) as Hg; [|by apply Hg].
  induction n as [|n IH]; intros k h Hk; [by destruct k|]. destruct k as [|k]; [lia|]. cbn [defaultsFrom nth]. rewrite IH by lia. by rewrite Nat.iter_succ_r.
Qed.

Lemma default_of n : (n ≤ DEPTH)%nat → nth n precomputeDefaultHashes "" = defaultHash n.
Proof. apply defaults_nth. Qed.

Abbreviation defaults := precomputeDefaultHashes.
#[local] Opaque precomputeDefaultHashes.

(** The tree after a sequence of updates. *)
Definition build (l : list assignment) : Node := foldl (λ node e, updateRecursive defaults node e.1 e.2) nullptr l.

Lemma build_snoc l e : build (l ++ [e]) = updateRecursive defaults (build l) e.1 e.2.
Proof. unfold build. by rewrite foldl_app. Qed.

(** Keys of one length and values that are digests. *)
Definition sized (n : nat) (l : list assignment) : Prop := Forall (λ e, length e.1 = n ∧ String.length e.2 = 64%nat) l.

Lemma sized_sub n bit l : sized (S n) l → sized n (sub bit l).
Proof.
  unfold sized. induction 1 as [|[[|b bits] v] l [Hl Hv] _ IH]; simpl; [constructor|done|].
  destruct (Bool.eqb b bit); [|done]. constructor; [|done]. simpl in *. split; [lia|done].
Qed.

Lemma build_children n l : sized (S n) l → leftOf (build l) = build (sub false l) ∧ rightOf (build l) = build (sub true l).
Proof.
  intros Hs. induction l as [|[bits v] l IH] using rev_ind; [done|]. apply Forall_app in Hs as [Hs Hx]. apply Forall_singleton in Hx as [Hb _]. simpl in Hb.
  destruct (IH Hs) as [IHl IHr]. rewrite build_snoc, !sub_app. cbn [fst snd]. destruct bits as [|b bits]; [done|]. destruct b; cbn [updateRecursive leftOf rightOf sub Bool.eqb].
  - rewrite app_nil_r, build_snoc. cbn [fst snd]. by rewrite IHl, IHr.
  - rewrite app_nil_r, build_snoc. cbn [fst snd]. by rewrite IHl, IHr.
Qed.

Lemma getNodeHash_some node n h l r : node = MkNode h l r → String.length h = 64%nat → getNodeHash defaults node n = h.
Proof. intros -> Hl. simpl. by destruct h. Qed.

Lemma digest_nonempty h : String.length h = 64%nat → empty_string h = false.
Proof. by destruct h. Qed.

Lemma get_last l v : get [] (l ++ [([], v)]) = Some v.
Proof. induction l as [|[b w] l IH]; [done|]. simpl. by rewrite IH. Qed.

Lemma build_hash n l : (n ≤ DEPTH)%nat → sized n l → getNodeHash defaults (build l) n = refHash n l.
Proof.
  revert l. induction n as [|n IH]; intros l Hn Hs; destruct l as [|[bits v] l _] using rev_ind.
  1, 3: exact (default_of _ Hn).
  - apply Forall_app in Hs as [Hs Hx]. apply Forall_singleton in Hx as [Hb Hv]. simpl in Hb, Hv. destruct bits; [|done].
    rewrite build_snoc, refHash_O, get_last. cbn [fst snd updateRecursive getNodeHash default]. by rewrite digest_nonempty.
  - pose proof (build_children n (l ++ [(bits, v)]) Hs) as [Hl Hr]. pose proof Hs as [_ Hx]%Forall_app. apply Forall_singleton in Hx as [Hb _]. simpl in Hb.
    rewrite refHash_S, <- !IH, <- Hl, <- Hr by (try lia; by apply sized_sub). rewrite build_snoc. cbn [fst snd]. destruct bits as [|b bits]; [done|].
    cbn [updateRecursive getNodeHash leftOf rightOf]. injection Hb as ->. by rewrite digest_nonempty by apply hashBytes_length.
Qed.

(** *** Proofs climb to the root *)

Lemma sibling_hash n l : (n ≤ DEPTH)%nat → sized n l → siblingOf defaults (build l) n = refHash n l.
Proof.
  intros Hn Hs. rewrite <- build_hash by done. destruct (build l) as [|h x y] eqn:E; [done|]. cbn [siblingOf getNodeHash].
  pose proof (build_hash n l Hn Hs) as Hb. rewrite E in Hb. cbn [getNodeHash] in Hb. destruct (empty_string h) eqn:Eh; [|done].
  exfalso. apply empty_string_true in Eh. subst h. destruct l as [|[bits v] l _] using rev_ind; [done|]. rewrite build_snoc in E. cbn [fst snd] in E.
  destruct bits as [|b bits]; cbn [updateRecursive] in E; injection E as E _ _.
  - apply Forall_app in Hs as [_ Hx]. apply Forall_singleton in Hx as [_ Hv]. simpl in Hv. by rewrite E in Hv.
  - pose proof (hashBytes_length (NODE_PREFIX +:+ getNodeHash defaults (if b then leftOf (build l) else updateRecursive defaults (leftOf (build l)) bits v) (length bits) +:+
      getNodeHash defaults (if b then updateRecursive defaults (rightOf (build l)) bits v else rightOf (build l)) (length bits))) as Hlen.
    unfold hashNode in E. rewrite E in Hlen. done.
Qed.

Lemma descend_null bits : descend nullptr bits = nullptr.
Proof. by destruct bits. Qed.

Lemma descend_cons bit bits node : descend node (bit :: bits) = descend (if bit then rightOf node else leftOf node) bits.
Proof. destruct node; [|done]. destruct bit; simpl; by rewrite descend_null. Qed.

Lemma descend_leaf n l bits : (n ≤ DEPTH)%nat → sized n l → length bits = n → getNodeHash defaults (descend (build l) bits) 0 = default (Hash.hashBytes "") (get bits l).
Proof.
  intros Hn. revert l bits. induction n as [|n IH]; intros l bits Hs Hb; destruct bits as [|bit bits]; try done.
  - rewrite <- refHash_O. by apply build_hash.
  - rewrite descend_cons, get_sub. pose proof (build_children n l Hs) as [Hl Hr]. injection Hb as Hb.
    rewrite <- IH; [|lia|by apply sized_sub|done]. destruct bit; by rewrite ?Hl, ?Hr.
Qed.

Lemma steps_climb n l bits : (n ≤ DEPTH)%nat → sized n l → length bits = n →
  foldr (λ s cur, applyStep cur s) (default (Hash.hashBytes "") (get bits l)) (collectProofSteps defaults (build l) bits) = refHash n l.
Proof.
  revert l bits. induction n as [|n IH]; intros l bits Hn Hs Hb; destruct bits as [|bit bits]; try done.
  - by rewrite refHash_O.
  - pose proof (build_children n l Hs) as [Hl Hr]. injection Hb as Hb. rewrite get_sub, refHash_S. destruct bit; cbn [collectProofSteps foldr]; rewrite Hl, Hr.
    + rewrite (IH (sub true l) bits); [|lia|by apply sized_sub|done]. unfold applyStep. cbn [siblingIsLeft siblingHash].
      rewrite Hb, sibling_hash; [done|lia|by apply sized_sub].
    + rewrite (IH (sub false l) bits); [|lia|by apply sized_sub|done]. unfold applyStep. cbn [siblingIsLeft siblingHash].
      rewrite Hb, sibling_hash; [done|lia|by apply sized_sub].
Qed.

(** *** The root binds the values *)

Variable inputs : list string.
Hypothesis Hfree : collision_free evp_sha256 inputs.

(** What the code hashes for the subtrees that are not empty, and for the empty ones. *)
Fixpoint treeInputs (n : nat) (l : list assignment) : list string :=
  match l, n with
  | [], _ | _, O => []
  | _, S n => nodeIn (refHash n (sub false l)) (refHash n (sub true l)) :: treeInputs n (sub false l) ++ treeInputs n (sub true l)
  end.
Definition defaultInputs (n : nat) : list string := "" :: map (λ k, nodeIn (defaultHash k) (defaultHash k)) (seq 0 n).

Definition covered (n : nat) (l : list assignment) : Prop :=
  defaultInputs n ⊆ inputs ∧ treeInputs n l ⊆ inputs ∧ Forall (λ e, ∃ p, leafIn p ∈ inputs ∧ e.2 = hashLeaf p) l.

Lemma defaultInputs_S n : defaultInputs (S n) ⊆ inputs → defaultInputs n ⊆ inputs.
Proof.
  intros Hs x Hx. apply Hs. unfold defaultInputs in *. apply elem_of_cons in Hx as [->|Hx]; [left|right]. rewrite seq_S, map_app. apply elem_of_app. by left.
Qed.

Lemma sub_elem bit l e : e ∈ sub bit l → ∃ b, (b, e.2) ∈ l.
Proof.
  induction l as [|[[|b bits] v] l IH]; simpl; [by intros ?%elem_of_nil| |].
  - intros [b Hb]%IH. exists b. by right.
  - destruct (Bool.eqb b bit); [intros [->|[b' Hb]%IH]%elem_of_cons|intros [b' Hb]%IH]; [exists (b :: bits); left|exists b'; by right|exists b'; by right].
Qed.

Lemma covered_sub n bit l : covered (S n) l → covered n (sub bit l).
Proof.
  intros (Hd & Ht & Hv). split_and!; [by apply defaultInputs_S| |].
  - destruct l as [|e l]; [destruct n; set_solver|]. intros x Hx. apply Ht. remember (e :: l) as k eqn:Ek. destruct k as [|e' k]; [done|].
    cbn [treeInputs]. right. apply elem_of_app. destruct bit; [by right|by left].
  - apply Forall_forall. intros e [b Hb]%sub_elem. rewrite Forall_forall in Hv. exact (Hv _ Hb).
Qed.

Lemma node_covered n l : covered (S n) l → nodeIn (refHash n (sub false l)) (refHash n (sub true l)) ∈ inputs.
Proof.
  intros (Hd & Ht & _). destruct l as [|e l]; [|apply Ht; cbn [treeInputs]; left].
  apply Hd. unfold defaultInputs. right. apply list_elem_of_fmap. exists n. split; [by destruct n|]. apply elem_of_seq. lia.
Qed.

Lemma empty_covered n l : covered n l → "" ∈ inputs.
Proof. intros (Hd & _). apply Hd. left. Qed.

Lemma get_leaf n l bits v : covered n l → get bits l = Some v → ∃ p, leafIn p ∈ inputs ∧ v = hashLeaf p.
Proof. intros (_ & _ & Hv) Hg%get_elem. rewrite Forall_forall in Hv. exact (Hv _ Hg). Qed.

Lemma leaf_not_default p : leafIn p ∈ inputs → "" ∈ inputs → hashLeaf p ≠ Hash.hashBytes "".
Proof. intros Hp He E. apply (hashBytes_inj inputs Hfree) in E; [|done|done]. discriminate E. Qed.

Lemma refHash_length n l : covered n l → String.length (refHash n l) = 64%nat.
Proof.
  intros Hc. destruct n as [|n]; [rewrite refHash_O|rewrite refHash_S; apply hashBytes_length].
  destruct (get [] l) as [v|] eqn:E; [|apply hashBytes_length]. destruct (get_leaf 0 l [] v Hc E) as (p & _ & ->). apply hashBytes_length.
Qed.

Lemma sparse_bind n l l' : covered n l → covered n l' → refHash n l = refHash n l' → ∀ bits, length bits = n → get bits l = get bits l'.
Proof.
  revert l l'. induction n as [|n IH]; intros l l' Hc Hc' E bits Hb.
  - destruct bits; [|done]. rewrite !refHash_O in E. pose proof (empty_covered _ _ Hc) as He.
    destruct (get [] l) as [v|] eqn:E1, (get [] l') as [w|] eqn:E2; simpl in E; [by rewrite E| | |done].
    + exfalso. destruct (get_leaf _ _ _ _ Hc E1) as (p & Hp & ->). exact (leaf_not_default p Hp He E).
    + exfalso. destruct (get_leaf _ _ _ _ Hc' E2) as (p & Hp & ->). symmetry in E. exact (leaf_not_default p Hp He E).
  - destruct bits as [|bit bits]; [done|]. injection Hb as Hb. rewrite !refHash_S in E. rewrite !get_sub.
    apply (hashNode_inj inputs Hfree) in E as [El Er]; [|by rewrite !refHash_length by by apply covered_sub|by apply node_covered|by apply node_covered].
    destruct bit; apply IH; (assumption || by apply covered_sub).
Qed.

(** *** A proof reaches a value of the tree *)

Definition inside (n : nat) (l : list assignment) (x : string) : Prop :=
  ∃ path m, n = (length path + m)%nat ∧ x = refHash m (foldl (λ l b, sub b l) l path).

Lemma covered_path path : ∀ m l, covered (length path + m) l → covered m (foldl (λ l b, sub b l) l path).
Proof. induction path as [|b path IH]; intros m l Hc; [done|]. cbn [foldl]. apply IH, covered_sub. exact Hc. Qed.

Lemma get_path path l : get path l = get [] (foldl (λ l b, sub b l) l path).
Proof. revert l. induction path as [|b path IH]; intros l; [done|]. rewrite get_sub. apply IH. Qed.

Lemma inside_below n l a b : covered n l → String.length a = 64%nat ∨ String.length b = 64%nat → nodeIn a b ∈ inputs → inside n l (hashNode a b) → inside n l a ∧ inside n l b.
Proof.
  intros Hc Ha Hi (path & m & -> & E). pose proof (covered_path path m l Hc) as Hp. destruct m as [|m].
  - exfalso. rewrite refHash_O in E. destruct (get [] _) as [v|] eqn:Eg; simpl in E.
    + destruct (get_leaf _ _ _ _ Hp Eg) as (p & Hl & ->). symmetry in E. by apply (leaf_node_differ inputs Hfree) in E.
    + apply (hashBytes_inj inputs Hfree) in E; [discriminate E|done|by eapply empty_covered].
  - rewrite refHash_S in E. pose proof (refHash_length m _ (covered_sub _ false _ Hp)) as H0. pose proof (refHash_length m _ (covered_sub _ true _ Hp)) as H1.
    assert (a = refHash m (sub false (foldl (λ l b, sub b l) l path)) ∧ b = refHash m (sub true (foldl (λ l b, sub b l) l path))) as [-> ->]
      by (destruct Ha as [Ha|Ha]; [apply (hashNode_inj inputs Hfree) in E|apply (hashNode_inj_r inputs Hfree) in E];
          first [done|congruence|by apply node_covered]).
    split; [exists (path ++ [false]), m|exists (path ++ [true]), m]; rewrite foldl_app, length_app; (split; [simpl; lia|done]).
Qed.

Lemma inside_steps n l cur steps : covered n l → String.length cur = 64%nat →
  stepInputs cur steps ⊆ inputs → inside n l (foldl applyStep cur steps) → inside n l cur.
Proof.
  intros Hc. revert cur. induction steps as [|s steps IH]; intros cur Hl Hs Ht; [done|]. cbn [foldl stepInputs] in *.
  apply IH in Ht; [|unfold applyStep; destruct (siblingIsLeft s); apply hashBytes_length|intros x Hx; apply Hs; by right].
  specialize (Hs _ ltac:(left)). unfold applyStep in Ht. destruct (siblingIsLeft s); apply inside_below in Ht as [? ?]; auto.
Qed.

Lemma inside_leaf n l p : covered n l → leafIn p ∈ inputs → inside n l (hashLeaf p) → ∃ bits, get bits l = Some (hashLeaf p).
Proof.
  intros Hc Hp (path & m & -> & E). pose proof (covered_path path m l Hc) as Hcp. destruct m as [|m].
  - exists path. rewrite get_path. rewrite refHash_O in E. destruct (get [] _) as [v|] eqn:Eg; simpl in E; [by rewrite E|].
    exfalso. apply (leaf_not_default p Hp); [by eapply empty_covered|done].
  - exfalso. rewrite refHash_S in E. apply (leaf_node_differ inputs Hfree) in E; [done|done|by apply node_covered].
Qed.
End sparse.
End SparseFacts.

(** ** Facts about the state roots *)

Module StateRootFacts.
Import CoreMerkle Sparse StateRoot MerkleFacts TreeFacts SparseFacts.

(** *** Keys *)

Definition unnibble (b : list bool) : ascii :=
  match b with
  | [b3; b2; b1; b0] =>
      let v := (if b3 then 8 else 0) + (if b2 then 4 else 0) + (if b1 then 2 else 0) + (if b0 then 1 else 0) in
      ascii_of_N (Z.to_N (if v <? 10 then v + 48 else v + 87))
  | _ => "000"
  end.

Definition nibble_ok (c : ascii) : bool :=
  implb (Address.is_lower_hex c) (match nibbleBits c with Ok b => (length b =? 4)%nat && Ascii.eqb (unnibble b) c | Throw _ => false end).

Lemma nibble_check c : nibble_ok c = true.
Proof. destruct c as [[] [] [] [] [] [] [] []]; vm_compute; reflexivity. Qed.

Lemma nibbleBits_lower c : Address.is_lower_hex c = true → ∃ b, nibbleBits c = Ok b ∧ length b = 4%nat ∧ unnibble b = c.
Proof.
  intros Hc. pose proof (nibble_check c) as Hk. unfold nibble_ok in Hk. rewrite Hc in Hk. cbn [implb] in Hk. destruct (nibbleBits c) as [b|]; [|done].
  apply andb_true_iff in Hk as [Hl Hu]. exists b. split_and!; [done|by apply Nat.eqb_eq|by apply Ascii.eqb_eq].
Qed.

Lemma nibbleBits_length c b : nibbleBits c = Ok b → length b = 4%nat.
Proof. unfold nibbleBits. repeat case_match; intros [= <-]; done. Qed.

Lemma bitsOf_length s b : bitsOf s = Ok b → length b = (4 * String.length s)%nat.
Proof.
  revert b. induction s as [|c s IH]; intros b; cbn [bitsOf]; [by intros [= <-]|]. destruct (nibbleBits c) as [n|] eqn:En; [|done]. destruct (bitsOf s) as [m|]; [|done].
  intros [= <-]. rewrite length_app, (nibbleBits_length c n En), (IH m eq_refl). simpl. lia.
Qed.

Lemma hexToBits_length s b : hexToBits s = Ok b → length b = DEPTH.
Proof.
  unfold hexToBits. destruct (string_size s =? 64) eqn:E; [|done]. cbn. intros Hb%bitsOf_length. rewrite Hb. unfold string_size in E. unfold DEPTH. lia.
Qed.

Fixpoint unbits (n : nat) (b : list bool) : string :=
  match n with O => "" | S n => String (unnibble (take 4 b)) (unbits n (drop 4 b)) end.

Lemma bitsOf_lower s : SafeScalar.all_chars Address.is_lower_hex s = true →
  ∃ b, bitsOf s = Ok b ∧ length b = (4 * String.length s)%nat ∧ unbits (String.length s) b = s.
Proof.
  induction s as [|c s IH]; [by exists []|]. cbn [SafeScalar.all_chars]. intros [Hc Hs]%andb_true_iff. destruct (IH Hs) as (b & E & Hl & Hu).
  destruct (nibbleBits_lower c Hc) as (n & En & Hn & Hcu). exists (n ++ b). cbn [bitsOf]. rewrite En. simpl. rewrite E. simpl. split_and!; [done| |].
  - rewrite length_app. lia.
  - rewrite take_app_length', drop_app_length' by done. by rewrite Hcu, Hu.
Qed.

Section keys.
Context `{Hsha : Sha256Spec}.

Definition keyBits (address : string) : list bool := match hexToBits (accountSmtKey address) with Ok b => b | Throw _ => [] end.

Lemma key_value address : hexToBits (accountSmtKey address) = Ok (keyBits address) ∧ length (keyBits address) = DEPTH ∧
  unbits 64 (keyBits address) = accountSmtKey address.
Proof.
  unfold keyBits, accountSmtKey. destruct (CryptoFacts.hash_shape address) as (h & -> & Hl & Hx). destruct (bitsOf_lower h Hx) as (b & E & Hb & Hu).
  unfold hexToBits, string_size. rewrite Hl. cbn [throw_if negb Z.eqb]. change (Z.of_nat 64 =? 64) with true. cbn. rewrite E. cbn. split_and!; [done|by rewrite Hb, Hl|by rewrite Hl in Hu].
Qed.

Lemma keyBits_length address : length (keyBits address) = DEPTH.
Proof. by destruct (key_value address) as (_ & ? & _). Qed.

(** The leaves of the accounts and of the validators. *)
Definition accountWrites (l : list AccountState.t) : list assignment := (λ a, (keyBits (AccountState.address a), hashLeaf (accountLeafPayload a))) <$> l.
Definition validatorWrites (l : list (string * ValidatorRegistryEntry)) : list assignment := (λ e, (keyBits e.1, hashLeaf (validatorLeafPayload e.2))) <$> l.

Lemma update_key address v node : update (accountSmtKey address) v (mk node precomputeDefaultHashes) =
  Ok (mk (updateRecursive precomputeDefaultHashes node (keyBits address) v) precomputeDefaultHashes).
Proof. unfold update. destruct (key_value address) as (-> & _). done. Qed.

Lemma updates_build {A} (address : A → string) (value : A → string) l node :
  foldR (λ smt a, update (accountSmtKey (address a)) (value a) smt) (mk node precomputeDefaultHashes) l =
  Ok (mk (foldl (λ node e, updateRecursive precomputeDefaultHashes node e.1 e.2) node ((λ a, (keyBits (address a), value a)) <$> l)) precomputeDefaultHashes).
Proof. revert node. induction l as [|a l IH]; intros node; [done|]. cbn [foldR fmap list_fmap foldl fst snd]. rewrite update_key. apply IH. Qed.

Lemma account_tree view : buildAccountStateTree view = Ok (mk (build (accountWrites (AccountStateView.accounts view))) precomputeDefaultHashes).
Proof. apply (updates_build AccountState.address (λ a, hashLeaf (accountLeafPayload a))). Qed.

Lemma validator_tree registry : buildValidatorStateTree registry = Ok (mk (build (validatorWrites (entries registry))) precomputeDefaultHashes).
Proof. apply (updates_build fst (λ e, hashLeaf (validatorLeafPayload e.2))). Qed.

Lemma accountWrites_sized l : sized DEPTH (accountWrites l).
Proof. apply Forall_fmap, Forall_true. intros a. split; [apply keyBits_length|apply hashBytes_length]. Qed.

Lemma validatorWrites_sized l : sized DEPTH (validatorWrites l).
Proof. apply Forall_fmap, Forall_true. intros a. split; [apply keyBits_length|apply hashBytes_length]. Qed.

Lemma account_root view : AccountStateView.isValid view = true →
  calculateAccountStateRoot view = Ok (refHash DEPTH (accountWrites (AccountStateView.accounts view))).
Proof.
  intros Hv. unfold calculateAccountStateRoot. rewrite Hv. cbn [negb]. rewrite account_tree. cbn [fmap result_fmap]. unfold root. cbn [m_root m_defaultHashes].
  rewrite build_hash; [done|lia|apply accountWrites_sized].
Qed.

(** *** Leaves *)

Lemma last_split_inj c a b x y : SafeScalar.contains_char x c = false → SafeScalar.contains_char y c = false → a +:+ String c x = b +:+ String c y → a = b ∧ x = y.
Proof.
  revert b. induction a as [|d a IH]; intros [|e b] Hx Hy E; cbn in E.
  - by injection E as ->.
  - injection E as -> E. subst x. rewrite SafeScalar.contains_char_app in Hx. cbn in Hx. rewrite Ascii.eqb_refl in Hx. cbn in Hx. by rewrite orb_true_r in Hx.
  - injection E as -> E. subst y. rewrite SafeScalar.contains_char_app in Hy. cbn in Hy. rewrite Ascii.eqb_refl in Hy. cbn in Hy. by rewrite orb_true_r in Hy.
  - injection E as -> E. by destruct (IH b Hx Hy E) as [-> ->].
Qed.

Lemma tail_plain tag z rest : SafeScalar.contains_char tag ";" = false → SafeScalar.contains_char rest ";" = false →
  SafeScalar.contains_char (tag +:+ to_string z +:+ rest) ";" = false.
Proof. intros Ht Hr. by rewrite !SafeScalar.contains_char_app, Ht, Hr, TransactionFacts.to_string_plain. Qed.

Lemma accountLeaf_inj a b : accountLeafPayload a = accountLeafPayload b → a = b.
Proof.
  destruct a as [x n m], b as [y n' m']. unfold accountLeafPayload. cbn [AccountState.address AccountState.balance AccountState.nonce]. intros E. apply prefix_inj in E.
  change (";balance=" +:+ ?t) with (String ";" ("balance=" +:+ t)) in E. change (";nonce=" +:+ ?t) with (String ";" ("nonce=" +:+ t)) in E.
  assert (∀ x n t, x +:+ String ";" ("balance=" +:+ to_string n +:+ t) = (x +:+ String ";" ("balance=" +:+ to_string n)) +:+ t) as Hassoc.
  { intros u k t. rewrite string_app_assoc. f_equal. }
  rewrite !Hassoc in E.
  apply last_split_inj in E as [E Em]; [|by apply (tail_plain "nonce=" _ "}")..].
  apply last_split_inj in E as [-> En]; [|rewrite SafeScalar.contains_char_app; by rewrite TransactionFacts.to_string_plain..].
  apply prefix_inj, (inj to_string) in En as ->. apply prefix_inj in Em.
  assert (to_string m = to_string m') as Hm; [|by apply (inj to_string) in Hm as ->].
  change "}" with (String "}" "") in Em. apply TransactionFacts.field_inj in Em as [Em _]; [done|by apply TransactionFacts.to_string_plain..].
Qed.

(** *** Accounts and their leaves *)

Lemma get_map {A} (k : A → list bool) (v : A → string) l x : (∀ y, y ∈ l → k y = k x → y = x) → x ∈ l → get (k x) ((λ y, (k y, v y)) <$> l) = Some (v x).
Proof.
  induction l as [|y l IH]; intros Hinj Hx; [by apply elem_of_nil in Hx|]. cbn [fmap list_fmap get].
  destruct (get (k x) _) as [w|] eqn:Eg.
  - apply get_elem, list_elem_of_fmap in Eg as (z & [= Ek ->] & Hz). do 2 f_equal. apply Hinj; [by right|done].
  - destruct (decide (k y = k x)) as [E|Hne].
    + do 2 f_equal. apply Hinj; [left|done].
    + apply elem_of_cons in Hx as [->|Hx]; [done|]. apply IH; [|done]. intros z Hz. apply Hinj. by right.
Qed.

Lemma view_account view k a : AccountStateView.isValid view = true → view !! k = Some a → AccountState.address a = k ∧ a ∈ AccountStateView.accounts view.
Proof.
  unfold AccountStateView.isValid. rewrite forallb_forall. intros Hv Hl. apply elem_of_entries in Hl. split.
  - specialize (Hv _ ltac:(by apply list_elem_of_In)). cbn in Hv. apply negb_true_iff, orb_false_iff in Hv as [Hv _]. apply orb_false_iff in Hv as [_ Hv].
    by apply negb_false_iff, String.eqb_eq in Hv.
  - apply list_elem_of_fmap. by exists (k, a).
Qed.

Lemma account_view view a : AccountStateView.isValid view = true → a ∈ AccountStateView.accounts view → view !! AccountState.address a = Some a.
Proof.
  intros Hv ([k b] & -> & He)%list_elem_of_fmap. apply elem_of_entries in He. cbn [snd]. destruct (view_account view k b Hv He) as [-> _]. done.
Qed.

Lemma account_present view a : AccountStateView.isValid view = true → a ∈ AccountStateView.accounts view → AccountStateView.hasAccount view (AccountState.address a) = true.
Proof.
  intros Hv Ha. unfold AccountStateView.hasAccount. rewrite (account_view view a Hv Ha). destruct (empty_string (AccountState.address a)) eqn:E; [|by apply bool_decide_eq_true].
  exfalso. pose proof (account_view view a Hv Ha) as Hl. apply elem_of_entries in Hl. unfold AccountStateView.isValid in Hv. rewrite forallb_forall in Hv.
  specialize (Hv _ ltac:(by apply list_elem_of_In)). apply negb_true_iff, orb_false_iff in Hv as [Hv _]. apply orb_false_iff in Hv as [Hv _]. cbn [fst] in Hv. congruence.
Qed.

Lemma c_str_plain s : SafeScalar.contains_char s "000" = false → Hash.c_str s = s.
Proof. induction s as [|c s IH]; [done|]. cbn [SafeScalar.contains_char Hash.c_str]. intros [-> Hs]%orb_false_iff. by rewrite IH. Qed.

Definition accountInputs (view : AccountStateView.t) : list string :=
  let l := AccountStateView.accounts view in
  defaultInputs DEPTH ++ treeInputs DEPTH (accountWrites l) ++ ((λ a, leafIn (accountLeafPayload a)) <$> l) ++ (AccountState.address <$> l).

Variable inputs : list string.
Hypothesis Hfree : collision_free evp_sha256 inputs.

Lemma accountInputs_split view : accountInputs view ⊆ inputs →
  covered inputs DEPTH (accountWrites (AccountStateView.accounts view)) ∧
  ∀ a, a ∈ AccountStateView.accounts view → leafIn (accountLeafPayload a) ∈ inputs ∧ AccountState.address a ∈ inputs.
Proof.
  unfold accountInputs. cbv zeta. intros Hs. assert (∀ a, a ∈ AccountStateView.accounts view → leafIn (accountLeafPayload a) ∈ inputs ∧ AccountState.address a ∈ inputs) as Ha.
  { intros a Ha. split; apply Hs; apply elem_of_app; right; apply elem_of_app; right; apply elem_of_app; [left|right]; apply list_elem_of_fmap; by exists a. }
  split; [|done]. split_and!.
  - intros x Hx. apply Hs, elem_of_app. by left.
  - intros x Hx. apply Hs, elem_of_app. right. apply elem_of_app. by left.
  - apply Forall_fmap, Forall_forall. intros a Hin. exists (accountLeafPayload a). split; [by apply Ha|done].
Qed.

Lemma keyBits_inj a b : a ∈ inputs → b ∈ inputs → SafeScalar.contains_char a "000" = false → SafeScalar.contains_char b "000" = false → keyBits a = keyBits b → a = b.
Proof.
  intros Ha Hb Pa Pb E. destruct (key_value a) as (_ & _ & Ka), (key_value b) as (_ & _ & Kb). rewrite E, Kb in Ka. apply (hashBytes_inj inputs Hfree); [done|done|].
  unfold accountSmtKey, Hash.hashCString, Hash.nodo_hash_string in Ka. rewrite !c_str_plain in Ka by done. unfold Hash.hashBytes. by rewrite Ka.
Qed.

Lemma get_account view a : AccountStateView.isValid view = true → accountInputs view ⊆ inputs →
  Forall (λ a, SafeScalar.contains_char (AccountState.address a) "000" = false) (AccountStateView.accounts view) →
  a ∈ AccountStateView.accounts view → get (keyBits (AccountState.address a)) (accountWrites (AccountStateView.accounts view)) = Some (hashLeaf (accountLeafPayload a)).
Proof.
  intros Hv Hs Hn Ha. destruct (accountInputs_split view Hs) as [_ Hin]. rewrite Forall_forall in Hn.
  apply (get_map (λ a, keyBits (AccountState.address a)) (λ a, hashLeaf (accountLeafPayload a))); [|done]. intros b Hb E.
  apply keyBits_inj in E; [|by apply Hin|by apply Hin|by apply Hn|by apply Hn]. pose proof (account_view view a Hv Ha) as H1. pose proof (account_view view b Hv Hb) as H2. congruence.
Qed.

Lemma account_root_incl v v' k a : AccountStateView.isValid v = true → AccountStateView.isValid v' = true → accountInputs v ⊆ inputs → accountInputs v' ⊆ inputs →
  Forall (λ a, SafeScalar.contains_char (AccountState.address a) "000" = false) (AccountStateView.accounts v) →
  refHash DEPTH (accountWrites (AccountStateView.accounts v)) = refHash DEPTH (accountWrites (AccountStateView.accounts v')) →
  v !! k = Some a → v' !! k = Some a.
Proof.
  intros Hv Hv' Hs Hs' Hn E Hk. destruct (view_account v k a Hv Hk) as [<- Ha]. destruct (accountInputs_split v Hs) as [Hc Hin], (accountInputs_split v' Hs') as [Hc' Hin'].
  pose proof (get_account v a Hv Hs Hn Ha) as Hg.
  rewrite (sparse_bind inputs Hfree DEPTH _ _ Hc Hc' E) in Hg by apply keyBits_length. apply get_elem, list_elem_of_fmap in Hg as (b & [= _ Eb] & Hb).
  apply (leaf_inj inputs Hfree) in Eb; [|by apply Hin|by apply Hin']. apply accountLeaf_inj in Eb as ->. by apply account_view.
Qed.

(** *** Proofs of accounts *)

Lemma foldl_reverse {A B} (f : A → B → A) a l : foldl f a (reverse l) = foldr (λ b a, f a b) a l.
Proof. induction l as [|b l IH]; [done|]. by rewrite reverse_cons, foldl_app, IH. Qed.

Lemma verify_steps leaf steps root : String.length leaf = 64%nat → verify (Proof_ leaf steps) root = true ↔ foldl applyStep leaf steps = root.
Proof.
  intros Hl. unfold verify, isValid, reconstructRoot. cbn [CoreMerkle.leafHash CoreMerkle.steps]. rewrite digest_nonempty by done. cbn [negb andb]. apply String.eqb_eq.
Qed.

Lemma proof_value view address : AccountStateView.isValid view = true → AccountStateView.hasAccount view address = true →
  let writes := accountWrites (AccountStateView.accounts view) in
  accountInclusionProof view address =
    Ok (Proof_ (default (Hash.hashBytes "") (get (keyBits address) writes)) (reverse (collectProofSteps precomputeDefaultHashes (build writes) (keyBits address)))).
Proof.
  intros Hv Ha. cbv zeta. unfold accountInclusionProof. rewrite Hv, Ha. cbn [negb orb]. rewrite account_tree. cbn [result_bind mbind].
  unfold generateProof. destruct (key_value address) as (-> & Hl & _). cbn [mbind result_bind m_root m_defaultHashes].
  rewrite (descend_leaf DEPTH); [done|lia|apply accountWrites_sized|done].
Qed.

(** *** Sorted trees *)

Definition sortedInputs (payloads : list string) : list string :=
  let l := merge_sort String.le payloads in (leafIn <$> l) ++ allInputs (hashLeaf <$> l).

Lemma hashLeaf_map_inj l l' : leafIn <$> l ⊆ inputs → leafIn <$> l' ⊆ inputs → hashLeaf <$> l = hashLeaf <$> l' → l = l'.
Proof.
  revert l'. induction l as [|x l IH]; intros [|y l'] Hs Hs' E; try done. cbn [fmap list_fmap] in *. injection E as Ex E.
  apply (leaf_inj inputs Hfree) in Ex as ->; [|apply Hs; left|apply Hs'; left]. f_equal. apply IH; [intros z Hz; apply Hs; by right|intros z Hz; apply Hs'; by right|done].
Qed.

Lemma sorted_parts l : sortedInputs l ⊆ inputs → NoDup l → let s := merge_sort String.le l in
  leafIn <$> s ⊆ inputs ∧ Forall (level inputs 0) (hashLeaf <$> s) ∧ allInputs (hashLeaf <$> s) ⊆ inputs ∧ NoDup (hashLeaf <$> s).
Proof.
  intros Hs Hnd. cbv zeta. unfold sortedInputs in Hs. cbv zeta in Hs. assert (leafIn <$> merge_sort String.le l ⊆ inputs) as H1 by (intros x Hx; apply Hs, elem_of_app; by left).
  split_and!; [done| |intros x Hx; apply Hs, elem_of_app; by right|].
  - apply Forall_fmap, Forall_forall. intros p Hp. exists p. split; [|done]. apply H1, list_elem_of_fmap. by exists p.
  - apply NoDup_fmap_2_strong; [|by rewrite merge_sort_Permutation]. intros x y Hx Hy E. apply (leaf_inj inputs Hfree) in E; [done|..]; apply H1, list_elem_of_fmap; eauto.
Qed.

Lemma buildRoot_bind l l' : l ≠ [] → l' ≠ [] → NoDup l → NoDup l' → sortedInputs l ⊆ inputs → sortedInputs l' ⊆ inputs → buildRoot l = buildRoot l' → l ≡ₚ l'.
Proof.
  intros Hne Hne' Hnd Hnd' Hs Hs'. unfold buildRoot. rewrite !bool_decide_false by done. intros E.
  destruct (sorted_parts l Hs Hnd) as (H1 & H2 & H3 & H4), (sorted_parts l' Hs' Hnd') as (H1' & H2' & H3' & H4').
  assert (∀ k, k ≠ [] → hashLeaf <$> merge_sort String.le k ≠ []) as Hsome.
  { intros k Hk Ek. apply fmap_nil_inv in Ek. pose proof (merge_sort_Permutation String.le k) as P. rewrite Ek in P. by apply Permutation_nil in P. }
  apply (layers_bind inputs Hfree 0) in E; [|by apply Hsome|by apply Hsome|done..].
  apply hashLeaf_map_inj in E; [|done|done]. rewrite <- (merge_sort_Permutation String.le l), E. apply merge_sort_Permutation.
Qed.
End keys.

(** *** Leaves of the other domains *)

Import EncodingFacts.

Definition lengthPrefixed (s : string) : list Z := be 4 (string_size s) ++ Bytes.of_string s.
Definition fits32 (s : string) : Prop := string_size s ≤ u32_max.

Lemma writeString_cases s w : fits32 s ∧ Writer.writeString s w = (Ok tt, w ++ lengthPrefixed s) ∨ ∃ e, Writer.writeString s w = (Throw e, w).
Proof.
  destruct (u32_max <? string_size s) eqn:E.
  - right. exists (length_error "Canonical string field is too large."). unfold Writer.writeString. rewrite E. done.
  - left. split; [unfold fits32; lia|]. unfold Writer.writeString. rewrite E. exact (writes_bind _ _ _ _ (Fields.writes_uint32 _) (writes_append _) w).
Qed.

Lemma then_cases s (k : M Writer.t unit) w v : (Writer.writeString s;; k) w = (Ok tt, v) → fits32 s ∧ k (w ++ lengthPrefixed s) = (Ok tt, v).
Proof.
  intros E. destruct (writeString_cases s w) as [[Hs E1]|[e E1]].
  - split; [done|]. by rewrite (M_run_Ok _ _ _ _ _ E1) in E.
  - exfalso. unfold mbind, M_bind in E. rewrite E1 in E. discriminate E.
Qed.

Lemma byteString_inv m x : Writer.byteString m = Ok x → ∃ v, m [] = (Ok tt, v) ∧ x = Bytes.to_string v.
Proof. unfold Writer.byteString, Writer.bytes, on_local. destruct (m []) as [[[]|e] v]; [|done]. intros [= <-]. by exists v. Qed.

Lemma domainLeaf_value d p x : domainLeaf d p = Ok x →
  fits32 d ∧ fits32 p ∧ Bytes.of_string x = lengthPrefixed "NODO_STATE_DOMAIN_V2" ++ lengthPrefixed d ++ lengthPrefixed p.
Proof.
  intros (v & E & ->)%byteString_inv. apply then_cases in E as [_ E]. apply then_cases in E as [Hd E].
  destruct (writeString_cases p (([] ++ lengthPrefixed "NODO_STATE_DOMAIN_V2") ++ lengthPrefixed d)) as [[Hp E1]|[e E1]]; rewrite E1 in E; [|discriminate E].
  assert (v = (([] ++ lengthPrefixed "NODO_STATE_DOMAIN_V2") ++ lengthPrefixed d) ++ lengthPrefixed p) as -> by congruence.
  split_and!; [done|done|]. rewrite of_to_string; [by rewrite <- !app_assoc|].
  repeat apply Forall_app_2; apply of_string_bytes || apply be_bytes || constructor.
Qed.

Lemma lengthPrefixed_inj a b x y : fits32 a → fits32 b → lengthPrefixed a ++ x = lengthPrefixed b ++ y → a = b ∧ x = y.
Proof.
  intros Ha Hb E. unfold lengthPrefixed in E. rewrite <- !app_assoc in E. pose proof (of_string_size a) as Sa. pose proof (of_string_size b) as Sb.
  apply be4_app_inj in E as [El E]; [|unfold fits32, u32_max, string_size in *; lia..]. apply app_inj_1 in E as [E ->]; [|unfold Bytes.size in *; lia].
  by apply of_string_inj in E.
Qed.

Lemma domainLeaf_inj d p d' p' x : domainLeaf d p = Ok x → domainLeaf d' p' = Ok x → d = d' ∧ p = p'.
Proof.
  intros (Hd & Hp & E)%domainLeaf_value (Hd' & Hp' & E')%domainLeaf_value. rewrite E in E'. apply lengthPrefixed_inj in E' as [_ E']; [|done|done].
  apply lengthPrefixed_inj in E' as [-> E']; [|done|done]. split; [done|]. apply (lengthPrefixed_inj p p' [] []); [done|done|by rewrite !app_nil_r].
Qed.

Lemma domainLeaves_value l leaves : domainLeaves l = Ok (Some leaves) → Forall2 (λ e x, domainLeaf e.1 e.2 = Ok x ∧ e.1 ≠ "accounts") l leaves.
Proof.
  revert leaves. induction l as [|[d p] l IH]; intros leaves; cbn [domainLeaves]; [intros [= <-]; constructor|].
  destruct (empty_string d || String.eqb d "accounts" || empty_string p) eqn:Eg; [done|]. apply orb_false_iff in Eg as [Eg _]. apply orb_false_iff in Eg as [_ Eg].
  destruct (domainLeaf d p) as [x|] eqn:Ex; [|done]. destruct (domainLeaves l) as [[rest|]|]; intros [= <-]. constructor; [|by apply IH]. split; [done|by apply String.eqb_neq].
Qed.

Section protocol.
Context `{Hsha : Sha256Spec}.

#[local] Opaque refHash DEPTH.

(** The leaves under the root of a state with other domains. *)
Definition protocolLeaves (view : AccountStateView.t) (domains : gmap string string) : list string :=
  match calculateAccountStateRoot view, domainLeaves (entries domains) with
  | Ok root, Ok (Some leaves) => match domainLeaf "accounts" root with Ok leaf => leaf :: leaves | Throw _ => [] end
  | _, _ => []
  end.
Definition protocolInputs (view : AccountStateView.t) (domains : gmap string string) : list string :=
  accountInputs view ++ sortedInputs (protocolLeaves view domains).

Lemma protocol_root_value view domains r : domains ≠ ∅ → r ≠ "" → calculateProtocolStateRoot view domains = Ok r →
  ∃ root leaf leaves, AccountStateView.isValid view = true ∧ root = refHash DEPTH (accountWrites (AccountStateView.accounts view)) ∧
    domainLeaf "accounts" root = Ok leaf ∧ Forall2 (λ e x, domainLeaf e.1 e.2 = Ok x ∧ e.1 ≠ "accounts") (entries domains) leaves ∧
    protocolLeaves view domains = leaf :: leaves ∧ r = buildRoot (leaf :: leaves).
Proof.
  intros Hd Hr. unfold calculateProtocolStateRoot, protocolLeaves. destruct (calculateAccountStateRoot view) as [root|] eqn:Eroot; [|done]. cbn [mbind result_bind].
  destruct (empty_string root) eqn:Ee; [by intros [= <-]|]. rewrite bool_decide_false by done. destruct (domainLeaf "accounts" root) as [leaf|] eqn:El; [|done]. cbn [mbind result_bind].
  destruct (domainLeaves (entries domains)) as [[leaves|]|] eqn:Els; cbn [mbind result_bind]; [|by intros [= <-]|done]. intros E. injection E as <-.
  destruct (AccountStateView.isValid view) eqn:Ev; [|unfold calculateAccountStateRoot in Eroot; rewrite Ev in Eroot; by injection Eroot as <-].
  rewrite (account_root view Ev) in Eroot. injection Eroot as <-. exists (refHash DEPTH (accountWrites (AccountStateView.accounts view))), leaf, leaves.
  split_and!; [done|done|done|by apply domainLeaves_value|done|done].
Qed.

Lemma leaves_elem l leaves x : Forall2 (λ e x, domainLeaf e.1 e.2 = Ok x ∧ e.1 ≠ "accounts") l leaves → x ∈ leaves → ∃ d p, (d, p) ∈ l ∧ domainLeaf d p = Ok x ∧ d ≠ "accounts".
Proof. induction 1 as [|[d p] y l leaves [Hy Hn] _ IH]; [by intros ?%elem_of_nil|]. intros [->|Hx]%elem_of_cons; [exists d, p; split_and!; [left|done|done]|]. destruct (IH Hx) as (d' & p' & ? & ? & ?). exists d', p'. split_and!; [by right|done|done]. Qed.

Lemma elem_leaves l leaves d p : Forall2 (λ e x, domainLeaf e.1 e.2 = Ok x ∧ e.1 ≠ "accounts") l leaves → (d, p) ∈ l → ∃ x, x ∈ leaves ∧ domainLeaf d p = Ok x ∧ d ≠ "accounts".
Proof. induction 1 as [|e y l leaves [Hy Hn] _ IH]; [by intros ?%elem_of_nil|]. intros [<-|Hx]%elem_of_cons; [exists y; split_and!; [left|done|done]|]. destruct (IH Hx) as (x & ? & ? & ?). exists x. split_and!; [by right|done|done]. Qed.

Lemma leaves_nodup root leaf l leaves : domainLeaf "accounts" root = Ok leaf → NoDup l.*1 → Forall2 (λ e x, domainLeaf e.1 e.2 = Ok x ∧ e.1 ≠ "accounts") l leaves → NoDup (leaf :: leaves).
Proof.
  intros Hl Hnd Hf. apply NoDup_cons. split.
  - intros (d & p & _ & Hd & Hn)%(leaves_elem _ _ _ Hf). by destruct (domainLeaf_inj _ _ _ _ _ Hl Hd) as [<- _].
  - induction Hf as [|[d p] y l leaves [Hy Hn] Hf IH]; [constructor|]. rewrite fmap_cons in Hnd. cbn [fst snd] in *. apply NoDup_cons in Hnd as [Hd Hnd]. apply NoDup_cons. split; [|by apply IH].
    intros (d' & p' & He & Hd' & _)%(leaves_elem _ _ _ Hf). destruct (domainLeaf_inj _ _ _ _ _ Hy Hd') as [-> _]. apply Hd, list_elem_of_fmap. by exists (d', p').
Qed.

Lemma domains_incl root root' leaf leaf' (m m' : gmap string string) leaves leaves' : domainLeaf "accounts" root = Ok leaf → domainLeaf "accounts" root' = Ok leaf' →
  Forall2 (λ e x, domainLeaf e.1 e.2 = Ok x ∧ e.1 ≠ "accounts") (entries m) leaves → Forall2 (λ e x, domainLeaf e.1 e.2 = Ok x ∧ e.1 ≠ "accounts") (entries m') leaves' →
  leaf :: leaves ≡ₚ leaf' :: leaves' → root = root' ∧ ∀ d p, m !! d = Some p → m' !! d = Some p.
Proof.
  intros Hl Hl' Hf Hf' HP. split.
  - assert (leaf ∈ leaf' :: leaves') as [->|(d & p & _ & Hd & Hn)%(leaves_elem _ _ _ Hf')]%elem_of_cons by (rewrite <- HP; left).
    + by destruct (domainLeaf_inj _ _ _ _ _ Hl Hl') as [_ ->].
    + by destruct (domainLeaf_inj _ _ _ _ _ Hl Hd) as [<- _].
  - intros d p Hm%elem_of_entries. destruct (elem_leaves _ _ _ _ Hf Hm) as (x & Hx & Hd & Hn).
    assert (x ∈ leaf' :: leaves') as [->|(d' & p' & He & Hd' & _)%(leaves_elem _ _ _ Hf')]%elem_of_cons by (rewrite <- HP; by right).
    + by destruct (domainLeaf_inj _ _ _ _ _ Hl' Hd) as [<- _].
    + destruct (domainLeaf_inj _ _ _ _ _ Hd Hd') as [-> ->]. by apply elem_of_entries.
Qed.

Variable inputs : list string.
Hypothesis Hfree : collision_free evp_sha256 inputs.
Definition noNul (view : AccountStateView.t) : Prop := Forall (λ a, SafeScalar.contains_char (AccountState.address a) "000" = false) (AccountStateView.accounts view).

Lemma account_root_bind v v' : AccountStateView.isValid v = true → AccountStateView.isValid v' = true → accountInputs v ⊆ inputs → accountInputs v' ⊆ inputs →
  noNul v → noNul v' → refHash DEPTH (accountWrites (AccountStateView.accounts v)) = refHash DEPTH (accountWrites (AccountStateView.accounts v')) → v = v'.
Proof.
  intros Hv Hv' Hs Hs' Hn Hn' E. apply map_eq. intros k. apply option_eq. intros a. split; apply (account_root_incl inputs Hfree); done.
Qed.

Lemma protocol_root_bind v v' m m' r : m ≠ ∅ → m' ≠ ∅ → r ≠ "" → noNul v → noNul v' → protocolInputs v m ⊆ inputs → protocolInputs v' m' ⊆ inputs →
  calculateProtocolStateRoot v m = Ok r → calculateProtocolStateRoot v' m' = Ok r → v = v' ∧ m = m'.
Proof.
  intros Hm Hm' Hr Hn Hn' Hs Hs' E E'. destruct (protocol_root_value v m r Hm Hr E) as (root & leaf & leaves & Hv & Eroot & El & Hf & Epl & ->).
  destruct (protocol_root_value v' m' _ Hm' Hr E') as (root' & leaf' & leaves' & Hv' & Eroot' & El' & Hf' & Epl' & Er).
  unfold protocolInputs in Hs, Hs'. rewrite Epl in Hs. rewrite Epl' in Hs'.
  apply (buildRoot_bind inputs Hfree) in Er; [|done|done|by eapply leaves_nodup, Hf; [done|apply NoDup_fst_entries]|by eapply leaves_nodup, Hf'; [done|apply NoDup_fst_entries]|
    intros x Hx; apply Hs, elem_of_app; by right|intros x Hx; apply Hs', elem_of_app; by right].
  destruct (domains_incl _ _ _ _ _ _ _ _ El El' Hf Hf' Er) as [<- Hincl]. destruct (domains_incl _ _ _ _ _ _ _ _ El' El Hf' Hf (symmetry Er)) as [_ Hincl'].
  split.
  - apply account_root_bind; [done|done|intros x Hx; apply Hs, elem_of_app; by left|intros x Hx; apply Hs', elem_of_app; by left|done|done|by rewrite <- Eroot, <- Eroot'].
  - apply map_eq. intros k. apply option_eq. intros p. split; [apply Hincl|apply Hincl'].
Qed.
End protocol.
End StateRootFacts.

(** ** Properties *)

Module StateTreeProperties.
Import CoreMerkle Sparse StateRoot MerkleFacts TreeFacts SparseFacts StateRootFacts.

Section properties.
Context `{Hsha : Sha256Spec}.
#[local] Opaque refHash fullHash DEPTH precomputeDefaultHashes.

(** C16. The sparse tree stores one node per written path and nothing for empty subtrees,
    yet it is the complete tree of depth 256: after any sequence of updates with keys that
    are 64 hexadecimal digits and values that are digests, the root is the hash of the full
    tree whose leaves are the values written last (so the order of updates to different keys
    does not matter), and the proof generated for any key, written or not, verifies against
    that root and starts from the value of the key. *)
Theorem sparse_tree_is_complete_tree (l : list (string * string)) (paths : list (list bool)) :
  Forall2 (λ e path, hexToBits e.1 = Ok path ∧ String.length e.2 = 64%nat) l paths →
  ∃ t, foldR (λ s e, update e.1 e.2 s) empty l = Ok t ∧
    root t = fullHash DEPTH (λ path, get path (zip paths l.*2)) ∧
    ∀ key path, hexToBits key = Ok path →
      ∃ steps, generateProof key t = Ok (Proof_ (default (Hash.hashBytes "") (get path (zip paths l.*2))) steps) ∧
        verify (Proof_ (default (Hash.hashBytes "") (get path (zip paths l.*2))) steps) (root t) = true.
Proof.
  intros Hl. assert (sized DEPTH (zip paths l.*2)) as Hsz.
  { induction Hl as [|[k v] path l paths (Hp & Hv) _ IH]; [constructor|]. constructor; [split; [by apply hexToBits_length in Hp|done]|exact IH]. }
  exists (mk (build (zip paths l.*2)) precomputeDefaultHashes). split; [|split].
  - clear Hsz. unfold build, empty. generalize nullptr. induction Hl as [|[k v] path l paths (Hp & _) _ IH]; intros node; [done|].
    cbn [foldR fst snd] in *.
    assert (update k v (mk node precomputeDefaultHashes) = Ok (mk (updateRecursive precomputeDefaultHashes node path v) precomputeDefaultHashes)) as Hu
      by (unfold update; by rewrite Hp).
    rewrite Hu. apply IH.
  - unfold root. cbn [m_root m_defaultHashes]. by rewrite build_hash, refHash_full by done.
  - intros key path Hk. pose proof (hexToBits_length key path Hk) as Hlen. exists (reverse (collectProofSteps precomputeDefaultHashes (build (zip paths l.*2)) path)). split.
    + unfold generateProof. rewrite Hk. cbn [mbind result_bind m_root m_defaultHashes]. by rewrite (descend_leaf DEPTH).
    + apply verify_steps.
      * destruct (get path _) as [v|] eqn:Eg; [|apply hashBytes_length]. apply get_elem in Eg. unfold sized in Hsz. rewrite Forall_forall in Hsz. by destruct (Hsz _ Eg).
      * unfold root. cbn [m_root m_defaultHashes]. rewrite build_hash by done. rewrite foldl_reverse. by rewrite (steps_climb DEPTH).
Qed.

(** C38. The state root binds the whole protocol state: if the hash has no collisions among
    the texts hashed for two states, no account address of either contains a NUL character,
    and each has at least one further domain, then two states with the same nonempty root
    have the same accounts (addresses, balances and nonces) and the same payload for every
    domain. *)
Theorem protocol_state_root_binds (view view' : AccountStateView.t) (domains domains' : gmap string string) (r : string) :
  domains ≠ ∅ → domains' ≠ ∅ → r ≠ "" → noNul view → noNul view' →
  collision_free evp_sha256 (protocolInputs view domains ++ protocolInputs view' domains') →
  calculateProtocolStateRoot view domains = Ok r → calculateProtocolStateRoot view' domains' = Ok r →
  view = view' ∧ domains = domains'.
Proof.
  intros Hd Hd' Hr Hn Hn' Hfree E E'.
  apply (protocol_root_bind _ Hfree view view' domains domains' r); [done..|intros x Hx; apply elem_of_app; by left|intros x Hx; apply elem_of_app; by right|done|done].
Qed.

(** C39. Account inclusion proofs are complete and sound, for a valid view whose addresses
    contain no NUL character, and hash collisions among the texts involved apart.  For an
    account of the view the proof starts from the account's leaf and verifies against the
    account root.  Any proof, of whatever steps, that verifies against that root and starts
    from the leaf of an account [a], proves that the view holds exactly [a] under its
    address. *)
Theorem account_proofs_sound_and_complete (view : AccountStateView.t) (a : AccountState.t) (p : MerkleProof) :
  AccountStateView.isValid view = true → noNul view →
  collision_free evp_sha256 (accountInputs view ++ leafIn (accountLeafPayload a) :: stepInputs (leafHash p) (steps p)) →
  ∃ root, calculateAccountStateRoot view = Ok root ∧
    (∀ address b, view !! address = Some b →
       ∃ q, accountInclusionProof view address = Ok q ∧ leafHash q = hashLeaf (accountLeafPayload b) ∧ verify q root = true) ∧
    (leafHash p = hashLeaf (accountLeafPayload a) →
       verify p root = true → view !! AccountState.address a = Some a).
Proof.
  intros Hv Hn Hfree. exists (refHash DEPTH (accountWrites (AccountStateView.accounts view))). split; [by apply account_root|].
  set (inputs := accountInputs view ++ leafIn (accountLeafPayload a) :: stepInputs (leafHash p) (steps p)) in *.
  assert (accountInputs view ⊆ inputs) as Hs by (intros x Hx; apply elem_of_app; by left). destruct (accountInputs_split inputs view Hs) as [Hc Hin]. split.
  - intros address b Hb. destruct (view_account view address b Hv Hb) as [<- Hel]. pose proof (get_account inputs Hfree view b Hv Hs Hn Hel) as Hg.
    rewrite proof_value; [|done|by apply account_present]. rewrite Hg. cbn [default]. eexists. split_and!; [done|done|]. apply verify_steps; [apply hashBytes_length|].
    rewrite foldl_reverse. pose proof (steps_climb DEPTH _ _ (le_n DEPTH) (accountWrites_sized (AccountStateView.accounts view)) (keyBits_length (AccountState.address b))) as Hcl.
    rewrite Hg in Hcl. exact Hcl.
  - destruct p as [leaf st]. cbn [CoreMerkle.leafHash CoreMerkle.steps] in *. intros -> Hver. apply verify_steps in Hver; [|apply hashBytes_length].
    assert (leafIn (accountLeafPayload a) ∈ inputs) as Hla by (apply elem_of_app; right; left).
    destruct (inside_leaf inputs Hfree DEPTH (accountWrites (AccountStateView.accounts view)) (accountLeafPayload a) Hc Hla) as [bits Hg].
    + apply (inside_steps inputs Hfree DEPTH _ _ st Hc); [apply hashBytes_length|intros x Hx; apply elem_of_app; right; by right|].
      exists [], DEPTH. split; [done|]. exact Hver.
    + apply get_elem, list_elem_of_fmap in Hg as (b & [= _ Eb] & Hb). apply (leaf_inj inputs Hfree) in Eb; [|done|by apply Hin].
      apply accountLeaf_inj in Eb as ->. by apply account_view.
Qed.

(** The records root binds the records of a block and their order, and the proofs that
    the light client receives are complete and sound: [buildOrderedMerkleProof] verifies for
    every index, and a proof that verifies for the ordered leaf of a record and an index
    proves that the record is at that index (hash collisions among the texts apart). *)
Theorem record_proofs_sound_and_complete (records records' : list string) (p : MerkleProof) (i : Z) (record : string) :
  records ≠ [] →
  collision_free evp_sha256 (orderedInputs records ++ orderedInputs records' ++ leafIn (orderedLeaf i record) :: stepInputs (leafHash p) (steps p)) →
  (buildOrderedRoot records = buildOrderedRoot records' → records = records') ∧
  (∀ j, (j < length records)%nat → verify (buildOrderedMerkleProof records j) (buildOrderedRoot records) = true) ∧
  (leafHash p = hashOrderedLeaf i record → verify p (buildOrderedRoot records) = true → 0 ≤ i ∧ records !! Z.to_nat i = Some record).
Proof.
  intros Hne Hfree. assert (orderedInputs records ⊆ orderedInputs records ++ orderedInputs records' ++ leafIn (orderedLeaf i record) :: stepInputs (leafHash p) (steps p)) as Hs
    by (intros x Hx; apply elem_of_app; by left). split_and!.
  - apply (ordered_root_bind _ Hfree); [done|]. intros x Hx. apply elem_of_app. right. apply elem_of_app. by left.
  - intros j Hj. by apply ordered_proof_complete.
  - intros Hleaf Hver. apply (ordered_proof_sound _ Hfree records i record p); [done|..|done|done|done]; [|intros x Hx]; apply elem_of_app; right; apply elem_of_app; right; [left|by right].
Qed.
End properties.

(** *** Evaluating the hypotheses *)

Section evaluate.
Context `{Hsha : Sha256Spec}.

(** The root of a subtree and the texts it hashes, in one pass. *)
Fixpoint treeRun (defaults : list string) (n : nat) (l : list assignment) : string * list string :=
  match l, n with
  | [], _ => (nth n defaults "", [])
  | _, O => (default (Hash.hashBytes "") (get [] l), [])
  | _, S n =>
      let '(a, ia) := treeRun defaults n (sub false l) in
      let '(b, ib) := treeRun defaults n (sub true l) in
      (hashNode a b, nodeIn a b :: ia ++ ib)
  end.

Lemma treeRun_value N n l : (n ≤ N)%nat → treeRun (defaultsFrom N (Hash.hashBytes "")) n l = (refHash n l, treeInputs n l).
Proof.
  revert l. induction n as [|n IH]; intros [|e l] Hn; cbn [treeRun].
  1, 3: rewrite defaults_nth by done; done.
  - done.
  - rewrite !IH by lia. done.
Qed.

Lemma defaultInputs_value n : defaultInputs n = "" :: ((λ d, nodeIn d d) <$> take n (defaultsFrom n (Hash.hashBytes ""))).
Proof.
  unfold defaultInputs. f_equal. unfold defaultHash. generalize (Hash.hashBytes ""). induction n as [|n IH]; intros h; [done|].
  cbn [seq map defaultsFrom take fmap list_fmap]. f_equal. rewrite <- IH, <- seq_shift, map_map. apply map_ext. intros k. by rewrite Nat.iter_succ_r.
Qed.

Definition accountTexts (view : AccountStateView.t) : list string :=
  let l := AccountStateView.accounts view in
  let defaults := defaultsFrom DEPTH (Hash.hashBytes "") in
  ("" :: ((λ d, nodeIn d d) <$> take DEPTH defaults)) ++ (treeRun defaults DEPTH (accountWrites l)).2 ++ ((λ a, leafIn (accountLeafPayload a)) <$> l) ++ (AccountState.address <$> l).

Lemma accountInputs_value view : accountInputs view = accountTexts view.
Proof. unfold accountInputs, accountTexts. cbv zeta. rewrite defaultInputs_value, (treeRun_value DEPTH DEPTH _ (le_n _)). cbn [snd]. reflexivity. Qed.

Lemma collision_free_sub inputs inputs' : inputs ⊆ inputs' → collision_free evp_sha256 inputs' → collision_free evp_sha256 inputs.
Proof. intros Hs Hf x y Hx Hy. apply Hf; by apply Hs. Qed.
End evaluate.

(** *** Witnesses *)

(** A digest of 61 bits that is cheap to evaluate. *)
Definition small_sha256 : Sha256 := λ s,
  Some (EncodingFacts.be 8 (foldl (λ acc b, Z.land (acc * 257 + b + 1) (Z.ones 61)) 0 (Bytes.of_string s)) ++ replicate 24 0).

Lemma small_sha256_spec : @Sha256Spec small_sha256.
Proof.
  intros s. eexists. split_and!; [reflexivity| |].
  - rewrite length_app, length_replicate. pose proof (EncodingFacts.be_size 8 (foldl (λ acc b, Z.land (acc * 257 + b + 1) (Z.ones 61)) 0 (Bytes.of_string s))) as Hl.
    unfold Bytes.size in Hl. lia.
  - apply Forall_app_2; [apply EncodingFacts.be_bytes|]. apply Forall_replicate. unfold byte. lia.
Qed.

(** A digest for trees of depth 256: a node has one more than the height and the sum of
    the contents of its children, three decimal digits each; other texts have height 0, a
    content and a small digest.  The empty text has content 0. *)
Definition decimals (z : Z) : list Z := [z / 100; (z / 10) mod 10; z mod 10].
Definition digitAt (c : ascii) : Z := Hex.code c - 48.
Definition readNumbers (s : string) : Z * Z :=
  match s with
  | String _ (String a (String _ (String b (String _ (String c (String _ (String d (String _ (String e (String _ (String f _))))))))))) =>
      (100 * digitAt a + 10 * digitAt b + digitAt c, 100 * digitAt d + 10 * digitAt e + digitAt f)
  | _ => (0, 0)
  end.
Fixpoint dropChars (n : nat) (s : string) : string :=
  match n, s with S n, String _ s => dropChars n s | _, _ => s end.
Fixpoint isNode (p s : string) : option string :=
  match p, s with EmptyString, _ => Some s | String a p, String b s => if Ascii.eqb a b then isNode p s else None | String _ _, EmptyString => None end.
Definition tree_digest (s : string) : list Z :=
  match isNode NODE_PREFIX s with
  | Some rest =>
      let l := readNumbers rest in
      let r := readNumbers (dropChars 64 rest) in
      decimals ((l.1 + 1) mod 1000) ++ decimals ((l.2 + r.2) mod 1000) ++ replicate 26 0
  | None =>
      let h := foldl (λ acc b, Z.land (acc * 257 + b + 1) (Z.ones 61)) 0 (Bytes.of_string s) in
      decimals 0 ++ decimals (h mod 1000) ++ EncodingFacts.be 8 h ++ replicate 18 0
  end.
Definition tree_sha256 : Sha256 := λ s, Some (tree_digest s).

Lemma decimals_bytes z : 0 ≤ z < 1000 → Forall byte (decimals z) ∧ length (decimals z) = 3%nat.
Proof.
  intros Hz. split; [|done]. unfold decimals, byte. pose proof (Z.div_mod z 100). pose proof (Z.mod_pos_bound z 100). pose proof (Z.mod_pos_bound (z / 10) 10). pose proof (Z.mod_pos_bound z 10).
  repeat constructor; lia.
Qed.

Lemma tree_sha256_spec : @Sha256Spec tree_sha256.
Proof.
  intros s. exists (tree_digest s). split; [done|]. unfold tree_digest. destruct (isNode NODE_PREFIX s) as [rest|]; cbv zeta.
  - destruct (decimals_bytes (((readNumbers rest).1 + 1) mod 1000)) as [H1 E1]; [apply Z.mod_pos_bound; lia|].
    destruct (decimals_bytes (((readNumbers rest).2 + (readNumbers (dropChars 64 rest)).2) mod 1000)) as [H2 E2]; [apply Z.mod_pos_bound; lia|].
    rewrite !length_app, E1, E2, length_replicate. split; [done|]. repeat apply Forall_app_2; [done|done|]. apply Forall_replicate. unfold byte. lia.
  - set (h := foldl _ 0 _). destruct (decimals_bytes 0) as [H1 E1]; [lia|]. destruct (decimals_bytes (h mod 1000)) as [H2 E2]; [apply Z.mod_pos_bound; lia|].
    pose proof (EncodingFacts.be_size 8 h) as Hl. unfold Bytes.size in Hl. rewrite !length_app, E1, E2, length_replicate. split; [lia|].
    repeat apply Forall_app_2; [done|done|apply EncodingFacts.be_bytes|]. apply Forall_replicate. unfold byte. lia.
Qed.

(** Collision freedom with a map from digests to texts. *)
Definition digestKey (d : option (list Z)) : Z := foldl (λ acc b, acc * 256 + b) 1 (take 14 (default [] d)).
Definition by_digest `{Sha256} (inputs : list string) : gmap Z string := foldr (λ x m, <[digestKey (evp_sha256 x) := x]> m) ∅ inputs.

Lemma by_digest_elem `{Sha256} inputs k x : by_digest inputs !! k = Some x → x ∈ inputs.
Proof.
  induction inputs as [|y inputs IH]; simpl; [by rewrite lookup_empty|]. intros [[_ ->]|[_ Hx]]%lookup_insert_Some; [left|right; by apply IH].
Qed.

Definition no_collision `{Sha256} (inputs : list string) : bool :=
  (λ m : gmap Z string, forallb (λ x, bool_decide (m !! digestKey (evp_sha256 x) = Some x)) inputs) (by_digest inputs).

Lemma collision_free_map `{Sha256} inputs : no_collision inputs = true → collision_free evp_sha256 inputs.
Proof.
  unfold no_collision. rewrite forallb_forall. intros Hf x y Hx%list_elem_of_In Hy%list_elem_of_In E. apply Hf, bool_decide_eq_true_1 in Hx, Hy. rewrite E in Hx. congruence.
Qed.

#[local] Existing Instance tree_sha256.
#[local] Existing Instance tree_sha256_spec.

Definition sample_account (name : string) (balance nonce : Z) : AccountState.t := AccountState.mk name balance nonce.
Definition sample_view : AccountStateView.t := <["alice" := sample_account "alice" 40 1]> (<["bob" := sample_account "bob" 7 0]> ∅).
Definition sample_domains : gmap string string := <["governance" := "g"]> ∅.
Definition sample_state_root : string := MerkleProperties.ok_or "" (calculateProtocolStateRoot sample_view sample_domains).

Lemma sample_state_texts : collision_free evp_sha256 (protocolInputs sample_view sample_domains).
Proof.
  unfold protocolInputs. rewrite accountInputs_value. apply collision_free_map. vm_compute. reflexivity.
Qed.

Lemma sample_noNul : noNul sample_view.
Proof. unfold noNul. change (AccountStateView.accounts sample_view) with [sample_account "alice" 40 1; sample_account "bob" 7 0]. repeat constructor. Qed.

Lemma sample_root_shown : match calculateProtocolStateRoot sample_view sample_domains with Ok r => empty_string r = false | Throw _ => False end.
Proof. vm_compute. reflexivity. Qed.

Lemma sample_root_runs : calculateProtocolStateRoot sample_view sample_domains = Ok sample_state_root ∧ sample_state_root ≠ "".
Proof.
  pose proof sample_root_shown as Hr. unfold sample_state_root. destruct (calculateProtocolStateRoot sample_view sample_domains) as [r|]; [|done].
  split; [reflexivity|]. by apply empty_string_false.
Qed.

Lemma sample_domains_some : sample_domains ≠ ∅.
Proof. apply insert_non_empty. Qed.

(** The same state reached another way: the accounts are stored in another order, alice's after an earlier
    version of it, and the domain replaces another payload. *)
Definition other_view : AccountStateView.t :=
  (AccountStateView.putAccount (sample_account "alice" 40 1)
    (AccountStateView.putAccount (sample_account "bob" 7 0)
      (AccountStateView.putAccount (sample_account "alice" 55 0) ∅).2).2).2.
Definition other_domains : gmap string string := <["governance" := "g"]> (<["governance" := "earlier"]> ∅).

Lemma other_accounts : AccountStateView.accounts other_view = AccountStateView.accounts sample_view ∧ AccountStateView.isValid other_view = AccountStateView.isValid sample_view.
Proof. vm_compute. split; reflexivity. Qed.

Lemma other_entries : entries other_domains = entries sample_domains.
Proof. vm_compute. reflexivity. Qed.

Lemma same_state `{Sha256Spec} view view' domains domains' : AccountStateView.accounts view = AccountStateView.accounts view' →
  AccountStateView.isValid view = AccountStateView.isValid view' → entries domains = entries domains' → domains ≠ ∅ → domains' ≠ ∅ →
  calculateProtocolStateRoot view domains = calculateProtocolStateRoot view' domains' ∧ protocolInputs view domains = protocolInputs view' domains'.
Proof.
  intros Ha Hv He Hd Hd'. assert (calculateAccountStateRoot view = calculateAccountStateRoot view') as Hroot
    by (unfold calculateAccountStateRoot, buildAccountStateTree; by rewrite Ha, Hv).
  unfold calculateProtocolStateRoot, protocolInputs, protocolLeaves, accountInputs. rewrite Hroot, Ha, He, !bool_decide_eq_false_2 by done. split; reflexivity.
Qed.

Lemma other_root_shown : calculateProtocolStateRoot other_view other_domains = calculateProtocolStateRoot sample_view sample_domains ∧
  protocolInputs other_view other_domains = protocolInputs sample_view sample_domains.
Proof. destruct other_accounts as [Ha Hv]. exact (same_state _ _ _ _ Ha Hv other_entries (insert_non_empty _ _ _) sample_domains_some). Qed.

Lemma other_noNul : noNul other_view.
Proof. unfold noNul. rewrite (proj1 other_accounts). exact sample_noNul. Qed.

Lemma protocol_state_root_binds_witness :
  calculateProtocolStateRoot other_view other_domains = calculateProtocolStateRoot sample_view sample_domains ∧
  other_view = sample_view ∧ other_domains = sample_domains.
Proof.
  destruct sample_root_runs as (Hr & Hne). destruct other_root_shown as (Hr' & Hi). split; [exact Hr'|].
  apply (protocol_state_root_binds other_view sample_view other_domains sample_domains sample_state_root);
    [apply insert_non_empty|exact sample_domains_some|exact Hne|exact other_noNul|exact sample_noNul| |rewrite Hr'; exact Hr|exact Hr].
  rewrite Hi. apply (collision_free_sub _ (protocolInputs sample_view sample_domains)); [|exact sample_state_texts]. intros x Hx. apply elem_of_app in Hx as [Hx|Hx]; exact Hx.
Defined.

(** Alice's proof is built, verifies, and proves alice's account. *)
Definition sample_account_proof : MerkleProof := MerkleProperties.ok_or emptyProof (accountInclusionProof sample_view "alice").

Lemma sample_proof_shown : accountInclusionProof sample_view "alice" = Ok sample_account_proof.
Proof. vm_compute. reflexivity. Qed.

Lemma sample_proof_texts : (λ texts : gmap Z string, forallb (λ x, bool_decide (texts !! digestKey (evp_sha256 x) = Some x))
  (leafIn (accountLeafPayload (sample_account "alice" 40 1)) :: stepInputs (leafHash sample_account_proof) (steps sample_account_proof))) (by_digest (accountTexts sample_view)) = true.
Proof. vm_compute. reflexivity. Qed.

Lemma Ok_same {A} (r : result A) a b : r = Ok a → r = Ok b → a = b.
Proof. congruence. Qed.

Lemma account_proofs_sound_and_complete_witness :
  ∃ root, calculateAccountStateRoot sample_view = Ok root ∧ accountInclusionProof sample_view "alice" = Ok sample_account_proof ∧
    verify sample_account_proof root = true ∧ sample_view !! "alice" = Some (sample_account "alice" 40 1).
Proof.
  destruct (account_proofs_sound_and_complete sample_view (sample_account "alice" 40 1) sample_account_proof) as (root & Hroot & Hcomplete & Hsound).
  - vm_compute. reflexivity.
  - exact sample_noNul.
  - apply (collision_free_sub _ (protocolInputs sample_view sample_domains)); [|exact sample_state_texts]. intros x Hx.
    apply elem_of_app in Hx as [Hx|Hx]; [unfold protocolInputs; apply elem_of_app; left; exact Hx|].
    unfold protocolInputs. apply elem_of_app. left. rewrite accountInputs_value. pose proof sample_proof_texts as Ht. cbv beta in Ht. rewrite forallb_forall in Ht.
    apply list_elem_of_In, Ht, bool_decide_eq_true_1 in Hx. exact (by_digest_elem _ _ _ Hx).
  - destruct (Hcomplete "alice" (sample_account "alice" 40 1) eq_refl) as (q & Hq & Hleaf & Hv). pose proof (Ok_same _ _ _ Hq sample_proof_shown) as Heq. subst q.
    exists root. split; [exact Hroot|]. split; [exact sample_proof_shown|]. split; [exact Hv|]. exact (Hsound Hleaf Hv).
Defined.

Definition sample_records : list string := ["mint"; "transfer"; "vote"].

Lemma sample_records_texts : collision_free evp_sha256 (orderedInputs sample_records).
Proof. apply collision_free_check. apply (bool_decide_eq_true_1 _). vm_compute. reflexivity. Qed.

Lemma sample_record_steps : stepInputs (CoreMerkle.leafHash (buildOrderedMerkleProof sample_records 2)) (CoreMerkle.steps (buildOrderedMerkleProof sample_records 2)) ⊆ orderedInputs sample_records.
Proof. apply (bool_decide_eq_true_1 (_ ⊆ _)). vm_compute. reflexivity. Qed.

Lemma record_proofs_sound_and_complete_witness :
  verify (buildOrderedMerkleProof sample_records 2) (buildOrderedRoot sample_records) = true ∧ sample_records !! 2%nat = Some "vote".
Proof.
  destruct (record_proofs_sound_and_complete sample_records sample_records (buildOrderedMerkleProof sample_records 2) 2 "vote") as (_ & Hc & Hs).
  - discriminate.
  - apply (collision_free_sub _ (orderedInputs sample_records)); [|exact sample_records_texts]. intros x Hx.
    apply elem_of_app in Hx as [Hx|Hx]; [exact Hx|]. apply elem_of_app in Hx as [Hx|Hx]; [exact Hx|]. apply elem_of_cons in Hx as [Hx|Hx]; [|exact (sample_record_steps x Hx)].
    rewrite Hx. unfold orderedInputs. right. apply elem_of_app. left. apply (leafInputs_elem sample_records 2 "vote" eq_refl).
  - assert (verify (buildOrderedMerkleProof sample_records 2) (buildOrderedRoot sample_records) = true) as Hv by (apply Hc; simpl; lia). split; [exact Hv|].
    destruct Hs as [_ Hl]; [vm_compute; reflexivity|exact Hv|exact Hl].
Defined.

Definition sample_writes : list (string * string) := [(Hash.hashBytes "k1", Hash.hashBytes "v1"); (Hash.hashBytes "k2", Hash.hashBytes "v2"); (Hash.hashBytes "k1", Hash.hashBytes "v3")].
Definition sample_paths : list (list bool) := (λ e, MerkleProperties.ok_or [] (hexToBits e.1)) <$> sample_writes.

Lemma sparse_tree_is_complete_tree_witness :
  ∃ t, foldR (λ s e, update e.1 e.2 s) empty sample_writes = Ok t ∧ root t = fullHash DEPTH (λ path, get path (zip sample_paths sample_writes.*2)).
Proof.
  destruct (sparse_tree_is_complete_tree sample_writes sample_paths) as (t & Ht & Hr & _); [|exists t; split; [exact Ht|exact Hr]].
  repeat constructor; vm_compute; reflexivity.
Defined.
End StateTreeProperties.
