(* ===== verification/Blocks.v ===== *)
(** * core: ledger records, blocks and the chain

    Models src/src/core/LedgerRecord.cpp, src/src/core/Block.cpp and
    src/src/core/Blockchain.cpp, with the texts of the records that
    src/src/economics prints into a ledger record and the field reader of
    src/src/serialization/FieldCodec.cpp.  A block is identified by the hash of its
    header, the header commits to the records through the ordered tree of [StateTrees], and
    the chain accepts a block only on top of its tip.  The loops over text walk the
    characters of the text; the loop that splits the records of a block has the length of
    the text as fuel ([splitRecords_serialized] shows that it is enough). *)

From Stdlib Require Import Ascii.
From S2P Require Import Prelude Utils CoinLots CoinLotTransfer Crypto LedgerState Encoding Merkle Transactions Rewards StateTrees.

(** ** Reading fields out of text *)

Module FieldText.
Import SafeScalar.

Fixpoint strip (p s : string) : option string :=
  match p, s with
  | EmptyString, _ => Some s
  | String a p, String b s => if Ascii.eqb a b then strip p s else None
  | String _ _, EmptyString => None
  end.

(** [text.rfind(p, 0) == 0] *)
Definition starts_with (p s : string) : bool := match strip p s with Some _ => true | None => false end.

(** The text after the first occurrence of [needle]: [text.find(needle) + needle.size()]. *)
Fixpoint find_after (needle text : string) : option string :=
  match strip needle text with
  | Some rest => Some rest
  | None => match text with EmptyString => None | String _ text => find_after needle text end
  end.

(** The characters up to the end of a field, [depth] brackets deep. *)
Fixpoint takeField (depth : nat) (s : string) : string :=
  match s with
  | EmptyString => EmptyString
  | String c s =>
      if Ascii.eqb c "{" || Ascii.eqb c "[" then String c (takeField (S depth) s)
      else if Ascii.eqb c "}" || Ascii.eqb c "]" then
        match depth with O => EmptyString | S depth => String c (takeField depth s) end
      else if Ascii.eqb c ";" && (depth =? 0)%nat then EmptyString
      else String c (takeField depth s)
  end.

(** [extractLedgerField], and the lambda [extractField] of [Block::deserialize]. *)
Definition extractLedgerField (text key : string) : string :=
  match find_after (key +:+ "=") text with None => "" | Some rest => takeField 0 rest end.

(** The characters before the first [c]. *)
Definition before (c : ascii) (s : string) : option string := option_map fst (Text.split_at c s).

(** [FieldCodec::extractField] *)
Definition extractField (serialized key : string) : result string :=
  throw_if (empty_string key) (invalid_argument "Field key cannot be empty.");;
  match match find_after (";" +:+ key +:+ "=") serialized with
        | Some rest => Some rest
        | None => find_after ("{" +:+ key +:+ "=") serialized
        end with
  | None => Throw (invalid_argument ("Missing serialized field: " +:+ key))
  | Some rest =>
      match match before ";" rest with Some v => Some v | None => before "}" rest end with
      | None => Throw (invalid_argument ("Invalid serialized field: " +:+ key))
      | Some v => Ok v
      end
  end.

(** What [std::stoull] and [std::stoll] leave unread. *)
Fixpoint digits_rest (s : string) : string :=
  match s with
  | String c s' => if Text.is_digit c then digits_rest s' else s
  | EmptyString => s
  end.
Definition unsigned_part (s : string) : bool * string :=
  match Text.skip_spaces s with
  | String "-"%char s => (true, s)
  | String "+"%char s => (false, s)
  | s => (false, s)
  end.
Definition number_rest (s : string) : string := digits_rest (unsigned_part s).2.

Definition stoll (s : string) : result Z :=
  let '(negative, s) := unsigned_part s in
  if negb (Text.starts_with_digit s) then Throw (invalid_argument "stoll")
  else
    let v := if negative : bool then - Text.digits 0 s else Text.digits 0 s in
    if (v <? i64_min) || (i64_max <? v) then Throw (out_of_range "stoll") else Ok v.

(** The last character of a text. *)
Fixpoint back (s : string) : ascii :=
  match s with EmptyString => "000" | String c EmptyString => c | String _ s => back s end.
End FieldText.

(** ** Ledger records *)

Inductive LedgerRecordType :=
| MINT | TRANSACTION | VALIDATION_WORK | VALIDATOR_SCORE | PROTECTION_EPOCH | GENESIS_REWARD | VALIDATOR_PENALTY | SLASHING_EVIDENCE.

#[global] Instance LedgerRecordType_eq_dec : EqDecision LedgerRecordType.
Proof. solve_decision. Defined.

Definition ledgerRecordTypeToString (type : LedgerRecordType) : string :=
  match type with
  | MINT => "MINT"
  | TRANSACTION => "TRANSACTION"
  | VALIDATION_WORK => "VALIDATION_WORK"
  | VALIDATOR_SCORE => "VALIDATOR_SCORE"
  | PROTECTION_EPOCH => "PROTECTION_EPOCH"
  | GENESIS_REWARD => "GENESIS_REWARD"
  | VALIDATOR_PENALTY => "VALIDATOR_PENALTY"
  | SLASHING_EVIDENCE => "SLASHING_EVIDENCE"
  end.

Definition ledgerRecordTypeFromString (value : string) : result LedgerRecordType :=
  if String.eqb value "MINT" then Ok MINT
  else if String.eqb value "TRANSACTION" then Ok TRANSACTION
  else if String.eqb value "VALIDATION_WORK" then Ok VALIDATION_WORK
  else if String.eqb value "VALIDATOR_SCORE" then Ok VALIDATOR_SCORE
  else if String.eqb value "PROTECTION_EPOCH" then Ok PROTECTION_EPOCH
  else if String.eqb value "GENESIS_REWARD" then Ok GENESIS_REWARD
  else if String.eqb value "VALIDATOR_PENALTY" then Ok VALIDATOR_PENALTY
  else if String.eqb value "SLASHING_EVIDENCE" then Ok SLASHING_EVIDENCE
  else Throw (invalid_argument ("Unknown LedgerRecordType: " +:+ value)).

(** The texts of the economic records. *)
Module RecordText.
Definition mintReasonToString (r : MintReason) : string :=
  match r with
  | GENESIS_ALLOCATION => "GENESIS_ALLOCATION"
  | NETWORK_DEFENSE_REWARD => "NETWORK_DEFENSE_REWARD"
  | LOCKED_RESERVE_REWARD => "LOCKED_RESERVE_REWARD"
  | TREASURY_REWARD => "TREASURY_REWARD"
  end.

Definition mint (m : MintRecord) : string :=
  "MintRecord{id=" +:+ MintRecord.id m +:+ ";authorizationId=" +:+ MintRecord.authorizationId m +:+
  ";recipient=" +:+ MintRecord.recipientAddress m +:+ ";amountRaw=" +:+ to_string (MintRecord.amount m) +:+
  ";reason=" +:+ mintReasonToString (MintRecord.reason m) +:+ ";epoch=" +:+ to_string (MintRecord.epoch m) +:+
  ";sourceBlockIndex=" +:+ to_string (MintRecord.sourceBlockIndex m) +:+ ";sourceBlockHash=" +:+ MintRecord.sourceBlockHash m +:+
  ";timestamp=" +:+ to_string (MintRecord.timestamp m) +:+ "}".

Definition workTypeToString (w : Work.Type_) : string :=
  match w with
  | Work.VALIDATE_TRANSACTION => "VALIDATE_TRANSACTION"
  | Work.VERIFY_COIN_EXISTENCE => "VERIFY_COIN_EXISTENCE"
  | Work.VERIFY_SIGNATURE => "VERIFY_SIGNATURE"
  | Work.VALIDATE_BLOCK => "VALIDATE_BLOCK"
  | Work.RESPOND_INTEGRITY_CHALLENGE => "RESPOND_INTEGRITY_CHALLENGE"
  | Work.SERVE_HISTORICAL_BLOCK => "SERVE_HISTORICAL_BLOCK"
  | Work.CONSENSUS_VOTE => "CONSENSUS_VOTE"
  | Work.UNKNOWN => "UNKNOWN"
  end.
Definition workResultToString (r : Work.Result_) : string :=
  match r with Work.ACCEPTED => "ACCEPTED" | Work.REJECTED => "REJECTED" | Work.UNKNOWN_RESULT => "UNKNOWN" end.

Definition work (w : Work.t) : string :=
  "ValidationWorkRecord{validator=" +:+ Work.validatorAddress w +:+ ";epoch=" +:+ to_string (Work.epoch w) +:+
  ";workType=" +:+ workTypeToString (Work.workType w) +:+ ";result=" +:+ workResultToString (Work.outcome w) +:+
  ";targetHash=" +:+ Work.targetHash w +:+ ";evidenceHash=" +:+ Work.evidenceHash w +:+
  ";workWeight=" +:+ to_string (Work.workWeight w) +:+ ";timestamp=" +:+ to_string (Work.timestamp w) +:+ "}".

Definition scoreReasonToString (r : Score.Reason) : string :=
  match r with
  | Score.INITIAL_REGISTRATION => "INITIAL_REGISTRATION"
  | Score.CONSISTENT_VALIDATION => "CONSISTENT_VALIDATION"
  | Score.SUCCESSFUL_CHALLENGE_RESPONSE => "SUCCESSFUL_CHALLENGE_RESPONSE"
  | Score.USEFUL_STORAGE_SERVICE => "USEFUL_STORAGE_SERVICE"
  | Score.NETWORK_CLUSTER_PENALTY => "NETWORK_CLUSTER_PENALTY"
  | Score.MISSED_CHALLENGE => "MISSED_CHALLENGE"
  | Score.INVALID_WORK => "INVALID_WORK"
  | Score.CONFLICTING_SIGNATURE => "CONFLICTING_SIGNATURE"
  | Score.OTHER => "UNKNOWN"
  end.

Definition score (s : Score.t) : string :=
  "ValidatorScoreRecord{validator=" +:+ Score.validatorAddress s +:+ ";epoch=" +:+ to_string (Score.epoch s) +:+
  ";previousScore=" +:+ to_string (Score.previousScore s) +:+ ";newScore=" +:+ to_string (Score.newScore s) +:+
  ";reason=" +:+ scoreReasonToString (Score.reason s) +:+ ";evidenceHash=" +:+ Score.evidenceHash s +:+
  ";timestamp=" +:+ to_string (Score.timestamp s) +:+ "}".

(** Printing calls [securityEmission] and [rewardPool], which may throw. *)
Definition epoch (e : ProtectionEpoch.t) : result string :=
  emission ← if ProtectionEpoch.isValid e then ProtectionEpoch.securityEmission e else Ok 0;
  pool ← if ProtectionEpoch.isValid e then ProtectionEpoch.rewardPool e else Ok 0;
  Ok ("ProtectionEpoch{epochId=" +:+ to_string (ProtectionEpoch.epochId e) +:+ ";startBlock=" +:+ to_string (ProtectionEpoch.startBlock e) +:+
      ";endBlock=" +:+ to_string (ProtectionEpoch.endBlock e) +:+ ";feesCollectedRaw=" +:+ to_string (ProtectionEpoch.feesCollected e) +:+
      ";emissionCapRaw=" +:+ to_string (ProtectionEpoch.emissionCap e) +:+
      ";workDemandBasisPoints=" +:+ to_string (ProtectionEpoch.workDemandBasisPoints e) +:+
      ";targetWorkWeight=" +:+ to_string (ProtectionEpoch.targetWorkWeight e) +:+
      ";acceptedWorkWeight=" +:+ to_string (ProtectionEpoch.acceptedWorkWeight e) +:+
      ";policyVersion=" +:+ ProtectionEpoch.policyVersion e +:+ ";evidenceBlockHash=" +:+ ProtectionEpoch.evidenceBlockHash e +:+
      ";securityEmissionRaw=" +:+ to_string emission +:+ ";rewardPoolRaw=" +:+ to_string pool +:+ "}").
End RecordText.

Module LedgerRecord.
Record t := mk { id : string; type : LedgerRecordType; sourceId : string; payload : string; payloadHash : string; timestamp : Z }.

Section record.
Context `{Sha256}.

Definition hashPayload (payload : string) : string := Hash.hashCString payload.

Definition computeRecordId (type : LedgerRecordType) (sourceId payloadHash : string) (timestamp : Z) : string :=
  hashPayload ("LedgerRecordId{type=" +:+ ledgerRecordTypeToString type +:+ ";sourceId=" +:+ sourceId +:+
               ";payloadHash=" +:+ payloadHash +:+ ";timestamp=" +:+ to_string timestamp +:+ "}").

Definition computeDerivedSourceId (sourcePrefix payloadHash : string) : string := sourcePrefix +:+ "_" +:+ payloadHash.

(** The end of every [from...] function. *)
Definition accept (type : LedgerRecordType) (sourceId payload : string) (timestamp : Z) : t :=
  let payloadHash := hashPayload payload in
  mk (computeRecordId type sourceId payloadHash timestamp) type sourceId payload payloadHash timestamp.

Definition isValid (r : t) : bool :=
  if empty_string (id r) || empty_string (sourceId r) || empty_string (payload r) || empty_string (payloadHash r) then false
  else if timestamp r <=? 0 then false
  else if negb (String.eqb (payloadHash r) (hashPayload (payload r))) then false
  else if negb (String.eqb (id r) (computeRecordId (type r) (sourceId r) (payloadHash r) (timestamp r))) then false
  else true.

Definition fromPersistedFields (id : string) (type : LedgerRecordType) (sourceId payload payloadHash : string) (timestamp : Z) : result t :=
  let record := mk id type sourceId payload payloadHash timestamp in
  throw_if (negb (isValid record)) (invalid_argument "Invalid persisted LedgerRecord rejected.");;
  Ok record.

Definition positive (timestamp : Z) : result unit :=
  throw_if (timestamp <=? 0) (invalid_argument "LedgerRecord timestamp must be positive.").

Definition fromMintRecord (m : MintRecord) (timestamp : Z) : result t :=
  throw_if (negb (MintRecord.isValid m)) (invalid_argument "Invalid MintRecord rejected by LedgerRecord.");;
  positive timestamp;;
  Ok (accept MINT (MintRecord.id m) (RecordText.mint m) timestamp).

Definition fromTransaction (tx : SignedTx.t) (policy : CryptoPolicy) (context : SecurityContext) (timestamp : Z) : result t :=
  throw_if (negb (SignedTx.isStructurallyValid policy context tx)) (invalid_argument "Invalid Transaction rejected by LedgerRecord.");;
  positive timestamp;;
  Ok (accept TRANSACTION (SignedTx.id tx) (SignedTx.serialize tx) timestamp).

Definition fromValidationWorkRecord (w : Work.t) (timestamp : Z) : result t :=
  throw_if (negb (Work.isValid w)) (invalid_argument "Invalid ValidationWorkRecord rejected by LedgerRecord.");;
  positive timestamp;;
  Ok (accept VALIDATION_WORK (computeDerivedSourceId "validation_work" (hashPayload (RecordText.work w))) (RecordText.work w) timestamp).

Definition fromValidatorScoreRecord (s : Score.t) (timestamp : Z) : result t :=
  throw_if (negb (Score.isValid s)) (invalid_argument "Invalid ValidatorScoreRecord rejected by LedgerRecord.");;
  positive timestamp;;
  Ok (accept VALIDATOR_SCORE (computeDerivedSourceId "validator_score" (hashPayload (RecordText.score s))) (RecordText.score s) timestamp).

Definition fromProtectionEpoch (e : ProtectionEpoch.t) (timestamp : Z) : result t :=
  throw_if (negb (ProtectionEpoch.isValid e)) (invalid_argument "Invalid ProtectionEpoch rejected by LedgerRecord.");;
  positive timestamp;;
  payload ← RecordText.epoch e;
  Ok (accept PROTECTION_EPOCH ("protection_epoch_" +:+ to_string (ProtectionEpoch.epochId e)) payload timestamp).

Definition fromGenesisRewardRecord (g : GenesisRewardRecord) (timestamp : Z) : result t :=
  throw_if (negb (GenesisReward.isValid g)) (invalid_argument "Invalid GenesisRewardRecord rejected by LedgerRecord.");;
  positive timestamp;;
  sourceId ← GenesisReward.deterministicId g;
  Ok (accept GENESIS_REWARD sourceId (GenesisReward.serialize g) timestamp).

Definition fromSlashingEvidencePayload (evidenceId payload : string) (timestamp : Z) : result t :=
  throw_if (empty_string evidenceId ||
            (negb (FieldText.starts_with "DoubleVoteEvidence{" payload) && negb (FieldText.starts_with "ProposerEquivocationEvidence{" payload)) ||
            (timestamp <=? 0)) (invalid_argument "Invalid slashing evidence payload rejected by LedgerRecord.");;
  Ok (accept SLASHING_EVIDENCE evidenceId payload timestamp).
End record.

Definition serialize (r : t) : string :=
  "LedgerRecord{id=" +:+ id r +:+ ";type=" +:+ ledgerRecordTypeToString (type r) +:+ ";sourceId=" +:+ sourceId r +:+
  ";payloadHash=" +:+ payloadHash r +:+ ";timestamp=" +:+ to_string (timestamp r) +:+ ";payload=" +:+ payload r +:+ "}".

(** [try { return ...; } catch (...) { return std::nullopt; }] *)
Definition or_none {A} (r : result A) : option A := match r with Ok a => Some a | Throw _ => None end.

Definition deserialize `{Sha256} (text : string) : option t :=
  if negb (FieldText.starts_with "LedgerRecord{" text) then None
  else
    let id := FieldText.extractLedgerField text "id" in
    let typeStr := FieldText.extractLedgerField text "type" in
    let sourceId := FieldText.extractLedgerField text "sourceId" in
    let payloadHash := FieldText.extractLedgerField text "payloadHash" in
    let tsStr := FieldText.extractLedgerField text "timestamp" in
    let payload := FieldText.extractLedgerField text "payload" in
    if empty_string id || empty_string typeStr || empty_string tsStr then None
    else
      match FieldText.stoll tsStr with
      | Throw _ => None
      | Ok timestamp =>
          if timestamp <=? 0 then None
          else
            match ledgerRecordTypeFromString typeStr with
            | Throw _ => None
            | Ok type => or_none (fromPersistedFields id type sourceId payload payloadHash timestamp)
            end
      end.
End LedgerRecord.

(** ** Blocks *)

Module Block.
Definition MAX_RECORDS : Z := 10000.
Definition MAX_SERIALIZED_BYTES : Z := 1024 * 1024.
Definition MAX_RECORD_PAYLOAD_BYTES : Z := 512 * 1024.

Record t := mk {
  index : Z;
  previousHash : string;
  hash : string;
  records : list LedgerRecord.t;
  timestamp : Z;
  stateRoot : string;
  receiptsRoot : string;
}.

Definition isGenesisBlock (b : t) : bool := (index b =? 0) && String.eqb (previousHash b) "GENESIS".

Definition isCanonicalCommitmentRoot (root : string) : bool :=
  if negb (string_size root =? 64) then false else SafeScalar.all_chars Address.is_lower_hex root.

Definition hasCanonicalStateRoot (b : t) : bool := isCanonicalCommitmentRoot (stateRoot b).
Definition hasCanonicalReceiptsRoot (b : t) : bool := isCanonicalCommitmentRoot (receiptsRoot b).

Definition isSnapshot (b : t) : bool := String.eqb (previousHash b) "SNAPSHOT".

Section block.
Context `{Sha256}.

Definition recordsRoot (b : t) : string := CoreMerkle.buildOrderedRoot (LedgerRecord.serialize <$> records b).

Definition recordCount (b : t) : Z := Z.of_nat (length (records b)).

Definition headerPayload (b : t) : string :=
  "BlockHeader{index=" +:+ to_string (index b) +:+ ";previousHash=" +:+ previousHash b +:+ ";timestamp=" +:+ to_string (timestamp b) +:+
  ";recordCount=" +:+ to_string (recordCount b) +:+ ";recordsMerkleRoot=" +:+ recordsRoot b +:+ ";stateRoot=" +:+ stateRoot b +:+
  ";receiptsRoot=" +:+ receiptsRoot b +:+ "}".

Definition serialize (b : t) : string :=
  "Block{index=" +:+ to_string (index b) +:+ ";previousHash=" +:+ previousHash b +:+ ";hash=" +:+ hash b +:+
  ";timestamp=" +:+ to_string (timestamp b) +:+ ";stateRoot=" +:+ stateRoot b +:+ ";receiptsRoot=" +:+ receiptsRoot b +:+
  ";recordCount=" +:+ to_string (recordCount b) +:+ ";payload=" +:+ headerPayload b +:+ ";records=[" +:+
  String.concat "," (LedgerRecord.serialize <$> records b) +:+ "]}".

Definition calculateHash (b : t) : string := Hash.hashCString (headerPayload b).

(** The loop of [isWithinResourceLimits]; [None] is [return false]. *)
Fixpoint recordBytes (totalBytes : Z) (l : list LedgerRecord.t) : option Z :=
  match l with
  | [] => Some totalBytes
  | r :: l =>
      if MAX_RECORD_PAYLOAD_BYTES <? string_size (LedgerRecord.payload r) then None
      else
        let bytes := string_size (LedgerRecord.serialize r) in
        if MAX_SERIALIZED_BYTES - totalBytes <? bytes then None else recordBytes (totalBytes + bytes) l
  end.

Definition isWithinResourceLimits (b : t) : bool :=
  if bool_decide (records b = []) || (MAX_RECORDS <? recordCount b) then false
  else
    match recordBytes 0 (records b) with
    | None => false
    | Some totalBytes => (totalBytes <=? MAX_SERIALIZED_BYTES) && (string_size (serialize b) <=? MAX_SERIALIZED_BYTES)
    end.

Definition acceptable (r : LedgerRecord.t) : bool :=
  LedgerRecord.isValid r && negb (MAX_RECORD_PAYLOAD_BYTES <? string_size (LedgerRecord.payload r)).

(** The constructor. *)
Definition make (index : Z) (previousHash : string) (records : list LedgerRecord.t) (timestamp : Z) (stateRoot receiptsRoot : string) : result t :=
  let fresh := mk index previousHash "" records timestamp stateRoot receiptsRoot in
  throw_if (empty_string previousHash) (invalid_argument "Block previousHash cannot be empty.");;
  throw_if ((bool_decide (records = []) || (MAX_RECORDS <? recordCount fresh)) && negb (isSnapshot fresh))
    (invalid_argument "Block must contain at least one LedgerRecord.");;
  throw_if (timestamp <=? 0) (invalid_argument "Block timestamp must be positive.");;
  throw_if (negb (forallb acceptable records)) (invalid_argument "Block rejected invalid LedgerRecord.");;
  let b := mk index previousHash (calculateHash fresh) records timestamp stateRoot receiptsRoot in
  throw_if (negb (isWithinResourceLimits b) && negb (isSnapshot b)) (invalid_argument "Block exceeds canonical protocol resource limits.");;
  Ok b.

Definition createGenesisBlock (records : list LedgerRecord.t) (timestamp : Z) (stateRoot : string) : result t :=
  make 0 "GENESIS" records timestamp stateRoot "".

Definition with_hash (hash : string) (b : t) : t := mk (index b) (previousHash b) hash (records b) (timestamp b) (stateRoot b) (receiptsRoot b).

Definition createSnapshotDummy (height : Z) (hash stateRoot : string) : result t :=
  dummy ← make height "SNAPSHOT" [] 1 stateRoot "";
  Ok (with_hash hash dummy).

Definition isValid (requireProtocolCommitments : bool) (b : t) : bool :=
  if empty_string (previousHash b) then false
  else if empty_string (hash b) then false
  else if (bool_decide (records b = []) || negb (isWithinResourceLimits b)) && negb (isSnapshot b) then false
  else if timestamp b <=? 0 then false
  else if negb (forallb LedgerRecord.isValid (records b)) then false
  else if negb (isSnapshot b) && negb (String.eqb (hash b) (calculateHash b)) then false
  else if (index b =? 0) && negb (String.eqb (previousHash b) "GENESIS") then false
  else if (0 <? index b) && String.eqb (previousHash b) "GENESIS" then false
  else if requireProtocolCommitments && (0 <? index b) && negb (isSnapshot b) &&
          (negb (isCanonicalCommitmentRoot (stateRoot b)) || negb (isCanonicalCommitmentRoot (receiptsRoot b))) then false
  else true.

(** The inner loop that finds the end of a record: the record and what follows it. *)
Fixpoint takeObject (d : Z) (s : string) : option (string * string) :=
  match s with
  | EmptyString => None
  | String c s =>
      let d := if Ascii.eqb c "{" then d + 1 else if Ascii.eqb c "}" then d - 1 else d in
      if Ascii.eqb c "}" && (d =? 0) then Some (String c EmptyString, s)
      else match takeObject d s with Some (object, rest) => Some (String c object, rest) | None => None end
  end.

Fixpoint skipSeparators (s : string) : string :=
  match s with
  | String c s' => if Ascii.eqb c "," || Ascii.eqb c " " then skipSeparators s' else s
  | EmptyString => s
  end.

Fixpoint splitRecords (fuel : nat) (s : string) : option (list LedgerRecord.t) :=
  let s := skipSeparators s in
  if empty_string s then Some []
  else if negb (FieldText.starts_with "LedgerRecord{" s) then None
  else
    match fuel with
    | O => None
    | S fuel =>
        match takeObject 0 s with
        | None => None
        | Some (object, rest) =>
            match LedgerRecord.deserialize object with
            | None => None
            | Some record => option_map (cons record) (splitRecords fuel rest)
            end
        end
    end.

(** The text without its last two characters when these are ["]}"]. *)
Fixpoint withoutEnd (s : string) : option string :=
  match s with
  | String a (String b EmptyString) => if Ascii.eqb a "]" && Ascii.eqb b "}" then Some EmptyString else None
  | String c s => option_map (String c) (withoutEnd s)
  | EmptyString => None
  end.

(** [std::stoull] with the check that all of the text was read. *)
Definition readUnsigned (s : string) : option Z :=
  match Text.stoull s with Ok v => if empty_string (FieldText.number_rest s) then Some v else None | Throw _ => None end.
Definition readSigned (s : string) : option Z :=
  match FieldText.stoll s with Ok v => if empty_string (FieldText.number_rest s) then Some v else None | Throw _ => None end.

Definition deserialize (text : string) : option t :=
  if MAX_SERIALIZED_BYTES <? string_size text then None
  else if negb (FieldText.starts_with "Block{" text) then None
  else if (string_size text <? 8) || negb (Ascii.eqb (FieldText.back text) "}") then None
  else
    let field := FieldText.extractLedgerField text in
    if empty_string (field "index") || empty_string (field "previousHash") || empty_string (field "hash") || empty_string (field "timestamp") ||
       empty_string (field "recordCount") || empty_string (field "payload") then None
    else
      index ← readUnsigned (field "index");
      timestamp ← readSigned (field "timestamp");
      recordCount ← readUnsigned (field "recordCount");
      if (recordCount =? 0) || (MAX_RECORDS <? recordCount) then None
      else if negb (FieldText.starts_with "BlockHeader{" (field "payload")) || negb (Ascii.eqb (FieldText.back (field "payload")) "}") then None
      else
        rest ← FieldText.find_after ";records=[" text;
        arrayContent ← withoutEnd rest;
        records ← splitRecords (String.length arrayContent) arrayContent;
        if bool_decide (records = []) || negb (Z.of_nat (length records) =? recordCount) then None
        else
          b ← LedgerRecord.or_none (make index (field "previousHash") records timestamp (field "stateRoot") (field "receiptsRoot"));
          if negb (String.eqb (hash b) (field "hash")) then None
          else if negb (String.eqb (headerPayload b) (field "payload")) then None
          else if negb (String.eqb (serialize b) text) then None
          else Some b.
End block.
End Block.

(** ** The chain *)

Module Blockchain.
Record t := mk { m_blocks : list Block.t; m_blockIndicesByHash : gmap string nat }.

Definition empty_chain : t := mk [] ∅.

Section chain.
Context `{Sha256}.

Definition latestBlock (c : t) : result Block.t :=
  match last (m_blocks c) with None => Throw (logic_error "Blockchain has no blocks.") | Some b => Ok b end.
Definition genesisBlock (c : t) : result Block.t :=
  match head (m_blocks c) with None => Throw (logic_error "Blockchain has no genesis block.") | Some b => Ok b end.

Definition isValidGenesisBlock (b : Block.t) : bool :=
  if negb (Block.isValid true b) then false
  else if negb (Block.isGenesisBlock b) then false
  else if negb (Block.index b =? 0) then false
  else if negb (String.eqb (Block.previousHash b) "GENESIS") then false
  else true.

Definition isValidNextBlock (previousBlock currentBlock : Block.t) (require : bool) : bool :=
  if 2097152 <? string_size (Block.serialize currentBlock) then false
  else if negb (Block.isValid require previousBlock) then false
  else if negb (Block.isValid require currentBlock) then false
  else if Block.isGenesisBlock currentBlock then false
  else if (Block.index previousBlock =? u64_max) || negb (Block.index currentBlock =? Block.index previousBlock + 1) then false
  else if negb (String.eqb (Block.previousHash currentBlock) (Block.hash previousBlock)) then false
  else if Block.timestamp currentBlock <=? Block.timestamp previousBlock then false
  else true.

Definition canAppendBlock (b : Block.t) (c : t) : bool :=
  match last (m_blocks c) with
  | None => isValidGenesisBlock b
  | Some latest => isValidNextBlock latest b false
  end.

Fixpoint linked (require : bool) (previous : Block.t) (l : list Block.t) : bool :=
  match l with
  | [] => true
  | b :: l => if negb (isValidNextBlock previous b require) then false else linked require b l
  end.

Definition isValid (require : bool) (c : t) : bool :=
  match m_blocks c with
  | [] => false
  | front :: l =>
      if negb (Block.isSnapshot front) && negb (isValidGenesisBlock front) then false else linked require front l
  end.

Definition push (b : Block.t) (c : t) : t := mk (m_blocks c ++ [b]) (<[Block.hash b := length (m_blocks c)]> (m_blockIndicesByHash c)).

Definition addGenesisBlock (b : Block.t) : M t unit :=
  c ← gets (λ c, c);
  lift (throw_if (negb (bool_decide (m_blocks c = []))) (logic_error "Genesis block must be the first block."));;
  lift (throw_if (negb (isValidGenesisBlock b)) (invalid_argument "Invalid genesis block."));;
  modify (push b).

Definition addBlock (b : Block.t) : M t unit :=
  c ← gets (λ c, c);
  lift (throw_if (bool_decide (m_blocks c = [])) (logic_error "Cannot add block before genesis."));;
  lift (throw_if (negb (canAppendBlock b c)) (invalid_argument "Invalid block rejected by Blockchain."));;
  modify (push b).

Definition resetFromSnapshot (height : Z) (hash stateRoot : string) : M t unit :=
  modify (λ _, empty_chain);;
  dummy ← lift (Block.createSnapshotDummy height hash stateRoot);
  modify (λ c, mk (m_blocks c ++ [dummy]) (<[hash := 0%nat]> (m_blockIndicesByHash c))).

Definition blockByHash (hash : string) (c : t) : option Block.t :=
  i ← m_blockIndicesByHash c !! hash; m_blocks c !! i.
Definition blockByHeight (height : Z) (c : t) : option Block.t :=
  if height <? Z.of_nat (length (m_blocks c)) then m_blocks c !! Z.to_nat height else None.

Definition serialize (c : t) : string :=
  "Blockchain{blockCount=" +:+ to_string (Z.of_nat (length (m_blocks c))) +:+ ";blocks=[" +:+
  String.concat "," (Block.serialize <$> m_blocks c) +:+ "]}".
End chain.
End Blockchain.

(** ** Facts about fields *)

Module FieldFacts.
Import SafeScalar FieldText.

Lemma append_nil_l s : "" +:+ s = s.
Proof. done. Qed.

Lemma append_nil_r s : s +:+ "" = s.
Proof. induction s as [|c s IH]; [done|]. by apply (f_equal (String c)) in IH. Qed.

Lemma strip_app p s : strip p (p +:+ s) = Some s.
Proof. induction p as [|c p IH]; [by destruct s|]. change (String c p +:+ s) with (String c (p +:+ s)). cbn [strip]. by rewrite Ascii.eqb_refl. Qed.

Lemma strip_Some p s r : strip p s = Some r → s = p +:+ r.
Proof.
  revert s. induction p as [|c p IH]; intros s; cbn [strip]; [by intros [= ->]|]. destruct s as [|d s]; [done|].
  destruct (Ascii.eqb_spec c d) as [->|]; [|done]. intros ->%IH. done.
Qed.

Lemma starts_with_app p s : starts_with p (p +:+ s) = true.
Proof. unfold starts_with. by rewrite strip_app. Qed.

(** A text that ends with [k]. *)
Fixpoint ends_with (k s : string) : bool :=
  String.eqb s k || match s with EmptyString => false | String _ s => ends_with k s end.

Lemma ends_with_app k s : ends_with k (s +:+ k) = true.
Proof.
  induction s as [|c s IH].
  - change ("" +:+ k) with k. destruct k; cbn [ends_with]; by rewrite String.eqb_refl.
  - change (String c s +:+ k) with (String c (s +:+ k)). cbn [ends_with]. rewrite IH. apply orb_true_r.
Qed.

Lemma ends_with_true k s : ends_with k s = true → ∃ p, s = p +:+ k.
Proof.
  induction s as [|c s IH]; cbn [ends_with]; intros [E%String.eqb_eq|E]%orb_true_iff; [exists ""; by subst|done|exists ""; by subst|].
  destruct (IH E) as [p ->]. by exists (String c p).
Qed.

(** Two ends of one text. *)
Lemma two_ends p x k y : p +:+ k = x +:+ y → ends_with y k = true ∨ ends_with k y = true.
Proof.
  revert x. induction p as [|c p IH]; intros x E.
  - left. change ("" +:+ k) with k in E. rewrite E. apply ends_with_app.
  - destruct x as [|d x]; [right; change ("" +:+ y) with y in E; rewrite <- E; apply (ends_with_app k (String c p))|].
    rewrite !CryptoFacts.append_cons in E. injection E as _ E. by apply IH in E.
Qed.

Lemma ends_apart k x y : ends_with y k = false → ends_with k y = false → ends_with k (x +:+ y) = false.
Proof.
  intros H1 H2. destruct (ends_with k (x +:+ y)) eqn:E; [|done]. apply ends_with_true in E as [p E]. symmetry in E.
  apply two_ends in E as [E|E]; congruence.
Qed.

Lemma strip_eq k t pre rest : contains_char k "=" = false → contains_char pre "=" = false →
  strip (k +:+ String "=" t) (pre +:+ String "=" rest) = if String.eqb pre k then strip t rest else None.
Proof.
  revert pre. induction k as [|c k IH]; intros [|d pre] Hk Hp; cbn [contains_char] in *;
    rewrite ?CryptoFacts.append_cons, ?append_nil_l; cbn [strip].
  - done.
  - apply orb_false_iff in Hp as [Hd _]. rewrite Ascii.eqb_sym in Hd. by rewrite Hd.
  - apply orb_false_iff in Hk as [Hc _]. by rewrite Hc.
  - apply orb_false_iff in Hk as [_ Hk], Hp as [_ Hp]. cbn [String.eqb]. rewrite (Ascii.eqb_sym d c). destruct (Ascii.eqb c d); [by apply IH|done].
Qed.

Lemma find_skip k t pre rest : k ≠ "" → contains_char k "=" = false → contains_char pre "=" = false → ends_with k pre = false →
  find_after (k +:+ String "=" t) (pre +:+ String "=" rest) = find_after (k +:+ String "=" t) rest.
Proof.
  intros Hne Hk. induction pre as [|c pre IH]; intros Hp He.
  - pose proof (strip_eq k t "" rest Hk eq_refl) as Hs. replace (String.eqb "" k) with false in Hs by (symmetry; apply String.eqb_neq; congruence).
    change ("" +:+ String "=" rest) with (String "=" rest) in *. cbn [find_after]. by rewrite Hs.
  - pose proof (strip_eq k t (String c pre) rest Hk Hp) as Hs. cbn [ends_with] in He. apply orb_false_iff in He as [E He]. rewrite E in Hs.
    change (String c pre +:+ String "=" rest) with (String c (pre +:+ String "=" rest)) in *. cbn [find_after]. rewrite Hs. apply IH; [|done].
    cbn [contains_char] in Hp. by apply orb_false_iff in Hp as [_ Hp].
Qed.

Lemma find_here k t pre rest rest' : contains_char k "=" = false → contains_char pre "=" = false → ends_with k pre = true → strip t rest = Some rest' →
  find_after (k +:+ String "=" t) (pre +:+ String "=" rest) = Some rest'.
Proof.
  intros Hk Hp He Ht. induction pre as [|c pre IH].
  - pose proof (strip_eq k t "" rest Hk Hp) as Hs. cbn [ends_with] in He. rewrite orb_false_r in He. rewrite He, Ht in Hs.
    change ("" +:+ String "=" rest) with (String "=" rest) in *. cbn [find_after]. by rewrite Hs.
  - pose proof (strip_eq k t (String c pre) rest Hk Hp) as Hs. cbn [ends_with] in He.
    change (String c pre +:+ String "=" rest) with (String c (pre +:+ String "=" rest)) in *. cbn [find_after]. rewrite Hs.
    destruct (String.eqb (String c pre) k) eqn:E; [by rewrite Ht|]. apply IH; [cbn [contains_char] in Hp; by apply orb_false_iff in Hp as [_ Hp]|].
    by rewrite orb_false_l in He.
Qed.

(** *** Texts as a list of parts separated by equals signs *)

Definition joinEq (parts : list string) (tail : string) : string := foldr (λ p acc, p +:+ String "=" acc) tail parts.

Lemma find_part k t parts p more tail : k ≠ "" → contains_char k "=" = false →
  Forall (λ p, contains_char p "=" = false ∧ ends_with k p = false) parts → contains_char p "=" = false → ends_with k p = true →
  ∀ rest, strip t (joinEq more tail) = Some rest →
  find_after (k +:+ String "=" t) (joinEq (parts ++ p :: more) tail) = Some rest.
Proof.
  intros Hne Hk Hf Hp He rest Ht. induction Hf as [|q parts [Hq Hn] _ IH]; cbn [app joinEq foldr].
  - by apply find_here.
  - rewrite find_skip by done. exact IH.
Qed.

(** *** Values *)

Definition field_char (c : ascii) : bool := negb (contains_char "{}[];" c).
Definition plain_field (s : string) : bool := all_chars field_char s.

Lemma field_char_false c : field_char c = true →
  Ascii.eqb c "{" = false ∧ Ascii.eqb c "}" = false ∧ Ascii.eqb c "[" = false ∧ Ascii.eqb c "]" = false ∧ Ascii.eqb c ";" = false.
Proof.
  unfold field_char. intros Hc%negb_true_iff. cbn [contains_char] in Hc. repeat (apply orb_false_iff in Hc as [? Hc]).
  rewrite !(Ascii.eqb_sym c). by split_and!.
Qed.

Lemma takeField_plain v rest : plain_field v = true → takeField 0 (v +:+ String ";" rest) = v.
Proof.
  induction v as [|c v IH]; [done|]. unfold plain_field. cbn [all_chars]. intros [Hc Hv]%andb_true_iff. destruct (field_char_false c Hc) as (E1 & E2 & E3 & E4 & E5).
  rewrite CryptoFacts.append_cons. cbn [takeField]. rewrite E1, E2, E3, E4, E5. cbn [orb andb]. f_equal. by apply IH.
Qed.

(** A text in which every bracket is closed again and no semicolon is outside of brackets. *)
Fixpoint closed (depth : nat) (s : string) : bool :=
  match s with
  | EmptyString => (depth =? 0)%nat
  | String c s =>
      if Ascii.eqb c "{" || Ascii.eqb c "[" then closed (S depth) s
      else if Ascii.eqb c "}" || Ascii.eqb c "]" then match depth with O => false | S depth => closed depth s end
      else if Ascii.eqb c ";" && (depth =? 0)%nat then false
      else closed depth s
  end.

Lemma takeField_closed v depth rest : closed depth v = true → takeField depth (v +:+ rest) = v +:+ takeField 0 rest.
Proof.
  revert depth. induction v as [|c v IH]; intros depth; cbn [closed]; [by intros ->%Nat.eqb_eq|]. intros Hc. rewrite !CryptoFacts.append_cons. cbn [takeField].
  destruct (Ascii.eqb c "{" || Ascii.eqb c "["); [f_equal; by apply IH|]. destruct (Ascii.eqb c "}" || Ascii.eqb c "]"); [destruct depth; [done|f_equal; by apply IH]|].
  destruct (Ascii.eqb c ";" && (depth =? 0)%nat); [done|]. f_equal. by apply IH.
Qed.

Lemma plain_closed v : plain_field v = true → closed 0 v = true.
Proof.
  induction v as [|c v IH]; [done|]. unfold plain_field. cbn [all_chars]. intros [Hc Hv]%andb_true_iff. destruct (field_char_false c Hc) as (E1 & E2 & E3 & E4 & E5).
  cbn [closed]. rewrite E1, E2, E3, E4, E5. cbn [orb andb]. by apply IH.
Qed.

(** The same for braces alone. *)
Fixpoint braced (depth : Z) (s : string) : bool :=
  match s with
  | EmptyString => depth =? 0
  | String c s =>
      if Ascii.eqb c "{" then braced (depth + 1) s
      else if Ascii.eqb c "}" then (0 <? depth) && braced (depth - 1) s
      else braced depth s
  end.
End FieldFacts.

(** ** Facts about records *)

Module RecordFacts.
Import SafeScalar FieldText FieldFacts LedgerRecord.

Definition noEq (s : string) : Prop := contains_char s "=" = false.

Lemma section_of k parts p more tail : k ≠ "" → noEq k → Forall (λ p, noEq p ∧ ends_with k p = false) parts → noEq p → ends_with k p = true →
  extractLedgerField (joinEq (parts ++ p :: more) tail) k = takeField 0 (joinEq more tail).
Proof.
  intros Hne Hk Hf Hp He. unfold extractLedgerField. change (k +:+ "=") with (k +:+ String "=" "").
  by rewrite (find_part k "" parts p _ tail Hne Hk Hf Hp He _ eq_refl).
Qed.

Lemma field_of k parts p v x more tail : k ≠ "" → noEq k → Forall (λ p, noEq p ∧ ends_with k p = false) parts → noEq p → ends_with k p = true →
  plain_field v = true → extractLedgerField (joinEq (parts ++ p :: (v +:+ String ";" x) :: more) tail) k = v.
Proof.
  intros Hne Hk Hf Hp He Hv. rewrite section_of by done. cbn [joinEq foldr]. rewrite string_app_assoc, CryptoFacts.append_cons. by apply takeField_plain.
Qed.

Lemma last_field_of k parts p v x tail : k ≠ "" → noEq k → Forall (λ p, noEq p ∧ ends_with k p = false) parts → noEq p → ends_with k p = true →
  closed 0 v = true → takeField 0 tail = x → extractLedgerField (joinEq (parts ++ [p]) (v +:+ tail)) k = v +:+ x.
Proof.
  intros Hne Hk Hf Hp He Hv Hx. rewrite section_of by done. cbn [joinEq foldr]. rewrite takeField_closed by done. by rewrite Hx.
Qed.

Lemma part_noEq v x : noEq v → noEq x → noEq (v +:+ x).
Proof. unfold noEq. intros Hv Hx. by rewrite contains_char_app, Hv, Hx. Qed.

Lemma ends_with_longer k x y : ends_with k y = true → ends_with k (x +:+ y) = true.
Proof. intros [p ->]%ends_with_true. rewrite <- string_app_assoc. apply ends_with_app. Qed.

(** Solves the side conditions on the parts before the one that is looked up. *)
Ltac part := match goal with
  | |- noEq (_ +:+ _) => apply part_noEq; [assumption|reflexivity]
  | |- noEq _ => reflexivity
  | |- contains_char ?s "=" = false => change (noEq s); part
  | |- ends_with _ (_ +:+ _) = false => apply ends_apart; reflexivity
  | |- ends_with _ _ = false => reflexivity
  | |- ends_with _ (_ +:+ _) = true => apply ends_with_longer; reflexivity
  | |- ends_with _ _ = true => reflexivity
  | |- _ ∧ _ => split; part
  | |- Forall _ [] => constructor
  | |- Forall _ (_ :: _) => constructor; [part|part]
  end.

Lemma digits_plain z : plain_field (to_string z) = true ∧ noEq (to_string z).
Proof.
  split; [|by apply TransactionFacts.to_string_plain]. unfold plain_field. pose proof (TransactionFacts.to_string_chars z) as Hc.
  induction (to_string z) as [|c s IH]; [done|]. cbn [all_chars] in *. apply andb_true_iff in Hc as [Hc Hs]. rewrite IH by done. rewrite andb_true_r.
  destruct c as [[] [] [] [] [] [] [] []]; vm_compute in Hc |- *; try discriminate Hc; reflexivity.
Qed.

Lemma hex_plain s : all_chars Address.is_lower_hex s = true → plain_field s = true ∧ noEq s ∧ contains_char s "000" = false.
Proof.
  intros Hs. split_and!; [|by apply (Text.all_chars_contains Address.is_lower_hex)..].
  unfold plain_field. induction s as [|c s IH]; [done|]. cbn [all_chars] in *. apply andb_true_iff in Hs as [Hc Hs]. rewrite IH by done. rewrite andb_true_r.
  destruct c as [[] [] [] [] [] [] [] []]; vm_compute in Hc |- *; try discriminate Hc; reflexivity.
Qed.

Lemma type_text ty : plain_field (ledgerRecordTypeToString ty) = true ∧ noEq (ledgerRecordTypeToString ty) ∧
  ledgerRecordTypeFromString (ledgerRecordTypeToString ty) = Ok ty ∧ ledgerRecordTypeToString ty ≠ "".
Proof. by destruct ty. Qed.

Lemma skip_spaces_digit c s : Text.is_digit c = true → unsigned_part (String c s) = (false, String c s).
Proof. intros Hc. unfold unsigned_part. cbn [Text.skip_spaces]. destruct c as [[] [] [] [] [] [] [] []]; vm_compute in Hc; try discriminate Hc; reflexivity. Qed.

Lemma digits_rest_all s : all_chars Text.is_digit s = true → digits_rest s = "".
Proof. induction s as [|c s IH]; [done|]. cbn [all_chars digits_rest]. intros [-> Hs]%andb_true_iff. by apply IH. Qed.

Lemma stoll_to_string z : 0 ≤ z ≤ i64_max → stoll (to_string z) = Ok z ∧ number_rest (to_string z) = "".
Proof.
  intros Hz. destruct (Text.to_string_digits z ltac:(lia)) as [Hall Hne]. pose proof (Text.to_string_value z ltac:(lia)) as Hv. unfold stoll, number_rest.
  pose proof (digits_rest_all _ Hall) as Hr. destruct (to_string z) as [|c s]; [done|]. cbn [all_chars] in Hall. apply andb_true_iff in Hall as [Hc _].
  rewrite skip_spaces_digit by done. cbn [snd]. split; [|done]. cbn [Text.starts_with_digit]. rewrite Hc, Hv. cbn [negb].
  replace ((z <? i64_min) || (i64_max <? z)) with false by (unfold i64_min; lia). done.
Qed.

Section record.
Context `{Hsha : Sha256Spec}.

Lemma valid_texts r : isValid r = true → r = accept (type r) (sourceId r) (payload r) (timestamp r) ∧ 0 < timestamp r ∧ sourceId r ≠ "" ∧ payload r ≠ "".
Proof.
  unfold isValid, accept. destruct r as [i ty src pl ph ts]. cbn [id type sourceId payload payloadHash timestamp].
  destruct (empty_string i || empty_string src || empty_string pl || empty_string ph) eqn:E; [done|].
  apply orb_false_iff in E as [E _]. apply orb_false_iff in E as [E Ep]. apply orb_false_iff in E as [_ Es].
  destruct (ts <=? 0) eqn:Et; [done|]. destruct (String.eqb_spec ph (hashPayload pl)) as [->|]; [|done]. destruct (String.eqb_spec i (computeRecordId ty src (hashPayload pl) ts)) as [->|]; [|done].
  intros _. split_and!; [done|lia|by apply empty_string_false|by apply empty_string_false].
Qed.

Lemma hash_field x : plain_field (Hash.hashCString x) = true ∧ noEq (Hash.hashCString x) ∧ Hash.hashCString x ≠ "" ∧ contains_char (Hash.hashCString x) "000" = false.
Proof. destruct (CryptoFacts.hash_shape x) as (h & -> & Hl & Hx). destruct (hex_plain h Hx) as (? & ? & ?). split_and!; [done|done|by intros ->|done]. Qed.

(** Records whose text can be taken apart again. *)
Definition readable (r : t) : bool :=
  plain_field (sourceId r) && negb (contains_char (sourceId r) "=") && closed 0 (payload r) && braced 0 (payload r) && (timestamp r <=? i64_max).

Lemma serialize_parts r : serialize r =
  joinEq ["LedgerRecord{id"; id r +:+ ";type"; ledgerRecordTypeToString (type r) +:+ ";sourceId"; sourceId r +:+ ";payloadHash"; payloadHash r +:+ ";timestamp";
          to_string (timestamp r) +:+ ";payload"] (payload r +:+ "}").
Proof. unfold serialize, joinEq. cbn [foldr]. rewrite !string_app_assoc. reflexivity. Qed.

Lemma record_fields r : isValid r = true → readable r = true → let text := serialize r in
  extractLedgerField text "id" = id r ∧ extractLedgerField text "type" = ledgerRecordTypeToString (type r) ∧ extractLedgerField text "sourceId" = sourceId r ∧
  extractLedgerField text "payloadHash" = payloadHash r ∧ extractLedgerField text "timestamp" = to_string (timestamp r) ∧ extractLedgerField text "payload" = payload r.
Proof.
  intros Hv Hr. cbv zeta. destruct (valid_texts r Hv) as (Er & _ & _ & _). unfold readable in Hr. apply andb_true_iff in Hr as [Hr _]. apply andb_true_iff in Hr as [Hr _].
  apply andb_true_iff in Hr as [Hr Hcl]. apply andb_true_iff in Hr as [Hsp Hse]. apply negb_true_iff in Hse. change (noEq (sourceId r)) in Hse.
  assert (plain_field (id r) = true ∧ noEq (id r)) as [Hi Hi'] by (rewrite Er; split; apply hash_field).
  assert (plain_field (payloadHash r) = true ∧ noEq (payloadHash r)) as [Hh Hh'] by (rewrite Er; split; apply hash_field).
  destruct (type_text (type r)) as (Ht & Ht' & _ & _). destruct (digits_plain (timestamp r)) as [Hd Hd']. rewrite serialize_parts. split_and!.
  - apply (field_of "id" [] _ (id r) "type"); (part || done).
  - apply (field_of "type" ["LedgerRecord{id"] _ _ "sourceId"); (part || done).
  - apply (field_of "sourceId" ["LedgerRecord{id"; _] _ _ "payloadHash"); (part || done).
  - apply (field_of "payloadHash" ["LedgerRecord{id"; _; _] _ _ "timestamp"); (part || done).
  - apply (field_of "timestamp" ["LedgerRecord{id"; _; _; _] _ _ "payload"); (part || done).
  - rewrite <- (append_nil_r (payload r)) at 2. apply (last_field_of "payload" ["LedgerRecord{id"; _; _; _; _]); (part || done).
Qed.

Lemma record_roundtrip r : isValid r = true → readable r = true → deserialize (serialize r) = Some r.
Proof.
  intros Hv Hr. destruct (record_fields r Hv Hr) as (E1 & E2 & E3 & E4 & E5 & E6). destruct (valid_texts r Hv) as (Er & Ht & _ & _).
  unfold deserialize. rewrite E1, E2, E3, E4, E5, E6. unfold serialize at 1. change ("LedgerRecord{id=" +:+ ?x) with ("LedgerRecord{" +:+ ("id=" +:+ x)).
  rewrite starts_with_app. cbn [negb]. destruct (type_text (type r)) as (_ & _ & Ety & Hne).
  destruct (Text.to_string_digits (timestamp r) ltac:(lia)) as [_ Hts]. assert (id r ≠ "") as Hid by (rewrite Er; apply hash_field).
  rewrite !(proj2 (empty_string_false _)) by done. cbn [orb].
  assert (timestamp r ≤ i64_max) by (unfold readable in Hr; lia). destruct (stoll_to_string (timestamp r) ltac:(lia)) as [-> _].
  replace (timestamp r <=? 0) with false by lia. rewrite Ety. unfold fromPersistedFields. destruct r as [i ty src pl ph ts]. cbn [id type sourceId payload payloadHash timestamp] in *.
  rewrite Hv. done.
Qed.
End record.
End RecordFacts.

(** ** Facts about the text of blocks *)

Module BlockFacts.
Import SafeScalar FieldText FieldFacts RecordFacts Block.

Lemma back_app a b : b ≠ "" → back (a +:+ b) = back b.
Proof.
  intros Hb. induction a as [|c a IH]; [done|]. rewrite CryptoFacts.append_cons. rewrite <- IH. destruct (a +:+ b) as [|d s] eqn:E; [|done].
  exfalso. destruct a; [by apply Hb|]. by rewrite CryptoFacts.append_cons in E.
Qed.

Lemma back_joinEq parts tail : tail ≠ "" → back (joinEq parts tail) = back tail.
Proof.
  intros Ht. induction parts as [|p parts IH]; [done|]. cbn [joinEq foldr]. rewrite back_app by done. rewrite <- IH.
  change (String "=" (foldr (λ p acc, p +:+ String "=" acc) tail parts)) with ("=" +:+ joinEq parts tail). apply back_app. destruct parts; [done|].
  cbn [joinEq foldr]. intros E. destruct s; discriminate E.
Qed.

Lemma withoutEnd_app s : withoutEnd (s +:+ "]}") = Some s.
Proof.
  induction s as [|c s IH]; [done|]. rewrite CryptoFacts.append_cons. destruct s as [|d [|e s]]; [done|done|]. rewrite !CryptoFacts.append_cons in *.
  change (option_map (String c) (withoutEnd (String d (String e (s +:+ "]}")))) = Some (String c (String d (String e s)))). by rewrite IH.
Qed.

Lemma braced_plain d v x : plain_field v = true → braced d (v +:+ x) = braced d x.
Proof.
  induction v as [|c v IH]; [done|]. unfold plain_field. cbn [all_chars]. intros [Hc Hv]%andb_true_iff. destruct (field_char_false c Hc) as (E1 & E2 & _).
  rewrite CryptoFacts.append_cons. cbn [braced]. rewrite E1, E2. by apply IH.
Qed.

Lemma closed_plain d v x : plain_field v = true → closed (S d) (v +:+ x) = closed (S d) x.
Proof.
  induction v as [|c v IH]; [done|]. unfold plain_field. cbn [all_chars]. intros [Hc Hv]%andb_true_iff. destruct (field_char_false c Hc) as (E1 & E2 & E3 & E4 & E5).
  rewrite CryptoFacts.append_cons. cbn [closed]. rewrite E1, E2, E3, E4, E5. cbn [orb andb]. by apply IH.
Qed.

Lemma takeObject_braced v e rest : 0 ≤ e → braced e v = true → takeObject (e + 1) (v +:+ String "}" rest) = Some (v +:+ "}", rest).
Proof.
  revert e. induction v as [|c v IH]; intros e He; cbn [braced].
  - intros ->%Z.eqb_eq. done.
  - intros Hb. rewrite !CryptoFacts.append_cons. cbn [takeObject]. destruct (Ascii.eqb c "{") eqn:E1.
    + apply Ascii.eqb_eq in E1 as ->. change (Ascii.eqb "{" "}") with false. cbn [andb]. by rewrite (IH (e + 1)) by (lia || done).
    + destruct (Ascii.eqb c "}") eqn:E2; [|cbn [andb]; by rewrite (IH e) by (lia || done)].
      apply andb_true_iff in Hb as [Hb1 Hb2]. replace (e + 1 - 1 =? 0) with false by lia. cbn [andb]. replace (e + 1 - 1) with ((e - 1) + 1) by lia.
      by rewrite (IH (e - 1)) by (lia || done).
Qed.

Section text.
Context `{Hsha : Sha256Spec}.

Lemma takeObject_plain v d x o rest : plain_field v = true → takeObject d x = Some (o, rest) → takeObject d (v +:+ x) = Some (v +:+ o, rest).
Proof.
  intros Hv Hx. induction v as [|c v IH]; [done|]. unfold plain_field in *. cbn [all_chars] in Hv. apply andb_true_iff in Hv as [Hc Hv].
  destruct (field_char_false c Hc) as (E1 & E2 & _). rewrite !CryptoFacts.append_cons. cbn [takeObject]. rewrite E1, E2. cbn [andb]. by rewrite IH.
Qed.

Lemma takeObject_head x o rest : takeObject 1 x = Some (o, rest) → takeObject 0 ("LedgerRecord{" +:+ x) = Some ("LedgerRecord{" +:+ o, rest).
Proof.
  intros E. change ("LedgerRecord{" +:+ ?y) with ("LedgerRecord" +:+ String "{" y). apply takeObject_plain; [done|].
  cbn [takeObject]. change (Ascii.eqb "{" "{") with true. change (Ascii.eqb "{" "}") with false. change (0 + 1) with 1. cbn [andb]. by rewrite E.
Qed.

Lemma takeObject_record r rest : LedgerRecord.isValid r = true → readable r = true → takeObject 0 (LedgerRecord.serialize r +:+ rest) = Some (LedgerRecord.serialize r, rest).
Proof.
  intros Hv Hr. destruct (valid_texts r Hv) as (Er & _). unfold readable in Hr. apply andb_true_iff in Hr as [Hr _]. apply andb_true_iff in Hr as [Hr Hbr].
  apply andb_true_iff in Hr as [Hr _]. apply andb_true_iff in Hr as [Hsp _].
  assert (plain_field (LedgerRecord.id r) = true) as Hi by (rewrite Er; apply hash_field). assert (plain_field (LedgerRecord.payloadHash r) = true) as Hh by (rewrite Er; apply hash_field).
  destruct (type_text (LedgerRecord.type r)) as (Ht & _). destruct (digits_plain (LedgerRecord.timestamp r)) as [Hd _].
  set (inner := "id=" +:+ LedgerRecord.id r +:+ ";type=" +:+ ledgerRecordTypeToString (LedgerRecord.type r) +:+ ";sourceId=" +:+ LedgerRecord.sourceId r +:+
    ";payloadHash=" +:+ LedgerRecord.payloadHash r +:+ ";timestamp=" +:+ to_string (LedgerRecord.timestamp r) +:+ ";payload=" +:+ LedgerRecord.payload r).
  assert (LedgerRecord.serialize r = "LedgerRecord{" +:+ inner +:+ "}") as -> by (unfold LedgerRecord.serialize, inner; rewrite !string_app_assoc; reflexivity).
  assert (braced 0 inner = true) as Hb.
  { unfold inner. change (braced 0 ("id=" +:+ ?x)) with (braced 0 x). rewrite braced_plain by done. change (braced 0 (";type=" +:+ ?x)) with (braced 0 x). rewrite braced_plain by done.
    change (braced 0 (";sourceId=" +:+ ?x)) with (braced 0 x). rewrite braced_plain by done. change (braced 0 (";payloadHash=" +:+ ?x)) with (braced 0 x). rewrite braced_plain by done.
    change (braced 0 (";timestamp=" +:+ ?x)) with (braced 0 x). rewrite braced_plain by done. exact Hbr. }
  rewrite !string_app_assoc. pose proof (takeObject_braced inner 0 rest ltac:(lia) Hb) as Hto. change (0 + 1) with 1 in Hto.
  change ("}" +:+ rest) with (String "}" rest). clearbody inner.
  by apply takeObject_head.
Qed.

Lemma skip_record r x : skipSeparators (LedgerRecord.serialize r +:+ x) = LedgerRecord.serialize r +:+ x.
Proof. unfold LedgerRecord.serialize. rewrite !string_app_assoc. reflexivity. Qed.

Lemma record_starts r x : starts_with "LedgerRecord{" (LedgerRecord.serialize r +:+ x) = true ∧ empty_string (LedgerRecord.serialize r +:+ x) = false.
Proof.
  unfold LedgerRecord.serialize. rewrite !string_app_assoc. change ("LedgerRecord{id=" +:+ ?y) with ("LedgerRecord{" +:+ ("id=" +:+ y)). split; [apply starts_with_app|done].
Qed.

Lemma split_step fuel r x : LedgerRecord.isValid r = true → readable r = true →
  splitRecords (S fuel) (LedgerRecord.serialize r +:+ x) = option_map (cons r) (splitRecords fuel x).
Proof.
  intros Hv Hr. cbn [splitRecords]. rewrite skip_record. destruct (record_starts r x) as [-> ->]. cbn [negb].
  rewrite takeObject_record by done. by rewrite record_roundtrip.
Qed.

Lemma split_comma fuel x : splitRecords fuel ("," +:+ x) = splitRecords fuel x.
Proof. destruct fuel; reflexivity. Qed.

Lemma splitRecords_serialized l : Forall (λ r, LedgerRecord.isValid r = true ∧ readable r = true) l → ∀ fuel, (length l ≤ fuel)%nat →
  splitRecords fuel (String.concat "," (LedgerRecord.serialize <$> l)) = Some l.
Proof.
  induction 1 as [|r l [Hv Hr] _ IH]; intros fuel Hf; [by destruct fuel|]. destruct fuel as [|fuel]; [simpl in Hf; lia|]. cbn [length] in Hf.
  destruct l as [|r' l]; cbn [fmap list_fmap String.concat].
  - rewrite <- (append_nil_r (LedgerRecord.serialize r)), split_step by done. by destruct fuel.
  - rewrite split_step by done. rewrite split_comma. cbn [fmap list_fmap] in IH. by rewrite IH by lia.
Qed.

Lemma concat_length l : (length l ≤ String.length (String.concat "," (LedgerRecord.serialize <$> l)))%nat.
Proof.
  induction l as [|r l IH]; [done|]. destruct l as [|r' l]; cbn [fmap list_fmap String.concat length] in *.
  - unfold LedgerRecord.serialize. rewrite !CryptoFacts.length_append. simpl. lia.
  - rewrite !CryptoFacts.length_append. change (String.length ",") with 1%nat. lia.
Qed.

(** *** The constructor *)

Lemma block_make_Ok i p rs ts sr rr b : make i p rs ts sr rr = Ok b → p ≠ "SNAPSHOT" →
  b = mk i p (calculateHash b) rs ts sr rr ∧ p ≠ "" ∧ rs ≠ [] ∧ recordCount b ≤ MAX_RECORDS ∧ 0 < ts ∧ forallb acceptable rs = true ∧ isWithinResourceLimits b = true.
Proof.
  intros E Hs. unfold make in E. apply String.eqb_neq in Hs. unfold isSnapshot in E. cbn [previousHash] in E. rewrite Hs in E. cbn [negb] in E. rewrite andb_true_r in E.
  destruct (empty_string p) eqn:Ep; [done|]. destruct (bool_decide (rs = []) || _) eqn:Er; [done|]. destruct (ts <=? 0) eqn:Et; [done|].
  destruct (forallb acceptable rs) eqn:Ef; [|done]. cbn [throw_if negb mbind result_bind] in E. rewrite andb_true_r in E.
  match type of E with context [isWithinResourceLimits ?x] => destruct (isWithinResourceLimits x) eqn:El end; [|done].
  cbn [throw_if negb mbind result_bind] in E. injection E as <-. apply orb_false_iff in Er as [Er Ec]. apply bool_decide_eq_false in Er. unfold recordCount in *. cbn [records] in *.
  split_and!; [done|by apply empty_string_false|done|lia|lia|done|done].
Qed.

Lemma make_fields i p rs ts sr rr b : make i p rs ts sr rr = Ok b →
  index b = i ∧ previousHash b = p ∧ records b = rs ∧ timestamp b = ts ∧ stateRoot b = sr ∧ receiptsRoot b = rr ∧ hash b = calculateHash b.
Proof. unfold make. intros E. repeat (apply bind_Ok in E as (? & _ & E)). injection E as <-. done. Qed.

Lemma acceptable_valid rs : forallb acceptable rs = true → Forall (λ r, LedgerRecord.isValid r = true) rs.
Proof. intros Hf. apply Forall_forall. intros r Hr. rewrite forallb_forall in Hf. specialize (Hf r ltac:(by apply list_elem_of_In)). by apply andb_true_iff in Hf as [Hf _]. Qed.

Lemma hash_bytes_hex x : all_chars Address.is_lower_hex (Hash.hashBytes x) = true.
Proof. destruct (TreeFacts.hashBytes_value x) as (d & _ & Hd & -> & _). by apply CryptoFacts.hexEncode_lower. Qed.

Lemma recordsRoot_hex b : all_chars Address.is_lower_hex (recordsRoot b) = true ∧ String.length (recordsRoot b) = 64%nat.
Proof.
  unfold recordsRoot, CoreMerkle.buildOrderedRoot, CoreMerkle.orderedLeaves. generalize (LedgerRecord.serialize <$> records b). intros l.
  assert (Forall (λ h, ∃ x, h = Hash.hashBytes x) (imap (λ (i : nat) (p : string), CoreMerkle.hashOrderedLeaf (Z.of_nat i) p) l)) as Hf.
  { apply Forall_lookup. intros i x. rewrite list_lookup_imap. destruct (l !! i); [|done]. intros [= <-]. eexists. reflexivity. }
  revert Hf. generalize (imap (λ (i : nat) (p : string), CoreMerkle.hashOrderedLeaf (Z.of_nat i) p) l). clear l. intros l.
  assert (Forall (λ h, ∃ x, h = Hash.hashBytes x) l → ∃ x, CoreMerkle.hashLayer l = Hash.hashBytes x) as Hroot.
  { induction l as [|a|a c l IH] using TreeFacts.layers_ind; intros Hf; [by eexists|by apply Forall_cons in Hf as [[x ->] _]; eexists|].
    rewrite TreeFacts.hashLayer_step. apply IH. apply Forall_forall. intros x (y & z & _ & _ & _ & ->)%TreeFacts.nextLayer_elem. by eexists. }
  intros [x ->]%Hroot. split; [apply hash_bytes_hex|apply TreeFacts.hashBytes_length].
Qed.

(** *** Reading the text of a block *)

(** Blocks whose text can be taken apart again. *)
Definition readable_block (b : t) : bool :=
  plain_field (previousHash b) && plain_field (stateRoot b) && plain_field (receiptsRoot b) &&
  negb (contains_char (previousHash b) "=") && negb (contains_char (stateRoot b) "=") && negb (contains_char (receiptsRoot b) "=") &&
  forallb readable (records b) && (0 <=? index b) && (index b <=? u64_max) && (timestamp b <=? i64_max) && negb (isSnapshot b).

Definition header_parts (b : t) : list string :=
  ["BlockHeader{index"; to_string (index b) +:+ ";previousHash"; previousHash b +:+ ";timestamp"; to_string (timestamp b) +:+ ";recordCount";
   to_string (recordCount b) +:+ ";recordsMerkleRoot"; recordsRoot b +:+ ";stateRoot"; stateRoot b +:+ ";receiptsRoot"].

Definition block_parts (b : t) : list string :=
  ["Block{index"; to_string (index b) +:+ ";previousHash"; previousHash b +:+ ";hash"; hash b +:+ ";timestamp"; to_string (timestamp b) +:+ ";stateRoot";
   stateRoot b +:+ ";receiptsRoot"; receiptsRoot b +:+ ";recordCount"; to_string (recordCount b) +:+ ";payload"].

Definition body (b : t) : string := String.concat "," (LedgerRecord.serialize <$> records b) +:+ "]}".

Lemma block_text b : serialize b = joinEq (block_parts b ++ header_parts b ++ [receiptsRoot b +:+ "};records"]) ("[" +:+ body b).
Proof. unfold serialize, headerPayload, block_parts, header_parts, body, joinEq. cbn [foldr app]. rewrite !string_app_assoc. reflexivity. Qed.

Lemma header_text b : joinEq (header_parts b ++ [receiptsRoot b +:+ "};records"]) ("[" +:+ body b) = headerPayload b +:+ ";records=[" +:+ body b.
Proof. unfold headerPayload, header_parts, joinEq. cbn [foldr app]. rewrite !string_app_assoc. reflexivity. Qed.

(** What [readable_block] gives about the fields. *)
Record plain_block (b : t) : Prop := {
  plain_prev : plain_field (previousHash b) = true; plain_state : plain_field (stateRoot b) = true; plain_receipts : plain_field (receiptsRoot b) = true;
  noEq_prev : noEq (previousHash b); noEq_state : noEq (stateRoot b); noEq_receipts : noEq (receiptsRoot b);
  plain_hash : plain_field (hash b) = true; noEq_hash : noEq (hash b); plain_records : Forall (λ r, readable r = true) (records b);
  index_u64 : u64 (index b); time_i64 : timestamp b ≤ i64_max; no_snapshot : previousHash b ≠ "SNAPSHOT";
}.

Lemma readable_plain b : hash b = calculateHash b → readable_block b = true → plain_block b.
Proof.
  intros Eh Hr. unfold readable_block in Hr. repeat match type of Hr with _ && _ = true => apply andb_true_iff in Hr as [Hr ?] end.
  repeat match goal with H : negb _ = true |- _ => apply negb_true_iff in H end.
  constructor; try assumption.
  - rewrite Eh. apply hash_field.
  - rewrite Eh. apply hash_field.
  - apply Forall_forall. intros r Hin. match goal with H : forallb _ _ = true |- _ => rewrite forallb_forall in H; apply H end. by apply list_elem_of_In.
  - unfold u64. lia.
  - lia.
  - by apply String.eqb_neq.
Qed.

Lemma header_closed b : plain_block b → closed 0 (headerPayload b) = true.
Proof.
  intros [Hp Hs Hr _ _ _ _ _ _ _ _ _]. unfold headerPayload. destruct (digits_plain (index b)) as [H1 _], (digits_plain (timestamp b)) as [H2 _], (digits_plain (recordCount b)) as [H3 _].
  destruct (recordsRoot_hex b) as [[H4 _]%hex_plain _].
  change (closed 0 ("BlockHeader{index=" +:+ ?x)) with (closed 1 x). rewrite closed_plain by done. change (closed 1 (";previousHash=" +:+ ?x)) with (closed 1 x). rewrite closed_plain by done.
  change (closed 1 (";timestamp=" +:+ ?x)) with (closed 1 x). rewrite closed_plain by done. change (closed 1 (";recordCount=" +:+ ?x)) with (closed 1 x). rewrite closed_plain by done.
  change (closed 1 (";recordsMerkleRoot=" +:+ ?x)) with (closed 1 x). rewrite closed_plain by done. change (closed 1 (";stateRoot=" +:+ ?x)) with (closed 1 x). rewrite closed_plain by done.
  change (closed 1 (";receiptsRoot=" +:+ ?x)) with (closed 1 x). rewrite closed_plain by done. reflexivity.
Qed.

Lemma block_fields b : plain_block b → let field := extractLedgerField (serialize b) in
  field "index" = to_string (index b) ∧ field "previousHash" = previousHash b ∧ field "hash" = hash b ∧ field "timestamp" = to_string (timestamp b) ∧
  field "stateRoot" = stateRoot b ∧ field "receiptsRoot" = receiptsRoot b ∧ field "recordCount" = to_string (recordCount b) ∧ field "payload" = headerPayload b ∧
  find_after ";records=[" (serialize b) = Some (body b).
Proof.
  intros Hb. pose proof Hb as [Hp Hs Hr Ep Es Er Hh Eh _ _ _ _]. cbv zeta. destruct (digits_plain (index b)) as [H1 E1], (digits_plain (timestamp b)) as [H2 E2], (digits_plain (recordCount b)) as [H3 E3].
  destruct (recordsRoot_hex b) as [(H4 & E4 & _)%hex_plain _].
  rewrite block_text. unfold block_parts. cbn [app]. split_and!.
  - apply (field_of "index" [] _ _ "previousHash"); (part || done).
  - apply (field_of "previousHash" ["Block{index"] _ _ "hash"); (part || done).
  - apply (field_of "hash" ["Block{index"; _] _ _ "timestamp"); (part || done).
  - apply (field_of "timestamp" ["Block{index"; _; _] _ _ "stateRoot"); (part || done).
  - apply (field_of "stateRoot" ["Block{index"; _; _; _] _ _ "receiptsRoot"); (part || done).
  - apply (field_of "receiptsRoot" ["Block{index"; _; _; _; _] _ _ "recordCount"); (part || done).
  - apply (field_of "recordCount" ["Block{index"; _; _; _; _; _] _ _ "payload"); (part || done).
  - etransitivity; [apply (section_of "payload" ["Block{index"; _; _; _; _; _; _] _ (header_parts b ++ [receiptsRoot b +:+ "};records"]) ("[" +:+ body b)); (part || done)|].
    rewrite header_text, takeField_closed by by apply header_closed. apply append_nil_r.
  - change ";records=[" with (";records" +:+ String "=" "["). unfold header_parts. cbn [app].
    apply (find_part ";records" "[" ["Block{index"; _; _; _; _; _; _; _; "BlockHeader{index"; _; _; _; _; _; _] _ [] _); first [part|done|exact (strip_app "[" (body b))].
Qed.

Lemma number_read z : u64 z → readUnsigned (to_string z) = Some z.
Proof.
  intros Hz. unfold readUnsigned. rewrite Text.stoull_to_string by done. destruct (Text.to_string_digits z ltac:(unfold u64 in Hz; lia)) as [Hall Hne].
  unfold number_rest. pose proof (digits_rest_all _ Hall) as Hr. destruct (to_string z) as [|c s]; [done|]. cbn [all_chars] in Hall. apply andb_true_iff in Hall as [Hc _].
  rewrite skip_spaces_digit by done. cbn [snd]. by rewrite Hr.
Qed.

Lemma signed_read z : 0 ≤ z ≤ i64_max → readSigned (to_string z) = Some z.
Proof. intros Hz. unfold readSigned. destruct (stoll_to_string z Hz) as [-> ->]. done. Qed.

Lemma block_roundtrip i p rs ts sr rr b : make i p rs ts sr rr = Ok b → readable_block b = true → deserialize (serialize b) = Some b.
Proof.
  intros E Hr. assert (p ≠ "SNAPSHOT") as Hs.
  { intros ->. unfold readable_block in Hr. apply andb_true_iff in Hr as [_ Hr]. assert (isSnapshot b = true) as Hsn; [|by rewrite Hsn in Hr].
    unfold make in E. repeat (apply bind_Ok in E as (? & _ & E)). injection E as <-. done. }
  destruct (block_make_Ok _ _ _ _ _ _ _ E Hs) as (Eb & Hp & Hne & Hc & Ht & Hacc & Hlim). assert (hash b = calculateHash b) as Eh by (rewrite Eb at 1; done).
  pose proof (readable_plain b Eh Hr) as Hb. destruct (block_fields b Hb) as (E1 & E2 & E3 & E4 & E5 & E6 & E7 & E8 & E9).
  assert (records b = rs ∧ index b = i ∧ previousHash b = p ∧ timestamp b = ts ∧ stateRoot b = sr ∧ receiptsRoot b = rr) as (Ers & Ei & Ep & Ets & Esr & Err) by (by rewrite Eb).
  assert (string_size (serialize b) <= MAX_SERIALIZED_BYTES) as Hsize.
  { unfold isWithinResourceLimits in Hlim. destruct (_ || _); [done|]. destruct (recordBytes 0 (records b)); [|done]. lia. }
  unfold deserialize. cbv zeta. rewrite E1, E2, E3, E4, E5, E6, E7, E8, E9. replace (MAX_SERIALIZED_BYTES <? string_size (serialize b)) with false by lia.
  assert (starts_with "Block{" (serialize b) = true ∧ (string_size (serialize b) <? 8) = false ∧ back (serialize b) = "}"%char) as (-> & -> & ->).
  { split_and!.
    - unfold serialize. change ("Block{index=" +:+ ?x) with ("Block{" +:+ ("index=" +:+ x)). apply starts_with_app.
    - unfold serialize, string_size. rewrite CryptoFacts.length_append. change (String.length "Block{index=") with 12%nat. apply Z.ltb_ge. lia.
    - rewrite block_text, back_joinEq by done. unfold body. by rewrite <- string_app_assoc, back_app. }
  cbn [negb orb Ascii.eqb]. change (Ascii.eqb "}" "}") with true. cbn [negb orb].
  destruct Hb as [_ _ _ _ _ _ _ _ Hrec Hi64 Hts _].
  assert (0 ≤ recordCount b) by (unfold recordCount; lia). assert (0 < recordCount b) by (unfold recordCount; rewrite Ers; destruct rs; [done|simpl; lia]).
  assert (∀ z, 0 ≤ z → to_string z ≠ "") as Hnum by (intros z Hz; by destruct (Text.to_string_digits z Hz)).
  assert (hash b ≠ "") as Hhash by (rewrite Eh; apply hash_field). assert (headerPayload b ≠ "") as Hhead by (by unfold headerPayload).
  destruct Hi64 as [Hi0 Hi1]. rewrite !(proj2 (empty_string_false _)) by (rewrite ?Ep; auto with lia). cbn [orb].
  rewrite (number_read (index b)) by (split; assumption). cbn [mbind option_bind]. rewrite signed_read by lia. cbn [mbind option_bind].
  rewrite (number_read (recordCount b)) by (unfold u64, MAX_RECORDS, u64_max in *; lia). cbn [mbind option_bind].
  replace ((recordCount b =? 0) || (MAX_RECORDS <? recordCount b)) with false by lia.
  assert (starts_with "BlockHeader{" (headerPayload b) = true ∧ back (headerPayload b) = "}"%char) as [-> ->].
  { split; unfold headerPayload; [change ("BlockHeader{index=" +:+ ?x) with ("BlockHeader{" +:+ ("index=" +:+ x)); apply starts_with_app|].
    rewrite <- !string_app_assoc. by apply back_app. }
  change (Ascii.eqb "}" "}") with true. cbn [negb orb]. unfold body. rewrite withoutEnd_app. cbn [mbind option_bind].
  rewrite splitRecords_serialized; [|rewrite Ers; apply Forall_and; split; [by apply acceptable_valid|by rewrite <- Ers]|apply concat_length]. cbn [mbind option_bind].
  rewrite bool_decide_false by (by rewrite Ers). change (Z.of_nat (length (records b))) with (recordCount b). rewrite Z.eqb_refl. cbn [negb orb].
  rewrite Ers, Ei, Ep, Ets, Esr, Err, E. cbn [LedgerRecord.or_none mbind option_bind]. by rewrite !String.eqb_refl.
Qed.
End text.
End BlockFacts.

(** ** Facts about the chain *)

Module ChainFacts.
Import SafeScalar FieldText FieldFacts RecordFacts BlockFacts Blockchain.

Section chain.
Context `{Hsha : Sha256Spec}.

Inductive op := OpGenesis (b : Block.t) | OpBlock (b : Block.t) | OpReset (height : Z) (hash stateRoot : string).
Definition run (o : op) : M t unit :=
  match o with
  | OpGenesis b => addGenesisBlock b
  | OpBlock b => addBlock b
  | OpReset height hash stateRoot => resetFromSnapshot height hash stateRoot
  end.
Definition run_all (ops : list op) (c : t) : t := foldl (λ c o, (run o c).2) c ops.

Lemma addGenesis_cases b c : (addGenesisBlock b c).2 = c ∨ m_blocks c = [] ∧ isValidGenesisBlock b = true ∧ addGenesisBlock b c = (Ok tt, push b c).
Proof.
  unfold addGenesisBlock, gets, lift, mbind, M_bind. cbn. case_bool_decide as E; cbn; [|by left]. destruct (isValidGenesisBlock b); cbn; [by right|by left].
Qed.

Lemma addBlock_cases b c : (addBlock b c).2 = c ∧ (addBlock b c).1 ≠ Ok tt ∨ ∃ latest, last (m_blocks c) = Some latest ∧ isValidNextBlock latest b false = true ∧ addBlock b c = (Ok tt, push b c).
Proof.
  unfold addBlock, gets, lift, mbind, M_bind, canAppendBlock. cbn. case_bool_decide as E; cbn; [by left|]. destruct (last (m_blocks c)) as [latest|] eqn:El; [|by apply last_None in El].
  destruct (isValidNextBlock latest b false) eqn:Ev; cbn; [|by left]. right. by exists latest.
Qed.

Definition dummy (height : Z) (hash stateRoot : string) : Block.t := Block.mk height "SNAPSHOT" hash [] 1 stateRoot "".

Lemma reset_value height hash stateRoot c : resetFromSnapshot height hash stateRoot c = (Ok tt, mk [dummy height hash stateRoot] {[ hash := 0%nat ]}).
Proof. reflexivity. Qed.

(** Consecutive blocks of a chain. *)
Definition follows (a b : Block.t) : Prop :=
  Block.index b = Block.index a + 1 ∧ Block.previousHash b = Block.hash a ∧ Block.timestamp a < Block.timestamp b.

Lemma next_follows a b r : isValidNextBlock a b r = true → follows a b ∧ Block.isValid r a = true ∧ Block.isValid r b = true.
Proof.
  unfold isValidNextBlock. destruct (2097152 <? _); [done|]. destruct (Block.isValid r a); [|done]. destruct (Block.isValid r b); [|done]. cbn [negb].
  destruct (Block.isGenesisBlock b); [done|]. destruct (_ || _) eqn:Ei; [done|]. destruct (String.eqb_spec (Block.previousHash b) (Block.hash a)); [|done]. cbn [negb].
  destruct (_ <=? _) eqn:Et; [done|]. intros _. split; [|done]. unfold follows. split_and!; [lia|done|lia].
Qed.

(** The indices by hash describe the list of blocks. *)
Record indexed (c : t) : Prop := {
  found : ∀ h i, m_blockIndicesByHash c !! h = Some i → ∃ b, m_blocks c !! i = Some b ∧ Block.hash b = h;
  complete : ∀ b, b ∈ m_blocks c → is_Some (m_blockIndicesByHash c !! Block.hash b);
}.

Definition wf (c : t) : Prop :=
  indexed c ∧ match m_blocks c with
  | [] => True
  | front :: l => (isValidGenesisBlock front = true ∨ ∃ h hash sr, front = dummy h hash sr) ∧ linked false front l = true
  end.

Lemma push_indexed b c : indexed c → indexed (push b c).
Proof.
  intros [Hf Hc]. split; cbn [push m_blocks m_blockIndicesByHash].
  - intros h i. destruct (decide (h = Block.hash b)) as [->|Hne].
    + rewrite lookup_insert_eq. intros [= <-]. exists b. split; [by rewrite list_lookup_middle|done].
    + rewrite lookup_insert_ne by done. intros (b' & Hl & E)%Hf. exists b'. split; [by apply lookup_app_l_Some|done].
  - intros b' [Hb| ->%list_elem_of_singleton]%elem_of_app; [|by rewrite lookup_insert_eq].
    destruct (decide (Block.hash b' = Block.hash b)) as [->|Hne]; [by rewrite lookup_insert_eq|]. rewrite lookup_insert_ne by done. by apply Hc.
Qed.

Lemma last_cons_default (front : Block.t) l : last (front :: l) = Some (default front (last l)).
Proof. revert front. induction l as [|x l IH]; intros front; [done|]. change (last (front :: x :: l)) with (last (x :: l)). rewrite IH. by destruct l. Qed.

Lemma linked_snoc r front l b : linked r front (l ++ [b]) = linked r front l && isValidNextBlock (default front (last l)) b r.
Proof.
  revert front. induction l as [|x l IH]; intros front; cbn [app linked].
  - change (default front (last [])) with front. by destruct (isValidNextBlock front b r).
  - destruct (isValidNextBlock front x r); cbn [negb andb]; [|done]. by rewrite IH, (last_cons_default x l).
Qed.

Lemma chain_run_wf o c : wf c → wf (run o c).2.
Proof.
  intros [Hi Hc]. destruct o as [b|b|height h sr]; cbn [run].
  - destruct (addGenesis_cases b c) as [->|(He & Hg & ->)]; [done|]. split; [by apply push_indexed|]. cbn [snd push m_blocks]. rewrite He. cbn [app]. split; [by left|done].
  - destruct (addBlock_cases b c) as [[-> _]|(latest & Hl & Hn & ->)]; [done|]. split; [by apply push_indexed|]. cbn [snd push m_blocks].
    destruct (m_blocks c) as [|front l]; [done|]. cbn [app]. destruct Hc as [Hf Hlk]. split; [done|]. rewrite linked_snoc, Hlk. cbn [andb].
    rewrite last_cons_default in Hl. by injection Hl as ->.
  - rewrite reset_value. split; cbn [snd m_blocks m_blockIndicesByHash].
    + split; cbn [m_blocks m_blockIndicesByHash].
      * intros h' i [<- <-]%lookup_singleton_Some. by exists (dummy height h sr).
      * intros b ->%list_elem_of_singleton. cbn [dummy Block.hash]. by rewrite lookup_singleton_eq.
    + split; [right; by exists height, h, sr|done].
Qed.

Lemma chain_runs_wf ops : wf (run_all ops empty_chain).
Proof.
  unfold run_all. assert (wf empty_chain) as Hw.
  { split; [split; cbn [m_blocks m_blockIndicesByHash empty_chain]|done]; [intros h i; by rewrite lookup_empty|by intros b ?%elem_of_nil]. }
  revert Hw. generalize empty_chain. induction ops as [|o ops IH]; intros c Hw; [done|]. cbn [foldl]. apply IH. by apply chain_run_wf.
Qed.

Lemma linked_follows r front l i a b : linked r front l = true → (front :: l) !! i = Some a → (front :: l) !! S i = Some b → follows a b.
Proof.
  revert front i. induction l as [|x l IH]; intros front i Hl Ha Hb; [by destruct i|]. cbn [linked] in Hl.
  destruct (isValidNextBlock front x r) eqn:E; [|done]. cbn [negb] in Hl. destruct i as [|i]; cbn [lookup list_lookup] in Ha, Hb.
  - injection Ha as <-. injection Hb as <-. by apply next_follows in E as [? _].
  - by apply (IH x i).
Qed.

Lemma linked_index r front l i b : linked r front l = true → (front :: l) !! i = Some b → Block.index b = Block.index front + Z.of_nat i.
Proof.
  intros Hl. revert b. induction i as [|i IH]; intros b Hb; [injection Hb as <-; lia|].
  destruct ((front :: l) !! i) as [a|] eqn:Ha; [|apply lookup_ge_None in Ha; apply lookup_lt_Some in Hb; lia].
  destruct (linked_follows r front l i a b Hl Ha Hb) as (-> & _). rewrite (IH a eq_refl). lia.
Qed.

(** Appending leaves the first block and the links. *)
Lemma appends_front bs : ∀ c front l, m_blocks c = front :: l → linked false front l = true →
  ∃ l', m_blocks (run_all (OpBlock <$> bs) c) = front :: l' ∧ linked false front l' = true.
Proof.
  induction bs as [|b bs IH]; intros c front l Ec Hl; [by exists l|]. cbn [fmap list_fmap run_all foldl]. change (foldl _ ?x (OpBlock <$> bs)) with (run_all (OpBlock <$> bs) x).
  cbn [run]. destruct (addBlock_cases b c) as [[-> _]|(latest & Hla & Hn & ->)]; [by apply (IH c front l)|]. cbn [snd]. apply (IH _ front (l ++ [b])); cbn [push m_blocks].
  - by rewrite Ec.
  - rewrite linked_snoc, Hl. rewrite Ec, last_cons_default in Hla. injection Hla as ->. done.
Qed.

(** *** The tip binds the history *)

Definition plain_text (s : string) : bool := plain_field s && negb (contains_char s "000").

Record committed (b : Block.t) : Prop := {
  hash_value : Block.hash b = Block.calculateHash b;
  prev_plain : plain_text (Block.previousHash b) = true;
  state_plain : plain_text (Block.stateRoot b) = true;
  receipts_plain : plain_text (Block.receiptsRoot b) = true;
}.

Definition same_block (a b : Block.t) : Prop :=
  Block.index a = Block.index b ∧ Block.previousHash a = Block.previousHash b ∧ Block.hash a = Block.hash b ∧ Block.timestamp a = Block.timestamp b ∧
  Block.stateRoot a = Block.stateRoot b ∧ Block.receiptsRoot a = Block.receiptsRoot b ∧ LedgerRecord.serialize <$> Block.records a = LedgerRecord.serialize <$> Block.records b.

Definition blockInputs (b : Block.t) : list string := Block.headerPayload b :: TreeFacts.orderedInputs (LedgerRecord.serialize <$> Block.records b).

Lemma plain_no c s : plain_field s = true → contains_char "{}[];" c = true → contains_char s c = false.
Proof. intros Hs Hc. apply (Text.all_chars_contains field_char); [done|]. unfold field_char. by rewrite Hc. Qed.

Lemma number_no c z : contains_char "{}[];" c = true → contains_char (to_string z) c = false.
Proof. intros Hc. apply plain_no; [|done]. apply digits_plain. Qed.

Lemma header_inj a b : committed a → committed b → Block.headerPayload a = Block.headerPayload b →
  Block.index a = Block.index b ∧ Block.previousHash a = Block.previousHash b ∧ Block.timestamp a = Block.timestamp b ∧
  Block.recordsRoot a = Block.recordsRoot b ∧ Block.stateRoot a = Block.stateRoot b ∧ Block.receiptsRoot a = Block.receiptsRoot b.
Proof.
  intros [_ Pa Sa Ra] [_ Pb Sb Rb] E. apply andb_true_iff in Pa as [Pa _], Sa as [Sa _], Ra as [Ra _], Pb as [Pb _], Sb as [Sb _], Rb as [Rb _].
  destruct (recordsRoot_hex a) as [[Ma _]%hex_plain _], (recordsRoot_hex b) as [[Mb _]%hex_plain _].
  unfold Block.headerPayload in E. apply TreeFacts.prefix_inj in E.
  change (";previousHash=" +:+ ?x) with (String ";" ("previousHash=" +:+ x)) in E. apply TransactionFacts.field_inj in E as [Ei E]; [|by apply number_no..]. apply TreeFacts.prefix_inj in E.
  change (";timestamp=" +:+ ?x) with (String ";" ("timestamp=" +:+ x)) in E. apply TransactionFacts.field_inj in E as [Ep E]; [|by apply plain_no..]. apply TreeFacts.prefix_inj in E.
  change (";recordCount=" +:+ ?x) with (String ";" ("recordCount=" +:+ x)) in E. apply TransactionFacts.field_inj in E as [Et E]; [|by apply number_no..]. apply TreeFacts.prefix_inj in E.
  change (";recordsMerkleRoot=" +:+ ?x) with (String ";" ("recordsMerkleRoot=" +:+ x)) in E. apply TransactionFacts.field_inj in E as [_ E]; [|by apply number_no..]. apply TreeFacts.prefix_inj in E.
  change (";stateRoot=" +:+ ?x) with (String ";" ("stateRoot=" +:+ x)) in E. apply TransactionFacts.field_inj in E as [Em E]; [|by apply plain_no..]. apply TreeFacts.prefix_inj in E.
  change (";receiptsRoot=" +:+ ?x) with (String ";" ("receiptsRoot=" +:+ x)) in E. apply TransactionFacts.field_inj in E as [Es E]; [|by apply plain_no..]. apply TreeFacts.prefix_inj in E.
  change "}" with (String "}" "") in E. apply TransactionFacts.field_inj in E as [Er _]; [|by apply plain_no..].
  apply (inj to_string) in Ei, Et. done.
Qed.

Lemma noNul_app a b : contains_char a "000" = false → contains_char b "000" = false → contains_char (a +:+ b) "000" = false.
Proof. intros Ha Hb. by rewrite contains_char_app, Ha, Hb. Qed.

Lemma header_noNul b : committed b → contains_char (Block.headerPayload b) "000" = false.
Proof.
  intros [_ Pa Sa Ra]. apply andb_true_iff in Pa as [_ Pa], Sa as [_ Sa], Ra as [_ Ra]. apply negb_true_iff in Pa, Sa, Ra.
  destruct (recordsRoot_hex b) as [(_ & _ & Ma)%hex_plain _]. unfold Block.headerPayload.
  repeat (apply noNul_app; [first [reflexivity|assumption|by apply TransactionFacts.to_string_plain]|]). reflexivity.
Qed.

Variable inputs : list string.
Hypothesis Hfree : MerkleFacts.collision_free evp_sha256 inputs.

Lemma block_hash_inj a b : committed a → committed b → blockInputs a ⊆ inputs → blockInputs b ⊆ inputs → Block.hash a = Block.hash b → same_block a b.
Proof.
  intros Ha Hb Ia Ib E. pose proof E as Eh. rewrite (hash_value a Ha), (hash_value b Hb) in E. unfold Block.calculateHash, Hash.hashCString, Hash.nodo_hash_string in E.
  rewrite !StateRootFacts.c_str_plain in E by by apply header_noNul.
  assert (Block.headerPayload a = Block.headerPayload b) as Ep.
  { apply (TreeFacts.hashBytes_inj inputs Hfree); [apply Ia; left|apply Ib; left|]. unfold Hash.hashBytes. by rewrite E. }
  destruct (header_inj a b Ha Hb Ep) as (E1 & E2 & E3 & E4 & E5 & E6). unfold same_block. split_and!; try done.
  apply (TreeFacts.ordered_root_bind inputs Hfree); [intros x Hx; apply Ia; by right|intros x Hx; apply Ib; by right|done].
Qed.

Definition genesis_plain (b : Block.t) : bool := plain_text (Block.stateRoot b) && plain_text (Block.receiptsRoot b).

Lemma canonical_plain s : Block.isCanonicalCommitmentRoot s = true → plain_text s = true.
Proof.
  unfold Block.isCanonicalCommitmentRoot. destruct (negb _); [done|]. intros (H1 & _ & H3)%hex_plain. unfold plain_text. by rewrite H1, H3.
Qed.

Lemma valid_hash r b : Block.isValid r b = true → Block.previousHash b ≠ "SNAPSHOT" → Block.hash b = Block.calculateHash b.
Proof.
  intros Hv Hs. unfold Block.isValid in Hv. unfold Block.isSnapshot in Hv. rewrite (proj2 (String.eqb_neq _ _) Hs) in Hv. cbn [negb] in Hv. rewrite !andb_true_r in Hv.
  destruct (empty_string (Block.previousHash b)); [done|]. destruct (empty_string (Block.hash b)); [done|]. destruct (_ || _); [done|]. destruct (_ <=? _); [done|].
  destruct (negb (forallb _ _)); [done|]. cbn [andb] in Hv. by destruct (String.eqb_spec (Block.hash b) (Block.calculateHash b)).
Qed.

Lemma valid_roots b : Block.isValid true b = true → Block.previousHash b ≠ "SNAPSHOT" → 0 < Block.index b →
  plain_text (Block.stateRoot b) = true ∧ plain_text (Block.receiptsRoot b) = true.
Proof.
  intros Hv Hs Hi. unfold Block.isValid in Hv. unfold Block.isSnapshot in Hv. rewrite (proj2 (String.eqb_neq _ _) Hs) in Hv. cbn [negb] in Hv.
  repeat match type of Hv with (if ?c then false else _) = true => destruct c eqn:?; [discriminate Hv|] end.
  match goal with E : true && _ && _ && _ = false |- _ => replace (0 <? Block.index b) with true in E by lia; cbn [andb] in E; apply orb_false_iff in E as [E1%negb_false_iff E2%negb_false_iff] end.
  split; by apply canonical_plain.
Qed.

Lemma hash_previous a b : committed a → Block.previousHash b = Block.hash a → plain_text (Block.previousHash b) = true ∧ Block.previousHash b ≠ "SNAPSHOT".
Proof.
  intros Ca ->. rewrite (hash_value a Ca). unfold Block.calculateHash. destruct (hash_field (Block.headerPayload a)) as (H1 & _ & _ & H4). unfold plain_text. rewrite H1, H4.
  split; [done|]. destruct (CryptoFacts.hash_shape (Block.headerPayload a)) as (h & -> & Hlen & _). by intros ->.
Qed.

Lemma linked_next_valid r front l i b : linked r front l = true → (front :: l) !! S i = Some b → Block.isValid r b = true.
Proof.
  revert front i. induction l as [|x l IH]; intros front i Hl Hb; [done|]. cbn [linked] in Hl. destruct (isValidNextBlock front x r) eqn:E; [|done]. cbn [negb] in Hl.
  destruct i as [|i]; [injection Hb as <-; by apply next_follows in E as (_ & _ & ?)|]. by apply (IH x i).
Qed.

Lemma chain_committed front l i b : isValidGenesisBlock front = true → genesis_plain front = true → linked true front l = true → (front :: l) !! i = Some b →
  committed b ∧ Block.index b = Z.of_nat i.
Proof.
  intros Hg Hp Hl. revert b. unfold isValidGenesisBlock in Hg. destruct (Block.isValid true front) eqn:Hv; [|done]. destruct (Block.isGenesisBlock front); [|done]. cbn [negb] in Hg.
  destruct (Block.index front =? 0) eqn:Ei; [|done]. destruct (String.eqb_spec (Block.previousHash front) "GENESIS") as [Epr|]; [|done].
  induction i as [|i IH]; intros b Hb.
  - injection Hb as <-. split; [|lia]. apply andb_true_iff in Hp as [H1 H2]. constructor; [apply (valid_hash true); [done|by rewrite Epr]|by rewrite Epr|done|done].
  - destruct ((front :: l) !! i) as [a|] eqn:Ha; [|apply lookup_ge_None in Ha; apply lookup_lt_Some in Hb; lia].
    destruct (IH a eq_refl) as [Ca Ia]. destruct (linked_follows true front l i a b Hl Ha Hb) as (Eidx & Eprev & _). destruct (hash_previous a b Ca Eprev) as [Hpp Hns].
    pose proof (linked_next_valid true front l i b Hl Hb) as Hvb. destruct (valid_roots b Hvb Hns ltac:(lia)) as [H1 H2]. split; [|lia]. constructor; [by apply (valid_hash true)|done|done|done].
Qed.

Definition chainInputs (c : t) : list string := mjoin (blockInputs <$> m_blocks c).

Lemma chainInputs_elem c b x : b ∈ m_blocks c → x ∈ blockInputs b → x ∈ chainInputs c.
Proof. intros Hb Hx. apply list_elem_of_join. exists (blockInputs b). split; [done|]. apply list_elem_of_fmap. by exists b. Qed.

(** Every block of a list is committed and has its position as index. *)
Definition sound (l : list Block.t) : Prop := ∀ i b, l !! i = Some b → committed b ∧ Block.index b = Z.of_nat i.

Lemma chain_sound front l : isValidGenesisBlock front = true → genesis_plain front = true → linked true front l = true → sound (front :: l).
Proof. intros Hg Hp Hl i b. by apply chain_committed. Qed.

(** Without the check of the commitments, for chains whose roots keep to the text format. *)
Lemma chain_sound_plain r front l : isValidGenesisBlock front = true → Forall (λ b, genesis_plain b = true) (front :: l) → linked r front l = true → sound (front :: l).
Proof.
  intros Hg Hp Hl i. unfold isValidGenesisBlock in Hg. destruct (Block.isValid true front) eqn:Hv; [|done]. destruct (Block.isGenesisBlock front); [|done]. cbn [negb] in Hg.
  destruct (Block.index front =? 0) eqn:Ei; [|done]. destruct (String.eqb_spec (Block.previousHash front) "GENESIS") as [Epr|]; [|done]. rewrite Forall_lookup in Hp.
  induction i as [|i IH]; intros b Hb; pose proof (Hp _ _ Hb) as [H1 H2]%andb_true_iff.
  - injection Hb as <-. split; [|lia]. constructor; [apply (valid_hash true); [done|by rewrite Epr]|by rewrite Epr|done|done].
  - destruct ((front :: l) !! i) as [a|] eqn:Ha; [|apply lookup_ge_None in Ha; apply lookup_lt_Some in Hb; lia].
    destruct (IH a eq_refl) as [Ca Ia]. destruct (linked_follows r front l i a b Hl Ha Hb) as (Eidx & Eprev & _). destruct (hash_previous a b Ca Eprev) as [Hpp Hns].
    split; [|lia]. constructor; [|done|done|done]. apply (valid_hash r); [|done]. exact (linked_next_valid r front l i b Hl Hb).
Qed.

(** The blocks below two blocks with one hash. *)
Lemma history_bind front l front' l' r r' i : sound (front :: l) → linked r front l = true → sound (front' :: l') → linked r' front' l' = true →
  (∀ b, b ∈ front :: l ∨ b ∈ front' :: l' → blockInputs b ⊆ inputs) →
  ∀ j a b, (front :: l) !! i = Some a → (front' :: l') !! j = Some b → Block.hash a = Block.hash b →
  i = j ∧ Forall2 same_block (take (S i) (front :: l)) (take (S i) (front' :: l')).
Proof.
  intros Hs Hl Hs' Hl' Hin. induction i as [|i IH]; intros j a b Ha Hb E.
  - destruct (Hs _ a Ha) as [Ca Ia], (Hs' j b Hb) as [Cb Ib].
    pose proof (block_hash_inj a b Ca Cb (Hin a (or_introl (list_elem_of_lookup_2 _ _ _ Ha))) (Hin b (or_intror (list_elem_of_lookup_2 _ _ _ Hb))) E) as Hsame.
    destruct Hsame as (Ei & Hsame). assert (j = 0%nat) as -> by lia. split; [done|]. injection Ha as <-. injection Hb as <-. cbn [take]. constructor; [by split|constructor].
  - destruct (Hs _ a Ha) as [Ca Ia], (Hs' j b Hb) as [Cb Ib].
    pose proof (block_hash_inj a b Ca Cb (Hin a (or_introl (list_elem_of_lookup_2 _ _ _ Ha))) (Hin b (or_intror (list_elem_of_lookup_2 _ _ _ Hb))) E) as Hsame.
    pose proof Hsame as (Ei & Eprev & _). assert (j = S i) as -> by lia.
    destruct ((front :: l) !! i) as [a0|] eqn:Ha0; [|apply lookup_ge_None in Ha0; apply lookup_lt_Some in Ha; lia].
    destruct ((front' :: l') !! i) as [b0|] eqn:Hb0; [|apply lookup_ge_None in Hb0; apply lookup_lt_Some in Hb; lia].
    destruct (linked_follows r front l i a0 a Hl Ha0 Ha) as (_ & Epa & _), (linked_follows r' front' l' i b0 b Hl' Hb0 Hb) as (_ & Epb & _).
    destruct (IH i a0 b0 eq_refl Hb0) as [_ IHf]; [congruence|]. split; [done|]. rewrite (take_S_r _ _ a Ha), (take_S_r _ _ b Hb).
    apply Forall2_app; [exact IHf|]. by constructor.
Qed.
End chain.
End ChainFacts.

(** ** Properties *)

Module BlockProperties.
Import SafeScalar FieldText FieldFacts RecordFacts BlockFacts Blockchain ChainFacts.

Section properties.
Context `{Hsha : Sha256Spec}.

(** C40. The text of a block has one reading.  A block that the constructor accepted and
    whose identifiers, roots and record payloads keep to the text format is read back
    exactly from its text; and whatever text is accepted is the text of the block that is
    returned, which the constructor accepts and whose hash is that of its header. *)
Theorem block_text_roundtrip (b : Block.t) (text : string) :
  (∀ i p rs ts sr rr, Block.make i p rs ts sr rr = Ok b → readable_block b = true → Block.deserialize (Block.serialize b) = Some b) ∧
  (Block.deserialize text = Some b →
     text = Block.serialize b ∧ Block.hash b = Block.calculateHash b ∧
     Block.make (Block.index b) (Block.previousHash b) (Block.records b) (Block.timestamp b) (Block.stateRoot b) (Block.receiptsRoot b) = Ok b).
Proof.
  split; [intros i p rs ts sr rr; apply block_roundtrip|]. unfold Block.deserialize. cbv zeta. intros E.
  repeat match type of E with (if ?c then None else _) = Some _ => destruct c; [discriminate E|] end.
  apply bind_Some in E as (i & _ & E). apply bind_Some in E as (ts & _ & E). apply bind_Some in E as (n & _ & E).
  repeat match type of E with (if ?c then None else _) = Some _ => destruct c; [discriminate E|] end.
  apply bind_Some in E as (rest & _ & E). apply bind_Some in E as (content & _ & E). apply bind_Some in E as (rs & _ & E).
  match type of E with (if ?c then None else _) = Some _ => destruct c; [discriminate E|] end.
  apply bind_Some in E as (b' & Em & E). destruct (negb (String.eqb (Block.hash b') _)); [done|]. destruct (negb (String.eqb (Block.headerPayload b') _)); [done|].
  destruct (String.eqb_spec (Block.serialize b') text) as [Et|]; [|done]. cbn [negb] in E. injection E as <-.
  destruct (Block.make i _ rs ts _ _) as [b''|] eqn:Emake; [|done]. injection Em as ->. destruct (make_fields _ _ _ _ _ _ _ Emake) as (-> & -> & -> & -> & -> & -> & Eh). done.
Qed.

(** Whatever genesis blocks, blocks and snapshots are offered, the chain stays linked:
    its first block is a valid genesis block or the marker of a snapshot, every next block
    has the next height, names the hash of its predecessor and a later time, a lookup by
    hash returns a block of the chain with that hash, and every block is found. *)
Theorem chain_stays_linked (ops : list op) :
  let c := run_all ops empty_chain in
  (∀ front, head (m_blocks c) = Some front → isValidGenesisBlock front = true ∨ Block.isSnapshot front = true) ∧
  (∀ i a b, m_blocks c !! i = Some a → m_blocks c !! S i = Some b →
     Block.index b = Block.index a + 1 ∧ Block.previousHash b = Block.hash a ∧ Block.timestamp a < Block.timestamp b) ∧
  (∀ h b, blockByHash h c = Some b → b ∈ m_blocks c ∧ Block.hash b = h) ∧
  (∀ b, b ∈ m_blocks c → is_Some (blockByHash (Block.hash b) c)).
Proof.
  cbv zeta. pose proof (chain_runs_wf ops) as [[Hf Hc] Hw]. revert Hf Hc Hw. generalize (run_all ops empty_chain). intros c Hf Hc Hw. split_and!.
  - intros front E. destruct (m_blocks c) as [|x l]; [done|]. injection E as ->. destruct Hw as [[Hg|(h & hash & sr & ->)] _]; [by left|by right].
  - intros i a b Ha Hb. destruct (m_blocks c) as [|front l]; [done|]. destruct Hw as [_ Hl]. exact (linked_follows false front l i a b Hl Ha Hb).
  - intros h b (i & Hi & Hb)%bind_Some. destruct (Hf h i Hi) as (b' & Hb' & <-). rewrite Hb in Hb'. injection Hb' as ->. split; [by apply (list_elem_of_lookup_2 _ i)|done].
  - intros b Hb. destruct (Hc b Hb) as [i Hi]. destruct (Hf _ i Hi) as (b' & Hb' & _). exists b'. unfold blockByHash. rewrite Hi. exact Hb'.
Qed.

(** C7. The hash of the tip binds the whole history.  Two chains that pass the audit with
    protocol commitments, both start with a genesis block, not with a snapshot, whose roots
    keep to the text format, and have tips with the same hash have the same length and,
    height by height, the same header fields and the same serialized records in the same
    order, unless SHA-256 collides on the texts involved. *)
Theorem tip_binds_history (c c' : t) (tip tip' : Block.t) :
  isValid true c = true → isValid true c' = true →
  (∀ front, head (m_blocks c) = Some front ∨ head (m_blocks c') = Some front → Block.isSnapshot front = false ∧ genesis_plain front = true) →
  MerkleFacts.collision_free evp_sha256 (chainInputs c ++ chainInputs c') →
  latestBlock c = Ok tip → latestBlock c' = Ok tip' → Block.hash tip = Block.hash tip' →
  Forall2 same_block (m_blocks c) (m_blocks c').
Proof.
  intros Hv Hv' Hfront Hfree Ht Ht' E. unfold isValid, latestBlock in *. set (inputs := chainInputs c ++ chainInputs c') in *.
  assert (∀ b, b ∈ m_blocks c ∨ b ∈ m_blocks c' → blockInputs b ⊆ inputs) as Hin.
  { intros b [Hb|Hb] x Hx; apply elem_of_app; [left|right]; by eapply chainInputs_elem. }
  clearbody inputs. destruct (m_blocks c) as [|front l]; [done|]. destruct (m_blocks c') as [|front' l']; [done|].
  destruct (Hfront front) as [Es Hp]; [by left|]. destruct (Hfront front') as [Es' Hp']; [by right|]. rewrite Es in Hv. rewrite Es' in Hv'. cbn [negb andb] in *.
  destruct (isValidGenesisBlock front) eqn:Hg; [|done]. destruct (isValidGenesisBlock front') eqn:Hg'; [|done]. cbn [negb] in *.
  rewrite last_lookup in Ht, Ht'. cbn [length pred] in *. destruct ((front :: l) !! length l) as [a|] eqn:Ha; [|done]. destruct ((front' :: l') !! length l') as [b|] eqn:Hb; [|done].
  injection Ht as ->. injection Ht' as ->.
  destruct (history_bind inputs Hfree front l front' l' true true (length l) (chain_sound front l Hg Hp Hv) Hv (chain_sound front' l' Hg' Hp' Hv') Hv' Hin (length l') tip tip' Ha Hb E) as [El Hall].
  rewrite !take_ge in Hall by (cbn [length]; lia). exact Hall.
Qed.

(** A chain that was reset from a snapshot at a positive height cannot find its blocks
    by height: [blockByHeight] takes the height for a position in the list, so after the
    reset and any further blocks it returns no block at the block's own height, and what
    it returns at a small height is a block [height] above. *)
Theorem snapshot_chain_hides_blocks (height : Z) (hash stateRoot : string) (bs : list Block.t) :
  0 < height →
  let c := run_all (OpReset height hash stateRoot :: (OpBlock <$> bs)) empty_chain in
  (∀ b, b ∈ m_blocks c → blockByHeight (Block.index b) c ≠ Some b) ∧
  (∀ k b, 0 ≤ k → blockByHeight k c = Some b → Block.index b = height + k).
Proof.
  intros Hh. cbv zeta.
  assert (∃ l, m_blocks (run_all (OpReset height hash stateRoot :: (OpBlock <$> bs)) empty_chain) = dummy height hash stateRoot :: l ∧ linked false (dummy height hash stateRoot) l = true) as (l & El & Hl).
  { cbn [run_all foldl]. cbn [run]. rewrite reset_value. cbn [snd]. change (foldl _ ?c (OpBlock <$> bs)) with (run_all (OpBlock <$> bs) c).
    apply (appends_front bs _ _ []); done. }
  unfold blockByHeight. rewrite El. pose proof (linked_index false (dummy height hash stateRoot) l) as Hi. change (Block.index (dummy height hash stateRoot)) with height in Hi.
  assert (∀ k b, 0 ≤ k → (if k <? Z.of_nat (length (dummy height hash stateRoot :: l)) then (dummy height hash stateRoot :: l) !! Z.to_nat k else None) = Some b → Block.index b = height + k) as Hk.
  { intros k b Hk Hb. destruct (k <? _); [|done]. rewrite (Hi _ b Hl Hb). lia. }
  split; [|done]. intros b Hb E. apply list_elem_of_lookup in Hb as [i Hb]. pose proof (Hi i b Hl Hb) as Eb. apply Hk in E; lia.
Qed.
End properties.

(** *** Witnesses *)

#[local] Existing Instance StateTreeProperties.small_sha256.
#[local] Existing Instance StateTreeProperties.small_sha256_spec.

Definition block_or (r : result Block.t) : Block.t := match r with Ok b => b | Throw _ => Block.mk 0 "" "" [] 0 "" "" end.
Definition sample_record (n : Z) : LedgerRecord.t := LedgerRecord.accept TRANSACTION "tx" ("Transaction{n=" +:+ to_string n +:+ ";v=[1;2]}") 5.
Definition sample_genesis : Block.t := block_or (Block.createGenesisBlock [sample_record 1] 10 "").
Definition sample_block : Block.t :=
  block_or (Block.make 1 (Block.hash sample_genesis) [sample_record 2; sample_record 3] 20 (Hash.hashBytes "state") (Hash.hashBytes "receipts")).
Definition sample_chain : t := run_all [OpGenesis sample_genesis; OpBlock sample_block] empty_chain.

Lemma sample_block_made : Block.make 1 (Block.hash sample_genesis) [sample_record 2; sample_record 3] 20 (Hash.hashBytes "state") (Hash.hashBytes "receipts") = Ok sample_block.
Proof. vm_compute. reflexivity. Qed.

Lemma block_text_roundtrip_witness : Block.deserialize (Block.serialize sample_block) = Some sample_block.
Proof.
  apply (proj1 (block_text_roundtrip sample_block "") 1 (Block.hash sample_genesis) [sample_record 2; sample_record 3] 20 (Hash.hashBytes "state") (Hash.hashBytes "receipts") sample_block_made).
  vm_compute. reflexivity.
Defined.

Lemma sample_chain_valid : isValid true sample_chain = true ∧ m_blocks sample_chain = [sample_genesis; sample_block].
Proof. vm_compute. split; reflexivity. Qed.

Lemma sample_chain_texts : MerkleFacts.collision_free evp_sha256 (chainInputs sample_chain).
Proof.
  apply (StateTreeProperties.collision_free_sub _ (remove_dups (chainInputs sample_chain))); [intros x Hx; by apply elem_of_remove_dups|].
  apply MerkleFacts.collision_free_check. apply (bool_decide_eq_true_1 _). vm_compute. reflexivity.
Qed.

Lemma tip_binds_history_witness : latestBlock sample_chain = Ok sample_block ∧ Forall2 same_block (m_blocks sample_chain) (m_blocks sample_chain).
Proof.
  destruct sample_chain_valid as [Hv Em]. assert (latestBlock sample_chain = Ok sample_block) as Ht by (unfold latestBlock; rewrite Em; reflexivity). split; [exact Ht|].
  apply (tip_binds_history sample_chain sample_chain sample_block sample_block Hv Hv); [|apply (StateTreeProperties.collision_free_sub _ (chainInputs sample_chain))|exact Ht|exact Ht|reflexivity].
  - intros front Hf. rewrite Em in Hf. assert (front = sample_genesis) as -> by (cbn [head] in Hf; destruct Hf; congruence). vm_compute. split; reflexivity.
  - intros x Hx. apply elem_of_app in Hx as [Hx|Hx]; exact Hx.
  - exact sample_chain_texts.
Defined.

Lemma snapshot_chain_hides_blocks_witness : blockByHeight 7 (run_all [OpReset 7 "tip" ""] empty_chain) ≠ Some (dummy 7 "tip" "").
Proof. apply (proj1 (snapshot_chain_hides_blocks 7 "tip" "" [] ltac:(lia)) (dummy 7 "tip" "")). left. Defined.
End BlockProperties.
