(* ===== verification/Finality.v ===== *)
(** * consensus: finalized blocks, fork choice and block time

    Models src/src/consensus/BlockFinalizer.cpp (the finalized record of a block, the
    registry of finalized heights and [BlockFinalizer::finalizeBlock], which appends to
    the chain and to the registry), src/src/consensus/ForkChoice.cpp and
    src/src/consensus/BftTime.cpp.  A call that may throw is a [result]; [finalizeBlock]
    is a computation on the pair of the chain and the registry, so that a failure between
    the two updates would be visible. *)

From S2P Require Import Prelude Utils CoinLots CoinLotTransfer Crypto LedgerState ValidatorRegistry Quorum Evidence Encoding Merkle Schedule Transactions StateTrees Blocks.

(** ** The finalized record of a block *)

Module Finalized.
Record t := mk { blockIndex : Z; blockHash : string; previousHash : string; round : Z; finalizedAt : Z; quorumCertificate : QuorumCertificate }.

Definition matchesBlock (r : t) (b : Block.t) : bool :=
  (blockIndex r =? Block.index b) && String.eqb (blockHash r) (Block.hash b) && String.eqb (previousHash r) (Block.previousHash b) &&
  forallb (λ v, Block.timestamp b <=? Vote.createdAt v) (Certificate.votes (quorumCertificate r)).

Section record.
Context `{Sha256}.

Definition isStructurallyValid (r : t) : result bool :=
  if (blockIndex r =? 0) || (round r =? 0) || (finalizedAt r <=? 0) then Ok false
  else if negb (SafeScalar.isSafeScalar (blockHash r)) || negb (SafeScalar.isSafeScalar (previousHash r)) then Ok false
  else
    structure ← Certificate.isStructurallyValid (quorumCertificate r);
    if negb structure then Ok false
    else if negb (Certificate.blockIndex (quorumCertificate r) =? blockIndex r) ||
            negb (String.eqb (Certificate.blockHash (quorumCertificate r)) (blockHash r)) ||
            negb (String.eqb (Certificate.previousHash (quorumCertificate r)) (previousHash r)) ||
            negb (Certificate.round (quorumCertificate r) =? round r) then Ok false
    else Ok true.

Definition verify (r : t) (registry : ValidatorRegistry) (policy : CryptoPolicy) (provider : SignatureProvider) : result bool :=
  valid ← isStructurallyValid r;
  if negb valid then Ok false else Certificate.verify (quorumCertificate r) registry policy provider.

Definition serialize (r : t) : string :=
  "FinalizedBlockRecord{blockIndex=" +:+ to_string (blockIndex r) +:+ ";blockHash=" +:+ blockHash r +:+ ";previousHash=" +:+ previousHash r +:+
  ";round=" +:+ to_string (round r) +:+ ";finalizedAt=" +:+ to_string (finalizedAt r) +:+
  ";quorumCertificate=" +:+ Certificate.serialize (quorumCertificate r) +:+ "}".
End record.
End Finalized.

(** ** The registry of finalized heights *)

Inductive BlockFinalizationRegistryStatus := REGISTERED | DUPLICATE | CONFLICTING_FINALIZATION | INVALID_RECORD | INVALID_REGISTRY.

Module FinalizationRegistry.
Abbreviation t := (gmap Z Finalized.t).

(** [BlockFinalizationRegistryResult] *)
Inductive Result_ :=
| Registered (r : Finalized.t)
| Duplicate (r : Finalized.t)
| Rejected (status : BlockFinalizationRegistryStatus) (reason : string).

Section registry.
Context `{Sha256}.

Definition canRegister (registry : t) (r : Finalized.t) : result bool :=
  valid ← Finalized.isStructurallyValid r;
  if negb valid then Ok false
  else
    match registry !! Finalized.blockIndex r with
    | None => Ok true
    | Some existing => Ok (String.eqb (Finalized.blockHash existing) (Finalized.blockHash r))
    end.

(** The loop of [isValid]. *)
Fixpoint recordsValid (l : list (Z * Finalized.t)) : result bool :=
  match l with
  | [] => Ok true
  | (height, r) :: l =>
      if (height =? 0) || negb (Finalized.blockIndex r =? height) then Ok false
      else
        valid ← Finalized.isStructurallyValid r;
        if negb valid then Ok false else recordsValid l
  end.
Definition isValid (registry : t) : result bool := recordsValid (entries registry).

Definition registerFinalizedBlock (r : Finalized.t) : M t Result_ :=
  valid ← lift (Finalized.isStructurallyValid r);
  if negb valid then mret (Rejected INVALID_RECORD "Finalized block record is structurally invalid.")
  else
    found ← gets (λ registry, registry !! Finalized.blockIndex r);
    match found with
    | Some existing =>
        existingValid ← lift (Finalized.isStructurallyValid existing);
        if negb existingValid then mret (Rejected INVALID_REGISTRY "Existing finalized block record is invalid.")
        else if String.eqb (Finalized.blockHash existing) (Finalized.blockHash r) then mret (Duplicate existing)
        else mret (Rejected CONFLICTING_FINALIZATION "A different block hash is already finalized at this height.")
    | None =>
        modify (insert (Finalized.blockIndex r) r);;
        registryValid ← getsR isValid;
        if negb registryValid then
          modify (delete (Finalized.blockIndex r));;
          mret (Rejected INVALID_REGISTRY "Finalization registry failed post-registration audit.")
        else mret (Registered r)
    end.

Definition hasFinalizedHeight (registry : t) (height : Z) : bool := bool_decide (is_Some (registry !! height)).

Definition isFinalizedBlock (registry : t) (height : Z) (hash : string) : bool :=
  match registry !! height with None => false | Some r => String.eqb (Finalized.blockHash r) hash end.

Definition recordForHeight (registry : t) (height : Z) : option Finalized.t := registry !! height.

(** [m_recordsByHeight.rbegin()->first] *)
Definition highestFinalizedHeight (registry : t) : Z := default 0 (last (entries registry).*1).
End registry.
End FinalizationRegistry.

(** ** Finalizing a block *)

Inductive BlockFinalizationStatus :=
| FINALIZED | DUPLICATE_FINALIZATION | INVALID_BLOCKCHAIN | INVALID_BLOCK | INVALID_CERTIFICATE | CERTIFICATE_BLOCK_MISMATCH
| INVALID_FINALIZATION_REGISTRY | ALREADY_FINALIZED_CONFLICT | APPEND_REJECTED | REGISTRATION_FAILED.

Module Finalizer.
(** [BlockFinalizationResult] *)
Inductive Result_ :=
| Done (r : Finalized.t)
| AlreadyDone (r : Finalized.t)
| Refused (status : BlockFinalizationStatus) (reason : string).

Abbreviation state := (Blockchain.t * FinalizationRegistry.t)%type.

(** A method called on the chain or on the registry. *)
Definition on_chain {A} (m : M Blockchain.t A) : M state A := λ s, let '(r, c) := m s.1 in (r, (c, s.2)).
Definition on_registry {A} (m : M FinalizationRegistry.t A) : M state A := λ s, let '(r, g) := m s.2 in (r, (s.1, g)).

Section finalizer.
Context `{Sha256}.

Definition certificateMatchesBlock (b : Block.t) (c : QuorumCertificate) : bool :=
  (Certificate.blockIndex c =? Block.index b) && String.eqb (Certificate.blockHash c) (Block.hash b) &&
  String.eqb (Certificate.previousHash c) (Block.previousHash b).

(** The checks before the two updates: a refusal or the record to register. *)
Definition check (b : Block.t) (certificate : QuorumCertificate) (registry : ValidatorRegistry) (policy : CryptoPolicy) (provider : SignatureProvider)
    (finalizedAt : Z) (s : state) : result (Result_ + Finalized.t) :=
  if bool_decide (Blockchain.m_blocks s.1 = []) || negb (Blockchain.isValid false s.1) then
    Ok (inl (Refused INVALID_BLOCKCHAIN "Blockchain is empty or invalid."))
  else
    registryValid ← FinalizationRegistry.isValid s.2;
    if negb registryValid then Ok (inl (Refused INVALID_FINALIZATION_REGISTRY "Block finalization registry is invalid."))
    else if negb (Block.isValid false b) || Block.isGenesisBlock b then
      Ok (inl (Refused INVALID_BLOCK "Only valid non-genesis blocks can be finalized."))
    else if finalizedAt <=? 0 then Ok (inl (Refused INVALID_BLOCK "Finalization timestamp must be positive."))
    else if negb (Blockchain.canAppendBlock b s.1) then
      Ok (inl (Refused APPEND_REJECTED "Block cannot be appended to current blockchain tip."))
    else
      verified ← Certificate.verify certificate registry policy provider;
      if negb verified then Ok (inl (Refused INVALID_CERTIFICATE "Quorum certificate failed verification."))
      else if negb (certificateMatchesBlock b certificate) then
        Ok (inl (Refused CERTIFICATE_BLOCK_MISMATCH "Quorum certificate does not match block."))
      else
        let record := Finalized.mk (Block.index b) (Block.hash b) (Block.previousHash b) (Certificate.round certificate) finalizedAt certificate in
        if negb (Finalized.matchesBlock record b) then
          Ok (inl (Refused INVALID_CERTIFICATE "PRECOMMIT vote time is earlier than the certified block time."))
        else
          recordVerified ← Finalized.verify record registry policy provider;
          if negb recordVerified then Ok (inl (Refused INVALID_CERTIFICATE "Finalized block record failed verification."))
          else
            free ← FinalizationRegistry.canRegister s.2 record;
            if negb free then Ok (inl (Refused ALREADY_FINALIZED_CONFLICT "A conflicting block is already finalized at this height."))
            else Ok (inr record).

Definition finalizeBlock (b : Block.t) (certificate : QuorumCertificate) (registry : ValidatorRegistry) (policy : CryptoPolicy)
    (provider : SignatureProvider) (finalizedAt : Z) : M state Result_ :=
  checked ← getsR (check b certificate registry policy provider finalizedAt);
  match checked with
  | inl refusal => mret refusal
  | inr record =>
      on_chain (Blockchain.addBlock b);;
      registration ← on_registry (FinalizationRegistry.registerFinalizedBlock record);
      mret (match registration with
            | FinalizationRegistry.Duplicate r => AlreadyDone r
            | FinalizationRegistry.Registered r => Done r
            | FinalizationRegistry.Rejected _ reason => Refused REGISTRATION_FAILED reason
            end)
  end.
End finalizer.
End Finalizer.

(** ** Fork choice *)

Inductive ForkChoiceRejectReason :=
| NONE | INVALID_LOCAL_CHAIN | INVALID_CANDIDATE_CHAIN | INVALID_LOCAL_FINALIZATION_REGISTRY | INVALID_CANDIDATE_FINALIZATION_REGISTRY
| CANDIDATE_CONFLICTS_WITH_LOCAL_FINALITY | CANDIDATE_BEHIND_LOCAL_FINALITY | CANDIDATE_FINALITY_CONFLICT | CANDIDATE_NOT_BETTER.

Module ForkChoice.
(** [FinalizedCheckpoint] *)
Record Checkpoint := mkCheckpoint { blockIndex : Z; blockHash : string; previousHash : string; round : Z; finalizedAt : Z }.

Definition checkpointFromRecord (r : Finalized.t) : Checkpoint :=
  mkCheckpoint (Finalized.blockIndex r) (Finalized.blockHash r) (Finalized.previousHash r) (Finalized.round r) (Finalized.finalizedAt r).

Definition checkpointIsValid (c : Checkpoint) : bool :=
  (0 <? blockIndex c) && (0 <? round c) && (0 <? finalizedAt c) && SafeScalar.isSafeScalar (blockHash c) && SafeScalar.isSafeScalar (previousHash c).

(** [ChainForkSummary]; the checkpoint is absent when [m_hasFinalizedCheckpoint] is false. *)
Record Summary := mkSummary { chainSize : Z; latestBlockIndex : Z; latestBlockHash : string; checkpoint : option Checkpoint }.
Definition noSummary : Summary := mkSummary 0 0 "" None.

Definition summaryIsValid (s : Summary) : bool :=
  if (chainSize s =? 0) || empty_string (latestBlockHash s) || negb (wrap64 (latestBlockIndex s + 1) =? chainSize s) then false
  else match checkpoint s with None => true | Some c => checkpointIsValid c && (blockIndex c <=? latestBlockIndex s) end.

(** [ForkChoiceResult] *)
Inductive Choice := KeepLocal (detail : string) | AdoptCandidate (detail : string) | EqualChains (detail : string)
  | RejectCandidate (reason : ForkChoiceRejectReason) (detail : string).

Definition forkChoiceDecisionToString (c : Choice) : string :=
  match c with KeepLocal _ => "KEEP_LOCAL" | AdoptCandidate _ => "ADOPT_CANDIDATE" | EqualChains _ => "EQUAL_CHAINS" | RejectCandidate _ _ => "REJECT_CANDIDATE" end.

Definition forkChoiceRejectReasonToString (r : ForkChoiceRejectReason) : string :=
  match r with
  | NONE => "NONE"
  | INVALID_LOCAL_CHAIN => "INVALID_LOCAL_CHAIN"
  | INVALID_CANDIDATE_CHAIN => "INVALID_CANDIDATE_CHAIN"
  | INVALID_LOCAL_FINALIZATION_REGISTRY => "INVALID_LOCAL_FINALIZATION_REGISTRY"
  | INVALID_CANDIDATE_FINALIZATION_REGISTRY => "INVALID_CANDIDATE_FINALIZATION_REGISTRY"
  | CANDIDATE_CONFLICTS_WITH_LOCAL_FINALITY => "CANDIDATE_CONFLICTS_WITH_LOCAL_FINALITY"
  | CANDIDATE_BEHIND_LOCAL_FINALITY => "CANDIDATE_BEHIND_LOCAL_FINALITY"
  | CANDIDATE_FINALITY_CONFLICT => "CANDIDATE_FINALITY_CONFLICT"
  | CANDIDATE_NOT_BETTER => "CANDIDATE_NOT_BETTER"
  end.

(** [m_rejectReason] and [m_detail] as the four factories set them. *)
Definition rejectReason (c : Choice) : ForkChoiceRejectReason :=
  match c with KeepLocal _ => CANDIDATE_NOT_BETTER | AdoptCandidate _ | EqualChains _ => NONE | RejectCandidate r _ => r end.
Definition detail (c : Choice) : string := match c with KeepLocal d | AdoptCandidate d | EqualChains d | RejectCandidate _ d => d end.

Definition serializeChoice (c : Choice) : string :=
  "ForkChoiceResult{decision=" +:+ forkChoiceDecisionToString c +:+ ";rejectReason=" +:+ forkChoiceRejectReasonToString (rejectReason c) +:+
  ";detail=" +:+ detail c +:+ "}".

Definition serializeCheckpoint (c : Checkpoint) : string :=
  "FinalizedCheckpoint{blockIndex=" +:+ to_string (blockIndex c) +:+ ";blockHash=" +:+ blockHash c +:+ ";previousHash=" +:+ previousHash c +:+
  ";round=" +:+ to_string (round c) +:+ ";finalizedAt=" +:+ to_string (finalizedAt c) +:+ "}".

Definition serializeSummary (s : Summary) : string :=
  "ChainForkSummary{chainSize=" +:+ to_string (chainSize s) +:+ ";latestBlockIndex=" +:+ to_string (latestBlockIndex s) +:+
  ";latestBlockHash=" +:+ latestBlockHash s +:+ ";hasFinalizedCheckpoint=" +:+ (match checkpoint s with Some _ => "true" | None => "false" end) +:+
  ";finalizedCheckpoint=" +:+ (match checkpoint s with Some c => serializeCheckpoint c | None => "NONE" end) +:+ "}".

Definition shouldAdoptCandidate (c : Choice) : bool := match c with AdoptCandidate _ => true | _ => false end.

Section choice.
Context `{Sha256}.

Definition usable (c : Blockchain.t) : bool := negb (bool_decide (Blockchain.m_blocks c = [])) && Blockchain.isValid false c.

Definition checkpointMatchesChain (c : Blockchain.t) (cp : Checkpoint) : bool :=
  if negb (checkpointIsValid cp) || negb (usable c) then false
  else if Z.of_nat (length (Blockchain.m_blocks c)) <=? blockIndex cp then false
  else
    match Blockchain.m_blocks c !! Z.to_nat (blockIndex cp) with
    | None => false
    | Some b => String.eqb (Block.hash b) (blockHash cp) && String.eqb (Block.previousHash b) (previousHash cp)
    end.

Definition summaryOf (c : Blockchain.t) (cp : option Checkpoint) : Summary :=
  match last (Blockchain.m_blocks c) with
  | None => noSummary
  | Some latest => mkSummary (Z.of_nat (length (Blockchain.m_blocks c))) (Block.index latest) (Block.hash latest) cp
  end.

Definition summarizeChain (c : Blockchain.t) (registry : FinalizationRegistry.t) : result Summary :=
  if negb (usable c) then Ok noSummary
  else
    registryValid ← FinalizationRegistry.isValid registry;
    if negb registryValid then Ok noSummary
    else
      let highest := FinalizationRegistry.highestFinalizedHeight registry in
      if highest =? 0 then Ok (summaryOf c None)
      else
        match FinalizationRegistry.recordForHeight registry highest with
        | None => Ok noSummary
        | Some r =>
            valid ← Finalized.isStructurallyValid r;
            if negb valid then Ok noSummary
            else if negb (checkpointMatchesChain c (checkpointFromRecord r)) then Ok noSummary
            else Ok (summaryOf c (Some (checkpointFromRecord r)))
        end.

Definition candidateContainsLocalFinality (candidate : Blockchain.t) (local : Summary) : bool :=
  if negb (summaryIsValid local) then false
  else match checkpoint local with None => true | Some cp => checkpointMatchesChain candidate cp end.

(** The comparison of two valid summaries. *)
Definition compare (local candidate : Summary) : Choice :=
  let conflict :=
    match checkpoint local, checkpoint candidate with
    | Some l, Some c =>
        if blockIndex c <? blockIndex l then
          Some (RejectCandidate CANDIDATE_BEHIND_LOCAL_FINALITY "Candidate finalized checkpoint is behind local finality.")
        else if (blockIndex c =? blockIndex l) && negb (String.eqb (blockHash c) (blockHash l)) then
          Some (RejectCandidate CANDIDATE_FINALITY_CONFLICT "Candidate finality conflicts with local finality at same height.")
        else None
    | _, _ => None
    end in
  let higher :=
    match checkpoint candidate, checkpoint local with
    | Some c, Some l => blockIndex l <? blockIndex c
    | Some _, None => true
    | None, _ => false
    end in
  match conflict with
  | Some rejection => rejection
  | None =>
      if higher then AdoptCandidate "Candidate has higher finalized checkpoint."
      else if chainSize local <? chainSize candidate then AdoptCandidate "Candidate chain is longer and does not violate finality."
      else if (chainSize candidate =? chainSize local) && String.eqb (latestBlockHash candidate) (latestBlockHash local) then
        EqualChains "Candidate chain is identical at the latest block."
      else KeepLocal "Candidate is not better than local chain."
  end.

Definition chooseBestChain (local : Blockchain.t) (localRegistry : FinalizationRegistry.t) (candidate : Blockchain.t)
    (candidateRegistry : FinalizationRegistry.t) : result Choice :=
  if negb (usable local) then Ok (RejectCandidate INVALID_LOCAL_CHAIN "Local chain is empty or invalid.")
  else
    localValid ← FinalizationRegistry.isValid localRegistry;
    if negb localValid then Ok (RejectCandidate INVALID_LOCAL_FINALIZATION_REGISTRY "Local finalization registry is invalid.")
    else if negb (usable candidate) then Ok (RejectCandidate INVALID_CANDIDATE_CHAIN "Candidate chain is empty or invalid.")
    else
      candidateValid ← FinalizationRegistry.isValid candidateRegistry;
      if negb candidateValid then
        Ok (RejectCandidate INVALID_CANDIDATE_FINALIZATION_REGISTRY "Candidate finalization registry is invalid.")
      else
        localSummary ← summarizeChain local localRegistry;
        candidateSummary ← summarizeChain candidate candidateRegistry;
        if negb (summaryIsValid localSummary) then Ok (RejectCandidate INVALID_LOCAL_CHAIN "Local chain summary is invalid.")
        else if negb (summaryIsValid candidateSummary) then
          Ok (RejectCandidate INVALID_CANDIDATE_CHAIN "Candidate chain summary is invalid.")
        else if negb (candidateContainsLocalFinality candidate localSummary) then
          Ok (RejectCandidate CANDIDATE_CONFLICTS_WITH_LOCAL_FINALITY "Candidate chain does not contain local finalized checkpoint.")
        else Ok (compare localSummary candidateSummary).
End choice.
End ForkChoice.

(** ** The time of the next block *)

Module BftTime.
Section time.
Context `{Sha256}.

(** The loop over the votes: the time and weight of each and their sum; [None] is
    [return std::nullopt]. *)
Fixpoint voteTimes (registry : ValidatorRegistry) (parentTime signedWeight : Z) (l : list ValidatorVoteRecord) : option (Z * list (Z * Z)) :=
  match l with
  | [] => Some (signedWeight, [])
  | v :: l =>
      if Vote.createdAt v <? parentTime then None
      else
        let weight := Validators.consensusWeightFor registry (Vote.validatorAddress v) in
        if (weight =? 0) || (u64_max - weight <? signedWeight) then None
        else
          match voteTimes registry parentTime (signedWeight + weight) l with
          | None => None
          | Some (total, times) => Some (total, (Vote.createdAt v, weight) :: times)
          end
  end.

(** The order of [std::pair]. *)
Definition pair_le (a b : Z * Z) : Prop := a.1 < b.1 ∨ a.1 = b.1 ∧ a.2 ≤ b.2.
#[global] Instance pair_le_dec : RelDecision pair_le.
Proof. unfold pair_le. solve_decision. Defined.

Fixpoint medianFrom (threshold cumulative : Z) (l : list (Z * Z)) : option Z :=
  match l with
  | [] => None
  | (time, weight) :: l =>
      let cumulative := wrap64 (cumulative + weight) in
      if threshold <=? cumulative then Some time else medianFrom threshold cumulative l
  end.

Definition expectedChildTime (parent : Block.t) (targetBlockSeconds : Z) (parentCertificate : option QuorumCertificate)
    (history : option SetHistory.t) (policy : CryptoPolicy) (provider : SignatureProvider) : result (option Z) :=
  if negb (Block.isValid false parent) || (Block.timestamp parent <=? 0) || Block.isSnapshot parent || (Block.index parent =? u64_max) ||
     (targetBlockSeconds =? 0) || (Cadence.kMaxTargetBlockSeconds <? targetBlockSeconds) ||
     (i64_max - Block.timestamp parent <? targetBlockSeconds) then Ok None
  else
    let minimum := Block.timestamp parent + targetBlockSeconds in
    if Block.isGenesisBlock parent then Ok (match parentCertificate with None => Some minimum | Some _ => None end)
    else
      match parentCertificate, history with
      | Some certificate, Some history =>
          if negb (SetHistory.hasSet history (Block.index parent)) || negb (Certificate.blockIndex certificate =? Block.index parent) ||
             negb (String.eqb (Certificate.blockHash certificate) (Block.hash parent)) ||
             negb (String.eqb (Certificate.previousHash certificate) (Block.previousHash parent)) then Ok None
          else
            validatorSet ← SetHistory.setAt history (Block.index parent);
            verified ← Certificate.verify certificate validatorSet policy provider;
            if negb verified then Ok None
            else
              match voteTimes validatorSet (Block.timestamp parent) 0 (Certificate.votes certificate) with
              | None => Ok None
              | Some (signedWeight, times) =>
                  if negb (signedWeight =? Certificate.signedVotingWeight certificate) || (signedWeight =? 0) then Ok None
                  else
                    let threshold := signedWeight / 2 + signedWeight mod 2 in
                    Ok (Z.max minimum <$> medianFrom threshold 0 (merge_sort pair_le times))
              end
      | _, _ => Ok None
      end.
End time.
End BftTime.

(** ** Facts about the median *)

Module TimeFacts.
Import BftTime.

#[global] Instance pair_le_trans : Transitive pair_le.
Proof. intros a b c. unfold pair_le. lia. Qed.
#[global] Instance pair_le_total : Total pair_le.
Proof. intros a b. unfold pair_le. lia. Qed.

(** The weight of the votes whose time satisfies [P]. *)
Definition weight_when (P : Z → Prop) `{∀ t, Decision (P t)} (l : list (Z * Z)) : Z := sum_by (λ e, if decide (P e.1) then e.2 else 0) l.

Lemma weight_when_perm (P : Z → Prop) `{∀ t, Decision (P t)} l l' : l ≡ₚ l' → weight_when P l = weight_when P l'.
Proof. intros HP. unfold weight_when. by rewrite HP. Qed.

Lemma weight_when_app (P : Z → Prop) `{∀ t, Decision (P t)} l l' : weight_when P (l ++ l') = weight_when P l + weight_when P l'.
Proof. apply sum_by_app. Qed.

Definition positive_weights (l : list (Z * Z)) : Prop := Forall (λ e, 0 ≤ e.2) l.

Lemma weight_when_le (P : Z → Prop) `{∀ t, Decision (P t)} l : positive_weights l → 0 ≤ weight_when P l ≤ sum_by snd l.
Proof. unfold weight_when. induction 1 as [|e l He _ IH]; cbn; [lia|]. case_decide; lia. Qed.

Lemma weight_when_none (P : Z → Prop) `{∀ t, Decision (P t)} l : Forall (λ e, ¬ P e.1) l → weight_when P l = 0.
Proof. unfold weight_when. induction 1 as [|e l He _ IH]; cbn; [done|]. rewrite decide_False by done. lia. Qed.

Lemma median_split threshold l : ∀ cum m, 0 ≤ cum → positive_weights l → cum + sum_by snd l ≤ u64_max → medianFrom threshold cum l = Some m →
  cum < threshold → ∃ l1 w l2, l = l1 ++ (m, w) :: l2 ∧ cum + sum_by snd l1 < threshold ∧ threshold ≤ cum + sum_by snd l1 + w.
Proof.
  induction l as [|[t w] l IH]; intros cum m Hc Hp Hs E Ht; [done|]. cbn [medianFrom] in E. apply Forall_cons in Hp as [Hw Hp]. cbn [sum_by snd] in *.
  pose proof (weight_when_le (λ _, True) l Hp) as Hn. assert (wrap64 (cum + w) = cum + w) as Ew by (apply Z.mod_small; unfold u64_max in *; lia). rewrite Ew in E.
  destruct (threshold <=? cum + w) eqn:El.
  - injection E as <-. exists [], w, l. cbn. split_and!; [done|lia|lia].
  - destruct (IH (cum + w) m ltac:(lia) Hp ltac:(lia) E ltac:(lia)) as (l1 & w' & l2 & -> & H1 & H2). exists ((t, w) :: l1), w', l2.
    cbn [sum_by snd]. split_and!; [done|lia|lia].
Qed.

Lemma median_exists threshold l : ∀ cum, 0 ≤ cum → positive_weights l → cum + sum_by snd l ≤ u64_max → cum < threshold → threshold ≤ cum + sum_by snd l → is_Some (medianFrom threshold cum l).
Proof.
  induction l as [|[t w] l IH]; intros cum Hc Hp Hs Ht Hle; [cbn in Hle; lia|]. cbn [medianFrom]. apply Forall_cons in Hp as [Hw Hp]. cbn [sum_by snd] in *.
  pose proof (weight_when_le (λ _, True) l Hp) as Hn. assert (wrap64 (cum + w) = cum + w) as -> by (apply Z.mod_small; unfold u64_max in *; lia).
  destruct (threshold <=? cum + w) eqn:El; [by eexists|]. apply IH; [lia|done|lia|lia|lia].
Qed.

(** The lower weighted median lies where more than half of the weight is. *)
Lemma median_bounds l m lo hi : positive_weights l → sum_by snd l ≤ u64_max → 0 < sum_by snd l →
  medianFrom (sum_by snd l / 2 + sum_by snd l mod 2) 0 (merge_sort pair_le l) = Some m →
  sum_by snd l < 2 * weight_when (λ t, lo ≤ t ≤ hi) l → lo ≤ m ≤ hi.
Proof.
  intros Hp Hu Hpos E Hw. pose proof (merge_sort_Permutation pair_le l) as HP. set (s := merge_sort pair_le l) in *.
  assert (sum_by snd s = sum_by snd l) as Hs by (by rewrite HP). assert (positive_weights s) as Hps by (unfold positive_weights; by rewrite HP).
  rewrite <- (weight_when_perm _ s l HP) in Hw. set (S := sum_by snd l) in *. pose proof (Z.div_mod S 2 ltac:(lia)) as Hdm. pose proof (Z.mod_pos_bound S 2 ltac:(lia)).
  destruct (median_split (S / 2 + S mod 2) s 0 m ltac:(lia) Hps ltac:(lia) E ltac:(lia)) as (l1 & w & l2 & Es & H1 & H2).
  pose proof (StronglySorted_merge_sort pair_le l) as Hsort. fold s in Hsort. rewrite Es in Hsort, Hs, Hw, Hps.
  rewrite sum_by_app in Hs. cbn [sum_by snd] in Hs. rewrite weight_when_app in Hw. change (weight_when ?P ((m, w) :: l2)) with ((if decide (P m) then w else 0) + weight_when P l2) in Hw.
  apply Forall_app in Hps as [Hp1 Hp2]. apply Forall_cons in Hp2 as [Hw0 Hp2]. cbn [snd] in Hw0.
  pose proof (weight_when_le (λ t, lo ≤ t ≤ hi) l1 Hp1). pose proof (weight_when_le (λ t, lo ≤ t ≤ hi) l2 Hp2).
  destruct (decide (lo ≤ m ≤ hi)) as [?|Hn]; [done|]. exfalso. cbv beta in Hw. destruct (decide (m < lo)) as [Hlt|Hge].
  - rewrite (weight_when_none (λ t, lo ≤ t ≤ hi) l1) in Hw; [lia|]. apply Forall_forall. intros e He.
    rewrite StronglySorted_app in Hsort. destruct Hsort as [Hbefore _]. pose proof (Hbefore e (m, w) He ltac:(left)) as Hle. unfold pair_le in Hle. cbn [fst snd] in Hle. lia.
  - rewrite (weight_when_none (λ t, lo ≤ t ≤ hi) l2) in Hw; [lia|]. apply Forall_forall. intros e He.
    rewrite StronglySorted_app in Hsort. destruct Hsort as (_ & _ & Hsort). inversion Hsort as [|? ? _ Hall]; subst. rewrite Forall_forall in Hall. pose proof (Hall e He) as Hle. unfold pair_le in Hle. cbn [fst snd] in Hle. lia.
Qed.
(** The votes of a verified certificate, with their times and weights. *)
Definition timed (r : ValidatorRegistry) (l : list ValidatorVoteRecord) : list (Z * Z) :=
  (λ v, (Vote.createdAt v, Validators.consensusWeightFor r (Vote.validatorAddress v))) <$> l.

Lemma timed_sum r l : sum_by snd (timed r l) = sum_by (Validators.consensusWeightFor r) (QuorumFacts.voters l).
Proof. induction l as [|v l IH]; cbn; [done|]. unfold timed, QuorumFacts.voters in IH. by rewrite IH. Qed.

Lemma timed_positive r l : positive_weights (timed r l).
Proof. apply Forall_fmap, Forall_forall. intros v _. apply QuorumFacts.consensusWeightFor_nonneg. Qed.

Lemma voteTimes_spec r parentTime l : ∀ s, 0 ≤ s →
  (∀ v, v ∈ l → parentTime ≤ Vote.createdAt v ∧ 0 < Validators.consensusWeightFor r (Vote.validatorAddress v)) →
  s + sum_by snd (timed r l) ≤ u64_max → voteTimes r parentTime s l = Some (s + sum_by snd (timed r l), timed r l).
Proof.
  induction l as [|v l IH]; intros s Hs Hv Hu; cbn [voteTimes timed fmap list_fmap sum_by snd] in *; [by rewrite Z.add_0_r|].
  destruct (Hv v ltac:(left)) as [Ht Hw]. pose proof (weight_when_le (λ _, True) _ (timed_positive r l)) as Hn. unfold timed in Hn.
  replace (Vote.createdAt v <? parentTime) with false by lia. replace (_ =? 0) with false by lia. cbv zeta. cbn [orb].
  replace (u64_max - _ <? s) with false by lia. rewrite IH; [|lia| |unfold timed; lia].
  - unfold timed. do 2 f_equal. lia.
  - intros v' Hv'. apply Hv. by right.
Qed.
End TimeFacts.

(** ** Facts about finalization *)

Module FinalityFacts.
Import Blockchain ChainFacts Finalizer.

Section finality.
Context `{Hsha : Sha256Spec}.

Lemma recordsValid_true l : FinalizationRegistry.recordsValid l = Ok true ↔
  Forall (λ e, e.1 ≠ 0 ∧ Finalized.blockIndex e.2 = e.1 ∧ Finalized.isStructurallyValid e.2 = Ok true) l.
Proof.
  induction l as [|[h r] l IH]; cbn [FinalizationRegistry.recordsValid]; [split; [constructor|done]|]. rewrite Forall_cons, <- IH. cbn [fst snd]. split.
  - destruct (h =? 0) eqn:Eh; [done|]. destruct (Finalized.blockIndex r =? h) eqn:Ei; [|done]. cbn [orb negb].
    destruct (Finalized.isStructurallyValid r) as [[]|]; [|done..]. intros E. split_and!; [lia|lia|done|exact E].
  - intros [(Hh & Hi & Hs) Hl]. replace (h =? 0) with false by lia. replace (Finalized.blockIndex r =? h) with true by lia. cbn [orb negb]. by rewrite Hs.
Qed.

Lemma registry_valid (g : FinalizationRegistry.t) : FinalizationRegistry.isValid g = Ok true ↔
  ∀ h r, g !! h = Some r → h ≠ 0 ∧ Finalized.blockIndex r = h ∧ Finalized.isStructurallyValid r = Ok true.
Proof.
  unfold FinalizationRegistry.isValid. rewrite recordsValid_true, Forall_forall. split.
  - intros Hf h r Hg. apply elem_of_entries in Hg. exact (Hf _ Hg).
  - intros Hg [h r] He. apply elem_of_entries in He. exact (Hg h r He).
Qed.

(** The chain and the registry describe the same blocks. *)
Record consistent (s : state) : Prop := {
  genesis_first : ∃ front l, m_blocks s.1 = front :: l ∧ isValidGenesisBlock front = true ∧ linked false front l = true;
  registry_sound : ∀ h r, s.2 !! h = Some r → 1 ≤ h ∧ Finalized.isStructurallyValid r = Ok true ∧ Finalized.blockIndex r = h ∧
    ∃ b, m_blocks s.1 !! Z.to_nat h = Some b ∧ Finalized.blockHash r = Block.hash b ∧ Finalized.previousHash r = Block.previousHash b;
  registry_total : ∀ i b, m_blocks s.1 !! S i = Some b → is_Some (s.2 !! Z.of_nat (S i));
}.

Lemma genesis_index b : isValidGenesisBlock b = true → Block.index b = 0 ∧ Block.isSnapshot b = false.
Proof.
  unfold isValidGenesisBlock. destruct (Block.isValid true b); [|done]. destruct (Block.isGenesisBlock b); [|done]. cbn [negb]. destruct (Block.index b =? 0) eqn:E; [|done].
  destruct (String.eqb_spec (Block.previousHash b) "GENESIS") as [Ep|]; [|done]. intros _. split; [lia|]. unfold Block.isSnapshot. by rewrite Ep.
Qed.

Lemma structure_indices r : Finalized.isStructurallyValid r = Ok true → Finalized.blockIndex r ≠ 0.
Proof. unfold Finalized.isStructurallyValid. destruct (Finalized.blockIndex r =? 0) eqn:E; [done|]. lia. Qed.

(** What the checks of [finalizeBlock] establish. *)
Lemma check_inr b cert reg policy provider at_ s r : check b cert reg policy provider at_ s = Ok (inr r) →
  canAppendBlock b s.1 = true ∧ m_blocks s.1 ≠ [] ∧ FinalizationRegistry.isValid s.2 = Ok true ∧ Certificate.verify cert reg policy provider = Ok true ∧
  certificateMatchesBlock b cert = true ∧ Finalized.isStructurallyValid r = Ok true ∧ FinalizationRegistry.canRegister s.2 r = Ok true ∧
  r = Finalized.mk (Block.index b) (Block.hash b) (Block.previousHash b) (Certificate.round cert) at_ cert ∧ Finalized.matchesBlock r b = true.
Proof.
  unfold check. intros E. case_bool_decide as Hne; [done|]. destruct (Blockchain.isValid false s.1); [|done]. cbn [orb negb] in E.
  apply bind_Ok in E as ([] & Hg & E); [|done]. cbn [negb] in E. destruct (negb (Block.isValid false b) || Block.isGenesisBlock b); [done|]. destruct (at_ <=? 0); [done|].
  destruct (canAppendBlock b s.1) eqn:Hc; [|done]. cbn [negb] in E. apply bind_Ok in E as ([] & Hv & E); [|done]. cbn [negb] in E.
  destruct (certificateMatchesBlock b cert) eqn:Hm; [|done]. cbn [negb] in E. cbv zeta in E. destruct (Finalized.matchesBlock _ b) eqn:Hmb in E; [|done]. cbn [negb] in E.
  apply bind_Ok in E as ([] & Hrv & E); [|done]. cbn [negb] in E. apply bind_Ok in E as ([] & Hcr & E); [|done]. injection E as <-.
  unfold Finalized.verify in Hrv. apply bind_Ok in Hrv as ([] & Hs & Hrv); [done|discriminate Hrv].
Qed.

Lemma register_fresh r g : Finalized.isStructurallyValid r = Ok true → g !! Finalized.blockIndex r = None → FinalizationRegistry.isValid g = Ok true →
  FinalizationRegistry.registerFinalizedBlock r g = (Ok (FinalizationRegistry.Registered r), <[Finalized.blockIndex r := r]> g).
Proof.
  intros Hs Hn Hg. unfold FinalizationRegistry.registerFinalizedBlock, lift, gets, getsR, modify, mbind, M_bind, mret, M_ret. rewrite Hs. cbn [negb]. rewrite Hn.
  assert (FinalizationRegistry.isValid (<[Finalized.blockIndex r := r]> g) = Ok true) as ->; [|done].
  apply registry_valid. intros h r' [[<- <-]|[_ Hr']]%lookup_insert_Some; [split_and!; [by apply structure_indices|done|done]|]. rewrite registry_valid in Hg. by apply Hg.
Qed.

(** A refusal of the checks is a refusal. *)
Lemma check_inl b cert reg policy provider at_ s x : check b cert reg policy provider at_ s = Ok (inl x) → ∃ status reason, x = Refused status reason ∧ status ≠ REGISTRATION_FAILED.
Proof.
  unfold check. intros E. repeat match type of E with
  | (if ?c then _ else _) = _ => destruct c; [injection E as <-; eauto|]
  | mbind _ _ = _ => apply bind_Ok in E as (? & _ & E)
  | _ => progress cbv zeta in E
  end. discriminate E.
Qed.

Lemma finalize_commit b cert reg policy provider at_ s r : consistent s → check b cert reg policy provider at_ s = Ok (inr r) →
  addBlock b s.1 = (Ok tt, push b s.1) ∧ s.2 !! Finalized.blockIndex r = None ∧ Block.index b = Z.of_nat (length (m_blocks s.1)) ∧
  consistent (push b s.1, <[Block.index b := r]> s.2).
Proof.
  intros [(front & l & Eb & Hg & Hl) Hrs Hrt] Ek. destruct (check_inr _ _ _ _ _ _ _ _ Ek) as (Hca & Hne & _ & _ & _ & Hs & _ & Er & _).
  destruct (genesis_index front Hg) as [Ei0 _].
  unfold canAppendBlock in Hca. rewrite Eb, last_cons_default in Hca. pose proof (next_follows _ _ _ Hca) as ((Eidx & _) & _).
  assert (last (front :: l) = Some (default front (last l))) as Elast by apply last_cons_default. pose proof Elast as Elook. rewrite last_lookup in Elook. cbn [length pred] in Elook.
  pose proof (linked_index false front l (length l) _ Hl Elook) as Elen. assert (Block.index b = Z.of_nat (length (m_blocks s.1))) as Ein by (rewrite Eb; cbn [length]; lia).
  split; [|split; [|split]].
  - destruct (addBlock_cases b s.1) as [[_ Hbad]|(latest & _ & _ & ->)]; [|done]. exfalso. apply Hbad. unfold addBlock, gets, lift, modify, mbind, M_bind, canAppendBlock.
    rewrite bool_decide_false by done. rewrite Eb, Elast, Hca. done.
  - rewrite Er. cbn [Finalized.blockIndex]. destruct (s.2 !! Block.index b) as [r'|] eqn:E; [|done]. destruct (Hrs _ _ E) as (_ & _ & _ & b' & Hb' & _).
    apply lookup_lt_Some in Hb'. lia.
  - done.
  - split; cbn [fst snd push m_blocks].
    + exists front, (l ++ [b]). rewrite Eb. split_and!; [done|done|]. rewrite linked_snoc, Hl. exact Hca.
    + intros h r' [[<- <-]|[Hne' Hr']]%lookup_insert_Some.
      * split_and!; [lia|done|by rewrite Er|]. exists b. rewrite Er. cbn [Finalized.blockHash Finalized.previousHash]. split_and!; [|done|done].
        rewrite Ein, Nat2Z.id. by rewrite list_lookup_middle.
      * destruct (Hrs _ _ Hr') as (H1 & H2 & H3 & b' & Hb' & H4). split_and!; [done|done|done|]. exists b'. split; [by apply lookup_app_l_Some|done].
    + intros i b' Hb'. destruct (decide (Block.index b = Z.of_nat (S i))) as [->|Hn]; [by rewrite lookup_insert_eq|]. rewrite lookup_insert_ne by done. apply (Hrt i b').
      rewrite lookup_app_l in Hb'; [done|]. apply lookup_lt_Some in Hb' as Hlt. rewrite length_app in Hlt. cbn [length] in Hlt. lia.
Qed.

(** One call: all or nothing. *)
Lemma finalize_step b cert reg policy provider at_ s : consistent s →
  let '(res, s') := finalizeBlock b cert reg policy provider at_ s in
  consistent s' ∧
  (s' = s ∧ (∀ r, res ≠ Ok (Done r) ∧ res ≠ Ok (AlreadyDone r)) ∨
   ∃ r, res = Ok (Done r) ∧ s' = (push b s.1, <[Block.index b := r]> s.2) ∧ s.2 !! Block.index b = None ∧ Finalized.matchesBlock r b = true ∧
        Finalized.quorumCertificate r = cert ∧ Certificate.verify cert reg policy provider = Ok true ∧ certificateMatchesBlock b cert = true).
Proof.
  intros Hc. unfold finalizeBlock. unfold mbind at 1, M_bind at 1, getsR at 1. destruct (check b cert reg policy provider at_ s) as [[refusal|r]|e] eqn:Ek.
  - split; [done|]. left. split; [done|]. destruct (check_inl _ _ _ _ _ _ _ _ Ek) as (status & reason & -> & _). done.
  - destruct (check_inr _ _ _ _ _ _ _ _ Ek) as (_ & _ & Hg & Hv & Hm & Hs & _ & Er & Hmb). destruct (finalize_commit _ _ _ _ _ _ _ _ Hc Ek) as (Ea & Hn & _ & Hc').
    unfold on_chain, on_registry, mbind, M_bind, mret, M_ret. rewrite Ea. cbn [fst snd]. rewrite (register_fresh r s.2 Hs Hn Hg).
    assert (Finalized.blockIndex r = Block.index b) as Ei by (by rewrite Er). rewrite Ei in Hn |- *. split; [done|]. right. exists r. split_and!; try done. by rewrite Er.
  - split; [done|]. left. done.
Qed.
End finality.
End FinalityFacts.

(** ** Facts about fork choice *)

Module ForkFacts.
Import Blockchain ChainFacts ForkChoice.

Section fork.
Context `{Hsha : Sha256Spec}.

Lemma highest_spec (g : FinalizationRegistry.t) : FinalizationRegistry.highestFinalizedHeight g ≠ 0 →
  is_Some (g !! FinalizationRegistry.highestFinalizedHeight g) ∧ ∀ h r, g !! h = Some r → h ≤ FinalizationRegistry.highestFinalizedHeight g.
Proof.
  unfold FinalizationRegistry.highestFinalizedHeight. rewrite fmap_last. destruct (last (entries g)) as [[k v]|] eqn:E; [|done]. cbn. intros _.
  assert (last (filter (λ _, True) (entries g)) = Some (k, v)) as (Hk & _ & Hmax)%last_filter_entries; [|split; [by eexists|]; intros h r Hh; by apply (Hmax h r)].
  rewrite <- E. f_equal. clear E. induction (entries g) as [|e l IH]; [done|]. rewrite filter_cons_True by done. by f_equal.
Qed.

Lemma matches_block c cp : checkpointMatchesChain c cp = true →
  ∃ b, m_blocks c !! Z.to_nat (blockIndex cp) = Some b ∧ Block.hash b = blockHash cp ∧ Block.previousHash b = previousHash cp ∧ 0 < blockIndex cp.
Proof.
  unfold checkpointMatchesChain. destruct (checkpointIsValid cp) eqn:Hv; [|done]. destruct (usable c); [|done]. cbn [negb orb]. destruct (_ <=? _); [done|].
  destruct (m_blocks c !! _) as [b|]; [|done]. intros [E1%String.eqb_eq E2%String.eqb_eq]%andb_true_iff. exists b. split_and!; try done.
  unfold checkpointIsValid in Hv. lia.
Qed.

(** A valid summary of a chain with finality holds the highest finalized block. *)
Lemma summary_checkpoint c g s : summarizeChain c g = Ok s → summaryIsValid s = true → FinalizationRegistry.highestFinalizedHeight g ≠ 0 →
  ∃ r, g !! FinalizationRegistry.highestFinalizedHeight g = Some r ∧ checkpoint s = Some (checkpointFromRecord r) ∧ checkpointMatchesChain c (checkpointFromRecord r) = true.
Proof.
  intros E Hs Hh. assert (s ≠ noSummary) as Hn by (by intros ->). unfold summarizeChain in E. destruct (usable c) eqn:Hu; [|by injection E as <-]. cbn [negb] in E.
  apply bind_Ok in E as ([] & _ & E); [|by injection E as <-]. cbn [negb] in E. replace (_ =? 0) with false in E by lia. cbv zeta in E.
  unfold FinalizationRegistry.recordForHeight in E. destruct (g !! _) as [r|]; [|by injection E as <-]. apply bind_Ok in E as ([] & _ & E); [|by injection E as <-]. cbn [negb] in E.
  destruct (checkpointMatchesChain c _) eqn:Hm; [|by injection E as <-]. cbn [negb] in E. injection E as <-. exists r. split_and!; [done| |done].
  unfold summaryOf in *. by destruct (last (m_blocks c)).
Qed.

Lemma summary_parts c g s : summarizeChain c g = Ok s → summaryIsValid s = true →
  usable c = true ∧ FinalizationRegistry.isValid g = Ok true ∧ chainSize s = Z.of_nat (length (m_blocks c)) ∧
  (FinalizationRegistry.highestFinalizedHeight g = 0 → checkpoint s = None).
Proof.
  intros E Hs. assert (s ≠ noSummary) as Hn by (by intros ->). unfold summarizeChain in E. destruct (usable c) eqn:Hu; [|by injection E as <-]. cbn [negb] in E.
  apply bind_Ok in E as ([] & Hg & E); [|by injection E as <-]. cbn [negb] in E. cbv zeta in E.
  assert (∀ cp, summaryOf c cp ≠ noSummary → chainSize (summaryOf c cp) = Z.of_nat (length (m_blocks c)) ∧ checkpoint (summaryOf c cp) = cp) as Hsum.
  { intros cp. unfold summaryOf. by destruct (last (m_blocks c)). }
  destruct (FinalizationRegistry.highestFinalizedHeight g =? 0) eqn:Eh.
  - injection E as <-. destruct (Hsum None Hn). by split_and!.
  - unfold FinalizationRegistry.recordForHeight in E. destruct (g !! _) as [r|]; [|by injection E as <-]. apply bind_Ok in E as ([] & _ & E); [|by injection E as <-]. cbn [negb] in E.
    destruct (checkpointMatchesChain c _); [|by injection E as <-]. injection E as <-. destruct (Hsum _ Hn). split_and!; [done..|]. intros E0. by rewrite E0 in Eh.
Qed.

Lemma summary_no_finality c s : summarizeChain c ∅ = Ok s → summaryIsValid s = true → checkpoint s = None.
Proof. intros E Hs. destruct (summary_parts c ∅ s E Hs) as (_ & _ & _ & Hn). apply Hn. reflexivity. Qed.

(** What a decision to adopt rests on. *)
Lemma choose_adopt local lg candidate cg d : chooseBestChain local lg candidate cg = Ok (AdoptCandidate d) →
  usable local = true ∧ usable candidate = true ∧ FinalizationRegistry.isValid lg = Ok true ∧ ∃ ls, summarizeChain local lg = Ok ls ∧ summaryIsValid ls = true ∧
  candidateContainsLocalFinality candidate ls = true.
Proof.
  unfold chooseBestChain. intros E. destruct (usable local); [|done]. cbn [negb] in E. apply bind_Ok in E as ([] & Hl & E); [|done]. cbn [negb] in E.
  destruct (usable candidate); [|done]. cbn [negb] in E. apply bind_Ok in E as ([] & _ & E); [|done]. cbn [negb] in E. apply bind_Ok in E as (ls & Hls & E).
  apply bind_Ok in E as (cs & _ & E). destruct (summaryIsValid ls) eqn:Hv; [|done]. cbn [negb] in E. destruct (summaryIsValid cs); [|done]. cbn [negb] in E.
  destruct (candidateContainsLocalFinality candidate ls) eqn:Hc; [|done]. split_and!; [done..|]. by exists ls.
Qed.

Lemma usable_chain c : usable c = true → (∀ front, head (m_blocks c) = Some front → Block.isSnapshot front = false) →
  ∃ front l, m_blocks c = front :: l ∧ isValidGenesisBlock front = true ∧ linked false front l = true.
Proof.
  unfold usable, Blockchain.isValid. intros E Hf. destruct (m_blocks c) as [|front l]; [done|]. cbn [negb] in E. apply andb_true_iff in E as [_ E].
  rewrite (Hf front eq_refl) in E. destruct (isValidGenesisBlock front) eqn:Hg; [|done]. by exists front, l.
Qed.
End fork.
End ForkFacts.

(** ** Properties *)

Module FinalityProperties.
Import Blockchain ChainFacts Finalizer FinalityFacts.

Section properties.
Context `{Hsha : Sha256Spec}.

(** A call of [finalizeBlock] and its effect on the chain and the registry. *)
Record call := { c_block : Block.t; c_certificate : QuorumCertificate; c_validators : ValidatorRegistry; c_policy : CryptoPolicy;
  c_provider : SignatureProvider; c_at : Z }.
Definition run_call (c : call) (s : state) : result Result_ * state :=
  finalizeBlock (c_block c) (c_certificate c) (c_validators c) (c_policy c) (c_provider c) (c_at c) s.

(** The states a node reaches by finalizing blocks on a genesis block. *)
Inductive reachable : state → Prop :=
| reach_genesis g : isValidGenesisBlock g = true → reachable (push g empty_chain, ∅)
| reach_call s c : reachable s → reachable (run_call c s).2.

Lemma reachable_consistent s : reachable s → consistent s.
Proof.
  induction 1 as [g Hg|s c _ IH].
  - split; cbn [fst snd push m_blocks empty_chain app].
    + by exists g, [].
    + intros h r. by rewrite lookup_empty.
    + intros i b. by rewrite lookup_cons, lookup_nil.
  - unfold run_call. pose proof (finalize_step (c_block c) (c_certificate c) (c_validators c) (c_policy c) (c_provider c) (c_at c) s IH) as Hs.
    destruct (finalizeBlock _ _ _ _ _ _ s) as [res s']. exact (proj1 Hs).
Qed.

(** C10. The expected time of the next block is the larger of the earliest time allowed and
    the weighted median of the precommit times.  For a block that is neither a genesis block
    nor a snapshot, whose certificate matches it and verifies with the validators of its
    height and whose precommits are not earlier than the block, [expectedChildTime] returns
    the larger of the parent time plus the target and a time [m]: [m] is the time of one of
    the votes, and it lies in every interval that holds the times of more than half of the
    signed weight, so validators below that weight cannot move it outside. *)
Theorem bft_time_is_median (parent : Block.t) (target : Z) (c : QuorumCertificate) history set policy provider :
  Block.isValid false parent = true → Block.isSnapshot parent = false → Block.isGenesisBlock parent = false →
  Block.index parent ≠ u64_max → 0 < Block.timestamp parent → 0 < target ≤ Cadence.kMaxTargetBlockSeconds →
  Block.timestamp parent + target ≤ i64_max →
  SetHistory.setAt history (Block.index parent) = Ok set → Certificate.verify c set policy provider = Ok true →
  certificateMatchesBlock parent c = true → (∀ v, v ∈ Certificate.votes c → Block.timestamp parent ≤ Vote.createdAt v) →
  ∃ m, BftTime.expectedChildTime parent target (Some c) (Some history) policy provider = Ok (Some (Z.max (Block.timestamp parent + target) m)) ∧
    m ∈ Vote.createdAt <$> Certificate.votes c ∧
    ∀ lo hi, Certificate.signedVotingWeight c < 2 * TimeFacts.weight_when (λ t, lo ≤ t ≤ hi) (TimeFacts.timed set (Certificate.votes c)) → lo ≤ m ≤ hi.
Proof.
  intros Hv Hsn Hge Hi Hts Htg Hmax Hset Hc Hm Hvt. pose proof (QuorumFacts.verify_certified _ _ _ _ Hc) as Hcert.
  pose proof (QuorumFacts.cert_quorum _ _ _ _ Hcert) as Hq. pose proof (QuorumFacts.cert_positive _ _ _ _ Hcert) as Hpos.
  pose proof (QuorumFacts.cert_signed _ _ _ _ Hcert) as Hsig. rewrite <- TimeFacts.timed_sum in Hsig.
  assert (sum_by snd (TimeFacts.timed set (Certificate.votes c)) ≤ u64_max) as Hu.
  { rewrite TimeFacts.timed_sum. etransitivity; [|exact (proj2 (QuorumFacts.cert_registry _ _ _ _ Hcert))].
    apply QuorumFacts.voters_weight; [exact (QuorumFacts.cert_nodup _ _ _ _ Hcert)|by eapply QuorumFacts.certified_registered]. }
  pose proof (TimeFacts.timed_positive set (Certificate.votes c)) as Hp. set (times := TimeFacts.timed set (Certificate.votes c)) in *.
  assert (0 < sum_by snd times) as Hs0 by (pose proof (Z.div_pos (2 * map_sum ValidatorFacts.weight set) 3); lia).
  pose proof (Z.div_mod (sum_by snd times) 2 ltac:(lia)) as Hdm. pose proof (Z.mod_pos_bound (sum_by snd times) 2 ltac:(lia)).
  pose proof (merge_sort_Permutation BftTime.pair_le times) as HP.
  destruct (TimeFacts.median_exists (sum_by snd times / 2 + sum_by snd times mod 2) (merge_sort BftTime.pair_le times) 0) as [m Em];
    [lia|unfold TimeFacts.positive_weights; by rewrite HP|rewrite HP; lia|lia|rewrite HP; lia|].
  exists m. split_and!.
  - unfold BftTime.expectedChildTime. rewrite Hv, Hsn, Hge. cbn [negb]. replace (Block.timestamp parent <=? 0) with false by lia.
    replace (Block.index parent =? u64_max) with false by lia. replace (target =? 0) with false by lia. replace (Cadence.kMaxTargetBlockSeconds <? target) with false by lia.
    replace (i64_max - Block.timestamp parent <? target) with false by lia. cbn [orb]. cbv zeta. unfold certificateMatchesBlock in Hm.
    apply andb_true_iff in Hm as [[H1 H2]%andb_true_iff H3]. rewrite H1, H2, H3. rewrite (EvidenceFacts.setAt_hasSet _ _ _ Hset). cbn [negb orb]. rewrite Hset. cbn [mbind result_bind].
    rewrite Hc. cbn [mbind result_bind negb]. rewrite TimeFacts.voteTimes_spec; [|lia| |fold times; lia].
    + fold times. rewrite Z.add_0_l, Hsig, Z.eqb_refl. replace (sum_by snd times =? 0) with false by lia. cbn [negb orb]. rewrite Em. done.
    + intros v Hv'. split; [by apply Hvt|]. by destruct (QuorumFacts.cert_votes _ _ _ _ Hcert v Hv') as [[_ _ ?] _].
  - apply TimeFacts.median_split in Em as (l1 & w & l2 & El & _); [|lia|unfold TimeFacts.positive_weights; by rewrite HP|rewrite HP; lia|lia].
    assert ((m, w) ∈ times) as Hin by (rewrite <- HP, El; apply elem_of_app; right; left). apply list_elem_of_fmap in Hin as (v & Ev & Hin).
    apply list_elem_of_fmap. exists v. split; [congruence|done].
  - intros lo hi Hw. rewrite Hsig in Hw. exact (TimeFacts.median_bounds times m lo hi Hp Hu Hs0 Em Hw).
Qed.
(** C9. Fork choice never gives up a finalized block.  When a node in a reachable state
    decides to adopt a candidate chain, the candidate holds at every height the node has
    finalized the block it has finalized there: the same header fields, records and hash.
    The candidate starts with a genesis block, the roots of both chains keep to the text
    format, and SHA-256 does not collide on the texts of the two chains. *)
Theorem fork_choice_keeps_finality (s : state) (candidate : Blockchain.t) (cg : FinalizationRegistry.t) detail :
  reachable s → ForkChoice.chooseBestChain s.1 s.2 candidate cg = Ok (ForkChoice.AdoptCandidate detail) →
  (∀ front, head (m_blocks candidate) = Some front → Block.isSnapshot front = false) →
  Forall (λ b, genesis_plain b = true) (m_blocks s.1 ++ m_blocks candidate) →
  MerkleFacts.collision_free evp_sha256 (chainInputs s.1 ++ chainInputs candidate) →
  ∀ h r, s.2 !! h = Some r → ∃ b b', m_blocks s.1 !! Z.to_nat h = Some b ∧ m_blocks candidate !! Z.to_nat h = Some b' ∧ same_block b b' ∧
    Block.hash b' = Finalized.blockHash r.
Proof.
  intros Hr Hch Hsn Hpl Hfree h r Hh. pose proof (reachable_consistent s Hr) as [(front & l & Eb & Hg & Hl) Hrs _].
  destruct (ForkFacts.choose_adopt _ _ _ _ _ Hch) as (_ & Huc & _ & ls & Hls & Hv & Hcon). destruct (ForkFacts.usable_chain candidate Huc Hsn) as (front' & l' & Eb' & Hg' & Hl').
  destruct (Hrs h r Hh) as (Hh1 & _ & _ & b & Hb & Erh & _).
  set (top := FinalizationRegistry.highestFinalizedHeight s.2) in *. assert (top ≠ 0) as Htop.
  { unfold top, FinalizationRegistry.highestFinalizedHeight. rewrite fmap_last. apply elem_of_entries in Hh as Hin. destruct (last (entries s.2)) as [[k v]|] eqn:El.
    - cbn. assert (s.2 !! k = Some v) as Hk by (apply elem_of_entries; by apply last_Some_elem_of). destruct (Hrs k v Hk) as (? & _). lia.
    - apply last_None in El. rewrite El in Hin. by apply elem_of_nil in Hin. }
  destruct (ForkFacts.highest_spec s.2 Htop) as [_ Hmax]. pose proof (Hmax h r Hh) as Hle. fold top in Hle.
  destruct (ForkFacts.summary_checkpoint _ _ _ Hls Hv Htop) as (rt & Hrt & Ecp & Hml). destruct (Hrs top rt Hrt) as (_ & _ & Eit & _).
  unfold ForkChoice.candidateContainsLocalFinality in Hcon. rewrite Hv, Ecp in Hcon. cbn [negb] in Hcon.
  destruct (ForkFacts.matches_block _ _ Hml) as (a & Ha & Eha & _ & _), (ForkFacts.matches_block _ _ Hcon) as (a' & Ha' & Eha' & _ & _).
  cbn [ForkChoice.checkpointFromRecord ForkChoice.blockIndex] in Ha, Ha'. rewrite Eit in Ha, Ha'. fold top in Ha, Ha'.
  rewrite Eb, Eb' in Hpl. apply Forall_app in Hpl as [Hp Hp']. set (inputs := chainInputs s.1 ++ chainInputs candidate) in *.
  assert (∀ b, b ∈ m_blocks s.1 ∨ b ∈ m_blocks candidate → blockInputs b ⊆ inputs) as Hin.
  { intros x [Hx|Hx] y Hy; apply elem_of_app; [left|right]; by eapply chainInputs_elem. }
  clearbody inputs. rewrite Eb, Eb' in Hin. rewrite Eb in Ha, Hb. rewrite Eb' in Ha'.
  destruct (history_bind inputs Hfree front l front' l' false false (Z.to_nat top) (chain_sound_plain false front l Hg Hp Hl) Hl (chain_sound_plain false front' l' Hg' Hp' Hl') Hl' Hin _ a a' Ha Ha' ltac:(congruence)) as [_ Hall].
  assert (take (S (Z.to_nat top)) (front :: l) !! Z.to_nat h = Some b) as Hbt by (rewrite lookup_take_lt by lia; exact Hb).
  destruct (Forall2_lookup_l _ _ _ _ _ Hall Hbt) as (b' & Hb' & Hsame). rewrite lookup_take_lt in Hb' by lia. exists b, b'. rewrite Eb, Eb'. split_and!; [done..|].
  pose proof Hsame as (_ & _ & Eh & _). congruence.
Qed.

(** Fork choice can oscillate.  Between a chain without finalized blocks and a
    shorter chain with a finalized block that the longer one contains, it tells the owner
    of the first to adopt the second for its finality and the owner of the second to
    adopt the first for its length. *)
Theorem fork_choice_oscillates (long short : Blockchain.t) (g : FinalizationRegistry.t) ls ss cp :
  ForkChoice.summarizeChain long ∅ = Ok ls → ForkChoice.summarizeChain short g = Ok ss →
  ForkChoice.summaryIsValid ls = true → ForkChoice.summaryIsValid ss = true → ForkChoice.checkpoint ss = Some cp →
  ForkChoice.checkpointMatchesChain long cp = true → (length (m_blocks short) < length (m_blocks long))%nat →
  (∃ d, ForkChoice.chooseBestChain long ∅ short g = Ok (ForkChoice.AdoptCandidate d)) ∧
  (∃ d, ForkChoice.chooseBestChain short g long ∅ = Ok (ForkChoice.AdoptCandidate d)).
Proof.
  intros Hl Hs Hvl Hvs Ecp Hm Hlen. destruct (ForkFacts.summary_parts _ _ _ Hl Hvl) as (Hul & Hgl & Hsl & _), (ForkFacts.summary_parts _ _ _ Hs Hvs) as (Hus & Hgs & Hss & _).
  assert (ForkChoice.checkpoint ls = None) as Enone by (by apply (ForkFacts.summary_no_finality long)).
  unfold ForkChoice.chooseBestChain. rewrite Hul, Hus, Hgl, Hgs. cbn [negb mbind result_bind]. rewrite Hl, Hs. cbn [negb mbind result_bind]. rewrite Hvl, Hvs. cbn [negb].
  unfold ForkChoice.candidateContainsLocalFinality. rewrite Hvl, Hvs, Enone, Ecp, Hm. cbn [negb]. unfold ForkChoice.compare. rewrite Enone, Ecp. cbv zeta.
  split; [by eexists|]. rewrite Hsl, Hss. replace (_ <? _) with true by lia. by eexists.
Qed.
End properties.

(** *** Witnesses *)

#[local] Existing Instance StateTreeProperties.small_sha256.
#[local] Existing Instance StateTreeProperties.small_sha256_spec.
Import BlockProperties.

Definition address_of (k : PublicKey) : string := match AddressDerivation.deriveFromPublicKey k with Ok a => a | Throw _ => "" end.
Definition the_validators : ValidatorRegistry :=
  ValidatorFacts.run_all ((λ m, let k := ValidatorProperties.key m in ValidatorFacts.OpRegister (Registration.mk (address_of k) k 1 "meta" 1700000000) 2000000 "owner") <$> ["a"; "bb"; "ccc"]) ∅.
Definition vote_at (m : string) (time : Z) : ValidatorVoteRecord :=
  let k := ValidatorProperties.key m in
  Vote.mk (address_of k) k 1 (Block.hash sample_block) (Block.hash sample_genesis) 1 PRECOMMIT "reason" time QuorumProperties.toy_bundle.
Definition the_votes : list ValidatorVoteRecord := [vote_at "a" 31; vote_at "bb" 900; vote_at "ccc" 35].
Definition the_certificate : QuorumCertificate :=
  Certificate.mk 1 (Block.hash sample_block) (Block.hash sample_genesis) 1 4000001 6000000 6000000
    (match Validators.validatorSetRoot the_validators with Ok h => h | _ => "" end) the_votes.

Lemma the_certificate_verifies : Certificate.verify the_certificate the_validators QuorumProperties.policy QuorumProperties.toy_provider = Ok true.
Proof. vm_compute. reflexivity. Qed.

Definition start : state := (push sample_genesis empty_chain, ∅).
Definition the_call : call := Build_call sample_block the_certificate the_validators QuorumProperties.policy QuorumProperties.toy_provider 50.
Definition the_record : Finalized.t := Finalized.mk 1 (Block.hash sample_block) (Block.hash sample_genesis) 1 50 the_certificate.
Definition finalized : state := (push sample_block (push sample_genesis empty_chain), {[ 1 := the_record ]}).

Lemma the_call_checked : check sample_block the_certificate the_validators QuorumProperties.policy QuorumProperties.toy_provider 50 start = Ok (inr the_record).
Proof. vm_compute. reflexivity. Qed.

Lemma start_reachable : reachable start.
Proof. apply reach_genesis. vm_compute. reflexivity. Qed.

Lemma finalized_reachable : reachable finalized.
Proof.
  pose proof (reach_call start the_call start_reachable) as Hr. replace (run_call the_call start).2 with finalized in Hr; [exact Hr|]. symmetry.
  pose proof (reachable_consistent start start_reachable) as Hc. destruct (finalize_commit _ _ _ _ _ _ _ _ Hc the_call_checked) as (Ea & Hn & _).
  destruct (check_inr _ _ _ _ _ _ _ _ the_call_checked) as (_ & _ & Hg & _ & _ & Hs & _). unfold run_call, finalizeBlock. cbn [the_call c_block c_certificate c_validators c_policy c_provider c_at].
  unfold mbind, M_bind, getsR, on_chain, on_registry, mret, M_ret. rewrite the_call_checked, Ea. cbn [fst snd]. rewrite (register_fresh the_record start.2 Hs Hn Hg). reflexivity.
Qed.

Lemma finalized_blocks : m_blocks finalized.1 = [sample_genesis; sample_block].
Proof. reflexivity. Qed.


Definition the_history : SetHistory.t := SetHistory.mk 1 1 {[ 1 := the_validators ]}.
Lemma the_history_set : SetHistory.setAt the_history 1 = Ok the_validators.
Proof.
  unfold SetHistory.setAt, SetHistory.locate, the_history, SetHistory.floor, entries. simpl. generalize the_validators as r. intros r. by rewrite map_to_list_singleton.
Qed.

Lemma the_votes_late v : v ∈ Certificate.votes the_certificate → Block.timestamp sample_block ≤ Vote.createdAt v.
Proof.
  assert (Forall (λ v, Block.timestamp sample_block ≤ Vote.createdAt v) (Certificate.votes the_certificate)) as Hf by (apply (bool_decide_eq_true_1 _); vm_compute; reflexivity).
  rewrite Forall_forall in Hf. exact (Hf v).
Qed.

Lemma the_votes_half :
  Certificate.signedVotingWeight the_certificate < 2 * TimeFacts.weight_when (λ t, 31 ≤ t ≤ 35) (TimeFacts.timed the_validators (Certificate.votes the_certificate)).
Proof. vm_compute. reflexivity. Qed.

(** One vote is far in the future; the median stays between the other two. *)
Lemma bft_time_is_median_witness : ∃ m, 31 ≤ m ≤ 35 ∧
  BftTime.expectedChildTime sample_block 5 (Some the_certificate) (Some the_history) QuorumProperties.policy QuorumProperties.toy_provider = Ok (Some (Z.max 25 m)).
Proof.
  destruct (bft_time_is_median sample_block 5 the_certificate the_history the_validators QuorumProperties.policy QuorumProperties.toy_provider) as (m & Em & _ & Hm);
    [vm_compute; reflexivity..|vm_compute; discriminate|vm_compute; reflexivity|split; vm_compute; [reflexivity|discriminate]|vm_compute; discriminate
    |exact the_history_set|exact the_certificate_verifies|vm_compute; reflexivity|exact the_votes_late|].
  exists m. split; [exact (Hm 31 35 the_votes_half)|]. exact Em.
Defined.

Definition next_block : Block.t :=
  block_or (Block.make 2 (Block.hash sample_block) [sample_record 4] 60 (Hash.hashBytes "state 2") (Hash.hashBytes "receipts 2")).
Definition longer : Blockchain.t := push next_block finalized.1.

Lemma longer_adopted : ForkChoice.chooseBestChain finalized.1 finalized.2 longer ∅ = Ok (ForkChoice.AdoptCandidate "Candidate chain is longer and does not violate finality.").
Proof. vm_compute. reflexivity. Qed.

Lemma longer_texts : MerkleFacts.collision_free evp_sha256 (chainInputs finalized.1 ++ chainInputs longer).
Proof.
  apply (StateTreeProperties.collision_free_sub _ (remove_dups (chainInputs finalized.1 ++ chainInputs longer))); [intros x Hx; by apply elem_of_remove_dups|].
  apply MerkleFacts.collision_free_check. apply (bool_decide_eq_true_1 _). vm_compute. reflexivity.
Qed.

Lemma longer_plain : Forall (λ b, genesis_plain b = true) (m_blocks finalized.1 ++ m_blocks longer).
Proof. apply (bool_decide_eq_true_1 _). vm_compute. reflexivity. Qed.

Lemma longer_front front : head (m_blocks longer) = Some front → Block.isSnapshot front = false.
Proof. unfold longer. cbn [push m_blocks]. rewrite finalized_blocks. intros E. apply Some_inj in E. rewrite <- E. vm_compute. reflexivity. Qed.

Lemma finalized_first : is_Some (finalized.2 !! 1).
Proof. exists the_record. apply lookup_singleton_eq. Qed.

Lemma fork_choice_keeps_finality_witness : ∃ b', m_blocks longer !! 1%nat = Some b' ∧ same_block sample_block b'.
Proof.
  destruct finalized_first as [r Hr].
  destruct (fork_choice_keeps_finality finalized longer ∅ _ finalized_reachable longer_adopted longer_front longer_plain longer_texts 1 r Hr) as (b & b' & Hb & Hb' & Hs & _).
  rewrite finalized_blocks in Hb. apply Some_inj in Hb. exists b'. split; [exact Hb'|]. rewrite Hb. exact Hs.
Defined.
End FinalityProperties.
