(* ===== verification/ConsensusText.v ===== *)
(** * consensus: the text forms of votes, certificates, finalized records and evidence

    Models the parsers of src/src/consensus/ValidatorVoteRecord.cpp, QuorumCertificate.cpp,
    BlockFinalizer.cpp and SlashingEvidence.cpp.  The four files repeat one parser of
    objects [Name{key=value;...}]: [splitTopLevel] cuts at separators outside of braces and
    brackets, [parseObjectFields] collects the fields in a [std::map] and
    [requireExactFields] compares their names with the expected ones.  The copies differ in
    the wording of the exceptions only, which is an argument here. *)

From Stdlib Require Import Ascii.
From S2P Require Import Prelude Utils CoinLots CoinLotTransfer Crypto LedgerState ValidatorRegistry Quorum Evidence Encoding Merkle Schedule Transactions StateTrees Blocks Finality.

(** ** Objects as text *)

Module ObjectText.
Import SafeScalar.

(** The texts of the exceptions of one copy. *)
Record Wording := { malformedNesting : string; emptyField : string; unbalanced : string; trailingSeparator : string; malformedUnsigned : string }.
Definition consensusWording : Wording :=
  {| malformedNesting := "Malformed nested serialized value."; emptyField := "Empty serialized field.";
     unbalanced := "Unbalanced nested serialized value."; trailingSeparator := "Serialized value has a trailing separator.";
     malformedUnsigned := "Malformed numeric field: " |}.
Definition evidenceWording : Wording :=
  {| malformedNesting := "Malformed nested evidence serialization."; emptyField := "Empty evidence serialization field.";
     unbalanced := "Unbalanced evidence serialization."; trailingSeparator := "Evidence serialization has trailing separator.";
     malformedUnsigned := "Malformed unsigned numeric field: " |}.

(** The depths after one more character. *)
Definition nextBraces (c : ascii) (braces : Z) : Z :=
  if Ascii.eqb c "{" then braces + 1 else if Ascii.eqb c "}" then braces - 1 else braces.
Definition nextBrackets (c : ascii) (brackets : Z) : Z :=
  if Ascii.eqb c "[" then brackets + 1 else if Ascii.eqb c "]" then brackets - 1 else brackets.

(** The loop of [splitTopLevel]: what is left of the current part, which is still empty
    when [fresh] ([index == start]), and the parts after it. *)
Fixpoint splitFrom (w : Wording) (separator : ascii) (braces brackets : Z) (fresh : bool) (s : string) : result (string * list string) :=
  match s with
  | EmptyString =>
      if negb (braces =? 0) || negb (brackets =? 0) then Throw (invalid_argument (unbalanced w))
      else if fresh then Throw (invalid_argument (trailingSeparator w))
      else Ok ("", [])
  | String c s =>
      let braces := nextBraces c braces in
      let brackets := nextBrackets c brackets in
      if (braces <? 0) || (brackets <? 0) then Throw (invalid_argument (malformedNesting w))
      else if Ascii.eqb c separator && (braces =? 0) && (brackets =? 0) then
        if fresh then Throw (invalid_argument (emptyField w))
        else
          rest ← splitFrom w separator braces brackets true s;
          Ok ("", rest.1 :: rest.2)
      else
        rest ← splitFrom w separator braces brackets false s;
        Ok (String c rest.1, rest.2)
  end.

Definition splitTopLevel (w : Wording) (value : string) (separator : ascii) : result (list string) :=
  parts ← splitFrom w separator 0 0 true value;
  Ok (parts.1 :: parts.2).

(** [serialized.substr(0, serialized.size() - 1)] *)
Fixpoint dropLast (s : string) : string :=
  match s with EmptyString => EmptyString | String _ EmptyString => EmptyString | String c s => String c (dropLast s) end.

(** The text between [typeName] with its opening brace and the last brace. *)
Definition objectBody (serialized typeName : string) : result string :=
  match FieldText.strip (typeName +:+ "{") serialized with
  | None => Throw (invalid_argument ("Serialized data is not a " +:+ typeName +:+ "."))
  | Some rest =>
      throw_if (empty_string rest || negb (Ascii.eqb (FieldText.back serialized) "}"))
        (invalid_argument ("Serialized data is not a " +:+ typeName +:+ "."));;
      throw_if (empty_string (dropLast rest)) (invalid_argument ("Serialized " +:+ typeName +:+ " is empty."));;
      Ok (dropLast rest)
  end.

Definition parseField (typeName part : string) : result (string * string) :=
  match Text.split_at "=" part with
  | None => Throw (invalid_argument ("Malformed serialized " +:+ typeName +:+ " field."))
  | Some (key, value) =>
      if empty_string key || empty_string value then Throw (invalid_argument ("Malformed serialized " +:+ typeName +:+ " field."))
      else Ok (key, value)
  end.

Fixpoint parseFields (typeName : string) (fields : gmap string string) (parts : list string) : result (gmap string string) :=
  match parts with
  | [] => Ok fields
  | part :: parts =>
      field ← parseField typeName part;
      match fields !! field.1 with
      | Some _ => Throw (invalid_argument ("Duplicate serialized " +:+ typeName +:+ " field: " +:+ field.1))
      | None => parseFields typeName (<[field.1 := field.2]> fields) parts
      end
  end.

Definition parseObjectFields (w : Wording) (serialized typeName : string) : result (gmap string string) :=
  body ← objectBody serialized typeName;
  parts ← splitTopLevel w body ";";
  parseFields typeName ∅ parts.

Fixpoint checkEach (f : string → result unit) (l : list string) : result unit :=
  match l with [] => Ok tt | x :: l => f x;; checkEach f l end.

(** [expected] is a [std::set], so it is visited in order. *)
Definition requireExactFields (fields : gmap string string) (expected : list string) (typeName : string) : result unit :=
  checkEach (λ key, throw_if (bool_decide (fields !! key = None)) (invalid_argument ("Missing serialized " +:+ typeName +:+ " field: " +:+ key)))
    (merge_sort String.le expected);;
  checkEach (λ key, throw_if (bool_decide (key ∉ expected)) (invalid_argument ("Unknown serialized " +:+ typeName +:+ " field: " +:+ key)))
    (entries fields).*1.

Definition requireField (fields : gmap string string) (key typeName : string) : result string :=
  match fields !! key with
  | None => Throw (invalid_argument ("Missing serialized " +:+ typeName +:+ " field: " +:+ key))
  | Some value => Ok value
  end.

Definition parseU64Strict (w : Wording) (value fieldName : string) : result Z :=
  throw_if (empty_string value) (invalid_argument ("Empty numeric field: " +:+ fieldName));;
  throw_if (negb (all_chars Text.is_digit value)) (invalid_argument (malformedUnsigned w +:+ fieldName));;
  parsed ← Text.stoull value;
  throw_if (negb (empty_string (FieldText.number_rest value))) (invalid_argument (malformedUnsigned w +:+ fieldName));;
  Ok parsed.

(** The characters that [parseI64Strict] lets through. *)
Definition signedDigits (value : string) : bool :=
  match value with
  | String c (String _ _ as rest) => if Ascii.eqb c "-" then all_chars Text.is_digit rest else all_chars Text.is_digit value
  | _ => all_chars Text.is_digit value
  end.

Definition parseI64Strict (value fieldName : string) : result Z :=
  throw_if (empty_string value) (invalid_argument ("Empty numeric field: " +:+ fieldName));;
  throw_if (negb (signedDigits value)) (invalid_argument ("Malformed numeric field: " +:+ fieldName));;
  parsed ← FieldText.stoll value;
  throw_if (negb (empty_string (FieldText.number_rest value))) (invalid_argument ("Malformed numeric field: " +:+ fieldName));;
  Ok parsed.
End ObjectText.

(** ** Votes *)

Module VoteText.
Import ObjectText.

Definition parsePublicKey (serialized : string) : result PublicKey :=
  fields ← parseObjectFields consensusWording serialized "PublicKey";
  requireExactFields fields ["algorithm"; "keyMaterial"] "PublicKey";;
  name ← requireField fields "algorithm" "PublicKey";
  algorithm ← cryptoAlgorithmFromString name;
  throw_if (negb (String.eqb (cryptoAlgorithmToString algorithm) name)) (invalid_argument "Unknown serialized PublicKey algorithm.");;
  material ← requireField fields "keyMaterial" "PublicKey";
  let publicKey := PublicKey.mk algorithm material in
  throw_if (negb (PublicKey.isValid publicKey) || negb (String.eqb (PublicKey.serialize publicKey) serialized))
    (invalid_argument "Serialized PublicKey is invalid or non-canonical.");;
  Ok publicKey.

Definition parseVoteDecision (value : string) : result ValidatorVoteDecision :=
  if String.eqb value "REJECT" then Ok REJECT
  else if String.eqb value "PREVOTE" then Ok PREVOTE
  else if String.eqb value "PRECOMMIT" then Ok PRECOMMIT
  else Throw (invalid_argument ("Unknown validator vote decision: " +:+ value)).

Definition parseSignature (serialized : string) (expectedPublicKey : PublicKey) : result Signature :=
  fields ← parseObjectFields consensusWording serialized "Signature";
  requireExactFields fields ["suite"; "domain"; "algorithm"; "publicKey"; "signatureHex"; "createdAt"] "Signature";;
  name ← requireField fields "algorithm" "Signature";
  algorithm ← cryptoAlgorithmFromString name;
  throw_if (negb (String.eqb (cryptoAlgorithmToString algorithm) name)) (invalid_argument "Unknown serialized Signature algorithm.");;
  suiteName ← requireField fields "suite" "Signature";
  let suite := cryptoSuiteIdFromString suiteName in
  throw_if (negb (isSupportedCryptoSuite suite)) (invalid_argument "Unknown serialized Signature suite.");;
  domainName ← requireField fields "domain" "Signature";
  let domain := signingDomainFromString domainName in
  throw_if (bool_decide (domain = DOMAIN_UNKNOWN)) (invalid_argument "Unknown serialized Signature domain.");;
  keyText ← requireField fields "publicKey" "Signature";
  embeddedPublicKey ← parsePublicKey keyText;
  throw_if (negb (bool_decide (algorithm = PublicKey.algorithm expectedPublicKey)) ||
            negb (String.eqb (PublicKey.serialize embeddedPublicKey) (PublicKey.serialize expectedPublicKey)))
    (invalid_argument "Serialized Signature algorithm does not match vote public key.");;
  hex ← requireField fields "signatureHex" "Signature";
  createdText ← requireField fields "createdAt" "Signature";
  createdAt ← parseI64Strict createdText "Signature.createdAt";
  let signature := Signature.mk suite domain algorithm expectedPublicKey hex createdAt in
  throw_if (negb (Signature.isValid signature) || negb (String.eqb (Signature.serialize signature) serialized))
    (invalid_argument "Serialized Signature is invalid or non-canonical.");;
  Ok signature.

(** The loop of [parseSignatureBundle]. *)
Fixpoint addSignatures (expectedPublicKey : PublicKey) (bundle : SignatureBundle) (l : list string) : result SignatureBundle :=
  match l with
  | [] => Ok bundle
  | text :: l =>
      signature ← parseSignature text expectedPublicKey;
      let '(added, bundle) := SignatureBundle.addSignature signature bundle in
      added;; addSignatures expectedPublicKey bundle l
  end.

Definition parseSignatureBundle (serialized : string) (expectedPublicKey : PublicKey) : result SignatureBundle :=
  body ← objectBody serialized "SignatureBundle";
  parts ← splitTopLevel consensusWording body ";";
  bundle ← addSignatures expectedPublicKey [] parts;
  throw_if (negb (String.eqb (SignatureBundle.serialize bundle) serialized)) (invalid_argument "Serialized SignatureBundle is non-canonical.");;
  Ok bundle.

Definition fieldNames : list string :=
  ["validatorAddress"; "validatorPublicKey"; "validatorPublicKeyFingerprint"; "blockIndex"; "blockHash"; "previousHash"; "round"; "decision";
   "reasonHash"; "createdAt"; "signatureBundle"].

Section vote.
Context `{Sha256}.

Definition deserialize (serialized : string) : result ValidatorVoteRecord :=
  fields ← parseObjectFields consensusWording serialized "ValidatorVoteRecord";
  requireExactFields fields fieldNames "ValidatorVoteRecord";;
  let field := λ key, requireField fields key "ValidatorVoteRecord" in
  keyText ← field "validatorPublicKey";
  publicKey ← parsePublicKey keyText;
  fingerprint ← field "validatorPublicKeyFingerprint";
  throw_if (negb (String.eqb fingerprint (PublicKey.fingerprint publicKey)))
    (invalid_argument "Serialized validator public key fingerprint does not match public key.");;
  address ← field "validatorAddress";
  indexText ← field "blockIndex";
  blockIndex ← parseU64Strict consensusWording indexText "ValidatorVoteRecord.blockIndex";
  blockHash ← field "blockHash";
  previousHash ← field "previousHash";
  roundText ← field "round";
  round ← parseU64Strict consensusWording roundText "ValidatorVoteRecord.round";
  decisionText ← field "decision";
  decision ← parseVoteDecision decisionText;
  reasonHash ← field "reasonHash";
  createdText ← field "createdAt";
  createdAt ← parseI64Strict createdText "ValidatorVoteRecord.createdAt";
  bundleText ← field "signatureBundle";
  bundle ← parseSignatureBundle bundleText publicKey;
  let vote := Vote.mk address publicKey blockIndex blockHash previousHash round decision reasonHash createdAt bundle in
  throw_if (negb (String.eqb (Vote.serialize vote) serialized)) (invalid_argument "Serialized ValidatorVoteRecord is non-canonical.");;
  Ok vote.
End vote.
End VoteText.

(** ** Certificates *)

Module CertificateText.
Import ObjectText.

Definition fieldNames : list string :=
  ["blockIndex"; "blockHash"; "previousHash"; "round"; "requiredVotingWeight"; "totalVotingWeight"; "signedVotingWeight"; "validatorSetRoot"; "votes"].

Section certificate.
Context `{Sha256}.

Fixpoint parseEach (l : list string) : result (list ValidatorVoteRecord) :=
  match l with
  | [] => Ok []
  | text :: l => vote ← VoteText.deserialize text; votes ← parseEach l; Ok (vote :: votes)
  end.

Definition parseVotes (serializedVotes : string) : result (list ValidatorVoteRecord) :=
  match serializedVotes with
  | String c (String _ _ as rest) =>
      throw_if (negb (Ascii.eqb c "[") || negb (Ascii.eqb (FieldText.back serializedVotes) "]"))
        (invalid_argument "Serialized quorum vote list is malformed.");;
      if empty_string (dropLast rest) then Ok []
      else parts ← splitTopLevel consensusWording (dropLast rest) ","; parseEach parts
  | _ => Throw (invalid_argument "Serialized quorum vote list is malformed.")
  end.

Definition deserialize (serialized : string) : result QuorumCertificate :=
  fields ← parseObjectFields consensusWording serialized "QuorumCertificate";
  requireExactFields fields fieldNames "QuorumCertificate";;
  let field := λ key, requireField fields key "QuorumCertificate" in
  let number := λ key, text ← field key; parseU64Strict consensusWording text ("QuorumCertificate." +:+ key) in
  blockIndex ← number "blockIndex";
  blockHash ← field "blockHash";
  previousHash ← field "previousHash";
  round ← number "round";
  required ← number "requiredVotingWeight";
  total ← number "totalVotingWeight";
  signed ← number "signedVotingWeight";
  root ← field "validatorSetRoot";
  votesText ← field "votes";
  votes ← parseVotes votesText;
  let certificate := Certificate.mk blockIndex blockHash previousHash round required total signed root votes in
  valid ← Certificate.isStructurallyValid certificate;
  throw_if (negb valid) (invalid_argument "Serialized QuorumCertificate is structurally invalid.");;
  throw_if (negb (String.eqb (Certificate.serialize certificate) serialized)) (invalid_argument "Serialized QuorumCertificate is non-canonical.");;
  Ok certificate.
End certificate.
End CertificateText.

(** ** Finalized records *)

Module FinalizedText.
Import ObjectText.

Definition fieldNames : list string := ["blockIndex"; "blockHash"; "previousHash"; "round"; "finalizedAt"; "quorumCertificate"].

Section finalized.
Context `{Sha256}.

Definition deserialize (serialized : string) : result Finalized.t :=
  fields ← parseObjectFields consensusWording serialized "FinalizedBlockRecord";
  requireExactFields fields fieldNames "FinalizedBlockRecord";;
  let field := λ key, requireField fields key "FinalizedBlockRecord" in
  indexText ← field "blockIndex";
  blockIndex ← parseU64Strict consensusWording indexText "FinalizedBlockRecord.blockIndex";
  blockHash ← field "blockHash";
  previousHash ← field "previousHash";
  roundText ← field "round";
  round ← parseU64Strict consensusWording roundText "FinalizedBlockRecord.round";
  atText ← field "finalizedAt";
  finalizedAt ← parseI64Strict atText "FinalizedBlockRecord.finalizedAt";
  certificateText ← field "quorumCertificate";
  certificate ← CertificateText.deserialize certificateText;
  let record := Finalized.mk blockIndex blockHash previousHash round finalizedAt certificate in
  valid ← Finalized.isStructurallyValid record;
  throw_if (negb valid) (invalid_argument "Serialized FinalizedBlockRecord is structurally invalid.");;
  throw_if (negb (String.eqb (Finalized.serialize record) serialized)) (invalid_argument "Serialized FinalizedBlockRecord is non-canonical.");;
  Ok record.
End finalized.
End FinalizedText.

(** ** Evidence

    The names are known to be present when [fields.at] is called, so that it never throws. *)

Module EvidenceText.
Import ObjectText.

Definition slashingEvidenceTypeFromString (value : string) : SlashingEvidenceType :=
  if String.eqb value "DOUBLE_VOTE" then DOUBLE_VOTE
  else if String.eqb value "INVALID_SIGNATURE" then INVALID_SIGNATURE
  else if String.eqb value "EQUIVOCATION" then EQUIVOCATION
  else EVIDENCE_UNKNOWN.

Definition slashingEvidenceSeverityFromString (value : string) : SlashingEvidenceSeverity :=
  if String.eqb value "WARNING" then WARNING else if String.eqb value "SLASHABLE" then SLASHABLE else SEVERITY_UNKNOWN.

Definition parseRecord (serialized : string) : result SlashingEvidenceRecord :=
  fields ← parseObjectFields evidenceWording serialized "SlashingEvidenceRecord";
  requireExactFields fields ["evidenceId"; "type"; "validatorAddress"; "payloadHash"; "severity"; "createdAt"] "SlashingEvidenceRecord";;
  let at_ := λ key, requireField fields key "SlashingEvidenceRecord" in
  evidenceId ← at_ "evidenceId";
  type ← at_ "type";
  address ← at_ "validatorAddress";
  payloadHash ← at_ "payloadHash";
  severity ← at_ "severity";
  createdText ← at_ "createdAt";
  createdAt ← parseI64Strict createdText "createdAt";
  let record := EvidenceRecord.mk evidenceId (slashingEvidenceTypeFromString type) address payloadHash (slashingEvidenceSeverityFromString severity) createdAt in
  throw_if (negb (EvidenceRecord.isValid record)) (invalid_argument "Serialized slashing evidence record is invalid.");;
  Ok record.

Section evidence.
Context `{Sha256}.

Definition serializeDoubleVote (e : DoubleVote.t) : string :=
  "DoubleVoteEvidence{evidenceId=" +:+ DoubleVote.evidenceId e +:+ ";validatorAddress=" +:+ DoubleVote.validatorAddress e +:+
  ";detectedAt=" +:+ to_string (DoubleVote.detectedAt e) +:+ ";payloadHash=" +:+ DoubleVote.payloadHash e +:+
  ";firstVote=" +:+ Vote.serialize (DoubleVote.firstVote e) +:+ ";secondVote=" +:+ Vote.serialize (DoubleVote.secondVote e) +:+ "}".

Definition parseDoubleVote (serialized : string) : result DoubleVote.t :=
  fields ← parseObjectFields evidenceWording serialized "DoubleVoteEvidence";
  requireExactFields fields ["evidenceId"; "validatorAddress"; "detectedAt"; "payloadHash"; "firstVote"; "secondVote"] "DoubleVoteEvidence";;
  let at_ := λ key, requireField fields key "DoubleVoteEvidence" in
  firstText ← at_ "firstVote";
  first ← VoteText.deserialize firstText;
  secondText ← at_ "secondVote";
  second ← VoteText.deserialize secondText;
  detectedText ← at_ "detectedAt";
  detectedAt ← parseI64Strict detectedText "detectedAt";
  evidenceId ← at_ "evidenceId";
  address ← at_ "validatorAddress";
  payloadHash ← at_ "payloadHash";
  let evidence := DoubleVote.make first second detectedAt in
  throw_if (negb (DoubleVote.isConflictPair evidence) || negb (String.eqb (DoubleVote.evidenceId evidence) evidenceId) ||
            negb (String.eqb (DoubleVote.validatorAddress evidence) address) || negb (String.eqb (DoubleVote.payloadHash evidence) payloadHash) ||
            negb (String.eqb (serializeDoubleVote evidence) serialized))
    (invalid_argument "Serialized double-vote evidence is invalid or non-canonical.");;
  Ok evidence.

Definition serializeEquivocation (e : ProposerEquivocation.t) : string :=
  "ProposerEquivocationEvidence{evidenceId=" +:+ ProposerEquivocation.evidenceId e +:+
  ";proposerAddress=" +:+ ProposerEquivocation.proposerAddress e +:+ ";blockIndex=" +:+ to_string (ProposerEquivocation.blockIndex e) +:+
  ";round=" +:+ to_string (ProposerEquivocation.round e) +:+ ";detectedAt=" +:+ to_string (ProposerEquivocation.detectedAt e) +:+
  ";payloadHash=" +:+ ProposerEquivocation.payloadHash e +:+ ";firstBlockHash=" +:+ ProposerEquivocation.firstBlockHash e +:+
  ";secondBlockHash=" +:+ ProposerEquivocation.secondBlockHash e +:+ ";firstProposal=" +:+ ProposerEquivocation.firstProposal e +:+
  ";secondProposal=" +:+ ProposerEquivocation.secondProposal e +:+ "}".

Definition parseEquivocation (serialized : string) : result ProposerEquivocation.t :=
  fields ← parseObjectFields evidenceWording serialized "ProposerEquivocationEvidence";
  requireExactFields fields ["evidenceId"; "proposerAddress"; "blockIndex"; "round"; "detectedAt"; "payloadHash"; "firstBlockHash"; "secondBlockHash";
    "firstProposal"; "secondProposal"] "ProposerEquivocationEvidence";;
  let at_ := λ key, requireField fields key "ProposerEquivocationEvidence" in
  first ← at_ "firstProposal";
  second ← at_ "secondProposal";
  proposer ← at_ "proposerAddress";
  indexText ← at_ "blockIndex";
  blockIndex ← parseU64Strict evidenceWording indexText "blockIndex";
  roundText ← at_ "round";
  round ← parseU64Strict evidenceWording roundText "round";
  firstHash ← at_ "firstBlockHash";
  secondHash ← at_ "secondBlockHash";
  detectedText ← at_ "detectedAt";
  detectedAt ← parseI64Strict detectedText "detectedAt";
  evidenceId ← at_ "evidenceId";
  payloadHash ← at_ "payloadHash";
  let evidence := ProposerEquivocation.make first second proposer blockIndex round firstHash secondHash detectedAt in
  throw_if (negb (ProposerEquivocation.isConflictPair evidence) || negb (String.eqb (ProposerEquivocation.evidenceId evidence) evidenceId) ||
            negb (String.eqb (ProposerEquivocation.proposerAddress evidence) proposer) ||
            negb (String.eqb (ProposerEquivocation.payloadHash evidence) payloadHash) ||
            negb (String.eqb (ProposerEquivocation.firstBlockHash evidence) firstHash) ||
            negb (String.eqb (ProposerEquivocation.secondBlockHash evidence) secondHash) ||
            negb (String.eqb (serializeEquivocation evidence) serialized))
    (invalid_argument "Serialized proposer-equivocation evidence is invalid or non-canonical.");;
  Ok evidence.
End evidence.
End EvidenceText.

(** ** Facts about objects as text *)

Module ObjectFacts.
Import SafeScalar ObjectText.

(** The depths after a text that stays inside one part. *)
Fixpoint scan (separator : ascii) (braces brackets : Z) (s : string) : option (Z * Z) :=
  match s with
  | EmptyString => Some (braces, brackets)
  | String c s =>
      let braces := nextBraces c braces in
      let brackets := nextBrackets c brackets in
      if (braces <? 0) || (brackets <? 0) then None
      else if Ascii.eqb c separator && (braces =? 0) && (brackets =? 0) then None
      else scan separator braces brackets s
  end.

Lemma scan_app sep b k s t : scan sep b k (s +:+ t) = match scan sep b k s with Some (b', k') => scan sep b' k' t | None => None end.
Proof.
  revert b k. induction s as [|c s IH]; intros b k; [by rewrite FieldFacts.append_nil_l|]. rewrite CryptoFacts.append_cons. cbn [scan].
  destruct (_ || _); [done|]. destruct (_ && _); [done|]. apply IH.
Qed.

Lemma split_scan w sep b k fresh s t b' k' : scan sep b k s = Some (b', k') →
  splitFrom w sep b k fresh (s +:+ t) = (rest ← splitFrom w sep b' k' (fresh && empty_string s) t; Ok (s +:+ rest.1, rest.2)).
Proof.
  revert b k fresh. induction s as [|c s IH]; intros b k fresh E.
  - injection E as <- <-. rewrite FieldFacts.append_nil_l. cbn [empty_string]. rewrite andb_true_r. by destruct (splitFrom w sep b k fresh t) as [[p ps]|].
  - rewrite CryptoFacts.append_cons. cbn [splitFrom]. cbn [scan] in E. destruct (_ || _); [done|]. destruct (_ && _ && _); [done|]. rewrite (IH _ _ false E).
    cbn [empty_string]. rewrite andb_false_r. cbn [andb]. by destruct (splitFrom w sep b' k' false t) as [[p ps]|].
Qed.

(** A separator is not a brace or bracket. *)
Definition neutral (c : ascii) : bool := negb (contains_char "{}[]" c).
Definition flat (s : string) : bool := all_chars neutral s.

Lemma neutral_depths c b k : neutral c = true → nextBraces c b = b ∧ nextBrackets c k = k.
Proof.
  unfold neutral, nextBraces, nextBrackets. intros Hc%negb_true_iff. cbn [contains_char] in Hc. rewrite !(Ascii.eqb_sym c).
  repeat match type of Hc with (?x || _) = false => apply orb_false_iff in Hc as [-> Hc] end. done.
Qed.

(** A text that keeps the depths once it is inside of an object or list. *)
Definition nested (s : string) : Prop := ∀ sep b k, 0 ≤ b → 0 ≤ k → 0 < b + k → scan sep b k s = Some (b, k).

Lemma nested_flat s : flat s = true → nested s.
Proof.
  unfold nested, flat. intros Hs sep b k Hb Hk Hbk. induction s as [|c s IH]; [done|]. cbn [all_chars] in Hs. apply andb_true_iff in Hs as [Hc Hs]. cbn [scan].
  destruct (neutral_depths c b k Hc) as [-> ->]. replace (b <? 0) with false by lia. replace (k <? 0) with false by lia. cbn [orb].
  replace (Ascii.eqb c sep && (b =? 0) && (k =? 0)) with false by (destruct (Ascii.eqb c sep); cbn [andb]; lia). by apply IH.
Qed.

Lemma nested_app s t : nested s → nested t → nested (s +:+ t).
Proof. intros Hs Ht sep b k Hb Hk Hbk. rewrite scan_app, (Hs sep b k) by done. by apply Ht. Qed.

Lemma nested_open s : nested s → nested ("{" +:+ s +:+ "}") ∧ nested ("[" +:+ s +:+ "]").
Proof.
  intros Hs. split; intros sep b k Hb Hk Hbk; rewrite CryptoFacts.append_cons, FieldFacts.append_nil_l; cbn [scan]; unfold nextBraces, nextBrackets; cbn [Ascii.eqb Bool.eqb andb];
    [replace (b + 1 <? 0) with false by lia; replace (b + 1 =? 0) with false by lia|replace (b <? 0) with false by lia; replace (k + 1 =? 0) with false by lia].
  - replace (k <? 0) with false by lia. rewrite !andb_false_r. cbn [orb andb]. rewrite scan_app, Hs by lia. cbn [scan]. unfold nextBraces, nextBrackets.
    cbn [Ascii.eqb Bool.eqb andb]. replace (b + 1 - 1) with b by lia. replace (b <? 0) with false by lia. replace (k <? 0) with false by lia. cbn [orb].
    replace (_ && (b =? 0) && (k =? 0)) with false; [done|]. symmetry. rewrite <- andb_assoc. apply andb_false_intro2. lia.
  - replace (k + 1 <? 0) with false by lia. rewrite !andb_false_r. cbn [orb andb]. rewrite scan_app, Hs by lia. cbn [scan]. unfold nextBraces, nextBrackets.
    cbn [Ascii.eqb Bool.eqb andb]. replace (k + 1 - 1) with k by lia. replace (b <? 0) with false by lia. replace (k <? 0) with false by lia. cbn [orb].
    replace (_ && (b =? 0) && (k =? 0)) with false; [done|]. symmetry. rewrite <- andb_assoc. apply andb_false_intro2. lia.
Qed.

Lemma scan_flat sep s : flat s = true → contains_char s sep = false → scan sep 0 0 s = Some (0, 0).
Proof.
  unfold flat. induction s as [|c s IH]; [done|]. cbn [all_chars contains_char scan]. intros [Hc Hs]%andb_true_iff [Hn Hr]%orb_false_iff.
  destruct (neutral_depths c 0 0 Hc) as [-> ->]. rewrite Hn. cbn [Z.ltb Z.compare orb andb]. by apply IH.
Qed.

Lemma scan_open sep s : neutral sep = true → nested s → scan sep 0 0 ("{" +:+ s +:+ "}") = Some (0, 0) ∧ scan sep 0 0 ("[" +:+ s +:+ "]") = Some (0, 0).
Proof.
  intros Hn Hs. assert (Ascii.eqb "}" sep = false ∧ Ascii.eqb "]" sep = false) as [H1 H2].
  { unfold neutral in Hn. apply negb_true_iff in Hn. cbn [contains_char] in Hn. by repeat match type of Hn with (_ || _) = false => apply orb_false_iff in Hn as [? Hn] end. }
  split; rewrite CryptoFacts.append_cons, FieldFacts.append_nil_l; cbn [scan].
  - change (nextBraces "{" 0) with 1. change (nextBrackets "{" 0) with 0. cbn [Z.ltb Z.compare orb]. rewrite !andb_false_r. cbn [andb]. rewrite scan_app, Hs by lia. cbn [scan].
    change (nextBraces "}" 1) with 0. change (nextBrackets "}" 0) with 0. by rewrite H1.
  - change (nextBraces "[" 0) with 0. change (nextBrackets "[" 0) with 1. cbn [Z.ltb Z.compare orb]. rewrite !andb_false_r. rewrite scan_app, Hs by lia. cbn [scan].
    change (nextBraces "]" 0) with 0. change (nextBrackets "]" 1) with 0. by rewrite H2.
Qed.

(** A part between separators. *)
Definition part (sep : ascii) (s : string) : Prop := s ≠ "" ∧ scan sep 0 0 s = Some (0, 0).

Lemma nonempty_string s : s ≠ "" → empty_string s = false.
Proof. by destruct s. Qed.

Lemma split_parts w sep p ps : neutral sep = true → Forall (part sep) (p :: ps) →
  splitFrom w sep 0 0 true (String.concat (String sep "") (p :: ps)) = Ok (p, ps).
Proof.
  intros Hn. revert p. induction ps as [|q ps IH]; intros p [[Hne Hp] Hps]%Forall_cons.
  - cbn [String.concat]. rewrite <- (FieldFacts.append_nil_r p) at 1. rewrite (split_scan _ _ _ _ _ _ _ _ _ Hp), (nonempty_string p Hne). cbn [andb splitFrom]. cbn. by rewrite FieldFacts.append_nil_r.
  - change (String.concat (String sep "") (p :: q :: ps)) with (p +:+ String sep "" +:+ String.concat (String sep "") (q :: ps)).
    rewrite (split_scan _ _ _ _ _ _ _ _ _ Hp), (nonempty_string p Hne). cbn [andb]. rewrite CryptoFacts.append_cons, FieldFacts.append_nil_l. cbn [splitFrom].
    destruct (neutral_depths sep 0 0 Hn) as [-> ->]. rewrite Ascii.eqb_refl. cbn [Z.ltb Z.compare orb andb Z.eqb]. rewrite (IH q Hps). cbn. by rewrite FieldFacts.append_nil_r.
Qed.

Lemma split_concat w sep ps : neutral sep = true → ps ≠ [] → Forall (part sep) ps → splitTopLevel w (String.concat (String sep "") ps) sep = Ok ps.
Proof. intros Hn Hne Hps. destruct ps as [|p ps]; [done|]. unfold splitTopLevel. by rewrite split_parts. Qed.

(** *** Objects *)

Definition fieldText (f : string * string) : string := f.1 +:+ "=" +:+ f.2.
Definition body (fields : list (string * string)) : string := String.concat ";" (fieldText <$> fields).
Definition object (name : string) (fields : list (string * string)) : string := name +:+ "{" +:+ body fields +:+ "}".

(** The value of a field: a text without separators, an object or a list. *)
Definition value (v : string) : Prop := part ";" v ∧ nested v.
Definition key (k : string) : bool := negb (empty_string k) && all_chars (λ c, negb (contains_char "{}[];,=" c)) k.
Definition fields_ok (fields : list (string * string)) : Prop := fields ≠ [] ∧ NoDup fields.*1 ∧ Forall (λ f, key f.1 = true ∧ value f.2) fields.

Lemma all_chars_impl (p q : ascii → bool) s : (∀ c, p c = true → q c = true) → all_chars p s = true → all_chars q s = true.
Proof. intros Hpq. induction s as [|c s IH]; cbn [all_chars]; [done|]. intros [Hc Hs]%andb_true_iff. rewrite (Hpq c Hc). by apply IH. Qed.

Lemma excluded_sub (a b : string) c : (∀ d, contains_char b d = true → contains_char a d = true) → negb (contains_char a c) = true → negb (contains_char b c) = true.
Proof. intros Hab Ha. apply negb_true_iff in Ha. destruct (contains_char b c) eqn:E; [|done]. rewrite (Hab c E) in Ha. discriminate Ha. Qed.

Lemma key_facts k : key k = true → k ≠ "" ∧ flat k = true ∧ contains_char k ";" = false ∧ contains_char k "," = false ∧ contains_char k "=" = false.
Proof.
  intros [Hne Hk]%andb_true_iff. split; [by destruct k|]. split.
  - apply (all_chars_impl _ neutral k) in Hk; [done|]. intros c. apply excluded_sub. intros d. cbn [contains_char].
    intros Hd. repeat match type of Hd with (_ || _) = true => apply orb_true_iff in Hd as [Hd|Hd] end; rewrite ?Hd, ?orb_true_r; done.
  - split_and!; by apply (Text.all_chars_contains _ _ _ Hk).
Qed.

Lemma scalar_value s : isSafeScalar s = true → value s.
Proof.
  unfold isSafeScalar, isSafeDelimitedText. destruct (empty_string s) eqn:E; [done|]. cbn [orb]. destruct (npos <? _); [done|]. intros Hs.
  assert (flat s = true) as Hf.
  { apply (all_chars_impl _ neutral s) in Hs; [done|]. intros c. apply excluded_sub. intros d Hd. unfold scalar_delimiters. rewrite contains_char_app.
    cbn [contains_char] in Hd |- *. repeat match type of Hd with (_ || _) = true => apply orb_true_iff in Hd as [Hd|Hd] end; rewrite ?Hd, ?orb_true_r; done. }
  split; [|by apply nested_flat]. split; [by destruct s|]. apply scan_flat; [done|]. by apply (Text.all_chars_contains _ _ _ Hs).
Qed.

Lemma plain_value s : s ≠ "" → flat s = true → contains_char s ";" = false → value s.
Proof. intros Hne Hf Hs. split; [|by apply nested_flat]. split; [done|]. by apply scan_flat. Qed.

Lemma nested_concat sep l : flat sep = true → Forall nested l → nested (String.concat sep l).
Proof.
  intros Hsep. induction 1 as [|x l Hx Hl IH]; [by apply nested_flat|]. destruct l as [|y l]; [done|].
  change (String.concat sep (x :: y :: l)) with (x +:+ sep +:+ String.concat sep (y :: l)). apply nested_app; [done|]. apply nested_app; [by apply nested_flat|done].
Qed.

Lemma field_part f : key f.1 = true → value f.2 → part ";" (fieldText f) ∧ nested (fieldText f).
Proof.
  intros (Hne & Hf & Hs & _)%key_facts [[Hv Hp] Hn]. unfold fieldText. split; [split|].
  - destruct (f.1) as [|c k]; [done|]. by rewrite CryptoFacts.append_cons.
  - rewrite scan_app, scan_flat by done. rewrite scan_app. cbn [scan]. exact Hp.
  - apply nested_app; [by apply nested_flat|]. apply nested_app; [by apply nested_flat|done].
Qed.

Lemma body_parts fields : fields_ok fields → Forall (part ";") (fieldText <$> fields) ∧ nested (body fields).
Proof.
  intros (_ & _ & Hf). split.
  - apply Forall_fmap. apply (Forall_impl _ _ _ Hf). intros f [Hk Hv]. by apply field_part.
  - apply nested_concat; [done|]. apply Forall_fmap. apply (Forall_impl _ _ _ Hf). intros f [Hk Hv]. by apply field_part.
Qed.

Lemma body_nonempty fields : fields_ok fields → body fields ≠ "".
Proof.
  intros Hok. pose proof (body_parts fields Hok) as [Hp _]. destruct Hok as (Hne & _). unfold body. destruct fields as [|f l]; [done|]. cbn [fmap list_fmap] in Hp |- *.
  apply Forall_cons in Hp as [[Hf _] _]. destruct l as [|g l]; [done|]. cbn [fmap list_fmap String.concat]. destruct (fieldText f) as [|c x]; [done|]. by rewrite CryptoFacts.append_cons.
Qed.

Lemma object_value name fields : key name = true → fields_ok fields → value (object name fields) ∧ part "," (object name fields).
Proof.
  intros (Hne & Hf & Hs & Hc & _)%key_facts Hok. destruct (body_parts fields Hok) as [_ Hb]. unfold object.
  assert (name +:+ "{" +:+ body fields +:+ "}" ≠ "") as Hno by (destruct name as [|c n]; [done|]; by rewrite CryptoFacts.append_cons).
  assert (∀ sep, neutral sep = true → contains_char name sep = false → scan sep 0 0 (name +:+ "{" +:+ body fields +:+ "}") = Some (0, 0)) as Hscan.
  { intros sep Hn Hns. rewrite scan_app, scan_flat by done. by apply scan_open. }
  split; [split; [split|]|split]; [done|by apply Hscan|apply nested_app; [by apply nested_flat|by apply nested_open]|done|by apply Hscan].
Qed.

Lemma list_value items : Forall nested items → value ("[" +:+ String.concat "," items +:+ "]").
Proof. intros Hi. assert (nested (String.concat "," items)) as Hn by (by apply nested_concat). split; [split; [done|by apply scan_open]|by apply nested_open]. Qed.

(** *** Parsing *)

Lemma dropLast_app s c : dropLast (s +:+ String c "") = s.
Proof.
  induction s as [|d s IH]; [done|]. rewrite CryptoFacts.append_cons. cbn [dropLast]. rewrite IH. destruct (s +:+ String c "") as [|e t] eqn:E; [|done].
  destruct s as [|a s]; rewrite ?CryptoFacts.append_cons, ?FieldFacts.append_nil_l in E; discriminate E.
Qed.

Lemma object_body name fields : fields_ok fields → objectBody (object name fields) name = Ok (body fields).
Proof.
  intros Hok. pose proof (body_nonempty fields Hok) as Hne. unfold objectBody, object. rewrite <- string_app_assoc at 1. rewrite FieldFacts.strip_app.
  assert (empty_string (body fields +:+ "}") = false) as -> by (destruct (body fields) as [|c x]; [done|]; by rewrite CryptoFacts.append_cons).
  rewrite dropLast_app, (nonempty_string _ Hne). rewrite <- !string_app_assoc, BlockFacts.back_app by done. done.
Qed.

(** The value of the first field with a name. *)
Fixpoint assoc (k : string) (fields : list (string * string)) : option string :=
  match fields with [] => None | f :: fields => if String.eqb k f.1 then Some f.2 else assoc k fields end.

Definition collect (fields : list (string * string)) (m : gmap string string) : gmap string string := foldl (λ m f, <[f.1 := f.2]> m) m fields.

Lemma assoc_None k fields : k ∉ fields.*1 → assoc k fields = None.
Proof.
  induction fields as [|f l IH]; [done|]. rewrite fmap_cons, not_elem_of_cons. intros [Hne Hl]. cbn [assoc]. destruct (String.eqb_spec k f.1); [done|]. by apply IH.
Qed.

Lemma collect_lookup fields : ∀ m k, NoDup fields.*1 → collect fields m !! k = match assoc k fields with Some v => Some v | None => m !! k end.
Proof.
  induction fields as [|f l IH]; intros m k; [done|]. rewrite fmap_cons. intros [Hf Hl]%NoDup_cons. cbn [collect foldl assoc]. fold (collect l (<[f.1:=f.2]> m)). rewrite IH by done.
  destruct (String.eqb_spec k f.1) as [->|Hne]; [by rewrite (assoc_None _ _ Hf), lookup_insert_eq|]. by rewrite lookup_insert_ne by done.
Qed.

Lemma parse_field typeName f : key f.1 = true → value f.2 → parseField typeName (fieldText f) = Ok (f.1, f.2).
Proof.
  intros (Hne & _ & _ & _ & Heq)%key_facts [[Hv _] _]. unfold parseField, fieldText. change ("=" +:+ f.2) with (String "=" f.2). rewrite Text.split_at_app by done.
  by rewrite (nonempty_string _ Hne), (nonempty_string _ Hv).
Qed.

Lemma parse_fields typeName fields : ∀ m, NoDup fields.*1 → (∀ f, f ∈ fields → m !! f.1 = None) → Forall (λ f, key f.1 = true ∧ value f.2) fields →
  parseFields typeName m (fieldText <$> fields) = Ok (collect fields m).
Proof.
  induction fields as [|f l IH]; intros m Hnd Hm Hf; [done|]. rewrite !fmap_cons in *. apply NoDup_cons in Hnd as [Hfn Hnd]. apply Forall_cons in Hf as [[Hk Hv] Hf].
  cbn [parseFields]. rewrite parse_field by done. cbn [mbind result_bind fst snd]. rewrite (Hm f) by left. cbn [collect foldl]. apply IH; [done| |done].
  intros g Hg. rewrite lookup_insert_ne; [apply Hm; by right|]. intros E. apply Hfn. rewrite E. by apply list_elem_of_fmap_2.
Qed.

Lemma parse_object w name fields : fields_ok fields → parseObjectFields w (object name fields) name = Ok (collect fields ∅).
Proof.
  intros Hok. unfold parseObjectFields. rewrite object_body by done. cbn [mbind result_bind]. unfold body.
  destruct (body_parts fields Hok) as [Hp _]. destruct Hok as (Hne & Hnd & Hf). rewrite split_concat; [|done| |done].
  - cbn [mbind result_bind]. apply parse_fields; [done| |done]. intros f _. apply lookup_empty.
  - by destruct fields.
Qed.

Lemma checkEach_Ok f l : (∀ x, x ∈ l → f x = Ok tt) → checkEach f l = Ok tt.
Proof. induction l as [|x l IH]; intros Hl; [done|]. cbn [checkEach]. rewrite Hl by left. cbn [mbind result_bind]. apply IH. intros y Hy. apply Hl. by right. Qed.

Lemma require_exact fields expected typeName : NoDup fields.*1 → (∀ k, k ∈ expected ↔ k ∈ fields.*1) → requireExactFields (collect fields ∅) expected typeName = Ok tt.
Proof.
  intros Hnd He. assert (∀ k, is_Some (collect fields ∅ !! k) ↔ k ∈ fields.*1) as Hl.
  { intros k. rewrite collect_lookup by done. rewrite lookup_empty. clear He Hnd. induction fields as [|f l IH]; cbn [assoc]; [split; [by intros []|by intros ?%elem_of_nil]|].
    rewrite fmap_cons, elem_of_cons. destruct (String.eqb_spec k f.1) as [->|Hne]; [split; [by left|by eexists]|]. rewrite IH. split; [by right|by intros [?|?]]. }
  unfold requireExactFields. match goal with |- mbind _ ?x = _ => assert (x = Ok tt) as -> end.
  - apply checkEach_Ok. intros k Hk. rewrite merge_sort_Permutation in Hk. apply He, Hl in Hk as [v Hv]. rewrite Hv. by rewrite bool_decide_eq_false_2.
  - cbn [mbind result_bind]. apply checkEach_Ok. intros k Hk. rewrite bool_decide_eq_false_2; [done|]. intros Hne. apply Hne, He, Hl.
    apply list_elem_of_fmap in Hk as ([k' v] & -> & Hk%elem_of_entries). by eexists.
Qed.

Lemma require_field fields k typeName v : NoDup fields.*1 → assoc k fields = Some v → requireField (collect fields ∅) k typeName = Ok v.
Proof. intros Hnd Ha. unfold requireField. by rewrite collect_lookup, Ha. Qed.

Lemma u64_text w z name : u64 z → parseU64Strict w (to_string z) name = Ok z.
Proof.
  intros Hz. pose proof Hz as [H0 _]. destruct (Text.to_string_digits z H0) as [Hd Hne]. unfold parseU64Strict. rewrite (nonempty_string _ Hne), Hd, Text.stoull_to_string by done.
  cbn [throw_if negb mbind result_bind]. unfold FieldText.number_rest. destruct (to_string z) as [|c s]; [done|]. cbn [all_chars] in Hd. pose proof Hd as [Hc _]%andb_true_iff.
  rewrite RecordFacts.skip_spaces_digit by done. cbn [snd]. by rewrite RecordFacts.digits_rest_all.
Qed.

Lemma i64_text z name : 0 ≤ z ≤ i64_max → parseI64Strict (to_string z) name = Ok z.
Proof.
  intros Hz. destruct (Text.to_string_digits z) as [Hd Hne]; [lia|]. destruct (RecordFacts.stoll_to_string z Hz) as [Es Er]. unfold parseI64Strict. rewrite (nonempty_string _ Hne), Es, Er.
  assert (signedDigits (to_string z) = true) as ->; [|done]. destruct (to_string z) as [|c [|d s]]; [done|done|]. cbn [signedDigits]. destruct (Ascii.eqb_spec c "-") as [->|]; [|done].
  cbn [all_chars] in Hd. by apply andb_true_iff in Hd as [Hd _].
Qed.

Lemma number_value z : 0 ≤ z → value (to_string z).
Proof.
  intros Hz. destruct (Text.to_string_digits z Hz) as [Hd Hne]. destruct (RecordFacts.digits_plain z) as [Hp _]. apply plain_value; [done| |].
  - apply (all_chars_impl _ neutral _) in Hd; [done|]. intros c Hc. destruct c as [[] [] [] [] [] [] [] []]; vm_compute in Hc; try discriminate; done.
  - apply (Text.all_chars_contains _ _ _ Hd). reflexivity.
Qed.
End ObjectFacts.

(** ** Facts about votes as text *)

Module VoteTextFacts.
Import SafeScalar ObjectText ObjectFacts.

Lemma hex_value s : s ≠ "" → all_chars Hex.is_hex_char s = true → value s.
Proof.
  intros Hne Hs. apply plain_value; [done| |].
  - apply (all_chars_impl _ neutral _) in Hs; [done|]. intros c Hc. destruct c as [[] [] [] [] [] [] [] []]; vm_compute in Hc; try discriminate; done.
  - apply (Text.all_chars_contains _ _ _ Hs). reflexivity.
Qed.

(** A key of the validators' algorithm. *)
Definition bls_key (k : PublicKey) : Prop := PublicKey.isValid k = true ∧ PublicKey.algorithm k = BLS12_381.

Lemma bls_material k : bls_key k → value (PublicKey.keyMaterial k).
Proof.
  intros [Hv Ha]. unfold PublicKey.isValid in Hv. destruct (empty_string (PublicKey.keyMaterial k)) eqn:E; [done|]. rewrite Ha in Hv.
  rewrite bool_decide_eq_false_2, bool_decide_eq_true_2 in Hv by done. apply hex_value; [by destruct (PublicKey.keyMaterial k)|].
  unfold Hex.hasHexByteSize, Hex.isHexString in Hv. apply andb_true_iff in Hv as [_ Hv]. by destruct (_ || _).
Qed.

(** The goals of a list of fields with literal names: one per value. *)
Ltac solve_fields :=
  split_and!; [done|apply (bool_decide_unpack _); vm_compute; exact I|];
  repeat (apply Forall_cons; split; [split; [reflexivity|cbn [fst snd]]|]); try by apply Forall_nil.

Definition key_fields (k : PublicKey) : list (string * string) := [("algorithm", cryptoAlgorithmToString (PublicKey.algorithm k)); ("keyMaterial", PublicKey.keyMaterial k)].

Lemma key_object k : PublicKey.serialize k = object "PublicKey" (key_fields k).
Proof. unfold PublicKey.serialize, object, body, key_fields, fieldText. cbn [fmap list_fmap String.concat fst snd]. rewrite !string_app_assoc. reflexivity. Qed.

Lemma key_fields_ok k : bls_key k → fields_ok (key_fields k).
Proof.
  intros Hk. pose proof (bls_material k Hk) as Hm. destruct Hk as [_ Ha]. unfold key_fields. rewrite Ha. solve_fields; [by apply scalar_value|done].
Qed.

(** Reads the fields of an object that was just parsed. *)
Ltac read_fields fields Hok :=
  rewrite (parse_object _ _ fields Hok); cbn [mbind result_bind]; destruct Hok as (_ & Hnd & _);
  rewrite (require_exact fields _ _ Hnd) by (intros ?; reflexivity); cbn [mbind result_bind]; cbv zeta;
  repeat (erewrite (require_field fields _ _ _ Hnd) by reflexivity; cbn [mbind result_bind fst snd]).

Lemma algorithm_text a : cryptoAlgorithmFromString (cryptoAlgorithmToString a) = Ok a ∧ value (cryptoAlgorithmToString a).
Proof. split; [by destruct a|]. apply scalar_value. by destruct a. Qed.

Lemma key_text k : bls_key k → VoteText.parsePublicKey (PublicKey.serialize k) = Ok k.
Proof.
  intros Hk. pose proof (key_fields_ok k Hk) as Hok. destruct Hk as [Hv Ha]. unfold VoteText.parsePublicKey. rewrite key_object at 1. read_fields (key_fields k) Hok.
  rewrite (proj1 (algorithm_text _)). cbn [mbind result_bind]. rewrite String.eqb_refl. cbn [negb throw_if mbind result_bind]. change (PublicKey.mk _ _) with (PublicKey.mk (PublicKey.algorithm k) (PublicKey.keyMaterial k)).
  destruct k as [a m]. cbn [PublicKey.algorithm PublicKey.keyMaterial] in *. by rewrite Hv, String.eqb_refl.
Qed.

Lemma public_key_value k : bls_key k → value (PublicKey.serialize k).
Proof. intros Hk. rewrite key_object. by apply object_value; [|apply key_fields_ok]. Qed.

Lemma domain_text d : signingDomainFromString (signingDomainToString d) = d ∧ value (signingDomainToString d).
Proof. split; [by destruct d|]. apply scalar_value. by destruct d. Qed.

(** A signature that the wire carries: valid, by a key of the validators' algorithm. *)
Definition wire_signature (s : Signature) : Prop := Signature.isValid s = true ∧ bls_key (Signature.publicKey s) ∧ Signature.createdAt s ≤ i64_max.

Lemma signature_parts s : Signature.isValid s = true → Signature.suite s = NODO_CRYPTO_SUITE_V1 ∧ Signature.domain s ≠ DOMAIN_UNKNOWN ∧ value (Signature.signatureHex s) ∧
  0 < Signature.createdAt s ∧ Signature.algorithm s = PublicKey.algorithm (Signature.publicKey s).
Proof.
  unfold Signature.isValid, isSupportedCryptoSuite. case_bool_decide; [|done]. cbn [negb]. case_bool_decide; [done|]. destruct (PublicKey.isValid _); [|done]. cbn [negb].
  unfold Signature.isSafeSignatureHex. destruct (empty_string (Signature.signatureHex s)) eqn:Ee; [done|]. destruct (all_chars Hex.is_hex_char _) eqn:Eh; [|done]. cbn [negb].
  destruct (Signature.createdAt s <=? 0) eqn:Ec; [done|]. case_bool_decide; [|done]. intros _. split_and!; [done|done| |lia|done].
  apply hex_value; [by destruct (Signature.signatureHex s)|done].
Qed.

Definition signature_fields (s : Signature) : list (string * string) :=
  [("suite", cryptoSuiteIdToString (Signature.suite s)); ("domain", signingDomainToString (Signature.domain s));
   ("algorithm", cryptoAlgorithmToString (Signature.algorithm s)); ("publicKey", PublicKey.serialize (Signature.publicKey s));
   ("signatureHex", Signature.signatureHex s); ("createdAt", to_string (Signature.createdAt s))].

Lemma signature_object s : Signature.serialize s = object "Signature" (signature_fields s).
Proof. unfold Signature.serialize, object, body, signature_fields, fieldText. cbn [fmap list_fmap String.concat fst snd]. rewrite !string_app_assoc. reflexivity. Qed.

Lemma signature_fields_ok s : wire_signature s → fields_ok (signature_fields s).
Proof.
  intros (Hv & Hk & _). destruct (signature_parts s Hv) as (Es & _ & Hh & Hc & _). unfold signature_fields. rewrite Es.
  solve_fields; [by apply scalar_value|apply domain_text|apply algorithm_text|by apply public_key_value|done|apply number_value; lia].
Qed.

Lemma signature_text s : wire_signature s → VoteText.parseSignature (Signature.serialize s) (Signature.publicKey s) = Ok s.
Proof.
  intros Hs. pose proof (signature_fields_ok s Hs) as Hok. destruct Hs as (Hv & Hk & Hmax). destruct (signature_parts s Hv) as (Es & Hd & Hh & Hc & Ha).
  unfold VoteText.parseSignature. rewrite signature_object at 1. read_fields (signature_fields s) Hok.
  rewrite (proj1 (algorithm_text _)). cbn [mbind result_bind]. rewrite String.eqb_refl. cbn [negb throw_if mbind result_bind].
  rewrite Es. change (cryptoSuiteIdFromString (cryptoSuiteIdToString NODO_CRYPTO_SUITE_V1)) with NODO_CRYPTO_SUITE_V1. change (isSupportedCryptoSuite NODO_CRYPTO_SUITE_V1) with true. rewrite (proj1 (domain_text _)), (key_text _ Hk), i64_text by lia. cbn [mbind result_bind].
  rewrite !(bool_decide_eq_false_2 (_ = DOMAIN_UNKNOWN)) by done. rewrite Ha, bool_decide_eq_true_2 by done. rewrite String.eqb_refl. cbn [negb orb throw_if mbind result_bind].
  destruct s as [su d al k h c]. cbn [Signature.suite Signature.domain Signature.algorithm Signature.publicKey Signature.signatureHex Signature.createdAt] in *. subst su al.
  rewrite Hv, String.eqb_refl. done.
Qed.

(** A vote that the wire carries: structurally valid and signed once, by its own key; the
    numbers are in the range of their types. *)
Record wire_vote `{Sha256} (v : ValidatorVoteRecord) : Prop := {
  wire_structure : ∃ policy, Vote.isStructurallyValid v policy = Ok true;
  wire_signed : ∃ s, Vote.signatureBundle v = [s] ∧ Signature.publicKey s = Vote.validatorPublicKey v ∧ Signature.createdAt s ≤ i64_max;
  wire_numbers : u64 (Vote.blockIndex v) ∧ u64 (Vote.round v) ∧ Vote.createdAt v ≤ i64_max;
}.

Section votes.
Context `{Hsha : Sha256Spec}.

Lemma structure_parts v policy : Vote.isStructurallyValid v policy = Ok true →
  isSafeScalar (Vote.validatorAddress v) = true ∧ isSafeScalar (Vote.blockHash v) = true ∧ isSafeScalar (Vote.previousHash v) = true ∧ isSafeScalar (Vote.reasonHash v) = true ∧
  PublicKey.isValid (Vote.validatorPublicKey v) = true ∧ 0 < Vote.createdAt v ∧ Vote.decision v ≠ DECISION_UNKNOWN ∧
  SignatureBundle.isValidForPolicy (Vote.signatureBundle v) policy VALIDATOR_OPERATION = true.
Proof.
  unfold Vote.isStructurallyValid. destruct (isSafeScalar (Vote.validatorAddress v)); [|done]. destruct (isSafeScalar (Vote.blockHash v)); [|done].
  destruct (isSafeScalar (Vote.previousHash v)); [|done]. destruct (isSafeScalar (Vote.reasonHash v)); [|done]. cbn [negb orb]. destruct (PublicKey.isValid _); [|done]. cbn [negb].
  intros E. apply bind_Ok in E as ([] & _ & E); [|done]. cbn [negb] in E. destruct (_ || _ || (Vote.createdAt v <=? 0)) eqn:En; [done|]. case_bool_decide as Hd; [done|]. case_bool_decide; [done|].
  destruct (SignatureBundle.isValidForPolicy _ _ _) eqn:Ep; [|done]. apply orb_false_iff in En as [_ En]. split_and!; try done. lia.
Qed.

Lemma wire_vote_signature v : wire_vote v → ∃ s, Vote.signatureBundle v = [s] ∧ Signature.publicKey s = Vote.validatorPublicKey v ∧ wire_signature s ∧ bls_key (Vote.validatorPublicKey v).
Proof.
  intros [[policy Hst] (s & Eb & Ek & Hmax) _]. destruct (structure_parts v policy Hst) as (_ & _ & _ & _ & Hkv & _ & _ & Hp). rewrite Eb in Hp.
  unfold SignatureBundle.isValidForPolicy in Hp. rewrite bool_decide_eq_false_2 in Hp by done. cbn [forallb] in Hp. rewrite andb_true_r in Hp. destruct (Signature.isValid s) eqn:Hv; [|done]. cbn [negb] in Hp.
  destruct (isAlgorithmAllowed policy (Signature.algorithm s) VALIDATOR_OPERATION) eqn:Ha; [|done]. exists s.
  destruct (signature_parts s Hv) as (_ & _ & _ & _ & Eal). assert (Signature.algorithm s = BLS12_381) as Eb12.
  { revert Ha. unfold isAlgorithmAllowed, isDevelopmentOnlyAlgorithm. destruct (Signature.algorithm s); done. }
  assert (bls_key (Vote.validatorPublicKey v)) as Hb by (split; [done|congruence]).
  split; [done|]. split; [done|]. split; [|done]. split; [done|]. split; [by rewrite Ek|done].
Qed.

Definition vote_fields (v : ValidatorVoteRecord) : list (string * string) :=
  [("validatorAddress", Vote.validatorAddress v); ("validatorPublicKey", PublicKey.serialize (Vote.validatorPublicKey v));
   ("validatorPublicKeyFingerprint", PublicKey.fingerprint (Vote.validatorPublicKey v)); ("blockIndex", to_string (Vote.blockIndex v));
   ("blockHash", Vote.blockHash v); ("previousHash", Vote.previousHash v); ("round", to_string (Vote.round v));
   ("decision", validatorVoteDecisionToString (Vote.decision v)); ("reasonHash", Vote.reasonHash v); ("createdAt", to_string (Vote.createdAt v));
   ("signatureBundle", SignatureBundle.serialize (Vote.signatureBundle v))].

Lemma vote_object v : Vote.serialize v = object "ValidatorVoteRecord" (vote_fields v).
Proof. unfold Vote.serialize, object, body, vote_fields, fieldText. cbn [fmap list_fmap String.concat fst snd]. rewrite !string_app_assoc. reflexivity. Qed.

Lemma fingerprint_value k : value (PublicKey.fingerprint k).
Proof. apply scalar_value. unfold PublicKey.fingerprint. apply QuorumFacts.hash_scalar. Qed.

Lemma decision_text d : d ≠ DECISION_UNKNOWN → VoteText.parseVoteDecision (validatorVoteDecisionToString d) = Ok d ∧ value (validatorVoteDecisionToString d).
Proof. intros Hd. split; [by destruct d|]. apply scalar_value. by destruct d. Qed.

(** The bundle of one signature. *)
Lemma bundle_value s : wire_signature s → value (SignatureBundle.serialize [s]).
Proof.
  intros Hs. unfold SignatureBundle.serialize. cbn [fmap list_fmap String.concat]. rewrite signature_object.
  destruct (object_value "Signature" (signature_fields s) eq_refl (signature_fields_ok s Hs)) as [[_ Hn] _]. split; [split; [done|]|].
  - change "SignatureBundle{" with ("SignatureBundle" +:+ "{"). rewrite string_app_assoc, scan_app, scan_flat by done. by apply scan_open.
  - change "SignatureBundle{" with ("SignatureBundle" +:+ "{"). rewrite string_app_assoc. apply nested_app; [by apply nested_flat|]. by apply nested_open.
Qed.

Lemma bundle_text s : wire_signature s → VoteText.parseSignatureBundle (SignatureBundle.serialize [s]) (Signature.publicKey s) = Ok [s].
Proof.
  intros Hs. destruct (object_value "Signature" (signature_fields s) eq_refl (signature_fields_ok s Hs)) as [[Hp _] _]. rewrite <- signature_object in Hp. pose proof Hp as [Hne _].
  unfold VoteText.parseSignatureBundle. assert (objectBody (SignatureBundle.serialize [s]) "SignatureBundle" = Ok (Signature.serialize s)) as ->.
  { unfold objectBody, SignatureBundle.serialize. cbn [fmap list_fmap String.concat]. change ("SignatureBundle" +:+ "{") with "SignatureBundle{". rewrite FieldFacts.strip_app, dropLast_app.
    assert (empty_string (Signature.serialize s +:+ "}") = false) as -> by (destruct (Signature.serialize s) as [|c x]; [done|]; by rewrite CryptoFacts.append_cons).
    assert (FieldText.back ("SignatureBundle{" +:+ Signature.serialize s +:+ "}") = "}"%char) as -> by (rewrite <- string_app_assoc; by apply BlockFacts.back_app).
    by rewrite (nonempty_string _ Hne). }
  cbn [mbind result_bind]. change (Signature.serialize s) with (String.concat (String ";" "") [Signature.serialize s]) at 1.
  rewrite split_concat by (done || (apply Forall_singleton; done)). cbn [mbind result_bind VoteText.addSignatures]. rewrite (signature_text s Hs). cbn [mbind result_bind].
  unfold SignatureBundle.addSignature. rewrite (proj1 Hs). cbn [negb existsb app mbind result_bind]. by rewrite String.eqb_refl.
Qed.

Lemma vote_fields_ok v : wire_vote v → fields_ok (vote_fields v).
Proof.
  intros Hw. destruct (wire_vote_signature v Hw) as (s & Eb & Ek & Hs & Hk). destruct Hw as [[policy Hst] _ ([Hi0 _] & [Hr0 _] & _)].
  destruct (structure_parts v policy Hst) as (H1 & H2 & H3 & H4 & _ & H5 & H6 & _). unfold vote_fields. rewrite Eb.
  solve_fields; try (by apply scalar_value); try (apply number_value; lia); [by apply public_key_value|apply fingerprint_value|by apply decision_text|by apply bundle_value].
Qed.

Lemma vote_text v : wire_vote v → VoteText.deserialize (Vote.serialize v) = Ok v.
Proof.
  intros Hw. pose proof (vote_fields_ok v Hw) as Hok. destruct (wire_vote_signature v Hw) as (s & Eb & Ek & Hs & Hk). destruct Hw as [[policy Hst] _ (Hi & Hr & Hc)].
  destruct (structure_parts v policy Hst) as (_ & _ & _ & _ & _ & H5 & H6 & _). unfold VoteText.deserialize. rewrite vote_object at 1. read_fields (vote_fields v) Hok.
  rewrite (key_text _ Hk). cbn [mbind result_bind]. rewrite String.eqb_refl. cbn [negb throw_if mbind result_bind]. rewrite !u64_text, i64_text, (proj1 (decision_text _ H6)) by (done || lia).
  cbn [mbind result_bind]. rewrite Eb, <- Ek, (bundle_text s Hs). cbn [mbind result_bind]. rewrite Ek, <- Eb. destruct v. cbn in *. by rewrite String.eqb_refl.
Qed.
End votes.
End VoteTextFacts.

(** ** Facts about certificates, finalized records and evidence as text *)

Module CertificateTextFacts.
Import SafeScalar ObjectText ObjectFacts VoteTextFacts.

Section certificates.
Context `{Hsha : Sha256Spec}.

Record wire_certificate (c : QuorumCertificate) : Prop := {
  wire_valid : Certificate.isStructurallyValid c = Ok true;
  wire_votes : Forall wire_vote (Certificate.votes c);
  wire_weights : u64 (Certificate.blockIndex c) ∧ u64 (Certificate.round c) ∧ u64 (Certificate.requiredVotingWeight c) ∧ u64 (Certificate.totalVotingWeight c) ∧
    u64 (Certificate.signedVotingWeight c);
}.

Definition certificate_fields (c : QuorumCertificate) : list (string * string) :=
  [("blockIndex", to_string (Certificate.blockIndex c)); ("blockHash", Certificate.blockHash c); ("previousHash", Certificate.previousHash c);
   ("round", to_string (Certificate.round c)); ("requiredVotingWeight", to_string (Certificate.requiredVotingWeight c));
   ("totalVotingWeight", to_string (Certificate.totalVotingWeight c)); ("signedVotingWeight", to_string (Certificate.signedVotingWeight c));
   ("validatorSetRoot", Certificate.validatorSetRoot c); ("votes", "[" +:+ String.concat "," (Vote.serialize <$> Certificate.votes c) +:+ "]")].

Lemma certificate_object c : Certificate.serialize c = object "QuorumCertificate" (certificate_fields c).
Proof.
  unfold Certificate.serialize, object, body, certificate_fields, fieldText. cbn [fmap list_fmap String.concat fst snd]. rewrite !string_app_assoc.
  change ";votes=[" with (";" +:+ "votes" +:+ "=" +:+ "["). change "]}" with ("]" +:+ "}"). rewrite !string_app_assoc. reflexivity.
Qed.

Lemma certificate_scalars c : Certificate.isStructurallyValid c = Ok true →
  isSafeScalar (Certificate.blockHash c) = true ∧ isSafeScalar (Certificate.previousHash c) = true ∧ isSafeScalar (Certificate.validatorSetRoot c) = true ∧ Certificate.votes c ≠ [].
Proof.
  unfold Certificate.isStructurallyValid. destruct (_ || _ || _ || _ || _); [done|]. destruct (isSafeScalar (Certificate.blockHash c)); [|done].
  destruct (isSafeScalar (Certificate.previousHash c)); [|done]. destruct (isSafeScalar (Certificate.validatorSetRoot c)); [|done]. cbn [negb orb]. destruct (_ || _ || _); [done|].
  intros E. apply bind_Ok in E as (q & _ & E). destruct (negb _); [done|]. case_bool_decide; done.
Qed.

Lemma vote_nested v : wire_vote v → nested (Vote.serialize v) ∧ part "," (Vote.serialize v).
Proof. intros Hv. rewrite vote_object. destruct (object_value "ValidatorVoteRecord" (vote_fields v) eq_refl (vote_fields_ok v Hv)) as [[_ Hn] Hp]. done. Qed.

Lemma certificate_fields_ok c : wire_certificate c → fields_ok (certificate_fields c).
Proof.
  intros [Hv Hw ([H1 _] & [H2 _] & [H3 _] & [H4 _] & [H5 _])]. destruct (certificate_scalars c Hv) as (S1 & S2 & S3 & _). unfold certificate_fields.
  solve_fields; try (by apply scalar_value); try (apply number_value; lia). apply list_value, Forall_fmap. apply (Forall_impl _ _ _ Hw). intros v Hwv. by apply vote_nested.
Qed.

Lemma parse_each l : Forall wire_vote l → CertificateText.parseEach (Vote.serialize <$> l) = Ok l.
Proof.
  induction 1 as [|v l Hv Hl IH]; [done|]. rewrite fmap_cons. cbn [CertificateText.parseEach]. rewrite (vote_text v Hv). cbn [mbind result_bind]. by rewrite IH.
Qed.

Lemma votes_text l : l ≠ [] → Forall wire_vote l → CertificateText.parseVotes ("[" +:+ String.concat "," (Vote.serialize <$> l) +:+ "]") = Ok l.
Proof.
  intros Hne Hl. assert (Forall (part ",") (Vote.serialize <$> l)) as Hp by (apply Forall_fmap; apply (Forall_impl _ _ _ Hl); intros v Hv; by apply vote_nested).
  set (inner := String.concat "," (Vote.serialize <$> l)). assert (inner ≠ "") as Hin.
  { unfold inner. destruct l as [|v l]; [done|]. rewrite fmap_cons in Hp |- *. apply Forall_cons in Hp as [[Hv _] _]. destruct (Vote.serialize v) as [|c x]; [done|]. destruct l; [done|].
    rewrite fmap_cons. cbn [String.concat]. by rewrite CryptoFacts.append_cons. }
  rewrite CryptoFacts.append_cons, FieldFacts.append_nil_l. unfold CertificateText.parseVotes. destruct (inner +:+ "]") as [|c x] eqn:Ex.
  { destruct inner as [|c x]; [done|]. by rewrite CryptoFacts.append_cons in Ex. }
  rewrite <- Ex. assert (FieldText.back (String "[" (inner +:+ "]")) = "]"%char) as -> by (change (String "[" (inner +:+ "]")) with ("[" +:+ (inner +:+ "]")); rewrite <- string_app_assoc; by apply BlockFacts.back_app).
  rewrite dropLast_app, (nonempty_string _ Hin). change (Ascii.eqb "[" "[") with true. change (Ascii.eqb "]" "]") with true. cbn [negb orb throw_if mbind result_bind].
  unfold inner. change "," with (String "," ""). rewrite split_concat; [|done|by destruct l|done]. cbn [mbind result_bind]. by apply parse_each.
Qed.

Lemma certificate_text c : wire_certificate c → CertificateText.deserialize (Certificate.serialize c) = Ok c.
Proof.
  intros Hw. pose proof (certificate_fields_ok c Hw) as Hok. destruct Hw as [Hv Hvotes (H1 & H2 & H3 & H4 & H5)]. destruct (certificate_scalars c Hv) as (_ & _ & _ & Hne).
  unfold CertificateText.deserialize. rewrite certificate_object at 1. read_fields (certificate_fields c) Hok. rewrite !u64_text by done. cbn [mbind result_bind].
  rewrite votes_text by done. cbn [mbind result_bind]. destruct c. cbn [Certificate.blockIndex Certificate.blockHash Certificate.previousHash Certificate.round Certificate.requiredVotingWeight
    Certificate.totalVotingWeight Certificate.signedVotingWeight Certificate.validatorSetRoot Certificate.votes] in *. rewrite Hv. cbn [mbind result_bind negb throw_if]. by rewrite String.eqb_refl.
Qed.

(** *** Finalized records *)

Record wire_record (r : Finalized.t) : Prop := {
  record_valid : Finalized.isStructurallyValid r = Ok true;
  record_certificate : wire_certificate (Finalized.quorumCertificate r);
  record_numbers : u64 (Finalized.blockIndex r) ∧ u64 (Finalized.round r) ∧ Finalized.finalizedAt r ≤ i64_max;
}.

Definition record_fields (r : Finalized.t) : list (string * string) :=
  [("blockIndex", to_string (Finalized.blockIndex r)); ("blockHash", Finalized.blockHash r); ("previousHash", Finalized.previousHash r);
   ("round", to_string (Finalized.round r)); ("finalizedAt", to_string (Finalized.finalizedAt r));
   ("quorumCertificate", Certificate.serialize (Finalized.quorumCertificate r))].

Lemma record_object r : Finalized.serialize r = object "FinalizedBlockRecord" (record_fields r).
Proof. unfold Finalized.serialize, object, body, record_fields, fieldText. cbn [fmap list_fmap String.concat fst snd]. rewrite !string_app_assoc. reflexivity. Qed.

Lemma record_scalars r : Finalized.isStructurallyValid r = Ok true →
  isSafeScalar (Finalized.blockHash r) = true ∧ isSafeScalar (Finalized.previousHash r) = true ∧ 0 < Finalized.finalizedAt r.
Proof.
  unfold Finalized.isStructurallyValid. destruct (_ || _ || (Finalized.finalizedAt r <=? 0)) eqn:En; [done|]. apply orb_false_iff in En as [_ En].
  destruct (isSafeScalar (Finalized.blockHash r)); [|done]. destruct (isSafeScalar (Finalized.previousHash r)); [|done]. intros _. split_and!; [done|done|lia].
Qed.

Lemma certificate_value c : wire_certificate c → value (Certificate.serialize c).
Proof. intros Hc. rewrite certificate_object. by apply object_value; [|apply certificate_fields_ok]. Qed.

Lemma record_fields_ok r : wire_record r → fields_ok (record_fields r).
Proof.
  intros [Hv Hc ([H1 _] & [H2 _] & _)]. destruct (record_scalars r Hv) as (S1 & S2 & Ht). unfold record_fields.
  solve_fields; try (by apply scalar_value); try (apply number_value; lia). by apply certificate_value.
Qed.

Lemma record_text r : wire_record r → FinalizedText.deserialize (Finalized.serialize r) = Ok r.
Proof.
  intros Hw. pose proof (record_fields_ok r Hw) as Hok. destruct Hw as [Hv Hc (H1 & H2 & H3)]. destruct (record_scalars r Hv) as (_ & _ & Ht).
  unfold FinalizedText.deserialize. rewrite record_object at 1. read_fields (record_fields r) Hok. rewrite !u64_text, i64_text by (done || lia). cbn [mbind result_bind].
  rewrite certificate_text by done. cbn [mbind result_bind]. destruct r. cbn [Finalized.blockIndex Finalized.blockHash Finalized.previousHash Finalized.round Finalized.finalizedAt Finalized.quorumCertificate] in *.
  rewrite Hv. cbn [mbind result_bind negb throw_if]. by rewrite String.eqb_refl.
Qed.

(** *** Evidence *)

Definition evidence_fields (e : DoubleVote.t) : list (string * string) :=
  [("evidenceId", DoubleVote.evidenceId e); ("validatorAddress", DoubleVote.validatorAddress e); ("detectedAt", to_string (DoubleVote.detectedAt e));
   ("payloadHash", DoubleVote.payloadHash e); ("firstVote", Vote.serialize (DoubleVote.firstVote e)); ("secondVote", Vote.serialize (DoubleVote.secondVote e))].

Lemma evidence_object e : EvidenceText.serializeDoubleVote e = object "DoubleVoteEvidence" (evidence_fields e).
Proof. unfold EvidenceText.serializeDoubleVote, object, body, evidence_fields, fieldText. cbn [fmap list_fmap String.concat fst snd]. rewrite !string_app_assoc. reflexivity. Qed.

Lemma vote_value v : wire_vote v → value (Vote.serialize v).
Proof. intros Hv. rewrite vote_object. by apply object_value; [|apply vote_fields_ok]. Qed.

Lemma string_lt_asym a b : string_lt a b = true → string_lt b a = true → False.
Proof.
  unfold string_lt. rewrite !negb_true_iff, !bool_decide_eq_false. change (key_le ?x ?y) with (String.le x y). intros H1 H2. destruct (total String.le a b); auto.
Qed.

Lemma evidence_text v1 v2 at_ : wire_vote v1 → wire_vote v2 → at_ ≤ i64_max → let e := DoubleVote.make v1 v2 at_ in
  DoubleVote.isConflictPair e = true → EvidenceText.parseDoubleVote (EvidenceText.serializeDoubleVote e) = Ok e.
Proof.
  intros H1 H2 Hat e Hc. assert (DoubleVote.detectedAt e = at_ ∧ wire_vote (DoubleVote.firstVote e) ∧ wire_vote (DoubleVote.secondVote e) ∧
    DoubleVote.make (DoubleVote.firstVote e) (DoubleVote.secondVote e) at_ = e) as (Ea & Hw1 & Hw2 & Em).
  { unfold e, DoubleVote.make. destruct (string_lt (Vote.deterministicId v2) (Vote.deterministicId v1)) eqn:El; cbn [DoubleVote.detectedAt DoubleVote.firstVote DoubleVote.secondVote]; [|by rewrite El].
    split_and!; [done..|]. destruct (string_lt (Vote.deterministicId v1) (Vote.deterministicId v2)) eqn:El'; [|done]. exfalso. exact (string_lt_asym _ _ El El'). }
  assert (0 < at_) as Hpos by (unfold DoubleVote.isConflictPair in Hc; rewrite Ea in Hc; lia).
  assert (isSafeScalar (DoubleVote.validatorAddress e) = true) as Haddr.
  { unfold DoubleVote.validatorAddress. rewrite Hc. destruct Hw1 as [[policy Hst] _ _]. by destruct (structure_parts _ policy Hst). }
  assert (fields_ok (evidence_fields e)) as Hok.
  { unfold evidence_fields. rewrite Ea. solve_fields; [|by apply scalar_value|apply number_value; lia|by apply scalar_value, QuorumFacts.hash_scalar|by apply vote_value|by apply vote_value].
    unfold DoubleVote.evidenceId. rewrite Hc. cbn [negb]. by apply scalar_value, QuorumFacts.hash_scalar. }
  unfold EvidenceText.parseDoubleVote. rewrite evidence_object at 1. read_fields (evidence_fields e) Hok. rewrite !vote_text, Ea, i64_text by (done || lia). cbn [mbind result_bind].
  rewrite Em, Hc, !String.eqb_refl. done.
Qed.

(** *** What an accepted text guarantees *)

Lemma signature_signer text k s : VoteText.parseSignature text k = Ok s → Signature.publicKey s = k ∧ Signature.isValid s = true.
Proof.
  unfold VoteText.parseSignature. intros E. repeat (apply bind_Ok in E as (? & ? & E)). cbv zeta in E. repeat (apply bind_Ok in E as (? & ? & E)).
  injection E as <-. split; [done|]. match goal with H : throw_if (_ || _) (invalid_argument "Serialized Signature is invalid or non-canonical.") = _ |- _ => apply throw_if_Ok, orb_false_iff in H as [H _]; by apply negb_false_iff in H end.
Qed.

Lemma bundle_signers k l : ∀ b b', Forall (λ s, Signature.publicKey s = k ∧ Signature.isValid s = true) b → VoteText.addSignatures k b l = Ok b' →
  Forall (λ s, Signature.publicKey s = k ∧ Signature.isValid s = true) b'.
Proof.
  induction l as [|text l IH]; intros b b' Hb E; cbn [VoteText.addSignatures] in E; [by injection E as <-|]. apply bind_Ok in E as (s & Hs & E).
  unfold SignatureBundle.addSignature in E. destruct (Signature.isValid s) eqn:Hv; [|done]. cbn [negb] in E. destruct (existsb _ b); [done|]. apply bind_Ok in E as (_ & _ & E).
  apply (IH (b ++ [s]) b'); [|done]. apply Forall_app_2; [done|]. apply Forall_singleton. by apply (signature_signer text).
Qed.

Lemma vote_accepted text v : VoteText.deserialize text = Ok v → Vote.serialize v = text ∧ Forall (λ s, Signature.publicKey s = Vote.validatorPublicKey v) (Vote.signatureBundle v).
Proof.
  unfold VoteText.deserialize. intros E. repeat (apply bind_Ok in E as (? & ? & E)). cbv zeta in E. repeat (apply bind_Ok in E as (? & ? & E)).
  injection E as <-. split.
  - match goal with H : throw_if (negb (String.eqb _ text)) _ = _ |- _ => apply throw_if_Ok, negb_false_iff, String.eqb_eq in H; done end.
  - cbn [Vote.signatureBundle Vote.validatorPublicKey]. match goal with H : VoteText.parseSignatureBundle _ _ = Ok ?b |- Forall _ ?b => rename H into Hb end.
    unfold VoteText.parseSignatureBundle in Hb. apply bind_Ok in Hb as (? & _ & Hb). apply bind_Ok in Hb as (parts & _ & Hb). apply bind_Ok in Hb as (b & Hb & Hb'). apply bind_Ok in Hb' as (_ & _ & Hb').
    injection Hb' as <-. apply bundle_signers in Hb; [|done]. apply (Forall_impl _ _ _ Hb). by intros s [? _].
Qed.

Lemma each_accepted l vs : CertificateText.parseEach l = Ok vs → Forall (λ v, Forall (λ s, Signature.publicKey s = Vote.validatorPublicKey v) (Vote.signatureBundle v)) vs.
Proof.
  revert vs. induction l as [|text l IH]; intros vs E; cbn [CertificateText.parseEach] in E; [by injection E as <-|]. apply bind_Ok in E as (v & Hv & E). apply bind_Ok in E as (vs' & Hvs & E).
  injection E as <-. constructor; [by apply (vote_accepted text)|by apply IH].
Qed.

Lemma certificate_accepted text c : CertificateText.deserialize text = Ok c → Certificate.serialize c = text ∧ Certificate.isStructurallyValid c = Ok true ∧
  Forall (λ v, Forall (λ s, Signature.publicKey s = Vote.validatorPublicKey v) (Vote.signatureBundle v)) (Certificate.votes c).
Proof.
  unfold CertificateText.deserialize. intros E. repeat (apply bind_Ok in E as (? & ? & E)). cbv zeta in E. repeat (apply bind_Ok in E as (? & ? & E)). injection E as <-.
  match goal with H : Certificate.isStructurallyValid _ = Ok ?b, H' : throw_if (negb ?b) _ = _ |- _ => apply throw_if_Ok, negb_false_iff in H'; subst b end.
  match goal with H : throw_if (negb (String.eqb _ text)) _ = _ |- _ => apply throw_if_Ok, negb_false_iff, String.eqb_eq in H end. split_and!; [done|done|]. cbn [Certificate.votes].
  match goal with H : CertificateText.parseVotes ?t = Ok _ |- _ => rename H into Hv; unfold CertificateText.parseVotes in Hv; destruct t as [|c' [|d t]]; [done|done|] end.
  apply bind_Ok in Hv as (_ & _ & Hv). destruct (empty_string _); [injection Hv as <-; constructor|]. apply bind_Ok in Hv as (parts & _ & Hv). by apply each_accepted in Hv.
Qed.

Lemma record_accepted text r : FinalizedText.deserialize text = Ok r → Finalized.serialize r = text ∧ Finalized.isStructurallyValid r = Ok true ∧
  Forall (λ v, Forall (λ s, Signature.publicKey s = Vote.validatorPublicKey v) (Vote.signatureBundle v)) (Certificate.votes (Finalized.quorumCertificate r)).
Proof.
  unfold FinalizedText.deserialize. intros E. repeat (apply bind_Ok in E as (? & ? & E)). cbv zeta in E. repeat (apply bind_Ok in E as (? & ? & E)). injection E as <-.
  match goal with H : Finalized.isStructurallyValid _ = Ok ?b, H' : throw_if (negb ?b) _ = _ |- _ => apply throw_if_Ok, negb_false_iff in H'; subst b end.
  match goal with H : throw_if (negb (String.eqb _ text)) _ = _ |- _ => apply throw_if_Ok, negb_false_iff, String.eqb_eq in H end. split_and!; [done|done|]. cbn [Finalized.quorumCertificate].
  match goal with H : CertificateText.deserialize _ = Ok _ |- _ => by apply certificate_accepted in H as (_ & _ & H) end.
Qed.
End certificates.
End CertificateTextFacts.

(** ** Properties *)

Module ConsensusTextProperties.
Import ObjectText VoteTextFacts CertificateTextFacts.

Section properties.
Context `{Hsha : Sha256Spec}.

(** C15. The text of a finalized block record has one reading.  A record that is
    structurally valid, whose votes are signed once by their own key and whose numbers are
    in range is read back exactly from its text; and whatever text is accepted is the text
    of the record that is returned, which is structurally valid and in which every
    signature of every vote is by the key that the vote names. *)
Theorem finalized_text_roundtrip (r : Finalized.t) (text : string) :
  (wire_record r → FinalizedText.deserialize (Finalized.serialize r) = Ok r) ∧
  (FinalizedText.deserialize text = Ok r →
     Finalized.serialize r = text ∧ Finalized.isStructurallyValid r = Ok true ∧
     ∀ v s, v ∈ Certificate.votes (Finalized.quorumCertificate r) → s ∈ Vote.signatureBundle v → Signature.publicKey s = Vote.validatorPublicKey v).
Proof.
  split; [apply record_text|]. intros E. destruct (record_accepted text r E) as (Es & Hv & Hf). split_and!; [done|done|].
  intros v s Hvv Hs. rewrite Forall_forall in Hf. pose proof (Hf v Hvv) as Hfv. rewrite Forall_forall in Hfv. by apply Hfv.
Qed.

(** The text of double-vote evidence is read back exactly: two conflicting votes that
    are structurally valid and signed once by their own key give, whatever their order,
    evidence that [deserialize] reads from its text. *)
Theorem evidence_text_roundtrip (v1 v2 : ValidatorVoteRecord) (detectedAt : Z) :
  wire_vote v1 → wire_vote v2 → detectedAt ≤ i64_max → let e := DoubleVote.make v1 v2 detectedAt in
  DoubleVote.isConflictPair e = true → EvidenceText.parseDoubleVote (EvidenceText.serializeDoubleVote e) = Ok e.
Proof. apply evidence_text. Qed.
End properties.

(** *** Witnesses *)

#[local] Existing Instance StateTreeProperties.small_sha256.
#[local] Existing Instance StateTreeProperties.small_sha256_spec.

Definition the_key : PublicKey := PublicKey.mk BLS12_381 (String.concat "" (replicate 48 "ab")).
Definition the_signature : Signature := Signature.mk NODO_CRYPTO_SUITE_V1 DOMAIN_VALIDATOR_VOTE BLS12_381 the_key "aa" 1700000000.
Definition the_vote (hash previous : string) (decision : ValidatorVoteDecision) : ValidatorVoteRecord :=
  Vote.mk (FinalityProperties.address_of the_key) the_key 1 hash previous 1 decision "reason" 1700000000 [the_signature].
Definition the_set : ValidatorRegistry :=
  ValidatorFacts.run_all [ValidatorFacts.OpRegister (Registration.mk (FinalityProperties.address_of the_key) the_key 1 "meta" 1700000000) 2000000 "owner"] ∅.
Definition certificate_for (hash previous : string) : QuorumCertificate :=
  Certificate.mk 1 hash previous 1 1333334 2000000 2000000 (MerkleProperties.ok_or "" (Validators.validatorSetRoot the_set)) [the_vote hash previous PRECOMMIT].
Definition record_for (hash previous : string) : Finalized.t := Finalized.mk 1 hash previous 1 1700000001 (certificate_for hash previous).

Lemma the_vote_valid decision : decision ≠ DECISION_UNKNOWN → Vote.isStructurallyValid (the_vote "block" "parent" decision) QuorumProperties.policy = Ok true.
Proof. intros Hd. destruct decision; try done; vm_compute; reflexivity. Qed.

Lemma the_vote_wire decision : decision ≠ DECISION_UNKNOWN → wire_vote (the_vote "block" "parent" decision).
Proof.
  intros Hd. split; [exists QuorumProperties.policy; by apply the_vote_valid|exists the_signature; split_and!; [done|done|vm_compute; discriminate]|]. unfold u64. cbn. unfold u64_max, i64_max. lia.
Qed.

Lemma the_record_valid : Finalized.isStructurallyValid (record_for "block" "parent") = Ok true.
Proof. vm_compute. reflexivity. Qed.

Lemma the_certificate_valid : Certificate.isStructurallyValid (certificate_for "block" "parent") = Ok true.
Proof. vm_compute. reflexivity. Qed.

Lemma finalized_text_roundtrip_witness : FinalizedText.deserialize (Finalized.serialize (record_for "block" "parent")) = Ok (record_for "block" "parent").
Proof.
  apply (proj1 (finalized_text_roundtrip (record_for "block" "parent") "")). split; [exact the_record_valid| |].
  - split; [exact the_certificate_valid|apply Forall_singleton; apply the_vote_wire; discriminate|]. unfold u64. cbn. unfold u64_max. lia.
  - unfold u64. cbn. unfold u64_max, i64_max. lia.
Defined.

Lemma the_conflict : DoubleVote.isConflictPair (DoubleVote.make (the_vote "block" "parent" PREVOTE) (the_vote "block" "parent" PRECOMMIT) 9) = true.
Proof. vm_compute. reflexivity. Qed.

Lemma evidence_text_roundtrip_witness :
  let e := DoubleVote.make (the_vote "block" "parent" PREVOTE) (the_vote "block" "parent" PRECOMMIT) 9 in EvidenceText.parseDoubleVote (EvidenceText.serializeDoubleVote e) = Ok e.
Proof.
  apply (evidence_text_roundtrip (the_vote "block" "parent" PREVOTE) (the_vote "block" "parent" PRECOMMIT) 9); [apply the_vote_wire; discriminate|apply the_vote_wire; discriminate|vm_compute; discriminate|exact the_conflict].
Defined.
End ConsensusTextProperties.
