(* ===== verification/LightClient.v ===== *)
(** * node: the light client protocol and the service that answers it

    Models src/src/node/LightClientProtocol.cpp (headers, account and transaction proofs
    and the verification of header chains) and src/src/node/LightClientService.cpp (the
    answers of a full node).  JSON text literals are produced by the nlohmann library, so
    [jsonString] is a parameter.  What the service reads from the running node (its
    network, chain, registries, validator sets, crypto context and accounts at the tip) is
    the record [Runtime].  A verification returns its verdict with the reason it writes;
    it throws where a call it does not guard throws. *)

From Stdlib Require Import Ascii.
From S2P Require Import Prelude Utils CoinLots CoinLotTransfer Crypto LedgerState ValidatorRegistry Quorum Evidence Encoding Merkle Schedule Transactions StateTrees Blocks Finality ConsensusText.

(** ** Headers *)

Module Header.
Record t := mk {
  networkName : string; chainId : string; genesisConfigId : string; height : Z; blockHash : string; previousHash : string; stateRoot : string;
  receiptsRoot : string; timestamp : Z; headerPayload : string; validatorSetRoot : string; finalizedRecord : string; quorumCertificate : string;
}.

Definition isValid (h : t) : bool :=
  negb (empty_string (networkName h)) && negb (empty_string (chainId h)) && negb (empty_string (genesisConfigId h)) && negb (empty_string (blockHash h)) &&
  negb (empty_string (previousHash h)) && negb (empty_string (headerPayload h)) && negb (empty_string (validatorSetRoot h)) &&
  negb (empty_string (finalizedRecord h)) && negb (empty_string (quorumCertificate h)) && (0 <? timestamp h).

Definition frontIs (c : ascii) (s : string) : bool := match s with String d _ => Ascii.eqb d c | EmptyString => false end.

Section header.
Context `{Sha256}.

(** The block of [headerHashMatches] that may throw. *)
Definition payloadMatches (h : t) : result bool :=
  count ← FieldText.extractField (headerPayload h) "recordCount";
  root ← FieldText.extractField (headerPayload h) "recordsMerkleRoot";
  if negb (Block.isCanonicalCommitmentRoot root) || empty_string count || frontIs "0" count then Ok false
  else
    parsed ← Text.stoull count;
    if (parsed =? 0) || (Block.MAX_RECORDS <? parsed) || negb (String.eqb count (to_string parsed)) then Ok false
    else
      let expected := "BlockHeader{index=" +:+ to_string (height h) +:+ ";previousHash=" +:+ previousHash h +:+ ";timestamp=" +:+ to_string (timestamp h) +:+
        ";recordCount=" +:+ count +:+ ";recordsMerkleRoot=" +:+ root +:+ ";stateRoot=" +:+ stateRoot h +:+ ";receiptsRoot=" +:+ receiptsRoot h +:+ "}" in
      Ok (String.eqb expected (headerPayload h)).

Definition headerHashMatches (h : t) : bool :=
  if empty_string (headerPayload h) || negb (String.eqb (Hash.hashBytes (headerPayload h)) (blockHash h)) then false
  else match payloadMatches h with Ok b => b | Throw _ => false end.
End header.
End Header.

(** ** Proofs *)

Module AccountProof.
Record t := mk { header : Header.t; address : string; accountJson : string; accountRoot : string; proof : CoreMerkle.MerkleProof }.

Definition isValid (p : t) : bool :=
  Header.isValid (header p) && negb (empty_string (address p)) && negb (empty_string (accountJson p)) && negb (empty_string (accountRoot p)) &&
  CoreMerkle.isValid (proof p).

Definition verifies `{Sha256} (p : t) : bool :=
  isValid p && Header.headerHashMatches (header p) && CoreMerkle.verify (proof p) (accountRoot p).
End AccountProof.

Module TransactionProof.
Record t := mk { header : Header.t; transactionId : string; recordJson : string; recordsRoot : string; proof : CoreMerkle.MerkleProof; recordIndex : Z;
  serializedRecord : string }.

Definition isValid (p : t) : bool :=
  Header.isValid (header p) && negb (empty_string (transactionId p)) && negb (empty_string (recordJson p)) && negb (empty_string (recordsRoot p)) &&
  CoreMerkle.isValid (proof p) && (recordIndex p <? Block.MAX_RECORDS) && negb (empty_string (serializedRecord p)).
End TransactionProof.

(** ** JSON *)

Module Json.
(** A member name between its quotation marks. *)
Definition name (s : string) : string := String "034" (s +:+ String "034" "") .
Definition flag (b : bool) : string := if b then "true" else "false".

Section json.
Context `{Sha256}.
Variable jsonString : string → string.

Definition jsonError (message : string) : string := "{" +:+ name "error" +:+ ":" +:+ jsonString message +:+ "}".

(** [recordJson] of the service, which is also the text that [verifies] expects. *)
Definition recordJson (r : LedgerRecord.t) : string :=
  "{" +:+ name "id" +:+ ":" +:+ jsonString (LedgerRecord.id r) +:+ "," +:+ name "sourceId" +:+ ":" +:+ jsonString (LedgerRecord.sourceId r) +:+
  "," +:+ name "type" +:+ ":" +:+ jsonString (ledgerRecordTypeToString (LedgerRecord.type r)) +:+
  "," +:+ name "payloadHash" +:+ ":" +:+ jsonString (LedgerRecord.payloadHash r) +:+
  "," +:+ name "timestamp" +:+ ":" +:+ to_string (LedgerRecord.timestamp r) +:+ "}".

Definition accountJson (a : AccountState.t) : string :=
  "{" +:+ name "address" +:+ ":" +:+ jsonString (AccountState.address a) +:+ "," +:+ name "balance" +:+ ":" +:+ to_string (AccountState.balance a) +:+
  "," +:+ name "nonce" +:+ ":" +:+ to_string (AccountState.nonce a) +:+ "}".

Definition stepJson (s : CoreMerkle.MerkleProofStep) : string :=
  "{" +:+ name "siblingHash" +:+ ":" +:+ jsonString (CoreMerkle.siblingHash s) +:+ "," +:+ name "siblingIsLeft" +:+ ":" +:+ flag (CoreMerkle.siblingIsLeft s) +:+ "}".
Definition merkleProofJson (p : CoreMerkle.MerkleProof) : string :=
  "{" +:+ name "leafHash" +:+ ":" +:+ jsonString (CoreMerkle.leafHash p) +:+ "," +:+ name "reconstructedRoot" +:+ ":" +:+ jsonString (CoreMerkle.reconstructRoot p) +:+
  "," +:+ name "steps" +:+ ":[" +:+ String.concat "," (stepJson <$> CoreMerkle.steps p) +:+ "]}".

Definition headerJson (h : Header.t) : string :=
  "{" +:+ name "networkName" +:+ ":" +:+ jsonString (Header.networkName h) +:+ "," +:+ name "chainId" +:+ ":" +:+ jsonString (Header.chainId h) +:+
  "," +:+ name "genesisConfigId" +:+ ":" +:+ jsonString (Header.genesisConfigId h) +:+ "," +:+ name "height" +:+ ":" +:+ to_string (Header.height h) +:+
  "," +:+ name "blockHash" +:+ ":" +:+ jsonString (Header.blockHash h) +:+ "," +:+ name "previousHash" +:+ ":" +:+ jsonString (Header.previousHash h) +:+
  "," +:+ name "stateRoot" +:+ ":" +:+ jsonString (Header.stateRoot h) +:+ "," +:+ name "receiptsRoot" +:+ ":" +:+ jsonString (Header.receiptsRoot h) +:+
  "," +:+ name "timestamp" +:+ ":" +:+ to_string (Header.timestamp h) +:+ "," +:+ name "validatorSetRoot" +:+ ":" +:+ jsonString (Header.validatorSetRoot h) +:+
  "," +:+ name "headerPayload" +:+ ":" +:+ jsonString (Header.headerPayload h) +:+ "," +:+ name "quorumCertificate" +:+ ":" +:+ jsonString (Header.quorumCertificate h) +:+
  "," +:+ name "finalizedRecord" +:+ ":" +:+ jsonString (Header.finalizedRecord h) +:+ "," +:+ name "headerHashVerified" +:+ ":" +:+ flag (Header.headerHashMatches h) +:+ "}".

Definition accountProofJson (p : AccountProof.t) : string :=
  "{" +:+ name "header" +:+ ":" +:+ headerJson (AccountProof.header p) +:+ "," +:+ name "address" +:+ ":" +:+ jsonString (AccountProof.address p) +:+
  "," +:+ name "account" +:+ ":" +:+ AccountProof.accountJson p +:+ "," +:+ name "accountRoot" +:+ ":" +:+ jsonString (AccountProof.accountRoot p) +:+
  "," +:+ name "proof" +:+ ":" +:+ merkleProofJson (AccountProof.proof p) +:+ "," +:+ name "verified" +:+ ":" +:+ flag (AccountProof.verifies p) +:+ "}".
End json.
End Json.

(** ** Verification *)

Module Verifier.
Section verifier.
Context `{Sha256}.
Variable jsonString : string → string.

(** The block of [LightClientTransactionProof::verifies] that may throw. *)
Definition recordMatches (p : TransactionProof.t) : result bool :=
  let payload := Header.headerPayload (TransactionProof.header p) in
  root ← FieldText.extractField payload "recordsMerkleRoot";
  if negb (String.eqb root (TransactionProof.recordsRoot p)) then Ok false
  else
    countText ← FieldText.extractField payload "recordCount";
    count ← Text.stoull countText;
    if (count <=? TransactionProof.recordIndex p) ||
       negb (String.eqb (CoreMerkle.leafHash (TransactionProof.proof p))
                        (CoreMerkle.hashOrderedLeaf (TransactionProof.recordIndex p) (TransactionProof.serializedRecord p))) then Ok false
    else
      match LedgerRecord.deserialize (TransactionProof.serializedRecord p) with
      | None => Ok false
      | Some record =>
          if negb (String.eqb (LedgerRecord.id record) (TransactionProof.transactionId p)) &&
             negb (String.eqb (LedgerRecord.sourceId record) (TransactionProof.transactionId p)) then Ok false
          else Ok (String.eqb (Json.recordJson jsonString record) (TransactionProof.recordJson p))
      end.

Definition transactionVerifies (p : TransactionProof.t) : bool :=
  if negb (TransactionProof.isValid p) || negb (Header.headerHashMatches (TransactionProof.header p)) ||
     negb (CoreMerkle.verify (TransactionProof.proof p) (TransactionProof.recordsRoot p)) then false
  else match recordMatches p with Ok b => b | Throw _ => false end.

Definition transactionProofJson (p : TransactionProof.t) : string :=
  "{" +:+ Json.name "header" +:+ ":" +:+ Json.headerJson jsonString (TransactionProof.header p) +:+
  "," +:+ Json.name "transactionId" +:+ ":" +:+ jsonString (TransactionProof.transactionId p) +:+
  "," +:+ Json.name "record" +:+ ":" +:+ TransactionProof.recordJson p +:+
  "," +:+ Json.name "recordIndex" +:+ ":" +:+ to_string (TransactionProof.recordIndex p) +:+
  "," +:+ Json.name "serializedRecord" +:+ ":" +:+ jsonString (TransactionProof.serializedRecord p) +:+
  "," +:+ Json.name "recordsRoot" +:+ ":" +:+ jsonString (TransactionProof.recordsRoot p) +:+
  "," +:+ Json.name "proof" +:+ ":" +:+ Json.merkleProofJson jsonString (TransactionProof.proof p) +:+
  "," +:+ Json.name "verified" +:+ ":" +:+ Json.flag (transactionVerifies p) +:+ "}".
End verifier.

Section chains.
Context `{Sha256}.

(** The loop of [verifyHeaderChain] from position [i], after [previous]. *)
Fixpoint headersFrom (i : nat) (previous : option Header.t) (l : list Header.t) : bool * string :=
  match l with
  | [] => (true, "verified")
  | h :: l =>
      if negb (Header.isValid h) then (false, "invalid light-client header at index " +:+ to_string (Z.of_nat i))
      else if negb (Header.headerHashMatches h) then
        (false, "block hash does not match header payload at height " +:+ to_string (Header.height h))
      else
        let link :=
          match previous with
          | None => None
          | Some p =>
              if negb (Header.height h =? wrap64 (Header.height p + 1)) then Some "non-contiguous light-client header range"
              else if negb (String.eqb (Header.previousHash h) (Header.blockHash p)) then
                Some ("broken previous-hash link at height " +:+ to_string (Header.height h))
              else if negb (String.eqb (Header.chainId h) (Header.chainId p)) || negb (String.eqb (Header.genesisConfigId h) (Header.genesisConfigId p)) then
                Some "header range crosses network or genesis boundary"
              else None
          end in
        match link with Some reason => (false, reason) | None => headersFrom (S i) (Some h) l end
  end.

Definition verifyHeaderChain (headers : list Header.t) : bool * string :=
  match headers with [] => (false, "header range is empty") | _ => headersFrom 0 None headers end.

Definition verifyFinalizedHeader (h : Header.t) (registry : ValidatorRegistry) (policy : CryptoPolicy) (provider : SignatureProvider) : result (bool * string) :=
  let at_height := to_string (Header.height h) in
  if negb (Header.isValid h) || negb (Header.headerHashMatches h) then Ok (false, "invalid light-client header")
  else
    match FinalizedText.deserialize (Header.finalizedRecord h) with
    | Throw error => Ok (false, "malformed finalized record at height " +:+ at_height +:+ ": " +:+ what error)
    | Ok record =>
        match CertificateText.deserialize (Header.quorumCertificate h) with
        | Throw error => Ok (false, "malformed quorum certificate at height " +:+ at_height +:+ ": " +:+ what error)
        | Ok certificate =>
            if negb (String.eqb (Certificate.serialize certificate) (Certificate.serialize (Finalized.quorumCertificate record))) then
              Ok (false, "header quorum certificate does not match the certificate embedded in its finalized record at height " +:+ at_height)
            else if negb (String.eqb (Header.validatorSetRoot h) (Certificate.validatorSetRoot certificate)) then
              Ok (false, "header validator_set_root does not match the quorum certificate's validator_set_root at height " +:+ at_height)
            else if negb (Finalized.blockIndex record =? Header.height h) || negb (String.eqb (Finalized.blockHash record) (Header.blockHash h)) ||
                    negb (String.eqb (Finalized.previousHash record) (Header.previousHash h)) then
              Ok (false, "finalized record does not identify this header at height " +:+ at_height)
            else
              verified ← Finalized.verify record registry policy provider;
              if negb verified then Ok (false, "quorum certificate failed cryptographic verification at height " +:+ at_height)
              else Ok (true, "verified")
        end
    end.

(** The loop of [verifyFinalizedHeaderChain]. *)
Fixpoint finalizedFrom (history : SetHistory.t) (policy : CryptoPolicy) (provider : SignatureProvider) (l : list Header.t) : result (bool * string) :=
  match l with
  | [] => Ok (true, "verified")
  | h :: l =>
      if negb (SetHistory.hasSet history (Header.height h)) then
        Ok (false, "no recorded validator set for height " +:+ to_string (Header.height h))
      else
        validatorSet ← SetHistory.setAt history (Header.height h);
        verdict ← verifyFinalizedHeader h validatorSet policy provider;
        if negb verdict.1 then Ok verdict else finalizedFrom history policy provider l
  end.

Definition verifyFinalizedHeaderChain (headers : list Header.t) (history : SetHistory.t) (policy : CryptoPolicy) (provider : SignatureProvider) : result (bool * string) :=
  let chain := verifyHeaderChain headers in
  if negb chain.1 then Ok chain else finalizedFrom history policy provider headers.
End chains.
End Verifier.

(** ** The service *)

(** [ProtocolCryptoContext]: its policy and the provider for validator signatures, or the
    reason why it is not available. *)
Inductive CryptoContext := Available (policy : CryptoPolicy) (provider : SignatureProvider) | Unavailable (rejectionReason : string).

(** What the service reads from [NodeRuntime]. *)
Record Runtime := {
  networkName : string;
  chainId : string;
  genesisConfigId : string;
  blockchain : Blockchain.t;
  finalizationRegistry : FinalizationRegistry.t;
  validatorRegistry : ValidatorRegistry;
  validatorSetHistory : SetHistory.t;
  cryptoContext : CryptoContext;
  effectiveMinimumFeeRawUnits : Z;
  cachedAccountStateAtTip : Z → AccountStateView.t;
}.

Module Service.
Section service.
Context `{Sha256}.
Variable jsonString : string → string.

Definition minimumFeeForAccountView (rt : Runtime) : Z :=
  if i64_max <? effectiveMinimumFeeRawUnits rt then i64_max else effectiveMinimumFeeRawUnits rt.

Definition buildHeader (rt : Runtime) (b : Block.t) (r : Finalized.t) : result Header.t :=
  let certificate := Finalized.quorumCertificate r in
  root ← (if empty_string (Certificate.validatorSetRoot certificate) then Validators.validatorSetRoot (validatorRegistry rt)
          else Ok (Certificate.validatorSetRoot certificate));
  Ok (Header.mk (networkName rt) (chainId rt) (genesisConfigId rt) (Block.index b) (Block.hash b) (Block.previousHash b) (Block.stateRoot b) (Block.receiptsRoot b)
        (Block.timestamp b) (Block.headerPayload b) root (Finalized.serialize r) (Certificate.serialize certificate)).

Definition headerAt (rt : Runtime) (height : Z) : result (option Header.t) :=
  match Blockchain.blockByHeight height (blockchain rt) with
  | None => Ok None
  | Some b =>
      match FinalizationRegistry.recordForHeight (finalizationRegistry rt) height with
      | None => Ok None
      | Some r =>
          if negb (Finalized.matchesBlock r b) then Ok None
          else
            valid ← Finalized.isStructurallyValid r;
            if negb valid then Ok None else Some <$> buildHeader rt b r
      end
  end.

(** The loop of [headerRange]; at most [room] more headers are collected. *)
Fixpoint rangeFrom (rt : Runtime) (highest : Z) (room : nat) (height : Z) : result (list Header.t) :=
  match room with
  | O => Ok []
  | S room =>
      if highest <? height then Ok []
      else
        found ← headerAt rt height;
        match found with
        | None => Ok []
        | Some h =>
            if height =? u64_max then Ok [h]
            else rest ← rangeFrom rt highest room (height + 1); Ok (h :: rest)
        end
  end.

Definition headerRange (rt : Runtime) (fromHeight maxHeaders : Z) : result (list Header.t) :=
  rangeFrom rt (FinalizationRegistry.highestFinalizedHeight (finalizationRegistry rt)) (Z.to_nat (Z.min (Z.max maxHeaders 1) 512)) fromHeight.

Definition latestFinalizedHeader (rt : Runtime) : result (option Header.t) :=
  headerAt rt (FinalizationRegistry.highestFinalizedHeight (finalizationRegistry rt)).

Definition headersJson (rt : Runtime) (headers : list Header.t) : result string :=
  verdict ← match cryptoContext rt with
            | Available policy provider => Verifier.verifyFinalizedHeaderChain headers (validatorSetHistory rt) policy provider
            | Unavailable rejection =>
                Ok (false, "cryptographic verification unavailable (" +:+ rejection +:+ "); structural check only: " +:+ (Verifier.verifyHeaderChain headers).2)
            end;
  Ok ("{" +:+ Json.name "headers" +:+ ":[" +:+ String.concat "," (Json.headerJson jsonString <$> headers) +:+ "]," +:+ Json.name "count" +:+ ":" +:+
      to_string (Z.of_nat (length headers)) +:+ "," +:+ Json.name "verified" +:+ ":" +:+ Json.flag verdict.1 +:+ "," +:+ Json.name "reason" +:+ ":" +:+
      jsonString verdict.2 +:+ "}").

Definition checkpointJson (rt : Runtime) : result string :=
  found ← latestFinalizedHeader rt;
  match found with
  | None => Ok (Json.jsonError jsonString "No finalized light-client checkpoint is available.")
  | Some h =>
      verdict ← match cryptoContext rt with
                | Available policy provider =>
                    if SetHistory.hasSet (validatorSetHistory rt) (Header.height h) then
                      validatorSet ← SetHistory.setAt (validatorSetHistory rt) (Header.height h);
                      Verifier.verifyFinalizedHeader h validatorSet policy provider
                    else Ok (false, "no recorded validator set for checkpoint height " +:+ to_string (Header.height h))
                | Unavailable rejection => Ok (false, "cryptographic verification unavailable (" +:+ rejection +:+ ")")
                end;
      Ok ("{" +:+ Json.name "checkpoint" +:+ ":" +:+ Json.headerJson jsonString h +:+ "," +:+ Json.name "verified" +:+ ":" +:+ Json.flag verdict.1 +:+
          "," +:+ Json.name "reason" +:+ ":" +:+ jsonString verdict.2 +:+ "}")
  end.

Definition headerRangeJson (rt : Runtime) (fromHeight maxHeaders : Z) : result string :=
  headers ← headerRange rt fromHeight maxHeaders;
  if bool_decide (length headers = 0%nat) then
    Ok (Json.jsonError jsonString "No finalized light-client headers are available for requested range.")
  else headersJson rt headers.

(** The proof that [accountProofJson] prints, or the message of its error. *)
Definition accountProof (rt : Runtime) (address : string) : result (string + AccountProof.t) :=
  if empty_string address then Ok (inl "Missing address.")
  else
    found ← latestFinalizedHeader rt;
    match found with
    | None => Ok (inl "No finalized checkpoint is available for account proof.")
    | Some h =>
        let view := cachedAccountStateAtTip rt (minimumFeeForAccountView rt) in
        if negb (AccountStateView.hasAccount view address) then Ok (inl ("Address not present in current account state: " +:+ address))
        else
          proof ← StateRoot.accountInclusionProof view address;
          if negb (CoreMerkle.isValid proof) then Ok (inl ("Failed to build account inclusion proof: " +:+ address))
          else
            root ← StateRoot.calculateAccountStateRoot view;
            Ok (inr (AccountProof.mk h address (Json.accountJson jsonString (AccountStateView.accountOrDefault view address)) root proof))
    end.

Definition accountProofJson (rt : Runtime) (address : string) : result string :=
  answer ← accountProof rt address;
  Ok (match answer with inl message => Json.jsonError jsonString message | inr p => Json.accountProofJson jsonString p end).

(** The records of [l], at positions from [i], that have the id. *)
Fixpoint findRecord (transactionId : string) (i : nat) (l : list LedgerRecord.t) : option (nat * LedgerRecord.t) :=
  match l with
  | [] => None
  | r :: l =>
      if negb (String.eqb (LedgerRecord.id r) transactionId) && negb (String.eqb (LedgerRecord.sourceId r) transactionId) then findRecord transactionId (S i) l
      else Some (i, r)
  end.

Fixpoint findTransaction (transactionId : string) (l : list Block.t) : option (Block.t * nat * LedgerRecord.t) :=
  match l with
  | [] => None
  | b :: l =>
      match findRecord transactionId 0 (Block.records b) with Some (i, r) => Some (b, i, r) | None => findTransaction transactionId l end
  end.

Definition transactionProof (rt : Runtime) (transactionId : string) : result (string + TransactionProof.t) :=
  if empty_string transactionId then Ok (inl "Missing transaction id.")
  else
    match findTransaction transactionId (Blockchain.m_blocks (blockchain rt)) with
    | None => Ok (inl ("Transaction not found: " +:+ transactionId))
    | Some (b, i, r) =>
        found ← headerAt rt (Block.index b);
        match found with
        | None => Ok (inl "Transaction block is not finalized or lacks a QC.")
        | Some h =>
            let proof := CoreMerkle.buildOrderedMerkleProof (LedgerRecord.serialize <$> Block.records b) i in
            if negb (CoreMerkle.isValid proof) then Ok (inl "Failed to build transaction inclusion proof.")
            else Ok (inr (TransactionProof.mk h transactionId (Json.recordJson jsonString r) (Block.recordsRoot b) proof (Z.of_nat i) (LedgerRecord.serialize r)))
        end
    end.

Definition transactionProofJson (rt : Runtime) (transactionId : string) : result string :=
  answer ← transactionProof rt transactionId;
  Ok (match answer with inl message => Json.jsonError jsonString message | inr p => Verifier.transactionProofJson jsonString p end).
End service.
End Service.

(** ** Facts about headers *)

Module HeaderFacts.
Import SafeScalar FieldText FieldFacts RecordFacts.

(** Splits an equation of header texts at the end of its first field. *)
Ltac next_field E Eq :=
  lazymatch type of E with
  | _ +:+ (String ";" ?k +:+ _) = _ => change (String ";" k +:+ ?x) with (String ";" (k +:+ x)) in E; apply TransactionFacts.field_inj in E as [Eq E]; [|done..]; apply TreeFacts.prefix_inj in E
  end.

Section headers.
Context `{Hsha : Sha256Spec}.

Lemma header_joined b : Block.headerPayload b = joinEq (BlockFacts.header_parts b) (Block.receiptsRoot b +:+ "}").
Proof. unfold Block.headerPayload, BlockFacts.header_parts, joinEq. cbn [foldr app]. rewrite !string_app_assoc. reflexivity. Qed.

Lemma before_here v rest : contains_char v ";" = false → before ";" (v +:+ String ";" rest) = Some v.
Proof. intros Hv. unfold before. by rewrite Text.split_at_app. Qed.

Lemma extract_of k parts p v x more tail : k ≠ "" → noEq k → Forall (λ p, noEq p ∧ ends_with (String ";" k) p = false) parts → noEq p → ends_with (String ";" k) p = true →
  contains_char v ";" = false → extractField (joinEq (parts ++ p :: (v +:+ String ";" x) :: more) tail) k = Ok v.
Proof.
  intros Hne Hk Hf Hp He Hv. unfold extractField. rewrite (proj2 (empty_string_false k) Hne). cbn [throw_if mbind result_bind]. change (";" +:+ k +:+ "=") with (String ";" k +:+ String "=" "").
  rewrite (find_part (String ";" k) "" parts p _ tail ltac:(done) Hk Hf Hp He _ eq_refl). cbn [joinEq foldr]. by rewrite string_app_assoc, CryptoFacts.append_cons, before_here.
Qed.

(** The fields that [FieldCodec::extractField] reads from the payload of a block. *)
Lemma payload_reads b : plain_field (Block.previousHash b) = true → noEq (Block.previousHash b) →
  extractField (Block.headerPayload b) "recordCount" = Ok (to_string (Block.recordCount b)) ∧
  extractField (Block.headerPayload b) "recordsMerkleRoot" = Ok (Block.recordsRoot b).
Proof.
  intros Hp Ep. destruct (digits_plain (Block.index b)) as [H1 E1], (digits_plain (Block.timestamp b)) as [H2 E2], (digits_plain (Block.recordCount b)) as [H3 E3].
  destruct (BlockFacts.recordsRoot_hex b) as [(H4 & E4 & _)%hex_plain _]. rewrite header_joined. unfold BlockFacts.header_parts. split.
  - apply (extract_of "recordCount" ["BlockHeader{index"; _; _] _ _ "recordsMerkleRoot"); (part || done || by apply ChainFacts.plain_no).
  - apply (extract_of "recordsMerkleRoot" ["BlockHeader{index"; _; _; _] _ _ "stateRoot"); (part || done || by apply ChainFacts.plain_no).
Qed.

(** *** A header and the block with its hash *)

Fixpoint count (c : ascii) (s : string) : nat := match s with EmptyString => 0 | String d s => (if Ascii.eqb d c then 1 else 0) + count c s end.

Lemma count_app c a b : count c (a +:+ b) = (count c a + count c b)%nat.
Proof. induction a as [|d a IH]; [done|]. rewrite CryptoFacts.append_cons. cbn [count]. rewrite IH. lia. Qed.

Lemma count_0 c s : count c s = 0%nat ↔ contains_char s c = false.
Proof. induction s as [|d s IH]; cbn [count contains_char]; [done|]. destruct (Ascii.eqb d c); cbn [orb]; [done|]. exact IH. Qed.

Definition header_text (index : Z) (prev : string) (time : Z) (count root sr rr : string) : string :=
  "BlockHeader{index=" +:+ to_string index +:+ ";previousHash=" +:+ prev +:+ ";timestamp=" +:+ to_string time +:+ ";recordCount=" +:+ count +:+
  ";recordsMerkleRoot=" +:+ root +:+ ";stateRoot=" +:+ sr +:+ ";receiptsRoot=" +:+ rr +:+ "}".

Lemma header_text_count i p t c r s x : count ";" (header_text i p t c r s x) = (6 + count ";" (to_string i) + count ";" p + count ";" (to_string t) + count ";" c + count ";" r + count ";" s + count ";" x)%nat.
Proof. unfold header_text. rewrite !count_app. cbn [count Ascii.eqb Bool.eqb]. lia. Qed.

(** Texts of headers agree field by field as soon as one of them has plain fields. *)
Lemma header_text_inj i p t c r s x i' p' t' c' r' s' x' :
  contains_char p ";" = false → contains_char c ";" = false → contains_char r ";" = false → contains_char s ";" = false → contains_char x ";" = false →
  header_text i p t c r s x = header_text i' p' t' c' r' s' x' → i = i' ∧ p = p' ∧ t = t' ∧ c = c' ∧ r = r' ∧ s = s' ∧ x = x'.
Proof.
  intros Hp Hc Hr Hs Hx E. assert (∀ z, count ";" (to_string z) = 0%nat) as Hz by (intros z; apply count_0; by apply ChainFacts.number_no).
  pose proof (f_equal (count ";") E) as En. rewrite !header_text_count, !Hz in En. apply count_0 in Hp, Hc, Hr, Hs, Hx.
  assert (count ";" p' = 0 ∧ count ";" c' = 0 ∧ count ";" r' = 0 ∧ count ";" s' = 0 ∧ count ";" x' = 0)%nat as (Hp' & Hc' & Hr' & Hs' & Hx') by lia.
  apply count_0 in Hp, Hc, Hr, Hs, Hx, Hp', Hc', Hr', Hs', Hx'. assert (∀ z, contains_char (to_string z) ";" = false) as Hn by (intros z; by apply ChainFacts.number_no).
  unfold header_text in E. apply TreeFacts.prefix_inj in E. next_field E Ei. next_field E Ep. next_field E Et. next_field E Ec. next_field E Er. next_field E Es.
  apply TreeFacts.string_app_inj_r in E as [Ex _]; [|done]. apply (inj to_string) in Ei, Et. done.
Qed.

(** What [headerHashMatches] establishes. *)
Lemma header_matches h : Header.headerHashMatches h = true → Hash.hashBytes (Header.headerPayload h) = Header.blockHash h ∧ ∃ c r,
  extractField (Header.headerPayload h) "recordCount" = Ok c ∧ extractField (Header.headerPayload h) "recordsMerkleRoot" = Ok r ∧
  Header.headerPayload h = header_text (Header.height h) (Header.previousHash h) (Header.timestamp h) c r (Header.stateRoot h) (Header.receiptsRoot h).
Proof.
  unfold Header.headerHashMatches. destruct (empty_string _); [done|]. destruct (String.eqb_spec (Hash.hashBytes (Header.headerPayload h)) (Header.blockHash h)) as [Eh|]; [|done]. cbn [negb orb].
  unfold Header.payloadMatches. destruct (extractField (Header.headerPayload h) "recordCount") as [c|] eqn:Ec; [|done]. cbn [mbind result_bind].
  destruct (extractField (Header.headerPayload h) "recordsMerkleRoot") as [r|] eqn:Er; [|done]. cbn [mbind result_bind]. destruct (_ || _ || _); [done|].
  destruct (Text.stoull c) as [n|]; [|done]. cbn [mbind result_bind]. destruct (_ || _ || _); [done|]. intros E%String.eqb_eq. split; [done|]. by exists c, r.
Qed.

(** The two hash functions agree on the payload of a block. *)
Lemma block_hash_bytes b : ChainFacts.committed b → Block.hash b = Hash.hashBytes (Block.headerPayload b).
Proof.
  intros Hb. rewrite (ChainFacts.hash_value b Hb). unfold Block.calculateHash. destruct (CryptoFacts.hash_shape (Block.headerPayload b)) as (x & Ex & Hl & _). rewrite Ex.
  unfold Hash.hashCString, Hash.nodo_hash_string in Ex. rewrite StateRootFacts.c_str_plain in Ex by (by apply ChainFacts.header_noNul). unfold Hash.hashBytes. rewrite Ex. by destruct x.
Qed.

(** A header with the hash of a block is the header of the block. *)
Lemma header_of_block inputs h b : MerkleFacts.collision_free evp_sha256 inputs → ChainFacts.committed b →
  Header.headerPayload h ∈ inputs → Block.headerPayload b ∈ inputs → Header.headerHashMatches h = true → Header.blockHash h = Block.hash b →
  Header.headerPayload h = Block.headerPayload b ∧ Header.height h = Block.index b ∧ Header.previousHash h = Block.previousHash b ∧ Header.timestamp h = Block.timestamp b ∧
  Header.stateRoot h = Block.stateRoot b ∧ Header.receiptsRoot h = Block.receiptsRoot b.
Proof.
  intros Hfree Hb Hin Hin' Hm Eh. destruct (header_matches h Hm) as (Ehash & c & r & _ & _ & Etext).
  assert (Header.headerPayload h = Block.headerPayload b) as Ep.
  { apply (TreeFacts.hashBytes_inj inputs Hfree); [done|done|]. rewrite Ehash, Eh. by apply block_hash_bytes. }
  split; [done|]. rewrite Etext in Ep. destruct Hb as [_ Pa Sa Ra]. apply andb_true_iff in Pa as [Pa _], Sa as [Sa _], Ra as [Ra _].
  destruct (BlockFacts.recordsRoot_hex b) as [(Ma & _)%hex_plain _].
  assert (Block.headerPayload b = header_text (Block.index b) (Block.previousHash b) (Block.timestamp b) (to_string (Block.recordCount b)) (Block.recordsRoot b) (Block.stateRoot b) (Block.receiptsRoot b)) as Eb by reflexivity.
  rewrite Eb in Ep. symmetry in Ep. apply header_text_inj in Ep as (-> & -> & -> & _ & _ & -> & ->); [done|by apply ChainFacts.plain_no|by apply ChainFacts.number_no|by apply ChainFacts.plain_no..].
Qed.

(** *** The header of a block is accepted *)

Lemma leading_digit n rest : (0 < n)%N → Header.frontIs "0" (pretty_N_go n rest) = false.
Proof.
  revert rest. induction (N.lt_wf_0 n) as [n _ IH]; intros rest Hn. rewrite pretty_N_go_step by lia. destruct (decide (n `div` 10 = 0)%N) as [E|E].
  - rewrite E, pretty_N_go_0. assert (n < 10)%N as Hs by (apply N.div_small_iff in E; lia). rewrite N.mod_small by done. cbn [Header.frontIs].
    assert (n = 1 ∨ n = 2 ∨ n = 3 ∨ n = 4 ∨ n = 5 ∨ n = 6 ∨ n = 7 ∨ n = 8 ∨ n = 9)%N as Hc by lia. repeat destruct Hc as [->|Hc]; try reflexivity. by subst n.
  - apply IH; [apply N.div_lt; lia|by apply N.neq_0_lt_0].
Qed.

Lemma no_leading_zero z : 0 < z → Header.frontIs "0" (to_string z) = false.
Proof.
  intros Hz. destruct z as [|q|q]; [lia| |lia]. unfold to_string, pretty, pretty_Z, pretty, pretty_positive, pretty, pretty_N. rewrite decide_False by done. by apply leading_digit.
Qed.

(** A block of an audited chain, as far as the service needs it. *)
Record servable (b : Block.t) : Prop := {
  serv_valid : Block.isValid true b = true;
  serv_committed : ChainFacts.committed b;
  serv_noEq : noEq (Block.previousHash b);
  serv_real : Block.isSnapshot b = false;
}.

Lemma servable_parts b : servable b → 0 < Block.recordCount b ≤ Block.MAX_RECORDS ∧ 0 < Block.timestamp b ∧ Block.previousHash b ≠ "" ∧ Block.hash b ≠ "" ∧
  Forall (λ r, LedgerRecord.isValid r = true) (Block.records b).
Proof.
  intros [Hv _ _ Hs]. unfold Block.isValid in Hv. rewrite Hs in Hv. cbn [negb] in Hv. rewrite andb_true_r in Hv.
  destruct (empty_string (Block.previousHash b)) eqn:E1; [done|]. destruct (empty_string (Block.hash b)) eqn:E2; [done|]. case_bool_decide as Hr; [done|]. cbn [orb] in Hv.
  destruct (Block.isWithinResourceLimits b) eqn:Hw; [|done]. cbn [negb] in Hv. destruct (Block.timestamp b <=? 0) eqn:Et; [done|]. destruct (forallb LedgerRecord.isValid (Block.records b)) eqn:Hf; [|done].
  unfold Block.isWithinResourceLimits in Hw. rewrite bool_decide_false in Hw by done. cbn [orb] in Hw. destruct (Block.MAX_RECORDS <? Block.recordCount b) eqn:Em; [done|].
  split_and!; [|lia|lia|by apply empty_string_false|by apply empty_string_false|].
  - unfold Block.recordCount. destruct (Block.records b); [done|]. cbn [length]. lia.
  - apply Forall_forall. intros r Hin. rewrite forallb_forall in Hf. by apply Hf, list_elem_of_In.
Qed.

Lemma built_header_matches b h : servable b → Header.headerPayload h = Block.headerPayload b → Header.blockHash h = Block.hash b → Header.height h = Block.index b →
  Header.previousHash h = Block.previousHash b → Header.timestamp h = Block.timestamp b → Header.stateRoot h = Block.stateRoot b → Header.receiptsRoot h = Block.receiptsRoot b →
  Header.headerHashMatches h = true.
Proof.
  intros Hb E1 E2 E3 E4 E5 E6 E7. destruct (servable_parts b Hb) as ([Hc0 Hc1] & _). pose proof Hb as [_ Hc He _]. pose proof Hc as [_ Pp _ _]. apply andb_true_iff in Pp as [Pp _].
  destruct (payload_reads b Pp He) as [R1 R2]. unfold Header.headerHashMatches. rewrite E1, E2, (block_hash_bytes b Hc), String.eqb_refl.
  assert (empty_string (Block.headerPayload b) = false) as -> by reflexivity. cbn [negb orb]. unfold Header.payloadMatches. rewrite E1, R1, R2. cbn [mbind result_bind].
  destruct (BlockFacts.recordsRoot_hex b) as [Hhex Hlen].
  assert (Block.isCanonicalCommitmentRoot (Block.recordsRoot b) = true) as -> by (unfold Block.isCanonicalCommitmentRoot, string_size; rewrite Hlen; by cbn).
  destruct (Text.to_string_digits (Block.recordCount b)) as [_ Hne]; [lia|]. rewrite (proj2 (empty_string_false _) Hne), no_leading_zero by lia. cbn [negb orb].
  rewrite Text.stoull_to_string by (unfold u64, u64_max; unfold Block.MAX_RECORDS in Hc1; lia). cbn [mbind result_bind]. rewrite String.eqb_refl.
  replace (Block.recordCount b =? 0) with false by lia. replace (Block.MAX_RECORDS <? Block.recordCount b) with false by lia. cbn [negb orb].
  rewrite E3, E4, E5, E6, E7. unfold Block.headerPayload. by rewrite String.eqb_refl.
Qed.

(** *** The service *)

(** A chain that passes the audit and starts with a genesis block. *)
Definition audited (c : Blockchain.t) : Prop :=
  Blockchain.isValid true c = true ∧ ∀ front, head (Blockchain.m_blocks c) = Some front → Block.isSnapshot front = false ∧ ChainFacts.genesis_plain front = true.

Lemma chain_servable c i b : audited c → Blockchain.m_blocks c !! i = Some b → servable b ∧ Block.index b = Z.of_nat i.
Proof.
  intros [Hv Hf] Hb. unfold Blockchain.isValid in Hv. destruct (Blockchain.m_blocks c) as [|front l]; [done|]. destruct (Hf front eq_refl) as [Hs Hp]. rewrite Hs in Hv. cbn [negb andb] in Hv.
  destruct (Blockchain.isValidGenesisBlock front) eqn:Hg; [|done]. cbn [negb] in Hv. pose proof (ChainFacts.chain_sound front l Hg Hp Hv) as Hsound.
  destruct (Hsound i b Hb) as [Hc Hi]. split; [|done]. destruct i as [|i].
  - injection Hb as <-. unfold Blockchain.isValidGenesisBlock in Hg. destruct (Block.isValid true front) eqn:Hvf; [|done]. cbn [negb] in Hg. destruct (Block.isGenesisBlock front); [|done].
    cbn [negb] in Hg. destruct (Block.index front =? 0); [|done]. destruct (String.eqb_spec (Block.previousHash front) "GENESIS") as [Ep|]; [|done]. split; [done|done|by rewrite Ep|done].
  - destruct ((front :: l) !! i) as [a|] eqn:Ha; [|apply lookup_ge_None in Ha; apply lookup_lt_Some in Hb; lia]. destruct (Hsound i a Ha) as [Hca _].
    destruct (ChainFacts.linked_follows true front l i a b Hv Ha Hb) as (_ & Ep & _). destruct (ChainFacts.hash_previous a b Hca Ep) as [_ Hns].
    split; [exact (ChainFacts.linked_next_valid true front l i b Hv Hb)|done| |by apply String.eqb_neq]. rewrite Ep, (ChainFacts.hash_value a Hca). apply hash_field.
Qed.

(** What the service needs from the node: a network, and records in their wire form. *)
Record healthy (rt : Runtime) : Prop := {
  named : networkName rt ≠ "" ∧ chainId rt ≠ "" ∧ genesisConfigId rt ≠ "";
  healthy_chain : audited (blockchain rt);
  healthy_records : ∀ k r, finalizationRegistry rt !! k = Some r → CertificateTextFacts.wire_record r;
}.

Lemma served_header rt k h : healthy rt → Service.headerAt rt k = Ok (Some h) →
  ∃ b r, Blockchain.blockByHeight k (blockchain rt) = Some b ∧ servable b ∧ finalizationRegistry rt !! k = Some r ∧ Finalized.matchesBlock r b = true ∧
    h = Header.mk (networkName rt) (chainId rt) (genesisConfigId rt) (Block.index b) (Block.hash b) (Block.previousHash b) (Block.stateRoot b) (Block.receiptsRoot b)
          (Block.timestamp b) (Block.headerPayload b) (Certificate.validatorSetRoot (Finalized.quorumCertificate r)) (Finalized.serialize r)
          (Certificate.serialize (Finalized.quorumCertificate r)).
Proof.
  intros [_ Hc Hr] E. unfold Service.headerAt in E. destruct (Blockchain.blockByHeight k (blockchain rt)) as [b|] eqn:Eb; [|done].
  unfold FinalizationRegistry.recordForHeight in E. destruct (finalizationRegistry rt !! k) as [r|] eqn:Er; [|done]. destruct (Finalized.matchesBlock r b) eqn:Hm; [|done]. cbn [negb] in E.
  apply bind_Ok in E as ([] & _ & E); [|done]. cbn [negb] in E. exists b, r. split_and!; [done| |done|done|].
  - unfold Blockchain.blockByHeight in Eb. destruct (_ <? _); [|done]. by destruct (chain_servable _ _ b Hc Eb).
  - unfold Service.buildHeader in E. destruct (CertificateTextFacts.certificate_scalars _ (CertificateTextFacts.wire_valid _ (CertificateTextFacts.record_certificate _ (Hr k r Er)))) as (_ & _ & Hroot & _).
    rewrite (proj2 (empty_string_false _) (isSafeScalar_nonempty _ Hroot)) in E. cbn [mbind result_bind fmap result_fmap] in E. by injection E as <-.
Qed.

Lemma served_valid rt k h : healthy rt → Service.headerAt rt k = Ok (Some h) → Header.isValid h = true ∧ Header.headerHashMatches h = true.
Proof.
  intros Hh E. destruct (served_header rt k h Hh E) as (b & r & _ & Hb & Hr & _ & ->). destruct Hh as [(N1 & N2 & N3) _ Hw]. destruct (servable_parts b Hb) as (_ & Ht & Hp & Hhash & _).
  destruct (CertificateTextFacts.certificate_scalars _ (CertificateTextFacts.wire_valid _ (CertificateTextFacts.record_certificate _ (Hw k r Hr)))) as (_ & _ & Hroot & _).
  split; [|by apply (built_header_matches b)]. unfold Header.isValid. cbn [Header.networkName Header.chainId Header.genesisConfigId Header.blockHash Header.previousHash Header.headerPayload Header.validatorSetRoot Header.finalizedRecord Header.quorumCertificate Header.timestamp].
  rewrite !(proj2 (empty_string_false _)) by first [assumption|by apply isSafeScalar_nonempty|discriminate]. cbn [negb andb]. lia.
Qed.

Lemma served_verifies rt k h r set policy provider : healthy rt → Service.headerAt rt k = Ok (Some h) → finalizationRegistry rt !! k = Some r →
  Finalized.verify r set policy provider = Ok true → Verifier.verifyFinalizedHeader h set policy provider = Ok (true, "verified").
Proof.
  intros Hh E Hr Hv. destruct (served_valid rt k h Hh E) as [V1 V2]. unfold Verifier.verifyFinalizedHeader. rewrite V1, V2. cbn [negb orb]. clear V1 V2.
  destruct (served_header rt k h Hh E) as (b & r' & _ & _ & Hr' & Hm & ->). rewrite Hr in Hr'. injection Hr' as <-. destruct Hh as [_ _ Hw]. specialize (Hw k r Hr).
  cbn [Header.finalizedRecord Header.quorumCertificate Header.validatorSetRoot Header.height Header.blockHash Header.previousHash].
  rewrite (CertificateTextFacts.record_text r Hw), (CertificateTextFacts.certificate_text _ (CertificateTextFacts.record_certificate _ Hw)). rewrite !String.eqb_refl. cbn [negb].
  unfold Finalized.matchesBlock in Hm. apply andb_true_iff in Hm as [Hm _]. apply andb_true_iff in Hm as [Hm ->]. apply andb_true_iff in Hm as [-> ->]. cbn [negb orb]. rewrite Hv. done.
Qed.

(** *** Ranges of headers *)

Lemma served_lookup rt highest room : ∀ k hs, Service.rangeFrom rt highest room k = Ok hs → ∀ i h, hs !! i = Some h → Service.headerAt rt (k + Z.of_nat i) = Ok (Some h).
Proof.
  induction room as [|room IH]; intros k hs E i h Hi; cbn [Service.rangeFrom] in E; [by injection E as <-|]. destruct (highest <? k); [by injection E as <-|].
  apply bind_Ok in E as ([h0|] & Eh & E); [|by injection E as <-]. destruct (k =? u64_max).
  - injection E as <-. destruct i as [|i]; [|by destruct i]. injection Hi as <-. by rewrite Z.add_0_r.
  - apply bind_Ok in E as (rest & Er & E). injection E as <-. destruct i as [|i]; [injection Hi as <-; by rewrite Z.add_0_r|]. cbn [lookup list_lookup] in Hi.
    replace (k + Z.of_nat (S i)) with (k + 1 + Z.of_nat i) by lia. by apply (IH (k + 1) rest).
Qed.

Lemma block_at rt k b : 0 ≤ k → Blockchain.blockByHeight k (blockchain rt) = Some b → Blockchain.m_blocks (blockchain rt) !! Z.to_nat k = Some b.
Proof. intros Hk. unfold Blockchain.blockByHeight. by destruct (_ <? _). Qed.

Lemma neighbours rt k h h' : healthy rt → 0 ≤ k → Service.headerAt rt k = Ok (Some h) → Service.headerAt rt (k + 1) = Ok (Some h') →
  Header.height h' = wrap64 (Header.height h + 1) ∧ Header.previousHash h' = Header.blockHash h ∧ Header.chainId h' = Header.chainId h ∧ Header.genesisConfigId h' = Header.genesisConfigId h.
Proof.
  intros Hh Hk E E'. destruct (served_header rt k h Hh E) as (b & r & Hb & _ & _ & _ & ->), (served_header rt (k + 1) h' Hh E') as (b' & r' & Hb' & _ & Hr' & Hm' & ->).
  apply block_at in Hb; [|done]. apply block_at in Hb'; [|lia]. pose proof Hh as [_ Hc Hw]. destruct (chain_servable _ _ b Hc Hb) as [_ Ei], (chain_servable _ _ b' Hc Hb') as [_ Ei'].
  destruct (CertificateTextFacts.record_numbers _ (Hw _ _ Hr')) as ([_ Hmax] & _). unfold Finalized.matchesBlock in Hm'. apply andb_true_iff in Hm' as [Hm' _]. apply andb_true_iff in Hm' as [Hm' _].
  apply andb_true_iff in Hm' as [Hm' _]. cbn [Header.height Header.previousHash Header.blockHash Header.chainId Header.genesisConfigId].
  destruct Hc as [Hv Hf]. unfold Blockchain.isValid in Hv. destruct (Blockchain.m_blocks (blockchain rt)) as [|front l]; [done|]. destruct (Hf front eq_refl) as [Hs _]. rewrite Hs in Hv. cbn [negb andb] in Hv.
  destruct (Blockchain.isValidGenesisBlock front); [|done]. cbn [negb] in Hv. replace (Z.to_nat (k + 1)) with (S (Z.to_nat k)) in Hb' by lia.
  destruct (ChainFacts.linked_follows true front l _ b b' Hv Hb Hb') as (Eidx & Eprev & _). split_and!; [|done|done|done]. unfold wrap64. rewrite Z.mod_small; [lia|]. unfold u64_max in Hmax. lia.
Qed.

Lemma served_chain rt : healthy rt → ∀ l i k previous, 0 ≤ k → (∀ j h, l !! j = Some h → Service.headerAt rt (k + Z.of_nat j) = Ok (Some h)) →
  (∀ p, previous = Some p → 1 ≤ k ∧ Service.headerAt rt (k - 1) = Ok (Some p)) → Verifier.headersFrom i previous l = (true, "verified").
Proof.
  intros Hh. induction l as [|h l IH]; intros i k previous Hk Hl Hp; [done|]. cbn [Verifier.headersFrom]. pose proof (Hl 0%nat h eq_refl) as E. rewrite Z.add_0_r in E.
  destruct (served_valid rt k h Hh E) as [-> ->]. cbn [negb].
  assert (match previous with Some p => Header.height h = wrap64 (Header.height p + 1) ∧ Header.previousHash h = Header.blockHash p ∧ Header.chainId h = Header.chainId p ∧ Header.genesisConfigId h = Header.genesisConfigId p | None => True end) as Hlink.
  { destruct previous as [p|]; [|done]. destruct (Hp p eq_refl) as [H1 Ep]. apply (neighbours rt (k - 1)); [done|lia|done|]. by replace (k - 1 + 1) with k by lia. }
  assert (Verifier.headersFrom (S i) (Some h) l = (true, "verified")) as Hrest.
  { apply (IH (S i) (k + 1)); [lia| |].
    - intros j h' Hj. replace (k + 1 + Z.of_nat j) with (k + Z.of_nat (S j)) by lia. by apply Hl.
    - intros p [= <-]. split; [lia|]. by replace (k + 1 - 1) with k by lia. }
  destruct previous as [p|]; [|done]. destruct Hlink as (H1 & H2 & H3 & H4). cbv zeta. rewrite H1, H2, H3, H4, Z.eqb_refl, !String.eqb_refl. done.
Qed.

(** The validator sets and signatures a node has checked. *)
Definition attested (rt : Runtime) (policy : CryptoPolicy) (provider : SignatureProvider) : Prop :=
  ∀ k r, finalizationRegistry rt !! k = Some r → ∃ set, SetHistory.setAt (validatorSetHistory rt) k = Ok set ∧ Finalized.verify r set policy provider = Ok true.

Lemma served_finalized rt policy provider : healthy rt → attested rt policy provider → ∀ l k, (∀ j h, l !! j = Some h → Service.headerAt rt (k + Z.of_nat j) = Ok (Some h)) →
  (∀ j h, l !! j = Some h → Header.height h = k + Z.of_nat j) → Verifier.finalizedFrom (validatorSetHistory rt) policy provider l = Ok (true, "verified").
Proof.
  intros Hh Ha. induction l as [|h l IH]; intros k Hl Hi; [done|]. cbn [Verifier.finalizedFrom]. pose proof (Hl 0%nat h eq_refl) as E. pose proof (Hi 0%nat h eq_refl) as Ei. rewrite Z.add_0_r in E, Ei.
  destruct (served_header rt k h Hh E) as (_ & r & _ & _ & Hr & _). destruct (Ha k r Hr) as (set & Hset & Hv). rewrite Ei, (EvidenceFacts.setAt_hasSet _ _ _ Hset), Hset. cbn [negb mbind result_bind].
  rewrite (served_verifies rt k h r set policy provider Hh E Hr Hv). cbn [mbind result_bind fst negb]. apply (IH (k + 1)).
  - intros j h' Hj. replace (k + 1 + Z.of_nat j) with (k + Z.of_nat (S j)) by lia. by apply Hl.
  - intros j h' Hj. replace (k + 1 + Z.of_nat j) with (k + Z.of_nat (S j)) by lia. by apply Hi.
Qed.

(** *** What the service can answer *)

(** A height of which the node has the block and its finalized record. *)
Definition finalized (rt : Runtime) (k : Z) : Prop :=
  ∃ b r, Blockchain.blockByHeight k (blockchain rt) = Some b ∧ finalizationRegistry rt !! k = Some r ∧ Finalized.matchesBlock r b = true.

Lemma headerAt_total rt k : healthy rt → ∃ o, Service.headerAt rt k = Ok o ∧ (finalized rt k → is_Some o).
Proof.
  intros Hh. unfold Service.headerAt, finalized. destruct (Blockchain.blockByHeight k (blockchain rt)) as [b|]; [|exists None; split; [done|by intros (? & ? & ? & _)]].
  unfold FinalizationRegistry.recordForHeight. destruct (finalizationRegistry rt !! k) as [r|] eqn:Er; [|exists None; split; [done|by intros (? & ? & _ & ? & _)]].
  pose proof (healthy_records rt Hh k r Er) as Hw. destruct (Finalized.matchesBlock r b) eqn:Hm; cbn [negb].
  - rewrite (CertificateTextFacts.record_valid r Hw). cbn [mbind result_bind negb]. unfold Service.buildHeader.
    destruct (CertificateTextFacts.certificate_scalars _ (CertificateTextFacts.wire_valid _ (CertificateTextFacts.record_certificate _ Hw))) as (_ & _ & Hroot & _).
    rewrite (proj2 (empty_string_false _) (isSafeScalar_nonempty _ Hroot)). cbn [mbind result_bind fmap result_fmap]. eexists. split; [reflexivity|]. intros _. by eexists.
  - exists None. split; [done|]. intros (b' & r' & [= <-] & [= <-] & Hm'). congruence.
Qed.

Lemma finalized_bound rt k : healthy rt → 0 ≤ k → finalized rt k → k ≤ u64_max.
Proof.
  intros Hh Hk (b & r & Hb & Hr & Hm). apply block_at in Hb; [|done]. destruct (chain_servable _ _ b (healthy_chain rt Hh) Hb) as [_ Ei].
  destruct (CertificateTextFacts.record_numbers _ (healthy_records rt Hh k r Hr)) as ([_ Hmax] & _). unfold Finalized.matchesBlock in Hm.
  apply andb_true_iff in Hm as [Hm _]. apply andb_true_iff in Hm as [Hm _]. apply andb_true_iff in Hm as [Hm _]. lia.
Qed.

Lemma range_total rt highest : healthy rt → ∀ room k, 0 ≤ k → ∃ hs, Service.rangeFrom rt highest room k = Ok hs ∧
  ∀ n, (n ≤ room)%nat → (∀ j, (j < n)%nat → finalized rt (k + Z.of_nat j) ∧ k + Z.of_nat j ≤ highest) → (n ≤ length hs)%nat.
Proof.
  intros Hh. induction room as [|room IH]; intros k Hk; cbn [Service.rangeFrom]; [exists []; split; [done|lia]|].
  destruct (Z.ltb_spec highest k) as [Hlt|Hle]; [exists []; split; [done|]; intros [|n] _ Hn; [done|]; destruct (Hn 0%nat ltac:(lia)) as [_ ?]; lia|].
  destruct (headerAt_total rt k Hh) as (o & -> & Ho). cbn [mbind result_bind]. destruct o as [h|].
  2: { exists []. split; [done|]. intros [|n] _ Hn; [done|]. destruct (Hn 0%nat ltac:(lia)) as [Hf _]. rewrite Z.add_0_r in Hf. by destruct (Ho Hf). }
  destruct (Z.eqb_spec k u64_max) as [->|Hne].
  - exists [h]. split; [done|]. intros [|[|n]] _ Hn; [cbn; lia..|]. destruct (Hn 1%nat ltac:(lia)) as [Hf _]. apply finalized_bound in Hf; [lia|done|lia].
  - destruct (IH (k + 1) ltac:(lia)) as (rest & -> & Hlen). cbn [mbind result_bind]. exists (h :: rest). split; [done|]. intros [|n] Hroom Hn; [cbn; lia|]. cbn [length].
    apply le_n_S, Hlen; [lia|]. intros j Hj. replace (k + 1 + Z.of_nat j) with (k + Z.of_nat (S j)) by lia. apply Hn. lia.
Qed.

Lemma served_height rt k h : healthy rt → 0 ≤ k → Service.headerAt rt k = Ok (Some h) → Header.height h = k.
Proof.
  intros Hh Hk E. destruct (served_header rt k h Hh E) as (b & r & Hb & _ & _ & _ & ->). apply block_at in Hb; [|done].
  destruct (chain_servable _ _ b (healthy_chain rt Hh) Hb) as [_ Ei]. cbn [Header.height]. lia.
Qed.

Lemma findRecord_spec id : ∀ l k i r, Service.findRecord id k l = Some (i, r) → (k ≤ i)%nat ∧ l !! (i - k)%nat = Some r ∧ (LedgerRecord.id r = id ∨ LedgerRecord.sourceId r = id).
Proof.
  induction l as [|r0 l IH]; intros k i r E; cbn [Service.findRecord] in E; [done|]. destruct (negb _ && _) eqn:Eb.
  - destruct (IH (S k) i r E) as (Hi & Hl & Hr). split_and!; [lia| |done]. by replace (i - k)%nat with (S (i - S k)) by lia.
  - injection E as <- <-. rewrite Nat.sub_diag. split_and!; [lia|done|]. apply andb_false_iff in Eb as [Eb|Eb]; apply negb_false_iff, String.eqb_eq in Eb; auto.
Qed.

Lemma findTransaction_spec id : ∀ l b i r, Service.findTransaction id l = Some (b, i, r) →
  b ∈ l ∧ Block.records b !! i = Some r ∧ (LedgerRecord.id r = id ∨ LedgerRecord.sourceId r = id).
Proof.
  induction l as [|b0 l IH]; intros b i r E; cbn [Service.findTransaction] in E; [done|]. destruct (Service.findRecord id 0 (Block.records b0)) as [[j r0]|] eqn:Ef.
  - injection E as <- <- <-. apply findRecord_spec in Ef as (_ & Hl & Hr). rewrite Nat.sub_0_r in Hl. split_and!; [left|done|done].
  - destruct (IH b i r E) as (Hb & Hrest). split; [by right|done].
Qed.

Lemma proof_leaf payloads i p : payloads !! i = Some p → CoreMerkle.leafHash (CoreMerkle.buildOrderedMerkleProof payloads i) = CoreMerkle.hashOrderedLeaf (Z.of_nat i) p.
Proof.
  intros Hp. pose proof (lookup_lt_Some _ _ _ Hp) as Hl. unfold CoreMerkle.buildOrderedMerkleProof. rewrite bool_decide_false by (by intros ->).
  replace (length payloads <=? i)%nat with false by (symmetry; by apply Nat.leb_gt). cbn [orb CoreMerkle.leafHash].
  apply nth_lookup_Some. by rewrite TreeFacts.orderedLeaves_lookup, Hp.
Qed.

(** The proof that the service builds for a record of a block. *)
Lemma built_proof_verifies (jsonString : string → string) h b i r id : Header.isValid h = true → Header.headerHashMatches h = true → Header.headerPayload h = Block.headerPayload b →
  servable b → Block.records b !! i = Some r → id ≠ "" → (LedgerRecord.id r = id ∨ LedgerRecord.sourceId r = id) → readable r = true →
  let proof := CoreMerkle.buildOrderedMerkleProof (LedgerRecord.serialize <$> Block.records b) i in
  CoreMerkle.isValid proof = true ∧
  Verifier.transactionVerifies jsonString (TransactionProof.mk h id (Json.recordJson jsonString r) (Block.recordsRoot b) proof (Z.of_nat i) (LedgerRecord.serialize r)) = true.
Proof.
  intros Hv Hm Ep Hb Hr Hid Hor Hread proof. destruct (servable_parts b Hb) as ([Hc0 Hc1] & _ & _ & _ & Hf). pose proof Hb as [_ Hc He _]. pose proof Hc as [_ Pp _ _].
  apply andb_true_iff in Pp as [Pp _]. destruct (payload_reads b Pp He) as [R1 R2]. pose proof (lookup_lt_Some _ _ _ Hr) as Hlen.
  assert (CoreMerkle.verify proof (Block.recordsRoot b) = true) as Hver by (apply TreeFacts.ordered_proof_complete; by rewrite length_fmap).
  assert (CoreMerkle.isValid proof = true) as Hpv by (by apply andb_true_iff in Hver as [? _]). split; [done|].
  unfold Verifier.transactionVerifies, TransactionProof.isValid, Verifier.recordMatches.
  cbn [TransactionProof.header TransactionProof.transactionId TransactionProof.recordJson TransactionProof.recordsRoot TransactionProof.proof TransactionProof.recordIndex TransactionProof.serializedRecord].
  destruct (BlockFacts.recordsRoot_hex b) as [_ Hrl]. unfold Block.recordCount in Hc0, Hc1, R1.
  assert (Block.recordsRoot b ≠ "") as Hrne by (by intros E; rewrite E in Hrl).
  rewrite Hv, Hm, Hver, Hpv, Ep, R1, R2, !(proj2 (empty_string_false _)) by (assumption || discriminate). cbn [negb andb orb mbind result_bind].
  replace (Z.of_nat i <? Block.MAX_RECORDS) with true by lia. cbn [negb andb orb]. rewrite String.eqb_refl. cbn [negb].
  rewrite Text.stoull_to_string by (unfold u64, u64_max; unfold Block.MAX_RECORDS in Hc1; lia). cbn [mbind result_bind].
  unfold proof. rewrite (proof_leaf _ i (LedgerRecord.serialize r)) by (by rewrite list_lookup_fmap, Hr). rewrite String.eqb_refl.
  replace (Z.of_nat (length (Block.records b)) <=? Z.of_nat i) with false by lia. cbn [negb orb]. rewrite Forall_lookup in Hf. rewrite (record_roundtrip r (Hf i r Hr) Hread).
  destruct Hor as [->| ->]; rewrite String.eqb_refl; cbn [negb andb]; [|rewrite andb_false_r]; by rewrite String.eqb_refl.
Qed.
End headers.
End HeaderFacts.

(** ** Facts about the verifier *)

Module VerifierFacts.
Import SafeScalar FieldText HeaderFacts QuorumFacts.

(** Headers that commit to the same block. *)
Definition same_header (h h' : Header.t) : Prop :=
  Header.headerPayload h = Header.headerPayload h' ∧ Header.blockHash h = Header.blockHash h' ∧ Header.height h = Header.height h' ∧
  Header.previousHash h = Header.previousHash h' ∧ Header.timestamp h = Header.timestamp h' ∧
  (contains_char (Header.stateRoot h) ";" = false → contains_char (Header.stateRoot h') ";" = false →
   Header.stateRoot h = Header.stateRoot h' ∧ Header.receiptsRoot h = Header.receiptsRoot h').

Section verifier.
Context `{Hsha : Sha256Spec}.

Lemma chain_headers : ∀ l i previous reason, Verifier.headersFrom i previous l = (true, reason) → reason = "verified" ∧
  (∀ j h, l !! j = Some h → Header.isValid h = true ∧ Header.headerHashMatches h = true) ∧
  ∀ j p h, (match previous with Some p => p :: l | None => l end) !! j = Some p → (match previous with Some p => p :: l | None => l end) !! S j = Some h →
    Header.height h = wrap64 (Header.height p + 1) ∧ Header.previousHash h = Header.blockHash p ∧ Header.chainId h = Header.chainId p ∧ Header.genesisConfigId h = Header.genesisConfigId p.
Proof.
  induction l as [|h l IH]; intros i previous reason E; cbn [Verifier.headersFrom] in E.
  - injection E as <-. split_and!; [done|done|]. intros j p h. destruct previous; done.
  - destruct (Header.isValid h) eqn:Hv; [|done]. destruct (Header.headerHashMatches h) eqn:Hm; [|done]. cbn [negb] in E.
    assert (Verifier.headersFrom (S i) (Some h) l = (true, reason) ∧ ∀ p, previous = Some p →
      Header.height h = wrap64 (Header.height p + 1) ∧ Header.previousHash h = Header.blockHash p ∧ Header.chainId h = Header.chainId p ∧ Header.genesisConfigId h = Header.genesisConfigId p) as [Hrest Hlink].
    { destruct previous as [p|]; [|done]. destruct (Z.eqb_spec (Header.height h) (wrap64 (Header.height p + 1))); [|done]. cbn [negb] in E.
      destruct (String.eqb_spec (Header.previousHash h) (Header.blockHash p)); [|done]. cbn [negb] in E. destruct (String.eqb_spec (Header.chainId h) (Header.chainId p)); [|done].
      destruct (String.eqb_spec (Header.genesisConfigId h) (Header.genesisConfigId p)); [|done]. split; [done|]. by intros p' [= <-]. }
    destruct (IH _ _ _ Hrest) as (-> & Hall & Hnext). split_and!; [done| |].
    + intros [|j] h' Hj; [by injection Hj as <-|]. by apply (Hall j).
    + intros j p h' Hp Hh. destruct previous as [p0|]; [|by apply (Hnext j)]. destruct j as [|j]; [|by apply (Hnext j)]. injection Hp as <-. injection Hh as <-. by apply Hlink.
Qed.

Lemma finalized_headers history policy provider : ∀ l verdict, Verifier.finalizedFrom history policy provider l = Ok verdict → verdict.1 = true →
  ∀ h, h ∈ l → ∃ set reason, SetHistory.setAt history (Header.height h) = Ok set ∧ Verifier.verifyFinalizedHeader h set policy provider = Ok (true, reason).
Proof.
  induction l as [|h l IH]; intros verdict E Hv h' Hin; [by apply elem_of_nil in Hin|]. cbn [Verifier.finalizedFrom] in E. destruct (SetHistory.hasSet _ _); [|injection E as <-; done]. cbn [negb] in E.
  apply bind_Ok in E as (set & Hset & E). apply bind_Ok in E as ([[] reason] & Hf & E); cbn [fst negb] in E; [|injection E as <-; done].
  apply elem_of_cons in Hin as [->|Hin]; [by exists set, reason|]. by apply (IH verdict).
Qed.

(** An accepted header carries a certificate for its own block. *)
Lemma header_certified h set policy provider reason : Verifier.verifyFinalizedHeader h set policy provider = Ok (true, reason) →
  ∃ r, FinalizedText.deserialize (Header.finalizedRecord h) = Ok r ∧ certified set policy provider (Finalized.quorumCertificate r) ∧
    Certificate.blockIndex (Finalized.quorumCertificate r) = Header.height h ∧ Certificate.blockHash (Finalized.quorumCertificate r) = Header.blockHash h ∧
    Certificate.round (Finalized.quorumCertificate r) = Finalized.round r ∧ isSafeScalar (Header.previousHash h) = true.
Proof.
  unfold Verifier.verifyFinalizedHeader. destruct (_ || _); [done|]. destruct (FinalizedText.deserialize _) as [r|]; [|done]. destruct (CertificateText.deserialize _) as [c|]; [|done].
  destruct (negb _); [done|]. destruct (negb _); [done|]. destruct (Z.eqb_spec (Finalized.blockIndex r) (Header.height h)) as [Ei|]; [|done].
  destruct (String.eqb_spec (Finalized.blockHash r) (Header.blockHash h)) as [Eh|]; [|done]. destruct (String.eqb_spec (Finalized.previousHash r) (Header.previousHash h)) as [Ep|]; [|done]. cbn [negb orb].
  intros E. apply bind_Ok in E as ([] & Hv & E); [|done]. exists r. unfold Finalized.verify in Hv. apply bind_Ok in Hv as ([] & Hs & Hv); [|done]. cbn [negb] in Hv.
  split; [done|]. split; [by apply verify_certified|]. unfold Finalized.isStructurallyValid in Hs. destruct (_ || _ || _); [done|].
  destruct (isSafeScalar (Finalized.blockHash r)); [|done]. destruct (isSafeScalar (Finalized.previousHash r)) eqn:Hps; [|done]. cbn [negb orb] in Hs.
  apply bind_Ok in Hs as ([] & _ & Hs); [|done]. cbn [negb] in Hs. destruct (_ =? Finalized.blockIndex r) eqn:H1; [|done]. destruct (String.eqb_spec (Certificate.blockHash (Finalized.quorumCertificate r)) (Finalized.blockHash r)) as [H2|]; [|done].
  destruct (String.eqb _ _); [|done]. destruct (_ =? Finalized.round r) eqn:H4; [|done]. rewrite <- Ei, <- Eh, <- Ep. split_and!; [lia|done|lia|done].
Qed.

(** What an accepted chain of finalized headers establishes. *)
Lemma accepted_chain history policy provider hs reason : Verifier.verifyFinalizedHeaderChain hs history policy provider = Ok (true, reason) →
  (∀ j p h, hs !! j = Some p → hs !! S j = Some h → Header.height h = wrap64 (Header.height p + 1) ∧ Header.previousHash h = Header.blockHash p) ∧
  ∀ h, h ∈ hs → Header.headerHashMatches h = true ∧ ∃ set r, SetHistory.setAt history (Header.height h) = Ok set ∧
    FinalizedText.deserialize (Header.finalizedRecord h) = Ok r ∧ certified set policy provider (Finalized.quorumCertificate r) ∧
    Certificate.blockIndex (Finalized.quorumCertificate r) = Header.height h ∧ Certificate.blockHash (Finalized.quorumCertificate r) = Header.blockHash h ∧
    Certificate.round (Finalized.quorumCertificate r) = Finalized.round r ∧ isSafeScalar (Header.previousHash h) = true.
Proof.
  unfold Verifier.verifyFinalizedHeaderChain. destruct (Verifier.verifyHeaderChain hs) as [[] why] eqn:Ec; cbn [fst negb]; [|done]. intros E.
  unfold Verifier.verifyHeaderChain in Ec. destruct hs as [|h0 l]; [done|]. destruct (chain_headers _ _ _ _ Ec) as (_ & Hall & Hnext). split.
  - intros j p h Hp Hh. destruct (Hnext j p h Hp Hh) as (? & ? & _). done.
  - intros h Hin. split; [apply list_elem_of_lookup in Hin as [j Hj]; by destruct (Hall j h Hj)|].
    destruct (finalized_headers _ _ _ _ _ E eq_refl h Hin) as (set & reason' & Hset & Hf). destruct (header_certified h set policy provider reason' Hf) as (r & Hr). by exists set, r.
Qed.

Lemma safe_no_semicolon s : isSafeScalar s = true → contains_char s ";" = false.
Proof.
  unfold isSafeScalar, isSafeDelimitedText. destruct (empty_string s || _); [done|]. intros Hs. by apply (Text.all_chars_contains _ _ _ Hs).
Qed.

(** Two headers with one hash commit to the same block. *)
Lemma same_hash_same_header inputs h h' : MerkleFacts.collision_free evp_sha256 inputs → Header.headerPayload h ∈ inputs → Header.headerPayload h' ∈ inputs →
  Header.headerHashMatches h = true → Header.headerHashMatches h' = true → isSafeScalar (Header.previousHash h) = true → isSafeScalar (Header.previousHash h') = true →
  Header.blockHash h = Header.blockHash h' → same_header h h'.
Proof.
  intros Hfree Hin Hin' Hm Hm' Hp%safe_no_semicolon Hp'%safe_no_semicolon Eh. destruct (header_matches h Hm) as (E1 & c & r & Ec & Er & Et), (header_matches h' Hm') as (E1' & c' & r' & Ec' & Er' & Et').
  assert (Header.headerPayload h = Header.headerPayload h') as Ep by (apply (TreeFacts.hashBytes_inj inputs Hfree); [done|done|]; by rewrite E1, E1').
  rewrite Ep in Ec, Er. rewrite Ec in Ec'. rewrite Er in Er'. injection Ec' as <-. injection Er' as <-. rewrite Et, Et' in Ep. unfold header_text in Ep.
  assert (∀ z, contains_char (to_string z) ";" = false) as Hn by (intros z; by apply ChainFacts.number_no). apply TreeFacts.prefix_inj in Ep. next_field Ep Ei. next_field Ep Eprev. next_field Ep Etime. apply TreeFacts.prefix_inj, TreeFacts.prefix_inj, TreeFacts.prefix_inj, TreeFacts.prefix_inj in Ep. apply (inj to_string) in Ei, Etime.
  split_and!; [|done|done|done|done|].
  - rewrite Et, Et'. unfold header_text. by rewrite Ei, Eprev, Etime, Ep.
  - intros Hs Hs'. next_field Ep Es. apply TreeFacts.string_app_inj_r in Ep as [Ex _]; done.
Qed.

(** What an accepted transaction proof establishes. *)
Lemma transaction_accepted (jsonString : string → string) p : Verifier.transactionVerifies jsonString p = true →
  Header.headerHashMatches (TransactionProof.header p) = true ∧ CoreMerkle.verify (TransactionProof.proof p) (TransactionProof.recordsRoot p) = true ∧
  extractField (Header.headerPayload (TransactionProof.header p)) "recordsMerkleRoot" = Ok (TransactionProof.recordsRoot p) ∧
  CoreMerkle.leafHash (TransactionProof.proof p) = CoreMerkle.hashOrderedLeaf (TransactionProof.recordIndex p) (TransactionProof.serializedRecord p) ∧
  ∃ r, LedgerRecord.deserialize (TransactionProof.serializedRecord p) = Some r ∧ (LedgerRecord.id r = TransactionProof.transactionId p ∨ LedgerRecord.sourceId r = TransactionProof.transactionId p) ∧
    TransactionProof.recordJson p = Json.recordJson jsonString r.
Proof.
  unfold Verifier.transactionVerifies. destruct (TransactionProof.isValid p); [|done]. destruct (Header.headerHashMatches _); [|done]. destruct (CoreMerkle.verify _ _) eqn:Hv; [|done]. cbn [negb orb].
  unfold Verifier.recordMatches. destruct (extractField (Header.headerPayload (TransactionProof.header p)) "recordsMerkleRoot") as [root|]; [|done]. cbn [mbind result_bind].
  destruct (String.eqb_spec root (TransactionProof.recordsRoot p)) as [->|]; [|done]. cbn [negb]. destruct (extractField _ "recordCount") as [count|]; [|done]. cbn [mbind result_bind].
  destruct (Text.stoull count) as [n|]; [|done]. cbn [mbind result_bind]. destruct (n <=? _); [done|]. cbn [orb].
  destruct (String.eqb_spec (CoreMerkle.leafHash (TransactionProof.proof p)) (CoreMerkle.hashOrderedLeaf (TransactionProof.recordIndex p) (TransactionProof.serializedRecord p))) as [El|]; [|done]. cbn [negb].
  destruct (LedgerRecord.deserialize _) as [r|]; [|done]. destruct (negb _ && negb _) eqn:Eid; [done|]. intros Ej%String.eqb_eq. split_and!; [done..|]. exists r. split_and!; [done| |done].
  apply andb_false_iff in Eid as [Eid|Eid]; apply negb_false_iff, String.eqb_eq in Eid; auto.
Qed.
End verifier.
End VerifierFacts.

(** ** Properties *)

Module LightClientProperties.
Import SafeScalar FieldText HeaderFacts VerifierFacts QuorumFacts QuorumProperties.

Section properties.
Context `{Hsha : Sha256Spec}.

Lemma agree_below inputs hs hs' : MerkleFacts.collision_free evp_sha256 inputs → Header.headerPayload <$> (hs ++ hs') ⊆ inputs →
  (∀ h, h ∈ hs ++ hs' → Header.headerHashMatches h = true ∧ isSafeScalar (Header.previousHash h) = true) →
  (∀ j p h, hs !! j = Some p → hs !! S j = Some h → Header.previousHash h = Header.blockHash p) →
  (∀ j p h, hs' !! j = Some p → hs' !! S j = Some h → Header.previousHash h = Header.blockHash p) →
  ∀ i i' h h', hs !! i = Some h → hs' !! i' = Some h' → Header.blockHash h = Header.blockHash h' →
  ∀ j a a', (j ≤ i)%nat → (j ≤ i')%nat → hs !! (i - j)%nat = Some a → hs' !! (i' - j)%nat = Some a' → same_header a a'.
Proof.
  intros Hfree Hin Hall Hl Hl'. assert (∀ i i' h h', hs !! i = Some h → hs' !! i' = Some h' → Header.blockHash h = Header.blockHash h' → same_header h h') as Hsame.
  { intros i i' h h' Hh Hh' E. apply list_elem_of_lookup_2 in Hh, Hh'. destruct (Hall h) as [? ?]; [apply elem_of_app; by left|]. destruct (Hall h') as [? ?]; [apply elem_of_app; by right|].
    apply (same_hash_same_header inputs); try done; apply Hin, list_elem_of_fmap; eexists; (split; [reflexivity|]); apply elem_of_app; [by left|by right]. }
  intros i i' h h' Hh Hh' E j. revert i i' h h' Hh Hh' E. induction j as [|j IH]; intros i i' h h' Hh Hh' E a a' Hj Hj' Ha Ha'.
  - rewrite Nat.sub_0_r in Ha, Ha'. rewrite Hh in Ha. rewrite Hh' in Ha'. injection Ha as <-. injection Ha' as <-. by apply (Hsame i i').
  - destruct i as [|i]; [lia|]. destruct i' as [|i']; [lia|]. rewrite Nat.sub_succ in Ha, Ha'. destruct (lookup_lt_is_Some_2 hs i) as [q Hq]; [apply lookup_lt_Some in Hh; lia|].
    destruct (lookup_lt_is_Some_2 hs' i') as [q' Hq']; [apply lookup_lt_Some in Hh'; lia|]. destruct (Hsame _ _ _ _ Hh Hh' E) as (_ & _ & _ & Ep & _).
    apply (IH i i' q q'); [done|done| |lia|lia|done|done]. by rewrite <- (Hl i q h Hq Hh), <- (Hl' i' q' h' Hq' Hh').
Qed.

(** C11. Two light clients do not disagree about the past.  When two chains of headers are
    accepted against one history of validator sets, and at some common height their
    certificates are of one round and those who signed for two blocks in it hold at most a
    third of the weight of that height's set, then at that height and at every lower height
    they share the two headers have the same payload, block hash, height, previous hash and
    timestamp, and the same state and receipts roots where the state roots contain no
    semicolon (collisions among the header payloads apart).  The network names and the set
    roots, which the header payload does not hold, are not compared. *)
Theorem light_clients_agree (hs hs' : list Header.t) (history : SetHistory.t) policy provider (reason reason' : string) (i i' : nat) (h h' : Header.t) (r r' : Finalized.t)
    (set : ValidatorRegistry) (faulty : list string) :
  Verifier.verifyFinalizedHeaderChain hs history policy provider = Ok (true, reason) → Verifier.verifyFinalizedHeaderChain hs' history policy provider = Ok (true, reason') →
  hs !! i = Some h → hs' !! i' = Some h' → Header.height h = Header.height h' → SetHistory.setAt history (Header.height h) = Ok set →
  FinalizedText.deserialize (Header.finalizedRecord h) = Ok r → FinalizedText.deserialize (Header.finalizedRecord h') = Ok r' → Finalized.round r = Finalized.round r' →
  NoDup faulty → 3 * sum_by (Validators.consensusWeightFor set) faulty ≤ map_sum ValidatorFacts.weight set →
  (∀ a, equivocates (Finalized.quorumCertificate r) (Finalized.quorumCertificate r') a → a ∈ faulty) →
  MerkleFacts.collision_free evp_sha256 (Header.headerPayload <$> hs ++ hs') →
  ∀ j a a', (j ≤ i)%nat → (j ≤ i')%nat → hs !! (i - j)%nat = Some a → hs' !! (i' - j)%nat = Some a' → same_header a a'.
Proof.
  intros Hc Hc' Hi Hi' Eh Hset Hr Hr' Eround Hnd Hw Hf Hfree. destruct (accepted_chain _ _ _ _ _ Hc) as [Hl Hall], (accepted_chain _ _ _ _ _ Hc') as [Hl' Hall'].
  apply (agree_below (Header.headerPayload <$> hs ++ hs') hs hs' Hfree) with (h := h) (h' := h'); [done| | | |done|done|].
  - intros x [Hx|Hx]%elem_of_app; [destruct (Hall x Hx) as (? & ? & ? & Hx')|destruct (Hall' x Hx) as (? & ? & ? & Hx')]; by destruct Hx' as (_ & _ & _ & _ & _ & _ & Hx').
  - intros j p x Hp Hx. by destruct (Hl j p x Hp Hx).
  - intros j p x Hp Hx. by destruct (Hl' j p x Hp Hx).
  - destruct (Hall h (list_elem_of_lookup_2 _ _ _ Hi)) as (_ & s1 & r1 & S1 & R1 & C1 & I1 & B1 & N1 & _), (Hall' h' (list_elem_of_lookup_2 _ _ _ Hi')) as (_ & s2 & r2 & S2 & R2 & C2 & I2 & B2 & N2 & _).
    rewrite <- Eh in S2. rewrite Hset in S1, S2. injection S1 as <-. injection S2 as <-. rewrite Hr in R1. injection R1 as <-. rewrite Hr' in R2. injection R2 as <-.
    rewrite <- B1, <- B2. apply (certified_agree set policy provider _ _ faulty C1 C2); [congruence|congruence|done|done|done].
Qed.

(** C12. Transaction proofs are sound.  If a proof is accepted and its header has the hash
    of a block of an audited chain, then the header is that block's header, the proved text
    is the serialized record of the block at the claimed position, and, for a record that
    can be read back, the claimed transaction id is the id or the source id of that record
    and the displayed JSON is the record's. *)
Theorem transaction_proofs_sound (jsonString : string → string) (c : Blockchain.t) (b : Block.t) (p : TransactionProof.t) :
  audited c → b ∈ Blockchain.m_blocks c → Verifier.transactionVerifies jsonString p = true → Header.blockHash (TransactionProof.header p) = Block.hash b →
  MerkleFacts.collision_free evp_sha256 (Header.headerPayload (TransactionProof.header p) :: ChainFacts.blockInputs b ++
    TreeFacts.leafIn (CoreMerkle.orderedLeaf (TransactionProof.recordIndex p) (TransactionProof.serializedRecord p)) ::
    TreeFacts.stepInputs (CoreMerkle.leafHash (TransactionProof.proof p)) (CoreMerkle.steps (TransactionProof.proof p))) →
  Header.height (TransactionProof.header p) = Block.index b ∧ Header.stateRoot (TransactionProof.header p) = Block.stateRoot b ∧ 0 ≤ TransactionProof.recordIndex p ∧
  ∃ r, Block.records b !! Z.to_nat (TransactionProof.recordIndex p) = Some r ∧ LedgerRecord.serialize r = TransactionProof.serializedRecord p ∧
    (RecordFacts.readable r = true → TransactionProof.recordJson p = Json.recordJson jsonString r ∧
      (LedgerRecord.id r = TransactionProof.transactionId p ∨ LedgerRecord.sourceId r = TransactionProof.transactionId p)).
Proof.
  intros Hc Hb Hv Eh Hfree. apply list_elem_of_lookup in Hb as [k Hb]. destruct (chain_servable c k b Hc Hb) as [Hs _]. destruct (servable_parts b Hs) as ([Hn _] & _ & _ & _ & Hvalid).
  destruct (transaction_accepted jsonString p Hv) as (Hm & Hver & Hroot & Hleaf & r' & Hr' & Hid & Hjson).
  destruct (header_of_block _ _ b Hfree (serv_committed b Hs) ltac:(left) ltac:(right; apply elem_of_app; left; left) Hm Eh) as (Ep & Eheight & _ & _ & Estate & _).
  pose proof Hs as [_ Hcm He _]. pose proof Hcm as [_ Pp _ _]. apply andb_true_iff in Pp as [Pp _]. destruct (payload_reads b Pp He) as [_ R2]. rewrite Ep, R2 in Hroot. injection Hroot as Eroot.
  rewrite <- Eroot in Hver. assert (Block.records b ≠ []) as Hne by (intros E; unfold Block.recordCount in Hn; rewrite E in Hn; cbn in Hn; lia).
  destruct (TreeFacts.ordered_proof_sound _ Hfree (LedgerRecord.serialize <$> Block.records b) (TransactionProof.recordIndex p) (TransactionProof.serializedRecord p) (TransactionProof.proof p)) as [H0 Hlook]; [| | | |done|done|].
  - intros x Hx. right. apply elem_of_app. left. by right.
  - right. apply elem_of_app. right. left.
  - intros x Hx. right. apply elem_of_app. right. by right.
  - intros E. by apply fmap_nil_inv in E.
  - split_and!; [done|done|done|]. rewrite list_lookup_fmap in Hlook. destruct (Block.records b !! Z.to_nat (TransactionProof.recordIndex p)) as [r|] eqn:Er; [|done]. injection Hlook as Hlook.
    exists r. split_and!; [done|done|]. intros Hread. rewrite Forall_lookup in Hvalid. rewrite <- Hlook, (RecordFacts.record_roundtrip r (Hvalid _ r Er) Hread) in Hr'. injection Hr' as <-. done.
Qed.

(** C13. A full node's header answers are accepted.  Let a named node have a chain that
    passes the audit and starts with a genesis block, and finalized records in wire form
    (structurally valid, every vote signed once, by its own key) that verify against the
    validator sets it has recorded.  A request for a range of at most [maxHeaders] and at
    most 512 heights, all of them finalized, is answered with all the headers of the range,
    and a light client with the same validator sets verifies the answer. *)
Theorem honest_headers_verify (rt : Runtime) policy provider (fromHeight toHeight maxHeaders : Z) :
  healthy rt → attested rt policy provider → 0 ≤ fromHeight ≤ toHeight → toHeight - fromHeight < Z.min (Z.max maxHeaders 1) 512 →
  toHeight ≤ FinalizationRegistry.highestFinalizedHeight (finalizationRegistry rt) → (∀ k, fromHeight ≤ k ≤ toHeight → finalized rt k) →
  ∃ hs, Service.headerRange rt fromHeight maxHeaders = Ok hs ∧ toHeight - fromHeight < Z.of_nat (length hs) ∧
    (∀ i h, hs !! i = Some h → Header.height h = fromHeight + Z.of_nat i) ∧
    Verifier.verifyFinalizedHeaderChain hs (validatorSetHistory rt) policy provider = Ok (true, "verified").
Proof.
  intros Hh Ha Hr Hroom Htop Hf. unfold Service.headerRange. set (room := Z.to_nat _).
  destruct (range_total rt (FinalizationRegistry.highestFinalizedHeight (finalizationRegistry rt)) Hh room fromHeight ltac:(lia)) as (hs & E & Hlen). exists hs.
  assert (toHeight - fromHeight < Z.of_nat (length hs)) as Hmany.
  { specialize (Hlen (Z.to_nat (toHeight - fromHeight + 1)) ltac:(lia)). assert (Z.to_nat (toHeight - fromHeight + 1) ≤ length hs)%nat; [|lia]. apply Hlen. intros j Hj. split; [apply Hf; lia|lia]. }
  pose proof (served_lookup rt _ _ _ _ E) as Hat. assert (∀ i h, hs !! i = Some h → Header.height h = fromHeight + Z.of_nat i) as Hheights.
  { intros i h Hi. apply (served_height rt); [done|lia|by apply Hat]. }
  split_and!; [done|done|done|]. unfold Verifier.verifyFinalizedHeaderChain, Verifier.verifyHeaderChain. destruct hs as [|h l]; [cbn in Hmany; lia|].
  rewrite (served_chain rt Hh (h :: l) 0 fromHeight None); [|lia|done|done]. cbn [fst negb]. by apply (served_finalized rt policy provider Hh Ha _ fromHeight).
Qed.

(** C14. A full node proves the transactions of finalized blocks.  Let a named node have a
    chain that passes the audit and starts with a genesis block, and finalized records in
    wire form.  When the first record found for a transaction id lies in a finalized block
    and can be read back from its text, the service answers with a proof of exactly that
    record, and the proof verifies. *)
Theorem honest_transaction_proofs_verify (jsonString : string → string) (rt : Runtime) (transactionId : string) (b : Block.t) (i : nat) (r : LedgerRecord.t) :
  healthy rt → transactionId ≠ "" → Service.findTransaction transactionId (Blockchain.m_blocks (blockchain rt)) = Some (b, i, r) → finalized rt (Block.index b) →
  RecordFacts.readable r = true →
  ∃ p, Service.transactionProof jsonString rt transactionId = Ok (inr p) ∧ Verifier.transactionVerifies jsonString p = true ∧
    TransactionProof.serializedRecord p = LedgerRecord.serialize r ∧ Header.blockHash (TransactionProof.header p) = Block.hash b.
Proof.
  intros Hh Hid Hfind Hf Hread. unfold Service.transactionProof. rewrite (proj2 (empty_string_false _) Hid), Hfind. destruct (findTransaction_spec _ _ _ _ _ Hfind) as (Hb & Hr & Hor).
  apply list_elem_of_lookup in Hb as [k Hb]. destruct (chain_servable _ _ b (healthy_chain rt Hh) Hb) as [Hs Ei]. destruct (headerAt_total rt (Block.index b) Hh) as (o & E & Ho).
  destruct (Ho Hf) as [h ->]. rewrite E. cbn [mbind result_bind]. destruct (served_valid rt _ h Hh E) as [Hv Hm]. destruct (served_header rt _ h Hh E) as (b' & r' & Hb' & _ & _ & _ & Eh).
  apply block_at in Hb'; [|lia]. rewrite Ei, Nat2Z.id, Hb in Hb'. injection Hb' as <-. assert (Header.headerPayload h = Block.headerPayload b) as Ep by (by rewrite Eh).
  destruct (built_proof_verifies jsonString h b i r transactionId Hv Hm Ep Hs Hr Hid Hor Hread) as [Hpv Hver]. rewrite Hpv. cbn [negb]. eexists. split; [reflexivity|].
  split_and!; [exact Hver|done|]. by rewrite Eh.
Qed.

(** Account proofs prove nothing about the account.  [verifies] relates the Merkle
    leaf neither to the address nor to the JSON of the account, and the account root not to
    the header; so for every valid header, every address and every text some account proof
    is accepted. *)
Theorem account_proof_binds_nothing (h : Header.t) (address accountJson : string) :
  Header.isValid h = true → Header.headerHashMatches h = true → address ≠ "" → accountJson ≠ "" →
  ∃ p, AccountProof.header p = h ∧ AccountProof.address p = address ∧ AccountProof.accountJson p = accountJson ∧ AccountProof.verifies p = true.
Proof.
  intros Hv Hm Ha Hj. exists (AccountProof.mk h address accountJson "leaf" (CoreMerkle.Proof_ "leaf" [])). split_and!; [done..|]. unfold AccountProof.verifies, AccountProof.isValid.
  cbn [AccountProof.header AccountProof.address AccountProof.accountJson AccountProof.accountRoot AccountProof.proof]. rewrite Hv, Hm, !(proj2 (empty_string_false _)) by done. reflexivity.
Qed.
End properties.

(** *** Witnesses *)

#[local] Existing Instance StateTreeProperties.small_sha256.
#[local] Existing Instance StateTreeProperties.small_sha256_spec.
Import BlockProperties ConsensusTextProperties.

(** A JSON string without escapes. *)
Definition quoted (s : string) : string := Json.name s.
Definition the_record : Finalized.t := record_for (Block.hash sample_block) (Block.hash sample_genesis).
Definition node_history : SetHistory.t := SetHistory.mk 1 1 {[ 1 := the_set ]}.
Definition the_node : Runtime :=
  Build_Runtime "net" "chain" "genesis" sample_chain {[ 1 := the_record ]} the_set node_history (Available policy toy_provider) 1 (λ _, ∅).

Lemma the_chain_audited : audited sample_chain.
Proof.
  destruct sample_chain_valid as [Hv Em]. split; [exact Hv|]. intros front Hf. rewrite Em in Hf. cbn [head] in Hf. apply Some_inj in Hf. subst front. vm_compute. split; reflexivity.
Qed.

Lemma node_history_set : SetHistory.setAt node_history 1 = Ok the_set.
Proof.
  unfold SetHistory.setAt, SetHistory.locate, node_history, SetHistory.floor, entries. simpl. generalize the_set as r. intros r. by rewrite map_to_list_singleton.
Qed.

Lemma the_record_verifies : Finalized.verify the_record the_set policy toy_provider = Ok true.
Proof. vm_compute. reflexivity. Qed.

Lemma the_record_wire : CertificateTextFacts.wire_record the_record.
Proof.
  assert (Vote.isStructurallyValid (the_vote (Block.hash sample_block) (Block.hash sample_genesis) PRECOMMIT) policy = Ok true ∧ Certificate.isStructurallyValid (Finalized.quorumCertificate the_record) = Ok true ∧
    Finalized.isStructurallyValid the_record = Ok true) as (H1 & H2 & H3) by (vm_compute; done).
  split; [exact H3| |].
  - split; [exact H2| |].
    + apply Forall_singleton. split; [by exists policy|exists the_signature; split_and!; [done|done|vm_compute; discriminate]|]. unfold u64. cbn. unfold u64_max, i64_max. lia.
    + unfold u64. cbn. unfold u64_max. lia.
  - unfold u64. cbn. unfold u64_max, i64_max. lia.
Qed.

Lemma the_node_healthy : healthy the_node.
Proof.
  split; [by split_and!|exact the_chain_audited|]. intros k r Hr. cbn [finalizationRegistry the_node] in Hr. apply lookup_singleton_Some in Hr as [<- <-]. exact the_record_wire.
Qed.

Lemma the_node_attested : attested the_node policy toy_provider.
Proof.
  intros k r Hr. cbn [finalizationRegistry the_node] in Hr. apply lookup_singleton_Some in Hr as [<- <-]. exists the_set. split; [exact node_history_set|exact the_record_verifies].
Qed.

Lemma the_node_block : Blockchain.blockByHeight 1 sample_chain = Some sample_block.
Proof. unfold Blockchain.blockByHeight. by rewrite (proj2 sample_chain_valid). Qed.

Lemma the_record_matches : Finalized.matchesBlock the_record sample_block = true.
Proof. vm_compute. reflexivity. Qed.

Lemma the_node_finalized : finalized the_node 1.
Proof. exists sample_block, the_record. split_and!; [exact the_node_block|done|exact the_record_matches]. Qed.

Lemma the_node_top : FinalizationRegistry.highestFinalizedHeight (finalizationRegistry the_node) = 1.
Proof. cbn [finalizationRegistry the_node]. unfold FinalizationRegistry.highestFinalizedHeight, entries. generalize the_record as r. intros r. by rewrite map_to_list_singleton. Qed.

Lemma honest_headers_verify_witness : ∃ hs, Service.headerRange the_node 1 10 = Ok hs ∧ 1 - 1 < Z.of_nat (length hs) ∧
  (∀ i h, hs !! i = Some h → Header.height h = 1 + Z.of_nat i) ∧ Verifier.verifyFinalizedHeaderChain hs node_history policy toy_provider = Ok (true, "verified").
Proof.
  apply (honest_headers_verify the_node policy toy_provider 1 1 10 the_node_healthy the_node_attested); [lia|lia|rewrite the_node_top; lia|].
  intros k Hk. replace k with 1 by lia. exact the_node_finalized.
Defined.

(** The header that the node serves for its block, and its proof of the first record. *)
Definition the_header : Header.t :=
  Header.mk "net" "chain" "genesis" (Block.index sample_block) (Block.hash sample_block) (Block.previousHash sample_block) (Block.stateRoot sample_block) (Block.receiptsRoot sample_block)
    (Block.timestamp sample_block) (Block.headerPayload sample_block) (Certificate.validatorSetRoot (Finalized.quorumCertificate the_record)) (Finalized.serialize the_record)
    (Certificate.serialize (Finalized.quorumCertificate the_record)).

Lemma the_header_served : Service.headerAt the_node 1 = Ok (Some the_header).
Proof.
  destruct (headerAt_total the_node 1 the_node_healthy) as (o & E & Ho). destruct (Ho the_node_finalized) as [h ->]. rewrite E. destruct (served_header the_node 1 h the_node_healthy E) as (b & r & Hb & _ & Hr & _ & ->).
  cbn [blockchain the_node] in Hb. rewrite the_node_block in Hb. apply Some_inj in Hb. subst b. cbn [finalizationRegistry the_node] in Hr. apply lookup_singleton_Some in Hr as [_ <-]. reflexivity.
Qed.

Lemma the_header_accepted : Verifier.verifyFinalizedHeaderChain [the_header] node_history policy toy_provider = Ok (true, "verified").
Proof.
  assert (∀ j h, [the_header] !! j = Some h → j = 0%nat ∧ h = the_header) as Hone by (intros [|[|j]] h; cbn [lookup list_lookup]; [|done|done]; intros E; apply Some_inj in E; by subst h).
  assert (∀ j h, [the_header] !! j = Some h → Service.headerAt the_node (1 + Z.of_nat j) = Ok (Some h)) as Hat by (intros j h Hj; destruct (Hone j h Hj) as [-> ->]; exact the_header_served).
  unfold Verifier.verifyFinalizedHeaderChain, Verifier.verifyHeaderChain. rewrite (served_chain the_node the_node_healthy [the_header] 0 1 None); [|lia|exact Hat|discriminate]. cbn [fst negb].
  apply (served_finalized the_node policy toy_provider the_node_healthy the_node_attested [the_header] 1); [exact Hat|]. intros j h Hj. apply (served_height the_node); [exact the_node_healthy|lia|by apply Hat].
Qed.

Lemma nobody_equivocates a : ¬ equivocates (Finalized.quorumCertificate the_record) (Finalized.quorumCertificate the_record) a.
Proof.
  intros (v1 & v2 & H1 & H2 & _ & _ & _ & _ & Hne). apply Hne. cbn [the_record record_for Finalized.quorumCertificate certificate_for Certificate.votes] in H1, H2.
  apply list_elem_of_singleton in H1, H2. by rewrite H1, H2.
Qed.

Lemma the_set_weight : 0 ≤ map_sum ValidatorFacts.weight the_set.
Proof. vm_compute. discriminate. Qed.

Lemma light_clients_agree_witness : same_header the_header the_header.
Proof.
  apply (light_clients_agree [the_header] [the_header] node_history policy toy_provider "verified" "verified" 0 0 the_header the_header the_record the_record the_set []
    the_header_accepted the_header_accepted eq_refl eq_refl eq_refl node_history_set (CertificateTextFacts.record_text _ the_record_wire) (CertificateTextFacts.record_text _ the_record_wire) eq_refl)
    with (j := 0%nat); [apply NoDup_nil_2|exact the_set_weight|intros a Ha; destruct (nobody_equivocates a Ha)| |lia|lia|reflexivity|reflexivity].
  intros x y Hx Hy _. cbn [fmap list_fmap app] in Hx, Hy. set (t := Header.headerPayload the_header) in *. clearbody t.
  apply elem_of_cons in Hx as [->|Hx%list_elem_of_singleton]; apply elem_of_cons in Hy as [->|Hy%list_elem_of_singleton]; congruence.
Defined.

Lemma the_block_servable : servable sample_block.
Proof. apply (chain_servable sample_chain 1 sample_block the_chain_audited). by rewrite (proj2 sample_chain_valid). Qed.

Definition the_proof : TransactionProof.t :=
  TransactionProof.mk the_header (LedgerRecord.id (sample_record 2)) (Json.recordJson quoted (sample_record 2)) (Block.recordsRoot sample_block)
    (CoreMerkle.buildOrderedMerkleProof (LedgerRecord.serialize <$> Block.records sample_block) 0) 0 (LedgerRecord.serialize (sample_record 2)).

Lemma the_proof_facts : LedgerRecord.id (sample_record 2) ≠ "" ∧ RecordFacts.readable (sample_record 2) = true ∧ Block.records sample_block !! 0%nat = Some (sample_record 2) ∧
  Service.findTransaction (LedgerRecord.id (sample_record 2)) [sample_genesis; sample_block] = Some (sample_block, 0%nat, sample_record 2) ∧ Block.index sample_block = 1.
Proof. split_and!; [vm_compute; discriminate|vm_compute; reflexivity..]. Qed.

Lemma the_proof_verifies : Verifier.transactionVerifies quoted the_proof = true.
Proof.
  destruct the_proof_facts as (H1 & H2 & H3 & _). destruct (served_valid the_node 1 the_header the_node_healthy the_header_served) as [Hv Hm].
  exact (proj2 (built_proof_verifies quoted the_header sample_block 0 (sample_record 2) _ Hv Hm eq_refl the_block_servable H3 H1 (or_introl eq_refl) H2)).
Qed.

Definition the_inputs : list string :=
  Header.headerPayload the_header :: ChainFacts.blockInputs sample_block ++
    TreeFacts.leafIn (CoreMerkle.orderedLeaf (TransactionProof.recordIndex the_proof) (TransactionProof.serializedRecord the_proof)) ::
    TreeFacts.stepInputs (CoreMerkle.leafHash (TransactionProof.proof the_proof)) (CoreMerkle.steps (TransactionProof.proof the_proof)).

Lemma the_inputs_free : MerkleFacts.collision_free evp_sha256 the_inputs.
Proof.
  apply (StateTreeProperties.collision_free_sub _ (remove_dups the_inputs)); [intros x Hx; by apply elem_of_remove_dups|].
  apply MerkleFacts.collision_free_check. apply (bool_decide_eq_true_1 _). vm_compute. reflexivity.
Qed.

Lemma transaction_proofs_sound_witness : ∃ r, Block.records sample_block !! 0%nat = Some r ∧ LedgerRecord.serialize r = TransactionProof.serializedRecord the_proof.
Proof.
  destruct (transaction_proofs_sound quoted sample_chain sample_block the_proof the_chain_audited) as (_ & _ & _ & r & Hr & Es & _);
    [rewrite (proj2 sample_chain_valid); right; left|exact the_proof_verifies|reflexivity|exact the_inputs_free|]. exists r. split; [exact Hr|exact Es].
Defined.

Lemma honest_transaction_proofs_verify_witness : ∃ p, Service.transactionProof quoted the_node (LedgerRecord.id (sample_record 2)) = Ok (inr p) ∧ Verifier.transactionVerifies quoted p = true.
Proof.
  destruct the_proof_facts as (H1 & H2 & _ & H4 & H5). destruct (honest_transaction_proofs_verify quoted the_node (LedgerRecord.id (sample_record 2)) sample_block 0 (sample_record 2)) as (p & E & Hv & _);
    [exact the_node_healthy|exact H1|cbn [blockchain the_node]; rewrite (proj2 sample_chain_valid); exact H4|rewrite H5; exact the_node_finalized|exact H2|].
  exists p. split; [exact E|exact Hv].
Defined.

(** An account with a made-up balance is accepted under a genuine header. *)
Lemma account_proof_binds_nothing_witness : ∃ p, AccountProof.header p = the_header ∧ AccountProof.address p = "mallory" ∧
  AccountProof.accountJson p = Json.accountJson quoted (AccountState.mk "mallory" 1000000000 0) ∧ AccountProof.verifies p = true.
Proof.
  destruct (served_valid the_node 1 the_header the_node_healthy the_header_served) as [Hv Hm].
  apply (account_proof_binds_nothing the_header "mallory" (Json.accountJson quoted (AccountState.mk "mallory" 1000000000 0)) Hv Hm); discriminate.
Defined.
End LightClientProperties.
